(* ===== verification/_CoqProject ===== *)
-Q . S2P
Prelude.v
AgentProto.v
F64.v
Decimal.v
Lease.v
Membership.v
Hrw.v
FunctionScheduler.v
Devices.v
Psci.v
IoApic.v
Virtio.v
VirtioRng.v
VirtioMmio.v
VirtioPci.v
SnapshotDelta.v
SnapshotValidate.v
SnapshotFull.v
SnapshotPublish.v
Json.v
MeshRecord.v
MeshHandoff.v
Orchestrator.v
RedisWire.v
MiniRedis.v
RedisClient.v
StreamFollower.v
Controller.v
IpAddr.v
EgressPolicy.v
NetLease.v
LeaseJournal.v
NetSlots.v
SlotFirewall.v
StoreTables.v
StoreSpecs.v
StoreCalls.v
StoreOutcomes.v
StoreInvariant.v
StoreKeeps.v
StoreSafety.v
StoreRuns.v
StoreService.v
StoreCommit.v
StoreExamples.v
StoreActors.v
StorePages.v
StoreRefs.v
StoreReplay.v
StoreRegistry.v
RegistryRuns.v
StoreDigest.v
StoreSchedules.v
VmRegistry.v
VmRegistryHome.v
VmRegistryInvariant.v
VmRegistryRuns.v
DiskDelta.v
DiskDeltaCorrect.v
WarmPool.v
ActorPins.v
Pager.v
PagerInvariant.v
PagerMemory.v
ProcLogic.v
Reconciler.v
ReconcilerSafety.v
ReconcilerOrphans.v
