(* ===== verification/Prelude.v ===== *)
(** * A verification of vibemon

    vibemon runs microVMs.  [vmm/] is the virtual machine monitor: a process per VM that
    owns guest memory, the vCPUs of a hypervisor back end and the devices the guest sees,
    and that writes and restores snapshots.  [vmond/] is the daemon on every node: it
    keeps VMs, volumes and functions, gives guests their network, and forms a mesh with the
    other daemons; schedulers in front of the nodes place sandboxes and share state through a
    Redis-compatible store.  [agent/] runs inside the guest and talks to the daemon over a
    framed byte stream.

    ** Files

    - [Prelude]: results and their [<-?], machine integers, bytes, sorting, the tactics
      and the hint databases that every other file uses.
    - [Decimal], [F64], [Json], [IpAddr]: what the sources use of numbers in text, of binary64
      arithmetic, of JSON values (with serde_json as the class [Serde]) and of [std::net]
      addresses.
    - [AgentProto]: [agent/src/proto.rs].  The frame codec, the search for the marker that
      resynchronises a stream, and the PTY scrollback.  A reader is the sequence of
      results its [read] calls return, so short reads, interruptions and errors are data.
    - [Lease]: [vmond/src/mesh/lease.rs] with the vote handlers of [routes.rs] and
      [runtime.rs].  Votes, their files, the majority requests for a grant, a renewal and
      a release; a cluster is a map of nodes, and clocks, lost messages and failing nodes
      are arguments of a run.
    - [Membership]: [vmond/src/mesh/state.rs] and the handlers of [runtime.rs] that change
      it: peers, the expected size of the cluster and the quorums taken from it.
    - [Hrw]: the BLAKE2b digest and the rendezvous hashing of [vmond/src/mesh/place.rs],
      and the architecture names of [vmond/src/image/mod.rs] that placement compares.
    - [MeshRecord], [MeshHandoff]: [vmond/src/mesh/record.rs].  The records of sandboxes, the
      split of their secrets (kept in memory) from what is written, the store that keeps them across restarts, and
      one node's part in the hand-over of a sandbox to another.
    - [FunctionScheduler]: [vmond/src/function/scheduler.rs].  [FairQueue], [WorkerPool],
      the placement of function workers, and [retire_idle] of [function/mod.rs].
    - [StoreTables], [StoreSpecs], [StoreCalls], [StoreOutcomes]: [vmond/src/function/store.rs], the
      durable store of function calls, with the messages of [proto/vmon/v1/api.proto] it keeps.  A transaction is a state-and-error computation ([tx]); the rows of
      a call are one [CallState], the database a [Db].  [StoreInvariant] has the rules for
      post-conditions, the invariant of the rows ([call_ok]) and the relation of progress
      ([steps]); [StoreKeeps] shows that every operation on the rows respects both,
      [StoreSafety] that every operation on the database does, and [StoreRuns] follows the
      issued lease tokens through runs of operations.  [StoreService] and [StoreCommit] state
      what callers get, [StoreExamples] runs one call.
    - [StoreActors], [StorePages], [StoreRefs], [StoreReplay]: the same store's actors with their
      checkpoints, the paged listings, the references of all rows to the revisions, and requests
      that are sent again.
    - [StoreRegistry], [RegistryRuns], [StoreDigest], [StoreSchedules]: the same store's function
      revisions, aliases, snapshots and published apps ([Reg], around a [Db]), runs of all of its
      operations together, the digests that identify specifications, and schedules ([Sched], around
      a [Reg]).
    - [ActorPins]: [vmond/src/function/actor.rs].  The workers pinned to live actors and the gates
      that serialise their callers.
    - [VmRegistry], [VmRegistryHome], [VmRegistryInvariant], [VmRegistryRuns]:
      [vmond/src/registry.rs] and the writers of [meta.json] in [engine/spawn.rs].  The index of
      sandboxes, the files behind it in a home directory, the invariant between the two, and
      runs with transitions that are interrupted and a process that dies.
    - [DiskDelta], [DiskDeltaCorrect]: [vmond/src/engine/diskdelta.rs].  The stream of changed
      blocks between two disk images, its writer and its reader.
    - [WarmPool]: [vmond/src/pools.rs].  The pools of clones launched ahead of their use, with the
      refiller thread, claims, resizes and shutdowns as interleaved atomic steps.
    - [Orchestrator]: [vmond/src/orch/mod.rs], [table.rs] and [autoscaler.rs].  Heartbeats, the
      table of workers with its shared in-flight counters, placement and the replica plan.
    - [RedisWire], [MiniRedis], [RedisClient], [StreamFollower]: [vmond/src/orch/redis.rs] and
      [miniredis.rs].  The wire format as the client reads it and the server writes it, the
      embedded server's commands, the client's calls with their retries, and the follower of a
      stream.  The client is run against the server, with connections that break.
    - [Controller]: [vmond/src/orch/controller.rs].  The lease of the leading scheduler and the
      janitor that marks the sandboxes of dead workers as lost.
    - [EgressPolicy]: [vmond/src/net/policy.rs].  Protected ranges, trusted exceptions, allowed
      domains and the answers pinned for them.
    - [NetLease], [LeaseJournal], [NetSlots], [SlotFirewall]: [vmond/src/net.rs] and
      [net/slots.rs].  The /30 leases of guests, their journal and its writer thread, the pool
      of prepared TAP slots on top of the leases, and the nftables programs of a slot.
    - [Devices]: [vmm/src/devices/mod.rs] and [pci.rs].  The bus, the PCI host bridge
      with its two configuration mechanisms, and the BAR dispatcher.  [BusDevice] and
      [PciFunction] are interfaces with laws; devices live in a shared store.
    - [Psci]: [vmm/src/hv/hvf/psci.rs].  The power states of vCPUs, as whole calls and as
      interleaved atomic accesses.
    - [IoApic]: [vmm/src/hv/whp/ioapic.rs].  The register window and the redirection table.
    - [Virtio], [VirtioMmio], [VirtioPci], [VirtioRng]: [vmm/src/virtio/].  The device
      trait and the queue operations as classes, the two transports (register windows,
      feature negotiation, activation, MSI-X, save and restore) proved against them, and
      one device.
    - [SnapshotDelta], [SnapshotFull], [SnapshotValidate], [SnapshotPublish]:
      [vmm/src/snapshot/mod.rs] and the parts of [vmm/src/memory.rs] it calls.  Page
      diffs and delta chains, the sparse dump and the private mapping, the validation of
      an envelope, and the generations of a snapshot directory.
    - [Pager], [PagerInvariant], [PagerMemory]: [vmm/src/pager.rs].  The codec of pages, the swap
      file, the remote source, and the fault handler and the sweeper as steps of two interleaved
      threads ([sys_step]); [inv] relates their state to the memory the guest should see.
    - [ProcLogic]: runs of interaction trees, the monitors that watch their calls and the rules
      for [safe], which holds whatever the calls answer.
    - [Reconciler], [ReconcilerSafety], [ReconcilerOrphans]: [vmond/src/mesh/reconciler.rs].  Its
      passes are interaction trees over the calls of its five traits ([callE]): replication, the
      decision about an orphan, the restore from a replica and the rerun from a record under
      a claim, and fencing.

    ** What is shown

    - Leases of volumes: while a majority carries unexpired votes of one holder, no other
      holder's request succeeds; a lease that is reported has such a majority behind it; a vote
      keeps its holder, and its epoch never goes back, until it expires or is released.
      Quorums of the expected size intersect.
    - Records: the store of a node stays well formed; secrets never reach a file;
      a restart recovers every record; on the store of a node an authorization to hand a sandbox over is consumed or
      revoked, never both, as long as nothing overwrites the record with an older one.  The two nodes of a
      hand-over are not modelled together.
    - Scheduling: the fair queue refines one FIFO per revision, with a bound on the turns an
      input waits; a pool stays within its limits and retires no busy worker; taking a member
      away moves only the keys it owned; the in-flight counters are the sums of the outstanding
      placements; the plan of the autoscaler stays within its bounds.
    - Function calls: whatever operations ran, only the lease issued last for an input lets
      its holder act; what is over stays over; the status of a call agrees with its inputs, so no
      call waits for ever; the oldest eligible input is leased first; the holder of a lease
      can commit; a restart gives back all work that was running; a repeated request finds
      the call it made; following the page tokens gives the whole listing.
    - Actors and the registry: the operation of an actor that completes is the one allocated last,
      and its recovery point stays resolvable; a live actor admits one caller at a time, and a lost
      one only after a pin with its last checkpoint; every reference to a revision or an app resolves,
      whatever is registered, activated or deleted; the current revision of an app changes by
      publications and rollbacks only, and by compare-and-swap when the request names what it expects; the digest of a specification identifies it up to the order of its maps;
      a period runs at its next time.
    - Sandboxes of a node: from the insertion of its record on, a generation of a sandbox is handed out once; an interrupted
      transition finishes when it is taken up again; a restart rebuilds the index from the files, unless
      a write was reported as failed after it took effect.
      A clone of a warm pool is handed to at most one caller.  A disk delta turns its base into
      the image it was taken of, and its reader accepts exactly the well-formed streams.
    - Repair of orphans: whatever the mesh, the engine and the peers answer, an orphan is claimed
      only when its owner did not answer (or a repair was begun before, or the VM is reported as gone), on a quorum
      counted over the members that cannot reach that owner, if one is asked for, and by the node whose turn it is; a VM is launched,
      activated and committed only under a claimed and renewed epoch, never twice, and the epoch
      is given back only after the VM was taken down or the engine answered the last question about it with an error.
    - The shared store: two schedulers' wins of the leader lease are a time to live apart, unless a
      renewal came after the deadline it had seen; the follower of a stream delivers every entry after the
      first one it found once and in order; the orphan sweep marks
      exactly the live routes of unknown workers.
    - Guest networks: the addresses handed out for a domain are one lookup's answers, fresh and
      unprotected or trusted; sandboxes that a daemon knows of never share an address; an allocation fails only when
      nothing is left or the store of leases does; the rules of slots give packets the verdicts of the policies of their tenants;
      the journal restores the leases when its snapshots are sent in order.
    - Devices: an access reaches the one device whose range holds all of it; configuration
      writes are confined to the writable registers; the MSI-X table is plain memory to the
      guest and no interrupt raised while masked is lost, whatever the interrupt controller answers; devices are activated only with valid
      queues; negotiation and save/restore keep what they should; the IOAPIC raises what its
      entry says; PSCI refines a small machine of power states.
    - Snapshots: dumps, whole or relative to a chain, restore the memory they were taken
      of; the dump guided by dirty logs, and the private mapping, agree with the plain
      ones; chains too deep are refused; what passes validation can be restored; writing
      a generation is atomic under failures and death of the process, and recovers.
    - Paging: however the guest, the fault handler and the sweeper interleave and whichever calls
      fail, a guest with a pager sees plain memory, and a fault is served in five steps, as long as the swap file can be read.
    - The agent's stream: frames round trip, resynchronisation finds the first marker, and
      reading a stream that ends parses exactly what the grammar of frames says.

    Some lemmas state a behaviour of the code that differs from what it means to do:
    [depart_unknown_shrinks_quorum], [power_on_race], [short_read_gives_stale_bytes],
    [lease_renewal_race], [dollar_position_skips], [route_update_lost_in_sweep],
    [empty_reply_line_panics], [replan_drains_fresh_worker], [mapped_v4_not_protected],
    [public_allowlist_refused], [failed_reset_leaks], [journal_snapshot_race],
    [flush_acked_unwritten], [running_call_fails_at_queue_deadline],
    [deadline_results_never_expire], [register_after_delete_refused],
    [schedule_fires_once], [vmm_update_lost], [launched_clone_leaks], [lost_actor_pinned_fresh],
    [removed_actor_admits_two], [swap_read_error_zeroes_page], [unknown_commit_removes_vm],
    [stuck_vm_leases_released], [unreadable_candidate_released], [prepared_export_leaks] and
    [fence_skipped_after_error].

    ** Conventions

    A [w]-bit integer is a [Z] with its bounds in the theorem or its wrap-around in the
    definition; bytes are [Z] in [[0, 256)].  [Result] is [result]; error texts leave out
    the values they quote.  A [while] or a recursion that is not structural runs on fuel,
    and a lemma shows that the fuel suffices: the length of the data for loops over it,
    [S MAX_DELTA_CHAIN_DEPTH] for chains, whose depth check comes first, the blocks of the
    input for the digest, twenty digits for a 64-bit number, the free blocks for the search of
    a lease, the slabs of an image and the length of the stream for disk deltas.  Third-party code is a parameter with named laws: virtqueues, guest memory
    accessors and entropy in [Virtio] and [VirtioRng], the hypervisor in [IoApic], [postcard]
    in [SnapshotPublish], serde_json in [Json], [Controller] and [LeaseJournal], SHA-1 ([tap_name]) in
    [NetLease], the resolver of the host in [EgressPolicy], [nft] in [SlotFirewall], prost and
    SHA-256 (the classes [Prost] and [Encoder]) in [StoreTables] and [StoreRegistry], the cron
    calendar in [StoreSchedules], the derived codecs and the pretty printer of serde_json (the
    classes [RecordCodecs] and [Pretty]) in [VmRegistry], miniz_oxide (the class [Deflate]) in
    [Pager].  How calls of the VM runtime end is an
    argument of the steps of [WarmPool].

    ** What is not modelled

    The hypervisor bindings, the device back ends and their worker threads, boot
    and configuration, the network broker and cloud drivers, the image pipeline, volumes, the
    facade of the engine, the Postgres copy of the function store and its artifact files, the
    HTTP and gRPC surfaces, the command line, the UI and the SDKs: mostly system calls
    and library calls around small decisions.  Parts with logic of their own that are left out: the
    routing decisions of the scheduler service, the stores and the transport of mesh replication,
    and the workers of functions.  The reconciler's endless loops only sleep between the passes
    that are modelled. *)

From Stdlib Require Export ZArith Lia.
From stdpp Require Export base tactics numbers strings option gmap sorting list.

#[global] Open Scope Z_scope.
#[global] Set Default Goal Selector "!".

(** ** Fallible code

    A Rust [Result<A, E>] is a value of [result E A]; [?] is [result_bind],
    written [x <-? e ; k]. *)
Inductive result (E A : Type) : Type :=
  | Ok (a : A)
  | Err (e : E).
Arguments Ok {E A} a.
Arguments Err {E A} e.

Definition result_bind {E A B : Type} (r : result E A) (f : A -> result E B)
  : result E B :=
  match r with
  | Ok a => f a
  | Err e => Err e
  end.

Definition result_map {E A B : Type} (f : A -> B) (r : result E A) : result E B :=
  match r with
  | Ok a => Ok (f a)
  | Err e => Err e
  end.

Definition map_err {E F A : Type} (f : E -> F) (r : result E A) : result F A :=
  match r with
  | Ok a => Ok a
  | Err e => Err (f e)
  end.

Definition is_ok {E A : Type} (r : result E A) : bool :=
  match r with Ok _ => true | Err _ => false end.

Definition ok_or {E A : Type} (o : option A) (e : E) : result E A :=
  match o with Some a => Ok a | None => Err e end.

Declare Scope vm_scope.
Delimit Scope vm_scope with vm.
Notation "x <-? e ; k" := (result_bind e (fun x => k))
  (at level 20, e at level 100, k at level 200, right associativity) : vm_scope.
Notation "' pat <-? e ; k" := (result_bind e (fun x => match x with pat => k end))
  (at level 20, pat pattern, e at level 100, k at level 200,
   right associativity) : vm_scope.
#[global] Open Scope vm_scope.

Lemma result_bind_Ok {E A B} (r : result E A) (f : A -> result E B) b :
  result_bind r f = Ok b <-> exists a, r = Ok a /\ f a = Ok b.
Proof.
  destruct r; simpl; split; [eauto| |discriminate|]; by intros (? & [= <-] & ?).
Qed.

Lemma result_bind_Err {E A B} (r : result E A) (f : A -> result E B) e :
  result_bind r f = Err e <->
  r = Err e \/ exists a, r = Ok a /\ f a = Err e.
Proof.
  destruct r; simpl; split.
  - eauto.
  - by intros [?|(? & [= <-] & ?)].
  - intros [= ->]. by left.
  - by intros [[= ->]|(? & ? & ?)].
Qed.

Lemma result_bind_ret {E A} (r : result E A) : (x <-? r ; Ok x) = r.
Proof. by destruct r. Qed.

Lemma result_bind_assoc {E A B C} (r : result E A)
    (f : A -> result E B) (g : B -> result E C) :
  result_bind (result_bind r f) g = result_bind r (fun a => result_bind (f a) g).
Proof. by destruct r. Qed.

(** ** Machine integers

    A [w]-bit unsigned integer is a [Z] in [[0, 2^w)]; the operations below
    are the ones the sources call, with the wrap-around, saturation or failure
    they have there. *)
Definition in_width (w x : Z) : Prop := 0 <= x < 2 ^ w.
Definition wrap (w x : Z) : Z := x mod 2 ^ w.
Definition saturating_sub (a b : Z) : Z := Z.max 0 (a - b).
Definition saturating_add (w a b : Z) : Z := Z.min (2 ^ w - 1) (a + b).
Definition saturating_mul (w a b : Z) : Z := Z.min (2 ^ w - 1) (a * b).
Definition checked_add (w a b : Z) : option Z :=
  if a + b <? 2 ^ w then Some (a + b) else None.
Definition checked_sub (a b : Z) : option Z :=
  if b <=? a then Some (a - b) else None.
Definition checked_mul (w a b : Z) : option Z :=
  if a * b <? 2 ^ w then Some (a * b) else None.
(** [u64::div_ceil]. *)
Definition div_ceil (a b : Z) : Z := (a + b - 1) / b.

#[global] Instance in_width_dec w x : Decision (in_width w x).
Proof. unfold in_width. apply _. Defined.

Create HintDb vm.

Lemma wrap_in_width w x : 0 <= w -> in_width w (wrap w x).
Proof. intros. apply Z.mod_pos_bound. lia. Qed.

Lemma wrap_small w x : in_width w x -> wrap w x = x.
Proof. apply Z.mod_small. Qed.

Lemma checked_add_Some w a b c :
  checked_add w a b = Some c <-> c = a + b /\ a + b < 2 ^ w.
Proof. unfold checked_add. destruct (Z.ltb_spec (a + b) (2 ^ w)); naive_solver lia. Qed.

Lemma checked_add_fits w a b : a + b < 2 ^ w -> checked_add w a b = Some (a + b).
Proof. intros. by apply checked_add_Some. Qed.

Lemma checked_add_None w a b : checked_add w a b = None <-> 2 ^ w <= a + b.
Proof. unfold checked_add. destruct (Z.ltb_spec (a + b) (2 ^ w)); naive_solver lia. Qed.

Lemma checked_sub_Some a b c : checked_sub a b = Some c <-> c = a - b /\ b <= a.
Proof. unfold checked_sub. destruct (Z.leb_spec b a); naive_solver lia. Qed.

Lemma checked_mul_Some w a b c :
  checked_mul w a b = Some c <-> c = a * b /\ a * b < 2 ^ w.
Proof. unfold checked_mul. destruct (Z.ltb_spec (a * b) (2 ^ w)); naive_solver lia. Qed.

Lemma land_mask n x : 0 <= n -> Z.land x (2 ^ n - 1) = x mod 2 ^ n.
Proof. intros. by rewrite <- Z.land_ones, Z.ones_equiv. Qed.

Lemma field_mask n k x : 0 <= n -> 0 <= k -> Z.land (Z.shiftr x k) (2 ^ n - 1) = (x / 2 ^ k) mod 2 ^ n.
Proof. intros. by rewrite land_mask, Z.shiftr_div_pow2. Qed.

Lemma testbit_width w x n : 0 <= w <= n -> in_width w x -> Z.testbit x n = false.
Proof.
  intros Hw [Hx Hlt]. destruct (Z.eq_dec x 0) as [->|]; [apply Z.bits_0|].
  apply Z.bits_above_log2; [done|]. apply (Z.lt_le_trans _ w); [|lia].
  apply Z.log2_lt_pow2; lia.
Qed.

(** Powers of two as numerals, and linear arithmetic with division. *)
Ltac eval_pows :=
  repeat match goal with
  | |- context [2 ^ Zpos ?n] => let v := eval vm_compute in (2 ^ Zpos n) in change (2 ^ Zpos n) with v
  end.

Ltac divlia := Z.to_euclidean_division_equations; lia.

#[export] Hint Resolve wrap_in_width : vm.
Create Rewrite HintDb vm_simp.
#[export] Hint Rewrite @checked_add_Some @checked_add_None @checked_sub_Some
  @checked_mul_Some @result_bind_Ok : vm_simp.

(** ** Bytes

    A byte is a [Z] in [[0, 256)]; [le_bytes n x] is [x.to_le_bytes()] for an
    integer of [n] bytes and [of_le_bytes] is [from_le_bytes]. *)
Definition byte_ok (b : Z) : Prop := 0 <= b < 256.
Abbreviation bytes_ok := (Forall byte_ok).

#[global] Instance byte_ok_dec b : Decision (byte_ok b).
Proof. unfold byte_ok. apply _. Defined.

Fixpoint le_bytes (n : nat) (x : Z) : list Z :=
  match n with
  | O => []
  | S n => x mod 256 :: le_bytes n (x / 256)
  end.

Fixpoint of_le_bytes (l : list Z) : Z :=
  match l with
  | [] => 0
  | b :: l => b + 256 * of_le_bytes l
  end.

Lemma length_le_bytes n x : length (le_bytes n x) = n.
Proof. revert x; induction n; simpl; auto. Qed.

Lemma le_bytes_ok n x : bytes_ok (le_bytes n x).
Proof.
  revert x; induction n as [|n IH]; intros x; simpl; constructor; auto.
  apply Z.mod_pos_bound. lia.
Qed.

Lemma of_le_bytes_bound l :
  bytes_ok l -> 0 <= of_le_bytes l < 256 ^ Z.of_nat (length l).
Proof.
  induction 1 as [|b l Hb _ IH]; [simpl; lia|]. cbn [of_le_bytes length].
  rewrite Nat2Z.inj_succ, Z.pow_succ_r by lia. unfold byte_ok in Hb. lia.
Qed.

Lemma of_le_bytes_le_bytes n x :
  0 <= x < 256 ^ Z.of_nat n -> of_le_bytes (le_bytes n x) = x.
Proof.
  revert x; induction n as [|n IH]; intros x Hx.
  { simpl in *. lia. }
  rewrite Nat2Z.inj_succ, Z.pow_succ_r in Hx by lia.
  simpl. rewrite IH; [pose proof (Z.div_mod x 256); lia|].
  split; [apply Z.div_pos; lia|]. apply Z.div_lt_upper_bound; lia.
Qed.

Lemma le_bytes_of_le_bytes l :
  bytes_ok l -> le_bytes (length l) (of_le_bytes l) = l.
Proof.
  induction 1 as [|b l Hb _ IH]; simpl; [done|]. unfold byte_ok in Hb.
  rewrite (Z.mul_comm 256), Z.mod_add, Z.div_add, Z.mod_small, Z.div_small,
    Z.add_0_l, IH by lia. done.
Qed.

#[export] Hint Resolve le_bytes_ok of_le_bytes_bound : vm.

(** ** Lists *)

(** The last [n] elements. *)
Definition lastn {A} (n : nat) (l : list A) : list A := drop (length l - n) l.

Lemma lastn_app_ge {A} n (l k : list A) :
  (n <= length k)%nat -> lastn n (l ++ k) = lastn n k.
Proof.
  intros. unfold lastn. rewrite length_app, drop_app_ge by lia.
  f_equal. lia.
Qed.

Lemma lastn_all {A} n (l : list A) : (length l <= n)%nat -> lastn n l = l.
Proof. intros. unfold lastn. by replace (length l - n)%nat with 0%nat by lia. Qed.

Lemma length_lastn {A} n (l : list A) : length (lastn n l) = Nat.min n (length l).
Proof. unfold lastn. rewrite length_drop. lia. Qed.

(** Keeping the last [n] of what was already cut to its last [n] loses nothing. *)
Lemma lastn_lastn_app {A} n (l k : list A) : lastn n (lastn n l ++ k) = lastn n (l ++ k).
Proof.
  destruct (decide (length l <= n)%nat) as [Hle|Hgt].
  { by rewrite (lastn_all n l). }
  rewrite <- (take_drop (length l - n) l) at 2. rewrite <- (assoc_L (++)).
  rewrite (lastn_app_ge n (take _ _)); [done|].
  rewrite length_app, length_drop. lia.
Qed.

(** ** Sorting

    [slice::sort_by] is a stable sort; a comparison is true when the first
    argument may stay in front. *)
Section sort.
Context {A : Type} (le : A -> A -> bool).

Fixpoint insert_sorted (x : A) (l : list A) : list A :=
  match l with
  | [] => [x]
  | y :: l' => if le x y then x :: l else y :: insert_sorted x l'
  end.

Definition sort_by (l : list A) : list A := foldr insert_sorted [] l.

Lemma insert_sorted_perm x l : insert_sorted x l ≡ₚ x :: l.
Proof.
  induction l as [|y l IH]; simpl; [done|]. case_match; [done|].
  rewrite IH. by apply Permutation_swap.
Qed.

Lemma sort_by_perm l : sort_by l ≡ₚ l.
Proof. induction l as [|x l IH]; simpl; [done|]. by rewrite insert_sorted_perm, IH. Qed.

(** The head of a sorted list comes before everything in it. *)
Lemma sort_by_head (Htotal : forall x y, le x y = true \/ le y x = true)
    (Htrans : forall x y z, le x y = true -> le y z = true -> le x z = true) l x l' :
  sort_by l = x :: l' -> forall y, y ∈ l -> le x y = true.
Proof.
  revert x l'. induction l as [|a l IH]; intros x l' Hs y Hy; [set_solver|]. simpl in Hs.
  destruct (sort_by l) as [|b k] eqn:Hl.
  - pose proof (sort_by_perm l) as Hp. rewrite Hl in Hp. symmetry in Hp.
    apply Permutation_nil_r in Hp as ->. apply list_elem_of_singleton in Hy as ->.
    simplify_eq/=. by destruct (Htotal x x).
  - simpl in Hs. destruct (le a b) eqn:Hab; simplify_eq.
    + apply elem_of_cons in Hy as [->|Hy]; [by destruct (Htotal x x)|].
      eapply Htrans; [done|]. by eapply IH.
    + apply elem_of_cons in Hy as [->|Hy]; [|by eapply IH].
      destruct (Htotal x a) as [|Ha]; [done|congruence].
Qed.

Lemma insert_sorted_Sorted (Htotal : forall x y, le x y = true \/ le y x = true) x l :
  Sorted (fun x y => le x y = true) l -> Sorted (fun x y => le x y = true) (insert_sorted x l).
Proof.
  induction 1 as [|y l Hs IH Hhd]; simpl; [by repeat constructor|].
  destruct (le x y) eqn:Hxy; [by repeat constructor|].
  constructor; [done|]. destruct (Htotal x y) as [|Hyx]; [congruence|].
  destruct l as [|z l]; simpl; [by constructor|].
  destruct (le x z); constructor; [done|by inversion Hhd].
Qed.

Lemma sort_by_Sorted (Htotal : forall x y, le x y = true \/ le y x = true) l :
  Sorted (fun x y => le x y = true) (sort_by l).
Proof. induction l; simpl; [constructor|by apply insert_sorted_Sorted]. Qed.

(** With a total order, the result depends only on which elements there are. *)
Lemma sort_by_permutation (Htotal : forall x y, le x y = true \/ le y x = true)
    (Htrans : forall x y z, le x y = true -> le y z = true -> le x z = true)
    (Hanti : forall x y, le x y = true -> le y x = true -> x = y) l k :
  l ≡ₚ k -> sort_by l = sort_by k.
Proof.
  intros Hp. assert (Transitive (fun x y => le x y = true)) by (intros ???; apply Htrans).
  assert (AntiSymm (=) (fun x y => le x y = true)) by (intros ??; apply Hanti).
  apply (Sorted_unique (fun x y => le x y = true)).
  - by apply sort_by_Sorted.
  - by apply sort_by_Sorted.
  - by rewrite !sort_by_perm.
Qed.

End sort.

Lemma string_leb_trans x y z :
  String.leb x y = true -> String.leb y z = true -> String.leb x z = true.
Proof.
  unfold String.leb. revert y z.
  induction x as [|a x IH]; intros [|b y] [|c z]; simpl; try done.
  unfold Ascii.compare. intros H1 H2.
  destruct (N.compare_spec (Ascii.N_of_ascii a) (Ascii.N_of_ascii b)) as [Eab|Lab|Gab]; [| |done];
    destruct (N.compare_spec (Ascii.N_of_ascii b) (Ascii.N_of_ascii c)) as [Ebc|Lbc|Gbc];
    try done; destruct (N.compare_spec (Ascii.N_of_ascii a) (Ascii.N_of_ascii c)); try done; try lia.
  by apply (IH y).
Qed.

(** ** Tactics *)

(** Case analysis on every [match] and [if] in sight, keeping the equations. *)
Ltac split_matches :=
  repeat (simplify_eq/=; try case_match; simplify_eq/=).

(** Boolean comparisons on [Z] and [nat] in hypotheses and goal as propositions. *)
Ltac bool_to_prop :=
  repeat match goal with
  | H : _ && _ = true |- _ => apply andb_true_iff in H as [? ?]
  | H : _ || _ = false |- _ => apply orb_false_iff in H as [? ?]
  | H : negb _ = true |- _ => apply negb_true_iff in H
  | H : negb _ = false |- _ => apply negb_false_iff in H
  | H : (_ =? _) = true |- _ => apply Z.eqb_eq in H
  | H : (_ =? _) = false |- _ => apply Z.eqb_neq in H
  | H : (_ <? _) = true |- _ => apply Z.ltb_lt in H
  | H : (_ <? _) = false |- _ => apply Z.ltb_ge in H
  | H : (_ <=? _) = true |- _ => apply Z.leb_le in H
  | H : (_ <=? _) = false |- _ => apply Z.leb_gt in H
  | H : bool_decide _ = true |- _ => apply bool_decide_eq_true in H
  | H : bool_decide _ = false |- _ => apply bool_decide_eq_false in H
  end.

(** Open a chain of [<-?] known to succeed. *)
Ltac inv_ok :=
  repeat match goal with
  | H : result_bind _ _ = Ok _ |- _ => apply result_bind_Ok in H as (? & ? & H)
  | H : ok_or ?o _ = Ok _ |- _ => destruct o eqn:?; simpl in H; simplify_eq
  | H : (if ?b then Err _ else _) = Ok _ |- _ => destruct b eqn:?; [discriminate|]
  | H : (if ?b then _ else Err _) = Ok _ |- _ => destruct b eqn:?; [|discriminate]
  | H : Ok _ = Ok _ |- _ => injection H as H; simplify_eq
  | H : Err _ = Ok _ |- _ => discriminate H
  end.
