(* ===== verification/AgentProto.v ===== *)
(** The guest agent's wire protocol ([agent/src/proto.rs]).

    A frame is a nine-byte header (payload length, type, stream id, all little
    endian) followed by the payload.  The reader skips the nine-byte [SYNC]
    marker and, when a header announces an impossible length, scans to the next
    marker.  [Scrollback] is the byte-bounded PTY history.

    A [Read] implementation is the list of what its [read] calls will report: a
    byte, an [Interrupted] error (retried), another error, and end of file once
    the list is empty.  Streams that never end are not covered: the code waits as
    long as they only deliver noise or interruptions. *)

From S2P Require Import Prelude.

Definition MAX_PAYLOAD_LEN : Z := 2 ^ 20.
Definition HEADER_LEN : nat := 9.
Definition SYNC : list Z := [255; 255; 255; 255; 255; 118; 109; 111; 110].

Inductive io_error : Type :=
  | UnexpectedEof
  | InvalidInput
  | OtherIo (code : Z).

Inductive read_event : Type :=
  | EvByte (b : Z)
  | EvInterrupted
  | EvError (e : io_error).

Abbreviation reader := (list read_event).

Record Frame : Type := mkFrame { ty : Z; id : Z; payload : list Z }.

Record PtyBinding : Type := mkPtyBinding { pb_epoch : Z; pb_frame_id : Z }.

#[global] Instance PtyBinding_eq_dec : EqDecision PtyBinding.
Proof. solve_decision. Defined.

(** ** Reading *)

Fixpoint read_first_byte (rd : reader) : result io_error (option Z) * reader :=
  match rd with
  | [] => (Ok None, [])
  | EvByte b :: rd => (Ok (Some b), rd)
  | EvInterrupted :: rd => read_first_byte rd
  | EvError e :: rd => (Err e, rd)
  end.

(** [Read::read_exact] into a buffer of [n] bytes: interrupted reads are
    retried, an early end of file is an error, and what was read before an error
    is lost. *)
Fixpoint read_exact (n : nat) (rd : reader) {struct rd}
  : result io_error (list Z) * reader :=
  match n with
  | O => (Ok [], rd)
  | S m =>
      match rd with
      | [] => (Err UnexpectedEof, [])
      | EvInterrupted :: rd => read_exact n rd
      | EvError e :: rd => (Err e, rd)
      | EvByte b :: rd =>
          match read_exact m rd with
          | (Ok bs, rd) => (Ok (b :: bs), rd)
          | (Err e, rd) => (Err e, rd)
          end
      end
  end.

(** [slice::rotate_left(1)]. *)
Definition rotate_left_1 {A} (l : list A) : list A := drop 1 l ++ take 1 l.

Fixpoint resync_loop (window : list Z) (filled : nat) (rd : reader)
  : result io_error bool * reader :=
  match rd with
  | [] => (Ok false, [])
  | EvInterrupted :: rd => resync_loop window filled rd
  | EvError e :: rd => (Err e, rd)
  | EvByte b :: rd =>
      let '(window, filled) :=
        if bool_decide (filled < HEADER_LEN)%nat
        then (<[filled := b]> window, S filled)
        else (<[(HEADER_LEN - 1)%nat := b]> (rotate_left_1 window), filled) in
      if bool_decide (filled = HEADER_LEN) && bool_decide (window = SYNC)
      then (Ok true, rd)
      else resync_loop window filled rd
  end.

Definition resync_to_marker (rd : reader) : result io_error bool * reader :=
  resync_loop (replicate HEADER_LEN 0) 0 rd.

(** One round of the [loop] of [read_frame]: a final answer, or [None] to go
    round again. *)
Definition read_frame_step (rd : reader)
  : option (result io_error (option Frame)) * reader :=
  match read_first_byte rd with
  | (Err e, rd) => (Some (Err e), rd)
  | (Ok None, rd) => (Some (Ok None), rd)
  | (Ok (Some b0), rd) =>
      match read_exact (HEADER_LEN - 1) rd with
      | (Err e, rd) => (Some (Err e), rd)
      | (Ok rest, rd) =>
          let header := b0 :: rest in
          if bool_decide (header = SYNC) then (None, rd)
          else
            let payload_len := of_le_bytes (take 4 header) in
            if MAX_PAYLOAD_LEN <? payload_len then
              match resync_to_marker rd with
              | (Err e, rd) => (Some (Err e), rd)
              | (Ok false, rd) => (Some (Ok None), rd)
              | (Ok true, rd) => (None, rd)
              end
            else
              let ty := nth 4 header 0 in
              let id := of_le_bytes (take 4 (drop 5 header)) in
              match read_exact (Z.to_nat payload_len) rd with
              | (Err e, rd) => (Some (Err e), rd)
              | (Ok payload, rd) => (Some (Ok (Some (mkFrame ty id payload))), rd)
              end
      end
  end.

(** The loop; [None] only when [fuel] runs out, which
    [read_frame_total] excludes for the fuel [read_frame] gives it. *)
Fixpoint read_frame_loop (fuel : nat) (rd : reader)
  : option (result io_error (option Frame)) * reader :=
  match fuel with
  | O => (None, rd)
  | S fuel =>
      match read_frame_step rd with
      | (Some r, rd) => (Some r, rd)
      | (None, rd) => read_frame_loop fuel rd
      end
  end.

Definition read_frame (rd : reader)
  : option (result io_error (option Frame)) * reader :=
  read_frame_loop (S (length rd)) rd.

(** ** Writing *)

Definition write_frame (ty id : Z) (payload : list Z) : result io_error (list Z) :=
  if MAX_PAYLOAD_LEN <? Z.of_nat (length payload) then Err InvalidInput
  else Ok (le_bytes 4 (wrap 32 (Z.of_nat (length payload))) ++ ty :: le_bytes 4 id
             ++ payload).

(** ** Scrollback *)

Record Scrollback : Type := mkScrollback { sb_bytes : list Z; sb_limit : nat }.

Module Scrollback.

Definition new (limit : nat) : Scrollback := mkScrollback [] limit.

Definition push (s : Scrollback) (chunk : list Z) : Scrollback :=
  let limit := sb_limit s in
  if bool_decide (limit = 0%nat) then mkScrollback [] limit
  else if bool_decide (limit <= length chunk)%nat then
    mkScrollback (drop (length chunk - limit) chunk) limit
  else
    let overflow := (length (sb_bytes s) + length chunk - limit)%nat in
    mkScrollback (drop overflow (sb_bytes s) ++ chunk) limit.

Definition snapshot (s : Scrollback) : list Z := sb_bytes s.

End Scrollback.

(** * Properties *)

(** ** The reader's view of a byte stream *)

(** [delivers rd bs rd'] : reading [length bs] bytes from [rd] yields [bs] and
    leaves [rd']; interrupted reads may come before any of them. *)
Inductive delivers : reader -> list Z -> reader -> Prop :=
  | delivers_nil rd : delivers rd [] rd
  | delivers_byte b rd bs rd' :
      delivers rd bs rd' -> delivers (EvByte b :: rd) (b :: bs) rd'
  | delivers_interrupted b rd bs rd' :
      delivers rd (b :: bs) rd' -> delivers (EvInterrupted :: rd) (b :: bs) rd'.

#[export] Hint Constructors delivers : vm.

Lemma delivers_app rd bs1 bs2 rd'' :
  delivers rd (bs1 ++ bs2) rd'' <->
  exists rd', delivers rd bs1 rd' /\ delivers rd' bs2 rd''.
Proof.
  split.
  - remember (bs1 ++ bs2) as bs eqn:Hbs. intros H. revert bs1 Hbs.
    induction H as [rd|b rd bs rd' H IH|b rd bs rd' H IH]; intros [|b1 bs1] Hbs;
      try discriminate;
      try (eexists; split; [apply delivers_nil|]; simpl in Hbs; rewrite <- Hbs;
           by eauto with vm).
    + simpl in Hbs; simplify_eq. destruct (IH bs1) as (r & ? & ?); eauto with vm.
    + destruct (IH (b1 :: bs1)) as (r & ? & ?); eauto with vm.
  - intros (rd' & H1 & H2). induction H1; simpl in *; eauto with vm.
Qed.

Lemma delivers_bytes bs rd : delivers (map EvByte bs ++ rd) bs rd.
Proof. induction bs; simpl; eauto with vm. Qed.

Lemma read_exact_delivers rd bs rd' :
  delivers rd bs rd' -> read_exact (length bs) rd = (Ok bs, rd').
Proof.
  induction 1 as [rd|b rd bs rd' _ IH|b rd bs rd' _ IH]; simpl in *.
  - by destruct rd.
  - by rewrite IH.
  - done.
Qed.

Lemma read_first_byte_delivers rd b bs rd' :
  delivers rd (b :: bs) rd' ->
  exists rd1, read_first_byte rd = (Ok (Some b), rd1) /\ delivers rd1 bs rd'.
Proof.
  remember (b :: bs) as l eqn:Hl. induction 1; simplify_eq/=; eauto.
Qed.

(** ** Totality: every round consumes input, so the loop's fuel suffices *)

Lemma read_first_byte_shrinks rd b rd' :
  read_first_byte rd = (Ok (Some b), rd') -> (length rd' < length rd)%nat.
Proof.
  induction rd as [|[]]; intros; simplify_eq/=; [lia|]. etrans; [by apply IHrd|lia].
Qed.

Lemma read_first_byte_le rd r rd' :
  read_first_byte rd = (r, rd') -> (length rd' <= length rd)%nat.
Proof.
  induction rd as [|[]]; intros; simplify_eq/=; try lia. etrans; [by apply IHrd|lia].
Qed.

Lemma read_exact_shrinks n rd r rd' :
  read_exact n rd = (r, rd') -> (length rd' <= length rd)%nat.
Proof.
  revert n r rd'. induction rd as [|ev rd IH]; intros [|n] r rd' H; simplify_eq/=; try lia.
  destruct ev; simplify_eq/=; [|by apply IH in H; lia|lia].
  destruct (read_exact n rd) as [[] ] eqn:E; apply IH in E; simplify_eq/=; lia.
Qed.

Lemma resync_loop_shrinks w k rd r rd' :
  resync_loop w k rd = (r, rd') -> (length rd' <= length rd)%nat.
Proof.
  revert w k. induction rd as [|[] rd IH]; intros w k H; simplify_eq/=; try lia.
  - repeat case_match; simplify_eq; try lia; by apply IH in H; lia.
  - apply IH in H. lia.
Qed.

(** Case analysis on one round, with what each read consumed. *)
Ltac solve_shrinks :=
  intros; unfold read_frame_step, resync_to_marker in *;
  repeat case_match; simplify_eq;
  repeat match goal with
  | H : read_first_byte _ = (Ok (Some _), _) |- _ => apply read_first_byte_shrinks in H
  | H : read_first_byte _ = _ |- _ => apply read_first_byte_le in H
  | H : read_exact _ _ = _ |- _ => apply read_exact_shrinks in H
  | H : resync_loop _ _ _ = _ |- _ => apply resync_loop_shrinks in H
  end; lia.

Lemma read_frame_step_shrinks rd rd' :
  read_frame_step rd = (None, rd') -> (length rd' < length rd)%nat.
Proof. solve_shrinks. Qed.

Lemma read_frame_step_le rd r rd' :
  read_frame_step rd = (r, rd') -> (length rd' <= length rd)%nat.
Proof. solve_shrinks. Qed.

Lemma read_frame_loop_fuel n m rd :
  (length rd < n)%nat -> (length rd < m)%nat ->
  read_frame_loop n rd = read_frame_loop m rd.
Proof.
  revert m rd. induction n as [|n IH]; intros [|m] rd Hn Hm; try lia. simpl.
  destruct (read_frame_step rd) as [[r|] rd'] eqn:E; [done|].
  apply read_frame_step_shrinks in E. apply IH; lia.
Qed.

(** The loop as the source writes it: one round, then go round again. *)
Lemma read_frame_unfold rd :
  read_frame rd =
  match read_frame_step rd with
  | (Some r, rd') => (Some r, rd')
  | (None, rd') => read_frame rd'
  end.
Proof.
  unfold read_frame at 1. cbn [read_frame_loop].
  destruct (read_frame_step rd) as [[r|] rd'] eqn:E; [done|].
  apply read_frame_step_shrinks in E. apply read_frame_loop_fuel; lia.
Qed.

(** Reading ends on a reader whose events are listed. *)
Lemma read_frame_total rd :
  exists r rd', read_frame rd = (Some r, rd') /\ (length rd' <= length rd)%nat.
Proof.
  induction rd as [rd IH] using (induction_ltof1 _ (@length _)).
  rewrite read_frame_unfold. destruct (read_frame_step rd) as [[r|] rd'] eqn:E.
  - exists r, rd'. split; [done|]. by eapply read_frame_step_le.
  - apply read_frame_step_shrinks in E. destruct (IH rd' E) as (r & rd'' & -> & ?).
    exists r, rd''. split; [done|]. unfold ltof in *. lia.
Qed.

(** ** Round trip *)

Lemma write_frame_Ok ty id payload bs :
  write_frame ty id payload = Ok bs ->
  Z.of_nat (length payload) <= MAX_PAYLOAD_LEN /\
  bs = le_bytes 4 (Z.of_nat (length payload)) ++ ty :: le_bytes 4 id ++ payload.
Proof.
  unfold write_frame. intros H. inv_ok. bool_to_prop.
  split; [done|]. rewrite wrap_small; [done|].
  unfold in_width, MAX_PAYLOAD_LEN in *. lia.
Qed.

(** No frame header is mistaken for the marker: its length field is too small. *)
Lemma frame_header_not_SYNC len rest :
  0 <= len <= MAX_PAYLOAD_LEN -> le_bytes 4 len ++ rest <> SYNC.
Proof.
  intros Hlen H. apply (f_equal (fun l => of_le_bytes (take 4 l))) in H.
  rewrite take_app_le, take_ge in H by (rewrite length_le_bytes; lia).
  rewrite of_le_bytes_le_bytes in H by (unfold MAX_PAYLOAD_LEN in *; lia).
  vm_compute in H. unfold MAX_PAYLOAD_LEN in *. lia.
Qed.

Lemma read_frame_step_frame ty id payload bs rd rd' :
  in_width 32 id -> write_frame ty id payload = Ok bs -> delivers rd bs rd' ->
  read_frame_step rd = (Some (Ok (Some (mkFrame ty id payload))), rd').
Proof.
  intros Hid [Hlen ->]%write_frame_Ok Hd.
  pose proof (frame_header_not_SYNC (Z.of_nat (length payload)) (ty :: le_bytes 4 id)) as Hns.
  assert (Hle : of_le_bytes (le_bytes 4 (Z.of_nat (length payload))) = Z.of_nat (length payload))
    by (apply of_le_bytes_le_bytes; unfold MAX_PAYLOAD_LEN in *; lia).
  assert (Hie : of_le_bytes (le_bytes 4 id) = id) by (by apply of_le_bytes_le_bytes).
  change (ty :: le_bytes 4 id ++ payload) with ((ty :: le_bytes 4 id) ++ payload) in Hd.
  rewrite (assoc_L (++)) in Hd. apply delivers_app in Hd as (rdp & Hd & Hp).
  remember (le_bytes 4 (Z.of_nat (length payload))) as lb eqn:Elb.
  assert (length lb = 4%nat) as Hlb by (subst; apply length_le_bytes).
  destruct lb as [|l0 [|l1 [|l2 [|l3 []]]]]; try discriminate Hlb.
  pose proof (length_le_bytes 4 id) as Hib.
  destruct (le_bytes 4 id) as [|i0 [|i1 [|i2 [|i3 []]]]]; try discriminate Hib.
  apply read_first_byte_delivers in Hd as (rd1 & E1 & Hd).
  apply read_exact_delivers in Hd, Hp. simpl in Hd.
  unfold read_frame_step. rewrite E1. change (HEADER_LEN - 1)%nat with 8%nat. rewrite Hd.
  rewrite bool_decide_false by (apply Hns; lia). simpl take. rewrite Hle.
  destruct (Z.ltb_spec MAX_PAYLOAD_LEN (Z.of_nat (length payload))); [lia|].
  rewrite Nat2Z.id, Hp. cbn [drop nth take app]. by rewrite Hie.
Qed.

(** A frame written by [write_frame] is read back by [read_frame] with its
    type, stream id and payload, whatever follows it and however many times the
    reads are interrupted; exactly the frame's bytes are consumed. *)
Lemma read_frame_write_frame ty id payload bs rd rd' :
  in_width 32 id ->
  write_frame ty id payload = Ok bs ->
  delivers rd bs rd' ->
  read_frame rd = (Some (Ok (Some (mkFrame ty id payload))), rd').
Proof.
  intros. rewrite read_frame_unfold. by erewrite read_frame_step_frame.
Qed.

(** ** Recovering alignment *)

(** Reference definition: what follows the first marker of a byte list. *)
Fixpoint find_marker (l : list Z) : option (list Z) :=
  if bool_decide (take HEADER_LEN l = SYNC) then Some (drop HEADER_LEN l)
  else match l with
       | [] => None
       | _ :: l => find_marker l
       end.

Definition not_error (ev : read_event) : Prop :=
  match ev with EvError _ => False | _ => True end.

Fixpoint bytes_of (rd : reader) : list Z :=
  match rd with
  | EvByte b :: rd => b :: bytes_of rd
  | _ :: rd => bytes_of rd
  | [] => []
  end.

Lemma find_marker_short l : (length l < HEADER_LEN)%nat -> find_marker l = None.
Proof.
  induction l as [|b l IH]; [done|]. intros Hl. cbn [find_marker].
  rewrite bool_decide_false; [apply IH; simpl in *; lia|].
  intros H. apply (f_equal length) in H. rewrite length_take in H.
  change (length SYNC) with HEADER_LEN in H. lia.
Qed.

(** Skipping the first byte of a full window that is not the marker. *)
Lemma find_marker_window w l :
  length w = HEADER_LEN -> w <> SYNC -> find_marker (w ++ l) = find_marker (drop 1 w ++ l).
Proof.
  intros Hw Hn. destruct w as [|b w]; [done|]. cbn [app find_marker drop].
  rewrite bool_decide_false; [done|].
  change (b :: w ++ l) with ((b :: w) ++ l).
  by rewrite take_app_le, take_ge by (by rewrite Hw).
Qed.

(** The bytes of the window that can still start a marker, before the next read. *)
Definition window_pending (window : list Z) (filled : nat) (pending : list Z) : Prop :=
  length window = HEADER_LEN /\
  ((filled = length pending /\ (filled < HEADER_LEN)%nat /\ take filled window = pending) \/
   (filled = HEADER_LEN /\ pending = drop 1 window)).

Lemma window_pending_push window filled pending b :
  window_pending window filled pending ->
  let '(window', filled') :=
    if bool_decide (filled < HEADER_LEN)%nat
    then (<[filled := b]> window, S filled)
    else (<[(HEADER_LEN - 1)%nat := b]> (rotate_left_1 window), filled) in
  length window' = HEADER_LEN /\ filled' = length (pending ++ [b]) /\
  take filled' window' = pending ++ [b].
Proof.
  intros (Hw & [(-> & Hf & Hp)|(-> & ->)]).
  - rewrite bool_decide_true by done. rewrite length_insert, length_app. simpl.
    split_and!; [done|lia|].
    erewrite take_S_r by (apply list_lookup_insert_eq; lia).
    by rewrite take_insert_ge, Hp by lia.
  - rewrite bool_decide_false by lia.
    destruct window as [|w0 w]; [done|]. unfold rotate_left_1, HEADER_LEN in *.
    rewrite length_insert, !skipn_cons, !firstn_cons, !drop_0, !take_0, !length_app.
    cbn [length] in *. split_and!; [lia..|].
    rewrite insert_app_r_alt by lia. replace (9 - 1 - length w)%nat with 0%nat by lia.
    apply (take_ge (w ++ [b])). rewrite length_app. simpl. lia.
Qed.

(** What a scan of [rd] has to answer when [l] is the bytes still to search. *)
Definition resync_spec (rd : reader) (l : list Z) (out : result io_error bool * reader) : Prop :=
  match find_marker l with
  | Some rest => exists rd', out = (Ok true, rd') /\ bytes_of rd' = rest /\ rd' `suffix_of` rd
  | None => out = (Ok false, [])
  end.

Lemma resync_spec_cons ev rd l out : resync_spec rd l out -> resync_spec (ev :: rd) l out.
Proof.
  unfold resync_spec. destruct (find_marker l); [|done].
  intros (rd' & ? & ? & ?). exists rd'. split_and!; [done..|by apply suffix_cons_r].
Qed.

Lemma resync_loop_find rd window filled pending :
  Forall not_error rd -> window_pending window filled pending ->
  resync_spec rd (pending ++ bytes_of rd) (resync_loop window filled rd).
Proof.
  intros Hrd. revert window filled pending.
  induction Hrd as [|ev rd Hev Hrd IH]; intros window filled pending Hp.
  { unfold resync_spec. simpl. rewrite app_nil_r, find_marker_short; [done|].
    destruct Hp as (Hw & [(? & ? & _)|(_ & ->)]); [lia|]. rewrite length_drop.
    unfold HEADER_LEN in *. lia. }
  destruct ev as [b| |e]; [|by apply resync_spec_cons, IH|done].
  cbn [resync_loop bytes_of].
  pose proof (window_pending_push _ _ _ b Hp) as Hpush.
  destruct (if bool_decide _ then _ else _) as [window' filled'] eqn:E.
  destruct Hpush as (Hw & Hf & Ht).
  rewrite (cons_middle b pending), (assoc_L (++)).
  assert (filled' <= HEADER_LEN)%nat as Hle.
  { destruct Hp as (? & [(? & ? & _)|(? & ?)]); case_bool_decide; simplify_eq; lia. }
  destruct (decide (filled' = HEADER_LEN)) as [Hfull|Hpart]; cycle 1.
  { rewrite (bool_decide_false (filled' = _)) by done.
    apply resync_spec_cons, IH. split; [done|left; split_and!; [done|lia|done]]. }
  rewrite Hfull, take_ge in Ht by lia. rewrite (bool_decide_true (filled' = _)) by done.
  rewrite <- Ht. simpl andb. destruct (decide (window' = SYNC)) as [->|Hns].
  - rewrite bool_decide_true by done. exists rd.
    split_and!; [done..|by exists [EvByte b]].
  - rewrite (bool_decide_false (window' = _)) by done. unfold resync_spec.
    rewrite find_marker_window by done. apply resync_spec_cons, IH. split; [done|by right].
Qed.

(** On a stream with no I/O error, [resync_to_marker] finds the first marker
    wherever it is, also when it overlaps noise that looks like its beginning,
    and stops right behind it; with no marker it reports the end of the stream. *)
Lemma resync_to_marker_spec rd :
  Forall not_error rd -> resync_spec rd (bytes_of rd) (resync_to_marker rd).
Proof.
  intros Hrd. apply (resync_loop_find rd _ _ []); [done|].
  split; [done|left]. unfold HEADER_LEN. split_and!; [done|lia|done].
Qed.

(** ** The grammar of the stream *)

(** What is to be read from the bytes of a stream, and what follows it: nothing at its end; what comes
    after a marker; a frame, as [write_frame] lays it out; after a header with an impossible length, what comes
    after the next marker; and an error when the stream ends within a header or a payload. *)
Inductive parses : list Z -> result io_error (option Frame) -> list Z -> Prop :=
  | parses_end : parses [] (Ok None) []
  | parses_short_header l : (0 < length l < HEADER_LEN)%nat -> parses l (Err UnexpectedEof) []
  | parses_marker l r rest : parses l r rest -> parses (SYNC ++ l) r rest
  | parses_frame f bs rest :
      in_width 32 (id f) -> write_frame (ty f) (id f) (payload f) = Ok bs -> parses (bs ++ rest) (Ok (Some f)) rest
  | parses_short_payload h l :
      length h = HEADER_LEN -> Z.of_nat (length l) < of_le_bytes (take 4 h) <= MAX_PAYLOAD_LEN ->
      parses (h ++ l) (Err UnexpectedEof) []
  | parses_noise h l l' r rest :
      length h = HEADER_LEN -> h <> SYNC -> MAX_PAYLOAD_LEN < of_le_bytes (take 4 h) -> find_marker l = Some l' ->
      parses l' r rest -> parses (h ++ l) r rest
  | parses_only_noise h l :
      length h = HEADER_LEN -> h <> SYNC -> MAX_PAYLOAD_LEN < of_le_bytes (take 4 h) -> find_marker l = None ->
      parses (h ++ l) (Ok None) [].

Lemma read_first_byte_plain rd :
  Forall not_error rd ->
  exists rd', read_first_byte rd = (Ok (head (bytes_of rd)), rd') /\ bytes_of rd' = tail (bytes_of rd) /\
    rd' `suffix_of` rd /\ Forall not_error rd'.
Proof.
  induction 1 as [|ev rd Hev Hrd IH]; [by exists []|]. destruct ev as [b| |e]; [|cbn|done].
  - exists rd. split_and!; [done..|by apply suffix_cons_r|done].
  - destruct IH as (rd' & -> & Hb & Hs & Hn). exists rd'. split_and!; [done..|by apply suffix_cons_r|done].
Qed.

Lemma read_exact_plain n rd :
  Forall not_error rd ->
  exists rd', rd' `suffix_of` rd /\ Forall not_error rd' /\ bytes_of rd' = drop n (bytes_of rd) /\
    read_exact n rd = (if (n <=? length (bytes_of rd))%nat then Ok (take n (bytes_of rd)) else Err UnexpectedEof, rd').
Proof.
  intros Hrd. revert n. induction Hrd as [|ev rd Hev Hrd IH]; intros n.
  { exists []. by destruct n. }
  destruct n as [|n]; [exists (ev :: rd); split_and!; [done|by constructor|done|done]|].
  destruct ev as [b| |e]; [|cbn [read_exact bytes_of]|done].
  - destruct (IH n) as (rd' & Hs & Hn & Hb & Hr). exists rd'. cbn [read_exact bytes_of]. rewrite Hr.
    split_and!; [by apply suffix_cons_r|done|done|]. cbn [length Nat.leb take]. by destruct (n <=? _)%nat.
  - destruct (IH (S n)) as (rd' & Hs & Hn & Hb & Hr). exists rd'. rewrite Hr. split_and!; [by apply suffix_cons_r|done..].
Qed.

Lemma header_frame h l :
  length h = HEADER_LEN -> bytes_ok h -> of_le_bytes (take 4 h) <= MAX_PAYLOAD_LEN -> of_le_bytes (take 4 h) = Z.of_nat (length l) ->
  in_width 32 (of_le_bytes (take 4 (drop 5 h))) /\
  write_frame (nth 4 h 0) (of_le_bytes (take 4 (drop 5 h))) l = Ok (h ++ l).
Proof.
  intros Hh Hok Hle Hl. destruct h as [|a [|b [|c [|d [|t [|i [|j [|k [|m []]]]]]]]]]; try done.
  cbn [take drop nth] in *. repeat match goal with H : bytes_ok (_ :: _) |- _ => apply Forall_cons_1 in H as [? H] end.
  assert (Hlow : bytes_ok [a; b; c; d]) by (repeat apply Forall_cons_2; done || by constructor). assert (Hhigh : bytes_ok [i; j; k; m]) by (repeat apply Forall_cons_2; done || by constructor).
  split; [apply (of_le_bytes_bound _ Hhigh)|]. unfold write_frame. rewrite <- Hl, (proj2 (Z.ltb_ge _ _)) by done.
  rewrite wrap_small by (apply (of_le_bytes_bound _ Hlow)).
  rewrite (le_bytes_of_le_bytes _ Hlow : le_bytes 4 _ = _), (le_bytes_of_le_bytes _ Hhigh : le_bytes 4 _ = _). done.
Qed.

Lemma bytes_of_suffix rd' rd : rd' `suffix_of` rd -> bytes_of rd' `suffix_of` bytes_of rd.
Proof.
  intros [k ->]. induction k as [|ev k IH]; [done|]. cbn [app]. destruct ev; cbn [bytes_of]; [by apply suffix_cons_r|done..].
Qed.

Lemma bytes_ok_suffix (l' l : list Z) : l' `suffix_of` l -> bytes_ok l -> bytes_ok l'.
Proof. intros [k ->] [_ H]%Forall_app. done. Qed.

Lemma plain_suffix rd' rd : rd' `suffix_of` rd -> Forall not_error rd -> Forall not_error rd'.
Proof. intros [k ->] [_ H]%Forall_app. done. Qed.

(** One round of the loop: a final answer that the grammar gives, or less to read for the same answer. *)
Lemma read_frame_step_parses rd o rd' :
  Forall not_error rd -> bytes_ok (bytes_of rd) -> read_frame_step rd = (o, rd') ->
  rd' `suffix_of` rd /\ Forall not_error rd' /\
  match o with
  | Some r => parses (bytes_of rd) r (bytes_of rd')
  | None => forall r rest, parses (bytes_of rd') r rest -> parses (bytes_of rd) r rest
  end.
Proof.
  intros Hrd Hok Hstep. unfold read_frame_step in Hstep.
  destruct (read_first_byte_plain rd Hrd) as (rd1 & E1 & B1 & S1 & N1). rewrite E1 in Hstep.
  destruct (bytes_of rd) as [|b0 bs] eqn:Hb; cbn [head tail] in *.
  { injection Hstep as <- <-. split_and!; [done..|]. rewrite B1. constructor. }
  destruct (read_exact_plain (HEADER_LEN - 1) rd1 N1) as (rd2 & S2 & N2 & B2 & E2). rewrite E2 in Hstep.
  rewrite B1 in *. assert (S12 : rd2 `suffix_of` rd) by (by etrans).
  destruct (Nat.leb_spec (HEADER_LEN - 1) (length bs)) as [Hlen|Hlen].
  2: { injection Hstep as <- <-. split_and!; [done..|]. rewrite B2, drop_ge by (unfold HEADER_LEN in *; lia).
    apply parses_short_header. cbn. unfold HEADER_LEN in *. lia. }
  set (h := b0 :: take (HEADER_LEN - 1) bs) in *.
  assert (Hsplit : b0 :: bs = h ++ bytes_of rd2) by (unfold h; rewrite B2; cbn [app]; by rewrite take_drop).
  assert (Hh : length h = HEADER_LEN) by (unfold h; cbn [length]; rewrite length_take; unfold HEADER_LEN in *; lia).
  rewrite Hsplit in Hok |- *. apply Forall_app in Hok as [Hokh _].
  destruct (decide (h = SYNC)) as [->|Hns].
  { rewrite bool_decide_eq_true_2 in Hstep by done. injection Hstep as <- <-. split_and!; [done..|]. intros. by apply parses_marker. }
  rewrite bool_decide_eq_false_2 in Hstep by done. cbv zeta in Hstep.
  destruct (Z.ltb_spec MAX_PAYLOAD_LEN (of_le_bytes (take 4 h))) as [Hbig|Hfit].
  - pose proof (resync_to_marker_spec rd2 N2) as Hspec. unfold resync_spec in Hspec.
    destruct (find_marker (bytes_of rd2)) as [rest|] eqn:Hf.
    + destruct Hspec as (rd3 & E3 & B3 & S3). rewrite E3 in Hstep. injection Hstep as <- <-.
      split_and!; [by etrans|by eapply plain_suffix|]. intros r rest' Hp. rewrite B3 in Hp. by eapply parses_noise.
    + rewrite Hspec in Hstep. injection Hstep as <- <-. split_and!; [by apply suffix_nil|constructor|]. by apply parses_only_noise.
  - destruct (read_exact_plain (Z.to_nat (of_le_bytes (take 4 h))) rd2 N2) as (rd3 & S3 & N3 & B3 & E3). rewrite E3 in Hstep.
    assert (Hpos : 0 <= of_le_bytes (take 4 h)) by (apply of_le_bytes_bound; by apply Forall_take).
    destruct (Nat.leb_spec (Z.to_nat (of_le_bytes (take 4 h))) (length (bytes_of rd2))) as [Hl|Hl]; injection Hstep as <- <-.
    + split_and!; [by etrans|done|]. rewrite B3.
      destruct (header_frame h (take (Z.to_nat (of_le_bytes (take 4 h))) (bytes_of rd2))) as [Hid Hw]; [done..|rewrite length_take; lia|].
      rewrite <- (take_drop (Z.to_nat (of_le_bytes (take 4 h))) (bytes_of rd2)) at 1. rewrite app_assoc. by apply parses_frame.
    + split_and!; [by etrans|done|]. rewrite B3, drop_ge by lia. apply parses_short_payload; [done|lia].
Qed.

(** C40: [read_frame] reads the grammar of the stream.  On a stream that ends and reports no error but
    interruptions, it returns what the grammar gives for the bytes of the stream, frame, end or error, and
    leaves exactly the bytes behind it: markers are skipped, a frame is the one that [write_frame] lays
    out as these bytes, noise with an impossible length is left at the first marker behind it. *)
Theorem read_frame_parses rd :
  Forall not_error rd -> bytes_ok (bytes_of rd) ->
  exists r rd', read_frame rd = (Some r, rd') /\ parses (bytes_of rd) r (bytes_of rd') /\ rd' `suffix_of` rd.
Proof.
  induction rd as [rd IH] using (induction_ltof1 _ (@length _)). intros Hrd Hok.
  rewrite read_frame_unfold. destruct (read_frame_step rd) as [o rd'] eqn:E.
  destruct (read_frame_step_parses rd o rd' Hrd Hok E) as (Hs & Hn & Hp). destruct o as [r|]; [by exists r, rd'|].
  apply read_frame_step_shrinks in E.
  destruct (IH rd' E Hn) as (r & rd2 & -> & Hp2 & Hs2); [eapply bytes_ok_suffix; [by apply bytes_of_suffix|done]|].
  exists r, rd2. split_and!; [done|by apply Hp|by etrans].
Qed.

(** Noise with an impossible length, a marker, a frame, and a byte of the next one. *)
Definition noisy : reader :=
  map EvByte [1; 0; 255; 0; 0; 0; 0; 0; 0; 255; 255] ++ EvInterrupted :: map EvByte (SYNC ++ [2; 0; 0; 0; 3; 7; 0; 0; 0; 104; 105; 9]).

Lemma read_frame_parses_witness :
  read_frame noisy = (Some (Ok (Some (mkFrame 3 7 [104; 105]))), [EvByte 9]) /\
  parses (bytes_of noisy) (Ok (Some (mkFrame 3 7 [104; 105]))) [9].
Proof.
  assert (E : read_frame noisy = (Some (Ok (Some (mkFrame 3 7 [104; 105]))), [EvByte 9])) by (vm_compute; reflexivity).
  split; [exact E|]. destruct (read_frame_parses noisy) as (r & rd' & E' & Hp & _).
  - vm_compute. repeat constructor.
  - apply (bool_decide_eq_true_1 (bytes_ok (bytes_of noisy))). vm_compute. reflexivity.
  - rewrite E in E'. injection E' as <- <-. exact Hp.
Defined.

(** ** Streams of frames *)

(** What a host writes: frames, and a marker each time it connects. *)
Inductive segment : Type :=
  | SegSync
  | SegFrame (f : Frame).

Definition frame_ok (f : Frame) : Prop :=
  in_width 32 (id f) /\ Z.of_nat (length (payload f)) <= MAX_PAYLOAD_LEN.

Definition segment_bytes (s : segment) : list Z :=
  match s with
  | SegSync => SYNC
  | SegFrame f =>
      match write_frame (ty f) (id f) (payload f) with Ok bs => bs | Err _ => [] end
  end.

Definition segment_frames (s : segment) : list Frame :=
  match s with SegSync => [] | SegFrame f => [f] end.

(** The agent's main loop over [read_frame], until it stops: the frames it saw
    and why it stopped. *)
Fixpoint read_all (fuel : nat) (rd : reader) : list Frame * result io_error () :=
  match fuel with
  | O => ([], Ok ())
  | S fuel =>
      match read_frame rd with
      | (Some (Ok (Some f)), rd) =>
          let '(fs, r) := read_all fuel rd in (f :: fs, r)
      | (Some (Err e), _) => ([], Err e)
      | (_, _) => ([], Ok ())
      end
  end.

Lemma read_frame_step_SYNC rd : read_frame_step (map EvByte SYNC ++ rd) = (None, rd).
Proof.
  pose proof (read_exact_delivers _ _ _ (delivers_bytes (drop 1 SYNC) rd)) as H.
  unfold read_frame_step.
  change (read_first_byte (map EvByte SYNC ++ rd))
    with (@Ok io_error _ (Some 255), map EvByte (drop 1 SYNC) ++ rd).
  change (HEADER_LEN - 1)%nat with (length (drop 1 SYNC)). cbv iota. by rewrite H.
Qed.

Lemma read_frame_segments segs rd :
  Forall (fun s => match s with SegFrame f => frame_ok f | SegSync => True end) segs ->
  match concat (map segment_frames segs) with
  | [] => read_frame (map EvByte (concat (map segment_bytes segs)) ++ rd) = read_frame rd
  | f :: fs => exists segs',
      read_frame (map EvByte (concat (map segment_bytes segs)) ++ rd) =
        (Some (Ok (Some f)), map EvByte (concat (map segment_bytes segs')) ++ rd) /\
      concat (map segment_frames segs') = fs /\
      Forall (fun s => match s with SegFrame f => frame_ok f | SegSync => True end) segs'
  end.
Proof.
  induction 1 as [|s segs Hs Hsegs IH]; [done|].
  cbn [map concat segment_frames segment_bytes]. rewrite map_app, <- (assoc_L (++)).
  destruct s as [|f]; cbn [segment_frames segment_bytes app].
  - rewrite read_frame_unfold, read_frame_step_SYNC. exact IH.
  - exists segs. split_and!; [|done..]. destruct Hs as [Hid Hlen].
    assert (exists bs, write_frame (ty f) (id f) (payload f) = Ok bs) as [bs Hbs].
    { unfold write_frame. destruct (Z.ltb_spec MAX_PAYLOAD_LEN (Z.of_nat (length (payload f))));
        [lia|eauto]. }
    rewrite Hbs, read_frame_unfold,
      (read_frame_step_frame _ _ _ _ _ _ Hid Hbs (delivers_bytes bs _)).
    by destruct f.
Qed.

(** A stream made of well-formed frames and markers in any order is read as
    exactly its frames, in order, and then as a clean end of stream. *)
Lemma read_all_segments segs fuel :
  Forall (fun s => match s with SegFrame f => frame_ok f | SegSync => True end) segs ->
  (length (concat (map segment_frames segs)) < fuel)%nat ->
  read_all fuel (map EvByte (concat (map segment_bytes segs))) =
  (concat (map segment_frames segs), Ok ()).
Proof.
  remember (concat (map segment_frames segs)) as fs eqn:Hfs. intros Hok Hfuel.
  revert segs fuel Hfs Hok Hfuel.
  induction fs as [|f fs IH]; intros segs [|fuel] Hfs Hok Hfuel; try (simpl in *; lia);
    pose proof (read_frame_segments segs [] Hok) as H;
    rewrite <- Hfs, app_nil_r in H; cbn [read_all].
  - by rewrite H.
  - destruct H as (segs' & -> & Hfs' & Hok'). rewrite app_nil_r.
    by rewrite (IH segs' fuel) by (simpl in *; by auto with lia).
Qed.

(** ** Scrollback *)

Lemma scrollback_push_lastn s chunk :
  (length (sb_bytes s) <= sb_limit s)%nat ->
  sb_bytes (Scrollback.push s chunk) = lastn (sb_limit s) (sb_bytes s ++ chunk).
Proof.
  intros Hle. unfold Scrollback.push. repeat case_bool_decide; simpl.
  - unfold lastn. rewrite drop_ge; [done|]. rewrite length_app. lia.
  - by rewrite lastn_app_ge.
  - unfold lastn. rewrite length_app, drop_app_le; [done|lia].
Qed.

Lemma scrollback_push_limit s chunk : sb_limit (Scrollback.push s chunk) = sb_limit s.
Proof. unfold Scrollback.push. by repeat case_bool_decide. Qed.

(** The scrollback shows exactly the last [limit] bytes of everything ever
    pushed, for every sequence of chunks, and so never holds more than [limit]. *)
Lemma scrollback_snapshot limit chunks :
  let s := foldl Scrollback.push (Scrollback.new limit) chunks in
  Scrollback.snapshot s = lastn limit (concat chunks) /\
  (length (Scrollback.snapshot s) <= limit)%nat.
Proof.
  simpl. assert (Hs : forall s hist, sb_limit s = limit -> sb_bytes s = lastn limit hist ->
    sb_bytes (foldl Scrollback.push s chunks) = lastn limit (hist ++ concat chunks)).
  { induction chunks as [|chunk chunks IH]; intros s hist Hl Hb; simpl.
    { by rewrite app_nil_r. }
    rewrite (IH _ (hist ++ chunk)).
    - by rewrite (assoc_L (++)).
    - by rewrite scrollback_push_limit.
    - rewrite scrollback_push_lastn, Hl, Hb; [apply lastn_lastn_app|].
      rewrite Hl, Hb, length_lastn. lia. }
  unfold Scrollback.snapshot. rewrite (Hs _ []) by done. simpl.
  split; [done|]. rewrite length_lastn. lia.
Qed.
