(* ===== verification/F64.v ===== *)
(** The [f64] of the sources: IEEE binary64 as the Standard Library specifies it
    ([SpecFloat] at precision 53, maximal exponent 1024), with the comparisons
    Rust's operators have (false as soon as an operand is a NaN) and the order
    laws the time comparisons of the mesh rely on. *)

From Corelib Require Export SpecFloat.
From S2P Require Import Prelude.

Abbreviation f64 := spec_float.

Definition f64_prec : Z := 53.
Definition f64_emax : Z := 1024.

Definition f64_add : f64 -> f64 -> f64 := SFadd f64_prec f64_emax.
Definition f64_sub : f64 -> f64 -> f64 := SFsub f64_prec f64_emax.
Definition f64_mul : f64 -> f64 -> f64 := SFmul f64_prec f64_emax.
Definition f64_div : f64 -> f64 -> f64 := SFdiv f64_prec f64_emax.
(** [z as f64], rounding to nearest even. *)
Definition f64_of_Z (z : Z) : f64 := binary_normalize f64_prec f64_emax z 0 false.

Definition f64_zero : f64 := S754_zero false.

Definition f64_is_finite (x : f64) : bool :=
  match x with S754_zero _ | S754_finite _ _ _ => true | _ => false end.

Definition f64_is_nan (x : f64) : bool :=
  match x with S754_nan => true | _ => false end.

(** A value a binary64 register can hold. *)
Definition f64_valid (x : f64) : bool := valid_binary f64_prec f64_emax x.

Abbreviation f64_ltb := SFltb.
Abbreviation f64_leb := SFleb.

#[global] Instance f64_eq_dec : EqDecision f64.
Proof. solve_decision. Defined.

(** [f64::min] and [f64::max]: the other operand when one is a NaN. *)
Definition f64_min (a b : f64) : f64 :=
  if f64_is_nan a then b else if f64_is_nan b then a else if f64_ltb b a then b else a.
Definition f64_max (a b : f64) : f64 :=
  if f64_is_nan a then b else if f64_is_nan b then a else if f64_ltb a b then b else a.

(** [f64::ceil]: a whole number below [2^53] in size when it changes anything. *)
Definition f64_ceil (x : f64) : f64 :=
  match x with
  | S754_finite s m e =>
      if 0 <=? e then x
      else
        let q := if s then - (Zpos m / 2 ^ (- e)) else div_ceil (Zpos m) (2 ^ (- e)) in
        if q =? 0 then S754_zero s else f64_of_Z q
  | _ => x
  end.

(** [x as u64]: towards zero, saturating, a NaN is zero. *)
Definition f64_to_u64 (x : f64) : Z :=
  match x with
  | S754_zero _ | S754_nan | S754_infinity true | S754_finite true _ _ => 0
  | S754_infinity false => 2 ^ 64 - 1
  | S754_finite false m e =>
      Z.min (2 ^ 64 - 1) (if 0 <=? e then Zpos m * 2 ^ e else Zpos m / 2 ^ (- e))
  end.

(** ** Order laws *)

Lemma SFcompare_swap a b :
  SFcompare b a = option_map CompOpp (SFcompare a b).
Proof.
  destruct a as [?|[]| |[] m1 e1], b as [?|[]| |[] m2 e2]; try done; simpl; f_equal;
    rewrite (Z.compare_antisym e1 e2), (Pos.compare_antisym m1 m2 : Pos.compare_cont Eq m2 m1 = _);
    destruct (e1 ?= e2); simpl; try done.
Qed.

Lemma SFcompare_nan a b :
  SFcompare a b = None <-> f64_is_nan a = true \/ f64_is_nan b = true.
Proof.
  destruct a, b; simpl; split; try done; try (by intros [|]); auto.
Qed.

Lemma f64_ltb_irrefl a : f64_ltb a a = false.
Proof.
  unfold SFltb. pose proof (SFcompare_swap a a) as H.
  destruct (SFcompare a a) as [[]|]; done.
Qed.

(** [!(a < b)] is [b <= a] unless an operand is a NaN. *)
Lemma f64_leb_negb_ltb a b :
  f64_is_nan a = false -> f64_is_nan b = false -> f64_leb b a = negb (f64_ltb a b).
Proof.
  intros Ha Hb. unfold SFleb, SFltb. rewrite SFcompare_swap.
  destruct (SFcompare a b) as [[]|] eqn:E; try done.
  apply SFcompare_nan in E as [?|?]; congruence.
Qed.

Lemma f64_ltb_leb a b : f64_ltb a b = true -> f64_leb a b = true.
Proof. unfold SFltb, SFleb. by destruct (SFcompare a b) as [[]|]. Qed.

Lemma f64_ltb_not_leb a b : f64_ltb a b = true -> f64_leb b a = false.
Proof. unfold SFltb, SFleb. rewrite (SFcompare_swap a b). by destruct (SFcompare a b) as [[]|]. Qed.

(** Signed lexicographic rank of a number, to inherit transitivity from [Z]. *)
Lemma f64_leb_ltb_trans a b c :
  f64_leb a b = true -> f64_ltb b c = true -> f64_ltb a c = true.
Proof.
  unfold SFleb, SFltb.
  destruct a as [?|[]| |[] m1 e1], b as [?|[]| |[] m2 e2], c as [?|[]| |[] m3 e3];
    try done; simpl; intros Hab Hbc.
  - destruct (Z.compare_spec e1 e2), (Z.compare_spec e2 e3), (Z.compare_spec e1 e3);
      subst; try done; try lia.
    change (Pos.compare_cont Eq) with Pos.compare in *.
    destruct (Pos.compare_spec m1 m2), (Pos.compare_spec m2 m3), (Pos.compare_spec m1 m3);
      subst; try done; lia.
  - destruct (Z.compare_spec e1 e2), (Z.compare_spec e2 e3), (Z.compare_spec e1 e3);
      subst; try done; try lia.
    change (Pos.compare_cont Eq) with Pos.compare in *.
    destruct (Pos.compare_spec m1 m2), (Pos.compare_spec m2 m3), (Pos.compare_spec m1 m3);
      subst; try done; lia.
Qed.

Lemma f64_ltb_trans a b c :
  f64_ltb a b = true -> f64_ltb b c = true -> f64_ltb a c = true.
Proof. intros. eapply f64_leb_ltb_trans; [by apply f64_ltb_leb|done]. Qed.
