(* ===== verification/Decimal.v ===== *)
(** Decimal numbers as text: what [format!] and [to_string] print of an integer and what
    [str::parse] reads, on bytes. *)

From S2P Require Import Prelude.

(** ASCII text as bytes. *)
Definition bs (s : string) : list Z :=
  map (fun c => Z.of_N (Ascii.N_of_ascii c)) (String.list_ascii_of_string s).

(** [str::split_once] on one character. *)
Fixpoint split_once (c : Z) (s : list Z) : option (list Z * list Z) :=
  match s with
  | [] => None
  | b :: s => if b =? c then Some ([], s) else '(l, r) ← split_once c s; Some (b :: l, r)
  end.

Lemma split_once_app c l s : c ∉ l -> split_once c (l ++ c :: s) = Some (l, s).
Proof.
  induction l as [|b l IH]; intros Hn; cbn; [by rewrite Z.eqb_refl|].
  apply not_elem_of_cons in Hn as [Hb Hl]. rewrite (proj2 (Z.eqb_neq _ _)) by done. by rewrite IH.
Qed.

(** [format!] of a [u64]. *)
Fixpoint digits (fuel : nat) (n : Z) (rest : list Z) : list Z :=
  match fuel with
  | O => rest
  | S fuel =>
      let rest := 48 + n mod 10 :: rest in
      if n / 10 =? 0 then rest else digits fuel (n / 10) rest
  end.

(** No [u64] has more than twenty digits. *)
Definition decimal (n : Z) : list Z := digits 20 n [].

Definition is_ascii_digit (b : Z) : bool := (48 <=? b) && (b <=? 57).

(** [str::parse::<u64>] on ASCII digits. *)
Fixpoint parse_u64 (s : list Z) (acc : Z) : result string Z :=
  match s with
  | [] => Ok acc
  | b :: s =>
      acc <-? ok_or (checked_mul 64 acc 10) "number too large" ;
      acc <-? ok_or (checked_add 64 acc (b - 48)) "number too large" ;
      parse_u64 s acc
  end.

Lemma parse_u64_digits fuel n rest :
  0 <= n < 10 ^ Z.of_nat fuel -> in_width 64 n -> (0 < fuel)%nat ->
  parse_u64 (digits fuel n rest) 0 = parse_u64 rest n.
Proof.
  revert n rest. induction fuel as [|fuel IH]; intros n rest Hn Hw Hf; [lia|]. cbn [digits].
  assert (Hm : 0 <= n mod 10 < 10) by (apply Z.mod_pos_bound; lia).
  assert (Hstep : forall q, q * 10 + n mod 10 = n -> 0 <= q ->
            parse_u64 (48 + n mod 10 :: rest) q = parse_u64 rest n).
  { intros q Hq Hq0. unfold in_width in Hw. cbn [parse_u64]. unfold checked_mul.
    rewrite (proj2 (Z.ltb_lt _ _)) by lia. cbn [ok_or result_bind].
    rewrite checked_add_fits by lia. cbn [ok_or result_bind]. f_equal. lia. }
  destruct (Z.eqb_spec (n / 10) 0) as [Hz|Hnz].
  { apply Hstep; [|lia]. pose proof (Z.div_mod n 10). lia. }
  assert (0 <= n / 10 < 10 ^ Z.of_nat fuel).
  { rewrite Nat2Z.inj_succ, Z.pow_succ_r in Hn by lia. split; [apply Z.div_pos; lia|].
    apply Z.div_lt_upper_bound; lia. }
  rewrite IH.
  - apply Hstep; [|lia]. pose proof (Z.div_mod n 10). lia.
  - done.
  - unfold in_width in *. split; [lia|]. apply Z.div_lt_upper_bound; lia.
  - destruct fuel; [|lia]. change (10 ^ Z.of_nat 0) with 1 in *. lia.
Qed.

Lemma digits_forall fuel n rest :
  0 <= n -> Forall (fun b => is_ascii_digit b = true) rest ->
  Forall (fun b => is_ascii_digit b = true) (digits fuel n rest).
Proof.
  revert n rest. induction fuel as [|fuel IH]; intros n rest Hn Hr; cbn [digits]; [done|].
  assert (Hm : 0 <= n mod 10 < 10) by (apply Z.mod_pos_bound; lia).
  assert (Forall (fun b => is_ascii_digit b = true) (48 + n mod 10 :: rest)).
  { constructor; [|done]. unfold is_ascii_digit. apply andb_true_iff. split; apply Z.leb_le; lia. }
  destruct (_ =? 0); [done|]. apply IH; [apply Z.div_pos; lia|done].
Qed.

Lemma length_digits fuel n rest :
  (length rest <= length (digits fuel n rest) <= fuel + length rest)%nat /\
  ((0 < fuel)%nat -> digits fuel n rest <> []).
Proof.
  revert n rest. induction fuel as [|fuel IH]; intros n rest; cbn [digits]; [lia|].
  destruct (_ =? 0); [cbn [length]; split; [lia|done]|].
  destruct (IH (n / 10) (48 + n mod 10 :: rest)) as [Hl _]. cbn [length] in Hl. split; [lia|].
  intros _ He. rewrite He in Hl. cbn [length] in Hl. lia.
Qed.


(** ** Trimming *)

(** ASCII white space, as [str::trim] takes it. *)
Definition is_space (b : Z) : bool := ((9 <=? b) && (b <=? 13)) || (b =? 32).

Fixpoint trim_start (s : list Z) : list Z :=
  match s with
  | b :: s' => if is_space b then trim_start s' else s
  | [] => []
  end.

Definition trim (s : list Z) : list Z := rev (trim_start (rev (trim_start s))).

Lemma digit_no_space b : is_ascii_digit b = true -> is_space b = false.
Proof.
  unfold is_ascii_digit, is_space. intros H. bool_to_prop.
  apply orb_false_iff. split; [apply andb_false_iff; right; apply Z.leb_gt|apply Z.eqb_neq]; lia.
Qed.

Lemma trim_start_digits s k :
  s <> [] -> Forall (fun b => is_ascii_digit b = true) s -> trim_start (s ++ k) = s ++ k.
Proof.
  destruct s as [|b s]; [done|]. intros _ Hs. apply Forall_cons in Hs as [Hb _].
  cbn [app trim_start]. by rewrite (digit_no_space b Hb).
Qed.

Lemma trim_line s : s <> [] -> Forall (fun b => is_ascii_digit b = true) s -> trim (s ++ [10]) = s.
Proof.
  intros Hne Hs. unfold trim. rewrite trim_start_digits by done. rewrite rev_app_distr. cbn [rev app trim_start].
  change (is_space 10) with true. cbn match.
  rewrite <- (app_nil_r (rev s)), trim_start_digits, app_nil_r, rev_involutive; [done| |].
  - intros H. apply (f_equal (@rev Z)) in H. by rewrite rev_involutive in H.
  - apply Forall_forall. intros b Hb. rewrite Forall_forall in Hs. apply Hs.
    apply list_elem_of_In, in_rev, list_elem_of_In. done.
Qed.

(** ** Signed and unsigned parsing *)

Definition dec_step (acc b : Z) : Z := acc * 10 + (b - 48).

(** A non-empty run of digits. *)
Definition parse_digits (s : list Z) : option Z :=
  if (length s =? 0)%nat || negb (forallb is_ascii_digit s) then None
  else Some (fold_left dec_step s 0).

(** [str::parse] of an unsigned integer of [w] bits: a plus sign is accepted, a minus is not.
    The accumulator only grows, so it overflows on the way exactly when the value does. *)
Definition parse_unsigned (w : Z) (s : list Z) : option Z :=
  n ← parse_digits (match s with 43 :: s' => s' | _ => s end);
  if n <? 2 ^ w then Some n else None.

(** [str::parse::<i64>]. *)
Definition parse_i64 (s : list Z) : option Z :=
  match s with
  | 45 :: s' => n ← parse_digits s'; if n <=? 2 ^ 63 then Some (- n) else None
  | 43 :: s' => n ← parse_digits s'; if n <? 2 ^ 63 then Some n else None
  | _ => n ← parse_digits s; if n <? 2 ^ 63 then Some n else None
  end.

(** [to_string] of an [i64]. *)
Definition show_i64 (z : Z) : list Z := if z <? 0 then 45 :: decimal (- z) else decimal z.

Lemma dec_value_digits fuel n rest :
  0 <= n < 10 ^ Z.of_nat fuel -> (0 < fuel)%nat ->
  fold_left dec_step (digits fuel n rest) 0 = fold_left dec_step rest n.
Proof.
  revert n rest. induction fuel as [|fuel IH]; intros n rest Hn Hf; [lia|]. cbn [digits].
  assert (Hm : 0 <= n mod 10 < 10) by (apply Z.mod_pos_bound; lia).
  pose proof (Z.div_mod n 10 ltac:(lia)) as Hdm.
  assert (Hstep : fold_left dec_step (48 + n mod 10 :: rest) (n / 10) = fold_left dec_step rest n)
    by (cbn [fold_left]; f_equal; unfold dec_step; lia).
  destruct (Z.eqb_spec (n / 10) 0) as [Hz|Hnz]; [by rewrite <- Hz|].
  rewrite IH; [done| |].
  - rewrite Nat2Z.inj_succ, Z.pow_succ_r in Hn by lia. split; [apply Z.div_pos; lia|].
    apply Z.div_lt_upper_bound; lia.
  - destruct fuel; [|lia]. change (10 ^ Z.of_nat 1) with 10 in Hn.
    rewrite Z.div_small in Hnz by lia. done.
Qed.

Lemma parse_digits_decimal n : 0 <= n < 10 ^ 20 -> parse_digits (decimal n) = Some n.
Proof.
  intros Hn. unfold parse_digits, decimal.
  destruct (length_digits 20 n []) as [_ Hne].
  assert (Hd : Forall (fun b => is_ascii_digit b = true) (digits 20 n []))
    by (apply digits_forall; [lia|constructor]).
  rewrite (proj2 (Nat.eqb_neq _ _)) by (intros ?%nil_length_inv; apply Hne; [lia|done]).
  rewrite (proj2 (forallb_forall _ _)) by (intros b Hb; rewrite Forall_forall in Hd; by apply Hd, list_elem_of_In).
  cbn [orb negb]. by rewrite dec_value_digits by (exact Hn || lia).
Qed.

(** A printed number starts with a digit. *)
Lemma decimal_cons n : 0 <= n -> exists b s, decimal n = b :: s /\ is_ascii_digit b = true.
Proof.
  intros Hn. assert (Hd : Forall (fun b => is_ascii_digit b = true) (decimal n))
    by (apply digits_forall; [done|constructor]).
  destruct (length_digits 20 n []) as [_ Hne]. unfold decimal in *.
  destruct (digits 20 n []) as [|b s]; [destruct Hne; [lia|done]|].
  apply Forall_cons in Hd as [Hb _]. eauto.
Qed.

Lemma decimal_digits n : 0 <= n -> Forall (fun b => is_ascii_digit b = true) (decimal n).
Proof. intros. apply digits_forall; [done|constructor]. Qed.

(** Digits hold no separator. *)
Lemma decimal_no_char c n : 0 <= n -> is_ascii_digit c = false -> c ∉ decimal n.
Proof.
  intros Hn Hc Hin. pose proof (decimal_digits n Hn) as Hd. rewrite Forall_forall in Hd.
  apply Hd in Hin. congruence.
Qed.

Lemma parse_unsigned_decimal w n :
  0 <= n < 10 ^ 20 -> n < 2 ^ w -> parse_unsigned w (decimal n) = Some n.
Proof.
  intros Hn Hw. unfold parse_unsigned. destruct (decimal_cons n) as (b & s & Hd & Hb); [lia|].
  rewrite Hd.
  assert (match b :: s with 43 :: s' => s' | _ => b :: s end = b :: s) as ->.
  { unfold is_ascii_digit in Hb. bool_to_prop. destruct b as [|p|]; try lia.
    repeat (destruct p as [p|p|]; try done; try lia). }
  rewrite <- Hd, parse_digits_decimal by done. cbn. by rewrite (proj2 (Z.ltb_lt _ _)) by done.
Qed.

Lemma parse_i64_show z : - 2 ^ 63 <= z < 2 ^ 63 -> parse_i64 (show_i64 z) = Some z.
Proof.
  intros Hz. unfold show_i64. destruct (Z.ltb_spec z 0) as [Hneg|Hpos].
  - unfold parse_i64. rewrite parse_digits_decimal by lia. cbn.
    rewrite (proj2 (Z.leb_le _ _)) by lia. f_equal. lia.
  - unfold parse_i64. destruct (decimal_cons z) as (b & s & Hd & Hb); [lia|]. rewrite Hd.
    assert (match b :: s with
      | 45 :: s' => n ← parse_digits s'; if n <=? 2 ^ 63 then Some (- n) else None
      | 43 :: s' => n ← parse_digits s'; if n <? 2 ^ 63 then Some n else None
      | _ => n ← parse_digits (b :: s); if n <? 2 ^ 63 then Some n else None
      end = n ← parse_digits (b :: s); if n <? 2 ^ 63 then Some n else None) as ->.
    { unfold is_ascii_digit in Hb. bool_to_prop. destruct b as [|p|]; try lia.
      repeat (destruct p as [p|p|]; try done; try lia). }
    rewrite <- Hd, parse_digits_decimal by lia. cbn. by rewrite (proj2 (Z.ltb_lt _ _)) by lia.
Qed.

(** Lower-case hexadecimal digits. *)
Definition hex_digit (d : Z) : Z := if d <? 10 then 48 + d else 87 + d.
Definition hex_encode (s : list Z) : list Z := concat (map (fun b => [hex_digit (b / 16); hex_digit (b mod 16)]) s).
