(* ===== verification/Lease.v ===== *)
(** Distributed writable-volume leases ([vmond/src/mesh/lease.rs]).

    Every node keeps one vote per volume, a JSON file under its [leases]
    directory; a holder owns the lease while a strict majority of the expected
    members carry its unexpired vote.  The state of a node is its directory,
    from volume name to file contents.  The clock and the failures of the file
    system are inputs of each operation ([LeaseEnv]); [serde_json] is the class
    [LeaseCodec]; the network is the [post] callback of the requests.

    [cluster_post] plugs the vote handlers of the peers
    ([mesh/routes.rs::lease_vote], [mesh/runtime.rs]) behind that callback. *)

From S2P Require Import Prelude F64.

(** ** Data *)

Record LeaseRecord : Type := mkLeaseRecord {
  volume : string; holder : string; epoch : Z; granted_at : f64; ttl : f64 }.

Record LeaseDiskRecord : Type := mkLeaseDiskRecord {
  d_holder : string; d_epoch : Z; d_granted_at : f64; d_ttl : f64 }.

Record LeaseWireRecord : Type := mkLeaseWireRecord {
  w_volume : string; w_holder : string; w_epoch : Z; w_granted_at : f64; w_ttl : f64;
  w_expires_at : f64; w_renew_deadline : f64 }.

#[global] Instance LeaseRecord_eq_dec : EqDecision LeaseRecord.
Proof. solve_decision. Defined.
#[global] Instance LeaseDiskRecord_eq_dec : EqDecision LeaseDiskRecord.
Proof. solve_decision. Defined.

(** The [EngineError]s of this file; a constructor stands for the message. *)
Inductive lease_error : Type :=
  | InvalidVolumeName (name : string)
  | EmptyHolder
  | BadTtl
  | InvalidLeaseFile (name : string)
  | BadExpectedMembers
  | IoFailure (os_code : Z).

Abbreviation Result := (result lease_error).

(** Why a vote was denied. *)
Inductive deny_reason : Type :=
  | stale_epoch | conflict | missing | mismatch | expired | past_renew_deadline.

Record LeaseDecision : Type := mkLeaseDecision {
  granted : bool; record : option LeaseRecord; reason : option deny_reason }.

Module LeaseDecision.
Definition granted (r : LeaseRecord) : LeaseDecision := mkLeaseDecision true (Some r) None.
Definition denied (r : option LeaseRecord) (why : deny_reason) : LeaseDecision :=
  mkLeaseDecision false r (Some why).
Definition released : LeaseDecision := mkLeaseDecision true None None.
End LeaseDecision.

Record LeaseVoteRequest : Type := mkLeaseVoteRequest {
  vr_volume : string; vr_holder_node : string; vr_epoch : Z; vr_ttl : f64 }.

Record LeaseReleaseRequest : Type := mkLeaseReleaseRequest {
  rr_volume : string; rr_holder_node : string; rr_epoch : Z }.

(** ** Validation *)

Definition is_ascii_lowercase (b : Z) : bool := (97 <=? b) && (b <=? 122).
Definition is_ascii_digit (b : Z) : bool := (48 <=? b) && (b <=? 57).

Definition is_volume_name_start (b : Z) : bool :=
  is_ascii_lowercase b || is_ascii_digit b || (b =? 95).

Definition is_volume_name_rest (b : Z) : bool :=
  is_volume_name_start b || (b =? 46) || (b =? 45).

(** [str::as_bytes]. *)
Fixpoint as_bytes (s : string) : list Z :=
  match s with
  | EmptyString => []
  | String c s => Z.of_N (Ascii.N_of_ascii c) :: as_bytes s
  end.

Definition is_valid_volume_name (name : string) : bool :=
  match as_bytes name with
  | [] => false
  | b :: rest =>
      negb (64 <? Z.of_nat (length (b :: rest))) && is_volume_name_start b
      && forallb is_volume_name_rest rest
  end.

Definition validate_volume (v : string) : Result string :=
  if negb (is_valid_volume_name v) then Err (InvalidVolumeName v) else Ok v.

Definition validate_volume_lossy (v : string) : string :=
  match validate_volume v with Ok v => v | Err _ => v end.

Definition validate_holder (h : string) : Result string :=
  if bool_decide (h = EmptyString) then Err EmptyHolder else Ok h.

Definition validate_ttl (t : f64) : Result () :=
  if negb (f64_is_finite t) || f64_leb t f64_zero then Err BadTtl else Ok ().

(** ** Records *)

Module LeaseRecord.

Definition new (volume holder : string) (epoch : Z) (granted_at ttl : f64)
  : Result LeaseRecord :=
  volume <-? validate_volume volume ;
  holder <-? validate_holder holder ;
  _ <-? validate_ttl ttl ;
  Ok (mkLeaseRecord volume holder epoch granted_at ttl).

Definition expires_at (r : LeaseRecord) : f64 := f64_add (granted_at r) (ttl r).

Definition renew_deadline (r : LeaseRecord) : f64 :=
  f64_add (granted_at r) (f64_div (ttl r) (f64_of_Z 2)).

Definition to_disk (r : LeaseRecord) : LeaseDiskRecord :=
  mkLeaseDiskRecord (holder r) (epoch r) (granted_at r) (ttl r).

Definition to_wire (r : LeaseRecord) : LeaseWireRecord :=
  mkLeaseWireRecord (volume r) (holder r) (epoch r) (granted_at r) (ttl r)
    (expires_at r) (renew_deadline r).

Definition from_disk (volume : string) (d : LeaseDiskRecord) : Result LeaseRecord :=
  new volume (d_holder d) (d_epoch d) (d_granted_at d) (d_ttl d).

Definition try_from (w : LeaseWireRecord) : Result LeaseRecord :=
  new (w_volume w) (w_holder w) (w_epoch w) (w_granted_at w) (w_ttl w).

End LeaseRecord.

(** A vote counts at time [now]. *)
Definition live_at (now : f64) (r : LeaseRecord) : bool := f64_ltb now (LeaseRecord.expires_at r).

(** ** The JSON library

    [serde_json::to_vec] and [from_str] at [LeaseDiskRecord].  JSON has no
    NaN and no infinity, so only records with finite times are promised to
    survive the trip; the file ends with a newline, which [from_str] skips. *)
Class LeaseCodec : Type := {
  to_vec : LeaseDiskRecord -> list Z;
  from_str : list Z -> option LeaseDiskRecord;
  from_str_to_vec d :
    f64_valid (d_granted_at d) = true -> f64_is_finite (d_granted_at d) = true ->
    f64_valid (d_ttl d) = true -> f64_is_finite (d_ttl d) = true ->
    in_width 64 (d_epoch d) ->
    from_str (to_vec d ++ [10]) = Some d;
}.

(** One operation's view of the host: the clock, and the error the file system
    will report for a read, a write or rename, and a removal, if any. *)
Record LeaseEnv : Type := mkLeaseEnv {
  clock : f64; read_fault : option Z; write_fault : option Z; remove_fault : option Z }.

Definition healthy_env (now : f64) : LeaseEnv := mkLeaseEnv now None None None.

Abbreviation lease_dir := (gmap string (list Z)).
(** The directories of a cluster, by node id. *)
Abbreviation nodes := (gmap string (gmap string (list Z))).

Section manager.
Context `{LeaseCodec}.

(** [path_for] without the directory and the suffix, which are constant. *)
Definition path_for (v : string) : string := validate_volume_lossy v.

Definition load_unlocked (env : LeaseEnv) (dir : lease_dir) (v : string)
  : Result (option LeaseRecord) :=
  match read_fault env with
  | Some code => Err (IoFailure code)
  | None =>
      match dir !! path_for v with
      | None => Ok None
      | Some text =>
          disk <-? ok_or (from_str text) (InvalidLeaseFile v) ;
          r <-? LeaseRecord.from_disk v disk ;
          Ok (Some r)
      end
  end.

(** Written to a temporary file and renamed over the old one: a failure leaves
    the directory as it was. *)
Definition store_unlocked (env : LeaseEnv) (dir : lease_dir) (r : LeaseRecord)
  : Result () * lease_dir :=
  match write_fault env with
  | Some code => (Err (IoFailure code), dir)
  | None => (Ok (), <[path_for (volume r) := to_vec (LeaseRecord.to_disk r) ++ [10]]> dir)
  end.

Definition current (env : LeaseEnv) (dir : lease_dir) (v : string)
  : Result (option LeaseRecord) :=
  v <-? validate_volume v ;
  load_unlocked env dir v.

(** [sort_by(|l, r| l.volume.cmp(&r.volume))]. *)
Definition sort_by_volume (l : list LeaseRecord) : list LeaseRecord :=
  sort_by (fun a b => String.leb (volume a) (volume b)) l.

(** [names]: the stems of the [.json] files in the order [read_dir] lists them. *)
Definition active_votes (env : LeaseEnv) (dir : lease_dir) (names : list string)
  (now : option f64) : list LeaseRecord :=
  let at_ := default (clock env) now in
  sort_by_volume (omap (fun v =>
    match load_unlocked env dir v with
    | Ok (Some r) => if live_at at_ r then Some r else None
    | _ => None
    end) names).

(** Store a fresh vote and report it: the common end of grant and renew. *)
Definition store_vote (env : LeaseEnv) (dir : lease_dir) (v h : string) (e : Z) (t : f64)
  : Result LeaseDecision * lease_dir :=
  match LeaseRecord.new v h e (clock env) t with
  | Err err => (Err err, dir)
  | Ok r =>
      match store_unlocked env dir r with
      | (Err err, dir) => (Err err, dir)
      | (Ok _, dir) => (Ok (LeaseDecision.granted r), dir)
      end
  end.

(** The three validations that open both votes, then the load. *)
Definition validated_load (env : LeaseEnv) (dir : lease_dir) (v h : string) (t : f64)
  : Result (option LeaseRecord) :=
  v <-? validate_volume v ;
  _ <-? validate_holder h ;
  _ <-? validate_ttl t ;
  load_unlocked env dir v.

Definition vote_grant (env : LeaseEnv) (dir : lease_dir) (v h : string) (e : Z) (t : f64)
  : Result LeaseDecision * lease_dir :=
  match validated_load env dir v h t with
  | Err err => (Err err, dir)
  | Ok (Some existing) =>
      if live_at (clock env) existing then
        if e <? epoch existing then
          (Ok (LeaseDecision.denied (Some existing) stale_epoch), dir)
        else if negb (bool_decide (holder existing = h)) then
          (Ok (LeaseDecision.denied (Some existing) conflict), dir)
        else store_vote env dir v h e t
      else store_vote env dir v h e t
  | Ok None => store_vote env dir v h e t
  end.

Definition vote_renew (env : LeaseEnv) (dir : lease_dir) (v h : string) (e : Z) (t : f64)
  : Result LeaseDecision * lease_dir :=
  match validated_load env dir v h t with
  | Err err => (Err err, dir)
  | Ok None => (Ok (LeaseDecision.denied None missing), dir)
  | Ok (Some existing) =>
      if negb (bool_decide (holder existing = h)) || negb (epoch existing =? e) then
        (Ok (LeaseDecision.denied (Some existing)
               (if e <? epoch existing then stale_epoch else mismatch)), dir)
      else if f64_leb (LeaseRecord.expires_at existing) (clock env) then
        (Ok (LeaseDecision.denied (Some existing) expired), dir)
      else if f64_ltb (LeaseRecord.renew_deadline existing) (clock env) then
        (Ok (LeaseDecision.denied (Some existing) past_renew_deadline), dir)
      else store_vote env dir v h e t
  end.

Definition vote_release (env : LeaseEnv) (dir : lease_dir) (v h : string) (e : Z)
  : Result LeaseDecision * lease_dir :=
  match (v <-? validate_volume v ; _ <-? validate_holder h ; load_unlocked env dir v) with
  | Err err => (Err err, dir)
  | Ok None => (Ok LeaseDecision.released, dir)
  | Ok (Some existing) =>
      if bool_decide (holder existing = h) && (epoch existing =? e) then
        match remove_fault env with
        | Some code => (Err (IoFailure code), dir)
        | None => (Ok LeaseDecision.released, delete (path_for v) dir)
        end
      else
        (Ok (LeaseDecision.denied (Some existing)
               (if e <? epoch existing then stale_epoch else mismatch)), dir)
  end.

(** ** Majority requests *)

Record LeaseRequestArgs : Type := mkLeaseRequestArgs {
  ra_volume : string; ra_holder_node : string; ra_epoch : Z; ra_ttl : f64;
  ra_self_node : string; ra_peer_urls : list (string * string); ra_expected_members : Z }.

Record LeaseReleaseArgs : Type := mkLeaseReleaseArgs {
  la_volume : string; la_holder_node : string; la_epoch : Z;
  la_self_node : string; la_peer_urls : list (string * string) }.

Inductive lease_op : Type := OpGrant | OpRenew.

Inductive lease_body : Type :=
  | BodyVote (r : LeaseVoteRequest)
  | BodyRelease (r : LeaseReleaseRequest).

(** The message of [LeaseUnavailable]. *)
Inductive unavailable_message : Type :=
  | MsgValidation (e : lease_error)
  | MsgQuorum (op : lease_op) (v : string) (votes needed : Z) (why : option deny_reason).

Record LeaseUnavailable : Type := mkLeaseUnavailable {
  message : unavailable_message; votes : Z; needed : Z }.

Definition validation_unavailable (e : lease_error) : LeaseUnavailable :=
  mkLeaseUnavailable (MsgValidation e) 0 0.

Definition majority_needed (expected_members : Z) : Result Z :=
  if expected_members <? 1 then Err BadExpectedMembers else Ok (expected_members / 2 + 1).

Definition quorum_reached (votes expected_members : Z) : Result bool :=
  needed <-? majority_needed expected_members ;
  Ok (needed <=? votes).

Definition grant_path : string := "/v1/mesh/lease/grant".
Definition renew_path : string := "/v1/mesh/lease/renew".
Definition release_path : string := "/v1/mesh/lease/release".

Section requests.
(** The [post] callback: it talks to a peer and may change the world [St]. *)
Context {St PErr : Type}
  (post : St -> string -> string -> lease_body -> result PErr LeaseDecision * St).

Record ballot : Type := mkBallot {
  b_votes : Z; b_record : option LeaseRecord; b_granted_nodes : gset string }.

(** The voting loop over [args.peer_urls]. *)
Fixpoint collect_votes (path : string) (body : lease_body) (self : string)
  (peers : list (string * string)) (b : ballot) (s : St) : ballot * St :=
  match peers with
  | [] => (b, s)
  | (node, url) :: peers =>
      if bool_decide (node = self) then collect_votes path body self peers b s
      else
        match post s url path body with
        | (Err _, s) => collect_votes path body self peers b s
        | (Ok d, s) =>
            let b :=
              if granted d then
                mkBallot (b_votes b + 1)
                  (match b_record b with None => record d | Some r => Some r end)
                  ({[node]} ∪ b_granted_nodes b)
              else b in
            collect_votes path body self peers b s
        end
  end.

(** The clean-up loop: release on every peer that had voted yes. *)
Fixpoint release_granted (body : lease_body) (self : string) (granted_nodes : gset string)
  (peers : list (string * string)) (s : St) : St :=
  match peers with
  | [] => s
  | (node, url) :: peers =>
      if bool_decide (node = self) || negb (bool_decide (node ∈ granted_nodes))
      then release_granted body self granted_nodes peers s
      else release_granted body self granted_nodes peers (snd (post s url release_path body))
  end.

(** [env] is the host during the local vote, [env'] during the local clean-up. *)
Definition request_majority (op : lease_op) (args : LeaseRequestArgs) (cleanup : bool)
  (env env' : LeaseEnv) (dir : lease_dir) (s : St)
  : result LeaseUnavailable LeaseRecord * (lease_dir * St) :=
  match (v <-? validate_volume (ra_volume args) ;
         h <-? validate_holder (ra_holder_node args) ;
         _ <-? validate_ttl (ra_ttl args) ;
         n <-? majority_needed (ra_expected_members args) ;
         Ok (v, h, n)) with
  | Err e => (Err (validation_unavailable e), (dir, s))
  | Ok (v, h, n) =>
      let '(local, dir) :=
        match op with
        | OpGrant => vote_grant env dir v h (ra_epoch args) (ra_ttl args)
        | OpRenew => vote_renew env dir v h (ra_epoch args) (ra_ttl args)
        end in
      match local with
      | Err e => (Err (validation_unavailable e), (dir, s))
      | Ok local =>
          let self := ra_self_node args in
          let body := BodyVote (mkLeaseVoteRequest v h (ra_epoch args) (ra_ttl args)) in
          let path := match op with OpGrant => grant_path | OpRenew => renew_path end in
          let b0 :=
            if granted local then mkBallot 1 (record local) {[self]} else mkBallot 0 None ∅ in
          let '(b, s) := collect_votes path body self (ra_peer_urls args) b0 s in
          match (if (n <=? b_votes b) && granted local then b_record b else None) with
          | Some r => (Ok r, (dir, s))
          | None =>
              let '(dir, s) :=
                if cleanup && negb (bool_decide (b_granted_nodes b = ∅)) then
                  (snd (vote_release env' dir v h (ra_epoch args)),
                   release_granted (BodyRelease (mkLeaseReleaseRequest v h (ra_epoch args)))
                     self (b_granted_nodes b) (ra_peer_urls args) s)
                else (dir, s) in
              (Err (mkLeaseUnavailable (MsgQuorum op v (b_votes b) n (reason local))
                      (b_votes b) n), (dir, s))
          end
      end
  end.

Definition request_grant (args : LeaseRequestArgs) := request_majority OpGrant args true.
Definition request_renew (args : LeaseRequestArgs) := request_majority OpRenew args false.

(** [post(...)] on every other peer, answers ignored. *)
Fixpoint post_all (path : string) (body : lease_body) (self : string)
  (peers : list (string * string)) (s : St) : St :=
  match peers with
  | [] => s
  | (node, url) :: peers =>
      post_all path body self peers
        (if bool_decide (node = self) then s else snd (post s url path body))
  end.

Definition request_release (args : LeaseReleaseArgs) (env : LeaseEnv)
  (dir : lease_dir) (s : St) : Result () * (lease_dir * St) :=
  match (v <-? validate_volume (la_volume args) ;
         h <-? validate_holder (la_holder_node args) ; Ok (v, h)) with
  | Err e => (Err e, (dir, s))
  | Ok (v, h) =>
      match vote_release env dir v h (la_epoch args) with
      | (Err e, dir) => (Err e, (dir, s))
      | (Ok _, dir) =>
          (Ok (), (dir, post_all release_path
             (BodyRelease (mkLeaseReleaseRequest v h (la_epoch args)))
             (la_self_node args) (la_peer_urls args) s))
      end
  end.

End requests.

(** ** The peers' side *)

(** [to_i64] of the JSON number, [0] past its range, then [i64_to_u64]. *)
Definition lease_vote_epoch (e : Z) : Z := if e <? 2 ^ 63 then e else 0.

(** [lease_vote] on one node, by request path (no shared cluster store). *)
Definition lease_vote (env : LeaseEnv) (dir : lease_dir) (path : string) (body : lease_body)
  : Result LeaseDecision * lease_dir :=
  match body with
  | BodyVote r =>
      if bool_decide (path = grant_path) then
        vote_grant env dir (vr_volume r) (vr_holder_node r) (lease_vote_epoch (vr_epoch r)) (vr_ttl r)
      else
        vote_renew env dir (vr_volume r) (vr_holder_node r) (lease_vote_epoch (vr_epoch r)) (vr_ttl r)
  | BodyRelease r =>
      vote_release env dir (rr_volume r) (rr_holder_node r) (lease_vote_epoch (rr_epoch r))
  end.

(** The network: [resolve] finds the node behind a URL, [up] says which nodes
    can be reached, [envs] is each node's host. *)
Definition cluster_post (resolve : string -> option string) (up : string -> bool)
  (envs : string -> LeaseEnv) (s : nodes) (url path : string) (body : lease_body)
  : result () LeaseDecision * nodes :=
  match resolve url with
  | Some node =>
      match up node, s !! node with
      | true, Some dir =>
          match lease_vote (envs node) dir path body with
          | (Ok d, dir) => (Ok d, <[node := dir]> s)
          | (Err _, dir) => (Err (), <[node := dir]> s)
          end
      | _, _ => (Err (), s)
      end
  | None => (Err (), s)
  end.

(** A grant request made on node [ra_self_node], whose directory is part of the
    cluster. *)
Definition cluster_request_grant (resolve : string -> option string) (up : string -> bool)
  (envs envs' : string -> LeaseEnv) (args : LeaseRequestArgs) (s : nodes)
  : result LeaseUnavailable LeaseRecord * nodes :=
  let self := ra_self_node args in
  match s !! self with
  | None => (Err (validation_unavailable (IoFailure 0)), s)
  | Some dir =>
      let '(r, (dir, s)) :=
        request_grant (cluster_post resolve up envs) args (envs self) (envs' self) dir s in
      (r, <[self := dir]> s)
  end.

End manager.

(** * Properties *)

Section properties.
Context `{LeaseCodec}.

(** ** Shared lemmas *)

Lemma validate_volume_Ok v v' :
  validate_volume v = Ok v' <-> is_valid_volume_name v = true /\ v' = v.
Proof.
  unfold validate_volume. destruct (is_valid_volume_name v); simpl; naive_solver.
Qed.

Lemma path_for_id v : path_for v = v.
Proof. unfold path_for, validate_volume_lossy, validate_volume. by destruct (negb _). Qed.

Lemma lease_new_Ok v h e now t r :
  LeaseRecord.new v h e now t = Ok r <->
  is_valid_volume_name v = true /\ h <> EmptyString /\ validate_ttl t = Ok () /\
  r = mkLeaseRecord v h e now t.
Proof.
  unfold LeaseRecord.new, validate_volume, validate_holder.
  destruct (is_valid_volume_name v), (decide (h = EmptyString)), (validate_ttl t) as [[]|];
    simpl; rewrite ?bool_decide_true, ?bool_decide_false by done; simpl; naive_solver.
Qed.

Lemma validate_ttl_finite t : validate_ttl t = Ok () -> f64_is_finite t = true.
Proof. unfold validate_ttl. by destruct (f64_is_finite t). Qed.

(** The vote of a directory for a volume, as a read without I/O error sees it. *)
Definition vote_of (dir : lease_dir) (v : string) : option LeaseRecord :=
  match load_unlocked (healthy_env f64_zero) dir v with
  | Ok r => r
  | Err _ => None
  end.

Lemma load_vote_of env dir v r :
  load_unlocked env dir v = Ok r -> vote_of dir v = r.
Proof.
  unfold vote_of, load_unlocked. simpl.
  destruct (read_fault env); [done|]. by intros ->.
Qed.

Lemma vote_of_volume dir v r : vote_of dir v = Some r -> volume r = v.
Proof.
  unfold vote_of, load_unlocked, LeaseRecord.from_disk. simpl. intros Hr.
  repeat case_match; simplify_eq. inv_ok.
  match goal with H : LeaseRecord.new _ _ _ _ _ = Ok _ |- _ => apply lease_new_Ok in H end.
  naive_solver.
Qed.

Lemma vote_of_insert_ne dir v w text :
  v <> w -> vote_of (<[path_for w := text]> dir) v = vote_of dir v.
Proof.
  intros. unfold vote_of, load_unlocked. simpl. rewrite !path_for_id.
  by rewrite lookup_insert_ne by congruence.
Qed.

Lemma vote_of_delete_ne dir v w : v <> w -> vote_of (delete (path_for w) dir) v = vote_of dir v.
Proof.
  intros. unfold vote_of, load_unlocked. simpl. rewrite !path_for_id.
  by rewrite lookup_delete_ne by congruence.
Qed.

(** What the codec needs of the values that reach a file. *)
Definition env_ok (env : LeaseEnv) : Prop :=
  f64_valid (clock env) = true /\ f64_is_finite (clock env) = true.
Definition args_ok (e : Z) (t : f64) : Prop := in_width 64 e /\ f64_valid t = true.

Lemma store_vote_spec env dir v h e t d dir' :
  env_ok env -> args_ok e t -> store_vote env dir v h e t = (d, dir') ->
  match d with
  | Ok d => d = LeaseDecision.granted (mkLeaseRecord v h e (clock env) t) /\
            vote_of dir' v = Some (mkLeaseRecord v h e (clock env) t) /\
            (forall w, w <> v -> vote_of dir' w = vote_of dir w)
  | Err _ => dir' = dir
  end.
Proof.
  intros [Hc Hcf] [He Ht]. unfold store_vote, store_unlocked.
  destruct (LeaseRecord.new v h e (clock env) t) as [r|] eqn:Hnew; [|intros; by simplify_eq].
  pose proof Hnew as (Hv & Hh & Httl & ->)%lease_new_Ok.
  destruct (write_fault env); intros; simplify_eq; [done|]. split_and!; [done| |].
  - unfold vote_of, load_unlocked. simpl. rewrite !path_for_id, lookup_insert_eq.
    rewrite from_str_to_vec by (simpl; eauto using validate_ttl_finite). simpl.
    unfold LeaseRecord.from_disk, LeaseRecord.to_disk. simpl. by rewrite Hnew.
  - intros w Hw. by rewrite vote_of_insert_ne.
Qed.

Lemma validated_load_Ok env dir v h t r :
  validated_load env dir v h t = Ok r -> vote_of dir v = r /\ is_valid_volume_name v = true.
Proof.
  unfold validated_load. intros Hl. inv_ok.
  match goal with H : validate_volume _ = Ok _ |- _ => apply validate_volume_Ok in H as [? ->] end.
  eauto using load_vote_of.
Qed.

(** ** C: local votes *)

(** Every outcome of [vote_grant]: on an error or a denial nothing changes; a
    denial is a stale epoch or a conflicting holder of an unexpired vote; a yes
    vote is what the node now remembers, and other volumes are untouched. *)
Lemma vote_grant_spec env dir v h e t d dir' :
  env_ok env -> args_ok e t -> vote_grant env dir v h e t = (d, dir') ->
  match d with
  | Err _ => dir' = dir
  | Ok d =>
      if granted d then
        vote_of dir' v = Some (mkLeaseRecord v h e (clock env) t) /\
        record d = Some (mkLeaseRecord v h e (clock env) t) /\
        (forall w, w <> v -> vote_of dir' w = vote_of dir w) /\
        (forall r, vote_of dir v = Some r -> live_at (clock env) r = true ->
                   holder r = h /\ epoch r <= e)
      else
        dir' = dir /\
        exists r, record d = Some r /\ vote_of dir v = Some r /\ live_at (clock env) r = true /\
          (reason d = Some stale_epoch /\ e < epoch r \/
           reason d = Some conflict /\ epoch r <= e /\ holder r <> h)
  end.
Proof.
  intros Henv Hargs Hg. unfold vote_grant in Hg.
  destruct (validated_load env dir v h t) as [o|err] eqn:Hload; [|by simplify_eq].
  apply validated_load_Ok in Hload as [Hvo Hv].
  assert (Hstore : forall d dir', store_vote env dir v h e t = (d, dir') ->
    (forall r, o = Some r -> live_at (clock env) r = true -> holder r = h /\ epoch r <= e) ->
    match d with
    | Err _ => dir' = dir
    | Ok d => granted d = true /\ vote_of dir' v = Some (mkLeaseRecord v h e (clock env) t) /\
        record d = Some (mkLeaseRecord v h e (clock env) t) /\
        (forall w, w <> v -> vote_of dir' w = vote_of dir w) /\
        (forall r, vote_of dir v = Some r -> live_at (clock env) r = true ->
                   holder r = h /\ epoch r <= e)
    end).
  { intros d0 dir0 Hs Hlive. pose proof (store_vote_spec _ _ _ _ _ _ _ _ Henv Hargs Hs) as Hspec.
    destruct d0; [|done]. destruct Hspec as (-> & ? & ?). rewrite Hvo. by split_and!. }
  destruct o as [r|].
  - destruct (live_at (clock env) r) eqn:Hl; cycle 1.
    { apply Hstore in Hg; [|intros ? [= <-]; congruence]. destruct d; [|done]. by destruct Hg as [-> ?]. }
    destruct (Z.ltb_spec e (epoch r)).
    { simplify_eq/=. split; [done|]. exists r. split_and!; auto. }
    destruct (decide (holder r = h)) as [Hh|Hh].
    + rewrite bool_decide_true in Hg by done. simpl in Hg.
      apply Hstore in Hg; [|by intros ? [= <-] ?]. destruct d; [|done]. by destruct Hg as [-> ?].
    + rewrite bool_decide_false in Hg by done. simplify_eq/=.
      split; [done|]. exists r. split_and!; auto.
  - apply Hstore in Hg; [|done]. destruct d; [|done]. by destruct Hg as [-> ?].
Qed.

(** A vote request as it reaches one node. *)
Inductive vote_op : Type :=
  | VGrant (v h : string) (e : Z) (t : f64)
  | VRenew (v h : string) (e : Z) (t : f64)
  | VRelease (v h : string) (e : Z).

Definition op_ok (op : vote_op) : Prop :=
  match op with
  | VGrant _ _ e t | VRenew _ _ e t => args_ok e t
  | VRelease _ _ _ => True
  end.

Definition apply_vote (env : LeaseEnv) (dir : lease_dir) (op : vote_op)
  : Result LeaseDecision * lease_dir :=
  match op with
  | VGrant v h e t => vote_grant env dir v h e t
  | VRenew v h e t => vote_renew env dir v h e t
  | VRelease v h e => vote_release env dir v h e
  end.

Lemma vote_renew_spec env dir v h e t d dir' :
  env_ok env -> args_ok e t -> vote_renew env dir v h e t = (d, dir') ->
  dir' = dir \/
  (exists r, vote_of dir v = Some r /\ holder r = h /\ epoch r = e /\
     f64_leb (LeaseRecord.expires_at r) (clock env) = false /\
     f64_ltb (LeaseRecord.renew_deadline r) (clock env) = false) /\
  vote_of dir' v = Some (mkLeaseRecord v h e (clock env) t) /\
  (forall w, w <> v -> vote_of dir' w = vote_of dir w).
Proof.
  intros Henv Hargs Hg. unfold vote_renew in Hg.
  destruct (validated_load env dir v h t) as [[r|]|err] eqn:Hload; simplify_eq; [|by left..].
  apply validated_load_Ok in Hload as [Hvo Hv].
  destruct (negb _ || negb _) eqn:Hmatch; simplify_eq; [by left|]. bool_to_prop.
  destruct (f64_leb _ _) eqn:Hexp; simplify_eq; [by left|].
  destruct (f64_ltb _ _) eqn:Hdead; simplify_eq; [by left|].
  pose proof (store_vote_spec _ _ _ _ _ _ _ _ Henv Hargs Hg) as Hspec.
  destruct d; [|by left]. destruct Hspec as (_ & ? & ?). right.
  split; [exists r; by split_and!|by split].
Qed.

Lemma vote_release_spec env dir v h e d dir' :
  vote_release env dir v h e = (d, dir') ->
  dir' = dir \/
  (exists r, vote_of dir v = Some r /\ holder r = h /\ epoch r = e) /\
  vote_of dir' v = None /\ (forall w, w <> v -> vote_of dir' w = vote_of dir w).
Proof.
  unfold vote_release. intros Hg.
  destruct (_ <-? _ ; _) as [[r|]|err] eqn:Hload; simplify_eq; [|by left..]. inv_ok.
  match goal with H : validate_volume _ = Ok _ |- _ => apply validate_volume_Ok in H as [? ->] end.
  apply load_vote_of in Hload.
  destruct (bool_decide _ && _) eqn:Hmatch; simplify_eq; [|by left]. bool_to_prop.
  destruct (remove_fault env); simplify_eq; [by left|]. right. split_and!; [by eauto| |].
  - unfold vote_of, load_unlocked. simpl. by rewrite lookup_delete_eq.
  - intros w Hw. by apply vote_of_delete_ne.
Qed.

(** The vote that is still there. *)
Ltac keep_vote := eexists; split_and!; [eassumption|simpl; congruence|simpl; lia].

(** One step of the fence: an unexpired vote survives every request except its
    own holder's release at its own epoch. *)
Lemma apply_vote_fence env dir op d dir' v r :
  env_ok env -> op_ok op -> vote_of dir v = Some r -> live_at (clock env) r = true ->
  op <> VRelease v (holder r) (epoch r) ->
  apply_vote env dir op = (d, dir') ->
  exists r', vote_of dir' v = Some r' /\ holder r' = holder r /\ epoch r <= epoch r'.
Proof.
  intros Henv Hop Hr Hlive Hne Happ.
  destruct op as [w h e t|w h e t|w h e]; simpl in *.
  - pose proof (vote_grant_spec _ _ _ _ _ _ _ _ Henv Hop Happ) as Hspec.
    destruct d as [d|]; [|subst; keep_vote].
    destruct (granted d); [|destruct Hspec as [-> _]; keep_vote].
    destruct Hspec as (Hw & _ & Hother & Hfence).
    destruct (decide (w = v)) as [->|]; [|rewrite Hother by done; keep_vote].
    destruct (Hfence r Hr Hlive). keep_vote.
  - apply vote_renew_spec in Happ as [->|((r1 & Hr1 & ? & ? & _) & Hw & Hother)]; [keep_vote| |done..].
    destruct (decide (w = v)) as [->|]; [|rewrite Hother by done; keep_vote].
    simplify_eq. keep_vote.
  - apply vote_release_spec in Happ as [->|((r1 & Hr1 & ? & ?) & Hw & Hother)]; [keep_vote|].
    destruct (decide (w = v)) as [->|]; [simplify_eq|].
    rewrite Hother by done; keep_vote.
Qed.

(** Requests reaching a node one after the other, each while the vote for [v] is
    unexpired on that node's clock, and none of them the holder's own release. *)
Inductive fenced_run (v : string) : lease_dir -> lease_dir -> Prop :=
  | fenced_refl dir : fenced_run v dir dir
  | fenced_step dir env op d dir1 dir2 r :
      env_ok env -> op_ok op ->
      vote_of dir v = Some r -> live_at (clock env) r = true ->
      op <> VRelease v (holder r) (epoch r) ->
      apply_vote env dir op = (d, dir1) ->
      fenced_run v dir1 dir2 ->
      fenced_run v dir dir2.

(** C5: epoch fencing.  However many grant, renew and release requests for any
    volumes a node answers, with whatever I/O failures, as long as its vote for
    a volume is unexpired when each arrives and its holder does not release it,
    the vote keeps its holder and its epoch never goes back. *)
Theorem fenced_run_holder v dir dir' r :
  fenced_run v dir dir' -> vote_of dir v = Some r ->
  exists r', vote_of dir' v = Some r' /\ holder r' = holder r /\ epoch r <= epoch r'.
Proof.
  intros Hrun. revert r.
  induction Hrun as [dir|dir env op d dir1 dir2 r0 ????? Happ _ IH]; intros r Hr.
  { keep_vote. }
  simplify_eq. eapply apply_vote_fence in Happ as (r1 & Hr1 & Hh & He); [|done..].
  destruct (IH _ Hr1) as (r2 & ? & ? & ?). exists r2. split_and!; [done|congruence|lia].
Qed.

(** ** The cluster *)

Section cluster.
Context (resolve : string -> option string) (up : string -> bool) (envs : string -> LeaseEnv).
Context (Henvs : forall n, env_ok (envs n)).

(** The vote of one node of the cluster. *)
Definition cvote (s : nodes) (n v : string) : option LeaseRecord :=
  dir ← s !! n; vote_of dir v.

Lemma lease_vote_epoch_width e : in_width 64 e -> in_width 64 (lease_vote_epoch e).
Proof. unfold lease_vote_epoch, in_width. case_match; lia. Qed.

(** What one grant request to a peer can do. *)
Lemma cluster_post_grant s url v h e t d s' :
  args_ok e t ->
  cluster_post resolve up envs s url grant_path (BodyVote (mkLeaseVoteRequest v h e t)) = (d, s') ->
  (exists d0 n r, d = Ok d0 /\ granted d0 = true /\ resolve url = Some n /\
     cvote s' n v = Some r /\ holder r = h /\ granted_at r = clock (envs n) /\ ttl r = t /\
     (forall r, cvote s n v = Some r -> live_at (clock (envs n)) r = true -> holder r = h) /\
     forall n', n' <> n -> s' !! n' = s !! n') \/
  ((forall d0, d = Ok d0 -> granted d0 = false) /\ forall n, s' !! n = s !! n).
Proof.
  intros [He Ht]. unfold cluster_post, lease_vote. simpl.
  destruct (resolve url) as [n|]; [|intros; simplify_eq; by right].
  destruct (up n), (s !! n) as [dir|] eqn:Hn; try (intros; simplify_eq; by right).
  destruct (vote_grant _ _ _ _ _ _) as [d1 dir'] eqn:Hg.
  pose proof (vote_grant_spec _ _ _ _ _ _ _ _ (Henvs n)
    (conj (lease_vote_epoch_width e He) Ht) Hg) as Hspec.
  destruct d1 as [d1|err]; intros; simplify_eq; cycle 1.
  { right. split; [done|]. intros. by rewrite insert_id. }
  destruct (granted d1) eqn:Hgr; cycle 1.
  { right. split; [congruence|]. destruct Hspec as [-> _]. intros. by rewrite insert_id. }
  left. destruct Hspec as (Hv & _ & _ & Hf).
  exists d1, n, (mkLeaseRecord v h (lease_vote_epoch e) (clock (envs n)) t).
  unfold cvote. rewrite lookup_insert_eq, Hn. simpl. split_and!; try done.
  - intros r Hr Hl. by apply (Hf r).
  - intros. by rewrite lookup_insert_ne.
Qed.

Context (v h : string) (e : Z) (t : f64) (self : string) (Hargs : args_ok e t).

(** A fresh yes vote of node [n] for the request at hand. *)
Definition fresh_vote (s : nodes) (n : string) : Prop :=
  exists r, cvote s n v = Some r /\ holder r = h /\ granted_at r = clock (envs n) /\ ttl r = t.

(** What node [n] could say before it voted yes: no unexpired vote of another. *)
Definition no_rival (s : nodes) (n : string) : Prop :=
  forall r, cvote s n v = Some r -> live_at (clock (envs n)) r = true -> holder r = h.

Lemma fresh_vote_same s s' n : s' !! n = s !! n -> fresh_vote s n -> fresh_vote s' n.
Proof. unfold fresh_vote, cvote. by intros ->. Qed.

Lemma no_rival_same s s' n : s' !! n = s !! n -> no_rival s n -> no_rival s' n.
Proof. unfold no_rival, cvote. by intros ->. Qed.

Lemma collect_votes_grant peers b s b' s' :
  NoDup peers.*1 ->
  (forall n url, (n, url) ∈ peers -> resolve url = Some n) ->
  (forall n, n ∈ peers.*1 -> n <> self -> n ∉ b_granted_nodes b) ->
  b_votes b = Z.of_nat (size (b_granted_nodes b)) ->
  collect_votes (cluster_post resolve up envs) grant_path
    (BodyVote (mkLeaseVoteRequest v h e t)) self peers b s = (b', s') ->
  b_votes b' = Z.of_nat (size (b_granted_nodes b')) /\
  b_granted_nodes b ⊆ b_granted_nodes b' /\
  (forall r, b_record b = Some r -> b_record b' = Some r) /\
  (forall n, n ∈ b_granted_nodes b' -> n ∉ b_granted_nodes b ->
     n ∈ peers.*1 /\ n <> self /\ fresh_vote s' n /\ no_rival s n) /\
  (forall n, n ∉ peers.*1 \/ n = self -> s' !! n = s !! n).
Proof.
  revert b s. induction peers as [|[n url] peers IH]; intros b s Hnd Hres Hfresh Hv Hc; simpl in *.
  { simplify_eq. split_and!; try done. }
  apply NoDup_cons in Hnd as [Hn Hnd].
  assert (Hres' : forall n url, (n, url) ∈ peers -> resolve url = Some n).
  { intros. apply Hres. by right. }
  case_bool_decide as Hself.
  { apply IH in Hc as (? & ? & ? & Hg & Hs); [|set_solver..|done]. split_and!; try done.
    - intros m Hm Hm'. destruct (Hg m Hm Hm'). set_solver.
    - intros m Hm. apply Hs. set_solver. }
  destruct (cluster_post _ _ _ _ _ _ _) as [d s1] eqn:Hp.
  assert (Hurl : resolve url = Some n) by (apply Hres; by left).
  apply cluster_post_grant in Hp as
    [(d0 & n0 & r & -> & Hgr & Hn0 & Hr & Hh & Hga & Ht & Hno & Hsame)|[Hd Hsame]]; [| |done].
  - rewrite Hgr in Hc. assert (n0 = n) as -> by congruence.
    assert (Hnb : n ∉ b_granted_nodes b) by (apply Hfresh; [by left|done]).
    apply IH in Hc as (? & Hsub & Hrec & Hg & Hs); [| |done| |]; cycle 1.
    { done. }
    { simpl. intros m Hm Hms. specialize (Hfresh m). set_solver. }
    { simpl. rewrite size_union by set_solver. rewrite size_singleton. lia. }
    simpl in *. split_and!; [done|set_solver| | |].
    + intros r0 Hr0. apply Hrec. by rewrite Hr0.
    + intros m Hm Hm'. destruct (decide (m = n)) as [->|Hmn].
      * split_and!; [by left|done| |done].
        apply (fresh_vote_same s1); [apply Hs; by left|]. by exists r.
      * destruct (Hg m Hm) as (? & ? & ? & Hnr); [set_solver|].
        split_and!; [by right|done|done|]. apply (no_rival_same s1); [by rewrite Hsame|done].
    + intros m Hm. rewrite Hs by set_solver. apply Hsame. set_solver.
  - assert (Hc' : collect_votes (cluster_post resolve up envs) grant_path
      (BodyVote (mkLeaseVoteRequest v h e t)) self peers b s1 = (b', s')).
    { destruct d as [d0|]; [|done]. by rewrite (Hd d0 eq_refl) in Hc. }
    apply IH in Hc' as (? & ? & ? & Hg & Hs); [|done|done| |done]; [|set_solver].
    split_and!; try done.
    + intros m Hm Hm'. destruct (Hg m Hm Hm') as (? & ? & ? & ?).
      split_and!; [by right|done|done|]. by apply (no_rival_same s1).
    + intros m Hm. rewrite Hs, Hsame by set_solver. done.
Qed.

End cluster.

(** The nodes [members] can be asked, and [args] is a well-formed request for
    them: peer ids are distinct and their URLs lead to them. *)
Definition request_ok (resolve : string -> option string) (members : gset string)
    (args : LeaseRequestArgs) : Prop :=
  args_ok (ra_epoch args) (ra_ttl args) /\
  NoDup (ra_peer_urls args).*1 /\
  (forall n url, (n, url) ∈ ra_peer_urls args -> resolve url = Some n) /\
  ra_self_node args ∈ members /\
  (forall n, n ∈ (ra_peer_urls args).*1 -> n ∈ members) /\
  Z.of_nat (size members) <= ra_expected_members args.

(** A strict majority of [expected] members carries an unexpired vote of [h]. *)
Definition holds_majority (clk : string -> f64) (members : gset string) (s : nodes)
    (v h : string) (expected : Z) : Prop :=
  exists voters : gset string, voters ⊆ members /\
    expected / 2 + 1 <= Z.of_nat (size voters) /\
    forall n, n ∈ voters ->
      exists r, cvote s n v = Some r /\ holder r = h /\ live_at (clk n) r = true.

(** A successful grant, taken apart. *)
Lemma cluster_request_grant_Ok resolve up envs envs' members args s r s' :
  (forall n, env_ok (envs n)) -> request_ok resolve members args ->
  cluster_request_grant resolve up envs envs' args s = (Ok r, s') ->
  exists voters : gset string, voters ⊆ members /\
    ra_expected_members args / 2 + 1 <= Z.of_nat (size voters) /\
    r = mkLeaseRecord (ra_volume args) (ra_holder_node args) (ra_epoch args)
          (clock (envs (ra_self_node args))) (ra_ttl args) /\
    forall n, n ∈ voters ->
      fresh_vote envs (ra_volume args) (ra_holder_node args) (ra_ttl args) s' n /\
      no_rival envs (ra_volume args) (ra_holder_node args) s n.
Proof.
  intros Henvs (Hargs & Hnd & Hres & Hself & Hmem & Hsize) Hreq.
  unfold cluster_request_grant, request_grant, request_majority in Hreq.
  destruct (s !! ra_self_node args) as [dir|] eqn:Hdir; [|done].
  destruct (result_bind _ _) as [[[v h] n]|] eqn:Hval; [|by simplify_eq]. inv_ok.
  match goal with H : validate_volume _ = Ok _ |- _ => apply validate_volume_Ok in H as [Hv ->] end.
  match goal with H : validate_holder _ = Ok _ |- _ =>
    unfold validate_holder in H; inv_ok end.
  match goal with H : majority_needed _ = Ok _ |- _ =>
    unfold majority_needed in H; inv_ok end.
  destruct (vote_grant _ _ _ _ _ _) as [local dir1] eqn:Hlocal.
  pose proof (vote_grant_spec _ _ _ _ _ _ _ _ (Henvs _) Hargs Hlocal) as Hspec.
  destruct local as [local|]; [|by simplify_eq].
  destruct (collect_votes _ _ _ _ _ _ _) as [b s1] eqn:Hcol.
  destruct (_ && granted local) eqn:Hwin; [|by repeat case_match; simplify_eq].
  destruct (b_record b) as [r0|] eqn:Hrec; [|by repeat case_match; simplify_eq].
  simplify_eq. bool_to_prop.
  match goal with H : granted local = true |- _ => rewrite H in Hspec, Hcol end.
  destruct Hspec as (Hvote & Hlrec & _ & Hrival). rewrite Hlrec in Hcol.
  apply collect_votes_grant in Hcol as (Hvotes & Hsub & Hkeep & Hnew & Hsame);
    [|done|done|done|done|simpl; set_solver|exact (eq_sym (f_equal Z.of_nat (size_singleton _)))].
  exists (b_granted_nodes b). specialize (Hkeep _ eq_refl). simplify_eq.
  assert (Hs1 : s1 !! ra_self_node args = Some dir) by (by rewrite Hsame by (by right)).
  split_and!; [|lia|done|].
  - intros m Hm. destruct (decide (m = ra_self_node args)) as [->|]; [done|].
    apply Hmem, Hnew; set_solver.
  - intros m Hm. destruct (decide (m = ra_self_node args)) as [->|Hms].
    + unfold fresh_vote, no_rival, cvote. rewrite lookup_insert_eq, Hdir. simpl.
      split; [by eexists|]. intros r1 Hr1 Hl1. by apply (Hrival r1).
    + destruct (Hnew m Hm) as (_ & _ & Hf & Hno); [set_solver|]. split; [|done].
      apply (fresh_vote_same _ _ _ _ s1); [by rewrite lookup_insert_ne|done].
Qed.

(** A lease that [request_grant] reports is backed by a strict majority:
    when it returns a record, the record names the requester, and a strict
    majority of the expected members has just stored an unexpired vote for it,
    whatever peers were unreachable or failed. *)
Lemma request_grant_majority resolve up envs envs' members args s r s' :
  (forall n, env_ok (envs n)) -> request_ok resolve members args ->
  (forall n, n ∈ members ->
     f64_ltb (clock (envs n)) (f64_add (clock (envs n)) (ra_ttl args)) = true) ->
  cluster_request_grant resolve up envs envs' args s = (Ok r, s') ->
  volume r = ra_volume args /\ holder r = ra_holder_node args /\ epoch r = ra_epoch args /\
  holds_majority (fun n => clock (envs n)) members s' (ra_volume args) (ra_holder_node args)
    (ra_expected_members args).
Proof.
  intros Henvs Hok Hlive Hreq.
  destruct (cluster_request_grant_Ok _ _ _ _ _ _ _ _ _ Henvs Hok Hreq)
    as (voters & Hsub & Hmaj & -> & Hv).
  split_and!; [done..|]. exists voters. split_and!; [done|lia|].
  intros n Hn. destruct (Hv n Hn) as [(r & ? & ? & Hga & Httl) _].
  exists r. split_and!; [done..|]. unfold live_at, LeaseRecord.expires_at.
  rewrite Hga, Httl. apply Hlive. set_solver.
Qed.

(** C1: mutual exclusion.  While a strict majority of the members carries
    unexpired votes of one holder on their own clocks, no other holder's
    [request_grant] succeeds, on any node, with any epoch, any clock skew and
    any unreachable peers. *)
Theorem request_grant_excludes resolve up envs envs' members args s h1 expected1 :
  (forall n, env_ok (envs n)) -> request_ok resolve members args ->
  Z.of_nat (size members) <= expected1 ->
  holds_majority (fun n => clock (envs n)) members s (ra_volume args) h1 expected1 ->
  h1 <> ra_holder_node args ->
  exists e s', cluster_request_grant resolve up envs envs' args s = (Err e, s').
Proof.
  intros Henvs Hok Hsz (voters1 & Hsub1 & Hmaj1 & Hv1) Hne.
  destruct (cluster_request_grant _ _ _ _ _ _) as [[r|e] s'] eqn:Hreq; [|by eauto]. exfalso.
  destruct (cluster_request_grant_Ok _ _ _ _ _ _ _ _ _ Henvs Hok Hreq)
    as (voters2 & Hsub2 & Hmaj2 & _ & Hv2).
  destruct Hok as (_ & _ & _ & _ & _ & Hsz2).
  destruct (decide (voters1 ∩ voters2 = ∅)) as [Hdis|Hmeet].
  - assert (size (voters1 ∪ voters2) <= size members)%nat by (apply subseteq_size; set_solver).
    rewrite size_union in * by set_solver.
    pose proof (Z.div_mod expected1 2). pose proof (Z.mod_pos_bound expected1 2).
    pose proof (Z.div_mod (ra_expected_members args) 2).
    pose proof (Z.mod_pos_bound (ra_expected_members args) 2). lia.
  - apply set_choose_L in Hmeet as [n Hn].
    destruct (Hv1 n) as (r1 & Hr1 & Hh1 & Hl1); [set_solver|].
    destruct (Hv2 n) as [_ Hno]; [set_solver|]. apply Hne. rewrite <- Hh1. by apply Hno.
Qed.

End properties.

(** ** A codec that keeps the promise, and a small cluster *)

Definition f64_key (x : f64) : nat * bool * positive * Z :=
  match x with
  | S754_zero s => (0%nat, s, 1%positive, 0)
  | S754_infinity s => (1%nat, s, 1%positive, 0)
  | S754_nan => (2%nat, false, 1%positive, 0)
  | S754_finite s m e => (3%nat, s, m, e)
  end.

Definition key_f64 (k : nat * bool * positive * Z) : f64 :=
  match k with
  | (0%nat, s, _, _) => S754_zero s
  | (1%nat, s, _, _) => S754_infinity s
  | (2%nat, _, _, _) => S754_nan
  | (_, s, m, e) => S754_finite s m e
  end.

Lemma key_f64_key x : key_f64 (f64_key x) = x.
Proof. by destruct x. Qed.

Definition demo_to_vec (d : LeaseDiskRecord) : list Z :=
  [Zpos (encode (d_holder d, d_epoch d, f64_key (d_granted_at d), f64_key (d_ttl d)))].

Definition demo_from_str (l : list Z) : option LeaseDiskRecord :=
  match l with
  | [Zpos p; 10] =>
      '(h, e, g, t) ← (decode p : option (string * Z * (nat * bool * positive * Z)
                                            * (nat * bool * positive * Z)));
      Some (mkLeaseDiskRecord h e (key_f64 g) (key_f64 t))
  | _ => None
  end.

Definition demo_codec : LeaseCodec.
Proof.
  refine {| to_vec := demo_to_vec; from_str := demo_from_str |}.
  intros [h e g t] _ _ _ _ _. unfold demo_from_str, demo_to_vec. simpl.
  rewrite decode_encode. simpl. by rewrite !key_f64_key.
Defined.

Definition demo_time (z : Z) : f64 := f64_of_Z z.
Definition demo_vote (h : string) (e now : Z) : lease_dir :=
  snd (@vote_grant demo_codec (healthy_env (demo_time now)) ∅ "vol" h e (demo_time 30)).
Definition demo_resolve (url : string) : option string := Some url.
Definition demo_members : gset string := {["n1"; "n2"; "n3"]}.
Definition demo_args (self : string) : LeaseRequestArgs :=
  mkLeaseRequestArgs "vol" self 1 (demo_time 30) self
    [("n1", "n1"); ("n2", "n2"); ("n3", "n3")] 3.
Definition demo_empty : nodes := {["n1" := ∅; "n2" := ∅; "n3" := ∅]}.
Definition demo_envs (now : Z) (n : string) : LeaseEnv := healthy_env (demo_time now).
(** Node [n3] is down during the first request. *)
Definition demo_up (n : string) : bool := negb (bool_decide (n = "n3")).
Definition demo_first : result LeaseUnavailable LeaseRecord * nodes :=
  @cluster_request_grant demo_codec demo_resolve demo_up (demo_envs 100) (demo_envs 100)
    (demo_args "n1") demo_empty.

Lemma demo_request_ok self : self ∈ demo_members ->
  request_ok demo_resolve demo_members (demo_args self).
Proof.
  intros Hself. unfold request_ok, args_ok. split_and!.
  - unfold in_width. simpl. lia.
  - reflexivity.
  - apply (bool_decide_unpack _). vm_compute. exact I.
  - intros n url Hin. set_solver.
  - exact Hself.
  - set_solver.
  - apply (bool_decide_unpack _). vm_compute. exact I.
Qed.

Lemma fenced_run_holder_witness :
  let dir := demo_vote "a" 4 100 in
  let dir1 := snd (@vote_grant demo_codec (healthy_env (demo_time 110)) dir "vol" "b" 9 (demo_time 30)) in
  let dir2 := snd (@vote_renew demo_codec (healthy_env (demo_time 111)) dir1 "vol" "a" 4 (demo_time 30)) in
  exists r', @vote_of demo_codec dir2 "vol" = Some r' /\ holder r' = "a" /\ 4 <= epoch r'.
Proof.
  intros dir dir1 dir2.
  apply (@fenced_run_holder demo_codec "vol" dir dir2
    (mkLeaseRecord "vol" "a" 4 (demo_time 100) (demo_time 30))); [|vm_compute; reflexivity].
  eapply (@fenced_step demo_codec "vol" dir (healthy_env (demo_time 110))
    (VGrant "vol" "b" 9 (demo_time 30)) _ dir1); [by vm_compute|..].
  { split; [unfold in_width; lia|reflexivity]. }
  { vm_compute. reflexivity. }
  { vm_compute. reflexivity. }
  { discriminate. }
  { apply surjective_pairing. }
  eapply (@fenced_step demo_codec "vol" dir1 (healthy_env (demo_time 111))
    (VRenew "vol" "a" 4 (demo_time 30)) _ dir2); [by vm_compute|..].
  { split; [unfold in_width; lia|reflexivity]. }
  { vm_compute. reflexivity. }
  { vm_compute. reflexivity. }
  { discriminate. }
  { apply surjective_pairing. }
  apply fenced_refl.
Defined.

Lemma request_grant_excludes_witness :
  exists e s', @cluster_request_grant demo_codec demo_resolve (fun _ => true) (demo_envs 110)
    (demo_envs 110) (demo_args "n3") (snd demo_first) = (Err e, s').
Proof.
  apply (@request_grant_excludes demo_codec demo_resolve (fun _ => true) (demo_envs 110)
    (demo_envs 110) demo_members (demo_args "n3") (snd demo_first) "n1" 3).
  - by vm_compute.
  - apply demo_request_ok. set_solver.
  - apply (bool_decide_unpack _). vm_compute. exact I.
  - exists {["n1"; "n2"]}. split_and!; [set_solver| |].
    + apply (bool_decide_unpack _). vm_compute. exact I.
    + intros n Hn. exists (mkLeaseRecord "vol" "n1" 1 (demo_time 100) (demo_time 30)).
      apply elem_of_union in Hn as [Hn|Hn]; apply elem_of_singleton in Hn as ->; by vm_compute.
  - discriminate.
Defined.
