(* ===== verification/Membership.v ===== *)
(** Mesh membership ([vmond/src/mesh/state.rs], and the handlers of
    [vmond/src/mesh/runtime.rs] that change it).

    A node remembers its peers and [expected_members], the high-water mark of
    the cluster size from which every quorum is computed.  Peers come and go by
    heartbeat and reaping; only an announced departure may lower the mark.  A
    peer snapshot arrives decoded ([NodeState]); saving the file is I/O. *)

From S2P Require Import Prelude F64.

Record NodeCaps : Type := mkNodeCaps { vcpus : Z; mem_mib : Z }.

Definition NodeCaps_default : NodeCaps := mkNodeCaps 1 2048.

Record NodeState : Type := mkNodeState {
  node_id : string; advertise : string; region : string; caps : NodeCaps;
  committed_vcpus : Z; committed_mem_mib : Z; inflight : Z;
  templates : list string; function_artifacts : list string; pools : gmap string Z;
  owned : list string; owned_epochs : gmap string Z; ts : f64; last_seen : f64;
  backend : string; arch : string; cpu_baseline : string;
  template_index : gmap string string }.

Module NodeState.

Definition new (id adv : string) : NodeState :=
  {| node_id := id; advertise := adv; region := ""; caps := NodeCaps_default;
     committed_vcpus := 0; committed_mem_mib := 0; inflight := 0; templates := [];
     function_artifacts := []; pools := ∅; owned := []; owned_epochs := ∅;
     ts := f64_zero; last_seen := f64_zero; backend := ""; arch := "";
     cpu_baseline := ""; template_index := ∅ |}.

Definition free_vcpus (n : NodeState) : Z :=
  saturating_sub (vcpus (caps n)) (committed_vcpus n).

Definition free_mem_mib (n : NodeState) : Z :=
  saturating_sub (mem_mib (caps n)) (committed_mem_mib n).

Definition healthy (n : NodeState) (now interval : f64) : bool :=
  f64_ltb f64_zero (last_seen n) &&
  f64_ltb (f64_sub now (last_seen n)) (f64_mul (f64_of_Z 3) interval).

(** [peer.last_seen = now]. *)
Definition with_last_seen (n : NodeState) (t : f64) : NodeState :=
  {| node_id := node_id n; advertise := advertise n; region := region n; caps := caps n;
     committed_vcpus := committed_vcpus n; committed_mem_mib := committed_mem_mib n;
     inflight := inflight n; templates := templates n;
     function_artifacts := function_artifacts n; pools := pools n; owned := owned n;
     owned_epochs := owned_epochs n; ts := ts n; last_seen := t; backend := backend n;
     arch := arch n; cpu_baseline := cpu_baseline n; template_index := template_index n |}.

End NodeState.

Record MembershipState : Type := mkMembership {
  m_enabled : bool; self_id : string; self_advertise : string; self_region : string;
  self_caps : NodeCaps; peers : gmap string NodeState; expected_members : Z }.

Module MembershipState.

Definition enabled (id adv reg : string) (caps : NodeCaps) : MembershipState :=
  mkMembership true id adv reg caps ∅ 1.

Definition quorum_needed (m : MembershipState) : Z := expected_members m / 2 + 1.

Definition restore_quorum_met (m : MembershipState) (confirmations : Z) : bool :=
  quorum_needed m <=? confirmations.

Definition with_peers (m : MembershipState) (p : gmap string NodeState) : MembershipState :=
  mkMembership (m_enabled m) (self_id m) (self_advertise m) (self_region m)
    (self_caps m) p (expected_members m).

Definition with_expected (m : MembershipState) (e : Z) : MembershipState :=
  mkMembership (m_enabled m) (self_id m) (self_advertise m) (self_region m)
    (self_caps m) (peers m) e.

Definition bump_expected (m : MembershipState) : MembershipState * bool :=
  let before := expected_members m in
  let m := with_expected m (Z.max before (1 + Z.of_nat (size (peers m)))) in
  (m, negb (expected_members m =? before)).

Definition depart (m : MembershipState) (id : string) : MembershipState * bool :=
  let removed := bool_decide (is_Some (peers m !! id)) in
  let m := with_peers m (delete id (peers m)) in
  (with_expected m (Z.max (saturating_sub (expected_members m) 1) 1), removed).

Definition live_member_ids (m : MembershipState) (now interval : f64) : list string :=
  self_id m ::
    map (fun p => node_id p.2)
      (filter (fun p => NodeState.healthy p.2 now interval = true) (map_to_list (peers m))).

Definition is_member_healthy (m : MembershipState) (id : string) (now interval : f64) : bool :=
  if bool_decide (id = self_id m) then true
  else match peers m !! id with
       | Some p => NodeState.healthy p now interval
       | None => false
       end.

End MembershipState.

(** ** The runtime's handlers *)

Fixpoint starts_with (prefix s : string) : bool :=
  match prefix, s with
  | EmptyString, _ => true
  | String c prefix, String d s => bool_decide (c = d) && starts_with prefix s
  | String _ _, EmptyString => false
  end.

Definition seed_prefix : string := "seed-".

(** Registration, heartbeats and gossip all end here. *)
Definition merge_node_state (m : MembershipState) (node : NodeState) (now : f64) : MembershipState :=
  if bool_decide (node_id node = EmptyString) || starts_with seed_prefix (node_id node) then m
  else if bool_decide (node_id node = self_id m) then m
  else
    let node := if f64_leb (last_seen node) f64_zero
                then NodeState.with_last_seen node now else node in
    let kept := filter (fun kv : string * NodeState =>
      starts_with seed_prefix kv.1 && bool_decide (advertise kv.2 = advertise node)
        && negb (bool_decide (kv.1 = node_id node)) = false) (peers m) in
    fst (MembershipState.bump_expected
           (MembershipState.with_peers m (<[node_id node := node]> kept))).

Definition reap_stale_peers (m : MembershipState) (now reap_sec : f64) : MembershipState :=
  MembershipState.with_peers m
    (filter (fun kv : string * NodeState =>
       f64_leb (last_seen kv.2) f64_zero
         || f64_leb (f64_sub now (last_seen kv.2)) reap_sec = true) (peers m)).

Definition leave (m : MembershipState) : MembershipState :=
  mkMembership false (self_id m) (self_advertise m) (self_region m) (self_caps m) ∅ 1.

(** [join]: a fresh membership whose only peer is the seed. *)
Definition join (m : MembershipState) (adv reg seed_url seed_id : string) (now : f64)
  : MembershipState :=
  let m' := MembershipState.enabled (self_id m) adv reg (self_caps m) in
  let seed := NodeState.with_last_seen (NodeState.new seed_id seed_url) now in
  fst (MembershipState.bump_expected (MembershipState.with_peers m' {[seed_id := seed]})).

(** * Properties *)

(** One event at a node; a departure must name a current peer. *)
Inductive member_step : MembershipState -> MembershipState -> Prop :=
  | step_merge m node now : member_step m (merge_node_state m node now)
  | step_reap m now reap_sec : member_step m (reap_stale_peers m now reap_sec)
  | step_touch m id now :
      member_step m (MembershipState.with_peers m
                       (alter (fun p => NodeState.with_last_seen p now) id (peers m)))
  | step_depart m id :
      is_Some (peers m !! id) -> member_step m (fst (MembershipState.depart m id)).

(** The mark covers everyone this node knows, itself included. *)
Definition covers (m : MembershipState) : Prop :=
  1 + Z.of_nat (size (peers m)) <= expected_members m /\ peers m !! self_id m = None.

Lemma covers_subset m p :
  covers m -> (forall k, is_Some (p !! k) -> is_Some (peers m !! k)) ->
  covers (MembershipState.with_peers m p).
Proof.
  intros [Hc Hs] Hp. unfold covers. simpl. split.
  - assert (size (dom p : gset string) <= size (dom (peers m) : gset string))%nat as Hd.
    { apply subseteq_size. intros k. rewrite !elem_of_dom. apply Hp. }
    rewrite !size_dom in Hd. lia.
  - apply eq_None_not_Some. intros Hk%Hp. rewrite Hs in Hk. by apply is_Some_None in Hk.
Qed.

Lemma covers_step m m' : member_step m m' -> covers m -> covers m'.
Proof.
  intros Hstep Hc. destruct Hstep as [m node now|m now rs|m id now|m id Hid].
  - unfold merge_node_state. destruct (_ || _); [done|].
    destruct (bool_decide_reflect (node_id node = self_id m)) as [|Hself]; [done|].
    destruct Hc as [Hc Hs]. set (n := if f64_leb _ _ then _ else _).
    assert (node_id n = node_id node) as Hn by (subst n; by destruct (f64_leb _ _)).
    unfold covers, MembershipState.bump_expected.
    cbn [fst peers expected_members self_id MembershipState.with_peers MembershipState.with_expected].
    split; [apply Z.le_max_r|]. rewrite Hn, lookup_insert_ne by done.
    apply map_lookup_filter_None. by left.
  - apply covers_subset; [done|]. intros k [p Hp].
    apply map_lookup_filter_Some in Hp as [Hp _]. by eexists.
  - apply covers_subset; [done|]. intros k. rewrite lookup_alter_is_Some. done.
  - destruct Hc as [Hc Hs], Hid as [p Hp]. unfold covers, MembershipState.depart. simpl.
    rewrite map_size_delete, Hp. simpl. unfold saturating_sub.
    assert (size (peers m) <> 0%nat).
    { intros H0%map_size_empty_inv. rewrite H0 in Hp. by apply lookup_empty_Some in Hp. }
    split; [lia|]. rewrite lookup_delete_None. by right.
Qed.

(** C20: from joining or setting up a cluster on, through any heartbeats, gossip,
    reaping and departures of known peers, [expected_members] covers every member
    a node knows; so two groups of known members that each reach the quorum of
    that node always share a member. *)
Theorem quorums_intersect id adv reg caps m (A B : gset string) :
  rtc member_step (MembershipState.enabled id adv reg caps) m ->
  A ⊆ {[self_id m]} ∪ dom (peers m) -> B ⊆ {[self_id m]} ∪ dom (peers m) ->
  MembershipState.restore_quorum_met m (Z.of_nat (size A)) = true ->
  MembershipState.restore_quorum_met m (Z.of_nat (size B)) = true ->
  covers m /\ A ∩ B <> ∅.
Proof.
  intros Hrtc HA HB Hqa Hqb.
  assert (covers m) as Hc.
  { eapply (rtc_ind_r (fun m => covers m)); [|by intros; eapply covers_step|done].
    split; simpl; [|by apply lookup_empty]. rewrite map_size_empty. lia. }
  split; [done|]. intros Hdis. destruct Hc as [Hc Hs].
  unfold MembershipState.restore_quorum_met, MembershipState.quorum_needed in *. bool_to_prop.
  assert (size (A ∪ B) <= size ({[self_id m]} ∪ dom (peers m) : gset string))%nat as Hle
    by (apply subseteq_size; set_solver).
  rewrite size_union in Hle by set_solver.
  rewrite size_union, size_singleton, size_dom in Hle
    by (apply not_elem_of_dom in Hs; set_solver).
  pose proof (Z.div_mod (expected_members m) 2).
  pose proof (Z.mod_pos_bound (expected_members m) 2). lia.
Qed.

Definition demo_peer (id : string) : NodeState :=
  NodeState.with_last_seen (NodeState.new id id) (f64_of_Z 100).
Definition demo_mesh : MembershipState :=
  merge_node_state
    (merge_node_state (MembershipState.enabled "n1" "" "" NodeCaps_default)
       (demo_peer "n2") (f64_of_Z 100))
    (demo_peer "n3") (f64_of_Z 100).

Lemma quorums_intersect_witness :
  covers demo_mesh /\ ({["n1"; "n2"]} ∩ {["n2"; "n3"]} : gset string) <> ∅.
Proof.
  apply (quorums_intersect "n1" "" "" NodeCaps_default).
  - eapply rtc_l; [|eapply rtc_l; [|apply rtc_refl]]; apply step_merge.
  - apply (bool_decide_unpack _). vm_compute. exact I.
  - apply (bool_decide_unpack _). vm_compute. exact I.
  - vm_compute. reflexivity.
  - vm_compute. reflexivity.
Defined.

(** A departure lowers [expected_members] whether or not the named node was
    a peer.  After two departures of an unknown node, a member that still knows
    two healthy peers needs a quorum of one. *)
Lemma depart_unknown_shrinks_quorum (m : MembershipState) id :
  peers m !! id = None -> expected_members m = 3 -> Z.of_nat (size (peers m)) = 2 ->
  let m' := fst (MembershipState.depart (fst (MembershipState.depart m id)) id) in
  peers m' = peers m /\ MembershipState.quorum_needed m' = 1 /\ ~ covers m'.
Proof.
  intros Hid He Hsz. unfold MembershipState.depart, MembershipState.quorum_needed, covers.
  cbn [fst peers expected_members MembershipState.with_peers MembershipState.with_expected].
  rewrite He, !delete_id, Hsz by (rewrite ?delete_id; done).
  split_and!; [done|reflexivity|]. intros [Hc _]. vm_compute in Hc. by apply Hc.
Qed.
