(* ===== verification/Hrw.v ===== *)
(** Rendezvous hashing ([vmond/src/mesh/place.rs]): the BLAKE2b-64 digest the
    mesh computes for itself, the score of a node for a key, and the choices
    made from scores.  Also the architecture names of
    [vmond/src/image/mod.rs] that placement compares. *)

From S2P Require Import Prelude.

(** ** 64-bit words *)
Definition u64_add (a b : Z) : Z := wrap 64 (a + b).
Definition u64_not (a : Z) : Z := Z.lxor a (2 ^ 64 - 1).
Definition rotate_right (a n : Z) : Z :=
  Z.lor (Z.shiftr a n) (wrap 64 (Z.shiftl a (64 - n))).

(** ** BLAKE2b with an eight-byte digest *)
Definition BLAKE2B_IV : list Z :=
  [0x6a09e667f3bcc908; 0xbb67ae8584caa73b; 0x3c6ef372fe94f82b; 0xa54ff53a5f1d36f1;
   0x510e527fade682d1; 0x9b05688c2b3e6c1f; 0x1f83d9abfb41bd6b; 0x5be0cd19137e2179].

Definition BLAKE2B_SIGMA : list (list nat) := [
  [0; 1; 2; 3; 4; 5; 6; 7; 8; 9; 10; 11; 12; 13; 14; 15];
  [14; 10; 4; 8; 9; 15; 13; 6; 1; 12; 0; 2; 11; 7; 5; 3];
  [11; 8; 12; 0; 5; 2; 15; 13; 10; 14; 3; 6; 7; 1; 9; 4];
  [7; 9; 3; 1; 13; 12; 11; 14; 2; 6; 5; 10; 4; 0; 15; 8];
  [9; 0; 5; 7; 2; 4; 10; 15; 14; 1; 11; 12; 6; 8; 3; 13];
  [2; 12; 6; 10; 0; 11; 8; 3; 4; 13; 7; 5; 15; 14; 1; 9];
  [12; 5; 1; 15; 14; 13; 4; 10; 0; 7; 6; 3; 9; 2; 8; 11];
  [13; 11; 7; 14; 12; 1; 3; 9; 5; 0; 15; 4; 8; 6; 2; 10];
  [6; 15; 14; 9; 11; 3; 0; 8; 12; 2; 13; 7; 1; 4; 10; 5];
  [10; 2; 8; 4; 7; 6; 1; 5; 15; 11; 9; 14; 3; 12; 13; 0];
  [0; 1; 2; 3; 4; 5; 6; 7; 8; 9; 10; 11; 12; 13; 14; 15];
  [14; 10; 4; 8; 9; 15; 13; 6; 1; 12; 0; 2; 11; 7; 5; 3]]%nat.

Definition vget (v : list Z) (i : nat) : Z := nth i v 0.

Definition blake2b_g (v : list Z) (a b c d : nat) (x y : Z) : list Z :=
  let v := <[a := u64_add (u64_add (vget v a) (vget v b)) x]> v in
  let v := <[d := rotate_right (Z.lxor (vget v d) (vget v a)) 32]> v in
  let v := <[c := u64_add (vget v c) (vget v d)]> v in
  let v := <[b := rotate_right (Z.lxor (vget v b) (vget v c)) 24]> v in
  let v := <[a := u64_add (u64_add (vget v a) (vget v b)) y]> v in
  let v := <[d := rotate_right (Z.lxor (vget v d) (vget v a)) 16]> v in
  let v := <[c := u64_add (vget v c) (vget v d)]> v in
  <[b := rotate_right (Z.lxor (vget v b) (vget v c)) 63]> v.

Definition blake2b_round (m : list Z) (v : list Z) (sigma : list nat) : list Z :=
  let w i := vget m (nth i sigma 0%nat) in
  let v := blake2b_g v 0 4 8 12 (w 0%nat) (w 1%nat) in
  let v := blake2b_g v 1 5 9 13 (w 2%nat) (w 3%nat) in
  let v := blake2b_g v 2 6 10 14 (w 4%nat) (w 5%nat) in
  let v := blake2b_g v 3 7 11 15 (w 6%nat) (w 7%nat) in
  let v := blake2b_g v 0 5 10 15 (w 8%nat) (w 9%nat) in
  let v := blake2b_g v 1 6 11 12 (w 10%nat) (w 11%nat) in
  let v := blake2b_g v 2 7 8 13 (w 12%nat) (w 13%nat) in
  blake2b_g v 3 4 9 14 (w 14%nat) (w 15%nat).

(** [block.chunks_exact(8)], each read as a little-endian word. *)
Fixpoint words (n : nat) (block : list Z) : list Z :=
  match n with
  | O => []
  | S n => of_le_bytes (take 8 block) :: words n (drop 8 block)
  end.

Definition blake2b_compress (h : list Z) (block : list Z) (count : Z) (last : bool) : list Z :=
  let m := words 16 block in
  let v := take 8 h ++ BLAKE2B_IV in
  let v := <[12%nat := Z.lxor (vget v 12) (wrap 64 count)]> v in
  let v := <[13%nat := Z.lxor (vget v 13) (wrap 64 (Z.shiftr count 64))]> v in
  let v := if last then <[14%nat := u64_not (vget v 14)]> v else v in
  let v := foldl (blake2b_round m) v BLAKE2B_SIGMA in
  map (fun i => Z.lxor (vget h i) (Z.lxor (vget v i) (vget v (i + 8)))) (seq 0 8).

(** The [while] over full blocks; [rest] is [input[offset..]]. *)
Fixpoint blake2b_blocks (fuel : nat) (h : list Z) (rest : list Z) (offset : Z)
  : list Z * list Z :=
  match fuel with
  | O => (h, rest)
  | S fuel =>
      if 128 <? Z.of_nat (length rest) then
        blake2b_blocks fuel (blake2b_compress h (take 128 rest) (offset + 128) false)
          (drop 128 rest) (offset + 128)
      else (h, rest)
  end.

Definition blake2b_8 (input : list Z) : list Z :=
  let h := <[0%nat := Z.lxor (vget BLAKE2B_IV 0) 0x01010008]> BLAKE2B_IV in
  let '(h, rest) := blake2b_blocks (length input) h input 0 in
  let block := rest ++ replicate (128 - length rest) 0 in
  let h := blake2b_compress h block (Z.of_nat (length input)) true in
  le_bytes 8 (vget h 0).

(** ** Scores *)

(** [str::as_bytes]. *)
Fixpoint str_bytes (s : string) : list Z :=
  match s with
  | EmptyString => []
  | String c s => Z.of_N (Ascii.N_of_ascii c) :: str_bytes s
  end.

(** [u64::from_be_bytes]. *)
Definition of_be_bytes (l : list Z) : Z := of_le_bytes (rev l).

Definition hrw_score (key node_id : string) : Z :=
  of_be_bytes (blake2b_8 (str_bytes key ++ 0 :: str_bytes node_id)).

(** The loop of [hrw_winner] for a given [score]: keep the first best. *)
Fixpoint best_loop (score : string -> Z) (ids : list string) (best : option string)
  (best_score : Z) : option string :=
  match ids with
  | [] => best
  | id :: ids =>
      if bool_decide (best = None) || (best_score <? score id)
      then best_loop score ids (Some id) (score id)
      else best_loop score ids best best_score
  end.

Definition hrw_winner (key : string) (ids : list string) : option string :=
  best_loop (hrw_score key) ids None 0.

(** Descending score, then ascending id. *)
Definition rank_le (score : string -> Z) (l r : string) : bool :=
  match score r ?= score l with
  | Lt => true
  | Gt => false
  | Eq => String.leb l r
  end.

Definition sort_by_hrw_desc (key : string) (ids : list string) : list string :=
  sort_by (rank_le (hrw_score key)) ids.

(** ** Architecture names (ASCII text) *)

Definition ascii_lower (c : Ascii.ascii) : Ascii.ascii :=
  let n := Ascii.N_of_ascii c in
  if ((65 <=? n) && (n <=? 90))%N then Ascii.ascii_of_N (n + 32) else c.

Definition is_space (c : Ascii.ascii) : bool :=
  let n := Ascii.N_of_ascii c in ((n =? 32) || ((9 <=? n) && (n <=? 13)))%N.

Fixpoint string_map (f : Ascii.ascii -> Ascii.ascii) (s : string) : string :=
  match s with
  | EmptyString => EmptyString
  | String c s => String (f c) (string_map f s)
  end.

Fixpoint trim_start (s : string) : string :=
  match s with
  | EmptyString => EmptyString
  | String c s' => if is_space c then trim_start s' else s
  end.

Fixpoint trim_end (s : string) : string :=
  match s with
  | EmptyString => EmptyString
  | String c s =>
      match trim_end s with
      | EmptyString => if is_space c then EmptyString else String c EmptyString
      | s' => String c s'
      end
  end.

Definition trim (s : string) : string := trim_end (trim_start s).

Definition dash_to_underscore (c : Ascii.ascii) : Ascii.ascii :=
  if bool_decide (Ascii.N_of_ascii c = 45%N) then Ascii.ascii_of_N 95 else c.

Definition normalize_oci_arch (arch : option string) : option string :=
  match arch with
  | None => None
  | Some a =>
      let machine := string_map dash_to_underscore (string_map ascii_lower (trim a)) in
      if bool_decide (machine = EmptyString) then None
      else Some (if bool_decide (machine = "amd64") || bool_decide (machine = "x64") then "x86_64"
                 else if bool_decide (machine = "arm64") then "aarch64"
                 else machine)
  end.

(** * Properties *)

(** The digest agrees with the reference BLAKE2b on a short input, on a full block
    and on two blocks. *)
Example hrw_score_one_block : hrw_score "rev-1" "node-a" = 2592004700213672352.
Proof. vm_compute. reflexivity. Qed.

Example hrw_score_full_block :
  blake2b_8 (replicate 127 97 ++ [0]) = rev (le_bytes 8 11462295316601670625).
Proof. vm_compute. reflexivity. Qed.

Example hrw_score_two_blocks :
  blake2b_8 (replicate 128 97 ++ [0]) = rev (le_bytes 8 5972459244849013243).
Proof. vm_compute. reflexivity. Qed.

(** The loop over full blocks ends with a rest that fits the last block, and one
    unit of fuel per input byte is enough for it. *)
Lemma blake2b_blocks_rest fuel h rest offset :
  (length rest <= fuel)%nat -> (length (blake2b_blocks fuel h rest offset).2 <= 128)%nat.
Proof.
  revert h rest offset. induction fuel as [|fuel IH]; intros h rest offset Hf;
    cbn [blake2b_blocks]; [simpl; lia|].
  destruct (Z.ltb_spec 128 (Z.of_nat (length rest))); [|simpl; lia].
  apply IH. rewrite length_drop. lia.
Qed.

Section score.
Context (score : string -> Z).

Lemma rank_le_total x y : rank_le score x y = true \/ rank_le score y x = true.
Proof.
  unfold rank_le. rewrite (Z.compare_antisym (score y) (score x)).
  destruct (score y ?= score x); simpl; auto using String.leb_total.
Qed.

Lemma rank_le_trans x y z :
  rank_le score x y = true -> rank_le score y z = true -> rank_le score x z = true.
Proof.
  unfold rank_le. generalize (score x) (score y) (score z). intros a b c.
  destruct (Z.compare_spec b a), (Z.compare_spec c b), (Z.compare_spec c a);
    intros; try done; try lia. by eapply string_leb_trans.
Qed.

Lemma rank_le_antisym x y : rank_le score x y = true -> rank_le score y x = true -> x = y.
Proof.
  unfold rank_le. generalize (score x) (score y). intros a b.
  destruct (Z.compare_spec b a), (Z.compare_spec a b); intros; try done; try lia.
  by apply String.leb_antisym.
Qed.

(** [w] is the earliest id of [ids] with the greatest score. *)
Definition first_best (ids : list string) (w : string) : Prop :=
  exists pre post, ids = pre ++ w :: post /\
    (forall x, x ∈ pre -> score x < score w) /\ (forall x, x ∈ post -> score x <= score w).

Lemma best_loop_first_best ids b :
  exists w, best_loop score ids (Some b) (score b) = Some w /\ first_best (b :: ids) w.
Proof.
  revert b. induction ids as [|id ids IH]; intros b; cbn [best_loop].
  { exists b. split; [done|]. exists [], []. set_solver. }
  rewrite bool_decide_false by done. simpl orb.
  destruct (Z.ltb_spec (score b) (score id)) as [Hlt|Hge].
  - destruct (IH id) as (w & -> & pre & post & Heq & Hpre & Hpost). exists w. split; [done|].
    exists (b :: pre), post. split_and!; [by rewrite Heq| |done].
    intros x [->|Hx]%elem_of_cons; [|by auto].
    destruct pre as [|p pre]; simplify_eq/=; [done|].
    specialize (Hpre p). etrans; [done|]. apply Hpre. by left.
  - destruct (IH b) as (w & -> & pre & post & Heq & Hpre & Hpost). exists w. split; [done|].
    destruct pre as [|p pre]; simplify_eq/=.
    + exists [], (id :: post). split_and!; [done|set_solver|].
      intros x [->|Hx]%elem_of_cons; [done|by auto].
    + exists (p :: id :: pre), post. split_and!; [done| |done].
      intros x [->|[->|Hx]%elem_of_cons]%elem_of_cons.
      * apply Hpre. by left.
      * eapply Z.le_lt_trans; [done|]. apply Hpre. by left.
      * apply Hpre. by right.
Qed.

Lemma first_best_unique ids w w' : first_best ids w -> first_best ids w' -> w = w'.
Proof.
  intros (pre & post & -> & Hpre & Hpost) (pre' & post' & Heq & Hpre' & Hpost').
  apply app_eq_inv in Heq as [(k & -> & Hk)|(k & -> & Hk)]; destruct k as [|y k]; simplify_eq/=;
    try done; exfalso.
  - assert (score y < score w) by (apply Hpre; set_solver).
    assert (score w <= score y) by (apply Hpost'; set_solver). lia.
  - assert (score y < score w') by (apply Hpre'; set_solver).
    assert (score w' <= score y) by (apply Hpost; set_solver). lia.
Qed.

Lemma best_loop_iff ids w : best_loop score ids None 0 = Some w <-> first_best ids w.
Proof.
  destruct ids as [|id ids]; cbn [best_loop].
  { split; [done|]. by intros ([] & ? & ? & _). }
  rewrite bool_decide_true by done. simpl orb.
  destruct (best_loop_first_best ids id) as (w' & -> & Hw').
  split; [by intros [= ->]|]. intros Hw. f_equal. by eapply first_best_unique.
Qed.

Lemma first_best_remove ids w x :
  x <> w -> first_best ids w -> first_best (filter (fun y => y <> x) ids) w.
Proof.
  intros Hx (pre & post & -> & Hpre & Hpost).
  exists (filter (fun y => y <> x) pre), (filter (fun y => y <> x) post). split_and!.
  - rewrite filter_app, filter_cons_True by done. done.
  - intros y [_ Hy]%list_elem_of_filter. auto.
  - intros y [_ Hy]%list_elem_of_filter. auto.
Qed.

End score.

(** Every node ranks the members for a key in the same order, whatever order
    it learned them in: the ranking is a permutation of the ids and depends only
    on which ids there are. *)
Lemma sort_by_hrw_desc_deterministic key ids ids' :
  ids ≡ₚ ids' ->
  sort_by_hrw_desc key ids = sort_by_hrw_desc key ids' /\ sort_by_hrw_desc key ids ≡ₚ ids.
Proof.
  intros Hp. unfold sort_by_hrw_desc. generalize (hrw_score key) as score. intros score.
  split; [|apply sort_by_perm]. apply sort_by_permutation; [..|done].
  - apply rank_le_total.
  - apply rank_le_trans.
  - apply rank_le_antisym.
Qed.

(** Rendezvous hashing moves as little as it can: the winner for a key is a
    member with the greatest score, and taking any other member away does not
    move the key; only the keys of the removed member find a new owner. *)
Lemma hrw_winner_stable key ids w x :
  hrw_winner key ids = Some w ->
  w ∈ ids /\ (forall y, y ∈ ids -> hrw_score key y <= hrw_score key w) /\
  (x <> w -> hrw_winner key (filter (fun y => y <> x) ids) = Some w).
Proof.
  unfold hrw_winner. generalize (hrw_score key) as score. intros score.
  rewrite !best_loop_iff. intros Hw. split_and!.
  - destruct Hw as (pre & post & -> & _). set_solver.
  - intros y Hy. destruct Hw as (pre & post & -> & Hpre & Hpost).
    apply elem_of_app in Hy as [Hy|[->|Hy]%elem_of_cons]; [|done|by auto].
    apply Z.lt_le_incl. auto.
  - intros Hx. by apply first_best_remove.
Qed.
