(* ===== verification/FunctionScheduler.v ===== *)
(** Function scheduling ([vmond/src/function/scheduler.rs]): the fair admission
    queue, the accounting of a revision's worker pool, and the choice of the
    node that starts a worker.

    A [usize] is a [Z]; only [revision_limit] can reach its width.  Durations
    are counted in milliseconds. *)

From S2P Require Import Prelude F64 Membership Hrw.

Record PoolPolicy : Type := mkPoolPolicy {
  min_workers : Z; max_workers : Z; buffer_workers : Z; capacity : Z;
  max_outstanding : Z; idle_timeout : Z; max_calls : Z; max_batch_size : Z;
  batch_wait : Z }.

Module PoolPolicy.

Definition default : PoolPolicy :=
  {| min_workers := 0; max_workers := 1; buffer_workers := 0; capacity := 1;
     max_outstanding := 1; idle_timeout := 60000; max_calls := 0;
     max_batch_size := 1; batch_wait := 0 |}.

Definition normalized (p : PoolPolicy) : PoolPolicy :=
  let max_workers := Z.max (max_workers p) 1 in
  let min_workers := Z.min (min_workers p) max_workers in
  let capacity := Z.max (capacity p) 1 in
  let max_outstanding := Z.max (max_outstanding p) capacity in
  let max_batch_size := Z.min (Z.max (max_batch_size p) 1) max_outstanding in
  {| min_workers := min_workers; max_workers := max_workers;
     buffer_workers := buffer_workers p; capacity := capacity;
     max_outstanding := max_outstanding; idle_timeout := idle_timeout p;
     max_calls := max_calls p; max_batch_size := max_batch_size;
     batch_wait := batch_wait p |}.

(** What [normalized] establishes. *)
Definition normal (p : PoolPolicy) : Prop :=
  1 <= max_workers p /\ min_workers p <= max_workers p /\ 1 <= capacity p /\
  capacity p <= max_outstanding p /\ 1 <= max_batch_size p <= max_outstanding p.

End PoolPolicy.

(** ** The fair queue *)

Record QueuedInput : Type := mkQueuedInput {
  revision_id : string; call_id : string; input_index : Z; available_at_ms : Z;
  actor_id : option string }.

Record RevisionQueue : Type := mkRevisionQueue { rq_policy : PoolPolicy; rq_items : list QueuedInput }.

Record FairQueue : Type := mkFairQueue {
  revisions : gmap string RevisionQueue; ready : list string;
  ready_set : gset string; queued : Z; global_limit : Z }.

Module FairQueue.

Definition new (limit : Z) : FairQueue := mkFairQueue ∅ [] ∅ 0 (Z.max limit 1).

Definition set_policy (q : FairQueue) (revision : string) (policy : PoolPolicy) : FairQueue :=
  let policy := PoolPolicy.normalized policy in
  let queue := match revisions q !! revision with
               | Some queue => mkRevisionQueue policy (rq_items queue)
               | None => mkRevisionQueue policy []
               end in
  mkFairQueue (<[revision := queue]> (revisions q)) (ready q) (ready_set q)
    (queued q) (global_limit q).

(** [if ready_set.insert(r) { ready.push_back(r) }]. *)
Definition insert_ready (ready : list string) (ready_set : gset string) (r : string)
  : list string * gset string :=
  if bool_decide (r ∈ ready_set) then (ready, ready_set)
  else (ready ++ [r], {[r]} ∪ ready_set).

Definition push (q : FairQueue) (input : QueuedInput) : FairQueue * bool :=
  if global_limit q <=? queued q then (q, false)
  else match revisions q !! revision_id input with
  | None => (q, false)
  | Some queue =>
      let revision_limit :=
        saturating_mul 64 (max_workers (rq_policy queue)) (max_outstanding (rq_policy queue)) in
      if revision_limit <=? Z.of_nat (length (rq_items queue)) then (q, false)
      else
        let queue := mkRevisionQueue (rq_policy queue) (rq_items queue ++ [input]) in
        let '(rd, rs) := insert_ready (ready q) (ready_set q) (revision_id input) in
        (mkFairQueue (<[revision_id input := queue]> (revisions q)) rd rs
           (queued q + 1) (global_limit q), true)
  end.

(** [item.available_at_ms <= now_ms] of the front item, false without one. *)
Definition front_eligible (items : list QueuedInput) (now_ms : Z) : bool :=
  match items with
  | [] => false
  | item :: _ => available_at_ms item <=? now_ms
  end.

(** The inner [for _ in 0..count]: the items that are left, the batch, [queued]. *)
Fixpoint take_batch (count : nat) (items batch : list QueuedInput) (queued now_ms : Z)
  : list QueuedInput * list QueuedInput * Z :=
  match count with
  | O => (items, batch, queued)
  | S count =>
      match items with
      | [] => (items, batch, queued)
      | item :: items' =>
          if now_ms <? available_at_ms item then (items, batch, queued)
          else take_batch count items' (batch ++ [item]) (queued - 1) now_ms
      end
  end.

Fixpoint pop_turns (turns : nat) (q : FairQueue) (now_ms : Z)
  : FairQueue * option (list QueuedInput) :=
  match turns with
  | O => (q, None)
  | S turns =>
      match ready q with
      | [] => (q, None)
      | r :: rd =>
          let rs := ready_set q ∖ {[r]} in
          match revisions q !! r with
          | None => (mkFairQueue (revisions q) rd rs (queued q) (global_limit q), None)
          | Some queue =>
              if negb (front_eligible (rq_items queue) now_ms) then
                pop_turns turns
                  (mkFairQueue (revisions q) (rd ++ [r]) ({[r]} ∪ rs) (queued q) (global_limit q))
                  now_ms
              else
                let count :=
                  Z.min (max_batch_size (rq_policy queue)) (Z.of_nat (length (rq_items queue))) in
                let '(items, batch, n) :=
                  take_batch (Z.to_nat count) (rq_items queue) [] (queued q) now_ms in
                let revs := <[r := mkRevisionQueue (rq_policy queue) items]> (revisions q) in
                let q := match items with
                         | [] => mkFairQueue revs rd rs n (global_limit q)
                         | _ => mkFairQueue revs (rd ++ [r]) ({[r]} ∪ rs) n (global_limit q)
                         end in
                (q, Some batch)
          end
      end
  end.

Definition pop (q : FairQueue) (now_ms : Z) : FairQueue * option (list QueuedInput) :=
  pop_turns (length (ready q)) q now_ms.

Definition len (q : FairQueue) : Z := queued q.

Definition is_empty (q : FairQueue) : bool := queued q =? 0.

End FairQueue.

(** ** The worker pool of a revision *)

Record WorkerSlot : Type := mkWorkerSlot {
  id : string; active : Z; completed_calls : Z; last_idle_ms : Z; retiring : bool }.

Record WorkerPool : Type := mkWorkerPool { policy : PoolPolicy; workers : list WorkerSlot }.

Module WorkerPool.

Definition new (p : PoolPolicy) : WorkerPool := mkWorkerPool (PoolPolicy.normalized p) [].

Definition worker_count (p : WorkerPool) : Z := Z.of_nat (length (workers p)).

Definition desired_workers (p : WorkerPool) (queued_inputs : Z) : Z :=
  let demand := div_ceil queued_inputs (max_outstanding (policy p)) in
  let warm := if queued_inputs =? 0 then min_workers (policy p)
              else Z.max (saturating_add 64 demand (buffer_workers (policy p)))
                     (min_workers (policy p)) in
  Z.min warm (max_workers (policy p)).

Definition add_worker (p : WorkerPool) (worker_id : string) (now_ms : Z) : WorkerPool * bool :=
  if (max_workers (policy p) <=? Z.of_nat (length (workers p))) ||
     existsb (fun w => bool_decide (id w = worker_id)) (workers p)
  then (p, false)
  else (mkWorkerPool (policy p) (workers p ++ [mkWorkerSlot worker_id 0 0 now_ms false]), true).

Definition admissible (cap : Z) (w : WorkerSlot) : bool :=
  negb (retiring w) && (active w <? cap).

(** The order of the keys [(active, completed_calls)], strictly. *)
Definition key_lt (w v : WorkerSlot) : bool :=
  match active w ?= active v with
  | Lt => true
  | Gt => false
  | Eq => completed_calls w <? completed_calls v
  end.

(** [filter(..).min_by_key(..)]: the position of the first least-loaded
    admissible worker. *)
Fixpoint least_loaded (cap : Z) (ws : list WorkerSlot) : option (nat * WorkerSlot) :=
  match ws with
  | [] => None
  | w :: ws =>
      let rest := option_map (fun b => (S b.1, b.2)) (least_loaded cap ws) in
      if admissible cap w then
        match rest with
        | Some b => if key_lt b.2 w then Some b else Some (0%nat, w)
        | None => Some (0%nat, w)
        end
      else rest
  end.

Definition admit_one (p : WorkerPool) : WorkerPool * option string :=
  match least_loaded (capacity (policy p)) (workers p) with
  | None => (p, None)
  | Some (i, w) =>
      let w' := mkWorkerSlot (id w) (active w + 1) (completed_calls w) (last_idle_ms w)
                  (retiring w) in
      (mkWorkerPool (policy p) (<[i := w']> (workers p)), Some (id w))
  end.

(** [iter_mut().find(|worker| worker.id == worker_id)], then the update [f]. *)
Fixpoint update_first (worker_id : string) (f : WorkerSlot -> WorkerSlot) (ws : list WorkerSlot)
  : option (list WorkerSlot) :=
  match ws with
  | [] => None
  | w :: ws =>
      if bool_decide (id w = worker_id) then Some (f w :: ws)
      else option_map (cons w) (update_first worker_id f ws)
  end.

Definition abandon_slot (now_ms : Z) (w : WorkerSlot) : WorkerSlot :=
  let active := saturating_sub (active w) 1 in
  let idle := if active =? 0 then now_ms else last_idle_ms w in
  mkWorkerSlot (id w) active (completed_calls w) idle (retiring w).

Definition abandon (p : WorkerPool) (worker_id : string) (now_ms : Z) : WorkerPool * bool :=
  match update_first worker_id (abandon_slot now_ms) (workers p) with
  | None => (p, false)
  | Some ws => (mkWorkerPool (policy p) ws, true)
  end.

Definition complete_slot (max_calls now_ms : Z) (w : WorkerSlot) : WorkerSlot :=
  let active := saturating_sub (active w) 1 in
  let completed := saturating_add 64 (completed_calls w) 1 in
  if active =? 0 then
    let retire := if (0 <? max_calls) && (max_calls <=? completed) then true else retiring w in
    mkWorkerSlot (id w) active completed now_ms retire
  else mkWorkerSlot (id w) active completed (last_idle_ms w) (retiring w).

Definition complete (p : WorkerPool) (worker_id : string) (now_ms : Z) : WorkerPool * bool :=
  match update_first worker_id (complete_slot (max_calls (policy p)) now_ms) (workers p) with
  | None => (p, false)
  | Some ws => (mkWorkerPool (policy p) ws, true)
  end.

(** [idle_timeout.as_millis().try_into().unwrap_or(u64::MAX)]. *)
Definition idle_timeout_ms (p : PoolPolicy) : Z :=
  if idle_timeout p <? 2 ^ 64 then idle_timeout p else 2 ^ 64 - 1.

Fixpoint retire_loop (timeout now_ms : Z) (removable : Z) (ws : list WorkerSlot)
  : list WorkerSlot * list string :=
  match ws with
  | [] => ([], [])
  | w :: ws =>
      if (removable =? 0) || negb (active w =? 0) then
        let '(ws, ids) := retire_loop timeout now_ms removable ws in (w :: ws, ids)
      else
        let expired := timeout <=? saturating_sub now_ms (last_idle_ms w) in
        if retiring w || expired then
          let '(ws, ids) := retire_loop timeout now_ms (removable - 1) ws in
          (mkWorkerSlot (id w) (active w) (completed_calls w) (last_idle_ms w) true :: ws,
           id w :: ids)
        else
          let '(ws, ids) := retire_loop timeout now_ms removable ws in (w :: ws, ids)
  end.

Definition retire_ready (p : WorkerPool) (now_ms : Z) : WorkerPool * list string :=
  let removable := saturating_sub (Z.of_nat (length (workers p))) (min_workers (policy p)) in
  let '(ws, ids) := retire_loop (idle_timeout_ms (policy p)) now_ms removable (workers p) in
  (mkWorkerPool (policy p) ws, ids).

(** [Vec::swap_remove]: the last element takes the place of the removed one. *)
Definition swap_remove {A} (i : nat) (l : list A) : list A :=
  match last l with
  | Some x => take (length l - 1) (<[i := x]> l)
  | None => l
  end.

Definition remove_worker (p : WorkerPool) (worker_id : string) : WorkerPool * bool :=
  match list_find (fun w => id w = worker_id) (workers p) with
  | None => (p, false)
  | Some (index, _) => (mkWorkerPool (policy p) (swap_remove index (workers p)), true)
  end.

End WorkerPool.

(** ** Dynamic batches and modes *)

Definition dynamic_batch_ready (queued_inputs oldest_available_ms now_ms max_batch max_wait_ms : Z)
  : bool :=
  (Z.max max_batch 1 <=? queued_inputs) ||
  (max_wait_ms <=? saturating_sub now_ms oldest_available_ms).

(** ** Placement of a worker *)

Record PlacementHints : Type := mkPlacementHints {
  avoid_hosts : list string; avoid_zones : list string; affinity_key : option string;
  required_arch : option string; snapshot_digest : option string;
  artifact_digest : option string; warm_worker_nodes : list string }.

Inductive PlacementSpread : Type := SpreadNone | SpreadHost | SpreadZone.

Definition contains (l : list string) (x : string) : bool := bool_decide (x ∈ l).

Definition arch_ok (hints : PlacementHints) (node : NodeState) : bool :=
  match required_arch hints ≫= fun a => normalize_oci_arch (Some a) with
  | None => true
  | Some required => bool_decide (normalize_oci_arch (Some (arch node)) = Some required)
  end.

Definition spread_ok (spread : PlacementSpread) (hints : PlacementHints) (node : NodeState) : bool :=
  match spread with
  | SpreadNone => true
  | SpreadHost => negb (contains (avoid_hosts hints) (node_id node))
  | SpreadZone => negb (bool_decide (region node = "")) && negb (contains (avoid_zones hints) (region node))
  end.

Definition has_artifact (digest : option string) (node : NodeState) : bool :=
  match digest with
  | Some d => contains (function_artifacts node) d
  | None => false
  end.

(** The tuple compared without an affinity key; [cmp_ranks] is the derived
    lexicographic order on tuples. *)
Definition locality_rank (score : string -> Z) (hints : PlacementHints) (node : NodeState) : list Z :=
  [Z.b2z (contains (warm_worker_nodes hints) (node_id node));
   Z.b2z (has_artifact (snapshot_digest hints) node);
   Z.b2z (has_artifact (artifact_digest hints) node);
   NodeState.free_vcpus node; NodeState.free_mem_mib node; score (node_id node)].

Fixpoint cmp_ranks (l r : list Z) : comparison :=
  match l, r with
  | [], [] => Eq
  | [], _ :: _ => Lt
  | _ :: _, [] => Gt
  | x :: l, y :: r => match x ?= y with Eq => cmp_ranks l r | c => c end
  end.

(** The rank of a node: its affinity score when there is a key. *)
Definition placement_rank (revision : string) (hints : PlacementHints) (node : NodeState) : list Z :=
  match affinity_key hints with
  | Some key => [hrw_score key (node_id node)]
  | None => locality_rank (hrw_score revision) hints node
  end.

(** The comparison of [sort_by], as "not after". *)
Definition placed_before (rank : NodeState -> list Z) (left right : NodeState) : bool :=
  match cmp_ranks (rank right) (rank left) with
  | Lt => true
  | Gt => false
  | Eq => String.leb (node_id left) (node_id right)
  end.

Definition compatible (spread : PlacementSpread) (hints : PlacementHints) (nodes : list NodeState)
  : list NodeState :=
  filter (fun n => spread_ok spread hints n = true) (filter (fun n => arch_ok hints n = true) nodes).

Definition place_function_worker (revision : string) (spread : PlacementSpread)
    (hints : PlacementHints) (nodes : list NodeState) : result string string :=
  match sort_by (placed_before (placement_rank revision hints)) (compatible spread hints nodes) with
  | [] =>
      let scope := match spread with
                   | SpreadNone => "architecture" | SpreadHost => "host" | SpreadZone => "zone"
                   end in
      Err ("function HA " +:+ scope +:+ " placement is unavailable: no compatible mesh node satisfies the requested spread")
  | n :: _ => Ok (node_id n)
  end.

(** * Properties of the fair queue *)

Lemma normalized_normal p : PoolPolicy.normal (PoolPolicy.normalized p).
Proof. unfold PoolPolicy.normal, PoolPolicy.normalized. simpl. lia. Qed.

#[export] Hint Resolve normalized_normal : vm.

(** The inputs waiting for a revision, oldest first. *)
Definition contents (q : FairQueue) (r : string) : list QueuedInput :=
  match revisions q !! r with
  | Some queue => rq_items queue
  | None => []
  end.

Definition total (m : gmap string RevisionQueue) : Z :=
  map_fold (fun _ queue n => Z.of_nat (length (rq_items queue)) + n) 0 m.

Lemma total_insert_None m r queue :
  m !! r = None -> total (<[r := queue]> m) = Z.of_nat (length (rq_items queue)) + total m.
Proof. intros Hr. unfold total. rewrite map_fold_insert_L; [done|intros; lia|done]. Qed.

Lemma total_insert_Some m r old queue :
  m !! r = Some old ->
  total (<[r := queue]> m) =
    total m - Z.of_nat (length (rq_items old)) + Z.of_nat (length (rq_items queue)).
Proof.
  intros Hr. rewrite <- (insert_delete_id m r old Hr) at 2. rewrite <- (insert_delete_eq m r queue).
  rewrite !total_insert_None by apply lookup_delete_eq. lia.
Qed.

Lemma total_nonneg m : 0 <= total m.
Proof.
  unfold total. apply (map_fold_weak_ind (fun n _ => 0 <= n)); [done|]. intros. lia.
Qed.

(** What holds of the queue between any two calls. *)
Record queue_inv (q : FairQueue) : Prop := {
  qi_nodup : NoDup (ready q);
  qi_set : forall r, r ∈ ready_set q <-> r ∈ ready q;
  qi_ready : forall r, r ∈ ready q <-> contents q r <> [];
  qi_queued : queued q = total (revisions q);
  qi_limit : queued q <= global_limit q;
  qi_policy : forall r queue, revisions q !! r = Some queue -> PoolPolicy.normal (rq_policy queue);
  qi_own : forall r i, i ∈ contents q r -> revision_id i = r }.

Lemma contents_insert q r queue rd rs n r' :
  contents (mkFairQueue (<[r := queue]> (revisions q)) rd rs n (global_limit q)) r' =
  if bool_decide (r' = r) then rq_items queue else contents q r'.
Proof.
  unfold contents. simpl. case_bool_decide as Hr; subst.
  - by rewrite lookup_insert_eq.
  - by rewrite lookup_insert_ne.
Qed.

Lemma new_inv limit : queue_inv (FairQueue.new limit).
Proof. split; unfold contents; simpl; try set_solver; [constructor|lia]. Qed.

Lemma set_policy_contents q r p r' : contents (FairQueue.set_policy q r p) r' = contents q r'.
Proof.
  unfold FairQueue.set_policy. rewrite contents_insert. case_bool_decide; subst; [|done].
  unfold contents. by destruct (revisions q !! r).
Qed.

Lemma set_policy_inv q r p : queue_inv q -> queue_inv (FairQueue.set_policy q r p).
Proof.
  intros [Hnd Hset Hrd Hq Hlim Hpol Hown]. split; try done.
  - intros r'. rewrite set_policy_contents. apply Hrd.
  - simpl. rewrite Hq. destruct (revisions q !! r) as [queue|] eqn:Hr.
    + erewrite total_insert_Some by done. simpl. lia.
    + rewrite total_insert_None by done. simpl. lia.
  - intros r' queue. simpl. destruct (decide (r' = r)) as [->|].
    + rewrite lookup_insert_eq. intros [= <-]. destruct (revisions q !! r); apply normalized_normal.
    + rewrite lookup_insert_ne by done. apply Hpol.
  - intros r' i. rewrite set_policy_contents. apply Hown.
Qed.

Lemma app_ne_nil {A} (l k : list A) : l ++ k <> [] <-> l <> [] \/ k <> [].
Proof. destruct l, k; simpl; split; auto; intros [?|?]; congruence. Qed.

(** An accepted input goes to the back of its revision's queue; a refused one
    changes nothing. *)
Lemma push_spec q i q' b :
  queue_inv q -> FairQueue.push q i = (q', b) ->
  if b then
    queued q < global_limit q /\
    exists queue tail, revisions q !! revision_id i = Some queue /\
      q' = mkFairQueue
             (<[revision_id i := mkRevisionQueue (rq_policy queue) (rq_items queue ++ [i])]>
                (revisions q))
             (ready q ++ tail) (list_to_set tail ∪ ready_set q) (queued q + 1) (global_limit q) /\
      tail = (if bool_decide (revision_id i ∈ ready q) then [] else [revision_id i])
  else q' = q.
Proof.
  intros Hinv. unfold FairQueue.push, FairQueue.insert_ready.
  destruct (Z.leb_spec (global_limit q) (queued q)); [by intros [= <- <-]|].
  destruct (revisions q !! revision_id i) as [queue|] eqn:Hr; [|by intros [= <- <-]].
  case_match; [by intros [= <- <-]|].
  rewrite (bool_decide_ext (revision_id i ∈ ready_set q) (revision_id i ∈ ready q)) by apply Hinv.
  case_bool_decide; intros [= <- <-]; (split; [done|]); eexists queue, _; (split; [done|]);
    (split; [|reflexivity]); f_equal; simpl; rewrite ?app_nil_r; set_solver.
Qed.

Lemma push_contents q i q' b :
  queue_inv q -> FairQueue.push q i = (q', b) ->
  forall r, contents q' r =
    contents q r ++ (if b && bool_decide (revision_id i = r) then [i] else []).
Proof.
  intros Hinv Hp r. apply push_spec in Hp; [|done]. destruct b; simpl; [|by subst; rewrite app_nil_r].
  destruct Hp as (_ & queue & tail & Hr & -> & _). rewrite contents_insert.
  case_bool_decide as Hr'; subst.
  - rewrite bool_decide_true by done. simpl. unfold contents. by rewrite Hr.
  - rewrite bool_decide_false by congruence. by rewrite app_nil_r.
Qed.

Lemma push_inv q i q' b : queue_inv q -> FairQueue.push q i = (q', b) -> queue_inv q'.
Proof.
  intros Hinv Hp. pose proof (push_contents _ _ _ _ Hinv Hp) as Hc.
  apply push_spec in Hp; [|done]. destruct b; simpl in *; [|by subst].
  destruct Hp as (Hlt & queue & tail & Hr & Hq' & Htail), Hinv as [Hnd Hset Hrd Hq Hlim Hpol Hown].
  assert (Hc' : forall r, r ∈ ready q ++ tail <-> contents q' r <> []).
  { intros r. rewrite Hc, elem_of_app, app_ne_nil, Hrd. subst tail.
    destruct (decide (revision_id i = r)) as [<-|Hne].
    - rewrite (bool_decide_true (_ = _)) by done.
      case_bool_decide as Hin; [apply Hrd in Hin; tauto|].
      rewrite list_elem_of_singleton. split; auto.
    - rewrite (bool_decide_false (_ = _)) by done.
      case_bool_decide; [rewrite elem_of_nil; tauto|]. rewrite list_elem_of_singleton.
      split; intros [?|?]; auto; congruence. }
  assert (Hown' : forall r x, x ∈ contents q' r -> revision_id x = r).
  { intros r x. rewrite Hc, elem_of_app. intros [?|Hx]; [by auto|].
    case_bool_decide; [by apply list_elem_of_singleton in Hx as ->|by apply elem_of_nil in Hx]. }
  subst q'. split; simpl; try done.
  - subst tail. case_bool_decide; [by rewrite app_nil_r|]. apply NoDup_app.
    split_and!; [done| |apply NoDup_singleton]. by intros x Hx ->%list_elem_of_singleton.
  - intros r. rewrite elem_of_union, elem_of_app, elem_of_list_to_set, Hset. tauto.
  - erewrite total_insert_Some by done. simpl. rewrite length_app. simpl. lia.
  - lia.
  - intros r queue'. destruct (decide (r = revision_id i)) as [->|].
    + rewrite lookup_insert_eq. intros [= <-]. simpl. by eapply Hpol.
    + rewrite lookup_insert_ne by done. apply Hpol.
Qed.

(** *** [pop] *)

Definition eligible (q : FairQueue) (now_ms : Z) (r : string) : bool :=
  FairQueue.front_eligible (contents q r) now_ms.

Lemma take_batch_spec count items batch n now_ms :
  exists taken left,
    FairQueue.take_batch count items batch n now_ms =
      (left, batch ++ taken, n - Z.of_nat (length taken)) /\
    items = taken ++ left /\ (length taken <= count)%nat /\
    Forall (fun i => available_at_ms i <= now_ms) taken /\
    ((length taken = count)%nat \/ FairQueue.front_eligible left now_ms = false).
Proof.
  revert items batch n. induction count as [|count IH]; intros items batch n; cbn [FairQueue.take_batch].
  { exists [], items. simpl. rewrite app_nil_r, Z.sub_0_r.
    split_and!; [done|done|lia|constructor|by left]. }
  destruct items as [|i items].
  { exists [], []. simpl. rewrite app_nil_r, Z.sub_0_r.
    split_and!; [done|done|lia|constructor|by right]. }
  destruct (Z.ltb_spec now_ms (available_at_ms i)) as [Hlt|Hge].
  { exists [], (i :: items). simpl. rewrite app_nil_r, Z.sub_0_r.
    split_and!; [done|done|lia|constructor|right; by apply Z.leb_gt]. }
  destruct (IH items (batch ++ [i]) (n - 1)) as (taken & left & -> & -> & Hl & Ha & Hm).
  exists (i :: taken), left. rewrite length_cons, <- app_assoc.
  replace (n - 1 - Z.of_nat (length taken)) with (n - Z.of_nat (S (length taken))) by lia.
  split_and!; [done|done|lia|by constructor|destruct Hm; auto].
Qed.

Definition with_ready (q : FairQueue) (rd : list string) : FairQueue :=
  mkFairQueue (revisions q) rd (ready_set q) (queued q) (global_limit q).

(** [q'] is [q] after a batch of the revision [r], the first with an eligible
    front after [pre]. *)
Record served (q : FairQueue) (now_ms : Z) (pre : list string) (r : string) (post : list string)
    (batch : list QueuedInput) (q' : FairQueue) : Prop := {
  sv_skipped : forall s, s ∈ pre -> eligible q now_ms s = false;
  sv_items : contents q r = batch ++ contents q' r;
  sv_other : forall s, s <> r -> contents q' s = contents q s;
  sv_nonempty : batch <> [];
  sv_available : Forall (fun i => available_at_ms i <= now_ms) batch;
  sv_size : forall queue, revisions q !! r = Some queue ->
    Z.of_nat (length batch) <= max_batch_size (rq_policy queue) /\
    (Z.of_nat (length batch) = max_batch_size (rq_policy queue) \/ eligible q' now_ms r = false);
  sv_ready : ready q' = post ++ pre ++ (if bool_decide (contents q' r = []) then [] else [r]);
  sv_set : forall s, s ∈ ready_set q' <-> s ∈ ready_set q /\ (s = r -> contents q' r <> []);
  sv_revisions : exists queue, revisions q !! r = Some queue /\
    revisions q' = <[r := mkRevisionQueue (rq_policy queue) (contents q' r)]> (revisions q);
  sv_queued : queued q' = queued q - Z.of_nat (length batch);
  sv_limit : global_limit q' = global_limit q }.

(** Serving a revision whose front is eligible. *)
Lemma pop_turn_served turns q now_ms r post queue :
  ready q = r :: post -> r ∈ ready_set q -> revisions q !! r = Some queue ->
  PoolPolicy.normal (rq_policy queue) -> FairQueue.front_eligible (rq_items queue) now_ms = true ->
  exists batch q', FairQueue.pop_turns (S turns) q now_ms = (q', Some batch) /\
    served q now_ms [] r post batch q'.
Proof.
  intros Hrd Hin Hr Hpol Hel. cbn [FairQueue.pop_turns]. rewrite Hrd, Hr, Hel. cbn [negb].
  set (count := Z.min _ _).
  destruct (take_batch_spec (Z.to_nat count) (rq_items queue) [] (queued q) now_ms)
    as (taken & left & -> & Hitems & Hlen & Hav & Hmax).
  rewrite app_nil_l. unfold PoolPolicy.normal in Hpol.
  assert (Hl : length (rq_items queue) = (length taken + length left)%nat)
    by (by rewrite Hitems, length_app).
  assert (taken <> []) as Hne.
  { intros ->. destruct Hmax as [Hm|Hm].
    - destruct (rq_items queue); simpl in *; [done|]. lia.
    - rewrite Hitems in Hel. simpl in Hel. congruence. }
  eexists taken, _. split; [reflexivity|].
  assert (Hc : forall rd rs n g s, contents
    (mkFairQueue (<[r := mkRevisionQueue (rq_policy queue) left]> (revisions q)) rd rs n g) s =
    if bool_decide (s = r) then left else contents q s).
  { intros. rewrite <- (contents_insert q r (mkRevisionQueue (rq_policy queue) left) rd rs n).
    done. }
  assert (Hcr : contents q r = rq_items queue) by (unfold contents; by rewrite Hr).
  assert (Hsize : Z.of_nat (length taken) <= max_batch_size (rq_policy queue) /\
    (Z.of_nat (length taken) = max_batch_size (rq_policy queue) \/
     FairQueue.front_eligible left now_ms = false)).
  { split; [lia|]. destruct Hmax as [Hm|Hm]; [|by right].
    destruct left as [|x left]; [by right|]. left. simpl in *. lia. }
  destruct left as [|x left'];
    (split; unfold eligible; rewrite ?Hc; try rewrite (bool_decide_true (r = r)) by done;
     [set_solver|congruence|intros s Hs; rewrite Hc; by rewrite bool_decide_false by done|done|done
     |intros ? [= <-]%(eq_trans (eq_sym Hr)); done| | |by exists queue|done|done]).
  - by rewrite app_nil_r.
  - intros s. simpl. split; [|intros [? ?]]; set_solver.
  - done.
  - intros s. simpl. destruct (decide (s = r)); set_solver.
Qed.

Lemma served_skip q now_ms pre r post batch q' s rd :
  eligible q now_ms s = false ->
  served (with_ready q rd) now_ms pre r (post ++ [s]) batch q' ->
  served q now_ms (s :: pre) r post batch q'.
Proof.
  intros Hs [Hpre ????? Hrd ????]. split; try done.
  - intros s' [->|?]%elem_of_cons; [done|by apply Hpre].
  - by rewrite Hrd, <- app_assoc.
Qed.

Lemma pop_turns_spec now_ms l1 : forall q l2,
  ready q = l1 ++ l2 -> (forall r, r ∈ l1 -> r ∈ ready_set q) ->
  (forall r, r ∈ l1 ->
     exists queue, revisions q !! r = Some queue /\ PoolPolicy.normal (rq_policy queue)) ->
  (FairQueue.pop_turns (length l1) q now_ms = (with_ready q (l2 ++ l1), None) /\
   forall r, r ∈ l1 -> eligible q now_ms r = false) \/
  exists pre r post batch q', l1 = pre ++ r :: post /\
    FairQueue.pop_turns (length l1) q now_ms = (q', Some batch) /\
    served q now_ms pre r (post ++ l2) batch q'.
Proof.
  induction l1 as [|r l1 IH]; intros q l2 Hrd Hset Hreg.
  { left. split; [|set_solver]. rewrite app_nil_r. simpl in *. subst l2. by destruct q. }
  destruct (Hreg r) as (queue & Hr & Hpol); [by left|]. cbn [length].
  destruct (FairQueue.front_eligible (rq_items queue) now_ms) eqn:Hel.
  { right. destruct (pop_turn_served (length l1) q now_ms r (l1 ++ l2) queue)
      as (batch & q' & Hpop & Hs); auto; [by apply Hset; left|].
    by exists [], r, l1, batch, q'. }
  assert (eligible q now_ms r = false) as Hel'.
  { unfold eligible, contents. by rewrite Hr. }
  cbn [FairQueue.pop_turns]. rewrite Hrd. cbn [app]. rewrite Hr, Hel. cbn [negb].
  replace ({[r]} ∪ ready_set q ∖ {[r]}) with (ready_set q); last first.
  { apply set_eq. intros s. specialize (Hset r ltac:(by left)).
    destruct (decide (s = r)); set_solver. }
  change (mkFairQueue (revisions q) ((l1 ++ l2) ++ [r]) (ready_set q) (queued q) (global_limit q))
    with (with_ready q ((l1 ++ l2) ++ [r])). rewrite <- app_assoc.
  destruct (IH (with_ready q (l1 ++ l2 ++ [r])) (l2 ++ [r])) as [[Hpop Hno]|Hyes]; simpl; auto.
  - intros s Hs. apply Hset. by right.
  - intros s Hs. apply Hreg. by right.
  - left. rewrite Hpop. split; [by rewrite <- app_assoc|].
    intros s [->|Hs]%elem_of_cons; [done|by apply Hno].
  - right. destruct Hyes as (pre & s & post & batch & q' & -> & Hpop & Hsv).
    exists (r :: pre), s, post, batch, q'. split_and!; [done|done|].
    eapply served_skip; [done|]. by rewrite <- app_assoc.
Qed.

(** The two outcomes of [pop]. *)
Lemma pop_spec q now_ms :
  queue_inv q ->
  (FairQueue.pop q now_ms = (q, None) /\ forall r, eligible q now_ms r = false) \/
  exists pre r post batch q', ready q = pre ++ r :: post /\
    FairQueue.pop q now_ms = (q', Some batch) /\ served q now_ms pre r post batch q'.
Proof.
  intros [Hnd Hset Hrd Hq Hlim Hpol Hown]. unfold FairQueue.pop.
  destruct (pop_turns_spec now_ms (ready q) q []) as [[Hpop Hno]|Hyes].
  - by rewrite app_nil_r.
  - intros r. by rewrite Hset.
  - intros r Hr%Hrd. unfold contents in Hr. destruct (revisions q !! r) as [queue|] eqn:E; [|done].
    eauto.
  - left. split; [rewrite Hpop; by destruct q|]. intros r.
    destruct (decide (r ∈ ready q)) as [|Hr]; [by apply Hno|].
    unfold eligible. destruct (contents q r) eqn:Hc; [done|]. destruct Hr. apply Hrd. by rewrite Hc.
  - right. destruct Hyes as (pre & r & post & batch & q' & ? & ? & ?). rewrite app_nil_r in *.
    eauto 10.
Qed.

Lemma served_inv q now_ms pre r post batch q' :
  queue_inv q -> ready q = pre ++ r :: post -> served q now_ms pre r post batch q' -> queue_inv q'.
Proof.
  intros [Hnd Hset Hrd Hq Hlim Hpol Hown] Hready
    [_ Hitems Hother _ _ _ Hready' Hset' (queue & Hr & Hrevs) Hqueued Hlimit].
  assert (Hin : forall s, s ∈ ready q' <-> s ∈ ready q /\ (s = r -> contents q' r <> [])).
  { intros s. rewrite Hready', Hready, !elem_of_app, elem_of_cons.
    rewrite Hready in Hnd. apply NoDup_app in Hnd as (_ & Hpre & [Hpost _]%NoDup_cons).
    specialize (Hpre r). case_bool_decide as Hc.
    - rewrite elem_of_nil. split; [|naive_solver].
      intros [Hs|[Hs|[]]]; (split; [by auto|]); intros ->; [done|]. exfalso. set_solver.
    - rewrite list_elem_of_singleton. naive_solver. }
  assert (Hqc : contents q r = rq_items queue) by (unfold contents; by rewrite Hr).
  split.
  - rewrite Hready in Hnd. rewrite Hready'. assert (Hperm : pre ++ r :: post ≡ₚ r :: post ++ pre).
    { by rewrite <- Permutation_middle, (Permutation_app_comm pre post). }
    rewrite Hperm in Hnd. case_bool_decide; [rewrite app_nil_r; by eapply NoDup_cons_1_2|].
    by rewrite app_assoc, <- Permutation_cons_append.
  - intros s. rewrite Hset', Hset. by rewrite Hin.
  - intros s. rewrite Hin, Hrd. destruct (decide (s = r)) as [->|Hne].
    + rewrite Hitems, app_ne_nil. tauto.
    + rewrite (Hother s) by done. tauto.
  - rewrite Hqueued, Hq, Hrevs. erewrite total_insert_Some by done. simpl.
    rewrite <- Hqc, Hitems, length_app. lia.
  - lia.
  - intros s queue'. rewrite Hrevs. destruct (decide (s = r)) as [->|].
    + rewrite lookup_insert_eq. intros [= <-]. simpl. by eapply Hpol.
    + rewrite lookup_insert_ne by done. apply Hpol.
  - intros s i. destruct (decide (s = r)) as [->|Hne].
    + intros Hi. apply Hown. rewrite Hitems. set_solver.
    + rewrite Hother by done. apply Hown.
Qed.

(** *** Sequences of calls *)

Inductive queue_op : Type :=
  | OpSetPolicy (r : string) (p : PoolPolicy)
  | OpPush (i : QueuedInput)
  | OpPop (now_ms : Z).

(** One call: the queue after it, the inputs it accepted and the inputs it
    handed out. *)
Definition queue_step (q : FairQueue) (o : queue_op)
  : FairQueue * list QueuedInput * list QueuedInput :=
  match o with
  | OpSetPolicy r p => (FairQueue.set_policy q r p, [], [])
  | OpPush i => let '(q, b) := FairQueue.push q i in (q, (if b then [i] else []), [])
  | OpPop now_ms => let '(q, batch) := FairQueue.pop q now_ms in (q, [], default [] batch)
  end.

Fixpoint queue_run (q : FairQueue) (ops : list queue_op)
  : FairQueue * list QueuedInput * list QueuedInput :=
  match ops with
  | [] => (q, [], [])
  | o :: ops =>
      let '(q, acc, out) := queue_step q o in
      let '(q, acc', out') := queue_run q ops in
      (q, acc ++ acc', out ++ out')
  end.

Definition queue_reachable (q : FairQueue) : Prop :=
  exists limit ops, (queue_run (FairQueue.new limit) ops).1.1 = q.

(** The inputs of [l] that belong to [r]. *)
Definition of_revision (r : string) (l : list QueuedInput) : list QueuedInput :=
  filter (fun i => revision_id i = r) l.

Lemma of_revision_app r l k : of_revision r (l ++ k) = of_revision r l ++ of_revision r k.
Proof. apply filter_app. Qed.

Lemma of_revision_all r l : Forall (fun i => revision_id i = r) l -> of_revision r l = l.
Proof.
  induction 1 as [|i l Hi _ IH]; [done|]. unfold of_revision in *.
  rewrite filter_cons_True by done. by rewrite IH.
Qed.

Lemma of_revision_none r s l :
  r <> s -> Forall (fun i => revision_id i = s) l -> of_revision r l = [].
Proof.
  intros Hne. induction 1 as [|i l Hi _ IH]; [done|]. unfold of_revision in *.
  rewrite filter_cons_False by congruence. done.
Qed.

Lemma served_own q now_ms pre r post batch q' :
  queue_inv q -> served q now_ms pre r post batch q' ->
  Forall (fun i => revision_id i = r) batch.
Proof.
  intros Hinv Hsv. apply Forall_forall. intros i Hi. apply Hinv.
  rewrite (sv_items _ _ _ _ _ _ _ Hsv). set_solver.
Qed.

Lemma queue_step_inv q o : queue_inv q -> queue_inv (queue_step q o).1.1.
Proof.
  intros Hinv. destruct o as [r p|i|now]; simpl.
  - by apply set_policy_inv.
  - destruct (FairQueue.push q i) as [q' b] eqn:Hp. simpl. by eapply push_inv.
  - destruct (pop_spec q now Hinv) as [[-> _]|(pre & r & post & batch & q' & Hrd & -> & Hsv)];
      simpl; [done|]. by eapply served_inv.
Qed.

Lemma queue_step_limit q o : queue_inv q -> global_limit (queue_step q o).1.1 = global_limit q.
Proof.
  intros Hinv. destruct o as [r p|i|now]; simpl; [done| |].
  - destruct (FairQueue.push q i) as [q' b] eqn:Hp. apply push_spec in Hp; [|done].
    destruct b; [|by subst]. by destruct Hp as (_ & queue & tail & _ & -> & _).
  - destruct (pop_spec q now Hinv) as [[-> _]|(pre & r & post & batch & q' & Hrd & -> & Hsv)];
      simpl; [done|]. apply (sv_limit _ _ _ _ _ _ _ Hsv).
Qed.

Lemma queue_run_inv q ops : queue_inv q -> queue_inv (queue_run q ops).1.1.
Proof.
  revert q. induction ops as [|o ops IH]; intros q Hinv; simpl; [done|].
  apply (queue_step_inv q o) in Hinv. destruct (queue_step q o) as [[q1 acc] out].
  specialize (IH q1 Hinv). by destruct (queue_run q1 ops) as [[q2 acc'] out'].
Qed.

Lemma queue_reachable_inv q : queue_reachable q -> queue_inv q.
Proof. intros (limit & ops & <-). apply queue_run_inv, new_inv. Qed.

Lemma queue_run_limit q ops : queue_inv q -> global_limit (queue_run q ops).1.1 = global_limit q.
Proof.
  revert q. induction ops as [|o ops IH]; intros q Hinv; simpl; [done|].
  pose proof (queue_step_inv q o Hinv) as Hinv'. pose proof (queue_step_limit q o Hinv) as Hl.
  destruct (queue_step q o) as [[q1 acc] out]. specialize (IH q1 Hinv').
  destruct (queue_run q1 ops) as [[q2 acc'] out']. simpl in *. congruence.
Qed.

#[export] Hint Resolve queue_reachable_inv queue_run_inv new_inv : vm.

(** What one call does to the queue of a revision. *)
Lemma queue_step_contents q o r :
  queue_inv q ->
  contents q r ++ of_revision r (queue_step q o).1.2 =
  of_revision r (queue_step q o).2 ++ contents (queue_step q o).1.1 r.
Proof.
  intros Hinv. destruct o as [s p|i|now]; simpl.
  - by rewrite set_policy_contents, app_nil_r.
  - destruct (FairQueue.push q i) as [q' b] eqn:Hp. simpl.
    rewrite (push_contents _ _ _ _ Hinv Hp). f_equal. destruct b; simpl; [|done].
    unfold of_revision. rewrite filter_cons, filter_nil.
    case_decide; case_bool_decide; done.
  - destruct (pop_spec q now Hinv) as [[-> _]|(pre & s & post & batch & q' & Hrd & -> & Hsv)];
      simpl; [by rewrite app_nil_r|]. rewrite app_nil_r.
    pose proof (served_own _ _ _ _ _ _ _ Hinv Hsv) as Hown.
    destruct (decide (r = s)) as [->|Hne].
    + rewrite of_revision_all by done. apply (sv_items _ _ _ _ _ _ _ Hsv).
    + erewrite of_revision_none by done. symmetry. by apply (sv_other _ _ _ _ _ _ _ Hsv).
Qed.

Lemma queue_run_contents q ops r :
  queue_inv q ->
  contents q r ++ of_revision r (queue_run q ops).1.2 =
  of_revision r (queue_run q ops).2 ++ contents (queue_run q ops).1.1 r.
Proof.
  revert q. induction ops as [|o ops IH]; intros q Hinv; simpl; [by rewrite app_nil_r|].
  pose proof (queue_step_contents q o r Hinv) as Hstep.
  apply (queue_step_inv q o) in Hinv. destruct (queue_step q o) as [[q1 acc] out].
  specialize (IH q1 Hinv). destruct (queue_run q1 ops) as [[q2 acc'] out']. simpl in *.
  rewrite !of_revision_app, app_assoc, Hstep, <- !app_assoc. by f_equal.
Qed.

(** C34: the fair queue neither loses, duplicates nor reorders inputs: over any
    sequence of calls, the inputs accepted for a revision are, in order, those
    handed out followed by those still waiting; [len] counts the ones waiting and
    never exceeds the process-wide limit, and a revision is in the rotation
    exactly once when it has inputs and not at all otherwise. *)
Theorem fair_queue_fifo limit ops :
  let '(q, accepted, popped) := queue_run (FairQueue.new limit) ops in
  (forall r, of_revision r accepted = of_revision r popped ++ contents q r) /\
  FairQueue.len q = total (revisions q) /\ FairQueue.len q <= Z.max limit 1 /\
  NoDup (ready q) /\ (forall r, r ∈ ready q <-> contents q r <> []).
Proof.
  pose proof (new_inv limit) as Hnew. pose proof (queue_run_inv _ ops Hnew) as Hinv.
  pose proof (fun r => queue_run_contents _ ops r Hnew) as Hc.
  pose proof (queue_run_limit (FairQueue.new limit) ops Hnew) as Hlim.
  destruct (queue_run (FairQueue.new limit) ops) as [[q acc] out]. simpl in *.
  split_and!; [done|apply Hinv|rewrite <- Hlim; apply Hinv|apply Hinv|apply Hinv].
Qed.

(** [pop] makes progress and hands out only what may run: it returns no batch
    exactly when no waiting revision has an eligible front, and then changes
    nothing; otherwise the batch is a non-empty prefix of one revision's queue, no
    longer than its batch size, of inputs whose retry time has come, as long as
    the size and the retry times allow, and no other revision's queue changes. *)
Lemma pop_progress q now_ms :
  queue_reachable q ->
  match FairQueue.pop q now_ms with
  | (q', None) => q' = q /\ forall r, FairQueue.front_eligible (contents q r) now_ms = false
  | (q', Some batch) =>
      exists r queue, revisions q !! r = Some queue /\ rq_items queue = batch ++ contents q' r /\
        0 < Z.of_nat (length batch) <= max_batch_size (rq_policy queue) /\
        Forall (fun i => revision_id i = r /\ available_at_ms i <= now_ms) batch /\
        (Z.of_nat (length batch) = max_batch_size (rq_policy queue) \/
         FairQueue.front_eligible (contents q' r) now_ms = false) /\
        forall s, s <> r -> contents q' s = contents q s
  end.
Proof.
  intros Hinv%queue_reachable_inv.
  destruct (pop_spec q now_ms Hinv) as [[-> Hno]|(pre & r & post & batch & q' & Hrd & -> & Hsv)];
    [done|].
  pose proof (served_own _ _ _ _ _ _ _ Hinv Hsv) as Hown.
  destruct Hsv as [_ Hitems Hother Hne Hav Hsize _ _ (queue & Hr & _) _ _].
  exists r, queue. destruct (Hsize queue Hr). unfold contents at 1 in Hitems. rewrite Hr in Hitems.
  split_and!; auto; [destruct batch; simpl in *; [done|lia]|by apply Forall_and].
Qed.

(** A revision keeps its turn: with a front whose time has come, it moves towards
    the front of the rotation at every [pop] that serves another one. *)
Definition pops (ops : list queue_op) : list Z :=
  omap (fun o => match o with OpPop now_ms => Some now_ms | _ => None end) ops.

Lemma pop_moves_up q now_ms pre r post i :
  queue_inv q -> ready q = pre ++ r :: post -> head (contents q r) = Some i ->
  available_at_ms i <= now_ms ->
  i ∈ (queue_step q (OpPop now_ms)).2 \/
  let q' := (queue_step q (OpPop now_ms)).1.1 in
  head (contents q' r) = Some i /\
  exists pre' post', ready q' = pre' ++ r :: post' /\ (length pre' < length pre)%nat.
Proof.
  intros Hinv Hrd Hi Hav. simpl.
  assert (Hel : eligible q now_ms r = true).
  { unfold eligible. destruct (contents q r); simplify_eq/=. by apply Z.leb_le. }
  destruct (pop_spec q now_ms Hinv) as [[_ Hno]|(pre1 & s & post1 & batch & q' & Hrd' & -> & Hsv)];
    [by rewrite Hno in Hel|]. simpl.
  destruct (decide (s = r)) as [->|Hne].
  { left. pose proof (sv_items _ _ _ _ _ _ _ Hsv) as Hb. rewrite Hb in Hi.
    pose proof (sv_nonempty _ _ _ _ _ _ _ Hsv). destruct batch; simplify_eq/=. by left. }
  right. rewrite (sv_other _ _ _ _ _ _ _ Hsv) by done. split; [done|].
  rewrite Hrd in Hrd'. apply app_eq_inv in Hrd' as [(k & Hpre & Hk)|(k & Hpre & Hk)].
  - destruct k as [|x k]; simplify_eq/=.
    rewrite (sv_ready _ _ _ _ _ _ _ Hsv), <- app_assoc. eexists k, _. split; [reflexivity|].
    rewrite length_app. simpl. lia.
  - exfalso. destruct k as [|x k]; simplify_eq/=.
    assert (x ∈ pre ++ x :: k) as Hin by set_solver.
    apply (sv_skipped _ _ _ _ _ _ _ Hsv) in Hin. congruence.
Qed.

Lemma queue_step_keeps_turn q o r i pre post :
  queue_inv q -> pops [o] = [] -> ready q = pre ++ r :: post -> head (contents q r) = Some i ->
  let q' := (queue_step q o).1.1 in
  head (contents q' r) = Some i /\ exists post', ready q' = pre ++ r :: post'.
Proof.
  intros Hinv Ho Hrd Hi. destruct o as [s p|x|now]; simpl.
  - rewrite set_policy_contents. eauto.
  - destruct (FairQueue.push q x) as [q' b] eqn:Hp. simpl.
    rewrite (push_contents _ _ _ _ Hinv Hp). split; [by destruct (contents q r)|].
    apply push_spec in Hp; [|done]. destruct b; [|subst; eauto].
    destruct Hp as (_ & queue & tail & _ & -> & _). simpl. rewrite Hrd, <- app_assoc. simpl. eauto.
  - done.
Qed.

Lemma bounded_wait_run ops : forall q pre r post i,
  queue_inv q -> ready q = pre ++ r :: post -> head (contents q r) = Some i ->
  Forall (fun now_ms => available_at_ms i <= now_ms) (pops ops) ->
  (length pre < length (pops ops))%nat -> i ∈ (queue_run q ops).2.
Proof.
  induction ops as [|o ops IH]; intros q pre r post i Hinv Hrd Hi Hnow Hlen; [simpl in Hlen; lia|].
  pose proof (queue_step_inv q o Hinv) as Hinv'.
  assert (Hstep : i ∈ (queue_step q o).2 \/
    head (contents (queue_step q o).1.1 r) = Some i /\
    exists pre' post', ready (queue_step q o).1.1 = pre' ++ r :: post' /\
      (length pre' < length (pops ops))%nat).
  { destruct o as [s p|x|now]; simpl in Hlen.
    - right. destruct (queue_step_keeps_turn q (OpSetPolicy s p) r i pre post) as (? & ? & ?); eauto.
    - right. destruct (queue_step_keeps_turn q (OpPush x) r i pre post) as (? & ? & ?); eauto.
    - simpl in Hnow. apply Forall_cons in Hnow as [Hav _].
      destruct (pop_moves_up q now pre r post i) as [?|(? & pre' & post' & ? & ?)]; auto.
      right. split; [done|]. exists pre', post'. split; [done|]. lia. }
  assert (Hnow' : Forall (fun now_ms => available_at_ms i <= now_ms) (pops ops)).
  { destruct o; simpl in Hnow; [done..|]. by apply Forall_cons in Hnow as [_ ?]. }
  cbn [queue_run]. destruct (queue_step q o) as [[q1 acc] out]. simpl in *.
  assert (i ∈ out \/ i ∈ (queue_run q1 ops).2) as Hout.
  { destruct Hstep as [?|(Hi' & pre' & post' & ? & ?)]; [by left|]. right. by eapply IH. }
  destruct (queue_run q1 ops) as [[q2 acc'] out']. simpl in *. set_solver.
Qed.

(** Round robin is fair: an input at the front of a revision's queue, behind
    [length pre] other revisions in the rotation, is handed out within
    [length pre + 1] calls to [pop] made after its retry time, whatever pushes
    and policy changes come in between. *)
Lemma round_robin_bounded_wait q pre r post i rest ops :
  queue_reachable q -> ready q = pre ++ r :: post -> contents q r = i :: rest ->
  Forall (fun now_ms => available_at_ms i <= now_ms) (pops ops) ->
  (length pre < length (pops ops))%nat -> i ∈ (queue_run q ops).2.
Proof.
  intros Hq Hrd Hi Hnow Hlen. eapply bounded_wait_run; eauto using queue_reachable_inv.
  by rewrite Hi.
Qed.

(** *** Witnesses *)

Definition demo_input (r : string) (n : Z) : QueuedInput := mkQueuedInput r "call" n 0 None.

Definition demo_policy : PoolPolicy :=
  mkPoolPolicy 1 2 0 2 4 60000 3 2 0.

Definition demo_ops : list queue_op :=
  [OpSetPolicy "a" demo_policy; OpSetPolicy "b" demo_policy;
   OpPush (demo_input "a" 0); OpPush (demo_input "a" 1); OpPush (demo_input "a" 2);
   OpPush (demo_input "b" 0)].

Definition demo_queue : FairQueue := (queue_run (FairQueue.new 10) demo_ops).1.1.

(** * Properties of the worker pool *)

Record pool_inv (p : WorkerPool) : Prop := {
  pi_policy : PoolPolicy.normal (policy p);
  pi_max : WorkerPool.worker_count p <= max_workers (policy p);
  pi_ids : NoDup (id <$> workers p);
  pi_active : Forall (fun w => 0 <= active w <= capacity (policy p)) (workers p) }.

Lemma swap_remove_delete {A} i (l : list A) :
  (i < length l)%nat -> WorkerPool.swap_remove i l ≡ₚ delete i l.
Proof.
  intros Hi. destruct l as [|x l _] using rev_ind; [simpl in Hi; lia|].
  unfold WorkerPool.swap_remove. rewrite last_snoc, length_app in *. simpl in *.
  replace (length l + 1 - 1)%nat with (length l) by lia.
  destruct (decide (i = length l)) as [->|Hne].
  - rewrite (insert_app_r_alt l), Nat.sub_diag by lia. simpl.
    rewrite take_app_length, delete_take_drop, take_app_length, drop_ge; [by rewrite app_nil_r|].
    rewrite length_app. simpl. lia.
  - rewrite insert_app_l by lia. rewrite take_app_length' by (by rewrite length_insert).
    rewrite insert_take_drop by lia. rewrite delete_take_drop, take_app_le, drop_app_le by lia.
    rewrite app_assoc. by rewrite <- Permutation_cons_append, Permutation_middle.
Qed.

Lemma delete_middle {A} (i : nat) (l : list A) x :
  l !! i = Some x -> l ≡ₚ x :: delete i l.
Proof. intros H. by apply delete_Permutation. Qed.

(** Taking a tracked worker out leaves exactly the others. *)
Lemma remove_worker_perm p worker_id :
  match WorkerPool.remove_worker p worker_id with
  | (p', true) => policy p' = policy p /\
      exists w, id w = worker_id /\ workers p ≡ₚ w :: workers p'
  | (p', false) => p' = p /\ worker_id ∉ id <$> workers p
  end.
Proof.
  unfold WorkerPool.remove_worker. destruct (list_find _ _) as [[i w]|] eqn:Hf; simpl.
  - apply list_find_Some in Hf as (Hi & Hid & _). split; [done|]. exists w. split; [done|].
    rewrite swap_remove_delete by (by eapply lookup_lt_Some). by apply delete_middle.
  - split; [done|]. apply list_find_None in Hf. rewrite Forall_forall in Hf.
    intros (w & -> & Hw)%list_elem_of_fmap. by apply (Hf w).
Qed.

Lemma update_first_spec worker_id f ws ws' :
  WorkerPool.update_first worker_id f ws = Some ws' ->
  exists pre w post, ws = pre ++ w :: post /\ id w = worker_id /\ ws' = pre ++ f w :: post.
Proof.
  revert ws'. induction ws as [|w ws IH]; intros ws'; simpl; [done|].
  case_bool_decide as Hw.
  - intros [= <-]. by exists [], w, ws.
  - intros (k & Hk & ->)%fmap_Some. destruct (IH _ Hk) as (pre & v & post & -> & ? & ->).
    by exists (w :: pre), v, post.
Qed.

(** An update of one slot that keeps its id and its bounds keeps the invariant. *)
Lemma update_first_inv p worker_id f ws' :
  pool_inv p -> (forall w, id (f w) = id w) ->
  (forall w, 0 <= active w <= capacity (policy p) -> 0 <= active (f w) <= capacity (policy p)) ->
  WorkerPool.update_first worker_id f (workers p) = Some ws' ->
  pool_inv (mkWorkerPool (policy p) ws').
Proof.
  intros [Hpol Hmax Hids Hact] Hid Hf Hu.
  apply update_first_spec in Hu as (pre & w & post & Hws & _ & ->).
  unfold WorkerPool.worker_count in *. rewrite Hws in *. split; simpl; [done|..].
  - unfold WorkerPool.worker_count. simpl. rewrite length_app in *. simpl in *. lia.
  - rewrite fmap_app, fmap_cons in *. by rewrite Hid.
  - apply Forall_app in Hact as [? [? ?]%Forall_cons]. apply Forall_app. split; [done|].
    constructor; auto.
Qed.

Lemma key_lt_irrefl w : WorkerPool.key_lt w w = false.
Proof. unfold WorkerPool.key_lt. rewrite Z.compare_refl. apply Z.ltb_irrefl. Qed.

(** [key_lt v w = false] is "[w] is not more loaded than [v]", which is transitive. *)
Lemma key_lt_trans u v w :
  WorkerPool.key_lt u v = false -> WorkerPool.key_lt v w = false -> WorkerPool.key_lt u w = false.
Proof.
  unfold WorkerPool.key_lt.
  destruct (Z.compare_spec (active u) (active v)), (Z.compare_spec (active v) (active w)),
    (Z.compare_spec (active u) (active w)); rewrite ?Z.ltb_ge; try discriminate; lia.
Qed.

Lemma key_lt_asym v w : WorkerPool.key_lt v w = true -> WorkerPool.key_lt w v = false.
Proof.
  unfold WorkerPool.key_lt.
  destruct (Z.compare_spec (active v) (active w)), (Z.compare_spec (active w) (active v));
    rewrite ?Z.ltb_lt, ?Z.ltb_ge; try discriminate; lia.
Qed.

Lemma least_loaded_spec cap ws :
  match WorkerPool.least_loaded cap ws with
  | None => Forall (fun w => WorkerPool.admissible cap w = false) ws
  | Some (i, w) => ws !! i = Some w /\ WorkerPool.admissible cap w = true /\
      Forall (fun v => WorkerPool.admissible cap v = true -> WorkerPool.key_lt v w = false) ws
  end.
Proof.
  induction ws as [|u ws IH]; simpl; [constructor|].
  destruct (WorkerPool.least_loaded cap ws) as [[i w]|]; simpl;
    destruct (WorkerPool.admissible cap u) eqn:Hu; simpl.
  - destruct IH as (Hi & Hw & Hall). destruct (WorkerPool.key_lt w u) eqn:Hk.
    + split_and!; [done|done|]. constructor; [by intros _; apply key_lt_asym|done].
    + split_and!; [done|done|]. constructor; [by rewrite key_lt_irrefl|].
      eapply Forall_impl; [done|]. intros v Hv Hadm. by eapply key_lt_trans; [apply Hv|].
  - destruct IH as (Hi & Hw & Hall). split_and!; [done|done|]. constructor; [congruence|done].
  - split_and!; [done|done|]. constructor; [by rewrite key_lt_irrefl|].
    eapply Forall_impl; [done|]. intros v Hv Hadm. congruence.
  - by constructor.
Qed.

(** The runs of [retire_loop]: every worker is kept as it is, or is idle and due
    and is marked. *)
Inductive retires (timeout now_ms : Z) : Z -> list WorkerSlot -> list WorkerSlot -> list string -> Prop :=
  | retires_nil n : retires timeout now_ms n [] [] []
  | retires_keep n w ws ws' ids :
      retires timeout now_ms n ws ws' ids -> retires timeout now_ms n (w :: ws) (w :: ws') ids
  | retires_one n w ws ws' ids :
      0 < n -> active w = 0 ->
      retiring w = true \/ timeout <= saturating_sub now_ms (last_idle_ms w) ->
      retires timeout now_ms (n - 1) ws ws' ids ->
      retires timeout now_ms n (w :: ws)
        (mkWorkerSlot (id w) (active w) (completed_calls w) (last_idle_ms w) true :: ws')
        (id w :: ids).

Lemma retire_loop_retires timeout now_ms n ws :
  0 <= n ->
  let '(ws', ids) := WorkerPool.retire_loop timeout now_ms n ws in
  retires timeout now_ms n ws ws' ids.
Proof.
  revert n. induction ws as [|w ws IH]; intros n Hn; cbn [WorkerPool.retire_loop]; [constructor|].
  pose proof (IH n Hn) as IHk.
  destruct (Z.eqb_spec n 0), (Z.eqb_spec (active w) 0); simpl;
    try (destruct (WorkerPool.retire_loop timeout now_ms n ws); by constructor).
  pose proof (IH (n - 1) ltac:(lia)) as IHr.
  destruct (retiring w || (timeout <=? saturating_sub now_ms (last_idle_ms w))) eqn:Hdue.
  - destruct (WorkerPool.retire_loop timeout now_ms (n - 1) ws). constructor; [lia|done| |done].
    apply orb_true_iff in Hdue as [?|?%Z.leb_le]; auto.
  - destruct (WorkerPool.retire_loop timeout now_ms n ws). by constructor.
Qed.

Lemma retires_facts timeout now_ms n ws ws' ids :
  retires timeout now_ms n ws ws' ids -> 0 <= n ->
  id <$> ws' = id <$> ws /\ active <$> ws' = active <$> ws /\
  Z.of_nat (length ids) <= n /\ sublist ids (id <$> ws).
Proof.
  induction 1 as [n|n w ws ws' ids _ IH|n w ws ws' ids Hn _ _ _ IH]; intros Hn'.
  - split_and!; [done|done|simpl; lia|constructor].
  - destruct IH as (IH1 & IH2 & IH3 & IH4); [done|]. rewrite !fmap_cons, IH1, IH2.
    split_and!; [done|done|done|by constructor].
  - destruct IH as (IH1 & IH2 & IH3 & IH4); [lia|]. rewrite !fmap_cons, IH1, IH2.
    split_and!; [done|done|simpl; lia|by constructor].
Qed.

Lemma retires_due timeout now_ms n ws ws' ids x :
  retires timeout now_ms n ws ws' ids -> x ∈ ids ->
  exists w, w ∈ ws /\ id w = x /\ active w = 0 /\
    (retiring w = true \/ timeout <= saturating_sub now_ms (last_idle_ms w)).
Proof.
  induction 1 as [n|n w ws ws' ids _ IH|n w ws ws' ids Hn Ha Hd _ IH]; intros Hx.
  - by apply elem_of_nil in Hx.
  - destruct (IH Hx) as (v & ? & ?). exists v. split; [by right|done].
  - apply elem_of_cons in Hx as [->|Hx].
    + exists w. split_and!; [by left|done|done|done].
    + destruct (IH Hx) as (v & ? & ?). exists v. split; [by right|done].
Qed.

(** *** Sequences of calls *)

Inductive pool_op : Type :=
  | OpAdd (worker_id : string) (now_ms : Z)
  | OpAdmit
  | OpAbandon (worker_id : string) (now_ms : Z)
  | OpComplete (worker_id : string) (now_ms : Z)
  | OpRetire (now_ms : Z)
  | OpRemove (worker_id : string).

Definition pool_step (p : WorkerPool) (o : pool_op) : WorkerPool :=
  match o with
  | OpAdd w now_ms => (WorkerPool.add_worker p w now_ms).1
  | OpAdmit => (WorkerPool.admit_one p).1
  | OpAbandon w now_ms => (WorkerPool.abandon p w now_ms).1
  | OpComplete w now_ms => (WorkerPool.complete p w now_ms).1
  | OpRetire now_ms => (WorkerPool.retire_ready p now_ms).1
  | OpRemove w => (WorkerPool.remove_worker p w).1
  end.

Lemma add_worker_inv p w now_ms : pool_inv p -> pool_inv (WorkerPool.add_worker p w now_ms).1.
Proof.
  intros [Hpol Hmax Hids Hact]. unfold WorkerPool.add_worker.
  destruct (_ || _) eqn:Hc; [done|]. apply orb_false_iff in Hc as [Hlt%Z.leb_gt Hex].
  split; simpl; [done|..].
  - unfold WorkerPool.worker_count. simpl. rewrite length_app. simpl. lia.
  - rewrite fmap_app. apply NoDup_app. split_and!; [done| |apply NoDup_singleton].
    intros x Hx ->%list_elem_of_singleton. apply list_elem_of_fmap in Hx as (v & Hv & Hin).
    apply not_true_iff_false in Hex. apply Hex, existsb_exists. exists v.
    split; [by apply list_elem_of_In|]. by apply bool_decide_eq_true.
  - apply Forall_app. split; [done|]. constructor; [|done]. simpl.
    unfold PoolPolicy.normal in Hpol. lia.
Qed.

Lemma insert_middle {A} i (l : list A) x y :
  l !! i = Some x -> exists pre post, l = pre ++ x :: post /\ <[i := y]> l = pre ++ y :: post.
Proof.
  intros Hi. exists (take i l), (drop (S i) l). split.
  - by rewrite take_drop_middle.
  - apply insert_take_drop. by eapply lookup_lt_Some.
Qed.

Lemma admit_inv p : pool_inv p -> pool_inv (WorkerPool.admit_one p).1.
Proof.
  intros [Hpol Hmax Hids Hact]. unfold WorkerPool.admit_one.
  pose proof (least_loaded_spec (capacity (policy p)) (workers p)) as Hl.
  destruct (WorkerPool.least_loaded _ _) as [[i w]|]; [|done]. destruct Hl as (Hi & Hadm & _).
  unfold WorkerPool.admissible in Hadm. apply andb_true_iff in Hadm as [_ Hlt%Z.ltb_lt].
  destruct (insert_middle i (workers p) w (mkWorkerSlot (id w) (active w + 1) (completed_calls w)
    (last_idle_ms w) (retiring w)) Hi) as (pre & post & Hws & Hins).
  unfold WorkerPool.worker_count in *. split; simpl; rewrite ?Hins; [done|..].
  - unfold WorkerPool.worker_count. simpl. rewrite Hws in Hmax. rewrite length_app in *. simpl in *. lia.
  - rewrite Hws, fmap_app, fmap_cons in Hids. by rewrite fmap_app, fmap_cons.
  - rewrite Hws in Hact. apply Forall_app in Hact as [? [? ?]%Forall_cons].
    apply Forall_app. split; [done|]. constructor; [simpl; lia|done].
Qed.

Lemma abandon_inv p w now_ms : pool_inv p -> pool_inv (WorkerPool.abandon p w now_ms).1.
Proof.
  intros Hinv. unfold WorkerPool.abandon. destruct (WorkerPool.update_first _ _ _) eqn:Hu; [|done].
  eapply update_first_inv; [done| | |exact Hu]; intros v; simpl; [done|].
  unfold saturating_sub. lia.
Qed.

Lemma complete_inv p w now_ms : pool_inv p -> pool_inv (WorkerPool.complete p w now_ms).1.
Proof.
  intros Hinv. unfold WorkerPool.complete. destruct (WorkerPool.update_first _ _ _) eqn:Hu; [|done].
  eapply update_first_inv; [done| | |exact Hu]; intros v; unfold WorkerPool.complete_slot;
    case_match; simpl; try done; unfold saturating_sub; lia.
Qed.

Lemma Forall_of_fmap {A B} (f : A -> B) (P : B -> Prop) l : Forall (fun x => P (f x)) l <-> Forall P (f <$> l).
Proof. by rewrite Forall_fmap. Qed.

Lemma retire_ready_inv p now_ms : pool_inv p -> pool_inv (WorkerPool.retire_ready p now_ms).1.
Proof.
  intros [Hpol Hmax Hids Hact]. unfold WorkerPool.retire_ready.
  set (n := saturating_sub _ _). set (t := WorkerPool.idle_timeout_ms _).
  pose proof (retire_loop_retires t now_ms n (workers p) ltac:(unfold n, saturating_sub; lia)) as Hr.
  destruct (WorkerPool.retire_loop t now_ms n (workers p)) as [ws ids]. simpl.
  apply retires_facts in Hr as (Hi & Ha & _ & _); [|unfold n, saturating_sub; lia].
  split; simpl; [done|..].
  - unfold WorkerPool.worker_count in *. simpl. rewrite <- (length_fmap id ws), Hi, length_fmap. done.
  - by rewrite Hi.
  - apply (Forall_of_fmap active (fun a => 0 <= a <= capacity (policy p))). rewrite Ha.
    by apply Forall_of_fmap.
Qed.

Lemma remove_worker_inv p w : pool_inv p -> pool_inv (WorkerPool.remove_worker p w).1.
Proof.
  intros [Hpol Hmax Hids Hact]. pose proof (remove_worker_perm p w) as Hr.
  destruct (WorkerPool.remove_worker p w) as [p' []]; simpl; [|by destruct Hr as [-> _]].
  destruct Hr as (Hp & v & _ & Hperm). unfold WorkerPool.worker_count in *.
  rewrite Hperm in Hmax, Hids, Hact. apply NoDup_cons in Hids as [_ ?].
  apply Forall_cons in Hact as [_ ?]. split; rewrite ?Hp; try done.
  unfold WorkerPool.worker_count. simpl in *. lia.
Qed.

Lemma pool_step_inv p o : pool_inv p -> pool_inv (pool_step p o).
Proof.
  destruct o; simpl; auto using add_worker_inv, admit_inv, abandon_inv, complete_inv,
    retire_ready_inv, remove_worker_inv.
Qed.

Lemma pool_run_inv p ops : pool_inv p -> pool_inv (foldl pool_step p ops).
Proof. revert p. induction ops; simpl; auto using pool_step_inv. Qed.

Lemma pool_new_inv policy : pool_inv (WorkerPool.new policy).
Proof.
  split; simpl; [apply normalized_normal|unfold WorkerPool.worker_count; simpl; lia|constructor|constructor].
Qed.

Lemma pool_step_policy p o : policy (pool_step p o) = policy p.
Proof.
  destruct o as [w n| |w n|w n|n|w]; simpl.
  - unfold WorkerPool.add_worker. by case_match.
  - unfold WorkerPool.admit_one. by destruct (WorkerPool.least_loaded _ _) as [[??]|].
  - unfold WorkerPool.abandon. by case_match.
  - unfold WorkerPool.complete. by case_match.
  - unfold WorkerPool.retire_ready. by destruct (WorkerPool.retire_loop _ _ _ _).
  - unfold WorkerPool.remove_worker. by destruct (list_find _ _) as [[??]|].
Qed.

Lemma pool_run_policy p ops : policy (foldl pool_step p ops) = policy p.
Proof. revert p. induction ops as [|o ops IH]; intros p; simpl; [done|]. by rewrite IH, pool_step_policy. Qed.

Definition pool_reachable (p : WorkerPool) : Prop :=
  exists pol ops, foldl pool_step (WorkerPool.new pol) ops = p.

Lemma pool_reachable_inv p : pool_reachable p -> pool_inv p.
Proof. intros (pol & ops & <-). apply pool_run_inv, pool_new_inv. Qed.

(** The pool accounting never exceeds what the policy allows: over any
    sequence of calls there are at most [max_workers] workers with distinct ids,
    and each has between zero and [capacity] reservations. *)
Lemma worker_pool_bounds pol ops :
  let p := foldl pool_step (WorkerPool.new pol) ops in
  WorkerPool.worker_count p <= max_workers (PoolPolicy.normalized pol) /\
  NoDup (id <$> workers p) /\
  Forall (fun w => 0 <= active w <= capacity (PoolPolicy.normalized pol)) (workers p).
Proof.
  intros p. pose proof (pool_run_inv _ ops (pool_new_inv pol)) as [_ Hmax Hids Hact].
  rewrite pool_run_policy in Hmax, Hact. done.
Qed.

(** [admit_one] reserves exactly one unit on the least-loaded worker: it refuses
    only when every worker is retiring or full; otherwise the worker it names was
    admissible, no admissible worker has fewer reservations (nor as many and fewer
    completed calls), and every other slot is left alone. *)
Lemma admit_least_loaded p :
  match WorkerPool.admit_one p with
  | (p', None) => p' = p /\
      Forall (fun w => retiring w = true \/ capacity (policy p) <= active w) (workers p)
  | (p', Some x) =>
      exists pre w post, workers p = pre ++ w :: post /\ x = id w /\
        retiring w = false /\ active w < capacity (policy p) /\
        workers p' = pre ++ mkWorkerSlot (id w) (active w + 1) (completed_calls w)
                              (last_idle_ms w) (retiring w) :: post /\
        Forall (fun v => retiring v = false -> active v < capacity (policy p) ->
          active w < active v \/ active w = active v /\ completed_calls w <= completed_calls v)
          (workers p)
  end.
Proof.
  unfold WorkerPool.admit_one. pose proof (least_loaded_spec (capacity (policy p)) (workers p)) as Hl.
  destruct (WorkerPool.least_loaded _ _) as [[i w]|].
  - destruct Hl as (Hi & Hadm & Hall). unfold WorkerPool.admissible in Hadm.
    apply andb_true_iff in Hadm as [Hret%negb_true_iff Hlt%Z.ltb_lt].
    destruct (insert_middle i (workers p) w (mkWorkerSlot (id w) (active w + 1) (completed_calls w)
      (last_idle_ms w) (retiring w)) Hi) as (pre & post & Hws & Hins).
    exists pre, w, post. simpl. split_and!; auto. eapply Forall_impl; [exact Hall|].
    intros v Hv Hrv Hav. revert Hv. unfold WorkerPool.admissible, WorkerPool.key_lt.
    rewrite Hrv, (proj2 (Z.ltb_lt _ _) Hav). intros Hv. specialize (Hv eq_refl).
    destruct (Z.compare_spec (active v) (active w)); [|done|lia]. apply Z.ltb_ge in Hv. lia.
  - split; [done|]. eapply Forall_impl; [exact Hl|]. intros w. unfold WorkerPool.admissible.
    intros [Hr%negb_false_iff|?%Z.ltb_ge]%andb_false_iff; auto.
Qed.

(** *** Retirement *)

(** What [Functions::retire_idle] does to a pool whose workers it owns. *)
Definition retire_idle (p : WorkerPool) (now_ms : Z) : WorkerPool :=
  let '(p, ids) := WorkerPool.retire_ready p now_ms in
  foldl (fun p w => (WorkerPool.remove_worker p w).1) p ids.

Lemma remove_all_spec ids p :
  NoDup ids -> ids ⊆ (id <$> workers p) ->
  let p' := foldl (fun p w => (WorkerPool.remove_worker p w).1) p ids in
  exists removed, id <$> removed = ids /\ workers p ≡ₚ removed ++ workers p'.
Proof.
  revert p. induction ids as [|x ids IH]; intros p Hnd Hsub; simpl; [by exists []|].
  apply NoDup_cons in Hnd as [Hx Hnd]. pose proof (remove_worker_perm p x) as Hr.
  destruct (WorkerPool.remove_worker p x) as [p1 []]; simpl.
  - destruct Hr as (_ & w & Hw & Hperm). destruct (IH p1) as (removed & Hids & Hp); [done| |].
    + intros y Hy. assert (Hin : y ∈ id <$> workers p) by (apply Hsub; by right).
      rewrite Hperm, fmap_cons, elem_of_cons in Hin. destruct Hin as [->|]; [congruence|done].
    + exists (w :: removed). rewrite fmap_cons. split; [congruence|]. rewrite Hperm, Hp. done.
  - destruct Hr as [_ []]. apply Hsub. by left.
Qed.

Lemma retires_busy timeout now_ms n ws ws' ids w :
  retires timeout now_ms n ws ws' ids -> w ∈ ws -> active w <> 0 -> w ∈ ws'.
Proof.
  induction 1 as [n|n v ws ws' ids _ IH|n v ws ws' ids Hn Ha Hd _ IH]; intros Hw Hb; [done|..];
    apply elem_of_cons in Hw as [->|Hw]; try (by left); try done; right; auto.
Qed.

Lemma NoDup_fmap_inj {A B} (f : A -> B) l x y :
  NoDup (f <$> l) -> x ∈ l -> y ∈ l -> f x = f y -> x = y.
Proof.
  intros Hnd [i Hi]%list_elem_of_lookup [j Hj]%list_elem_of_lookup Hf.
  assert (i = j) as ->; [|congruence].
  apply (NoDup_lookup (f <$> l) i j (f x)); [done|..]; rewrite list_lookup_fmap.
  - by rewrite Hi.
  - rewrite Hj. simpl. by rewrite Hf.
Qed.

(** Retirement is safe: retiring the idle workers of a pool and forgetting
    them leaves at least [min_workers] workers (or as many as there were), keeps
    every busy worker with its reservations, and forgets only workers that were
    idle and either marked or past the idle timeout. *)
Lemma retire_idle_safe p now_ms :
  pool_reachable p ->
  let p' := retire_idle p now_ms in
  Z.min (WorkerPool.worker_count p) (min_workers (policy p)) <= WorkerPool.worker_count p' /\
  (forall w, w ∈ workers p -> active w <> 0 -> w ∈ workers p') /\
  (forall w, w ∈ workers p -> id w ∉ id <$> workers p' -> active w = 0 /\
     (retiring w = true \/
      WorkerPool.idle_timeout_ms (policy p) <= saturating_sub now_ms (last_idle_ms w))).
Proof.
  intros Hreach%pool_reachable_inv. unfold retire_idle, WorkerPool.retire_ready.
  destruct Hreach as [_ _ Hids _]. set (n := saturating_sub _ _).
  set (t := WorkerPool.idle_timeout_ms _). assert (Hn : 0 <= n) by (unfold n, saturating_sub; lia).
  pose proof (retire_loop_retires t now_ms n (workers p) Hn) as Hr.
  destruct (WorkerPool.retire_loop t now_ms n (workers p)) as [ws ids].
  destruct (retires_facts _ _ _ _ _ _ Hr Hn) as (Hi & _ & Hlen & Hsub).
  destruct (remove_all_spec ids (mkWorkerPool (policy p) ws)) as (removed & Hrem & Hperm).
  { by eapply sublist_NoDup. }
  { simpl. rewrite Hi. by apply sublist_subseteq. }
  set (p' := foldl _ _ _) in *. simpl in Hperm.
  assert (Hdue : forall w, w ∈ workers p -> id w ∈ ids -> active w = 0 /\
     (retiring w = true \/ t <= saturating_sub now_ms (last_idle_ms w))).
  { intros w Hw Hx. destruct (retires_due _ _ _ _ _ _ _ Hr Hx) as (v & Hv & Hid & Hd).
    by rewrite (NoDup_fmap_inj id (workers p) w v) by done. }
  split_and!.
  - assert (Hl : length (workers p) = (length ids + length (workers p'))%nat).
    { rewrite <- (length_fmap id (workers p)), <- Hi, length_fmap, Hperm, length_app, <- Hrem.
      by rewrite length_fmap. }
    unfold WorkerPool.worker_count. unfold n, saturating_sub in Hlen. lia.
  - intros w Hw Hb. pose proof (retires_busy _ _ _ _ _ _ w Hr Hw Hb) as Hin.
    rewrite Hperm, elem_of_app in Hin. destruct Hin as [Hin|]; [|done].
    destruct (Hdue w) as [? _]; [done| |done]. rewrite <- Hrem. by apply list_elem_of_fmap_2.
  - intros w Hw Hx. apply Hdue; [done|].
    assert (Hin : id w ∈ id <$> ws) by (rewrite Hi; by apply list_elem_of_fmap_2).
    rewrite Hperm, fmap_app, elem_of_app, Hrem in Hin. tauto.
Qed.

Definition demo_pool : WorkerPool :=
  foldl pool_step (WorkerPool.new demo_policy)
    [OpAdd "w1" 0; OpAdd "w2" 0; OpAdmit].

(** * Properties of placement *)

Lemma cmp_ranks_antisym l r : cmp_ranks r l = CompOpp (cmp_ranks l r).
Proof.
  revert r. induction l as [|x l IH]; intros [|y r]; simpl; [done..|].
  rewrite (Z.compare_antisym x y). by destruct (x ?= y); simpl.
Qed.

Lemma cmp_ranks_eq l r : cmp_ranks l r = Eq <-> l = r.
Proof.
  revert r. induction l as [|x l IH]; intros [|y r]; simpl; [done..|].
  destruct (Z.compare_spec x y) as [->| |].
  - rewrite IH. split; [by intros ->|by intros [= ->]].
  - split; [done|]. intros [= ? ?]. lia.
  - split; [done|]. intros [= ? ?]. lia.
Qed.

Lemma cmp_ranks_lt_trans l r k : cmp_ranks l r = Lt -> cmp_ranks r k = Lt -> cmp_ranks l k = Lt.
Proof.
  revert r k. induction l as [|x l IH]; intros [|y r] [|z k]; simpl; try done.
  destruct (Z.compare_spec x y), (Z.compare_spec y z), (Z.compare_spec x z);
    intros; try done; try lia. by eapply IH.
Qed.

Section placement.
Context (rank : NodeState -> list Z).

Lemma placed_before_total x y : placed_before rank x y = true \/ placed_before rank y x = true.
Proof.
  unfold placed_before. rewrite (cmp_ranks_antisym (rank y) (rank x)).
  destruct (cmp_ranks (rank y) (rank x)); simpl; auto using String.leb_total.
Qed.

Lemma placed_before_trans x y z :
  placed_before rank x y = true -> placed_before rank y z = true -> placed_before rank x z = true.
Proof.
  unfold placed_before.
  destruct (cmp_ranks (rank y) (rank x)) eqn:Hxy, (cmp_ranks (rank z) (rank y)) eqn:Hyz; try done.
  - apply cmp_ranks_eq in Hxy, Hyz. rewrite Hyz, Hxy, (proj2 (cmp_ranks_eq _ _)) by done.
    apply string_leb_trans.
  - apply cmp_ranks_eq in Hxy. by rewrite <- Hxy, Hyz.
  - apply cmp_ranks_eq in Hyz. by rewrite Hyz, Hxy.
  - by rewrite (cmp_ranks_lt_trans _ _ _ Hyz Hxy).
Qed.

Lemma placed_before_antisym_id x y :
  placed_before rank x y = true -> placed_before rank y x = true -> node_id x = node_id y.
Proof.
  unfold placed_before. rewrite (cmp_ranks_antisym (rank y) (rank x)).
  destruct (cmp_ranks (rank y) (rank x)); simpl; try done. apply String.leb_antisym.
Qed.

End placement.

Lemma elem_of_compatible spread hints nodes n :
  n ∈ compatible spread hints nodes <->
  n ∈ nodes /\ arch_ok hints n = true /\ spread_ok spread hints n = true.
Proof. unfold compatible. rewrite !list_elem_of_filter. tauto. Qed.

(** The node chosen: a compatible one that no compatible one outranks. *)
Lemma place_function_worker_Ok revision spread hints nodes owner :
  place_function_worker revision spread hints nodes = Ok owner ->
  exists n, n ∈ compatible spread hints nodes /\ node_id n = owner /\
    forall m, m ∈ compatible spread hints nodes ->
      placed_before (placement_rank revision hints) n m = true.
Proof.
  unfold place_function_worker. generalize (placement_rank revision hints) as rank. intros rank.
  destruct (sort_by _ _) as [|n k] eqn:Hs; [done|]. intros [= <-].
  exists n. split_and!; [|done|].
  - rewrite <- (sort_by_perm (placed_before rank)), Hs. by left.
  - eapply sort_by_head; eauto using placed_before_total, placed_before_trans.
Qed.

Lemma place_function_worker_Err revision spread hints nodes e :
  place_function_worker revision spread hints nodes = Err e -> compatible spread hints nodes = [].
Proof.
  unfold place_function_worker. generalize (placement_rank revision hints) as rank. intros rank.
  destruct (sort_by _ _) as [|n k] eqn:Hs; [|done]. intros _.
  pose proof (sort_by_perm (placed_before rank) (compatible spread hints nodes)) as Hp.
  rewrite Hs in Hp. by apply Permutation_nil_l in Hp.
Qed.

(** A worker is never placed against its declared contract: the chosen node is
    a known one with the required architecture (compared by normalized name), not a
    host (or in a zone, which it must declare) already running the revision when
    that spread is asked for; and placement fails only when no known node satisfies
    those filters. *)
Lemma place_function_worker_contract revision spread hints nodes :
  match place_function_worker revision spread hints nodes with
  | Ok owner => exists n, n ∈ nodes /\ node_id n = owner /\
      (forall a, (required_arch hints ≫= fun a => normalize_oci_arch (Some a)) = Some a ->
         normalize_oci_arch (Some (arch n)) = Some a) /\
      (spread = SpreadHost -> owner ∉ avoid_hosts hints) /\
      (spread = SpreadZone -> region n <> "" /\ region n ∉ avoid_zones hints)
  | Err _ => forall n, n ∈ nodes -> arch_ok hints n = false \/ spread_ok spread hints n = false
  end.
Proof.
  destruct (place_function_worker revision spread hints nodes) as [owner|e] eqn:Hp.
  - apply place_function_worker_Ok in Hp as (n & Hn & <- & _).
    apply elem_of_compatible in Hn as (Hin & Harch & Hspread). exists n. split_and!; [done|done|..].
    + intros a Ha. unfold arch_ok in Harch. rewrite Ha in Harch. by apply bool_decide_eq_true in Harch.
    + intros ->. unfold spread_ok, contains in Hspread.
      by apply negb_true_iff, bool_decide_eq_false in Hspread.
    + intros ->. unfold spread_ok, contains in Hspread. apply andb_true_iff in Hspread as [H1 H2].
      by apply negb_true_iff, bool_decide_eq_false in H1, H2.
  - apply place_function_worker_Err in Hp. intros n Hn.
    destruct (arch_ok hints n) eqn:Ha; [|by left]. destruct (spread_ok spread hints n) eqn:Hs; [|by right].
    exfalso. assert (n ∈ compatible spread hints nodes) as Hc by (by apply elem_of_compatible).
    rewrite Hp in Hc. by apply elem_of_nil in Hc.
Qed.

(** Every daemon places a worker on the same node: the owner depends only on
    which nodes are known, not on the order they are listed in. *)
Lemma place_function_worker_deterministic revision spread hints nodes nodes' :
  nodes ≡ₚ nodes' ->
  place_function_worker revision spread hints nodes =
  place_function_worker revision spread hints nodes'.
Proof.
  intros Hp.
  assert (Hc : forall n, n ∈ compatible spread hints nodes <-> n ∈ compatible spread hints nodes').
  { intros n. rewrite !elem_of_compatible. by rewrite Hp. }
  destruct (place_function_worker revision spread hints nodes) as [o|e] eqn:H1,
    (place_function_worker revision spread hints nodes') as [o'|e'] eqn:H2.
  - apply place_function_worker_Ok in H1 as (n & Hn & <- & Hle), H2 as (n' & Hn' & <- & Hle').
    f_equal. eapply placed_before_antisym_id; [apply Hle|apply Hle']; by apply Hc.
  - exfalso. apply place_function_worker_Ok in H1 as (n & Hn & _).
    apply place_function_worker_Err in H2. rewrite Hc, H2 in Hn. by apply elem_of_nil in Hn.
  - exfalso. apply place_function_worker_Ok in H2 as (n & Hn & _).
    apply place_function_worker_Err in H1. rewrite <- Hc, H1 in Hn. by apply elem_of_nil in Hn.
  - revert H1 H2. unfold place_function_worker. generalize (placement_rank revision hints).
    intros rank. repeat case_match; congruence.
Qed.

Definition demo_hints : PlacementHints := mkPlacementHints [] [] None None None None ["n2"].
