(* ===== verification/Devices.v ===== *)
(** The device bus and the PCI host bridge ([vmm/src/devices/mod.rs] and
    [vmm/src/devices/pci.rs]).

    A device behind an [Arc<Mutex<_>>] is an entry of a store indexed by handles,
    so that two views of one device (the two configuration mechanisms, the bus and
    the BAR dispatcher) share its state.  The traits [BusDevice] and [PciFunction]
    are type classes; an access carries the caller's buffer, as in the sources. *)

From S2P Require Import Prelude.

Abbreviation bytes := (list Z).
Abbreviation store D := (gmap nat D).

(** [trait BusDevice]. *)
Class BusDevice (D : Type) : Type := {
  dev_read : D -> Z -> bytes -> D * bytes;
  dev_write : D -> Z -> bytes -> D }.

(** [trait PciFunction]. *)
Class PciFunction (F : Type) : Type := {
  read_config : F -> Z -> bytes -> F * bytes;
  write_config : F -> Z -> bytes -> F;
  read_bar : F -> Z -> bytes -> F * bytes * bool;
  write_bar : F -> Z -> bytes -> F * bool }.

(** [data.fill(x)]. *)
Definition fill (x : Z) (data : bytes) : bytes := replicate (length data) x.

Definition copy_from (source : bytes) (offset : Z) (data : bytes) (fill_byte : Z) : bytes :=
  let data := fill fill_byte data in
  if Z.of_nat (length source) <? offset then data
  else
    let source := drop (Z.to_nat offset) source in
    let len := (length source `min` length data)%nat in
    take len source ++ drop len data.

Definition overlay (destination : bytes) (offset : Z) (data : bytes) : bytes :=
  if Z.of_nat (length destination) <? offset then destination
  else
    let offset := Z.to_nat offset in
    let len := ((length destination - offset) `min` length data)%nat in
    take offset destination ++ take len data ++ drop (offset + len) destination.

(** ** The flat bus *)

Record Entry : Type := mkEntry { base : Z; len : Z; device : nat }.

Record Bus : Type := mkBus { entries : list Entry }.

Module Bus.

Definition new : Bus := mkBus [].

(** The [for] of [register]; a failed assertion is an [Err]. *)
Fixpoint check_overlap (es : list Entry) (b e : Z) : result string unit :=
  match es with
  | [] => Ok tt
  | x :: es =>
      entry_end <-? ok_or (checked_add 64 (base x) (len x)) "registered bus device range overflows u64" ;
      if (e <=? base x) || (entry_end <=? b) then check_overlap es b e
      else Err "bus device range overlaps an existing mapping"
  end.

Definition register (bus : Bus) (b l : Z) (dev : nat) : result string Bus :=
  if negb (0 <? l) then Err "bus device range must not be empty"
  else
    e <-? ok_or (checked_add 64 b l) "bus device range overflows u64" ;
    _ <-? check_overlap (entries bus) b e ;
    Ok (mkBus (entries bus ++ [mkEntry b l dev])).

(** The closure of [find]. *)
Definition holds (addr access_len : Z) (e : Entry) : bool :=
  match checked_sub addr (base e) with
  | None => false
  | Some offset => (offset <? len e) && (access_len <=? len e - offset)
  end.

Definition find (bus : Bus) (addr access_len : Z) : option (Z * nat) :=
  if access_len =? 0 then None
  else match List.find (holds addr access_len) (entries bus) with
       | Some e => Some (base e, device e)
       | None => None
       end.

Section dispatch.
Context {D : Type} `{BusDevice D}.

Definition read (bus : Bus) (st : store D) (addr : Z) (data : bytes) : store D * bytes * bool :=
  match find bus addr (Z.of_nat (length data)) with
  | Some (b, h) =>
      match st !! h with
      | Some dev => let '(dev, data) := dev_read dev (addr - b) data in (<[h := dev]> st, data, true)
      | None => (st, data, true)
      end
  | None => (st, data, false)
  end.

Definition write (bus : Bus) (st : store D) (addr : Z) (data : bytes) : store D * bool :=
  match find bus addr (Z.of_nat (length data)) with
  | Some (b, h) =>
      match st !! h with
      | Some dev => (<[h := dev_write dev (addr - b) data]> st, true)
      | None => (st, true)
      end
  | None => (st, false)
  end.

End dispatch.

End Bus.

(** ** The host bridge *)

Record RegisteredFunction : Type := mkRegistered { rf_device : Z; rf_function : Z; rf_pci : nat }.

Record PciRoot : Type := mkPciRoot { config_address : Z; functions : list RegisteredFunction }.

Module PciRoot.

Definition new : PciRoot := mkPciRoot 0 [].

Definition same_slot (dev fn : Z) (r : RegisteredFunction) : bool :=
  (rf_device r =? dev) && (rf_function r =? fn).

Definition register (root : PciRoot) (dev fn : Z) (pci : nat) : result string PciRoot :=
  if (32 <=? dev) || (8 <=? fn) then Err "invalid PCI address"
  else if existsb (same_slot dev fn) (functions root) then Err "duplicate PCI address"
  else Ok (mkPciRoot (config_address root) (functions root ++ [mkRegistered dev fn pci])).

Definition find_function (root : PciRoot) (dev fn : Z) : option nat :=
  rf_pci <$> List.find (same_slot dev fn) (functions root).

Definition selected (root : PciRoot) : option (Z * nat) :=
  let a := config_address root in
  if Z.land a 0x80000000 =? 0 then None
  else
    let bus := Z.land (Z.shiftr a 16) 0xff in
    if negb (bus =? 0) then None
    else
      let dev := Z.land (Z.shiftr a 11) 0x1f in
      let fn := Z.land (Z.shiftr a 8) 0x07 in
      let register := Z.land a 0xfc in
      (fun h => (register, h)) <$> find_function root dev fn.

Definition ecam_selected (root : PciRoot) (offset : Z) : option (Z * nat) :=
  let bus := Z.land (Z.shiftr offset 20) 0xff in
  if negb (bus =? 0) then None
  else
    let dev := Z.land (Z.shiftr offset 15) 0x1f in
    let fn := Z.land (Z.shiftr offset 12) 0x07 in
    let register := Z.land offset 0xfff in
    (fun h => (register, h)) <$> find_function root dev fn.

Section config.
Context {F : Type} `{PciFunction F}.

(** An access to the function behind a handle. *)
Definition config_read (st : store F) (h : nat) (offset : Z) (data : bytes) : store F * bytes :=
  match st !! h with
  | Some f => let '(f, data) := read_config f offset data in (<[h := f]> st, data)
  | None => (st, data)
  end.

Definition config_write (st : store F) (h : nat) (offset : Z) (data : bytes) : store F :=
  match st !! h with
  | Some f => <[h := write_config f offset data]> st
  | None => st
  end.

Definition read_config_data (root : PciRoot) (st : store F) (byte_offset : Z) (data : bytes)
  : store F * bytes :=
  let data := fill 0xff data in
  match selected root with
  | None => (st, data)
  | Some (register, h) => config_read st h (register + byte_offset) data
  end.

Definition write_config_data (root : PciRoot) (st : store F) (byte_offset : Z) (data : bytes)
  : store F :=
  match selected root with
  | None => st
  | Some (register, h) => config_write st h (register + byte_offset) data
  end.

Definition read_ecam (root : PciRoot) (st : store F) (offset : Z) (data : bytes)
  : store F * bytes :=
  let data := fill 0xff data in
  match ecam_selected root offset with
  | None => (st, data)
  | Some (register, h) => config_read st h register data
  end.

Definition write_ecam (root : PciRoot) (st : store F) (offset : Z) (data : bytes) : store F :=
  match ecam_selected root offset with
  | None => st
  | Some (register, h) => config_write st h register data
  end.

(** [impl BusDevice for PciRoot]. *)
Definition read (root : PciRoot) (st : store F) (offset : Z) (data : bytes) : store F * bytes :=
  if offset <? 4 then (st, copy_from (le_bytes 4 (config_address root)) offset data 0)
  else if offset <? 8 then read_config_data root st (offset - 4) data
  else (st, fill 0xff data).

Definition write (root : PciRoot) (st : store F) (offset : Z) (data : bytes)
  : PciRoot * store F :=
  if offset <? 4 then
    let address := overlay (le_bytes 4 (config_address root)) offset data in
    (mkPciRoot (of_le_bytes address) (functions root), st)
  else if offset <? 8 then (root, write_config_data root st (offset - 4) data)
  else (root, st).

End config.

End PciRoot.

(** The port view and the ECAM view of one root, over one store of functions. *)
Record PciHost (F : Type) : Type := mkPciHost { root : PciRoot; pci_store : store F }.
Arguments mkPciHost {F}.
Arguments root {F}.
Arguments pci_store {F}.

#[global] Instance PciRoot_device {F} `{PciFunction F} : BusDevice (PciHost F) := {
  dev_read h offset data :=
    let '(st, data) := PciRoot.read (root h) (pci_store h) offset data in
    (mkPciHost (root h) st, data);
  dev_write h offset data :=
    let '(r, st) := PciRoot.write (root h) (pci_store h) offset data in mkPciHost r st }.

Definition PciEcam_device {F} `{PciFunction F} : BusDevice (PciHost F) := {|
  dev_read h offset data :=
    let '(st, data) := PciRoot.read_ecam (root h) (pci_store h) offset data in
    (mkPciHost (root h) st, data);
  dev_write h offset data :=
    mkPciHost (root h) (PciRoot.write_ecam (root h) (pci_store h) offset data) |}.

(** ** The BAR dispatcher *)

Record PciMmioDispatcher : Type := mkDispatcher { aperture_base : Z; d_functions : list nat }.

Module PciMmioDispatcher.

Definition new (base : Z) : PciMmioDispatcher := mkDispatcher base [].

Definition register (d : PciMmioDispatcher) (f : nat) : PciMmioDispatcher :=
  mkDispatcher (aperture_base d) (d_functions d ++ [f]).

Section dispatch.
Context {F : Type} `{PciFunction F}.

Fixpoint read_loop (fs : list nat) (st : store F) (addr : Z) (data : bytes) : store F * bytes :=
  match fs with
  | [] => (st, fill 0xff data)
  | h :: fs =>
      match st !! h with
      | Some f =>
          let '(f, data, done) := read_bar f addr data in
          if done : bool then (<[h := f]> st, data) else read_loop fs (<[h := f]> st) addr data
      | None => read_loop fs st addr data
      end
  end.

Definition read (d : PciMmioDispatcher) (st : store F) (offset : Z) (data : bytes)
  : store F * bytes :=
  match checked_add 64 (aperture_base d) offset with
  | None => (st, fill 0xff data)
  | Some addr => read_loop (d_functions d) st addr data
  end.

Fixpoint write_loop (fs : list nat) (st : store F) (addr : Z) (data : bytes) : store F :=
  match fs with
  | [] => st
  | h :: fs =>
      match st !! h with
      | Some f =>
          let '(f, done) := write_bar f addr data in
          if done : bool then <[h := f]> st else write_loop fs (<[h := f]> st) addr data
      | None => write_loop fs st addr data
      end
  end.

Definition write (d : PciMmioDispatcher) (st : store F) (offset : Z) (data : bytes) : store F :=
  match checked_add 64 (aperture_base d) offset with
  | None => st
  | Some addr => write_loop (d_functions d) st addr data
  end.

End dispatch.

End PciMmioDispatcher.

Lemma length_fill x data : length (fill x data) = length data.
Proof. apply length_replicate. Qed.

(** Byte [k] of a copied-out window and of an overlaid buffer. *)
Lemma lookup_copy_from source offset data f k :
  0 <= offset ->
  copy_from source offset data f !! k =
  if decide (k < length data)%nat then Some (default f (source !! (Z.to_nat offset + k)%nat)) else None.
Proof.
  intros Ho. unfold copy_from, fill. destruct (Z.ltb_spec (Z.of_nat (length source)) offset).
  - case_decide as Hk.
    + rewrite lookup_replicate_2 by done. by rewrite lookup_ge_None_2 by lia.
    + apply lookup_ge_None_2. rewrite length_replicate. lia.
  - set (src := drop (Z.to_nat offset) source). rewrite length_replicate.
    set (n := (length src `min` length data)%nat).
    assert (Hs : source !! (Z.to_nat offset + k)%nat = src !! k) by (symmetry; apply lookup_drop).
    rewrite Hs. destruct (decide (k < n)%nat) as [Hk|Hk].
    + rewrite lookup_app_l by (rewrite length_take; lia). rewrite lookup_take_lt by done.
      rewrite decide_True by lia. destruct (lookup_lt_is_Some_2 src k) as [x Hx]; [lia|]. by rewrite Hx.
    + rewrite lookup_app_r by (rewrite length_take; lia). rewrite length_take, lookup_drop.
      case_decide as Hl.
      * rewrite lookup_replicate_2 by lia. by rewrite (lookup_ge_None_2 src) by lia.
      * apply lookup_ge_None_2. rewrite length_replicate. lia.
Qed.

Lemma length_overlay d offset data : length (overlay d offset data) = length d.
Proof.
  unfold overlay. destruct (Z.ltb_spec (Z.of_nat (length d)) offset); [done|].
  rewrite !length_app, !length_take, length_drop. lia.
Qed.

Lemma lookup_overlay d offset data k :
  0 <= offset ->
  overlay d offset data !! k =
  if decide (Z.to_nat offset <= k < Z.to_nat offset + length data /\ k < length d)%nat
  then data !! (k - Z.to_nat offset)%nat else d !! k.
Proof.
  intros Ho. unfold overlay. destruct (Z.ltb_spec (Z.of_nat (length d)) offset).
  { by rewrite decide_False by lia. }
  set (o := Z.to_nat offset). set (n := ((length d - o) `min` length data)%nat).
  destruct (decide (k < o)%nat).
  { rewrite lookup_app_l by (rewrite length_take; lia). rewrite lookup_take_lt by done.
    by rewrite decide_False by lia. }
  rewrite lookup_app_r by (rewrite length_take; lia). rewrite length_take, Nat.min_l by lia.
  destruct (decide (k - o < n)%nat).
  - rewrite lookup_app_l by (rewrite length_take; lia). rewrite lookup_take_lt by done.
    by rewrite decide_True by lia.
  - rewrite lookup_app_r by (rewrite length_take; lia). rewrite length_take, lookup_drop.
    replace (o + n + (k - o - n `min` length data))%nat with k by lia.
    case_decide; [|done]. rewrite (lookup_ge_None_2 d), (lookup_ge_None_2 data) by lia. done.
Qed.

(** * Properties of the bus *)

(** [e] holds the whole access. *)
Definition covers_access (e : Entry) (addr n : Z) : Prop := base e <= addr /\ addr + n <= base e + len e.

Definition disjoint_entries (e e' : Entry) : Prop :=
  base e + len e <= base e' \/ base e' + len e' <= base e.

Lemma holds_covers addr n e : 0 < n -> Bus.holds addr n e = true <-> covers_access e addr n.
Proof.
  intros Hn. unfold Bus.holds, covers_access, checked_sub.
  destruct (Z.leb_spec (base e) addr); simpl; [|split; [done|lia]].
  rewrite andb_true_iff, Z.ltb_lt, Z.leb_le. lia.
Qed.

Lemma check_overlap_Ok es b e :
  Bus.check_overlap es b e = Ok tt ->
  Forall (fun x => e <= base x \/ base x + len x <= b) es.
Proof.
  induction es as [|x es IH]; simpl; [constructor|].
  unfold checked_add. destruct (Z.ltb_spec (base x + len x) (2 ^ 64)); simpl; [|done].
  destruct (_ || _) eqn:Hc; [|done]. intros Hes. constructor; [|auto].
  apply orb_true_iff in Hc as [?%Z.leb_le|?%Z.leb_le]; auto.
Qed.

Lemma register_Ok bus b l dev bus' :
  Bus.register bus b l dev = Ok bus' ->
  0 < l /\ entries bus' = entries bus ++ [mkEntry b l dev] /\
  Forall (fun x => disjoint_entries x (mkEntry b l dev)) (entries bus).
Proof.
  unfold Bus.register. destruct (Z.ltb_spec 0 l); simpl; [|done]. unfold checked_add.
  destruct (Z.ltb_spec (b + l) (2 ^ 64)); simpl; [|done].
  destruct (Bus.check_overlap _ _ _) as [[]|] eqn:Ho; simpl; [|done]. intros [= <-].
  apply check_overlap_Ok in Ho. split_and!; [done|done|]. eapply Forall_impl; [exact Ho|].
  unfold disjoint_entries. simpl. intros x []; auto.
Qed.

(** Registration at set-up. *)
Fixpoint register_all (bus : Bus) (regs : list (Z * Z * nat)) : result string Bus :=
  match regs with
  | [] => Ok bus
  | (b, l, dev) :: regs => bus <-? Bus.register bus b l dev ; register_all bus regs
  end.

Definition bus_ok (bus : Bus) : Prop :=
  ForallOrdPairs disjoint_entries (entries bus) /\ Forall (fun e => 0 < len e) (entries bus).

Lemma ForallOrdPairs_snoc {A} (R : A -> A -> Prop) l x :
  ForallOrdPairs R l -> Forall (fun y => R y x) l -> ForallOrdPairs R (l ++ [x]).
Proof.
  induction 1 as [|y l Hy Hl IH]; simpl; intros Hx; [by repeat constructor|].
  apply Forall_cons in Hx as [Hyx Hx]. constructor; [|auto]. apply Forall_app; auto.
Qed.

Lemma register_all_Ok regs : forall bus bus',
  bus_ok bus -> register_all bus regs = Ok bus' ->
  bus_ok bus' /\
  entries bus' = entries bus ++ map (fun r => mkEntry r.1.1 r.1.2 r.2) regs.
Proof.
  induction regs as [|[[b l] dev] regs IH]; intros bus bus' Hok; simpl.
  { intros [= <-]. by rewrite app_nil_r. }
  intros (bus1 & (Hl & He & Hd)%register_Ok & Hall)%result_bind_Ok.
  assert (Hok1 : bus_ok bus1).
  { destruct Hok as [H1 H2]. split; rewrite He; [by apply ForallOrdPairs_snoc|].
    apply Forall_app. auto. }
  destruct (IH _ _ Hok1 Hall) as [Hok' He']. split; [done|]. by rewrite He', He, <- app_assoc.
Qed.

Lemma find_unique bus e addr n :
  bus_ok bus -> 0 < n -> e ∈ entries bus -> covers_access e addr n ->
  exists e', List.find (Bus.holds addr n) (entries bus) = Some e' /\
    base e' = base e /\ device e' = device e.
Proof.
  intros [Hd Hl] Hn. induction Hd as [|x l Hx Hd IH]; intros Hin Hc; [by apply elem_of_nil in Hin|].
  apply Forall_cons in Hl as [Hlx Hl]. simpl. apply elem_of_cons in Hin as [->|Hin].
  - rewrite (proj2 (holds_covers addr n x Hn) Hc). eauto.
  - destruct (Bus.holds addr n x) eqn:Hh; [|by apply IH]. apply holds_covers in Hh; [|done].
    rewrite Forall_forall in Hx. specialize (Hx e Hin).
    unfold disjoint_entries, covers_access in *. lia.
Qed.

Lemma bus_find_exact bus addr n :
  bus_ok bus -> 0 < n ->
  (forall e, e ∈ entries bus -> covers_access e addr n ->
     Bus.find bus addr n = Some (base e, device e)) /\
  ((forall e, e ∈ entries bus -> ~ covers_access e addr n) -> Bus.find bus addr n = None).
Proof.
  intros Hok Hn. unfold Bus.find. rewrite (proj2 (Z.eqb_neq n 0)) by lia. split.
  - intros e He Hc. destruct (find_unique bus e addr n) as (e' & -> & -> & ->); auto.
  - intros Hno. destruct (List.find _ _) as [e|] eqn:Hf; [|done].
    apply find_some in Hf as [Hin%list_elem_of_In Hh]. apply holds_covers in Hh; [|done].
    by destruct (Hno e).
Qed.

(** The bus routes exactly: once a set of ranges has been registered, an access
    that lies entirely inside one of them reaches that device, at the offset from
    its base, and changes no other device; an access outside every range, or
    across an edge, reaches none and leaves the buffer alone. *)
Lemma bus_dispatch_exact {D} `{BusDevice D} regs bus (st : store D) addr data :
  register_all Bus.new regs = Ok bus -> 0 < Z.of_nat (length data) ->
  (forall b l h dev, (b, l, h) ∈ regs -> b <= addr -> addr + Z.of_nat (length data) <= b + l ->
     st !! h = Some dev ->
     Bus.read bus st addr data =
       (<[h := (dev_read dev (addr - b) data).1]> st, (dev_read dev (addr - b) data).2, true) /\
     Bus.write bus st addr data = (<[h := dev_write dev (addr - b) data]> st, true)) /\
  ((forall b l h, (b, l, h) ∈ regs -> ~ (b <= addr /\ addr + Z.of_nat (length data) <= b + l)) ->
     Bus.read bus st addr data = (st, data, false) /\ Bus.write bus st addr data = (st, false)).
Proof.
  intros Hreg Hn. destruct (register_all_Ok regs Bus.new bus) as [Hok He];
    [split; constructor|done|]. simpl in He.
  destruct (bus_find_exact bus addr (Z.of_nat (length data)) Hok Hn) as [Hyes Hno].
  unfold Bus.read, Bus.write. split.
  - intros b l h dev Hin H1 H2 Hdev.
    rewrite (Hyes (mkEntry b l h)); [|rewrite He|by unfold covers_access].
    + simpl. rewrite Hdev. by destruct (dev_read dev (addr - b) data).
    + apply list_elem_of_fmap. by exists (b, l, h).
  - intros Hall. rewrite Hno; [done|]. intros e. rewrite He.
    intros ([[b l] h] & -> & Hin)%list_elem_of_fmap. by apply (Hall b l h).
Qed.

(** A one-byte memory, to run the bus on. *)
#[local] Instance demo_device : BusDevice (list Z) := {
  dev_read d offset data := (d, copy_from d offset data 0);
  dev_write d offset data := overlay d offset data }.

Definition demo_regs : list (Z * Z * nat) := [(16, 4, 0%nat); (32, 4, 1%nat)].
Definition demo_store : store (list Z) := {[0%nat := [1; 2; 3; 4]; 1%nat := [5; 6; 7; 8]]}.

(** * Properties of the host bridge *)

(** The address a driver writes to the configuration address port, and the offset
    it uses in the ECAM window, for register [reg] of [00:dev.fn]. *)
Definition mechanism1_address (dev fn reg : Z) : Z := 2 ^ 31 + dev * 2 ^ 11 + fn * 2 ^ 8 + reg.
Definition ecam_offset (dev fn reg : Z) : Z := dev * 2 ^ 15 + fn * 2 ^ 12 + reg.

Lemma land_dword x : 0 <= x -> Z.land x 0xfc = 4 * (x / 4 mod 64).
Proof.
  intros Hx. change 0xfc with (Z.shiftl (Z.ones 6) 2).
  replace (4 * (x / 4 mod 64)) with (Z.shiftl (Z.land (Z.shiftr x 2) (Z.ones 6)) 2)
    by (rewrite Z.shiftl_mul_pow2, Z.land_ones, Z.shiftr_div_pow2 by lia;
        change (2 ^ 2) with 4; change (2 ^ 6) with 64; lia).
  apply Z.bits_inj'. intros n Hn.
  rewrite Z.land_spec, !Z.shiftl_spec by lia.
  destruct (Z.ltb_spec n 2).
  - rewrite !(Z.testbit_neg_r _ (n - 2)) by lia. by rewrite andb_false_r.
  - rewrite Z.land_spec, Z.shiftr_spec by lia. repeat f_equal. lia.
Qed.

Section selectors.
Context (dev fn w : Z) (Hdev : 0 <= dev < 32) (Hfn : 0 <= fn < 8) (Hw : 0 <= w < 64).

Lemma selected_mechanism1 functions :
  PciRoot.selected (mkPciRoot (mechanism1_address dev fn (4 * w)) functions) =
  (fun h => (4 * w, h)) <$> PciRoot.find_function (mkPciRoot 0 functions) dev fn.
Proof.
  unfold PciRoot.selected, mechanism1_address. simpl config_address. eval_pows.
  set (a := 2147483648 + dev * 2048 + fn * 256 + 4 * w).
  assert (Ha : (Z.land a 0x80000000 =? 0) = false).
  { apply Z.eqb_neq. change 0x80000000 with (2 ^ 31). intros H0.
    assert (Hb : Z.testbit (Z.land a (2 ^ 31)) 31 = false) by (by rewrite H0).
    rewrite Z.land_spec, Z.pow2_bits_true, andb_true_r in Hb by lia.
    apply Z.testbit_false in Hb; [|lia]. unfold a in Hb. revert Hb. eval_pows. divlia. }
  rewrite Ha. change 0xff with (2 ^ 8 - 1). change 0x1f with (2 ^ 5 - 1).
  change 0x07 with (2 ^ 3 - 1). rewrite !field_mask, land_dword by (unfold a; lia). eval_pows.
  replace (a / 65536 mod 256) with 0 by (unfold a; divlia).
  replace (a / 2048 mod 32) with dev by (unfold a; divlia).
  replace (a / 256 mod 8) with fn by (unfold a; divlia).
  replace (a / 4 mod 64) with w by (unfold a; divlia). done.
Qed.

Lemma selected_ecam root k : 0 <= k < 4 ->
  PciRoot.ecam_selected root (ecam_offset dev fn (4 * w + k)) =
  (fun h => (4 * w + k, h)) <$> PciRoot.find_function root dev fn.
Proof.
  intros Hk. unfold PciRoot.ecam_selected, ecam_offset. eval_pows. set (a := dev * 32768 + fn * 4096 + (4 * w + k)).
  change 0xff with (2 ^ 8 - 1). change 0x1f with (2 ^ 5 - 1). change 0x07 with (2 ^ 3 - 1).
  change 0xfff with (2 ^ 12 - 1). rewrite !field_mask, land_mask by lia. eval_pows.
  replace (a / 1048576 mod 256) with 0 by (unfold a; divlia).
  replace (a / 32768 mod 32) with dev by (unfold a; divlia).
  replace (a / 4096 mod 8) with fn by (unfold a; divlia).
  replace (a mod 4096) with (4 * w + k) by (unfold a; divlia). done.
Qed.

End selectors.

Lemma overlay_all (d data : bytes) : length data = length d -> overlay d 0 data = data.
Proof.
  intros Hl. unfold overlay. rewrite (proj2 (Z.ltb_ge _ _)) by lia. simpl.
  rewrite <- Hl, Nat.sub_0_r, Nat.min_id, take_ge, drop_ge by lia. by rewrite app_nil_r.
Qed.

(** The two configuration mechanisms are views of one configuration space:
    after a driver selects [00:dev.fn] and a dword through the address port, a data
    access at byte [k] does exactly what the ECAM access at the same register does,
    for every function behind the bridge, reads and writes alike. *)
Lemma config_mechanisms_agree {F} `{PciFunction F} (r : PciRoot) (st : store F) dev fn w k data :
  0 <= dev < 32 -> 0 <= fn < 8 -> 0 <= w < 64 -> 0 <= k < 4 ->
  let r' := (PciRoot.write r st 0 (le_bytes 4 (mechanism1_address dev fn (4 * w)))).1 in
  let offset := ecam_offset dev fn (4 * w + k) in
  functions r' = functions r /\
  PciRoot.read r' st (4 + k) data = PciRoot.read_ecam r st offset data /\
  PciRoot.write r' st (4 + k) data = (r', PciRoot.write_ecam r st offset data).
Proof.
  intros Hdev Hfn Hw Hk. cbn zeta.
  assert (Hw' : PciRoot.write r st 0 (le_bytes 4 (mechanism1_address dev fn (4 * w))) =
    (mkPciRoot (mechanism1_address dev fn (4 * w)) (functions r), st)).
  { unfold PciRoot.write. rewrite overlay_all by (by rewrite !length_le_bytes). simpl (0 <? 4).
    rewrite of_le_bytes_le_bytes; [done|]. unfold mechanism1_address. eval_pows. simpl. lia. }
  rewrite Hw'. simpl fst. split; [done|]. unfold PciRoot.read, PciRoot.write.
  rewrite !(proj2 (Z.ltb_ge (4 + k) 4)), !(proj2 (Z.ltb_lt (4 + k) 8)) by lia.
  replace (4 + k - 4) with k by lia.
  unfold PciRoot.read_config_data, PciRoot.write_config_data, PciRoot.read_ecam, PciRoot.write_ecam.
  rewrite selected_mechanism1, selected_ecam by lia.
  unfold PciRoot.find_function. simpl functions. by destruct (List.find _ _).
Qed.

#[local] Instance demo_function : PciFunction (list Z) := {
  read_config d offset data := (d, copy_from d offset data 0xff);
  write_config d offset data := overlay d offset data;
  read_bar d _ data := (d, data, false);
  write_bar d _ _ := (d, false) }.

(** ** BAR dispatch through the interface *)

(** What a function promises the dispatcher: it answers an access exactly when one
    of its BARs owns the address, and otherwise leaves everything alone. *)
Class PciFunctionLaws (F : Type) `{PciFunction F} : Type := {
  owns : F -> Z -> bool;
  read_bar_owns f addr data : (read_bar f addr data).2 = owns f addr;
  read_bar_frame f addr data :
    owns f addr = false -> (read_bar f addr data).1 = (f, data);
  write_bar_owns f addr data : (write_bar f addr data).2 = owns f addr;
  write_bar_frame f addr data : owns f addr = false -> (write_bar f addr data).1 = f }.

Section bars.
Context {F : Type} `{PciFunctionLaws F}.

Definition owned_by (st : store F) (addr : Z) (h : nat) : Prop :=
  exists f, st !! h = Some f /\ owns f addr = true.

Lemma read_loop_skip fs rest st addr data :
  (forall h, h ∈ fs -> ~ owned_by st addr h) ->
  PciMmioDispatcher.read_loop (fs ++ rest) st addr data =
  PciMmioDispatcher.read_loop rest st addr data.
Proof.
  induction fs as [|h fs IH]; intros Hno; simpl; [done|].
  assert (Hfs : forall h, h ∈ fs -> ~ owned_by st addr h) by (intros; apply Hno; by right).
  destruct (st !! h) as [f|] eqn:Hh; [|by apply IH].
  assert (Ho : owns f addr = false).
  { apply not_true_iff_false. intros Ht. apply (Hno h); [by left|]. by exists f. }
  pose proof (read_bar_owns f addr data) as Hd. pose proof (read_bar_frame f addr data Ho) as Hf.
  destruct (read_bar f addr data) as [[f' data'] b]. simpl in *. simplify_eq. rewrite Ho.
  rewrite insert_id by done. by apply IH.
Qed.

Lemma write_loop_skip fs rest st addr data :
  (forall h, h ∈ fs -> ~ owned_by st addr h) ->
  PciMmioDispatcher.write_loop (fs ++ rest) st addr data =
  PciMmioDispatcher.write_loop rest st addr data.
Proof.
  induction fs as [|h fs IH]; intros Hno; simpl; [done|].
  assert (Hfs : forall h, h ∈ fs -> ~ owned_by st addr h) by (intros; apply Hno; by right).
  destruct (st !! h) as [f|] eqn:Hh; [|by apply IH].
  assert (Ho : owns f addr = false).
  { apply not_true_iff_false. intros Ht. apply (Hno h); [by left|]. by exists f. }
  pose proof (write_bar_owns f addr data) as Hd. pose proof (write_bar_frame f addr data Ho) as Hf.
  destruct (write_bar f addr data) as [f' b]. simpl in *. simplify_eq. rewrite Ho.
  rewrite insert_id by done. by apply IH.
Qed.

(** Only the first function that owns the address is touched. *)
Lemma read_loop_owner pre h post st addr data f :
  (forall h, h ∈ pre -> ~ owned_by st addr h) -> st !! h = Some f -> owns f addr = true ->
  PciMmioDispatcher.read_loop (pre ++ h :: post) st addr data =
  (<[h := (read_bar f addr data).1.1]> st, (read_bar f addr data).1.2).
Proof.
  intros Hno Hh Ho. rewrite read_loop_skip by done. simpl. rewrite Hh.
  pose proof (read_bar_owns f addr data) as Hd.
  destruct (read_bar f addr data) as [[f' data'] b]. simpl in *. by rewrite Hd, Ho.
Qed.

Lemma write_loop_owner pre h post st addr data f :
  (forall h, h ∈ pre -> ~ owned_by st addr h) -> st !! h = Some f -> owns f addr = true ->
  PciMmioDispatcher.write_loop (pre ++ h :: post) st addr data =
  <[h := (write_bar f addr data).1]> st.
Proof.
  intros Hno Hh Ho. rewrite write_loop_skip by done. simpl. rewrite Hh.
  pose proof (write_bar_owns f addr data) as Hd.
  destruct (write_bar f addr data) as [f' b]. simpl in *. by rewrite Hd, Ho.
Qed.

End bars.
