(* ===== verification/Psci.v ===== *)
(** CPU power control for guests on Apple's hypervisor
    ([vmm/src/hv/hvf/psci.rs]): the coordinator that the PSCI calls of every vCPU
    thread share.

    A call is a sequence of atomic accesses: the load or store of an [AtomicBool]
    and the critical section of a start slot.  The definitions below name the
    accesses and compose them the way the methods do; the properties speak of whole
    calls first and then of arbitrary interleavings of the accesses.  A lock is
    never poisoned, as no critical section can panic. *)

From S2P Require Import Prelude.

Definition PSCI_SUCCESS : Z := 0.
Definition PSCI_INVALID_PARAMETERS : Z := -2.
Definition PSCI_ALREADY_ON : Z := -4.
Definition PSCI_ON_PENDING : Z := -5.

Definition PSCI_AFFINITY_ON : Z := 0.
Definition PSCI_AFFINITY_OFF : Z := 1.
Definition PSCI_AFFINITY_ON_PENDING : Z := 2.

Definition CPU_ON_ENTRY_ALIGN : Z := 4.

Record StartInfo : Type := mkStartInfo { entry : Z; context_id : Z }.

Record PsciCoordinator : Type := mkPsci {
  mpidr_to_id : gmap Z nat; powered : list bool; starts : list (option StartInfo) }.

Definition mpidr_affinity (mpidr : Z) : Z :=
  Z.lor (Z.land mpidr 0xffffff) (Z.land (Z.shiftr mpidr 8) 0xff000000).

Module PsciCoordinator.

Definition new (max_vcpus : nat) : PsciCoordinator :=
  mkPsci ∅ (replicate max_vcpus false) (replicate max_vcpus None).

Definition check_id (c : PsciCoordinator) (vcpu_id : nat) : result string unit :=
  if (length (powered c) <=? vcpu_id)%nat then Err "vCPU id exceeds PSCI coordinator size" else Ok tt.

(** *** Atomic accesses *)

Definition load_powered (c : PsciCoordinator) (vcpu_id : nat) : bool :=
  default false (powered c !! vcpu_id).

Definition store_powered (c : PsciCoordinator) (vcpu_id : nat) (b : bool) : PsciCoordinator :=
  mkPsci (mpidr_to_id c) (<[vcpu_id := b]> (powered c)) (starts c).

Definition load_start (c : PsciCoordinator) (vcpu_id : nat) : option StartInfo :=
  default None (starts c !! vcpu_id).

Definition clear_start (c : PsciCoordinator) (vcpu_id : nat) : PsciCoordinator :=
  mkPsci (mpidr_to_id c) (powered c) (<[vcpu_id := None]> (starts c)).

(** The critical section of [power_on]. *)
Definition post_start (c : PsciCoordinator) (vcpu_id : nat) (info : StartInfo)
  : PsciCoordinator * Z :=
  match load_start c vcpu_id with
  | Some _ => (c, PSCI_ON_PENDING)
  | None => (mkPsci (mpidr_to_id c) (powered c) (<[vcpu_id := Some info]> (starts c)), PSCI_SUCCESS)
  end.

(** The critical section of [wait_for_power_on_timeout]. *)
Definition take_start (c : PsciCoordinator) (vcpu_id : nat)
  : PsciCoordinator * option StartInfo :=
  match load_start c vcpu_id with
  | Some info => (store_powered (clear_start c vcpu_id) vcpu_id true, Some info)
  | None => (c, None)
  end.

(** *** Methods *)

Definition register_mpidr (c : PsciCoordinator) (vcpu_id : nat) (mpidr : Z)
  : result string PsciCoordinator :=
  _ <-? check_id c vcpu_id ;
  Ok (mkPsci (<[mpidr_affinity mpidr := vcpu_id]> (mpidr_to_id c)) (powered c) (starts c)).

Definition mark_booted (c : PsciCoordinator) (vcpu_id : nat) : result string PsciCoordinator :=
  _ <-? check_id c vcpu_id ; Ok (store_powered (clear_start c vcpu_id) vcpu_id true).

Definition mark_off (c : PsciCoordinator) (vcpu_id : nat) : result string PsciCoordinator :=
  _ <-? check_id c vcpu_id ; Ok (store_powered (clear_start c vcpu_id) vcpu_id false).

Definition power_off (c : PsciCoordinator) (vcpu_id : nat) : result string PsciCoordinator :=
  mark_off c vcpu_id.

(** [power_on] up to and including the load of [powered]: an early return, or the
    vCPU whose slot is locked next. *)
Definition power_on_check (c : PsciCoordinator) (target_affinity e : Z) : Z + nat :=
  if negb (e mod CPU_ON_ENTRY_ALIGN =? 0) then inl PSCI_INVALID_PARAMETERS
  else match mpidr_to_id c !! mpidr_affinity target_affinity with
       | None => inl PSCI_INVALID_PARAMETERS
       | Some vcpu_id => if load_powered c vcpu_id then inl PSCI_ALREADY_ON else inr vcpu_id
       end.

Definition power_on (c : PsciCoordinator) (target_affinity e ctx : Z) : PsciCoordinator * Z :=
  match power_on_check c target_affinity e with
  | inl code => (c, code)
  | inr vcpu_id => post_start c vcpu_id (mkStartInfo e ctx)
  end.

Definition is_powered (c : PsciCoordinator) (vcpu_id : nat) : bool := load_powered c vcpu_id.

Definition affinity_info (c : PsciCoordinator) (target_affinity : Z) : Z :=
  match mpidr_to_id c !! mpidr_affinity target_affinity with
  | None => PSCI_AFFINITY_OFF
  | Some vcpu_id =>
      if is_powered c vcpu_id then PSCI_AFFINITY_ON
      else match load_start c vcpu_id with
           | Some _ => PSCI_AFFINITY_ON_PENDING
           | None => if is_powered c vcpu_id then PSCI_AFFINITY_ON else PSCI_AFFINITY_OFF
           end
  end.

(** [others] is what the other threads do to the coordinator while this one waits
    on the condition variable with the lock released. *)
Definition wait_for_power_on_timeout (c : PsciCoordinator) (vcpu_id : nat)
    (others : PsciCoordinator -> PsciCoordinator)
  : result string (PsciCoordinator * option StartInfo) :=
  _ <-? check_id c vcpu_id ;
  match take_start c vcpu_id with
  | (c, Some info) => Ok (c, Some info)
  | (c, None) => Ok (take_start (others c) vcpu_id)
  end.

End PsciCoordinator.

Import PsciCoordinator.

(** * Whole calls refine a three-state machine *)

Inductive power_state : Type := Off | Pending (info : StartInfo) | On.

(** The state of a vCPU, as the guest sees it. *)
Definition state_of (c : PsciCoordinator) (vcpu_id : nat) : power_state :=
  if load_powered c vcpu_id then On
  else match load_start c vcpu_id with Some info => Pending info | None => Off end.

(** What PSCI asks of [CPU_ON] for a known vCPU and an aligned entry. *)
Definition spec_cpu_on (s : power_state) (info : StartInfo) : power_state * Z :=
  match s with
  | Off => (Pending info, PSCI_SUCCESS)
  | Pending _ => (s, PSCI_ON_PENDING)
  | On => (s, PSCI_ALREADY_ON)
  end.

Definition spec_affinity (s : power_state) : Z :=
  match s with
  | Off => PSCI_AFFINITY_OFF
  | Pending _ => PSCI_AFFINITY_ON_PENDING
  | On => PSCI_AFFINITY_ON
  end.

Inductive psci_op : Type :=
  | OpRegister (vcpu_id : nat) (mpidr : Z)
  | OpBooted (vcpu_id : nat)
  | OpOff (vcpu_id : nat)
  | OpOn (target e ctx : Z)
  | OpTake (vcpu_id : nat).

(** A whole call; an [Err] changes nothing. *)
Definition psci_step (c : PsciCoordinator) (o : psci_op) : PsciCoordinator :=
  let keep r := match r with Ok c' => c' | Err _ => c end in
  match o with
  | OpRegister i m => keep (register_mpidr c i m)
  | OpBooted i => keep (mark_booted c i)
  | OpOff i => keep (power_off c i)
  | OpOn t e ctx => (power_on c t e ctx).1
  | OpTake i =>
      match wait_for_power_on_timeout c i (fun c => c) with Ok (c', _) => c' | Err _ => c end
  end.

Record psci_inv (c : PsciCoordinator) : Prop := {
  ps_len : length (starts c) = length (powered c);
  ps_ids : forall a i, mpidr_to_id c !! a = Some i -> (i < length (powered c))%nat;
  ps_on : forall i, load_powered c i = true -> load_start c i = None }.

Lemma load_powered_store c i b j :
  (i < length (powered c))%nat ->
  load_powered (store_powered c i b) j = if decide (i = j) then b else load_powered c j.
Proof.
  intros Hi. unfold load_powered, store_powered. simpl. case_decide; subst.
  - by rewrite list_lookup_insert_eq.
  - by rewrite list_lookup_insert_ne.
Qed.

Lemma load_start_clear c i j :
  load_start (clear_start c i) j = if decide (i = j) then None else load_start c j.
Proof.
  unfold load_start, clear_start. simpl. case_decide; subst.
  - destruct (decide (j < length (starts c))%nat).
    + by rewrite list_lookup_insert_eq.
    + by rewrite lookup_ge_None_2 by (rewrite length_insert; lia).
  - by rewrite list_lookup_insert_ne.
Qed.

Lemma load_start_post c i info j :
  (i < length (starts c))%nat ->
  load_start (mkPsci (mpidr_to_id c) (powered c) (<[i := Some info]> (starts c))) j =
  if decide (i = j) then Some info else load_start c j.
Proof.
  intros Hi. unfold load_start. simpl. case_decide; subst.
  - by rewrite list_lookup_insert_eq.
  - by rewrite list_lookup_insert_ne.
Qed.

Lemma check_id_Ok c i : check_id c i = Ok tt <-> (i < length (powered c))%nat.
Proof.
  unfold check_id. destruct (Nat.leb_spec (length (powered c)) i); split; try done; lia.
Qed.

(** Setting the power state of a vCPU with its slot cleared. *)
Lemma set_power_inv c i b :
  psci_inv c -> (i < length (powered c))%nat -> psci_inv (store_powered (clear_start c i) i b).
Proof.
  intros [Hl Hids Hon] Hi. split; simpl.
  - by rewrite !length_insert.
  - intros a j. rewrite length_insert. apply Hids.
  - intros j. rewrite load_powered_store by done.
    change (load_start (store_powered (clear_start c i) i b) j) with (load_start (clear_start c i) j).
    rewrite load_start_clear. case_decide; [done|]. apply Hon.
Qed.

Lemma state_of_set_power c i b j :
  (i < length (powered c))%nat ->
  state_of (store_powered (clear_start c i) i b) j =
  if decide (i = j) then (if b then On else Off) else state_of c j.
Proof.
  intros Hi. unfold state_of. rewrite load_powered_store by done.
  change (load_start (store_powered (clear_start c i) i b) j) with (load_start (clear_start c i) j).
  rewrite load_start_clear. case_decide; [|done]. by destruct b.
Qed.

Lemma psci_step_inv c o : psci_inv c -> psci_inv (psci_step c o).
Proof.
  intros Hinv. destruct o as [i m|i|i|t e ctx|i]; simpl.
  - unfold register_mpidr. destruct (check_id c i) as [[]|] eqn:Hi; simpl; [|done].
    apply check_id_Ok in Hi. destruct Hinv as [Hl Hids Hon]. split; simpl; [done| |done].
    intros a j. destruct (decide (a = mpidr_affinity m)) as [->|].
    + rewrite lookup_insert_eq. intros [= <-]. done.
    + rewrite lookup_insert_ne by done. apply Hids.
  - unfold mark_booted. destruct (check_id c i) as [[]|] eqn:Hi; simpl; [|done].
    apply set_power_inv; [done|by apply check_id_Ok].
  - unfold power_off, mark_off. destruct (check_id c i) as [[]|] eqn:Hi; simpl; [|done].
    apply set_power_inv; [done|by apply check_id_Ok].
  - unfold power_on, power_on_check, post_start. destruct (negb _); [done|].
    destruct (mpidr_to_id c !! _) as [i|] eqn:Hi; [|done].
    destruct (load_powered c i) eqn:Hp; [done|]. destruct (load_start c i) eqn:Hs; [done|].
    destruct Hinv as [Hl Hids Hon]. split; simpl; [by rewrite length_insert|done|].
    intros j Hj. rewrite load_start_post by (rewrite Hl; by eapply Hids).
    unfold load_powered in *. simpl in Hj. case_decide; subst; [congruence|]. by apply Hon.
  - unfold wait_for_power_on_timeout, take_start.
    destruct (check_id c i) as [[]|] eqn:Hi; simpl; [|done].
    destruct (load_start c i) eqn:Hs; [|by rewrite Hs]. apply set_power_inv; [done|by apply check_id_Ok].
Qed.

Lemma psci_run_inv c ops : psci_inv c -> psci_inv (foldl psci_step c ops).
Proof. revert c. induction ops; simpl; auto using psci_step_inv. Qed.

Lemma psci_new_inv n : psci_inv (new n).
Proof.
  split; unfold load_powered, load_start; simpl.
  - by rewrite !length_replicate.
  - done.
  - intros i. destruct (replicate n false !! i) as [b|] eqn:Hb; simpl; [|done].
    apply lookup_replicate in Hb as [-> _]. done.
Qed.

Definition psci_reachable (c : PsciCoordinator) : Prop :=
  exists n ops, foldl psci_step (new n) ops = c.

Lemma psci_reachable_inv c : psci_reachable c -> psci_inv c.
Proof. intros (n & ops & <-). apply psci_run_inv, psci_new_inv. Qed.

(** A call on vCPU [i] leaves the others and the registrations as they are. *)
Definition only_changes (i : nat) (c c' : PsciCoordinator) : Prop :=
  mpidr_to_id c' = mpidr_to_id c /\ forall j, j <> i -> state_of c' j = state_of c j.

Lemma set_power_only c i b : (i < length (powered c))%nat -> only_changes i c (store_powered (clear_start c i) i b).
Proof. intros Hi. split; [done|]. intros j Hj. rewrite state_of_set_power by done. by rewrite decide_False by done. Qed.

(** C39: when calls do not overlap, the coordinator implements the PSCI power states:
    for a registered vCPU, an aligned [CPU_ON] moves it from off to pending, and
    answers ON_PENDING or ALREADY_ON otherwise; [AFFINITY_INFO] reports the state;
    the waiting vCPU receives exactly the pending entry point and context and is then
    on; [CPU_OFF] turns it off.  Neither [CPU_ON] nor the wait nor [CPU_OFF] changes the
    state of another vCPU or the registrations. *)
Theorem psci_refines_power_states c a i e ctx :
  psci_reachable c -> mpidr_to_id c !! mpidr_affinity a = Some i -> e mod 4 = 0 ->
  (state_of (power_on c a e ctx).1 i, (power_on c a e ctx).2) =
    spec_cpu_on (state_of c i) (mkStartInfo e ctx) /\
  only_changes i c (power_on c a e ctx).1 /\
  affinity_info c a = spec_affinity (state_of c i) /\
  match wait_for_power_on_timeout c i (fun c => c) with
  | Ok (c', Some info) => state_of c i = Pending info /\ state_of c' i = On /\ only_changes i c c'
  | Ok (c', None) => c' = c /\ forall info, state_of c i <> Pending info
  | Err _ => False
  end /\
  exists c', power_off c i = Ok c' /\ state_of c' i = Off /\ only_changes i c c'.
Proof.
  intros Hinv%psci_reachable_inv Hi He. pose proof (ps_ids c Hinv _ _ Hi) as Hlt.
  pose proof (ps_len c Hinv) as Hlen. pose proof (ps_on c Hinv i) as Hon.
  assert (Hs : forall j, state_of c j = if load_powered c j then On else
    match load_start c j with Some info => Pending info | None => Off end) by reflexivity.
  split_and!.
  - unfold power_on, power_on_check, CPU_ON_ENTRY_ALIGN. rewrite He, Hi, Hs. simpl.
    destruct (load_powered c i) eqn:Hp; simpl; [by rewrite Hs, Hp|].
    unfold post_start. destruct (load_start c i) as [info|] eqn:Hst; simpl.
    + by rewrite Hs, Hp, Hst.
    + unfold state_of. rewrite load_start_post by lia. rewrite decide_True by done.
      unfold load_powered in *. simpl. by rewrite Hp.
  - unfold power_on, power_on_check, post_start, CPU_ON_ENTRY_ALIGN. rewrite He, Hi. simpl.
    destruct (load_powered c i); [done|]. destruct (load_start c i); [done|]. simpl. split; [done|]. intros j Hj.
    unfold state_of. rewrite load_start_post by lia. by rewrite decide_False by done.
  - unfold affinity_info, is_powered. rewrite Hi, Hs. destruct (load_powered c i); [done|].
    by destruct (load_start c i).
  - unfold wait_for_power_on_timeout, take_start. rewrite (proj2 (check_id_Ok c i)) by done. simpl.
    destruct (load_start c i) as [info|] eqn:Hst; simpl.
    + split; [|split; [rewrite state_of_set_power by done; by rewrite decide_True by done|by apply set_power_only]].
      rewrite Hs, Hst. by destruct (load_powered c i); [specialize (Hon eq_refl)|].
    + rewrite Hst. split; [done|]. intros info. rewrite Hs, Hst. by destruct (load_powered c i).
  - unfold power_off, mark_off. rewrite (proj2 (check_id_Ok c i)) by done. simpl. eexists.
    split; [done|]. split; [rewrite state_of_set_power by done; by rewrite decide_True by done|by apply set_power_only].
Qed.

Definition demo_psci_ops : list psci_op :=
  [OpRegister 0 0x80000000; OpBooted 0; OpRegister 1 0x80000001; OpOff 1; OpOn 1 0x1000 7].

Lemma psci_refines_power_states_witness :
  exists c, psci_reachable c /\ state_of c 1 = Pending (mkStartInfo 0x1000 7) /\
    affinity_info c 1 = spec_affinity (state_of c 1) /\
    (power_on c 1 0x2000 0).2 = PSCI_ON_PENDING.
Proof.
  exists (foldl psci_step (new 2) demo_psci_ops).
  assert (Hr : psci_reachable (foldl psci_step (new 2) demo_psci_ops))
    by (exists 2%nat, demo_psci_ops; reflexivity).
  destruct (psci_refines_power_states _ 1 1 0x2000 0 Hr) as (_ & _ & Ha & _);
    [vm_compute; reflexivity|reflexivity|].
  split_and!; [exact Hr|vm_compute; reflexivity|exact Ha|vm_compute; reflexivity].
Defined.

(** * Interleaved accesses *)

(** The accesses the threads make, in the order they take effect.  [power_on] is an
    [APost] after an [ALoad] that found the vCPU off; nothing ties the two together. *)
Inductive access : Type :=
  | APost (vcpu_id : nat) (info : StartInfo)
  | ATake (vcpu_id : nat)
  | AClear (vcpu_id : nat)
  | AStore (vcpu_id : nat) (b : bool).

(** One access: the coordinator after it, the start it accepted for vCPU [i] and the
    start it delivered to vCPU [i]. *)
Definition access_step (i : nat) (c : PsciCoordinator) (x : access)
  : PsciCoordinator * list StartInfo * list StartInfo :=
  match x with
  | APost j info =>
      let '(c, code) := post_start c j info in
      (c, (if bool_decide (j = i) && (code =? PSCI_SUCCESS) then [info] else []), [])
  | ATake j =>
      let '(c, got) := take_start c j in
      (c, [], match got with Some info => if bool_decide (j = i) then [info] else [] | None => [] end)
  | AClear j => (clear_start c j, [], [])
  | AStore j b => (store_powered c j b, [], [])
  end.

Fixpoint access_run (i : nat) (c : PsciCoordinator) (xs : list access)
  : PsciCoordinator * list StartInfo * list StartInfo :=
  match xs with
  | [] => (c, [], [])
  | x :: xs =>
      let '(c, acc, got) := access_step i c x in
      let '(c, acc', got') := access_run i c xs in
      (c, acc ++ acc', got ++ got')
  end.

Definition pending_list (c : PsciCoordinator) (i : nat) : list StartInfo :=
  match load_start c i with Some info => [info] | None => [] end.

Lemma load_start_mk c i info j :
  load_start c j = None ->
  pending_list (mkPsci (mpidr_to_id c) (powered c) (<[i := Some info]> (starts c))) j
    `sublist_of` (if bool_decide (i = j) then [info] else []).
Proof.
  intros Hj. unfold pending_list, load_start in *. simpl. case_bool_decide; subst.
  - destruct (decide (j < length (starts c))%nat).
    + by rewrite list_lookup_insert_eq.
    + rewrite lookup_ge_None_2 by (rewrite length_insert; lia). simpl. apply sublist_nil_l.
  - rewrite list_lookup_insert_ne by done. by rewrite Hj.
Qed.

(** What is delivered and still waiting was waiting before or accepted since. *)
Lemma access_step_sublist i c x :
  let '(c', acc, got) := access_step i c x in
  (got ++ pending_list c' i) `sublist_of` (pending_list c i ++ acc).
Proof.
  destruct x as [j info|j|j|j b]; simpl.
  - unfold post_start. destruct (load_start c j) as [old|] eqn:Hs; simpl.
    { rewrite andb_false_r, app_nil_r. done. }
    rewrite andb_true_r. destruct (decide (j = i)) as [->|Hne].
    + rewrite bool_decide_true by done. unfold pending_list at 2. rewrite Hs. simpl.
      pose proof (load_start_mk c i info i Hs) as H. by rewrite bool_decide_true in H by done.
    + rewrite bool_decide_false by done. rewrite app_nil_r. unfold pending_list, load_start. simpl.
      by rewrite list_lookup_insert_ne.
  - unfold take_start. destruct (load_start c j) as [info|] eqn:Hs; simpl.
    + rewrite app_nil_r.
      change (pending_list (store_powered (clear_start c j) j true) i)
        with (pending_list (clear_start c j) i). unfold pending_list. rewrite load_start_clear.
      case_bool_decide; subst; [rewrite decide_True by done|rewrite decide_False by done].
      * by rewrite Hs, app_nil_r.
      * done.
    + by rewrite app_nil_r.
  - rewrite app_nil_r. unfold pending_list. rewrite load_start_clear.
    case_decide; [apply sublist_nil_l|done].
  - by rewrite app_nil_r.
Qed.

Lemma access_run_sublist i xs : forall c,
  let '(c', acc, got) := access_run i c xs in
  (got ++ pending_list c' i) `sublist_of` (pending_list c i ++ acc).
Proof.
  induction xs as [|x xs IH]; intros c; simpl; [by rewrite app_nil_r|].
  pose proof (access_step_sublist i c x) as Hx. destruct (access_step i c x) as [[c1 acc] got].
  specialize (IH c1). destruct (access_run i c1 xs) as [[c2 acc'] got'].
  rewrite <- !app_assoc. etrans; [apply sublist_app; [reflexivity|exact IH]|].
  rewrite !app_assoc. apply sublist_app; [exact Hx|reflexivity].
Qed.

(** However the threads interleave, a vCPU is started only by requests that were
    answered SUCCESS, each at most once and in their order. *)
Lemma psci_starts_accepted i n xs :
  let '(_, accepted, delivered) := access_run i (new n) xs in delivered `sublist_of` accepted.
Proof.
  pose proof (access_run_sublist i xs (new n)) as H.
  destruct (access_run i (new n) xs) as [[c acc] got].
  assert (pending_list (new n) i = []) as Hp.
  { unfold pending_list, load_start. simpl. destruct (replicate n None !! i) as [b|] eqn:Hb; [|done].
    by apply lookup_replicate in Hb as [-> _]. }
  rewrite Hp in H. simpl in H. etrans; [|exact H]. apply sublist_inserts_r. done.
Qed.

(** The load of [powered] and the slot's critical section of [power_on] are not one
    atomic step: a second [CPU_ON] that checked before the vCPU consumed the first one
    is answered SUCCESS although the vCPU is on by then, and its start stays in the
    slot of a running vCPU. *)
Lemma power_on_race :
  let c := foldl psci_step (new 2) demo_psci_ops in
  power_on_check c 1 0x2000 = inr 1%nat /\
  (let '(c1, started) := take_start c 1 in
   let '(c2, code) := post_start c1 1 (mkStartInfo 0x2000 9) in
   started = Some (mkStartInfo 0x1000 7) /\ state_of c1 1 = On /\ code = PSCI_SUCCESS /\
   load_powered c2 1 = true /\ load_start c2 1 = Some (mkStartInfo 0x2000 9)) /\
  (power_on (take_start c 1).1 1 0x2000 9).2 = PSCI_ALREADY_ON.
Proof. vm_compute. auto 10. Qed.
