(* ===== verification/IoApic.v ===== *)
(** The userspace IOAPIC of the Windows backend ([vmm/src/hv/whp/ioapic.rs]).

    The hypervisor's [WHvRequestInterrupt] is not modelled: [trigger] returns the
    interrupt it requests, or nothing when the entry is masked. *)

From S2P Require Import Prelude Devices.

Definition IOAPIC_REG_ID : Z := 0x00.
Definition IOAPIC_REG_VER : Z := 0x01.
Definition IOAPIC_REG_REDIR_BASE : Z := 0x10.
Definition IOAPIC_REDIRECTION_ENTRIES : nat := 24.
Definition IOAPIC_REGSEL : Z := 0x00.
Definition IOAPIC_WINDOW : Z := 0x10.
Definition REDIR_MASKED : Z := Z.shiftl 1 16.

Record IoApic : Type := mkIoApic { selector : Z; apic_id : Z; redirection : list Z }.

Record IoApicState : Type := mkIoApicState {
  s_selector : Z; s_id : Z; s_redirection : list Z }.

Inductive interrupt_kind : Type := Fixed | LowestPriority | Nmi | Init | Sipi.

Record InterruptControl : Type := mkInterrupt {
  kind : interrupt_kind; logical_destination : bool; level_triggered : bool;
  destination : Z; vector : Z }.

Definition interrupt_type (delivery_mode : Z) : result string interrupt_kind :=
  match delivery_mode with
  | 0 => Ok Fixed
  | 1 => Ok LowestPriority
  | 4 => Ok Nmi
  | 5 => Ok Init
  | 6 => Ok Sipi
  | _ => Err "WHP IOAPIC delivery mode is unsupported"
  end.

Module IoApic.

Definition new : IoApic := mkIoApic 0 0 (replicate IOAPIC_REDIRECTION_ENTRIES REDIR_MASKED).

Definition pin_count : Z := Z.of_nat IOAPIC_REDIRECTION_ENTRIES.

Definition supports_gsi (gsi : Z) : bool := gsi <? pin_count.

Definition trigger (a : IoApic) (gsi : Z) : result string (option InterruptControl) :=
  entry <-? ok_or (redirection a !! Z.to_nat gsi) "WHP IOAPIC GSI is out of range" ;
  if negb (Z.land entry REDIR_MASKED =? 0) then Ok None
  else
    let vector := Z.land entry 0xff in
    if vector =? 0 then Err "WHP IOAPIC GSI has no vector"
    else
      let delivery_mode := Z.land (Z.shiftr entry 8) 0x7 in
      let destination_mode := Z.land (Z.shiftr entry 11) 0x1 in
      let trigger_mode := Z.land (Z.shiftr entry 15) 0x1 in
      let destination := Z.land (Z.shiftr entry 56) 0xff in
      k <-? interrupt_type delivery_mode ;
      Ok (Some (mkInterrupt k (destination_mode =? 1) (trigger_mode =? 1) destination vector)).

Definition save_state (a : IoApic) : IoApicState :=
  mkIoApicState (selector a) (apic_id a) (redirection a).

Definition restore_state (a : IoApic) (s : IoApicState) : result string IoApic :=
  if negb (length (s_redirection s) =? IOAPIC_REDIRECTION_ENTRIES)%nat
  then Err "WHP IOAPIC snapshot has the wrong number of entries"
  else Ok (mkIoApic (s_selector s) (s_id s) (s_redirection s)).

Definition read_reg (a : IoApic) (reg : Z) : Z :=
  if reg =? IOAPIC_REG_ID then wrap 32 (Z.shiftl (apic_id a) 24)
  else if reg =? IOAPIC_REG_VER then
    Z.lor 0x11 (Z.shiftl (Z.of_nat IOAPIC_REDIRECTION_ENTRIES - 1) 16)
  else if IOAPIC_REG_REDIR_BASE <=? reg then
    let offset := reg - IOAPIC_REG_REDIR_BASE in
    let index := Z.to_nat (offset / 2) in
    if (IOAPIC_REDIRECTION_ENTRIES <=? index)%nat then 0
    else
      let entry := nth index (redirection a) 0 in
      if Z.land offset 1 =? 0 then wrap 32 entry else wrap 32 (Z.shiftr entry 32)
  else 0.

Definition write_reg (a : IoApic) (reg value : Z) : IoApic :=
  if reg =? IOAPIC_REG_ID then
    mkIoApic (selector a) (Z.land (Z.shiftr value 24) 0x0f) (redirection a)
  else if IOAPIC_REG_REDIR_BASE <=? reg then
    let offset := reg - IOAPIC_REG_REDIR_BASE in
    let index := Z.to_nat (offset / 2) in
    if (IOAPIC_REDIRECTION_ENTRIES <=? index)%nat then a
    else
      let current := nth index (redirection a) 0 in
      let entry :=
        if Z.land offset 1 =? 0
        then Z.lor (Z.land current (2 ^ 64 - 2 ^ 32)) value
        else Z.lor (Z.land current 0xffffffff) (Z.shiftl value 32) in
      mkIoApic (selector a) (apic_id a) (<[index := entry]> (redirection a))
  else a.

(** [bytes[..len].copy_from_slice(&data[..len])] into four zero bytes. *)
Definition read_value (data : bytes) : Z := of_le_bytes (overlay (replicate 4 0) 0 data).

Definition read (a : IoApic) (offset : Z) (data : bytes) : IoApic * bytes :=
  let value := if offset =? IOAPIC_REGSEL then selector a
               else if offset =? IOAPIC_WINDOW then read_reg a (selector a)
               else 0 in
  (a, copy_from (le_bytes 4 value) 0 data 0).

Definition write (a : IoApic) (offset : Z) (data : bytes) : IoApic :=
  let value := read_value data in
  if offset =? IOAPIC_REGSEL then mkIoApic (Z.land value 0xff) (apic_id a) (redirection a)
  else if offset =? IOAPIC_WINDOW then write_reg a (selector a) value
  else a.

End IoApic.

#[global] Instance IoApic_device : BusDevice IoApic := {
  dev_read := IoApic.read; dev_write := IoApic.write }.

(** * Properties *)

Record ioapic_ok (a : IoApic) : Prop := {
  io_sel : 0 <= selector a < 256;
  io_id : 0 <= apic_id a < 16;
  io_len : length (redirection a) = IOAPIC_REDIRECTION_ENTRIES;
  io_width : Forall (in_width 64) (redirection a) }.

(** A guest's access to register [reg]: select it, then use the window. *)
Definition guest_write (a : IoApic) (reg value : Z) : IoApic :=
  dev_write (dev_write a IOAPIC_REGSEL (le_bytes 4 reg)) IOAPIC_WINDOW (le_bytes 4 value).

Definition guest_read (a : IoApic) (reg : Z) : Z :=
  of_le_bytes (dev_read (dev_write a IOAPIC_REGSEL (le_bytes 4 reg)) IOAPIC_WINDOW [0; 0; 0; 0]).2.

Lemma read_value_le_bytes x : in_width 32 x -> IoApic.read_value (le_bytes 4 x) = x.
Proof.
  intros Hx. unfold IoApic.read_value. rewrite overlay_all by (by rewrite length_le_bytes).
  by apply of_le_bytes_le_bytes.
Qed.

Lemma land_low n x : 0 <= n -> 0 <= x < 2 ^ n -> Z.land x (2 ^ n - 1) = x.
Proof. intros. rewrite land_mask by lia. by apply Z.mod_small. Qed.

(** The two halves of an entry. *)
Lemma lor_halves lo hi : in_width 32 lo -> in_width 32 hi -> Z.lor lo (Z.shiftl hi 32) = hi * 2 ^ 32 + lo.
Proof.
  intros Hlo Hhi. unfold in_width in *. rewrite Z.shiftl_mul_pow2 by lia.
  rewrite Z.add_comm, Z.add_nocarry_lxor, Z.lxor_lor; try done.
  all: rewrite <- Z.shiftl_mul_pow2 by lia; apply Z.bits_inj'; intros n Hn;
    rewrite Z.land_spec, Z.bits_0; destruct (Z.ltb_spec n 32);
    [rewrite Z.shiftl_spec_low by lia; by rewrite andb_false_r|];
    by rewrite (testbit_width 32 lo) by (done || lia).
Qed.

Lemma high_half entry : in_width 64 entry -> Z.land entry (2 ^ 64 - 2 ^ 32) = Z.shiftl (entry / 2 ^ 32) 32.
Proof.
  intros He. change (2 ^ 64 - 2 ^ 32) with (Z.shiftl (Z.ones 32) 32).
  apply Z.bits_inj'. intros n Hn. rewrite Z.land_spec.
  destruct (Z.ltb_spec n 32).
  - rewrite !Z.shiftl_spec_low by lia. by rewrite andb_false_r.
  - rewrite !Z.shiftl_spec by lia. rewrite <- Z.shiftr_div_pow2 by lia.
    rewrite Z.shiftr_spec by lia. replace (n - 32 + 32) with n by lia.
    destruct (Z.ltb_spec n 64).
    + rewrite Z.ones_spec_low by lia. by rewrite andb_true_r.
    + rewrite Z.ones_spec_high by lia. rewrite andb_false_r. symmetry. by apply (testbit_width 64); [lia|].
Qed.

Lemma write_entry_halves current lo hi :
  in_width 64 current -> in_width 32 lo -> in_width 32 hi ->
  Z.lor (Z.land (Z.lor (Z.land current (2 ^ 64 - 2 ^ 32)) lo) 0xffffffff) (Z.shiftl hi 32) =
  hi * 2 ^ 32 + lo.
Proof.
  intros Hc Hlo Hhi. rewrite <- lor_halves by done. f_equal.
  rewrite high_half, Z.lor_comm, lor_halves by (done || (unfold in_width in *; divlia)).
  change 0xffffffff with (2 ^ 32 - 1). rewrite land_mask by lia.
  unfold in_width in *. eval_pows. revert Hlo. eval_pows. intros. divlia.
Qed.

Lemma guest_select a reg : 0 <= reg < 256 ->
  dev_write a IOAPIC_REGSEL (le_bytes 4 reg) = mkIoApic reg (apic_id a) (redirection a).
Proof.
  intros Hr. unfold dev_write, IoApic_device. unfold IoApic.write.
  rewrite read_value_le_bytes by (unfold in_width; lia). simpl (_ =? _).
  change 0xff with (2 ^ 8 - 1). by rewrite land_low by lia.
Qed.

Lemma guest_write_reg a reg v : 0 <= reg < 256 -> in_width 32 v ->
  guest_write a reg v = IoApic.write_reg (mkIoApic reg (apic_id a) (redirection a)) reg v.
Proof.
  intros Hr Hv. unfold guest_write. rewrite guest_select by done. unfold dev_write, IoApic_device.
  unfold IoApic.write. by rewrite read_value_le_bytes.
Qed.

Lemma guest_read_reg a reg :
  0 <= reg < 256 -> in_width 32 (IoApic.read_reg a reg) ->
  guest_read a reg = IoApic.read_reg a reg.
Proof.
  intros Hr Hw. unfold guest_read. rewrite guest_select by done. unfold dev_read, IoApic_device, IoApic.read.
  change (IOAPIC_WINDOW =? IOAPIC_REGSEL) with false. change (IOAPIC_WINDOW =? IOAPIC_WINDOW) with true.
  cbn [selector snd]. change (IoApic.read_reg (mkIoApic reg (apic_id a) (redirection a)) reg) with (IoApic.read_reg a reg).
  set (v := IoApic.read_reg a reg) in *.
  assert (copy_from (le_bytes 4 v) 0 [0; 0; 0; 0] 0 = le_bytes 4 v) as -> by reflexivity.
  by apply of_le_bytes_le_bytes.
Qed.

(** The low and the high register of entry [i]. *)
Lemma write_reg_low a i v : (i < 24)%nat ->
  IoApic.write_reg a (16 + 2 * Z.of_nat i) v =
  mkIoApic (selector a) (apic_id a)
    (<[i := Z.lor (Z.land (nth i (redirection a) 0) (2 ^ 64 - 2 ^ 32)) v]> (redirection a)).
Proof.
  intros Hi. unfold IoApic.write_reg, IOAPIC_REG_ID, IOAPIC_REG_REDIR_BASE.
  rewrite (proj2 (Z.eqb_neq _ 0)), (proj2 (Z.leb_le 0x10 _)) by lia.
  replace (16 + 2 * Z.of_nat i - 0x10) with (Z.of_nat i * 2) by lia.
  rewrite Z.div_mul, Nat2Z.id, (proj2 (Nat.leb_gt _ _)) by (unfold IOAPIC_REDIRECTION_ENTRIES; lia).
  change 1 with (2 ^ 1 - 1). rewrite land_mask by lia. change (2 ^ 1) with 2.
  by rewrite Z.mod_mul by lia.
Qed.

Lemma write_reg_high a i v : (i < 24)%nat ->
  IoApic.write_reg a (17 + 2 * Z.of_nat i) v =
  mkIoApic (selector a) (apic_id a)
    (<[i := Z.lor (Z.land (nth i (redirection a) 0) 0xffffffff) (Z.shiftl v 32)]> (redirection a)).
Proof.
  intros Hi. unfold IoApic.write_reg, IOAPIC_REG_ID, IOAPIC_REG_REDIR_BASE.
  rewrite (proj2 (Z.eqb_neq _ 0)), (proj2 (Z.leb_le 0x10 _)) by lia.
  replace (17 + 2 * Z.of_nat i - 0x10) with (1 + Z.of_nat i * 2) by lia.
  rewrite Z.div_add by lia. change (1 / 2) with 0. rewrite Z.add_0_l, Nat2Z.id.
  rewrite (proj2 (Nat.leb_gt _ _)) by (unfold IOAPIC_REDIRECTION_ENTRIES; lia).
  change (Z.land (1 + Z.of_nat i * 2) 1) with (Z.land (1 + Z.of_nat i * 2) (2 ^ 1 - 1)).
  rewrite land_mask by lia. change (2 ^ 1) with 2. by rewrite Z.mod_add by lia.
Qed.

Lemma read_reg_low a i : (i < 24)%nat ->
  IoApic.read_reg a (16 + 2 * Z.of_nat i) = wrap 32 (nth i (redirection a) 0).
Proof.
  intros Hi. unfold IoApic.read_reg, IOAPIC_REG_ID, IOAPIC_REG_VER, IOAPIC_REG_REDIR_BASE.
  rewrite !(proj2 (Z.eqb_neq _ _)), (proj2 (Z.leb_le 0x10 _)) by lia.
  replace (16 + 2 * Z.of_nat i - 0x10) with (Z.of_nat i * 2) by lia.
  rewrite Z.div_mul, Nat2Z.id, (proj2 (Nat.leb_gt _ _)) by (unfold IOAPIC_REDIRECTION_ENTRIES; lia).
  change (Z.land (Z.of_nat i * 2) 1) with (Z.land (Z.of_nat i * 2) (2 ^ 1 - 1)).
  rewrite land_mask by lia. change (2 ^ 1) with 2. by rewrite Z.mod_mul by lia.
Qed.

Lemma read_reg_high a i : (i < 24)%nat ->
  IoApic.read_reg a (17 + 2 * Z.of_nat i) = wrap 32 (Z.shiftr (nth i (redirection a) 0) 32).
Proof.
  intros Hi. unfold IoApic.read_reg, IOAPIC_REG_ID, IOAPIC_REG_VER, IOAPIC_REG_REDIR_BASE.
  rewrite !(proj2 (Z.eqb_neq _ _)), (proj2 (Z.leb_le 0x10 _)) by lia.
  replace (17 + 2 * Z.of_nat i - 0x10) with (1 + Z.of_nat i * 2) by lia.
  rewrite Z.div_add by lia. change (1 / 2) with 0. rewrite Z.add_0_l, Nat2Z.id.
  rewrite (proj2 (Nat.leb_gt _ _)) by (unfold IOAPIC_REDIRECTION_ENTRIES; lia).
  change (Z.land (1 + Z.of_nat i * 2) 1) with (Z.land (1 + Z.of_nat i * 2) (2 ^ 1 - 1)).
  rewrite land_mask by lia. change (2 ^ 1) with 2. by rewrite Z.mod_add by lia.
Qed.

(** A guest programs entry [i] with its two halves. *)
Definition program_entry (a : IoApic) (i : nat) (lo hi : Z) : IoApic :=
  guest_write (guest_write a (16 + 2 * Z.of_nat i) lo) (17 + 2 * Z.of_nat i) hi.

Lemma nth_insert_eq i (l : list Z) x d : (i < length l)%nat -> nth i (<[i := x]> l) d = x.
Proof. intros. apply nth_lookup_Some. by apply list_lookup_insert_eq. Qed.

Lemma program_entry_redirection a i lo hi :
  ioapic_ok a -> (i < 24)%nat -> in_width 32 lo -> in_width 32 hi ->
  program_entry a i lo hi =
  mkIoApic (17 + 2 * Z.of_nat i) (apic_id a) (<[i := hi * 2 ^ 32 + lo]> (redirection a)).
Proof.
  intros Ha Hi Hlo Hhi. unfold program_entry.
  rewrite (guest_write_reg a), write_reg_low by (done || lia). cbn [selector apic_id redirection].
  rewrite guest_write_reg, write_reg_high by (done || lia). cbn [selector apic_id redirection].
  pose proof (io_len a Ha) as Hl. rewrite nth_insert_eq by (rewrite Hl; done).
  rewrite list_insert_insert_eq, write_entry_halves; try done.
  destruct (nth_lookup_or_length (redirection a) i 0) as [Hx|Hx].
  - pose proof (io_width a Ha) as Hw. rewrite Forall_lookup in Hw. by eapply Hw.
  - rewrite Hl in Hx. unfold IOAPIC_REDIRECTION_ENTRIES in Hx. lia.
Qed.

Lemma trigger_entry a i lo hi :
  redirection a !! i = Some (hi * 2 ^ 32 + lo) -> in_width 32 lo -> in_width 32 hi ->
  IoApic.trigger a (Z.of_nat i) =
  if Z.testbit lo 16 then Ok None
  else if lo mod 256 =? 0 then Err "WHP IOAPIC GSI has no vector"
  else k <-? interrupt_type (lo / 2 ^ 8 mod 8) ;
       Ok (Some (mkInterrupt k (Z.testbit lo 11) (Z.testbit lo 15) (hi / 2 ^ 24) (lo mod 256))).
Proof.
  intros He Hlo Hhi. unfold IoApic.trigger. rewrite Nat2Z.id, He. simpl ok_or. cbn [result_bind].
  set (e := hi * 2 ^ 32 + lo).
  assert (Hbit : forall n, 0 <= n < 32 -> Z.testbit e n = Z.testbit lo n).
  { intros n Hn. unfold e. rewrite <- lor_halves, Z.lor_spec by done.
    by rewrite Z.shiftl_spec_low, orb_false_r by lia. }
  assert (Hmask : (Z.land e REDIR_MASKED =? 0) = negb (Z.testbit lo 16)).
  { rewrite <- Hbit by lia. change REDIR_MASKED with (2 ^ 16). destruct (Z.testbit e 16) eqn:Hb; simpl.
    - apply Z.eqb_neq. intros H0. assert (Hc : Z.testbit (Z.land e (2 ^ 16)) 16 = true).
      + by rewrite Z.land_spec, Hb, Z.pow2_bits_true by lia.
      + by rewrite H0, Z.bits_0 in Hc.
    - apply Z.eqb_eq, Z.bits_inj'. intros n Hn. rewrite Z.land_spec, Z.bits_0.
      destruct (Z.eq_dec n 16) as [->|]; [by rewrite Hb|].
      by rewrite Z.pow2_bits_false, andb_false_r by lia. }
  rewrite Hmask, negb_involutive. destruct (Z.testbit lo 16); [done|].
  assert (Hone : forall n, 0 <= n < 32 -> (Z.land (Z.shiftr e n) 0x1 =? 1) = Z.testbit lo n).
  { intros n Hn. rewrite <- Hbit by lia. change 0x1 with (2 ^ 1 - 1).
    rewrite field_mask, Z.testbit_eqb by lia. done. }
  rewrite !Hone by lia. change 0xff with (2 ^ 8 - 1). change 0x7 with (2 ^ 3 - 1).
  rewrite !field_mask, land_mask by lia. unfold in_width in *.
  assert (e mod 2 ^ 8 = lo mod 256) as -> by (unfold e; eval_pows; divlia).
  assert (e / 2 ^ 8 mod 2 ^ 3 = lo / 2 ^ 8 mod 8) as ->
    by (unfold e; revert Hlo Hhi; eval_pows; intros; divlia).
  assert (e / 2 ^ 56 mod 2 ^ 8 = hi / 2 ^ 24) as ->
    by (unfold e; revert Hlo Hhi; eval_pows; intros; divlia). done.
Qed.

Lemma ioapic_new_ok : ioapic_ok IoApic.new.
Proof.
  split; [simpl; lia|simpl; lia|done|]. apply (Forall_replicate (in_width 64)). vm_compute. split; congruence.
Qed.

(** The IOAPIC does what a guest programs: after the two halves of a redirection
    entry are written through the window, they read back, every other entry is as
    before, and raising the pin injects exactly the programmed vector, delivery mode,
    destination and trigger mode, or nothing while the mask bit is set; the register
    file survives a snapshot. *)
Lemma ioapic_routes_programmed_entry a b i lo hi :
  ioapic_ok a -> (i < 24)%nat -> in_width 32 lo -> in_width 32 hi ->
  let a' := program_entry a i lo hi in
  guest_read a' (16 + 2 * Z.of_nat i) = lo /\ guest_read a' (17 + 2 * Z.of_nat i) = hi /\
  (forall j, j <> i -> redirection a' !! j = redirection a !! j) /\
  IoApic.trigger a' (Z.of_nat i) =
    (if Z.testbit lo 16 then Ok None
     else if lo mod 256 =? 0 then Err "WHP IOAPIC GSI has no vector"
     else k <-? interrupt_type (lo / 2 ^ 8 mod 8) ;
          Ok (Some (mkInterrupt k (Z.testbit lo 11) (Z.testbit lo 15) (hi / 2 ^ 24) (lo mod 256)))) /\
  IoApic.restore_state b (IoApic.save_state a') = Ok a'.
Proof.
  intros Ha Hi Hlo Hhi a'. unfold a'. rewrite program_entry_redirection by done.
  pose proof (io_len a Ha) as Hl. set (e := hi * 2 ^ 32 + lo).
  assert (Hlo' : wrap 32 e = lo) by (unfold wrap, e, in_width in *; eval_pows; revert Hlo; eval_pows; intros; divlia).
  assert (Hhi' : wrap 32 (Z.shiftr e 32) = hi).
  { unfold wrap, e, in_width in *. rewrite Z.shiftr_div_pow2 by lia. revert Hlo Hhi. eval_pows.
    intros. divlia. }
  split_and!.
  - rewrite guest_read_reg; rewrite ?read_reg_low by done; cbn [redirection];
      rewrite ?nth_insert_eq, ?Hlo' by (by rewrite Hl); done || lia.
  - rewrite guest_read_reg; rewrite ?read_reg_high by done; cbn [redirection];
      rewrite ?nth_insert_eq, ?Hhi' by (by rewrite Hl); done || lia.
  - intros j Hj. simpl. by rewrite list_lookup_insert_ne.
  - apply trigger_entry; [|done|done]. simpl. rewrite list_lookup_insert_eq; [done|by rewrite Hl].
  - unfold IoApic.restore_state, IoApic.save_state. cbn [s_redirection redirection].
    rewrite length_insert, Hl. done.
Qed.
