(* ===== verification/Virtio.v ===== *)
(** What the two virtio transports share ([vmm/src/virtio/mod.rs]): the interrupt
    status of a device and the [VirtioDevice] trait.

    Virtqueues come from the [virtio-queue] crate and guest memory from [vm-memory];
    they are parameters, through the operations the transports call. *)

From S2P Require Import Prelude Devices.

(** A virtqueue as plain data. *)
Record QueueState : Type := mkQueueState {
  qs_max_size : Z; qs_next_avail : Z; qs_next_used : Z; qs_event_idx_enabled : bool;
  qs_size : Z; qs_ready : bool; qs_desc_table : Z; qs_avail_ring : Z; qs_used_ring : Z }.

(** The operations of a virtqueue [Q] over guest memory [M].  A setter that the
    transports call ignoring its error leaves the queue as it was on an error. *)
Class QueueOps (Q M : Type) : Type := {
  queue_new : Z -> result string Q;
  q_max_size : Q -> Z;
  q_ready : Q -> bool;
  q_set_ready : Q -> bool -> Q;
  q_set_size : Q -> Z -> Q;
  q_try_set_size : Q -> Z -> Q;
  q_set_desc_table_address : Q -> option Z -> option Z -> Q;
  q_set_avail_ring_address : Q -> option Z -> option Z -> Q;
  q_set_used_ring_address : Q -> option Z -> option Z -> Q;
  q_state : Q -> QueueState;
  q_try_from : QueueState -> result string Q;
  q_is_valid : Q -> M -> bool }.

(** Saving and rebuilding a queue: a queue can be rebuilt from its own state, and a
    queue built from a state has that state. *)
Class QueueLaws (Q M : Type) `{QueueOps Q M} : Prop := {
  q_state_try_from : forall q : Q, is_ok (q_try_from (q_state q)) = true;
  q_try_from_state : forall s (q : Q), q_try_from s = Ok q -> q_state q = s }.

(** [trait VirtioDevice], as far as a transport uses it. *)
Class VirtioDevice (D Q M : Type) : Type := {
  v_device_type : D -> Z;
  v_queue_max_sizes : D -> list Z;
  v_features : D -> Z;
  v_ack_features : D -> Z -> D;
  v_read_config : D -> Z -> bytes -> bytes;
  v_write_config : D -> Z -> bytes -> D;
  v_activate : D -> M -> list Q -> D * result string unit;
  v_reset : D -> D * result string unit;
  v_queue_states : D -> list QueueState }.

(** A device offers the same features for its whole life: [features()] returns a field
    that is assigned at construction only. *)
Class FixedFeatures (D Q M : Type) `{VirtioDevice D Q M} : Prop := {
  features_ack : forall d v, v_features (v_ack_features d v) = v_features d;
  features_write : forall d o b, v_features (v_write_config d o b) = v_features d;
  features_activate : forall d m qs, v_features (v_activate d m qs).1 = v_features d;
  features_reset : forall d, v_features (v_reset d).1 = v_features d }.

Definition VIRTIO_MMIO_INT_VRING : Z := 0x1.
Definition VIRTIO_CONFIG_S_DRIVER_OK : Z := 4.
Definition VIRTIO_CONFIG_S_FAILED : Z := 128.

(** The [InterruptStatus] bits of a device; the interrupt line itself is the
    hypervisor's. *)
Record Interrupt : Type := mkInterruptStatus { i_status : Z }.

Module Interrupt.

Definition new : Interrupt := mkInterruptStatus 0.

Definition status (i : Interrupt) : Z := i_status i.

Definition ack (i : Interrupt) (value : Z) : Interrupt :=
  mkInterruptStatus (Z.ldiff (i_status i) value).

Definition restore_status (i : Interrupt) (value : Z) : Interrupt := mkInterruptStatus value.

Definition clear (i : Interrupt) : Interrupt := mkInterruptStatus 0.

Definition take_status (i : Interrupt) : Interrupt * Z := (mkInterruptStatus 0, i_status i).

(** [msi] is the answer of [notify_msi]; the result says whether the interrupt line
    is triggered. *)
Definition signal_used_queue (i : Interrupt) (msi : bool) : Interrupt * bool :=
  (mkInterruptStatus (Z.lor (i_status i) VIRTIO_MMIO_INT_VRING), negb msi).

End Interrupt.

(** [new_queues]: the first failure is returned. *)
Fixpoint new_queues {Q M} `{QueueOps Q M} (sizes : list Z) : result string (list Q) :=
  match sizes with
  | [] => Ok []
  | size :: sizes => q <-? queue_new size ; qs <-? new_queues sizes ; Ok (q :: qs)
  end.

(** [states.map(Queue::try_from).collect()]. *)
Fixpoint rebuild_queues {Q M} `{QueueOps Q M} (states : list QueueState) : result string (list Q) :=
  match states with
  | [] => Ok []
  | s :: states => q <-? q_try_from s ; qs <-? rebuild_queues states ; Ok (q :: qs)
  end.

(** [if live.is_empty() { own } else { live }]. *)
Definition saved_queues {D Q M} `{QueueOps Q M} `{VirtioDevice D Q M} (d : D) (qs : list Q)
  : list QueueState :=
  match v_queue_states d with
  | [] => map q_state qs
  | live => live
  end.

Section laws.
Context {Q M : Type} `{QueueLaws Q M}.

Lemma rebuild_queues_states states qs :
  rebuild_queues states = Ok qs -> map q_state qs = states.
Proof.
  revert qs. induction states as [|s states IH]; intros qs; simpl; [by intros [= <-]|].
  intros (q & Hq & (k & Hk & [= <-])%result_bind_Ok)%result_bind_Ok. simpl.
  by rewrite (q_try_from_state _ _ Hq), (IH k Hk).
Qed.

Lemma rebuild_queues_Ok qs : exists qs', rebuild_queues (map q_state qs) = Ok qs'.
Proof.
  induction qs as [|q qs [k IH]]; simpl; [by exists []|].
  pose proof (q_state_try_from q) as Hq. destruct (q_try_from (q_state q)) as [q'|] eqn:E; [|done].
  simpl. rewrite IH. simpl. by exists (q' :: k).
Qed.

End laws.

(** Feature words: the accepted features stay inside the offered ones. *)
Definition within (x y : Z) : Prop := Z.land x y = x.

(** [acked = (acked & !mask) | ((value << shift) & offered & mask)]. *)
Definition ack_word (acked offered value select : Z) : Z :=
  let shift := 32 * select in
  let mask := wrap 64 (Z.shiftl 0xffffffff shift) in
  let selected := Z.land (Z.land (wrap 64 (Z.shiftl value shift)) offered) mask in
  Z.lor (Z.ldiff acked mask) selected.

Lemma within_spec x y : within x y <-> forall n, 0 <= n -> Z.testbit x n = true -> Z.testbit y n = true.
Proof.
  unfold within. split.
  - intros Hx n Hn Hb. rewrite <- Hx, Z.land_spec in Hb. by apply andb_true_iff in Hb as [_ ?].
  - intros Hb. apply Z.bits_inj'. intros n Hn. rewrite Z.land_spec.
    destruct (Z.testbit x n) eqn:Hx; [|done]. by rewrite (Hb n Hn Hx).
Qed.

Lemma ack_word_within acked offered value select :
  within acked offered -> within (ack_word acked offered value select) offered.
Proof.
  rewrite !within_spec. intros Ha n Hn. unfold ack_word.
  rewrite Z.lor_spec, Z.ldiff_spec, !Z.land_spec. rewrite orb_true_iff, !andb_true_iff.
  intros [[Hb _]|[[_ Hb] _]]; auto.
Qed.

Lemma land_in_width w x y : 0 <= w -> in_width w y -> in_width w (Z.land x y).
Proof.
  intros Hw Hy. assert (Z.land x y mod 2 ^ w = Z.land x y) as <-; [|apply Z.mod_pos_bound; lia].
  apply Z.bits_inj'. intros n Hn. destruct (Z.ltb_spec n w).
  - by rewrite Z.mod_pow2_bits_low by lia.
  - rewrite Z.mod_pow2_bits_high by lia. rewrite Z.land_spec, (testbit_width w y) by (done || lia).
    by rewrite andb_false_r.
Qed.

Lemma within_zero y : within 0 y.
Proof. apply Z.land_0_l. Qed.

(** Bit [n] of an accepted word: the selected half is replaced, the other kept. *)
Lemma ack_word_bit acked offered value select n :
  0 <= select < 2 -> in_width 32 value -> 0 <= n < 64 ->
  Z.testbit (ack_word acked offered value select) n =
  if (32 * select <=? n) && (n <? 32 * select + 32)
  then Z.testbit value (n - 32 * select) && Z.testbit offered n
  else Z.testbit acked n.
Proof.
  intros Hs Hv Hn. unfold ack_word, wrap.
  rewrite Z.lor_spec, Z.ldiff_spec, !Z.land_spec, !Z.mod_pow2_bits_low, !Z.shiftl_spec by lia.
  change 0xffffffff with (Z.ones 32).
  destruct (Z.leb_spec (32 * select) n); simpl.
  - destruct (Z.ltb_spec n (32 * select + 32)).
    + rewrite Z.ones_spec_low by lia. by rewrite andb_false_r, andb_true_r.
    + rewrite Z.ones_spec_high by lia. by rewrite andb_true_r, andb_false_r, orb_false_r.
  - rewrite (Z.testbit_neg_r (Z.ones 32)) by lia. by rewrite andb_true_r, andb_false_r, orb_false_r.
Qed.

(** ** A concrete virtqueue

    Queues as plain data over a memory of given size, to run the transports on: a size
    is a power of two up to the maximum, and a queue is valid when it is ready and its
    rings lie inside the memory. *)
Module PlainQueue.

Definition is_pow2 (n : Z) : bool := (0 <? n) && (Z.land n (n - 1) =? 0).

Definition set_words (old : Z) (lo hi : option Z) : Z :=
  default (old mod 2 ^ 32) lo + 2 ^ 32 * default (old / 2 ^ 32) hi.

Definition set_size (q : QueueState) (n : Z) : QueueState :=
  if is_pow2 n && (n <=? qs_max_size q) then
    mkQueueState (qs_max_size q) (qs_next_avail q) (qs_next_used q) (qs_event_idx_enabled q) n
      (qs_ready q) (qs_desc_table q) (qs_avail_ring q) (qs_used_ring q)
  else q.

#[export] Instance ops : QueueOps QueueState Z := {
  queue_new n := if is_pow2 n then Ok (mkQueueState n 0 0 false n false 0 0 0)
                 else Err "invalid queue size";
  q_max_size := qs_max_size;
  q_ready := qs_ready;
  q_set_ready q b :=
    mkQueueState (qs_max_size q) (qs_next_avail q) (qs_next_used q) (qs_event_idx_enabled q)
      (qs_size q) b (qs_desc_table q) (qs_avail_ring q) (qs_used_ring q);
  q_set_size := set_size;
  q_try_set_size := set_size;
  q_set_desc_table_address q lo hi :=
    mkQueueState (qs_max_size q) (qs_next_avail q) (qs_next_used q) (qs_event_idx_enabled q)
      (qs_size q) (qs_ready q) (set_words (qs_desc_table q) lo hi) (qs_avail_ring q) (qs_used_ring q);
  q_set_avail_ring_address q lo hi :=
    mkQueueState (qs_max_size q) (qs_next_avail q) (qs_next_used q) (qs_event_idx_enabled q)
      (qs_size q) (qs_ready q) (qs_desc_table q) (set_words (qs_avail_ring q) lo hi) (qs_used_ring q);
  q_set_used_ring_address q lo hi :=
    mkQueueState (qs_max_size q) (qs_next_avail q) (qs_next_used q) (qs_event_idx_enabled q)
      (qs_size q) (qs_ready q) (qs_desc_table q) (qs_avail_ring q) (set_words (qs_used_ring q) lo hi);
  q_state q := q;
  q_try_from q := Ok q;
  q_is_valid q m :=
    qs_ready q && (qs_desc_table q + 16 * qs_size q <=? m) &&
    (qs_avail_ring q + 6 + 2 * qs_size q <=? m) && (qs_used_ring q + 6 + 8 * qs_size q <=? m) }.

#[export] Instance laws : QueueLaws QueueState Z.
Proof. split; [done|]. by intros s q [= ->]. Qed.

End PlainQueue.
