(* ===== verification/VirtioRng.v ===== *)
(** The virtio-rng entropy device ([vmm/src/virtio/rng.rs]): its control plane, an
    instance of [VirtioDevice], and the pass that fills the guest's buffers.

    The entropy source is a parameter: [read n] delivers at most [n] bytes, as
    [Read::read] does.  The interrupt handle kept from [activate] is the transport's. *)

From S2P Require Import Prelude Devices Virtio.

Definition QUEUE_SIZE : Z := 64.
Definition NUM_QUEUES : nat := 1.
Definition ENTROPY_CHUNK : Z := 4096.
Definition QUEUE_PASS_BUDGET : nat := 256.
Definition VIRTIO_F_VERSION_1 : Z := 32.
Definition VIRTIO_ID_RNG : Z := 4.

Record Rng (Q M : Type) : Type := mkRng {
  features : Z; rng_acked_features : Z; queue_sizes : list Z;
  rng_mem : option M; rng_queue : option Q }.
Arguments mkRng {Q M}.
Arguments features {Q M}.
Arguments rng_acked_features {Q M}.
Arguments queue_sizes {Q M}.
Arguments rng_mem {Q M}.
Arguments rng_queue {Q M}.

Module Rng.

Section control.
Context {Q M : Type} `{QueueOps Q M}.

Definition new : Rng Q M :=
  mkRng (Z.shiftl 1 VIRTIO_F_VERSION_1) 0 (replicate NUM_QUEUES QUEUE_SIZE) None None.

Definition ack_features (d : Rng Q M) (value : Z) : Rng Q M :=
  mkRng (features d) (Z.land value (features d)) (queue_sizes d) (rng_mem d) (rng_queue d).

Definition activate (d : Rng Q M) (m : M) (qs : list Q) : Rng Q M * result string unit :=
  (mkRng (features d) (rng_acked_features d) (queue_sizes d) (Some m) (head qs), Ok tt).

Definition reset (d : Rng Q M) : Rng Q M * result string unit :=
  (mkRng (features d) 0 (queue_sizes d) None None, Ok tt).

Definition queue_states (d : Rng Q M) : list QueueState :=
  match rng_queue d with Some q => [q_state q] | None => [] end.

#[global] Instance device : VirtioDevice (Rng Q M) Q M := {
  v_device_type _ := VIRTIO_ID_RNG;
  v_queue_max_sizes := queue_sizes;
  v_features := features;
  v_ack_features := ack_features;
  v_read_config _ _ data := fill 0 data;
  v_write_config d _ _ := d;
  v_activate := activate;
  v_reset := reset;
  v_queue_states := queue_states }.

#[global] Instance fixed_features : FixedFeatures (Rng Q M) Q M.
Proof. by split. Qed.

End control.

End Rng.

(** ** The request queue *)

Record Descriptor : Type := mkDescriptor { d_addr : Z; d_len : Z; d_write_only : bool }.

(** The data-plane operations of queues and guest memory. *)
Class QueueData (Q M : Type) : Type := {
  q_pop_descriptor_chain : Q -> M -> option (Q * (Z * list Descriptor));
  q_add_used : Q -> M -> Z -> Z -> result string (Q * M);
  m_check_range : M -> Z -> Z -> bool;
  m_write_slice : M -> bytes -> Z -> result string M }.

Section requests.
Context {Q M S : Type} `{QueueData Q M} (read : S -> Z -> S * result string bytes).

Definition descriptor_range_valid (m : M) (addr len : Z) : bool :=
  (len =? 0) || m_check_range m addr len.

(** The state of a pass: the entropy source, the host buffer and guest memory. *)
Record fill_state : Type := mkFill { src : S; buf : bytes; gmem : M }.

(** The inner [while remaining > 0]; every iteration takes at least one byte, so
    [remaining] is enough fuel. *)
Fixpoint fill_descriptor (fuel : nat) (s : fill_state) (addr remaining written : Z)
  : fill_state * Z :=
  match fuel with
  | O => (s, written)
  | Datatypes.S fuel =>
      if 0 <? remaining then
        let take := Z.min remaining ENTROPY_CHUNK in
        let '(source, r) := read (src s) take in
        match r with
        | Err _ => (mkFill source (buf s) (gmem s), written)
        | Ok got =>
            let buffer := overlay (buf s) 0 (List.firstn (Z.to_nat take) got) in
            match m_write_slice (gmem s) (List.firstn (Z.to_nat take) buffer) addr with
            | Err _ => (mkFill source buffer (gmem s), written)
            | Ok m =>
                let s := mkFill source buffer m in
                match checked_add 64 addr take, checked_add 32 written take with
                | Some addr, Some written => fill_descriptor fuel s addr (remaining - take) written
                | _, _ => (s, written)
                end
            end
        end
      else (s, written)
  end.

(** The [for d in chain]. *)
Fixpoint fill_chain (chain : list Descriptor) (s : fill_state) (written : Z) : fill_state * Z :=
  match chain with
  | [] => (s, written)
  | d :: chain =>
      if negb (d_write_only d) || negb (descriptor_range_valid (gmem s) (d_addr d) (d_len d))
      then (s, written)
      else
        let '(s, written) := fill_descriptor (Z.to_nat (d_len d)) s (d_addr d) (d_len d) written in
        fill_chain chain s written
  end.

(** The outer [while *budget != 0]: the queue, the state, the budget left and whether
    a buffer was used. *)
Fixpoint process_requestq (budget : nat) (q : Q) (s : fill_state) (used : bool)
  : result string (Q * fill_state * nat * bool) :=
  match budget with
  | O => Ok (q, s, O, used)
  | Datatypes.S rest =>
      match q_pop_descriptor_chain q (gmem s) with
      | None => Ok (q, s, budget, used)
      | Some (q, (head_index, chain)) =>
          let '(s, written) := fill_chain chain s 0 in
          '(q, m) <-? q_add_used q (gmem s) head_index written ;
          process_requestq rest q (mkFill (src s) (buf s) m) true
      end
  end.

Inductive QueuePass : Type := Drained | Budgeted.

(** [process_queue_notify]: the pass and whether the interrupt is raised. *)
Definition process_queue_notify (q : Q) (s : fill_state)
  : result string (Q * fill_state * bool * QueuePass) :=
  '(q, s, budget, used) <-? process_requestq QUEUE_PASS_BUDGET q s false ;
  Ok (q, s, used, match budget with O => Budgeted | _ => Drained end).

(** *** Properties *)

Lemma fill_descriptor_written fuel : forall s addr remaining written,
  0 <= remaining -> 0 <= written -> written < 2 ^ 32 ->
  let written' := (fill_descriptor fuel s addr remaining written).2 in
  written <= written' <= written + remaining /\ written' < 2 ^ 32.
Proof.
  induction fuel as [|fuel IH]; intros s addr remaining written Hr Hw Hlt; simpl; [lia|].
  destruct (Z.ltb_spec 0 remaining); [|simpl; lia].
  destruct (read (src s) (Z.min remaining ENTROPY_CHUNK)) as [source [got|e]]; [|simpl; lia].
  destruct (m_write_slice _ _ _) as [m|e]; [|simpl; lia]. unfold checked_add, ENTROPY_CHUNK.
  destruct (Z.ltb_spec (addr + Z.min remaining 4096) (2 ^ 64)); [|simpl; lia].
  destruct (Z.ltb_spec (written + Z.min remaining 4096) (2 ^ 32)); [|simpl; lia].
  match goal with |- context [fill_descriptor fuel ?s' ?a ?r ?w] =>
    pose proof (IH s' a r w) as IHs end. simpl in IHs. lia.
Qed.

(** The length reported for a chain never exceeds the room its leading write-only
    descriptors have, and fits the used ring's field. *)
Lemma fill_chain_written chain : forall s written,
  Forall (fun d => 0 <= d_len d) chain -> 0 <= written < 2 ^ 32 ->
  let written' := (fill_chain chain s written).2 in
  written <= written' < 2 ^ 32 /\
  written' <= written + foldr Z.add 0 (map d_len (List.filter d_write_only chain)).
Proof.
  induction chain as [|d chain IH]; intros s written Hl Hw; simpl; [lia|].
  apply Forall_cons in Hl as [Hd Hl].
  assert (Hpos : 0 <= foldr Z.add 0 (map d_len (List.filter d_write_only chain))).
  { clear -Hl. induction Hl as [|x l Hx Hl IHl]; simpl; [lia|]. destruct (d_write_only x); simpl; lia. }
  destruct (d_write_only d) eqn:Hwo; simpl; [|lia].
  destruct (negb _); [simpl; lia|].
  pose proof (fill_descriptor_written (Z.to_nat (d_len d)) s (d_addr d) (d_len d) written) as Hf.
  destruct (fill_descriptor _ _ _ _ _) as [s' w']. simpl in Hf.
  destruct (IH s' w') as [H1 H2]; [done|lia|]. lia.
Qed.

End requests.

(** A short read of the entropy source is not noticed: [fill_entropy] returns how
    many bytes it delivered and the loop ignores it, so whatever the source delivers
    in one read of a chunk, the guest is given the whole chunk, the rest of it being
    the old content of the host buffer, and is told that all of it was written. *)
Lemma short_read_gives_stale_bytes {Q M S} `{QueueData Q M}
    (read : S -> Z -> S * result string bytes) source source' buffer m m' addr n got :
  0 < n <= ENTROPY_CHUNK -> length buffer = Z.to_nat ENTROPY_CHUNK ->
  read source n = (source', Ok got) -> Z.of_nat (length got) < n ->
  m_write_slice m (got ++ take (Z.to_nat n - length got) (drop (length got) buffer)) addr = Ok m' ->
  addr + n < 2 ^ 64 ->
  let '(s, written) := fill_descriptor read (Z.to_nat n) (mkFill source buffer m) addr n 0 in
  gmem s = m' /\ written = n.
Proof.
  intros Hn Hb Hr Hshort Hm Ha. destruct (Z.to_nat n) as [|fuel] eqn:Hf; [lia|].
  cbn [fill_descriptor src buf gmem]. rewrite (proj2 (Z.ltb_lt 0 n)) by lia.
  replace (Z.min n ENTROPY_CHUNK) with n by lia. rewrite Hr, Hf.
  rewrite (take_ge got) by lia.
  assert (Hov : overlay buffer 0 got = got ++ drop (length got) buffer).
  { unfold overlay. rewrite (proj2 (Z.ltb_ge _ _)) by lia. simpl.
    rewrite Nat.sub_0_r, Nat.min_r, (take_ge got) by (unfold ENTROPY_CHUNK in *; lia). done. }
  rewrite Hov, take_app, (take_ge got) by lia. rewrite Hm.
  unfold checked_add. rewrite (proj2 (Z.ltb_lt (addr + n) _)) by lia.
  rewrite (proj2 (Z.ltb_lt (0 + n) _)) by (unfold ENTROPY_CHUNK in *; lia).
  destruct fuel; cbn [fill_descriptor]; [done|].
  rewrite (proj2 (Z.ltb_ge 0 (n - n))) by lia. done.
Qed.

#[local] Instance demo_data : QueueData unit (list Z) := {
  q_pop_descriptor_chain _ _ := None;
  q_add_used _ _ _ _ := Err "unused";
  m_check_range m addr len := addr + len <=? Z.of_nat (length m);
  m_write_slice m b addr := Ok (overlay m addr b) }.
