(* ===== verification/VirtioMmio.v ===== *)
(** The virtio-mmio transport ([vmm/src/virtio/mmio.rs]): the register window of a
    device, feature negotiation, queue set-up, activation, reset, and the save and
    restore of its control-plane state. *)

From S2P Require Import Prelude Devices Virtio VirtioRng.

Definition MAGIC_VALUE : Z := 0x000.
Definition VERSION : Z := 0x004.
Definition DEVICE_ID : Z := 0x008.
Definition VENDOR_ID : Z := 0x00c.
Definition DEVICE_FEATURES : Z := 0x010.
Definition DEVICE_FEATURES_SEL : Z := 0x014.
Definition DRIVER_FEATURES : Z := 0x020.
Definition DRIVER_FEATURES_SEL : Z := 0x024.
Definition QUEUE_SEL : Z := 0x030.
Definition QUEUE_NUM_MAX : Z := 0x034.
Definition QUEUE_NUM : Z := 0x038.
Definition QUEUE_READY : Z := 0x044.
Definition INTERRUPT_STATUS : Z := 0x060.
Definition INTERRUPT_ACK : Z := 0x064.
Definition STATUS : Z := 0x070.
Definition QUEUE_DESC_LOW : Z := 0x080.
Definition QUEUE_DESC_HIGH : Z := 0x084.
Definition QUEUE_AVAIL_LOW : Z := 0x090.
Definition QUEUE_AVAIL_HIGH : Z := 0x094.
Definition QUEUE_USED_LOW : Z := 0x0a0.
Definition QUEUE_USED_HIGH : Z := 0x0a4.
Definition SHM_LEN_LOW : Z := 0x0b0.
Definition SHM_LEN_HIGH : Z := 0x0b4.
Definition CONFIG_SPACE : Z := 0x100.
Definition MMIO_MAGIC : Z := 0x74726976.
Definition MMIO_VERSION : Z := 2.
Definition MMIO_VENDOR : Z := 0x4d564b56.

(** [buf[..n].copy_from_slice(&data[..n])] into four zero bytes. *)
Definition read_le (data : bytes) : Z := of_le_bytes (overlay (replicate 4 0) 0 data).

(** The first four bytes of the buffer are replaced, the rest kept. *)
Definition write_le (data : bytes) (value : Z) : bytes :=
  let n := (length data `min` 4)%nat in take n (le_bytes 4 value) ++ drop n data.

Record MmioTransport (D Q M : Type) : Type := mkMmio {
  device : D; mem : M; interrupt : Interrupt; device_type : Z; device_features : Z;
  queues : list Q; queue_select : Z; device_features_select : Z; driver_features_select : Z;
  acked_features : Z; status : Z; activated : bool }.
Arguments mkMmio {D Q M}.
Arguments device {D Q M}.
Arguments mem {D Q M}.
Arguments interrupt {D Q M}.
Arguments device_type {D Q M}.
Arguments device_features {D Q M}.
Arguments queues {D Q M}.
Arguments queue_select {D Q M}.
Arguments device_features_select {D Q M}.
Arguments driver_features_select {D Q M}.
Arguments acked_features {D Q M}.
Arguments status {D Q M}.
Arguments activated {D Q M}.

Record MmioState : Type := mkMmioState {
  ms_device_features_select : Z; ms_driver_features_select : Z; ms_acked_features : Z;
  ms_status : Z; ms_activated : bool; ms_queues : list QueueState }.

Module MmioTransport.

Section transport.
Context {D Q M : Type} `{QueueOps Q M} `{VirtioDevice D Q M}.

Abbreviation T := (MmioTransport D Q M).

(** Assignments to one field. *)
Definition set_device (t : T) (d : D) : T :=
  mkMmio d (mem t) (interrupt t) (device_type t) (device_features t) (queues t) (queue_select t)
    (device_features_select t) (driver_features_select t) (acked_features t) (status t) (activated t).
Definition set_interrupt (t : T) (i : Interrupt) : T :=
  mkMmio (device t) (mem t) i (device_type t) (device_features t) (queues t) (queue_select t)
    (device_features_select t) (driver_features_select t) (acked_features t) (status t) (activated t).
Definition set_device_features (t : T) (f : Z) : T :=
  mkMmio (device t) (mem t) (interrupt t) (device_type t) f (queues t) (queue_select t)
    (device_features_select t) (driver_features_select t) (acked_features t) (status t) (activated t).
Definition set_queues (t : T) (qs : list Q) : T :=
  mkMmio (device t) (mem t) (interrupt t) (device_type t) (device_features t) qs (queue_select t)
    (device_features_select t) (driver_features_select t) (acked_features t) (status t) (activated t).
Definition set_selects (t : T) (queue_sel device_sel driver_sel : Z) : T :=
  mkMmio (device t) (mem t) (interrupt t) (device_type t) (device_features t) (queues t) queue_sel
    device_sel driver_sel (acked_features t) (status t) (activated t).
Definition set_acked (t : T) (a : Z) : T :=
  mkMmio (device t) (mem t) (interrupt t) (device_type t) (device_features t) (queues t) (queue_select t)
    (device_features_select t) (driver_features_select t) a (status t) (activated t).
Definition set_status_field (t : T) (s : Z) : T :=
  mkMmio (device t) (mem t) (interrupt t) (device_type t) (device_features t) (queues t) (queue_select t)
    (device_features_select t) (driver_features_select t) (acked_features t) s (activated t).
Definition set_activated (t : T) (b : bool) : T :=
  mkMmio (device t) (mem t) (interrupt t) (device_type t) (device_features t) (queues t) (queue_select t)
    (device_features_select t) (driver_features_select t) (acked_features t) (status t) b.

Definition new (d : D) (m : M) (i : Interrupt) : result string T :=
  qs <-? new_queues (v_queue_max_sizes d) ;
  Ok (mkMmio d m i (v_device_type d) (v_features d) qs 0 0 0 0 0 false).

Definition save (t : T) : MmioState :=
  mkMmioState (device_features_select t) (driver_features_select t) (acked_features t) (status t)
    (activated t) (saved_queues (device t) (queues t)).

Definition from_state (d : D) (m : M) (i : Interrupt) (s : MmioState) : result string T :=
  qs <-? rebuild_queues (ms_queues s) ;
  Ok (mkMmio d m i (v_device_type d) (v_features d) qs 0 (ms_device_features_select s)
        (ms_driver_features_select s) (ms_acked_features s) (ms_status s) false).

Definition with_queue {R} (t : T) (f : Q -> R) (default : R) : R :=
  match queues t !! Z.to_nat (queue_select t) with Some q => f q | None => default end.

Definition with_queue_mut (t : T) (f : Q -> Q) : T :=
  match queues t !! Z.to_nat (queue_select t) with
  | Some q => set_queues t (<[Z.to_nat (queue_select t) := f q]> (queues t))
  | None => t
  end.

(** A failed device reset or queue allocation returns early, with what was assigned
    by then. *)
Definition reset (t : T) : T * result string unit :=
  match v_reset (device t) with
  | (d, Err e) => (set_device t d, Err e)
  | (d, Ok _) =>
      let t := set_device_features (set_device t d) (v_features d) in
      match new_queues (v_queue_max_sizes d) with
      | Err e => (t, Err e)
      | Ok qs =>
          let t := set_selects (set_queues t qs) 0 0 0 in
          let t := set_activated (set_status_field (set_acked t 0) 0) false in
          (set_interrupt t (Interrupt.clear (interrupt t)), Ok tt)
      end
  end.

(** [queues_valid]: every queue passes [is_valid]. *)
Definition queues_valid (t : T) : bool := forallb (fun q => q_is_valid q (mem t)) (queues t).

Definition activate (t : T) : T :=
  if negb (queues_valid t) then set_status_field t (Z.lor (status t) VIRTIO_CONFIG_S_FAILED)
  else
    let '(d, r) := v_activate (v_ack_features (device t) (acked_features t)) (mem t) (queues t) in
    let t := set_device (set_queues t []) d in
    match r with
    | Ok _ => set_activated t true
    | Err _ => set_status_field t (Z.lor (status t) VIRTIO_CONFIG_S_FAILED)
    end.

Definition set_status (t : T) (value : Z) : T :=
  if value =? 0 then
    match reset t with
    | (t, Ok _) => t
    | (t, Err _) => set_activated (set_status_field t VIRTIO_CONFIG_S_FAILED) false
    end
  else
    let t := set_status_field t value in
    if negb (Z.land value VIRTIO_CONFIG_S_DRIVER_OK =? 0) && negb (activated t) then activate t else t.

Definition reactivate (t : T) : T * result string unit :=
  if negb (queues_valid t) then (t, Err "virtio device restore refused invalid queue configuration")
  else
    let '(d, r) := v_activate (v_ack_features (device t) (acked_features t)) (mem t) (queues t) in
    let t := set_device (set_queues t []) d in
    match r with
    | Ok _ => (set_activated t true, Ok tt)
    | Err e => (t, Err e)
    end.

Definition read (t : T) (offset : Z) (data : bytes) : bytes :=
  if CONFIG_SPACE <=? offset then v_read_config (device t) (offset - CONFIG_SPACE) data
  else
    let value :=
      if offset =? MAGIC_VALUE then MMIO_MAGIC
      else if offset =? VERSION then MMIO_VERSION
      else if offset =? DEVICE_ID then device_type t
      else if offset =? VENDOR_ID then MMIO_VENDOR
      else if offset =? DEVICE_FEATURES then
        match device_features_select t with
        | 0 => wrap 32 (device_features t)
        | 1 => wrap 32 (Z.shiftr (device_features t) 32)
        | _ => 0
        end
      else if offset =? QUEUE_NUM_MAX then with_queue t q_max_size 0
      else if offset =? QUEUE_READY then with_queue t (fun q => Z.b2z (q_ready q)) 0
      else if offset =? INTERRUPT_STATUS then Interrupt.status (interrupt t)
      else if offset =? STATUS then status t
      else if (offset =? SHM_LEN_LOW) || (offset =? SHM_LEN_HIGH) then 0xffffffff
      else 0 in
    write_le data value.

Definition write (t : T) (offset : Z) (data : bytes) : T :=
  if CONFIG_SPACE <=? offset then
    set_device t (v_write_config (device t) (offset - CONFIG_SPACE) data)
  else
    let value := read_le data in
    if offset =? DEVICE_FEATURES_SEL then
      set_selects t (queue_select t) value (driver_features_select t)
    else if (offset =? DRIVER_FEATURES) && (driver_features_select t <? 2) then
      set_acked t (ack_word (acked_features t) (device_features t) value (driver_features_select t))
    else if offset =? DRIVER_FEATURES_SEL then
      set_selects t (queue_select t) (device_features_select t) value
    else if offset =? QUEUE_SEL then
      set_selects t value (device_features_select t) (driver_features_select t)
    else if offset =? QUEUE_NUM then
      with_queue_mut t (fun q => if value <? 2 ^ 16 then q_try_set_size q value else q)
    else if offset =? QUEUE_READY then with_queue_mut t (fun q => q_set_ready q (value =? 1))
    else if offset =? INTERRUPT_ACK then set_interrupt t (Interrupt.ack (interrupt t) value)
    else if offset =? STATUS then set_status t value
    else if offset =? QUEUE_DESC_LOW then
      with_queue_mut t (fun q => q_set_desc_table_address q (Some value) None)
    else if offset =? QUEUE_DESC_HIGH then
      with_queue_mut t (fun q => q_set_desc_table_address q None (Some value))
    else if offset =? QUEUE_AVAIL_LOW then
      with_queue_mut t (fun q => q_set_avail_ring_address q (Some value) None)
    else if offset =? QUEUE_AVAIL_HIGH then
      with_queue_mut t (fun q => q_set_avail_ring_address q None (Some value))
    else if offset =? QUEUE_USED_LOW then
      with_queue_mut t (fun q => q_set_used_ring_address q (Some value) None)
    else if offset =? QUEUE_USED_HIGH then
      with_queue_mut t (fun q => q_set_used_ring_address q None (Some value))
    else t.

End transport.

End MmioTransport.

#[global] Instance MmioTransport_device {D Q M} `{QueueOps Q M} `{VirtioDevice D Q M}
  : BusDevice (MmioTransport D Q M) := {
  dev_read t offset data := (t, MmioTransport.read t offset data);
  dev_write := MmioTransport.write }.

(** * Properties *)

Section properties.
Context {D Q M : Type} `{QueueLaws Q M} `{FixedFeatures D Q M}.

(** A guest's writes to the window, in order. *)
Definition guest_writes (t : MmioTransport D Q M) (ws : list (Z * bytes)) : MmioTransport D Q M :=
  foldl (fun t w => dev_write t w.1 w.2) t ws.

Record mmio_inv (t : MmioTransport D Q M) : Prop := {
  mi_offered : device_features t = v_features (device t);
  mi_features : within (acked_features t) (device_features t);
  mi_queues : activated t = true -> queues t = [] }.

Lemma with_queue_mut_fields (t : MmioTransport D Q M) f :
  MmioTransport.with_queue_mut t f =
  MmioTransport.set_queues t (queues (MmioTransport.with_queue_mut t f)) /\
  (queues t = [] -> queues (MmioTransport.with_queue_mut t f) = []).
Proof.
  unfold MmioTransport.with_queue_mut. destruct (queues t !! _) eqn:Hq; [|by destruct t].
  split; [done|]. intros Hn. by rewrite Hn in Hq.
Qed.

Lemma with_queue_mut_inv t f : mmio_inv t -> mmio_inv (MmioTransport.with_queue_mut t f).
Proof.
  destruct (with_queue_mut_fields t f) as [-> Hq]. intros [Ho Hf Hn]. split; simpl; [done|done|].
  intros Ha. apply Hq, Hn, Ha.
Qed.

(** Activation, from the register write and from the restore path. *)
Lemma activate_spec (t : MmioTransport D Q M) :
  mmio_inv t -> activated t = false ->
  let t' := MmioTransport.activate t in
  mmio_inv t' /\
  (activated t' = true ->
     MmioTransport.queues_valid t = true /\ acked_features t' = acked_features t /\
     v_activate (v_ack_features (device t) (acked_features t)) (mem t) (queues t) =
       (device t', Ok tt)).
Proof.
  intros [Ho Hf Hn] Ha. unfold MmioTransport.activate.
  destruct (MmioTransport.queues_valid t) eqn:Hv; simpl; [|split; [by split|congruence]].
  pose proof (features_activate (v_ack_features (device t) (acked_features t)) (mem t) (queues t)) as Hfa.
  rewrite features_ack in Hfa.
  destruct (v_activate _ _ _) as [d [[]|e]]; simpl in *; (split; [split; simpl; congruence|]); [done|congruence].
Qed.

Lemma reset_inv (t : MmioTransport D Q M) :
  mmio_inv t ->
  match MmioTransport.reset t with
  | (t', Ok _) => mmio_inv t' /\ activated t' = false
  | (t', Err _) => mmio_inv (MmioTransport.set_activated
      (MmioTransport.set_status_field t' VIRTIO_CONFIG_S_FAILED) false)
  end.
Proof.
  intros [Ho Hf Hn]. unfold MmioTransport.reset. pose proof (features_reset (device t)) as Hr.
  destruct (v_reset (device t)) as [d [u|e]]; simpl in *.
  - destruct (new_queues (v_queue_max_sizes d)) as [qs|e]; simpl.
    + split; [|done]. split; simpl; [done|apply within_zero|done].
    + split; simpl; [done|congruence|done].
  - split; simpl; [congruence|done|done].
Qed.

(** What a status write leaves behind. *)
Lemma set_status_spec (t : MmioTransport D Q M) value :
  mmio_inv t ->
  let t' := MmioTransport.set_status t value in
  mmio_inv t' /\
  (activated t = false -> activated t' = true ->
     MmioTransport.queues_valid t = true /\ acked_features t' = acked_features t /\
     v_activate (v_ack_features (device t) (acked_features t)) (mem t) (queues t) =
       (device t', Ok tt)).
Proof.
  intros Hinv. unfold MmioTransport.set_status. destruct (value =? 0).
  - pose proof (reset_inv t Hinv) as Hr.
    destruct (MmioTransport.reset t) as [t' [u|e]]; [destruct Hr|]; split; try done; congruence.
  - set (t1 := MmioTransport.set_status_field t value).
    assert (Hinv1 : mmio_inv t1) by (destruct Hinv; by split).
    destruct (negb (Z.land value VIRTIO_CONFIG_S_DRIVER_OK =? 0) && negb (activated t1)) eqn:Hc.
    + apply andb_true_iff in Hc as [_ Ha%negb_true_iff].
      destruct (activate_spec t1 Hinv1 Ha) as [Hi Hact]. split; [done|]. intros _ Ht. by apply Hact.
    + split; [done|]. simpl. congruence.
Qed.

(** Every register other than the status leaves activation alone. *)
Lemma write_spec (t : MmioTransport D Q M) offset data :
  mmio_inv t ->
  let t' := dev_write t offset data in
  mmio_inv t' /\
  (activated t = false -> activated t' = true ->
     MmioTransport.queues_valid t = true /\ acked_features t' = acked_features t /\
     v_activate (v_ack_features (device t) (acked_features t)) (mem t) (queues t) =
       (device t', Ok tt)).
Proof.
  intros Hinv. simpl. unfold MmioTransport.write.
  assert (Hq : forall f, mmio_inv (MmioTransport.with_queue_mut t f) /\
    (activated t = false -> activated (MmioTransport.with_queue_mut t f) = true ->
     MmioTransport.queues_valid t = true /\
     acked_features (MmioTransport.with_queue_mut t f) = acked_features t /\
     v_activate (v_ack_features (device t) (acked_features t)) (mem t) (queues t) =
       (device (MmioTransport.with_queue_mut t f), Ok tt))).
  { intros f. split; [by apply with_queue_mut_inv|].
    destruct (with_queue_mut_fields t f) as [-> _]. simpl. congruence. }
  destruct (CONFIG_SPACE <=? offset).
  { destruct Hinv as [Ho Hf Hn]. split; [|simpl; congruence].
    split; simpl; [by rewrite features_write|done|done]. }
  repeat case_match; try apply Hq; try (by apply set_status_spec);
    (split; [|simpl; congruence]); destruct Hinv as [Ho Hf Hn]; split; simpl; try done.
  by apply ack_word_within.
Qed.

Lemma new_mmio_inv d m i (t : MmioTransport D Q M) : MmioTransport.new d m i = Ok t -> mmio_inv t.
Proof.
  unfold MmioTransport.new. intros (qs & _ & [= <-])%result_bind_Ok.
  split; simpl; [done|apply within_zero|done].
Qed.

Lemma guest_writes_inv (t : MmioTransport D Q M) ws : mmio_inv t -> mmio_inv (guest_writes t ws).
Proof.
  revert t. induction ws as [|[o b] ws IH]; intros t Hinv; [done|]. simpl. apply IH.
  by apply (write_spec t o b).
Qed.

(** A driver that accepts the features [v], as the specification tells it to. *)
Definition accept_features (t : MmioTransport D Q M) (v : Z) : MmioTransport D Q M :=
  guest_writes t
    [(DRIVER_FEATURES_SEL, le_bytes 4 0); (DRIVER_FEATURES, le_bytes 4 (v mod 2 ^ 32));
     (DRIVER_FEATURES_SEL, le_bytes 4 1); (DRIVER_FEATURES, le_bytes 4 (v / 2 ^ 32))].

(** A driver that reads the half [sel] of the offered features. *)
Definition read_features (t : MmioTransport D Q M) (sel : Z) : Z :=
  of_le_bytes (dev_read (dev_write t DEVICE_FEATURES_SEL (le_bytes 4 sel)) DEVICE_FEATURES
    [0; 0; 0; 0]).2.

Lemma read_le_le_bytes x : in_width 32 x -> read_le (le_bytes 4 x) = x.
Proof.
  intros Hx. unfold read_le. rewrite overlay_all by (by rewrite length_le_bytes).
  by apply of_le_bytes_le_bytes.
Qed.

Lemma write_driver_features_sel (t : MmioTransport D Q M) v :
  in_width 32 v -> dev_write t DRIVER_FEATURES_SEL (le_bytes 4 v) =
    MmioTransport.set_selects t (queue_select t) (device_features_select t) v.
Proof.
  intros Hv. unfold dev_write, MmioTransport_device, MmioTransport.write.
  by rewrite read_le_le_bytes.
Qed.

Lemma write_driver_features (t : MmioTransport D Q M) v :
  in_width 32 v -> driver_features_select t < 2 ->
  dev_write t DRIVER_FEATURES (le_bytes 4 v) =
    MmioTransport.set_acked t
      (ack_word (acked_features t) (device_features t) v (driver_features_select t)).
Proof.
  intros Hv Hs. unfold dev_write, MmioTransport_device, MmioTransport.write.
  rewrite read_le_le_bytes by done. by rewrite (proj2 (Z.ltb_lt _ _) Hs).
Qed.

Lemma accept_features_acked (t : MmioTransport D Q M) v :
  in_width 64 v -> in_width 64 (device_features t) -> in_width 64 (acked_features t) ->
  acked_features (accept_features t v) = Z.land v (device_features t).
Proof.
  intros Hv Hd Ha. assert (Hw : 0 <= 0 < 2 ^ 32 /\ 0 <= 1 < 2 ^ 32) by lia.
  assert (Hlo : in_width 32 (v mod 2 ^ 32)) by (apply Z.mod_pos_bound; lia).
  assert (Hhi : in_width 32 (v / 2 ^ 32)).
  { unfold in_width in *. revert Hv. eval_pows. intros. divlia. }
  unfold accept_features, guest_writes. cbn [foldl fst snd].
  rewrite write_driver_features_sel by apply Hw.
  rewrite write_driver_features by (done || (simpl; lia)).
  rewrite write_driver_features_sel by apply Hw.
  rewrite write_driver_features by (done || (simpl; lia)).
  cbn [acked_features MmioTransport.set_acked MmioTransport.set_selects device_features
       driver_features_select].
  apply Z.bits_inj'. intros n Hn. rewrite Z.land_spec. destruct (Z.ltb_spec n 64) as [Hlt|Hge].
  - rewrite !ack_word_bit by (done || lia). change (32 * 1) with 32. change (32 * 0) with 0.
    change (32 + 32) with 64. change (0 + 32) with 32.
    destruct (Z.leb_spec 32 n), (Z.ltb_spec n 64); try lia; simpl.
    + rewrite <- Z.shiftr_div_pow2, Z.shiftr_spec by lia. by replace (n - 32 + 32) with n by lia.
    + rewrite (proj2 (Z.leb_le 0 n)), (proj2 (Z.ltb_lt n 32)) by lia. simpl.
      by rewrite Z.sub_0_r, Z.mod_pow2_bits_low by lia.
  - rewrite (testbit_width 64 v) by (done || lia). simpl.
    unfold ack_word, wrap. rewrite !Z.lor_spec, !Z.ldiff_spec, !Z.land_spec.
    rewrite !Z.lor_spec, !Z.ldiff_spec, !Z.land_spec.
    rewrite (testbit_width 64 (acked_features t)) by (done || lia).
    by rewrite !(Z.mod_pow2_bits_high _ 64) by lia.
Qed.

Lemma read_features_half (t : MmioTransport D Q M) sel :
  sel = 0 \/ sel = 1 -> in_width 64 (device_features t) ->
  read_features t sel = device_features t / 2 ^ (32 * sel) mod 2 ^ 32.
Proof.
  intros Hs Hd. unfold read_features, dev_read, dev_write, MmioTransport_device.
  assert (Hsel : MmioTransport.write t DEVICE_FEATURES_SEL (le_bytes 4 sel) =
    MmioTransport.set_selects t (queue_select t) sel (driver_features_select t)).
  { unfold MmioTransport.write. rewrite read_le_le_bytes; [done|]. unfold in_width. lia. }
  rewrite Hsel. cbn [snd].
  assert (Hr : forall v, write_le [0; 0; 0; 0] v = le_bytes 4 v) by reflexivity.
  unfold MmioTransport.read.
  change (CONFIG_SPACE <=? DEVICE_FEATURES) with false. change (DEVICE_FEATURES =? MAGIC_VALUE) with false.
  change (DEVICE_FEATURES =? VERSION) with false. change (DEVICE_FEATURES =? DEVICE_ID) with false.
  change (DEVICE_FEATURES =? VENDOR_ID) with false. change (DEVICE_FEATURES =? DEVICE_FEATURES) with true.
  cbn [MmioTransport.set_selects device_features_select device_features]. rewrite Hr.
  destruct Hs as [-> | ->].
  - rewrite of_le_bytes_le_bytes by (apply Z.mod_pos_bound; done).
    change (2 ^ (32 * 0)) with 1. by rewrite Z.div_1_r.
  - rewrite of_le_bytes_le_bytes by (apply Z.mod_pos_bound; done).
    unfold wrap. by rewrite Z.shiftr_div_pow2.
Qed.

End properties.

(** C30: whatever a guest writes to the window, the features it has accepted are among
    those the device offers, and a device is activated only by a status write, with
    exactly the accepted features and the configured queues, all of which are valid;
    the transport keeps no queue of an active device. *)
Theorem mmio_activation_guarded {D Q M} `{QueueOps Q M} `{FixedFeatures D Q M}
    d m i (t0 : MmioTransport D Q M) ws offset data :
  MmioTransport.new d m i = Ok t0 ->
  let t := guest_writes t0 ws in
  let t' := dev_write t offset data in
  within (acked_features t) (v_features (device t)) /\
  (activated t = true -> queues t = []) /\
  (activated t = false -> activated t' = true ->
     forallb (fun q => q_is_valid q (mem t)) (queues t) = true /\
     v_activate (v_ack_features (device t) (acked_features t)) (mem t) (queues t) =
       (device t', Ok tt)).
Proof.
  intros Hnew t t'.
  assert (Hinv : mmio_inv t) by (apply guest_writes_inv; by eapply new_mmio_inv).
  split_and!.
  - rewrite <- (mi_offered t Hinv). apply Hinv.
  - apply Hinv.
  - intros Ha Ha'. destruct (write_spec t offset data Hinv) as [_ Hw].
    destruct (Hw Ha Ha') as (Hv & _ & Hact). done.
Qed.

(** Feature negotiation is exact: a driver reads the two halves of the offered
    features, and whatever 64-bit word it then accepts, the transport records its
    intersection with the offered features. *)
Lemma mmio_feature_negotiation {D Q M} `{QueueOps Q M} `{FixedFeatures D Q M}
    d m i (t0 : MmioTransport D Q M) ws v :
  MmioTransport.new d m i = Ok t0 -> in_width 64 v ->
  let t := guest_writes t0 ws in
  in_width 64 (v_features (device t)) ->
  read_features t 0 + 2 ^ 32 * read_features t 1 = v_features (device t) /\
  acked_features (accept_features t v) = Z.land v (v_features (device t)).
Proof.
  intros Hnew Hv t Hd.
  assert (Hinv : mmio_inv t) by (apply guest_writes_inv; by eapply new_mmio_inv).
  destruct Hinv as [Ho Hf _]. rewrite <- Ho in *. split.
  - rewrite !read_features_half by auto. change (2 ^ (32 * 0)) with 1. change (2 ^ (32 * 1)) with (2 ^ 32).
    revert Hd. unfold in_width. eval_pows. intros. divlia.
  - apply accept_features_acked; [done|done|]. unfold within in Hf. rewrite <- Hf.
    by apply land_in_width.
Qed.

(** A transport survives a snapshot: rebuilding from the saved state never fails
    on it, and the rebuilt transport saves the same registers and queues again, is not
    active, and on [reactivate] hands the device the same queues. *)
Lemma mmio_save_restore {D Q M} `{QueueLaws Q M} `{VirtioDevice D Q M}
    (t : MmioTransport D Q M) (fresh : D) m i :
  v_queue_states (device t) = [] -> v_queue_states fresh = [] ->
  exists t', MmioTransport.from_state fresh m i (MmioTransport.save t) = Ok t' /\
    map q_state (queues t') = map q_state (queues t) /\
    MmioTransport.save t' =
      mkMmioState (device_features_select t) (driver_features_select t) (acked_features t)
        (status t) false (map q_state (queues t)) /\
    match MmioTransport.reactivate t' with
    | (t'', Ok _) => activated t'' = true /\
        v_activate (v_ack_features fresh (acked_features t)) m (queues t') = (device t'', Ok tt)
    | (t'', Err _) => activated t'' = false
    end.
Proof.
  intros Ht Hf. destruct (rebuild_queues_Ok (queues t)) as [qs Hqs].
  pose proof (rebuild_queues_states _ _ Hqs) as Hst.
  unfold MmioTransport.from_state, MmioTransport.save, saved_queues at 1. rewrite Ht.
  cbn [ms_queues]. rewrite Hqs. simpl. eexists. split; [reflexivity|]. simpl. split; [done|].
  split; [unfold saved_queues; rewrite Hf; by rewrite Hst|].
  unfold MmioTransport.reactivate. destruct (negb _); [done|]. simpl.
  by destruct (v_activate _ _ _) as [d [[]|e]].
Qed.

(** ** Witnesses: the entropy device behind the transport *)

Import PlainQueue.

Definition demo_rng : Rng QueueState Z := Rng.new.

Definition demo_mmio : MmioTransport (Rng QueueState Z) QueueState Z :=
  mkMmio demo_rng 0x10000 Interrupt.new VIRTIO_ID_RNG (2 ^ 32) [mkQueueState 64 0 0 false 64 false 0 0 0]
    0 0 0 0 0 false.

Definition demo_setup : list (Z * bytes) :=
  [(DRIVER_FEATURES_SEL, le_bytes 4 1); (DRIVER_FEATURES, le_bytes 4 1); (QUEUE_SEL, le_bytes 4 0);
   (QUEUE_NUM, le_bytes 4 16); (QUEUE_DESC_LOW, le_bytes 4 0x1000);
   (QUEUE_AVAIL_LOW, le_bytes 4 0x2000); (QUEUE_USED_LOW, le_bytes 4 0x3000);
   (QUEUE_READY, le_bytes 4 1)].

Lemma mmio_activation_guarded_witness :
  let t := guest_writes demo_mmio demo_setup in
  activated (dev_write t STATUS (le_bytes 4 15)) = true /\
  forallb (fun q => q_is_valid q (mem t)) (queues t) = true.
Proof.
  assert (Hn : MmioTransport.new demo_rng 0x10000 Interrupt.new = Ok demo_mmio) by (vm_compute; reflexivity).
  destruct (mmio_activation_guarded demo_rng 0x10000 Interrupt.new demo_mmio demo_setup STATUS
    (le_bytes 4 15) Hn) as (_ & _ & Ha).
  assert (H1 : activated (dev_write (guest_writes demo_mmio demo_setup) STATUS (le_bytes 4 15)) = true)
    by (vm_compute; reflexivity).
  split; [exact H1|]. apply Ha; [vm_compute; reflexivity|exact H1].
Defined.
