(* ===== verification/VirtioPci.v ===== *)
(** The virtio-pci transport ([vmm/src/virtio/pci.rs]): MSI-X, configuration space, the
    regions of the BAR, activation and snapshot state.

    KVM's [signal_msi] is a parameter [signal_msi vm address data], which returns the
    state of the virtual machine after the call and the number of CPUs that took the
    message, or an error. *)

From S2P Require Import Prelude Devices Virtio VirtioRng.

Definition PCI_VENDOR_ID_REDHAT_QUMRANET : Z := 0x1af4.
Definition PCI_DEVICE_ID_VIRTIO_MODERN_BASE : Z := 0x1040.
Definition PCI_COMMAND : Z := 0x04.
Definition PCI_STATUS : Z := 0x06.
Definition PCI_REVISION_ID : Z := 0x08.
Definition PCI_BAR0 : Z := 0x10.
Definition PCI_SUBSYSTEM_VENDOR_ID : Z := 0x2c.
Definition PCI_SUBSYSTEM_ID : Z := 0x2e.
Definition PCI_CAPABILITY_LIST : Z := 0x34.
Definition PCI_INTERRUPT_LINE : Z := 0x3c.
Definition PCI_INTERRUPT_PIN : Z := 0x3d.
Definition PCI_STATUS_CAP_LIST : Z := 0x0010.
Definition PCI_CAP_ID_VENDOR : Z := 0x09.
Definition PCI_CAP_ID_MSIX : Z := 0x11.
Definition COMMON_CAP_OFFSET : Z := 0x40.
Definition NOTIFY_CAP_OFFSET : Z := 0x50.
Definition ISR_CAP_OFFSET : Z := 0x64.
Definition DEVICE_CAP_OFFSET : Z := 0x74.
Definition MSIX_CAP_OFFSET : Z := 0x84.
Definition VIRTIO_PCI_CAP_COMMON_CFG : Z := 1.
Definition VIRTIO_PCI_CAP_NOTIFY_CFG : Z := 2.
Definition VIRTIO_PCI_CAP_ISR_CFG : Z := 3.
Definition VIRTIO_PCI_CAP_DEVICE_CFG : Z := 4.
Definition COMMON_CFG_OFFSET : Z := 0x0000.
Definition NOTIFY_CFG_OFFSET : Z := 0x1000.
Definition NOTIFY_CFG_SIZE : Z := 0x1000.
Definition ISR_CFG_OFFSET : Z := 0x2000.
Definition DEVICE_CFG_OFFSET : Z := 0x3000.
Definition DEVICE_CFG_SIZE : Z := 0x1000.
Definition MSIX_TABLE_OFFSET : Z := 0x4000.
Definition MSIX_PBA_OFFSET : Z := 0x5000.
Definition MSIX_PBA_END : Z := 0x5fff.
Definition COMMON_LEN : nat := 56.
Definition COMMON_DEVICE_FEATURE_SELECT : Z := 0.
Definition COMMON_DEVICE_FEATURE : Z := 4.
Definition COMMON_DRIVER_FEATURE_SELECT : Z := 8.
Definition COMMON_DRIVER_FEATURE : Z := 12.
Definition COMMON_MSIX_CONFIG : Z := 16.
Definition COMMON_NUM_QUEUES : Z := 18.
Definition COMMON_DEVICE_STATUS : Z := 20.
Definition COMMON_CONFIG_GENERATION : Z := 21.
Definition COMMON_QUEUE_SELECT : Z := 22.
Definition COMMON_QUEUE_SIZE : Z := 24.
Definition COMMON_QUEUE_MSIX_VECTOR : Z := 26.
Definition COMMON_QUEUE_ENABLE : Z := 28.
Definition COMMON_QUEUE_NOTIFY_OFF : Z := 30.
Definition COMMON_QUEUE_DESC : Z := 32.
Definition COMMON_QUEUE_DRIVER : Z := 40.
Definition COMMON_QUEUE_DEVICE : Z := 48.
Definition NOTIFY_OFF_MULTIPLIER : Z := 4.
Definition VIRTIO_MSI_NO_VECTOR : Z := 0xffff.
Definition PCI_COMMAND_IO : Z := 0x0001.
Definition PCI_COMMAND_MEMORY : Z := 0x0002.
Definition PCI_VIRTIO_BAR_SIZE : Z := 0x10000.
Definition MSIX_TABLE_ENTRY_SIZE : nat := 16.
Definition MSIX_VECTOR_MASKED : Z := 1.
Definition MSIX_TABLE_SIZE_MASK : Z := 0x07ff.
Definition MSIX_FUNCTION_MASK : Z := 0x4000.
Definition MSIX_ENABLE : Z := 0x8000.

(** ** Fields in byte buffers *)

Definition read_u16 (b : bytes) (offset : Z) : Z := of_le_bytes (take 2 (drop (Z.to_nat offset) b)).
Definition read_u32 (b : bytes) (offset : Z) : Z := of_le_bytes (take 4 (drop (Z.to_nat offset) b)).
Definition read_u64 (b : bytes) (offset : Z) : Z := of_le_bytes (take 8 (drop (Z.to_nat offset) b)).
Definition write_u16 (b : bytes) (offset value : Z) : bytes := overlay b offset (le_bytes 2 value).
Definition write_u32 (b : bytes) (offset value : Z) : bytes := overlay b offset (le_bytes 4 value).
Definition write_u64 (b : bytes) (offset value : Z) : bytes := overlay b offset (le_bytes 8 value).
(** [buf[offset] = value]. *)
Definition write_u8 (b : bytes) (offset value : Z) : bytes := overlay b offset [value].

Definition touches (write_offset write_len field_offset field_len : Z) : bool :=
  let write_end := saturating_add 64 write_offset write_len in
  let field_end := saturating_add 64 field_offset field_len in
  (write_offset <? field_end) && (field_offset <? write_end).

(** ** MSI-X *)

Record MsixEntry : Type := mkMsixEntry { msg_addr : Z; msg_data : Z; vector_ctrl : Z }.

Module MsixEntry.

Definition default : MsixEntry := mkMsixEntry 0 0 MSIX_VECTOR_MASKED.

Definition masked (e : MsixEntry) : bool := negb (Z.land (vector_ctrl e) MSIX_VECTOR_MASKED =? 0).

Definition to_bytes (e : MsixEntry) : bytes :=
  le_bytes 8 (msg_addr e) ++ le_bytes 4 (msg_data e) ++ le_bytes 4 (vector_ctrl e).

Definition from_bytes (b : bytes) : MsixEntry :=
  mkMsixEntry (of_le_bytes (take 8 b)) (of_le_bytes (take 4 (drop 8 b)))
    (of_le_bytes (take 4 (drop 12 b))).

End MsixEntry.

Record MsixStateSer : Type := mkMsixStateSer {
  mx_shared_vector : Z; mx_control : Z; mx_pending : Z; mx_table : list MsixEntry }.

Record MsixState (V : Type) : Type := mkMsixState {
  vm_fd : V; shared_vector : Z; control : Z; table : list MsixEntry; pending : Z }.
Arguments mkMsixState {V}.
Arguments vm_fd {V}.
Arguments shared_vector {V}.
Arguments control {V}.
Arguments table {V}.
Arguments pending {V}.

Class Msi (V : Type) : Type := signal_msi : V -> Z -> Z -> V * result string Z.

Module MsixState.

Section msix.
Context {V : Type} `{Msi V}.

Definition new (vm : V) : MsixState V :=
  mkMsixState vm VIRTIO_MSI_NO_VECTOR (Z.land 0 MSIX_TABLE_SIZE_MASK) [MsixEntry.default] 0.

Definition from_state (vm : V) (s : MsixStateSer) : MsixState V :=
  let table := match mx_table s with [] => [MsixEntry.default] | t => t end in
  mkMsixState vm (mx_shared_vector s) (mx_control s) table (mx_pending s).

Definition save (x : MsixState V) : MsixStateSer :=
  mkMsixStateSer (shared_vector x) (control x) (pending x) (table x).

Definition enabled (x : MsixState V) : bool := negb (Z.land (control x) MSIX_ENABLE =? 0).

Definition function_masked (x : MsixState V) : bool :=
  negb (Z.land (control x) MSIX_FUNCTION_MASK =? 0).

Definition entry (x : MsixState V) (vector : nat) : MsixEntry :=
  nth vector (table x) MsixEntry.default.

Definition vector_blocked (x : MsixState V) (vector : nat) : bool :=
  function_masked x || MsixEntry.masked (entry x vector).

Definition notification_vector (x : MsixState V) : option Z :=
  if shared_vector x =? VIRTIO_MSI_NO_VECTOR then None else Some (shared_vector x).

Definition accept_vector (x : MsixState V) (vector : Z) : Z :=
  if (vector =? VIRTIO_MSI_NO_VECTOR) || (vector <? Z.of_nat (length (table x)))
  then vector else VIRTIO_MSI_NO_VECTOR.

Definition set_vm (x : MsixState V) (vm : V) : MsixState V :=
  mkMsixState vm (shared_vector x) (control x) (table x) (pending x).
Definition set_pending (x : MsixState V) (p : Z) : MsixState V :=
  mkMsixState (vm_fd x) (shared_vector x) (control x) (table x) p.
Definition set_shared_vector (x : MsixState V) (v : Z) : MsixState V :=
  mkMsixState (vm_fd x) v (control x) (table x) (pending x).
Definition set_table (x : MsixState V) (t : list MsixEntry) : MsixState V :=
  mkMsixState (vm_fd x) (shared_vector x) (control x) t (pending x).

Definition set_config_vector (x : MsixState V) (vector : Z) : MsixState V :=
  set_shared_vector x (accept_vector x vector).

Definition set_queue_vector (x : MsixState V) (vector : Z) : MsixState V :=
  set_shared_vector x (accept_vector x vector).

Definition inject (x : MsixState V) (vector : nat) : MsixState V * result string bool :=
  let e := entry x vector in
  let '(vm, r) := signal_msi (vm_fd x) (msg_addr e) (msg_data e) in
  (set_vm x vm, result_map (fun n => 0 <? n) r).

(** One turn of the loop of [flush_pending]. *)
Definition flush_one (x : MsixState V) (vector : nat) : MsixState V :=
  let bit := Z.shiftl 1 (Z.of_nat vector) in
  if (Z.land (pending x) bit =? 0) || vector_blocked x vector then x
  else
    let '(x, r) := inject x vector in
    match r with
    | Ok true => set_pending x (Z.ldiff (pending x) bit)
    | _ => x
    end.

Definition flush_pending (x : MsixState V) : MsixState V :=
  if negb (enabled x) || (pending x =? 0) then x
  else foldl flush_one x (seq 0 (length (table x))).

Definition write_control (x : MsixState V) (value : Z) : MsixState V :=
  let writable := Z.land value (Z.lor MSIX_FUNCTION_MASK MSIX_ENABLE) in
  flush_pending
    (mkMsixState (vm_fd x) (shared_vector x)
       (Z.lor (Z.land (control x) MSIX_TABLE_SIZE_MASK) writable) (table x) (pending x)).

Definition reset_vectors (x : MsixState V) : MsixState V :=
  set_pending (set_shared_vector x VIRTIO_MSI_NO_VECTOR) 0.

(** The byte of the table at [byte], when there is one. *)
Definition table_byte (x : MsixState V) (byte : nat) : option Z :=
  table x !! (byte / MSIX_TABLE_ENTRY_SIZE)%nat ≫= fun e =>
    MsixEntry.to_bytes e !! (byte mod MSIX_TABLE_ENTRY_SIZE)%nat.

(** The [for] of [read_table], from the buffer position of [byte] on. *)
Fixpoint read_table_loop (x : MsixState V) (byte : nat) (data : bytes) : bytes :=
  match data with
  | [] => []
  | b :: data' =>
      if (length (table x) * MSIX_TABLE_ENTRY_SIZE <=? byte)%nat then data
      else default b (table_byte x byte) :: read_table_loop x (S byte) data'
  end.

Definition read_table (x : MsixState V) (offset : Z) (data : bytes) : bytes :=
  let data := fill 0 data in
  let start := Z.to_nat offset in
  if (length (table x) * MSIX_TABLE_ENTRY_SIZE <=? start)%nat then data
  else read_table_loop x start data.

(** One turn of the [for] of [write_table]. *)
Definition write_entry (start stop : nat) (data : bytes) (t : list MsixEntry) (idx : nat)
  : list MsixEntry :=
  match t !! idx with
  | None => t
  | Some e =>
      let entry_start := (idx * MSIX_TABLE_ENTRY_SIZE)%nat in
      let entry_end := (entry_start + MSIX_TABLE_ENTRY_SIZE)%nat in
      let copy_start := (start `max` entry_start)%nat in
      let copy_end := (stop `min` entry_end)%nat in
      let slice := take (copy_end - copy_start) (drop (copy_start - start) data) in
      let b := overlay (MsixEntry.to_bytes e) (Z.of_nat (copy_start - entry_start)) slice in
      <[idx := MsixEntry.from_bytes b]> t
  end.

Definition write_table (x : MsixState V) (offset : Z) (data : bytes) : MsixState V :=
  let start := Z.to_nat offset in
  let table_bytes := (length (table x) * MSIX_TABLE_ENTRY_SIZE)%nat in
  if (table_bytes <=? start)%nat || (length data =? 0)%nat then x
  else
    let stop := ((start + length data) `min` table_bytes)%nat in
    let first := (start / MSIX_TABLE_ENTRY_SIZE)%nat in
    let last := ((stop - 1) / MSIX_TABLE_ENTRY_SIZE)%nat in
    flush_pending
      (set_table x (foldl (write_entry start stop data) (table x) (seq first (last - first + 1)))).

Definition read_pba (x : MsixState V) (offset : Z) (data : bytes) : bytes :=
  copy_from (le_bytes 8 (pending x)) offset data 0.

Definition signal_interrupt (x : MsixState V) : MsixState V * result string bool :=
  if negb (enabled x) then (x, Ok false)
  else match notification_vector x with
  | None => (x, Ok false)
  | Some vector =>
      let vector := Z.to_nat vector in
      if (length (table x) <=? vector)%nat then (x, Ok false)
      else
        let bit := Z.shiftl 1 (Z.of_nat vector) in
        if vector_blocked x vector then (set_pending x (Z.lor (pending x) bit), Ok true)
        else
          let '(x, r) := inject x vector in
          match r with
          | Err e => (x, Err e)
          | Ok false => (set_pending x (Z.lor (pending x) bit), Ok true)
          | Ok true => (x, Ok true)
          end
  end.

End msix.

End MsixState.

(** ** Configuration space *)

Definition write_virtio_cap (cfg : bytes) (off next cfg_type cap_offset cap_length : Z) : bytes :=
  let cfg := write_u8 cfg off PCI_CAP_ID_VENDOR in
  let cfg := write_u8 cfg (off + 1) next in
  let cfg := write_u8 cfg (off + 2) 16 in
  let cfg := write_u8 cfg (off + 3) cfg_type in
  let cfg := write_u8 cfg (off + 4) 0 in
  let cfg := write_u8 cfg (off + 5) 0 in
  let cfg := write_u8 cfg (off + 6) 0 in
  let cfg := write_u8 cfg (off + 7) 0 in
  let cfg := write_u32 cfg (off + 8) cap_offset in
  write_u32 cfg (off + 12) cap_length.

Definition write_virtio_notify_cap (cfg : bytes) (off next : Z) : bytes :=
  let cfg := write_virtio_cap cfg off next VIRTIO_PCI_CAP_NOTIFY_CFG NOTIFY_CFG_OFFSET NOTIFY_CFG_SIZE in
  let cfg := write_u8 cfg (off + 2) 20 in
  write_u32 cfg (off + 16) NOTIFY_OFF_MULTIPLIER.

Definition write_msix_cap (cfg : bytes) (off msix_control : Z) : bytes :=
  let cfg := write_u8 cfg off PCI_CAP_ID_MSIX in
  let cfg := write_u8 cfg (off + 1) 0 in
  let cfg := write_u16 cfg (off + 2) msix_control in
  let cfg := write_u32 cfg (off + 4) MSIX_TABLE_OFFSET in
  write_u32 cfg (off + 8) MSIX_PBA_OFFSET.

Definition build_config_space (device_type bar_base gsi msix_control : Z) : bytes :=
  let cfg := replicate 256 0 in
  let cfg := write_u16 cfg 0x00 PCI_VENDOR_ID_REDHAT_QUMRANET in
  let cfg := write_u16 cfg 0x02 (wrap 16 (PCI_DEVICE_ID_VIRTIO_MODERN_BASE + wrap 16 device_type)) in
  let cfg := write_u16 cfg PCI_STATUS PCI_STATUS_CAP_LIST in
  let cfg := write_u8 cfg PCI_REVISION_ID 1 in
  let cfg := write_u32 cfg PCI_BAR0 (Z.land (wrap 32 bar_base) 0xfffffff0) in
  let cfg := write_u16 cfg PCI_SUBSYSTEM_VENDOR_ID PCI_VENDOR_ID_REDHAT_QUMRANET in
  let cfg := write_u16 cfg PCI_SUBSYSTEM_ID (wrap 16 device_type) in
  let cfg := write_u8 cfg PCI_CAPABILITY_LIST COMMON_CAP_OFFSET in
  let cfg := write_u8 cfg PCI_INTERRUPT_LINE (wrap 8 gsi) in
  let cfg := write_u8 cfg PCI_INTERRUPT_PIN 1 in
  let cfg := write_virtio_cap cfg COMMON_CAP_OFFSET NOTIFY_CAP_OFFSET VIRTIO_PCI_CAP_COMMON_CFG
    COMMON_CFG_OFFSET (Z.of_nat COMMON_LEN) in
  let cfg := write_virtio_notify_cap cfg NOTIFY_CAP_OFFSET ISR_CAP_OFFSET in
  let cfg := write_virtio_cap cfg ISR_CAP_OFFSET DEVICE_CAP_OFFSET VIRTIO_PCI_CAP_ISR_CFG
    ISR_CFG_OFFSET 1 in
  let cfg := write_virtio_cap cfg DEVICE_CAP_OFFSET MSIX_CAP_OFFSET VIRTIO_PCI_CAP_DEVICE_CFG
    DEVICE_CFG_OFFSET DEVICE_CFG_SIZE in
  write_msix_cap cfg MSIX_CAP_OFFSET msix_control.

(** ** The transport *)

(** The registers of the common configuration, apart from the rest of the transport. *)
Record CommonRegs : Type := mkCommonRegs {
  device_features_select : Z; driver_features_select : Z; acked_features : Z; status : Z;
  queue_select : Z; activated : bool }.

(** [queue_events] counts the writes to [queue_evt]. *)
Record PciTransport (D Q M V : Type) : Type := mkPci {
  device : D; mem : M; interrupt : Interrupt; queue_events : Z;
  device_features : Z; queue_max_sizes : list Z; queues : list Q;
  config_space : bytes; bar_base : Z; bar0_probe : bool; command : Z;
  regs : CommonRegs; msix : MsixState V }.
Arguments mkPci {D Q M V}.
Arguments device {D Q M V}.
Arguments mem {D Q M V}.
Arguments interrupt {D Q M V}.
Arguments queue_events {D Q M V}.
Arguments device_features {D Q M V}.
Arguments queue_max_sizes {D Q M V}.
Arguments queues {D Q M V}.
Arguments config_space {D Q M V}.
Arguments bar_base {D Q M V}.
Arguments bar0_probe {D Q M V}.
Arguments command {D Q M V}.
Arguments regs {D Q M V}.
Arguments msix {D Q M V}.

Record PciTransportStateSer : Type := mkPciSer {
  ps_config_space : bytes; ps_bar_base : Z; ps_bar0_probe : bool; ps_command : Z;
  ps_msix : MsixStateSer }.

Record PciCommonState : Type := mkPciCommon {
  pc_device_features_select : Z; pc_driver_features_select : Z; pc_acked_features : Z;
  pc_status : Z; pc_activated : bool; pc_queues : list QueueState }.

Module PciTransport.

Section transport.
Context {D Q M V : Type} `{QueueOps Q M} `{VirtioDevice D Q M} `{Msi V}.

Abbreviation T := (PciTransport D Q M V).

(** [queue_count], the number of queues the device has. *)
Definition queue_count (t : T) : Z := Z.of_nat (length (queue_max_sizes t)).

(** Assignments to fields. *)
Definition set_device (t : T) (d : D) : T :=
  mkPci d (mem t) (interrupt t) (queue_events t) (device_features t) (queue_max_sizes t) (queues t)
    (config_space t) (bar_base t) (bar0_probe t) (command t) (regs t) (msix t).
Definition set_interrupt (t : T) (i : Interrupt) : T :=
  mkPci (device t) (mem t) i (queue_events t) (device_features t) (queue_max_sizes t) (queues t)
    (config_space t) (bar_base t) (bar0_probe t) (command t) (regs t) (msix t).
Definition set_queue_events (t : T) (n : Z) : T :=
  mkPci (device t) (mem t) (interrupt t) n (device_features t) (queue_max_sizes t) (queues t)
    (config_space t) (bar_base t) (bar0_probe t) (command t) (regs t) (msix t).
Definition set_offered (t : T) (f : Z) (sizes : list Z) : T :=
  mkPci (device t) (mem t) (interrupt t) (queue_events t) f sizes (queues t)
    (config_space t) (bar_base t) (bar0_probe t) (command t) (regs t) (msix t).
Definition set_queues (t : T) (qs : list Q) : T :=
  mkPci (device t) (mem t) (interrupt t) (queue_events t) (device_features t) (queue_max_sizes t) qs
    (config_space t) (bar_base t) (bar0_probe t) (command t) (regs t) (msix t).
Definition set_config_space (t : T) (c : bytes) : T :=
  mkPci (device t) (mem t) (interrupt t) (queue_events t) (device_features t) (queue_max_sizes t)
    (queues t) c (bar_base t) (bar0_probe t) (command t) (regs t) (msix t).
Definition set_bar (t : T) (probe : bool) (base : Z) : T :=
  mkPci (device t) (mem t) (interrupt t) (queue_events t) (device_features t) (queue_max_sizes t)
    (queues t) (config_space t) base probe (command t) (regs t) (msix t).
Definition set_command (t : T) (c : Z) : T :=
  mkPci (device t) (mem t) (interrupt t) (queue_events t) (device_features t) (queue_max_sizes t)
    (queues t) (config_space t) (bar_base t) (bar0_probe t) c (regs t) (msix t).
Definition set_regs (t : T) (r : CommonRegs) : T :=
  mkPci (device t) (mem t) (interrupt t) (queue_events t) (device_features t) (queue_max_sizes t)
    (queues t) (config_space t) (bar_base t) (bar0_probe t) (command t) r (msix t).
Definition set_msix (t : T) (x : MsixState V) : T :=
  mkPci (device t) (mem t) (interrupt t) (queue_events t) (device_features t) (queue_max_sizes t)
    (queues t) (config_space t) (bar_base t) (bar0_probe t) (command t) (regs t) x.

Definition set_selects (t : T) (dev drv queue : Z) : T :=
  set_regs t (mkCommonRegs dev drv (acked_features (regs t)) (status (regs t)) queue (activated (regs t))).
Definition set_acked (t : T) (a : Z) : T :=
  set_regs t (mkCommonRegs (device_features_select (regs t)) (driver_features_select (regs t)) a
    (status (regs t)) (queue_select (regs t)) (activated (regs t))).
Definition set_status_field (t : T) (s : Z) : T :=
  set_regs t (mkCommonRegs (device_features_select (regs t)) (driver_features_select (regs t))
    (acked_features (regs t)) s (queue_select (regs t)) (activated (regs t))).
Definition set_activated (t : T) (b : bool) : T :=
  set_regs t (mkCommonRegs (device_features_select (regs t)) (driver_features_select (regs t))
    (acked_features (regs t)) (status (regs t)) (queue_select (regs t)) b).

Definition new (d : D) (m : M) (i : Interrupt) (vm : V) (base gsi : Z) : result string T :=
  let sizes := v_queue_max_sizes d in
  qs <-? new_queues sizes ;
  let msix_state := MsixState.new vm in
  Ok (mkPci d m i 0 (v_features d) sizes qs
        (build_config_space (v_device_type d) base gsi (control msix_state)) base false 0
        (mkCommonRegs 0 0 0 0 0 false) msix_state).

Definition bar_value (t : T) : Z :=
  if bar0_probe t
  then Z.land (Z.lxor (wrap 32 PCI_VIRTIO_BAR_SIZE - 1) (2 ^ 32 - 1)) 0xfffffff0
  else Z.land (wrap 32 (bar_base t)) 0xfffffff0.

Definition config_snapshot (t : T) : bytes :=
  let cfg := config_space t in
  let cfg := write_u16 cfg PCI_COMMAND (command t) in
  let cfg := write_u16 cfg PCI_STATUS PCI_STATUS_CAP_LIST in
  let cfg := write_u32 cfg PCI_BAR0 (bar_value t) in
  write_u16 cfg (MSIX_CAP_OFFSET + 2) (control (msix t)).

Definition save (t : T) : PciTransportStateSer :=
  mkPciSer (config_snapshot t) (bar_base t) (bar0_probe t) (command t) (MsixState.save (msix t)).

Definition common_state (t : T) : PciCommonState :=
  mkPciCommon (device_features_select (regs t)) (driver_features_select (regs t))
    (acked_features (regs t)) (status (regs t)) (activated (regs t))
    (saved_queues (device t) (queues t)).

Definition from_state (d : D) (m : M) (i : Interrupt) (vm : V) (pci : PciTransportStateSer)
    (common : PciCommonState) : result string T :=
  if negb (length (ps_config_space pci) =? 256)%nat then Err "PCI config space length is not 256"
  else
    let sizes := v_queue_max_sizes d in
    if negb (length (pc_queues common) =? length sizes)%nat
    then Err "PCI queue count differs from the device queue count"
    else
      qs <-? rebuild_queues (pc_queues common) ;
      Ok (mkPci d m i 0 (v_features d) sizes qs (ps_config_space pci) (ps_bar_base pci)
            (ps_bar0_probe pci) (ps_command pci)
            (mkCommonRegs (pc_device_features_select common) (pc_driver_features_select common)
               (pc_acked_features common) (pc_status common) 0 false)
            (MsixState.from_state vm (ps_msix pci))).

Definition memory_enabled (t : T) : bool := negb (Z.land (command t) PCI_COMMAND_MEMORY =? 0).

Definition bar_offset (t : T) (addr : Z) : option Z :=
  if bar0_probe t || negb (memory_enabled t) || (bar_base t =? 0) then None
  else stop ← checked_add 64 (bar_base t) PCI_VIRTIO_BAR_SIZE ;
       if (bar_base t <=? addr) && (addr <? stop) then Some (addr - bar_base t) else None.

Definition read_config (t : T) (offset : Z) (data : bytes) : bytes :=
  copy_from (config_snapshot t) offset data 0xff.

Definition write_config (t : T) (offset : Z) (data : bytes) : T :=
  let n := Z.of_nat (length data) in
  let cfg := overlay (config_snapshot t) offset data in
  let t := if touches offset n PCI_COMMAND 2 then
             let c := Z.land (read_u16 cfg PCI_COMMAND)
                        (Z.lor (Z.lor PCI_COMMAND_IO PCI_COMMAND_MEMORY) 0x0004) in
             set_config_space (set_command t c) (write_u16 (config_space t) PCI_COMMAND c)
           else t in
  let t := if touches offset n PCI_BAR0 4 then
             let value := read_u32 cfg PCI_BAR0 in
             if value =? 2 ^ 32 - 1 then set_bar t true (bar_base t)
             else set_bar t false (Z.land value 0xfffffff0)
           else t in
  let t := if touches offset n PCI_INTERRUPT_LINE 1 then
             set_config_space t (write_u8 (config_space t) PCI_INTERRUPT_LINE
                                   (nth (Z.to_nat PCI_INTERRUPT_LINE) cfg 0))
           else t in
  let msix_control_offset := MSIX_CAP_OFFSET + 2 in
  if touches offset n msix_control_offset 2 then
    let x := MsixState.write_control (msix t) (read_u16 cfg msix_control_offset) in
    set_config_space (set_msix t x) (write_u16 (config_space t) msix_control_offset (control x))
  else t.

(** *** Common configuration *)

Definition feature_word (select features : Z) : Z :=
  match select with
  | 0 => wrap 32 features
  | 1 => wrap 32 (Z.shiftr features 32)
  | _ => 0
  end.

Definition common_bytes (t : T) : bytes :=
  let r := regs t in
  let b := replicate COMMON_LEN 0 in
  let b := write_u32 b COMMON_DEVICE_FEATURE_SELECT (device_features_select r) in
  let b := write_u32 b COMMON_DEVICE_FEATURE
             (feature_word (device_features_select r) (device_features t)) in
  let b := write_u32 b COMMON_DRIVER_FEATURE_SELECT (driver_features_select r) in
  let b := write_u32 b COMMON_DRIVER_FEATURE
             (feature_word (driver_features_select r) (acked_features r)) in
  let b := write_u16 b COMMON_MSIX_CONFIG (shared_vector (msix t)) in
  let b := write_u16 b COMMON_NUM_QUEUES (wrap 16 (queue_count t)) in
  let b := write_u8 b COMMON_DEVICE_STATUS (wrap 8 (status r)) in
  let b := write_u8 b COMMON_CONFIG_GENERATION 0 in
  let b := write_u16 b COMMON_QUEUE_SELECT (wrap 16 (queue_select r)) in
  match queues t !! Z.to_nat (queue_select r) with
  | Some q =>
      let s := q_state q in
      let b := write_u16 b COMMON_QUEUE_SIZE (qs_size s) in
      let b := write_u16 b COMMON_QUEUE_MSIX_VECTOR (shared_vector (msix t)) in
      let b := write_u16 b COMMON_QUEUE_ENABLE (Z.b2z (qs_ready s)) in
      let b := write_u16 b COMMON_QUEUE_NOTIFY_OFF (wrap 16 (queue_select r)) in
      let b := write_u64 b COMMON_QUEUE_DESC (qs_desc_table s) in
      let b := write_u64 b COMMON_QUEUE_DRIVER (qs_avail_ring s) in
      write_u64 b COMMON_QUEUE_DEVICE (qs_used_ring s)
  | None =>
      match queue_max_sizes t !! Z.to_nat (queue_select r) with
      | Some max_size =>
          let b := write_u16 b COMMON_QUEUE_SIZE max_size in
          write_u16 b COMMON_QUEUE_NOTIFY_OFF (wrap 16 (queue_select r))
      | None => b
      end
  end.

Definition with_queue_mut (t : T) (f : Q -> Q) : T :=
  match queues t !! Z.to_nat (queue_select (regs t)) with
  | Some q => set_queues t (<[Z.to_nat (queue_select (regs t)) := f q]> (queues t))
  | None => t
  end.

Definition set_selected_queue_size (t : T) (size : Z) : T :=
  if size =? 0 then t
  else with_queue_mut t (fun q => if size <=? q_max_size q then q_set_size q size else q).

Definition reset (t : T) : T * result string unit :=
  match v_reset (device t) with
  | (d, Err e) => (set_device t d, Err e)
  | (d, Ok _) =>
      let t := set_offered (set_device t d) (v_features d) (v_queue_max_sizes d) in
      match new_queues (queue_max_sizes t) with
      | Err e => (t, Err e)
      | Ok qs =>
          let t := set_regs (set_queues t qs) (mkCommonRegs 0 0 0 0 0 false) in
          let t := set_msix t (MsixState.reset_vectors (msix t)) in
          (set_interrupt t (Interrupt.clear (interrupt t)), Ok tt)
      end
  end.

Definition queues_valid (t : T) : bool := forallb (fun q => q_is_valid q (mem t)) (queues t).

Definition activate (t : T) : T :=
  if negb (queues_valid t)
  then set_status_field t (Z.lor (status (regs t)) VIRTIO_CONFIG_S_FAILED)
  else
    let '(d, r) := v_activate (v_ack_features (device t) (acked_features (regs t))) (mem t) (queues t) in
    let t := set_device (set_queues t []) d in
    match r with
    | Ok _ => set_activated t true
    | Err _ => set_status_field t (Z.lor (status (regs t)) VIRTIO_CONFIG_S_FAILED)
    end.

Definition set_status (t : T) (value : Z) : T :=
  if value =? 0 then
    match reset t with
    | (t, Ok _) => t
    | (t, Err _) => set_activated (set_status_field t VIRTIO_CONFIG_S_FAILED) false
    end
  else
    let t := set_status_field t value in
    if negb (Z.land value VIRTIO_CONFIG_S_DRIVER_OK =? 0) && negb (activated (regs t))
    then activate t else t.

Definition reactivate (t : T) : T * result string unit :=
  if negb (queues_valid t)
  then (t, Err "virtio-pci device restore refused invalid queue configuration")
  else
    let '(d, r) := v_activate (v_ack_features (device t) (acked_features (regs t))) (mem t) (queues t) in
    let t := set_device (set_queues t []) d in
    match r with
    | Ok _ => (set_activated t true, Ok tt)
    | Err e => (t, Err e)
    end.

Definition write_common (t : T) (offset : Z) (data : bytes) : T :=
  let n := Z.of_nat (length data) in
  let common := overlay (common_bytes t) offset data in
  let r t := regs t in
  let t := if touches offset n COMMON_DEVICE_FEATURE_SELECT 4
           then set_selects t (read_u32 common COMMON_DEVICE_FEATURE_SELECT)
                  (driver_features_select (r t)) (queue_select (r t)) else t in
  let t := if touches offset n COMMON_DRIVER_FEATURE_SELECT 4
           then set_selects t (device_features_select (r t))
                  (read_u32 common COMMON_DRIVER_FEATURE_SELECT) (queue_select (r t)) else t in
  let t := if touches offset n COMMON_DRIVER_FEATURE 4 && (driver_features_select (r t) <? 2)
           then set_acked t (ack_word (acked_features (r t)) (device_features t)
                  (read_u32 common COMMON_DRIVER_FEATURE) (driver_features_select (r t))) else t in
  let t := if touches offset n COMMON_MSIX_CONFIG 2
           then set_msix t (MsixState.set_config_vector (msix t) (read_u16 common COMMON_MSIX_CONFIG))
           else t in
  let t := if touches offset n COMMON_QUEUE_SELECT 2
           then set_selects t (device_features_select (r t)) (driver_features_select (r t))
                  (read_u16 common COMMON_QUEUE_SELECT) else t in
  let t := if touches offset n COMMON_QUEUE_SIZE 2
           then set_selected_queue_size t (read_u16 common COMMON_QUEUE_SIZE) else t in
  let t := if touches offset n COMMON_QUEUE_MSIX_VECTOR 2 && (queue_select (r t) <? queue_count t)
           then set_msix t (MsixState.set_queue_vector (msix t) (read_u16 common COMMON_QUEUE_MSIX_VECTOR))
           else t in
  let t := if touches offset n COMMON_QUEUE_ENABLE 2
           then with_queue_mut t (fun q => q_set_ready q (read_u16 common COMMON_QUEUE_ENABLE =? 1))
           else t in
  let words f addr q := f q (Some (wrap 32 addr)) (Some (wrap 32 (Z.shiftr addr 32))) in
  let t := if touches offset n COMMON_QUEUE_DESC 8
           then with_queue_mut t (words q_set_desc_table_address (read_u64 common COMMON_QUEUE_DESC))
           else t in
  let t := if touches offset n COMMON_QUEUE_DRIVER 8
           then with_queue_mut t (words q_set_avail_ring_address (read_u64 common COMMON_QUEUE_DRIVER))
           else t in
  let t := if touches offset n COMMON_QUEUE_DEVICE 8
           then with_queue_mut t (words q_set_used_ring_address (read_u64 common COMMON_QUEUE_DEVICE))
           else t in
  if touches offset n COMMON_DEVICE_STATUS 1
  then set_status t (nth (Z.to_nat COMMON_DEVICE_STATUS) common 0) else t.

Definition read_common (t : T) (offset : Z) (data : bytes) : bytes :=
  copy_from (common_bytes t) offset data 0.

(** [data[0] = take_status() as u8] after [data.fill(0)]. *)
Definition read_isr (t : T) (offset : Z) (data : bytes) : T * bytes :=
  let data := fill 0 data in
  match data with
  | b :: data' =>
      if offset =? 0 then
        let '(i, s) := Interrupt.take_status (interrupt t) in
        (set_interrupt t i, wrap 8 s :: data')
      else (t, data)
  | [] => (t, data)
  end.

(** *** The BAR *)

(** The arms of the two [match]es, in order; an arm ends where the next begins. *)
Definition read_bar (t : T) (offset : Z) (data : bytes) : T * bytes :=
  if offset <? NOTIFY_CFG_OFFSET then (t, read_common t (offset - COMMON_CFG_OFFSET) data)
  else if offset <? ISR_CFG_OFFSET then (t, fill 0 data)
  else if offset <? DEVICE_CFG_OFFSET then read_isr t (offset - ISR_CFG_OFFSET) data
  else if offset <? MSIX_TABLE_OFFSET then
    (t, v_read_config (device t) (offset - DEVICE_CFG_OFFSET) data)
  else if offset <? MSIX_PBA_OFFSET then
    (t, MsixState.read_table (msix t) (offset - MSIX_TABLE_OFFSET) data)
  else if offset <=? MSIX_PBA_END then (t, MsixState.read_pba (msix t) (offset - MSIX_PBA_OFFSET) data)
  else (t, fill 0 data).

Definition write_bar (t : T) (offset : Z) (data : bytes) : T :=
  if offset <? NOTIFY_CFG_OFFSET then write_common t (offset - COMMON_CFG_OFFSET) data
  else if offset <? ISR_CFG_OFFSET then set_queue_events t (queue_events t + 1)
  else if offset <? DEVICE_CFG_OFFSET then t
  else if offset <? MSIX_TABLE_OFFSET then
    set_device t (v_write_config (device t) (offset - DEVICE_CFG_OFFSET) data)
  else if offset <? MSIX_PBA_OFFSET then
    set_msix t (MsixState.write_table (msix t) (offset - MSIX_TABLE_OFFSET) data)
  else t.

(** [impl BusDevice for PciTransport]. *)
Definition read (t : T) (offset : Z) (data : bytes) : T * bytes :=
  if memory_enabled t then read_bar t offset data else (t, fill 0xff data).

Definition write (t : T) (offset : Z) (data : bytes) : T :=
  if memory_enabled t then write_bar t offset data else t.

(** [impl PciFunction for Mutex<PciTransport>]. *)
Definition function_read_bar (t : T) (addr : Z) (data : bytes) : T * bytes * bool :=
  match bar_offset t addr with
  | None => (t, data, false)
  | Some offset => (read_bar t offset data, true)
  end.

Definition function_write_bar (t : T) (addr : Z) (data : bytes) : T * bool :=
  match bar_offset t addr with
  | None => (t, false)
  | Some offset => (write_bar t offset data, true)
  end.

(** A used-buffer notification through the notifier [attach_interrupt_notifier]
    installs: MSI-X first, then the interrupt line. *)
Definition notify_used (t : T) : T * bool :=
  let '(x, r) := MsixState.signal_interrupt (msix t) in
  let msi := match r with Ok b => b | Err _ => false end in
  let '(i, line) := Interrupt.signal_used_queue (interrupt t) msi in
  (set_interrupt (set_msix t x) i, line).

End transport.

End PciTransport.

#[global] Instance PciTransport_device {D Q M V} `{QueueOps Q M} `{VirtioDevice D Q M} `{Msi V}
  : BusDevice (PciTransport D Q M V) := {
  dev_read := PciTransport.read; dev_write := PciTransport.write }.

#[global] Instance PciTransport_function {D Q M V} `{QueueOps Q M} `{VirtioDevice D Q M} `{Msi V}
  : PciFunction (PciTransport D Q M V) := {
  read_config t offset data := (t, PciTransport.read_config t offset data);
  write_config := PciTransport.write_config;
  read_bar := PciTransport.function_read_bar;
  write_bar := PciTransport.function_write_bar }.

#[global] Instance PciTransport_laws {D Q M V} `{QueueOps Q M} `{VirtioDevice D Q M} `{Msi V}
  : PciFunctionLaws (PciTransport D Q M V).
Proof.
  unshelve refine {| owns t addr := bool_decide (is_Some (PciTransport.bar_offset t addr)) |}.
  - intros t addr data. simpl. unfold PciTransport.function_read_bar.
    by destruct (PciTransport.bar_offset t addr).
  - intros t addr data. simpl. unfold PciTransport.function_read_bar.
    by destruct (PciTransport.bar_offset t addr).
  - intros t addr data. simpl. unfold PciTransport.function_write_bar.
    by destruct (PciTransport.bar_offset t addr).
  - intros t addr data. simpl. unfold PciTransport.function_write_bar.
    by destruct (PciTransport.bar_offset t addr).
Defined.

(** * Properties of MSI-X *)

Definition flat (t : list MsixEntry) : bytes := concat (map MsixEntry.to_bytes t).

Lemma length_to_bytes e : length (MsixEntry.to_bytes e) = 16%nat.
Proof. unfold MsixEntry.to_bytes. rewrite !length_app, !length_le_bytes. done. Qed.

Lemma le_bytes_of_bytes n l : length l = n -> bytes_ok l -> le_bytes n (of_le_bytes l) = l.
Proof. intros <-. apply le_bytes_of_le_bytes. Qed.

Lemma to_bytes_from_bytes b :
  length b = 16%nat -> bytes_ok b -> MsixEntry.to_bytes (MsixEntry.from_bytes b) = b.
Proof.
  intros Hl Hb. unfold MsixEntry.to_bytes, MsixEntry.from_bytes. cbn [msg_addr msg_data vector_ctrl].
  rewrite (le_bytes_of_bytes 8) by ((rewrite length_take; lia) || by apply Forall_take).
  rewrite !(le_bytes_of_bytes 4)
    by ((rewrite length_take, length_drop; lia) || by apply Forall_take, Forall_drop).
  rewrite (take_ge (drop 12 b)) by (rewrite length_drop; lia).
  replace (drop 12 b) with (drop 4 (drop 8 b)) by (by rewrite drop_drop).
  by rewrite !take_drop.
Qed.

Lemma flat_lookup t k :
  flat t !! k = t !! (k / 16)%nat ≫= fun e => MsixEntry.to_bytes e !! (k mod 16)%nat.
Proof.
  revert k. induction t as [|e t IH]; intros k; unfold flat; cbn [map concat].
  { by rewrite !lookup_nil. }
  destruct (decide (k < 16)%nat) as [Hk|Hk].
  - rewrite Nat.div_small, Nat.mod_small by lia. rewrite lookup_app_l by (rewrite length_to_bytes; lia).
    done.
  - rewrite lookup_app_r, length_to_bytes by (rewrite length_to_bytes; lia).
    change (flat t !! (k - 16)%nat = (e :: t) !! (k / 16)%nat ≫= fun e => MsixEntry.to_bytes e !! (k mod 16)%nat).
    rewrite IH. assert (Hd : (k / 16 = S ((k - 16) / 16))%nat).
    { replace k with (k - 16 + 1 * 16)%nat at 1 by lia. rewrite Nat.div_add by lia. lia. }
    assert (Hm : (k mod 16 = (k - 16) mod 16)%nat).
    { replace k with (k - 16 + 1 * 16)%nat at 1 by lia. by rewrite Nat.Div0.mod_add. }
    by rewrite Hd, Hm.
Qed.

Lemma length_flat t : length (flat t) = (length t * 16)%nat.
Proof.
  unfold flat. induction t as [|e t IH]; [done|]. cbn [map concat length].
  rewrite length_app, length_to_bytes, IH. lia.
Qed.

Section msix_properties.
Context {V : Type} `{Msi V}.

Lemma read_table_loop_lookup (x : MsixState V) byte data k :
  MsixState.read_table_loop x byte data !! k =
  (fun b => default b (flat (table x) !! (byte + k)%nat)) <$> data !! k.
Proof.
  revert byte k. induction data as [|b data IH]; intros byte k; cbn [MsixState.read_table_loop].
  { by rewrite !lookup_nil. }
  destruct (Nat.leb_spec (length (table x) * MSIX_TABLE_ENTRY_SIZE) byte) as [Hle|Hlt].
  - rewrite (lookup_ge_None_2 (flat (table x))) by (rewrite length_flat; unfold MSIX_TABLE_ENTRY_SIZE in *; lia).
    by destruct ((b :: data) !! k).
  - destruct k as [|k]; simpl.
    + rewrite Nat.add_0_r, flat_lookup. done.
    + rewrite IH. by rewrite Nat.add_succ_comm.
Qed.

Lemma read_table_flat (x : MsixState V) offset data :
  0 <= offset -> MsixState.read_table x offset data = copy_from (flat (table x)) offset data 0.
Proof.
  intros Ho. unfold MsixState.read_table. apply list_eq. intros k. rewrite lookup_copy_from by done.
  assert (Hf : forall g : Z -> Z, g <$> fill 0 data !! k =
    if decide (k < length data)%nat then Some (g 0) else None).
  { intros g. unfold fill. case_decide.
    - by rewrite lookup_replicate_2.
    - by rewrite lookup_ge_None_2 by (rewrite length_replicate; lia). }
  destruct (Nat.leb_spec (length (table x) * MSIX_TABLE_ENTRY_SIZE) (Z.to_nat offset)).
  - rewrite (lookup_ge_None_2 (flat _)) by (rewrite length_flat; unfold MSIX_TABLE_ENTRY_SIZE in *; lia).
    specialize (Hf (fun z => z)). rewrite option_fmap_id in Hf. exact Hf.
  - rewrite read_table_loop_lookup. apply Hf.
Qed.

(** The new value of entry [idx]. *)
Definition updated_entry (start stop : nat) (data : bytes) (idx : nat) (e : MsixEntry) : MsixEntry :=
  let entry_start := (idx * 16)%nat in
  let copy_start := (start `max` entry_start)%nat in
  let copy_end := (stop `min` (entry_start + 16))%nat in
  MsixEntry.from_bytes
    (overlay (MsixEntry.to_bytes e) (Z.of_nat (copy_start - entry_start))
       (take (copy_end - copy_start) (drop (copy_start - start) data))).

Lemma write_entry_lookup start stop data t idx j :
  MsixState.write_entry start stop data t idx !! j =
  if decide (j = idx) then updated_entry start stop data idx <$> t !! j else t !! j.
Proof.
  unfold MsixState.write_entry. destruct (t !! idx) as [e|] eqn:He; case_decide; subst.
  - rewrite list_lookup_insert_eq by (by eapply lookup_lt_Some). by rewrite He.
  - by rewrite list_lookup_insert_ne.
  - by rewrite He.
  - done.
Qed.

Lemma write_entries_lookup start stop data idxs t j :
  NoDup idxs ->
  foldl (MsixState.write_entry start stop data) t idxs !! j =
  if decide (j ∈ idxs) then updated_entry start stop data j <$> t !! j else t !! j.
Proof.
  intros Hnd. revert t. induction Hnd as [|i idxs Hi Hnd IH]; intros t; simpl; [done|].
  rewrite IH, write_entry_lookup. destruct (decide (j = i)) as [->|Hne].
  - rewrite decide_False by done. by rewrite decide_True by (by left).
  - destruct (decide (j ∈ idxs)).
    + by rewrite decide_True by (by right).
    + rewrite decide_False; [done|]. rewrite elem_of_cons. by intros [?|?].
Qed.

Lemma updated_entry_lookup start stop data idx e j :
  bytes_ok data -> (stop - start <= length data)%nat -> (j < 16)%nat ->
  MsixEntry.to_bytes (updated_entry start stop data idx e) !! j =
  if decide (start <= idx * 16 + j < stop)%nat then data !! (idx * 16 + j - start)%nat
  else MsixEntry.to_bytes e !! j.
Proof.
  intros Hd Hl Hj. unfold updated_entry. set (es := (idx * 16)%nat).
  set (cs := (start `max` es)%nat). set (ce := (stop `min` (es + 16))%nat).
  set (slice := take (ce - cs) (drop (cs - start) data)).
  assert (Hsl : length slice = (ce - cs)%nat) by (unfold slice; rewrite length_take, length_drop; lia).
  rewrite to_bytes_from_bytes; [| |].
  - rewrite lookup_overlay, Nat2Z.id, length_to_bytes, Hsl by lia. case_decide; case_decide; try lia.
    + unfold slice. rewrite lookup_take_lt, lookup_drop by lia. f_equal. lia.
    + done.
  - by rewrite length_overlay, length_to_bytes.
  - apply Forall_lookup. intros k y. rewrite lookup_overlay by lia. case_decide.
    + unfold slice. intros Hy. assert (Hok : bytes_ok (take (ce - cs) (drop (cs - start) data)))
        by (by apply Forall_take, Forall_drop).
      by eapply (proj1 (Forall_lookup _ _) Hok).
    + unfold MsixEntry.to_bytes. apply Forall_lookup. repeat (apply Forall_app; split); apply le_bytes_ok.
Qed.

Lemma flush_pending_table (x : MsixState V) : table (MsixState.flush_pending x) = table x.
Proof.
  unfold MsixState.flush_pending. destruct (_ || _); [done|].
  generalize (seq 0 (length (table x))). intros l. revert x. induction l as [|v l IH]; intros x; [done|].
  simpl. rewrite IH. unfold MsixState.flush_one, MsixState.inject. destruct (_ || _); [done|].
  destruct (signal_msi _ _ _) as [vm [n|e]]; simpl; [|done]. by destruct (0 <? n).
Qed.

Lemma write_table_flat (x : MsixState V) offset data :
  0 <= offset -> bytes_ok data ->
  flat (table (MsixState.write_table x offset data)) = overlay (flat (table x)) offset data.
Proof.
  intros Ho Hd. unfold MsixState.write_table, MSIX_TABLE_ENTRY_SIZE. set (start := Z.to_nat offset).
  destruct (_ || _) eqn:Hc; [|apply orb_false_iff in Hc as [Hs%Nat.leb_gt Hn%Nat.eqb_neq]].
  { symmetry. apply list_eq. intros k. rewrite lookup_overlay, length_flat by done.
    apply orb_true_iff in Hc as [?%Nat.leb_le|?%Nat.eqb_eq]; by rewrite decide_False by lia. }
  set (stop := ((start + length data) `min` (length (table x) * 16))%nat).
  rewrite flush_pending_table. cbn [table MsixState.set_table].
  apply list_eq. intros k. rewrite lookup_overlay, !flat_lookup, length_flat by done.
  rewrite write_entries_lookup by apply NoDup_seq.
  pose proof (Nat.div_mod_eq k 16) as Hk. pose proof (Nat.mod_upper_bound k 16 ltac:(lia)) as Hm.
  pose proof (Nat.div_mod_eq start 16) as Hks. pose proof (Nat.mod_upper_bound start 16 ltac:(lia)).
  pose proof (Nat.div_mod_eq (stop - 1) 16) as Hke. pose proof (Nat.mod_upper_bound (stop - 1) 16 ltac:(lia)).
  destruct (table x !! (k / 16)%nat) as [e|] eqn:He.
  - pose proof (lookup_lt_Some _ _ _ He) as Hlt. case_decide as Hin; rewrite elem_of_seq in Hin; cbn [mbind option_bind fmap option_fmap option_map].
    + rewrite updated_entry_lookup by (done || lia). replace (k / 16 * 16 + k mod 16)%nat with k by lia.
      case_decide; case_decide; try done; lia.
    + case_decide; [|done]. lia.
  - apply lookup_ge_None in He. case_decide; cbn [mbind option_bind fmap option_fmap option_map]; (case_decide; [lia|done]).
Qed.

End msix_properties.

(** The guest sees the MSI-X table as flat memory: a read of any width and offset
    returns the bytes of the table (zeroes past its end), and after a write of any
    width and offset, across entries or past the end, exactly the written bytes of the
    table have changed. *)
Lemma msix_table_is_memory {V} `{Msi V} (x : MsixState V) offset data :
  0 <= offset -> bytes_ok data ->
  MsixState.read_table x offset data = copy_from (flat (table x)) offset data 0 /\
  flat (table (MsixState.write_table x offset data)) = overlay (flat (table x)) offset data /\
  length (flat (table (MsixState.write_table x offset data))) = length (flat (table x)).
Proof.
  intros Ho Hd. rewrite write_table_flat, length_overlay by done. by rewrite read_table_flat.
Qed.

Definition demo_msix : MsixState unit := mkMsixState tt 0 0x8000 [MsixEntry.default; MsixEntry.default] 0.
Definition demo_msi : Msi unit := fun vm _ _ => (vm, Ok 1).

(** What KVM documents of [KVM_SIGNAL_MSI]: the message reached a CPU exactly when the
    call returns a positive number.  [sent] lists the messages that did. *)
Class MsiLog (V : Type) `{Msi V} : Type := {
  sent : V -> list (Z * Z);
  sent_signal vm addr data :
    sent (signal_msi vm addr data).1 =
    match (signal_msi vm addr data).2 with
    | Ok n => if 0 <? n then sent vm ++ [(addr, data)] else sent vm
    | Err _ => sent vm
    end }.

Section delivery.
Context {V : Type} `{MsiLog V}.

(** The interrupt controller, in some state, does not take a message. *)
Definition refuses (m : Z * Z) : Prop := exists vm : V, match (signal_msi vm m.1 m.2).2 with Ok n => n <= 0 | Err _ => True end.

Definition message (x : MsixState V) (v : nat) : Z * Z :=
  (msg_addr (MsixState.entry x v), msg_data (MsixState.entry x v)).

Lemma land_bit p v : 0 <= v -> (Z.land p (Z.shiftl 1 v) =? 0) = negb (Z.testbit p v).
Proof.
  intros Hv. rewrite Z.shiftl_1_l. destruct (Z.testbit p v) eqn:Hb; simpl.
  - apply Z.eqb_neq. intros Hz. assert (Hc : Z.testbit (Z.land p (2 ^ v)) v = true).
    { by rewrite Z.land_spec, Hb, Z.pow2_bits_true. }
    by rewrite Hz, Z.bits_0 in Hc.
  - apply Z.eqb_eq, Z.bits_inj'. intros n Hn. rewrite Z.land_spec, Z.bits_0.
    destruct (Z.eq_dec n v) as [->|]; [by rewrite Hb|]. by rewrite Z.pow2_bits_false, andb_false_r by lia.
Qed.

(** What a turn of the flush leaves alone, and what it does for its own vector. *)
Lemma flush_one_frame (x : MsixState V) w :
  let x' := MsixState.flush_one x w in
  control x' = control x /\ table x' = table x /\
  (exists more, sent (vm_fd x') = sent (vm_fd x) ++ more) /\
  (forall v, 0 <= v -> v <> Z.of_nat w -> Z.testbit (pending x') v = Z.testbit (pending x) v) /\
  (Z.testbit (pending x') (Z.of_nat w) = true -> Z.testbit (pending x) (Z.of_nat w) = true).
Proof.
  unfold MsixState.flush_one, MsixState.inject. destruct (_ || _).
  { split_and!; try done. exists []. by rewrite app_nil_r. }
  pose proof (sent_signal (vm_fd x) (msg_addr (MsixState.entry x w)) (msg_data (MsixState.entry x w))) as Hs.
  destruct (signal_msi _ _ _) as [vm [n|e]]; simpl in *.
  - destruct (0 <? n); simpl.
    + split_and!; try done.
      * eauto.
      * intros v Hv Hne. rewrite Z.ldiff_spec, Z.shiftl_1_l, Z.pow2_bits_false by lia.
        by rewrite andb_true_r.
      * rewrite Z.ldiff_spec. by intros [? _]%andb_true_iff.
    + split_and!; try done. exists []. by rewrite app_nil_r.
  - split_and!; try done. exists []. by rewrite app_nil_r.
Qed.

(** The fate of a pending message between two states: it was sent and is no longer pending, or it was refused and
    still is. *)
Definition served (x x' : MsixState V) (v : nat) (m : Z * Z) : Prop :=
  exists more, sent (vm_fd x') = sent (vm_fd x) ++ more /\
    (Z.testbit (pending x') (Z.of_nat v) = false /\ m ∈ more \/ Z.testbit (pending x') (Z.of_nat v) = true /\ refuses m).

Lemma flush_one_self (x : MsixState V) v :
  Z.testbit (pending x) (Z.of_nat v) = true -> MsixState.vector_blocked x v = false ->
  served x (MsixState.flush_one x v) v (message x v).
Proof.
  intros Hp Hb. unfold served, MsixState.flush_one, MsixState.inject. rewrite land_bit, Hp, Hb by lia. simpl.
  set (a := msg_addr (MsixState.entry x v)). set (d := msg_data (MsixState.entry x v)).
  pose proof (sent_signal (vm_fd x) a d) as Hs.
  assert (Hr : match (signal_msi (vm_fd x) a d).2 with Ok n => n <= 0 | Err _ => True end -> refuses (message x v))
    by (intros Hr; by exists (vm_fd x)).
  destruct (signal_msi (vm_fd x) a d) as [vm [n|e]]; simpl in *.
  - destruct (Z.ltb_spec 0 n) as [Hn|Hn]; simpl.
    + exists [(a, d)]. split; [done|left]. rewrite Z.ldiff_spec, Z.shiftl_1_l, Z.pow2_bits_true, andb_false_r by lia. split; [done|set_solver].
    + exists []. rewrite app_nil_r. auto.
  - exists []. rewrite app_nil_r. auto.
Qed.

Lemma flush_loop_frame l (x : MsixState V) :
  let x' := foldl MsixState.flush_one x l in
  control x' = control x /\ table x' = table x /\
  (exists more, sent (vm_fd x') = sent (vm_fd x) ++ more) /\
  (forall v, 0 <= v -> Z.testbit (pending x') v = true -> Z.testbit (pending x) v = true).
Proof.
  revert x. induction l as [|w l IH]; intros x; simpl.
  { split_and!; try done. exists []. by rewrite app_nil_r. }
  destruct (IH (MsixState.flush_one x w)) as (Hc & Ht & (m1 & Hm1) & Hp).
  destruct (flush_one_frame x w) as (Hc' & Ht' & (m2 & Hm2) & Hp' & Hw).
  split_and!; [congruence|congruence| |].
  - exists (m2 ++ m1). by rewrite Hm1, Hm2, app_assoc.
  - intros v Hv Hb. apply Hp in Hb; [|done]. destruct (Z.eq_dec v (Z.of_nat w)) as [->|Hne]; [by apply Hw|].
    by rewrite <- Hp'.
Qed.

(** A turn of the flush for another vector leaves the fate of this one open. *)
Lemma flush_one_other (x : MsixState V) w v :
  v <> w -> let x' := MsixState.flush_one x w in
  Z.testbit (pending x') (Z.of_nat v) = Z.testbit (pending x) (Z.of_nat v) /\
  MsixState.vector_blocked x' v = MsixState.vector_blocked x v /\ message x' v = message x v.
Proof.
  intros Hne. destruct (flush_one_frame x w) as (Hc & Ht & _ & Hp & _). cbv zeta.
  split; [apply Hp; lia|]. unfold MsixState.vector_blocked, MsixState.function_masked, message, MsixState.entry. by rewrite Hc, Ht.
Qed.

Lemma flush_loop_others l (x : MsixState V) v :
  v ∉ l -> Z.testbit (pending (foldl MsixState.flush_one x l)) (Z.of_nat v) = Z.testbit (pending x) (Z.of_nat v).
Proof.
  revert x. induction l as [|w l IH]; intros x Hl; [done|]. apply not_elem_of_cons in Hl as [Hne Hl]. simpl. rewrite IH by done.
  by apply flush_one_other.
Qed.

(** A pending vector that is no longer blocked is served by the flush. *)
Lemma flush_loop_serves l (x : MsixState V) v :
  NoDup l -> v ∈ l -> Z.testbit (pending x) (Z.of_nat v) = true -> MsixState.vector_blocked x v = false ->
  served x (foldl MsixState.flush_one x l) v (message x v).
Proof.
  intros Hnd. revert x. induction Hnd as [|w l Hw Hnd IH]; intros x Hin Hp Hb; [by apply elem_of_nil in Hin|].
  simpl. destruct (decide (v = w)) as [<-|Hne].
  - destruct (flush_one_self x v Hp Hb) as (m1 & Hs & Hc).
    destruct (flush_loop_frame l (MsixState.flush_one x v)) as (_ & _ & (m2 & Hm) & _).
    exists (m1 ++ m2). rewrite Hm, Hs, app_assoc, flush_loop_others by done. split; [done|].
    destruct Hc as [[Hc Hin']|Hc]; [left|by right]. set_solver.
  - apply elem_of_cons in Hin as [->|Hin]; [done|].
    destruct (flush_one_other x w v Hne) as (Hp' & Hb' & Hm'). destruct (flush_one_frame x w) as (_ & _ & (m1 & Hs) & _ & _).
    rewrite <- Hm'. destruct (IH (MsixState.flush_one x w)) as (m2 & Hm2 & Hc); [done|congruence..|].
    exists (m1 ++ m2). rewrite Hm2, Hs, app_assoc. split; [done|]. destruct Hc as [[Hc Hin']|Hc]; [left|by right]. set_solver.
Qed.

(** What a write that flushes does for a pending vector. *)
Lemma flush_pending_serves (x : MsixState V) v :
  (v < length (table x))%nat -> Z.testbit (pending x) (Z.of_nat v) = true ->
  let x' := MsixState.flush_pending x in
  if MsixState.enabled x && negb (MsixState.vector_blocked x v) then served x x' v (message x v)
  else Z.testbit (pending x') (Z.of_nat v) = true.
Proof.
  intros Hv Hp. cbv zeta. unfold MsixState.flush_pending. destruct (MsixState.enabled x); simpl; [|done].
  destruct (Z.eqb_spec (pending x) 0) as [Hz|_]; [by rewrite Hz, Z.bits_0 in Hp|].
  destruct (MsixState.vector_blocked x v) eqn:Hb; simpl.
  - assert (Hl : forall l (y : MsixState V), MsixState.vector_blocked y v = true ->
      Z.testbit (pending (foldl MsixState.flush_one y l)) (Z.of_nat v) = Z.testbit (pending y) (Z.of_nat v)).
    { induction l as [|w l IH]; intros y Hy; [done|]. simpl. destruct (decide (v = w)) as [<-|Hne].
      - unfold MsixState.flush_one at 2. rewrite Hy, orb_true_r. by apply IH.
      - destruct (flush_one_other y w v Hne) as (He & Hb' & _). rewrite IH; [done|congruence]. }
    by rewrite Hl.
  - apply flush_loop_serves; [apply NoDup_seq|apply elem_of_seq; lia|done|done].
Qed.

End delivery.

Lemma flush_pending_control {V} `{MsiLog V} (x : MsixState V) :
  control (MsixState.flush_pending x) = control x.
Proof.
  unfold MsixState.flush_pending. destruct (_ || _); [done|]. apply flush_loop_frame.
Qed.

Lemma length_write_entries start stop data idxs t :
  length (foldl (MsixState.write_entry start stop data) t idxs) = length t.
Proof.
  revert t. induction idxs as [|i idxs IH]; intros t; simpl; [done|]. rewrite IH.
  unfold MsixState.write_entry. destruct (t !! i); [by rewrite length_insert|done].
Qed.

(** Masking as seen through a flush. *)
Lemma blocked_flush {V} `{MsiLog V} (x : MsixState V) v :
  MsixState.vector_blocked (MsixState.flush_pending x) v = MsixState.vector_blocked x v /\
  MsixState.enabled (MsixState.flush_pending x) = MsixState.enabled x /\
  message (MsixState.flush_pending x) v = message x v.
Proof.
  unfold MsixState.vector_blocked, MsixState.function_masked, MsixState.enabled, MsixState.entry, message,
    MsixState.entry.
  by rewrite flush_pending_control, flush_pending_table.
Qed.

(** What holds of a vector after a write [y] to the MSI-X registers of [x]: while the vector cannot be signalled it stays
    pending; otherwise the message that its entry now holds was sent and it is not pending any more, or the controller
    refused the message and it is still pending. *)
Definition pending_kept {V} `{MsiLog V} (x y : MsixState V) (v : nat) : Prop :=
  if MsixState.enabled y && negb (MsixState.vector_blocked y v) then served x y v (message y v)
  else Z.testbit (pending y) (Z.of_nat v) = true.

Lemma flush_kept {V} `{MsiLog V} (x y : MsixState V) v :
  (v < length (table y))%nat -> pending y = pending x -> vm_fd y = vm_fd x -> Z.testbit (pending x) (Z.of_nat v) = true ->
  pending_kept x (MsixState.flush_pending y) v.
Proof.
  intros Hv Hpe Hfd Hp. unfold pending_kept. destruct (blocked_flush y v) as (-> & -> & ->).
  rewrite <- Hpe in Hp. pose proof (flush_pending_serves y v Hv Hp) as Hf. cbv zeta in Hf.
  destruct (_ && _); [|done]. unfold served in *. by rewrite <- Hfd.
Qed.

Lemma writes_keep {V} `{MsiLog V} (x : MsixState V) v :
  (v < length (table x))%nat -> Z.testbit (pending x) (Z.of_nat v) = true ->
  (forall value, pending_kept x (MsixState.write_control x value) v) /\
  (forall offset data, MsixState.vector_blocked x v = true -> pending_kept x (MsixState.write_table x offset data) v).
Proof.
  intros Hv Hp. split.
  - intros value. by apply flush_kept.
  - intros offset data Hb. unfold MsixState.write_table. destruct (_ || _).
    { unfold pending_kept. by rewrite Hb, andb_false_r. }
    apply flush_kept; [simpl; by rewrite length_write_entries|done..].
Qed.

(** C31: no MSI-X interrupt is lost to masking.  A notification on an enabled function with a valid vector is recorded
    as pending when the vector is masked; otherwise the message is signalled: a call that reports a CPU sent
    it, one that reports none leaves the vector pending, and an error is returned with nothing recorded.  A vector that
    is masked and pending stays so through every write of the guest to the control word or to the table that leaves it
    masked; the write that unmasks it sends the message that the entry then holds and clears the pending bit, unless the
    interrupt controller does not take the message: then the bit stays. *)
Theorem msix_no_lost_interrupt {V} `{MsiLog V} (x : MsixState V) v :
  MsixState.enabled x = true -> shared_vector x = Z.of_nat v -> (v < length (table x) <= 64)%nat ->
  let '(x1, r) := MsixState.signal_interrupt x in
  if MsixState.vector_blocked x v then
    r = Ok true /\ sent (vm_fd x1) = sent (vm_fd x) /\ Z.testbit (pending x1) (Z.of_nat v) = true /\
    (forall value, pending_kept x1 (MsixState.write_control x1 value) v) /\
    (forall offset data, pending_kept x1 (MsixState.write_table x1 offset data) v)
  else
    match (signal_msi (vm_fd x) (message x v).1 (message x v).2).2 with
    | Ok n => r = Ok true /\
        if 0 <? n then sent (vm_fd x1) = sent (vm_fd x) ++ [message x v]
        else sent (vm_fd x1) = sent (vm_fd x) /\ Z.testbit (pending x1) (Z.of_nat v) = true
    | Err e => r = Err e /\ sent (vm_fd x1) = sent (vm_fd x) /\ pending x1 = pending x
    end.
Proof.
  intros He Hsv Hv. unfold MsixState.signal_interrupt, MsixState.notification_vector.
  rewrite He, Hsv. simpl negb. rewrite (proj2 (Z.eqb_neq _ VIRTIO_MSI_NO_VECTOR))
    by (unfold VIRTIO_MSI_NO_VECTOR; lia). cbv beta iota.
  rewrite Nat2Z.id, (proj2 (Nat.leb_gt _ _)) by lia.
  assert (Hbit : forall p, Z.testbit (Z.lor p (Z.shiftl 1 (Z.of_nat v))) (Z.of_nat v) = true)
    by (intros p; by rewrite Z.lor_spec, Z.shiftl_1_l, Z.pow2_bits_true, orb_true_r by lia).
  destruct (MsixState.vector_blocked x v) eqn:Hb.
  - set (x1 := MsixState.set_pending x _). destruct (writes_keep x1 v) as [Hc Ht]; [simpl; lia|apply Hbit|].
    split_and!; [done|done|apply Hbit|done|]. intros offset data. by apply Ht.
  - unfold MsixState.inject, message. cbn [fst snd].
    pose proof (sent_signal (vm_fd x) (msg_addr (MsixState.entry x v)) (msg_data (MsixState.entry x v))) as Hs.
    destruct (signal_msi _ _ _) as [vm [n|e]]; simpl in *; [|done]. by destruct (0 <? n); simpl.
Qed.

(** A controller that takes every message and remembers it. *)
#[local] Instance log_msi : Msi (list (Z * Z)) := fun vm addr data => (vm ++ [(addr, data)], Ok 1).
#[local] Instance log_msi_laws : MsiLog (list (Z * Z)).
Proof. by unshelve refine {| sent vm := vm |}. Defined.

Definition masked_msix : MsixState (list (Z * Z)) :=
  mkMsixState [] 0 0x8000 [mkMsixEntry 0xfee00000 0x41 1] 0.

Lemma msix_no_lost_interrupt_witness :
  let x1 := (MsixState.signal_interrupt masked_msix).1 in
  let y := MsixState.write_table x1 12 [0; 0; 0; 0] in
  pending y = 0 /\ vm_fd y = [(0xfee00000, 0x41)] /\ pending_kept x1 y 0.
Proof.
  pose proof (msix_no_lost_interrupt masked_msix 0) as Hx.
  assert (E : MsixState.signal_interrupt masked_msix = (MsixState.set_pending masked_msix 1, Ok true)) by (vm_compute; reflexivity).
  rewrite E in *. cbn [fst]. split; [vm_compute; reflexivity|]. split; [vm_compute; reflexivity|].
  destruct Hx as (_ & _ & _ & _ & Ht).
  - reflexivity.
  - reflexivity.
  - simpl. lia.
  - exact (Ht 12 [0; 0; 0; 0]).
Defined.

(** * Properties of configuration space *)

Section config_properties.
Context {D Q M V : Type} `{QueueOps Q M} `{VirtioDevice D Q M} `{Msi V}.

(** The bytes of configuration space a guest may change: the command word, BAR 0, the
    interrupt line and the MSI-X control word. *)
Definition writable_bytes : list nat := [4; 5; 16; 17; 18; 19; 60; 134; 135]%nat.

Lemma lookup_write_field b offset n v k :
  0 <= offset ->
  overlay b offset (le_bytes n v) !! k =
  if decide (Z.to_nat offset <= k < Z.to_nat offset + n /\ k < length b)%nat
  then le_bytes n v !! (k - Z.to_nat offset)%nat else b !! k.
Proof. intros Ho. by rewrite lookup_overlay, length_le_bytes. Qed.

Ltac not_writable Hk :=
  unfold writable_bytes in Hk; rewrite !not_elem_of_cons in Hk;
  destruct Hk as (? & ? & ? & ? & ? & ? & ? & ? & ? & _).

Lemma config_snapshot_lookup (t : PciTransport D Q M V) k :
  k ∉ writable_bytes ->
  PciTransport.config_snapshot t !! k =
  write_u16 (config_space t) PCI_STATUS PCI_STATUS_CAP_LIST !! k.
Proof.
  intros Hk. not_writable Hk. unfold PciTransport.config_snapshot, write_u16, write_u32,
    PCI_COMMAND, PCI_STATUS, PCI_BAR0, MSIX_CAP_OFFSET.
  rewrite lookup_write_field, decide_False by lia. rewrite lookup_write_field, decide_False by lia.
  rewrite !(lookup_write_field _ 6), length_overlay by lia.
  case_decide; [done|]. by rewrite lookup_write_field, decide_False by lia.
Qed.

Lemma length_config_snapshot (t : PciTransport D Q M V) :
  length (PciTransport.config_snapshot t) = length (config_space t).
Proof. unfold PciTransport.config_snapshot, write_u16, write_u32. by rewrite !length_overlay. Qed.

(** The stages of [write_config]. *)
Lemma write_config_space (t : PciTransport D Q M V) offset data :
  length (config_space (PciTransport.write_config t offset data)) = length (config_space t) /\
  (forall k, k ∉ writable_bytes ->
     config_space (PciTransport.write_config t offset data) !! k = config_space t !! k).
Proof.
  unfold PciTransport.write_config.
  set (n := Z.of_nat (length data)). set (cfg := overlay (PciTransport.config_snapshot t) offset data).
  assert (Hstep : forall b o len v, 0 <= o ->
    (forall k, Z.to_nat o <= k < Z.to_nat o + len -> k ∈ writable_bytes)%nat ->
    length (overlay b o (le_bytes len v)) = length b /\
    (forall k, k ∉ writable_bytes -> overlay b o (le_bytes len v) !! k = b !! k)).
  { intros b o len v Ho Hin. split; [apply length_overlay|]. intros k Hk.
    rewrite lookup_write_field by done. case_decide as Hd; [|done]. destruct Hk. apply Hin, Hd. }
  assert (H8 : forall b v, length (write_u8 b PCI_INTERRUPT_LINE v) = length b /\
    (forall k, k ∉ writable_bytes -> write_u8 b PCI_INTERRUPT_LINE v !! k = b !! k)).
  { intros b v. split; [apply length_overlay|]. intros k Hk. not_writable Hk.
    unfold write_u8, PCI_INTERRUPT_LINE. rewrite lookup_overlay by lia. simpl length.
    by rewrite decide_False by lia. }
  assert (Hc : forall b v, length (write_u16 b PCI_COMMAND v) = length b /\
    (forall k, k ∉ writable_bytes -> write_u16 b PCI_COMMAND v !! k = b !! k)).
  { intros b v. apply Hstep; [done|]. unfold PCI_COMMAND, writable_bytes. intros k Hk. set_unfold. lia. }
  assert (Hm : forall b v, length (write_u16 b (MSIX_CAP_OFFSET + 2) v) = length b /\
    (forall k, k ∉ writable_bytes -> write_u16 b (MSIX_CAP_OFFSET + 2) v !! k = b !! k)).
  { intros b v. apply Hstep; [done|]. unfold MSIX_CAP_OFFSET, writable_bytes. intros k Hk. set_unfold. lia. }
  assert (Htrans : forall a b c : bytes,
    (length a = length b /\ forall k, k ∉ writable_bytes -> a !! k = b !! k) ->
    (length b = length c /\ forall k, k ∉ writable_bytes -> b !! k = c !! k) ->
    length a = length c /\ forall k, k ∉ writable_bytes -> a !! k = c !! k).
  { intros a b c [Hl1 Hk1] [Hl2 Hk2]. split; [congruence|]. intros k Hk. rewrite Hk1 by done. auto. }
  destruct (touches offset n PCI_COMMAND 2), (touches offset n PCI_BAR0 4);
    try destruct (_ =? 2 ^ 32 - 1); destruct (touches offset n PCI_INTERRUPT_LINE 1),
    (touches offset n (MSIX_CAP_OFFSET + 2) 2); simpl;
    repeat (apply Hc || apply H8 || apply Hm || (split; reflexivity) || (eapply Htrans; [apply Hm|])
            || (eapply Htrans; [apply H8|])).
Qed.

(** A guest sizing BAR 0, and then placing it. *)
Definition probe_bar (t : PciTransport D Q M V) : PciTransport D Q M V :=
  PciTransport.write_config t PCI_BAR0 [255; 255; 255; 255].

Lemma write_bar0 (t : PciTransport D Q M V) v :
  length (config_space t) = 256%nat -> in_width 32 v ->
  PciTransport.write_config t PCI_BAR0 (le_bytes 4 v) =
  if v =? 2 ^ 32 - 1 then PciTransport.set_bar t true (bar_base t)
  else PciTransport.set_bar t false (Z.land v 0xfffffff0).
Proof.
  intros Hl Hv. unfold PciTransport.write_config. rewrite length_le_bytes.
  set (cfg := overlay (PciTransport.config_snapshot t) PCI_BAR0 (le_bytes 4 v)).
  change (touches PCI_BAR0 (Z.of_nat 4) PCI_COMMAND 2) with false.
  change (touches PCI_BAR0 (Z.of_nat 4) PCI_BAR0 4) with true.
  change (touches PCI_BAR0 (Z.of_nat 4) PCI_INTERRUPT_LINE 1) with false.
  change (touches PCI_BAR0 (Z.of_nat 4) (MSIX_CAP_OFFSET + 2) 2) with false. cbv iota zeta.
  assert (read_u32 cfg PCI_BAR0 = v) as ->; [|done]. unfold read_u32.
  assert (take 4 (drop (Z.to_nat PCI_BAR0) cfg) = le_bytes 4 v) as ->; [|by apply of_le_bytes_le_bytes].
  unfold cfg, overlay, PCI_BAR0.
  assert (Hs : length (PciTransport.config_snapshot t) = 256%nat) by (by rewrite length_config_snapshot).
  rewrite Hs, length_le_bytes. change (Z.of_nat 256 <? 16) with false. change (Z.to_nat 16) with 16%nat. cbv iota zeta.
  change ((256 - 16) `min` 4)%nat with 4%nat. rewrite (take_ge (le_bytes 4 v)) by (by rewrite length_le_bytes).
  rewrite drop_app_length' by (rewrite length_take; lia).
  by rewrite take_app_length' by (by rewrite length_le_bytes).
Qed.

End config_properties.

(** A guest's configuration writes are confined: whatever it writes, wherever and of
    whatever width, only the command word, BAR 0, the interrupt line and the MSI-X
    control word of the function can read back differently, and its identity and
    capability list never do.  Sizing BAR 0 reads back the size of the BAR while the
    function answers no address, and the base written next is the one it decodes. *)
Lemma pci_config_writes_confined {D Q M V} `{QueueOps Q M} `{VirtioDevice D Q M} `{Msi V}
    (t : PciTransport D Q M V) offset data base :
  length (config_space t) = 256%nat -> in_width 32 base -> base mod 16 = 0 ->
  let t' := PciTransport.write_config t offset data in
  length (config_space t') = 256%nat /\
  (forall k, k ∉ writable_bytes ->
     PciTransport.config_snapshot t' !! k = PciTransport.config_snapshot t !! k) /\
  PciTransport.bar_value (probe_bar t) = 2 ^ 32 - PCI_VIRTIO_BAR_SIZE /\
  (forall addr, PciTransport.bar_offset (probe_bar t) addr = None) /\
  bar_base (PciTransport.write_config (probe_bar t) PCI_BAR0 (le_bytes 4 base)) = base.
Proof.
  intros Hl Hb Hm t'. destruct (write_config_space t offset data) as [Hlen Hk].
  assert (Hprobe : probe_bar t = PciTransport.set_bar t true (bar_base t)).
  { unfold probe_bar. change [255; 255; 255; 255] with (le_bytes 4 (2 ^ 32 - 1)).
    rewrite write_bar0; [done|done|]. unfold in_width. lia. }
  split_and!.
  - unfold t'. congruence.
  - intros k Hw. rewrite !config_snapshot_lookup by done. unfold write_u16.
    rewrite !lookup_write_field by (unfold PCI_STATUS; lia). unfold t'. rewrite Hlen. case_decide; [done|]. by apply Hk.
  - rewrite Hprobe. reflexivity.
  - intros addr. rewrite Hprobe. reflexivity.
  - rewrite Hprobe, write_bar0 by done.
    destruct (Z.eqb_spec base (2 ^ 32 - 1)) as [->|_]; [exfalso; revert Hm; vm_compute; discriminate|].
    simpl. change 0xfffffff0 with (Z.shiftl (Z.ones 28) 4). apply Z.bits_inj'. intros n Hn.
    rewrite Z.land_spec. destruct (Z.ltb_spec n 4).
    + rewrite Z.shiftl_spec_low, andb_false_r by lia. symmetry.
      rewrite <- (Z.mod_pow2_bits_low base 4 n) by lia. change (2 ^ 4) with 16.
      by rewrite Hm, Z.bits_0.
    + rewrite Z.shiftl_spec by lia. destruct (Z.ltb_spec n 32).
      * by rewrite Z.ones_spec_low, andb_true_r by lia.
      * by rewrite (testbit_width 32 base) by (done || lia).
Qed.

Import PlainQueue.

(** The entropy device behind the transport. *)
Definition demo_pci : PciTransport (Rng QueueState Z) QueueState Z (list (Z * Z)) :=
  mkPci Rng.new 0x10000 Interrupt.new 0 (2 ^ 32) [64] [mkQueueState 64 0 0 false 64 false 0 0 0]
    (build_config_space VIRTIO_ID_RNG 0xd0000000 5 0) 0xd0000000 false 0
    (mkCommonRegs 0 0 0 0 0 false) (MsixState.new []).
