(* ===== verification/SnapshotDelta.v ===== *)
(** Delta snapshots of guest memory ([vmm/src/snapshot/mod.rs]): which pages changed
    since a base snapshot, the memory file that holds them, and the reconstruction of
    guest memory from a chain of snapshots.

    Guest memory is a list of regions of whole pages, in address order and without
    overlap, as [vm-memory] keeps it; a memory file is the list of its pages.  Page
    numbers are [nat]; addresses and offsets are 64-bit.  Reading and writing files
    does not fail here, apart from reading past the end of one. *)

From S2P Require Import Prelude.

Definition DELTA_PAGE_SIZE : Z := 4096.
Definition DIFF_PAGES_PER_WORKER : nat := 16 * 1024.
Definition MAX_DELTA_CHAIN_DEPTH : nat := 64.
Definition MAX_SNAPSHOT_NAME_BYTES : Z := 128.
Definition FIRST_ADDR_PAST_32BITS : Z := 2 ^ 32.
Definition MEM_32BIT_GAP_SIZE : Z := 768 * 2 ^ 20.
Definition MMIO_MEM_START : Z := FIRST_ADDR_PAST_32BITS - MEM_32BIT_GAP_SIZE.

Abbreviation page := (list Z) (only parsing).

(** ** Guest memory *)

Record GuestRegion : Type := mkGuestRegion { start_addr : Z; r_pages : list page }.

Abbreviation GuestMemory := (list GuestRegion) (only parsing).

Definition region_len (r : GuestRegion) : Z := DELTA_PAGE_SIZE * Z.of_nat (length (r_pages r)).

(** [gpa] lies in the region. *)
Definition in_region (r : GuestRegion) (gpa : Z) : bool :=
  (start_addr r <=? gpa) && (gpa <? start_addr r + region_len r).

(** The pages mapped from [gpa] on, within its region ([get_host_address]). *)
Fixpoint pages_at (mem : GuestMemory) (gpa : Z) : option (list page) :=
  match mem with
  | [] => None
  | r :: mem =>
      if in_region r gpa then Some (drop (Z.to_nat ((gpa - start_addr r) / DELTA_PAGE_SIZE)) (r_pages r))
      else pages_at mem gpa
  end.

(** Pages copied to the address [gpa] and on, within its region. *)
Fixpoint write_pages (mem : GuestMemory) (gpa : Z) (data : list page) : option GuestMemory :=
  match mem with
  | [] => None
  | r :: mem =>
      if in_region r gpa then
        let i := Z.to_nat ((gpa - start_addr r) / DELTA_PAGE_SIZE) in
        Some (mkGuestRegion (start_addr r)
                (take i (r_pages r) ++ data ++ drop (i + length data) (r_pages r)) :: mem)
      else cons r <$> write_pages mem gpa data
  end.

(** RAM below the 32-bit MMIO gap, the remainder above 4 GiB ([x86_64]). *)
Definition arrange_memory (size : Z) : list (Z * Z) :=
  if size =? 0 then []
  else if size <=? MMIO_MEM_START then [(0, size)]
  else [(0, MMIO_MEM_START); (FIRST_ADDR_PAST_32BITS, size - MMIO_MEM_START)].

Definition zero_page : page := replicate (Z.to_nat DELTA_PAGE_SIZE) 0.

Definition create_guest_memory (size : Z) : result string GuestMemory :=
  if size =? 0 then Err "guest memory size is zero"
  else if negb (size mod DELTA_PAGE_SIZE =? 0) then Err "guest memory size is not page-aligned"
  else Ok (map (fun '(addr, len) =>
             mkGuestRegion addr (replicate (Z.to_nat (len / DELTA_PAGE_SIZE)) zero_page))
             (arrange_memory size)).

(** ** Region tables *)

Record MemRegion : Type := mkMemRegion { gpa : Z; m_len : Z; file_offset : Z }.

Fixpoint region_table (mem : GuestMemory) (offset : Z) : result string (list MemRegion) :=
  match mem with
  | [] => Ok []
  | r :: mem =>
      if negb (start_addr r mod DELTA_PAGE_SIZE =? 0) then Err "guest memory region is not page-aligned"
      else if region_len r =? 0 then Err "guest memory region is empty"
      else if negb (region_len r mod DELTA_PAGE_SIZE =? 0)
      then Err "guest memory region length is not page-aligned"
      else
        next <-? ok_or (checked_add 64 offset (region_len r)) "guest memory region file offset overflows" ;
        regions <-? region_table mem next ;
        Ok (mkMemRegion (start_addr r) (region_len r) offset :: regions)
  end.

Definition memory_region_table (mem : GuestMemory) : result string (list MemRegion) :=
  regions <-? region_table mem 0 ;
  match regions with [] => Err "guest memory has no regions" | _ => Ok regions end.

Fixpoint total_len (regions : list MemRegion) (total : Z) : result string Z :=
  match regions with
  | [] => Ok total
  | r :: regions =>
      total <-? ok_or (checked_add 64 total (m_len r)) "snapshot memory region total length overflows" ;
      total_len regions total
  end.

Definition regions_total_len (regions : list MemRegion) : result string Z := total_len regions 0.

Definition same_region (x y : MemRegion) : bool :=
  (gpa x =? gpa y) && (m_len x =? m_len y) && (file_offset x =? file_offset y).

Fixpoint same_layout (a b : list MemRegion) : bool :=
  match a, b with
  | [], [] => true
  | x :: a, y :: b => same_region x y && same_layout a b
  | _, _ => false
  end.

Definition ensure_guest_memory_layout (mem : GuestMemory) (expected : list MemRegion)
  : result string unit :=
  actual <-? memory_region_table mem ;
  if same_layout actual expected then Ok tt else Err "RAM layout differs from snapshot metadata".

Fixpoint region_of_byte (byte : Z) (regions : list MemRegion) : result string Z :=
  match regions with
  | [] => Err "delta page index is outside region table"
  | r :: regions =>
      stop <-? ok_or (checked_add 64 (file_offset r) (m_len r))
                 "snapshot memory region file offset overflows" ;
      if (file_offset r <=? byte) && (byte <? stop)
      then ok_or (checked_add 64 (gpa r) (byte - file_offset r)) "delta page guest address overflows"
      else region_of_byte byte regions
  end.

Definition page_index_to_gpa (p : nat) (regions : list MemRegion) : result string Z :=
  byte <-? ok_or (checked_mul 64 (Z.of_nat p) DELTA_PAGE_SIZE) "delta page index byte offset overflows" ;
  region_of_byte byte regions.

(** ** Bitmaps, least significant bit first *)

Definition bit_set (bitmap : list Z) (p : nat) : bool :=
  negb (Z.land (nth (p / 8) bitmap 0) (Z.shiftl 1 (Z.of_nat (p mod 8))) =? 0).

(** ** Finding the changed pages *)

(** A region's base and live pages and its window of global page numbers. *)
Record RegionDiff : Type := mkRegionDiff {
  base_pages : list page; live_pages : list page; pages : nat; first_page : nat }.

(** A full base's memory file, or a scratch memory rebuilt from a chain. *)
Inductive BaseView : Type := Mapped (file : list page) | Scratch (mem : GuestMemory).

Fixpoint diff_specs (base : BaseView) (live : GuestMemory) (regions : list MemRegion) (first : nat)
  : result string (list RegionDiff) :=
  match regions with
  | [] => Ok []
  | r :: regions =>
      live_ptr <-? ok_or (pages_at live (gpa r)) "host address for live" ;
      base_ptr <-? match base with
                   | Mapped file => Ok (drop (Z.to_nat (file_offset r / DELTA_PAGE_SIZE)) file)
                   | Scratch mem => ok_or (pages_at mem (gpa r)) "host address for base"
                   end ;
      let n := Z.to_nat (m_len r / DELTA_PAGE_SIZE) in
      specs <-? diff_specs base live regions (first + n) ;
      Ok (mkRegionDiff base_ptr live_ptr n first :: specs)
  end.

Definition region_diff_specs (base : BaseView) (live : GuestMemory) (regions : list MemRegion)
  : result string (list RegionDiff) := diff_specs base live regions 0.

(** The [while] that advances to the region of [p]; [rest] is [specs[spec_index..]]. *)
Fixpoint advance (rest : list RegionDiff) (p : nat) : list RegionDiff :=
  match rest with
  | [] => []
  | s :: rest' => if (first_page s + pages s <=? p)%nat then advance rest' p else rest
  end.

(** [base_page != live_page] for global page [p] of region [s]. *)
Definition page_differs (s : RegionDiff) (p : nat) : bool :=
  bool_decide (base_pages s !! (p - first_page s)%nat <> live_pages s !! (p - first_page s)%nat).

(** The bits of one output byte; [n] of them are left. *)
Fixpoint diff_byte (n : nat) (total_pages page0 bit : nat) (rest : list RegionDiff) (value : Z)
  : Z * list RegionDiff :=
  match n with
  | O => (value, rest)
  | S n =>
      let p := (page0 + bit)%nat in
      if (total_pages <=? p)%nat then (value, rest)
      else
        match advance rest p with
        | [] => (value, [])
        | s :: rest' =>
            let value := if page_differs s p then Z.lor value (Z.shiftl 1 (Z.of_nat bit)) else value in
            diff_byte n total_pages page0 (S bit) (s :: rest') value
        end
  end.

Fixpoint diff_bytes (n : nat) (total_pages page0 : nat) (rest : list RegionDiff) : list Z :=
  match n with
  | O => []
  | S n =>
      let '(value, rest) := diff_byte 8 total_pages page0 0 rest 0 in
      value :: diff_bytes n total_pages (page0 + 8) rest
  end.

(** [n] bytes from global page [first]; the starting region is found by bisection. *)
Definition diff_bitmap_chunk (specs : list RegionDiff) (first total_pages n : nat) : list Z :=
  diff_bytes n total_pages first (advance specs first).

(** [par_chunks_mut]: chunks of a fixed number of bytes, the last one shorter; [task] fills
    so many bytes from a page on.  [left] bytes are left, from chunk [chunk] on. *)
Fixpoint par_chunks (task : nat -> nat -> list Z) (fuel chunk left : nat) : list Z :=
  match fuel with
  | O => []
  | S fuel =>
      let n := (left `min` (DIFF_PAGES_PER_WORKER / 8))%nat in
      if (left =? 0)%nat then []
      else task (chunk * DIFF_PAGES_PER_WORKER)%nat n ++ par_chunks task fuel (S chunk) (left - n)
  end.

Definition total_pages (specs : list RegionDiff) : nat := foldr (fun s n => (pages s + n)%nat) 0%nat specs.

Definition bitmap_len (pages : nat) : nat := ((pages + 7) / 8)%nat.

(** One region of [write_changed_pages]: pages [k ..] of it. *)
Fixpoint changed_pages (bitmap : list Z) (global : nat) (live : list page) : list page :=
  match live with
  | [] => []
  | p :: live =>
      if bit_set bitmap global then p :: changed_pages bitmap (S global) live
      else changed_pages bitmap (S global) live
  end.

Definition write_changed_pages (specs : list RegionDiff) (bitmap : list Z) : list page :=
  concat (map (fun s => changed_pages bitmap (first_page s) (take (pages s) (live_pages s))) specs).

Definition diff_pages_parallel (specs : list RegionDiff) : list Z * list page :=
  let total := total_pages specs in
  let task first n := diff_bitmap_chunk specs first total n in
  let bitmap := par_chunks task (bitmap_len total) 0 (bitmap_len total) in
  (bitmap, write_changed_pages specs bitmap).

(** ** Finding the changed pages from dirty logs *)

(** [bitmap[g / 8] |= 1 << (g % 8)]. *)
Definition set_bit (bitmap : list Z) (g : nat) : list Z :=
  alter (fun b => Z.lor b (Z.shiftl 1 (Z.of_nat (g mod 8)))) (g / 8)%nat bitmap.

(** [log[i / 64] >> (i % 64) & 1 != 0]. *)
Definition log_bit (log : list Z) (i : Z) : bool :=
  negb (Z.land (Z.shiftr (nth (Z.to_nat (i / 64)) log 0) (i mod 64)) 1 =? 0).

(** Page [k] of a region is flagged by the guest's log or by the host's bitmap. *)
Definition dirty (log : list Z) (host : Z -> bool) (host_page : Z) (k : nat) : bool :=
  let byte_offset := Z.of_nat k * DELTA_PAGE_SIZE in
  log_bit log (byte_offset / host_page) || host byte_offset.

(** The [for page in 0..spec.pages]; [n] pages are left, from page [k] on. *)
Fixpoint dirty_region (n k : nat) (spec : RegionDiff) (log : list Z) (host : Z -> bool)
    (host_page : Z) (bitmap : list Z) (out : list page) : list Z * list page :=
  match n with
  | O => (bitmap, out)
  | S n =>
      if negb (dirty log host host_page k) then dirty_region n (S k) spec log host host_page bitmap out
      else
        match base_pages spec !! k, live_pages spec !! k with
        | Some b, Some l =>
            if bool_decide (b <> l) then
              dirty_region n (S k) spec log host host_page (set_bit bitmap (first_page spec + k)) (out ++ [l])
            else dirty_region n (S k) spec log host host_page bitmap out
        | _, _ => dirty_region n (S k) spec log host host_page bitmap out
        end
  end.

Fixpoint dirty_regions (specs : list RegionDiff) (logs : list (list Z)) (hosts : list (Z -> bool))
    (host_page : Z) (bitmap : list Z) (out : list page) : result string (list Z * list page) :=
  match specs, logs, hosts with
  | spec :: specs, log :: logs, host :: hosts =>
      let host_pages := div_ceil (Z.of_nat (pages spec) * DELTA_PAGE_SIZE) host_page in
      if Z.of_nat (length log) <? div_ceil host_pages 64 then Err "guest dirty log is too short"
      else
        let '(bitmap, out) := dirty_region (pages spec) 0 spec log host host_page bitmap out in
        dirty_regions specs logs hosts host_page bitmap out
  | _, _, _ => Ok (bitmap, out)
  end.

Definition diff_dirty_pages (specs : list RegionDiff) (hosts : list (Z -> bool))
    (guest_log : list (list Z)) (host_page : Z) : result string (list Z * list page) :=
  if negb (length guest_log =? length specs)%nat then Err "guest dirty log covers the wrong number of slots"
  else if (host_page <? DELTA_PAGE_SIZE) || negb (host_page mod DELTA_PAGE_SIZE =? 0)
  then Err "host page size incompatible with delta pages"
  else dirty_regions specs guest_log hosts host_page
         (replicate (bitmap_len (total_pages specs)) 0) [].

(** ** The descriptor *)

Record DeltaMemory : Type := mkDelta { d_base : string; d_page_size : Z; d_changed : list Z }.

Definition is_name_byte (c : Ascii.ascii) : bool :=
  let n := Ascii.N_of_ascii c in
  ((48 <=? n) && (n <=? 57) || (65 <=? n) && (n <=? 90) || (97 <=? n) && (n <=? 122)
   || (n =? 45) || (n =? 95) || (n =? 46))%N.

Fixpoint all_bytes (f : Ascii.ascii -> bool) (s : string) : bool :=
  match s with EmptyString => true | String c s => f c && all_bytes f s end.

Definition is_dot (c : Ascii.ascii) : bool := bool_decide (Ascii.N_of_ascii c = 46%N).

Fixpoint contains_dots (s : string) : bool :=
  match s with
  | String c ((String d _) as s') => (is_dot c && is_dot d) || contains_dots s'
  | _ => false
  end.

Definition is_safe_snapshot_name (name : string) : bool :=
  match name with
  | EmptyString => false
  | String c _ =>
      (Z.of_nat (String.length name) <=? MAX_SNAPSHOT_NAME_BYTES) && negb (is_dot c) &&
      negb (contains_dots name) && all_bytes is_name_byte name
  end.

(** [u8::count_ones]. *)
Definition count_ones (b : Z) : Z :=
  foldr (fun i n => Z.b2z (Z.testbit b (Z.of_nat i)) + n) 0 (seq 0 8).

Definition validate_delta_memory (d : DeltaMemory) (total_ram memory_len : Z) : result string unit :=
  if negb (d_page_size d =? DELTA_PAGE_SIZE) then Err "snapshot delta page size"
  else if negb (total_ram mod d_page_size d =? 0) then Err "snapshot delta total RAM is not page-aligned"
  else
    let total := total_ram / d_page_size d in
    if negb (Z.of_nat (length (d_changed d)) =? div_ceil total 8) then Err "snapshot delta bitmap length"
    else
      let spare_bits := total mod 8 in
      let last := List.last (d_changed d) 0 in
      if negb (spare_bits =? 0) &&
         negb (Z.land last (Z.lxor (Z.shiftl 1 spare_bits - 1) 0xff) =? 0)
      then Err "snapshot delta bitmap has set bits past page count"
      else
        let set := wrap 32 (foldr (fun b n => count_ones b + n) 0 (d_changed d)) in
        if negb (memory_len =? set * d_page_size d) then Err "snapshot delta memory file length"
        else if negb (is_safe_snapshot_name (d_base d)) then Err "snapshot delta base is not a safe basename"
        else Ok tt.

(** ** Applying a delta *)

(** The [for page in 0..total_pages]; [n] pages are left, from page [p] on. *)
Fixpoint apply_pages (n p : nat) (file_offset : Z) (file : list page) (mem : GuestMemory)
    (changed : list Z) (regions : list MemRegion) : result string GuestMemory :=
  match n with
  | O => Ok mem
  | S n =>
      if negb (bit_set changed p) then apply_pages n (S p) file_offset file mem changed regions
      else
        address <-? page_index_to_gpa p regions ;
        _ <-? ok_or (pages_at mem address) "host address" ;
        data <-? ok_or (file !! Z.to_nat (file_offset / DELTA_PAGE_SIZE)) "reading delta page" ;
        mem <-? ok_or (write_pages mem address [data]) "host address" ;
        next <-? ok_or (checked_add 64 file_offset DELTA_PAGE_SIZE)
                   "delta memory file offset overflows" ;
        apply_pages n (S p) next file mem changed regions
  end.

Definition apply_delta_pages (file : list page) (mem : GuestMemory) (d : DeltaMemory)
    (regions : list MemRegion) : result string GuestMemory :=
  _ <-? ensure_guest_memory_layout mem regions ;
  total_ram <-? regions_total_len regions ;
  _ <-? validate_delta_memory d total_ram (DELTA_PAGE_SIZE * Z.of_nat (length file)) ;
  apply_pages (Z.to_nat (total_ram / DELTA_PAGE_SIZE)) 0 0 file mem (d_changed d) regions.

(** ** Chains *)

(** A snapshot as far as its memory goes. *)
Record SnapshotImage : Type := mkImage {
  mem_regions : list MemRegion; delta : option DeltaMemory; memory_file : list page }.

(** Each region is read from its offset. *)
Fixpoint load_regions (regions : list MemRegion) (mem : GuestMemory) (file : list page)
  : result string GuestMemory :=
  match regions with
  | [] => Ok mem
  | r :: regions =>
      _ <-? ok_or (pages_at mem (gpa r)) "host address" ;
      let n := Z.to_nat (m_len r / DELTA_PAGE_SIZE) in
      let data := take n (drop (Z.to_nat (file_offset r / DELTA_PAGE_SIZE)) file) in
      if negb (length data =? n)%nat then Err "reading region"
      else
        mem <-? ok_or (write_pages mem (gpa r) data) "host address" ;
        load_regions regions mem file
  end.

Definition load_memory_file (file : list page) (mem : GuestMemory) (regions : list MemRegion)
  : result string GuestMemory :=
  _ <-? ensure_guest_memory_layout mem regions ;
  expected_len <-? regions_total_len regions ;
  if negb (DELTA_PAGE_SIZE * Z.of_nat (length file) =? expected_len)
  then Err "snapshot memory data length differs from the memory file length"
  else load_regions regions mem file.

(** The directory of a base, a sibling of the delta's: its name. *)
Definition base_dir_of (base : string) : result string string :=
  if negb (is_safe_snapshot_name base) then Err "delta base is not a safe basename" else Ok base.

(** [FileMap::open]. *)
Definition open_file_map (file : list page) (expected_len : Z) : result string (list page) :=
  let len := DELTA_PAGE_SIZE * Z.of_nat (length file) in
  if negb (len =? expected_len) then Err "base memory file has the wrong length"
  else if len =? 0 then Err "base memory file is empty"
  else Ok file.

Section chain.

(** The snapshot directories next to each other, by name. *)
Variable read_snapshot : string -> result string SnapshotImage.

(** [depth] bounds the recursion, so [S MAX_DELTA_CHAIN_DEPTH] of fuel is enough. *)
Fixpoint load_layer (fuel : nat) (image : SnapshotImage) (mem : GuestMemory)
    (expected : list MemRegion) (depth : nat) : result string GuestMemory :=
  if (MAX_DELTA_CHAIN_DEPTH <? depth)%nat then Err "snapshot delta chain exceeds max depth"
  else if negb (same_layout (mem_regions image) expected)
  then Err "delta chain layer RAM layout differs from top snapshot"
  else match delta image with
  | None => load_memory_file (memory_file image) mem (mem_regions image)
  | Some d =>
      match fuel with
      | O => Err "out of fuel"
      | S fuel =>
          base_dir <-? base_dir_of (d_base d) ;
          base_image <-? read_snapshot base_dir ;
          mem <-? load_layer fuel base_image mem expected (S depth) ;
          apply_delta_pages (memory_file image) mem d expected
      end
  end.

Definition chain_fuel : nat := S MAX_DELTA_CHAIN_DEPTH.

Definition load_memory_chain (image : SnapshotImage) (mem : GuestMemory) : result string GuestMemory :=
  let expected := mem_regions image in
  _ <-? ensure_guest_memory_layout mem expected ;
  load_layer chain_fuel image mem expected 0.

(** The base of a delta: a full snapshot's file, or the memory rebuilt from a chain. *)
Definition base_view (base_image : SnapshotImage) (live_regions : list MemRegion) (total_ram : Z)
  : result string BaseView :=
  match delta base_image with
  | None =>
      if negb (same_layout (mem_regions base_image) live_regions)
      then Err "delta base RAM layout differs from live memory"
      else result_map Mapped (open_file_map (memory_file base_image) total_ram)
  | Some _ =>
      scratch <-? create_guest_memory total_ram ;
      result_map Scratch (load_layer chain_fuel base_image scratch live_regions 1)
  end.

(** What a delta dump does before it creates its file: the live table and the regions to
    compare. *)
Definition delta_specs (base : string) (live : GuestMemory)
  : result string (list MemRegion * list RegionDiff) :=
  live_regions <-? memory_region_table live ;
  base_dir <-? base_dir_of base ;
  base_image <-? read_snapshot base_dir ;
  total_ram <-? regions_total_len live_regions ;
  view <-? base_view base_image live_regions total_ram ;
  specs <-? region_diff_specs view live live_regions ;
  Ok (live_regions, specs).

(** The bitmap and the pages written; [host_page] and [hosts] are the host's page size and
    its write bitmaps. *)
Definition delta_pages (specs : list RegionDiff) (guest_dirty : option (list (list Z))) (host_page : Z)
    (hosts : list (Z -> bool)) : result string (list Z * list page) :=
  match guest_dirty with
  | Some log => diff_dirty_pages specs hosts log host_page
  | None => Ok (diff_pages_parallel specs)
  end.

Definition dump_delta_memory_file (base : string) (live : GuestMemory)
    (guest_dirty : option (list (list Z))) (host_page : Z) (hosts : list (Z -> bool))
  : result string (list MemRegion * DeltaMemory * list page) :=
  '(live_regions, specs) <-? delta_specs base live ;
  '(changed, file) <-? delta_pages specs guest_dirty host_page hosts ;
  Ok (live_regions, mkDelta base DELTA_PAGE_SIZE changed, file).

End chain.

(** ** Bitmaps against a predicate on pages *)

Lemma bitmap_len_covers n p : (p < n)%nat -> (p < 8 * bitmap_len n)%nat.
Proof.
  intros Hp. unfold bitmap_len. pose proof (Nat.div_mod_eq (n + 7) 8).
  assert (Hm : ((n + 7) mod 8 < 8)%nat) by (by apply Nat.mod_upper_bound). lia.
Qed.

Lemma or_bit_testbit value bit i :
  Z.testbit (Z.lor value (Z.shiftl 1 (Z.of_nat bit))) (Z.of_nat i) =
  Z.testbit value (Z.of_nat i) || bool_decide (i = bit).
Proof.
  rewrite Z.lor_spec, Z.shiftl_1_l, Z.pow2_bits_eqb by lia. f_equal.
  destruct (Z.eqb_spec (Z.of_nat bit) (Z.of_nat i)), (bool_decide_reflect (i = bit)); (done || lia).
Qed.

Lemma or_bit_width value bit :
  (bit < 8)%nat -> in_width 8 value -> in_width 8 (Z.lor value (Z.shiftl 1 (Z.of_nat bit))).
Proof.
  intros Hbit Hw. unfold in_width in *. rewrite Z.shiftl_1_l.
  assert (0 <= 2 ^ Z.of_nat bit) by lia. split; [apply Z.lor_nonneg; lia|].
  assert (Hp : 2 ^ Z.of_nat bit < 2 ^ 8) by (apply Z.pow_lt_mono_r; lia).
  destruct (decide (Z.lor value (2 ^ Z.of_nat bit) = 0)) as [->|]; [lia|].
  apply Z.log2_lt_pow2; [pose proof (proj2 (Z.lor_nonneg value (2 ^ Z.of_nat bit))); lia|].
  rewrite Z.log2_lor, Z.log2_pow2 by lia. apply Z.max_lub_lt; [|lia].
  destruct (decide (value = 0)) as [->|]; [simpl; lia|]. apply Z.log2_lt_pow2; lia.
Qed.

Section bitmaps.

(** [f p]: page [p] is to be flagged; [n] pages in all. *)
Context (f : nat -> bool) (n : nat).

Definition flagged (p : nat) : bool := (p <? n)%nat && f p.

Definition byte_flags (page0 : nat) (b : Z) : Prop :=
  in_width 8 b /\ forall i, (i < 8)%nat -> Z.testbit b (Z.of_nat i) = flagged (page0 + i).

Fixpoint bitmap_flags (page0 : nat) (bm : list Z) : Prop :=
  match bm with
  | [] => True
  | b :: bm => byte_flags page0 b /\ bitmap_flags (page0 + 8) bm
  end.

Lemma bitmap_flags_app page0 bm bm' :
  bitmap_flags page0 bm -> bitmap_flags (page0 + 8 * length bm) bm' -> bitmap_flags page0 (bm ++ bm').
Proof.
  revert page0. induction bm as [|b bm IH]; intros page0; cbn [bitmap_flags app length].
  { by rewrite Nat.mul_0_r, Nat.add_0_r. }
  intros [Hb Hbm] H'. split; [done|]. apply IH; [done|].
  by replace (page0 + 8 + 8 * length bm)%nat with (page0 + 8 * S (length bm))%nat by lia.
Qed.

Lemma bitmap_flags_lookup page0 bm j b :
  bitmap_flags page0 bm -> bm !! j = Some b -> byte_flags (page0 + 8 * j) b.
Proof.
  revert page0 j. induction bm as [|c bm IH]; intros page0 [|j] H Hj;
    cbn [lookup list_lookup] in Hj; simplify_eq; destruct H as [Hc Hbm].
  - by rewrite Nat.mul_0_r, Nat.add_0_r.
  - replace (page0 + 8 * S j)%nat with (page0 + 8 + 8 * j)%nat by lia. by apply IH.
Qed.

Lemma bitmap_flags_bit bm p :
  bitmap_flags 0 bm -> (p < 8 * length bm)%nat -> bit_set bm p = flagged p.
Proof.
  intros Hbm Hp. unfold bit_set.
  assert (Hdm := Nat.div_mod_eq p 8). assert (Hm : (p mod 8 < 8)%nat) by (by apply Nat.mod_upper_bound).
  destruct (lookup_lt_is_Some_2 bm (p / 8)) as [b Hb]; [lia|].
  rewrite (nth_lookup_Some _ _ _ _ Hb).
  destruct (bitmap_flags_lookup _ _ _ _ Hbm Hb) as [_ Hbits].
  specialize (Hbits _ Hm). rewrite Nat.add_0_l, <- Hdm in Hbits. rewrite <- Hbits, Z.shiftl_1_l.
  destruct (Z.testbit b (Z.of_nat (p mod 8))) eqn:Ht.
  - destruct (Z.eqb_spec (Z.land b (2 ^ Z.of_nat (p mod 8))) 0) as [Hz|]; [|done].
    assert (Z.testbit (Z.land b (2 ^ Z.of_nat (p mod 8))) (Z.of_nat (p mod 8)) = false) as Hf
      by (rewrite Hz; apply Z.bits_0).
    rewrite Z.land_spec, Ht, Z.pow2_bits_true in Hf by lia. done.
  - destruct (Z.eqb_spec (Z.land b (2 ^ Z.of_nat (p mod 8))) 0) as [|Hz]; [done|]. destruct Hz.
    apply Z.bits_inj'. intros m Hm0. rewrite Z.land_spec, Z.bits_0.
    destruct (decide (m = Z.of_nat (p mod 8))) as [->|Hne]; [by rewrite Ht|].
    rewrite Z.pow2_bits_false by lia. apply andb_false_r.
Qed.

Lemma byte_flags_unique page0 b b' : byte_flags page0 b -> byte_flags page0 b' -> b = b'.
Proof.
  intros [Hw H1] [Hw' H2]. apply Z.bits_inj'. intros m Hm.
  destruct (decide (m < 8)); [|by rewrite !(testbit_width 8) by (done || lia)].
  rewrite <- (Z2Nat.id m) by done. by rewrite H1, H2 by lia.
Qed.

Lemma bitmap_flags_unique page0 bm bm' :
  bitmap_flags page0 bm -> bitmap_flags page0 bm' -> length bm = length bm' -> bm = bm'.
Proof.
  revert page0 bm'. induction bm as [|b bm IH]; intros page0 [|b' bm'] H1 H2 Hl; simplify_eq/=; [done|].
  destruct H1 as [Hb H1], H2 as [Hb' H2]. f_equal; [by eapply byte_flags_unique|by eapply IH].
Qed.

(** How many of [m] pages from [p] on satisfy [g]. *)
Fixpoint count (g : nat -> bool) (p m : nat) : Z :=
  match m with O => 0 | S m => Z.b2z (g p) + count g (S p) m end.

Lemma count_app g p m m' : count g p (m + m') = count g p m + count g (p + m) m'.
Proof.
  revert p. induction m as [|m IH]; intros p; cbn [count Nat.add]; [by rewrite Nat.add_0_r|].
  rewrite IH. replace (S p + m)%nat with (p + S m)%nat by lia. lia.
Qed.

Lemma count_bound g p m : 0 <= count g p m <= Z.of_nat m.
Proof.
  revert p. induction m as [|m IH]; intros p; cbn [count]; [lia|].
  specialize (IH (S p)). destruct (g p); simpl; lia.
Qed.

Lemma count_ext g h p m : (forall q, (p <= q < p + m)%nat -> g q = h q) -> count g p m = count h p m.
Proof.
  revert p. induction m as [|m IH]; intros p Hgh; cbn [count]; [done|].
  rewrite (Hgh p), (IH (S p)) by lia || (intros; apply Hgh; lia). done.
Qed.

Lemma count_none g p m : (forall q, (p <= q < p + m)%nat -> g q = false) -> count g p m = 0.
Proof.
  revert p. induction m as [|m IH]; intros p Hg; cbn [count]; [done|].
  rewrite (Hg p) by lia. rewrite (IH (S p)) by (intros; apply Hg; lia). done.
Qed.

Lemma byte_flags_count page0 b : byte_flags page0 b -> count_ones b = count flagged page0 8.
Proof.
  intros [_ Hb]. unfold count_ones. cbn [seq foldr count].
  rewrite !Hb by lia. rewrite !Nat.add_succ_r, Nat.add_0_r. lia.
Qed.

Lemma bitmap_flags_sum page0 bm :
  bitmap_flags page0 bm ->
  foldr (fun b n => count_ones b + n) 0 bm = count flagged page0 (8 * length bm).
Proof.
  revert page0. induction bm as [|b bm IH]; intros page0 H; [done|]. destruct H as [Hb H].
  cbn [foldr length]. rewrite (IH _ H), (byte_flags_count page0 b Hb).
  replace (8 * S (length bm))%nat with (8 + 8 * length bm)%nat by lia. by rewrite count_app.
Qed.

(** The bits past the last page stay clear. *)
Lemma spare_bits_clear bm :
  bitmap_flags 0 bm -> length bm = bitmap_len n -> Z.of_nat n mod 8 <> 0 ->
  Z.land (List.last bm 0) (Z.lxor (Z.shiftl 1 (Z.of_nat n mod 8) - 1) 0xff) = 0.
Proof.
  intros Hbm Hl Hs. unfold bitmap_len in Hl.
  assert (0 <= Z.of_nat n mod 8 < 8) by (apply Z.mod_pos_bound; lia).
  assert (Hlen : Z.of_nat (length bm) = Z.of_nat n / 8 + 1).
  { rewrite Hl, Nat2Z.inj_div, Nat2Z.inj_add. divlia. }
  assert (0 <= Z.of_nat n / 8) by (apply Z.div_pos; lia).
  destruct bm as [|b bm] using rev_ind; [cbn [length] in *; lia|]. clear IHbm.
  rewrite last_last. apply bitmap_flags_lookup with (j := length bm) (b := b) in Hbm as [Hw Hb];
    [|by rewrite list_lookup_middle]. rewrite length_app in Hlen. cbn [length] in Hlen.
  apply Z.bits_inj'. intros i Hi. rewrite Z.land_spec, Z.lxor_spec, Z.bits_0.
  destruct (decide (i < 8)); [|by rewrite (testbit_width 8 b) by (done || lia)].
  destruct (decide (i < Z.of_nat n mod 8)).
  - rewrite Z.shiftl_1_l, Z.sub_1_r, <- Z.ones_equiv, Z.ones_spec_low by lia.
    change 0xff with (Z.ones 8). rewrite Z.ones_spec_low by lia. apply andb_false_r.
  - rewrite <- (Z2Nat.id i), Hb by lia. unfold flagged.
    destruct (Nat.ltb_spec (0 + 8 * length bm + Z.to_nat i) n) as [Hlt|]; [|done].
    exfalso. pose proof (Z.div_mod (Z.of_nat n) 8). lia.
Qed.

(** Workers that flag their own chunks flag all of the bitmap. *)
Lemma par_chunks_flags task fuel chunk left :
  (forall first m, (first < n)%nat -> bitmap_flags first (task first m) /\ length (task first m) = m) ->
  (left <= fuel)%nat -> (chunk * DIFF_PAGES_PER_WORKER + 8 * left <= 8 * bitmap_len n)%nat ->
  bitmap_flags (chunk * DIFF_PAGES_PER_WORKER) (par_chunks task fuel chunk left) /\
  length (par_chunks task fuel chunk left) = left.
Proof.
  intros Htask. assert (Hw : (8 * (DIFF_PAGES_PER_WORKER / 8) = DIFF_PAGES_PER_WORKER)%nat)
    by (by vm_compute). assert (Hw0 : (0 < DIFF_PAGES_PER_WORKER / 8)%nat) by (by apply Nat.ltb_lt; vm_compute).
  remember DIFF_PAGES_PER_WORKER as W eqn:HW. remember (W / 8)%nat as B eqn:HB.
  revert chunk left. induction fuel as [|fuel IH]; intros chunk left Hfuel Hle; cbn [par_chunks].
  { split; [done|]. cbn [length]. lia. }
  rewrite <- HW, <- HB. destruct (Nat.eqb_spec left 0) as [->|Hne]; [done|].
  assert (Hin : (chunk * W < n)%nat).
  { unfold bitmap_len in Hle. pose proof (Nat.div_mod_eq (n + 7) 8). nia. }
  destruct (Htask (chunk * W)%nat (left `min` B)%nat Hin) as [Hf Hl].
  destruct (decide (left <= B)%nat) as [Hsmall|Hbig].
  - rewrite Nat.min_l in * by done. rewrite Nat.sub_diag.
    assert (par_chunks task fuel (S chunk) 0 = []) as -> by (by destruct fuel).
    by rewrite app_nil_r, Hl.
  - rewrite Nat.min_r in * by lia. destruct (IH (S chunk) (left - B)%nat) as [H1 H2]; [lia..|].
    split; [|rewrite length_app, Hl, H2; lia].
    apply bitmap_flags_app; [done|]. rewrite Hl.
    by replace (chunk * W + 8 * B)%nat with (S chunk * W)%nat by lia.
Qed.

End bitmaps.

(** ** The diff against the flat page lists *)

Section diff.

(** All pages of the base and of the live memory, in page order. *)
Context (bf lf : list page).

Definition page_changed (p : nat) : bool := bool_decide (bf !! p <> lf !! p).

(** The specs from page [first] on cover the rest of both lists. *)
Fixpoint specs_cover (first : nat) (specs : list RegionDiff) : Prop :=
  match specs with
  | [] => first = length lf
  | s :: specs =>
      first_page s = first /\
      (forall k, (k < pages s)%nat ->
         (first + k < length lf)%nat /\ base_pages s !! k = bf !! (first + k)%nat /\
         live_pages s !! k = lf !! (first + k)%nat) /\
      specs_cover (first + pages s) specs
  end.

Lemma specs_cover_total first specs :
  specs_cover first specs -> (first + total_pages specs)%nat = length lf.
Proof.
  revert first. induction specs as [|s specs IH]; intros first; cbn [specs_cover total_pages foldr].
  { lia. } intros (_ & _ & H). apply IH in H. unfold total_pages in H. lia.
Qed.

Lemma advance_finds specs first p :
  specs_cover first specs -> (first <= p < length lf)%nat ->
  exists s rest, advance specs p = s :: rest /\ specs_cover (first_page s) (s :: rest) /\
    (first_page s <= p)%nat /\ page_differs s p = page_changed p.
Proof.
  revert first. induction specs as [|s specs IH]; intros first H Hp; cbn [specs_cover advance] in *.
  { lia. }
  destruct H as (Hf & Hs & H). destruct (Nat.leb_spec (first_page s + pages s) p) as [Hle|Hlt].
  { apply (IH _ H). lia. }
  exists s, specs. rewrite Hf. split_and!; [done..|lia|].
  unfold page_differs, page_changed. destruct (Hs (p - first_page s)%nat) as (_ & -> & ->); [lia|].
  by replace (first + (p - first_page s))%nat with p by lia.
Qed.

Lemma diff_byte_step first rest p :
  specs_cover first rest -> (first <= p)%nat -> (p < length lf)%nat ->
  exists s rest', advance rest p = s :: rest' /\ page_differs s p = flagged page_changed (length lf) p /\
    exists first', specs_cover first' (s :: rest') /\ (first' <= p)%nat.
Proof.
  intros H Hf Hp. destruct (advance_finds rest first p H) as (s & rest' & Ha & Hc & Hle & Hd); [lia|].
  exists s, rest'. split_and!; [done| |by eexists].
  unfold flagged. rewrite (proj2 (Nat.ltb_lt _ _)) by done. done.
Qed.

Lemma diff_byte_bits m page0 bit rest value first :
  specs_cover first rest -> (first <= page0 + bit)%nat -> (bit + m <= 8)%nat -> in_width 8 value ->
  (forall i, (bit <= i)%nat -> Z.testbit value (Z.of_nat i) = false) ->
  let '(value', rest') := diff_byte m (length lf) page0 bit rest value in
  (in_width 8 value' /\ (forall i, (i < bit)%nat -> Z.testbit value' (Z.of_nat i) = Z.testbit value (Z.of_nat i)) /\
   (forall i, (bit <= i < bit + m)%nat ->
      Z.testbit value' (Z.of_nat i) = flagged page_changed (length lf) (page0 + i))) /\
  exists first', specs_cover first' rest' /\ (first' <= page0 + bit + m)%nat.
Proof.
  revert bit rest value first. induction m as [|m IH]; intros bit rest value first H Hf Hm Hw Hz;
    cbn [diff_byte].
  { split_and!; [done|done|lia|]. exists first. split; [done|lia]. }
  destruct (Nat.leb_spec (length lf) (page0 + bit)) as [Hge|Hlt].
  { split_and!; [done|done| |].
    - intros i Hi. rewrite Hz by lia. unfold flagged.
      destruct (Nat.ltb_spec (page0 + i) (length lf)); [lia|done].
    - exists first. split; [done|lia]. }
  destruct (diff_byte_step first rest _ H Hf Hlt) as (s & rest' & -> & -> & first' & Hc & Hle).
  set (g := flagged page_changed (length lf) (page0 + bit)).
  set (v := if g then _ else _).
  assert (Hv : forall i, Z.testbit v (Z.of_nat i) =
                 (Z.testbit value (Z.of_nat i) || (bool_decide (i = bit) && g))).
  { intros i. unfold v. destruct g; [by rewrite or_bit_testbit, andb_true_r|].
    by rewrite andb_false_r, orb_false_r. }
  assert (Hwv : in_width 8 v) by (unfold v; destruct g; [apply or_bit_width; [lia|done]|done]).
  specialize (IH (S bit) (s :: rest') v first' Hc ltac:(lia) ltac:(lia) Hwv).
  destruct (diff_byte m (length lf) page0 (S bit) (s :: rest') v) as [value' rest''].
  destruct IH as [(Hw' & Hlo & Hhi) (first'' & Hc'' & Hle'')].
  { intros i Hi. rewrite Hv, Hz, bool_decide_eq_false_2 by lia. done. }
  split_and!; [done| | |exists first''; split; [done|lia]].
  - intros i Hi. rewrite Hlo, Hv, bool_decide_eq_false_2 by lia. apply orb_false_r.
  - intros i Hi. destruct (decide (i = bit)) as [->|]; [|apply Hhi; lia].
    rewrite Hlo, Hv, Hz, bool_decide_eq_true_2 by lia. done.
Qed.

Lemma diff_bytes_flags m page0 rest first :
  specs_cover first rest -> (first <= page0)%nat ->
  bitmap_flags page_changed (length lf) page0 (diff_bytes m (length lf) page0 rest).
Proof.
  revert page0 rest first. induction m as [|m IH]; intros page0 rest first H Hf; cbn [diff_bytes]; [done|].
  pose proof (diff_byte_bits 8 page0 0 rest 0 first H ltac:(lia) ltac:(lia) ltac:(by vm_compute)
    (fun i _ => Z.bits_0 _)) as Hb.
  destruct (diff_byte 8 (length lf) page0 0 rest 0) as [value rest'].
  destruct Hb as [(Hw & _ & Hbits) (first' & Hc & Hle)]. cbn [bitmap_flags]. split.
  - split; [done|]. intros i Hi. apply Hbits. lia.
  - apply (IH _ _ first' Hc). lia.
Qed.

Lemma length_diff_bytes m total page0 rest : length (diff_bytes m total page0 rest) = m.
Proof.
  revert page0 rest. induction m as [|m IH]; intros page0 rest; cbn [diff_bytes]; [done|].
  destruct (diff_byte _ _ _ _ _ _). cbn [length]. by rewrite IH.
Qed.

(** A worker that starts past its region's first page finds the region by bisection;
    past the last page there is nothing to do. *)
Lemma diff_bitmap_chunk_flags specs first m :
  specs_cover 0 specs -> (first < length lf)%nat ->
  bitmap_flags page_changed (length lf) first (diff_bitmap_chunk specs first (length lf) m).
Proof.
  intros H Hf. unfold diff_bitmap_chunk.
  destruct (advance_finds specs 0 first H) as (s & rest & -> & Hc & Hle & _); [lia|].
  by apply (diff_bytes_flags _ _ _ (first_page s)).
Qed.

(** The pages of [l], from number [p] on, that [g] flags. *)
Fixpoint picked (g : nat -> bool) (p : nat) (l : list page) : list page :=
  match l with [] => [] | x :: l => (if g p then [x] else []) ++ picked g (S p) l end.

Lemma picked_app g p l l' : picked g p (l ++ l') = picked g p l ++ picked g (p + length l) l'.
Proof.
  revert p. induction l as [|x l IH]; intros p; cbn [picked app length]; [by rewrite Nat.add_0_r|].
  by rewrite IH, <- app_assoc, Nat.add_succ_r.
Qed.

Lemma length_picked g p l : Z.of_nat (length (picked g p l)) = count g p (length l).
Proof.
  revert p. induction l as [|x l IH]; intros p; cbn [picked count length]; [done|].
  rewrite length_app, Nat2Z.inj_add, IH. by destruct (g p).
Qed.

Lemma picked_lookup g l p x :
  l !! p = Some x -> g p = true -> picked g 0 l !! Z.to_nat (count g 0 p) = Some x.
Proof.
  intros Hl Hg. rewrite <- (take_drop_middle l p x Hl), picked_app.
  assert (Hlen : length (take p l) = p) by (apply length_take_le; apply lookup_lt_Some in Hl; lia).
  rewrite lookup_app_r; rewrite <- (Nat2Z.id (length _)), length_picked, Hlen; [|done].
  cbn [picked Nat.add]. rewrite Hg. by rewrite Nat.sub_diag.
Qed.

Lemma changed_pages_picked g bm p l :
  (forall q, (p <= q < p + length l)%nat -> bit_set bm q = g q) -> changed_pages bm p l = picked g p l.
Proof.
  revert p. induction l as [|x l IH]; intros p Hg; cbn [changed_pages picked]; [done|]. cbn [length] in Hg.
  rewrite (Hg p) by lia. rewrite (IH (S p)) by (intros; apply Hg; lia). by destruct (g p).
Qed.

Lemma specs_cover_live s first specs :
  specs_cover first (s :: specs) -> drop first lf = take (pages s) (live_pages s) ++ drop (first + pages s) lf.
Proof.
  intros (_ & Hs & Hc). apply specs_cover_total in Hc.
  apply list_eq. intros k. rewrite lookup_drop. destruct (decide (k < pages s)%nat) as [Hk|Hk].
  - destruct (Hs k Hk) as (? & _ & Hl). assert (is_Some (lf !! (first + k)%nat)) as [x Hx]
      by (by apply lookup_lt_is_Some_2).
    rewrite lookup_app_l; [by rewrite lookup_take_lt, Hl by done|].
    rewrite length_take. rewrite Hx in Hl. apply lookup_lt_Some in Hl. lia.
  - assert (Hlen : length (take (pages s) (live_pages s)) = pages s).
    { rewrite length_take_le; [done|]. destruct (pages s) as [|m] eqn:Hm; [lia|].
      destruct (Hs m) as (? & _ & Hl); [lia|].
      assert (is_Some (live_pages s !! m)) as Hi by (rewrite Hl; by apply lookup_lt_is_Some_2).
      apply lookup_lt_is_Some_1 in Hi. lia. }
    rewrite lookup_app_r, Hlen, lookup_drop by lia. f_equal. lia.
Qed.

Lemma write_changed_pages_picked g bm first specs :
  specs_cover first specs -> (forall q, (q < length lf)%nat -> bit_set bm q = g q) ->
  write_changed_pages specs bm = picked g first (drop first lf).
Proof.
  intros H Hg. revert first H. induction specs as [|s specs IH]; intros first H.
  { cbn [specs_cover] in H. subst. by rewrite drop_all. }
  rewrite (specs_cover_live s first specs H), picked_app. pose proof (specs_cover_total _ _ H) as Ht.
  pose proof (specs_cover_live s first specs H) as Hd. apply (f_equal length) in Hd.
  rewrite length_app, !length_drop in Hd. cbn [total_pages foldr] in Ht.
  destruct H as (Hf & _ & H). unfold write_changed_pages in *. cbn [map concat].
  rewrite (IH _ H), Hf. f_equal; [|by f_equal; lia].
  apply changed_pages_picked. intros. apply Hg. lia.
Qed.

(** The parallel diff flags exactly the pages that differ and writes them in order. *)
Lemma diff_pages_parallel_spec specs :
  specs_cover 0 specs ->
  let '(bm, out) := diff_pages_parallel specs in
  bitmap_flags page_changed (length lf) 0 bm /\ length bm = bitmap_len (length lf) /\
  out = picked page_changed 0 lf.
Proof.
  intros H. unfold diff_pages_parallel. pose proof (specs_cover_total _ _ H) as Ht. rewrite Nat.add_0_l in Ht.
  rewrite Ht. destruct (par_chunks_flags page_changed (length lf)
    (fun first n => diff_bitmap_chunk specs first (length lf) n) (bitmap_len (length lf)) 0
    (bitmap_len (length lf))) as [Hf Hl]; [|lia..|].
  { intros first m Hm. split; [by apply diff_bitmap_chunk_flags|apply length_diff_bytes]. }
  change (0 * DIFF_PAGES_PER_WORKER)%nat with 0%nat in Hf.
  split_and!; [done..|]. rewrite (write_changed_pages_picked page_changed _ 0 specs H); [by rewrite drop_0|].
  intros q Hq. rewrite (bitmap_flags_bit _ _ _ _ Hf).
  - unfold flagged. by rewrite (proj2 (Nat.ltb_lt _ _)).
  - rewrite Hl. by apply bitmap_len_covers.
Qed.

End diff.

(** ** Guest memory as a flat list of pages *)

(** What [vm-memory] keeps: regions in address order, apart, and below [2^64]. *)
Fixpoint mem_ok (lo : Z) (mem : GuestMemory) : Prop :=
  match mem with
  | [] => True
  | r :: mem => lo <= start_addr r /\ start_addr r + region_len r < 2 ^ 64 /\
                mem_ok (start_addr r + region_len r) mem
  end.

Definition flat (mem : GuestMemory) : list page := concat (map r_pages mem).

Definition layout (mem : GuestMemory) : list (Z * nat) :=
  map (fun r => (start_addr r, length (r_pages r))) mem.

Lemma layout_cons r mem mem' :
  layout mem' = layout (r :: mem) ->
  exists r' m, mem' = r' :: m /\ start_addr r' = start_addr r /\ length (r_pages r') = length (r_pages r) /\
    region_len r' = region_len r /\ layout m = layout mem.
Proof.
  destruct mem' as [|r' m]; [done|]. cbn [layout map]. intros [= Hs Hl Hm].
  exists r', m. unfold region_len. rewrite Hl. done.
Qed.

Lemma mem_ok_layout lo mem mem' : layout mem' = layout mem -> mem_ok lo mem -> mem_ok lo mem'.
Proof.
  revert lo mem'. induction mem as [|r mem IH]; intros lo mem' Hl H.
  { by destruct mem'. }
  apply layout_cons in Hl as (r' & m & -> & Hs & _ & Hr & Hl). cbn [mem_ok] in *. rewrite Hs, Hr.
  naive_solver.
Qed.

Lemma region_table_layout mem mem' off :
  layout mem' = layout mem -> region_table mem' off = region_table mem off.
Proof.
  revert mem' off. induction mem as [|r mem IH]; intros mem' off Hl.
  { by destruct mem'. }
  apply layout_cons in Hl as (r' & m & -> & Hs & _ & Hr & Hl). cbn [region_table]. rewrite Hs, Hr.
  repeat case_match; try done. destruct (checked_add 64 off (region_len r)); cbn [ok_or result_bind]; [|done].
  by rewrite (IH _ _ Hl).
Qed.

Lemma memory_region_table_layout mem mem' :
  layout mem' = layout mem -> memory_region_table mem' = memory_region_table mem.
Proof. intros Hl. unfold memory_region_table. by rewrite (region_table_layout mem mem'). Qed.

(** One step of a table that was built. *)
Lemma region_table_cons r mem off regions :
  region_table (r :: mem) off = Ok regions ->
  exists regions', regions = mkMemRegion (start_addr r) (region_len r) off :: regions' /\
    region_table mem (off + region_len r) = Ok regions' /\
    start_addr r mod DELTA_PAGE_SIZE = 0 /\ (0 < length (r_pages r))%nat /\ off + region_len r < 2 ^ 64.
Proof.
  cbn [region_table]. intros H. inv_ok. bool_to_prop. unfold region_len, DELTA_PAGE_SIZE in *.
  match goal with H : checked_add _ _ _ = Some _ |- _ => apply checked_add_Some in H as [-> ?] end.
  eexists. split_and!; [done..|lia|lia].
Qed.

Lemma region_table_inj mem mem' off regions :
  region_table mem off = Ok regions -> region_table mem' off = Ok regions -> layout mem' = layout mem.
Proof.
  revert mem' off regions. induction mem as [|r mem IH]; intros [|r' mem'] off regions H H'; try done.
  - cbn [region_table] in H. simplify_eq. by apply region_table_cons in H' as (? & ? & _).
  - cbn [region_table] in H'. simplify_eq. by apply region_table_cons in H as (? & ? & _).
  - apply region_table_cons in H as (regions1 & -> & H & _).
    apply region_table_cons in H' as (regions2 & [= Hs Hr <-] & H' & _).
    rewrite <- Hr in H'. cbn [layout map]. f_equal; [|by eapply IH].
    unfold region_len, DELTA_PAGE_SIZE in Hr. f_equal; [done|lia].
Qed.

Lemma memory_region_table_Ok mem regions :
  memory_region_table mem = Ok regions -> region_table mem 0 = Ok regions.
Proof.
  unfold memory_region_table. intros H. apply result_bind_Ok in H as (x & Hx & H).
  by destruct x; simplify_eq.
Qed.

Lemma same_layout_eq a b : same_layout a b = true -> a = b.
Proof.
  revert b. induction a as [|[g l o] a IH]; intros [|[g' l' o'] b]; cbn [same_layout]; try done.
  unfold same_region. cbn [gpa m_len file_offset]. intros H. bool_to_prop. subst. f_equal. by apply IH.
Qed.

Lemma same_layout_refl a : same_layout a a = true.
Proof.
  induction a as [|r a IH]; cbn [same_layout]; [done|]. unfold same_region. by rewrite !Z.eqb_refl, IH.
Qed.

Lemma ensure_layout_Ok mem regions :
  ensure_guest_memory_layout mem regions = Ok tt <-> memory_region_table mem = Ok regions.
Proof.
  unfold ensure_guest_memory_layout. split.
  - intros H. inv_ok. by match goal with H : same_layout _ _ = true |- _ => apply same_layout_eq in H as <- end.
  - intros ->. cbn [result_bind]. by rewrite same_layout_refl.
Qed.

Lemma total_len_table mem off regions total :
  region_table mem off = Ok regions -> total + DELTA_PAGE_SIZE * Z.of_nat (length (flat mem)) < 2 ^ 64 ->
  total_len regions total = Ok (total + DELTA_PAGE_SIZE * Z.of_nat (length (flat mem))).
Proof.
  revert off regions total. induction mem as [|r mem IH]; intros off regions total H Hlt.
  { cbn [region_table] in H. simplify_eq. cbn [total_len flat map concat length]. f_equal. lia. }
  apply region_table_cons in H as (regions' & -> & H & _). cbn [total_len m_len].
  unfold flat in *. cbn [map concat] in *. rewrite length_app, Nat2Z.inj_add in *.
  rewrite checked_add_fits by (unfold region_len, DELTA_PAGE_SIZE in *; lia).
  cbn [ok_or result_bind]. unfold region_len. rewrite (IH _ _ _ H); unfold DELTA_PAGE_SIZE in *; [f_equal; lia|lia].
Qed.

(** Regions apart and below [2^64] have less than [2^64] bytes in all. *)
Lemma mem_ok_total lo mem :
  mem_ok lo mem -> 0 <= lo < 2 ^ 64 -> lo + DELTA_PAGE_SIZE * Z.of_nat (length (flat mem)) < 2 ^ 64.
Proof.
  revert lo. induction mem as [|r mem IH]; intros lo H Hlo; [unfold flat, DELTA_PAGE_SIZE; cbn [map concat length]; lia|].
  destruct H as (H1 & H2 & H). unfold flat in *. cbn [map concat]. rewrite length_app, Nat2Z.inj_add.
  assert (0 <= region_len r) by (unfold region_len, DELTA_PAGE_SIZE; lia).
  specialize (IH _ H ltac:(lia)). unfold region_len, DELTA_PAGE_SIZE in *. lia.
Qed.

Lemma regions_total_len_table mem regions :
  mem_ok 0 mem -> memory_region_table mem = Ok regions ->
  regions_total_len regions = Ok (DELTA_PAGE_SIZE * Z.of_nat (length (flat mem))).
Proof.
  intros Hok H. apply memory_region_table_Ok in H. unfold regions_total_len.
  rewrite (total_len_table mem 0 regions 0 H); [done|]. pose proof (mem_ok_total 0 mem Hok). lia.
Qed.

Lemma layout_flat_eq mem mem' : layout mem = layout mem' -> flat mem = flat mem' -> mem = mem'.
Proof.
  revert mem'. induction mem as [|[s ps] mem IH]; intros mem' Hl Hf.
  { by destruct mem'. }
  symmetry in Hl. apply layout_cons in Hl as ([s' ps'] & m & -> & Hs & Hn & _ & Hl).
  unfold flat in Hf. cbn [map concat r_pages start_addr] in *. subst.
  apply app_inj_1 in Hf as [-> Hf]; [|done]. f_equal. by apply IH.
Qed.

Lemma layout_flat_length mem mem' : layout mem = layout mem' -> length (flat mem) = length (flat mem').
Proof.
  revert mem'. induction mem as [|r mem IH]; intros mem' Hl; [by destruct mem'|].
  symmetry in Hl. apply layout_cons in Hl as (r' & m & -> & _ & Hn & _ & Hl). unfold flat in *.
  cbn [map concat]. rewrite !length_app, Hn. f_equal. by apply IH.
Qed.

(** ** Addresses *)

Lemma in_region_at r k :
  (k < length (r_pages r))%nat -> in_region r (start_addr r + DELTA_PAGE_SIZE * Z.of_nat k) = true.
Proof.
  intros. unfold in_region, region_len, DELTA_PAGE_SIZE. apply andb_true_iff.
  split; [apply Z.leb_le|apply Z.ltb_lt]; lia.
Qed.

Lemma in_region_past r a : start_addr r + region_len r <= a -> in_region r a = false.
Proof. intros. unfold in_region. apply andb_false_iff. right. apply Z.ltb_ge. lia. Qed.

Lemma page_in_region r k :
  Z.to_nat ((start_addr r + DELTA_PAGE_SIZE * Z.of_nat k - start_addr r) / DELTA_PAGE_SIZE) = k.
Proof.
  replace (start_addr r + DELTA_PAGE_SIZE * Z.of_nat k - start_addr r)
    with (Z.of_nat k * DELTA_PAGE_SIZE) by lia.
  rewrite Z.div_mul by (unfold DELTA_PAGE_SIZE; lia). apply Nat2Z.id.
Qed.

(** Page [p] of the flat list has an address, and a page written there replaces it. *)
Lemma page_address lo mem o regions p :
  mem_ok lo mem -> region_table mem (DELTA_PAGE_SIZE * Z.of_nat o) = Ok regions ->
  (p < length (flat mem))%nat ->
  exists a, region_of_byte (DELTA_PAGE_SIZE * Z.of_nat (o + p)) regions = Ok a /\ lo <= a /\
    is_Some (pages_at mem a) /\
    forall q, exists mem', write_pages mem a [q] = Some mem' /\ layout mem' = layout mem /\
      flat mem' = <[p := q]> (flat mem).
Proof.
  revert lo o regions p. induction mem as [|r mem IH]; intros lo o regions p Hok Ht Hp.
  { unfold flat in Hp. cbn [map concat length] in Hp. lia. }
  apply region_table_cons in Ht as (regions' & -> & Ht & Hal & Hne & Hov). destruct Hok as (H1 & H2 & Hok).
  cbn [region_of_byte file_offset m_len gpa].
  rewrite (checked_add_fits 64 _ _ Hov). cbn [ok_or result_bind].
  unfold flat in *. cbn [map concat] in *. rewrite length_app in Hp.
  destruct (decide (p < length (r_pages r))%nat) as [Hin|Hout].
  - exists (start_addr r + DELTA_PAGE_SIZE * Z.of_nat p).
    assert ((DELTA_PAGE_SIZE * Z.of_nat o <=? DELTA_PAGE_SIZE * Z.of_nat (o + p)) &&
            (DELTA_PAGE_SIZE * Z.of_nat (o + p) <? DELTA_PAGE_SIZE * Z.of_nat o + region_len r) = true) as ->.
    { unfold region_len, DELTA_PAGE_SIZE. apply andb_true_iff. split; [apply Z.leb_le|apply Z.ltb_lt]; lia. }
    cbn [pages_at write_pages]. rewrite in_region_at, page_in_region by done.
    split_and!; [|unfold DELTA_PAGE_SIZE; lia|by eexists|].
    + replace (DELTA_PAGE_SIZE * Z.of_nat (o + p) - DELTA_PAGE_SIZE * Z.of_nat o)
        with (DELTA_PAGE_SIZE * Z.of_nat p) by lia.
      rewrite checked_add_fits; [done|]. unfold region_len, DELTA_PAGE_SIZE in *. lia.
    + intros q. eexists. split; [done|]. cbn [length app].
      rewrite Nat.add_1_r, <- insert_take_drop by done. unfold layout. cbn [map concat start_addr r_pages].
      rewrite length_insert. split; [done|]. by rewrite insert_app_l.
  - assert ((DELTA_PAGE_SIZE * Z.of_nat o <=? DELTA_PAGE_SIZE * Z.of_nat (o + p)) &&
            (DELTA_PAGE_SIZE * Z.of_nat (o + p) <? DELTA_PAGE_SIZE * Z.of_nat o + region_len r) = false) as ->.
    { unfold region_len, DELTA_PAGE_SIZE. apply andb_false_iff. right. apply Z.ltb_ge. lia. }
    destruct (IH (start_addr r + region_len r) (o + length (r_pages r))%nat regions' (p - length (r_pages r))%nat)
      as (a & Ha & Hlo & Hat & Hw); [done| |lia|].
    { rewrite Nat2Z.inj_add, Z.mul_add_distr_l. done. }
    exists a. replace (o + length (r_pages r) + (p - length (r_pages r)))%nat with (o + p)%nat in Ha by lia.
    cbn [pages_at write_pages]. rewrite in_region_past by done.
    split_and!; [done| |done|].
    { unfold region_len, DELTA_PAGE_SIZE in *. lia. }
    intros q. destruct (Hw q) as (mem' & -> & Hl & Hf). eexists. split; [done|].
    unfold layout. cbn [map concat]. split; [by f_equal|]. by rewrite Hf, insert_app_r_alt by lia.
Qed.

(** ** Reading a full memory file *)

Definition ends_below (a : Z) (r : GuestRegion) : Prop := start_addr r + region_len r <= a.

Lemma pages_at_app pre mem a : Forall (ends_below a) pre -> pages_at (pre ++ mem) a = pages_at mem a.
Proof. induction 1 as [|r pre Hr _ IH]; cbn [app pages_at]; [done|]. by rewrite in_region_past. Qed.

Lemma write_pages_app pre mem a data :
  Forall (ends_below a) pre -> write_pages (pre ++ mem) a data = app pre <$> write_pages mem a data.
Proof.
  induction 1 as [|r pre Hr _ IH]; cbn [app write_pages].
  { by destruct (write_pages mem a data). }
  rewrite in_region_past, IH by done. by destruct (write_pages mem a data).
Qed.

Lemma in_region_start r : (0 < length (r_pages r))%nat -> in_region r (start_addr r) = true.
Proof. intros H. rewrite <- (in_region_at r 0 H). f_equal. lia. Qed.

Lemma page_of_start r : Z.to_nat ((start_addr r - start_addr r) / DELTA_PAGE_SIZE) = 0%nat.
Proof. by rewrite Z.sub_diag. Qed.

Lemma pages_of_len r : Z.to_nat (region_len r / DELTA_PAGE_SIZE) = length (r_pages r).
Proof.
  unfold region_len. rewrite Z.mul_comm, Z.div_mul by (unfold DELTA_PAGE_SIZE; lia). apply Nat2Z.id.
Qed.

Lemma page_of_offset o : Z.to_nat (DELTA_PAGE_SIZE * Z.of_nat o / DELTA_PAGE_SIZE) = o.
Proof. rewrite Z.mul_comm, Z.div_mul by (unfold DELTA_PAGE_SIZE; lia). apply Nat2Z.id. Qed.

Lemma load_regions_spec lo pre mem o regions file :
  mem_ok lo mem -> Forall (ends_below lo) pre ->
  region_table mem (DELTA_PAGE_SIZE * Z.of_nat o) = Ok regions ->
  length file = (o + length (flat mem))%nat ->
  exists mem', load_regions regions (pre ++ mem) file = Ok (pre ++ mem') /\
    layout mem' = layout mem /\ flat mem' = drop o file.
Proof.
  revert lo pre o regions. induction mem as [|r mem IH]; intros lo pre o regions Hok Hpre Ht Hlen.
  { cbn [region_table] in Ht. simplify_eq. exists []. split_and!; [done..|].
    unfold flat in *. cbn [map concat length] in *. by rewrite drop_ge by lia. }
  apply region_table_cons in Ht as (regions' & -> & Ht & _ & Hne & _). destruct Hok as (H1 & _ & Hok).
  assert (Hpre' : Forall (ends_below (start_addr r)) pre).
  { eapply Forall_impl; [done|]. unfold ends_below. lia. }
  cbn [load_regions gpa m_len file_offset]. rewrite pages_at_app, write_pages_app by done.
  cbn [pages_at write_pages]. rewrite in_region_start, page_of_start, pages_of_len, page_of_offset by done.
  set (data := take (length (r_pages r)) (drop o file)).
  assert (Hdata : length data = length (r_pages r)).
  { unfold data. rewrite length_take, length_drop. unfold flat in Hlen. cbn [map concat] in Hlen.
    rewrite length_app in Hlen. lia. }
  rewrite Hdata, Nat.eqb_refl. cbn [ok_or result_bind negb fmap option_fmap option_map take app].
  rewrite Nat.add_0_l, drop_all, app_nil_r.
  destruct (IH (start_addr r + region_len r) (pre ++ [mkGuestRegion (start_addr r) data])
              (o + length (r_pages r))%nat regions') as (mem' & Hload & Hl & Hf).
  - done.
  - apply Forall_app. split; [eapply Forall_impl; [done|]|].
    + unfold ends_below, region_len, DELTA_PAGE_SIZE. lia.
    + apply Forall_singleton. unfold ends_below, region_len. cbn [start_addr r_pages]. by rewrite Hdata.
  - by rewrite Nat2Z.inj_add, Z.mul_add_distr_l.
  - unfold flat in *. cbn [map concat] in Hlen. rewrite length_app in Hlen. lia.
  - exists (mkGuestRegion (start_addr r) data :: mem'). rewrite <- !app_assoc in Hload. cbn [app] in Hload.
    split; [done|]. unfold layout, flat in *. cbn [map concat start_addr r_pages]. rewrite Hdata.
    split; [by f_equal|]. rewrite Hf. unfold data. by rewrite <- drop_drop, take_drop.
Qed.

Lemma load_memory_file_spec mem regions file :
  mem_ok 0 mem -> memory_region_table mem = Ok regions -> length file = length (flat mem) ->
  exists mem', load_memory_file file mem regions = Ok mem' /\ layout mem' = layout mem /\ flat mem' = file.
Proof.
  intros Hok Ht Hlen. unfold load_memory_file.
  rewrite (proj2 (ensure_layout_Ok _ _) Ht), (regions_total_len_table _ _ Hok Ht). cbn [result_bind].
  rewrite Hlen, Z.eqb_refl. cbn [negb].
  destruct (load_regions_spec 0 [] mem 0 regions file) as (mem' & H & Hl & Hf); try done.
  { by apply memory_region_table_Ok. }
  exists mem'. by rewrite drop_0 in Hf.
Qed.

Lemma load_memory_file_Ok mem regions file m :
  mem_ok 0 mem -> load_memory_file file mem regions = Ok m ->
  memory_region_table mem = Ok regions /\ layout m = layout mem /\ flat m = file.
Proof.
  intros Hok H. assert (Ht : memory_region_table mem = Ok regions /\ length file = length (flat mem)).
  { unfold load_memory_file in H. inv_ok. destruct x. rewrite ensure_layout_Ok in H0. split; [done|].
    rewrite (regions_total_len_table _ _ Hok H0) in H1. simplify_eq. bool_to_prop.
    unfold DELTA_PAGE_SIZE in *. lia. }
  destruct Ht as [Ht Hlen]. destruct (load_memory_file_spec mem regions file) as (m' & H' & ? & ?); try done.
  by rewrite H in H'; simplify_eq.
Qed.

(** ** Where a region's pages are *)

(** The pages at a region of the table are those of the flat list from its offset on. *)
Lemma pages_at_table lo mem o regions r :
  mem_ok lo mem -> region_table mem (DELTA_PAGE_SIZE * Z.of_nat o) = Ok regions -> r ∈ regions ->
  exists ps i, pages_at mem (gpa r) = Some ps /\ lo <= gpa r /\ file_offset r = DELTA_PAGE_SIZE * Z.of_nat (o + i) /\
    (forall k, (k < Z.to_nat (m_len r / DELTA_PAGE_SIZE))%nat ->
       (i + k < length (flat mem))%nat /\ ps !! k = flat mem !! (i + k)%nat).
Proof.
  revert lo o regions. induction mem as [|r0 mem IH]; intros lo o regions Hok Ht Hr.
  { cbn [region_table] in Ht. simplify_eq. by apply elem_of_nil in Hr. }
  apply region_table_cons in Ht as (regions' & -> & Ht & _ & Hne & _). destruct Hok as (H1 & _ & Hok).
  unfold flat in *. cbn [map concat pages_at]. apply elem_of_cons in Hr as [->|Hr].
  - exists (r_pages r0), 0%nat. cbn [gpa file_offset m_len].
    rewrite in_region_start, page_of_start, pages_of_len, drop_0, Nat.add_0_r by done.
    split_and!; [done..|]. intros k Hk. rewrite length_app, Nat.add_0_l. split; [lia|].
    by rewrite lookup_app_l.
  - destruct (IH (start_addr r0 + region_len r0) (o + length (r_pages r0))%nat regions')
      as (ps & i & Hat & Hlo & Hoff & Hps); [done|by rewrite Nat2Z.inj_add, Z.mul_add_distr_l|done|].
    exists ps, (length (r_pages r0) + i)%nat. rewrite in_region_past by done.
    split_and!; [done| |by rewrite Nat.add_assoc|].
    { unfold region_len, DELTA_PAGE_SIZE in *. lia. }
    intros k Hk. destruct (Hps k Hk) as [? ->]. rewrite length_app. split; [lia|].
    rewrite lookup_app_r by lia. f_equal. lia.
Qed.

(** Regions back to back in the file, from page [first] up to page [last]. *)
Fixpoint back_to_back (first last : nat) (regions : list MemRegion) : Prop :=
  match regions with
  | [] => first = last
  | r :: regions => file_offset r = DELTA_PAGE_SIZE * Z.of_nat first /\
                    back_to_back (first + Z.to_nat (m_len r / DELTA_PAGE_SIZE)) last regions
  end.

Lemma region_table_back_to_back mem o regions :
  region_table mem (DELTA_PAGE_SIZE * Z.of_nat o) = Ok regions ->
  back_to_back o (o + length (flat mem)) regions.
Proof.
  revert o regions. induction mem as [|r mem IH]; intros o regions Ht.
  { cbn [region_table] in Ht. simplify_eq. unfold flat. cbn [back_to_back map concat length]. lia. }
  apply region_table_cons in Ht as (regions' & -> & Ht & _). cbn [back_to_back file_offset m_len].
  split; [done|]. rewrite pages_of_len. unfold flat in *. cbn [map concat]. rewrite length_app, Nat.add_assoc.
  apply IH. by rewrite Nat2Z.inj_add, Z.mul_add_distr_l.
Qed.

Definition view_flat (view : BaseView) : list page :=
  match view with Mapped file => file | Scratch mem => flat mem end.

(** A base of the layout of [live]. *)
Definition view_fits (view : BaseView) (live : GuestMemory) : Prop :=
  match view with
  | Mapped file => length file = length (flat live)
  | Scratch mem => layout mem = layout live
  end.

Lemma view_base_at view live regions r :
  mem_ok 0 live -> memory_region_table live = Ok regions -> view_fits view live -> r ∈ regions ->
  exists ps, match view with
    | Mapped file => Ok (drop (Z.to_nat (file_offset r / DELTA_PAGE_SIZE)) file)
    | Scratch mem => ok_or (pages_at mem (gpa r)) "host address for base"
    end = Ok ps /\
    forall i k, file_offset r = DELTA_PAGE_SIZE * Z.of_nat i -> (k < Z.to_nat (m_len r / DELTA_PAGE_SIZE))%nat ->
      ps !! k = view_flat view !! (i + k)%nat.
Proof.
  intros Hok Ht Hfit Hr. destruct view as [file|mem]; cbn [view_fits view_flat] in *.
  { eexists. split; [done|]. intros i k -> _. by rewrite page_of_offset, lookup_drop. }
  destruct (pages_at_table 0 mem 0 regions r) as (ps & i & Hat & _ & Hoff & Hps).
  - by apply (mem_ok_layout _ live).
  - apply memory_region_table_Ok. by rewrite (memory_region_table_layout live).
  - done.
  - exists ps. rewrite Hat. split; [done|]. intros i' k Hi Hk.
    assert (i' = i) as -> by (unfold DELTA_PAGE_SIZE in *; lia). by apply Hps.
Qed.

Lemma diff_specs_cover view live regions all specs first :
  mem_ok 0 live -> memory_region_table live = Ok all -> view_fits view live ->
  (forall r, r ∈ regions -> r ∈ all) -> back_to_back first (length (flat live)) regions ->
  diff_specs view live regions first = Ok specs ->
  specs_cover (view_flat view) (flat live) first specs.
Proof.
  intros Hok Ht Hfit. revert first specs. induction regions as [|r regions IH]; intros first specs Hin Hb H.
  { cbn [diff_specs] in H. by simplify_eq. }
  cbn [diff_specs] in H. destruct Hb as [Hoff Hb].
  destruct (pages_at_table 0 live 0 all r) as (ps & i & Hat & _ & Hoff' & Hps);
    [done|by apply memory_region_table_Ok|apply Hin; by left|].
  destruct (view_base_at view live all r Hok Ht Hfit) as (bs & Hbs & Hb'); [apply Hin; by left|].
  rewrite Hat, Hbs in H. cbn [ok_or result_bind] in H. inv_ok.
  cbn [specs_cover pages first_page base_pages live_pages]. split_and!; [done| |].
  - intros k Hk. assert (i = first) as -> by (unfold DELTA_PAGE_SIZE in *; lia).
    destruct (Hps k Hk). split_and!; [done|by apply Hb'|done].
  - eapply IH; [|done..]. intros. apply Hin. by right.
Qed.

Lemma region_diff_specs_cover view live regions specs :
  mem_ok 0 live -> memory_region_table live = Ok regions -> view_fits view live ->
  region_diff_specs view live regions = Ok specs ->
  specs_cover (view_flat view) (flat live) 0 specs.
Proof.
  intros Hok Ht Hfit. apply (diff_specs_cover _ _ _ regions); try done.
  apply (region_table_back_to_back live 0). by apply memory_region_table_Ok.
Qed.

(** ** Applying a diff *)

Section apply.

Context (bf : list page) (live : GuestMemory) (regions : list MemRegion) (bm : list Z).
Context (Hok : mem_ok 0 live) (Htable : memory_region_table live = Ok regions).
Context (Hlen : length bf = length (flat live)).
Context (Hflags : bitmap_flags (page_changed bf (flat live)) (length (flat live)) 0 bm).
Context (Hbm : length bm = bitmap_len (length (flat live))).

Local Abbreviation lf := (flat live).
Local Abbreviation changed := (page_changed bf lf).

Lemma total_bytes : DELTA_PAGE_SIZE * Z.of_nat (length lf) < 2 ^ 64.
Proof. pose proof (mem_ok_total 0 live Hok). lia. Qed.

Lemma bitmap_covers : (length lf <= 8 * length bm)%nat.
Proof. rewrite Hbm. pose proof (bitmap_len_covers (length lf) (length lf - 1)). lia. Qed.

Lemma bit_set_changed p : (p < length lf)%nat -> bit_set bm p = changed p.
Proof.
  intros Hp. pose proof bitmap_covers. rewrite (bitmap_flags_bit _ _ _ _ Hflags) by lia.
  unfold flagged. by rewrite (proj2 (Nat.ltb_lt _ _)).
Qed.

Lemma page_index_address mem p :
  layout mem = layout live -> (p < length lf)%nat ->
  exists a, page_index_to_gpa p regions = Ok a /\ is_Some (pages_at mem a) /\
    forall q, exists mem', write_pages mem a [q] = Some mem' /\ layout mem' = layout live /\
      flat mem' = <[p := q]> (flat mem).
Proof.
  intros Hl Hp. assert (Hp' : (p < length (flat mem))%nat) by (by rewrite (layout_flat_length _ _ Hl)).
  destruct (page_address 0 mem 0 regions p) as (a & Ha & _ & Hat & Hw); [| |done|].
  - by apply (mem_ok_layout _ live).
  - apply memory_region_table_Ok. by rewrite (memory_region_table_layout live).
  - exists a. unfold page_index_to_gpa, checked_mul. rewrite (proj2 (Z.ltb_lt _ _)).
    { rewrite Z.mul_comm. cbn [ok_or result_bind]. split_and!; [done..|].
      intros q. destruct (Hw q) as (mem' & ? & ? & ?). exists mem'. split_and!; [done|congruence|done]. }
    pose proof total_bytes. unfold DELTA_PAGE_SIZE in *. lia.
Qed.

(** Pages below [p] are live already, those from [p] on still the base's. *)
Lemma apply_pages_spec n p mem :
  (n + p = length lf)%nat -> layout mem = layout live -> flat mem = take p lf ++ drop p bf ->
  apply_pages n p (DELTA_PAGE_SIZE * count changed 0 p) (picked changed 0 lf) mem bm regions = Ok live.
Proof.
  revert p mem. induction n as [|n IH]; intros p mem Hn Hl Hf; cbn [apply_pages].
  { f_equal. apply layout_flat_eq; [done|]. rewrite Hf, take_ge, drop_ge, app_nil_r by lia. done. }
  assert (Hp : (p < length lf)%nat) by lia.
  destruct (lookup_lt_is_Some_2 lf p Hp) as [y Hy], (lookup_lt_is_Some_2 bf p ltac:(lia)) as [x Hx].
  assert (Hcount : count changed 0 (S p) = count changed 0 p + Z.b2z (changed p)).
  { rewrite <- Nat.add_1_r, count_app. cbn [count Nat.add]. lia. }
  rewrite bit_set_changed by done. destruct (changed p) eqn:Hc; cbn [negb].
  - destruct (page_index_address mem p Hl Hp) as (a & -> & [ps Hps] & Hw). cbn [result_bind].
    rewrite Hps. cbn [ok_or result_bind].
    pose proof (count_bound changed 0 p). rewrite Z.mul_comm, Z.div_mul by (unfold DELTA_PAGE_SIZE; lia).
    rewrite (picked_lookup _ _ _ _ Hy Hc). cbn [ok_or result_bind].
    destruct (Hw y) as (mem' & -> & Hl' & Hf'). cbn [ok_or result_bind].
    rewrite checked_add_fits by (pose proof total_bytes; unfold DELTA_PAGE_SIZE in *; lia).
    cbn [ok_or result_bind].
    replace (count changed 0 p * DELTA_PAGE_SIZE + DELTA_PAGE_SIZE)
      with (DELTA_PAGE_SIZE * count changed 0 (S p)) by (rewrite Hcount; simpl; lia).
    apply IH; [lia|done|]. rewrite Hf', Hf, (drop_S bf x p Hx), (take_S_r lf p y Hy), <- app_assoc.
    rewrite insert_app_r_alt by (rewrite length_take; lia).
    rewrite length_take_le, Nat.sub_diag by lia. done.
  - assert (x = y) as ->.
    { unfold page_changed in Hc. rewrite Hx, Hy in Hc. apply bool_decide_eq_false in Hc.
      destruct (decide (x = y)); [done|]. destruct Hc. congruence. }
    replace (count changed 0 p) with (count changed 0 (S p)) by (rewrite Hcount; simpl; lia).
    apply IH; [lia|done|]. by rewrite Hf, (drop_S bf y p Hx), (take_S_r lf p y Hy), <- app_assoc.
Qed.

Lemma count_flagged : count (flagged changed (length lf)) 0 (8 * length bm) = count changed 0 (length lf).
Proof.
  pose proof bitmap_covers. replace (8 * length bm)%nat with (length lf + (8 * length bm - length lf))%nat by lia.
  rewrite count_app, (count_none _ (0 + length lf)).
  - rewrite Z.add_0_r. apply count_ext. intros q Hq. unfold flagged. by rewrite (proj2 (Nat.ltb_lt _ _)) by lia.
  - intros q Hq. unfold flagged. by rewrite (proj2 (Nat.ltb_ge _ _)) by lia.
Qed.

Lemma validate_diff base :
  is_safe_snapshot_name base = true -> Z.of_nat (length lf) < 2 ^ 32 ->
  validate_delta_memory (mkDelta base DELTA_PAGE_SIZE bm) (DELTA_PAGE_SIZE * Z.of_nat (length lf))
    (DELTA_PAGE_SIZE * Z.of_nat (length (picked changed 0 lf))) = Ok tt.
Proof.
  intros Hsafe Hsmall. unfold validate_delta_memory. cbn [d_page_size d_changed d_base].
  rewrite Z.eqb_refl, Z.mul_comm, Z.mod_mul, Z.div_mul by (unfold DELTA_PAGE_SIZE; lia). cbn [negb Z.eqb].
  assert ((Z.of_nat (length bm) =? div_ceil (Z.of_nat (length lf)) 8) = true) as ->.
  { apply Z.eqb_eq. rewrite Hbm. unfold bitmap_len, div_ceil. rewrite Nat2Z.inj_div, Nat2Z.inj_add. f_equal. lia. }
  cbn [negb]. destruct (Z.eqb_spec (Z.of_nat (length lf) mod 8) 0) as [|Hspare]; cbn [negb andb].
  2: rewrite (spare_bits_clear changed (length lf) bm Hflags Hbm Hspare); cbn [Z.eqb negb].
  all: rewrite (bitmap_flags_sum _ _ _ _ Hflags), count_flagged, wrap_small, length_picked
         by (unfold in_width; pose proof (count_bound changed 0 (length lf)); lia).
  all: rewrite (Z.mul_comm DELTA_PAGE_SIZE), Z.eqb_refl; cbn [negb]; by rewrite Hsafe.
Qed.

Lemma apply_diff base mem :
  is_safe_snapshot_name base = true -> Z.of_nat (length lf) < 2 ^ 32 ->
  layout mem = layout live -> flat mem = bf ->
  apply_delta_pages (picked changed 0 lf) mem (mkDelta base DELTA_PAGE_SIZE bm) regions = Ok live.
Proof.
  intros Hsafe Hsmall Hl Hf. unfold apply_delta_pages.
  rewrite (proj2 (ensure_layout_Ok mem regions)) by (by rewrite (memory_region_table_layout live)).
  rewrite (regions_total_len_table live regions Hok Htable). cbn [result_bind].
  rewrite (validate_diff base Hsafe Hsmall), page_of_offset. cbn [result_bind d_changed].
  apply (apply_pages_spec (length lf) 0 mem); [lia|done|]. by rewrite take_0, drop_0.
Qed.

End apply.

(** ** Chains *)

Lemma write_page_layout mem a q mem' : write_pages mem a [q] = Some mem' -> layout mem' = layout mem.
Proof.
  revert mem'. induction mem as [|r mem IH]; intros mem' H; cbn [write_pages] in H; [done|].
  destruct (in_region r a) eqn:Hin.
  - simplify_eq. unfold layout. cbn [map start_addr r_pages length app]. f_equal. f_equal.
    unfold in_region, region_len, DELTA_PAGE_SIZE in *. bool_to_prop.
    assert (Hi : (Z.to_nat ((a - start_addr r) / 4096) < length (r_pages r))%nat) by divlia.
    rewrite Nat.add_1_r, <- insert_take_drop by done. by rewrite length_insert.
  - destruct (write_pages mem a [q]) as [m|] eqn:Hm; simplify_eq/=. by rewrite (IH m).
Qed.

Lemma apply_pages_layout n p off file mem bm regions m :
  apply_pages n p off file mem bm regions = Ok m -> layout m = layout mem.
Proof.
  revert p off mem. induction n as [|n IH]; intros p off mem H; cbn [apply_pages] in H; [by simplify_eq|].
  destruct (negb (bit_set bm p)); [by eapply IH|]. inv_ok.
  match goal with H : write_pages _ _ _ = Some _ |- _ => apply write_page_layout in H as <- end. by eapply IH.
Qed.

Section chain_laws.

Context (read_snapshot : string -> result string SnapshotImage).

Lemma load_layer_fuel fuel fuel' image mem expected depth :
  (chain_fuel <= depth + fuel)%nat -> (chain_fuel <= depth + fuel')%nat ->
  load_layer read_snapshot fuel image mem expected depth =
  load_layer read_snapshot fuel' image mem expected depth.
Proof.
  unfold chain_fuel. revert fuel' image depth. induction fuel as [|fuel IH]; intros [|fuel'] image depth H1 H2;
    cbn [load_layer]; destruct (Nat.ltb_spec MAX_DELTA_CHAIN_DEPTH depth); try done; try lia.
  destruct (negb (same_layout (mem_regions image) expected)); [done|]. destruct (delta image) as [d|]; [|done].
  destruct (base_dir_of (d_base d)); cbn [result_bind]; [|done].
  destruct (read_snapshot a); cbn [result_bind]; [|done]. by rewrite (IH fuel') by lia.
Qed.

(** A chain loads only into a memory of the layout it expects. *)
Lemma load_layer_table fuel image mem expected depth m :
  load_layer read_snapshot fuel image mem expected depth = Ok m -> memory_region_table mem = Ok expected.
Proof.
  revert image depth m. induction fuel as [|fuel IH]; intros image depth m H; cbn [load_layer] in H;
    destruct (_ <? _)%nat; try done; destruct (negb _) eqn:Hl; try done;
    apply negb_false_iff, same_layout_eq in Hl as <-; destruct (delta image) as [d|]; try done.
  2: inv_ok; by eapply IH.
  all: unfold load_memory_file in H; apply result_bind_Ok in H as ([] & H & _); by apply ensure_layout_Ok.
Qed.

(** What a chain loads does not depend on what the memory held before. *)
Lemma load_layer_overwrites fuel image mem expected depth m :
  mem_ok 0 mem -> load_layer read_snapshot fuel image mem expected depth = Ok m ->
  layout m = layout mem /\
  forall mem', layout mem' = layout mem -> load_layer read_snapshot fuel image mem' expected depth = Ok m.
Proof.
  intros Hok. revert image depth m.
  assert (Hfull : forall file regions m, load_memory_file file mem regions = Ok m ->
    layout m = layout mem /\
    forall mem', layout mem' = layout mem -> load_memory_file file mem' regions = Ok m).
  { intros file regions m H. apply load_memory_file_Ok in H as (Ht & Hl & Hf); [|done]. split; [done|].
    intros mem' Hl'. destruct (load_memory_file_spec mem' regions file) as (m' & -> & Hm & Hm').
    - by apply (mem_ok_layout _ mem).
    - by rewrite (memory_region_table_layout mem).
    - rewrite <- Hf. apply layout_flat_length. congruence.
    - f_equal. apply layout_flat_eq; congruence. }
  induction fuel as [|fuel IH]; intros image depth m H; cbn [load_layer] in *;
    destruct (_ <? _)%nat; try done; destruct (negb _); try done; destruct (delta image) as [d|]; try done;
    try by apply Hfull.
  apply result_bind_Ok in H as (dir & -> & H). apply result_bind_Ok in H as (base & Hbase & H).
  apply result_bind_Ok in H as (m1 & H1 & H). destruct (IH _ _ _ H1) as [Hl1 Hany].
  split.
  - unfold apply_delta_pages in H. inv_ok. rewrite <- Hl1. by eapply apply_pages_layout.
  - intros mem' Hl'. cbn [result_bind]. rewrite Hbase. cbn [result_bind]. by rewrite (Hany mem' Hl').
Qed.

(** What the dump compares with is the memory that loading the base gives. *)
Lemma base_view_loads image live regions view fuel mem :
  mem_ok 0 live -> memory_region_table live = Ok regions -> (MAX_DELTA_CHAIN_DEPTH <= fuel)%nat ->
  base_view read_snapshot image regions (DELTA_PAGE_SIZE * Z.of_nat (length (flat live))) = Ok view ->
  layout mem = layout live ->
  view_fits view live /\ exists m, load_layer read_snapshot fuel image mem regions 1 = Ok m /\
    layout m = layout live /\ flat m = view_flat view.
Proof.
  intros Hok Ht Hfuel H Hl. unfold base_view in H. destruct (delta image) as [d|] eqn:Hd.
  - apply result_bind_Ok in H as (scratch & _ & H).
    destruct (load_layer read_snapshot chain_fuel image scratch regions 1) as [m|] eqn:Hm; [|done].
    cbn [result_map] in H. injection H as <-. cbn [view_fits view_flat].
    assert (Hsl : layout live = layout scratch).
    { apply load_layer_table, memory_region_table_Ok in Hm. apply memory_region_table_Ok in Ht.
      by eapply region_table_inj. }
    destruct (load_layer_overwrites chain_fuel image scratch regions 1 m) as [Hlm Hany];
      [by apply (mem_ok_layout _ live)|done|].
    split; [congruence|]. exists m. split_and!; [|congruence|done].
    rewrite (load_layer_fuel fuel chain_fuel) by (unfold chain_fuel; lia). apply Hany. congruence.
  - destruct (same_layout (mem_regions image) regions) eqn:Hs; cbn [negb] in H; [|done].
    apply same_layout_eq in Hs. unfold open_file_map in H.
    destruct (Z.eqb_spec (DELTA_PAGE_SIZE * Z.of_nat (length (memory_file image)))
                (DELTA_PAGE_SIZE * Z.of_nat (length (flat live)))) as [Hlen|]; cbn [negb] in H; [|done].
    destruct (_ =? 0); cbn [result_map] in H; [done|]. injection H as <-. cbn [view_fits view_flat].
    assert (Hlen' : length (memory_file image) = length (flat live)) by (unfold DELTA_PAGE_SIZE in *; lia).
    split; [done|]. destruct (load_memory_file_spec mem regions (memory_file image)) as (m & Hm & ? & ?).
    + by apply (mem_ok_layout _ live).
    + by rewrite (memory_region_table_layout live).
    + by rewrite Hlen', (layout_flat_length _ _ Hl).
    + exists m. split_and!; [|congruence|done].
      destruct fuel; cbn [load_layer]; rewrite Hd, Hs, same_layout_refl; exact Hm.
Qed.

End chain_laws.

(** ** The dirty-log diff *)

Lemma bitmap_flags_intro f n page0 bm :
  (forall j b, bm !! j = Some b -> byte_flags f n (page0 + 8 * j) b) -> bitmap_flags f n page0 bm.
Proof.
  revert page0. induction bm as [|b bm IH]; intros page0 H; cbn [bitmap_flags]; [done|]. split.
  - specialize (H 0%nat b eq_refl). by rewrite Nat.mul_0_r, Nat.add_0_r in H.
  - apply IH. intros j c Hj. replace (page0 + 8 + 8 * j)%nat with (page0 + 8 * S j)%nat by lia. by apply H.
Qed.

Lemma bitmap_flags_ext f g n page0 bm :
  (forall p, (p < n)%nat -> f p = g p) -> bitmap_flags f n page0 bm -> bitmap_flags g n page0 bm.
Proof.
  intros Hfg H. apply bitmap_flags_intro. intros j b Hj.
  destruct (bitmap_flags_lookup _ _ _ _ _ _ H Hj) as [Hw Hb]. split; [done|].
  intros i Hi. rewrite Hb by done. unfold flagged. destruct (Nat.ltb_spec (page0 + 8 * j + i) n); [|done].
  by rewrite Hfg.
Qed.

Lemma bitmap_flags_zero n page0 m : bitmap_flags (fun _ => false) n page0 (replicate m 0).
Proof.
  apply bitmap_flags_intro. intros j b Hj. apply lookup_replicate in Hj as [-> _].
  split; [by vm_compute|]. intros i _. unfold flagged. by rewrite Z.bits_0, andb_false_r.
Qed.

Lemma set_bit_flags f n bm p :
  bitmap_flags f n 0 bm -> (p < n)%nat ->
  bitmap_flags (fun q => f q || bool_decide (q = p)) n 0 (set_bit bm p).
Proof.
  intros H Hp. assert (Hdm := Nat.div_mod_eq p 8).
  assert (Hm : (p mod 8 < 8)%nat) by (by apply Nat.mod_upper_bound).
  unfold set_bit. revert Hdm Hm. generalize (p / 8)%nat (p mod 8)%nat. intros d m -> Hm.
  apply bitmap_flags_intro. intros j b Hj. rewrite Nat.add_0_l.
  destruct (decide (j = d)) as [->|Hne].
  - rewrite list_lookup_alter_eq in Hj. destruct (bm !! d) as [c|] eqn:Hc; cbn [fmap option_fmap option_map] in Hj;
      simplify_eq.
    destruct (bitmap_flags_lookup _ _ _ _ _ _ H Hc) as [Hw Hb]. rewrite Nat.add_0_l in Hb.
    split; [by apply or_bit_width|]. intros i Hi. rewrite or_bit_testbit, Hb by done. unfold flagged.
    destruct (Nat.ltb_spec (8 * d + i) n), (bool_decide_reflect (i = m)),
      (bool_decide_reflect (8 * d + i = 8 * d + m)%nat); try lia; cbn [andb];
      by rewrite ?orb_true_r, ?orb_false_r.
  - rewrite list_lookup_alter_ne in Hj by done.
    destruct (bitmap_flags_lookup _ _ _ _ _ _ H Hj) as [Hw Hb]. rewrite Nat.add_0_l in Hb.
    split; [done|]. intros i Hi. rewrite Hb by done. unfold flagged.
    by rewrite (bool_decide_eq_false_2 (8 * j + i = 8 * d + m)%nat), orb_false_r by lia.
Qed.

Lemma length_set_bit bm p : length (set_bit bm p) = length bm.
Proof. apply length_alter. Qed.

(** Every page that differs is flagged by one of the logs, and the logs are long enough. *)
Fixpoint log_covers (host_page : Z) (specs : list RegionDiff) (logs : list (list Z))
    (hosts : list (Z -> bool)) : Prop :=
  match specs, logs, hosts with
  | [], [], [] => True
  | s :: specs, log :: logs, host :: hosts =>
      div_ceil (div_ceil (Z.of_nat (pages s) * DELTA_PAGE_SIZE) host_page) 64 <= Z.of_nat (length log) /\
      (forall k, (k < pages s)%nat -> base_pages s !! k <> live_pages s !! k ->
         dirty log host host_page k = true) /\
      log_covers host_page specs logs hosts
  | _, _, _ => False
  end.

Section dirty.

Context (bf lf : list page) (Hlen : length bf = length lf) (host_page : Z).

(** What the loop has built when it comes to page [p]. *)
Definition dirty_upto (p : nat) (bm : list Z) (out : list page) : Prop :=
  bitmap_flags (fun q => page_changed bf lf q && (q <? p)%nat) (length lf) 0 bm /\
  length bm = bitmap_len (length lf) /\ out = picked (page_changed bf lf) 0 (take p lf).

Lemma dirty_upto_skip p bm out x :
  lf !! p = Some x -> page_changed bf lf p = false -> dirty_upto p bm out -> dirty_upto (S p) bm out.
Proof.
  intros Hx Hc (Hb & Hl & Ho). split_and!; [|done|].
  - eapply bitmap_flags_ext; [|done]. intros q _. cbn beta.
    destruct (Nat.ltb_spec q p), (Nat.ltb_spec q (S p)); try done; try lia.
    by replace q with p by lia; rewrite Hc.
  - rewrite Ho, (take_S_r lf p x Hx), picked_app, length_take_le by (apply lookup_lt_Some in Hx; lia).
    cbn [picked Nat.add]. by rewrite Hc, !app_nil_r.
Qed.

Lemma dirty_upto_add p bm out x :
  lf !! p = Some x -> page_changed bf lf p = true -> dirty_upto p bm out ->
  dirty_upto (S p) (set_bit bm p) (out ++ [x]).
Proof.
  intros Hx Hc (Hb & Hl & Ho). pose proof (lookup_lt_Some _ _ _ Hx) as Hp. split_and!.
  - eapply bitmap_flags_ext; [|by apply set_bit_flags]. intros q _. cbn beta.
    destruct (Nat.ltb_spec q p), (Nat.ltb_spec q (S p)), (bool_decide_reflect (q = p));
      subst; rewrite ?Hc, ?andb_true_r, ?andb_false_r, ?orb_false_r; done || lia.
  - by rewrite length_set_bit.
  - rewrite Ho, (take_S_r lf p x Hx), picked_app, length_take_le by lia.
    cbn [picked Nat.add]. by rewrite Hc, app_nil_r.
Qed.

Lemma dirty_region_upto n k s log host bm out :
  (n + k = pages s)%nat ->
  (forall k, (k < pages s)%nat -> (first_page s + k < length lf)%nat /\
     base_pages s !! k = bf !! (first_page s + k)%nat /\ live_pages s !! k = lf !! (first_page s + k)%nat) ->
  (forall k, (k < pages s)%nat -> base_pages s !! k <> live_pages s !! k -> dirty log host host_page k = true) ->
  dirty_upto (first_page s + k) bm out ->
  let '(bm', out') := dirty_region n k s log host host_page bm out in
  dirty_upto (first_page s + pages s) bm' out'.
Proof.
  intros Hn Hs Hd. revert k bm out Hn. induction n as [|n IH]; intros k bm out Hn Hup; cbn [dirty_region].
  { by replace (pages s) with k by lia. }
  destruct (Hs k) as (Hk & Hb & Hl); [lia|]. specialize (Hd k ltac:(lia)).
  destruct (lookup_lt_is_Some_2 lf (first_page s + k) Hk) as [y Hy].
  destruct (lookup_lt_is_Some_2 bf (first_page s + k) ltac:(lia)) as [x Hx]. rewrite Hb, Hl, Hx, Hy in *.
  assert (Hc : page_changed bf lf (first_page s + k) = bool_decide (x <> y)).
  { unfold page_changed. rewrite Hx, Hy. apply bool_decide_ext. naive_solver. }
  destruct (bool_decide_reflect (x <> y)) as [Hne|Heq].
  - rewrite Hd by congruence. cbn [negb]. apply IH; [lia|]. rewrite Nat.add_succ_r.
    by apply dirty_upto_add.
  - destruct (dirty log host host_page k); cbn [negb]; apply IH; try lia; rewrite Nat.add_succ_r;
      by apply (dirty_upto_skip _ _ _ y).
Qed.

Lemma dirty_regions_upto specs logs hosts first bm out :
  specs_cover bf lf first specs -> log_covers host_page specs logs hosts -> dirty_upto first bm out ->
  exists bm' out', dirty_regions specs logs hosts host_page bm out = Ok (bm', out') /\
    dirty_upto (length lf) bm' out'.
Proof.
  revert logs hosts first bm out. induction specs as [|s specs IH]; intros [|log logs] [|host hosts] first bm out Hc Hlog Hup;
    try done; cbn [specs_cover log_covers dirty_regions] in *.
  { subst. by exists bm, out. }
  destruct Hc as (<- & Hs & Hc), Hlog as (Hlong & Hd & Hlog). rewrite (proj2 (Z.ltb_ge _ _)) by done.
  pose proof (dirty_region_upto (pages s) 0 s log host bm out) as Hr.
  destruct (dirty_region (pages s) 0 s log host host_page bm out) as [bm' out'].
  eapply IH; [done|done|]. apply Hr; [lia|done|done|]. by rewrite Nat.add_0_r.
Qed.

Lemma diff_dirty_pages_covers specs logs hosts :
  specs_cover bf lf 0 specs -> log_covers host_page specs logs hosts ->
  DELTA_PAGE_SIZE <= host_page -> host_page mod DELTA_PAGE_SIZE = 0 ->
  diff_dirty_pages specs hosts logs host_page = Ok (diff_pages_parallel specs).
Proof.
  intros Hc Hlog Hge Hmod. unfold diff_dirty_pages.
  assert (length logs = length specs) as Hll.
  { clear -Hlog. revert logs hosts Hlog. induction specs as [|s specs IH]; intros [|log logs] [|h hosts] H; try done.
    cbn [length]. f_equal. destruct H as (_ & _ & H). by eapply IH. }
  rewrite Hll, Nat.eqb_refl, Hmod, (proj2 (Z.ltb_ge _ _)) by done. cbn [negb orb Z.eqb].
  pose proof (specs_cover_total _ _ _ _ Hc) as Ht. rewrite Nat.add_0_l in Ht. rewrite Ht.
  destruct (dirty_regions_upto specs logs hosts 0 (replicate (bitmap_len (length lf)) 0) [])
    as (bm & out & -> & Hb & Hl & Ho); [done|done| |].
  { split_and!; [|apply length_replicate|done]. eapply bitmap_flags_ext; [|apply bitmap_flags_zero].
    intros q _. by rewrite andb_false_r. }
  pose proof (diff_pages_parallel_spec bf lf specs Hc) as Hp.
  destruct (diff_pages_parallel specs) as [bm' out']. destruct Hp as (Hb' & Hl' & ->).
  rewrite Ho, take_ge by lia. do 2 f_equal. apply (bitmap_flags_unique (page_changed bf lf) (length lf) 0); [|done|congruence].
  eapply bitmap_flags_ext; [|done]. intros q Hq. cbn beta. by rewrite (proj2 (Nat.ltb_lt _ _)), andb_true_r.
Qed.

End dirty.

(** ** The theorems *)

(** [n] delta layers lie below the image, each of them readable and of the layout [expected]. *)
Fixpoint deltas_below (read_snapshot : string -> result string SnapshotImage)
    (expected : list MemRegion) (n : nat) (image : SnapshotImage) : Prop :=
  match n with
  | O => True
  | S n => mem_regions image = expected /\
      exists d base, delta image = Some d /\ base_dir_of (d_base d) = Ok (d_base d) /\
        read_snapshot (d_base d) = Ok base /\ deltas_below read_snapshot expected n base
  end.

Lemma load_layer_too_deep read_snapshot expected n image fuel mem depth :
  (depth + n = chain_fuel)%nat -> (n <= fuel)%nat -> deltas_below read_snapshot expected n image ->
  load_layer read_snapshot fuel image mem expected depth = Err "snapshot delta chain exceeds max depth".
Proof.
  revert image fuel depth. induction n as [|n IH]; intros image fuel depth Hn Hf H; unfold chain_fuel in Hn.
  { destruct fuel; cbn [load_layer]; by rewrite (proj2 (Nat.ltb_lt _ _)) by lia. }
  destruct H as (Hr & d & base & Hd & Hdir & Hread & H). destruct fuel as [|fuel]; [lia|]. cbn [load_layer].
  rewrite (proj2 (Nat.ltb_ge _ _)), Hr, same_layout_refl, Hd, Hdir by lia. cbn [negb result_bind].
  rewrite Hread. cbn [result_bind]. rewrite IH; [done|unfold chain_fuel; lia|lia|done].
Qed.

(** When the hypervisor's dirty log and the host's write bitmap flag every page that
    differs from the base, the dump that inspects flagged pages only writes the same bitmap
    and the same pages as the parallel comparison of all of memory. *)
Lemma dirty_log_diff_complete view live regions specs logs hosts host_page :
  mem_ok 0 live -> memory_region_table live = Ok regions -> view_fits view live ->
  region_diff_specs view live regions = Ok specs ->
  log_covers host_page specs logs hosts ->
  DELTA_PAGE_SIZE <= host_page -> host_page mod DELTA_PAGE_SIZE = 0 ->
  diff_dirty_pages specs hosts logs host_page = Ok (diff_pages_parallel specs).
Proof.
  intros Hok Ht Hfit Hspecs Hlog. apply region_diff_specs_cover in Hspecs; [|done..].
  apply (diff_dirty_pages_covers (view_flat view) (flat live)); [|done..].
  destruct view; [done|by apply layout_flat_length].
Qed.

(** The logs that a dump is given, if any, flag every page that differs from the base. *)
Definition logs_cover (read_snapshot : string -> result string SnapshotImage) (base : string) (live : GuestMemory)
    (guest_dirty : option (list (list Z))) (host_page : Z) (hosts : list (Z -> bool)) : Prop :=
  forall log regions specs, guest_dirty = Some log -> delta_specs read_snapshot base live = Ok (regions, specs) ->
  log_covers host_page specs log hosts.

Lemma diff_dirty_pages_Ok specs hosts logs host_page x :
  diff_dirty_pages specs hosts logs host_page = Ok x -> DELTA_PAGE_SIZE <= host_page /\ host_page mod DELTA_PAGE_SIZE = 0.
Proof.
  unfold diff_dirty_pages. destruct (negb _); [done|]. destruct (Z.ltb_spec host_page DELTA_PAGE_SIZE); [done|].
  destruct (Z.eqb_spec (host_page mod DELTA_PAGE_SIZE) 0); [done|done].
Qed.

(** C29: a delta snapshot restores.  Whatever [dump_delta_memory_file] writes of a live memory of less than 2^32 pages,
    relative to a full snapshot or to a chain of deltas, [load_memory_chain] rebuilds exactly that memory from it, in any
    memory of the same layout and whatever that held before.  A dump may compare all of memory, or only the pages that
    the hypervisor's dirty log and the host's write bitmaps flag: then these must flag every page that differs from
    the base. *)
Theorem delta_snapshot_restores read_snapshot base live guest_dirty host_page hosts regions d file mem :
  mem_ok 0 live -> Z.of_nat (length (flat live)) < 2 ^ 32 ->
  logs_cover read_snapshot base live guest_dirty host_page hosts ->
  dump_delta_memory_file read_snapshot base live guest_dirty host_page hosts = Ok (regions, d, file) ->
  layout mem = layout live ->
  load_memory_chain read_snapshot (mkImage regions (Some d) file) mem = Ok live.
Proof.
  intros Hok Hsmall Hlogs H Hl. unfold dump_delta_memory_file in H.
  apply result_bind_Ok in H as ([live_regions specs] & Hs & H). pose proof Hs as Hds. unfold delta_specs in Hs.
  apply result_bind_Ok in Hs as (live_regions' & Ht & Hs). apply result_bind_Ok in Hs as (dir & Hdir & Hs).
  apply result_bind_Ok in Hs as (image & Hread & Hs). rewrite (regions_total_len_table _ _ Hok Ht) in Hs.
  cbn [result_bind] in Hs. apply result_bind_Ok in Hs as (view & Hview & Hs).
  apply result_bind_Ok in Hs as (specs' & Hspecs & Hs). injection Hs as -> ->.
  destruct (base_view_loads read_snapshot image live live_regions view MAX_DELTA_CHAIN_DEPTH mem Hok Ht
              ltac:(lia) Hview Hl) as (Hfit & m & Hload & Hlm & Hfm).
  assert (Hpages : delta_pages specs guest_dirty host_page hosts = Ok (diff_pages_parallel specs)).
  { destruct guest_dirty as [log|]; [|done]. cbn [delta_pages] in *. apply result_bind_Ok in H as (x & Hx & _).
    destruct (diff_dirty_pages_Ok _ _ _ _ _ Hx) as [Hge Hmod]. by eapply dirty_log_diff_complete; [..|eapply Hlogs| |]. }
  rewrite Hpages in H. cbn [result_bind] in H. apply region_diff_specs_cover in Hspecs; [|done..].
  pose proof (diff_pages_parallel_spec _ _ _ Hspecs) as Hdiff.
  destruct (diff_pages_parallel specs) as [bm out]. destruct Hdiff as (Hbm & Hlb & ->).
  injection H as <- <- <-. unfold base_dir_of in Hdir.
  destruct (is_safe_snapshot_name base) eqn:Hsafe; [|done]. cbn [negb] in Hdir. injection Hdir as ->.
  unfold load_memory_chain. cbn [mem_regions].
  rewrite (proj2 (ensure_layout_Ok mem live_regions)) by (by rewrite (memory_region_table_layout live)).
  unfold chain_fuel. cbn [result_bind load_layer mem_regions delta memory_file d_base].
  rewrite same_layout_refl. unfold base_dir_of. rewrite Hsafe. cbn [negb result_bind].
  rewrite (proj2 (Nat.ltb_ge MAX_DELTA_CHAIN_DEPTH 0)), Hread by lia. cbn [result_bind].
  rewrite Hload. cbn [result_bind].
  apply (apply_diff (view_flat view) live live_regions bm); try done.
  rewrite <- Hfm. by apply layout_flat_length.
Qed.

(** A chain with more than [MAX_DELTA_CHAIN_DEPTH] deltas, or one that loops back to
    itself, is refused with the depth error; the recursion over it always ends. *)
Lemma deep_chain_refused read_snapshot image mem :
  deltas_below read_snapshot (mem_regions image) (S MAX_DELTA_CHAIN_DEPTH) image ->
  memory_region_table mem = Ok (mem_regions image) ->
  load_memory_chain read_snapshot image mem = Err "snapshot delta chain exceeds max depth".
Proof.
  intros H Ht. unfold load_memory_chain. rewrite (proj2 (ensure_layout_Ok _ _) Ht). cbn [result_bind].
  by apply (load_layer_too_deep _ _ chain_fuel).
Qed.

(** *** Witnesses *)

Definition live0 : GuestMemory := [mkGuestRegion 0 [[1]; [2]; [3]]; mkGuestRegion (2 ^ 32) [[4]; [5]]].
Definition live1 : GuestMemory := [mkGuestRegion 0 [[1]; [9]; [3]]; mkGuestRegion (2 ^ 32) [[4]; [7]]].
Definition table0 : list MemRegion := [mkMemRegion 0 12288 0; mkMemRegion (2 ^ 32) 8192 12288].

Definition store0 (name : string) : result string SnapshotImage :=
  if String.eqb name "base" then Ok (mkImage table0 None (flat live0))
  else if String.eqb name "loop" then Ok (mkImage table0 (Some (mkDelta "loop" 4096 [0])) [])
  else Err "no such snapshot".

(** The hypervisor's log flags page 1 of the first region, the host's bitmap page 1 of the second one. *)
Definition logs0 : list (list Z) := [[2]; [0]].
Definition hosts0 : list (Z -> bool) := [fun _ => false; fun offset => offset =? 4096].

Lemma delta_snapshot_restores_witness :
  exists regions d file,
    dump_delta_memory_file store0 "base" live1 (Some logs0) 4096 hosts0 = Ok (regions, d, file) /\
    d_changed d = [18] /\ file = [[9]; [7]] /\
    load_memory_chain store0 (mkImage regions (Some d) file) live0 = Ok live1.
Proof.
  exists table0, (mkDelta "base" 4096 [18]), [[9]; [7]].
  assert (Hd : dump_delta_memory_file store0 "base" live1 (Some logs0) 4096 hosts0 =
               Ok (table0, mkDelta "base" 4096 [18], [[9]; [7]])) by (vm_compute; reflexivity).
  split_and!; [exact Hd|reflexivity..|].
  apply (delta_snapshot_restores store0 "base" live1 (Some logs0) 4096 hosts0); [|vm_compute; reflexivity| |exact Hd|reflexivity].
  - repeat split; vm_compute; congruence.
  - intros log regions specs [= <-] Hs. vm_compute in Hs. injection Hs as <- <-.
    cbn [log_covers logs0 hosts0]. split_and!; [vm_compute; congruence| |vm_compute; congruence| |exact I];
      (intros k Hk Hne; destruct k as [|[|[|k]]]; first [vm_compute; reflexivity|destruct Hne; vm_compute; reflexivity|cbn in Hk; lia]).
Defined.
