(* ===== verification/SnapshotValidate.v ===== *)
(** The snapshot envelope and its validation ([vmm/src/snapshot/mod.rs]): what a decoded
    snapshot must satisfy before a restore allocates memory for it or indexes anything
    by it.  The build is [x86_64].  [VcpuState] and [MachineState], the payloads of the
    hypervisor, are types; error texts are without the values they quote.  The serialized
    state of a virtio-pci function is that of [VirtioPci]. *)

From S2P Require Import Prelude VirtioPci SnapshotDelta.

Definition SNAPSHOT_VERSION : Z := 3.
Definition MAX_STATE_BYTES : Z := 64 * 1024 * 1024.
Definition SERIAL_FIFO_SIZE : Z := 0x40.
Definition VIRTQ_DESC_ELEMENT_SIZE : Z := 16.
Definition VIRTQ_AVAIL_META_SIZE : Z := 6.
Definition VIRTQ_AVAIL_ELEMENT_SIZE : Z := 2.
Definition VIRTQ_USED_META_SIZE : Z := 6.
Definition VIRTQ_USED_ELEMENT_SIZE : Z := 8.
Definition VIRTQ_EVENT_ELEMENT_SIZE : Z := 2.
Definition MAX_CPUS : Z := 64.
Definition MAX_MEM_MIB : Z := 64 * 1024.
Definition MMIO_DEVICE_SIZE : Z := 0x1000.
Definition MMIO_MEM_SIZE : Z := MEM_32BIT_GAP_SIZE.
Definition NUM_IOAPIC_PINS : Z := 24.
Definition IRQ_BASE : Z := 5.
Definition IRQ_END : Z := NUM_IOAPIC_PINS.

(** ** Data *)

Inductive Backend : Type := Kvm | Hvf | Whp.
Inductive DeviceKind : Type := KBlock | KNet | KConsole | KFs | KRng | KRemoteFs.
Inductive DeviceTransportKind : Type := Mmio | Pci.

#[global] Instance Backend_eq_dec : EqDecision Backend.
Proof. solve_decision. Defined.

Inductive BackendHint : Type :=
  | HBlock (path : string) (read_only : bool)
  | HNet (tap : string) (mac : list Z)
  | HUserNet (mac : list Z)
  | HConsole
  | HFs (tag shared_dir : string) (read_only : bool)
  | HRng
  | HRemoteFs (tag sock : string).

Record QueueStateSer : Type := mkQueueStateSer {
  max_size : Z; next_avail : Z; next_used : Z; event_idx_enabled : bool; size : Z; ready : bool;
  desc_table : Z; avail_ring : Z; used_ring : Z }.

Record FsStateSer : Type := mkFsStateSer { inodes : list (Z * string); next : Z }.

Record DeviceState : Type := mkDeviceState {
  kind : DeviceKind; transport : DeviceTransportKind; mmio_base : Z; gsi : Z;
  interrupt_status : Z; device_features_select : Z; driver_features_select : Z;
  acked_features : Z; status : Z; activated : bool; queues : list QueueStateSer;
  backend : BackendHint; user_net_state : option (list Z);
  transport_pci : option PciTransportStateSer; fs : option FsStateSer }.

Record SerialState : Type := mkSerialState {
  baud_divisor_low : Z; baud_divisor_high : Z; interrupt_enable : Z; interrupt_identification : Z;
  line_control : Z; line_status : Z; modem_control : Z; modem_status : Z; scratch : Z;
  in_buffer : list Z }.

Record Snapshot (VcpuState MachineState : Type) : Type := mkSnapshot {
  sn_version : Z; sn_arch : string; sn_backend : Backend; sn_mem_mib : Z; sn_cpus : Z;
  sn_cmdline : string; sn_boot_mode : string; sn_firmware : option string;
  sn_mem_regions : list MemRegion; sn_vcpus : list VcpuState; sn_machine : MachineState;
  sn_serial : SerialState; sn_devices : list DeviceState; sn_delta : option DeltaMemory }.
Arguments mkSnapshot {VcpuState MachineState}.
Arguments sn_version {VcpuState MachineState}.
Arguments sn_arch {VcpuState MachineState}.
Arguments sn_backend {VcpuState MachineState}.
Arguments sn_mem_mib {VcpuState MachineState}.
Arguments sn_cpus {VcpuState MachineState}.
Arguments sn_boot_mode {VcpuState MachineState}.
Arguments sn_firmware {VcpuState MachineState}.
Arguments sn_mem_regions {VcpuState MachineState}.
Arguments sn_vcpus {VcpuState MachineState}.
Arguments sn_serial {VcpuState MachineState}.
Arguments sn_devices {VcpuState MachineState}.
Arguments sn_delta {VcpuState MachineState}.

(** ** Queues *)

Definition validate_queue_ram_range (start len : Z) (regions : list MemRegion) : result string unit :=
  if len =? 0 then Err "snapshot device queue range is empty"
  else
    stop <-? ok_or (checked_add 64 start len) "snapshot device queue range overflows guest address space" ;
    if negb (existsb (fun region =>
               match checked_add 64 (gpa region) (m_len region) with
               | Some region_end => (gpa region <=? start) && (stop <=? region_end)
               | None => false
               end) regions)
    then Err "snapshot device queue range is outside declared guest RAM"
    else Ok tt.

Definition event_len (q : QueueStateSer) : Z :=
  if event_idx_enabled q then VIRTQ_EVENT_ELEMENT_SIZE else 0.

(** A ring: its fixed part, its elements and its event field. *)
Definition ring_len (meta element : Z) (q : QueueStateSer) (overflow : string) : result string Z :=
  elements <-? ok_or (checked_mul 64 element (size q)) overflow ;
  len <-? ok_or (checked_add 64 meta elements) overflow ;
  ok_or (checked_add 64 len (event_len q)) overflow.

Definition validate_ready_queue_ram (q : QueueStateSer) (regions : list MemRegion) : result string unit :=
  desc_len <-? ok_or (checked_mul 64 VIRTQ_DESC_ELEMENT_SIZE (size q))
                 "virtqueue descriptor table size overflows" ;
  avail_len <-? ring_len VIRTQ_AVAIL_META_SIZE VIRTQ_AVAIL_ELEMENT_SIZE q
                  "virtqueue available ring size overflows" ;
  used_len <-? ring_len VIRTQ_USED_META_SIZE VIRTQ_USED_ELEMENT_SIZE q
                 "virtqueue used ring size overflows" ;
  _ <-? validate_queue_ram_range (desc_table q) desc_len regions ;
  _ <-? validate_queue_ram_range (avail_ring q) avail_len regions ;
  validate_queue_ram_range (used_ring q) used_len regions.

Definition validate_queue (regions : list MemRegion) (q : QueueStateSer) : result string unit :=
  if max_size q =? 0 then Err "snapshot device queue has zero max size"
  else if max_size q <? size q then Err "snapshot device queue size exceeds max"
  else if ready q && (size q =? 0) then Err "snapshot device queue is ready with zero size"
  else if ready q then validate_ready_queue_ram q regions
  else Ok tt.

(** A [for] over the elements that stops at the first error. *)
Fixpoint try_each {A} (f : A -> result string unit) (l : list A) : result string unit :=
  match l with
  | [] => Ok tt
  | x :: l => _ <-? f x ; try_each f l
  end.

(** ** Devices *)

Definition validate_pci_transport_state (device : DeviceState) : result string unit :=
  match transport_pci device with
  | None => Err "snapshot PCI device is missing PCI transport state"
  | Some state =>
      if negb (length (ps_config_space state) =? 256)%nat
      then Err "snapshot PCI device config space length"
      else if (length (mx_table (ps_msix state)) =? 0)%nat then Err "snapshot PCI device MSI-X table is empty"
      else if (64 <? length (mx_table (ps_msix state)))%nat
      then Err "snapshot PCI device MSI-X table length exceeds pending-bit capacity"
      else Ok tt
  end.

Definition validate_transport (device : DeviceState) : result string unit :=
  match transport device with
  | Mmio => if is_Some_dec (transport_pci device) then Err "snapshot device has PCI state on MMIO transport"
            else Ok tt
  | Pci => validate_pci_transport_state device
  end.

Definition validate_fs (device : DeviceState) : result string unit :=
  match kind device with
  | KFs | KRemoteFs =>
      match fs device with None => Err "snapshot virtio-fs device is missing fs state" | Some _ => Ok tt end
  | _ =>
      match fs device with Some _ => Err "snapshot non-fs device carries virtio-fs state" | None => Ok tt end
  end.

Definition validate_user_net (device : DeviceState) : result string unit :=
  match backend device, user_net_state device with
  | HUserNet _, None => Err "snapshot user-net device is missing libslirp state"
  | HUserNet _, Some [] => Err "snapshot user-net device has empty libslirp state"
  | HUserNet _, Some _ => Ok tt
  | _, Some _ => Err "snapshot non-user-net device carries libslirp state"
  | _, None => Ok tt
  end.

Definition expected_queues (device : DeviceState) : result string nat :=
  match kind device, backend device with
  | KBlock, HBlock _ _ => Ok 1%nat
  | KNet, HNet _ _ | KNet, HUserNet _ => Ok 2%nat
  | KConsole, HConsole => Ok 2%nat
  | KFs, HFs _ _ _ => Ok 2%nat
  | KRemoteFs, HRemoteFs _ _ => Ok 2%nat
  | KRng, HRng => Ok 1%nat
  | _, _ => Err "snapshot device backend does not match kind"
  end.

Definition validate_device (regions : list MemRegion) (device : DeviceState) : result string unit :=
  _ <-? validate_transport device ;
  _ <-? validate_fs device ;
  _ <-? validate_user_net device ;
  n <-? expected_queues device ;
  if negb (length (queues device) =? n)%nat then Err "snapshot device queue count"
  else try_each (validate_queue regions) (queues device).

(** ** Device addresses *)

Definition window_size (device : DeviceState) : Z :=
  match transport device with Mmio => MMIO_DEVICE_SIZE | Pci => PCI_VIRTIO_BAR_SIZE end.

Definition aperture_end : Z := MMIO_MEM_START + MMIO_MEM_SIZE.

(** The checks on one device; its window and its interrupt are collected. *)
Definition device_window (device : DeviceState) : result string (Z * Z) :=
  if negb (mmio_base device mod window_size device =? 0) then Err "snapshot device MMIO base is not aligned"
  else
    mmio_end <-? ok_or (checked_add 64 (mmio_base device) (window_size device))
                   "snapshot device MMIO window overflows guest address space" ;
    if (mmio_base device <? MMIO_MEM_START) || (aperture_end <? mmio_end)
    then Err "snapshot device MMIO window is outside device aperture"
    else if (gsi device <? IRQ_BASE) || (IRQ_END <=? gsi device)
    then Err "snapshot device GSI is outside device GSI range"
    else Ok (mmio_base device, mmio_end).

Fixpoint device_windows (devices : list DeviceState) : result string (list (Z * Z)) :=
  match devices with
  | [] => Ok []
  | device :: devices =>
      w <-? device_window device ;
      ws <-? device_windows devices ;
      Ok (w :: ws)
  end.

(** [windows(2)]: two neighbours, the second of which starts before the first ends. *)
Fixpoint neighbours_overlap (ranges : list (Z * Z)) : bool :=
  match ranges with
  | (_, prev_end) :: (((start, _) :: _) as ranges) => (start <? prev_end) || neighbours_overlap ranges
  | _ => false
  end.

Fixpoint neighbours_equal (gsis : list Z) : bool :=
  match gsis with
  | prev :: ((g :: _) as gsis) => (g =? prev) || neighbours_equal gsis
  | _ => false
  end.

Definition starts_before (l r : Z * Z) : bool := fst l <=? fst r.

Definition validate_device_addressing (devices : list DeviceState) : result string unit :=
  let device_count := Z.of_nat (length devices) in
  if MMIO_MEM_SIZE / MMIO_DEVICE_SIZE <? device_count
  then Err "snapshot device count exceeds MMIO aperture capacity"
  else
    gsi_capacity <-? ok_or (checked_sub IRQ_END IRQ_BASE) "architecture GSI range is invalid" ;
    if gsi_capacity <? device_count then Err "snapshot device count exceeds GSI capacity"
    else
      _ <-? ok_or (checked_add 64 MMIO_MEM_START MMIO_MEM_SIZE) "architecture MMIO device aperture overflows" ;
      mmio_ranges <-? device_windows devices ;
      if neighbours_overlap (sort_by starts_before mmio_ranges)
      then Err "snapshot device MMIO window overlaps device"
      else if neighbours_equal (sort_by Z.leb (map gsi devices)) then Err "snapshot device reuses GSI"
      else Ok tt.

Definition validate_device_states (devices : list DeviceState) (regions : list MemRegion)
  : result string unit :=
  _ <-? try_each (validate_device regions) devices ;
  validate_device_addressing devices.

(** ** Memory and the envelope *)

Section snapshot.
Context {VcpuState MachineState : Type}.

(** The backend this build runs on. *)
Variable current_backend : Backend.

Definition build_arch : string := "x86_64".

Definition validate_snapshot_header (snap : Snapshot VcpuState MachineState) : result string unit :=
  if negb (sn_version snap =? SNAPSHOT_VERSION) then Err "snapshot version"
  else if negb (String.eqb (sn_arch snap) build_arch) then Err "snapshot arch"
  else if negb (bool_decide (sn_backend snap = current_backend)) then Err "snapshot backend"
  else if String.eqb (sn_boot_mode snap) "direct" then
    match sn_firmware snap with
    | None => Ok tt
    | Some _ => Err "snapshot direct boot mode must not include firmware"
    end
  else if String.eqb (sn_boot_mode snap) "uefi" then
    match sn_firmware snap with
    | Some (String _ _) => Ok tt
    | _ => Err "snapshot uefi boot mode requires firmware"
    end
  else Err "snapshot boot_mode is not supported".

Definition validate_snapshot_resource_caps (cpus mem_mib : Z) : result string unit :=
  if cpus =? 0 then Err "snapshot must contain at least one vCPU"
  else if MAX_CPUS <? cpus then Err "snapshot cpus exceeds launch cap"
  else if mem_mib =? 0 then Err "snapshot memory size is zero"
  else if MAX_MEM_MIB <? mem_mib then Err "snapshot memory size exceeds launch cap"
  else Ok tt.

(** The loop over the regions beside the layout of the architecture. *)
Fixpoint check_regions (regions : list MemRegion) (expected : list (Z * Z)) (next_file_offset total_ram : Z)
  : result string (Z * list (Z * Z)) :=
  match regions, expected with
  | region :: regions, (expected_addr, expected_len) :: expected =>
      if m_len region =? 0 then Err "snapshot memory region is empty"
      else if negb (m_len region mod DELTA_PAGE_SIZE =? 0)
      then Err "snapshot memory region length is not page-aligned"
      else if negb (gpa region =? expected_addr) || negb (m_len region =? expected_len)
      then Err "snapshot memory region does not match architecture layout"
      else if negb (file_offset region =? next_file_offset) then Err "snapshot memory region file offset"
      else
        stop <-? ok_or (checked_add 64 (gpa region) (m_len region))
                   "snapshot memory region guest address range overflows" ;
        next_file_offset <-? ok_or (checked_add 64 next_file_offset (m_len region))
                               "snapshot memory region file offset range overflows" ;
        total_ram <-? ok_or (checked_add 64 total_ram (m_len region))
                        "snapshot memory region total RAM size overflows" ;
        '(total, ranges) <-? check_regions regions expected next_file_offset total_ram ;
        Ok (total, (gpa region, stop) :: ranges)
  | _, _ => Ok (total_ram, [])
  end.

Definition validate_region_layout (snap : Snapshot VcpuState MachineState) : result string Z :=
  mem_bytes <-? ok_or (checked_mul 64 (sn_mem_mib snap) (2 ^ 20)) "snapshot memory size overflows usize" ;
  if mem_bytes =? 0 then Err "snapshot memory size is zero"
  else
    let expected := arrange_memory mem_bytes in
    if negb (length (sn_mem_regions snap) =? length expected)%nat
    then Err "snapshot memory region count differs from the architecture layout"
    else
      '(total_ram, ranges) <-? check_regions (sn_mem_regions snap) expected 0 0 ;
      if neighbours_overlap (sort_by starts_before ranges) then Err "snapshot memory regions overlap"
      else if negb (total_ram =? mem_bytes) then Err "snapshot memory regions total differs"
      else Ok total_ram.

Definition validate_memory_regions (snap : Snapshot VcpuState MachineState) (memory_len : Z)
  : result string unit :=
  total_ram <-? validate_region_layout snap ;
  match sn_delta snap with
  | None => if negb (total_ram =? memory_len)
            then Err "snapshot memory data length differs from the memory file length" else Ok tt
  | Some d => validate_delta_memory d total_ram memory_len
  end.

(** [memory_len] is the length of the memory file. *)
Definition validate_snapshot_metadata (snap : Snapshot VcpuState MachineState) (memory_len : Z)
  : result string unit :=
  _ <-? validate_snapshot_header snap ;
  _ <-? validate_snapshot_resource_caps (sn_cpus snap) (sn_mem_mib snap) ;
  if negb (Z.of_nat (length (sn_vcpus snap)) =? sn_cpus snap) then Err "snapshot vcpu state count"
  else if SERIAL_FIFO_SIZE <? Z.of_nat (length (in_buffer (sn_serial snap)))
  then Err "serial input FIFO length"
  else
    _ <-? validate_memory_regions snap memory_len ;
    validate_device_states (sn_devices snap) (sn_mem_regions snap).

(** The check of a snapshot whose memory stays with a peer. *)
Definition validate_snapshot_metadata_only (snap : Snapshot VcpuState MachineState) : result string unit :=
  _ <-? validate_snapshot_header snap ;
  _ <-? validate_snapshot_resource_caps (sn_cpus snap) (sn_mem_mib snap) ;
  if negb (Z.of_nat (length (sn_vcpus snap)) =? sn_cpus snap) then Err "snapshot vcpu state count"
  else if SERIAL_FIFO_SIZE <? Z.of_nat (length (in_buffer (sn_serial snap)))
  then Err "serial input FIFO length"
  else
    _ <-? validate_region_layout snap ;
    match sn_delta snap with
    | Some _ => Err "remote page-in does not support delta snapshots"
    | None => validate_device_states (sn_devices snap) (sn_mem_regions snap)
    end.

End snapshot.

(** ** Pairs of elements *)

Section pairwise.
Context {A : Type} (R : A -> A -> Prop).

(** [R] holds of any two elements at different places. *)
Definition pairwise (l : list A) : Prop :=
  forall i j x y, i <> j -> l !! i = Some x -> l !! j = Some y -> R x y.

Lemma pairwise_perm l k : l ≡ₚ k -> pairwise k -> pairwise l.
Proof.
  intros (_ & f & Hf & Hlk)%Permutation_inj Hk i j x y Hij Hi Hj.
  rewrite Hlk in Hi, Hj. eapply Hk; [|done..]. intros ?%Hf. done.
Qed.

Lemma pairwise_cons x l : pairwise (x :: l) -> Forall (R x) l /\ pairwise l.
Proof.
  intros H. split.
  - apply Forall_lookup. intros j y Hj. by apply (H 0%nat (S j)).
  - intros i j a b Hij Hi Hj. apply (H (S i) (S j)); [lia|done..].
Qed.

Lemma strongly_sorted_pairwise (T : A -> A -> Prop) l :
  (forall x y, T x y -> R x y /\ R y x) -> StronglySorted T l -> pairwise l.
Proof.
  intros HT. induction 1 as [|x l Hs IH Hx]; intros i j a b Hij Hi Hj; [done|].
  rewrite Forall_lookup in Hx. destruct i as [|i], j as [|j]; simplify_eq/=; try done.
  - by destruct (HT a b (Hx j b Hj)).
  - by destruct (HT b a (Hx i a Hi)).
  - eapply IH; [|done..]. lia.
Qed.

End pairwise.

Lemma pairwise_nodup {A} (l : list A) : pairwise (fun x y => x <> y) l <-> NoDup l.
Proof.
  rewrite NoDup_alt. split.
  - intros H i j x Hi Hj. destruct (decide (i = j)); [done|]. by destruct (H i j x x).
  - intros H i j x y Hij Hi Hj <-. by destruct Hij; eapply H.
Qed.

(** Two ranges that share no address. *)
Definition disjoint (l r : Z * Z) : Prop := snd l <= fst r \/ snd r <= fst l.

Definition non_empty (l : Z * Z) : Prop := fst l < snd l.

Lemma neighbours_apart l :
  Forall non_empty l -> neighbours_overlap l = false ->
  StronglySorted (fun x y => snd x <= fst y) l.
Proof.
  induction 1 as [|x l Hx Hl IH]; [constructor|]. intros H.
  destruct l as [|y l]; [by repeat constructor|]. destruct x as [xs xe], y as [ys ye].
  cbn [neighbours_overlap] in H. apply orb_false_iff in H as [H1 H2]. bool_to_prop.
  specialize (IH H2). constructor; [done|]. inversion Hl as [|? ? Hy _]; subst.
  inversion IH as [|? ? _ Hys]; subst. unfold non_empty in Hy. cbn [fst snd] in *.
  constructor; [cbn [fst snd]; lia|]. eapply Forall_impl; [done|]. cbn [fst snd]. intros. lia.
Qed.

Lemma pairwise_neighbours l :
  Forall non_empty l -> Sorted (fun x y => starts_before x y = true) l -> pairwise disjoint l ->
  neighbours_overlap l = false.
Proof.
  induction 1 as [|[xs xe] l Hx Hl IH]; intros Hs Hp; [done|].
  destruct l as [|[ys ye] l]; [done|]. apply pairwise_cons in Hp as [Hhd Hp].
  inversion Hs as [|? ? Hs' Hxy]; subst.
  change ((ys <? xe) || neighbours_overlap ((ys, ye) :: l) = false). rewrite IH, orb_false_r by done.
  inversion Hxy as [|? ? Hle]; subst. inversion Hhd as [|? ? Hd _]; subst. inversion Hl as [|? ? Hy _]; subst.
  unfold starts_before, disjoint, non_empty in *. cbn [fst snd] in *. bool_to_prop. apply Z.ltb_ge. lia.
Qed.

(** Looking at neighbours in the sorted ranges decides whether any two overlap. *)
Lemma sorted_overlap_exact l :
  Forall non_empty l ->
  neighbours_overlap (sort_by starts_before l) = false <-> pairwise disjoint l.
Proof.
  intros Hl. assert (Hp := sort_by_perm starts_before l).
  assert (Hs : Forall non_empty (sort_by starts_before l)) by (by rewrite Hp).
  split.
  - intros H. apply (pairwise_perm _ l (sort_by starts_before l)); [by rewrite Hp|].
    apply (strongly_sorted_pairwise _ (fun x y => snd x <= fst y)); [|by apply neighbours_apart].
    unfold disjoint. intros; lia.
  - intros H. apply pairwise_neighbours; [done| |by eapply pairwise_perm].
    apply sort_by_Sorted. unfold starts_before. intros x y.
    destruct (Z.leb_spec (fst x) (fst y)), (Z.leb_spec (fst y) (fst x)); auto; lia.
Qed.

Lemma neighbours_distinct l :
  Sorted (fun x y => (x <=? y) = true) l -> neighbours_equal l = false -> StronglySorted Z.lt l.
Proof.
  induction l as [|x l IH]; [constructor|]. intros Hs H. inversion Hs as [|? ? Hs' Hx]; subst.
  destruct l as [|y l]; [by repeat constructor|].
  cbn [neighbours_equal] in H. apply orb_false_iff in H as [H1 H2]. bool_to_prop.
  specialize (IH Hs' H2). inversion Hx as [|? ? Hle]; subst. bool_to_prop.
  inversion IH as [|? ? _ Hys]; subst. constructor; [done|]. constructor; [lia|].
  eapply Forall_impl; [done|]. cbn beta. intros. lia.
Qed.

Lemma sorted_equal_exact l : neighbours_equal (sort_by Z.leb l) = false <-> NoDup l.
Proof.
  assert (Hp := sort_by_perm Z.leb l).
  transitivity (NoDup (sort_by Z.leb l)); [|by rewrite Hp]. rewrite <- pairwise_nodup.
  assert (Hs : Sorted (fun x y => (x <=? y) = true) (sort_by Z.leb l)).
  { apply sort_by_Sorted. intros x y. destruct (Z.leb_spec x y), (Z.leb_spec y x); auto; lia. }
  split.
  - intros H. apply (strongly_sorted_pairwise _ Z.lt); [lia|by apply neighbours_distinct].
  - intros H. clear Hp. induction (sort_by Z.leb l) as [|x [|y k] IH]; [done..|].
    change ((y =? x) || neighbours_equal (y :: k) = false). apply pairwise_cons in H as [Hx H].
    inversion Hs; subst. rewrite IH, orb_false_r by done. inversion Hx; subst.
    apply Z.eqb_neq. congruence.
Qed.

Lemma pairwise_map {A B} (R : B -> B -> Prop) (f : A -> B) l :
  pairwise R (map f l) <-> pairwise (fun x y => R (f x) (f y)) l.
Proof.
  unfold pairwise. split.
  - intros H i j x y Hij Hi Hj. apply (H i j); [done|..]; rewrite list_lookup_fmap; by simplify_option_eq.
  - intros H i j x y Hij Hi Hj. rewrite list_lookup_fmap in Hi, Hj.
    apply fmap_Some in Hi as (a & Hi & ->), Hj as (b & Hj & ->). by apply (H i j).
Qed.

(** ** Device addresses *)

Definition window (device : DeviceState) : Z * Z :=
  (mmio_base device, mmio_base device + window_size device).

(** A window within the aperture, on its own alignment, and an interrupt of the range. *)
Record placed (device : DeviceState) : Prop := {
  placed_aligned : mmio_base device mod window_size device = 0;
  placed_aperture : MMIO_MEM_START <= mmio_base device /\
                    mmio_base device + window_size device <= aperture_end;
  placed_gsi : IRQ_BASE <= gsi device < IRQ_END }.

Lemma window_non_empty device : non_empty (window device).
Proof.
  unfold non_empty, window, window_size, MMIO_DEVICE_SIZE, PCI_VIRTIO_BAR_SIZE. cbn [fst snd].
  destruct (transport device); lia.
Qed.

Lemma device_window_exact device w : device_window device = Ok w <-> placed device /\ w = window device.
Proof.
  unfold device_window. split.
  - intros H. inv_ok. bool_to_prop.
    match goal with H : checked_add _ _ _ = Some _ |- _ => apply checked_add_Some in H as [-> _] end.
    split; [constructor; lia|done].
  - intros [[Ha [Hlo Hhi] Hg] ->]. rewrite Ha. cbn [Z.eqb negb].
    rewrite checked_add_fits by (eapply Z.le_lt_trans; [exact Hhi|by vm_compute]). cbn [ok_or result_bind].
    rewrite (proj2 (Z.ltb_ge _ _) Hlo), (proj2 (Z.ltb_ge _ _) Hhi), (proj2 (Z.ltb_ge (gsi device) IRQ_BASE)),
      (proj2 (Z.leb_gt IRQ_END (gsi device))) by lia. done.
Qed.

Lemma device_windows_exact devices ws :
  device_windows devices = Ok ws <-> Forall placed devices /\ ws = map window devices.
Proof.
  revert ws. induction devices as [|d devices IH]; intros ws; cbn [device_windows map].
  { split; [intros H; by inv_ok|by intros [_ ->]]. }
  rewrite result_bind_Ok, Forall_cons. setoid_rewrite device_window_exact. split.
  - intros (w & [Hd ->] & H). inv_ok. match goal with H : device_windows _ = Ok _ |- _ => apply IH in H as [? ->] end.
    done.
  - intros [[Hd Hds] ->]. exists (window d). split; [done|]. by rewrite (proj2 (IH _) (conj Hds eq_refl)).
Qed.

(** Distinct interrupts of the range are no more than the range has. *)
Lemma gsi_count devices :
  Forall placed devices -> NoDup (map gsi devices) -> Z.of_nat (length devices) <= IRQ_END - IRQ_BASE.
Proof.
  intros Hp Hn. assert (Hlen : (length (map gsi devices) <= length (seqZ IRQ_BASE (IRQ_END - IRQ_BASE)))%nat).
  { apply submseteq_length, NoDup_submseteq; [done|]. intros g Hg. apply list_elem_of_fmap in Hg as (d & -> & Hd).
    rewrite Forall_forall in Hp. apply elem_of_seqZ. destruct (Hp d Hd) as [_ _ ?]. lia. }
  rewrite length_map, length_seqZ in Hlen. unfold IRQ_END, IRQ_BASE, NUM_IOAPIC_PINS in *. lia.
Qed.

Lemma validate_device_addressing_iff devices :
  validate_device_addressing devices = Ok tt <->
  Forall placed devices /\ pairwise disjoint (map window devices) /\ NoDup (map gsi devices).
Proof.
  assert (Hne : Forall non_empty (map window devices)).
  { apply Forall_fmap, Forall_true. intros d. apply window_non_empty. }
  unfold validate_device_addressing. split.
  - intros H. inv_ok. bool_to_prop.
    match goal with H : device_windows _ = Ok _ |- _ => apply device_windows_exact in H as [Hp ->] end.
    split_and!; [done|by apply sorted_overlap_exact|by apply sorted_equal_exact].
  - intros (Hp & Hd & Hg). pose proof (gsi_count devices Hp Hg) as Hc.
    assert (IRQ_END - IRQ_BASE <= MMIO_MEM_SIZE / MMIO_DEVICE_SIZE) by (by vm_compute).
    rewrite (proj2 (Z.ltb_ge _ _)) by lia.
    change (checked_sub IRQ_END IRQ_BASE) with (Some (IRQ_END - IRQ_BASE)). cbn [ok_or result_bind].
    rewrite (proj2 (Z.ltb_ge _ _)) by lia.
    change (checked_add 64 MMIO_MEM_START MMIO_MEM_SIZE) with (Some aperture_end). cbn [ok_or result_bind].
    rewrite (proj2 (device_windows_exact _ _) (conj Hp eq_refl)). cbn [result_bind].
    rewrite (proj2 (sorted_overlap_exact _ Hne) Hd), (proj2 (sorted_equal_exact _) Hg). done.
Qed.

Lemma addressing_pairwise devices :
  pairwise disjoint (map window devices) /\ NoDup (map gsi devices) <->
  pairwise (fun d e => disjoint (window d) (window e) /\ gsi d <> gsi e) devices.
Proof.
  rewrite <- pairwise_nodup, !pairwise_map. split.
  - intros [Hw Hg] i j d e Hij Hi Hj. split; [by apply (Hw i j)|by apply (Hg i j)].
  - intros H. split; intros i j d e Hij Hi Hj; by apply (H i j).
Qed.

(** ** Queues *)

(** The bytes [[start, start + len)] lie in one region of RAM. *)
Definition in_ram (regions : list MemRegion) (start len : Z) : Prop :=
  exists r, r ∈ regions /\ gpa r <= start /\ start + len <= gpa r + m_len r < 2 ^ 64.

Lemma validate_queue_ram_range_Ok start len regions :
  validate_queue_ram_range start len regions = Ok tt -> in_ram regions start len.
Proof.
  unfold validate_queue_ram_range. intros H. inv_ok. bool_to_prop.
  match goal with H : checked_add _ _ _ = Some _ |- _ => apply checked_add_Some in H as [-> _] end.
  match goal with H : existsb _ _ = true |- _ => apply existsb_exists in H as (r & Hr & Hfit) end.
  destruct (checked_add 64 (gpa r) (m_len r)) eqn:He; [|done]. apply checked_add_Some in He as [-> ?].
  bool_to_prop. exists r. split; [by apply list_elem_of_In|]. lia.
Qed.

(** Every ring of a ready queue lies in RAM. *)
Definition queue_in_ram (regions : list MemRegion) (q : QueueStateSer) : Prop :=
  size q <> 0 /\ in_ram regions (desc_table q) (16 * size q) /\
  in_ram regions (avail_ring q) (6 + 2 * size q + event_len q) /\
  in_ram regions (used_ring q) (6 + 8 * size q + event_len q).

Lemma ring_len_Ok meta element q s len : ring_len meta element q s = Ok len -> len = meta + element * size q + event_len q.
Proof.
  unfold ring_len. intros H. inv_ok. repeat match goal with
    | H : checked_add _ _ _ = Some _ |- _ => apply checked_add_Some in H as [-> _]
    | H : checked_mul _ _ _ = Some _ |- _ => apply checked_mul_Some in H as [-> _] end. done.
Qed.

Lemma validate_queue_Ok regions q :
  validate_queue regions q = Ok tt ->
  size q <= max_size q /\ (ready q = true -> queue_in_ram regions q).
Proof.
  unfold validate_queue. intros H. inv_ok. bool_to_prop. split; [done|]. intros Hr. rewrite Hr in *.
  cbn [andb] in *. bool_to_prop. unfold validate_ready_queue_ram in H. inv_ok.
  repeat match goal with
    | H : ring_len _ _ _ _ = Ok _ |- _ => apply ring_len_Ok in H as ->
    | H : checked_mul _ _ _ = Some _ |- _ => apply checked_mul_Some in H as [-> _]
    | H : validate_queue_ram_range _ _ _ = Ok ?x |- _ => destruct x; apply validate_queue_ram_range_Ok in H end.
  by split_and!.
Qed.

Lemma try_each_Ok {A} (f : A -> result string unit) l : try_each f l = Ok tt <-> Forall (fun x => f x = Ok tt) l.
Proof.
  induction l as [|x l IH]; cbn [try_each]; [by split|]. rewrite Forall_cons, <- IH, result_bind_Ok.
  split; [intros ([] & ? & ?); done|intros [? ?]; by exists tt].
Qed.

(** ** Memory layout *)

(** The memory allocated for a list of address ranges. *)
Abbreviation alloc := (map (fun '(addr, len) =>
  mkGuestRegion addr (replicate (Z.to_nat (len / DELTA_PAGE_SIZE)) zero_page))) (only parsing).

Lemma alloc_region_len addr len :
  0 <= len -> len mod DELTA_PAGE_SIZE = 0 ->
  region_len (mkGuestRegion addr (replicate (Z.to_nat (len / DELTA_PAGE_SIZE)) zero_page)) = len.
Proof.
  intros H0 Hm. unfold region_len. cbn [r_pages]. rewrite length_replicate, Z2Nat.id.
  - rewrite (Z.div_mod len DELTA_PAGE_SIZE) at 2 by (unfold DELTA_PAGE_SIZE; lia). lia.
  - apply Z.div_pos; [done|unfold DELTA_PAGE_SIZE; lia].
Qed.

(** A table that passes the checks is the one of the memory allocated for the layout. *)
Lemma check_regions_table regions expected off total res :
  Forall (fun '(addr, len) => addr mod DELTA_PAGE_SIZE = 0 /\ 0 <= len) expected ->
  length regions = length expected -> check_regions regions expected off total = Ok res ->
  region_table (alloc expected) off = Ok regions.
Proof.
  revert expected off total res. induction regions as [|[g l o] regions IH];
    intros [|[addr len] expected] off total res Hal Hlen H; try done. cbn [check_regions gpa m_len file_offset] in H.
  apply Forall_cons in Hal as [[Ha H0] Hal']. injection Hlen as Hlen. inv_ok. bool_to_prop. subst.
  repeat match goal with H : checked_add _ _ _ = Some _ |- _ => apply checked_add_Some in H as [-> ?] end.
  cbn [map region_table start_addr]. rewrite alloc_region_len by done.
  rewrite Ha, (proj2 (Z.eqb_neq len 0)), (proj2 (Z.eqb_eq (len mod DELTA_PAGE_SIZE) 0)) by done. cbn [negb Z.eqb].
  rewrite checked_add_fits by done. cbn [ok_or result_bind].
  match goal with H : check_regions _ _ _ _ = Ok _ |- _ => apply IH in H; [|done..]; rewrite H end. done.
Qed.

Lemma arrange_memory_aligned bytes :
  0 <= bytes -> Forall (fun '(addr, len) => addr mod DELTA_PAGE_SIZE = 0 /\ 0 <= len) (arrange_memory bytes).
Proof.
  intros H. unfold arrange_memory. destruct (Z.eqb_spec bytes 0); [constructor|].
  destruct (Z.leb_spec bytes MMIO_MEM_START); repeat constructor; try done; lia.
Qed.

(** [bytes] is a number of pages, and far below [2^64]. *)
Lemma arrange_memory_ok bytes :
  0 < bytes <= 2 ^ 36 -> bytes mod DELTA_PAGE_SIZE = 0 ->
  mem_ok 0 (alloc (arrange_memory bytes)) /\
  DELTA_PAGE_SIZE * Z.of_nat (length (flat (alloc (arrange_memory bytes)))) = bytes.
Proof.
  intros Hb Hm. unfold arrange_memory. rewrite (proj2 (Z.eqb_neq bytes 0)) by lia.
  assert (Hs : MMIO_MEM_START = 3489660928) by reflexivity.
  assert (Hf : FIRST_ADDR_PAST_32BITS = 4294967296) by reflexivity.
  destruct (Z.leb_spec bytes MMIO_MEM_START) as [Hle|Hgt]; rewrite Hs in *; rewrite ?Hf;
    unfold flat; cbn [map concat mem_ok start_addr r_pages].
  - rewrite alloc_region_len by (done || lia). rewrite length_app, length_replicate.
    unfold DELTA_PAGE_SIZE in *. cbn [length]. split; [split_and!; [lia..|done]|].
    rewrite Nat.add_0_r, Z2Nat.id by divlia. divlia.
  - assert (Hm' : (bytes - 3489660928) mod DELTA_PAGE_SIZE = 0).
    { unfold DELTA_PAGE_SIZE in *. revert Hm. divlia. }
    rewrite !alloc_region_len by (done || lia). rewrite !length_app, !length_replicate.
    unfold DELTA_PAGE_SIZE in *. cbn [length]. split; [split_and!; [lia..|done]|].
    rewrite Nat.add_0_r, Nat2Z.inj_add, !Z2Nat.id by divlia. divlia.
Qed.

Lemma create_guest_memory_alloc bytes :
  0 < bytes -> bytes mod DELTA_PAGE_SIZE = 0 -> create_guest_memory bytes = Ok (alloc (arrange_memory bytes)).
Proof.
  intros Hb Hm. unfold create_guest_memory. by rewrite (proj2 (Z.eqb_neq bytes 0)), Hm by lia.
Qed.

(** ** The theorems *)

Lemma validate_region_layout_Ok {V M} (snap : Snapshot V M) total :
  in_width 64 (sn_mem_mib snap) -> sn_mem_mib snap <= MAX_MEM_MIB -> validate_region_layout snap = Ok total ->
  total = sn_mem_mib snap * 2 ^ 20 /\
  exists mem, create_guest_memory total = Ok mem /\ mem_ok 0 mem /\
    memory_region_table mem = Ok (sn_mem_regions snap) /\
    DELTA_PAGE_SIZE * Z.of_nat (length (flat mem)) = total.
Proof.
  intros Hw Hcap. unfold validate_region_layout. intros H. inv_ok. bool_to_prop.
  match goal with H : checked_mul _ _ _ = Some _ |- _ => apply checked_mul_Some in H as [-> _] end.
  destruct x0 as [total_ram ranges]. inv_ok. bool_to_prop. subst.
  assert (Hb : 0 < sn_mem_mib snap * 2 ^ 20 <= 2 ^ 36).
  { unfold in_width, MAX_MEM_MIB in *. lia. }
  assert (Hm : (sn_mem_mib snap * 2 ^ 20) mod DELTA_PAGE_SIZE = 0).
  { unfold DELTA_PAGE_SIZE. change (2 ^ 20) with (256 * 4096). rewrite Z.mul_assoc. by apply Z.mod_mul. }
  split; [done|]. eexists. split; [apply create_guest_memory_alloc; [lia|done]|].
  destruct (arrange_memory_ok _ Hb Hm) as [Hok Hlen]. split_and!; [done| |done].
  match goal with H : (length _ =? length _)%nat = true |- _ => apply Nat.eqb_eq in H as Hn end.
  match goal with H : check_regions _ _ _ _ = Ok _ |- _ => apply check_regions_table in H as Ht end;
    [|apply arrange_memory_aligned; lia|done].
  unfold memory_region_table. rewrite Ht. cbn [result_bind]. destruct (sn_mem_regions snap); [|done].
  unfold arrange_memory in Hn. destruct (_ =? 0) eqn:E; bool_to_prop; [lia|]. by destruct (_ <=? _).
Qed.

(** [validate_device_addressing] accepts a set of devices exactly when every window is
    aligned and inside the aperture, every interrupt is in range, no two windows share an
    address and no two devices an interrupt; the checks on the number of devices and the
    sorting before the comparison of neighbours refuse nothing else and miss nothing. *)
Lemma device_addressing_exact devices :
  validate_device_addressing devices = Ok tt <->
  Forall placed devices /\
  pairwise (fun d e => disjoint (window d) (window e) /\ gsi d <> gsi e) devices.
Proof. by rewrite validate_device_addressing_iff, addressing_pairwise. Qed.

(** C32: a snapshot that passes validation restores into the memory the architecture lays out
    for its size: the table it carries is that memory's own, a full memory file has its
    length, every ring of a ready queue lies inside one region of it, and the devices
    neither overlap nor leave their aperture. *)
Theorem validated_snapshot_restorable {V M} current (snap : Snapshot V M) memory_len :
  in_width 64 (sn_mem_mib snap) ->
  validate_snapshot_metadata current snap memory_len = Ok tt ->
  exists mem, create_guest_memory (sn_mem_mib snap * 2 ^ 20) = Ok mem /\ mem_ok 0 mem /\
    ensure_guest_memory_layout mem (sn_mem_regions snap) = Ok tt /\
    Z.of_nat (length (flat mem)) < 2 ^ 32 /\
    (sn_delta snap = None -> memory_len = DELTA_PAGE_SIZE * Z.of_nat (length (flat mem))) /\
    (forall d q, d ∈ sn_devices snap -> q ∈ queues d -> ready q = true ->
       queue_in_ram (sn_mem_regions snap) q) /\
    pairwise (fun d e => disjoint (window d) (window e) /\ gsi d <> gsi e) (sn_devices snap) /\
    Forall placed (sn_devices snap).
Proof.
  intros Hw H. unfold validate_snapshot_metadata in H. inv_ok. bool_to_prop.
  unfold validate_snapshot_resource_caps in *. unfold validate_device_states in H. inv_ok. bool_to_prop.
  repeat match goal with x : unit |- _ => destruct x end.
  unfold validate_memory_regions in *. inv_ok.
  match goal with H : validate_region_layout _ = Ok _ |- _ =>
    destruct (validate_region_layout_Ok snap _ Hw ltac:(done) H) as [-> (mem & Hmem & Hok & Ht & Hlen)] end.
  exists mem. split_and!; [done|done|by apply ensure_layout_Ok| | | | |].
  - unfold DELTA_PAGE_SIZE, MAX_MEM_MIB in *. lia.
  - intros Hd. rewrite Hd in *. inv_ok. bool_to_prop. congruence.
  - intros d q Hd Hq Hr. match goal with H : try_each _ _ = Ok tt |- _ =>
      apply try_each_Ok in H; rewrite Forall_forall in H; apply H in Hd; clear H end.
    unfold validate_device in Hd. inv_ok. apply try_each_Ok in Hd. rewrite Forall_forall in Hd.
    by apply Hd, validate_queue_Ok in Hq as [_ Hq]; apply Hq.
  - apply validate_device_addressing_iff in H as [_ H]. by apply addressing_pairwise.
  - by apply validate_device_addressing_iff in H as (? & _).
Qed.

(** *** Witnesses *)

Definition queue0 : QueueStateSer := mkQueueStateSer 256 0 0 false 8 true 0x1000 0x2000 0x3000.

Definition block0 (base g : Z) : DeviceState :=
  mkDeviceState KBlock Mmio base g 0 0 0 0 0 true [queue0] (HBlock "disk.img" false) None None None.

Definition snap0 : Snapshot unit unit :=
  mkSnapshot 3 "x86_64" Kvm 1 1 "" "direct" None [mkMemRegion 0 (2 ^ 20) 0] [tt] tt
    (mkSerialState 0 0 0 0 0 0 0 0 0 []) [block0 MMIO_MEM_START 5; block0 (MMIO_MEM_START + 4096) 6] None.

Lemma validated_snapshot_restorable_witness :
  exists mem, create_guest_memory (2 ^ 20) = Ok mem /\
    ensure_guest_memory_layout mem (sn_mem_regions snap0) = Ok tt /\
    queue_in_ram (sn_mem_regions snap0) queue0.
Proof.
  destruct (validated_snapshot_restorable Kvm snap0 (2 ^ 20)) as (mem & H1 & _ & H2 & _ & _ & H3 & _).
  - split; vm_compute; congruence.
  - vm_compute; reflexivity.
  - exists mem. split; [exact H1|]. split; [exact H2|].
    apply (H3 (block0 MMIO_MEM_START 5)); [left|left|reflexivity].
Defined.
