(* ===== verification/SnapshotFull.v ===== *)
(** Full memory files and the lazy mapping of a chain ([vmm/src/snapshot/mod.rs],
    [vmm/src/memory.rs]): the sparse dump of guest memory, which leaves holes for zero
    pages, and [map_memory_chain_private], the second way to rebuild a chain.

    A file is the list of its pages; what lies in a hole reads as zeroes. *)

From S2P Require Import Prelude SnapshotDelta.

(** ** Zero pages *)

(** Every byte equals the one before it, and the first is zero. *)
Definition is_zero (bytes : list Z) : bool :=
  match bytes with
  | [] => true
  | b :: rest => (b =? 0) && bool_decide (rest = take (length bytes - 1) bytes)
  end.

(** The bits of one output byte; [n] of them are left. *)
Fixpoint scan_byte (n : nat) (slice : list page) (page0 bit : nat) (value : Z) : Z :=
  match n with
  | O => value
  | S n =>
      match slice !! (page0 + bit)%nat with
      | None => value
      | Some p =>
          scan_byte n slice page0 (S bit)
            (if is_zero p then value else Z.lor value (Z.shiftl 1 (Z.of_nat bit)))
      end
  end.

Fixpoint scan_bytes (n : nat) (slice : list page) (page0 : nat) : list Z :=
  match n with
  | O => []
  | S n => scan_byte 8 slice page0 0 0 :: scan_bytes n slice (page0 + 8)
  end.

Definition scan_nonzero_pages (slice : list page) : list Z :=
  let n := bitmap_len (length slice) in
  par_chunks (fun first n => scan_bytes n slice first) n 0 n.

(** ** The sparse dump *)

(** Cutting a file, or extending it with a hole. *)
Definition set_len (n : nat) (file : list page) : list page :=
  take n file ++ replicate (n - length file) zero_page.

(** A positioned write; what lies between the end of the file and it becomes a hole. *)
Definition write_all_at (file data : list page) (offset : nat) : list page :=
  set_len offset file ++ data ++ drop (offset + length data) file.

(** The inner [while]: the page after the run that starts at [p]. *)
Fixpoint run_end (n : nat) (nonzero : list Z) (p : nat) : nat :=
  match n with
  | O => p
  | S n => if bit_set nonzero p then run_end n nonzero (S p) else p
  end.

(** The outer [while], over the pages of a region from [p] on; [logical] is the region's
    first page in the file. *)
Fixpoint dump_runs (fuel : nat) (slice : list page) (nonzero : list Z) (logical p : nat)
    (file : list page) : list page :=
  match fuel with
  | O => file
  | S fuel =>
      if (length slice <=? p)%nat then file
      else if negb (bit_set nonzero p) then dump_runs fuel slice nonzero logical (S p) file
      else
        let stop := run_end (length slice - p) nonzero p in
        dump_runs fuel slice nonzero logical stop
          (write_all_at file (take (stop - p) (drop p slice)) (logical + p))
  end.

(** Every page moves the outer loop on by at least one. *)
Fixpoint dump_regions (regions : list MemRegion) (mem : GuestMemory) (logical : nat) (file : list page)
  : result string (nat * list page) :=
  match regions with
  | [] => Ok (logical, file)
  | region :: regions =>
      ptr <-? ok_or (pages_at mem (gpa region)) "host address" ;
      let slice := take (Z.to_nat (m_len region / DELTA_PAGE_SIZE)) ptr in
      let file := dump_runs (S (length slice)) slice (scan_nonzero_pages slice) logical 0 file in
      dump_regions regions mem (logical + length slice) file
  end.

(** The contents of the file; [set_len] materialises the trailing hole. *)
Definition dump_memory_file (mem : GuestMemory) : result string (list MemRegion * list page) :=
  regions <-? memory_region_table mem ;
  '(logical, file) <-? dump_regions regions mem 0 [] ;
  Ok (regions, set_len logical file).

(** ** Mapping a chain *)

(** [GuestMemoryMmap::from_regions] refuses regions out of order or overlapping. *)
Fixpoint regions_ordered (lo : Z) (mem : GuestMemory) : bool :=
  match mem with
  | [] => true
  | r :: mem => (lo <=? start_addr r) && regions_ordered (start_addr r + region_len r) mem
  end.

Fixpoint map_regions (regions : list MemRegion) (file : list page) (next_file_offset : Z)
  : result string (Z * GuestMemory) :=
  let file_len := DELTA_PAGE_SIZE * Z.of_nat (length file) in
  match regions with
  | [] => Ok (next_file_offset, [])
  | r :: regions =>
      if negb (gpa r mod DELTA_PAGE_SIZE =? 0) then Err "snapshot memory region is not page-aligned"
      else if m_len r =? 0 then Err "snapshot memory region is empty"
      else if negb (m_len r mod DELTA_PAGE_SIZE =? 0)
      then Err "snapshot memory region length is not page-aligned"
      else if negb (file_offset r mod DELTA_PAGE_SIZE =? 0)
      then Err "snapshot memory region file offset is not page-aligned"
      else if negb (file_offset r =? next_file_offset) then Err "snapshot memory region file offset"
      else
        stop <-? ok_or (checked_add 64 (file_offset r) (m_len r))
                   "snapshot memory region file offset overflows" ;
        if file_len <? stop then Err "snapshot memory region exceeds snapshot memory file length"
        else
          _ <-? ok_or (checked_add 64 (gpa r) (m_len r)) "guest region address overflow" ;
          '(next, mem) <-? map_regions regions file stop ;
          Ok (next, mkGuestRegion (gpa r)
                (take (Z.to_nat (m_len r / DELTA_PAGE_SIZE))
                   (drop (Z.to_nat (file_offset r / DELTA_PAGE_SIZE)) file)) :: mem)
  end.

Definition create_guest_memory_private (file : list page) (regions : list MemRegion)
  : result string GuestMemory :=
  if (length regions =? 0)%nat then Err "snapshot has no memory regions"
  else
    '(next_file_offset, mem) <-? map_regions regions file 0 ;
    if negb (next_file_offset =? DELTA_PAGE_SIZE * Z.of_nat (length file))
    then Err "snapshot memory regions do not cover the memory file"
    else if negb (regions_ordered 0 mem) then Err "assembling private guest memory"
    else Ok mem.

(** The deltas applied, the deepest first. *)
Fixpoint apply_layers (layers : list SnapshotImage) (mem : GuestMemory) (expected : list MemRegion)
  : result string GuestMemory :=
  match layers with
  | [] => Ok mem
  | layer :: layers =>
      d <-? ok_or (delta layer) "chain layers above the base are deltas" ;
      mem <-? apply_delta_pages (memory_file layer) mem d expected ;
      apply_layers layers mem expected
  end.

Section map_chain.

Variable read_snapshot : string -> result string SnapshotImage.

(** The [while let] that walks down to the full layer; at most [MAX_DELTA_CHAIN_DEPTH]
    deltas are collected, so [chain_fuel] turns are enough. *)
Fixpoint walk_chain (fuel : nat) (layer : SnapshotImage) (deltas : list SnapshotImage)
    (expected : list MemRegion) : result string (SnapshotImage * list SnapshotImage) :=
  match delta layer with
  | None => Ok (layer, deltas)
  | Some d =>
      if (MAX_DELTA_CHAIN_DEPTH <=? length deltas)%nat then Err "snapshot delta chain exceeds max depth"
      else if negb (same_layout (mem_regions layer) expected)
      then Err "delta chain layer RAM layout differs from top snapshot"
      else
        match fuel with
        | O => Err "out of fuel"
        | S fuel =>
            layer_dir <-? base_dir_of (d_base d) ;
            base <-? read_snapshot layer_dir ;
            walk_chain fuel base (deltas ++ [layer]) expected
        end
  end.

Definition map_memory_chain_private (dir : string) (image : SnapshotImage) : result string GuestMemory :=
  let expected := mem_regions image in
  top <-? read_snapshot dir ;
  '(layer, deltas) <-? walk_chain chain_fuel top [] expected ;
  if negb (same_layout (mem_regions layer) expected)
  then Err "delta chain base RAM layout differs from top snapshot"
  else
    mem <-? create_guest_memory_private (memory_file layer) expected ;
    apply_layers (rev deltas) mem expected.

End map_chain.

(** ** The scan *)

Lemma is_zero_exact l : is_zero l = true <-> l = replicate (length l) 0.
Proof.
  destruct l as [|b rest]; [done|]. cbn [is_zero length replicate]. rewrite Nat.sub_succ, Nat.sub_0_r. split.
  - intros H. bool_to_prop. subst. f_equal. symmetry. apply replicate_as_elem_of. split; [done|].
    intros x Hx. apply list_elem_of_lookup in Hx as [i Hx]. revert x Hx.
    induction i as [|i IH]; intros x Hx; pose proof (lookup_lt_Some _ _ _ Hx);
      rewrite H0, lookup_take_lt in Hx by lia; simplify_eq/=; [done|by apply IH].
  - intros [= -> Hr]. apply andb_true_iff. split; [done|]. apply bool_decide_eq_true.
    rewrite Hr at 3. rewrite <- replicate_S, take_replicate, Nat.min_l by lia. done.
Qed.

Section scan.
Context (slice : list page).

Definition nonzero_at (p : nat) : bool :=
  match slice !! p with Some q => negb (is_zero q) | None => false end.

Lemma scan_byte_bits m page0 bit value :
  (bit + m <= 8)%nat -> in_width 8 value ->
  (forall i, (bit <= i)%nat -> Z.testbit value (Z.of_nat i) = false) ->
  in_width 8 (scan_byte m slice page0 bit value) /\
  (forall i, (i < bit)%nat ->
     Z.testbit (scan_byte m slice page0 bit value) (Z.of_nat i) = Z.testbit value (Z.of_nat i)) /\
  (forall i, (bit <= i < bit + m)%nat ->
     Z.testbit (scan_byte m slice page0 bit value) (Z.of_nat i) =
     flagged nonzero_at (length slice) (page0 + i)).
Proof.
  revert bit value. induction m as [|m IH]; intros bit value Hm Hw Hz; cbn [scan_byte].
  { split_and!; [done|done|lia]. }
  destruct (slice !! (page0 + bit)%nat) as [p|] eqn:Hp.
  2: { apply lookup_ge_None in Hp. split_and!; [done|done|]. intros i Hi. rewrite Hz by lia. unfold flagged.
       by rewrite (proj2 (Nat.ltb_ge _ _)) by lia. }
  set (v := if is_zero p then value else _).
  assert (Hv : forall i, Z.testbit v (Z.of_nat i) =
                 (Z.testbit value (Z.of_nat i) || (bool_decide (i = bit) && negb (is_zero p)))).
  { intros i. unfold v. destruct (is_zero p); [by rewrite andb_false_r, orb_false_r|].
    by rewrite or_bit_testbit, andb_true_r. }
  destruct (IH (S bit) v) as (Hw' & Hlo & Hhi).
  - lia.
  - unfold v. destruct (is_zero p); [done|apply or_bit_width; [lia|done]].
  - intros i Hi. by rewrite Hv, Hz, bool_decide_eq_false_2 by lia.
  - split_and!; [done| |].
    + intros i Hi. rewrite Hlo, Hv, bool_decide_eq_false_2 by lia. apply orb_false_r.
    + intros i Hi. destruct (decide (i = bit)) as [->|]; [|apply Hhi; lia].
      rewrite Hlo, Hv, Hz, bool_decide_eq_true_2 by lia. unfold flagged, nonzero_at. rewrite Hp.
      by rewrite (proj2 (Nat.ltb_lt _ _)) by (by apply lookup_lt_Some in Hp).
Qed.

Lemma scan_bytes_flags m page0 :
  bitmap_flags nonzero_at (length slice) page0 (scan_bytes m slice page0) /\
  length (scan_bytes m slice page0) = m.
Proof.
  revert page0. induction m as [|m IH]; intros page0; cbn [scan_bytes bitmap_flags length]; [done|].
  destruct (IH (page0 + 8)%nat) as [Hf ->]. split; [|done]. split; [|done].
  destruct (scan_byte_bits 8 page0 0 0) as (Hw & _ & Hb); [lia|by vm_compute|intros; apply Z.bits_0|].
  split; [done|]. intros i Hi. apply Hb. lia.
Qed.

(** The bitmap flags exactly the pages with a byte other than zero. *)
Lemma scan_nonzero_pages_bit p :
  (p < length slice)%nat -> bit_set (scan_nonzero_pages slice) p = nonzero_at p.
Proof.
  intros Hp. unfold scan_nonzero_pages.
  destruct (par_chunks_flags nonzero_at (length slice) (fun first n => scan_bytes n slice first)
              (bitmap_len (length slice)) 0 (bitmap_len (length slice))) as [Hf Hl]; [|lia..|].
  { intros. apply scan_bytes_flags. }
  change (0 * DIFF_PAGES_PER_WORKER)%nat with 0%nat in Hf. rewrite (bitmap_flags_bit _ _ _ _ Hf).
  - unfold flagged. by rewrite (proj2 (Nat.ltb_lt _ _)).
  - rewrite Hl. by apply bitmap_len_covers.
Qed.

End scan.

(** ** The runs *)

Lemma length_set_len n file : length (set_len n file) = n.
Proof. unfold set_len. rewrite length_app, length_take, length_replicate. lia. Qed.

Lemma set_len_set_len n m file :
  (length file <= n <= m)%nat -> set_len m file = set_len n file ++ replicate (m - n) zero_page.
Proof.
  intros H. unfold set_len. rewrite !take_ge by lia. rewrite <- app_assoc, <- replicate_add.
  do 2 f_equal. lia.
Qed.

Lemma write_all_at_end file data offset :
  (length file <= offset)%nat -> write_all_at file data offset = set_len offset file ++ data.
Proof. intros. unfold write_all_at. rewrite drop_ge by lia. by rewrite app_nil_r. Qed.

Lemma run_end_bounds n nonzero p :
  (p <= run_end n nonzero p <= p + n)%nat /\
  (n <> 0%nat -> bit_set nonzero p = true -> (p < run_end n nonzero p)%nat).
Proof.
  revert p. induction n as [|n IH]; intros p; cbn [run_end]; [lia|].
  destruct (IH (S p)) as [? _]. destruct (bit_set nonzero p); split; lia || done.
Qed.

(** Every page has the size of a page. *)
Definition full_pages (l : list page) : Prop := Forall (fun p => length p = Z.to_nat DELTA_PAGE_SIZE) l.

Lemma zero_page_hole q : length q = Z.to_nat DELTA_PAGE_SIZE -> is_zero q = true -> q = zero_page.
Proof. intros Hl Hz. apply is_zero_exact in Hz. rewrite Hz, Hl. done. Qed.

Section runs.
Context (slice prefix : list page) (Hfull : full_pages slice).

(** Cut at page [p] of the region, the file holds what came before and the first [p] pages. *)
Definition dumped (p : nat) (file : list page) : Prop :=
  (length file <= length prefix + p)%nat /\ set_len (length prefix + p) file = prefix ++ take p slice.

Lemma dumped_hole p q file :
  slice !! p = Some q -> is_zero q = true -> dumped p file -> dumped (S p) file.
Proof.
  intros Hq Hz [Hl Hd]. split; [lia|]. rewrite (set_len_set_len (length prefix + p)), Hd by lia.
  replace (length prefix + S p - (length prefix + p))%nat with 1%nat by lia.
  rewrite (take_S_r slice p q Hq), app_assoc. f_equal. cbn [replicate]. f_equal. symmetry.
  apply zero_page_hole; [|done]. unfold full_pages in Hfull. rewrite Forall_lookup in Hfull. by eapply Hfull.
Qed.

Lemma dumped_run p stop file :
  (p <= stop <= length slice)%nat -> dumped p file ->
  dumped stop (write_all_at file (take (stop - p) (drop p slice)) (length prefix + p)).
Proof.
  intros Hp [Hl Hd]. rewrite write_all_at_end, Hd, <- app_assoc, take_take_drop by done.
  replace (p + (stop - p))%nat with stop by lia.
  assert (Hlen : length (prefix ++ take stop slice) = (length prefix + stop)%nat)
    by (rewrite length_app, length_take; lia).
  split; [lia|]. unfold set_len. by rewrite take_ge, Hlen, Nat.sub_diag, app_nil_r by lia.
Qed.

Lemma dump_runs_spec fuel p file :
  (p <= length slice)%nat -> (length slice < fuel + p)%nat -> dumped p file ->
  dumped (length slice) (dump_runs fuel slice (scan_nonzero_pages slice) (length prefix) p file).
Proof.
  revert p file. induction fuel as [|fuel IH]; intros p file Hp Hfuel Hd; [lia|]. cbn [dump_runs].
  destruct (Nat.leb_spec (length slice) p); [by replace (length slice) with p by lia|].
  destruct (lookup_lt_is_Some_2 slice p) as [q Hq]; [lia|].
  destruct (bit_set (scan_nonzero_pages slice) p) eqn:Hb; cbn [negb].
  - pose proof (run_end_bounds (length slice - p) (scan_nonzero_pages slice) p) as [Hr Hr'].
    specialize (Hr' ltac:(lia) Hb). apply IH; [lia|lia|]. apply dumped_run; [lia|done].
  - apply IH; [lia|lia|]. eapply dumped_hole; [done| |done].
    rewrite scan_nonzero_pages_bit in Hb by lia. unfold nonzero_at in Hb. rewrite Hq in Hb. by destruct (is_zero q).
Qed.

End runs.

Lemma dump_regions_spec mem all regions first file :
  mem_ok 0 mem -> memory_region_table mem = Ok all -> full_pages (flat mem) ->
  (forall r, r ∈ regions -> r ∈ all) -> back_to_back first (length (flat mem)) regions ->
  (first <= length (flat mem))%nat -> dumped (flat mem) [] first file ->
  exists file', dump_regions regions mem first file = Ok (length (flat mem), file') /\
    dumped (flat mem) [] (length (flat mem)) file'.
Proof.
  intros Hok Ht Hfull. revert first file. induction regions as [|r regions IH]; intros first file Hin Hb Hle Hd.
  { cbn [back_to_back dump_regions] in *. subst. by exists file. }
  destruct Hb as [Hoff Hb]. cbn [dump_regions].
  destruct (pages_at_table 0 mem 0 all r) as (ps & i & Hat & _ & Hoff' & Hps);
    [done|by apply memory_region_table_Ok|apply Hin; by left|].
  assert (i = first) as -> by (unfold DELTA_PAGE_SIZE in *; lia). rewrite Hat. cbn [ok_or result_bind].
  set (n := Z.to_nat (m_len r / DELTA_PAGE_SIZE)) in *.
  assert (Hn : (first + n <= length (flat mem))%nat).
  { destruct n as [|n]; [lia|]. destruct (Hps n) as [? _]; lia. }
  assert (Hslice : take n ps = take n (drop first (flat mem))).
  { apply list_eq. intros k. destruct (decide (k < n)%nat); [|by rewrite !lookup_take_ge by lia].
    rewrite !lookup_take_lt, lookup_drop by done. by apply Hps. }
  rewrite Hslice. assert (Hlen : length (take n (drop first (flat mem))) = n) by (rewrite length_take, length_drop; lia).
  assert (Hfull' : full_pages (take n (drop first (flat mem)))) by (by apply Forall_take, Forall_drop).
  assert (Hpre : length (take first (flat mem)) = first) by (rewrite length_take; lia).
  destruct Hd as [Hfl Hd]. cbn [length app Nat.add] in Hfl, Hd.
  destruct (dump_runs_spec _ (take first (flat mem)) Hfull' (S n) 0 file) as [Hl' Hd'];
    [lia|lia|split; rewrite Hpre, Nat.add_0_r; [lia|by rewrite take_0, app_nil_r]|].
  rewrite Hpre, Hlen in *. apply IH; [|done|lia|].
  - intros. apply Hin. by right.
  - split; [done|]. cbn [length app Nat.add]. by rewrite Hd', take_idemp, take_take_drop.
Qed.

Lemma dump_memory_file_flat mem regions :
  mem_ok 0 mem -> memory_region_table mem = Ok regions -> full_pages (flat mem) ->
  dump_memory_file mem = Ok (regions, flat mem).
Proof.
  intros Hok Ht Hfull. unfold dump_memory_file. rewrite Ht. cbn [result_bind].
  destruct (dump_regions_spec mem regions regions 0 []) as (file & -> & _ & Hd); try done.
  - apply (region_table_back_to_back mem 0). by apply memory_region_table_Ok.
  - lia.
  - cbn [result_bind length app Nat.add] in *. by rewrite Hd, firstn_all.
Qed.

(** ** The mapping *)

Lemma map_regions_next mem o regions file next m :
  region_table mem (DELTA_PAGE_SIZE * Z.of_nat o) = Ok regions ->
  map_regions regions file (DELTA_PAGE_SIZE * Z.of_nat o) = Ok (next, m) ->
  next = DELTA_PAGE_SIZE * Z.of_nat (o + length (flat mem)).
Proof.
  revert o regions m. induction mem as [|r mem IH]; intros o regions m Ht H.
  { cbn [region_table] in Ht. simplify_eq. cbn [map_regions] in H. unfold flat.
    cbn [map concat length]. rewrite Nat.add_0_r. by simplify_eq. }
  apply region_table_cons in Ht as (regions' & -> & Ht & _). cbn [map_regions gpa m_len file_offset] in H.
  inv_ok. match goal with x : Z * list GuestRegion |- _ => destruct x end. inv_ok.
  match goal with H : checked_add _ (DELTA_PAGE_SIZE * _) _ = Some _ |- _ => apply checked_add_Some in H as [-> _] end.
  assert (Heq : DELTA_PAGE_SIZE * Z.of_nat o + region_len r = DELTA_PAGE_SIZE * Z.of_nat (o + length (r_pages r)))
    by (unfold region_len; lia).
  rewrite Heq in *. unfold flat in *. cbn [map concat]. rewrite length_app, Nat.add_assoc. by eapply IH.
Qed.

Lemma region_len_mod r : region_len r mod DELTA_PAGE_SIZE = 0.
Proof. unfold region_len. rewrite Z.mul_comm. apply Z.mod_mul. done. Qed.

Lemma map_regions_spec lo mem o regions file :
  mem_ok lo mem -> region_table mem (DELTA_PAGE_SIZE * Z.of_nat o) = Ok regions ->
  (o + length (flat mem) <= length file)%nat ->
  exists next m, map_regions regions file (DELTA_PAGE_SIZE * Z.of_nat o) = Ok (next, m) /\
    layout m = layout mem /\ flat m = take (length (flat mem)) (drop o file) /\ regions_ordered lo m = true.
Proof.
  revert lo o regions. induction mem as [|r mem IH]; intros lo o regions Hok Ht Hlen.
  { cbn [region_table] in Ht. simplify_eq. by exists (DELTA_PAGE_SIZE * Z.of_nat o), []. }
  apply region_table_cons in Ht as (regions' & -> & Ht & Hal & Hne & Hov). destruct Hok as (H1 & H2 & Hok).
  unfold flat in *. cbn [map concat] in *. rewrite length_app in Hlen.
  set (n := length (r_pages r)) in *.
  assert (Hr : region_len r = DELTA_PAGE_SIZE * Z.of_nat n) by done.
  assert (Heq : DELTA_PAGE_SIZE * Z.of_nat o + region_len r = DELTA_PAGE_SIZE * Z.of_nat (o + n)) by lia.
  destruct (IH (start_addr r + region_len r) (o + n)%nat regions') as (next & m & Hm & Hl & Hf & Hord);
    [done|by rewrite <- Heq|lia|].
  set (data := take n (drop o file)).
  assert (Hdata : length data = n) by (unfold data; rewrite length_take, length_drop; lia).
  exists next, (mkGuestRegion (start_addr r) data :: m). split_and!.
  - cbn [map_regions gpa m_len file_offset]. rewrite Hal, region_len_mod.
    rewrite (Z.mul_comm DELTA_PAGE_SIZE (Z.of_nat o)), Z.mod_mul, (Z.mul_comm (Z.of_nat o)) by done.
    rewrite (proj2 (Z.eqb_neq (region_len r) 0)) by (unfold DELTA_PAGE_SIZE in *; lia). cbn [negb Z.eqb].
    rewrite checked_add_fits by done. cbn [ok_or result_bind].
    rewrite (proj2 (Z.ltb_ge _ _)) by (unfold DELTA_PAGE_SIZE in *; lia).
    rewrite checked_add_fits by done. cbn [ok_or result_bind].
    rewrite Z.eqb_refl, Heq, Hm. cbn [negb result_bind]. by rewrite pages_of_len, page_of_offset.
  - unfold layout in *. cbn [map start_addr r_pages]. rewrite Hdata. by f_equal.
  - cbn [map concat r_pages]. rewrite Hf. unfold data. rewrite length_app. fold n. rewrite <- drop_drop.
    by rewrite take_take_drop.
  - cbn [regions_ordered start_addr]. unfold region_len at 1. cbn [r_pages]. rewrite Hdata, <- Hr, Hord.
    rewrite (proj2 (Z.leb_le _ _)) by done. done.
Qed.

(** A private mapping of a memory file holds what reading the file gives. *)
Lemma create_private_exact mem regions file m :
  mem_ok 0 mem -> memory_region_table mem = Ok regions ->
  create_guest_memory_private file regions = Ok m <-> load_memory_file file mem regions = Ok m.
Proof.
  intros Hok Ht. pose proof (memory_region_table_Ok _ _ Ht) as Ht'.
  assert (Hne : (length regions =? 0)%nat = false).
  { unfold memory_region_table in Ht. rewrite Ht' in Ht. cbn [result_bind] in Ht. by destruct regions. }
  assert (Hmap : length file = length (flat mem) -> exists m', create_guest_memory_private file regions = Ok m' /\
                   layout m' = layout mem /\ flat m' = file).
  { intros Hlen. unfold create_guest_memory_private. rewrite Hne.
    destruct (map_regions_spec 0 mem 0 regions file Hok Ht' ltac:(lia)) as (next & m' & Hm & Hl & Hf & Hord).
    exists m'. rewrite Z.mul_0_r in Hm. rewrite Hm. cbn [result_bind]. pose proof (map_regions_next mem 0 regions file next m' Ht') as Hn.
    rewrite Z.mul_0_r in Hn. rewrite (Hn Hm), Hlen, Z.eqb_refl, Hord. cbn [negb].
    rewrite <- Hlen, drop_0, firstn_all in Hf. done. }
  split; intros H.
  - assert (Hlen : length file = length (flat mem)).
    { unfold create_guest_memory_private in H. rewrite Hne in H. apply result_bind_Ok in H as ([next m'] & Hm & H).
      inv_ok. bool_to_prop. pose proof (map_regions_next mem 0 regions file next m Ht') as Hn.
      rewrite Z.mul_0_r in Hn. specialize (Hn Hm). unfold DELTA_PAGE_SIZE in *. lia. }
    destruct (Hmap Hlen) as (m1 & H1 & Hl1 & Hf1). rewrite H in H1. injection H1 as <-.
    destruct (load_memory_file_spec mem regions file Hok Ht Hlen) as (m2 & -> & Hl2 & Hf2).
    f_equal. apply layout_flat_eq; congruence.
  - apply load_memory_file_Ok in H as (_ & Hl & Hf); [|done].
    destruct Hmap as (m1 & -> & Hl1 & Hf1); [rewrite <- Hf; by apply layout_flat_length|].
    f_equal. apply layout_flat_eq; congruence.
Qed.

Section map_chain_laws.

Context (read_snapshot : string -> result string SnapshotImage) (expected : list MemRegion).

Lemma apply_layers_app l k mem m :
  apply_layers (l ++ k) mem expected = Ok m <->
  exists m1, apply_layers l mem expected = Ok m1 /\ apply_layers k m1 expected = Ok m.
Proof.
  revert mem. induction l as [|layer l IH]; intros mem; cbn [app apply_layers].
  { split; [by eauto|by intros (? & [= ->] & ?)]. }
  destruct (delta layer); cbn [ok_or result_bind].
  - destruct (apply_delta_pages _ mem _ expected); cbn [result_bind]; [apply IH|].
    split; [done|by intros (? & ? & _)].
  - split; [done|by intros (? & ? & _)].
Qed.

(** What is left to do once the walk has reached the full layer [base]. *)
Definition rebuilds (mem : GuestMemory) (base : SnapshotImage) (layers : list SnapshotImage)
    (m : GuestMemory) : Prop :=
  same_layout (mem_regions base) expected = true /\
  exists m0, load_memory_file (memory_file base) mem expected = Ok m0 /\
    apply_layers (rev layers) m0 expected = Ok m.

Lemma load_layer_full mem fuel layer depth m :
  (depth <= MAX_DELTA_CHAIN_DEPTH)%nat -> delta layer = None ->
  load_layer read_snapshot fuel layer mem expected depth = Ok m <-> rebuilds mem layer [] m.
Proof.
  intros Hd Hnone. unfold rebuilds. cbn [rev apply_layers].
  destruct fuel; cbn [load_layer]; rewrite (proj2 (Nat.ltb_ge _ _)), Hnone by done;
    (destruct (same_layout (mem_regions layer) expected) eqn:Hs; cbn [negb]; [|by split; [|intros [? _]]]);
    apply same_layout_eq in Hs; rewrite Hs; naive_solver.
Qed.

Lemma walk_full fuel layer deltas :
  delta layer = None -> walk_chain read_snapshot fuel layer deltas expected = Ok (layer, deltas).
Proof. intros H. destruct fuel; cbn [walk_chain]; by rewrite H. Qed.

Lemma walk_prefix fuel layer deltas base ds :
  walk_chain read_snapshot fuel layer deltas expected = Ok (base, ds) -> exists layers, ds = deltas ++ layers.
Proof.
  revert layer deltas. induction fuel as [|fuel IH]; intros layer deltas H;
    (destruct (delta layer) as [d|] eqn:Hd;
      [|rewrite walk_full in H by done; simplify_eq; exists []; by rewrite app_nil_r]);
    cbn [walk_chain] in H; rewrite Hd in H; inv_ok.
  apply IH in H as [layers ->]. exists (layer :: layers). by rewrite <- app_assoc.
Qed.

(** One delta: loading the layer below it and applying it. *)
Lemma load_layer_delta mem fuel layer depth d m :
  (depth < MAX_DELTA_CHAIN_DEPTH)%nat -> delta layer = Some d ->
  load_layer read_snapshot (S fuel) layer mem expected depth = Ok m <->
  same_layout (mem_regions layer) expected = true /\
  exists base m1, base_dir_of (d_base d) = Ok (d_base d) /\ read_snapshot (d_base d) = Ok base /\
    load_layer read_snapshot fuel base mem expected (S depth) = Ok m1 /\
    apply_layers [layer] m1 expected = Ok m.
Proof.
  intros Hdepth Hd. cbn [load_layer apply_layers]. rewrite (proj2 (Nat.ltb_ge _ _)), Hd by lia.
  destruct (same_layout (mem_regions layer) expected); cbn [negb ok_or result_bind]; [|by split; [|intros [? _]]].
  unfold base_dir_of. destruct (is_safe_snapshot_name (d_base d)); cbn [negb result_bind]; [|naive_solver].
  destruct (read_snapshot (d_base d)) as [base|]; cbn [result_bind]; [|naive_solver].
  setoid_rewrite result_bind_ret. rewrite result_bind_Ok. split.
  - intros (m1 & ? & ?). split; [done|]. by exists base, m1.
  - intros (_ & ? & m1 & _ & [= <-] & ? & ?). by exists m1.
Qed.

(** Loading a layer is walking down from it, reading the full layer and applying the deltas. *)
Lemma load_layer_walk mem fuel layer deltas m :
  (length deltas <= MAX_DELTA_CHAIN_DEPTH)%nat ->
  load_layer read_snapshot fuel layer mem expected (length deltas) = Ok m <->
  exists base layers, walk_chain read_snapshot fuel layer deltas expected = Ok (base, deltas ++ layers) /\
    rebuilds mem base layers m.
Proof.
  revert layer deltas m. induction fuel as [|fuel IH]; intros layer deltas m Hd;
    (destruct (delta layer) as [d|] eqn:Hdelta;
      [|rewrite load_layer_full, walk_full by done; split;
        [intros H; exists layer, []; by rewrite app_nil_r
        |intros (base & layers & [= <- Hl] & H); rewrite <- (app_nil_r deltas) in Hl at 1;
          by apply app_inv_head in Hl as <-]]).
  { cbn [load_layer walk_chain]. rewrite Hdelta. repeat case_match; naive_solver. }
  destruct (decide (length deltas = MAX_DELTA_CHAIN_DEPTH)) as [Hmax|Hmax].
  { cbn [walk_chain]. rewrite Hdelta, (proj2 (Nat.leb_le _ _)) by lia. split; [|naive_solver].
    intros H. exfalso. cbn [load_layer] in H. rewrite Hdelta in H. inv_ok.
    match goal with H : load_layer _ _ _ _ _ _ = Ok _ |- _ => rewrite Hmax in H; by destruct fuel end. }
  rewrite (load_layer_delta mem fuel layer _ d) by (done || lia). cbn [walk_chain]. rewrite Hdelta.
  rewrite (proj2 (Nat.leb_gt _ _)) by lia. split.
  - intros (-> & below & m1 & -> & Hread & Hload & Happly). cbn [negb result_bind]. rewrite Hread. cbn [result_bind].
    replace (S (length deltas)) with (length (deltas ++ [layer])) in Hload by (rewrite length_app; cbn [length]; lia).
    apply IH in Hload as (base & layers & -> & Hs & m0 & Hm0 & Hl); [|rewrite length_app; cbn [length]; lia].
    exists base, (layer :: layers). rewrite <- app_assoc. split; [done|]. split; [done|]. exists m0.
    split; [done|]. cbn [rev]. apply apply_layers_app. by exists m1.
  - intros (base & layers & H & Hs & m0 & Hm0 & Hl). inv_ok. bool_to_prop. split; [done|].
    match goal with H : base_dir_of _ = Ok ?x |- _ => assert (x = d_base d) as ->
      by (unfold base_dir_of in H; by inv_ok) end.
    destruct (walk_prefix _ _ _ _ _ H) as [new Hnew]. rewrite <- app_assoc in Hnew. apply app_inv_head in Hnew as ->.
    cbn [app rev] in *. apply apply_layers_app in Hl as (m1 & Hl & Happly).
    do 2 eexists. split_and!; [done|done| |exact Happly].
    replace (S (length deltas)) with (length (deltas ++ [layer])) by (rewrite length_app; cbn [length]; lia).
    apply IH; [rewrite length_app; cbn [length]; lia|]. exists base, new. rewrite <- app_assoc.
    split; [done|]. split; [done|]. by exists m0.
Qed.

End map_chain_laws.

(** ** The theorems *)

(** The sparse dump of a live memory, which writes only the runs of pages that are not
    zero, and the reading of its file give the live memory back, whatever the memory it is
    read into held before. *)
Lemma full_snapshot_restores read_snapshot live regions file mem :
  mem_ok 0 live -> full_pages (flat live) ->
  dump_memory_file live = Ok (regions, file) -> layout mem = layout live ->
  load_memory_chain read_snapshot (mkImage regions None file) mem = Ok live.
Proof.
  intros Hok Hfull H Hl. assert (Ht : memory_region_table live = Ok regions).
  { unfold dump_memory_file in H. apply result_bind_Ok in H as (r & Hr & H).
    apply result_bind_Ok in H as ([logical f] & _ & H). by simplify_eq. }
  rewrite (dump_memory_file_flat live regions Hok Ht Hfull) in H. simplify_eq.
  assert (Htm : memory_region_table mem = Ok regions) by (by rewrite (memory_region_table_layout live)).
  unfold load_memory_chain. cbn [mem_regions]. rewrite (proj2 (ensure_layout_Ok _ _) Htm). cbn [result_bind].
  apply load_layer_full; [lia|done|]. split; [apply same_layout_refl|].
  destruct (load_memory_file_spec mem regions (flat live)) as (m & Hm & Hlm & Hfm);
    [by apply (mem_ok_layout _ live)|done|by rewrite (layout_flat_length _ _ Hl)|].
  exists m. split; [done|]. cbn [rev apply_layers]. f_equal. apply layout_flat_eq; [congruence|done].
Qed.

(** Mapping a chain privately, which walks down to the full layer and applies the deltas
    upwards over a mapping of its file, succeeds with exactly the memory that the recursive
    load of the chain rebuilds, and fails when that fails. *)
Lemma mapped_chain_agrees read_snapshot dir image mem m :
  mem_ok 0 mem -> memory_region_table mem = Ok (mem_regions image) -> read_snapshot dir = Ok image ->
  map_memory_chain_private read_snapshot dir image = Ok m <->
  load_memory_chain read_snapshot image mem = Ok m.
Proof.
  intros Hok Ht Hread. unfold load_memory_chain. rewrite (proj2 (ensure_layout_Ok _ _) Ht). cbn [result_bind].
  rewrite (load_layer_walk read_snapshot (mem_regions image) mem chain_fuel image [] m) by (cbn [length]; lia).
  unfold map_memory_chain_private. rewrite Hread. cbn [result_bind]. split.
  - intros H. apply result_bind_Ok in H as ([base layers] & Hw & H).
    destruct (same_layout (mem_regions base) (mem_regions image)) eqn:Hs; cbn [negb] in H; [|done].
    apply result_bind_Ok in H as (m0 & Hm0 & H). exists base, layers. split; [done|]. split; [done|].
    exists m0. split; [by apply create_private_exact|done].
  - intros (base & layers & -> & Hs & m0 & Hm0 & H). cbn [result_bind app]. rewrite Hs. cbn [negb].
    by rewrite (proj2 (create_private_exact mem _ _ m0 Hok Ht) Hm0).
Qed.

(** *** Witnesses *)

Definition page_of (b : Z) : page := replicate (Z.to_nat DELTA_PAGE_SIZE) b.

Definition sparse_live : GuestMemory :=
  [mkGuestRegion 0 [zero_page; page_of 1; page_of 2; zero_page]; mkGuestRegion (2 ^ 32) [page_of 3; zero_page]].

Definition no_store (name : string) : result string SnapshotImage := Err "no such snapshot".

Definition delta1 : SnapshotImage := mkImage table0 (Some (mkDelta "base" 4096 [18])) [[9]; [7]].

Definition store1 (name : string) : result string SnapshotImage :=
  if String.eqb name "one" then Ok delta1 else store0 name.
