(* ===== verification/SnapshotPublish.v ===== *)
(** Writing and publishing a snapshot generation ([vmm/src/snapshot/mod.rs]): the files of
    a snapshot directory, the manifest that selects a generation, and [write_snapshot]
    with its temporary files, renames and clean-up.

    A directory maps file names to bytes.  Every file operation may succeed, fail, or be
    the one at which the process dies; a sequence of such events drives a run.  A write
    that fails or is cut off leaves a prefix of its data.  Operations take effect in
    order, so this is the death of the process, not of the machine.  The encoding of the
    envelope is [postcard]'s. *)

From S2P Require Import Prelude SnapshotDelta SnapshotFull SnapshotValidate Decimal.

Definition MAX_MANIFEST_BYTES : Z := 32.

Abbreviation bytes := (list Z) (only parsing).

(** ** Names *)

(** [vmstate.<gen>.bin], [memory.<gen>.bin], both with [.tmp], [current-generation] and
    [current-generation.tmp]. *)
Inductive FileName : Type :=
  | StateFile (generation : Z)
  | MemoryFile (generation : Z)
  | StateTmp (generation : Z)
  | MemoryTmp (generation : Z)
  | Manifest
  | ManifestTmp.

#[global] Instance FileName_eq_dec : EqDecision FileName.
Proof. solve_decision. Defined.

#[global] Instance FileName_countable : Countable FileName.
Proof.
  refine (inj_countable'
    (fun n => match n with
     | StateFile g => (0, g) | MemoryFile g => (1, g) | StateTmp g => (2, g) | MemoryTmp g => (3, g)
     | Manifest => (4, 0) | ManifestTmp => (5, 0) end)
    (fun '(k, g) => if k =? 0 then StateFile g else if k =? 1 then MemoryFile g else if k =? 2 then StateTmp g
                    else if k =? 3 then MemoryTmp g else if k =? 4 then Manifest else ManifestTmp) _).
  by intros [].
Defined.

Abbreviation Dir := (gmap FileName bytes).

(** ** Numbers in the manifest *)

Definition parse_generation (contents : bytes) : result string Z :=
  let generation := trim contents in
  if (length generation =? 0)%nat || negb (forallb is_ascii_digit generation)
  then Err "invalid current-generation contents"
  else
    generation <-? parse_u64 generation 0 ;
    if generation =? 0 then Err "current-generation must be nonzero" else Ok generation.

Definition current_generation (dir : Dir) : result string (option Z) :=
  match dir !! Manifest with
  | None => Ok None
  | Some contents =>
      if MAX_MANIFEST_BYTES <? Z.of_nat (length contents) then Err "current-generation is too long"
      else result_map Some (parse_generation contents)
  end.

Definition next_generation (dir : Dir) : result string Z :=
  current <-? current_generation dir ;
  match current with
  | Some generation => ok_or (checked_add 64 generation 1) "snapshot generation overflow"
  | None => Ok 1
  end.

(** ** Runs *)

(** How the next file operation goes; a write gets [written] elements down before it stops. *)
Inductive Event : Type := Works | Fails (written : nat) | Dies (written : nat).

Inductive Outcome (A : Type) : Type := Returned (r : result string A) | Died.
Arguments Returned {A} r.
Arguments Died {A}.

Definition IO (A : Type) : Type := Dir * list Event -> Dir * list Event * Outcome A.

Definition ret {A} (r : result string A) : IO A := fun s => (s, Returned r).

Definition bind {A B} (m : IO A) (f : A -> IO B) : IO B := fun s =>
  match m s with
  | (s, Returned (Ok a)) => f a s
  | (s, Returned (Err e)) => (s, Returned (Err e))
  | (s, Died) => (s, Died)
  end.

(** The result of [m] inspected, error or not. *)
Definition inspect {A B} (m : IO A) (f : result string A -> IO B) : IO B := fun s =>
  match m s with
  | (s, Returned r) => f r s
  | (s, Died) => (s, Died)
  end.

Notation "x <-! m ; k" := (bind m (fun x => k))
  (at level 20, m at level 100, k at level 200, right associativity) : vm_scope.
Notation "'do!' m ; k" := (bind m (fun _ => k))
  (at level 20, m at level 100, k at level 200, right associativity) : vm_scope.

(** One operation: what it does when it works, and what is left when it does not. *)
Definition operation {A} (effect : Dir -> Dir * result string A) (partial : nat -> Dir -> Dir) : IO A :=
  fun '(dir, events) =>
    match events with
    | Fails n :: events => (partial n dir, events, Returned (Err "I/O error"))
    | Dies n :: _ => (partial n dir, [], Died)
    | Works :: events => let '(dir, r) := effect dir in (dir, events, Returned r)
    | [] => let '(dir, r) := effect dir in (dir, [], Returned r)
    end.

Definition unchanged (n : nat) (dir : Dir) : Dir := dir.

(** [create_new]: the file must not exist. *)
Definition create_snapshot_file (name : FileName) : IO unit :=
  operation (fun dir => match dir !! name with
                        | Some _ => (dir, Err "creating")
                        | None => (<[name := []]> dir, Ok tt)
                        end) unchanged.

Definition write_all (name : FileName) (data : bytes) : IO unit :=
  operation (fun dir => (<[name := default [] (dir !! name) ++ data]> dir, Ok tt))
    (fun n dir => <[name := default [] (dir !! name) ++ take n data]> dir).

Definition sync_all : IO unit := operation (fun dir => (dir, Ok tt)) unchanged.
Definition sync_dir : IO unit := operation (fun dir => (dir, Ok tt)) unchanged.

Definition rename (old new : FileName) : IO unit :=
  operation (fun dir => match dir !! old with
                        | Some data => (<[new := data]> (delete old dir), Ok tt)
                        | None => (dir, Err "publishing")
                        end) unchanged.

Definition remove_file (name : FileName) : IO unit :=
  operation (fun dir => match dir !! name with
                        | Some _ => (delete name dir, Ok tt)
                        | None => (dir, Err "removing")
                        end) unchanged.

(** [let _ = ...]. *)
Definition ignore {A} (m : IO A) : IO unit := inspect m (fun _ => ret (Ok tt)).

Definition io_dir {A} (f : Dir -> result string A) : IO A := fun s => (s, Returned (f (fst s))).

(** ** Encoding *)

(** [postcard]: the encoding of an envelope, the version that is its first field, and the
    decoding of one from the front of a byte string. *)
Class Postcard (S : Type) : Type := {
  to_allocvec : S -> result string bytes;
  take_version : bytes -> result string Z;
  take_snapshot : bytes -> result string (S * bytes) }.

(** What was encoded is decoded again, with nothing left. *)
Class PostcardLaws {V M} `{Postcard (Snapshot V M)} : Prop := {
  version_encoded (snap : Snapshot V M) b : to_allocvec snap = Ok b -> take_version b = Ok (sn_version snap);
  snapshot_encoded (snap : Snapshot V M) b : to_allocvec snap = Ok b -> take_snapshot b = Ok (snap, []) }.

Section publish.
Context {V M : Type} `{Postcard (Snapshot V M)}.
Variable current_backend : Backend.

Definition read_state_file (data : bytes) : result string (Snapshot V M) :=
  if MAX_STATE_BYTES <? Z.of_nat (length data) then Err "snapshot state is over the limit"
  else
    version <-? take_version data ;
    if SNAPSHOT_VERSION <? version then Err "snapshot version is newer than supported"
    else if version <? SNAPSHOT_VERSION then Err "snapshot version is older than supported"
    else
      '(snap, rest) <-? take_snapshot data ;
      match rest with
      | _ :: _ => Err "snapshot state has trailing bytes"
      | [] => _ <-? validate_snapshot_header current_backend snap ; Ok snap
      end.

(** The envelope and the bytes of the memory file. *)
Definition read_snapshot (dir : Dir) : result string (Snapshot V M * bytes) :=
  current <-? current_generation dir ;
  generation <-? ok_or current "no current-generation manifest" ;
  data <-? ok_or (dir !! StateFile generation) "opening state" ;
  snap <-? read_state_file data ;
  memory <-? ok_or (dir !! MemoryFile generation) "opening memory" ;
  _ <-? validate_snapshot_metadata current_backend snap (Z.of_nat (length memory)) ;
  Ok (snap, memory).

(** ** Writing *)

Definition write_state_file (name : FileName) (snap : Snapshot V M) : IO unit :=
  data <-! ret (to_allocvec snap) ;
  if MAX_STATE_BYTES <? Z.of_nat (length data) then ret (Err "encoded snapshot state is over the limit")
  else do! create_snapshot_file name ; do! write_all name data ; sync_all.

Definition cleanup_unpublished_generation (generation : Z) : IO unit :=
  do! ignore (remove_file (MemoryTmp generation)) ;
  do! ignore (remove_file (StateTmp generation)) ;
  do! ignore (remove_file (MemoryFile generation)) ;
  ignore (remove_file (StateFile generation)).

Definition publish_generation (generation : Z) : IO unit :=
  inspect
    (do! create_snapshot_file ManifestTmp ;
     do! write_all ManifestTmp (decimal generation ++ [10]) ;
     do! sync_all ;
     rename ManifestTmp Manifest)
    (fun publish =>
       match publish with
       | Err e => do! ignore (remove_file ManifestTmp) ; ret (Err e)
       | Ok _ => sync_dir
       end).

(** What a snapshot is taken of: the memory, and for a delta its base, the dirty log and the
    host's page size and bitmaps. *)
Record Source : Type := mkSource {
  s_mem : GuestMemory;
  s_base : option (string * (string -> result string SnapshotImage));
  s_dirty : option (list (list Z)); s_host_page : Z; s_hosts : list (Z -> bool) }.

Definition dump_memory (src : Source) (name : FileName) : IO (list MemRegion * option DeltaMemory) :=
  match s_base src with
  | None =>
      do! create_snapshot_file name ;
      dump <-! ret (dump_memory_file (s_mem src)) ;
      do! write_all name (concat (snd dump)) ; do! sync_all ; ret (Ok (fst dump, None))
  | Some (base, siblings) =>
      specs <-! ret (delta_specs siblings base (s_mem src)) ;
      do! create_snapshot_file name ;
      pages <-! ret (delta_pages (snd specs) (s_dirty src) (s_host_page src) (s_hosts src)) ;
      do! write_all name (concat (snd pages)) ; do! sync_all ;
      ret (Ok (fst specs, Some (mkDelta base DELTA_PAGE_SIZE (fst pages))))
  end.

(** The length of the file just written, for its validation. *)
Definition file_len (name : FileName) : IO Z :=
  operation (fun dir => (dir, result_map (fun data => Z.of_nat (length data)) (ok_or (dir !! name) "stat")))
    unchanged.

Definition prepare (src : Source) (build_snapshot : list MemRegion -> option DeltaMemory -> Snapshot V M)
    (generation : Z) : IO unit :=
  dump <-! dump_memory src (MemoryTmp generation) ;
  let snap := build_snapshot (fst dump) (snd dump) in
  memory_len <-! file_len (MemoryTmp generation) ;
  do! ret (validate_snapshot_metadata current_backend snap memory_len) ;
  do! write_state_file (StateTmp generation) snap ;
  do! rename (MemoryTmp generation) (MemoryFile generation) ;
  do! rename (StateTmp generation) (StateFile generation) ;
  sync_dir.

Definition write_snapshot (src : Source)
    (build_snapshot : list MemRegion -> option DeltaMemory -> Snapshot V M) : IO unit :=
  generation <-! io_dir next_generation ;
  inspect (prepare src build_snapshot generation)
    (fun prepared =>
       match prepared with
       | Err e => do! cleanup_unpublished_generation generation ; ret (Err e)
       | Ok _ => publish_generation generation
       end).

End publish.

(** ** The manifest is read back *)

Lemma manifest_round_trip generation :
  0 < generation -> in_width 64 generation -> parse_generation (decimal generation ++ [10]) = Ok generation.
Proof.
  intros Hpos Hw. unfold parse_generation, decimal.
  assert (Hd : Forall (fun b => is_ascii_digit b = true) (digits 20 generation [])) by (apply digits_forall; [lia|done]).
  destruct (length_digits 20 generation []) as [_ Hne]. rewrite trim_line by (done || apply Hne; lia).
  assert ((length (digits 20 generation []) =? 0)%nat = false) as ->.
  { apply Nat.eqb_neq. intros ?%nil_length_inv. apply Hne; [lia|done]. }
  assert (forallb is_ascii_digit (digits 20 generation []) = true) as ->.
  { apply forallb_forall. intros b Hb. rewrite Forall_forall in Hd. by apply Hd, list_elem_of_In. }
  cbn [orb negb]. rewrite parse_u64_digits; [cbn [parse_u64 result_bind]|unfold in_width in Hw; lia|done|lia].
  by rewrite (proj2 (Z.eqb_neq _ _)) by lia.
Qed.

(** ** Triples with a crash condition *)

(** From a directory in [P], [m] returns in [Q] or dies in [C], whatever the events. *)
Definition triple {A} (P : Dir -> Prop) (m : IO A) (Q : result string A -> Dir -> Prop) (C : Dir -> Prop) : Prop :=
  forall dir events, P dir ->
    match m (dir, events) with
    | (dir', _, Returned r) => Q r dir'
    | (dir', _, Died) => C dir'
    end.

Lemma triple_ret {A} (r : result string A) (P C : Dir -> Prop) (Q : result string A -> Dir -> Prop) :
  (forall d, P d -> Q r d) -> triple P (ret r) Q C.
Proof. intros H d ev Hd. by apply H. Qed.

Lemma triple_bind {A B} (m : IO A) (f : A -> IO B) P R Q C :
  triple P m R C -> (forall a, triple (R (Ok a)) (f a) Q C) -> (forall e d, R (Err e) d -> Q (Err e) d) ->
  triple P (bind m f) Q C.
Proof.
  intros Hm Hf He d ev Hd. unfold bind. specialize (Hm d ev Hd).
  destruct (m (d, ev)) as [[d' ev'] [[a|e]|]]; [by apply Hf|by apply He|done].
Qed.

Lemma triple_inspect {A B} (m : IO A) (f : result string A -> IO B) P R Q C :
  triple P m R C -> (forall r, triple (R r) (f r) Q C) -> triple P (inspect m f) Q C.
Proof.
  intros Hm Hf d ev Hd. unfold inspect. specialize (Hm d ev Hd).
  destruct (m (d, ev)) as [[d' ev'] [r|]]; [by apply Hf|done].
Qed.

Lemma triple_operation {A} (effect : Dir -> Dir * result string A) partial P Q C :
  (forall d, P d -> Q (snd (effect d)) (fst (effect d))) ->
  (forall n d, P d -> Q (Err "I/O error") (partial n d) /\ C (partial n d)) ->
  triple P (operation effect partial) Q C.
Proof.
  intros He Hp d ev Hd. unfold operation. specialize (He d Hd).
  destruct ev as [|[|n|n] ev]; try (by destruct (effect d)); by apply Hp.
Qed.

Lemma triple_weaken {A} (m : IO A) (P P' C C' : Dir -> Prop) (Q Q' : result string A -> Dir -> Prop) :
  triple P m Q C -> (forall d, P' d -> P d) -> (forall r d, Q r d -> Q' r d) -> (forall d, C d -> C' d) ->
  triple P' m Q' C'.
Proof.
  intros Hm HP HQ HC d ev Hd. specialize (Hm d ev (HP d Hd)).
  destruct (m (d, ev)) as [[d' ev'] [r|]]; auto.
Qed.

Lemma triple_pre {A} (m : IO A) (P P' C : Dir -> Prop) (Q : result string A -> Dir -> Prop) :
  triple P m Q C -> (forall d, P' d -> P d) -> triple P' m Q C.
Proof. intros Hm HP. by eapply triple_weaken. Qed.

Lemma triple_crash {A} (m : IO A) (P C C' : Dir -> Prop) (Q : result string A -> Dir -> Prop) :
  triple P m Q C -> (forall d, C d -> C' d) -> triple P m Q C'.
Proof. intros Hm HC. by eapply triple_weaken. Qed.

Section crash.

(** The directory before, and the generation being written. *)
Context (dir0 : Dir) (generation : Z).

(** The files [write_snapshot] works on before the manifest is replaced. *)
Definition own (name : FileName) : Prop :=
  name = MemoryTmp generation \/ name = StateTmp generation \/ name = MemoryFile generation \/
  name = StateFile generation \/ name = ManifestTmp.

(** Everything else is as it was. *)
Definition kept (d : Dir) : Prop := forall name, ~ own name -> d !! name = dir0 !! name.

(** ... and these files hold these bytes. *)
Definition holding (files : list (FileName * list Z)) (d : Dir) : Prop :=
  kept d /\ Forall (fun '(name, data) => d !! name = Some data) files.

(** What an operation leaves: its result, or only that nothing else changed. *)
Definition holding_or_kept {A} (files : list (FileName * list Z)) (r : result string A) (d : Dir) : Prop :=
  match r with Ok _ => holding files d | Err _ => kept d end.

Lemma kept_insert d name data : own name -> kept d -> kept (<[name := data]> d).
Proof. intros Ho Hk n Hn. rewrite lookup_insert_ne by (intros <-; done). by apply Hk. Qed.

Lemma kept_delete d name : own name -> kept d -> kept (delete name d).
Proof. intros Ho Hk n Hn. rewrite lookup_delete_ne by (intros <-; done). by apply Hk. Qed.

Lemma holding_insert d name data files :
  own name -> ~ name ∈ map fst files -> holding files d -> holding ((name, data) :: files) (<[name := data]> d).
Proof.
  intros Ho Hn [Hk Hf]. split; [by apply kept_insert|]. constructor; [apply lookup_insert_eq|].
  rewrite Forall_forall in *. intros [n b] Hin. rewrite lookup_insert_ne; [by apply (Hf (n, b))|].
  intros <-. apply Hn. apply list_elem_of_fmap. by exists (name, b).
Qed.

Lemma holding_delete d name files :
  own name -> ~ name ∈ map fst files -> holding files d -> holding files (delete name d).
Proof.
  intros Ho Hn [Hk Hf]. split; [by apply kept_delete|].
  rewrite Forall_forall in *. intros [n b] Hin. rewrite lookup_delete_ne; [by apply (Hf (n, b))|].
  intros <-. apply Hn. apply list_elem_of_fmap. by exists (name, b).
Qed.

Lemma holding_cons name data files d :
  holding ((name, data) :: files) d <-> d !! name = Some data /\ holding files d.
Proof. unfold holding. rewrite Forall_cons. naive_solver. Qed.

Lemma create_spec name files :
  own name -> ~ name ∈ map fst files ->
  triple (holding files) (create_snapshot_file name) (holding_or_kept ((name, []) :: files)) kept.
Proof.
  intros Ho Hn. apply triple_operation.
  - intros d Hd. destruct (d !! name); cbn [fst snd holding_or_kept]; [apply Hd|by apply holding_insert].
  - intros n d [Hk _]. done.
Qed.

Lemma write_all_spec name data files :
  own name -> ~ name ∈ map fst files ->
  triple (holding ((name, []) :: files)) (write_all name data) (holding_or_kept ((name, data) :: files)) kept.
Proof.
  intros Ho Hn. apply triple_operation.
  - intros d Hd. apply holding_cons in Hd as [Hl Hd]. rewrite Hl. cbn [fst snd default app holding_or_kept].
    by apply holding_insert.
  - intros n d [Hk _]. split; by apply kept_insert.
Qed.

Lemma sync_spec files : triple (holding files) sync_all (holding_or_kept files) kept.
Proof. apply triple_operation; [done|]. by intros n d [Hk _]. Qed.

Lemma rename_spec old new data files :
  own old -> own new -> ~ old ∈ map fst files -> ~ new ∈ map fst files ->
  triple (holding ((old, data) :: files)) (rename old new) (holding_or_kept ((new, data) :: files)) kept.
Proof.
  intros Ho Hn Hold Hnew. apply triple_operation.
  - intros d Hd. apply holding_cons in Hd as [Hl Hd]. rewrite Hl. cbn [fst snd holding_or_kept].
    apply holding_insert; [done..|]. by apply holding_delete.
  - by intros n d [Hk _].
Qed.

Lemma remove_spec name : own name -> triple kept (ignore (remove_file name)) (fun _ => kept) kept.
Proof.
  intros Ho. apply (triple_inspect _ _ _ (fun _ => kept)); [|intros r; by apply triple_ret].
  apply triple_operation; [|done].
  intros d Hd. destruct (d !! name); cbn [fst snd]; [by apply kept_delete|done].
Qed.

End crash.

Lemma triple_exists {A B} (m : IO A) (P : B -> Dir -> Prop) Q C :
  (forall x, triple (P x) m Q C) -> triple (fun d => exists x, P x d) m Q C.
Proof. intros H d ev [x Hx]. by apply (H x). Qed.

Lemma triple_pure {A} (m : IO A) (phi : Prop) P Q C :
  (phi -> triple P m Q C) -> triple (fun d => phi /\ P d) m Q C.
Proof. intros H d ev [Hphi Hd]. by apply (H Hphi). Qed.

Section atomic.
Context {V M : Type} `{Postcard (Snapshot V M)} (current : Backend).
Context (src : Source) (build : list MemRegion -> option DeltaMemory -> Snapshot V M).

(** What is to be written, computed from the source alone. *)
Definition dump_of : result string (list MemRegion * option DeltaMemory * list Z) :=
  match s_base src with
  | None =>
      '(regions, file) <-? dump_memory_file (s_mem src) ;
      Ok (regions, None, concat file)
  | Some (base, siblings) =>
      '(regions, d, file) <-? dump_delta_memory_file siblings base (s_mem src) (s_dirty src)
                                (s_host_page src) (s_hosts src) ;
      Ok (regions, Some d, concat file)
  end.

Definition captured : result string (Snapshot V M * list Z) :=
  '(regions, d, memory) <-? dump_of ;
  Ok (build regions d, memory).

(** A capture that passes validation and has an encoding. *)
Definition writable (snap : Snapshot V M) (memory data : list Z) : Prop :=
  captured = Ok (snap, memory) /\
  validate_snapshot_metadata current snap (Z.of_nat (length memory)) = Ok tt /\
  to_allocvec snap = Ok data /\ Z.of_nat (length data) <= MAX_STATE_BYTES.

Context (dir0 : Dir) (g : Z).

Local Abbreviation kept := (kept dir0 g).
Local Abbreviation holding := (holding dir0 g).
Local Abbreviation holding_or_kept := (holding_or_kept dir0 g).

Lemma own_memory_tmp : own g (MemoryTmp g). Proof. by left. Qed.
Lemma own_state_tmp : own g (StateTmp g). Proof. right; by left. Qed.
Lemma own_memory : own g (MemoryFile g). Proof. do 2 right; by left. Qed.
Lemma own_state : own g (StateFile g). Proof. do 3 right; by left. Qed.
Lemma own_manifest_tmp : own g ManifestTmp. Proof. by do 4 right. Qed.
#[local] Hint Resolve own_memory_tmp own_state_tmp own_memory own_state own_manifest_tmp : core.

Lemma not_in_names (n : FileName) (l : list FileName) : existsb (fun m => bool_decide (n = m)) l = false -> ~ n ∈ l.
Proof.
  intros He Hin. apply not_true_iff_false in He. apply He. apply existsb_exists. exists n.
  split; [by apply list_elem_of_In|]. by apply bool_decide_eq_true.
Qed.

Ltac names := first [done | by apply not_in_names; cbn; rewrite ?bool_decide_eq_false_2 by congruence].

(** Creating a file, writing it and syncing it. *)
Lemma write_file_spec name data files :
  own g name -> ~ name ∈ map fst files ->
  triple (holding files) (do! create_snapshot_file name ; do! write_all name data ; sync_all)
    (holding_or_kept ((name, data) :: files)) kept.
Proof.
  intros Ho Hn. eapply triple_bind; [by apply create_spec| |done]. intros [].
  eapply triple_bind; [by apply write_all_spec| |done]. intros []. apply sync_spec.
Qed.

Lemma dump_memory_spec :
  triple kept (dump_memory src (MemoryTmp g))
    (fun r d => match r with
                | Ok p => exists memory, dump_of = Ok (fst p, snd p, memory) /\ holding [(MemoryTmp g, memory)] d
                | Err _ => kept d
                end) kept.
Proof.
  unfold dump_memory, dump_of. apply (triple_pre _ (holding [])); [|by split].
  destruct (s_base src) as [[base siblings]|].
  - eapply (triple_bind _ _ _ (fun r d => delta_specs siblings base (s_mem src) = r /\ holding [] d)).
    { by apply triple_ret. } 2: { by intros e d [_ [Hk _]]. }
    intros [regions specs]. apply triple_pure. intros Hs. cbn [fst snd].
    eapply triple_bind; [apply create_spec; [done|names]| |done]. intros []. cbn [holding_or_kept].
    eapply (triple_bind _ _ _ (fun r d => delta_pages specs (s_dirty src) (s_host_page src) (s_hosts src) = r /\
                                 holding [(MemoryTmp g, [])] d)).
    { by apply triple_ret. } 2: { by intros e d [_ [Hk _]]. }
    intros [changed file]. apply triple_pure. intros Hp. cbn [fst snd].
    eapply triple_bind; [apply write_all_spec; [done|names]| |done]. intros [].
    eapply triple_bind; [apply sync_spec| |done]. intros []. apply triple_ret. intros d Hd.
    exists (concat file). split; [|done]. unfold dump_delta_memory_file. rewrite Hs. cbn [result_bind fst snd].
    by rewrite Hp.
  - eapply triple_bind; [apply create_spec; [done|names]| |done]. intros []. cbn [holding_or_kept].
    eapply (triple_bind _ _ _ (fun r d => dump_memory_file (s_mem src) = r /\ holding [(MemoryTmp g, [])] d)).
    { by apply triple_ret. } 2: { by intros e d [_ [Hk _]]. }
    intros [regions file]. apply triple_pure. intros Hp. cbn [fst snd].
    eapply triple_bind; [apply write_all_spec; [done|names]| |done]. intros [].
    eapply triple_bind; [apply sync_spec| |done]. intros []. apply triple_ret. intros d Hd.
    exists (concat file). by rewrite Hp.
Qed.

Lemma file_len_spec name data :
  triple (holding [(name, data)]) (file_len name)
    (fun r d => match r with Ok n => n = Z.of_nat (length data) /\ holding [(name, data)] d | Err _ => kept d end) kept.
Proof.
  apply triple_operation.
  - intros d Hd. pose proof Hd as Hd'. apply holding_cons in Hd' as [Hl _]. rewrite Hl. by cbn.
  - by intros n d [Hk _].
Qed.

Lemma write_state_file_spec snap memory :
  triple (holding [(MemoryTmp g, memory)]) (write_state_file (StateTmp g) snap)
    (fun r d => match r with
                | Ok _ => exists data, (to_allocvec snap = Ok data /\ Z.of_nat (length data) <= MAX_STATE_BYTES) /\
                            holding [(StateTmp g, data); (MemoryTmp g, memory)] d
                | Err _ => kept d
                end) kept.
Proof.
  eapply (triple_bind _ _ _ (fun r d => to_allocvec snap = r /\ holding [(MemoryTmp g, memory)] d)).
  { by apply triple_ret. } 2: { by intros e d [_ [Hk _]]. }
  intros data. apply triple_pure. intros Hd. destruct (MAX_STATE_BYTES <? Z.of_nat (length data)) eqn:Hlen.
  { apply triple_ret. by intros d [Hk _]. }
  bool_to_prop. eapply triple_weaken; [apply (write_file_spec (StateTmp g) data [(MemoryTmp g, memory)]); [done|names]
    |done| |done].
  intros [|] d Hh; [|done]. by exists data.
Qed.

Lemma prepare_spec :
  triple kept (prepare current src build g)
    (fun r d => match r with
                | Ok _ => exists x, writable (x.1.1) (x.1.2) (x.2) /\
                            holding [(StateFile g, x.2); (MemoryFile g, x.1.2)] d
                | Err _ => kept d
                end) kept.
Proof.
  unfold prepare. eapply triple_bind; [apply dump_memory_spec| |done].
  intros [regions d]. cbn [fst snd]. apply triple_exists. intros memory. apply triple_pure. intros Hdump.
  eapply triple_bind; [apply file_len_spec| |done]. intros n. apply triple_pure. intros ->.
  eapply (triple_bind _ _ _ (fun r d' => validate_snapshot_metadata current (build regions d)
            (Z.of_nat (length memory)) = r /\ holding [(MemoryTmp g, memory)] d')).
  { by apply triple_ret. } 2: { by intros e d' [_ [Hk _]]. }
  intros []. apply triple_pure. intros Hvalid.
  eapply triple_bind; [apply (write_state_file_spec _ memory)| |done].
  intros []. apply triple_exists. intros data. apply triple_pure. intros [Henc Hsize].
  eapply (triple_bind _ _ _ (holding_or_kept [(MemoryFile g, memory); (StateTmp g, data)])).
  { eapply triple_pre; [apply rename_spec; [done|done|names|names]|].
    intros d' Hd. rewrite !holding_cons in *. naive_solver. } 2: done.
  intros []. eapply (triple_bind _ _ _ (holding_or_kept [(StateFile g, data); (MemoryFile g, memory)])).
  { eapply triple_pre; [apply rename_spec; [done|done|names|names]|].
    intros d' [Hk Hf]. split; [done|]. rewrite !Forall_cons in *. naive_solver. } 2: done.
  intros []. eapply triple_weaken; [apply (sync_spec dir0 g)|done| |done].
  intros [|] d' Hd; [|done]. exists (build regions d, memory, data). split; [|done].
  unfold writable, captured. rewrite Hdump. done.
Qed.

Lemma cleanup_spec : triple kept (cleanup_unpublished_generation g) (fun _ => kept) kept.
Proof.
  unfold cleanup_unpublished_generation.
  do 3 (eapply triple_bind; [by apply remove_spec| |done]; intros []). by apply remove_spec.
Qed.

(** The manifest names the new generation, whose files are there. *)
Definition published (memory data : list Z) (d : Dir) : Prop :=
  d !! Manifest = Some (decimal g ++ [10]) /\ d !! StateFile g = Some data /\ d !! MemoryFile g = Some memory.

Lemma publish_rename_spec memory data :
  triple (holding [(ManifestTmp, decimal g ++ [10]); (StateFile g, data); (MemoryFile g, memory)])
    (rename ManifestTmp Manifest)
    (fun r d => match r with Ok _ => published memory data d | Err _ => kept d end) kept.
Proof.
  apply triple_operation.
  - intros d Hd. rewrite !holding_cons in Hd. destruct Hd as (Ht & Hs & Hm & _). rewrite Ht. cbn [fst snd].
    split_and!; [apply lookup_insert_eq|..]; by rewrite lookup_insert_ne, lookup_delete_ne.
  - by intros n d [Hk _].
Qed.

Lemma publish_spec memory data :
  triple (holding [(StateFile g, data); (MemoryFile g, memory)]) (publish_generation g)
    (fun r d => match r with Ok _ => published memory data d | Err _ => kept d \/ published memory data d end)
    (fun d => kept d \/ published memory data d).
Proof.
  unfold publish_generation. eapply (triple_inspect _ _ _
    (fun r d => match r with Ok _ => published memory data d | Err _ => kept d end)).
  - apply (triple_crash _ _ kept); [|by left].
    eapply triple_bind; [apply create_spec; [done|names]| |done]. intros [].
    eapply triple_bind; [apply write_all_spec; [done|names]| |done]. intros [].
    eapply triple_bind; [apply sync_spec| |done]. intros []. apply publish_rename_spec.
  - intros [[]|e].
    + apply triple_operation; [done|]. intros n d Hd. split; by right.
    + apply (triple_crash _ _ kept); [|by left].
      eapply triple_bind; [by apply remove_spec|intros []; apply triple_ret; by left|by left].
Qed.

End atomic.

Section reading.
Context {V M : Type} `{PostcardLaws V M} (current : Backend).

(** A directory that agrees on all but the new generation's files reads the same. *)
Lemma read_kept dir0 g d :
  next_generation dir0 = Ok g -> kept dir0 g d -> read_snapshot current d = read_snapshot (V:=V) (M:=M) current dir0.
Proof.
  intros Hg Hk. unfold next_generation in Hg.
  assert (Hm : current_generation d = current_generation dir0).
  { unfold current_generation. rewrite (Hk Manifest); [done|]. unfold own. naive_solver. }
  unfold read_snapshot. rewrite Hm. destruct (current_generation dir0) as [[g0|]|]; cbn [result_bind ok_or] in *;
    [|done|done].
  destruct (checked_add 64 g0 1) eqn:Hadd; cbn [ok_or] in Hg; [|done]. injection Hg as ->.
  apply checked_add_Some in Hadd as [-> _].
  rewrite (Hk (StateFile g0)), (Hk (MemoryFile g0)) by (unfold own; intros Ho; destruct_or! Ho; simplify_eq; lia).
  done.
Qed.

Lemma parse_u64_nonneg s acc v :
  forallb is_ascii_digit s = true -> 0 <= acc -> parse_u64 s acc = Ok v -> 0 <= v.
Proof.
  revert acc. induction s as [|b s IH]; intros acc Hs Ha Hp; cbn [parse_u64 forallb] in *; [by simplify_eq|].
  apply andb_true_iff in Hs as [Hb Hs]. unfold is_ascii_digit in Hb. inv_ok. bool_to_prop.
  match goal with H : checked_mul _ _ _ = Some _ |- _ => apply checked_mul_Some in H as [-> _] end.
  match goal with H : checked_add _ _ _ = Some _ |- _ => apply checked_add_Some in H as [-> _] end.
  eapply IH; [done| |done]. lia.
Qed.

Lemma next_generation_width dir g : next_generation dir = Ok g -> 0 < g /\ in_width 64 g.
Proof.
  unfold next_generation, current_generation. intros Hg. destruct (dir !! Manifest) as [text|].
  2: { injection Hg as <-. by vm_compute. }
  destruct (MAX_MANIFEST_BYTES <? _); cbn [result_bind] in Hg; [done|].
  destruct (parse_generation text) as [g0|] eqn:Hp; cbn [result_map result_bind] in Hg; [|done].
  destruct (checked_add 64 g0 1) eqn:Hadd; cbn [ok_or] in Hg; [|done]. injection Hg as ->.
  apply checked_add_Some in Hadd as [-> Hlt].
  enough (0 <= g0) by (unfold in_width; lia). clear Hlt. unfold parse_generation in Hp. inv_ok. bool_to_prop.
  by eapply parse_u64_nonneg.
Qed.

Lemma read_published dir0 g src build snap memory data d :
  next_generation dir0 = Ok g -> writable current src build snap memory data -> published g memory data d ->
  read_snapshot current d = Ok (snap, memory).
Proof.
  intros Hg (_ & Hvalid & Henc & Hsize) (Hm & Hs & Hmem). apply next_generation_width in Hg as [Hpos Hw].
  unfold read_snapshot, current_generation. rewrite Hm.
  destruct (length_digits 20 g []) as [Hlen _]. rewrite (proj2 (Z.ltb_ge _ _))
    by (unfold MAX_MANIFEST_BYTES, decimal; rewrite length_app; cbn [length] in *; lia).
  rewrite manifest_round_trip by done. cbn [result_map result_bind ok_or]. rewrite Hs. cbn [ok_or result_bind].
  unfold validate_snapshot_metadata in Hvalid. pose proof Hvalid as Hheader.
  apply result_bind_Ok in Hheader as ([] & Hheader & _).
  assert (Hver : sn_version snap = SNAPSHOT_VERSION).
  { unfold validate_snapshot_header in Hheader. destruct (sn_version snap =? SNAPSHOT_VERSION) eqn:E; [|done].
    by apply Z.eqb_eq in E. }
  unfold read_state_file. rewrite (proj2 (Z.ltb_ge _ _)) by done.
  rewrite (version_encoded snap data Henc). cbn [result_bind]. rewrite Hver, Z.ltb_irrefl.
  rewrite (snapshot_encoded snap data Henc). cbn [result_bind]. rewrite Hheader. cbn [result_bind].
  rewrite Hmem. cbn [ok_or result_bind]. unfold validate_snapshot_metadata. by rewrite Hvalid.
Qed.

(** [d] reads as the directory before, or as the capture. *)
Definition old_or_new (src : Source) (build : list MemRegion -> option DeltaMemory -> Snapshot V M)
    (dir d : Dir) : Prop :=
  read_snapshot current d = read_snapshot (V:=V) (M:=M) current dir \/
  exists snap memory, captured src build = Ok (snap, memory) /\ read_snapshot current d = Ok (snap, memory).

Lemma write_snapshot_spec src build dir0 g :
  next_generation dir0 = Ok g ->
  triple (kept dir0 g)
    (inspect (prepare current src build g)
       (fun prepared => match prepared with
                        | Err e => do! cleanup_unpublished_generation g ; ret (Err e)
                        | Ok _ => publish_generation g
                        end))
    (fun r d => old_or_new src build dir0 d /\
       (r = Ok tt -> exists snap memory, captured src build = Ok (snap, memory) /\
                       read_snapshot current d = Ok (snap, memory)))
    (old_or_new src build dir0).
Proof.
  intros Hg. assert (Hkept : forall d, kept dir0 g d -> old_or_new src build dir0 d)
    by (intros d Hd; left; by apply (read_kept dir0 g)).
  eapply triple_inspect.
  { eapply triple_crash; [apply (prepare_spec current src build dir0 g)|exact Hkept]. }
  intros [[]|e].
  - apply triple_exists. intros [[snap memory] data]. cbn [fst snd]. apply triple_pure. intros Hwr.
    assert (Hnew : forall d, published g memory data d ->
              exists s m, captured src build = Ok (s, m) /\ read_snapshot current d = Ok (s, m)).
    { intros d Hd. exists snap, memory. split; [apply Hwr|by eapply read_published]. }
    eapply triple_weaken; [apply (publish_spec dir0 g memory data)|done| |].
    + intros [[]|e] d Hd; [split; [right|intros _]; by apply Hnew|]. split; [|done].
      destruct Hd as [Hd|Hd]; [by apply Hkept|right; by apply Hnew].
    + intros d [Hd|Hd]; [by apply Hkept|right; by apply Hnew].
  - eapply triple_crash; [|exact Hkept].
    eapply triple_bind; [apply (cleanup_spec dir0 g)|intros []; apply triple_ret|]; intros; split; auto; done.
Qed.

(** C28: at whatever file operation [write_snapshot] fails or the process dies, the directory
    then reads as it did before or as the complete new snapshot, never as anything else;
    and when it returns success, it reads as the new one. *)
Theorem write_snapshot_atomic src build dir events :
  let '(dir', _, outcome) := write_snapshot current src build (dir, events) in
  old_or_new src build dir dir' /\
  (outcome = Returned (Ok tt) ->
   exists snap memory, captured src build = Ok (snap, memory) /\ read_snapshot current dir' = Ok (snap, memory)).
Proof.
  unfold write_snapshot, bind, io_dir. cbn [fst]. destruct (next_generation dir) as [g|e] eqn:Hg.
  2: { split; [by left|done]. }
  pose proof (write_snapshot_spec src build dir g Hg dir events) as Hspec.
  destruct (inspect _ _ _) as [[dir' ev'] [r|]]; specialize (Hspec (fun _ _ => eq_refl)).
  - destruct Hspec as [H1 H2]. split; [done|]. intros [= ->]. by apply H2.
  - by split.
Qed.

End reading.

(** ** Recovery *)

Section recovery.
Context {V M : Type} `{Postcard (Snapshot V M)} (current : Backend).
Context (src : Source) (build : list MemRegion -> option DeltaMemory -> Snapshot V M).
Context (snap : Snapshot V M) (memory data : list Z).
Context (Hwritable : writable current src build snap memory data).

(** A run without a fault. *)
Definition attempt (d : Dir) : Dir * Outcome unit :=
  let '(d', _, outcome) := write_snapshot current src build (d, []) in (d', outcome).

Lemma dump_memory_run d g :
  exists regions del, snap = build regions del /\
    dump_memory src (MemoryTmp g) (d, []) =
    match d !! MemoryTmp g with
    | None => (<[MemoryTmp g := memory]> d, [], Returned (Ok (regions, del)))
    | Some _ => (d, [], Returned (Err "creating"))
    end.
Proof.
  destruct Hwritable as (Hc & _). unfold captured in Hc. apply result_bind_Ok in Hc as ([[regions del] m] & Hd & Hc).
  injection Hc as <- <-. exists regions, del. split; [done|]. unfold dump_of in Hd. unfold dump_memory.
  destruct (s_base src) as [[base siblings]|].
  - apply result_bind_Ok in Hd as ([[rs dm] file] & Hd & He). injection He as <- <- <-.
    unfold dump_delta_memory_file in Hd. apply result_bind_Ok in Hd as ([rs' specs] & Hs & Hd).
    apply result_bind_Ok in Hd as ([changed pages] & Hp & Hd). injection Hd as <- <- <-.
    unfold bind, ret. rewrite Hs. unfold create_snapshot_file, operation at 1. destruct (d !! MemoryTmp g) eqn:Hl; [done|].
    cbn [fst snd]. rewrite Hp. unfold write_all, sync_all, operation. cbn [fst snd].
    by rewrite lookup_insert_eq, insert_insert_eq.
  - apply result_bind_Ok in Hd as ([rs file] & Hd & He). injection He as <- <- <-.
    unfold bind, ret, create_snapshot_file, operation at 1. destruct (d !! MemoryTmp g) eqn:Hl; [done|].
    rewrite Hd. unfold write_all, sync_all, operation. cbn [fst snd].
    by rewrite lookup_insert_eq, insert_insert_eq.
Qed.

(** With neither temporary file left over, [prepare] goes through. *)
Lemma prepare_run d g :
  exists d' r, prepare current src build g (d, []) = (d', [], Returned r) /\
    d' !! Manifest = d !! Manifest /\ d' !! ManifestTmp = d !! ManifestTmp /\
    (r = Ok tt -> d' !! MemoryTmp g = None /\ d' !! StateTmp g = None) /\
    (d !! MemoryTmp g = None -> d !! StateTmp g = None -> r = Ok tt).
Proof.
  destruct (dump_memory_run d g) as (regions & del & Hsnap & Hdump). unfold prepare, bind. rewrite Hdump.
  destruct Hwritable as (_ & Hvalid & Henc & Hsize). destruct (d !! MemoryTmp g) eqn:Hm.
  { eexists _, _. split; [done|]. by split_and!. }
  cbn [fst snd]. rewrite <- Hsnap. unfold file_len, operation at 1. rewrite lookup_insert_eq. cbn [ok_or result_map].
  rewrite Hvalid. unfold ret at 1, write_state_file, bind, ret at 1. rewrite Henc, (proj2 (Z.ltb_ge _ _)) by done.
  unfold create_snapshot_file, operation at 1. rewrite lookup_insert_ne by done.
  destruct (d !! StateTmp g) eqn:Hs.
  { eexists _, _. split; [done|]. rewrite !lookup_insert_ne by done. by split_and!; [..|intros [=]|intros _ [=]]. }
  unfold write_all, sync_all, rename, sync_dir, operation. rewrite !lookup_insert_eq. cbn [default app].
  rewrite lookup_insert_ne, lookup_insert_ne, lookup_insert_eq by done.
  rewrite lookup_insert_ne, lookup_delete_ne, lookup_insert_eq by done.
  eexists _, _. split; [done|]. split_and!; [by simplify_map_eq..| |done].
  intros _. split; by simplify_map_eq.
Qed.

Lemma remove_run name (d : Dir) :
  ignore (remove_file name) (d, []) = (delete name d, [], Returned (Ok tt)).
Proof.
  unfold ignore, inspect, remove_file, operation, ret. destruct (d !! name) eqn:Hl; [done|].
  by rewrite delete_id.
Qed.

Lemma cleanup_run d g :
  exists d', cleanup_unpublished_generation g (d, []) = (d', [], Returned (Ok tt)) /\
    d' !! Manifest = d !! Manifest /\ d' !! ManifestTmp = d !! ManifestTmp /\
    d' !! MemoryTmp g = None /\ d' !! StateTmp g = None.
Proof.
  unfold cleanup_unpublished_generation, bind. do 4 (rewrite remove_run; cbn match).
  eexists. split; [done|]. split_and!; by simplify_map_eq.
Qed.

(** [publish_generation] goes through unless a temporary manifest was left over, which it
    then removes. *)
Lemma publish_run d g :
  exists d' r, publish_generation g (d, []) = (d', [], Returned r) /\
    (r = Ok tt \/
     d !! ManifestTmp <> None /\ d' !! ManifestTmp = None /\ d' !! Manifest = d !! Manifest /\
     d' !! MemoryTmp g = d !! MemoryTmp g /\ d' !! StateTmp g = d !! StateTmp g).
Proof.
  unfold publish_generation, inspect, bind, create_snapshot_file, operation at 1.
  destruct (d !! ManifestTmp) eqn:Hm.
  - rewrite remove_run. unfold ret. eexists _, _. split; [done|]. right.
    by rewrite lookup_delete_eq, !lookup_delete_ne.
  - unfold write_all, sync_all, rename, sync_dir, operation. rewrite !lookup_insert_eq.
    eexists _, _. split; [done|]. by left.
Qed.

Definition succeeds (d : Dir) : Prop := snd (attempt d) = Returned (Ok tt).

(** Neither temporary file of the generation is left over. *)
Definition clear (d : Dir) (g : Z) : Prop := d !! MemoryTmp g = None /\ d !! StateTmp g = None.

(** An attempt that fails removes what was in its way: the temporary files of the
    generation, or the temporary manifest when they were not there. *)
Lemma attempt_clears d g :
  next_generation d = Ok g ->
  succeeds d \/
  next_generation (fst (attempt d)) = Ok g /\ clear (fst (attempt d)) g /\
  (clear d g -> d !! ManifestTmp <> None /\ fst (attempt d) !! ManifestTmp = None).
Proof.
  intros Hg. unfold succeeds, attempt, write_snapshot, bind, io_dir, inspect, clear. cbn [fst]. rewrite Hg.
  destruct (prepare_run d g) as (d1 & r1 & -> & Hm1 & Ht1 & Hclear & Hok1).
  assert (Hnext : forall d2 : Dir, d2 !! Manifest = d !! Manifest -> next_generation d2 = Ok g).
  { intros d2 Hd2. rewrite <- Hg. unfold next_generation, current_generation. by rewrite Hd2. }
  destruct r1 as [[]|e].
  - destruct (publish_run d1 g) as (d2 & r2 & -> & [->|(Hne & Ht2 & Hm2 & Hmem2 & Hst2)]); [by left|].
    cbn [fst snd]. right. destruct (Hclear eq_refl) as [Ha Hb].
    split_and!; [apply Hnext; congruence|congruence|congruence|]. intros _. by rewrite <- Ht1.
  - destruct (cleanup_run d1 g) as (d2 & -> & Hm2 & Ht2 & Hmem2 & Hst2). unfold ret. cbn [fst snd]. right.
    split_and!; [apply Hnext; congruence|done|done|]. intros [Ha Hb]. by specialize (Hok1 Ha Hb).
Qed.

(** Whatever an earlier crash left in the directory, as long as its manifest can be read
    and the capture is one that can be written, at most two attempts fail for it: the
    third at the latest publishes the snapshot. *)
Lemma write_snapshot_recovers dir g :
  next_generation dir = Ok g ->
  let dir1 := fst (attempt dir) in
  let dir2 := fst (attempt dir1) in
  succeeds dir \/ succeeds dir1 \/ succeeds dir2.
Proof.
  intros Hg dir1 dir2. destruct (attempt_clears dir g Hg) as [|(Hg1 & Hc1 & _)]; [by left|].
  fold dir1 in Hg1, Hc1. destruct (attempt_clears dir1 g Hg1) as [|(Hg2 & Hc2 & Ht2)]; [by right; left|].
  fold dir2 in Hg2, Hc2, Ht2. destruct (Ht2 Hc1) as [_ Ht].
  destruct (attempt_clears dir2 g Hg2) as [|(_ & _ & Hne)]; [by right; right|].
  by destruct (Hne Hc2) as [? _].
Qed.

End recovery.

(** *** Witnesses *)

#[local] Instance MemRegion_eq_dec : EqDecision MemRegion. Proof. solve_decision. Defined.
#[local] Instance DeltaMemory_eq_dec : EqDecision DeltaMemory. Proof. solve_decision. Defined.
#[local] Instance DeviceKind_eq_dec : EqDecision DeviceKind. Proof. solve_decision. Defined.
#[local] Instance DeviceTransportKind_eq_dec : EqDecision DeviceTransportKind. Proof. solve_decision. Defined.
#[local] Instance BackendHint_eq_dec : EqDecision BackendHint. Proof. solve_decision. Defined.
#[local] Instance QueueStateSer_eq_dec : EqDecision QueueStateSer. Proof. solve_decision. Defined.
#[local] Instance MsixEntry_eq_dec : EqDecision VirtioPci.MsixEntry. Proof. solve_decision. Defined.
#[local] Instance MsixStateSer_eq_dec : EqDecision VirtioPci.MsixStateSer. Proof. solve_decision. Defined.
#[local] Instance PciTransportStateSer_eq_dec : EqDecision VirtioPci.PciTransportStateSer. Proof. solve_decision. Defined.
#[local] Instance FsStateSer_eq_dec : EqDecision FsStateSer. Proof. solve_decision. Defined.
#[local] Instance DeviceState_eq_dec : EqDecision DeviceState. Proof. solve_decision. Defined.
#[local] Instance SerialState_eq_dec : EqDecision SerialState. Proof. solve_decision. Defined.
#[local] Instance Snapshot_eq_dec : EqDecision (Snapshot unit unit). Proof. solve_decision. Defined.

Definition build0 (regions : list MemRegion) (d : option DeltaMemory) : Snapshot unit unit :=
  mkSnapshot 3 "x86_64" Kvm 1 1 "" "direct" None regions [tt] tt
    (mkSerialState 0 0 0 0 0 0 0 0 0 []) (sn_devices snap0) d.

Definition region0 : MemRegion := mkMemRegion 0 (2 ^ 20) 0.

(** A delta in which no page changed. *)
Definition snap1 : Snapshot unit unit := build0 [region0] (Some (mkDelta "base" 4096 (replicate 32 0))).

Definition source0 : Source :=
  mkSource [mkGuestRegion 0 (replicate 256 [])]
    (Some ("base", fun _ => Ok (mkImage [region0] None (replicate 256 [])))) None 4096 [].

(** An encoding of the one envelope the witnesses write. *)
#[local] Instance tiny_postcard : Postcard (Snapshot unit unit) := {
  to_allocvec s := if decide (s = snap1) then Ok [3; 7] else Err "unsupported";
  take_version b := match b with v :: _ => Ok v | [] => Err "end of input" end;
  take_snapshot b := match b with 3 :: 7 :: rest => Ok (snap1, rest) | _ => Err "invalid" end }.

#[local] Instance tiny_postcard_laws : PostcardLaws.
Proof.
  split; intros snap b; cbn [to_allocvec tiny_postcard]; destruct (decide (snap = snap1)) as [->|]; intros [= <-];
    reflexivity.
Qed.

(** The process dies while the manifest of the first generation is being written. *)
Lemma write_snapshot_atomic_witness :
  let '(dir', _, outcome) :=
    write_snapshot Kvm source0 build0 (∅, replicate 11 Works ++ [Dies 1]) in
  old_or_new Kvm source0 build0 ∅ dir' /\ outcome = Died /\ dir' !! ManifestTmp = Some [49].
Proof.
  pose proof (write_snapshot_atomic Kvm source0 build0 ∅ (replicate 11 Works ++ [Dies 1])) as H.
  assert (Ho : let '(dir', _, outcome) := write_snapshot Kvm source0 build0 (∅, replicate 11 Works ++ [Dies 1]) in
               outcome = Died /\ dir' !! ManifestTmp = Some [49]) by (vm_compute; auto).
  destruct (write_snapshot Kvm source0 build0 (∅, replicate 11 Works ++ [Dies 1])) as [[dir' ev] o].
  split; [exact (proj1 H)|exact Ho].
Defined.
