(* ===== verification/Json.v ===== *)
(** [serde_json::Value] as the daemon uses it: the type, its accessors, and the library's
    text form and equality as a class with the laws that are documented for them. *)

From S2P Require Import Prelude F64.

Set Warnings "-register-all".

(** ** Values

    [Number] holds an integer of [[-2^63, 2^64)] or a finite [f64]; an object is a map. *)
Inductive number : Type :=
  | NInt (z : Z)
  | NFloat (x : f64).

Inductive json : Type :=
  | JNull
  | JBool (b : bool)
  | JNumber (n : number)
  | JString (s : string)
  | JArray (l : list json)
  | JObject (m : gmap string json).

(** A closed decidable fact, by computation. *)
Ltac by_decide := apply (bool_decide_unpack _); vm_compute; exact I.

(** [Params] of [mesh/record.rs]: [serde_json::Map<String, Value>]. *)
Abbreviation Params := (gmap string json).

#[global] Instance number_eq_dec : EqDecision number.
Proof. solve_decision. Defined.

#[global] Instance json_eq_dec : EqDecision json.
Proof.
  refine (fix go v w := let _ : EqDecision json := @go in
    match v, w return Decision (v = w) with
    | JNull, JNull => left eq_refl
    | JBool a, JBool b => cast_if (decide (a = b))
    | JNumber a, JNumber b => cast_if (decide (a = b))
    | JString a, JString b => cast_if (decide (a = b))
    | JArray a, JArray b => cast_if (decide (a = b))
    | JObject a, JObject b => cast_if (decide (a = b))
    | _, _ => right _
    end); congruence.
Defined.

(** ** Accessors *)
Definition as_str (v : json) : option string :=
  match v with JString s => Some s | _ => None end.
Definition as_bool (v : json) : option bool :=
  match v with JBool b => Some b | _ => None end.
Definition as_object (v : json) : option Params :=
  match v with JObject m => Some m | _ => None end.
Definition is_object (v : json) : bool :=
  match v with JObject _ => true | _ => false end.
Definition in_i64 (z : Z) : bool := (- 2 ^ 63 <=? z) && (z <? 2 ^ 63).
Definition as_i64 (v : json) : option Z :=
  match v with JNumber (NInt z) => if in_i64 z then Some z else None | _ => None end.
Definition as_u64 (v : json) : option Z :=
  match v with JNumber (NInt z) => if 0 <=? z then Some z else None | _ => None end.
Definition as_f64 (v : json) : option f64 :=
  match v with
  | JNumber (NInt z) => Some (f64_of_Z z)
  | JNumber (NFloat x) => Some x
  | _ => None
  end.

(** [params.get(key).and_then(Value::as_str)] and its like. *)
Definition field {A} (p : Params) (key : string) (f : json -> option A) : option A :=
  v ← p !! key; f v.

(** [json_f64]: [Number::from_f64] refuses what is not finite. *)
Definition json_f64 (x : f64) : json :=
  if f64_is_finite x then JNumber (NFloat x) else JNumber (NInt 0).

(** ** The library's text form

    Reading back what was printed gives the value again, except that the default parser of
    [serde_json] is only best-effort on the last digits of a float: a float comes back as
    some finite float. *)
Inductive reparsed : json -> json -> Prop :=
  | reparsed_refl v : reparsed v v
  | reparsed_float x y : f64_is_finite y = true -> reparsed (JNumber (NFloat x)) (JNumber (NFloat y))
  | reparsed_array l k : Forall2 reparsed l k -> reparsed (JArray l) (JArray k)
  | reparsed_object m n :
      (forall key, option_Forall2 reparsed (m !! key) (n !! key)) ->
      reparsed (JObject m) (JObject n).

(** [to_vec], [from_str], [Display for Number] and [PartialEq for Value].  serde_json refuses to parse values that
    are nested more than 128 deep; the values that the sources write are not. *)
Class Serde : Type := {
  to_vec : json -> list Z;
  from_str : list Z -> option json;
  number_to_string : number -> string;
  value_eqb : json -> json -> bool;
  (** the files end with a newline, which [from_str] skips *)
  from_str_to_vec v : exists w, from_str (to_vec v ++ [10]) = Some w /\ reparsed v w;
  value_eqb_refl v : value_eqb v v = true;
}.

Lemma reparsed_object_inv m w :
  reparsed (JObject m) w ->
  exists n, w = JObject n /\ forall key, option_Forall2 reparsed (m !! key) (n !! key).
Proof.
  inversion 1 as [|?| |? n Hn]; simplify_eq; [|by eexists].
  eexists; split; [done|]. intros key. destruct (m !! key); repeat constructor.
Qed.

Lemma reparsed_Some v o :
  option_Forall2 reparsed (Some v) o -> exists w, o = Some w /\ reparsed v w.
Proof. inversion 1; subst; eauto. Qed.

Lemma reparsed_string_inv s w : reparsed (JString s) w -> w = JString s.
Proof. by inversion 1. Qed.

Lemma reparsed_float_inv x w :
  reparsed (JNumber (NFloat x)) w -> f64_is_finite x = true ->
  exists y, w = JNumber (NFloat y) /\ f64_is_finite y = true.
Proof. inversion 1; simplify_eq; eauto. Qed.

(** What the accessors see of a value that was written and read back. *)
Lemma reparsed_as_str v w : reparsed v w -> as_str w = as_str v.
Proof. by destruct 1. Qed.
Lemma reparsed_as_bool v w : reparsed v w -> as_bool w = as_bool v.
Proof. by destruct 1. Qed.
Lemma reparsed_as_i64 v w : reparsed v w -> as_i64 w = as_i64 v.
Proof. by destruct 1. Qed.

Lemma reparsed_field {A} (f : json -> option A) m n key :
  (forall v w, reparsed v w -> f w = f v) ->
  (forall k, option_Forall2 reparsed (m !! k) (n !! k)) ->
  field n key f = field m key f.
Proof. intros Hf Hm. unfold field. destruct (Hm key); simpl; [by apply Hf|done]. Qed.

(** ** A text form that satisfies the laws

    Values as trees, and trees as numbers: an instance of [Serde] in which every value comes
    back as it was, for the statements that need one. *)

#[global] Instance f64_countable : Countable f64.
Proof.
  apply (inj_countable'
    (fun x : f64 => match x with
     | S754_zero s => inl (inl s)
     | S754_infinity s => inl (inr s)
     | S754_nan => inr (inl ())
     | S754_finite s m e => inr (inr (s, m, e))
     end)
    (fun y => match y with
     | inl (inl s) => S754_zero s
     | inl (inr s) => S754_infinity s
     | inr (inl _) => S754_nan
     | inr (inr (s, m, e)) => S754_finite s m e
     end)).
  by intros [].
Defined.

Definition leaf : Type := bool + (Z + (f64 + string)).

Fixpoint json_tree (v : json) : gen_tree leaf :=
  match v with
  | JNull => GenNode 0 []
  | JBool b => GenLeaf (inl b)
  | JNumber (NInt z) => GenLeaf (inr (inl z))
  | JNumber (NFloat x) => GenLeaf (inr (inr (inl x)))
  | JString s => GenLeaf (inr (inr (inr s)))
  | JArray l => GenNode 1 (json_tree <$> l)
  | JObject m =>
      GenNode 2 (map_fold (fun k w acc => GenLeaf (inr (inr (inr k))) :: json_tree w :: acc) [] m)
  end.

Definition tree_items (f : gen_tree leaf -> option json) : list (gen_tree leaf) -> option (list json) :=
  fix go l :=
  match l with
  | [] => Some []
  | t :: l => v ← f t; k ← go l; Some (v :: k)
  end.

Definition tree_members (f : gen_tree leaf -> option json) : list (gen_tree leaf) -> option Params :=
  fix go l :=
  match l with
  | [] => Some ∅
  | GenLeaf (inr (inr (inr s))) :: t :: l => v ← f t; m ← go l; Some (<[s := v]> m)
  | _ => None
  end.

Fixpoint tree_json (t : gen_tree leaf) : option json :=
  match t with
  | GenLeaf (inl b) => Some (JBool b)
  | GenLeaf (inr (inl z)) => Some (JNumber (NInt z))
  | GenLeaf (inr (inr (inl x))) => Some (JNumber (NFloat x))
  | GenLeaf (inr (inr (inr s))) => Some (JString s)
  | GenNode 0 _ => Some JNull
  | GenNode 1 l => l ← tree_items tree_json l; Some (JArray l)
  | GenNode _ l => m ← tree_members tree_json l; Some (JObject m)
  end.

Fixpoint json_size (v : json) : nat :=
  match v with
  | JArray l => S (sum_list_with json_size l)
  | JObject m => S (map_fold (fun _ w n => json_size w + n)%nat 0%nat m)
  | _ => 1%nat
  end.

Lemma json_size_object m k v : m !! k = Some v -> (json_size v < json_size (JObject m))%nat.
Proof.
  simpl. revert k v. apply (map_fold_weak_ind (fun n (m : Params) => forall k v, m !! k = Some v ->
    (json_size v < S n)%nat)); [by intros ??|].
  intros j w m' n Hj IH k v [[<- <-]|[_ Hk]]%lookup_insert_Some; [lia|].
  specialize (IH k v Hk). lia.
Qed.

Lemma json_size_array l v : v ∈ l -> (json_size v < json_size (JArray l))%nat.
Proof.
  simpl. induction l as [|w l IH]; [set_solver|]. simpl.
  intros [->|Hv]%elem_of_cons; [lia|]. specialize (IH Hv). lia.
Qed.

Lemma tree_json_tree v : tree_json (json_tree v) = Some v.
Proof.
  remember (json_size v) as n eqn:Hn. revert v Hn.
  induction (lt_wf n) as [n _ IH]; intros v ->. destruct v as [|b|[]|s|l|m]; try done; simpl.
  - assert (Hl : forall v, v ∈ l -> tree_json (json_tree v) = Some v)
      by (intros v Hv; by eapply IH, eq_refl; apply json_size_array).
    clear IH. enough (tree_items tree_json (json_tree <$> l) = Some l) as -> by done.
    induction l as [|v l IHl]; [done|]. rewrite fmap_cons. cbn [tree_items].
    rewrite Hl by set_solver. cbn. rewrite IHl; [done|set_solver].
  - assert (Hm : forall k v, m !! k = Some v -> tree_json (json_tree v) = Some v)
      by (intros k v Hv; by eapply IH, eq_refl; eapply json_size_object).
    clear IH. enough (tree_members tree_json (map_fold (fun k w acc =>
      GenLeaf (inr (inr (inr k))) :: json_tree w :: acc) [] m) = Some m) as -> by done.
    revert Hm. apply (map_fold_weak_ind (fun l (m : Params) =>
      (forall k v, m !! k = Some v -> tree_json (json_tree v) = Some v) ->
      tree_members tree_json l = Some m)); [done|].
    intros k v m' l Hk IHm Hall. simpl. rewrite (Hall k v) by apply lookup_insert_eq. simpl.
    rewrite IHm; [done|].
    intros j w Hj. apply (Hall j). rewrite lookup_insert_ne; [done|congruence].
Qed.

Definition number_serde : Serde.
Proof.
  refine {| to_vec v := [Zpos (encode (json_tree v))];
            from_str l := match l with Zpos p :: _ => t ← decode p; tree_json t | _ => None end;
            number_to_string _ := "0"%string;
            value_eqb v w := bool_decide (v = w) |}.
  - intros v. exists v. split; [|constructor]. cbn [app]. rewrite decode_encode. apply tree_json_tree.
  - intros v. by apply bool_decide_eq_true.
Defined.
