(* ===== verification/MeshRecord.v ===== *)
(** [vmond/src/mesh/record.rs]: the durable create records of the mesh.  A [RecordStore] is the
    map of records in memory, the secrets kept beside it, and the files of the records
    directory; every operation is whole, its guards in the order of the code.  The outcome of
    an operation's write to disk is its argument [io], the clock is [now], and the order in
    which a directory is listed is the list [load] is given.

    A record names the owner of a sandbox under an epoch.  The hand-over of a sandbox to
    another node is a protocol over the records: an authorization is set ([begin]), and then
    consumed ([confirm] or [claim]) or revoked ([abort]), never both. *)

From S2P Require Import Prelude F64 Json.

(** The [EngineError]s of this file; a constructor stands for the message. *)
Inductive record_error : Type :=
  | RecordSidRequired | RecordOwnerRequired | IdempotencyKeyRequired
  | InvalidHaTier (ha : string)
  | RecordNotObject | RecordParamsNotObject
  | InvalidRestoreClaim | NoOwnershipRecord | RestoreFenced | RestoreConflict
  | EpochOutOfRange | InvalidRestoreRelease
  | InvalidHandoff | LostSourceLease | HandoffExists | HandoffFenced
  | TargetNotSuccessor | AbortCompletionFenced
  | RecordIo.

Abbreviation RResult := (result record_error).

Definition ALLOWED_HA : list string := ["off"; "async"; "rerun"; "async+rerun"]%string.

Definition HANDOFF_TARGET_FIELD : string := "_mesh_migration_handoff_target".
Definition HANDOFF_TOKEN_FIELD : string := "_mesh_migration_handoff_token".
Definition HANDOFF_STATE_FIELD : string := "_mesh_migration_handoff_state".
Definition HANDOFF_SOURCE_FIELD : string := "_mesh_migration_handoff_source".
Definition HANDOFF_CLAIMED_FIELD : string := "_mesh_migration_handoff_claimed".
Definition MIGRATION_COMMITTED_FIELD : string := "_mesh_migration_committed".
Definition RESTORE_PENDING_FIELD : string := "_mesh_restore_pending".
Definition SECRETS_FIELD : string := "secrets".

(** [str::contains]. *)
Fixpoint str_contains (needle s : string) : bool :=
  String.prefix needle s ||
  match s with EmptyString => false | String _ s' => str_contains needle s' end.

Definition restart_policy_for_ha (ha : string) : string :=
  if str_contains "rerun" ha then "rerun" else "none".

Definition required_record_acks (expected_members live_peer_count : Z) : Z :=
  if expected_members <=? 2 then 1 + live_peer_count else expected_members / 2 + 1.

(** [i64::checked_add]. *)
Definition i64_checked_add (a b : Z) : option Z :=
  if in_i64 (a + b) then Some (a + b) else None.

Definition str_empty (s : string) : bool := String.eqb s "".

Record CreateRecord : Type := mkCreateRecord {
  sid : string; params : Params; owner : string; epoch : Z; incarnation_epoch : Z;
  idempotency_key : string; ha : string; restart_policy : string; created_at : f64 }.

Definition set_params (r : CreateRecord) (p : Params) : CreateRecord :=
  mkCreateRecord (sid r) p (owner r) (epoch r) (incarnation_epoch r) (idempotency_key r)
    (ha r) (restart_policy r) (created_at r).
Definition set_owner_epoch (r : CreateRecord) (o : string) (e : Z) : CreateRecord :=
  mkCreateRecord (sid r) (params r) o e (incarnation_epoch r) (idempotency_key r)
    (ha r) (restart_policy r) (created_at r).
Definition set_policy (r : CreateRecord) (h p : string) : CreateRecord :=
  mkCreateRecord (sid r) (params r) (owner r) (epoch r) (incarnation_epoch r)
    (idempotency_key r) h p (created_at r).
Definition set_incarnation (r : CreateRecord) (e : Z) : CreateRecord :=
  mkCreateRecord (sid r) (params r) (owner r) (epoch r) e (idempotency_key r)
    (ha r) (restart_policy r) (created_at r).

Definition non_empty_string (message : record_error) (value : string) : RResult string :=
  if str_empty value then Err message else Ok value.

Definition required_string (data : Params) (key : string) (message : record_error)
  : RResult string :=
  non_empty_string message (default "" (field data key as_str)).

Section codec.
Context `{Serde}.

Definition optional_string (value : option json) (dflt : string) : string :=
  match value with
  | Some (JString text) => if negb (str_empty text) then text else dflt
  | Some (JNumber n) => number_to_string n
  | Some (JBool flag) => if flag then "true" else dflt
  | _ => dflt
  end.

(** [CreateRecord::new]. *)
Definition create_record_new (now : f64) (s : string) (p : Params) (o : string) (e : Z)
    (key h policy : string) (created : f64) : RResult CreateRecord :=
  s <-? non_empty_string RecordSidRequired s ;
  o <-? non_empty_string RecordOwnerRequired o ;
  key <-? non_empty_string IdempotencyKeyRequired key ;
  if negb (bool_decide (h ∈ ALLOWED_HA)) then Err (InvalidHaTier h)
  else
    let created := if f64_is_finite created then created else now in
    Ok (mkCreateRecord s p o e e key h policy created).

Definition to_wire_map (r : CreateRecord) : Params :=
  list_to_map
    [("sid", JString (sid r)); ("params", JObject (params r)); ("owner", JString (owner r));
     ("epoch", JNumber (NInt (epoch r)));
     ("incarnation_epoch", JNumber (NInt (incarnation_epoch r)));
     ("idempotency_key", JString (idempotency_key r)); ("ha", JString (ha r));
     ("restart_policy", JString (restart_policy r));
     ("created_at", json_f64 (created_at r))]%string.

Definition to_wire (r : CreateRecord) : json := JObject (to_wire_map r).

Definition from_wire_map (now : f64) (data : Params) : RResult CreateRecord :=
  s <-? required_string data "sid" RecordSidRequired ;
  p <-? ok_or (field data "params" as_object) RecordParamsNotObject ;
  o <-? required_string data "owner" RecordOwnerRequired ;
  key <-? required_string data "idempotency_key" IdempotencyKeyRequired ;
  let h := optional_string (data !! "ha"%string) "off" in
  let policy := optional_string (data !! "restart_policy"%string) (restart_policy_for_ha h) in
  let e := default 0 (field data "epoch" as_i64) in
  r <-? create_record_new now s p o e key h policy
          (default f64_zero (field data "created_at" as_f64)) ;
  Ok (set_incarnation r (default e (field data "incarnation_epoch" as_i64))).

Definition from_wire (now : f64) (data : json) : RResult CreateRecord :=
  object <-? ok_or (as_object data) RecordNotObject ;
  from_wire_map now object.

Definition make_create_record (now : f64) (s o : string) (e : Z) (key : string)
    (p : Params) (kind : string) : RResult CreateRecord :=
  let p := delete "idempotency_key"%string p in
  let p := <["_kind"%string := JString kind]> p in
  let h := optional_string (p !! "ha"%string) "off" in
  let policy := optional_string (p !! "restart_policy"%string) (restart_policy_for_ha h) in
  let p := <["restart_policy"%string := JString policy]> p in
  create_record_new now s p o e key h policy now.

End codec.

(** ** Hand-over fields *)

Definition handoff_fields : list string :=
  [HANDOFF_TARGET_FIELD; HANDOFF_TOKEN_FIELD; HANDOFF_STATE_FIELD; HANDOFF_SOURCE_FIELD;
   HANDOFF_CLAIMED_FIELD].

Definition validate_handoff (s source : string) (e : Z) (target token : string) : RResult () :=
  if str_empty s || str_empty source || str_empty target || str_empty token || (e <? 0)
  then Err InvalidHandoff else Ok ().

Definition migration_committed (p : Params) : bool :=
  bool_decide (field p MIGRATION_COMMITTED_FIELD as_bool = Some true).

Definition handoff_present (p : Params) : bool :=
  existsb (fun key => bool_decide (is_Some (p !! key))) handoff_fields.

Definition handoff_matches (p : Params) (source target token : string) : bool :=
  bool_decide (field p HANDOFF_SOURCE_FIELD as_str = Some source) &&
  bool_decide (field p HANDOFF_TARGET_FIELD as_str = Some target) &&
  bool_decide (field p HANDOFF_TOKEN_FIELD as_str = Some token).

Definition handoff_state (p : Params) : option string := field p HANDOFF_STATE_FIELD as_str.

Definition handoff_claimed (p : Params) : bool :=
  bool_decide (field p HANDOFF_CLAIMED_FIELD as_bool = Some true).

Definition set_handoff (p : Params) (source target token state : string) (claimed : bool)
  : Params :=
  <[HANDOFF_CLAIMED_FIELD := JBool claimed]>
    (<[HANDOFF_STATE_FIELD := JString state]>
      (<[HANDOFF_TOKEN_FIELD := JString token]>
        (<[HANDOFF_TARGET_FIELD := JString target]>
          (<[HANDOFF_SOURCE_FIELD := JString source]> p)))).

Definition clear_handoff (p : Params) : Params :=
  fold_left (fun p key => delete key p) handoff_fields p.

Definition split_secrets (p : Params) : Params * option json :=
  (delete SECRETS_FIELD p,
   match p !! SECRETS_FIELD with Some JNull | None => None | Some v => Some v end).

(** ** The store *)

Record CachedSecrets : Type := mkCachedSecrets {
  cached_incarnation : Z; cached_value : json }.

(** [RecordInner] and the files [<sid>.json] of the directory. *)
Record RecordStore : Type := mkRecordStore {
  meta : gmap string CreateRecord;
  secrets : gmap string CachedSecrets;
  files : gmap string (list Z) }.

Module RecordStore.
Section store.
Context `{Serde}.

Definition new (disk : gmap string (list Z)) : RecordStore := mkRecordStore ∅ ∅ disk.

(** [io] is false when a step of the write fails: each precedes the rename, so the old
    file stays. *)
Definition write_record (io : bool) (s : string) (value : json) (fs : gmap string (list Z))
  : RResult (gmap string (list Z)) :=
  if io then Ok (<[s := to_vec value ++ [10]]> fs) else Err RecordIo.

Definition secret_values (st : RecordStore) (r : CreateRecord) : option json :=
  cached ← secrets st !! sid r;
  if cached_incarnation cached =? incarnation_epoch r then Some (cached_value cached) else None.

Definition with_secrets (st : RecordStore) (r : CreateRecord) : CreateRecord :=
  match secret_values st r with
  | Some v => set_params r (<[SECRETS_FIELD := v]> (params r))
  | None => r
  end.

Definition store_secrets (st : RecordStore) (r : CreateRecord) (value : option json)
  : RecordStore :=
  match value with
  | Some v =>
      mkRecordStore (meta st)
        (<[sid r := mkCachedSecrets (incarnation_epoch r) v]> (secrets st)) (files st)
  | None =>
      match secrets st !! sid r with
      | Some cached =>
          if negb (cached_incarnation cached =? incarnation_epoch r)
          then mkRecordStore (meta st) (delete (sid r) (secrets st)) (files st)
          else st
      | None => st
      end
  end.

Definition persist_meta (io : bool) (st : RecordStore) (r : CreateRecord) : RResult RecordStore :=
  fs <-? write_record io (sid r) (to_wire r) (files st) ;
  Ok (mkRecordStore (<[sid r := r]> (meta st)) (secrets st) fs).

(** One directory entry of [load]: whether it is a [.json] file, and its text if it could be
    read. *)
Definition load_entry (now : f64) (m : gmap string CreateRecord) (entry : bool * option (list Z))
  : gmap string CreateRecord :=
  match entry with
  | (true, Some text) =>
      match from_str text with
      | Some value =>
          match from_wire now value with
          | Ok r =>
              let '(clean, _) := split_secrets (params r) in
              let r := set_params r clean in
              <[sid r := r]> m
          | Err _ => m
          end
      | None => m
      end
  | _ => m
  end.

(** [entries] is [None] when [read_dir] fails. *)
Definition load (now : f64) (entries : option (list (bool * option (list Z)))) (st : RecordStore)
  : RecordStore :=
  match entries with
  | None => mkRecordStore ∅ ∅ (files st)
  | Some l => mkRecordStore (fold_left (load_entry now) l ∅) ∅ (files st)
  end.

Definition put (io : bool) (r : CreateRecord) (st : RecordStore) : RResult RecordStore :=
  let '(clean, sec) := split_secrets (params r) in
  let r := set_params r clean in
  fs <-? write_record io (sid r) (to_wire r) (files st) ;
  let st := store_secrets st r sec in
  Ok (mkRecordStore (<[sid r := r]> (meta st)) (secrets st) fs).

Definition inherit_field (ex p : Params) (key : string) : Params :=
  match ex !! key with Some v => <[key := v]> p | None => p end.

(** The parameters [put_if_newer] stores for an incoming record. *)
Definition merged_params (existing : option CreateRecord) (r : CreateRecord) : Params :=
  let cleared := clear_handoff (params r) in
  match existing with
  | Some ex =>
      if bool_decide (owner r = owner ex) && (epoch r =? epoch ex) then
        if migration_committed (params ex) && negb (migration_committed cleared) then params ex
        else fold_left (inherit_field (params ex)) handoff_fields cleared
      else cleared
  | None => cleared
  end.

Definition put_if_newer (io : bool) (r : CreateRecord) (st : RecordStore)
  : RResult (bool * RecordStore) :=
  let existing := meta st !! sid r in
  if match existing with Some ex => epoch r <? epoch ex | None => false end then Ok (false, st)
  else
    let '(p, sec) := split_secrets (merged_params existing r) in
    let r := set_params r p in
    st <-? persist_meta io st r ;
    Ok (true, store_secrets st r sec).

Definition get (s : string) (st : RecordStore) : option CreateRecord :=
  r ← meta st !! s; Some (with_secrets st r).

Definition remember_secrets (r : CreateRecord) (value : option json) (st : RecordStore)
  : RecordStore := store_secrets st r value.

Definition attach_secrets (r : CreateRecord) (st : RecordStore) : CreateRecord :=
  with_secrets st r.

Definition forget_secrets (s : string) (st : RecordStore) : RecordStore :=
  mkRecordStore (meta st) (delete s (secrets st)) (files st).

Definition update_owner (io : bool) (s o : string) (e : Z) (st : RecordStore)
  : RResult (option CreateRecord * RecordStore) :=
  match get s st with
  | None => Ok (None, st)
  | Some r =>
      let r := set_owner_epoch r o e in
      st <-? put io r st ;
      Ok (Some r, st)
  end.

Definition current (s : string) (e : record_error) (st : RecordStore) : RResult CreateRecord :=
  ok_or (meta st !! s) e.

(** *** Restore claims *)

Definition claim_restore_pending (io : bool) (s expected_owner : string) (expected_epoch : Z)
    (new_owner : string) (pending : json) (st : RecordStore)
  : RResult (CreateRecord * RecordStore) :=
  if str_empty s || str_empty expected_owner || str_empty new_owner || (expected_epoch <? 0)
     || negb (is_object pending) then Err InvalidRestoreClaim
  else
  r <-? current s NoOwnershipRecord st ;
  let existing := params r !! RESTORE_PENDING_FIELD in
  let same := match existing with Some v => value_eqb v pending | None => false end in
  if String.eqb (owner r) new_owner && same then Ok (with_secrets st r, st)
  else if negb (String.eqb (owner r) expected_owner) || negb (epoch r =? expected_epoch)
  then Err RestoreFenced
  else if match existing with Some v => negb (value_eqb v pending) | None => false end
  then Err RestoreConflict
  else
    e <-? ok_or (i64_checked_add (epoch r) 1) EpochOutOfRange ;
    let r := set_owner_epoch r new_owner e in
    let r := set_params r (<[RESTORE_PENDING_FIELD := pending]> (params r)) in
    st <-? persist_meta io st r ;
    Ok (with_secrets st r, st).

Definition renew_restore_pending (s o : string) (e : Z) (st : RecordStore) : bool :=
  match meta st !! s with
  | Some r => String.eqb (owner r) o && (epoch r =? e) &&
      bool_decide (is_Some (params r !! RESTORE_PENDING_FIELD))
  | None => false
  end.

Definition pending_fields : list string :=
  [RESTORE_PENDING_FIELD; "_mesh_rollback_pending"; "restore_pending"; "rollback_pending";
   "_mesh_lifecycle_operation"]%string.

Definition commit_restore_pending (io : bool) (s o : string) (e : Z) (p : Params)
    (h policy : string) (st : RecordStore) : RResult (CreateRecord * RecordStore) :=
  let '(p, sec) := split_secrets p in
  let p := fold_left (fun p key => delete key p) pending_fields p in
  r <-? current s NoOwnershipRecord st ;
  if negb (String.eqb (owner r) o) || negb (epoch r =? e) then Err RestoreFenced
  else
    let r := set_policy (set_params r p) h policy in
    st <-? persist_meta io st r ;
    let st := store_secrets st r sec in
    Ok (with_secrets st r, st).

Definition release_restore_claim (io : bool) (s o : string) (e : Z) (previous_owner : string)
    (previous_epoch : Z) (st : RecordStore) : RResult (option CreateRecord * RecordStore) :=
  if str_empty o || str_empty previous_owner || (e <? 0) || (previous_epoch <? 0)
  then Err InvalidRestoreRelease
  else
  restored <-? ok_or (i64_checked_add (Z.max previous_epoch e) 1) EpochOutOfRange ;
  match meta st !! s with
  | None => Ok (None, st)
  | Some r =>
      if negb (String.eqb (owner r) o) || negb (epoch r =? e)
         || negb (bool_decide (is_Some (params r !! RESTORE_PENDING_FIELD)))
      then Ok (None, st)
      else
        let r := set_params r (delete RESTORE_PENDING_FIELD (params r)) in
        let r := set_owner_epoch r previous_owner restored in
        st <-? persist_meta io st r ;
        Ok (Some (with_secrets st r), st)
  end.

(** *** Migration hand-over *)

Definition begin_migration_handoff (io : bool) (s source : string) (e : Z)
    (target token : string) (st : RecordStore) : RResult RecordStore :=
  _ <-? validate_handoff s source e target token ;
  r <-? current s NoOwnershipRecord st ;
  target_epoch <-? ok_or (i64_checked_add e 1) EpochOutOfRange ;
  if String.eqb (owner r) target && (epoch r =? target_epoch)
     && handoff_matches (params r) source target token
     && bool_decide (handoff_state (params r) = Some "active"%string)
     && handoff_claimed (params r) then Ok st
  else if negb (String.eqb (owner r) source) || negb (epoch r =? e) then Err LostSourceLease
  else if handoff_present (params r) then
    if handoff_matches (params r) source target token
       && bool_decide (handoff_state (params r) = Some "active"%string) then Ok st
    else Err HandoffExists
  else
    persist_meta io st (set_params r (set_handoff (params r) source target token "active" false)).

Definition confirm_migration_handoff (io : bool) (s source : string) (source_epoch : Z)
    (target : string) (target_epoch : Z) (token : string) (st : RecordStore)
  : RResult RecordStore :=
  _ <-? validate_handoff s source source_epoch target token ;
  if negb (bool_decide (i64_checked_add source_epoch 1 = Some target_epoch))
  then Err TargetNotSuccessor
  else
  r <-? current s NoOwnershipRecord st ;
  if String.eqb (owner r) target && (epoch r =? target_epoch)
     && handoff_matches (params r) source target token && handoff_claimed (params r)
  then Ok st
  else if negb (String.eqb (owner r) source) || negb (epoch r =? source_epoch)
     || negb (handoff_matches (params r) source target token)
     || negb (bool_decide (handoff_state (params r) = Some "active"%string))
  then Err HandoffFenced
  else
    let r := set_params r (<[HANDOFF_CLAIMED_FIELD := JBool true]> (params r)) in
    persist_meta io st (set_owner_epoch r target target_epoch).

Definition claim_migration_handoff (io : bool) (source : string) (source_epoch : Z)
    (target token : string) (intent : CreateRecord) (st : RecordStore)
  : RResult (CreateRecord * RecordStore) :=
  _ <-? validate_handoff (sid intent) source source_epoch target token ;
  target_epoch <-? ok_or (i64_checked_add source_epoch 1) EpochOutOfRange ;
  if negb (String.eqb (owner intent) target) || negb (epoch intent =? target_epoch)
  then Err TargetNotSuccessor
  else
  cur <-? current (sid intent) NoOwnershipRecord st ;
  if String.eqb (owner cur) target && (epoch cur =? target_epoch)
     && handoff_matches (params cur) source target token && handoff_claimed (params cur)
  then Ok (with_secrets st cur, st)
  else if negb (String.eqb (owner cur) source) || negb (epoch cur =? source_epoch)
  then Err HandoffFenced
  else if handoff_present (params cur) &&
     (negb (handoff_matches (params cur) source target token)
      || negb (bool_decide (handoff_state (params cur) = Some "active"%string)))
  then Err HandoffFenced
  else
    let '(p, sec) :=
      split_secrets (set_handoff (params intent) source target token "active" true) in
    let intent := set_params intent p in
    st <-? persist_meta io st intent ;
    let st := store_secrets st intent sec in
    Ok (with_secrets st intent, st).

Definition abort_migration_handoff (io : bool) (s source : string) (source_epoch : Z)
    (target token : string) (st : RecordStore)
  : RResult (option CreateRecord * RecordStore) :=
  _ <-? validate_handoff s source source_epoch target token ;
  fresh_epoch <-? ok_or (i64_checked_add source_epoch 1) EpochOutOfRange ;
  match meta st !! s with
  | None => Ok (None, st)
  | Some r =>
      if String.eqb (owner r) source && (epoch r =? fresh_epoch)
         && handoff_matches (params r) source target token
         && bool_decide (handoff_state (params r) = Some "aborted"%string)
      then Ok (Some (with_secrets st r), st)
      else if negb (String.eqb (owner r) source) || negb (epoch r =? source_epoch)
         || negb (handoff_matches (params r) source target token)
         || negb (bool_decide (handoff_state (params r) = Some "active"%string))
         || handoff_claimed (params r)
      then Ok (None, st)
      else
        let r := set_owner_epoch r (owner r) fresh_epoch in
        let r := set_params r (<[HANDOFF_STATE_FIELD := JString "aborted"]> (params r)) in
        st <-? persist_meta io st r ;
        Ok (Some (with_secrets st r), st)
  end.

Definition complete_migration_abort (io : bool) (s token o : string) (fresh_epoch : Z)
    (st : RecordStore) : RResult (CreateRecord * RecordStore) :=
  r <-? current s AbortCompletionFenced st ;
  if negb (String.eqb (owner r) o) || negb (epoch r =? fresh_epoch)
     || negb (bool_decide (handoff_state (params r) = Some "aborted"%string))
     || negb (bool_decide (field (params r) HANDOFF_TOKEN_FIELD as_str = Some token))
  then Err AbortCompletionFenced
  else
    let r := set_params r (clear_handoff (params r)) in
    st <-? persist_meta io st r ;
    Ok (with_secrets st r, st).

(** *** Enumeration and removal *)

Definition sorted_keys (st : RecordStore) : list string :=
  sort_by String.leb (map fst (map_to_list (meta st))).

(** [list], in the order of the keys of a [BTreeMap]. *)
Definition list_records (st : RecordStore) : list CreateRecord :=
  omap (fun s => get s st) (sorted_keys st).

(** [io] is false when the removal fails for another reason than a missing file. *)
Definition remove (io : bool) (s : string) (st : RecordStore) : RResult RecordStore :=
  if io then Ok (mkRecordStore (delete s (meta st)) (delete s (secrets st)) (delete s (files st)))
  else Err RecordIo.

Definition contains (s : string) (st : RecordStore) : bool := bool_decide (is_Some (meta st !! s)).

End store.
End RecordStore.

(** ** Opening an operation that succeeded *)

Lemma str_empty_false s : str_empty s = false <-> s <> ""%string.
Proof. apply String.eqb_neq. Qed.

Lemma i64_checked_add_Some a b c :
  i64_checked_add a b = Some c <-> c = a + b /\ in_i64 (a + b) = true.
Proof. unfold i64_checked_add. case_match; naive_solver. Qed.

Lemma validate_handoff_Ok s a e b t u :
  validate_handoff s a e b t = Ok u ->
  s <> ""%string /\ a <> ""%string /\ b <> ""%string /\ t <> ""%string /\ 0 <= e.
Proof.
  unfold validate_handoff. intros. inv_ok. bool_to_prop.
  by rewrite <- !str_empty_false.
Qed.

Ltac open_op :=
  unfold RecordStore.current in *; inv_ok; bool_to_prop;
  repeat match goal with
  | H : i64_checked_add _ _ = Some _ |- _ => apply i64_checked_add_Some in H as [-> ?]
  | H : validate_handoff _ _ _ _ _ = Ok _ |- _ =>
      apply validate_handoff_Ok in H as (? & ? & ? & ? & ?)
  | H : String.eqb _ _ = true |- _ => apply String.eqb_eq in H
  | H : str_empty _ = false |- _ => apply str_empty_false in H
  end.

(** ** Reading and writing records *)

(** What [CreateRecord::new] guarantees of its result, with the ranges of the types and a
    restart policy. *)
Definition record_ok (r : CreateRecord) : bool :=
  negb (str_empty (sid r)) && negb (str_empty (owner r)) && negb (str_empty (idempotency_key r))
  && bool_decide (ha r ∈ ALLOWED_HA) && negb (str_empty (restart_policy r))
  && in_i64 (epoch r) && in_i64 (incarnation_epoch r) && f64_is_finite (created_at r).

(** Two records that differ at most in the digits of floats. *)
Record record_agrees (r r' : CreateRecord) : Prop := mkRecordAgrees {
  agrees_sid : sid r' = sid r;
  agrees_owner : owner r' = owner r;
  agrees_epoch : epoch r' = epoch r;
  agrees_incarnation : incarnation_epoch r' = incarnation_epoch r;
  agrees_key : idempotency_key r' = idempotency_key r;
  agrees_ha : ha r' = ha r;
  agrees_policy : restart_policy r' = restart_policy r;
  agrees_params k : option_Forall2 reparsed (params r !! k) (params r' !! k);
  agrees_created : f64_is_finite (created_at r') = true }.

Lemma record_ok_iff r :
  record_ok r = true <->
  sid r <> ""%string /\ owner r <> ""%string /\ idempotency_key r <> ""%string /\
  ha r ∈ ALLOWED_HA /\ restart_policy r <> ""%string /\ in_i64 (epoch r) = true /\
  in_i64 (incarnation_epoch r) = true /\ f64_is_finite (created_at r) = true.
Proof.
  unfold record_ok. rewrite !andb_true_iff, !negb_true_iff, !str_empty_false, bool_decide_eq_true.
  tauto.
Qed.

Lemma allowed_ha_nonempty h : h ∈ ALLOWED_HA -> h <> ""%string.
Proof. intros Hh ->. by apply (bool_decide_pack _) in Hh. Qed.

Section wire.
Context `{Serde}.

Lemma non_empty_string_ok e s : s <> ""%string -> non_empty_string e s = Ok s.
Proof. intros Hs%str_empty_false. unfold non_empty_string. by rewrite Hs. Qed.

Lemma optional_string_ok s d : s <> ""%string -> optional_string (Some (JString s)) d = s.
Proof. intros Hs%str_empty_false. simpl. by rewrite Hs. Qed.

(** An object with the fields of a valid record is read as that record. *)
Lemma from_wire_map_fields now n r q y :
  record_ok r = true ->
  (forall k, k ∈ ["sid"; "owner"; "epoch"; "incarnation_epoch"; "idempotency_key"; "ha";
                  "restart_policy"]%string -> n !! k = to_wire_map r !! k) ->
  n !! "params"%string = Some (JObject q) ->
  n !! "created_at"%string = Some (JNumber (NFloat y)) -> f64_is_finite y = true ->
  from_wire_map now n =
  Ok (mkCreateRecord (sid r) q (owner r) (epoch r) (incarnation_epoch r) (idempotency_key r)
        (ha r) (restart_policy r) y).
Proof.
  intros (Hs & Ho & Hk & Hha & Hpol & He & Hi & Hf)%record_ok_iff Hn Hp Hc Hy.
  unfold from_wire_map, required_string, field.
  rewrite Hp, Hc, !Hn by by_decide.
  change (to_wire_map r !! "sid"%string) with (Some (JString (sid r))).
  change (to_wire_map r !! "owner"%string) with (Some (JString (owner r))).
  change (to_wire_map r !! "idempotency_key"%string) with (Some (JString (idempotency_key r))).
  change (to_wire_map r !! "epoch"%string) with (Some (JNumber (NInt (epoch r)))).
  change (to_wire_map r !! "incarnation_epoch"%string)
    with (Some (JNumber (NInt (incarnation_epoch r)))).
  change (to_wire_map r !! "ha"%string) with (Some (JString (ha r))).
  change (to_wire_map r !! "restart_policy"%string) with (Some (JString (restart_policy r))).
  cbn -[optional_string in_i64 non_empty_string create_record_new].
  rewrite He, Hi, !optional_string_ok by eauto using allowed_ha_nonempty.
  rewrite !non_empty_string_ok by done.
  cbn -[create_record_new]. unfold create_record_new. rewrite !non_empty_string_ok by done. cbn.
  rewrite bool_decide_eq_true_2 by done. cbn. by rewrite Hy.
Qed.

Lemma from_wire_to_wire now r : record_ok r = true -> from_wire now (to_wire r) = Ok r.
Proof.
  intros Hok. pose proof Hok as (_ & _ & _ & _ & _ & _ & _ & Hf)%record_ok_iff.
  unfold from_wire. cbn [as_object to_wire ok_or result_bind].
  rewrite (from_wire_map_fields now _ r (params r) (created_at r)); [by destruct r|done..| |done].
  change (Some (json_f64 (created_at r)) = Some (JNumber (NFloat (created_at r)))).
  unfold json_f64. by rewrite Hf.
Qed.

(** The same after the text form. *)
Lemma from_wire_reparsed r w :
  record_ok r = true -> reparsed (to_wire r) w ->
  exists r', (forall now, from_wire now w = Ok r') /\ record_agrees r r'.
Proof.
  intros Hok Hw. pose proof Hok as (_ & _ & _ & _ & _ & _ & _ & Hf)%record_ok_iff.
  apply reparsed_object_inv in Hw as (n & -> & Hn).
  pose proof (Hn "params"%string) as Hp. pose proof (Hn "created_at"%string) as Hc.
  apply reparsed_Some in Hp as (v & Hnp & (q & -> & Hq)%reparsed_object_inv).
  apply reparsed_Some in Hc as (v & Hnc & Hv).
  unfold json_f64 in Hv. rewrite Hf in Hv. apply reparsed_float_inv in Hv as (y & -> & Hy); [|done].
  eexists; split; [intros now; apply (from_wire_map_fields now n r q y); try done|by constructor].
  intros k Hk. pose proof (Hn k) as Hnk.
  repeat (apply elem_of_cons in Hk as [->|Hk]; [apply reparsed_Some in Hnk as (v & -> & Hv);
    by inversion Hv|]). by apply not_elem_of_nil in Hk.
Qed.
End wire.

(** ** Runs of the store *)

(** The operations that change the store, with their arguments. *)
Inductive record_op : Type :=
  | OpPut (io : bool) (r : CreateRecord)
  | OpPutIfNewer (io : bool) (r : CreateRecord)
  | OpRemember (r : CreateRecord) (v : option json)
  | OpForget (s : string)
  | OpUpdateOwner (io : bool) (s o : string) (e : Z)
  | OpClaimRestore (io : bool) (s expected_owner : string) (e : Z) (o : string) (pending : json)
  | OpCommitRestore (io : bool) (s o : string) (e : Z) (p : Params) (h policy : string)
  | OpReleaseRestore (io : bool) (s o : string) (e : Z) (previous : string) (pe : Z)
  | OpBegin (io : bool) (s source : string) (e : Z) (target token : string)
  | OpConfirm (io : bool) (s source : string) (e : Z) (target : string) (te : Z) (token : string)
  | OpClaim (io : bool) (source : string) (e : Z) (target token : string) (intent : CreateRecord)
  | OpAbort (io : bool) (s source : string) (e : Z) (target token : string)
  | OpCompleteAbort (io : bool) (s token o : string) (e : Z)
  | OpRemove (io : bool) (s : string).

(** The store after an operation; one that fails leaves it as it was. *)
Definition settle (st : RecordStore) (r : RResult RecordStore) : RecordStore :=
  match r with Ok st' => st' | Err _ => st end.

Definition exec `{Serde} (op : record_op) (st : RecordStore) : RecordStore :=
  settle st
    match op with
    | OpPut io r => RecordStore.put io r st
    | OpPutIfNewer io r => result_map snd (RecordStore.put_if_newer io r st)
    | OpRemember r v => Ok (RecordStore.remember_secrets r v st)
    | OpForget s => Ok (RecordStore.forget_secrets s st)
    | OpUpdateOwner io s o e => result_map snd (RecordStore.update_owner io s o e st)
    | OpClaimRestore io s x e o p =>
        result_map snd (RecordStore.claim_restore_pending io s x e o p st)
    | OpCommitRestore io s o e p h y =>
        result_map snd (RecordStore.commit_restore_pending io s o e p h y st)
    | OpReleaseRestore io s o e q qe =>
        result_map snd (RecordStore.release_restore_claim io s o e q qe st)
    | OpBegin io s a e b t => RecordStore.begin_migration_handoff io s a e b t st
    | OpConfirm io s a e b be t => RecordStore.confirm_migration_handoff io s a e b be t st
    | OpClaim io a e b t r => result_map snd (RecordStore.claim_migration_handoff io a e b t r st)
    | OpAbort io s a e b t => result_map snd (RecordStore.abort_migration_handoff io s a e b t st)
    | OpCompleteAbort io s t o e =>
        result_map snd (RecordStore.complete_migration_abort io s t o e st)
    | OpRemove io s => RecordStore.remove io s st
    end.

(** A new process on the same directory: the listing holds every [.json] file once, in any
    order, and other entries. *)
Definition listing (st : RecordStore) (l : list (bool * option (list Z))) : Prop :=
  base.filter (fun e => fst e = true) l ≡ₚ map (fun f => (true, Some (snd f))) (map_to_list (files st)).

Definition restart `{Serde} (now : f64) (l : list (bool * option (list Z))) (st : RecordStore)
  : RecordStore := RecordStore.load now (Some l) (RecordStore.new (files st)).

(** What the callers pass: integers of the type's range, records that [CreateRecord::new]
    built, owners that are not empty, tiers of [ALLOWED_HA]. *)
Definition op_ok (op : record_op) : bool :=
  match op with
  | OpPut _ r | OpPutIfNewer _ r | OpClaim _ _ _ _ _ r => record_ok r
  | OpUpdateOwner _ _ o e => negb (str_empty o) && in_i64 e
  | OpCommitRestore _ _ _ _ _ h y => bool_decide (h ∈ ALLOWED_HA) && negb (str_empty y)
  | _ => true
  end.

Inductive record_step `{Serde} : RecordStore -> RecordStore -> Prop :=
  | step_op op st : op_ok op = true -> record_step st (exec op st)
  | step_restart now l st : listing st l -> record_step st (restart now l st).

Definition record_reachable `{Serde} : RecordStore -> Prop :=
  rtc record_step (RecordStore.new ∅).

(** *** What one operation writes *)
Section effects.
Context `{Serde}.
Import RecordStore.

(** [st'] is [st] with [r] stored, in memory and on disk; the secrets may change. *)
Definition wrote (st : RecordStore) (r : CreateRecord) (st' : RecordStore) : Prop :=
  meta st' = <[sid r := r]> (meta st) /\
  files st' = <[sid r := to_vec (to_wire r) ++ [10]]> (files st).

Lemma store_secrets_public st r v :
  meta (store_secrets st r v) = meta st /\ files (store_secrets st r v) = files st.
Proof. unfold store_secrets. by repeat case_match. Qed.

Lemma persist_meta_wrote io st r st' : persist_meta io st r = Ok st' -> wrote st r st'.
Proof. unfold persist_meta, write_record. intros. destruct io; by inv_ok. Qed.

Lemma persist_meta_secrets_wrote io st r st' v :
  persist_meta io st r = Ok st' -> wrote st r (store_secrets st' r v).
Proof.
  intros [Hm Hf]%persist_meta_wrote. destruct (store_secrets_public st' r v).
  split; congruence.
Qed.

Lemma put_wrote io r st st' :
  put io r st = Ok st' -> wrote st (set_params r (delete SECRETS_FIELD (params r))) st'.
Proof.
  unfold put, write_record. simpl. intros. destruct io; inv_ok.
  split; simpl; by rewrite ?(proj1 (store_secrets_public _ _ _)).
Qed.

(** The record an operation stores when it stores one, from the record it found. *)
Definition stores (op : record_op) (st : RecordStore) (r : CreateRecord) : Prop :=
  match op with
  | OpPut _ x => r = set_params x (delete SECRETS_FIELD (params x))
  | OpPutIfNewer _ x =>
      (forall ex, meta st !! sid x = Some ex -> epoch ex <= epoch x) /\
      r = set_params x (delete SECRETS_FIELD (merged_params (meta st !! sid x) x))
  | OpUpdateOwner _ s o e => exists r0, meta st !! s = Some r0 /\
      r = set_params (set_owner_epoch r0 o e) (delete SECRETS_FIELD (params r0))
  | OpClaimRestore _ s _ e o p => exists r0, meta st !! s = Some r0 /\
      epoch r0 = e /\ o <> ""%string /\ in_i64 (e + 1) = true /\
      r = set_params (set_owner_epoch r0 o (e + 1)) (<[RESTORE_PENDING_FIELD := p]> (params r0))
  | OpCommitRestore _ s o e p h y => exists r0, meta st !! s = Some r0 /\ epoch r0 = e /\
      r = set_policy (set_params r0
            (fold_left (fun p k => delete k p) pending_fields (delete SECRETS_FIELD p))) h y
  | OpReleaseRestore _ s o e q qe => exists r0, meta st !! s = Some r0 /\
      epoch r0 = e /\ q <> ""%string /\ in_i64 (Z.max qe e + 1) = true /\
      r = set_owner_epoch (set_params r0 (delete RESTORE_PENDING_FIELD (params r0)))
            q (Z.max qe e + 1)
  | OpBegin _ s a e b t => exists r0, meta st !! s = Some r0 /\ epoch r0 = e /\
      r = set_params r0 (set_handoff (params r0) a b t "active" false)
  | OpConfirm _ s a e b be t => exists r0, meta st !! s = Some r0 /\ epoch r0 = e /\
      be = e + 1 /\ b <> ""%string /\ in_i64 be = true /\
      r = set_owner_epoch (set_params r0 (<[HANDOFF_CLAIMED_FIELD := JBool true]> (params r0))) b be
  | OpClaim _ a e b t x => exists r0, meta st !! sid x = Some r0 /\ epoch r0 = e /\
      epoch x = e + 1 /\
      r = set_params x (delete SECRETS_FIELD (set_handoff (params x) a b t "active" true))
  | OpAbort _ s a e b t => exists r0, meta st !! s = Some r0 /\ epoch r0 = e /\
      in_i64 (e + 1) = true /\ handoff_claimed (params r0) = false /\
      r = set_params (set_owner_epoch r0 (owner r0) (e + 1))
            (<[HANDOFF_STATE_FIELD := JString "aborted"]> (params r0))
  | OpCompleteAbort _ s t o e => exists r0, meta st !! s = Some r0 /\
      r = set_params r0 (clear_handoff (params r0))
  | OpRemember _ _ | OpForget _ | OpRemove _ _ => False
  end.

Lemma with_secrets_delete st r :
  delete SECRETS_FIELD (params (with_secrets st r)) = delete SECRETS_FIELD (params r).
Proof. unfold with_secrets. case_match; simpl; [by rewrite delete_insert_eq|done]. Qed.

(** Nothing changed, or one record was stored. *)
Definition kept_or_stored (op : record_op) (st st' : RecordStore) : Prop :=
  (meta st' = meta st /\ files st' = files st) \/ exists r, wrote st r st' /\ stores op st r.

Ltac stored :=
  match goal with
  | H : persist_meta _ _ _ = Ok _ |- _ =>
      right; eexists; split;
      [first [eapply persist_meta_wrote, H | eapply persist_meta_secrets_wrote, H]
      |subst; cbn; eauto 10]
  end.

Lemma put_if_newer_cases io x st a st' :
  put_if_newer io x st = Ok (a, st') -> kept_or_stored (OpPutIfNewer io x) st st'.
Proof.
  unfold put_if_newer. simpl. intros. case_match; open_op; [by left|]. stored.
  split; [|done]. intros ex Hex. rewrite Hex in *. by bool_to_prop.
Qed.

Lemma update_owner_cases io s o e st a st' :
  update_owner io s o e st = Ok (a, st') -> kept_or_stored (OpUpdateOwner io s o e) st st'.
Proof.
  unfold update_owner, get. destruct (meta st !! s) as [r|] eqn:Hs; simpl; intros; open_op; [|by left].
  right. eexists; split; [by eapply put_wrote|]. exists r; split; [done|].
  simpl. rewrite with_secrets_delete. unfold with_secrets. by case_match.
Qed.

Lemma claim_restore_cases io s x e o p st a st' :
  claim_restore_pending io s x e o p st = Ok (a, st') ->
  kept_or_stored (OpClaimRestore io s x e o p) st st'.
Proof. unfold claim_restore_pending. intros. open_op. case_match; open_op; [by left|stored]. Qed.

Lemma commit_restore_cases io s o e p h y st a st' :
  commit_restore_pending io s o e p h y st = Ok (a, st') ->
  kept_or_stored (OpCommitRestore io s o e p h y) st st'.
Proof. unfold commit_restore_pending. simpl. intros. open_op. stored. Qed.

Lemma release_restore_cases io s o e q qe st a st' :
  release_restore_claim io s o e q qe st = Ok (a, st') ->
  kept_or_stored (OpReleaseRestore io s o e q qe) st st'.
Proof.
  unfold release_restore_claim. intros. open_op. case_match; [|open_op; by left].
  case_match; open_op; [by left|stored].
Qed.

Lemma begin_cases io s a e b t st st' :
  begin_migration_handoff io s a e b t st = Ok st' ->
  kept_or_stored (OpBegin io s a e b t) st st'.
Proof.
  unfold begin_migration_handoff. intros. open_op. case_match; open_op; [by left|].
  case_match; open_op; [by left|stored].
Qed.

Lemma confirm_cases io s a e b be t st st' :
  confirm_migration_handoff io s a e b be t st = Ok st' ->
  kept_or_stored (OpConfirm io s a e b be t) st st'.
Proof.
  unfold confirm_migration_handoff. intros. open_op. case_match; open_op; [by left|stored].
Qed.

Lemma claim_cases io a e b t x st c st' :
  claim_migration_handoff io a e b t x st = Ok (c, st') ->
  kept_or_stored (OpClaim io a e b t x) st st'.
Proof.
  unfold claim_migration_handoff. simpl. intros. open_op. case_match; open_op; [by left|stored].
Qed.

Lemma abort_cases io s a e b t st c st' :
  abort_migration_handoff io s a e b t st = Ok (c, st') ->
  kept_or_stored (OpAbort io s a e b t) st st'.
Proof.
  unfold abort_migration_handoff. intros. open_op. case_match; [|open_op; by left].
  case_match; open_op; [by left|]. case_match; open_op; [by left|stored].
Qed.

Lemma complete_abort_cases io s t o e st a st' :
  complete_migration_abort io s t o e st = Ok (a, st') ->
  kept_or_stored (OpCompleteAbort io s t o e) st st'.
Proof. unfold complete_migration_abort. intros. open_op. stored. Qed.

Lemma settle_ind (P : RecordStore -> Prop) st r :
  P st -> (forall st', r = Ok st' -> P st') -> P (settle st r).
Proof. destruct r; simpl; auto. Qed.

Lemma settle_snd_ind {A} (P : RecordStore -> Prop) st (r : RResult (A * RecordStore)) :
  P st -> (forall a st', r = Ok (a, st') -> P st') -> P (settle st (result_map snd r)).
Proof. destruct r as [[]|]; simpl; eauto. Qed.

(** Every operation keeps the records, stores one, or removes one. *)
Lemma exec_cases op st :
  kept_or_stored op st (exec op st) \/
  exists io s, op = OpRemove io s /\ meta (exec op st) = delete s (meta st) /\
    files (exec op st) = delete s (files st).
Proof.
  assert (Hkept : kept_or_stored op st st) by by left.
  destruct op; unfold exec;
    try (destruct io; [right; by do 2 eexists|left; done]);
    try (left; apply settle_snd_ind; [done|intros a st' He];
      eauto using put_if_newer_cases, update_owner_cases, claim_restore_cases,
        commit_restore_cases, release_restore_cases, claim_cases, abort_cases,
        complete_abort_cases);
    try (left; apply settle_ind; [done|intros st' He; eauto using begin_cases, confirm_cases]).
  - right. eexists; split; [by eapply put_wrote|done].
  - simplify_eq. left. apply store_secrets_public.
  - simplify_eq. by left.
Qed.

End effects.

Lemma fold_delete_lookup k ks (p : Params) :
  fold_left (fun p k => delete k p) ks p !! k = if bool_decide (k ∈ ks) then None else p !! k.
Proof.
  revert p. induction ks as [|a ks IH]; intros p; simpl; [done|]. rewrite IH.
  destruct (decide (k = a)) as [->|Hne].
  - rewrite lookup_delete_eq, (bool_decide_eq_true_2 (a ∈ a :: ks)) by set_solver. by case_match.
  - rewrite lookup_delete_ne by done. by rewrite (bool_decide_ext (k ∈ a :: ks) (k ∈ ks)) by set_solver.
Qed.


(** Lookups through the updates of this file, whose keys are literals. *)
Ltac params_simpl :=
  unfold set_handoff, clear_handoff, handoff_fields, RecordStore.pending_fields;
  rewrite ?fold_delete_lookup;
  repeat first [rewrite lookup_insert_eq | rewrite lookup_delete_eq
               | rewrite lookup_insert_ne by done | rewrite lookup_delete_ne by done].

(** ** Well-formed stores *)
Section invariant.
Context `{Serde}.
Import RecordStore.

(** The text is read as a record that agrees with [r]. *)
Definition recovers (text : list Z) (r : CreateRecord) : Prop :=
  exists w r', from_str text = Some w /\ (forall now, from_wire now w = Ok r') /\ record_agrees r r'.

(** Records are valid, under their own id and without secrets; the directory holds exactly
    their files. *)
Record store_ok (st : RecordStore) : Prop := mkStoreOk {
  ok_meta s r : meta st !! s = Some r ->
    sid r = s /\ record_ok r = true /\ params r !! SECRETS_FIELD = None;
  ok_dom s : is_Some (files st !! s) <-> is_Some (meta st !! s);
  ok_file s r text : meta st !! s = Some r -> files st !! s = Some text -> recovers text r }.

Lemma to_vec_recovers r : record_ok r = true -> recovers (to_vec (to_wire r) ++ [10]) r.
Proof.
  intros Hok. destruct (from_str_to_vec (to_wire r)) as (w & Hw & Hr).
  destruct (from_wire_reparsed r w Hok Hr) as (r' & Hr' & Ha). by exists w, r'.
Qed.

Lemma record_agrees_ok r r' : record_agrees r r' -> record_ok r = true -> record_ok r' = true.
Proof.
  intros [Hs Ho He Hi Hk Hh Hp _ Hc]. rewrite !record_ok_iff, Hs, Ho, He, Hi, Hk, Hh, Hp. tauto.
Qed.

Lemma record_agrees_refl r : f64_is_finite (created_at r) = true -> record_agrees r r.
Proof. split; [done..| |done]. intros k. destruct (params r !! k); repeat constructor. Qed.

Lemma agrees_absent r r' k : record_agrees r r' -> params r !! k = None -> params r' !! k = None.
Proof. intros Ha Hk. pose proof (agrees_params _ _ Ha k) as Hp. rewrite Hk in Hp. by inversion Hp. Qed.

Lemma set_params_id r : set_params r (params r) = r.
Proof. by destruct r. Qed.

(** What is stored is valid and holds no secret. *)
Lemma stores_ok op st r :
  store_ok st -> op_ok op = true -> stores op st r ->
  record_ok r = true /\ params r !! SECRETS_FIELD = None.
Proof.
  intros Hst Hop Hr.
  assert (Hmeta : forall s r0, meta st !! s = Some r0 ->
    record_ok r0 = true /\ params r0 !! SECRETS_FIELD = None) by (intros; by eapply ok_meta).
  destruct op; simpl in Hr, Hop; destruct_and?;
    try (destruct Hr as (r0 & Hr0 & Hr); destruct (Hmeta _ _ Hr0) as [Hok0 Hsec0]);
    destruct_and?; subst; simpl; try done;
    (split;
     [rewrite record_ok_iff in *; simpl;
      rewrite ?andb_true_iff, ?negb_true_iff, ?str_empty_false, ?bool_decide_eq_true in *; tauto
     |by params_simpl]).
Qed.

Lemma wrote_ok st r st' :
  store_ok st -> record_ok r = true -> params r !! SECRETS_FIELD = None -> wrote st r st' ->
  store_ok st'.
Proof.
  intros [Hm Hd Hf] Hok Hsec [Hm' Hf']. split; rewrite Hm', ?Hf'; intros s.
  - intros r' [[<- <-]|[_ ?]]%lookup_insert_Some; auto.
  - rewrite !lookup_insert_is_Some, Hd. tauto.
  - intros r' text [[<- <-]|[Hne Hr']]%lookup_insert_Some Ht.
    + rewrite lookup_insert_eq in Ht. simplify_eq. by apply to_vec_recovers.
    + rewrite lookup_insert_ne in Ht by done. eauto.
Qed.

Lemma exec_store_ok op st : op_ok op = true -> store_ok st -> store_ok (exec op st).
Proof.
  intros Hop Hst. destruct (exec_cases op st) as [[[Hm Hf]|(r & Hw & Hr)]|(io & s & -> & Hm & Hf)].
  - destruct Hst. by split; rewrite Hm, ?Hf.
  - destruct (stores_ok op st r) as [??]; [done..|]. by eapply wrote_ok.
  - destruct Hst as [Hst Hd Hfile]. split; rewrite Hm, ?Hf; intros s'.
    + intros r [? ?]%lookup_delete_Some. auto.
    + rewrite !lookup_delete_is_Some, Hd. done.
    + intros r text [? ?]%lookup_delete_Some [? ?]%lookup_delete_Some. eauto.
Qed.

(** *** Loading *)

Definition json_entry (f : string * list Z) : bool * option (list Z) := (true, Some (snd f)).

Lemma load_skips_others now l m :
  fold_left (load_entry now) l m =
  fold_left (load_entry now) (base.filter (fun e => fst e = true) l) m.
Proof.
  revert m. induction l as [|[[] t] l IH]; intros m; [done| |].
  - rewrite filter_cons_True by done. simpl. apply IH.
  - rewrite filter_cons_False by done. simpl. apply IH.
Qed.

(** Files that hold valid records under their ids are all loaded, in whatever order. *)
Lemma load_entries_lookup now l m (rec : string -> CreateRecord) s :
  NoDup l.*1 ->
  (forall k t, (k, t) ∈ l -> exists w, from_str t = Some w /\ from_wire now w = Ok (rec k) /\
     sid (rec k) = k /\ params (rec k) !! SECRETS_FIELD = None) ->
  fold_left (load_entry now) (map json_entry l) m !! s =
  if bool_decide (s ∈ l.*1) then Some (rec s) else m !! s.
Proof.
  revert m. induction l as [|[k t] l IH]; intros m Hnd Hl; [done|].
  cbn [map fold_left]. apply NoDup_cons in Hnd as [Hk Hnd]. rewrite IH; [|done|set_solver].
  destruct (Hl k t) as (w & Hw & Hr & Hsid & Hsec); [set_solver|].
  unfold load_entry, json_entry. cbn [snd]. rewrite Hw, Hr. cbn -[bool_decide].
  rewrite delete_id, set_params_id, Hsid by done.
  destruct (decide (s = k)) as [->|Hne].
  - rewrite (bool_decide_eq_false_2 _ Hk), lookup_insert_eq, bool_decide_eq_true_2; set_solver.
  - rewrite lookup_insert_ne by done.
    by rewrite (bool_decide_ext (s ∈ k :: l.*1) (s ∈ l.*1)) by set_solver.
Qed.

(** The records a directory of recoverable files holds. *)
Lemma store_ok_decode st :
  store_ok st -> exists rec : string -> CreateRecord, forall s text, files st !! s = Some text ->
    exists w r, from_str text = Some w /\ (forall now, from_wire now w = Ok (rec s)) /\
      meta st !! s = Some r /\ record_agrees r (rec s).
Proof.
  intros Hst. pose (read text := match from_str text with Some w => from_wire f64_zero w | None => Err RecordIo end).
  exists (fun s => match read (default [] (files st !! s)) with
                   | Ok r => r
                   | Err _ => mkCreateRecord s ∅ "" 0 0 "" "" "" f64_zero end).
  intros s text Hs. destruct (proj1 (ok_dom st Hst s)) as [r Hr]; [by eexists|].
  destruct (ok_file st Hst s r text) as (w & r' & Hw & Hr' & Ha); [done..|].
  exists w, r. rewrite Hs. unfold read; simpl. rewrite Hw, Hr'. by split_and!.
Qed.

(** A restart finds every record again, under its file. *)
Lemma restart_lookup now l st s :
  store_ok st -> listing st l ->
  option_Forall2 (fun r r' => record_agrees r r' /\
      forall text, files st !! s = Some text -> recovers text r')
    (meta st !! s) (meta (restart now l st) !! s).
Proof.
  intros Hst Hl. destruct (store_ok_decode st Hst) as [rec Hrec].
  unfold restart, load. cbn [meta new]. rewrite load_skips_others.
  apply Permutation_map_inv in Hl as (l0 & -> & Hl0).
  assert (Hin : forall k t, (k, t) ∈ l0 <-> files st !! k = Some t)
    by (intros; by rewrite <- Hl0, elem_of_map_to_list).
  change (map _ l0) with (map json_entry l0). rewrite (load_entries_lookup now l0 _ rec).
  - assert (Hdom : s ∈ l0.*1 <-> is_Some (meta st !! s)).
    { rewrite <- (ok_dom st Hst). rewrite list_elem_of_fmap. unfold is_Some. split.
      - intros ([k t] & -> & Ht%Hin). eauto.
      - intros [t Ht%Hin]. by exists (s, t). }
    destruct (meta st !! s) as [r|] eqn:Hs.
    + rewrite bool_decide_eq_true_2 by (apply Hdom; eauto). constructor.
      destruct (proj2 (ok_dom st Hst s)) as [text Ht]; [by eexists|].
      destruct (Hrec s text Ht) as (w & r' & Hw & Hwire & Hr' & Ha). rewrite Hs in Hr'. simplify_eq.
      split; [done|]. intros text' ?. simplify_eq. exists w, (rec s).
      split_and!; [done..|]. apply record_agrees_refl. by eapply agrees_created.
    + rewrite bool_decide_eq_false_2, lookup_empty; [constructor|].
      rewrite Hdom. by intros [].
  - rewrite <- Hl0. apply NoDup_fst_map_to_list.
  - intros k t Ht%Hin. destruct (Hrec k t Ht) as (w & r & Hw & Hwire & Hr & Ha).
    destruct (ok_meta st Hst k r Hr) as (Hsid & _ & Hsec). exists w. split_and!; [done..| |].
    + by rewrite (agrees_sid _ _ Ha).
    + by eapply agrees_absent.
Qed.

Lemma restart_store_ok now l st : listing st l -> store_ok st -> store_ok (restart now l st).
Proof.
  intros Hl Hst.
  assert (Hlook := fun s => restart_lookup now l st s Hst Hl).
  split; intros s; [|change (files (restart now l st)) with (files st)..].
  - intros r' Hr'. specialize (Hlook s). rewrite Hr' in Hlook.
    inversion Hlook as [r ? [Ha _] Hr|]; subst.
    destruct (ok_meta st Hst s r) as (Hsid & Hok & Hsec); [done|]. split_and!.
    + by rewrite (agrees_sid _ _ Ha).
    + by eapply record_agrees_ok.
    + by eapply agrees_absent.
  - rewrite (ok_dom st Hst). destruct (Hlook s); [|done]. by rewrite !is_Some_alt.
  - intros r' text Hr' Ht. specialize (Hlook s). rewrite Hr' in Hlook.
    inversion Hlook as [r ? [_ Hrec] Hr|]; subst. by apply Hrec.
Qed.

Lemma store_ok_empty : store_ok (new ∅).
Proof. split; intros s; simpl; by rewrite ?lookup_empty. Qed.

Lemma reachable_store_ok st : record_reachable st -> store_ok st.
Proof.
  intros Hr. pose proof store_ok_empty as H0. revert H0.
  induction Hr as [|st1 st2 st3 [op st Hop|now l st Hl] _ IH]; intros Hst; [done| |];
    apply IH; [by apply exec_store_ok|by apply restart_store_ok].
Qed.

End invariant.

(** ** Secrets *)
Section secrecy.
Context `{Serde}.
Import RecordStore.

(** The same call without the secrets it carries. *)
Definition scrub_record (r : CreateRecord) : CreateRecord :=
  set_params r (delete SECRETS_FIELD (params r)).

Definition scrub (op : record_op) : record_op :=
  match op with
  | OpPut io r => OpPut io (scrub_record r)
  | OpPutIfNewer io r => OpPutIfNewer io (scrub_record r)
  | OpRemember r _ => OpRemember (scrub_record r) None
  | OpCommitRestore io s o e p h y => OpCommitRestore io s o e (delete SECRETS_FIELD p) h y
  | OpClaim io a e b t r => OpClaim io a e b t (scrub_record r)
  | op => op
  end.

Definition same_public (st st' : RecordStore) : Prop := meta st = meta st' /\ files st = files st'.

Lemma persist_meta_public io st st' r r' :
  same_public st st' -> r = r' ->
  match persist_meta io st r, persist_meta io st' r' with
  | Ok x, Ok y => same_public x y
  | Err a, Err b => a = b
  | _, _ => False
  end.
Proof. intros [Hm Hf] <-. unfold persist_meta, write_record. destruct io; simpl; [|done]. by rewrite Hm, Hf. Qed.

Lemma store_secrets_same st st' r r' v v' :
  same_public st st' -> same_public (store_secrets st r v) (store_secrets st' r' v').
Proof.
  intros [Hm Hf]. destruct (store_secrets_public st r v), (store_secrets_public st' r' v').
  split; congruence.
Qed.

Lemma fold_delete_comm k ks (p : Params) :
  fold_left (fun p k => delete k p) ks (delete k p) =
  delete k (fold_left (fun p k => delete k p) ks p).
Proof.
  apply map_eq. intros j. rewrite fold_delete_lookup. destruct (decide (j = k)) as [->|Hne].
  - rewrite !lookup_delete_eq. by case_match.
  - by rewrite !lookup_delete_ne, fold_delete_lookup by done.
Qed.

Lemma fold_insert_delete k (q : Params) ks p :
  k ∉ ks ->
  fold_left (inherit_field q) ks (delete k p) = delete k (fold_left (inherit_field q) ks p).
Proof.
  revert p. induction ks as [|a ks IH]; intros p Hk; [done|]. simpl. rewrite <- IH by set_solver.
  f_equal. unfold inherit_field. case_match; [|done]. by rewrite delete_insert_ne by set_solver.
Qed.

Lemma delete_twice k (p : Params) : delete k (delete k p) = delete k p.
Proof. apply delete_id, lookup_delete_eq. Qed.

Lemma delete_merged_params ex r :
  delete SECRETS_FIELD (merged_params ex (scrub_record r)) =
  delete SECRETS_FIELD (merged_params ex r).
Proof.
  unfold merged_params, clear_handoff. destruct ex as [ex|]; simpl params.
  2: by rewrite fold_delete_comm, delete_twice.
  rewrite !fold_delete_comm. unfold migration_committed, field.
  rewrite lookup_delete_ne by done. simpl owner. simpl epoch.
  repeat case_match; try done; rewrite ?fold_insert_delete by by_decide;
    by rewrite delete_twice.
Qed.

Lemma delete_set_handoff p a b t y c :
  delete SECRETS_FIELD (set_handoff (delete SECRETS_FIELD p) a b t y c) =
  delete SECRETS_FIELD (set_handoff p a b t y c).
Proof. unfold set_handoff. rewrite !delete_insert_ne by done. by rewrite delete_twice. Qed.

(** Both runs fail alike, or both succeed with the same records and files. *)
Definition same_outcome (x y : RResult RecordStore) : Prop :=
  match x, y with
  | Ok a, Ok b => same_public a b
  | Err a, Err b => a = b
  | _, _ => False
  end.

Lemma settle_same st st' x y :
  same_public st st' -> same_outcome x y -> same_public (settle st x) (settle st' y).
Proof. destruct x, y; simpl; tauto. Qed.

Lemma put_same io r r' st st' :
  same_public st st' -> scrub_record r = scrub_record r' ->
  same_outcome (put io r st) (put io r' st').
Proof.
  intros [Hm Hf] Hr. unfold put. cbn [split_secrets].
  unfold scrub_record in Hr. rewrite Hr. unfold write_record.
  destruct io; simpl; [|done].
  split; simpl; rewrite ?(proj1 (store_secrets_public _ _ _)); congruence.
Qed.

Lemma scrub_record_idem r : scrub_record (scrub_record r) = scrub_record r.
Proof. unfold scrub_record. simpl. by rewrite delete_twice. Qed.

(** Two runs of one operation from stores with the same records: every test has the same
    answer, and what is persisted is the same. *)
Ltac same_run io Hm :=
  unfold current, persist_meta, write_record; rewrite <- ?Hm; destruct io; simpl;
  repeat (match goal with
  | |- same_outcome (result_map _ (result_bind ?e _)) _ => destruct e; simpl; [|done]
  | |- same_outcome (result_bind ?e _) _ => destruct e; simpl; [|done]
  | |- same_outcome (result_map _ (match ?e with _ => _ end)) _ => destruct e eqn:?; simpl
  | |- same_outcome (if ?e then _ else _) _ => destruct e eqn:?; simpl
  end; try done);
  try (first [apply store_secrets_same|idtac]; split; simpl; congruence).

Lemma put_if_newer_same io r st st' :
  same_public st st' ->
  same_outcome (result_map snd (put_if_newer io r st))
    (result_map snd (put_if_newer io (scrub_record r) st')).
Proof.
  intros [Hm Hf]. unfold put_if_newer. cbn [split_secrets]. rewrite delete_merged_params.
  simpl sid. simpl epoch. rewrite <- Hm. unfold scrub_record, set_params; simpl.
  same_run io Hm.
Qed.

Lemma claim_same io a e b t r st st' :
  same_public st st' ->
  same_outcome (result_map snd (claim_migration_handoff io a e b t r st))
    (result_map snd (claim_migration_handoff io a e b t (scrub_record r) st')).
Proof.
  intros [Hm Hf]. unfold claim_migration_handoff. cbn [split_secrets scrub_record set_params params].
  rewrite delete_set_handoff. unfold set_params; simpl. same_run io Hm.
Qed.

Lemma update_owner_same io s o e st st' :
  same_public st st' ->
  same_outcome (result_map snd (update_owner io s o e st))
    (result_map snd (update_owner io s o e st')).
Proof.
  intros Hp. pose proof Hp as [Hm Hf]. unfold update_owner, get. rewrite <- Hm.
  destruct (meta st !! s) as [r|]; simpl; [|done].
  assert (Hput := put_same io (set_owner_epoch (with_secrets st r) o e)
    (set_owner_epoch (with_secrets st' r) o e) st st' Hp).
  destruct (put io _ st), (put io _ st'); apply Hput;
    unfold scrub_record; simpl; rewrite !with_secrets_delete;
    unfold with_secrets; by repeat case_match.
Qed.

Lemma exec_scrub op st st' :
  same_public st st' -> same_public (exec op st) (exec (scrub op) st').
Proof.
  intros Hp. pose proof Hp as [Hm Hf]. unfold exec. apply settle_same; [done|].
  destruct op; simpl scrub; cbv iota.
  - apply put_same; [done|]. by rewrite scrub_record_idem.
  - by apply put_if_newer_same.
  - by apply store_secrets_same.
  - done.
  - by apply update_owner_same.
  - unfold claim_restore_pending. same_run io Hm.
  - unfold commit_restore_pending. cbn [split_secrets]. rewrite delete_twice. same_run io Hm.
  - unfold release_restore_claim. same_run io Hm.
  - unfold begin_migration_handoff. same_run io Hm.
  - unfold confirm_migration_handoff. same_run io Hm.
  - by apply claim_same.
  - unfold abort_migration_handoff. same_run io Hm.
  - unfold complete_migration_abort. same_run io Hm.
  - unfold remove. same_run io Hm.
Qed.

End secrecy.

(** ** The store as a whole *)
Section guarantees.
Context `{Serde}.
Import RecordStore.

Lemma with_secrets_none st r : secrets st = ∅ -> with_secrets st r = r.
Proof. intros Hs. unfold with_secrets, secret_values. by rewrite Hs, lookup_empty. Qed.

(** C37: In every state the store can reach, through failing writes and restarts, a record in
    memory is valid, is kept under its own id and carries no secrets, and its file is read
    back as a record that agrees with it and carries none either; no other file exists. *)
Theorem record_store_well_formed st s :
  record_reachable st ->
  match meta st !! s, files st !! s with
  | Some r, Some text =>
      sid r = s /\ record_ok r = true /\ params r !! SECRETS_FIELD = None /\
      exists w r', from_str text = Some w /\ (forall now, from_wire now w = Ok r') /\
        record_agrees r r' /\ params r' !! SECRETS_FIELD = None
  | None, None => True
  | _, _ => False
  end.
Proof.
  intros Hst%reachable_store_ok. pose proof (ok_dom st Hst s) as Hdom.
  destruct (meta st !! s) as [r|] eqn:Hr, (files st !! s) as [text|] eqn:Ht; [| | |done].
  - destruct (ok_meta st Hst s r Hr) as (Hs & Hok & Hsec).
    destruct (ok_file st Hst s r text Hr Ht) as (w & r' & Hw & Hr' & Ha).
    split_and!; [done..|]. exists w, r'. eauto using agrees_absent.
  - destruct (proj2 Hdom) as [? [=]]. by eexists.
  - destruct (proj1 Hdom) as [? [=]]. by eexists.
Qed.

(** A process that starts on the directory another one left, however the directory is
    listed, has that one's records up to the digits of floats, and none of its secrets. *)
Lemma restart_recovers_records now l st s :
  record_reachable st -> listing st l ->
  option_Forall2 record_agrees (meta st !! s) (meta (restart now l st) !! s) /\
  secrets (restart now l st) = ∅ /\
  (forall r, get s (restart now l st) = Some r -> params r !! SECRETS_FIELD = None).
Proof.
  intros Hst%reachable_store_ok Hl. pose proof (restart_lookup now l st s Hst Hl) as Hlook.
  split_and!; [|done|].
  - destruct Hlook as [?? []|]; by constructor.
  - pose proof (restart_store_ok now l st Hl Hst) as Hst'. intros r Hg. unfold get in Hg.
    destruct (meta (restart now l st) !! s) as [r'|] eqn:Hr'; [|discriminate Hg].
    injection Hg as <-. rewrite with_secrets_none by done. by eapply ok_meta.
Qed.

(** C23: Secrets never reach the disk: two runs of the daemon whose calls differ only in the
    secrets they carry leave the same files and the same records in memory. *)
Theorem secrets_never_written ops ops' st st' :
  scrub <$> ops = scrub <$> ops' -> same_public st st' ->
  let run := fold_left (fun st op => exec op st) in
  files (run ops st) = files (run ops' st') /\ meta (run ops st) = meta (run ops' st').
Proof.
  intros Hops Hst run.
  assert (Hrun : forall ops st st', same_public st st' ->
    same_public (run ops st) (run (scrub <$> ops) st')).
  { clear. intros ops. induction ops as [|op ops IH]; intros st st' Hst; [done|]. simpl.
    by apply IH, exec_scrub. }
  pose proof (Hrun ops st st' Hst) as [Hm Hf]. pose proof (Hrun ops' st' st') as [Hm' Hf']; [done|].
  rewrite <- Hops in Hm', Hf'. split; congruence.
Qed.

(** Two acknowledged writes among three or more members share a member. *)
Lemma record_acks_majority n live : 3 <= n -> n < 2 * required_record_acks n live.
Proof. intros. unfold required_record_acks. destruct (Z.leb_spec n 2); [lia|]. divlia. Qed.

End guarantees.

(** ** Examples *)
Module RecordExamples.
Import RecordStore.
#[local] Existing Instance number_serde.
Local Open Scope string_scope.

Definition demo_params : Params :=
  <["rootfs" := JString "disk.img"]> (<[SECRETS_FIELD := JArray [JString "token"]]> ∅).
Definition demo_record : CreateRecord :=
  mkCreateRecord "sb" demo_params "a" 7 7 "key" "async" "none" (f64_of_Z 1000).
Definition demo_ops : list record_op :=
  [OpPut true demo_record; OpBegin true "sb" "a" 7 "b" "tok"].
Definition demo_store : RecordStore := fold_left (fun st op => exec op st) demo_ops (new ∅).
Definition demo_aborted : RecordStore := exec (OpAbort true "sb" "a" 7 "b" "tok") demo_store.
Definition demo_text : list Z := default [] (files demo_store !! "sb").

Lemma demo_reachable : record_reachable demo_store.
Proof.
  unfold demo_store, demo_ops. cbn [fold_left].
  eapply rtc_l; [apply (step_op (OpPut true demo_record)); vm_compute; reflexivity|].
  eapply rtc_l; [apply (step_op (OpBegin true "sb" "a" 7 "b" "tok")); reflexivity|]. constructor.
Defined.

Lemma record_store_well_formed_witness :
  match meta demo_store !! "sb", files demo_store !! "sb" with
  | Some r, Some text =>
      sid r = "sb" /\ record_ok r = true /\ params r !! SECRETS_FIELD = None /\
      exists w r', from_str text = Some w /\ (forall now, from_wire now w = Ok r') /\
        record_agrees r r' /\ params r' !! SECRETS_FIELD = None
  | None, None => True
  | _, _ => False
  end.
Proof. exact (record_store_well_formed demo_store "sb" demo_reachable). Defined.

Lemma secrets_never_written_witness :
  files (exec (OpPut true demo_record) (new ∅)) =
  files (exec (OpPut true (scrub_record demo_record)) (new ∅)).
Proof.
  apply (secrets_never_written [OpPut true demo_record] [OpPut true (scrub_record demo_record)]
    (new ∅) (new ∅)); [vm_compute; reflexivity|split; reflexivity].
Defined.

End RecordExamples.
