(* ===== verification/MeshHandoff.v ===== *)
(** The hand-over of a sandbox between nodes, over the records of [vmond/src/mesh/record.rs]
    ([MeshRecord]): an authorization under an epoch and a token is consumed or revoked, never
    both, through everything else that may happen to the store, and calls can be repeated. *)

From S2P Require Import Prelude F64 Json MeshRecord.

(** ** The hand-over protocol *)
Section handoff.
Context `{Serde}.
Import RecordStore.

Definition no_handoff (p : Params) : Prop := forall k, k ∈ handoff_fields -> p !! k = None.

(** Each field of the hand-over is gone or reads as before. *)
Definition inherits (p p' : Params) : Prop := forall k, k ∈ handoff_fields ->
  (field p' k as_str = None \/ field p' k as_str = field p k as_str) /\
  (field p' k as_bool = None \/ field p' k as_bool = field p k as_bool).

(** How a record may be replaced: under a higher epoch, or under the same one with a new
    unclaimed authorization, with the old one, or with none. *)
Definition advances (r r' : CreateRecord) : Prop :=
  epoch r < epoch r' \/
  (epoch r' = epoch r /\
   ((handoff_claimed (params r') = false /\ handoff_state (params r') = Some "active"%string) \/
    (owner r' = owner r /\ inherits (params r) (params r')) \/
    no_handoff (params r'))).

(** The operations that respect the protocol for the sandbox [s].  [put] and [update_owner] overwrite a record as they
    are told: with one that advances it, or under a higher epoch; so they do not bring back a hand-over that
    the store does not have any more.  The parameters that a restore commits carry no hand-over, or that of the record.  The
    record is not removed. *)
Definition respects (s : string) (op : record_op) (st : RecordStore) : Prop :=
  match op with
  | OpPut _ x => sid x = s -> forall r, meta st !! s = Some r -> advances r x
  | OpUpdateOwner _ s' _ e => s' = s -> forall r, meta st !! s = Some r -> epoch r < e
  | OpRemove _ s' => s' <> s
  | OpCommitRestore _ s' _ _ p _ _ => s' = s -> forall r, meta st !! s = Some r -> no_handoff p \/ inherits (params r) p
  | _ => True
  end.

Inductive handoff_step (s : string) : RecordStore -> RecordStore -> Prop :=
  | handoff_op op st : op_ok op = true -> respects s op st -> handoff_step s st (exec op st)
  | handoff_restart now l st : listing st l -> handoff_step s st (restart now l st).

Lemma inherits_lookup p p' :
  (forall k, k ∈ handoff_fields -> p' !! k = None \/ p' !! k = p !! k) -> inherits p p'.
Proof.
  intros Hp k Hk. unfold field. destruct (Hp k Hk) as [->| ->]; simpl; auto.
Qed.

Lemma inherits_refl p : inherits p p.
Proof. apply inherits_lookup. auto. Qed.

Lemma advances_refl r : advances r r.
Proof. right. split; [done|]. right; left. split; [done|apply inherits_refl]. Qed.

Lemma fold_inherit_lookup (q : Params) ks p k :
  fold_left (inherit_field q) ks p !! k =
  if bool_decide (k ∈ ks) then match q !! k with Some v => Some v | None => p !! k end else p !! k.
Proof.
  revert p. induction ks as [|a ks IH]; intros p; simpl; [done|]. rewrite IH. unfold inherit_field.
  destruct (decide (k = a)) as [->|Hne].
  - rewrite (bool_decide_eq_true_2 (a ∈ a :: ks)) by set_solver.
    destruct (q !! a) eqn:?; rewrite ?lookup_insert_eq; by case_match.
  - rewrite (bool_decide_ext (k ∈ a :: ks) (k ∈ ks)) by set_solver.
    destruct (q !! a); by rewrite ?lookup_insert_ne by done.
Qed.

Lemma clear_handoff_none p : no_handoff (clear_handoff p).
Proof. intros k Hk. unfold clear_handoff. by rewrite fold_delete_lookup, bool_decide_eq_true_2. Qed.

Lemma handoff_not_secret k : k ∈ handoff_fields -> k <> SECRETS_FIELD.
Proof. intros Hk ->. by apply (bool_decide_pack _) in Hk. Qed.

Lemma no_handoff_delete k p : no_handoff p -> no_handoff (delete k p).
Proof. intros Hp j Hj. apply lookup_delete_None. auto. Qed.

(** Replication under an equal epoch does not bring a hand-over of its own. *)
Lemma merged_params_handoff ex x :
  (owner x = owner ex /\ epoch x = epoch ex /\
    forall k, k ∈ handoff_fields -> merged_params (Some ex) x !! k = params ex !! k) \/
  no_handoff (merged_params (Some ex) x).
Proof.
  unfold merged_params. case_match; [|right; apply clear_handoff_none].
  bool_to_prop. left. split_and!; [done..|]. intros k Hk. case_match; [done|].
  rewrite fold_inherit_lookup, bool_decide_eq_true_2, clear_handoff_none by done. by case_match.
Qed.

Lemma handoff_present_false p : handoff_present p = false <-> no_handoff p.
Proof.
  unfold handoff_present, no_handoff. rewrite <- not_true_iff_false, existsb_exists. split.
  - intros Hn k Hk. apply eq_None_not_Some. intros Hs. apply Hn. exists k.
    rewrite <- list_elem_of_In. by rewrite bool_decide_eq_true.
  - intros Hn (k & Hk & Hs). apply list_elem_of_In in Hk. rewrite bool_decide_eq_true, Hn in Hs by done.
    by destruct Hs.
Qed.

Lemma set_handoff_claimed p a b t y c : handoff_claimed (set_handoff p a b t y c) = c.
Proof. unfold handoff_claimed, set_handoff, field. rewrite lookup_insert_eq. by destruct c. Qed.

Lemma set_handoff_state p a b t y c : handoff_state (set_handoff p a b t y c) = Some y.
Proof. unfold handoff_state, set_handoff, field. by rewrite lookup_insert_ne, lookup_insert_eq by done. Qed.

Lemma set_handoff_matches p a b t y c : handoff_matches (set_handoff p a b t y c) a b t = true.
Proof.
  unfold handoff_matches, field. params_simpl. cbn. by rewrite !bool_decide_eq_true_2.
Qed.

(** Deleting a field brings no hand-over. *)
Lemma inherits_delete k p p' : inherits p p' -> inherits p (delete k p').
Proof.
  intros Hp j Hj. unfold field. destruct (decide (k = j)) as [->|Hne]; [rewrite lookup_delete_eq; by auto|].
  rewrite lookup_delete_ne by done. by apply Hp.
Qed.

Lemma advances_public r x : advances r x -> advances r (set_params x (delete SECRETS_FIELD (params x))).
Proof.
  unfold advances. cbn [epoch owner params set_params]. intros [He|(He & [[Hc Hs]|[[Ho Hi]|Hn]])]; [by left|right; split; [done|]..].
  - left. unfold handoff_claimed, handoff_state, field in *. by rewrite !lookup_delete_ne by done.
  - right; left. split; [done|]. by apply inherits_delete.
  - right; right. by apply no_handoff_delete.
Qed.

(** Every operation of the protocol replaces a record by one that advances it. *)
Lemma stores_advances op st x r :
  respects (sid x) op st -> stores op st x -> meta st !! sid x = Some r ->
  (forall s r, meta st !! s = Some r -> sid r = s) -> advances r x.
Proof.
  intros Hsafe Hx Hr Hsid. destruct op as [|io y| | | |? s|? s| ? s| ? s|? s|? ? ? ? ? y|? s|? s|]; simpl in Hx; try done;
    try (destruct Hx as (r0 & Hr0 & Hx); pose proof (Hsid _ _ Hr0) as Hs0); destruct_and?; subst x; simpl in *.
  all: try (assert (r0 = r) as -> by (subst; simpl in *; congruence)).
  all: try (left; simpl; lia).
  - apply advances_public. by apply Hsafe.
  - rewrite Hr. destruct (Z.eq_dec (epoch r) (epoch y)) as [He|];
      [right; split; [done|]|left; specialize (H0 _ Hr); simpl; lia].
    destruct (merged_params_handoff r y) as [(Ho & _ & Hk)|Hn];
      [right; left; split; [done|]|right; right; by apply no_handoff_delete].
    apply inherits_lookup. intros k Hkf. right. simpl.
    rewrite lookup_delete_ne by (symmetry; by apply handoff_not_secret). auto.
  - left. cbn. by apply Hsafe.
  - right. split; [done|]. right. destruct (Hsafe (eq_sym Hs0) r Hr) as [Hn|Hi]; [right|left; split; [done|]].
    + by repeat apply no_handoff_delete.
    + by repeat apply inherits_delete.
  - right. split; [done|]. left. cbn [params set_params].
    by rewrite set_handoff_claimed, set_handoff_state.
  - right. split; [done|]. right; right. apply clear_handoff_none.
Qed.

Lemma exec_advances s op st r :
  store_ok st -> respects s op st -> meta st !! s = Some r ->
  exists r', meta (exec op st) !! s = Some r' /\ advances r r'.
Proof.
  intros Hst Hsafe Hr.
  destruct (exec_cases op st) as [[[-> _]|(x & [-> _] & Hx)]|(io & s' & -> & -> & _)].
  - eexists; split; [done|apply advances_refl].
  - destruct (decide (sid x = s)) as [<-|Hne].
    + rewrite lookup_insert_eq. eexists; split; [done|]. eapply stores_advances; [done..|].
      intros s0 r0 Hr0. by apply (ok_meta st Hst).
    + rewrite lookup_insert_ne by done. eexists; split; [done|apply advances_refl].
  - rewrite lookup_delete_ne by done. eexists; split; [done|apply advances_refl].
Qed.

Lemma agrees_inherits r r' : record_agrees r r' -> inherits (params r) (params r').
Proof.
  intros Ha k _. pose proof (agrees_params _ _ Ha) as Hp.
  split; right; apply reparsed_field; auto using reparsed_as_str, reparsed_as_bool.
Qed.

Lemma handoff_step_advances s st st' r :
  store_ok st -> handoff_step s st st' -> meta st !! s = Some r ->
  store_ok st' /\ exists r', meta st' !! s = Some r' /\ advances r r'.
Proof.
  intros Hst Hstep Hr. destruct Hstep as [op st Hok Hsafe|now l st Hl].
  - split; [by apply exec_store_ok|by apply exec_advances].
  - split; [by apply restart_store_ok|].
    pose proof (restart_lookup now l st s Hst Hl) as Hlook. rewrite Hr in Hlook.
    inversion Hlook as [? r' [Ha _] |]; subst. exists r'. split; [done|]. right.
    split; [by apply agrees_epoch|]. right; left. split; [by apply agrees_owner|by apply agrees_inherits].
Qed.

(** *** Who may still act on an authorization *)




Lemma handoff_matches_true p a b t :
  handoff_matches p a b t = true <->
  field p HANDOFF_SOURCE_FIELD as_str = Some a /\ field p HANDOFF_TARGET_FIELD as_str = Some b /\
  field p HANDOFF_TOKEN_FIELD as_str = Some t.
Proof. unfold handoff_matches. rewrite !andb_true_iff, !bool_decide_eq_true. tauto. Qed.



Lemma no_handoff_matches p a b t : no_handoff p -> handoff_matches p a b t = false.
Proof.
  intros Hn. apply not_true_iff_false. rewrite handoff_matches_true. intros [Hs _].
  unfold field in Hs. rewrite Hn in Hs; [done|]. by_decide.
Qed.



Lemma advances_epoch r r' : advances r r' -> epoch r <= epoch r'.
Proof. intros [|[]]; lia. Qed.



Lemma persist_meta_lookup io st r st' : persist_meta io st r = Ok st' -> meta st' !! sid r = Some r.
Proof. intros [-> _]%persist_meta_wrote. apply lookup_insert_eq. Qed.








(** Along the protocol the epoch of a record never goes back. *)
Lemma record_epoch_monotone s st st' r :
  store_ok st -> rtc (handoff_step s) st st' -> meta st !! s = Some r ->
  exists r', meta st' !! s = Some r' /\ epoch r <= epoch r'.
Proof.
  intros Hst Hsteps. revert r. induction Hsteps as [|st1 st2 st3 Hstep _ IH]; intros r Hr.
  { eexists; split; [done|lia]. }
  destruct (handoff_step_advances s st1 st2 r) as (Hst2 & r2 & Hr2 & Ha); [done..|].
  destruct (IH Hst2 r2 Hr2) as (r3 & Hr3 & He). exists r3. split; [done|].
  apply advances_epoch in Ha. lia.
Qed.

(** *** Retries *)

Lemma set_handoff_present p a b t y c : handoff_present (set_handoff p a b t y c) = true.
Proof.
  destruct (handoff_present _) eqn:Hp; [done|]. apply handoff_present_false in Hp.
  by rewrite <- (set_handoff_matches p a b t y c), no_handoff_matches.
Qed.

(** The other fields do not matter to a match. *)
Lemma handoff_matches_other p a b t k v :
  k ∉ [HANDOFF_SOURCE_FIELD; HANDOFF_TARGET_FIELD; HANDOFF_TOKEN_FIELD] ->
  handoff_matches (<[k := v]> p) a b t = handoff_matches p a b t.
Proof. intros Hk. unfold handoff_matches, field. by rewrite !lookup_insert_ne by set_solver. Qed.

Lemma handoff_matches_delete p a b t :
  handoff_matches (delete SECRETS_FIELD p) a b t = handoff_matches p a b t.
Proof. unfold handoff_matches, field. by rewrite !lookup_delete_ne by done. Qed.

Lemma handoff_claimed_delete p : handoff_claimed (delete SECRETS_FIELD p) = handoff_claimed p.
Proof. unfold handoff_claimed, field. by rewrite lookup_delete_ne by done. Qed.

Ltac open_both :=
  repeat match goal with
  | H : context [result_bind ?e _] |- context [result_bind ?e _] =>
      destruct e eqn:?; cbn [result_bind] in *; [|done]
  end.

Lemma begin_retry io io' s a e b t st st' :
  (forall s r, meta st !! s = Some r -> sid r = s) ->
  begin_migration_handoff io s a e b t st = Ok st' ->
  begin_migration_handoff io' s a e b t st' = Ok st'.
Proof.
  intros Hsid Hb. unfold begin_migration_handoff, current in *. open_both.
  destruct (meta st !! s) as [r|] eqn:Hr; cbn [ok_or result_bind] in *; [|done].
  destruct (ok_or (i64_checked_add e 1) _) as [te|]; cbn [result_bind] in *; [|done].
  destruct (_ && handoff_claimed (params r)) eqn:Hdone; [simplify_eq; rewrite Hr; simpl; by rewrite Hdone|].
  destruct (negb _ || negb _) eqn:Hlost; [done|].
  destruct (handoff_present (params r)) eqn:Hp.
  - destruct (_ && _) eqn:Hm in Hb; [|done]. simplify_eq. rewrite Hr. simpl. by rewrite Hdone, Hlost, Hp, Hm.
  - apply persist_meta_lookup in Hb. cbn [sid set_params] in Hb. rewrite (Hsid _ _ Hr) in Hb. rewrite Hb.
    cbn [ok_or result_bind owner epoch params set_params].
    rewrite set_handoff_claimed, andb_false_r, Hlost, set_handoff_matches, set_handoff_state.
    rewrite bool_decide_eq_true_2 by done.
    by rewrite set_handoff_present.
Qed.

Lemma confirm_retry io io' s a e b te t st st' :
  (forall s r, meta st !! s = Some r -> sid r = s) ->
  confirm_migration_handoff io s a e b te t st = Ok st' ->
  confirm_migration_handoff io' s a e b te t st' = Ok st'.
Proof.
  intros Hsid Hb. unfold confirm_migration_handoff, current in *. open_both.
  destruct (negb _) eqn:Hte in Hb |- *; [done|].
  destruct (meta st !! s) as [r|] eqn:Hr; cbn [ok_or result_bind] in *; [|done].
  destruct (_ && handoff_claimed (params r)) eqn:Hdone; [simplify_eq; rewrite Hr; simpl; by rewrite Hdone|].
  destruct (negb _ || _ || _ || _) eqn:Hf; [done|]. bool_to_prop.
  apply persist_meta_lookup in Hb. cbn [sid set_params set_owner_epoch] in Hb. rewrite (Hsid _ _ Hr) in Hb. rewrite Hb.
  cbn [ok_or result_bind owner epoch params set_params set_owner_epoch].
  rewrite String.eqb_refl, Z.eqb_refl, handoff_matches_other by by_decide.
  unfold handoff_claimed, field. rewrite lookup_insert_eq. cbn.
  match goal with Hm : handoff_matches _ _ _ _ = true |- _ => by rewrite Hm end.
Qed.

Lemma claim_retry io io' a e b t x st r st' :
  (forall s r, meta st !! s = Some r -> sid r = s) ->
  claim_migration_handoff io a e b t x st = Ok (r, st') ->
  claim_migration_handoff io' a e b t x st' = Ok (r, st').
Proof.
  intros Hsid Hb. unfold claim_migration_handoff, current in *. open_both.
  destruct (negb _ || negb _) eqn:Hte in Hb |- *; [done|]. bool_to_prop.
  destruct (meta st !! sid x) as [r0|] eqn:Hr; cbn [ok_or result_bind] in *; [|done].
  destruct (_ && handoff_claimed (params r0)) eqn:Hdone; [simplify_eq; rewrite Hr; simpl; by rewrite Hdone|].
  destruct (negb _ || _) eqn:Hf in Hb; [done|]. destruct (_ && _) eqn:Hp in Hb; [done|].
  cbn [split_secrets] in Hb. inv_ok.
  match goal with Hp : persist_meta _ _ _ = Ok _ |- _ => apply persist_meta_lookup in Hp as Hl end.
  cbn [sid set_params] in Hl. rewrite (proj1 (store_secrets_public _ _ _)), Hl.
  cbn [ok_or result_bind owner epoch params set_params].
  rewrite handoff_matches_delete, handoff_claimed_delete, set_handoff_matches, set_handoff_claimed, Z.eqb_refl.
  match goal with Ho : String.eqb (owner x) b = true |- _ => by rewrite Ho end.
Qed.

Lemma abort_retry io io' s a e b t st r st' :
  (forall s r, meta st !! s = Some r -> sid r = s) ->
  abort_migration_handoff io s a e b t st = Ok (Some r, st') ->
  abort_migration_handoff io' s a e b t st' = Ok (Some r, st').
Proof.
  intros Hsid Hb. unfold abort_migration_handoff in *. open_both.
  destruct (meta st !! s) as [r0|] eqn:Hr; [|done].
  destruct (_ && _) eqn:Hdone in Hb; [simplify_eq; rewrite Hr; simpl; by rewrite Hdone|].
  destruct (_ || _) eqn:Hf in Hb; [done|]. inv_ok. bool_to_prop.
  match goal with Hp : persist_meta _ _ _ = Ok _ |- _ => apply persist_meta_lookup in Hp as Hl end.
  cbn [sid set_params set_owner_epoch] in Hl. rewrite (Hsid _ _ Hr) in Hl. rewrite Hl.
  cbn [owner epoch params set_params set_owner_epoch].
  rewrite Z.eqb_refl, handoff_matches_other by by_decide.
  rewrite bool_decide_eq_true_2 by (unfold handoff_state, field; by rewrite lookup_insert_eq).
  match goal with Ho : String.eqb _ a = true, Hm : handoff_matches _ _ _ _ = true |- _ =>
    by rewrite Ho, Hm end.
Qed.

(** A hand-over call that is repeated after it succeeded succeeds again with the same
    answer and changes nothing, even when the disk no longer takes writes. *)
Lemma handoff_retry_idempotent io io' s a e b te t x st st' :
  store_ok st ->
  (begin_migration_handoff io s a e b t st = Ok st' ->
   begin_migration_handoff io' s a e b t st' = Ok st') /\
  (confirm_migration_handoff io s a e b te t st = Ok st' ->
   confirm_migration_handoff io' s a e b te t st' = Ok st') /\
  (forall r, claim_migration_handoff io a e b t x st = Ok (r, st') ->
   claim_migration_handoff io' a e b t x st' = Ok (r, st')) /\
  (forall r, abort_migration_handoff io s a e b t st = Ok (Some r, st') ->
   abort_migration_handoff io' s a e b t st' = Ok (Some r, st')).
Proof.
  intros Hst. pose proof (fun s r Hr => proj1 (ok_meta st Hst s r Hr)) as Hsid.
  split_and!; eauto using begin_retry, confirm_retry, claim_retry, abort_retry.
Qed.
End handoff.

(** ** Examples *)
Module HandoffExamples.
Import RecordStore RecordExamples.
#[local] Existing Instance number_serde.
Local Open Scope string_scope.



End HandoffExamples.
