(* ===== verification/Orchestrator.v ===== *)
(** [vmond/src/orch/table.rs] and [autoscaler.rs]: the worker table of a scheduler, the
    placement of sandboxes on it, and the policy that grows and shrinks the fleet.

    The in-flight counter of a worker is an [Arc] shared by the table and the placements made
    on it: counters live in a store of their own, entries and placements hold their addresses,
    and a worker that is forgotten and comes back has a new one.  The clock, the two random
    numbers of a placement and the order in which the concurrent map is walked are inputs. *)

From S2P Require Import Prelude F64 Json Hrw.

(** ** Heartbeats: [orch/mod.rs] *)

Definition WIRE_VERSION : Z := 1.

Record Resources : Type := mkResources { vcpus : Z; mem_mib : Z }.

Record WorkerHeartbeat : Type := mkWorkerHeartbeat {
  ver : Z; wid : string; url : string; arch : string; backend : string;
  seq : Z; ts_ms : Z; caps : Resources; used : Resources; running : Z;
  accepting : bool; draining : bool;
  net_rx_bytes : option Z; net_tx_bytes : option Z }.

(** The tuple comparison [(ts_ms, seq) > (ts_ms, seq)]. *)
Definition newer_than (hb previous : WorkerHeartbeat) : bool :=
  (ts_ms previous <? ts_ms hb) || ((ts_ms previous =? ts_ms hb) && (seq previous <? seq hb)).

(** ** The worker table: [orch/table.rs] *)

(** Times and durations are nanoseconds. *)
Record TableConfig : Type := mkTableConfig { dead_after : Z; reap_after : Z }.

Definition from_dead_after (d : Z) : TableConfig := mkTableConfig d (d * 3).

Definition saturating_duration_since (now earlier : Z) : Z := Z.max 0 (now - earlier).

(** [inflight] is the address of the worker's counter. *)
Record WorkerEntry : Type := mkWorkerEntry {
  heartbeat : WorkerHeartbeat; seen : Z; penalty_until : option Z; inflight : nat }.

Record PlacementNeeds : Type := mkPlacementNeeds {
  need_cpus : Z; need_mem : Z; need_arch : option string }.

Record Placement : Type := mkPlacement {
  p_wid : string; p_url : string; reserved_mib : Z; p_inflight : nat }.

(** The [AtomicU64]s behind the [Arc]s; a fresh one gets the next address. *)
Record WorkerTable : Type := mkWorkerTable {
  config : TableConfig; workers : gmap string WorkerEntry;
  counters : gmap nat Z; next_counter : nat }.

Definition load_counter (cs : gmap nat Z) (a : nat) : Z := default 0 (cs !! a).
(** [fetch_add] and [fetch_sub] wrap around. *)
Definition fetch_add (cs : gmap nat Z) (a : nat) (n : Z) : gmap nat Z :=
  <[a := wrap 64 (load_counter cs a + n)]> cs.
Definition fetch_sub (cs : gmap nat Z) (a : nat) (n : Z) : gmap nat Z :=
  <[a := wrap 64 (load_counter cs a - n)]> cs.

Module WorkerEntry.

Definition live (e : WorkerEntry) (now dead : Z) : bool :=
  saturating_duration_since now (seen e) <=? dead.

Definition penalized (e : WorkerEntry) (now : Z) : bool :=
  match penalty_until e with Some until => now <? until | None => false end.

Definition load (cs : gmap nat Z) (e : WorkerEntry) (extra : Z) : f64 :=
  let capacity := mem_mib (caps (heartbeat e)) in
  if capacity =? 0 then S754_infinity false
  else
    let reserved := wrap 64 (wrap 64 (mem_mib (used (heartbeat e)) + load_counter cs (inflight e)) + extra) in
    f64_div (f64_of_Z reserved) (f64_of_Z capacity).

Definition eq_ignore_ascii_case (a b : string) : bool :=
  String.eqb (string_map ascii_lower a) (string_map ascii_lower b).

Definition fits (cs : gmap nat Z) (e : WorkerEntry) (needs : PlacementNeeds) : bool :=
  match need_arch needs with
  | Some a => eq_ignore_ascii_case a (arch (heartbeat e))
  | None => true
  end && f64_leb (load cs e (need_mem needs)) (f64_of_Z 1).

End WorkerEntry.

(** [PlacementNeeds::from_create_json]; [Value::get] on what is not an object is [None]. *)
Definition from_create_json (spec : json) : PlacementNeeds :=
  let obj := default ∅ (as_object spec) in
  let uint key fallback :=
    match field obj key as_u64 with Some v => if 0 <? v then v else fallback | None => fallback end in
  let a := match field obj "arch" as_str with
           | Some s => let t := trim s in if String.eqb t "" then None else Some t
           | None => None
           end in
  mkPlacementNeeds (uint "cpus"%string 1) (uint "memory"%string 512) a.

Module WorkerTable.

Definition new (c : TableConfig) : WorkerTable := mkWorkerTable c ∅ ∅ 0.

Definition upsert (now : Z) (hb : WorkerHeartbeat) (t : WorkerTable) : WorkerTable :=
  if negb (ver hb =? WIRE_VERSION) then t
  else
    match workers t !! wid hb with
    | Some e =>
        if newer_than hb (heartbeat e) then
          mkWorkerTable (config t)
            (<[wid hb := mkWorkerEntry hb now (penalty_until e) (inflight e)]> (workers t))
            (counters t) (next_counter t)
        else t
    | None =>
        mkWorkerTable (config t)
          (<[wid hb := mkWorkerEntry hb now None (next_counter t)]> (workers t))
          (<[next_counter t := 0]> (counters t)) (S (next_counter t))
    end.

Definition penalize (now : Z) (w : string) (duration : Z) (t : WorkerTable) : WorkerTable :=
  match workers t !! w with
  | Some e =>
      mkWorkerTable (config t)
        (<[w := mkWorkerEntry (heartbeat e) (seen e) (Some (now + duration)) (inflight e)]>
          (workers t)) (counters t) (next_counter t)
  | None => t
  end.

(** The filter of [pick]. *)
Definition eligible (t : WorkerTable) (now : Z) (needs : PlacementNeeds) (exclude : list string)
    (e : WorkerEntry) : bool :=
  WorkerEntry.live e now (dead_after (config t)) && accepting (heartbeat e)
  && negb (draining (heartbeat e)) && negb (WorkerEntry.penalized e now)
  && negb (bool_decide (wid (heartbeat e) ∈ exclude)) && WorkerEntry.fits (counters t) e needs.

(** [order]: the entries as [DashMap::iter] walks them; [r1] and [r2]: [rand::random]. *)
Definition choose (t : WorkerTable) (now : Z) (needs : PlacementNeeds) (exclude : list string)
    (order : list WorkerEntry) (r1 r2 : Z) : option WorkerEntry :=
  let cands := List.filter (eligible t now needs exclude) order in
  match cands with
  | [] => None
  | [e] => Some e
  | _ =>
      let count := Z.of_nat (length cands) in
      first ← cands !! Z.to_nat (r1 mod count);
      second ← cands !! Z.to_nat (r2 mod count);
      Some (if f64_leb (WorkerEntry.load (counters t) first 0)
                       (WorkerEntry.load (counters t) second 0)
            then first else second)
  end.

Definition pick (now : Z) (needs : PlacementNeeds) (exclude : list string)
    (order : list WorkerEntry) (r1 r2 : Z) (t : WorkerTable) : option Placement * WorkerTable :=
  match choose t now needs exclude order r1 r2 with
  | None => (None, t)
  | Some e =>
      (Some (mkPlacement (wid (heartbeat e)) (url (heartbeat e)) (need_mem needs) (inflight e)),
       mkWorkerTable (config t) (workers t)
         (fetch_add (counters t) (inflight e) (need_mem needs)) (next_counter t))
  end.

(** [Drop for Placement]. *)
Definition drop_placement (p : Placement) (t : WorkerTable) : WorkerTable :=
  mkWorkerTable (config t) (workers t) (fetch_sub (counters t) (p_inflight p) (reserved_mib p))
    (next_counter t).

Definition live (now : Z) (order : list WorkerEntry) (t : WorkerTable) : list WorkerHeartbeat :=
  map heartbeat
    (List.filter (fun e => WorkerEntry.live e now (dead_after (config t))) order).

Definition url_of (w : string) (t : WorkerTable) : option string :=
  e ← workers t !! w; Some (url (heartbeat e)).

Definition stale (t : WorkerTable) (now : Z) (e : WorkerEntry) : bool :=
  reap_after (config t) <? saturating_duration_since now (seen e).

(** [remove_if]. *)
Definition reap_one (now : Z) (acc : list WorkerHeartbeat * WorkerTable) (w : string)
  : list WorkerHeartbeat * WorkerTable :=
  let '(out, t) := acc in
  match workers t !! w with
  | Some e =>
      if stale t now e
      then (out ++ [heartbeat e],
            mkWorkerTable (config t) (delete w (workers t)) (counters t) (next_counter t))
      else (out, t)
  | None => (out, t)
  end.

(** [order]: the keys and entries as they are walked. *)
Definition reap (now : Z) (order : list (string * WorkerEntry)) (t : WorkerTable)
  : list WorkerHeartbeat * WorkerTable :=
  let dead := map fst (List.filter (fun we => stale t now (snd we)) order) in
  fold_left (reap_one now) dead ([], t).

Definition len (t : WorkerTable) : nat := size (workers t).

Definition is_empty (t : WorkerTable) : bool := (len t =? 0)%nat.

End WorkerTable.

(** ** The autoscaler: [orch/autoscaler.rs] *)

Record AutoscalerOptions : Type := mkAutoscalerOptions {
  opt_min : Z; opt_max : Z; target_util : f64; interval : Z;
  cooldown_up : Z; cooldown_down : Z; drain_ttl : Z;
  scale_up_cmd : option string; scale_down_cmd : option string }.

(** The [f64] nearest to 0.7. *)
Definition f64_0_7 : f64 := S754_finite false 6305039478318694 (-53).

Definition NANOS_PER_SEC : Z := 1000000000.

Definition AutoscalerOptions_default : AutoscalerOptions :=
  mkAutoscalerOptions 0 0 f64_0_7 (15 * NANOS_PER_SEC) (30 * NANOS_PER_SEC)
    (300 * NANOS_PER_SEC) (900 * NANOS_PER_SEC) None None.

Inductive Plan : Type :=
  | Hold
  | Up (desired delta : Z)
  | Down (desired : Z) (drain : list string).

(** [Ord::clamp]; [desired_workers] calls it with ordered bounds. *)
Definition clamp (x lo hi : Z) : Z := if x <? lo then lo else if hi <? x then hi else x.

Definition desired_workers (live used_mem caps_mem : Z) (o : AutoscalerOptions) : Z :=
  let max := Z.max (opt_max o) 1 in
  if (live =? 0) || (caps_mem =? 0) then Z.min (Z.max (opt_min o) 1) max
  else
    let target := if f64_ltb f64_zero (target_util o) && f64_leb (target_util o) (f64_of_Z 1)
                  then target_util o else f64_0_7 in
    let raw := f64_div (f64_mul (f64_of_Z live) (f64_div (f64_of_Z used_mem) (f64_of_Z caps_mem)))
                 target in
    let desired := f64_to_u64 (f64_min (f64_max (f64_ceil raw) f64_zero) (f64_of_Z max)) in
    clamp desired (Z.min (opt_min o) max) max.

Record Autoscaler : Type := mkAutoscaler {
  options : AutoscalerOptions; last_up : option Z; last_down : option Z }.

Definition cooled (last : option Z) (cooldown now : Z) : bool :=
  match last with Some at_ => cooldown <=? saturating_duration_since now at_ | None => true end.

(** The order [(running, wid)]. *)
Definition drain_before (a b : WorkerHeartbeat) : bool :=
  (running a <? running b) || ((running a =? running b) && String.leb (wid a) (wid b)).

Definition pick_drain (ws : list WorkerHeartbeat) (count : Z) : list string :=
  map wid (take (Z.to_nat count) (sort_by drain_before ws)).

Module Autoscaler.

Definition new (o : AutoscalerOptions) : Autoscaler := mkAutoscaler o None None.

(** [ws]: the heartbeats [WorkerTable.live] returns. *)
Definition plan (now : Z) (ws : list WorkerHeartbeat) (a : Autoscaler) : Plan :=
  let o := options a in
  if opt_max o =? 0 then Hold
  else
    let live := Z.of_nat (length ws) in
    let used_sum := fold_left Z.add (map (fun hb => mem_mib (used hb)) ws) 0 in
    let caps_sum := fold_left Z.add (map (fun hb => mem_mib (caps hb)) ws) 0 in
    let desired := desired_workers live (wrap 64 used_sum) (wrap 64 caps_sum) o in
    match desired ?= live with
    | Gt => if cooled (last_up a) (cooldown_up o) now then Up desired (desired - live) else Hold
    | Lt => if cooled (last_down a) (cooldown_down o) now
            then Down desired (pick_drain ws (live - desired)) else Hold
    | Eq => Hold
    end.

(** What [tick] does besides latching: the drain keys it sets, and the hook with its
    arguments (count, signed change, live workers, victims and idle victims). *)
Inductive action : Type :=
  | SetDrainKey (w : string) (ttl_ms : Z)
  | RunHook (cmd : string) (desired delta live : Z) (wids idle : option (list string)).

(** [sort_unstable] on strings. *)
Definition idle_victims (ws : list WorkerHeartbeat) (drain : list string) : list string :=
  sort_by String.leb
    (map wid (List.filter (fun hb => (running hb =? 0) &&
      (draining hb || bool_decide (wid hb ∈ drain))) ws)).

(** [ws], [ws2], [ws3]: the three times the table is read. *)
Definition tick (now : Z) (ws ws2 ws3 : list WorkerHeartbeat) (a : Autoscaler)
  : list action * Autoscaler :=
  let live := Z.of_nat (length ws2) in
  match plan now ws a with
  | Hold => ([], a)
  | Up desired delta =>
      (match scale_up_cmd (options a) with
       | Some cmd => [RunHook cmd desired delta live None None]
       | None => []
       end, mkAutoscaler (options a) (Some now) (last_down a))
  | Down desired drain =>
      let ttl_ms := Z.max 1 (Z.min (drain_ttl (options a) / 1000000) (2 ^ 64 - 1)) in
      (map (fun w => SetDrainKey w ttl_ms) drain ++
       match scale_down_cmd (options a) with
       | Some cmd =>
           [RunHook cmd desired (- Z.of_nat (length drain)) live (Some drain)
              (Some (idle_victims ws3 drain))]
       | None => []
       end, mkAutoscaler (options a) (last_up a) (Some now))
  end.

End Autoscaler.

(** ** The table with the placements made on it *)

(** The entries of a table, in the order they are walked. *)
Definition walks (t : WorkerTable) (order : list WorkerEntry) : Prop :=
  order ≡ₚ map snd (map_to_list (workers t)).

(** What holders of placements and the stream follower do to a scheduler's table. *)
Inductive sched_step : WorkerTable * list Placement -> WorkerTable * list Placement -> Prop :=
  | sched_upsert now hb t ps : sched_step (t, ps) (WorkerTable.upsert now hb t, ps)
  | sched_penalize now w d t ps : sched_step (t, ps) (WorkerTable.penalize now w d t, ps)
  | sched_pick now needs exclude order r1 r2 t t' p ps :
      walks t order -> WorkerTable.pick now needs exclude order r1 r2 t = (Some p, t') ->
      sched_step (t, ps) (t', p :: ps)
  | sched_drop p t ps1 ps2 :
      sched_step (t, ps1 ++ p :: ps2) (WorkerTable.drop_placement p t, ps1 ++ ps2)
  | sched_reap now order t ps :
      sched_step (t, ps) (snd (WorkerTable.reap now order t), ps).

Definition sched_reachable (c : TableConfig) : WorkerTable * list Placement -> Prop :=
  rtc sched_step (WorkerTable.new c, []).

(** The memory that the placements on a counter reserve. *)
Definition reserved_on (a : nat) (ps : list Placement) : Z :=
  foldr (fun p n => (if decide (p_inflight p = a) then reserved_mib p else 0) + n) 0 ps.

Record table_inv (s : WorkerTable * list Placement) : Prop := mkTableInv {
  inv_entry w e : workers (fst s) !! w = Some e ->
    wid (heartbeat e) = w /\ ver (heartbeat e) = WIRE_VERSION /\
    (inflight e < next_counter (fst s))%nat;
  inv_distinct w w' e e' : workers (fst s) !! w = Some e -> workers (fst s) !! w' = Some e' ->
    inflight e = inflight e' -> w = w';
  inv_counter a : (a < next_counter (fst s))%nat ->
    counters (fst s) !! a = Some (wrap 64 (reserved_on a (snd s)));
  inv_placed p : p ∈ snd s -> (p_inflight p < next_counter (fst s))%nat /\
    forall w e, workers (fst s) !! w = Some e -> inflight e = p_inflight p -> p_wid p = w }.

Lemma reserved_on_app a ps qs : reserved_on a (ps ++ qs) = reserved_on a ps + reserved_on a qs.
Proof. induction ps as [|p ps IH]; simpl; [done|]. rewrite IH. lia. Qed.

Lemma reserved_on_none a ps : (forall p, p ∈ ps -> p_inflight p <> a) -> reserved_on a ps = 0.
Proof.
  induction ps as [|p ps IH]; intros Hp; simpl; [done|]. rewrite decide_False by (apply Hp; set_solver).
  rewrite IH; [done|set_solver].
Qed.

Lemma wrap_add w a b : wrap w (wrap w a + b) = wrap w (a + b).
Proof. unfold wrap. by rewrite Zplus_mod_idemp_l. Qed.

Lemma wrap_sub w a b : wrap w (wrap w a - b) = wrap w (a - b).
Proof. unfold wrap. by rewrite Zminus_mod_idemp_l. Qed.

Section inv.
Import WorkerTable.

Lemma upsert_inv now hb t ps : table_inv (t, ps) -> table_inv (upsert now hb t, ps).
Proof.
  intros [He Hd Hc Hp]. unfold upsert. simpl in *.
  destruct (Z.eqb_spec (ver hb) WIRE_VERSION) as [Hv|]; simpl; [|by split].
  destruct (workers t !! wid hb) as [e|] eqn:Hw.
  - case_match; [|by split]. destruct (He _ _ Hw) as (_ & _ & Hlt). split; simpl.
    + intros w e' [[<- <-]|[_ ?]]%lookup_insert_Some; simpl; auto.
    + intros w w' e1 e2 [[<- <-]|[Hn1 H1]]%lookup_insert_Some [[<- <-]|[Hn2 H2]]%lookup_insert_Some;
        simpl; intros Heq; eauto.
    + done.
    + intros p Hin. destruct (Hp p Hin) as [Hlt' Hw']. split; [done|].
      intros w e' [[<- <-]|[_ ?]]%lookup_insert_Some; simpl; eauto.
  - split; simpl.
    + intros w e' [[<- <-]|[_ H1]]%lookup_insert_Some; simpl; [split_and!; [done..|lia]|].
      destruct (He _ _ H1) as (? & ? & ?). split_and!; [done..|lia].
    + intros w w' e1 e2 [[<- <-]|[Hn1 H1]]%lookup_insert_Some [[<- <-]|[Hn2 H2]]%lookup_insert_Some;
        simpl; intros Heq; [done| | |by eapply Hd].
      * destruct (He _ _ H2) as (_ & _ & ?). lia.
      * destruct (He _ _ H1) as (_ & _ & ?). lia.
    + intros a Ha. destruct (decide (a = next_counter t)) as [->|Hne].
      * rewrite lookup_insert_eq, reserved_on_none; [done|].
        intros p Hin. destruct (Hp p Hin). lia.
      * rewrite lookup_insert_ne by done. apply Hc. lia.
    + intros p Hin. destruct (Hp p Hin) as [Hlt' Hw']. split; [lia|].
      intros w e' [[<- <-]|[_ ?]]%lookup_insert_Some; simpl; [lia|eauto].
Qed.

Lemma penalize_inv now w d t ps : table_inv (t, ps) -> table_inv (penalize now w d t, ps).
Proof.
  intros [He Hd Hc Hp]. unfold penalize. simpl in *.
  destruct (workers t !! w) as [e|] eqn:Hw; [|by split].
  destruct (He _ _ Hw) as (Hwid & Hver & Hlt). split; simpl.
  - intros w' e' [[<- <-]|[_ ?]]%lookup_insert_Some; simpl; auto.
  - intros w1 w2 e1 e2 [[<- <-]|[Hn1 H1]]%lookup_insert_Some [[<- <-]|[Hn2 H2]]%lookup_insert_Some;
      simpl; intros Heq; eauto.
  - done.
  - intros p Hin. destruct (Hp p Hin) as [Hlt' Hw']. split; [done|].
    intros w' e' [[<- <-]|[_ ?]]%lookup_insert_Some; simpl; eauto.
Qed.

(** *** Placement *)

Lemma mod_lookup {A} (l : list A) r :
  l <> [] -> is_Some (l !! Z.to_nat (r mod Z.of_nat (length l))).
Proof.
  intros Hl. apply lookup_lt_is_Some_2. destruct l as [|x l]; [done|].
  pose proof (Z.mod_pos_bound r (Z.of_nat (length (x :: l)))). cbn [length] in *. lia.
Qed.

(** One of the eligible entries is chosen, if there is one; of the two that were drawn, the
    less loaded. *)
Lemma choose_spec t now needs ex order r1 r2 :
  let cands := List.filter (eligible t now needs ex) order in
  match choose t now needs ex order r1 r2 with
  | None => cands = []
  | Some e =>
      e ∈ cands /\
      ((1 < length cands)%nat -> exists a b,
        cands !! Z.to_nat (r1 mod Z.of_nat (length cands)) = Some a /\
        cands !! Z.to_nat (r2 mod Z.of_nat (length cands)) = Some b /\
        e = if f64_leb (WorkerEntry.load (counters t) a 0) (WorkerEntry.load (counters t) b 0)
            then a else b)
  end.
Proof.
  intros cands. unfold choose. fold cands.
  destruct cands as [|e [|e' l]] eqn:Hc; [done|split; [set_solver|simpl; lia]|].
  rewrite <- Hc. assert (Hne : cands <> []) by (by rewrite Hc).
  destruct (mod_lookup cands r1 Hne) as [a Ha], (mod_lookup cands r2 Hne) as [b Hb].
  rewrite Ha, Hb. cbn. split.
  - case_match; by eapply list_elem_of_lookup_2.
  - intros _. eauto.
Qed.

Lemma walks_elem t order e :
  walks t order -> e ∈ order -> exists w, workers t !! w = Some e.
Proof.
  unfold walks. intros Hw He. rewrite Hw in He. apply list_elem_of_fmap in He as ([w e'] & -> & He).
  exists w. by apply elem_of_map_to_list.
Qed.

Lemma pick_inv now needs ex order r1 r2 t t' p ps :
  walks t order -> pick now needs ex order r1 r2 t = (Some p, t') ->
  table_inv (t, ps) -> table_inv (t', p :: ps).
Proof.
  intros Hw Hpick [He Hd Hc Hp]. unfold pick in Hpick.
  pose proof (choose_spec t now needs ex order r1 r2) as Hspec. simpl in *.
  destruct (choose _ _ _ _ _ _ _) as [e|] eqn:Hch; [|done]. simplify_eq.
  destruct Hspec as [Hin _]. apply list_elem_of_In, filter_In in Hin as [Hin _].
  apply list_elem_of_In in Hin. destruct (walks_elem _ _ _ Hw Hin) as [w Hwe].
  destruct (He _ _ Hwe) as (Hwid & _ & Hlt). split; simpl; [done|done| |].
  - intros a Ha. unfold fetch_add, load_counter. destruct (decide (inflight e = a)) as [<-|Hne].
    + rewrite lookup_insert_eq, (Hc _ Hlt). cbn. rewrite wrap_add. do 2 f_equal. lia.
    + rewrite lookup_insert_ne by done. rewrite Hc by done. done.
  - intros q [->|Hq]%elem_of_cons; [|by apply Hp]. simpl. split; [done|].
    intros w' e' Hw' Heq. rewrite Hwid. by eapply Hd.
Qed.

Lemma drop_inv p t ps1 ps2 :
  table_inv (t, ps1 ++ p :: ps2) -> table_inv (drop_placement p t, ps1 ++ ps2).
Proof.
  intros [He Hd Hc Hp]. split; simpl in *; [done|done| |].
  - intros a Ha. destruct (Hp p) as [Hlt _]; [set_solver|].
    unfold fetch_sub, load_counter. rewrite reserved_on_app.
    destruct (decide (p_inflight p = a)) as [<-|Hne].
    + rewrite lookup_insert_eq, (Hc _ Hlt). cbn. rewrite wrap_sub, reserved_on_app. simpl.
      rewrite decide_True by done. do 2 f_equal. lia.
    + rewrite lookup_insert_ne by done. rewrite Hc by done. rewrite reserved_on_app. simpl.
      rewrite decide_False by done. done.
  - intros q Hq. apply Hp. set_solver.
Qed.

(** Forgetting workers keeps the rest. *)
Lemma shrink_inv t ps ws :
  ws ⊆ workers t -> table_inv (t, ps) ->
  table_inv (mkWorkerTable (config t) ws (counters t) (next_counter t), ps).
Proof.
  intros Hsub [He Hd Hc Hp].
  assert (Hl : forall w e, ws !! w = Some e -> workers t !! w = Some e)
    by (intros; by eapply lookup_weaken).
  split; simpl in *; [naive_solver|naive_solver|done|].
  intros p Hin. destruct (Hp p Hin). naive_solver.
Qed.

Lemma reap_fold_inv now dead out t ps :
  table_inv (t, ps) -> table_inv (snd (fold_left (reap_one now) dead (out, t)), ps).
Proof.
  revert out t. induction dead as [|w dead IH]; intros out t Ht; simpl; [done|].
  destruct (workers t !! w) as [e|]; [|by apply IH]. case_match; [|by apply IH].
  apply IH, shrink_inv; [apply delete_subseteq|done].
Qed.

Lemma sched_step_inv s s' : sched_step s s' -> table_inv s -> table_inv s'.
Proof.
  destruct 1; intros Hinv.
  - by apply upsert_inv.
  - by apply penalize_inv.
  - by eapply pick_inv.
  - by apply drop_inv.
  - by apply reap_fold_inv.
Qed.

Lemma table_new_inv c : table_inv (new c, []).
Proof. split; simpl; [done..| |set_solver]. intros a Ha. lia. Qed.

Lemma sched_reachable_inv c s : sched_reachable c s -> table_inv s.
Proof.
  intros Hr. pose proof (table_new_inv c) as H0. revert H0. unfold sched_reachable in Hr.
  induction Hr; eauto using sched_step_inv.
Qed.

End inv.

(** C22: The in-flight counter of a worker in the table is what the outstanding placements on
    it reserve, through any heartbeats, penalties, placements, drops and forgotten workers; a
    placement on an earlier life of the worker holds another counter. *)
Theorem inflight_counts_outstanding c t ps w e :
  sched_reachable c (t, ps) -> workers t !! w = Some e ->
  load_counter (counters t) (inflight e) = wrap 64 (reserved_on (inflight e) ps) /\
  (forall p, p ∈ ps -> p_inflight p = inflight e -> p_wid p = w).
Proof.
  intros [He Hd Hc Hp]%sched_reachable_inv Hw. simpl in *. destruct (He _ _ Hw) as (_ & _ & Hlt).
  unfold load_counter. rewrite (Hc _ Hlt). split; [done|].
  intros p Hin Heq. destruct (Hp p Hin) as [_ Hpw]. by apply (Hpw w e).
Qed.

(** A placement goes to a worker that is live, accepting, not draining, not penalized, not
    excluded and has room, and reserves the memory of the request on that worker's counter
    only; none is made exactly when there is no such worker.  Of two workers that are drawn
    the less loaded is taken. *)
Lemma pick_contract now needs ex order r1 r2 t :
  walks t order ->
  match WorkerTable.pick now needs ex order r1 r2 t with
  | (None, t') => t' = t /\
      forall w e, workers t !! w = Some e -> WorkerTable.eligible t now needs ex e = false
  | (Some p, t') => exists w e, workers t !! w = Some e /\
      WorkerTable.eligible t now needs ex e = true /\
      p = mkPlacement (wid (heartbeat e)) (url (heartbeat e)) (need_mem needs) (inflight e) /\
      workers t' = workers t /\
      (forall a, load_counter (counters t') a =
         if decide (a = inflight e) then wrap 64 (load_counter (counters t) a + need_mem needs)
         else load_counter (counters t) a) /\
      (forall a b, let cands := List.filter (WorkerTable.eligible t now needs ex) order in
         (1 < length cands)%nat ->
         cands !! Z.to_nat (r1 mod Z.of_nat (length cands)) = Some a ->
         cands !! Z.to_nat (r2 mod Z.of_nat (length cands)) = Some b ->
         e = if f64_leb (WorkerEntry.load (counters t) a 0) (WorkerEntry.load (counters t) b 0)
             then a else b)
  end.
Proof.
  intros Hw. unfold WorkerTable.pick. pose proof (choose_spec t now needs ex order r1 r2) as Hspec.
  simpl in Hspec. destruct (WorkerTable.choose _ _ _ _ _ _ _) as [e|].
  - destruct Hspec as [Hin Hbest]. apply list_elem_of_In, filter_In in Hin as [Hin Hel].
    apply list_elem_of_In in Hin. destruct (walks_elem _ _ _ Hw Hin) as [w Hwe].
    exists w, e. split_and!; [done..| |].
    + intros a. unfold load_counter, fetch_add; simpl. case_decide as Ha; [subst|].
      * by rewrite lookup_insert_eq.
      * by rewrite lookup_insert_ne by done.
    + intros a b Hlen Ha Hb. destruct (Hbest Hlen) as (a' & b' & Ha' & Hb' & ->).
      by simplify_eq.
  - split; [done|]. intros w e Hwe. apply not_true_iff_false. intros Hel.
    assert (Hin : e ∈ order).
    { unfold walks in Hw. rewrite Hw. apply list_elem_of_fmap. exists (w, e).
      split; [done|by apply elem_of_map_to_list]. }
    assert (In e (List.filter (WorkerTable.eligible t now needs ex) order)) as Hf
      by (apply filter_In; split; [by apply list_elem_of_In|done]).
    by rewrite Hspec in Hf.
Qed.

(** ** Heartbeats out of order *)

Definition deliver (hbs : list (Z * WorkerHeartbeat)) (t : WorkerTable) : WorkerTable :=
  fold_left (fun t d => WorkerTable.upsert (fst d) (snd d) t) hbs t.

Lemma newer_than_irrefl a : newer_than a a = false.
Proof. unfold newer_than. rewrite !Z.ltb_irrefl. by rewrite andb_false_r. Qed.

Lemma newer_than_trans a b c :
  newer_than b a = false -> newer_than c b = false -> newer_than c a = false.
Proof.
  unfold newer_than. rewrite !orb_false_iff, !andb_false_iff, !Z.ltb_ge, !Z.eqb_neq. lia.
Qed.

Lemma newer_than_total a b :
  newer_than a b = false -> newer_than b a = false -> ts_ms a = ts_ms b /\ seq a = seq b.
Proof.
  unfold newer_than. rewrite !orb_false_iff, !andb_false_iff, !Z.ltb_ge, !Z.eqb_neq. lia.
Qed.

(** One delivery: the stored heartbeat is the old one or the delivered one, and no older than
    either. *)
Lemma upsert_lookup now hb t w e' :
  workers (WorkerTable.upsert now hb t) !! w = Some e' ->
  (heartbeat e' = hb /\ w = wid hb /\ ver hb = WIRE_VERSION \/
   exists e, workers t !! w = Some e /\ heartbeat e = heartbeat e') /\
  (forall e, workers t !! w = Some e -> newer_than (heartbeat e) (heartbeat e') = false).
Proof.
  unfold WorkerTable.upsert. destruct (Z.eqb_spec (ver hb) WIRE_VERSION) as [Hv|]; simpl.
  2: { intros He. split; [eauto|]. intros e ?. simplify_eq. apply newer_than_irrefl. }
  destruct (workers t !! wid hb) as [e0|] eqn:H0.
  - case_match eqn:Hn; simpl.
    + intros [[<- <-]|[Hne He]]%lookup_insert_Some; simpl.
      * split; [by left|]. intros e ?. simplify_eq.
        unfold newer_than in *. apply orb_true_iff in Hn. rewrite andb_true_iff, !Z.ltb_lt, Z.eqb_eq in Hn.
        apply orb_false_iff. rewrite andb_false_iff, !Z.ltb_ge, Z.eqb_neq. lia.
      * split; [eauto|]. intros e ?. simplify_eq. apply newer_than_irrefl.
    + intros He. split; [eauto|]. intros e ?. simplify_eq. apply newer_than_irrefl.
  - simpl. intros [[<- <-]|[Hne He]]%lookup_insert_Some; simpl.
    + split; [by left|]. intros e ?. congruence.
    + split; [eauto|]. intros e ?. simplify_eq. apply newer_than_irrefl.
Qed.

Lemma upsert_present now hb t :
  ver hb = WIRE_VERSION ->
  exists e, workers (WorkerTable.upsert now hb t) !! wid hb = Some e /\
    newer_than hb (heartbeat e) = false.
Proof.
  intros Hv. unfold WorkerTable.upsert. rewrite (proj2 (Z.eqb_eq _ _) Hv). simpl.
  destruct (workers t !! wid hb) as [e0|] eqn:H0; [case_match|]; simpl;
    rewrite ?lookup_insert_eq; eauto using newer_than_irrefl.
Qed.

Lemma upsert_keeps now hb t w e :
  workers t !! w = Some e -> is_Some (workers (WorkerTable.upsert now hb t) !! w).
Proof.
  intros He. unfold WorkerTable.upsert. repeat case_match; simpl; eauto;
    apply lookup_insert_is_Some'; eauto.
Qed.

(** After any deliveries the table holds, for each worker, a heartbeat that was delivered (or
    was there), and none that was delivered or was there is newer. *)
Lemma deliver_spec hbs t w :
  (forall e', workers (deliver hbs t) !! w = Some e' ->
     (exists d, d ∈ hbs /\ snd d = heartbeat e' /\ wid (snd d) = w /\ ver (snd d) = WIRE_VERSION) \/
     exists e, workers t !! w = Some e /\ heartbeat e = heartbeat e') /\
  (forall e, workers t !! w = Some e -> exists e', workers (deliver hbs t) !! w = Some e' /\
     newer_than (heartbeat e) (heartbeat e') = false) /\
  (forall d, d ∈ hbs -> ver (snd d) = WIRE_VERSION -> wid (snd d) = w ->
     exists e', workers (deliver hbs t) !! w = Some e' /\ newer_than (snd d) (heartbeat e') = false).
Proof.
  revert t. induction hbs as [|[now hb] hbs IH]; intros t; simpl.
  { split_and!; [eauto| |set_solver]. intros e He. eauto using newer_than_irrefl. }
  destruct (IH (WorkerTable.upsert now hb t)) as (H1 & H2 & H3). split_and!.
  - intros e' He'. destruct (H1 e' He') as [(d & Hd & ?)|(e1 & He1 & Heq)]; [left; exists d; set_solver|].
    destruct (proj1 (upsert_lookup _ _ _ _ _ He1)) as [(Hh & -> & Hv)|(e & He & Heq')].
    + left. exists (now, hb). simpl. split_and!; [set_solver|congruence|done..].
    + right. exists e. split; [done|congruence].
  - intros e He. destruct (upsert_keeps now hb t w e He) as [e1 He1].
    destruct (H2 e1 He1) as (e' & He' & Hn). exists e'. split; [done|].
    eapply newer_than_trans; [done|]. by eapply upsert_lookup.
  - intros d [->|Hd]%elem_of_cons Hv Hw; simpl in *; [|by apply H3].
    destruct (upsert_present now hb t Hv) as (e1 & He1 & Hn1). rewrite Hw in He1.
    destruct (H2 e1 He1) as (e' & He' & Hn). exists e'. split; [done|].
    by eapply newer_than_trans.
Qed.

(** The order in which the stream delivers heartbeats does not matter: with distinct
    stamps per worker, two schedulers that got the same heartbeats in different orders, some
    of them more than once, hold the same heartbeat for every worker. *)
Lemma deliver_order_irrelevant c hbs hbs' w :
  (forall d, d ∈ map snd hbs <-> d ∈ map snd hbs') ->
  (forall d d', d ∈ map snd hbs -> d' ∈ map snd hbs -> wid d = wid d' ->
     ts_ms d = ts_ms d' -> seq d = seq d' -> d = d') ->
  option_map heartbeat (workers (deliver hbs (WorkerTable.new c)) !! w) =
  option_map heartbeat (workers (deliver hbs' (WorkerTable.new c)) !! w).
Proof.
  intros Hsame Hstamp.
  assert (Hle : forall l l' e, (forall d, d ∈ map snd l -> d ∈ map snd l') ->
    workers (deliver l (WorkerTable.new c)) !! w = Some e ->
    heartbeat e ∈ map snd l /\ wid (heartbeat e) = w /\
    exists e', workers (deliver l' (WorkerTable.new c)) !! w = Some e' /\
      newer_than (heartbeat e) (heartbeat e') = false).
  { intros l l' e Hsub He. destruct (deliver_spec l (WorkerTable.new c) w) as (H1 & _ & _).
    destruct (H1 e He) as [(d & Hd & Hh & Hw & Hv)|(? & ? & _)]; [|done].
    assert (Hin : heartbeat e ∈ map snd l) by (rewrite <- Hh; by apply list_elem_of_fmap_2).
    split_and!; [done|congruence|]. apply Hsub, list_elem_of_fmap in Hin as (d' & Hd' & Hin').
    destruct (deliver_spec l' (WorkerTable.new c) w) as (_ & _ & H3).
    rewrite Hd'. apply H3; congruence. }
  destruct (workers (deliver hbs _) !! w) as [e|] eqn:He;
    destruct (workers (deliver hbs' _) !! w) as [e'|] eqn:He'; simpl; [| | |done].
  - destruct (Hle hbs hbs' e) as (Hin & Hw & ? & ? & Hn); [naive_solver|done|].
    destruct (Hle hbs' hbs e') as (Hin' & Hw' & ? & ? & Hn'); [naive_solver|done|]. simplify_eq.
    f_equal. destruct (newer_than_total _ _ Hn Hn'). apply Hstamp; [done|naive_solver|congruence|done..].
  - destruct (Hle hbs hbs' e) as (_ & _ & ? & ? & _); [naive_solver|done|]. congruence.
  - destruct (Hle hbs' hbs e') as (_ & _ & ? & ? & _); [naive_solver|done|]. congruence.
Qed.

(** ** The scaling policy *)








(** *** Workers that already drain *)

Lemma sort_by_map {A} (le : A -> A -> bool) (f : A -> A) (l : list A) :
  (forall x y, le (f x) (f y) = le x y) -> sort_by le (map f l) = map f (sort_by le l).
Proof.
  intros Hf. assert (Hins : forall x l, insert_sorted le (f x) (map f l) = map f (insert_sorted le x l)).
  { intros x k. induction k as [|y k IH]; simpl; [done|]. rewrite Hf. case_match; [done|].
    simpl. by rewrite IH. }
  unfold sort_by. induction l as [|x l IH]; [done|]. cbn [map foldr]. by rewrite IH, Hins.
Qed.

Definition set_draining (d : WorkerHeartbeat -> bool) (hb : WorkerHeartbeat) : WorkerHeartbeat :=
  mkWorkerHeartbeat (ver hb) (wid hb) (url hb) (arch hb) (backend hb) (seq hb) (ts_ms hb)
    (caps hb) (used hb) (running hb) (accepting hb) (d hb) (net_rx_bytes hb) (net_tx_bytes hb).

(** The victims do not depend on which workers drain already: a worker drained by an earlier
    decision and still busy loses to a fresh one with fewer sandboxes. *)
Lemma pick_drain_ignores_draining d ws n : pick_drain (map (set_draining d) ws) n = pick_drain ws n.
Proof.
  unfold pick_drain. rewrite sort_by_map by done. by rewrite firstn_map, map_map.
Qed.

Module OrchestratorExamples.
Local Open Scope string_scope.

Definition demo_hb (w : string) (ts used_mem run : Z) (drains : bool) : WorkerHeartbeat :=
  mkWorkerHeartbeat 1 w ("http://" ++ w) "x86_64" "kvm" 1 ts (mkResources 8 1000)
    (mkResources 0 used_mem) run (negb drains) drains None None.

Definition demo_config : TableConfig := from_dead_after (5 * NANOS_PER_SEC).
Definition demo_table : WorkerTable :=
  deliver [(0, demo_hb "w1" 1 100 3 false); (0, demo_hb "w2" 1 700 1 false)]
    (WorkerTable.new demo_config).
Definition demo_needs : PlacementNeeds := mkPlacementNeeds 1 512 None.
Definition demo_order : list WorkerEntry := map snd (map_to_list (workers demo_table)).
Definition demo_pick : option Placement * WorkerTable :=
  WorkerTable.pick 1 demo_needs [] demo_order 0 1 demo_table.
Definition demo_placement : Placement := mkPlacement "w1" "http://w1" 512 0.
Definition demo_entry : WorkerEntry := mkWorkerEntry (demo_hb "w1" 1 100 3 false) 0 None 0.

(** A worker that accepts placements has room for the request, the full one is passed over. *)
Example demo_pick_w1 : fst demo_pick = Some demo_placement.
Proof. vm_compute. reflexivity. Qed.

Lemma demo_sched_reachable : sched_reachable demo_config (snd demo_pick, [demo_placement]).
Proof.
  eapply rtc_l; [apply (sched_upsert 0 (demo_hb "w1" 1 100 3 false))|].
  eapply rtc_l; [apply (sched_upsert 0 (demo_hb "w2" 1 700 1 false))|].
  eapply rtc_l; [|constructor].
  apply (sched_pick 1 demo_needs [] demo_order 0 1); [unfold walks; reflexivity|].
  vm_compute. reflexivity.
Defined.

Lemma inflight_counts_outstanding_witness :
  load_counter (counters (snd demo_pick)) 0 = wrap 64 (reserved_on 0 [demo_placement]).
Proof.
  apply (inflight_counts_outstanding demo_config (snd demo_pick) [demo_placement] "w1" demo_entry);
    [exact demo_sched_reachable|]. vm_compute. reflexivity.
Defined.

(** Three workers of which two are wanted: [w1] drains since an earlier decision and still
    runs a sandbox. *)
Definition demo_fleet : list WorkerHeartbeat :=
  [demo_hb "w1" 1 500 1 true; demo_hb "w2" 1 400 0 false; demo_hb "w3" 1 400 5 false].
Definition demo_scaler : Autoscaler :=
  Autoscaler.new (mkAutoscalerOptions 1 10 f64_0_7 (15 * NANOS_PER_SEC) (30 * NANOS_PER_SEC)
    (300 * NANOS_PER_SEC) (900 * NANOS_PER_SEC) None None).


(** A scale-down decision counts the workers that already drain but does not prefer them:
    with two of three workers wanted and one draining, the next decision drains a second,
    fresh worker, and one worker is left to accept sandboxes. *)
Lemma replan_drains_fresh_worker :
  Autoscaler.plan 0 demo_fleet demo_scaler = Down 2 ["w2"] /\
  map wid (List.filter (fun hb => negb (draining hb) && negb (bool_decide (wid hb ∈ ["w2"]))) demo_fleet)
  = ["w3"].
Proof. split; vm_compute; reflexivity. Qed.

End OrchestratorExamples.
