(* ===== verification/RedisWire.v ===== *)
(** The RESP2 wire between [vmond/src/orch/redis.rs] (the client) and [miniredis.rs] (the
    server): commands as arrays of bulk strings one way, replies the other.  A connection is
    the bytes that are still to be read; reading past them is a transport error.  A panic of
    the client is an outcome of its own. *)

From S2P Require Import Prelude Decimal.

Set Warnings "-register-all".

(** ** Text *)

Definition CRLF : list Z := [13; 10].

Definition utf8_cont (b : Z) : bool := (128 <=? b) && (b <=? 191).

(** [String::from_utf8] accepts: the well-formed sequences of the Unicode standard. *)
Fixpoint utf8_valid (s : list Z) : bool :=
  match s with
  | [] => true
  | b0 :: s1 =>
      if b0 <=? 127 then utf8_valid s1
      else if (194 <=? b0) && (b0 <=? 223) then
        match s1 with b1 :: s2 => utf8_cont b1 && utf8_valid s2 | _ => false end
      else if (224 <=? b0) && (b0 <=? 239) then
        match s1 with
        | b1 :: b2 :: s3 =>
            (if b0 =? 224 then (160 <=? b1) && (b1 <=? 191)
             else if b0 =? 237 then (128 <=? b1) && (b1 <=? 159) else utf8_cont b1)
            && utf8_cont b2 && utf8_valid s3
        | _ => false
        end
      else if (240 <=? b0) && (b0 <=? 244) then
        match s1 with
        | b1 :: b2 :: b3 :: s4 =>
            (if b0 =? 240 then (144 <=? b1) && (b1 <=? 191)
             else if b0 =? 244 then (128 <=? b1) && (b1 <=? 143) else utf8_cont b1)
            && utf8_cont b2 && utf8_cont b3 && utf8_valid s4
        | _ => false
        end
      else false
  end.

(** The bytes before the first line feed, and what follows it. *)
Fixpoint split_line (s : list Z) : option (list Z * list Z) :=
  match s with
  | [] => None
  | b :: s' => if b =? 10 then Some ([], s') else '(l, r) ← split_line s'; Some (b :: l, r)
  end.

(** One carriage return before the line feed is dropped. *)
Fixpoint strip_cr (l : list Z) : list Z :=
  match l with
  | [] => []
  | [b] => if b =? 13 then [] else [b]
  | b :: l' => b :: strip_cr l'
  end.

(** [read_exact]. *)
Definition read_exact (n : Z) (s : list Z) : option (list Z * list Z) :=
  if n <=? Z.of_nat (length s) then Some (take (Z.to_nat n) s, drop (Z.to_nat n) s) else None.

(** ** The client: [redis.rs] *)

Inductive Resp : Type :=
  | RSimple (text : list Z)
  | RInt (z : Z)
  | RBulk (payload : list Z)
  | RNull
  | RArray (items : list Resp).

Inductive resp_error : Type :=
  | RedisError (text : list Z)   (** a [-] reply *)
  | RedisRead                    (** the stream ended *)
  | NonUtf8Line | BadInteger | UnexpectedType
  | Panicked                     (** [split_at(1)] outside a character boundary *)
  | OutOfFuel.

Module Resp.
Definition into_bytes (r : Resp) : option (list Z) :=
  match r with RBulk b => Some b | RSimple t => Some t | _ => None end.
Definition into_string (r : Resp) : option (list Z) :=
  b ← into_bytes r; if utf8_valid b then Some b else None.
Definition into_array (r : Resp) : option (list Resp) :=
  match r with RArray l => Some l | _ => None end.
End Resp.

(** [Conn::send]: the frame of a command. *)
Definition send_arg (a : list Z) : list Z := 36 :: decimal (Z.of_nat (length a)) ++ CRLF ++ a ++ CRLF.
Definition send (args : list (list Z)) : list Z :=
  42 :: decimal (Z.of_nat (length args)) ++ CRLF ++ concat (map send_arg args).

Definition read_line (s : list Z) : result resp_error (list Z * list Z) :=
  '(line, s) <-? ok_or (split_line s) RedisRead ;
  let line := strip_cr line in
  if utf8_valid line then Ok (line, s) else Err NonUtf8Line.

Definition parse_int (text : list Z) : result resp_error Z := ok_or (parse_i64 text) BadInteger.

(** [for _ in 0..n]. *)
Definition receive_items (recv : list Z -> result resp_error (Resp * list Z))
  : nat -> list Z -> result resp_error (list Resp * list Z) :=
  fix go n s :=
  match n with
  | O => Ok ([], s)
  | S n => '(item, s) <-? recv s ; '(items, s) <-? go n s ; Ok (item :: items, s)
  end.

(** [Conn::receive]; the fuel bounds how deep arrays nest. *)
Fixpoint receive (fuel : nat) (s : list Z) : result resp_error (Resp * list Z) :=
  match fuel with
  | O => Err OutOfFuel
  | S fuel =>
      '(line, s) <-? read_line s ;
      match line with
      | [] => Err Panicked
      | kind :: rest =>
          if match rest with b :: _ => utf8_cont b | [] => false end then Err Panicked
          else if kind =? 43 then Ok (RSimple rest, s)
          else if kind =? 45 then Err (RedisError rest)
          else if kind =? 58 then z <-? parse_int rest ; Ok (RInt z, s)
          else if kind =? 36 then
            len <-? parse_int rest ;
            if len <? 0 then Ok (RNull, s)
            else
              '(payload, s) <-? ok_or (read_exact (len + 2) s) RedisRead ;
              Ok (RBulk (take (Z.to_nat len) payload), s)
          else if kind =? 42 then
            len <-? parse_int rest ;
            if len <? 0 then Ok (RNull, s)
            else
              '(items, s) <-? receive_items (receive fuel) (Z.to_nat len) s ;
              Ok (RArray items, s)
          else Err UnexpectedType
      end
  end.

(** Every nested reply comes after a line of its own, so the length of the stream is enough. *)
Definition receive_reply (s : list Z) : result resp_error (Resp * list Z) :=
  receive (S (length s)) s.

(** ** The server: [miniredis.rs] *)

Definition MAX_ARG_BYTES : Z := 8 * 1024 * 1024.

Inductive Reply : Type :=
  | RepSimple (text : list Z)
  | RepError (text : list Z)
  | RepInt (z : Z)
  | RepBulk (payload : list Z)
  | RepNull
  | RepArray (items : list Reply).

Fixpoint encode_into (r : Reply) : list Z :=
  match r with
  | RepSimple text => 43 :: text ++ CRLF
  | RepError text => 45 :: bs "ERR " ++ text ++ CRLF
  | RepInt z => 58 :: show_i64 z ++ CRLF
  | RepBulk payload => 36 :: decimal (Z.of_nat (length payload)) ++ CRLF ++ payload ++ CRLF
  | RepNull => bs "$-1" ++ CRLF
  | RepArray items =>
      42 :: decimal (Z.of_nat (length items)) ++ CRLF ++ concat (map encode_into items)
  end.

Inductive server_error : Type :=
  | ServerEof | InlineUnsupported | ExpectedBulk | BulkOutOfRange | BadIntegerLine.

Definition read_int_line (s : list Z) : result server_error (Z * list Z) :=
  '(digits, s) <-? ok_or (split_line s) ServerEof ;
  let digits := strip_cr digits in
  z <-? ok_or (if utf8_valid digits then parse_i64 digits else None) BadIntegerLine ;
  Ok (z, s).

Definition read_arg (s : list Z) : result server_error (list Z * list Z) :=
  match s with
  | [] => Err ServerEof
  | b :: s =>
      if negb (b =? 36) then Err ExpectedBulk
      else
        '(len, s) <-? read_int_line s ;
        if negb ((0 <=? len) && (len <=? MAX_ARG_BYTES)) then Err BulkOutOfRange
        else
          '(payload, s) <-? ok_or (read_exact (len + 2) s) ServerEof ;
          Ok (take (Z.to_nat len) payload, s)
  end.

Fixpoint read_args (n : nat) (s : list Z) : result server_error (list (list Z) * list Z) :=
  match n with
  | O => Ok ([], s)
  | S n => '(a, s) <-? read_arg s ; '(args, s) <-? read_args n s ; Ok (a :: args, s)
  end.

(** [None]: the client hung up between commands. *)
Definition read_command (s : list Z) : result server_error (option (list (list Z)) * list Z) :=
  match s with
  | [] => Ok (None, [])
  | b :: s =>
      if negb (b =? 42) then Err InlineUnsupported
      else
        '(count, s) <-? read_int_line s ;
        '(args, s) <-? read_args (Z.to_nat count) s ;
        Ok (Some args, s)
  end.

(** ** Lines *)

Definition line_byte (b : Z) : bool := (0 <=? b) && (b <=? 127) && negb (b =? 10).
Abbreviation line_ok := (Forall (fun b => line_byte b = true)).

Lemma split_line_crlf l s : line_ok l -> split_line (l ++ CRLF ++ s) = Some (l ++ [13], s).
Proof.
  induction 1 as [|b l Hb _ IH]; simpl; [done|]. unfold line_byte in Hb. bool_to_prop.
  rewrite (proj2 (Z.eqb_neq _ _)) by done. change (13 :: 10 :: s) with (CRLF ++ s). by rewrite IH.
Qed.

Lemma strip_cr_snoc l : strip_cr (l ++ [13]) = l.
Proof. induction l as [|b [|c l] IH]; [done..|]. simpl in *. by rewrite IH. Qed.

Lemma utf8_valid_ascii l : line_ok l -> utf8_valid l = true.
Proof.
  induction 1 as [|b l Hb _ IH]; simpl; [done|]. unfold line_byte in Hb. bool_to_prop.
  by rewrite (proj2 (Z.leb_le _ _)) by done.
Qed.

Lemma read_line_crlf l s : line_ok l -> read_line (l ++ CRLF ++ s) = Ok (l, s).
Proof.
  intros Hl. unfold read_line. rewrite split_line_crlf by done. cbn [ok_or result_bind].
  by rewrite strip_cr_snoc, utf8_valid_ascii.
Qed.

Lemma digit_line b : is_ascii_digit b = true -> line_byte b = true.
Proof.
  unfold is_ascii_digit, line_byte. intros Hb. bool_to_prop.
  rewrite !andb_true_iff, negb_true_iff, !Z.leb_le, Z.eqb_neq. lia.
Qed.

Lemma decimal_line n : 0 <= n -> line_ok (decimal n).
Proof. intros Hn. eapply Forall_impl; [by apply decimal_digits|]. intros. by apply digit_line. Qed.

Lemma show_i64_line z : line_ok (show_i64 z).
Proof.
  unfold show_i64. destruct (Z.ltb_spec z 0); [constructor; [done|]|]; apply decimal_line; lia.
Qed.

Lemma line_byte_not_cont b : line_byte b = true -> utf8_cont b = false.
Proof.
  unfold line_byte, utf8_cont. intros Hb. bool_to_prop.
  apply andb_false_iff. left. apply Z.leb_gt. lia.
Qed.

Lemma line_head l : line_ok l -> match l with b :: _ => utf8_cont b | [] => false end = false.
Proof. destruct 1; [done|by apply line_byte_not_cont]. Qed.

Lemma read_exact_app l k s :
  length k = 2%nat ->
  read_exact (Z.of_nat (length l) + 2) (l ++ k ++ s) = Some (l ++ k, s).
Proof.
  intros Hk. unfold read_exact. rewrite !length_app.
  rewrite (proj2 (Z.leb_le _ _)) by lia.
  replace (Z.to_nat (Z.of_nat (length l) + 2)) with (length (l ++ k)) by (rewrite length_app; lia).
  by rewrite (assoc_L (++)), take_app_length, drop_app_length.
Qed.

(** A literal text is a line. *)
Ltac by_decide_line := repeat constructor.

(** ** Replies *)

(** What a client makes of a reply: the first error in it, or its value. *)
Fixpoint seen_as (r : Reply) : result resp_error Resp :=
  match r with
  | RepSimple text => Ok (RSimple text)
  | RepError text => Err (RedisError (bs "ERR " ++ text))
  | RepInt z => Ok (RInt z)
  | RepBulk payload => Ok (RBulk payload)
  | RepNull => Ok RNull
  | RepArray items =>
      result_map RArray
        ((fix go l := match l with
          | [] => Ok []
          | r :: l => x <-? seen_as r ; xs <-? go l ; Ok (x :: xs)
          end) items)
  end.

(** Texts are one line of ASCII; lengths and integers have the range of [i64]. *)
Fixpoint reply_ok (r : Reply) : bool :=
  match r with
  | RepSimple text | RepError text => forallb line_byte text
  | RepInt z => (- 2 ^ 63 <=? z) && (z <? 2 ^ 63)
  | RepBulk payload => Z.of_nat (length payload) <? 2 ^ 63
  | RepNull => true
  | RepArray items => (Z.of_nat (length items) <? 2 ^ 63) && forallb reply_ok items
  end.

(** How deep a reply nests. *)
Fixpoint reply_depth (r : Reply) : nat :=
  match r with RepArray items => S (foldr (fun r n => Nat.max (reply_depth r) n) 0%nat items) | _ => 1 end.

Definition seen_all : list Reply -> result resp_error (list Resp) :=
  fix go l := match l with
  | [] => Ok []
  | r :: l => x <-? seen_as r ; xs <-? go l ; Ok (x :: xs)
  end.

Lemma seen_as_array items : seen_as (RepArray items) = result_map RArray (seen_all items).
Proof. done. Qed.

Lemma receive_line fuel kind l s :
  line_byte kind = true -> line_ok l ->
  receive (S fuel) (kind :: l ++ CRLF ++ s) =
  if kind =? 43 then Ok (RSimple l, s)
  else if kind =? 45 then Err (RedisError l)
  else if kind =? 58 then z <-? parse_int l ; Ok (RInt z, s)
  else if kind =? 36 then
    len <-? parse_int l ;
    if len <? 0 then Ok (RNull, s)
    else
      '(payload, s) <-? ok_or (read_exact (len + 2) s) RedisRead ;
      Ok (RBulk (take (Z.to_nat len) payload), s)
  else if kind =? 42 then
    len <-? parse_int l ;
    if len <? 0 then Ok (RNull, s)
    else
      '(items, s) <-? receive_items (receive fuel) (Z.to_nat len) s ;
      Ok (RArray items, s)
  else Err UnexpectedType.
Proof.
  intros Hk Hl. cbn [receive]. change (kind :: l ++ CRLF ++ s) with ((kind :: l) ++ CRLF ++ s).
  rewrite read_line_crlf by (by constructor). cbn [result_bind]. by rewrite line_head.
Qed.

Lemma parse_int_length {A} (l : list A) :
  Z.of_nat (length l) < 2 ^ 63 -> parse_int (decimal (Z.of_nat (length l))) = Ok (Z.of_nat (length l)).
Proof.
  intros Hl. unfold parse_int. pose proof (parse_i64_show (Z.of_nat (length l))) as Hp.
  unfold show_i64 in Hp. rewrite (proj2 (Z.ltb_ge _ _)) in Hp by lia. rewrite Hp by lia. done.
Qed.

Lemma forallb_line l : forallb line_byte l = true -> line_ok l.
Proof. intros Hl. apply Forall_forall. intros b Hb. by apply (proj1 (forallb_forall _ _) Hl), list_elem_of_In. Qed.

Lemma receive_items_encode fuel items s :
  (forall r s, r ∈ items -> receive fuel (encode_into r ++ s) =
     result_map (fun x => (x, s)) (seen_as r)) ->
  receive_items (receive fuel) (length items) (concat (map encode_into items) ++ s) =
  result_map (fun xs => (xs, s)) (seen_all items).
Proof.
  induction items as [|r items IH]; intros Hr; [done|]. cbn [length map concat].
  rewrite <- (assoc_L (++)). cbn [receive_items seen_all]. rewrite Hr by set_solver.
  destruct (seen_as r); cbn [result_map result_bind]; [|done].
  fold (receive_items (receive fuel)). rewrite IH by set_solver. fold seen_all.
  by destruct (seen_all items).
Qed.

Lemma reply_depth_item r items :
  r ∈ items -> (reply_depth r < reply_depth (RepArray items))%nat.
Proof.
  simpl. induction items as [|x items IH]; [set_solver|]. simpl.
  intros [->|Hr]%elem_of_cons; [lia|]. specialize (IH Hr). lia.
Qed.

Ltac wire_cbn :=
  cbn -[parse_int decimal Z.of_nat Z.add read_exact Z.to_nat receive_items take seen_as Z.ltb app].

Lemma receive_encode fuel r s :
  reply_ok r = true -> (reply_depth r <= fuel)%nat ->
  receive fuel (encode_into r ++ s) = result_map (fun x => (x, s)) (seen_as r).
Proof.
  revert r s. induction fuel as [|fuel IH]; intros r s Hok Hd; [destruct r; simpl in Hd; lia|].
  destruct r as [text|text|z|payload| |items]; cbn [encode_into reply_ok] in *.
  - apply forallb_line in Hok. cbn [app]. rewrite <- (assoc_L (++)). by rewrite receive_line.
  - apply forallb_line in Hok. cbn [app]. rewrite (assoc_L (++)), <- (assoc_L (++) _ CRLF).
    rewrite receive_line; [done|done|]. apply Forall_app. split; [by_decide_line|done].
  - cbn [app]. rewrite <- (assoc_L (++)). rewrite receive_line by (done || apply show_i64_line).
    bool_to_prop. cbn. unfold parse_int. by rewrite parse_i64_show by lia.
  - apply Z.ltb_lt in Hok. cbn [app]. rewrite <- !(assoc_L (++)).
    rewrite receive_line by (done || apply decimal_line; lia). wire_cbn.
    rewrite parse_int_length by done. wire_cbn.
    rewrite (proj2 (Z.ltb_ge _ _)) by lia. rewrite read_exact_app by done. wire_cbn.
    by rewrite Nat2Z.id, take_app_length.
  - change (bs "$-1" ++ CRLF) with (36 :: bs "-1" ++ CRLF). cbn [app]. rewrite <- (assoc_L (++)).
    rewrite receive_line; [done|done|by_decide_line].
  - apply andb_true_iff in Hok as [Hlen Hall]. apply Z.ltb_lt in Hlen. cbn [app].
    rewrite <- !(assoc_L (++)). rewrite receive_line by (done || apply decimal_line; lia). wire_cbn.
    rewrite parse_int_length by done. wire_cbn. rewrite (proj2 (Z.ltb_ge _ _)), Nat2Z.id by lia.
    rewrite receive_items_encode; [rewrite seen_as_array; by destruct (seen_all items)|].
    intros r s' Hr. apply IH; [by apply (proj1 (forallb_forall _ _) Hall), list_elem_of_In|].
    pose proof (reply_depth_item r items Hr). lia.
Qed.

Lemma length_concat_item (items : list Reply) r :
  r ∈ items -> (length (encode_into r) <= length (concat (map encode_into items)))%nat.
Proof.
  induction items as [|x items IH]; [set_solver|]. cbn [map concat]. rewrite length_app.
  intros [->|Hr]%elem_of_cons; [lia|]. specialize (IH Hr). lia.
Qed.

Lemma reply_depth_max items n :
  (forall r, r ∈ items -> (reply_depth r <= n)%nat) ->
  (foldr (fun r n => Nat.max (reply_depth r) n) 0%nat items <= n)%nat.
Proof.
  induction items as [|x items IH]; intros Hn; simpl; [lia|].
  pose proof (Hn x ltac:(set_solver)). specialize (IH ltac:(set_solver)). lia.
Qed.

Lemma reply_depth_length r : (reply_depth r <= length (encode_into r))%nat.
Proof.
  remember (reply_depth r) as n eqn:Hn. rewrite Hn. revert r Hn.
  induction (lt_wf n) as [n _ IH]; intros r ->.
  destruct r as [text|text|z|payload| |items];
    try (cbn [reply_depth encode_into length app]; lia); [vm_compute; lia|].
  cbn [encode_into length]. rewrite !length_app. cbn [reply_depth]. apply le_n_S.
  apply reply_depth_max. intros r Hr. pose proof (length_concat_item items r Hr).
  specialize (IH (reply_depth r) (reply_depth_item r items Hr) r eq_refl). lia.
Qed.

Lemma receive_reply_encode r s :
  reply_ok r = true ->
  receive_reply (encode_into r ++ s) = result_map (fun x => (x, s)) (seen_as r).
Proof.
  intros Hok. apply receive_encode; [done|]. rewrite length_app.
  pose proof (reply_depth_length r). lia.
Qed.

(** The client reads back what the server sends: a reply whose texts are single lines is
    decoded as its value, or as the first error in it, and exactly its bytes are consumed. *)
Lemma reply_round_trip r s :
  reply_ok r = true ->
  receive_reply (encode_into r ++ s) = result_map (fun x => (x, s)) (seen_as r).
Proof. apply receive_reply_encode. Qed.

(** ** Commands *)

Definition args_ok (args : list (list Z)) : bool :=
  (Z.of_nat (length args) <? 2 ^ 63) &&
  forallb (fun a => Z.of_nat (length a) <=? MAX_ARG_BYTES) args.

Lemma read_int_line_crlf n s :
  0 <= n < 2 ^ 63 -> read_int_line (decimal n ++ CRLF ++ s) = Ok (n, s).
Proof.
  intros Hn. unfold read_int_line. rewrite split_line_crlf by (apply decimal_line; lia).
  cbn [ok_or result_bind]. rewrite strip_cr_snoc, utf8_valid_ascii by (apply decimal_line; lia).
  pose proof (parse_i64_show n) as Hp. unfold show_i64 in Hp.
  rewrite (proj2 (Z.ltb_ge _ _)) in Hp by lia. by rewrite Hp by lia.
Qed.

Lemma read_arg_send a s :
  Z.of_nat (length a) <= MAX_ARG_BYTES -> read_arg (send_arg a ++ s) = Ok (a, s).
Proof.
  intros Ha. unfold read_arg, send_arg. cbn [app]. rewrite <- !(assoc_L (++)).
  cbn [Z.eqb Pos.eqb negb]. unfold MAX_ARG_BYTES in *.
  rewrite read_int_line_crlf by lia. cbn [result_bind].
  rewrite (proj2 (Z.leb_le _ _)), (proj2 (Z.leb_le _ _)) by lia. cbn [andb negb].
  rewrite read_exact_app by done. cbn [ok_or result_bind].
  by rewrite Nat2Z.id, take_app_length.
Qed.

Lemma read_args_send args s :
  forallb (fun a => Z.of_nat (length a) <=? MAX_ARG_BYTES) args = true ->
  read_args (length args) (concat (map send_arg args) ++ s) = Ok (args, s).
Proof.
  induction args as [|a args IH]; intros Hok; [done|]. cbn [forallb] in Hok.
  apply andb_true_iff in Hok as [Ha Hok]. apply Z.leb_le in Ha.
  cbn [length map concat read_args]. rewrite <- (assoc_L (++)), read_arg_send by done.
  cbn [result_bind]. by rewrite IH.
Qed.

(** The server reads back what the client sends: a command arrives with the same arguments,
    whatever bytes they hold, and the rest of the stream is untouched. *)
Lemma read_command_send args s :
  args_ok args = true -> read_command (send args ++ s) = Ok (Some args, s).
Proof.
  unfold args_ok. intros [Hlen Hok]%andb_true_iff. apply Z.ltb_lt in Hlen.
  unfold read_command, send. cbn [app]. rewrite <- !(assoc_L (++)). cbn [Z.eqb Pos.eqb negb].
  rewrite read_int_line_crlf by lia. cbn [result_bind].
  by rewrite Nat2Z.id, read_args_send.
Qed.

(** ** Termination and panics *)

Lemma split_line_shorter s l r : split_line s = Some (l, r) -> (length r < length s)%nat.
Proof.
  revert l r. induction s as [|b s IH]; intros l r Hs; [done|]. simpl in *.
  destruct (b =? 10); [simplify_eq; lia|].
  destruct (split_line s) as [[l' r']|] eqn:E; simplify_eq/=. specialize (IH _ _ eq_refl). lia.
Qed.

Lemma read_line_shorter s l r : read_line s = Ok (l, r) -> (length r < length s)%nat.
Proof.
  unfold read_line. intros H. apply result_bind_Ok in H as ([l' r'] & Hs & H).
  destruct (split_line s) as [[]|] eqn:E; simplify_eq/=. case_match; simplify_eq.
  by eapply split_line_shorter.
Qed.

Lemma read_exact_shorter n s p r : read_exact n s = Some (p, r) -> (length r <= length s)%nat.
Proof. unfold read_exact. case_match; [|done]. intros. simplify_eq. rewrite length_drop. lia. Qed.

(** A reply that is read leaves a shorter stream, and the fuel does not run out. *)
Definition reads_on (s : list Z) {A} (res : result resp_error (A * list Z)) : Prop :=
  match res with
  | Ok (_, r) => (length r <= length s)%nat
  | Err e => e <> OutOfFuel
  end.

Lemma receive_items_reads recv n s :
  (forall s', (length s' <= length s)%nat -> reads_on s' (recv s')) ->
  reads_on s (receive_items recv n s).
Proof.
  revert s. induction n as [|n IH]; intros s Hrecv; cbn [receive_items]; [simpl; lia|].
  pose proof (Hrecv s (le_n _)) as Hs. destruct (recv s) as [[x r]|]; cbn [result_bind]; [|done].
  fold (receive_items recv). simpl in Hs.
  pose proof (IH r) as Hr. destruct (receive_items recv n r) as [[xs r']|]; cbn [result_bind];
    simpl in *; [|apply Hr; intros; apply Hrecv; lia].
  enough (length r' <= length r)%nat by lia. apply Hr. intros. apply Hrecv. lia.
Qed.

Lemma parse_int_reads l : match parse_int l with Ok _ => True | Err e => e <> OutOfFuel end.
Proof. unfold parse_int. by destruct (parse_i64 l). Qed.

Lemma receive_reads fuel s : (length s < fuel)%nat -> reads_on s (receive fuel s).
Proof.
  revert s. induction fuel as [|fuel IH]; intros s Hf; [lia|]. cbn [receive].
  destruct (read_line s) as [[line r]|e] eqn:Hl; cbn [result_bind].
  2: { unfold read_line in Hl. destruct (split_line s) as [[]|]; simplify_eq/=; [|done]. by case_match; simplify_eq. }
  apply read_line_shorter in Hl. destruct line as [|kind rest]; [done|].
  pose proof (parse_int_reads rest) as Hint.
  destruct (match rest with [] => false | b :: _ => utf8_cont b end); [done|].
  destruct (kind =? 43); [simpl; lia|]. destruct (kind =? 45); [done|].
  destruct (parse_int rest) as [len|]; cbn [result_bind]; [|by repeat case_match].
  destruct (kind =? 58); [simpl; lia|]. destruct (kind =? 36).
  { destruct (len <? 0); [simpl; lia|]. destruct (read_exact (len + 2) r) as [[p r']|] eqn:He; [|done].
    apply read_exact_shorter in He. simpl. lia. }
  destruct (kind =? 42); [|done]. destruct (len <? 0); [simpl; lia|].
  pose proof (receive_items_reads (receive fuel) (Z.to_nat len) r) as Hi.
  destruct (receive_items _ _ r) as [[xs r']|]; simpl in *.
  - enough (length r' <= length r)%nat by lia. apply Hi. intros. apply IH. lia.
  - apply Hi. intros. apply IH. lia.
Qed.

Lemma receive_reply_total s : receive_reply s <> Err OutOfFuel.
Proof.
  unfold receive_reply. pose proof (receive_reads (S (length s)) s (le_n _)) as Hr.
  destruct (receive _ s) as [|e]; [done|]. simpl in Hr. congruence.
Qed.

(** An empty line where a reply should start makes the client panic rather than report a
    protocol error. *)
Lemma empty_reply_line_panics s : receive_reply (CRLF ++ s) = Err Panicked.
Proof. done. Qed.

(** ** Examples *)
Definition demo_reply : Reply :=
  RepArray [RepBulk (bs "0"); RepArray [RepBulk [255; 13; 10]; RepNull]; RepInt (-5)].
