(* ===== verification/MiniRedis.v ===== *)
(** [vmond/src/orch/miniredis.rs]: the key-value store with expiry and the streams behind the
    RESP wire, one definition per command; and the parts of [redis.rs] and [controller.rs]
    that run on it: the typed client calls, the leader lease of the schedulers and the
    follower of a stream.

    A command runs at an instant [now] in nanoseconds; texts of errors leave out the values
    they quote.  A blocking read is given what it finds each time it is woken up. *)

From S2P Require Import Prelude Decimal RedisWire.

Definition NANOS_PER_MILLI : Z := 1000000.

(** ** The store *)

Record StreamId : Type := mkStreamId { id_ms : Z; id_seq : Z }.

Definition STREAM_ZERO : StreamId := mkStreamId 0 0.

(** The derived order: milliseconds, then sequence. *)
Definition id_lt (a b : StreamId) : bool :=
  (id_ms a <? id_ms b) || ((id_ms a =? id_ms b) && (id_seq a <? id_seq b)).

Module StreamId.
Definition render (i : StreamId) : list Z := decimal (id_ms i) ++ 45 :: decimal (id_seq i).

Definition parse (text : list Z) : option StreamId :=
  '(ms, seq) ← split_once 45 text;
  m ← parse_unsigned 64 ms;
  s ← parse_unsigned 64 seq;
  Some (mkStreamId m s).
End StreamId.

Record KvEntry : Type := mkKvEntry { kv_value : list Z; expires_at : option Z }.

Definition kv_live (e : KvEntry) (now : Z) : bool :=
  match expires_at e with Some deadline => now <? deadline | None => true end.

Abbreviation StreamEntry := (StreamId * list (list Z * list Z))%type.

Record StreamLog : Type := mkStreamLog { entries : list StreamEntry; last_entry : StreamId }.

Definition StreamLog_default : StreamLog := mkStreamLog [] STREAM_ZERO.

Record Store : Type := mkStore { kv : gmap (list Z) KvEntry; streams : gmap (list Z) StreamLog }.

Definition set_kv (st : Store) (m : gmap (list Z) KvEntry) : Store := mkStore m (streams st).

(** ** Arguments *)

Definition text_arg (args : list (list Z)) (i : nat) : option (list Z) :=
  a ← args !! i; if utf8_valid a then Some a else None.

Definition ascii_upper (b : Z) : Z := if (97 <=? b) && (b <=? 122) then b - 32 else b.
Definition to_ascii_uppercase (s : list Z) : list Z := map ascii_upper s.
Definition eq_ignore_case (a b : list Z) : bool :=
  bool_decide (to_ascii_uppercase a = to_ascii_uppercase b).

Definition error (text : string) : Reply := RepError (bs text).
Definition OK : Reply := RepSimple (bs "OK").

(** ** Commands on keys *)

(** The option loop of [SET]: the time to live in nanoseconds, and [NX]. *)
Fixpoint set_options (fuel : nat) (args : list (list Z)) (cursor : nat) (ttl : option Z) (nx : bool)
  : result Reply (option Z * bool) :=
  match fuel with
  | O => Ok (ttl, nx)
  | S fuel =>
      if (length args <=? cursor)%nat then Ok (ttl, nx)
      else
        match to_ascii_uppercase <$> text_arg args cursor with
        | Some opt =>
            if bool_decide (opt = bs "PX") then
              match text_arg args (S cursor) ≫= parse_unsigned 64 with
              | Some ms => set_options fuel args (S (S cursor)) (Some (ms * NANOS_PER_MILLI)) nx
              | None => Err (error "PX requires milliseconds")
              end
            else if bool_decide (opt = bs "EX") then
              match text_arg args (S cursor) ≫= parse_unsigned 64 with
              | Some s => set_options fuel args (S (S cursor)) (Some (s * 1000 * NANOS_PER_MILLI)) nx
              | None => Err (error "EX requires seconds")
              end
            else if bool_decide (opt = bs "NX") then set_options fuel args (S cursor) ttl true
            else Err (error "unsupported SET option")
        | None => Err (error "unsupported SET option")
        end
  end.

Definition cmd_set (now : Z) (args : list (list Z)) (st : Store) : Reply * Store :=
  match text_arg args 1, args !! 2%nat with
  | Some key, Some value =>
      match set_options (length args) args 3 None false with
      | Err r => (r, st)
      | Ok (ttl, only_if_absent) =>
          let entry := mkKvEntry value (t ← ttl; Some (now + t)) in
          match kv st !! key with
          | Some old =>
              if only_if_absent && kv_live old now then (RepNull, st)
              else (OK, set_kv st (<[key := entry]> (kv st)))
          | None => (OK, set_kv st (<[key := entry]> (kv st)))
          end
      end
  | _, _ => (error "SET requires key and value", st)
  end.

Definition cmd_get (now : Z) (args : list (list Z)) (st : Store) : Reply * Store :=
  match text_arg args 1 with
  | None => (error "GET requires key", st)
  | Some key =>
      match kv st !! key with
      | Some e =>
          if kv_live e now then (RepBulk (kv_value e), st)
          else (RepNull, set_kv st (delete key (kv st)))
      | None => (RepNull, st)
      end
  end.

Definition cmd_del (args : list (list Z)) (st : Store) : Reply * Store :=
  let '(removed, m) :=
    fold_left (fun '(n, m) key =>
      if utf8_valid key && bool_decide (is_Some (m !! key)) then (n + 1, delete key m) else (n, m))
      (drop 1 args) (0, kv st) in
  (RepInt removed, set_kv st m).

(** [i64::saturating_add]. *)
Definition saturating_add_i64 (a b : Z) : Z := Z.max (- 2 ^ 63) (Z.min (2 ^ 63 - 1) (a + b)).

Definition cmd_incrby (now : Z) (args : list (list Z)) (st : Store) : Reply * Store :=
  match text_arg args 1, text_arg args 2 with
  | Some key, Some delta =>
      match parse_i64 delta with
      | None => (error "INCRBY delta must be an integer", st)
      | Some delta =>
          let entry := default (mkKvEntry (bs "0") None) (kv st !! key) in
          let m := <[key := entry]> (kv st) in
          let current :=
            if kv_live entry now
            then if utf8_valid (kv_value entry) then parse_i64 (trim (kv_value entry)) else None
            else Some 0 in
          match current with
          | None => (error "INCRBY target is not an integer", set_kv st m)
          | Some current =>
              let next := saturating_add_i64 current delta in
              (RepInt next, set_kv st (<[key := mkKvEntry (show_i64 next) None]> m))
          end
      end
  | _, _ => (error "INCRBY requires key and delta", st)
  end.

Definition cmd_pexpire (now : Z) (args : list (list Z)) (st : Store) : Reply * Store :=
  match text_arg args 1, text_arg args 2 ≫= parse_unsigned 64 with
  | Some key, Some ms =>
      match kv st !! key with
      | Some e =>
          if kv_live e now
          then (RepInt 1,
                set_kv st (<[key := mkKvEntry (kv_value e) (Some (now + ms * NANOS_PER_MILLI))]> (kv st)))
          else (RepInt 0, st)
      | None => (RepInt 0, st)
      end
  | _, _ => (error "PEXPIRE requires key and milliseconds", st)
  end.

(** [strip_suffix('*')]. *)
Definition strip_star (p : list Z) : option (list Z) :=
  match rev p with 42 :: r => Some (rev r) | _ => None end.

Definition starts_with (prefix s : list Z) : bool := bool_decide (take (length prefix) s = prefix).

Definition pattern_matches (pattern : option (list Z)) (key : list Z) : bool :=
  match pattern with
  | None => true
  | Some p =>
      bool_decide (p = [42]) ||
      match strip_star p with
      | Some prefix => starts_with prefix key
      | None => bool_decide (key = p)
      end
  end.

Fixpoint scan_options (fuel : nat) (args : list (list Z)) (cursor : nat) (pattern : option (list Z))
  : result Reply (option (list Z)) :=
  match fuel with
  | O => Ok pattern
  | S fuel =>
      if (length args <=? cursor)%nat then Ok pattern
      else
        match to_ascii_uppercase <$> text_arg args cursor with
        | Some opt =>
            if bool_decide (opt = bs "MATCH")
            then scan_options fuel args (S (S cursor)) (text_arg args (S cursor))
            else if bool_decide (opt = bs "COUNT") then scan_options fuel args (S (S cursor)) pattern
            else Err (error "unsupported SCAN option")
        | None => Err (error "unsupported SCAN option")
        end
  end.

(** [order]: the keys as the map is walked. *)
Definition cmd_scan (now : Z) (order : list (list Z)) (args : list (list Z)) (st : Store)
  : Reply * Store :=
  match scan_options (length args) args 2 None with
  | Err r => (r, st)
  | Ok pattern =>
      let live key := match kv st !! key with Some e => kv_live e now | None => false end in
      let matches := List.filter (fun key => live key && pattern_matches pattern key) order in
      (RepArray [RepBulk (bs "0"); RepArray (map RepBulk matches)], st)
  end.

(** ** Commands on streams *)

(** The pairs after the id; a lone last argument is dropped. *)
Fixpoint field_pairs (l : list (list Z)) : list (list Z * list Z) :=
  match l with
  | a :: b :: l => (a, b) :: field_pairs l
  | _ => []
  end.

(** The arguments of [XADD]: stream, limit and fields. *)
Definition xadd_args (args : list (list Z))
  : result Reply (list Z * option Z * list (list Z * list Z)) :=
  match text_arg args 1 with
  | None => Err (error "XADD requires stream")
  | Some stream =>
      '(maxlen, cursor) <-?
        match text_arg args 2 with
        | Some a =>
            if eq_ignore_case a (bs "MAXLEN") then
              let cursor := if bool_decide (text_arg args 3 = Some (bs "~")) then 4%nat else 3%nat in
              match text_arg args cursor ≫= parse_unsigned 64 with
              | Some limit => Ok (Some (Z.max limit 1), S cursor)
              | None => Err (error "MAXLEN requires a count")
              end
            else Ok (None, 2%nat)
        | None => Ok (None, 2%nat)
        end ;
      if negb (bool_decide (text_arg args cursor = Some (bs "*")))
      then Err (error "only auto ids are supported")
      else
        let fields := field_pairs (drop (S cursor) args) in
        if (length fields =? 0)%nat then Err (error "XADD requires field value pairs")
        else Ok (stream, maxlen, fields)
  end.

(** The id of a new entry; [ms] is the wall clock. *)
Definition next_id (ms : Z) (last : StreamId) : StreamId :=
  if id_ms last <? ms then mkStreamId ms 0 else mkStreamId (id_ms last) (id_seq last + 1).

(** [pop_front] while there are more than [limit]. *)
Definition trim_log (maxlen : option Z) (l : list StreamEntry) : list StreamEntry :=
  match maxlen with
  | Some limit => drop (length l - Z.to_nat limit) l
  | None => l
  end.

Definition append_log (ms : Z) (maxlen : option Z) (fields : list (list Z * list Z)) (log : StreamLog)
  : StreamId * StreamLog :=
  let id := next_id ms (last_entry log) in
  (id, mkStreamLog (trim_log maxlen (entries log ++ [(id, fields)])) id).

Definition cmd_xadd (ms : Z) (args : list (list Z)) (st : Store) : Reply * Store :=
  match xadd_args args with
  | Err r => (r, st)
  | Ok (stream, maxlen, fields) =>
      let log := default StreamLog_default (streams st !! stream) in
      let '(id, log) := append_log ms maxlen fields log in
      (RepBulk (StreamId.render id), mkStore (kv st) (<[stream := log]> (streams st)))
  end.

(** The arguments of [XREAD]: whether it blocks, stream and position ([None] for [$]). *)
Definition xread_args (args : list (list Z)) : result Reply (bool * list Z * option StreamId) :=
  '(block, cursor) <-?
    match text_arg args 1 with
    | Some a =>
        if eq_ignore_case a (bs "BLOCK") then
          match text_arg args 2 ≫= parse_unsigned 64 with
          | Some _ => Ok (true, 3%nat)
          | None => Err (error "BLOCK requires milliseconds")
          end
        else Ok (false, 1%nat)
    | None => Ok (false, 1%nat)
    end ;
  if negb (match text_arg args cursor with Some a => eq_ignore_case a (bs "STREAMS") | None => false end)
  then Err (error "XREAD requires STREAMS")
  else
    match text_arg args (S cursor), text_arg args (S (S cursor)) with
    | Some stream, Some after_raw =>
        if bool_decide (after_raw = [36]) then Ok (block, stream, None)
        else
          match StreamId.parse after_raw with
          | Some id => Ok (block, stream, Some id)
          | None => Err (error "bad stream id")
          end
    | _, _ => Err (error "XREAD requires one stream and one id")
    end.

Definition render_entry (e : StreamEntry) : Reply :=
  RepArray [RepBulk (StreamId.render (fst e));
            RepArray (concat (map (fun f => [RepBulk (fst f); RepBulk (snd f)]) (snd e)))].

(** The entries after a position. *)
Definition fresh_entries (floor : StreamId) (log : option StreamLog) : list StreamEntry :=
  match log with
  | Some log => List.filter (fun e => id_lt floor (fst e)) (entries log)
  | None => []
  end.

Definition tail_of (log : option StreamLog) : StreamId :=
  match log with Some log => last_entry log | None => STREAM_ZERO end.

(** The loop of [XREAD]: [polls] is the log each time it is looked at, up to the end of the
    block window; the position of [$] is the tail of the first look. *)
Fixpoint xread_loop (block : bool) (stream : list Z) (after : option StreamId)
    (polls : list (option StreamLog)) : Reply :=
  match polls with
  | [] => RepNull
  | log :: polls =>
      let floor := match after with Some id => id | None => tail_of log end in
      match fresh_entries floor log with
      | [] => if block then xread_loop block stream (Some floor) polls else RepNull
      | fresh => RepArray [RepArray [RepBulk stream; RepArray (map render_entry fresh)]]
      end
  end.

Definition cmd_xread (args : list (list Z)) (polls : list (option StreamLog)) : Reply :=
  match xread_args args with
  | Err r => r
  | Ok (block, stream, after) => xread_loop block stream after polls
  end.

(** ** Dispatch *)

(** What a command needs beside its arguments. *)
Record Env : Type := mkEnv {
  env_now : Z; env_ms : Z; env_order : list (list Z); env_polls : list (option StreamLog) }.

Definition dispatch (env : Env) (args : list (list Z)) (st : Store) : Reply * Store :=
  match args with
  | [] => (error "empty command", st)
  | command :: _ =>
      let c := to_ascii_uppercase command in
      if bool_decide (c = bs "PING") then (RepSimple (bs "PONG"), st)
      else if bool_decide (c = bs "AUTH") then (OK, st)
      else if bool_decide (c = bs "SET") then cmd_set (env_now env) args st
      else if bool_decide (c = bs "GET") then cmd_get (env_now env) args st
      else if bool_decide (c = bs "DEL") then cmd_del args st
      else if bool_decide (c = bs "INCRBY") then cmd_incrby (env_now env) args st
      else if bool_decide (c = bs "PEXPIRE") then cmd_pexpire (env_now env) args st
      else if bool_decide (c = bs "SCAN") then cmd_scan (env_now env) (env_order env) args st
      else if bool_decide (c = bs "XADD") then cmd_xadd (env_ms env) args st
      else if bool_decide (c = bs "XREAD") then (cmd_xread args (env_polls env), st)
      else (error "unknown command", st)
  end.

(** ** The client *)

(** How one attempt ends: the reply arrives, or the connection breaks before the server saw
    the command, or after. *)
Inductive attempt : Type := Answered | LostBefore | LostAfter.

Definition call_once (env : Env) (args : list (list Z)) (a : attempt) (st : Store)
  : result resp_error Resp * Store :=
  match a with
  | LostBefore => (Err RedisRead, st)
  | LostAfter => (Err RedisRead, snd (dispatch env args st))
  | Answered =>
      let '(reply, st) := dispatch env args st in
      (result_map fst (receive_reply (encode_into reply)), st)
  end.

(** [Redis::call]: a broken connection is retried once; a redis error is not. *)
Definition call (env : Env) (args : list (list Z)) (a1 a2 : attempt) (st : Store)
  : result resp_error Resp * Store :=
  match call_once env args a1 st with
  | (Ok r, st) => (Ok r, st)
  | (Err (RedisError t), st) => (Err (RedisError t), st)
  | (Err _, st) => call_once env args a2 st
  end.

Module Redis.
Definition ping (env : Env) (a1 a2 : attempt) (st : Store) : result resp_error () * Store :=
  let '(r, st) := call env [bs "PING"] a1 a2 st in (result_map (fun _ => ()) r, st).

Definition get (env : Env) (key : list Z) (a1 a2 : attempt) (st : Store)
  : result resp_error (option (list Z)) * Store :=
  let '(r, st) := call env [bs "GET"; key] a1 a2 st in (result_map Resp.into_bytes r, st).

Definition set_px (env : Env) (key value : list Z) (px : Z) (a1 a2 : attempt) (st : Store)
  : result resp_error () * Store :=
  let '(r, st) := call env [bs "SET"; key; value; bs "PX"; decimal px] a1 a2 st in
  (result_map (fun _ => ()) r, st).

Definition set_nx_px (env : Env) (key value : list Z) (px : Z) (a1 a2 : attempt) (st : Store)
  : result resp_error bool * Store :=
  let '(r, st) := call env [bs "SET"; key; value; bs "PX"; decimal px; bs "NX"] a1 a2 st in
  (result_map (fun r => match r with RSimple _ => true | _ => false end) r, st).

Definition del (env : Env) (key : list Z) (a1 a2 : attempt) (st : Store)
  : result resp_error () * Store :=
  let '(r, st) := call env [bs "DEL"; key] a1 a2 st in (result_map (fun _ => ()) r, st).

Definition pexpire (env : Env) (key : list Z) (ms : Z) (a1 a2 : attempt) (st : Store)
  : result resp_error () * Store :=
  let '(r, st) := call env [bs "PEXPIRE"; key; decimal ms] a1 a2 st in
  (result_map (fun _ => ()) r, st).

Definition incr_by (env : Env) (key : list Z) (delta : Z) (a1 a2 : attempt) (st : Store)
  : result resp_error Z * Store :=
  let '(r, st) := call env [bs "INCRBY"; key; decimal delta] a1 a2 st in
  (z <-? r ; match z with RInt v => Ok v | _ => Err UnexpectedType end, st).

Definition xadd (env : Env) (stream : list Z) (maxlen : Z) (payload : list Z) (a1 a2 : attempt)
    (st : Store) : result resp_error (list Z) * Store :=
  let '(r, st) := call env [bs "XADD"; stream; bs "MAXLEN"; bs "~"; decimal maxlen; bs "*"; bs "d";
                            payload] a1 a2 st in
  (r <-? r ; ok_or (Resp.into_string r) UnexpectedType, st).
End Redis.

(** ** The leader lease: [controller.rs] *)

Definition LEADER : list Z := bs "vmon:o:leader".

(** [LeaderLease::new]: the time to live in milliseconds, from nanoseconds. *)
Definition lease_ttl_ms (ttl : Z) : Z := Z.max 1 (Z.min (ttl / NANOS_PER_MILLI) (2 ^ 64 - 1)).

Lemma lease_ttl_range ttl : 0 < lease_ttl_ms ttl < 2 ^ 64.
Proof. unfold lease_ttl_ms. lia. Qed.

(** The outcomes of the two attempts of a call. *)
Abbreviation attempts := (attempt * attempt)%type.

(** What [tick] does after each of its commands: it is over, or the next command follows. *)
Inductive progress : Type := Won | Lost | AskHolder | Renew.

Definition after_set (r : result resp_error bool) : progress :=
  match r with Ok true => Won | Ok false => AskHolder | Err _ => Lost end.
Definition after_get (h : list Z) (r : result resp_error (option (list Z))) : progress :=
  match r with Ok (Some value) => if bool_decide (value = h) then Renew else Lost | _ => Lost end.
Definition after_pexpire (r : result resp_error ()) : progress := if is_ok r then Won else Lost.

Definition won (p : progress) : bool := match p with Won => true | _ => false end.

(** The branch of [tick] for a key that exists: extend it if it is one's own.  [f] is what
    others do to the store between the commands. *)
Definition lease_renew (h : list Z) (ttl_ms : Z) (e2 e3 : Env) (a2 a3 : attempts)
    (f : Store -> Store) (st : Store) : bool * Store :=
  let '(r, st) := Redis.get e2 LEADER (fst a2) (snd a2) st in
  match after_get h r with
  | Renew => let '(r, st) := Redis.pexpire e3 LEADER ttl_ms (fst a3) (snd a3) (f st) in (won (after_pexpire r), st)
  | p => (won p, st)
  end.

(** [LeaderLease::tick]: [e1], [e2] and [e3] are the moments of its commands. *)
Definition lease_tick (h : list Z) (ttl_ms : Z) (e1 e2 e3 : Env) (a1 a2 a3 : attempts)
    (f1 f2 : Store -> Store) (st : Store) : bool * Store :=
  let '(r, st) := Redis.set_nx_px e1 LEADER h ttl_ms (fst a1) (snd a1) st in
  match after_set r with
  | AskHolder => lease_renew h ttl_ms e2 e3 a2 a3 f2 (f1 st)
  | p => (won p, st)
  end.

(** *** What the lease's commands do *)

Definition leader_entry (h : list Z) (now ttl_ms : Z) : KvEntry :=
  mkKvEntry h (Some (now + ttl_ms * NANOS_PER_MILLI)).

Lemma text_arg_decimal n args i :
  args !! i = Some (decimal n) -> 0 <= n < 2 ^ 64 ->
  text_arg args i ≫= parse_unsigned 64 = Some n.
Proof.
  intros Ha Hn. unfold text_arg. rewrite Ha. cbn. rewrite utf8_valid_ascii by (apply decimal_line; lia).
  cbn. apply parse_unsigned_decimal; lia.
Qed.

Lemma dispatch_set_nx env h ttl st :
  0 <= ttl < 2 ^ 64 ->
  dispatch env [bs "SET"; LEADER; h; bs "PX"; decimal ttl; bs "NX"] st =
  match kv st !! LEADER with
  | Some old =>
      if kv_live old (env_now env) then (RepNull, st)
      else (OK, set_kv st (<[LEADER := leader_entry h (env_now env) ttl]> (kv st)))
  | None => (OK, set_kv st (<[LEADER := leader_entry h (env_now env) ttl]> (kv st)))
  end.
Proof.
  intros Httl. set (args := [bs "SET"; LEADER; h; bs "PX"; decimal ttl; bs "NX"]).
  assert (Hopt : set_options (length args) args 3 None false =
    Ok (Some (ttl * NANOS_PER_MILLI), true)).
  { cbn [length args set_options].
    change (to_ascii_uppercase <$> text_arg args 3) with (Some (bs "PX")). cbn [Nat.leb].
    rewrite bool_decide_eq_true_2 by done. rewrite (text_arg_decimal ttl) by done. reflexivity. }
  change (dispatch env args st) with (cmd_set (env_now env) args st). unfold cmd_set.
  change (text_arg args 1) with (Some LEADER). change (args !! 2%nat) with (Some h).
  rewrite Hopt. reflexivity.
Qed.

Lemma dispatch_get env st :
  dispatch env [bs "GET"; LEADER] st =
  match kv st !! LEADER with
  | Some e =>
      if kv_live e (env_now env) then (RepBulk (kv_value e), st)
      else (RepNull, set_kv st (delete LEADER (kv st)))
  | None => (RepNull, st)
  end.
Proof. reflexivity. Qed.

Lemma dispatch_pexpire env ttl st :
  0 <= ttl < 2 ^ 64 ->
  dispatch env [bs "PEXPIRE"; LEADER; decimal ttl] st =
  match kv st !! LEADER with
  | Some e =>
      if kv_live e (env_now env)
      then (RepInt 1, set_kv st (<[LEADER := leader_entry (kv_value e) (env_now env) ttl]> (kv st)))
      else (RepInt 0, st)
  | None => (RepInt 0, st)
  end.
Proof.
  intros Httl. set (args := [bs "PEXPIRE"; LEADER; decimal ttl]).
  change (dispatch env args st) with (cmd_pexpire (env_now env) args st). unfold cmd_pexpire.
  change (text_arg args 1) with (Some LEADER). by rewrite (text_arg_decimal ttl).
Qed.

(** *** Calls with broken connections *)

Lemma call_states env args a1 a2 st :
  let D s := snd (dispatch env args s) in
  snd (call env args a1 a2 st) = st \/ snd (call env args a1 a2 st) = D st \/
  snd (call env args a1 a2 st) = D (D st).
Proof.
  intros D. assert (Honce : forall a s, snd (call_once env args a s) = s \/ snd (call_once env args a s) = D s).
  { intros a s. unfold D, call_once. destruct a; auto. destruct (dispatch env args s); auto. }
  unfold call. pose proof (Honce a1 st) as H1. destruct (call_once env args a1 st) as [[r|[t| | | | | |]] s];
    simpl in *; try tauto; destruct (Honce a2 s) as [->| ->]; destruct H1 as [->| ->]; auto.
Qed.

(** A call that succeeds was answered by the server in the state before or after one lost
    execution. *)
Lemma call_answered env args a1 a2 st r :
  let D s := snd (dispatch env args s) in
  (forall s, s = st \/ s = D st -> reply_ok (fst (dispatch env args s)) = true) ->
  fst (call env args a1 a2 st) = Ok r ->
  exists s0, (s0 = st \/ s0 = D st) /\ snd (call env args a1 a2 st) = D s0 /\
    seen_as (fst (dispatch env args s0)) = Ok r.
Proof.
  intros D Hok.
  assert (Honce : forall a s, s = st \/ s = D st ->
    match call_once env args a s with
    | (Ok r, s') => s' = D s /\ seen_as (fst (dispatch env args s)) = Ok r
    | (Err _, s') => s' = s \/ s' = D s
    end).
  { intros a s Hs. specialize (Hok s Hs). unfold D, call_once. destruct a; [|auto..].
    destruct (dispatch env args s) as [reply s'] eqn:E; simpl in *.
    pose proof (receive_reply_encode reply [] Hok) as Hr. rewrite app_nil_r in Hr. rewrite Hr.
    destruct (seen_as reply); simpl; auto. }
  unfold call. pose proof (Honce a1 st (or_introl eq_refl)) as H1.
  destruct (call_once env args a1 st) as [[x|[t| | | | | |]] s]; simpl in *; try done;
    [intros [= ->]; destruct H1 as [-> H1]; exists st; auto|..];
    pose proof (Honce a2 s H1) as H2; destruct (call_once env args a2 s) as [[x|] s'];
    simpl; try done; intros [= ->]; destruct H2 as [-> H2]; exists s; auto.
Qed.

(** A command that changes nothing and has one reply. *)
Lemma call_fixed env args a1 a2 st reply :
  dispatch env args st = (reply, st) -> reply_ok reply = true ->
  snd (call env args a1 a2 st) = st /\
  forall r, fst (call env args a1 a2 st) = Ok r -> seen_as reply = Ok r.
Proof.
  intros Hd Hok. split.
  - pose proof (call_states env args a1 a2 st) as Hs. cbv beta zeta in Hs. rewrite !Hd in Hs.
    cbn [snd] in Hs. rewrite Hd in Hs. cbn [snd] in Hs. tauto.
  - intros r Hr. apply call_answered in Hr as (s0 & Hs0 & _ & Hr).
    + rewrite Hd in Hs0. cbn [snd] in Hs0. assert (s0 = st) as -> by tauto. by rewrite Hd in Hr.
    + intros s Hs. rewrite Hd in Hs. cbn [snd] in Hs. assert (s = st) as -> by tauto. by rewrite Hd.
Qed.

(** ** The lease *)

Section lease.
Context (ttl : Z) (Httl : 0 < ttl < 2 ^ 64).

Lemma leader_entry_live h now : kv_live (leader_entry h now ttl) now = true.
Proof. unfold kv_live, leader_entry, NANOS_PER_MILLI. simpl. apply Z.ltb_lt. lia. Qed.

(** [SET NX] on a key that is live. *)
Lemma set_nx_live env h e a1 a2 st :
  kv st !! LEADER = Some e -> kv_live e (env_now env) = true ->
  snd (Redis.set_nx_px env LEADER h ttl a1 a2 st) = st /\
  fst (Redis.set_nx_px env LEADER h ttl a1 a2 st) <> Ok true.
Proof.
  intros He Hlive. unfold Redis.set_nx_px.
  assert (Hd : dispatch env [bs "SET"; LEADER; h; bs "PX"; decimal ttl; bs "NX"] st = (RepNull, st))
    by (rewrite dispatch_set_nx by lia; by rewrite He, Hlive).
  generalize dependent ([bs "SET"; LEADER; h; bs "PX"; decimal ttl; bs "NX"]). intros args Hd.
  destruct (call_fixed env args a1 a2 st RepNull) as [Hs Hr]; [done..|].
  destruct (call env args a1 a2 st) as [res s]; simpl in *. split; [done|].
  destruct res as [r|]; [|done]. injection (Hr r eq_refl) as <-. done.
Qed.

(** [GET] of a key that is live. *)
Lemma get_live env e a1 a2 st :
  kv st !! LEADER = Some e -> kv_live e (env_now env) = true ->
  Z.of_nat (length (kv_value e)) < 2 ^ 63 ->
  snd (Redis.get env LEADER a1 a2 st) = st /\
  forall r, fst (Redis.get env LEADER a1 a2 st) = Ok r -> r = Some (kv_value e).
Proof.
  intros He Hlive Hlen. unfold Redis.get.
  assert (Hd : dispatch env [bs "GET"; LEADER] st = (RepBulk (kv_value e), st))
    by (rewrite dispatch_get; by rewrite He, Hlive).
  generalize dependent ([bs "GET"; LEADER]). intros args Hd.
  destruct (call_fixed env args a1 a2 st (RepBulk (kv_value e))) as [Hs Hr]; [done|by apply Z.ltb_lt|].
  destruct (call env args a1 a2 st) as [[r|] s]; simpl in *; split; try done.
  intros r' [= <-]. by injection (Hr r eq_refl) as <-.
Qed.

(** [PEXPIRE] of a key that is live: it stays with its value, under the old or the new
    deadline, and under the new one if the call succeeded. *)
Lemma pexpire_live env e a1 a2 st :
  kv st !! LEADER = Some e -> kv_live e (env_now env) = true ->
  let st' := snd (Redis.pexpire env LEADER ttl a1 a2 st) in
  (kv st' !! LEADER = Some e \/
   kv st' !! LEADER = Some (leader_entry (kv_value e) (env_now env) ttl)) /\
  (is_ok (fst (Redis.pexpire env LEADER ttl a1 a2 st)) = true ->
   kv st' !! LEADER = Some (leader_entry (kv_value e) (env_now env) ttl)).
Proof.
  intros He Hlive. unfold Redis.pexpire.
  assert (Hd : forall s e, kv s !! LEADER = Some e -> kv_live e (env_now env) = true ->
    fst (dispatch env [bs "PEXPIRE"; LEADER; decimal ttl] s) = RepInt 1 /\
    kv (snd (dispatch env [bs "PEXPIRE"; LEADER; decimal ttl] s)) !! LEADER =
      Some (leader_entry (kv_value e) (env_now env) ttl)).
  { intros s e0 He0 Hl0. rewrite dispatch_pexpire by lia. rewrite He0, Hl0. simpl.
    by rewrite lookup_insert_eq. }
  generalize dependent ([bs "PEXPIRE"; LEADER; decimal ttl]). intros args Hd.
  destruct (Hd st e He Hlive) as [Hr1 Hk1].
  destruct (Hd _ _ Hk1 (leader_entry_live _ _)) as [Hr2 Hk2]. simpl in Hk2.
  pose proof (call_states env args a1 a2 st) as Hs. pose proof (call_answered env args a1 a2 st) as Ha.
  destruct (call env args a1 a2 st) as [[r|] s]; cbn [fst snd result_map is_ok] in *;
    (split; [destruct Hs as [->|[->| ->]]; auto|]); [intros _|done].
  destruct (Ha r) as (s0 & [->| ->] & -> & _); [|done|done|done].
  intros s' [->| ->]; [by rewrite Hr1|by rewrite Hr2].
Qed.

(** [SET NX] on a key that is not live: nothing happens, or the key goes to the caller. *)
Lemma set_nx_dead env h a1 a2 st :
  match kv st !! LEADER with Some e => kv_live e (env_now env) | None => false end = false ->
  snd (Redis.set_nx_px env LEADER h ttl a1 a2 st) = st \/
  kv (snd (Redis.set_nx_px env LEADER h ttl a1 a2 st)) !! LEADER = Some (leader_entry h (env_now env) ttl).
Proof.
  intros Hdead. unfold Redis.set_nx_px.
  set (args := [bs "SET"; LEADER; h; bs "PX"; decimal ttl; bs "NX"]).
  assert (H1 : kv (snd (dispatch env args st)) !! LEADER = Some (leader_entry h (env_now env) ttl)).
  { unfold args. rewrite dispatch_set_nx by lia. destruct (kv st !! LEADER); [rewrite Hdead|]; cbn; apply lookup_insert_eq. }
  assert (H2 : kv (snd (dispatch env args (snd (dispatch env args st)))) !! LEADER = Some (leader_entry h (env_now env) ttl)).
  { unfold args in H1 |- *. rewrite dispatch_set_nx by lia. rewrite H1, leader_entry_live. done. }
  pose proof (call_states env args a1 a2 st) as Hs. cbv beta zeta in Hs.
  destruct (call env args a1 a2 st) as [r s]. cbn [snd] in *. destruct Hs as [->|[->| ->]]; auto.
Qed.

(** [SET NX] that succeeds leaves the caller as holder. *)
Lemma set_nx_true env h a1 a2 st :
  fst (Redis.set_nx_px env LEADER h ttl a1 a2 st) = Ok true ->
  kv (snd (Redis.set_nx_px env LEADER h ttl a1 a2 st)) !! LEADER =
  Some (leader_entry h (env_now env) ttl).
Proof.
  unfold Redis.set_nx_px.
  assert (Hd : forall s,
    dispatch env [bs "SET"; LEADER; h; bs "PX"; decimal ttl; bs "NX"] s = (RepNull, s) \/
    fst (dispatch env [bs "SET"; LEADER; h; bs "PX"; decimal ttl; bs "NX"] s) = OK /\
    kv (snd (dispatch env [bs "SET"; LEADER; h; bs "PX"; decimal ttl; bs "NX"] s)) !! LEADER =
      Some (leader_entry h (env_now env) ttl)).
  { intros s. rewrite dispatch_set_nx by lia.
    destruct (kv s !! LEADER) as [old|]; [destruct (kv_live old _); [by left|]|];
      right; simpl; by rewrite lookup_insert_eq. }
  generalize dependent ([bs "SET"; LEADER; h; bs "PX"; decimal ttl; bs "NX"]). intros args Hd.
  pose proof (call_answered env args a1 a2 st) as Ha.
  destruct (call env args a1 a2 st) as [[r|] s]; cbn [fst snd result_map] in *; [|done].
  intros Hr. destruct (Ha r) as (s0 & _ & -> & Hseen); [|done|].
  - intros s' _. destruct (Hd s') as [-> |[-> _]]; done.
  - destruct (Hd s0) as [E|[E Hk]]; [|done]. rewrite E in Hseen. simpl in Hseen.
    injection Hseen as <-. done.
Qed.

(** [SET NX] that is refused on a dead key was executed before: the key is the caller's. *)
Lemma set_nx_false env h a1 a2 st :
  match kv st !! LEADER with Some e => kv_live e (env_now env) | None => false end = false ->
  fst (Redis.set_nx_px env LEADER h ttl a1 a2 st) = Ok false ->
  kv (snd (Redis.set_nx_px env LEADER h ttl a1 a2 st)) !! LEADER =
  Some (leader_entry h (env_now env) ttl).
Proof.
  intros Hdead. unfold Redis.set_nx_px.
  assert (H1 : dispatch env [bs "SET"; LEADER; h; bs "PX"; decimal ttl; bs "NX"] st =
    (OK, set_kv st (<[LEADER := leader_entry h (env_now env) ttl]> (kv st)))).
  { rewrite dispatch_set_nx by lia. destruct (kv st !! LEADER); [by rewrite Hdead|done]. }
  assert (H2 : dispatch env [bs "SET"; LEADER; h; bs "PX"; decimal ttl; bs "NX"]
      (set_kv st (<[LEADER := leader_entry h (env_now env) ttl]> (kv st))) =
    (RepNull, set_kv st (<[LEADER := leader_entry h (env_now env) ttl]> (kv st)))).
  { rewrite dispatch_set_nx by lia. simpl. by rewrite lookup_insert_eq, leader_entry_live. }
  generalize dependent ([bs "SET"; LEADER; h; bs "PX"; decimal ttl; bs "NX"]). intros args H1 H2.
  pose proof (call_answered env args a1 a2 st) as Ha. cbv beta zeta in Ha. rewrite H1 in Ha. cbn [snd] in Ha.
  destruct (call env args a1 a2 st) as [[r|] s]; cbn [fst snd result_map] in *; [|done].
  intros Hr. destruct (Ha r) as (s0 & [->| ->] & -> & Hseen); [|done| |].
  - intros s' [->| ->]; [by rewrite H1|by rewrite H2].
  - rewrite H1 in Hseen. cbn in Hseen. injection Hseen as <-. done.
  - rewrite H2. simpl. apply lookup_insert_eq.
Qed.

Lemma entry_live h d now : kv_live (mkKvEntry h (Some d)) now = (now <? d).
Proof. done. Qed.

(** What a command of a scheduler does to the lease: a live one keeps its holder, under its old deadline or a
    new one; one that is over stays, is deleted, or goes to the caller. *)
Definition evolves (now : Z) (h : list Z) (st st' : Store) : Prop :=
  match kv st !! LEADER with
  | Some e => if kv_live e now then kv st' !! LEADER = Some e \/ kv st' !! LEADER = Some (leader_entry (kv_value e) now ttl)
              else kv st' !! LEADER = Some e \/ kv st' !! LEADER = None \/ kv st' !! LEADER = Some (leader_entry h now ttl)
  | None => kv st' !! LEADER = None \/ kv st' !! LEADER = Some (leader_entry h now ttl)
  end.

Lemma set_nx_evolves env h a1 a2 st : evolves (env_now env) h st (snd (Redis.set_nx_px env LEADER h ttl a1 a2 st)).
Proof.
  unfold evolves. destruct (kv st !! LEADER) as [e|] eqn:He; [destruct (kv_live e (env_now env)) eqn:Hl|].
  - left. destruct (set_nx_live env h e a1 a2 st He Hl) as [-> _]. done.
  - assert (Hs : snd (Redis.set_nx_px env LEADER h ttl a1 a2 st) = st \/
      kv (snd (Redis.set_nx_px env LEADER h ttl a1 a2 st)) !! LEADER = Some (leader_entry h (env_now env) ttl)).
    { by apply set_nx_dead; rewrite He. }
    destruct Hs as [->|Hs]; auto.
  - assert (Hs : snd (Redis.set_nx_px env LEADER h ttl a1 a2 st) = st \/
      kv (snd (Redis.set_nx_px env LEADER h ttl a1 a2 st)) !! LEADER = Some (leader_entry h (env_now env) ttl)).
    { by apply set_nx_dead; rewrite He. }
    destruct Hs as [->|Hs]; auto.
Qed.

Lemma get_evolves env h a1 a2 st :
  (forall e, kv st !! LEADER = Some e -> Z.of_nat (length (kv_value e)) < 2 ^ 63) ->
  evolves (env_now env) h st (snd (Redis.get env LEADER a1 a2 st)).
Proof.
  intros Hsmall. unfold evolves. destruct (kv st !! LEADER) as [e|] eqn:He; [destruct (kv_live e (env_now env)) eqn:Hl|].
  - left. destruct (get_live env e a1 a2 st He Hl (Hsmall _ eq_refl)) as [-> _]. done.
  - unfold Redis.get. pose proof (call_states env [bs "GET"; LEADER] a1 a2 st) as Hs. cbv beta zeta in Hs.
    assert (Hd : forall s, kv s !! LEADER = Some e \/ kv s !! LEADER = None -> kv (snd (dispatch env [bs "GET"; LEADER] s)) !! LEADER = None).
    { intros s [Hk|Hk]; rewrite dispatch_get, Hk; [rewrite Hl; cbn; apply lookup_delete_eq|done]. }
    destruct (call env [bs "GET"; LEADER] a1 a2 st) as [r s]. cbn [snd] in *.
    destruct Hs as [->|[->| ->]]; [by left|right; left; apply Hd; by left|right; left; apply Hd; right; apply Hd; by left].
  - unfold Redis.get. pose proof (call_states env [bs "GET"; LEADER] a1 a2 st) as Hs. cbv beta zeta in Hs.
    assert (Hd : forall s, kv s !! LEADER = None -> kv (snd (dispatch env [bs "GET"; LEADER] s)) !! LEADER = None)
      by (intros s Hk; by rewrite dispatch_get, Hk).
    destruct (call env [bs "GET"; LEADER] a1 a2 st) as [r s]. cbn [snd] in *. destruct Hs as [->|[->| ->]]; auto.
Qed.

Lemma pexpire_evolves env h a1 a2 st : evolves (env_now env) h st (snd (Redis.pexpire env LEADER ttl a1 a2 st)).
Proof.
  unfold evolves. destruct (match kv st !! LEADER with Some e => kv_live e (env_now env) | None => false end) eqn:Hl.
  - destruct (kv st !! LEADER) as [e|] eqn:He; [|done]. rewrite Hl. by apply (pexpire_live env e a1 a2 st He Hl).
  - assert (Hs : snd (Redis.pexpire env LEADER ttl a1 a2 st) = st).
    { unfold Redis.pexpire. assert (Hd : snd (dispatch env [bs "PEXPIRE"; LEADER; decimal ttl] st) = st).
      { rewrite dispatch_pexpire by lia. destruct (kv st !! LEADER); [by rewrite Hl|done]. }
      pose proof (call_states env [bs "PEXPIRE"; LEADER; decimal ttl] a1 a2 st) as Hs. cbv beta zeta in Hs. rewrite !Hd in Hs.
      destruct (call env _ a1 a2 st) as [r s]. cbn [snd] in *. tauto. }
    rewrite Hs. destruct (kv st !! LEADER) as [e|]; [rewrite Hl; by left|by left].
Qed.

(** A [GET] that finds a name finds the holder of a live lease. *)
Lemma get_holder env a1 a2 st v :
  (forall e, kv st !! LEADER = Some e -> Z.of_nat (length (kv_value e)) < 2 ^ 63) ->
  fst (Redis.get env LEADER a1 a2 st) = Ok (Some v) ->
  exists e, kv st !! LEADER = Some e /\ kv_live e (env_now env) = true /\ kv_value e = v /\ kv (snd (Redis.get env LEADER a1 a2 st)) !! LEADER = Some e.
Proof.
  intros Hsmall Hr. destruct (match kv st !! LEADER with Some e => kv_live e (env_now env) | None => false end) eqn:Hl.
  - destruct (kv st !! LEADER) as [e|] eqn:He; [|done]. exists e. destruct (get_live env e a1 a2 st He Hl (Hsmall _ eq_refl)) as [Hs Hv].
    apply Hv in Hr. injection Hr as ->. rewrite Hs. auto.
  - exfalso. unfold Redis.get in Hr.
    assert (Hd : forall s, s = st \/ s = snd (dispatch env [bs "GET"; LEADER] st) -> fst (dispatch env [bs "GET"; LEADER] s) = RepNull).
    { assert (H1 : forall s, match kv s !! LEADER with Some e => kv_live e (env_now env) | None => false end = false ->
        fst (dispatch env [bs "GET"; LEADER] s) = RepNull /\
        match kv (snd (dispatch env [bs "GET"; LEADER] s)) !! LEADER with Some e => kv_live e (env_now env) | None => false end = false).
      { intros s Hk. rewrite dispatch_get. destruct (kv s !! LEADER) as [e|] eqn:He; [rewrite Hk|]; (split; [done|]); cbn [snd]; [cbn [kv set_kv]; by rewrite lookup_delete_eq|by rewrite He]. }
      intros s [->| ->]; apply H1; [done|by apply H1]. }
    pose proof (call_answered env [bs "GET"; LEADER] a1 a2 st) as Ha. cbv beta zeta in Ha.
    destruct (call env [bs "GET"; LEADER] a1 a2 st) as [[r|] s]; cbn in Hr; [|done].
    destruct (Ha r) as (s0 & Hs0 & _ & Hseen); [intros s' Hs'; by rewrite Hd|done|]. rewrite Hd in Hseen by done.
    cbn in Hseen. injection Hseen as <-. done.
Qed.

(** *** Runs of several schedulers *)

(** Where the tick of a scheduler is: its [SET NX] was refused, or its [GET] returned its own name while the lease
    ran until [deadline]. *)
Inductive phase : Type := Refused | Mine (deadline : Z).

(** Every command of every scheduler is a step of its own, with any attempts that break; between them time passes,
    others change what is not the lease, and a scheduler may die in the middle of a tick.  The wins are recorded, last first, with the
    instant of the command that ended the tick, and whether it was in time: a renewal is, if the lease that its [GET] saw had not
    run out. *)
Record Race : Type := mkRace { r_now : Z; r_store : Store; r_phases : gmap (list Z) phase; r_wins : list (list Z * Z * bool) }.

Definition goes_on (h : list Z) (p : progress) (deadline : Z) (ps : gmap (list Z) phase) : gmap (list Z) phase :=
  match p with AskHolder => <[h := Refused]> ps | Renew => <[h := Mine deadline]> ps | Won | Lost => delete h ps end.

Definition scored (h : list Z) (p : progress) (t : Z) (in_time : bool) (wins : list (list Z * Z * bool)) : list (list Z * Z * bool) :=
  if won p then (h, t, in_time) :: wins else wins.

Definition deadline_seen (st : Store) : Z := match kv st !! LEADER with Some (mkKvEntry _ (Some d)) => d | _ => 0 end.

Inductive lease_step : Race -> Race -> Prop :=
  | step_other now st st' ps wins :
      kv st' !! LEADER = kv st !! LEADER -> lease_step (mkRace now st ps wins) (mkRace now st' ps wins)
  | step_dies now st ps wins h : lease_step (mkRace now st ps wins) (mkRace now st (delete h ps) wins)
  | step_set now st ps wins env h a r st' :
      now <= env_now env -> ps !! h = None -> Z.of_nat (length h) < 2 ^ 63 ->
      Redis.set_nx_px env LEADER h ttl (fst a) (snd a) st = (r, st') ->
      lease_step (mkRace now st ps wins)
        (mkRace (env_now env) st' (goes_on h (after_set r) 0 ps) (scored h (after_set r) (env_now env) true wins))
  | step_get now st ps wins env h a r st' :
      now <= env_now env -> ps !! h = Some Refused -> Redis.get env LEADER (fst a) (snd a) st = (r, st') ->
      lease_step (mkRace now st ps wins)
        (mkRace (env_now env) st' (goes_on h (after_get h r) (deadline_seen st') ps) (scored h (after_get h r) (env_now env) true wins))
  | step_pexpire now st ps wins env h a r st' d :
      now <= env_now env -> ps !! h = Some (Mine d) -> Redis.pexpire env LEADER ttl (fst a) (snd a) st = (r, st') ->
      lease_step (mkRace now st ps wins)
        (mkRace (env_now env) st' (goes_on h (after_pexpire r) 0 ps) (scored h (after_pexpire r) (env_now env) (env_now env <? d) wins)).

Definition lease_start (r : Race) : Prop := kv (r_store r) !! LEADER = None /\ r_phases r = ∅ /\ r_wins r = [].

(** The lease is held by [h] until [t] at least, if that is not over. *)
Definition held_until (now : Z) (st : Store) (h : list Z) (t : Z) : Prop :=
  t <= now \/ exists d, kv st !! LEADER = Some (mkKvEntry h (Some d)) /\ t <= d.

Record race_ok (r : Race) : Prop := mkRaceOk {
  ro_entry e : kv (r_store r) !! LEADER = Some e ->
    exists h d, e = mkKvEntry h (Some d) /\ Z.of_nat (length h) < 2 ^ 63 /\ d <= r_now r + ttl * NANOS_PER_MILLI;
  ro_small h p : r_phases r !! h = Some p -> Z.of_nat (length h) < 2 ^ 63;
  ro_won h t : (h, t, true) ∈ r_wins r -> held_until (r_now r) (r_store r) h (t + ttl * NANOS_PER_MILLI);
  ro_mine h d : r_phases r !! h = Some (Mine d) -> held_until (r_now r) (r_store r) h d }.

Lemma held_evolves now now' h0 st st' h t :
  (forall e, kv st !! LEADER = Some e -> exists h d, e = mkKvEntry h (Some d) /\ Z.of_nat (length h) < 2 ^ 63 /\ d <= now + ttl * NANOS_PER_MILLI) ->
  now <= now' -> evolves now' h0 st st' -> held_until now st h t -> held_until now' st' h t.
Proof.
  intros Hold Hnow Hev [Ht|(d & He & Hd)]; [left; lia|]. destruct (Z.leb_spec d now') as [Hover|Hlive]; [left; lia|]. right.
  destruct (Hold _ He) as (h' & d' & [= <- <-] & _ & Hmax).
  unfold evolves in Hev. rewrite He, entry_live, (proj2 (Z.ltb_lt _ _)) in Hev by done.
  destruct Hev as [Hk|Hk]; [by exists d|]. eexists. split; [exact Hk|]. lia.
Qed.

Lemma entry_evolves now now' h st st' :
  now <= now' -> evolves now' h st st' -> Z.of_nat (length h) < 2 ^ 63 ->
  (forall e, kv st !! LEADER = Some e -> exists h d, e = mkKvEntry h (Some d) /\ Z.of_nat (length h) < 2 ^ 63 /\ d <= now + ttl * NANOS_PER_MILLI) ->
  forall e, kv st' !! LEADER = Some e -> exists h d, e = mkKvEntry h (Some d) /\ Z.of_nat (length h) < 2 ^ 63 /\ d <= now' + ttl * NANOS_PER_MILLI.
Proof.
  intros Hnow Hev Hh Hold e He. unfold evolves, leader_entry in Hev. destruct (kv st !! LEADER) as [e0|] eqn:E.
  - destruct (Hold e0 eq_refl) as (h0 & d0 & -> & Hl & Hd). destruct (kv_live _ _); cbn [kv_value] in Hev.
    + destruct Hev as [Hk|Hk]; rewrite He in Hk; injection Hk as ->; eexists _, _; (split_and!; [done|done|lia]).
    + destruct Hev as [Hk|[Hk|Hk]]; rewrite He in Hk; [injection Hk as ->|done|injection Hk as ->]; eexists _, _; (split_and!; [done|done|lia]).
  - destruct Hev as [Hk|Hk]; rewrite He in Hk; [done|]. injection Hk as ->. eexists _, _. split_and!; [done|done|lia].
Qed.

(** A win that is in time leaves the lease with the winner for the time to live. *)
Lemma set_won env h a st r st' :
  Redis.set_nx_px env LEADER h ttl (fst a) (snd a) st = (r, st') -> after_set r = Won ->
  held_until (env_now env) st' h (env_now env + ttl * NANOS_PER_MILLI).
Proof.
  intros Hc Hw. pose proof (set_nx_true env h (fst a) (snd a) st) as Ht. rewrite Hc in Ht.
  destruct r as [[|]|]; [|done..]. right. eexists. split; [by apply Ht|lia].
Qed.

Lemma pexpire_won env h a st r st' d now :
  Redis.pexpire env LEADER ttl (fst a) (snd a) st = (r, st') -> after_pexpire r = Won -> now <= env_now env ->
  held_until now st h d -> env_now env < d -> held_until (env_now env) st' h (env_now env + ttl * NANOS_PER_MILLI).
Proof.
  intros Hc Hw Hnow [Hd|(d' & He & Hd)] Hlt; [lia|].
  assert (Hlive : kv_live (mkKvEntry h (Some d')) (env_now env) = true) by (rewrite entry_live; apply Z.ltb_lt; lia).
  destruct (pexpire_live env _ (fst a) (snd a) st He Hlive) as [_ Hk]. rewrite Hc in Hk. cbn [fst snd kv_value] in Hk.
  right. eexists. split; [apply Hk; unfold after_pexpire in Hw; by destruct (is_ok r)|lia].
Qed.

(** What a command leaves: the parts of the invariant that do not depend on which it was. *)
Lemma command_ok now st ps wins now' h st' p d b :
  race_ok (mkRace now st ps wins) -> now <= now' -> Z.of_nat (length h) < 2 ^ 63 -> evolves now' h st st' ->
  (p = Renew -> held_until now' st' h d) ->
  (p = Won -> b = true -> held_until now' st' h (now' + ttl * NANOS_PER_MILLI)) ->
  race_ok (mkRace now' st' (goes_on h p d ps) (scored h p now' b wins)).
Proof.
  intros [He Hsm Hw Hm] Hnow Hh Hev Hr Hwon. split; cbn [r_now r_store r_phases r_wins] in *.
  - by eapply entry_evolves.
  - intros h' q Hq. unfold goes_on in Hq. destruct p; try (apply lookup_delete_Some in Hq as [_ Hq]; eauto);
      apply lookup_insert_Some in Hq as [[<- _]|[_ Hq]]; eauto.
  - intros h' t Hin. unfold scored in Hin. destruct (won p) eqn:Hp; [|by eapply held_evolves; eauto].
    apply elem_of_cons in Hin as [[= -> -> <-]|Hin]; [|by eapply held_evolves; eauto]. apply Hwon; [by destruct p|done].
  - intros h' d' Hq. unfold goes_on in Hq. destruct p.
    + apply lookup_delete_Some in Hq as [_ Hq]. eapply held_evolves; eauto.
    + apply lookup_delete_Some in Hq as [_ Hq]. eapply held_evolves; eauto.
    + apply lookup_insert_Some in Hq as [[_ [=]]|[_ Hq]]. eapply held_evolves; eauto.
    + apply lookup_insert_Some in Hq as [[<- [= <-]]|[_ Hq]]; [by apply Hr|eapply held_evolves; eauto].
Qed.

Lemma lease_step_ok r r' : lease_step r r' -> race_ok r -> race_ok r'.
Proof.
  destruct 1 as [now st st' ps wins Hk|now st ps wins h|now st ps wins env h a r st' Hnow Hp Hh Hc|now st ps wins env h a r st' Hnow Hp Hc
    |now st ps wins env h a r st' d Hnow Hp Hc]; intros Hok.
  - destruct Hok as [He Hsm Hw Hm]. split; cbn [r_now r_store r_phases r_wins] in *; unfold held_until in *; rewrite ?Hk; auto.
  - destruct Hok as [He Hsm Hw Hm]. split; cbn [r_now r_store r_phases r_wins] in *; [done| |done|];
      (intros h' q Hq; apply lookup_delete_Some in Hq as [_ Hq]; eauto).
  - eapply command_ok; [done..| | |].
    + pose proof (set_nx_evolves env h (fst a) (snd a) st) as Hev. by rewrite Hc in Hev.
    + by destruct r as [[|]|].
    + intros Hw _. by eapply set_won.
  - pose proof (ro_small _ Hok _ _ Hp) as Hh.
    assert (Hsmall : forall e, kv st !! LEADER = Some e -> Z.of_nat (length (kv_value e)) < 2 ^ 63)
      by (intros e He; by destruct (ro_entry _ Hok e He) as (? & ? & -> & ? & _)).
    eapply command_ok; [done..| | |].
    + pose proof (get_evolves env h (fst a) (snd a) st Hsmall) as Hev. by rewrite Hc in Hev.
    + intros Hr. unfold after_get in Hr. destruct r as [[v|]|]; [|done..]. case_bool_decide as Hv; [subst v|done].
      pose proof (get_holder env (fst a) (snd a) st h Hsmall) as Hg. rewrite Hc in Hg. destruct (Hg eq_refl) as (e & He & _ & Hve & He').
      destruct (ro_entry _ Hok e He) as (h' & d' & -> & _). cbn in Hve. subst h'. right. exists d'. cbn [snd] in He'. split; [done|].
      unfold deadline_seen. by rewrite He'.
    + intros Hw. unfold after_get in Hw. destruct r as [[v|]|]; [case_bool_decide|..]; done.
  - eapply command_ok; [done..|by eapply ro_small| | |].
    + pose proof (pexpire_evolves env h (fst a) (snd a) st) as Hev. by rewrite Hc in Hev.
    + unfold after_pexpire. by destruct (is_ok r).
    + intros Hw Hd%Z.ltb_lt. eapply pexpire_won; [done..|by apply (ro_mine _ Hok)|done].
Qed.

Lemma race_reach_ok r0 r : lease_start r0 -> rtc lease_step r0 r -> race_ok r.
Proof.
  intros (Hk & Hp & Hw) Hrun. assert (H0 : race_ok r0).
  { split; rewrite ?Hk, ?Hp, ?Hw.
    - done.
    - intros h p. by rewrite lookup_empty.
    - intros h t Hin. by apply not_elem_of_nil in Hin.
    - intros h d. by rewrite lookup_empty. }
  clear Hk Hp Hw. induction Hrun; eauto using lease_step_ok.
Qed.
End lease.

(** C7: The lease has one leader at a time.  The commands of the ticks of any schedulers are interleaved in
    any order and at any instants, and connections break.  When a scheduler wins a tick in time, by setting the key or by a renewal
    before the deadline that its [GET] saw, then every earlier win of another scheduler that was in time lies
    at least the time to live before it.  A renewal that comes after that deadline can win next to a
    new leader; it is not in time. *)
Theorem lease_wins_apart ttl r0 r r' h1 t1 h2 t2 :
  0 < ttl < 2 ^ 64 -> lease_start r0 -> rtc (lease_step ttl) r0 r -> lease_step ttl r r' ->
  r_wins r' = (h2, t2, true) :: r_wins r -> (h1, t1, true) ∈ r_wins r -> h1 <> h2 ->
  t1 + ttl * NANOS_PER_MILLI <= t2.
Proof.
  intros Httl Hstart Hrun Hstep Hwins Hin Hne. pose proof (race_reach_ok ttl Httl _ _ Hstart Hrun) as Hok.
  pose proof (lease_step_ok ttl Httl _ _ Hstep Hok) as Hok'.
  assert (Hheld : forall h t, (h, t, true) ∈ r_wins r' -> held_until (r_now r') (r_store r') h (t + ttl * NANOS_PER_MILLI)) by apply (ro_won _ _ Hok').
  assert (Ht2 : t2 = r_now r').
  { destruct Hstep; cbn in *; unfold scored in *; repeat case_match; simplify_eq; try done;
      apply (f_equal length) in Hwins; cbn in Hwins; lia. }
  destruct (Hheld h2 t2) as [Ho|(d & He & Hd)]; [rewrite Hwins; apply list_elem_of_here|unfold NANOS_PER_MILLI in *; lia|].
  destruct (Hheld h1 t1) as [Ho|(d' & He' & Hd')]; [rewrite Hwins; by apply list_elem_of_further|lia|]. congruence.
Qed.

(** *** Ticks that are interrupted *)

Definition at_ms (t : Z) : Env := mkEnv (t * NANOS_PER_MILLI) t [] [].
Definition fine : attempts := (Answered, Answered).

Definition sched_a : list Z := bs "sched-a".
Definition sched_b : list Z := bs "sched-b".

(** [sched-a] holds the lease until 10 ms; its next tick finds itself the holder at 9 ms. *)
Definition held_by_a : Store := mkStore {[ LEADER := leader_entry sched_a 0 10 ]} ∅.

(** The tick of [sched-b] at 10 ms, while that of [sched-a] is between two commands. *)
Definition b_ticks (st : Store) : bool * Store :=
  lease_tick sched_b 10 (at_ms 10) (at_ms 10) (at_ms 10) fine fine fine (fun st => st) (fun st => st) st.

(** The renewal ignores the answer of [PEXPIRE]: a scheduler whose lease expired and was
    taken by another between its [GET] and its [PEXPIRE] is told it leads, and extends the
    other's lease; both lead in the same window. *)
Lemma lease_renewal_race :
  let '(a_won, st) := lease_tick sched_a 10 (at_ms 8) (at_ms 9) (at_ms 11) fine fine fine
                        (fun st => st) (fun st => snd (b_ticks st)) held_by_a in
  a_won = true /\ fst (b_ticks held_by_a) = true /\
  kv st !! LEADER = Some (leader_entry sched_b (11 * NANOS_PER_MILLI) 10).
Proof. vm_compute. split_and!; reflexivity. Qed.

(** [sched-a] sets the key, the first time with the answer lost; renews it at 5 ms; [sched-b] is refused in
    between and sets it when it has run out. *)
Definition race0 : Race := mkRace 0 (mkStore ∅ ∅) ∅ [].

Definition s1 := Redis.set_nx_px (at_ms 0) LEADER sched_a 10 LostAfter Answered (mkStore ∅ ∅).
Definition s2 := Redis.set_nx_px (at_ms 1) LEADER sched_b 10 Answered Answered (snd s1).
Definition s3 := Redis.get (at_ms 4) LEADER Answered Answered (snd s2).
Definition s4 := Redis.pexpire (at_ms 5) LEADER 10 Answered Answered (snd s3).
Definition s5 := Redis.get (at_ms 6) LEADER Answered Answered (snd s4).
Definition s6 := Redis.set_nx_px (at_ms 15) LEADER sched_b 10 Answered Answered (snd s5).

Definition mid : Race := mkRace (6 * NANOS_PER_MILLI) (snd s5) ∅ [(sched_a, 5 * NANOS_PER_MILLI, true)].
Definition late : Race := mkRace (15 * NANOS_PER_MILLI) (snd s6) ∅ [(sched_b, 15 * NANOS_PER_MILLI, true); (sched_a, 5 * NANOS_PER_MILLI, true)].

Lemma mid_reached : rtc (lease_step 10) race0 mid.
Proof.
  eapply rtc_l. { eapply (step_set 10 _ _ _ _ (at_ms 0) sched_a (LostAfter, Answered) _ (snd s1)); [done|done|vm_compute; reflexivity|vm_compute; reflexivity]. }
  eapply rtc_l. { eapply (step_set 10 _ _ _ _ (at_ms 1) sched_b fine _ (snd s2)); [done|vm_compute; reflexivity|vm_compute; reflexivity|vm_compute; reflexivity]. }
  eapply rtc_l. { eapply (step_get 10 _ _ _ _ (at_ms 4) sched_a fine _ (snd s3)); [done|vm_compute; reflexivity|vm_compute; reflexivity]. }
  eapply rtc_l. { eapply (step_pexpire 10 _ _ _ _ (at_ms 5) sched_a fine _ (snd s4)); [done|vm_compute; reflexivity|vm_compute; reflexivity]. }
  eapply rtc_l. { eapply (step_get 10 _ _ _ _ (at_ms 6) sched_b fine _ (snd s5)); [done|vm_compute; reflexivity|vm_compute; reflexivity]. }
  match goal with |- rtc _ ?r _ => assert (r = mid) as -> by (vm_compute; reflexivity) end. apply rtc_refl.
Qed.

Lemma lease_wins_apart_witness :
  r_wins late = (sched_b, 15 * NANOS_PER_MILLI, true) :: r_wins mid /\ 5 * NANOS_PER_MILLI + 10 * NANOS_PER_MILLI <= 15 * NANOS_PER_MILLI.
Proof.
  split; [reflexivity|]. apply (lease_wins_apart 10 race0 mid late sched_a (5 * NANOS_PER_MILLI) sched_b (15 * NANOS_PER_MILLI)).
  - lia.
  - vm_compute. auto.
  - exact mid_reached.
  - refine (step_set 10 (6 * NANOS_PER_MILLI) (snd s5) ∅ _ (at_ms 15) sched_b fine (Ok true) (snd s6) _ _ _ _);
      [vm_compute; congruence|reflexivity|vm_compute; reflexivity|vm_compute; reflexivity].
  - reflexivity.
  - apply list_elem_of_here.
  - vm_compute. congruence.
Defined.
