(* ===== verification/RedisClient.v ===== *)
(** [vmond/src/orch/redis.rs]: the address of the store and the pipelined writes, on the store
    of [MiniRedis]. *)

From S2P Require Import Prelude Decimal RedisWire MiniRedis.

(** ** The endpoint *)

Record RedisAddr : Type := mkRedisAddr { authority : list Z; password : option (list Z) }.

(** [str::rsplit_once] on one character. *)
Fixpoint split_last (c : Z) (s : list Z) : option (list Z * list Z) :=
  match s with
  | [] => None
  | b :: s =>
      match split_last c s with
      | Some (l, r) => Some (b :: l, r)
      | None => if b =? c then Some ([], s) else None
      end
  end.

(** [split(c).next()]. *)
Definition before_first (c : Z) (s : list Z) : list Z :=
  match split_once c s with Some (l, _) => l | None => s end.

Definition strip_prefix (p s : list Z) : option (list Z) :=
  if bool_decide (take (length p) s = p) then Some (drop (length p) s) else None.

Module RedisAddr.
Definition parse (url : list Z) : result string RedisAddr :=
  let rest := default url (strip_prefix (bs "redis://") url) in
  let '(auth, hostpart) :=
    match split_last 64 rest with
    | Some (auth, host) => (Some auth, host)
    | None => (None, rest)
    end in
  let password := auth ← auth; Some (match split_once 58 auth with Some (_, p) => p | None => auth end) in
  let hostpart := before_first 47 hostpart in
  if (length hostpart =? 0)%nat then Err "invalid redis url"%string
  else
    let authority := if bool_decide (58 ∈ hostpart) then hostpart else hostpart ++ bs ":6379" in
    Ok (mkRedisAddr authority (p ← password; if (length p =? 0)%nat then None else Some p)).
End RedisAddr.

Example parse_plain : RedisAddr.parse (bs "redis://cache.internal:6380") =
  Ok (mkRedisAddr (bs "cache.internal:6380") None).
Proof. reflexivity. Qed.
Example parse_default_port : RedisAddr.parse (bs "redis://cache.internal") =
  Ok (mkRedisAddr (bs "cache.internal:6379") None).
Proof. reflexivity. Qed.
Example parse_no_host : RedisAddr.parse (bs "redis://") = Err "invalid redis url"%string.
Proof. reflexivity. Qed.

Lemma split_last_none c s : c ∉ s -> split_last c s = None.
Proof.
  induction s as [|b s IH]; intros Hn; [done|]. apply not_elem_of_cons in Hn as [Hb Hs]. cbn.
  rewrite IH by done. by rewrite (proj2 (Z.eqb_neq _ _)).
Qed.

Lemma split_last_app c l s : c ∉ s -> split_last c (l ++ c :: s) = Some (l, s).
Proof.
  intros Hs. induction l as [|b l IH]; cbn; [by rewrite split_last_none, Z.eqb_refl|by rewrite IH].
Qed.

(** A password may hold any characters; the host, with a port, and the database are taken
    apart at the last at sign. *)
Lemma parse_auth_url pw host db :
  pw <> [] -> 58 ∈ host -> 64 ∉ host ++ 47 :: db -> 47 ∉ host ->
  RedisAddr.parse (bs "redis://" ++ (58 :: pw) ++ 64 :: host ++ 47 :: db) = Ok (mkRedisAddr host (Some pw)).
Proof.
  intros Hpw Hport Hat Hslash. unfold RedisAddr.parse, strip_prefix.
  rewrite take_app_length, drop_app_length, bool_decide_eq_true_2 by done. cbn [default from_option]. unfold id.
  rewrite split_last_app by done. unfold before_first. rewrite split_once_app by done.
  destruct host as [|b host]; [by apply not_elem_of_nil in Hport|]. cbn [length Nat.eqb].
  rewrite bool_decide_eq_true_2 by done. cbn. by destruct pw.
Qed.

(** ** Pipelined writes *)

Definition set_px_args (px : Z) (entry : list Z * list Z) : list (list Z) :=
  [bs "SET"; fst entry; snd entry; bs "PX"; decimal px].

(** The server runs the commands in order. *)
Fixpoint run_commands (env : Env) (cmds : list (list (list Z))) (st : Store) : list Reply * Store :=
  match cmds with
  | [] => ([], st)
  | c :: cmds =>
      let '(reply, st) := dispatch env c st in
      let '(replies, st) := run_commands env cmds st in
      (reply :: replies, st)
  end.

(** The replies are read from the stream; the first redis error is kept, another error ends. *)
Fixpoint read_replies (n : nat) (s : list Z) (first : option resp_error) : result resp_error () :=
  match n with
  | O => match first with Some e => Err e | None => Ok () end
  | S n =>
      match receive_reply s with
      | Ok (_, s) => read_replies n s first
      | Err (RedisError t) =>
          (* the line of the error was consumed *)
          match read_line s with
          | Ok (_, s) => read_replies n s (match first with Some e => Some e | None => Some (RedisError t) end)
          | Err e => Err e
          end
      | Err e => Err e
      end
  end.

(** One attempt: [Some k] when the connection breaks after the server ran [k] commands. *)
Definition pipeline_once (env : Env) (entries : list (list Z * list Z)) (px : Z) (cut : option nat)
    (st : Store) : result resp_error () * Store :=
  let cmds := map (set_px_args px) entries in
  match cut with
  | Some k => (Err RedisRead, snd (run_commands env (take k cmds) st))
  | None =>
      let '(replies, st) := run_commands env cmds st in
      (read_replies (length entries) (concat (map encode_into replies)) None, st)
  end.

Definition set_px_pipeline (env : Env) (entries : list (list Z * list Z)) (px : Z)
    (cut1 cut2 : option nat) (st : Store) : result resp_error () * Store :=
  match entries with
  | [] => (Ok (), st)
  | _ =>
      match pipeline_once env entries px cut1 st with
      | (Ok u, st) => (Ok u, st)
      | (Err (RedisError t), st) => (Err (RedisError t), st)
      | (Err _, st) => pipeline_once env entries px cut2 st
      end
  end.

Section pipeline.
Context (env : Env) (px : Z) (Hpx : 0 <= px < 2 ^ 64).

Definition px_entry (v : list Z) : KvEntry := mkKvEntry v (Some (env_now env + px * NANOS_PER_MILLI)).
Definition put_all (entries : list (list Z * list Z)) (m : gmap (list Z) KvEntry) : gmap (list Z) KvEntry :=
  fold_left (fun m e => <[fst e := px_entry (snd e)]> m) entries m.

Lemma dispatch_set e st :
  utf8_valid (fst e) = true ->
  dispatch env (set_px_args px e) st = (OK, set_kv st (<[fst e := px_entry (snd e)]> (kv st))).
Proof.
  intros Hu. unfold set_px_args. set (args := [_; _; _; _; _]).
  change (dispatch env args st) with (cmd_set (env_now env) args st). unfold cmd_set.
  change (text_arg args 1) with (if utf8_valid (fst e) then Some (fst e) else None). rewrite Hu.
  assert (set_options (length args) args 3 None false = Ok (Some (px * NANOS_PER_MILLI), false)) as ->.
  { change (length args) with 5%nat. cbn [set_options]. change (length args) with 5%nat. cbn [Nat.leb].
    change (to_ascii_uppercase <$> text_arg args 3) with (Some (bs "PX")). cbn iota.
    rewrite bool_decide_eq_true_2 by done. by rewrite (text_arg_decimal px). }
  change (args !! 2%nat) with (Some (snd e)). cbn iota beta. by destruct (kv st !! fst e).
Qed.

Lemma run_sets entries st :
  Forall (fun e => utf8_valid (fst e) = true) entries ->
  run_commands env (map (set_px_args px) entries) st =
  (map (fun _ => OK) entries, set_kv st (put_all entries (kv st))).
Proof.
  intros Hu. revert st. induction Hu as [|e entries He _ IH]; intros st; [by destruct st|].
  cbn [map run_commands]. rewrite dispatch_set by done. by rewrite IH.
Qed.

Lemma read_oks {A} (l : list A) :
  read_replies (length l) (concat (map encode_into (map (fun _ => OK) l))) None = Ok ().
Proof.
  induction l as [|x l IH]; [done|]. cbn [length map concat read_replies].
  rewrite receive_reply_encode by done. exact IH.
Qed.

(** Later entries win; other keys are not touched. *)
Lemma put_all_lookup entries m key :
  put_all entries m !! key =
  match last (List.filter (fun e => bool_decide (fst e = key)) entries) with
  | Some e => Some (px_entry (snd e))
  | None => m !! key
  end.
Proof.
  induction entries as [|e entries IH] using rev_ind; [done|].
  unfold put_all in *. rewrite fold_left_app, List.filter_app, last_app. cbn [fold_left List.filter].
  case_bool_decide as Hk; cbn [last].
  - subst key. by rewrite lookup_insert_eq.
  - rewrite lookup_insert_ne by done. exact IH.
Qed.

Lemma put_all_again k entries m : put_all entries (put_all (take k entries) m) = put_all entries m.
Proof.
  apply map_eq. intros key. rewrite !put_all_lookup.
  destruct (last _) as [e|] eqn:Hl; [done|].
  rewrite <- (take_drop k entries), List.filter_app, last_app in Hl.
  destruct (last (List.filter _ (drop k entries))); [done|]. by rewrite Hl.
Qed.

(** The batch is idempotent: a pipeline that succeeds has stored every entry, the last value of
    each key, as if it had run once, whatever part of it an attempt before had written. *)
Lemma pipeline_retry_idempotent entries cut1 cut2 st :
  Forall (fun e => utf8_valid (fst e) = true) entries ->
  fst (set_px_pipeline env entries px cut1 cut2 st) = Ok () ->
  snd (set_px_pipeline env entries px cut1 cut2 st) = set_kv st (put_all entries (kv st)).
Proof.
  intros Hu. unfold set_px_pipeline. destruct entries as [|e entries]; [by destruct st|].
  set (es := e :: entries) in *. unfold pipeline_once. destruct cut1 as [k|].
  - rewrite firstn_map, run_sets by (by apply Forall_take). cbn [snd].
    destruct cut2 as [k'|]; [done|]. rewrite run_sets by done. intros _. cbn [snd kv set_kv].
    f_equal. apply put_all_again.
  - rewrite run_sets by done. by rewrite read_oks.
Qed.
End pipeline.
