(* ===== verification/StreamFollower.v ===== *)
(** The follower of a stream: [StreamFollower] of [vmond/src/orch/redis.rs] against the [XADD]
    and [XREAD] of [miniredis.rs].  A round is one call of [next_batch] that is answered; the
    command and the reply go over the wire. *)

From S2P Require Import Prelude Decimal RedisWire MiniRedis.

(** ** The client side *)

(** The pairs of an entry whose name is [d]. *)
Fixpoint d_payloads (l : list Resp) : list (list Z) :=
  match l with
  | name :: value :: l =>
      (if bool_decide (Resp.into_bytes name = Some (bs "d"))
       then match Resp.into_bytes value with Some p => [p] | None => [] end else [])
      ++ d_payloads l
  | _ => []
  end.

(** One entry: [pop] takes the fields, then the id. *)
Definition follow_entry (acc : list (list Z) * list Z) (entry : Resp) : list (list Z) * list Z :=
  let '(payloads, last_id) := acc in
  match Resp.into_array entry with
  | Some [id; fields] =>
      let fields := default [] (Resp.into_array fields) in
      (payloads ++ d_payloads fields, default last_id (Resp.into_string id))
  | _ => acc
  end.

Definition follow_stream (acc : list (list Z) * list Z) (stream : Resp) : list (list Z) * list Z :=
  match Resp.into_array stream with
  | Some [_; es] => fold_left follow_entry (default [] (Resp.into_array es)) acc
  | _ => acc
  end.

(** What [next_batch] makes of a reply: the payloads and the new position. *)
Definition take_reply (last_id : list Z) (reply : Resp) : list (list Z) * list Z :=
  match Resp.into_array reply with
  | None => ([], last_id)
  | Some streams => fold_left follow_stream streams ([], last_id)
  end.

Definition xread_command (block_ms : Z) (stream last_id : list Z) : list (list Z) :=
  [bs "XREAD"; bs "BLOCK"; decimal block_ms; bs "STREAMS"; stream; last_id].

(** A round that is answered: the command crosses the wire, the server looks at the log
    [polls], the reply crosses the wire.  An error keeps the position. *)
Definition next_batch (block_ms : Z) (stream last_id : list Z) (polls : list (option StreamLog))
  : result resp_error (list (list Z)) * list Z :=
  match read_command (send (xread_command block_ms stream last_id)) with
  | Ok (Some args, _) =>
      match receive_reply (encode_into (cmd_xread args polls)) with
      | Ok (reply, _) => let '(payloads, last_id) := take_reply last_id reply in (Ok payloads, last_id)
      | Err e => (Err e, last_id)
      end
  | _ => (Err RedisRead, last_id)
  end.

(** ** Ids *)









(** ** The history of a stream *)

(** What was appended: the clock and the payload of each [XADD], under one limit. *)
Section history.
Context (limit : Z) (Hlimit : 1 <= limit < 2 ^ 63).

Definition append (acc : StreamLog * list StreamEntry) (add : Z * list Z)
  : StreamLog * list StreamEntry :=
  let '(log, hist) := acc in
  let '(id, log) := append_log (fst add) (Some limit) [(bs "d", snd add)] log in
  (log, hist ++ [(id, [(bs "d", snd add)])]).

Definition appended (adds : list (Z * list Z)) : StreamLog * list StreamEntry :=
  fold_left append adds (StreamLog_default, []).

Definition log_of (adds : list (Z * list Z)) : StreamLog := fst (appended adds).

(** [XADD] as the client sends it is [append]. *)
Lemma cmd_xadd_append ms stream payload st hist :
  utf8_valid stream = true ->
  let log := default StreamLog_default (streams st !! stream) in
  streams (snd (cmd_xadd ms [bs "XADD"; stream; bs "MAXLEN"; bs "~"; decimal limit; bs "*"; bs "d"; payload] st))
    !! stream = Some (fst (append (log, hist) (ms, payload))).
Proof.
  intros Hu log. unfold cmd_xadd.
  set (args := [bs "XADD"; stream; bs "MAXLEN"; bs "~"; decimal limit; bs "*"; bs "d"; payload]).
  assert (Hargs : xadd_args args = Ok (stream, Some limit, [(bs "d", payload)])).
  { unfold xadd_args. assert (text_arg args 1 = Some stream) as ->
      by (unfold text_arg; cbn; by rewrite Hu).
    change (text_arg args 2) with (Some (bs "MAXLEN")). change (text_arg args 3) with (Some (bs "~")).
    change (eq_ignore_case (bs "MAXLEN") (bs "MAXLEN")) with true. cbn iota.
    rewrite bool_decide_eq_true_2 by done. rewrite (text_arg_decimal limit) by (done || lia).
    rewrite Z.max_l by lia. reflexivity. }
  rewrite Hargs. cbn -[append_log]. fold log.
  destruct (append_log ms (Some limit) [(bs "d", payload)] log) as [id log']. simpl.
  apply lookup_insert_eq.
Qed.







(** ** Positions *)






(** ** Rounds *)

Context (block_ms : Z) (Hblock : 0 <= block_ms < 2 ^ 64).
Context (stream : list Z) (Hstream : utf8_valid stream = true)
        (Hstream_len : Z.of_nat (length stream) <= MAX_ARG_BYTES).



















(** A run: rounds that are answered, each with what the server saw, and rounds that fail. *)
Fixpoint follow (last_id : list Z) (rounds : list (option (list (list (Z * list Z)))))
  : list (list Z) * list Z :=
  match rounds with
  | [] => ([], last_id)
  | None :: rounds => follow last_id rounds
  | Some looks :: rounds =>
      let '(batch, last_id) := next_batch block_ms stream last_id (map (fun look => Some (log_of look)) looks) in
      let '(out, last_id) := follow last_id rounds in
      (match batch with Ok payloads => payloads | Err _ => [] end ++ out, last_id)
  end.


Lemma follow_app last_id rs rs' :
  follow last_id (rs ++ rs') =
  let '(out, last_id) := follow last_id rs in
  let '(out', last_id) := follow last_id rs' in (out ++ out', last_id).
Proof.
  revert last_id. induction rs as [|[looks|] rs IH]; intros last_id; cbn [app follow].
  - by destruct (follow last_id rs').
  - destruct (next_batch _ _ _ _) as [batch id]. rewrite IH. destruct (follow id rs) as [out id'].
    destruct (follow id' rs'). by rewrite (assoc_L (++)).
  - apply IH.
Qed.







End history.

(** ** Examples *)
Module FollowerExamples.
Definition events : list Z := bs "events".
Definition add (ms : Z) (text : string) : Z * list Z := (ms, bs text).

Definition adds0 : list (Z * list Z) := [add 5 "a"].
Definition adds1 : list (Z * list Z) := adds0 ++ [add 5 "b"; add 4 "c"].
Definition adds2 : list (Z * list Z) := adds1 ++ [add 9 "d"].





(** A follower that has not received anything is still at [$]: what is appended between two of
    its reads is never delivered. *)
Definition dollar_run : list (list Z) * list Z :=
  follow 2 1000 events [36] [Some [adds0; adds0]; Some [adds1; adds1]; Some [adds1; adds2]].

(** Entries appended between two reads of a follower that is still at [$] are lost: each
    read starts at the tail it finds. *)
Lemma dollar_position_skips :
  fst dollar_run = [bs "d"] /\ map snd (drop (length adds0) adds2) = [bs "b"; bs "c"; bs "d"].
Proof. vm_compute. split; reflexivity. Qed.
End FollowerExamples.
