(* ===== verification/Controller.v ===== *)
(** [vmond/src/orch/controller.rs]: the janitor of the leading scheduler.  It forgets workers
    that fell silent and marks the sandboxes on them as lost, by scanning the route keys.

    A pass makes many calls to the store, and others use the store and the worker table in
    between: call number [n] runs at [env n], its connections break as [att n] says, [others n]
    is what was done to the store since the call before, and [evolve n] what became of the
    table by then.  The routes are serialized by a derived codec, a parameter. *)

From S2P Require Import Prelude Decimal F64 Json Hrw Orchestrator RedisWire MiniRedis.

(** ** Routes: [orch/mod.rs] *)

Record SandboxRoute : Type := mkSandboxRoute {
  r_sid : string; r_wid : string; r_url : string; r_state : string; r_ts_ms : Z;
  r_result : option Z }.

Definition STATE_LOST : string := "lost".
Definition ROUTE_TTL_MS : Z := 24 * 60 * 60 * 1000.
Definition SANDBOX_PREFIX : list Z := bs "vmon:o:sb:".

Definition is_live_state (state : string) : bool :=
  String.eqb state "running" || String.eqb state "paused".

(** ** [Redis::scan_prefix] and the calls of a pass *)

Record World : Type := mkWorld { store : Store; calls : nat }.

Definition M (A : Type) : Type := World -> A * World.
Definition ret {A} (x : A) : M A := fun w => (x, w).
Definition bind {A B} (m : M A) (k : A -> M B) : M B := fun w => let '(x, w) := m w in k x w.

(** The question mark: an error ends the pass. *)
Definition try_bind {E A B} (m : M (result E A)) (k : A -> M (result E B)) : M (result E B) :=
  bind m (fun r => match r with Ok x => k x | Err e => ret (Err e) end).

Declare Scope pass_scope.
Delimit Scope pass_scope with pass.
Notation "x <~ m ;; k" := (bind m (fun x => k))
  (at level 60, m at next level, right associativity) : pass_scope.
Notation "x <~? m ;; k" := (try_bind m (fun x => k))
  (at level 60, m at next level, right associativity) : pass_scope.
Local Open Scope pass_scope.

Record Controller : Type := mkController { table : WorkerTable; last_sweep : option Z }.

Definition ORPHAN_SWEEP_INTERVAL : Z := 60 * NANOS_PER_SEC.

Section pass.
Context (encode : SandboxRoute -> result resp_error (list Z)).
Context (decode : list Z -> option SandboxRoute).
Context (env : nat -> Env) (att : nat -> attempts) (others : nat -> Store -> Store).
Context (evolve : nat -> WorkerTable -> WorkerTable).

(** One call to the store. *)
Definition rcall {A} (f : Env -> attempt -> attempt -> Store -> result resp_error A * Store)
  : M (result resp_error A) :=
  fun w =>
    let n := calls w in
    let '(r, st) := f (env n) (fst (att n)) (snd (att n)) (others n (store w)) in
    (r, mkWorld st (S n)).

Definition into_strings (l : list Resp) : list (list Z) := omap Resp.into_string l.

(** What one reply to [SCAN] holds: the cursor and the keys. *)
Definition scan_reply (reply : Resp) : result resp_error (list Z * list (list Z)) :=
  parts <-? ok_or (Resp.into_array reply) UnexpectedType ;
  cursor <-? ok_or (c ← head parts; Resp.into_string c) UnexpectedType ;
  Ok (cursor, match parts !! 1%nat ≫= Resp.into_array with
              | Some batch => into_strings batch
              | None => []
              end).

Fixpoint scan_loop (fuel : nat) (pattern cursor : list Z) (keys : list (list Z))
  : M (result resp_error (list (list Z))) :=
  match fuel with
  | O => ret (Err OutOfFuel)
  | S fuel =>
      reply <~? rcall (fun e => call e [bs "SCAN"; cursor; bs "MATCH"; pattern; bs "COUNT"; bs "512"]) ;;
      page <~? ret (scan_reply reply) ;;
      let '(cursor, batch) := page in
      if bool_decide (cursor = bs "0") then ret (Ok (keys ++ batch))
      else scan_loop fuel pattern cursor (keys ++ batch)
  end.

Definition scan_prefix (fuel : nat) (prefix : list Z) : M (result resp_error (list (list Z))) :=
  scan_loop fuel (prefix ++ [42]) (bs "0") [].

(** ** The janitor *)

(** The loop of [scan_routes]: what cannot be read or decoded is skipped. *)
Fixpoint read_routes (keys : list (list Z)) : M (list (list Z * SandboxRoute)) :=
  match keys with
  | [] => ret []
  | key :: keys =>
      r <~ rcall (fun e => Redis.get e key) ;;
      rest <~ read_routes keys ;;
      ret (match r with
           | Ok (Some bytes) =>
               match decode bytes with Some route => (key, route) :: rest | None => rest end
           | _ => rest
           end)
  end.

Definition scan_routes (fuel : nat) : M (result resp_error (list (list Z * SandboxRoute))) :=
  keys <~? scan_prefix fuel SANDBOX_PREFIX ;;
  routes <~ read_routes keys ;;
  ret (Ok routes).

Definition write_route (key : list Z) (route : SandboxRoute) : M (result resp_error ()) :=
  payload <~? ret (encode route) ;;
  rcall (fun e => Redis.set_px e key payload ROUTE_TTL_MS).

(** [now_ms] is the clock of the call that follows. *)
Definition mark_lost (key : list Z) (route : SandboxRoute) : M (result resp_error ()) :=
  fun w =>
    write_route key
      (mkSandboxRoute (r_sid route) (r_wid route) (r_url route) STATE_LOST (env_ms (env (calls w)))
         (r_result route)) w.

Fixpoint mark_routes (wid : string) (routes : list (list Z * SandboxRoute)) (lost : Z)
  : M (result resp_error Z) :=
  match routes with
  | [] => ret (Ok lost)
  | (key, route) :: routes =>
      if negb (String.eqb (r_wid route) wid) || negb (is_live_state (r_state route))
      then mark_routes wid routes lost
      else _ <~? mark_lost key route ;; mark_routes wid routes (lost + 1)
  end.

Definition mark_worker_lost (fuel : nat) (wid : string) : M (result resp_error Z) :=
  routes <~? scan_routes fuel ;; mark_routes wid routes 0.

Fixpoint sweep_routes (known : list string) (t : WorkerTable)
    (routes : list (list Z * SandboxRoute)) (lost : Z) : M Z :=
  match routes with
  | [] => ret lost
  | (key, route) :: routes =>
      fun w =>
        if negb (is_live_state (r_state route)) || bool_decide (r_wid route ∈ known)
           || bool_decide (is_Some (WorkerTable.url_of (r_wid route) (evolve (calls w) t)))
        then sweep_routes known t routes lost w
        else
          (r <~ mark_lost key route ;;
           sweep_routes known t routes (if is_ok r then lost + 1 else lost)) w
  end.

(** [order]: the entries as the table is walked at [now]. *)
Definition sweep_orphans (fuel : nat) (now : Z) (order : list WorkerEntry) (t : WorkerTable)
  : M (result resp_error Z) :=
  let known := map wid (WorkerTable.live now order t) in
  routes <~? scan_routes fuel ;;
  lost <~ sweep_routes known t routes 0 ;;
  ret (Ok lost).

Fixpoint mark_reaped (fuel : nat) (dead : list WorkerHeartbeat) (lost : Z) : M (result resp_error Z) :=
  match dead with
  | [] => ret (Ok lost)
  | hb :: dead => n <~? mark_worker_lost fuel (wid hb) ;; mark_reaped fuel dead (lost + n)
  end.

(** The table as it is at this point of the pass. *)
Definition table_now (t : WorkerTable) : M WorkerTable := fun w => (evolve (calls w) t, w).

(** [Controller::tick]: [now] is the instant of the reap, [now'] that of the sweep. *)
Definition tick (fuel : nat) (now now' : Z) (reap_order : list (string * WorkerEntry))
    (order : list WorkerEntry) (c : Controller) : M (result resp_error Z * Controller) :=
  let '(dead, t) := WorkerTable.reap now reap_order (table c) in
  r <~ mark_reaped fuel dead 0 ;;
  match r with
  | Err e => t <~ table_now t ;; ret (Err e, mkController t (last_sweep c))
  | Ok lost =>
      let due := match last_sweep c with
                 | Some at_ => ORPHAN_SWEEP_INTERVAL <=? saturating_duration_since now' at_
                 | None => true
                 end in
      if due then
        n <~ sweep_orphans fuel now' order t ;;
        t <~ table_now t ;;
        ret (match n with Ok n => Ok (lost + n) | Err e => Err e end, mkController t (Some now'))
      else t <~ table_now t ;; ret (Ok lost, mkController t (last_sweep c))
  end.

(** ** A pass that is not disturbed *)

Definition lost_route (ms : Z) (r : SandboxRoute) : SandboxRoute :=
  mkSandboxRoute (r_sid r) (r_wid r) (r_url r) STATE_LOST ms (r_result r).

(** The route a key holds. *)
Definition route_of (st : Store) (key : list Z) : option (list Z * SandboxRoute) :=
  e ← kv st !! key; r ← decode (kv_value e); Some (key, r).

(** The keys and values of the store can be sent over the wire. *)
Definition store_ok (st : Store) : Prop :=
  Z.of_nat (size (kv st)) < 2 ^ 63 /\
  forall key e, kv st !! key = Some e ->
    utf8_valid key = true /\ Z.of_nat (length key) < 2 ^ 63 /\ Z.of_nat (length (kv_value e)) < 2 ^ 63.

Lemma call_fine e args st reply v st' :
  dispatch e args st = (reply, st') -> reply_ok reply = true -> seen_as reply = Ok v ->
  call e args Answered Answered st = (Ok v, st').
Proof.
  intros Hd Hok Hs. unfold call, call_once. rewrite Hd, <- (app_nil_r (encode_into reply)).
  rewrite receive_reply_encode by done. by rewrite Hs.
Qed.

Context (Hencode : forall r, exists v, encode r = Ok v /\ decode v = Some r).
Context (Hatt : forall n, att n = fine) (Hothers : forall n st, others n st = st)
        (Hevolve : forall n t, evolve n t = t).

Lemma rcall_fine {A} (f : Env -> attempt -> attempt -> Store -> result resp_error A * Store) st n :
  rcall f (mkWorld st n) = let '(r, st) := f (env n) Answered Answered st in (r, mkWorld st (S n)).
Proof. unfold rcall. simpl. by rewrite Hatt, Hothers. Qed.

(** The keys a scan returns. *)
Definition scanned (n : nat) (st : Store) : list (list Z) :=
  List.filter (fun key =>
    match kv st !! key with Some e => kv_live e (env_now (env n)) | None => false end
    && starts_with SANDBOX_PREFIX key) (env_order (env n)).

Definition scan_args : list (list Z) :=
  [bs "SCAN"; bs "0"; bs "MATCH"; SANDBOX_PREFIX ++ [42]; bs "COUNT"; bs "512"].

Lemma dispatch_scan n st :
  dispatch (env n) scan_args st =
  (RepArray [RepBulk (bs "0"); RepArray (map RepBulk (scanned n st))], st).
Proof. reflexivity. Qed.

Lemma scanned_elem n st key :
  key ∈ scanned n st -> exists e, kv st !! key = Some e /\ kv_live e (env_now (env n)) = true /\
    starts_with SANDBOX_PREFIX key = true.
Proof.
  intros [_ [Hl Hs]%andb_true_iff]%list_elem_of_In%filter_In.
  destruct (kv st !! key) as [e|]; [by exists e|done].
Qed.

Lemma seen_bulks l : seen_all (map RepBulk l) = Ok (map RBulk l).
Proof. induction l as [|x l IH]; [done|]. cbn [map seen_all]. fold seen_all. by rewrite IH. Qed.

Lemma into_strings_bulks l :
  Forall (fun k => utf8_valid k = true) l -> into_strings (map RBulk l) = l.
Proof.
  induction 1 as [|k l Hk _ IH]; [done|]. unfold into_strings in *. cbn. by rewrite Hk, IH.
Qed.

Lemma scan_prefix_quiet fuel st n :
  store_ok st -> env_order (env n) ≡ₚ map fst (map_to_list (kv st)) ->
  scan_prefix (S fuel) SANDBOX_PREFIX (mkWorld st n) = (Ok (scanned n st), mkWorld st (S n)).
Proof.
  intros [Hsize Hok] Hord. unfold scan_prefix. cbn [scan_loop]. unfold try_bind at 1, bind at 1.
  rewrite rcall_fine. fold scan_args.
  assert (Hkeys : Forall (fun k => utf8_valid k = true) (scanned n st)).
  { apply Forall_forall. intros k (e & He & _)%scanned_elem. by apply (Hok k e). }
  rewrite (call_fine _ _ _ _ (RArray [RBulk (bs "0"); RArray (map RBulk (scanned n st))]) st (dispatch_scan n st)).
  - cbn -[scanned into_strings]. by rewrite into_strings_bulks.
  - cbn [reply_ok forallb]. rewrite !andb_true_iff, !Z.ltb_lt, length_map. cbn [length]. split_and!; try done.
    + pose proof (List.filter_length_le (fun key =>
        match kv st !! key with Some e => kv_live e (env_now (env n)) | None => false end
        && starts_with SANDBOX_PREFIX key) (env_order (env n))) as Hl. fold (scanned n st) in Hl.
      rewrite Hord, length_map, length_map_to_list in Hl. lia.
    + apply forallb_forall. intros r (k & <- & Hk)%in_map_iff. apply Z.ltb_lt.
      apply list_elem_of_In, scanned_elem in Hk as (e & He & _). by apply (Hok k e).
  - rewrite seen_as_array. cbn [seen_all]. fold seen_all. by rewrite seen_as_array, seen_bulks.
Qed.

Lemma get_quiet key e st n :
  kv st !! key = Some e -> kv_live e (env_now (env n)) = true -> store_ok st ->
  Redis.get (env n) key Answered Answered st = (Ok (Some (kv_value e)), st).
Proof.
  intros He Hl [_ Hok]. destruct (Hok key e He) as (Hu & _ & Hv). unfold Redis.get.
  rewrite (call_fine _ _ _ (RepBulk (kv_value e)) (RBulk (kv_value e)) st); [done| |by apply Z.ltb_lt|done].
  change (dispatch (env n) [bs "GET"; key] st) with (cmd_get (env_now (env n)) [bs "GET"; key] st).
  unfold cmd_get, text_arg. cbn. by rewrite Hu, He, Hl.
Qed.

(** No key expires before the pass is over. *)
Definition stable (n0 : nat) (st : Store) : Prop :=
  forall n key e, kv st !! key = Some e -> kv_live e (env_now (env n)) = kv_live e (env_now (env n0)).

Lemma read_routes_quiet n0 keys st n :
  store_ok st -> stable n0 st ->
  (forall key, key ∈ keys -> exists e, kv st !! key = Some e /\ kv_live e (env_now (env n0)) = true) ->
  read_routes keys (mkWorld st n) = (omap (route_of st) keys, mkWorld st (length keys + n)).
Proof.
  intros Hok Hst. revert n. induction keys as [|key keys IH]; intros n Hk; [done|].
  destruct (Hk key) as (e & He & Hl); [set_solver|].
  cbn [read_routes]. unfold bind at 1. rewrite rcall_fine, (get_quiet key e);
    [|done|by rewrite (Hst n key e)|done].
  unfold bind. rewrite IH by set_solver. unfold ret. cbn [omap list_omap length].
  assert (route_of st key = (r ← decode (kv_value e); Some (key, r))) as ->
    by (unfold route_of; by rewrite He).
  rewrite Nat.add_succ_r. by destruct (decode (kv_value e)).
Qed.

Lemma dispatch_set_px e key v st :
  utf8_valid key = true ->
  dispatch e [bs "SET"; key; v; bs "PX"; decimal ROUTE_TTL_MS] st =
  (OK, set_kv st (<[key := mkKvEntry v (Some (env_now e + ROUTE_TTL_MS * NANOS_PER_MILLI))]> (kv st))).
Proof.
  intros Hu. set (args := [_; _; _; _; _]). change (dispatch e args st) with (cmd_set (env_now e) args st).
  unfold cmd_set. change (text_arg args 1) with (if utf8_valid key then Some key else None). rewrite Hu.
  change (args !! 2%nat) with (Some v).
  change (set_options (length args) args 3 None false)
    with (@Ok Reply _ (Some (ROUTE_TTL_MS * NANOS_PER_MILLI), false)).
  cbn iota beta. by destruct (kv st !! key).
Qed.

(** The entry of a route that is marked at call [n]. *)
Definition marked (n : nat) (r : SandboxRoute) (e : KvEntry) : Prop :=
  decode (kv_value e) = Some (lost_route (env_ms (env n)) r) /\
  expires_at e = Some (env_now (env n) + ROUTE_TTL_MS * NANOS_PER_MILLI).

Lemma mark_lost_quiet key r st n :
  utf8_valid key = true ->
  exists e, marked n r e /\
    mark_lost key r (mkWorld st n) = (Ok (), mkWorld (set_kv st (<[key := e]> (kv st))) (S n)).
Proof.
  intros Hu. unfold mark_lost, write_route. cbn [calls]. fold (lost_route (env_ms (env n)) r).
  destruct (Hencode (lost_route (env_ms (env n)) r)) as (v & Hv & Hd). rewrite Hv.
  eexists (mkKvEntry v _). split; [split; [exact Hd|reflexivity]|].
  unfold try_bind, bind, ret. rewrite rcall_fine. unfold Redis.set_px.
  by rewrite (call_fine _ _ _ _ (RSimple (bs "OK")) _ (dispatch_set_px (env n) key v st Hu)).
Qed.

(** A route that the sweep marks. *)
Definition orphan (known : list string) (t : WorkerTable) (r : SandboxRoute) : bool :=
  is_live_state (r_state r) && negb (bool_decide (r_wid r ∈ known))
  && negb (bool_decide (is_Some (WorkerTable.url_of (r_wid r) t))).

Abbreviation marks known t routes := (List.filter (fun kr => orphan known t (snd kr)) routes).

Lemma sweep_routes_quiet known t routes lost st n :
  NoDup (map fst routes) -> Forall (fun kr => utf8_valid (fst kr) = true) routes ->
  exists st' n', sweep_routes known t routes lost (mkWorld st n) =
    (lost + Z.of_nat (length (marks known t routes)), mkWorld st' n') /\
    streams st' = streams st /\
    (forall key, key ∉ map fst (marks known t routes) -> kv st' !! key = kv st !! key) /\
    (forall key r, (key, r) ∈ marks known t routes ->
       exists m e, marked m r e /\ kv st' !! key = Some e).
Proof.
  revert lost st n. induction routes as [|[key r] routes IH]; intros lost st n Hnd Hu.
  { exists st, n. cbn. rewrite Z.add_0_r. split_and!; [done..|]. intros ??. by intros ?%not_elem_of_nil. }
  apply NoDup_cons in Hnd as [Hnk Hnd]. apply Forall_cons in Hu as [Hk Hu]. cbn [sweep_routes calls].
  rewrite Hevolve. cbn [List.filter fst snd map] in *.
  assert (Hor : negb (is_live_state (r_state r)) || bool_decide (r_wid r ∈ known)
    || bool_decide (is_Some (WorkerTable.url_of (r_wid r) t)) = negb (orphan known t r))
    by (unfold orphan; by rewrite !negb_andb, !negb_involutive).
  rewrite Hor. destruct (orphan known t r); cbn [negb]; [|by apply IH].
  destruct (mark_lost_quiet key r st n Hk) as (e & He & Hm). unfold bind. rewrite Hm. cbn [is_ok].
  destruct (IH (lost + 1) (set_kv st (<[key := e]> (kv st))) (S n) Hnd Hu) as (st' & n' & -> & Hs & Hout & Hin).
  assert (Hfresh : key ∉ map fst (marks known t routes)).
  { intros Hin'. apply Hnk. apply list_elem_of_In, in_map_iff in Hin' as (x & <- & Hx).
    apply filter_In in Hx as [Hx _]. by apply list_elem_of_In, in_map. }
  exists st', n'. split_and!; [|done| |].
  - f_equal. cbn [length]. lia.
  - intros k [Hne Hk']%not_elem_of_cons. rewrite Hout by done. simpl. by rewrite lookup_insert_ne.
  - intros k r' [[= -> ->]|Hkr]%elem_of_cons; [|by apply Hin].
    exists n, e. split; [done|]. rewrite Hout by done. simpl. apply lookup_insert_eq.
Qed.

(** The route at a key, if the sweep marks it. *)
Definition orphan_at (n : nat) (known : list string) (t : WorkerTable) (st : Store) (key : list Z)
  : option SandboxRoute :=
  e ← kv st !! key;
  if kv_live e (env_now (env n)) && starts_with SANDBOX_PREFIX key then
    r ← decode (kv_value e); if orphan known t r then Some r else None
  else None.

Lemma marks_found n known t st keys :
  marks known t (omap (route_of st) (List.filter (fun key =>
    match kv st !! key with Some e => kv_live e (env_now (env n)) | None => false end
    && starts_with SANDBOX_PREFIX key) keys)) =
  omap (fun key => r ← orphan_at n known t st key; Some (key, r)) keys.
Proof.
  induction keys as [|key keys IH]; [done|]. cbn [List.filter omap list_omap].
  unfold orphan_at at 1. destruct (kv st !! key) as [e|] eqn:He; [|done].
  cbn [mbind option_bind]. destruct (kv_live e _ && starts_with _ key); [|done].
  cbn [omap list_omap]. unfold route_of at 1. rewrite He. cbn [mbind option_bind].
  destruct (decode (kv_value e)) as [r|]; [|done]. cbn [mbind option_bind List.filter snd].
  destruct (orphan known t r); [|done]. cbn [mbind option_bind]. f_equal. apply IH.
Qed.

Lemma found_elem n known t st (keys : list (list Z)) key r :
  (key, r) ∈ omap (fun key => r ← orphan_at n known t st key; Some (key, r)) keys <->
  key ∈ keys /\ orphan_at n known t st key = Some r.
Proof.
  rewrite list_elem_of_omap. split.
  - intros (k & Hk & Ho). destruct (orphan_at n known t st k) eqn:E; simplify_eq/=. done.
  - intros [Hk Ho]. exists key. rewrite Ho. done.
Qed.

Lemma length_found n known t st (keys : list (list Z)) :
  length (omap (fun key => r ← orphan_at n known t st key; Some (key, r)) keys) =
  length (omap (orphan_at n known t st) keys).
Proof.
  induction keys as [|key keys IH]; [done|]. cbn [omap list_omap].
  destruct (orphan_at n known t st key); cbn [mbind option_bind length]; [f_equal|]; apply IH.
Qed.

Lemma route_keys st (keys : list (list Z)) : map fst (omap (route_of st) keys) `sublist_of` keys.
Proof.
  induction keys as [|key keys IH]; [done|]. cbn [omap list_omap].
  unfold route_of at 1. destruct (e ← kv st !! key; _) as [[k r]|] eqn:E; [|by constructor].
  assert (k = key) as ->; [|cbn [map fst]; by constructor].
  destruct (kv st !! key) as [e|]; [|done]. cbn in E. by destruct (decode (kv_value e)); simplify_eq/=.
Qed.

(** The sweep marks exactly the orphans: when no one else writes and every call is
    answered, the routes in a live state whose worker the table does not know are rewritten as
    lost, with a fresh time to live, and nothing else of them changes; every other key is left
    alone, and the number of marked routes is returned. *)
Lemma sweep_marks_exactly_orphans fuel now order t st n :
  store_ok st -> stable n st -> env_order (env n) ≡ₚ map fst (map_to_list (kv st)) ->
  let known := map wid (WorkerTable.live now order t) in
  exists st' n', sweep_orphans (S fuel) now order t (mkWorld st n) =
    (Ok (Z.of_nat (length (omap (orphan_at n known t st) (env_order (env n))))), mkWorld st' n') /\
    streams st' = streams st /\
    forall key, match orphan_at n known t st key with
    | Some r => exists m e, kv st' !! key = Some e /\ marked m r e
    | None => kv st' !! key = kv st !! key
    end.
Proof.
  intros Hok Hst Hord known. unfold sweep_orphans, scan_routes, try_bind, bind, ret. fold known.
  rewrite scan_prefix_quiet by done. rewrite (read_routes_quiet n).
  2-3: done.
  2: { intros key (e & He & Hl & _)%scanned_elem. eauto. }
  destruct (sweep_routes_quiet known t (omap (route_of st) (scanned n st)) 0 st
              (length (scanned n st) + S n)) as (st' & n' & Heq & H1 & H2 & H3).
  - eapply sublist_NoDup; [|apply route_keys]. unfold scanned. apply NoDup_ListNoDup, List.NoDup_filter, NoDup_ListNoDup.
    rewrite Hord. apply NoDup_fst_map_to_list.
  - apply Forall_forall. intros [k r] Hk.
    apply (list_elem_of_fmap_2 fst) in Hk. eapply elem_of_sublist in Hk; [|apply route_keys].
    apply scanned_elem in Hk as (e & He & _). by apply (proj2 Hok k e).
  - unfold scanned in *. rewrite marks_found in *. exists st', n'. rewrite Heq. split_and!; [|done|].
    + by rewrite <- (length_found n known t st).
    + intros key. destruct (orphan_at n known t st key) as [r|] eqn:Ho.
      * destruct (H3 key r) as (m & e & Hm & He); [|by exists m, e].
        apply found_elem. split; [|done]. rewrite Hord. unfold orphan_at in Ho.
        destruct (kv st !! key) as [e|] eqn:He; [|done].
        apply list_elem_of_fmap. exists (key, e). split; [done|by apply elem_of_map_to_list].
      * apply H2. intros ([k r] & -> & [_ Hk]%found_elem)%list_elem_of_fmap. cbn [fst] in *. congruence.
Qed.
End pass.

(** ** Examples *)
Module ControllerExamples.
Local Open Scope string_scope.

(** A codec: the route as one number. *)
Definition toy_encode (r : SandboxRoute) : result resp_error (list Z) :=
  Ok [Z.pos (countable.encode (r_sid r, r_wid r, r_url r, r_state r, r_ts_ms r, r_result r))].
Definition toy_decode (v : list Z) : option SandboxRoute :=
  match v with
  | [Z.pos p] =>
      '(sid, wid, url, state, ts, result) ← countable.decode p;
      Some (mkSandboxRoute sid wid url state ts result)
  | _ => None
  end.

Lemma toy_codec r : exists v, toy_encode r = Ok v /\ toy_decode v = Some r.
Proof. eexists. split; [reflexivity|]. cbn. rewrite decode_encode. by destruct r. Qed.

Definition bytes_of (r : SandboxRoute) : list Z :=
  match toy_encode r with Ok v => v | Err _ => [] end.

Definition demo_route (sid wid state : string) (result : option Z) : SandboxRoute :=
  mkSandboxRoute sid wid "http://w" state 1 result.

Definition key_of (sid : string) : list Z := (SANDBOX_PREFIX ++ bs sid)%list.

(** [s1] runs on a worker the table has forgotten, [s2] on one it knows, [s3] is over. *)
Definition routes_store : Store :=
  mkStore (list_to_map (map (fun r => (key_of (r_sid r), mkKvEntry (bytes_of r) (Some 1000000000)))
    [demo_route "s1" "gone" "running" None; demo_route "s2" "w1" "paused" None;
     demo_route "s3" "gone" "terminated" (Some 0)])) ∅.

Definition demo_env (n : nat) : Env :=
  mkEnv (Z.min (Z.of_nat n) 100) 77 (map fst (map_to_list (kv routes_store))) [].
Definition known_table : WorkerTable :=
  deliver [(0, OrchestratorExamples.demo_hb "w1" 1 100 3 false)]
    (WorkerTable.new OrchestratorExamples.demo_config).

Definition quiet (n : nat) (st : Store) : Store := st.
Definition same_table (n : nat) (t : WorkerTable) : WorkerTable := t.

Definition demo_sweep (others : nat -> Store -> Store) : result resp_error Z * World :=
  sweep_orphans toy_encode toy_decode demo_env (fun _ => fine) others same_table 1 1 [] known_table
    (mkWorld routes_store 0).

Lemma routes_store_ok : store_ok routes_store.
Proof.
  split; [by vm_compute|]. intros key e He. apply elem_of_map_to_list in He.
  assert (Hall : Forall (fun ke => utf8_valid (fst ke) = true /\ Z.of_nat (length (fst ke)) < 2 ^ 63 /\
    Z.of_nat (length (kv_value (snd ke))) < 2 ^ 63) (map_to_list (kv routes_store))) by by_decide.
  rewrite Forall_forall in Hall. apply (Hall (key, e) He).
Qed.

(** The scan reads all routes before the first is rewritten, and a rewrite does not look at
    what is there: an update of a route in between, here that the sandbox ended with 0, is
    replaced by what the scan read. *)
Definition ended (n : nat) (st : Store) : Store :=
  if (n =? 4)%nat
  then set_kv st (<[key_of "s1" := mkKvEntry (bytes_of (demo_route "s1" "gone" "terminated" (Some 0)))
                                     (Some 1000000000)]> (kv st))
  else st.

Lemma route_update_lost_in_sweep :
  fst (demo_sweep ended) = Ok 1 /\
  (kv (store (snd (demo_sweep ended))) !! key_of "s1" ≫= (fun e => toy_decode (kv_value e))) =
    Some (lost_route 77 (demo_route "s1" "gone" "running" None)).
Proof. split; vm_compute; reflexivity. Qed.
End ControllerExamples.
