(* ===== verification/IpAddr.v ===== *)
(** Addresses of the internet protocols as [std::net] has them: the textual form that
    [IpAddr::from_str] accepts, the textual form of [Ipv4Addr], masks, and the classes that
    [vmond/src/net/] asks for.  An address is its number, of 32 or of 128 bits. *)

From S2P Require Import Prelude Decimal.

Inductive IpAddr : Type := V4 (a : Z) | V6 (a : Z).

#[export] Instance IpAddr_eq_dec : EqDecision IpAddr.
Proof. solve_decision. Defined.

#[export] Instance IpAddr_countable : Countable IpAddr.
Proof.
  refine (inj_countable' (fun i => match i with V4 a => inl a | V6 a => inr a end)
    (fun s => match s with inl a => V4 a | inr a => V6 a end) _).
  by intros [].
Defined.

Definition addr_ok (i : IpAddr) : Prop :=
  match i with V4 a => in_width 32 a | V6 a => in_width 128 a end.

(** [Ipv4Addr::new] and [Ipv6Addr::new]. *)
Definition v4 (a b c d : Z) : Z := ((a * 256 + b) * 256 + c) * 256 + d.
Definition v6 (groups : list Z) : Z := fold_left (fun n g => n * 65536 + g) groups 0.

(** ** Text *)

(** [char::to_digit]. *)
Definition to_digit (radix b : Z) : option Z :=
  d ← (if (48 <=? b) && (b <=? 57) then Some (b - 48)
       else if (97 <=? b) && (b <=? 122) then Some (b - 87)
       else if (65 <=? b) && (b <=? 90) then Some (b - 55)
       else None);
  if d <? radix then Some d else None.

(** The digits at the front. *)
Fixpoint take_digits (radix : Z) (s : list Z) : list Z * list Z :=
  match s with
  | [] => ([], [])
  | b :: s' =>
      match to_digit radix b with
      | Some d => let '(ds, r) := take_digits radix s' in (d :: ds, r)
      | None => ([], s)
      end
  end.

(** [Parser::read_number]: at most [max] digits, a value of [w] bits. *)
Definition read_number (radix : Z) (max : nat) (zero_prefix : bool) (w : Z) (s : list Z)
  : option (Z * list Z) :=
  let '(ds, r) := take_digits radix s in
  let n := fold_left (fun n d => n * radix + d) ds 0 in
  if (length ds =? 0)%nat || (max <? length ds)%nat || (2 ^ w <=? n) then None
  else if negb zero_prefix && bool_decide (head ds = Some 0) && (1 <? length ds)%nat then None
  else Some (n, r).

Definition read_given_char (c : Z) (s : list Z) : option (list Z) :=
  match s with b :: s' => if b =? c then Some s' else None | [] => None end.

(** [Parser::read_separator]. *)
Definition read_separator {A} (sep : Z) (index : nat) (inner : list Z -> option (A * list Z))
    (s : list Z) : option (A * list Z) :=
  s ← (if (index =? 0)%nat then Some s else read_given_char sep s); inner s.

Definition read_octet (i : nat) : list Z -> option (Z * list Z) :=
  read_separator 46 i (read_number 10 3 false 8).

Definition read_ipv4_addr (s : list Z) : option (Z * list Z) :=
  '(a, s) ← read_octet 0 s; '(b, s) ← read_octet 1 s; '(c, s) ← read_octet 2 s;
  '(d, s) ← read_octet 3 s; Some (v4 a b c d, s).

(** [read_groups]: from group [i] of [limit]; an embedded IPv4 address takes two. *)
Fixpoint read_groups (fuel : nat) (limit i : nat) (s : list Z) : list Z * bool * list Z :=
  match fuel with
  | O => ([], false, s)
  | S fuel =>
      let embedded := if (i <? limit - 1)%nat then read_separator 58 i read_ipv4_addr s else None in
      match embedded with
      | Some (a, s) => ([a / 65536; a mod 65536], true, s)
      | None =>
          match read_separator 58 i (read_number 16 4 true 16) s with
          | Some (g, s) => let '(gs, v4end, s) := read_groups fuel limit (S i) s in (g :: gs, v4end, s)
          | None => ([], false, s)
          end
      end
  end.

Definition read_ipv6_addr (s : list Z) : option (Z * list Z) :=
  let '(head, head_v4, s) := read_groups 8 8 0 s in
  if (length head =? 8)%nat then Some (v6 head, s)
  else if head_v4 then None
  else
    s ← read_given_char 58 s;
    s ← read_given_char 58 s;
    let limit := (8 - (length head + 1))%nat in
    let '(tail, _, s) := read_groups limit limit 0 s in
    Some (v6 (head ++ repeat 0 (8 - length head - length tail) ++ tail), s).

(** The whole text must be read. *)
Definition parse_ipv4 (s : list Z) : option Z :=
  '(a, r) ← read_ipv4_addr s; match r with [] => Some a | _ => None end.

Definition parse_ip (s : list Z) : option IpAddr :=
  '(i, r) ← match read_ipv4_addr s with
            | Some (a, r) => Some (V4 a, r)
            | None => '(a, r) ← read_ipv6_addr s; Some (V6 a, r)
            end;
  match r with [] => Some i | _ => None end.

(** [Display for Ipv4Addr]. *)
Definition show_ipv4 (a : Z) : list Z :=
  decimal (a / 2 ^ 24) ++ 46 :: decimal (a / 2 ^ 16 mod 256) ++ 46 :: decimal (a / 2 ^ 8 mod 256)
  ++ 46 :: decimal (a mod 256).

(** ** Masks and classes *)

Definition ipv4_mask (prefix : Z) : Z :=
  if prefix =? 0 then 0 else wrap 32 (Z.shiftl (2 ^ 32 - 1) (32 - prefix)).
Definition ipv6_mask (prefix : Z) : Z :=
  if prefix =? 0 then 0 else wrap 128 (Z.shiftl (2 ^ 128 - 1) (128 - prefix)).

(** The octets of an address. *)
Definition octet (i a : Z) : Z := a / 256 ^ (3 - i) mod 256.

Definition v4_is_unspecified (a : Z) : bool := a =? 0.
Definition v4_is_loopback (a : Z) : bool := octet 0 a =? 127.
Definition v4_is_private (a : Z) : bool :=
  (octet 0 a =? 10)
  || ((octet 0 a =? 172) && (16 <=? octet 1 a) && (octet 1 a <=? 31))
  || ((octet 0 a =? 192) && (octet 1 a =? 168)).
Definition v4_is_link_local (a : Z) : bool := (octet 0 a =? 169) && (octet 1 a =? 254).
Definition v4_is_multicast (a : Z) : bool := (224 <=? octet 0 a) && (octet 0 a <=? 239).
Definition v4_is_broadcast (a : Z) : bool := a =? 2 ^ 32 - 1.

Definition v6_is_unspecified (a : Z) : bool := a =? 0.
Definition v6_is_loopback (a : Z) : bool := a =? 1.
Definition v6_is_multicast (a : Z) : bool := a / 2 ^ 120 =? 255.

(** Cutting an address to a prefix. *)
Lemma mask_ones w p :
  0 < p <= w -> wrap w (Z.shiftl (2 ^ w - 1) (w - p)) = Z.shiftl (Z.ones p) (w - p).
Proof.
  intros Hp. unfold wrap. rewrite !Z.shiftl_mul_pow2, Z.ones_equiv by lia.
  assert (H2 : 2 ^ w = 2 ^ (w - p) * 2 ^ p) by (rewrite <- Z.pow_add_r by lia; f_equal; lia).
  pose proof (Z.pow_pos_nonneg 2 (w - p)). pose proof (Z.pow_pos_nonneg 2 p).
  symmetry. apply (Z.mod_unique _ _ (2 ^ (w - p) - 1)); [left; nia|]. nia.
Qed.

Lemma mask_land w p a :
  0 <= p <= w -> in_width w a ->
  Z.land a (if p =? 0 then 0 else wrap w (Z.shiftl (2 ^ w - 1) (w - p))) =
  a / 2 ^ (w - p) * 2 ^ (w - p).
Proof.
  intros Hp Ha. destruct (Z.eqb_spec p 0) as [->|Hne].
  { destruct Ha. rewrite Z.land_0_r, Z.sub_0_r, Z.div_small by lia. lia. }
  rewrite mask_ones by lia. rewrite <- Z.shiftl_mul_pow2, <- Z.shiftr_div_pow2 by lia.
  apply Z.bits_inj'. intros n Hn. rewrite Z.land_spec, !Z.shiftl_spec by lia.
  destruct (Z.ltb_spec n (w - p)).
  { rewrite !(Z.testbit_neg_r _ (n - (w - p))) by lia. by rewrite andb_false_r. }
  rewrite Z.shiftr_spec by lia. replace (n - (w - p) + (w - p)) with n by lia.
  destruct (Z.ltb_spec n w).
  - rewrite Z.ones_spec_low by lia. apply andb_true_r.
  - by rewrite (testbit_width w a n) by (done || lia).
Qed.

(** Two addresses agree on a prefix when they agree on what is left of it. *)
Lemma mask_eq w p a b :
  0 <= p <= w -> in_width w a -> in_width w b ->
  let mask := if p =? 0 then 0 else wrap w (Z.shiftl (2 ^ w - 1) (w - p)) in
  Z.land a mask = Z.land b mask <-> a / 2 ^ (w - p) = b / 2 ^ (w - p).
Proof.
  intros Hp Ha Hb mask. unfold mask. rewrite !mask_land by done.
  pose proof (Z.pow_pos_nonneg 2 (w - p)). split; [nia|congruence].
Qed.

(** ** Addresses that are printed are read back *)

Lemma take_digits_decimal l s :
  Forall (fun b => is_ascii_digit b = true) l ->
  match s with b :: _ => to_digit 10 b = None | [] => True end ->
  take_digits 10 (l ++ s) = (map (fun b => b - 48) l, s).
Proof.
  induction 1 as [|b l Hb _ IH]; intros Hs; cbn [app take_digits map].
  - destruct s as [|b s]; [done|]. cbn [take_digits]. by rewrite Hs.
  - assert (to_digit 10 b = Some (b - 48)) as ->.
    { unfold to_digit, is_ascii_digit in *. rewrite Hb. bool_to_prop. cbn.
      by rewrite (proj2 (Z.ltb_lt _ _)) by lia. }
    by rewrite IH.
Qed.

Lemma fold_dec_step l n :
  fold_left (fun n d => n * 10 + d) (map (fun b => b - 48) l) n = fold_left dec_step l n.
Proof. revert n. induction l as [|b l IH]; intros n; [done|]. cbn. apply IH. Qed.

(** What an octet is printed as: one to three digits without a leading zero. *)
Definition octet_text (n : Z) : bool :=
  let ds := map (fun b => b - 48) (decimal n) in
  negb (length ds =? 0)%nat && negb (3 <? length ds)%nat
  && negb (bool_decide (head ds = Some 0) && (1 <? length ds)%nat).

Lemma octet_text_all n : 0 <= n < 256 -> octet_text n = true.
Proof.
  intros Hn. assert (Hall : forallb (fun k => octet_text (Z.of_nat k)) (seq 0 256) = true)
    by (vm_compute; reflexivity).
  rewrite <- (Z2Nat.id n) by lia. apply (proj1 (forallb_forall _ _) Hall), in_seq. lia.
Qed.

Lemma read_octet_decimal n s :
  0 <= n < 256 -> match s with b :: _ => to_digit 10 b = None | [] => True end ->
  read_number 10 3 false 8 (decimal n ++ s) = Some (n, s).
Proof.
  intros Hn Hs. unfold read_number. rewrite take_digits_decimal by (done || apply decimal_digits; lia).
  pose proof (octet_text_all n Hn) as Ht. unfold octet_text in Ht.
  apply andb_true_iff in Ht as [Ht Hz]. apply andb_true_iff in Ht as [H0 H3].
  apply negb_true_iff in H0, H3, Hz. cbv zeta. rewrite H0, H3. cbn [negb andb orb]. rewrite Hz.
  rewrite fold_dec_step. unfold decimal. rewrite dec_value_digits; [|split; [lia|]|lia].
  - cbn [fold_left]. by rewrite (proj2 (Z.leb_gt _ _)) by lia.
  - change (10 ^ Z.of_nat 20) with 100000000000000000000. lia.
Qed.

(** The text of an IPv4 address is read back, whatever follows it. *)
Lemma read_show_ipv4 a s :
  in_width 32 a -> match s with b :: _ => to_digit 10 b = None | [] => True end ->
  read_ipv4_addr (show_ipv4 a ++ s) = Some (a, s).
Proof.
  intros [Ha0 Ha] Hs. unfold read_ipv4_addr, show_ipv4, read_octet, read_separator.
  cbn [Nat.eqb mbind option_bind]. rewrite <- (assoc_L (++)).
  rewrite read_octet_decimal by (done || divlia). cbn [mbind option_bind app read_given_char Z.eqb Pos.eqb].
  rewrite <- (assoc_L (++)). rewrite read_octet_decimal by (done || divlia).
  cbn [mbind option_bind app read_given_char Z.eqb Pos.eqb]. rewrite <- (assoc_L (++)).
  rewrite read_octet_decimal by (done || divlia).
  cbn [mbind option_bind app read_given_char Z.eqb Pos.eqb].
  rewrite read_octet_decimal by (done || divlia). cbn [mbind option_bind]. do 2 f_equal.
  unfold v4. divlia.
Qed.

Lemma parse_show_ipv4 a : in_width 32 a -> parse_ipv4 (show_ipv4 a) = Some a.
Proof.
  intros Ha. unfold parse_ipv4. rewrite <- (app_nil_r (show_ipv4 a)). by rewrite read_show_ipv4.
Qed.

(** Texts of IPv6 addresses. *)
Example ipv6_loopback : parse_ip (bs "::1") = Some (V6 1).
Proof. vm_compute. reflexivity. Qed.
Example ipv6_documentation : parse_ip (bs "2001:db8::") = Some (V6 (0x20010db8 * 2 ^ 96)).
Proof. vm_compute. reflexivity. Qed.
Example ipv6_mapped : parse_ip (bs "::ffff:10.0.0.1") = Some (V6 (0xffff * 2 ^ 32 + v4 10 0 0 1)).
Proof. vm_compute. reflexivity. Qed.
Example ipv6_two_gaps : parse_ip (bs "1::2::3") = None.
Proof. vm_compute. reflexivity. Qed.
Example ipv4_leading_zero : parse_ip (bs "10.0.0.01") = None.
Proof. vm_compute. reflexivity. Qed.

(** ** What is read is in range *)

Lemma to_digit_range radix b d : to_digit radix b = Some d -> 0 <= d < radix.
Proof.
  unfold to_digit. intros H. apply bind_Some in H as (d' & Hd & H). case_match eqn:Hr; simplify_eq.
  apply Z.ltb_lt in Hr. repeat case_match; simplify_eq; bool_to_prop; lia.
Qed.

Lemma take_digits_range radix s : Forall (fun d => 0 <= d < radix) (fst (take_digits radix s)).
Proof.
  induction s as [|b s IH]; [constructor|]. cbn [take_digits].
  destruct (to_digit radix b) as [d|] eqn:Hd; [|constructor].
  destruct (take_digits radix s) as [ds r]. constructor; [by eapply to_digit_range|exact IH].
Qed.

Lemma fold_digits_nonneg radix l n :
  0 <= radix -> 0 <= n -> Forall (fun d => 0 <= d < radix) l ->
  0 <= fold_left (fun n d => n * radix + d) l n.
Proof. intros Hr Hn Hl. revert n Hn. induction Hl as [|d l Hd _ IH]; intros n Hn; [done|]. apply IH. nia. Qed.

Lemma read_number_range radix max zp w s n r :
  0 <= radix -> read_number radix max zp w s = Some (n, r) -> in_width w n.
Proof.
  unfold read_number. intros Hr H. pose proof (take_digits_range radix s) as Hd.
  destruct (take_digits radix s) as [ds r']. repeat case_match; simplify_eq. bool_to_prop.
  split; [by apply fold_digits_nonneg|lia].
Qed.

Lemma read_separator_Some {A} sep i (inner : list Z -> option (A * list Z)) s x :
  read_separator sep i inner s = Some x -> exists s', inner s' = Some x.
Proof. unfold read_separator. intros H. apply bind_Some in H as (s' & _ & H). eauto. Qed.

Lemma read_octet_range i s n r : read_octet i s = Some (n, r) -> 0 <= n < 256.
Proof.
  intros (s' & H)%read_separator_Some. apply read_number_range in H; [|lia]. exact H.
Qed.

Lemma read_ipv4_range s a r : read_ipv4_addr s = Some (a, r) -> in_width 32 a.
Proof.
  unfold read_ipv4_addr. intros H.
  repeat (apply bind_Some in H as ([? ?] & ?%read_octet_range & H)). simplify_eq.
  unfold in_width, v4. lia.
Qed.

Lemma read_groups_range fuel limit i s :
  let '(gs, _, _) := read_groups fuel limit i s in
  Forall (in_width 16) gs /\ ((i + fuel = limit)%nat -> (length gs <= fuel)%nat).
Proof.
  revert i s. induction fuel as [|fuel IH]; intros i s; cbn [read_groups]; [split; [constructor|done]|].
  destruct (if (i <? limit - 1)%nat then _ else _) as [[a s']|] eqn:He.
  - destruct (Nat.ltb_spec i (limit - 1)); [|done].
    apply read_separator_Some in He as (s'' & He). apply read_ipv4_range in He as [Ha0 Ha]. split.
    + repeat constructor; divlia.
    + intros Hl. cbn [length]. lia.
  - clear He. destruct (read_separator _ _ _ s) as [[g s']|] eqn:Hg; [|split; [constructor|cbn; lia]].
    apply read_separator_Some in Hg as (s'' & Hg). apply read_number_range in Hg; [|lia].
    pose proof (IH (S i) s') as Hi. destruct (read_groups fuel limit (S i) s') as [[gs v] r].
    destruct Hi as [Hf Hl]. split; [by constructor|]. cbn [length]. intros. specialize (Hl ltac:(lia)). lia.
Qed.

Lemma v6_range_acc gs n k :
  Forall (in_width 16) gs -> 0 <= n < 2 ^ (16 * Z.of_nat k) ->
  0 <= fold_left (fun n g => n * 65536 + g) gs n < 2 ^ (16 * Z.of_nat (k + length gs)).
Proof.
  intros Hg. revert n k. induction Hg as [|g gs [Hg0 Hg] _ IH]; intros n k Hn; cbn [fold_left length].
  { by rewrite Nat.add_0_r. }
  rewrite Nat.add_succ_r, <- Nat.add_succ_l. apply IH.
  replace (16 * Z.of_nat (S k)) with (16 * Z.of_nat k + 16) by lia.
  rewrite Z.pow_add_r by lia. change (2 ^ 16) with 65536 in *. nia.
Qed.

Lemma v6_range gs : Forall (in_width 16) gs -> length gs = 8%nat -> in_width 128 (v6 gs).
Proof.
  intros Hg Hl. pose proof (v6_range_acc gs 0 0 Hg) as H. rewrite Hl in H. apply H.
  change (2 ^ (16 * Z.of_nat 0)) with 1. lia.
Qed.

Lemma read_ipv6_range s a r : read_ipv6_addr s = Some (a, r) -> in_width 128 a.
Proof.
  unfold read_ipv6_addr. intros H. pose proof (read_groups_range 8 8 0 s) as Hh.
  destruct (read_groups 8 8 0 s) as [[hd hv] s1]. destruct Hh as [Hf Hl]. specialize (Hl eq_refl).
  destruct (Nat.eqb_spec (length hd) 8) as [H8|H8]; [simplify_eq; by apply v6_range|].
  destruct hv; [done|].
  apply bind_Some in H as (s2 & _ & H). apply bind_Some in H as (s3 & _ & H). cbv zeta in H.
  set (limit := (8 - (length hd + 1))%nat) in *.
  pose proof (read_groups_range limit limit 0 s3) as Ht.
  destruct (read_groups limit limit 0 s3) as [[tl tv] s4]. destruct Ht as [Htf Htl]. specialize (Htl eq_refl).
  simplify_eq. apply v6_range.
  - apply Forall_app. split; [done|]. apply Forall_app. split; [|done].
    apply Forall_forall. intros x Hx%list_elem_of_In%repeat_spec. subst. unfold in_width. lia.
  - rewrite !length_app, repeat_length. lia.
Qed.

Lemma parse_ip_ok s i : parse_ip s = Some i -> addr_ok i.
Proof.
  unfold parse_ip. intros H. apply bind_Some in H as ([i' r] & Hi & H). destruct r; simplify_eq.
  destruct (read_ipv4_addr s) as [[a r]|] eqn:E; simplify_eq; [by eapply read_ipv4_range|].
  apply bind_Some in Hi as ([a r] & Ha & Hi). simplify_eq. by eapply read_ipv6_range.
Qed.

(** ** Ranges *)

(** An aligned block is a range of numbers. *)
Lemma block_range w p a n :
  0 <= p <= w -> in_width w a -> n mod 2 ^ (w - p) = 0 ->
  (Z.land a (if p =? 0 then 0 else wrap w (Z.shiftl (2 ^ w - 1) (w - p))) =? n) =
  (n <=? a) && (a <? n + 2 ^ (w - p)).
Proof.
  intros Hp Ha Hn. rewrite mask_land by done. pose proof (Z.pow_pos_nonneg 2 (w - p)) as Hpos.
  set (k := 2 ^ (w - p)) in *. specialize (Hpos ltac:(lia) ltac:(lia)).
  pose proof (Z.div_mod a k ltac:(lia)) as Hd. pose proof (Z.mod_pos_bound a k Hpos) as Hm.
  pose proof (Z.div_mod n k ltac:(lia)) as Hdn.
  apply eq_true_iff_eq. rewrite andb_true_iff, Z.eqb_eq, Z.leb_le, Z.ltb_lt. split; [nia|].
  intros [H1 H2]. assert (n / k = a / k) by nia. nia.
Qed.
