(* ===== verification/EgressPolicy.v ===== *)
(** [vmond/src/net/policy.rs]: which destinations a guest may reach.  Domains are resolved by
    the daemon; the answers are checked against the protected ranges and pinned until their
    time to live is over.  The answer of the resolver is an input of each call; times are
    nanoseconds. *)

From S2P Require Import Prelude Decimal Json IpAddr.

Record ResolvedAddress : Type := mkResolvedAddress { address : IpAddr; ttl : Z }.

Inductive egress_error : Type :=
  | InvalidCidr | NotProtectedCidr | InvalidDomain | DomainNotAllowed | ResolverFailed | NoAddresses
  | ProtectedAnswer (a : IpAddr) | NoDnsServer | ProtectedDns (a : IpAddr).

(** ** Protected ranges *)

Definition PROTECTED_V4_BLOCKS : list (Z * Z) :=
  [(0, 8); (v4 127 0 0 0, 8); (v4 10 0 0 0, 8); (v4 172 16 0 0, 12); (v4 192 168 0 0, 16);
   (v4 169 254 0 0, 16); (v4 224 0 0 0, 4); (2 ^ 32 - 1, 32); (v4 100 64 0 0, 10);
   (v4 192 0 0 0, 24); (v4 192 0 2 0, 24); (v4 192 88 99 0, 24); (v4 198 18 0 0, 15);
   (v4 198 51 100 0, 24); (v4 203 0 113 0, 24); (v4 240 0 0 0, 4)].

Definition PROTECTED_V6_BLOCKS : list (Z * Z) :=
  [(0, 128); (1, 128); (v6 [0xfc00; 0; 0; 0; 0; 0; 0; 0], 7); (v6 [0xfe80; 0; 0; 0; 0; 0; 0; 0], 10);
   (v6 [0xff00; 0; 0; 0; 0; 0; 0; 0], 8); (v6 [0x2001; 0x0db8; 0; 0; 0; 0; 0; 0], 32);
   (v6 [0x2001; 0x10; 0; 0; 0; 0; 0; 0], 28)].

Definition in_v4 (a network prefix : Z) : bool := Z.land a (ipv4_mask prefix) =? network.

Definition in_v6 (a : Z) (network : string) (prefix : Z) : bool :=
  match parse_ip (bs network) with
  | Some (V6 n) => Z.land a (ipv6_mask prefix) =? n
  | _ => false
  end.

Definition is_protected (i : IpAddr) : bool :=
  match i with
  | V4 a =>
      v4_is_unspecified a || v4_is_loopback a || v4_is_private a || v4_is_link_local a
      || v4_is_multicast a || v4_is_broadcast a
      || in_v4 a (v4 100 64 0 0) 10 || in_v4 a (v4 192 0 0 0) 24 || in_v4 a (v4 192 0 2 0) 24
      || in_v4 a (v4 192 88 99 0) 24 || in_v4 a (v4 198 18 0 0) 15
      || in_v4 a (v4 198 51 100 0) 24 || in_v4 a (v4 203 0 113 0) 24
      || in_v4 a (v4 240 0 0 0) 4
  | V6 a =>
      v6_is_unspecified a || v6_is_loopback a || v6_is_multicast a
      || in_v6 a "fc00::" 7 || in_v6 a "fe80::" 10 || in_v6 a "2001:db8::" 32
      || in_v6 a "2001:10::" 28
  end.

(** ** Exceptions *)

Record TrustedCidr : Type := mkTrustedCidr { network : IpAddr; prefix : Z }.

Definition contains (c : TrustedCidr) (i : IpAddr) : bool :=
  match network c, i with
  | V4 n, V4 a => Z.land n (ipv4_mask (prefix c)) =? Z.land a (ipv4_mask (prefix c))
  | V6 n, V6 a => Z.land n (ipv6_mask (prefix c)) =? Z.land a (ipv6_mask (prefix c))
  | _, _ => false
  end.

Definition width (i : IpAddr) : Z := match i with V4 _ => 32 | V6 _ => 128 end.

Definition masked (i : IpAddr) (p : Z) : IpAddr :=
  match i with
  | V4 a => V4 (Z.land a (ipv4_mask p))
  | V6 a => V6 (Z.land a (ipv6_mask p))
  end.

(** The exception lies within one protected block. *)
Definition in_block (n : IpAddr) (p : Z) : bool :=
  match n with
  | V4 a => existsb (fun '(block, bp) => (bp <=? p) && (Z.land a (ipv4_mask bp) =? block)) PROTECTED_V4_BLOCKS
  | V6 a => existsb (fun '(block, bp) => (bp <=? p) && (Z.land a (ipv6_mask bp) =? block)) PROTECTED_V6_BLOCKS
  end.

(** [FromStr for TrustedCidr]. *)
Definition parse_cidr (value : list Z) : result egress_error TrustedCidr :=
  let t := trim value in
  let '(addr, pre) := match split_once 47 t with Some (a, p) => (a, Some p) | None => (t, None) end in
  i <-? ok_or (parse_ip addr) InvalidCidr ;
  p <-? match pre with None => Ok (width i) | Some s => ok_or (parse_unsigned 8 s) InvalidCidr end ;
  if width i <? p then Err InvalidCidr
  else
    let n := masked i p in
    if in_block n p then Ok (mkTrustedCidr n p) else Err NotProtectedCidr.

(** ** Domains *)

Definition lower (b : Z) : Z := if (65 <=? b) && (b <=? 90) then b + 32 else b.
Definition to_ascii_lowercase (s : list Z) : list Z := map lower s.

(** [trim_end_matches('.')]. *)
Fixpoint drop_dots (s : list Z) : list Z :=
  match s with b :: s' => if b =? 46 then drop_dots s' else s | [] => [] end.
Definition trim_end_dots (s : list Z) : list Z := rev (drop_dots (rev s)).

(** [strip_prefix("*.")]. *)
Definition strip_wildcard (s : list Z) : option (list Z) :=
  match s with 42 :: 46 :: s' => Some s' | _ => None end.

(** [split('.')]. *)
Fixpoint labels (s : list Z) : list (list Z) :=
  match s with
  | [] => [[]]
  | b :: s =>
      if b =? 46 then [] :: labels s
      else match labels s with l :: ls => (b :: l) :: ls | [] => [[b]] end
  end.

Definition alnum_dash (b : Z) : bool :=
  ((48 <=? b) && (b <=? 57)) || ((65 <=? b) && (b <=? 90)) || ((97 <=? b) && (b <=? 122)) || (b =? 45).

Definition label_bad (l : list Z) : bool :=
  (length l =? 0)%nat || (63 <? length l)%nat || bool_decide (head l = Some 45)
  || bool_decide (last l = Some 45) || negb (forallb alnum_dash l).

Definition normalize_domain (value : list Z) : result egress_error (list Z) :=
  let domain := to_ascii_lowercase (trim_end_dots (trim value)) in
  let host := default domain (strip_wildcard domain) in
  if (length host =? 0)%nat || (253 <? length host)%nat || existsb label_bad (labels host)
  then Err InvalidDomain else Ok domain.

Definition ends_with (suffix s : list Z) : bool :=
  bool_decide (drop (length s - length suffix) s = suffix).

(** ** The policy *)

Record PinnedAddresses : Type := mkPinned { addresses : gset IpAddr; expires_at : Z }.

Record EgressPolicy : Type := mkEgressPolicy {
  allowed_domains : list (list Z); trusted : list TrustedCidr; pins : gmap (list Z) PinnedAddresses }.

Definition DURATION_MAX : Z := (2 ^ 64 - 1) * 1000000000 + 999999999.

(** [collect::<Result<_>>]: the first error. *)
Fixpoint try_map {A B} (f : A -> result egress_error B) (l : list A) : result egress_error (list B) :=
  match l with
  | [] => Ok []
  | x :: l => y <-? f x ; ys <-? try_map f l ; Ok (y :: ys)
  end.

Definition new (domains cidrs : list (list Z)) : result egress_error EgressPolicy :=
  ds <-? try_map normalize_domain domains ;
  ts <-? try_map parse_cidr cidrs ;
  Ok (mkEgressPolicy ds ts ∅).

Definition destination_allowed (p : EgressPolicy) (i : IpAddr) : bool :=
  existsb (fun c => contains c i) (trusted p) || negb (is_protected i).

Definition domain_matches (allowed domain : list Z) : bool :=
  bool_decide (allowed = domain)
  || match strip_wildcard allowed with
     | Some suffix =>
         (length suffix <? length domain)%nat && ends_with suffix domain
         && bool_decide (domain !! (length domain - length suffix - 1)%nat = Some 46)
     | None => false
     end.

Definition domain_allowed (p : EgressPolicy) (domain : list Z) : bool :=
  existsb (fun allowed => domain_matches allowed domain) (allowed_domains p).

(** The loop over the answers: the addresses and the least time to live. *)
Fixpoint check_answers (p : EgressPolicy) (answers : list ResolvedAddress) (acc : gset IpAddr)
    (least : option Z) : result egress_error (gset IpAddr * option Z) :=
  match answers with
  | [] => Ok (acc, least)
  | a :: answers =>
      if negb (destination_allowed p (address a)) then Err (ProtectedAnswer (address a))
      else check_answers p answers ({[address a]} ∪ acc)
             (Some (match least with Some t => Z.min t (ttl a) | None => ttl a end))
  end.

(** A host without a valid pin: the whole set is replaced, after every answer was checked. *)
Definition refresh (resolver : list Z -> result egress_error (list ResolvedAddress)) (host : list Z)
    (now : Z) (p : EgressPolicy) : result egress_error (gset IpAddr) * EgressPolicy :=
  match resolver host with
  | Err e => (Err e, p)
  | Ok [] => (Err NoAddresses, p)
  | Ok answers =>
      match check_answers p answers ∅ None with
      | Err e => (Err e, p)
      | Ok (set, least) =>
          let expires := Z.min (now + default 0 least) DURATION_MAX in
          (Ok set, mkEgressPolicy (allowed_domains p) (trusted p)
                     (<[host := mkPinned set expires]> (pins p)))
      end
  end.

Definition resolve_allowed (resolver : list Z -> result egress_error (list ResolvedAddress))
    (domain : list Z) (now : Z) (p : EgressPolicy) : result egress_error (gset IpAddr) * EgressPolicy :=
  match normalize_domain domain with
  | Err e => (Err e, p)
  | Ok domain =>
      if negb (domain_allowed p domain) then (Err DomainNotAllowed, p)
      else
        let host := default domain (strip_wildcard domain) in
        match pins p !! host with
        | Some pin => if now <? expires_at pin then (Ok (addresses pin), p) else refresh resolver host now p
        | None => refresh resolver host now p
        end
  end.

Fixpoint approve (p : EgressPolicy) (servers approved : list IpAddr) : result egress_error (list IpAddr) :=
  match servers with
  | [] => Ok approved
  | s :: servers =>
      if negb (destination_allowed p s) then Err (ProtectedDns s)
      else approve p servers (if bool_decide (s ∈ approved) then approved else approved ++ [s])
  end.

Definition approved_dns (p : EgressPolicy) (servers : list IpAddr) : result egress_error (list IpAddr) :=
  match servers with [] => Err NoDnsServer | _ => approve p servers [] end.

(** [SystemResolver]: the unique addresses, each for a minute; [lookup] is the resolver of the
    host, and [unique] the order of a [BTreeSet]. *)
Definition SYSTEM_TTL : Z := 60 * 1000000000.
Definition system_resolve (lookup : list Z -> option (list IpAddr)) (domain : list Z)
  : result egress_error (list ResolvedAddress) :=
  l <-? ok_or (lookup domain) ResolverFailed ;
  match elements (list_to_set l : gset IpAddr) with
  | [] => Err NoAddresses
  | unique => Ok (map (fun a => mkResolvedAddress a SYSTEM_TTL) unique)
  end.

(** ** The protected ranges *)

Lemma in_v4_range a n p :
  0 <= p <= 32 -> in_width 32 a -> n mod 2 ^ (32 - p) = 0 ->
  in_v4 a n p = (n <=? a) && (a <? n + 2 ^ (32 - p)).
Proof. apply block_range. Qed.

Lemma in_v6_range a s n p :
  parse_ip (bs s) = Some (V6 n) -> 0 <= p <= 128 -> in_width 128 a -> n mod 2 ^ (128 - p) = 0 ->
  in_v6 a s p = (n <=? a) && (a <? n + 2 ^ (128 - p)).
Proof. intros Hs. unfold in_v6. rewrite Hs. apply block_range. Qed.

(** The classes as ranges of numbers. *)
Lemma v4_classes a :
  in_width 32 a ->
  v4_is_loopback a = (v4 127 0 0 0 <=? a) && (a <? v4 128 0 0 0) /\
  v4_is_private a = (v4 10 0 0 0 <=? a) && (a <? v4 11 0 0 0)
    || (v4 172 16 0 0 <=? a) && (a <? v4 172 32 0 0) || (v4 192 168 0 0 <=? a) && (a <? v4 192 169 0 0) /\
  v4_is_link_local a = (v4 169 254 0 0 <=? a) && (a <? v4 169 255 0 0) /\
  v4_is_multicast a = (v4 224 0 0 0 <=? a) && (a <? v4 240 0 0 0).
Proof.
  intros [Ha0 Ha]. change (2 ^ 32) with 4294967296 in Ha.
  assert (H0 : octet 0 a = a / 16777216) by (unfold octet; cbn [Z.sub Z.add Z.opp Z.pos_sub]; change (256 ^ 3) with 16777216; divlia).
  assert (H1 : octet 1 a = a / 65536 - a / 16777216 * 256) by (unfold octet; change (256 ^ (3 - 1)) with 65536; divlia).
  unfold v4_is_loopback, v4_is_private, v4_is_link_local, v4_is_multicast. rewrite H0, H1. unfold v4.
  split_and!; apply eq_true_iff_eq;
    rewrite ?orb_true_iff, ?andb_true_iff, ?Z.eqb_eq, ?Z.leb_le, ?Z.ltb_lt; divlia.
Qed.

Lemma in_block_range_v4 a :
  in_width 32 a ->
  in_block (V4 a) 32 =
  existsb (fun '(block, bp) => (block <=? a) && (a <? block + 2 ^ (32 - bp))) PROTECTED_V4_BLOCKS.
Proof.
  intros Ha. unfold in_block.
  assert (Hall : Forall (fun '(block, bp) => (0 <= bp <= 32) /\ block mod 2 ^ (32 - bp) = 0) PROTECTED_V4_BLOCKS)
    by by_decide.
  induction Hall as [|[block bp] l [Hbp Hmod] _ IH]; [done|]. cbn [existsb]. rewrite IH. f_equal.
  rewrite (proj2 (Z.leb_le _ _)) by lia. cbn [andb]. by apply block_range.
Qed.

Lemma in_block_range_v6 a :
  in_width 128 a ->
  in_block (V6 a) 128 =
  existsb (fun '(block, bp) => (block <=? a) && (a <? block + 2 ^ (128 - bp))) PROTECTED_V6_BLOCKS.
Proof.
  intros Ha. unfold in_block.
  assert (Hall : Forall (fun '(block, bp) => (0 <= bp <= 128) /\ block mod 2 ^ (128 - bp) = 0) PROTECTED_V6_BLOCKS)
    by by_decide.
  induction Hall as [|[block bp] l [Hbp Hmod] _ IH]; [done|]. cbn [existsb]. rewrite IH. f_equal.
  rewrite (proj2 (Z.leb_le _ _)) by lia. cbn [andb]. by apply block_range.
Qed.

Ltac ranges :=
  apply eq_true_iff_eq; cbn [existsb PROTECTED_V4_BLOCKS PROTECTED_V6_BLOCKS];
  rewrite ?orb_true_iff, ?andb_true_iff, ?Z.eqb_eq, ?Z.leb_le, ?Z.ltb_lt.

Lemma is_protected_v4 a :
  in_width 32 a ->
  in_block (V4 a) 32 = is_protected (V4 a) || (0 <? a) && (a <? v4 1 0 0 0).
Proof.
  intros Ha. rewrite in_block_range_v4 by done. destruct (v4_classes a Ha) as (Hl & Hp & Hll & Hm).
  unfold is_protected. rewrite Hl, Hp, Hll, Hm. rewrite !in_v4_range by (done || lia).
  unfold v4_is_unspecified, v4_is_broadcast. ranges. unfold v4. clear Hl Hp Hll Hm.
  destruct Ha as [Ha0 Ha]. lia.
Qed.

Lemma is_protected_v6 a : in_width 128 a -> in_block (V6 a) 128 = is_protected (V6 a).
Proof.
  intros Ha. rewrite in_block_range_v6 by done. unfold is_protected.
  rewrite (in_v6_range a "fc00::" (0xfc00 * 2 ^ 112)), (in_v6_range a "fe80::" (0xfe80 * 2 ^ 112)),
    (in_v6_range a "2001:db8::" (0x20010db8 * 2 ^ 96)), (in_v6_range a "2001:10::" (0x20010010 * 2 ^ 96))
    by (done || lia || (vm_compute; reflexivity)).
  assert (Hm : v6_is_multicast a = (0xff00 * 2 ^ 112 <=? a)).
  { unfold v6_is_multicast. destruct Ha as [Ha0 Ha]. apply eq_true_iff_eq. rewrite Z.eqb_eq, Z.leb_le.
    change (2 ^ 128) with (256 * 2 ^ 120) in Ha. change (0xff00 * 2 ^ 112) with (255 * 2 ^ 120).
    pose proof (Z.div_mod a (2 ^ 120) ltac:(lia)). pose proof (Z.mod_pos_bound a (2 ^ 120) ltac:(lia)).
    nia. }
  rewrite Hm. unfold v6_is_unspecified, v6_is_loopback. ranges. unfold v6. cbn [fold_left].
  destruct Ha as [Ha0 Ha]. lia.
Qed.

(** The two lists of protected ranges in the source agree, except on 0.0.0.0/8: an IPv6
    address is protected exactly when a protected block holds it, and an IPv4 address is in a
    protected block exactly when it is protected or one of 0.0.0.1 to 0.255.255.255, which are
    listed as a block but allowed as destinations. *)
Lemma protected_blocks_agree i :
  addr_ok i ->
  in_block i (width i) =
  is_protected i || match i with V4 a => (0 <? a) && (a <? v4 1 0 0 0) | V6 _ => false end.
Proof.
  destruct i as [a|a]; intros Ha; [by apply is_protected_v4|].
  rewrite orb_false_r. by apply is_protected_v6.
Qed.

(** ** Exceptions stay within protected blocks *)

Lemma div_pow_le a b k j : 0 <= k <= j -> a / 2 ^ k = b / 2 ^ k -> a / 2 ^ j = b / 2 ^ j.
Proof.
  intros Hk H. replace j with (k + (j - k)) by lia. rewrite Z.pow_add_r by lia.
  pose proof (Z.pow_pos_nonneg 2 k). pose proof (Z.pow_pos_nonneg 2 (j - k)).
  rewrite <- !Z.div_div by lia. by rewrite H.
Qed.

(** An address that agrees with the exception on its prefix agrees on the shorter one of the
    block. *)
Lemma block_contains w p bp n a block :
  0 <= bp <= p -> p <= w -> in_width w n -> in_width w a ->
  let mask q := if q =? 0 then 0 else wrap w (Z.shiftl (2 ^ w - 1) (w - q)) in
  Z.land n (mask p) = Z.land a (mask p) -> Z.land n (mask bp) = block -> Z.land a (mask bp) = block.
Proof.
  intros Hbp Hp Hn Ha mask Heq <-. unfold mask in *. apply mask_eq in Heq; [|lia|done|done].
  apply mask_eq; [lia|done|done|]. symmetry. by apply (div_pow_le _ _ (w - p)); [lia|].
Qed.

Lemma masked_in_width w a m : in_width w a -> 0 <= m -> in_width w (Z.land a m).
Proof.
  intros [Ha0 Ha] Hm. split; [by apply Z.land_nonneg; left|].
  destruct (Z.eq_dec a 0) as [->|Hne]; [by rewrite Z.land_0_l|].
  destruct (Z.eq_dec (Z.land a m) 0) as [->|Hne']; [lia|].
  pose proof (Z.land_nonneg a m). apply Z.log2_lt_pow2; [lia|].
  eapply Z.le_lt_trans; [apply Z.log2_land; lia|]. apply Z.min_lt_iff. left. apply Z.log2_lt_pow2; lia.
Qed.

Lemma ipv4_mask_nonneg p : 0 <= ipv4_mask p.
Proof. unfold ipv4_mask. case_match; [done|]. apply wrap_in_width. lia. Qed.
Lemma ipv6_mask_nonneg p : 0 <= ipv6_mask p.
Proof. unfold ipv6_mask. case_match; [done|]. apply wrap_in_width. lia. Qed.

Lemma parse_unsigned_nonneg w s n : parse_unsigned w s = Some n -> 0 <= n.
Proof.
  unfold parse_unsigned. intros H. apply bind_Some in H as (n' & Hd & H). case_match; simplify_eq.
  unfold parse_digits in Hd. destruct (_ || negb _) eqn:E; simplify_eq.
  apply orb_false_iff in E as [_ E%negb_false_iff]. revert E. generalize (match s with 43 :: s' => s' | _ => s end).
  intros l Hl. assert (Hgen : forall acc, 0 <= acc -> 0 <= fold_left dec_step l acc); [|by apply Hgen].
  induction l as [|b l IH]; intros acc Hacc; [done|]. cbn [fold_left forallb] in *.
  apply andb_true_iff in Hl as [Hb Hl]. apply (IH Hl). unfold dec_step, is_ascii_digit in *. bool_to_prop. lia.
Qed.

Definition cidr_ok (c : TrustedCidr) : Prop :=
  addr_ok (network c) /\ 0 <= prefix c <= width (network c) /\ in_block (network c) (prefix c) = true.

Lemma masked_ok i p : addr_ok i -> addr_ok (masked i p) /\ width (masked i p) = width i.
Proof.
  destruct i; simpl; intros Ha; split; try done;
    apply masked_in_width; auto using ipv4_mask_nonneg, ipv6_mask_nonneg.
Qed.

Lemma parse_cidr_ok v c : parse_cidr v = Ok c -> cidr_ok c.
Proof.
  unfold parse_cidr. cbv zeta. intros H. destruct (match split_once _ _ with Some _ => _ | None => _ end) as [addr pre].
  apply result_bind_Ok in H as (i & Hi & H). apply result_bind_Ok in H as (p & Hp & H).
  destruct (parse_ip addr) as [i'|] eqn:E; simplify_eq/=. apply parse_ip_ok in E.
  assert (0 <= p).
  { destruct pre as [s|]; simplify_eq/=; [|by destruct i].
    destruct (parse_unsigned 8 s) eqn:E'; simplify_eq/=. by eapply parse_unsigned_nonneg. }
  destruct (Z.ltb_spec (width i) p); [done|]. destruct (masked_ok i p E) as [Hm Hw].
  destruct (in_block (masked i p) p) eqn:Hb; simplify_eq. split_and!; simpl; rewrite ?Hw; done.
Qed.

Lemma contains_in_block c i :
  cidr_ok c -> addr_ok i -> contains c i = true -> in_block i (width i) = true.
Proof.
  intros (Hn & Hp & Hb) Hi Hc. unfold contains in Hc.
  destruct c as [n p], n as [n|n], i as [a|a]; cbn [network prefix width addr_ok in_block] in *;
    try done; apply Z.eqb_eq in Hc;
    apply existsb_exists in Hb as ([block bp] & Hin & Hb); apply andb_true_iff in Hb as [Hle Hb];
    apply Z.leb_le in Hle; apply Z.eqb_eq in Hb; apply existsb_exists; exists (block, bp); (split; [done|]).
  - assert (0 <= bp).
    { assert (Hall : Forall (fun bb => 0 <= snd bb) PROTECTED_V4_BLOCKS) by by_decide.
      rewrite Forall_forall in Hall. by apply (Hall (block, bp)), list_elem_of_In. }
    apply andb_true_iff. split; [apply Z.leb_le; lia|]. apply Z.eqb_eq.
    apply (block_contains 32 p bp n a); (done || lia).
  - assert (0 <= bp).
    { assert (Hall : Forall (fun bb => 0 <= snd bb) PROTECTED_V6_BLOCKS) by by_decide.
      rewrite Forall_forall in Hall. by apply (Hall (block, bp)), list_elem_of_In. }
    apply andb_true_iff. split; [apply Z.leb_le; lia|]. apply Z.eqb_eq.
    apply (block_contains 128 p bp n a); (done || lia).
Qed.

(** An exception that the configuration accepts opens nothing but protected space: every
    address it contains lies within one of the protected blocks, whatever the text of the
    exception is. *)
Lemma trusted_cidr_confined v c i :
  parse_cidr v = Ok c -> addr_ok i -> contains c i = true -> in_block i (width i) = true.
Proof. intros Hc%parse_cidr_ok. by apply contains_in_block. Qed.

(** ** What is resolved *)

(** A lookup that was made: host, time and answers. *)
Definition lookup : Type := list Z * Z * list ResolvedAddress.

Definition lookup_of (resolver : list Z -> result egress_error (list ResolvedAddress)) (domain : list Z)
    (now : Z) : list lookup :=
  match normalize_domain domain with
  | Ok d =>
      let host := default d (strip_wildcard d) in
      match resolver host with Ok answers => [(host, now, answers)] | Err _ => [] end
  | Err _ => []
  end.

(** A policy in use: any domains, at any times, with any answers. *)
Inductive egress_run (p0 : EgressPolicy) : list lookup -> EgressPolicy -> Prop :=
  | egress_start : egress_run p0 [] p0
  | egress_resolve hist p resolver domain now :
      egress_run p0 hist p ->
      egress_run p0 (lookup_of resolver domain now ++ hist) (snd (resolve_allowed resolver domain now p)).

(** The set is all addresses of an answer, each of them allowed, and none of them out of its
    time to live at [now]. *)
Definition answered_by (p : EgressPolicy) (l : lookup) (host : list Z) (set : gset IpAddr) (until : Z) : Prop :=
  let '(h, t, answers) := l in
  h = host /\ answers <> [] /\ set = list_to_set (map address answers) /\
  (forall a, a ∈ answers -> destination_allowed p (address a) = true /\ until <= t + ttl a).

Lemma check_answers_spec p answers acc least set least' :
  check_answers p answers acc least = Ok (set, least') ->
  set = list_to_set (map address answers) ∪ acc /\
  (forall a, a ∈ answers -> destination_allowed p (address a) = true /\
     match least' with Some t => t <= ttl a | None => False end) /\
  match least with Some t => match least' with Some t' => t' <= t | None => False end | None => True end.
Proof.
  revert acc least. induction answers as [|a answers IH]; intros acc least H; cbn [check_answers] in H.
  { simplify_eq. split_and!; [set_solver|set_solver|]. by destruct least'. }
  destruct (destination_allowed p (address a)) eqn:Hd; [|done]. cbn [negb] in H.
  apply IH in H as (-> & Hall & Hl). split_and!.
  - cbn. set_solver.
  - intros b [->|Hb]%elem_of_cons; [|by apply Hall]. split; [done|].
    destruct least' as [t'|]; [|by destruct least]. destruct least; lia.
  - destruct least as [t|]; [|done]. destruct least'; [|done]. lia.
Qed.

Lemma destination_allowed_trusted p p' i :
  trusted p = trusted p' -> destination_allowed p i = destination_allowed p' i.
Proof. unfold destination_allowed. by intros ->. Qed.

Lemma foldr_min_le answers a : a ∈ answers -> foldr Z.min 0 (map ttl answers) <= ttl a.
Proof.
  induction answers as [|b l IH]; [by intros ?%not_elem_of_nil|].
  intros [->|Ha]%elem_of_cons; cbn [map foldr]; [lia|]. specialize (IH Ha). lia.
Qed.

Section run.
Context (p0 : EgressPolicy).

(** Every pin comes from a lookup and does not outlive its answers. *)
Definition pins_ok (hist : list lookup) (p : EgressPolicy) : Prop :=
  trusted p = trusted p0 /\ allowed_domains p = allowed_domains p0 /\
  forall host pin, pins p !! host = Some pin ->
    exists l, l ∈ hist /\ answered_by p0 l host (addresses pin) (expires_at pin).

Lemma pins_ok_mono hist ls p : pins_ok hist p -> pins_ok (ls ++ hist) p.
Proof.
  intros (Ht & Had & Hpins). split_and!; [done..|]. intros host pin Hp.
  destruct (Hpins host pin Hp) as (l & Hl & Ha). exists l. set_solver.
Qed.

Lemma refresh_spec hist p resolver host now :
  pins_ok hist p ->
  let ls := match resolver host with Ok answers => [(host, now, answers)] | Err _ => [] end in
  pins_ok (ls ++ hist) (snd (refresh resolver host now p)) /\
  forall set, fst (refresh resolver host now p) = Ok set ->
    exists answers, (host, now, answers) ∈ ls /\
      forall until, (forall a, a ∈ answers -> until <= now + ttl a) ->
        answered_by p0 (host, now, answers) host set until.
Proof.
  intros Hok ls. assert (Hmono := pins_ok_mono hist ls p Hok). unfold refresh. subst ls.
  destruct (resolver host) as [answers|e]; [|done]. destruct answers as [|a0 answers0]; [done|].
  set (answers := a0 :: answers0) in *.
  destruct (check_answers p answers ∅ None) as [[set least]|e] eqn:Hc; [|done].
  apply check_answers_spec in Hc as (-> & Hall & _). rewrite (right_id_L ∅ (∪)).
  assert (Hans : forall until, (forall a, a ∈ answers -> until <= now + ttl a) ->
    answered_by p0 (host, now, answers) host (list_to_set (map address answers)) until).
  { intros u Hu. split_and!; [done..|]. intros a Ha. split; [|by apply Hu].
    rewrite <- (destination_allowed_trusted p) by apply Hok. by apply Hall. }
  split; cbn [fst snd].
  - destruct Hmono as (Ht & Had & Hpins). split_and!; [done..|]. cbn [pins].
    intros h pin [[<- <-]|[_ Hp]]%lookup_insert_Some; [|by apply Hpins].
    exists (host, now, answers). split; [set_solver|]. apply Hans. intros a Ha. cbn [expires_at].
    destruct (Hall a Ha) as [_ Hl]. destruct least; [cbn; lia|done].
  - intros set [= <-]. exists answers. split; [set_solver|done].
Qed.

(** One call: what it returns comes from this lookup or from a pin that is still valid. *)
Lemma resolve_step hist p resolver domain now :
  pins_ok hist p ->
  pins_ok (lookup_of resolver domain now ++ hist) (snd (resolve_allowed resolver domain now p)) /\
  forall set, fst (resolve_allowed resolver domain now p) = Ok set ->
    exists d l until, normalize_domain domain = Ok d /\ domain_allowed p0 d = true /\
      l ∈ lookup_of resolver domain now ++ hist /\
      answered_by p0 l (default d (strip_wildcard d)) set until /\
      (now < until \/ l ∈ lookup_of resolver domain now).
Proof.
  intros Hok. assert (Hmono := pins_ok_mono hist (lookup_of resolver domain now) p Hok).
  unfold resolve_allowed, lookup_of in *.
  destruct (normalize_domain domain) as [d|e]; [|done].
  assert (Had : domain_allowed p0 d = domain_allowed p d)
    by (unfold domain_allowed; by destruct Hok as (_ & -> & _)).
  destruct (domain_allowed p d) eqn:Hal; [|done]. cbn [negb]. cbv zeta in *.
  set (host := default d (strip_wildcard d)) in *.
  destruct (refresh_spec hist p resolver host now Hok) as [Hr1 Hr2]. cbv zeta in Hr1, Hr2.
  set (ls := match resolver host with Ok answers => _ | Err _ => _ end) in *.
  assert (Hfresh : forall set, fst (refresh resolver host now p) = Ok set ->
    exists d' l until, Ok d = @Ok egress_error _ d' /\ domain_allowed p0 d' = true /\ l ∈ ls ++ hist /\
      answered_by p0 l (default d' (strip_wildcard d')) set until /\ (now < until \/ l ∈ ls)).
  { intros set Hset. destruct (Hr2 set Hset) as (answers & Hin & Ha).
    exists d, (host, now, answers), (now + foldr Z.min 0 (map ttl answers)).
    split_and!; [done|congruence|set_solver| |by right]. apply Ha. intros a Hin'.
    pose proof (foldr_min_le answers a Hin'). lia. }
  destruct (pins p !! host) as [pin|] eqn:Hp; [|by split].
  destruct (Z.ltb_spec now (expires_at pin)); [|by split]. split; [done|]. intros set [= <-].
  destruct Hok as (_ & _ & Hpins). destruct (Hpins host pin Hp) as (l & Hl & Ha).
  exists d, l, (expires_at pin). split_and!; [done|congruence|set_solver|done|by left].
Qed.
End run.

Lemma egress_run_ok p0 hist p : pins p0 = ∅ -> egress_run p0 hist p -> pins_ok p0 hist p.
Proof.
  intros Hnew. induction 1 as [|hist p resolver domain now _ IH].
  - split_and!; [done..|]. intros host pin Hp. by rewrite Hnew in Hp.
  - by apply resolve_step.
Qed.

Lemma new_pins domains cidrs p : new domains cidrs = Ok p -> pins p = ∅.
Proof.
  unfold new. intros H. apply result_bind_Ok in H as (ds & _ & H).
  apply result_bind_Ok in H as (ts & _ & H). by simplify_eq.
Qed.

(** C12: What a policy returns for a domain is safe and fresh: it is the whole answer of one
    lookup of the domain's own host, made now or less than the time to live of every address
    ago; the domain is on the allow list; and every address is unprotected or lies in a
    configured exception. *)
Theorem egress_answers_pinned domains cidrs p0 hist p resolver domain now set :
  new domains cidrs = Ok p0 -> egress_run p0 hist p ->
  fst (resolve_allowed resolver domain now p) = Ok set ->
  exists d t answers, normalize_domain domain = Ok d /\ domain_allowed p0 d = true /\
    let l := (default d (strip_wildcard d), t, answers) in
    l ∈ lookup_of resolver domain now ++ hist /\
    answers <> [] /\ set = list_to_set (map address answers) /\
    (l ∈ lookup_of resolver domain now \/ forall a, a ∈ answers -> now < t + ttl a) /\
    forall i, i ∈ set -> is_protected i = false \/ exists c, c ∈ trusted p0 /\ contains c i = true.
Proof.
  intros Hnew%new_pins Hrun Hset. apply egress_run_ok in Hrun; [|done].
  destruct (resolve_step p0 hist p resolver domain now Hrun) as [_ Hr].
  destruct (Hr set Hset) as (d & [[h t] answers] & u & Hd & Hal & Hl & (-> & Hne & -> & Hall) & Hfresh).
  exists d, t, answers. cbv zeta. split_and!; [done..| |].
  - destruct Hfresh as [Hu|Hl']; [right|by left]. intros a Ha. destruct (Hall a Ha). lia.
  - intros i Hi. apply elem_of_list_to_set, list_elem_of_fmap in Hi as (a & -> & Ha).
    destruct (Hall a Ha) as [Hda _]. unfold destination_allowed in Hda. apply orb_true_iff in Hda as [Hc|Hp].
    + right. apply existsb_exists in Hc as (c & Hc & Hcon). exists c. by rewrite list_elem_of_In.
    + left. by apply negb_true_iff.
Qed.

(** The name servers a guest is given are allowed destinations, each once, and all that were
    asked for. *)
Lemma approve_spec p servers acc out :
  approve p servers acc = Ok out -> NoDup acc ->
  NoDup out /\ (forall i, i ∈ out <-> i ∈ acc \/ i ∈ servers) /\
  (forall i, i ∈ servers -> destination_allowed p i = true).
Proof.
  revert acc. induction servers as [|s servers IH]; intros acc H Hnd; cbn [approve] in H.
  { simplify_eq. split_and!; [done|set_solver|set_solver]. }
  destruct (destination_allowed p s) eqn:Hs; [|done]. cbn [negb] in H.
  apply IH in H as (H1 & H2 & H3).
  - split_and!; [done| |]; [intros i; rewrite H2; case_bool_decide; set_solver|].
    intros i [->|Hi]%elem_of_cons; [done|by apply H3].
  - case_bool_decide; [done|]. apply NoDup_app. split_and!; [done|set_solver|apply NoDup_singleton].
Qed.

Lemma approved_dns_spec p servers out :
  approved_dns p servers = Ok out ->
  NoDup out /\ (forall i, i ∈ out <-> i ∈ servers) /\ forall i, i ∈ out -> destination_allowed p i = true.
Proof.
  unfold approved_dns. destruct servers as [|s l]; [done|]. intros H.
  apply approve_spec in H as (H1 & H2 & H3); [|constructor].
  split_and!; [done|set_solver|]. intros i Hi. apply H3. set_solver.
Qed.

(** A wildcard matches the names below it. *)
Lemma domain_matches_spec allowed domain :
  domain_matches allowed domain = true <->
  allowed = domain \/ exists suffix x, allowed = bs "*." ++ suffix /\ domain = x ++ 46 :: suffix.
Proof.
  unfold domain_matches. rewrite orb_true_iff, bool_decide_eq_true. apply or_iff_compat_l.
  assert (Hw : forall s suffix, strip_wildcard s = Some suffix <-> s = bs "*." ++ suffix).
  { intros s suffix. split; [|by intros ->]. unfold strip_wildcard.
    destruct s as [|a [|b s]]; try done; repeat case_match; by intros [= ->]. }
  split.
  - destruct (strip_wildcard allowed) as [suffix|] eqn:E; [|done]. apply Hw in E as ->.
    intros [[Hlen%Nat.ltb_lt Hends]%andb_true_iff Hdot]%andb_true_iff.
    apply bool_decide_eq_true in Hends, Hdot.
    exists suffix, (take (length domain - length suffix - 1) domain). split; [done|].
    rewrite <- (take_drop_middle domain (length domain - length suffix - 1) 46 Hdot) at 1.
    do 2 f_equal. etrans; [|exact Hends]. f_equal. lia.
  - intros (suffix & x & -> & ->). rewrite (proj2 (Hw _ _) eq_refl).
    rewrite length_app. cbn [length]. rewrite (proj2 (Nat.ltb_lt _ _)) by lia. unfold ends_with.
    rewrite length_app. cbn [length].
    replace (length x + S (length suffix) - length suffix)%nat with (length (x ++ [46])) by (rewrite length_app; cbn; lia).
    assert (drop (length (x ++ [46])) (x ++ 46 :: suffix) = suffix) as ->
      by (rewrite <- (drop_app_length (x ++ [46]) suffix) at 2; by rewrite <- (assoc_L (++))).
    rewrite bool_decide_eq_true_2 by done. cbn [andb]. apply bool_decide_eq_true.
    rewrite length_app, lookup_app_r by (cbn; lia). cbn [length]. 
    by replace (length x + 1 - 1 - length x)%nat with 0%nat by lia.
Qed.

(** ** Gaps of the protected ranges *)

(** IPv4 addresses written as IPv6 addresses ([::ffff:a.b.c.d]) are never protected, also those
    of protected IPv4 ranges. *)
Lemma mapped_v4_not_protected a :
  in_width 32 a -> is_protected (V6 (0xffff * 2 ^ 32 + a)) = false.
Proof.
  intros [Ha0 Ha]. assert (Hw : in_width 128 (0xffff * 2 ^ 32 + a)) by (unfold in_width; lia).
  rewrite <- is_protected_v6, in_block_range_v6 by done. apply not_true_iff_false.
  cbn [existsb PROTECTED_V6_BLOCKS].
  rewrite ?orb_true_iff, ?andb_true_iff, ?Z.leb_le, ?Z.ltb_lt. unfold v6. cbn [fold_left]. lia.
Qed.

(** A range that is not within a protected block is refused as an exception; the allow list of a
    sandbox is checked this way, so a list of public ranges is refused. *)
Lemma public_allowlist_refused : new [] [bs "1.1.1.0/24"] = Err NotProtectedCidr.
Proof. vm_compute. reflexivity. Qed.

(** ** Examples *)
Module EgressExamples.

Definition policy0 : EgressPolicy :=
  match new [bs "*.Example.com."] [bs " 10.1.0.0/16"] with Ok p => p | Err _ => mkEgressPolicy [] [] ∅ end.

Definition SECOND : Z := 1000000000.
Definition ans (i : IpAddr) (secs : Z) : ResolvedAddress := mkResolvedAddress i (secs * SECOND).
Definition public : IpAddr := V4 (v4 93 184 216 34).
Definition inside : IpAddr := V4 (v4 10 1 2 3).
Definition good (host : list Z) : result egress_error (list ResolvedAddress) := Ok [ans public 60; ans inside 30].
Definition down (host : list Z) : result egress_error (list ResolvedAddress) := Err ResolverFailed.
Definition rebind (host : list Z) : result egress_error (list ResolvedAddress) := Ok [ans public 60; ans (V4 (v4 127 0 0 1)) 60].

Definition policy1 : EgressPolicy := snd (resolve_allowed good (bs "api.example.com") 0 policy0).

(** A pin is used while it lasts; an answer with a protected address is refused as a whole. *)
Example pin_lasts : fst (resolve_allowed down (bs "API.example.com") (29 * SECOND) policy1) = Ok {[public; inside]}.
Proof. vm_compute. reflexivity. Qed.
Example pin_expires : fst (resolve_allowed down (bs "api.example.com") (30 * SECOND) policy1) = Err ResolverFailed.
Proof. vm_compute. reflexivity. Qed.
Example rebinding_refused :
  resolve_allowed rebind (bs "api.example.com") (30 * SECOND) policy1 = (Err (ProtectedAnswer (V4 (v4 127 0 0 1))), policy1).
Proof. vm_compute. reflexivity. Qed.
Example apex_not_allowed : fst (resolve_allowed good (bs "example.com") 0 policy0) = Err DomainNotAllowed.
Proof. vm_compute. reflexivity. Qed.

Lemma egress_answers_pinned_witness :
  exists t answers, (t = 29 * SECOND \/ forall a, a ∈ answers -> 29 * SECOND < t + ttl a) /\
    ({[public; inside]} : gset IpAddr) = list_to_set (map address answers).
Proof.
  destruct (egress_answers_pinned [bs "*.Example.com."] [bs " 10.1.0.0/16"] policy0 _ policy1 down
    (bs "API.example.com") (29 * SECOND) {[public; inside]} ltac:(vm_compute; reflexivity)
    (egress_resolve policy0 [] policy0 good (bs "api.example.com") 0 (egress_start policy0))
    ltac:(vm_compute; reflexivity)) as (d & t & answers & _ & _ & _ & _ & Hs & Ht & _).
  exists t, answers. split; [|exact Hs]. destruct Ht as [Hin|Hlt]; [|right; exact Hlt].
  vm_compute in Hin. apply list_elem_of_In in Hin. destruct Hin.
Defined.

(** Trusting more than a protected range is refused. *)
Example wide_exception_refused : parse_cidr (bs "10.0.0.0/7") = Err NotProtectedCidr.
Proof. vm_compute. reflexivity. Qed.
End EgressExamples.
