(* ===== verification/NetLease.v ===== *)
(** The /30 leases of [vmond/src/net.rs]: [CidrNet], [GuestConfig], [LeaseAllocator] and its
    journal.  [tap_name] hashes with SHA-1 and is a parameter, as is the JSON text of the
    journal; the addresses of the host's interfaces are inputs. *)

From S2P Require Import Prelude Decimal Json IpAddr.

Definition POOL_BASE : Z := v4 172 20 0 0.
Definition POOL_PREFIX : Z := 16.
Definition LEASE_PREFIX : Z := 30.
Definition LEASE_STEP : Z := Z.shiftl 1 (32 - LEASE_PREFIX).
Definition POOL_SIZE : Z := Z.shiftl 1 (32 - POOL_PREFIX).
Definition DEFAULT_DNS : list (list Z) := [bs "1.1.1.1"; bs "8.8.8.8"].

Inductive net_error : Type :=
  | EmptyCidr | InvalidIp | InvalidPrefix | Ipv4Only | PoolExhausted | BadJournal | BrokerFailed
  | StoreUnavailable | SnapshotFailed | FlushFailed.

(** ** Networks *)

Inductive CidrNet : Type := CidrV4 (network prefix : Z) | CidrV6 (network prefix : Z).

Definition parse_prefix (prefix : option (list Z)) (max : Z) : result net_error Z :=
  match prefix with
  | None => Ok max
  | Some p =>
      n <-? ok_or (parse_unsigned 8 p) InvalidPrefix ;
      if max <? n then Err InvalidPrefix else Ok n
  end.

(** [ipv4_network] and [ipv6_network]. *)
Definition ipv4_network (a prefix : Z) : result net_error Z :=
  if 32 <? prefix then Err InvalidPrefix else Ok (Z.land a (ipv4_mask prefix)).
Definition ipv6_network (a prefix : Z) : result net_error Z :=
  if 128 <? prefix then Err InvalidPrefix else Ok (Z.land a (ipv6_mask prefix)).

Definition ipv4_contains (network prefix a : Z) : bool := Z.land a (ipv4_mask prefix) =? network.

Module CidrNet.
(** [FromStr]. *)
Definition parse (value : list Z) : result net_error CidrNet :=
  let value := trim value in
  if (length value =? 0)%nat then Err EmptyCidr
  else
    let '(addr, pre) :=
      match split_once 47 value with Some (a, p) => (a, Some p) | None => (value, None) end in
    i <-? ok_or (parse_ip addr) InvalidIp ;
    match i with
    | V4 a => p <-? parse_prefix pre 32 ; n <-? ipv4_network a p ; Ok (CidrV4 n p)
    | V6 a => p <-? parse_prefix pre 128 ; n <-? ipv6_network a p ; Ok (CidrV6 n p)
    end.

Definition contains (c : CidrNet) (i : IpAddr) : bool :=
  match c, i with
  | CidrV4 n p, V4 a => ipv4_contains n p a
  | CidrV6 n p, V6 a => Z.land a (ipv6_mask p) =? n
  | _, _ => false
  end.
End CidrNet.

(** ** Leases *)

Record GuestConfig : Type := mkGuestConfig {
  tap : list Z; host_ip : list Z; guest_ip : list Z; prefix : Z; network : list Z;
  dns : list (list Z) }.

Record LeaseEntry : Type := mkLeaseEntry { entry_network : list Z; entry_tap : option (list Z) }.

(** [free] is a [BTreeSet]. *)
Record LeaseAllocator : Type := mkLeaseAllocator {
  leases : gmap (list Z) LeaseEntry; free : gset Z }.

(** [format!("{}/{}")] of a network. *)
Definition show_network (base p : Z) : list Z := show_ipv4 base ++ 47 :: decimal p.

Definition lease_network_base (net : list Z) : option Z :=
  match CidrNet.parse net with
  | Ok (CidrV4 n p) => if p =? LEASE_PREFIX then Some n else None
  | _ => None
  end.

(** The blocks of the pool. *)
Definition pool_blocks : list Z :=
  map (fun k => POOL_BASE + Z.of_nat k * LEASE_STEP) (seq 0 (Z.to_nat (POOL_SIZE / LEASE_STEP))).

(** The /30 of an interface address inside the pool. *)
Definition claimed_base (ip : Z) : option Z :=
  if (POOL_BASE <=? ip) && (ip - POOL_BASE <? POOL_SIZE)
  then Some (Z.land ip (Z.lxor (2 ^ 32 - 1) (LEASE_STEP - 1))) else None.
Definition host_claimed_lease_bases (interfaces : list Z) : gset Z :=
  list_to_set (omap claimed_base interfaces).

(** [BTreeSet::pop_first]. *)
Definition pop_first (s : gset Z) : option (Z * gset Z) :=
  match elements s with
  | [] => None
  | x :: l => let m := fold_left Z.min l x in Some (m, s ∖ {[m]})
  end.

(** The search for a block that no interface uses. *)
Fixpoint take_free (fuel : nat) (claimed free : gset Z) (skipped : list Z)
  : option Z * gset Z * list Z :=
  match fuel with
  | O => (None, free, skipped)
  | S fuel =>
      match pop_first free with
      | None => (None, free, skipped)
      | Some (candidate, free) =>
          if bool_decide (candidate ∈ claimed)
          then take_free fuel claimed free (skipped ++ [candidate])
          else (Some candidate, free, skipped)
      end
  end.

Definition config_from_entry (tap_name : list Z -> list Z) (name : list Z) (e : LeaseEntry) (dns : list (list Z))
  : result net_error GuestConfig :=
  c <-? CidrNet.parse (entry_network e) ;
  match c with
  | CidrV6 _ _ => Err Ipv4Only
  | CidrV4 n p =>
      Ok (mkGuestConfig (default (tap_name name) (entry_tap e)) (show_ipv4 (n + 1)) (show_ipv4 (n + 2))
            p (show_network n p) dns)
  end.

Module LeaseAllocator.
Section ops.
Context (tap_name : list Z -> list Z).

(** [load]: the text of the journal was parsed to [leases]. *)
Definition all_blocks : gset Z := dom (list_to_map (map (fun b => (b, tt)) pool_blocks) : gmap Z unit).
Definition remove_leased (kv : list Z * LeaseEntry) (free : gset Z) : gset Z :=
  match lease_network_base (entry_network (snd kv)) with Some base => free ∖ {[base]} | None => free end.
Definition load (leases : gmap (list Z) LeaseEntry) : LeaseAllocator :=
  mkLeaseAllocator leases (foldr remove_leased all_blocks (map_to_list leases)).

Definition allocate (name : list Z) (dns : list (list Z)) (tap : option (list Z)) (claimed : gset Z)
    (a : LeaseAllocator) : result net_error (GuestConfig * bool) * LeaseAllocator :=
  match leases a !! name with
  | Some e => (result_map (fun c => (c, false)) (config_from_entry tap_name name e dns), a)
  | None =>
      let '(base, rest, skipped) := take_free (size (free a)) claimed (free a) [] in
      let rest := fold_left (fun s x => {[x]} ∪ s) skipped rest in
      match base with
      | None => (Err PoolExhausted, mkLeaseAllocator (leases a) rest)
      | Some base =>
          let e := mkLeaseEntry (show_network base LEASE_PREFIX)
                     (Some (match tap with Some t => t | None => tap_name name end)) in
          match config_from_entry tap_name name e dns with
          | Ok c => (Ok (c, true), mkLeaseAllocator (<[name := e]> (leases a)) rest)
          | Err x => (Err x, mkLeaseAllocator (leases a) rest)
          end
      end
  end.

Definition release (name : list Z) (a : LeaseAllocator) : bool * LeaseAllocator :=
  match leases a !! name with
  | None => (false, a)
  | Some e =>
      (true, mkLeaseAllocator (delete name (leases a))
               (match lease_network_base (entry_network e) with
                | Some base => {[base]} ∪ free a
                | None => free a
                end))
  end.

Definition lease_for (name : list Z) (a : LeaseAllocator) : option GuestConfig :=
  e ← leases a !! name;
  match config_from_entry tap_name name e DEFAULT_DNS with Ok c => Some c | Err _ => None end.
End ops.
End LeaseAllocator.

(** ** Networks are read back *)

Lemma trim_start_no_space s :
  match s with b :: _ => is_space b = false | [] => True end -> trim_start s = s.
Proof. destruct s as [|b s]; [done|]. cbn. by intros ->. Qed.

Lemma trim_edges s :
  match head s with Some b => is_space b = false | None => True end ->
  match last s with Some b => is_space b = false | None => True end -> trim s = s.
Proof.
  intros Hh Hl. unfold trim. rewrite (trim_start_no_space s) by (by destruct s).
  rewrite trim_start_no_space; [apply rev_involutive|].
  rewrite <- head_reverse in Hl. unfold reverse in Hl. rewrite <- rev_alt in Hl. by destruct (rev s).
Qed.

Lemma show_ipv4_ends a :
  0 <= a -> exists b l, show_ipv4 a = b :: l /\ is_ascii_digit b = true.
Proof.
  intros Ha. unfold show_ipv4. destruct (decimal_cons (a / 2 ^ 24)) as (b & l & Hd & Hb); [by apply Z.div_pos|].
  rewrite Hd. eauto.
Qed.

Lemma last_decimal n x : 0 <= n -> last (x :: decimal n) = last (decimal n) /\
  exists b, last (decimal n) = Some b /\ is_ascii_digit b = true.
Proof.
  intros Hn. destruct (decimal_cons n Hn) as (b & l & Hd & _). pose proof (decimal_digits n Hn) as Hf.
  rewrite Hd in *. split; [by rewrite last_cons_cons|].
  destruct (last (b :: l)) as [c|] eqn:Hc; [|by apply last_None in Hc].
  exists c. split; [done|]. rewrite Forall_forall in Hf. apply Hf. by apply last_Some_elem_of.
Qed.

(** The text of a network that was printed is read back. *)
Lemma parse_show_network base p :
  in_width 32 base -> 0 <= p <= 32 -> base mod 2 ^ (32 - p) = 0 ->
  CidrNet.parse (show_network base p) = Ok (CidrV4 base p).
Proof.
  intros Hb Hp Hal. unfold CidrNet.parse.
  assert (Ht : trim (show_network base p) = show_network base p).
  { destruct (show_ipv4_ends base) as (b & l & Hs & Hd); [apply Hb|]. unfold show_network. apply trim_edges.
    - rewrite Hs. cbn. by apply digit_no_space.
    - destruct (last_decimal p 47) as [Hl (c & Hc & Hcd)]; [lia|].
      rewrite last_app, Hl, Hc. by apply digit_no_space. }
  rewrite Ht. destruct (show_ipv4_ends base) as (b & l & Hs & Hd); [apply Hb|].
  assert (Hlen : (length (show_network base p) =? 0)%nat = false) by (unfold show_network; by rewrite Hs).
  rewrite Hlen. unfold show_network. rewrite split_once_app.
  - unfold parse_ip. rewrite <- (app_nil_r (show_ipv4 base)), read_show_ipv4 by done. cbn [mbind option_bind ok_or result_bind].
    unfold parse_prefix. rewrite parse_unsigned_decimal by lia. cbn [ok_or result_bind].
    rewrite (proj2 (Z.ltb_ge _ _)) by lia. cbn [result_bind]. unfold ipv4_network.
    rewrite (proj2 (Z.ltb_ge _ _)) by lia. cbn [result_bind]. do 2 f_equal.
    unfold ipv4_mask. rewrite mask_land by done. rewrite Z.mul_comm. symmetry. by apply Z_div_exact_full_2; [lia|].
  - unfold show_ipv4. destruct Hb.
    repeat first [rewrite not_elem_of_app | rewrite not_elem_of_cons].
    split_and!; try done; apply decimal_no_char; try done; divlia.
Qed.

(** ** The invariant of the allocator *)

Definition is_block (base : Z) : Prop := base ∈ pool_blocks.

Lemma is_block_spec base :
  is_block base <-> POOL_BASE <= base < POOL_BASE + POOL_SIZE /\ base mod 4 = 0.
Proof.
  unfold is_block, pool_blocks. rewrite list_elem_of_In, in_map_iff.
  change LEASE_STEP with 4. change POOL_SIZE with 65536. change POOL_BASE with 2886991872.
  change (Z.to_nat (65536 / 4)) with (Z.to_nat 16384). split.
  - intros (k & <- & Hk%in_seq). split; [lia|]. rewrite Z.add_mod, Z.mul_mod, Z.mod_same by lia.
    rewrite Z.mul_0_r. reflexivity.
  - intros [Hb Hm]. exists (Z.to_nat ((base - 2886991872) / 4)). rewrite in_seq. split; divlia.
Qed.

#[global] Opaque is_block.

Lemma block_network base :
  is_block base -> CidrNet.parse (show_network base LEASE_PREFIX) = Ok (CidrV4 base LEASE_PREFIX).
Proof.
  intros [Hb Hm]%is_block_spec. apply parse_show_network; [|done|exact Hm].
  unfold in_width. change POOL_BASE with 2886991872 in *. change POOL_SIZE with 65536 in *. lia.
Qed.

Lemma block_lease_base base : is_block base -> lease_network_base (show_network base LEASE_PREFIX) = Some base.
Proof. intros Hb. unfold lease_network_base. by rewrite block_network. Qed.

(** The block of a lease. *)
Definition lease_at (a : LeaseAllocator) (name : list Z) (base : Z) : Prop :=
  is_block base /\ exists e, leases a !! name = Some e /\ entry_network e = show_network base LEASE_PREFIX.

(** Leases are blocks of the pool, one name each; the free set is the rest of the pool. *)
Record alloc_ok (a : LeaseAllocator) : Prop := mkAllocOk {
  ao_block name e : leases a !! name = Some e ->
    exists base, is_block base /\ entry_network e = show_network base LEASE_PREFIX;
  ao_distinct name name' base : lease_at a name base -> lease_at a name' base -> name = name';
  ao_free base : base ∈ free a <-> is_block base /\ forall name, ~ lease_at a name base }.

Lemma show_network_inj base base' :
  is_block base -> is_block base' ->
  show_network base LEASE_PREFIX = show_network base' LEASE_PREFIX -> base = base'.
Proof.
  intros Hb Hb' Heq. pose proof (block_lease_base base Hb) as H. rewrite Heq, block_lease_base in H by done.
  congruence.
Qed.

Lemma pop_first_spec s :
  match pop_first s with
  | None => s = ∅
  | Some (x, s') => x ∈ s /\ s' = s ∖ {[x]}
  end.
Proof.
  unfold pop_first. destruct (elements s) as [|x l] eqn:E; [by apply leibniz_equiv, elements_empty_iff|].
  split; [|done]. apply elem_of_elements. rewrite E.
  assert (Hmin : forall l x, fold_left Z.min l x ∈ x :: l); [|apply Hmin].
  clear. induction l as [|y l IH]; intros x; cbn [fold_left]; [set_solver|].
  specialize (IH (Z.min x y)). apply elem_of_cons in IH as [->|]; [|set_solver].
  destruct (Z.min_spec x y) as [[_ ->]|[_ ->]]; set_solver.
Qed.

Lemma pop_first_min (s : gset Z) x :
  x ∈ s -> (forall y, y ∈ s -> x <= y) -> pop_first s = Some (x, s ∖ {[x]}).
Proof.
  intros Hx Hmin. pose proof (pop_first_spec s) as Hs. unfold pop_first in *.
  destruct (elements s) as [|y l] eqn:E; [set_solver|]. destruct Hs as [Hin _].
  assert (Hle : forall l z, fold_left Z.min l z <= z /\ forall w, w ∈ l -> fold_left Z.min l z <= w).
  { clear. induction l as [|w l IH]; intros z; cbn [fold_left]; [split; [done|set_solver]|].
    destruct (IH (Z.min z w)) as [H1 H2]. split; [lia|]. intros v [->|Hv]%elem_of_cons; [lia|auto]. }
  assert (fold_left Z.min l y = x) as ->; [|done].
  apply Z.le_antisymm; [|by apply Hmin]. apply elem_of_elements in Hx. rewrite E in Hx.
  destruct (Hle l y) as [H1 H2]. apply elem_of_cons in Hx as [->|Hx]; auto.
Qed.

(** The search takes a free block that no interface uses, if there is one, and only that. *)
Lemma take_free_spec fuel claimed free skipped base rest skipped' :
  (forall x, x ∈ skipped -> (x ∉ free) /\ (x ∈ claimed)) ->
  take_free fuel claimed free skipped = (base, rest, skipped') ->
  match base with
  | Some b => (b ∈ free) /\ (b ∉ claimed) /\
      (list_to_set skipped' ∪ rest : gset Z) = (list_to_set skipped ∪ free) ∖ {[b]}
  | None => (list_to_set skipped' ∪ rest : gset Z) = list_to_set skipped ∪ free /\
      ((size free <= fuel)%nat -> forall b, b ∈ free -> b ∈ claimed)
  end.
Proof.
  revert free skipped. induction fuel as [|fuel IH]; intros free skipped Hsk H; cbn [take_free] in H.
  { simplify_eq. split; [done|]. intros Hs b Hb. assert (Hf : rest = ∅) by (apply leibniz_equiv, size_empty_inv; lia).
    rewrite Hf in Hb. set_solver. }
  pose proof (pop_first_spec free) as Hpop. destruct (pop_first free) as [[x free']|].
  2: { simplify_eq. split; [done|set_solver]. }
  destruct Hpop as [Hx ->]. case_bool_decide as Hc.
  - apply IH in H; [|set_solver]. destruct base as [b|].
    + destruct H as (Hb & Hnc & Heq). split_and!; [set_solver|done|]. rewrite Heq.
      rewrite list_to_set_app_L. cbn. set_unfold in Hb. apply set_eq. intros y.
      destruct (decide (y = x)); set_solver.
    + destruct H as [Heq Hall]. split.
      * rewrite Heq, list_to_set_app_L. cbn. apply set_eq. intros y. destruct (decide (y = x)); set_solver.
      * intros Hs b Hb. destruct (decide (b = x)) as [->|Hne]; [done|]. apply Hall; [|set_solver].
        rewrite size_difference by set_solver. rewrite size_singleton. lia.
  - simplify_eq. split_and!; [done..|]. apply set_eq. intros y. destruct (decide (y = x)); set_solver.
Qed.

Lemma fold_insert_set (l : list Z) (s : gset Z) :
  fold_left (fun s x => {[x]} ∪ s) l s = list_to_set l ∪ s.
Proof. revert s. induction l as [|x l IH]; intros s; cbn; [set_solver|]. rewrite IH. set_solver. Qed.

Lemma lease_at_insert a name base t s name' base' :
  is_block base ->
  lease_at (mkLeaseAllocator (<[name := mkLeaseEntry (show_network base LEASE_PREFIX) t]> (leases a)) s) name' base' <->
  (name' = name /\ base' = base) \/ (name' <> name /\ lease_at a name' base').
Proof.
  intros Hb. unfold lease_at. cbn. split.
  - intros (Hb' & e' & [[<- <-]|[Hne Hl]]%lookup_insert_Some & Hn); [left|right; eauto].
    split; [done|]. by apply show_network_inj.
  - intros [[-> ->]|[Hne (Hb' & e' & Hl & Hn)]]; (split; [done|]).
    + eexists. by rewrite lookup_insert_eq.
    + exists e'. by rewrite lookup_insert_ne.
Qed.

Lemma alloc_ok_insert a name base t :
  alloc_ok a -> leases a !! name = None -> is_block base -> (forall name', ~ lease_at a name' base) ->
  alloc_ok (mkLeaseAllocator (<[name := mkLeaseEntry (show_network base LEASE_PREFIX) t]> (leases a))
              (free a ∖ {[base]})).
Proof.
  intros [Hbl Hdi Hfr] Hname Hb Hfree. split.
  - cbn. intros n e [[<- <-]|[_ He]]%lookup_insert_Some; [by exists base|by apply Hbl in He].
  - intros n n' b. rewrite !lease_at_insert by done. naive_solver.
  - intros b. setoid_rewrite lease_at_insert; [|done]. cbn [free].
    rewrite elem_of_difference, elem_of_singleton, Hfr.
    split; [naive_solver|]. intros [Hb' Hn].
    assert (b <> base) by (intros ->; apply (Hn name); by left).
    split_and!; [done| |done]. intros n Hl. apply (Hn n). right. split; [|done].
    intros ->. destruct Hl as (_ & e & He & _). congruence.
Qed.

Lemma alloc_ok_delete a name e base :
  alloc_ok a -> leases a !! name = Some e -> is_block base -> entry_network e = show_network base LEASE_PREFIX ->
  alloc_ok (mkLeaseAllocator (delete name (leases a)) ({[base]} ∪ free a)).
Proof.
  intros [Hbl Hdi Hfr] Hname Hb Hn.
  assert (Hat : lease_at a name base) by (split; [done|by exists e]).
  assert (Hdel : forall n b s, lease_at (mkLeaseAllocator (delete name (leases a)) s) n b <->
    n <> name /\ lease_at a n b).
  { intros n b s. unfold lease_at. cbn. split.
    - intros (Hb' & e' & [Hne He']%lookup_delete_Some & Hn'). split; [congruence|eauto].
    - intros (Hne & Hb' & e' & He' & Hn'). split; [done|]. exists e'. by rewrite lookup_delete_ne. }
  split.
  - cbn. intros n e' [_ He]%lookup_delete_Some. by apply Hbl in He.
  - intros n n' b. rewrite !Hdel. naive_solver.
  - intros b. setoid_rewrite Hdel. cbn [free]. rewrite elem_of_union, elem_of_singleton, Hfr. split.
    + intros [->|[Hb' Hno]]; (split; [done|]); intros n [Hne Hl]; [|by apply (Hno n)].
      apply Hne. by apply (Hdi n name base).
    + intros [Hb' Hno]. destruct (decide (b = base)) as [|Hne]; [by left|]. right. split; [done|].
      intros n Hl. apply (Hno n). split; [|done]. intros ->. apply Hne.
      destruct Hl as (_ & e' & He' & Hn'). rewrite Hname in He'. injection He' as <-.
      apply show_network_inj; [done..|]. by rewrite <- Hn', <- Hn.
Qed.

Lemma free_or_leased a base :
  alloc_ok a -> is_block base -> base ∉ free a -> exists name, lease_at a name base.
Proof.
  intros [Hbl Hdi Hfr] Hb Hnf.
  destruct (decide (Exists (fun ke => entry_network (snd ke) = show_network base LEASE_PREFIX)
    (map_to_list (leases a)))) as [He|Hn].
  - apply Exists_exists in He as ([n e] & Hin & Hn). apply elem_of_map_to_list in Hin.
    exists n. split; [done|]. by exists e.
  - exfalso. apply Hnf, Hfr. split; [done|]. intros n (_ & e & He & Hne). apply Hn, Exists_exists.
    exists (n, e). split; [by apply elem_of_map_to_list|done].
Qed.

Lemma release_spec name a :
  alloc_ok a ->
  let '(removed, a') := LeaseAllocator.release name a in
  alloc_ok a' /\ leases a' = delete name (leases a) /\
  (removed = true <-> is_Some (leases a !! name)).
Proof.
  intros Hok. unfold LeaseAllocator.release. destruct (leases a !! name) as [e|] eqn:He.
  - destruct (ao_block a Hok name e He) as (base & Hb & Hn). rewrite Hn, block_lease_base by done.
    split_and!; [by eapply alloc_ok_delete|done|]. split; eauto.
  - split_and!; [done|by rewrite delete_id|]. split; [done|]. by intros [].
Qed.

Lemma remove_leased_elem b n e s :
  b ∈ LeaseAllocator.remove_leased (n, e) s <->
  b ∈ s /\ lease_network_base (entry_network e) <> Some b.
Proof.
  unfold LeaseAllocator.remove_leased. cbn [snd].
  destruct (lease_network_base (entry_network e)); [set_solver|naive_solver].
Qed.

Lemma all_blocks_eq : LeaseAllocator.all_blocks = list_to_set pool_blocks.
Proof.
  unfold LeaseAllocator.all_blocks. generalize pool_blocks. intros l.
  rewrite dom_list_to_map_L, map_map. cbn [fst]. by rewrite map_id.
Qed.

(** A journal that was written by the allocator gives an allocator with the same leases. *)
Lemma load_ok a : alloc_ok a -> alloc_ok (LeaseAllocator.load (leases a)).
Proof.
  intros [Hbl Hdi Hfr]. split; [done|done|]. intros b. unfold LeaseAllocator.load. cbn [free leases].
  transitivity (is_block b /\ forall n e, (n, e) ∈ map_to_list (leases a) ->
    lease_network_base (entry_network e) <> Some b).
  - generalize (map_to_list (leases a)). intros l. induction l as [|[n e] l IH]; cbn [foldr snd].
    + rewrite all_blocks_eq, elem_of_list_to_set. split; [|by intros []]. intros Hb. split; [done|].
      by intros ?? ?%not_elem_of_nil.
    + rewrite remove_leased_elem, IH. setoid_rewrite elem_of_cons. split.
      * intros [[Hb Hno] Hne]. split; [done|]. intros n' e' [[= -> ->]|Hin]; eauto.
      * intros [Hb Hno]. split_and!; [done| |]; eauto.
  - apply and_iff_compat_l. unfold lease_at. cbn [leases]. split.
    + intros Hno n (Hb & e & He & Hn). apply (Hno n e); [by apply elem_of_map_to_list|].
      rewrite Hn. by apply block_lease_base.
    + intros Hno n e Hin%elem_of_map_to_list Heq. destruct (Hbl n e Hin) as (b' & Hb' & Hn).
      rewrite Hn, block_lease_base in Heq by done. injection Heq as ->. apply (Hno n). split; [done|by exists e].
Qed.

Lemma empty_ok : alloc_ok (LeaseAllocator.load ∅).
Proof.
  assert (H0 : alloc_ok (mkLeaseAllocator ∅ (list_to_set pool_blocks))).
  { split; [done|by intros ?? ? (_ & ? & ? & _)|]. intros b. cbn [free]. rewrite elem_of_list_to_set.
    split; [|by intros []]. intros Hb. split; [done|]. by intros n (_ & ? & ? & _). }
  by apply load_ok in H0.
Qed.

(** The lowest block comes first. *)
Lemma take_lowest fuel (f : gset Z) x :
  (size f <= fuel)%nat -> x ∈ f -> (forall y, y ∈ f -> x <= y) ->
  take_free fuel ∅ f [] = (Some x, f ∖ {[x]}, []).
Proof.
  intros Hfuel Hx Hmin. destruct fuel as [|fuel].
  { exfalso. assert (Hf : f ≡ ∅) by (apply size_empty_inv; lia). set_solver. }
  cbn [take_free]. rewrite (pop_first_min f x) by done. by rewrite bool_decide_eq_false_2 by set_solver.
Qed.

(** The blocks from the [k]-th on. *)
Definition blocks_from (k : Z) : gset Z := filter (fun b => POOL_BASE + 4 * k <= b) LeaseAllocator.all_blocks.

Lemma blocks_from_elem k b :
  b ∈ blocks_from k <-> is_block b /\ POOL_BASE + 4 * k <= b.
Proof.
  unfold blocks_from. rewrite elem_of_filter, all_blocks_eq, elem_of_list_to_set.
  change (b ∈ pool_blocks) with (is_block b). tauto.
Qed.
#[global] Opaque blocks_from.

Lemma all_blocks_from : LeaseAllocator.all_blocks = blocks_from 0.
Proof.
  apply leibniz_equiv. intros b. rewrite blocks_from_elem, all_blocks_eq, elem_of_list_to_set.
  change (b ∈ pool_blocks) with (is_block b). rewrite is_block_spec. lia.
Qed.

Lemma blocks_from_pop k : blocks_from k ∖ {[POOL_BASE + 4 * k]} = blocks_from (k + 1).
Proof.
  apply leibniz_equiv. intros b. rewrite elem_of_difference, elem_of_singleton, !blocks_from_elem, is_block_spec.
  change POOL_BASE with 2886991872. split; [|lia]. intros [[[Hr Hm] Hle] Hne]. split_and!; [lia..|].
  pose proof (Z.div_mod b 4 ltac:(lia)). lia.
Qed.

Lemma take_next k :
  0 <= k < 16384 ->
  take_free (size (blocks_from k)) ∅ (blocks_from k) [] = (Some (POOL_BASE + 4 * k), blocks_from (k + 1), []).
Proof.
  intros Hk. assert (Hb : POOL_BASE + 4 * k ∈ blocks_from k).
  { apply blocks_from_elem. split; [|lia]. apply is_block_spec. change POOL_BASE with 2886991872.
    change POOL_SIZE with 65536. split; [lia|]. rewrite Z.add_mod, Z.mul_mod, Z.mod_same by lia. done. }
  rewrite <- blocks_from_pop. apply take_lowest; [lia|exact Hb|]. by intros y [_ ?]%blocks_from_elem.
Qed.

Section alloc.
Context (tap_name : list Z -> list Z).

Lemma config_from_block name base t dns :
  is_block base ->
  config_from_entry tap_name name (mkLeaseEntry (show_network base LEASE_PREFIX) t) dns =
  Ok (mkGuestConfig (default (tap_name name) t) (show_ipv4 (base + 1)) (show_ipv4 (base + 2))
        LEASE_PREFIX (show_network base LEASE_PREFIX) dns).
Proof. intros Hb. unfold config_from_entry. cbn [entry_network]. by rewrite block_network. Qed.

(** What [allocate] does: an old lease is returned, a new one is the only change. *)
Lemma allocate_spec name ds t claimed a :
  alloc_ok a ->
  let '(r, a') := LeaseAllocator.allocate tap_name name ds t claimed a in
  alloc_ok a' /\
  match r with
  | Ok (c, dirty) => exists base, is_block base /\ lease_at a' name base /\
      guest_ip c = show_ipv4 (base + 2) /\ host_ip c = show_ipv4 (base + 1) /\
      network c = show_network base LEASE_PREFIX /\ prefix c = LEASE_PREFIX /\
      (forall name', name' <> name -> leases a' !! name' = leases a !! name') /\
      (dirty = true -> leases a !! name = None /\ base ∉ claimed) /\ (dirty = false -> a' = a)
  | Err e => e = PoolExhausted /\ leases a' = leases a /\ leases a !! name = None /\
      forall base, is_block base -> (exists name', lease_at a name' base) \/ base ∈ claimed
  end.
Proof.
  intros Hok. unfold LeaseAllocator.allocate. destruct (leases a !! name) as [e|] eqn:He.
  { destruct (ao_block a Hok name e He) as (base & Hb & Hn). destruct e as [n tp]. cbn [entry_network] in Hn. subst n.
    rewrite config_from_block by done. cbn [result_map]. split; [done|].
    exists base. split_and!; try done. split; [done|]. by exists (mkLeaseEntry (show_network base LEASE_PREFIX) tp). }
  destruct (take_free _ _ _ _) as [[base rest] skipped] eqn:Ht. apply take_free_spec in Ht; [|set_solver].
  rewrite fold_insert_set. destruct base as [base|].
  - destruct Ht as (Hfree & Hnc & Hrest). rewrite Hrest. cbn [list_to_set]. rewrite (left_id_L ∅ (∪)).
    pose proof (proj1 (ao_free a Hok base) Hfree) as [Hb Hnl]. rewrite config_from_block by done.
    split.
    + by apply alloc_ok_insert.
    + exists base. split_and!; try done; [split; [done|]; eexists; cbn; by rewrite lookup_insert_eq|].
      intros name' Hne. cbn. by rewrite lookup_insert_ne.
  - destruct Ht as [Heq Hall]. rewrite Heq. cbn [list_to_set]. rewrite (left_id_L ∅ (∪)). cbn.
    split; [by destruct a|]. split_and!; [done..|]. intros base Hb.
    destruct (decide (base ∈ free a)) as [Hf|Hnf]; [right; by apply Hall|]. left.
    by apply free_or_leased.
Qed.

(** Without interfaces in the way, the blocks are leased in order. *)
Lemma load_empty : LeaseAllocator.load ∅ = mkLeaseAllocator ∅ (blocks_from 0).
Proof. unfold LeaseAllocator.load. rewrite map_to_list_empty. cbn [foldr]. by rewrite all_blocks_from. Qed.

Lemma allocate_next name ds t m k :
  m !! name = None -> 0 <= k < 16384 ->
  let base := POOL_BASE + 4 * k in
  let dev := default (tap_name name) t in
  LeaseAllocator.allocate tap_name name ds t ∅ (mkLeaseAllocator m (blocks_from k)) =
  (Ok (mkGuestConfig dev (show_ipv4 (base + 1)) (show_ipv4 (base + 2)) LEASE_PREFIX (show_network base LEASE_PREFIX) ds, true),
   mkLeaseAllocator (<[name := mkLeaseEntry (show_network base LEASE_PREFIX) (Some dev)]> m) (blocks_from (k + 1))).
Proof.
  intros Hm Hk base dev. unfold LeaseAllocator.allocate. cbn [leases free]. rewrite Hm, take_next by done.
  cbn [fold_left]. fold base.
  assert (Hb : is_block base).
  { apply is_block_spec. subst base. change POOL_BASE with 2886991872. change POOL_SIZE with 65536. split; [lia|].
    rewrite Z.add_mod, Z.mul_mod, Z.mod_same by lia. done. }
  destruct t; by rewrite config_from_block.
Qed.
End alloc.
