(* ===== verification/LeaseJournal.v ===== *)
(** The journal of the /30 leases: [LeaseStore], [journal_writer] and [write_journal] of
    [vmond/src/net.rs].  An operation changes the leases and takes a snapshot under the lock,
    and sends it to the writer thread after the lock is released; the writer drains its
    channel and rewrites the file with the latest snapshot it received.  The text of a snapshot
    is serde_json's: [encode] and [decode] stand for it. *)

From S2P Require Import Prelude Decimal Json IpAddr NetLease.

Section journal.
Context (tap_name : list Z -> list Z).
Context (encode : gmap (list Z) LeaseEntry -> list Z).
Context (decode : list Z -> option (gmap (list Z) LeaseEntry)).

Inductive JournalMsg : Type := Persist (snapshot : list Z) | Flush (ack : nat).

(** [sending]: the snapshots that operations took and have not sent yet, oldest first.
    [file] is [None] while there is no journal; [acked] are the flushes that returned. *)
Record LeaseState : Type := mkLeaseState {
  alloc : LeaseAllocator; sending : list (list Z); channel : list JournalMsg;
  file : option (list Z); acked : list nat }.

(** [LeaseAllocator::load]: a missing or blank journal has no leases; [None] when it does not
    parse. *)
Definition load_journal (f : option (list Z)) : option LeaseAllocator :=
  match f with
  | Some raw =>
      if (length (trim raw) =? 0)%nat then Some (LeaseAllocator.load ∅)
      else LeaseAllocator.load <$> decode raw
  | None => Some (LeaseAllocator.load ∅)
  end.

Definition open_store (f : option (list Z)) : option LeaseState :=
  a ← load_journal f; Some (mkLeaseState a [] [] f []).

(** Locked part of an operation that may leave a snapshot to send. *)
Definition changed (a : LeaseAllocator) (dirty : bool) (s : LeaseState) : LeaseState :=
  mkLeaseState a (if dirty then sending s ++ [encode (leases a)] else sending s) (channel s) (file s) (acked s).

Definition allocate_with_claims (name : list Z) (ds : list (list Z)) (t : option (list Z)) (claimed : gset Z)
    (s : LeaseState) : result net_error GuestConfig * LeaseState :=
  match LeaseAllocator.allocate tap_name name ds t claimed (alloc s) with
  | (Ok (c, dirty), a) => (Ok c, changed a dirty s)
  | (Err e, a) => (Err e, changed a false s)
  end.

Definition release (name : list Z) (s : LeaseState) : LeaseState :=
  let '(dirty, a) := LeaseAllocator.release name (alloc s) in changed a dirty s.

(** [writer.send] of the [i]-th snapshot in waiting. *)
Definition send (i : nat) (s : LeaseState) : LeaseState :=
  match sending s !! i with
  | Some x => mkLeaseState (alloc s) (delete i (sending s)) (channel s ++ [Persist x]) (file s) (acked s)
  | None => s
  end.

(** [flush] sends its request; it returns when the request is in [acked]. *)
Definition flush (ack : nat) (s : LeaseState) : LeaseState :=
  mkLeaseState (alloc s) (sending s) (channel s ++ [Flush ack]) (file s) (acked s).

(** The inner loop of [journal_writer]. *)
Fixpoint drain (msgs : list JournalMsg) (latest : option (list Z)) (acks : list nat)
  : option (list Z) * list nat :=
  match msgs with
  | [] => (latest, acks)
  | Persist x :: msgs => drain msgs (Some x) acks
  | Flush a :: msgs => drain msgs latest (acks ++ [a])
  end.

(** One round of [journal_writer]; [write_ok] says whether [write_journal] succeeds.  The
    requests are acknowledged either way. *)
Definition writer_round (write_ok : bool) (s : LeaseState) : LeaseState :=
  let '(latest, acks) := drain (channel s) None [] in
  mkLeaseState (alloc s) (sending s) []
    (match latest with Some x => if write_ok then Some x else file s | None => file s end)
    (acked s ++ acks).

(** ** Runs *)

(** [in_order]: snapshots are sent in the order in which they were taken. *)
Inductive store_step (in_order write_ok : bool) : LeaseState -> LeaseState -> Prop :=
  | step_allocate name ds t claimed s :
      store_step in_order write_ok s (snd (allocate_with_claims name ds t claimed s))
  | step_release name s : store_step in_order write_ok s (release name s)
  | step_send i s : (in_order = true -> i = 0%nat) -> store_step in_order write_ok s (send i s)
  | step_flush a s : store_step in_order write_ok s (flush a s)
  | step_writer ok s : (write_ok = true -> ok = true) -> store_step in_order write_ok s (writer_round ok s).

(** What the file will hold once everything in flight is written. *)
Definition persisted (m : JournalMsg) : option (list Z) := match m with Persist x => Some x | Flush _ => None end.
Definition newest (s : LeaseState) : option (list Z) :=
  match last (omap persisted (channel s) ++ sending s) with Some x => Some x | None => file s end.

Lemma drain_spec msgs latest acks :
  fst (drain msgs latest acks) = match last (omap persisted msgs) with Some x => Some x | None => latest end.
Proof.
  revert latest acks. induction msgs as [|[x|a] msgs IH]; intros latest acks; cbn [drain]; [done| |apply IH].
  rewrite IH. change (omap persisted (Persist x :: msgs)) with (x :: omap persisted msgs).
  destruct (omap persisted msgs) as [|y l] eqn:E; [done|].
  rewrite last_cons_cons. by destruct (last (y :: l)) eqn:El; [|apply last_None in El].
Qed.

Context (decode_encode : forall m, decode (encode m) = Some m).
Context (encode_text : forall m, trim (encode m) <> []).

(** The file that is on its way to the disk gives the leases back. *)
Definition journal_ok (s : LeaseState) : Prop :=
  alloc_ok (alloc s) /\
  match newest s with
  | Some raw => raw = encode (leases (alloc s)) \/ (leases <$> load_journal (Some raw)) = Some (leases (alloc s))
  | None => leases (alloc s) = ∅
  end.

Lemma newest_changed a s : newest (changed a true s) = Some (encode (leases a)).
Proof. unfold newest, changed. cbn [channel sending]. by rewrite app_assoc, last_snoc. Qed.

Lemma changed_ok a dirty s :
  journal_ok s -> alloc_ok a -> (dirty = false -> leases a = leases (alloc s)) -> journal_ok (changed a dirty s).
Proof.
  intros [_ Hn] Ha Hd. split; [done|]. destruct dirty.
  - rewrite newest_changed. by left.
  - cbn [changed alloc] in *. rewrite (Hd eq_refl). exact Hn.
Qed.

Lemma send_newest s : newest (send 0 s) = newest s.
Proof.
  unfold send, newest. destruct (sending s) as [|x l] eqn:E; cbn; [by rewrite E|].
  by rewrite omap_app, <- app_assoc.
Qed.

Lemma step_ok s s' : store_step true true s s' -> journal_ok s -> journal_ok s'.
Proof.
  destruct 1 as [name ds t claimed s|name s|i s Hi|a s|ok s Hok]; intros Hj; pose proof Hj as [Ha Hn].
  - unfold allocate_with_claims. pose proof (allocate_spec tap_name name ds t claimed (alloc s) Ha) as Hs.
    destruct (LeaseAllocator.allocate _ _ _ _ _ _) as [[[c dirty]|e] a']; cbn [snd].
    + destruct Hs as [Ha' (b & _ & _ & _ & _ & _ & _ & _ & _ & Hold)]. apply changed_ok; [done..|].
      intros Hd. by rewrite Hold.
    + destruct Hs as [Ha' (_ & Heq & _)]. by apply changed_ok.
  - unfold release. pose proof (release_spec name (alloc s) Ha) as Hs.
    destruct (LeaseAllocator.release name (alloc s)) as [dirty a']. destruct Hs as (Ha' & Heq & Hd).
    apply changed_ok; [done..|]. intros ->. rewrite Heq. apply delete_id.
    destruct (leases (alloc s) !! name) eqn:E; [|done]. assert (false = true) by (apply Hd; by eexists). done.
  - rewrite (Hi eq_refl). unfold journal_ok. rewrite send_newest.
    assert (alloc (send 0 s) = alloc s) as -> by (unfold send; by destruct (sending s !! 0%nat)). done.
  - split; [done|]. unfold newest, flush in *. cbn [channel sending file alloc]. by rewrite omap_app, app_nil_r.
  - unfold journal_ok in *. rewrite (Hok eq_refl). unfold newest, writer_round in *.
    pose proof (drain_spec (channel s) None []) as Hd. destruct (drain (channel s) None []) as [latest acks].
    cbn [fst] in Hd. cbn [alloc channel sending file omap list_omap app]. split; [done|].
    rewrite last_app in Hn. destruct (last (sending s)); [done|]. subst latest. by destruct (last (omap persisted _)).
Qed.

(** What the journal is for.  While snapshots are sent in the order in which they were
    taken and the file can be written, once nothing is in flight, reading the journal back gives
    exactly the leases that are held, and an allocator that is well formed. *)
Lemma journal_restores f s0 s :
  open_store f = Some s0 -> alloc_ok (alloc s0) -> rtc (store_step true true) s0 s ->
  sending s = [] -> channel s = [] ->
  exists a, load_journal (file s) = Some a /\ leases a = leases (alloc s) /\ alloc_ok a.
Proof.
  intros Hopen Ha0 Hrun Hs Hc.
  assert (H0 : journal_ok s0).
  { unfold open_store in Hopen. destruct (load_journal f) as [a|] eqn:Hl; [|done]. injection Hopen as <-.
    split; [done|]. change (newest _) with f. cbn [alloc].
    destruct f as [raw|]; [right; by rewrite Hl|]. by injection Hl as <-. }
  assert (Hj : journal_ok s) by (clear Hs Hc Hopen Ha0; induction Hrun; eauto using step_ok).
  destruct Hj as [Ha Hn]. unfold newest in Hn. rewrite Hs, Hc in Hn. cbn [omap list_omap app last] in Hn.
  destruct (file s) as [raw|].
  - destruct Hn as [->|Hl].
    + eexists. split; [|split; [|by apply load_ok]]; [|done]. cbn [load_journal].
      rewrite (proj2 (Nat.eqb_neq _ 0)) by (intros ?%nil_length_inv; by eapply encode_text). by rewrite decode_encode.
    + destruct (load_journal (Some raw)) as [a|] eqn:E; [|done]. injection Hl as Hl. exists a. split_and!; [done..|].
      cbn [load_journal] in E. case_match; [injection E as <-; apply empty_ok|].
      destruct (decode raw) as [m|]; [|done]. injection E as <-. cbn [LeaseAllocator.load leases] in Hl. subst m. by apply load_ok.
  - eexists. split; [done|]. split; [by rewrite Hn|]. apply empty_ok.
Qed.
End journal.

(** ** Examples *)

Module JournalExamples.
#[local] Instance entry_eq_dec : EqDecision LeaseEntry.
Proof. solve_decision. Defined.
#[local] Instance entry_countable : Countable LeaseEntry.
Proof.
  refine (inj_countable' (fun e => (entry_network e, entry_tap e)) (fun p => mkLeaseEntry (fst p) (snd p)) _).
  by intros [].
Defined.

(** A codec: a brace and a number. *)
Definition enc (m : gmap (list Z) LeaseEntry) : list Z := [123; Z.pos (countable.encode m)].
Definition dec (s : list Z) : option (gmap (list Z) LeaseEntry) :=
  match s with [123; Z.pos p] => countable.decode p | _ => None end.

Lemma dec_enc m : dec (enc m) = Some m.
Proof. unfold dec, enc. apply decode_encode. Qed.

Definition own_name (name : list Z) : list Z := name.
Definition fresh : LeaseState := default (mkLeaseState (LeaseAllocator.load ∅) [] [] None []) (open_store dec None).
Definition alloc_step (name : list Z) (s : LeaseState) : LeaseState :=
  snd (allocate_with_claims own_name enc name [] None ∅ s).

Lemma enc_text m : trim (enc m) <> [].
Proof. unfold enc. generalize (countable.encode m). intros p. unfold trim. cbn. by destruct (is_space (Z.pos p)). Qed.

Lemma alloc_run o name s : store_step own_name enc o true s (alloc_step name s).
Proof. apply step_allocate. Qed.
Lemma send_run o s : store_step own_name enc o true s (send 0 s).
Proof. by apply step_send. Qed.
Lemma writer_run o s : store_step own_name enc o true s (writer_round true s).
Proof. by apply step_writer. Qed.

(** What an allocation does while blocks are leased in order. *)
Lemma alloc_step_next name m k snd_ ch f ak :
  m !! name = None -> 0 <= k < 16384 ->
  let m' := <[name := mkLeaseEntry (show_network (POOL_BASE + 4 * k) LEASE_PREFIX) (Some name)]> m in
  alloc_step name (mkLeaseState (mkLeaseAllocator m (blocks_from k)) snd_ ch f ak) =
  mkLeaseState (mkLeaseAllocator m' (blocks_from (k + 1))) (snd_ ++ [enc m']) ch f ak.
Proof.
  intros Hm Hk m'. unfold alloc_step, allocate_with_claims. cbn [alloc]. by rewrite allocate_next.
Qed.

Lemma fresh_eq : fresh = mkLeaseState (mkLeaseAllocator ∅ (blocks_from 0)) [] [] None [].
Proof. unfold fresh, open_store. cbn [load_journal mbind option_bind default]. by rewrite load_empty. Qed.

Definition lease_a : gmap (list Z) LeaseEntry := <[bs "a" := mkLeaseEntry (bs "172.20.0.0/30") (Some (bs "a"))]> ∅.
Definition lease_ab : gmap (list Z) LeaseEntry := <[bs "b" := mkLeaseEntry (bs "172.20.0.4/30") (Some (bs "b"))]> lease_a.

Lemma after_a : alloc_step (bs "a") fresh = mkLeaseState (mkLeaseAllocator lease_a (blocks_from 1)) [enc lease_a] [] None [].
Proof. rewrite fresh_eq. by rewrite (alloc_step_next (bs "a") ∅ 0) by done. Qed.

Lemma after_b : alloc_step (bs "b") (alloc_step (bs "a") fresh) =
  mkLeaseState (mkLeaseAllocator lease_ab (blocks_from 2)) [enc lease_a; enc lease_ab] [] None [].
Proof. rewrite after_a. by rewrite (alloc_step_next (bs "b") lease_a 1) by done. Qed.

Definition written : LeaseState := writer_round true (send 0 (alloc_step (bs "a") fresh)).

(** The lock is released before the snapshot is sent.  Two operations that send in the other
    order leave the older snapshot in the file, also after a flush: the lease of [b] is
    gone after a restart, and its block goes to another sandbox. *)
Definition raced : LeaseState :=
  writer_round true (flush 0 (send 0 (send 1 (alloc_step (bs "b") (alloc_step (bs "a") fresh))))).
Definition reopened : LeaseState := default fresh (open_store dec (file raced)).

Lemma raced_eq : raced = mkLeaseState (mkLeaseAllocator lease_ab (blocks_from 2)) [] [] (Some (enc lease_a)) [0%nat].
Proof. unfold raced. rewrite after_b. reflexivity. Qed.

Lemma reopened_eq :
  reopened = mkLeaseState (mkLeaseAllocator lease_a (blocks_from 1)) [] [] (Some (enc lease_a)) [].
Proof.
  unfold reopened. rewrite raced_eq. cbn [file]. unfold open_store, load_journal.
  rewrite (proj2 (Nat.eqb_neq _ 0)) by (intros ?%nil_length_inv; by eapply enc_text).
  rewrite dec_enc. cbn [fmap option_fmap option_map mbind option_bind default]. unfold LeaseAllocator.load.
  assert (map_to_list lease_a = [(bs "a", mkLeaseEntry (bs "172.20.0.0/30") (Some (bs "a")))]) as -> by reflexivity.
  cbn [foldr]. rewrite all_blocks_from. unfold LeaseAllocator.remove_leased. cbn [snd entry_network].
  assert (lease_network_base (bs "172.20.0.0/30") = Some (POOL_BASE + 4 * 0)) as -> by reflexivity.
  by rewrite blocks_from_pop.
Qed.

Lemma journal_snapshot_race :
  rtc (store_step own_name enc false true) fresh raced /\ acked raced = [0%nat] /\
  (entry_network <$> leases (alloc raced) !! bs "b") = Some (bs "172.20.0.4/30") /\
  leases (alloc reopened) !! bs "b" = None /\
  (entry_network <$> leases (alloc (alloc_step (bs "c") reopened)) !! bs "c") = Some (bs "172.20.0.4/30").
Proof.
  split; [|rewrite reopened_eq, (alloc_step_next (bs "c") lease_a 1), raced_eq by done; done]. unfold raced.
  eapply rtc_r; [|apply writer_run]. eapply rtc_r; [|apply step_flush].
  eapply rtc_r; [|apply send_run]. eapply rtc_r; [|by apply step_send].
  eapply rtc_r; [eapply rtc_once, alloc_run|apply alloc_run].
Qed.

(** A flush is acknowledged although the journal could not be written. *)
Lemma flush_acked_unwritten :
  let s := writer_round false (flush 0 (send 0 (alloc_step (bs "a") fresh))) in
  acked s = [0%nat] /\ file s = None.
Proof. rewrite after_a. done. Qed.
End JournalExamples.
