(* ===== verification/NetSlots.v ===== *)
(** [vmond/src/net/slots.rs] with the allocation of guest networks in [vmond/src/net.rs]: TAP
    devices that are prepared ahead of time, claimed and recycled in memory, on top of the /30
    leases of [NetLease].  Requests to the privileged broker succeed or fail as an input says;
    an index out of range, which would panic, is an outcome of its own. *)

From S2P Require Import Prelude Decimal Json IpAddr NetLease.

(** ** Slots *)

Record SlotSpec : Type := mkSlotSpec {
  index : nat; spec_name : list Z; spec_guest_ip : list Z; spec_host_ip : list Z; spec_prefix : Z }.

(** [tv{index:010x}]. *)
Definition slot_tap_name (i : nat) : list Z :=
  bs "tv" ++ map (fun k => hex_digit (Z.of_nat i / 16 ^ Z.of_nat k mod 16)) (rev (seq 0 10)).

Definition slot_lease_name (i : nat) : list Z := bs "~slot-" ++ decimal (Z.of_nat i).

Record SlotEntry : Type := mkSlotEntry {
  spec : SlotSpec; sandbox : option (list Z); custom : bool; slot_dns : list (list Z) }.

(** [free_slots] is a stack: [pop] takes its last element. *)
Record SlotPool : Type := mkSlotPool {
  slots : list SlotEntry; free_slots : list nat; bound : gmap (list Z) nat; by_tap : gmap (list Z) nat }.

Inductive slot_panic : Type := IndexOutOfRange.

Definition empty_pool : SlotPool := mkSlotPool [] [] ∅ ∅.

Module SlotPool.
Definition config_for (p : SlotPool) (i : nat) : option GuestConfig :=
  e ← slots p !! i;
  host ← parse_ipv4 (spec_host_ip (spec e));
  let net := wrap 32 (host - 1) in
  Some (mkGuestConfig (spec_name (spec e)) (spec_host_ip (spec e)) (spec_guest_ip (spec e))
          (spec_prefix (spec e)) (show_network net (spec_prefix (spec e)))
          (if (length (slot_dns e) =? 0)%nat then DEFAULT_DNS else slot_dns e)).

Definition unbind (i : nat) (p : SlotPool) : option (SlotSpec * bool) * SlotPool :=
  match slots p !! i with
  | Some e =>
      match sandbox e with
      | Some name =>
          (Some (spec e, custom e),
           mkSlotPool (<[i := mkSlotEntry (spec e) None false []]> (slots p)) (free_slots p ++ [i])
             (delete name (bound p)) (by_tap p))
      | None => (None, p)
      end
  | None => (None, p)
  end.

Definition install (specs : list SlotSpec) : SlotPool :=
  mkSlotPool (map (fun s => mkSlotEntry s None false []) specs) (rev (map index specs)) ∅
    (fold_left (fun m s => <[spec_name s := index s]> m) specs ∅).

Definition claim (name : list Z) (ds : list (list Z)) (p : SlotPool)
  : result slot_panic (option GuestConfig * SlotPool) :=
  match bound p !! name with
  | Some i => Ok (config_for p i, p)
  | None =>
      match last (free_slots p) with
      | None => Ok (None, p)
      | Some i =>
          match slots p !! i with
          | None => Err IndexOutOfRange
          | Some e =>
              let p := mkSlotPool (<[i := mkSlotEntry (spec e) (Some name) false ds]> (slots p))
                         (take (length (free_slots p) - 1) (free_slots p)) (<[name := i]> (bound p)) (by_tap p) in
              Ok (config_for p i, p)
          end
      end
  end.

Definition lookup_name (name : list Z) (p : SlotPool) : option GuestConfig :=
  i ← bound p !! name; config_for p i.

Definition slot_for_tap (t : list Z) (p : SlotPool) : option (SlotSpec * bool) :=
  i ← by_tap p !! t; e ← slots p !! i; _ ← sandbox e; Some (spec e, custom e).

Definition set_custom (t : list Z) (c : bool) (p : SlotPool) : SlotPool :=
  match by_tap p !! t with
  | Some i =>
      match slots p !! i with
      | Some e => mkSlotPool (<[i := mkSlotEntry (spec e) (sandbox e) c (slot_dns e)]> (slots p))
                    (free_slots p) (bound p) (by_tap p)
      | None => p
      end
  | None => p
  end.

Definition recycle_tap (t : list Z) (p : SlotPool) : option (SlotSpec * bool) * SlotPool :=
  match by_tap p !! t with
  | Some i =>
      match slots p !! i with
      | Some e => match sandbox e with Some _ => unbind i p | None => (None, p) end
      | None => (None, p)
      end
  | None => (None, p)
  end.

Definition release_name (name : list Z) (p : SlotPool) : option (SlotSpec * bool) * SlotPool :=
  match bound p !! name with Some i => unbind i p | None => (None, p) end.
End SlotPool.

(** ** Guest networks: [net.rs] *)

Record NetState : Type := mkNetState { alloc : LeaseAllocator; pool : SlotPool }.

(** How a call of the [LeaseStore] goes: whether its state can be opened (the journal is read and the
    thread of the writer started at the first use), and whether a snapshot of the leases can be encoded. *)
Record store_io : Type := mkStoreIo { opens : bool; encodes : bool }.
Definition store_fine : store_io := mkStoreIo true true.

Section net.
Context (tap_name : list Z -> list Z).

(** [LeaseStore::allocate_with_claims].  A lease whose snapshot fails stays in memory. *)
Definition store_allocate (io : store_io) (name : list Z) (ds : list (list Z)) (tap : option (list Z)) (claimed : gset Z)
    (a : LeaseAllocator) : result net_error GuestConfig * LeaseAllocator :=
  if negb (opens io) then (Err StoreUnavailable, a)
  else
    match LeaseAllocator.allocate tap_name name ds tap claimed a with
    | (Ok (c, dirty), a) => (if dirty && negb (encodes io) then Err SnapshotFailed else Ok c, a)
    | (Err e, a) => (Err e, a)
    end.

(** [LeaseStore::release]. *)
Definition store_release (io : store_io) (name : list Z) (a : LeaseAllocator) : result net_error () * LeaseAllocator :=
  if negb (opens io) then (Err StoreUnavailable, a)
  else let '(removed, a) := LeaseAllocator.release name a in (if removed && negb (encodes io) then Err SnapshotFailed else Ok (), a).

(** [LeaseStore::lease_for]. *)
Definition store_lease_for (io : store_io) (name : list Z) (a : LeaseAllocator) : option GuestConfig :=
  if opens io then LeaseAllocator.lease_for tap_name name a else None.

(** With a store that is open. *)
Definition lease_for (s : NetState) (name : list Z) : option GuestConfig :=
  match SlotPool.lookup_name name (pool s) with
  | Some c => Some c
  | None => LeaseAllocator.lease_for tap_name name (alloc s)
  end.

(** [None]: the pool panicked. *)
Definition allocate_guest_config_with_dns (io : store_io) (name : list Z) (ds : list (list Z)) (claimed : gset Z)
    (s : NetState) : option (result net_error GuestConfig * NetState) :=
  match SlotPool.lookup_name name (pool s) with
  | Some c => Some (Ok c, s)
  | None =>
      match store_lease_for io name (alloc s) with
      | Some c => Some (Ok c, s)
      | None =>
          match SlotPool.claim name ds (pool s) with
          | Err _ => None
          | Ok (Some c, p) => Some (Ok c, mkNetState (alloc s) p)
          | Ok (None, p) =>
              let '(r, a) := store_allocate io name ds None claimed (alloc s) in Some (r, mkNetState a p)
          end
      end
  end.

Definition allocate_guest_config (io : store_io) (name : list Z) (claimed : gset Z) (s : NetState)
  : option (result net_error GuestConfig * NetState) :=
  allocate_guest_config_with_dns io name DEFAULT_DNS claimed s.

(** [broker_ok]: whether the broker resets a slot that had a policy of its own. *)
Definition release_guest_config (io : store_io) (name : list Z) (broker_ok : bool) (s : NetState)
  : result net_error () * NetState :=
  match SlotPool.release_name name (pool s) with
  | (Some (_, custom), p) =>
      (if custom && negb broker_ok then Err BrokerFailed else Ok (), mkNetState (alloc s) p)
  | (None, p) => let '(r, a) := store_release io name (alloc s) in (r, mkNetState a p)
  end.

(** One reservation of [fill_slot_pool]. *)
Definition reserve_slot (io : store_io) (i : nat) (claimed : gset Z) (a : LeaseAllocator)
  : result net_error SlotSpec * LeaseAllocator :=
  let t := slot_tap_name i in
  let '(r, a) := store_allocate io (slot_lease_name i) DEFAULT_DNS (Some t) claimed a in
  (result_map (fun c => mkSlotSpec i t (guest_ip c) (host_ip c) (prefix c)) r, a).

Fixpoint reserve_slots (ios : nat -> store_io) (idxs : list nat) (claimed : nat -> gset Z) (a : LeaseAllocator)
  : result net_error (list SlotSpec) * LeaseAllocator :=
  match idxs with
  | [] => (Ok [], a)
  | i :: idxs =>
      match reserve_slot (ios i) i (claimed i) a with
      | (Err e, a) => (Err e, a)
      | (Ok sp, a) => let '(r, a) := reserve_slots ios idxs claimed a in (result_map (cons sp) r, a)
      end
  end.

(** [fill_slot_pool]: all reservations, then the flush of the journal, the broker and the pool. *)
Definition fill_slot_pool (ios : nat -> store_io) (count : nat) (claimed : nat -> gset Z) (flush_ok broker_ok : bool) (s : NetState)
  : result net_error () * NetState :=
  match reserve_slots ios (seq 0 count) claimed (alloc s) with
  | (Err e, a) => (Err e, mkNetState a (pool s))
  | (Ok specs, a) =>
      if negb flush_ok then (Err FlushFailed, mkNetState a (pool s))
      else if broker_ok then (Ok (), mkNetState a (SlotPool.install specs))
      else (Err BrokerFailed, mkNetState a (pool s))
  end.
End net.

(** ** Names *)

Definition is_slot_name (name : list Z) : bool := bool_decide (take 6 name = bs "~slot-").

Lemma slot_lease_name_slot i : is_slot_name (slot_lease_name i) = true.
Proof. reflexivity. Qed.

Lemma slot_lease_name_inj i j :
  Z.of_nat i < 2 ^ 32 -> Z.of_nat j < 2 ^ 32 -> slot_lease_name i = slot_lease_name j -> i = j.
Proof.
  intros Hi Hj H. unfold slot_lease_name in H. apply app_inv_head in H.
  pose proof (parse_unsigned_decimal 32 (Z.of_nat i)) as Hp. rewrite H in Hp.
  rewrite parse_unsigned_decimal in Hp by lia. specialize (Hp ltac:(lia) ltac:(lia)).
  injection Hp. lia.
Qed.

(** ** The invariant *)

(** The slot that a spec describes is the lease reserved for it. *)
Definition spec_ok (a : LeaseAllocator) (i : nat) (sp : SlotSpec) : Prop :=
  index sp = i /\ spec_prefix sp = LEASE_PREFIX /\
  exists base, lease_at a (slot_lease_name i) base /\
    spec_host_ip sp = show_ipv4 (base + 1) /\ spec_guest_ip sp = show_ipv4 (base + 2).

Record pool_ok (a : LeaseAllocator) (p : SlotPool) : Prop := mkPoolOk {
  po_count : Z.of_nat (length (slots p)) < 2 ^ 32;
  po_spec i e : slots p !! i = Some e -> spec_ok a i (spec e);
  po_bound name i : bound p !! name = Some i <-> exists e, slots p !! i = Some e /\ sandbox e = Some name;
  po_free i : i ∈ free_slots p <-> exists e, slots p !! i = Some e /\ sandbox e = None;
  po_nodup : NoDup (free_slots p);
  po_names name i : bound p !! name = Some i -> is_slot_name name = false }.

Record net_ok (s : NetState) : Prop := mkNetOk {
  no_alloc : alloc_ok (alloc s); no_pool : pool_ok (alloc s) (pool s) }.

Lemma empty_pool_ok a : pool_ok a empty_pool.
Proof.
  split; cbn; try done.
  - intros name i. rewrite lookup_empty. split; [done|]. by intros (e & ? & _).
  - intros i. split; [by intros ?%not_elem_of_nil|]. by intros (e & ? & _).
  - constructor.
Qed.

(** A change of one slot. *)
Lemma pool_ok_update a p i e e' bound' free' :
  pool_ok a p -> slots p !! i = Some e -> spec e' = spec e ->
  (forall name j, bound' !! name = Some j <->
     (j <> i /\ bound p !! name = Some j) \/ (j = i /\ sandbox e' = Some name)) ->
  (forall j, j ∈ free' <-> (j <> i /\ j ∈ free_slots p) \/ (j = i /\ sandbox e' = None)) ->
  NoDup free' -> (forall name, sandbox e' = Some name -> is_slot_name name = false) ->
  pool_ok a (mkSlotPool (<[i := e']> (slots p)) free' bound' (by_tap p)).
Proof.
  intros [Hc Hs Hb Hf Hn Hnm] He Hsp Hbound Hfree Hnd Hname.
  assert (Hlt : (i < length (slots p))%nat) by (by eapply lookup_lt_Some).
  assert (Hl : forall j x, <[i := e']> (slots p) !! j = Some x <->
    (j <> i /\ slots p !! j = Some x) \/ (j = i /\ x = e')).
  { intros j x. rewrite list_lookup_insert_Some. split.
    - intros [(-> & <- & _)|[Hne ?]]; [by right|left; split; [congruence|done]].
    - intros [[Hne ?]|[-> ->]]; [right; split; [congruence|done]|by left]. }
  split; cbn [slots free_slots bound]; [by rewrite length_insert| | | |done|].
  - intros j x [[_ Hx]|[-> ->]]%Hl; [by apply Hs|]. rewrite Hsp. by apply Hs.
  - intros name j. rewrite Hbound, Hb. setoid_rewrite Hl. naive_solver.
  - intros j. rewrite Hfree, Hf. setoid_rewrite Hl. naive_solver.
  - intros name j [[_ H]|[_ H]]%Hbound; [by apply Hnm in H|by apply Hname].
Qed.

(** ** Operations on the pool *)

Lemma unbind_ok a p i : pool_ok a p -> pool_ok a (snd (SlotPool.unbind i p)).
Proof.
  intros Hok. unfold SlotPool.unbind. destruct (slots p !! i) as [e|] eqn:He; [|done].
  destruct (sandbox e) as [name|] eqn:Hsb; [|done]. cbn [snd].
  pose proof Hok as [Hc Hs Hb Hf Hn Hnm].
  assert (Hbi : bound p !! name = Some i) by (apply Hb; eauto).
  eapply (pool_ok_update a p i e); [done..| | | |done].
  - intros name' j. rewrite lookup_delete_Some. cbn [sandbox]. split.
    + intros [Hne Hj]. left. split; [|done]. intros ->. apply Hb in Hj as (e' & He' & Hs'). congruence.
    + intros [[Hji Hj]|[_ ?]]; [|done]. split; [|done]. intros <-. congruence.
  - intros j. rewrite elem_of_app, list_elem_of_singleton. cbn [sandbox]. split; [|tauto].
    intros [Hj|Hj]; [left; split; [|done]|by right]. intros ->. apply Hf in Hj as (e' & He' & Hs'). congruence.
  - apply NoDup_app. split_and!; [done| |apply NoDup_singleton].
    intros j Hj ->%list_elem_of_singleton. apply Hf in Hj as (e' & He' & Hs'). congruence.
Qed.

Lemma set_custom_ok a p t c : pool_ok a p -> pool_ok a (SlotPool.set_custom t c p).
Proof.
  intros Hok. unfold SlotPool.set_custom. destruct (by_tap p !! t) as [i|]; [|done].
  destruct (slots p !! i) as [e|] eqn:He; [|done]. pose proof Hok as [Hc Hs Hb Hf Hn Hnm].
  eapply (pool_ok_update a p i e); [done..| | |done|]; cbn [sandbox].
  - intros name j. rewrite Hb. destruct (decide (j = i)) as [->|]; [|naive_solver].
    rewrite He. naive_solver.
  - intros j. rewrite Hf. destruct (decide (j = i)) as [->|]; [|naive_solver]. rewrite He. naive_solver.
  - intros name Hsb. apply (Hnm name i), Hb. eauto.
Qed.

Lemma last_take {A} (l : list A) x : last l = Some x -> l = take (length l - 1) l ++ [x].
Proof.
  intros Hl. apply last_Some in Hl as [l' ->]. rewrite length_app. cbn [length].
  replace (length l' + 1 - 1)%nat with (length l') by lia. by rewrite take_app_length.
Qed.

(** A claim does not panic; a new one binds a slot that was free. *)
Lemma claim_ok a p name ds :
  pool_ok a p -> is_slot_name name = false ->
  exists c p', SlotPool.claim name ds p = Ok (c, p') /\ pool_ok a p' /\
    (forall i, bound p !! name = None -> bound p' !! name = Some i -> i ∈ free_slots p).
Proof.
  intros Hok Hname. unfold SlotPool.claim. destruct (bound p !! name) as [i|] eqn:Hbn.
  { eexists _, p. split_and!; done. }
  destruct (last (free_slots p)) as [i|] eqn:Hl.
  2: { eexists _, p. split_and!; [done..|]. intros; congruence. }
  pose proof Hok as [Hc Hs Hb Hf Hn Hnm]. apply last_take in Hl.
  assert (Hi : i ∈ free_slots p) by (rewrite Hl; set_solver).
  destruct (proj1 (Hf i) Hi) as (e & He & Hsb). rewrite He. eexists _, _. split; [done|].
  rewrite Hl in Hn. apply NoDup_app in Hn as (Hnd & Hdis & _). split_and!.
  - eapply (pool_ok_update a p i e); [done..| | |done|]; cbn [sandbox].
    + intros name' j. rewrite lookup_insert_Some. split.
      * intros [[<- <-]|[Hne Hj]]; [by right|left]. split; [|done]. intros ->.
        apply Hb in Hj as (e' & He' & Hs'). congruence.
      * intros [[Hne Hj]|[-> [= <-]]]; [right; split; [congruence|done]|by left].
    + intros j. split; [|].
      * intros Hj. left. split; [intros ->; eapply Hdis; [done|set_solver]|]. rewrite Hl. set_solver.
      * intros [[Hne Hj]|[_ ?]]; [|done]. rewrite Hl in Hj. set_solver.
    + by intros ? [= <-].
  - cbn [bound]. rewrite lookup_insert_eq. by intros j _ [= <-].
Qed.

Lemma block_host base : is_block base -> in_width 32 (base + 1) /\ in_width 32 (base + 2) /\ in_width 32 base.
Proof.
  intros [Hb _]%is_block_spec. change POOL_BASE with 2886991872 in Hb. change POOL_SIZE with 65536 in Hb.
  unfold in_width. lia.
Qed.

(** The configuration of a slot is that of its lease. *)
Lemma config_for_spec a p i e :
  pool_ok a p -> slots p !! i = Some e ->
  exists base c, SlotPool.config_for p i = Some c /\ lease_at a (slot_lease_name i) base /\
    guest_ip c = show_ipv4 (base + 2) /\ network c = show_network base LEASE_PREFIX.
Proof.
  intros Hok He. destruct (po_spec a p Hok i e He) as (_ & Hp & base & Hat & Hh & Hg).
  pose proof (block_host base (proj1 Hat)) as (H1 & _ & H0).
  unfold SlotPool.config_for. rewrite He. cbn [mbind option_bind]. rewrite Hh, parse_show_ipv4 by done.
  cbn [mbind option_bind]. eexists base, _. split; [done|]. split_and!; [done|done|].
  cbn [network]. rewrite Hp. f_equal. replace (base + 1 - 1) with base by lia. by apply wrap_small.
Qed.

(** A claim is refused only by an empty pool; otherwise the sandbox has the slot's
    configuration. *)
Lemma claim_result a p name ds c p' :
  pool_ok a p' -> SlotPool.claim name ds p = Ok (c, p') ->
  (c = None /\ p' = p /\ free_slots p = []) \/
  exists c', c = Some c' /\ SlotPool.lookup_name name p' = Some c'.
Proof.
  intros Hok' Hc. assert (Hbound : forall i, bound p' !! name = Some i -> c = SlotPool.config_for p' i ->
    exists c', c = Some c' /\ SlotPool.lookup_name name p' = Some c').
  { intros i Hb ->. destruct (proj1 (po_bound _ _ Hok' name i) Hb) as (e & He & _).
    destruct (config_for_spec _ _ _ _ Hok' He) as (base & c' & Hcf & _).
    exists c'. split; [done|]. unfold SlotPool.lookup_name. by rewrite Hb. }
  unfold SlotPool.claim in Hc. destruct (bound p !! name) as [i|] eqn:Hb.
  { injection Hc as <- <-. right. by apply (Hbound i). }
  destruct (last (free_slots p)) as [i|] eqn:Hl.
  - destruct (slots p !! i) as [e|]; [|done]. cbv zeta in Hc. injection Hc as <- <-. right.
    apply (Hbound i); [|done]. cbn [bound]. apply lookup_insert_eq.
  - injection Hc as <- <-. left. split_and!; [done..|]. by apply last_None.
Qed.

(** ** Changes of the leases *)

Lemma pool_ok_leases a a' p :
  (forall i base, lease_at a (slot_lease_name i) base -> lease_at a' (slot_lease_name i) base) ->
  pool_ok a p -> pool_ok a' p.
Proof.
  intros Hkeep [Hc Hs Hb Hf Hn Hnm]. split; try done. intros i e He.
  destruct (Hs i e He) as (Hi & Hp & base & Hat & Hh & Hg). split_and!; [done..|]. exists base. auto.
Qed.

Section net_proofs.
Context (tap_name : list Z -> list Z).

(** An allocation keeps every lease. *)
Lemma allocate_keeps name ds t claimed a n base :
  alloc_ok a -> lease_at a n base ->
  lease_at (snd (LeaseAllocator.allocate tap_name name ds t claimed a)) n base.
Proof.
  intros Hok Hat. pose proof (allocate_spec tap_name name ds t claimed a Hok) as Hs.
  destruct (LeaseAllocator.allocate tap_name name ds t claimed a) as [[[c dirty]|e] a']; cbn [snd].
  - destruct Hs as [_ (b & _ & _ & _ & _ & _ & _ & Hother & Hnew & Hold)].
    destruct dirty; [|by rewrite Hold]. destruct Hat as (Hb & x & Hx & Hn). split; [done|]. exists x.
    rewrite Hother; [done|]. intros ->. destruct (Hnew eq_refl). congruence.
  - destruct Hs as [_ (_ & Heq & _)]. unfold lease_at. by rewrite Heq.
Qed.

Lemma allocate_alloc_ok name ds t claimed a :
  alloc_ok a -> alloc_ok (snd (LeaseAllocator.allocate tap_name name ds t claimed a)).
Proof.
  intros Hok. pose proof (allocate_spec tap_name name ds t claimed a Hok) as Hs.
  destruct (LeaseAllocator.allocate tap_name name ds t claimed a). by destruct Hs.
Qed.

(** A release of another name keeps the leases of the slots. *)
Lemma release_keeps name a i base :
  alloc_ok a -> is_slot_name name = false -> lease_at a (slot_lease_name i) base ->
  lease_at (snd (LeaseAllocator.release name a)) (slot_lease_name i) base.
Proof.
  intros Hok Hname (Hb & e & He & Hn). pose proof (release_spec name a Hok) as Hs.
  destruct (LeaseAllocator.release name a) as [r a']. destruct Hs as (_ & Heq & _). split; [done|]. exists e. cbn [snd].
  rewrite Heq, lookup_delete_ne; [done|]. intros ->. by rewrite slot_lease_name_slot in Hname.
Qed.

Lemma store_allocate_cases io name ds tap claimed a :
  match store_allocate tap_name io name ds tap claimed a with
  | (Ok c, a') => exists dirty, LeaseAllocator.allocate tap_name name ds tap claimed a = (Ok (c, dirty), a')
  | (Err e, a') =>
      (e = StoreUnavailable /\ opens io = false /\ a' = a) \/
      (e = SnapshotFailed /\ encodes io = false /\ exists c, LeaseAllocator.allocate tap_name name ds tap claimed a = (Ok (c, true), a')) \/
      LeaseAllocator.allocate tap_name name ds tap claimed a = (Err e, a')
  end.
Proof.
  unfold store_allocate. destruct (opens io); cbn [negb]; [|by left].
  destruct (LeaseAllocator.allocate _ _ _ _ _ a) as [[[c [|]]|e] a']; cbn [andb negb]; [|by eexists|by auto].
  destruct (encodes io); cbn [negb]; [by eexists|]. right. left. eauto.
Qed.

Lemma store_allocate_snd io name ds tap claimed a :
  snd (store_allocate tap_name io name ds tap claimed a) = a \/
  snd (store_allocate tap_name io name ds tap claimed a) = snd (LeaseAllocator.allocate tap_name name ds tap claimed a).
Proof. unfold store_allocate. destruct (opens io); [right|by left]. by destruct (LeaseAllocator.allocate _ _ _ _ _ a) as [[[c []]|] a']. Qed.

Lemma store_release_snd io name a : snd (store_release io name a) = a \/ snd (store_release io name a) = snd (LeaseAllocator.release name a).
Proof. unfold store_release. destruct (opens io); [right|by left]. by destruct (LeaseAllocator.release name a). Qed.

Lemma reserve_slots_spec ios idxs claimed a :
  alloc_ok a ->
  let '(r, a') := reserve_slots tap_name ios idxs claimed a in
  alloc_ok a' /\ (forall n base, lease_at a n base -> lease_at a' n base) /\
  match r with
  | Ok specs => Forall2 (fun i sp => spec_ok a' i sp) idxs specs
  | Err _ => True
  end.
Proof.
  revert a. induction idxs as [|i idxs IH]; intros a Hok; cbn [reserve_slots].
  { split_and!; [done..|constructor]. }
  unfold reserve_slot.
  pose proof (allocate_spec tap_name (slot_lease_name i) DEFAULT_DNS (Some (slot_tap_name i)) (claimed i) a Hok) as Hs.
  pose proof (allocate_keeps (slot_lease_name i) DEFAULT_DNS (Some (slot_tap_name i)) (claimed i) a) as Hkeep.
  pose proof (store_allocate_cases (ios i) (slot_lease_name i) DEFAULT_DNS (Some (slot_tap_name i)) (claimed i) a) as Hc.
  destruct (store_allocate _ _ _ _ _ _ a) as [[c|e] a1]; cbn [result_map].
  - destruct Hc as [dirty Hc]. rewrite Hc in Hs, Hkeep. cbn [snd] in Hkeep.
    destruct Hs as [Hok1 (base & Hb & Hat & Hg & Hh & _ & Hp & _)].
    specialize (IH a1 Hok1). destruct (reserve_slots tap_name ios idxs claimed a1) as [r a2].
    destruct IH as (Hok2 & Hkeep2 & Hr). split_and!; [done|eauto|].
    destruct r as [specs|]; [|done]. cbn [result_map]. constructor; [|done].
    split_and!; [done..|]. exists base. exact (conj (Hkeep2 _ _ Hat) (conj Hh Hg)).
  - destruct Hc as [(_ & _ & ->)|[(_ & _ & c & Hc)|Hc]]; [done|..]; rewrite Hc in Hs, Hkeep; cbn [snd] in Hkeep;
      destruct Hs as [Hok1 _]; (split_and!; [done| |done]; eauto).
Qed.

Lemma install_ok a count specs :
  Z.of_nat count < 2 ^ 32 -> Forall2 (fun i sp => spec_ok a i sp) (seq 0 count) specs ->
  pool_ok a (SlotPool.install specs).
Proof.
  intros Hcount Hsp. pose proof (Forall2_length _ _ _ Hsp) as Hlen. rewrite length_seq in Hlen.
  assert (Hidx : map index specs = seq 0 count).
  { clear Hlen Hcount. induction Hsp as [|i sp l l' (Hi & _) _ IH]; [done|]. cbn. by rewrite Hi, IH. }
  assert (Hl : forall i e, slots (SlotPool.install specs) !! i = Some e ->
    exists sp, specs !! i = Some sp /\ e = mkSlotEntry sp None false []).
  { intros i e He. cbn in He. change (map ?f specs) with (f <$> specs) in He.
    rewrite list_lookup_fmap in He. destruct (specs !! i) as [sp|]; [|done]. exists sp. by simplify_eq/=. }
  split.
  - cbn. rewrite length_map. lia.
  - intros i e (sp & Hi & ->)%Hl. cbn [spec].
    destruct (Forall2_lookup_r _ _ _ _ _ Hsp Hi) as (j & Hj & Hs).
    apply lookup_seq in Hj as [-> _]. done.
  - intros name i. cbn [SlotPool.install bound]. rewrite lookup_empty. split; [done|].
    by intros (e & (sp & _ & ->)%Hl & ?).
  - intros i. cbn [SlotPool.install free_slots]. rewrite Hidx, list_elem_of_In, <- in_rev, in_seq. split.
    + intros [_ Hi]. destruct (lookup_lt_is_Some_2 specs i) as [sp Hsp']; [lia|].
      exists (mkSlotEntry sp None false []). split; [|done]. cbn. change (map ?f specs) with (f <$> specs).
      by rewrite list_lookup_fmap, Hsp'.
    + intros (e & (sp & Hi & _)%Hl & _). apply lookup_lt_Some in Hi. lia.
  - cbn [SlotPool.install free_slots]. rewrite Hidx. apply NoDup_ListNoDup, NoDup_rev, List.seq_NoDup.
  - intros name i Hb. cbn in Hb. by rewrite lookup_empty in Hb.
Qed.

(** ** The network of a node *)

(** What is done to it: sandboxes come and go, slots get and lose policies, and the pool is filled
    once, in parts or at once. *)
Inductive net_step : NetState -> NetState -> Prop :=
  | net_allocate io name ds claimed s r s' :
      is_slot_name name = false ->
      allocate_guest_config_with_dns tap_name io name ds claimed s = Some (r, s') -> net_step s s'
  | net_release io name ok s :
      is_slot_name name = false -> net_step s (snd (release_guest_config io name ok s))
  | net_recycle t s : net_step s (mkNetState (alloc s) (snd (SlotPool.recycle_tap t (pool s))))
  | net_set_custom t c s : net_step s (mkNetState (alloc s) (SlotPool.set_custom t c (pool s)))
  | net_reserve io i claimed s :
      net_step s (mkNetState (snd (reserve_slot tap_name io i claimed (alloc s))) (pool s))
  | net_fill ios count claimed flush ok s :
      slots (pool s) = [] -> Z.of_nat count < 2 ^ 32 ->
      net_step s (snd (fill_slot_pool tap_name ios count claimed flush ok s)).

Definition net_start : NetState := mkNetState (LeaseAllocator.load ∅) empty_pool.

(** The daemon may restart at any time.  It reads the leases of some state that it or an earlier process was
    in: the journal is written by a thread of its own and may be behind, so it need not be the last one. *)
Inductive net_reachable : NetState -> Prop :=
  | net_first : net_reachable net_start
  | net_next s s' : net_reachable s -> net_step s s' -> net_reachable s'
  | net_restart s journaled :
      net_reachable s -> net_reachable journaled ->
      net_reachable (mkNetState (LeaseAllocator.load (leases (alloc journaled))) empty_pool).

Lemma store_allocate_ok io name ds tap claimed s :
  net_ok s -> alloc_ok (snd (store_allocate tap_name io name ds tap claimed (alloc s))) /\
  forall n base, lease_at (alloc s) n base -> lease_at (snd (store_allocate tap_name io name ds tap claimed (alloc s))) n base.
Proof.
  intros [Ha _]. destruct (store_allocate_snd io name ds tap claimed (alloc s)) as [-> | ->]; [done|].
  split; [by apply allocate_alloc_ok|by intros n base; apply allocate_keeps].
Qed.

Lemma release_net_ok io name s p :
  net_ok s -> is_slot_name name = false -> pool_ok (alloc s) p -> net_ok (mkNetState (snd (store_release io name (alloc s))) p).
Proof.
  intros [Ha _] Hname Hp. destruct (store_release_snd io name (alloc s)) as [-> | ->]; [done|]. split; cbn [alloc pool].
  - pose proof (release_spec name _ Ha) as Hr. by destruct (LeaseAllocator.release name (alloc s)), Hr.
  - eapply pool_ok_leases; [|exact Hp]. intros. by eapply release_keeps.
Qed.

Lemma net_step_ok s s' : net_step s s' -> net_ok s -> net_ok s'.
Proof.
  destruct 1 as [io name ds claimed s r s' Hname Hal|io name ok s Hname|t s|t c s|io i claimed s|ios count claimed flush ok s Hcold Hcount];
    intros Hok; pose proof Hok as [Ha Hp].
  - unfold allocate_guest_config_with_dns in Hal. destruct (SlotPool.lookup_name name (pool s)); [by simplify_eq|].
    destruct (store_lease_for tap_name io name (alloc s)); [by simplify_eq|].
    destruct (claim_ok _ _ name ds Hp Hname) as (c & p' & Hc & Hp' & _). rewrite Hc in Hal.
    destruct c as [c|]; [by simplify_eq|]. destruct (store_allocate_ok io name ds None claimed s Hok) as [Ha' Hk].
    destruct (store_allocate _ _ _ _ _ _ _) as [r' a']. injection Hal as _ <-. split; [done|].
    cbn [alloc pool snd] in *. eapply pool_ok_leases; [|exact Hp']. eauto.
  - unfold release_guest_config, SlotPool.release_name. pose proof (fun p => release_net_ok io name s p Hok Hname) as Hrel.
    destruct (bound (pool s) !! name) as [i|].
    + pose proof (unbind_ok _ _ i Hp) as Hu. destruct (SlotPool.unbind i (pool s)) as [[[sp cu]|] p']; [by split|].
      specialize (Hrel p' Hu). by destruct (store_release io name (alloc s)).
    + specialize (Hrel _ Hp). by destruct (store_release io name (alloc s)).
  - split; [done|]. cbn [alloc pool]. unfold SlotPool.recycle_tap. repeat case_match; try done. by apply unbind_ok.
  - split; [done|]. by apply set_custom_ok.
  - unfold reserve_slot.
    destruct (store_allocate_ok io (slot_lease_name i) DEFAULT_DNS (Some (slot_tap_name i)) claimed s Hok) as [Ha' Hk].
    destruct (store_allocate _ _ _ _ _ _ _) as [r' a']. cbn [snd] in *. split; [done|].
    eapply pool_ok_leases; [|exact Hp]. eauto.
  - unfold fill_slot_pool. pose proof (reserve_slots_spec ios (seq 0 count) claimed (alloc s) Ha) as Hr.
    destruct (reserve_slots tap_name _ _ claimed _) as [[specs|] a']; destruct Hr as (Ha' & Hk & Hsp).
    + destruct flush, ok; cbn [snd negb]; (split; [done|]); [by eapply install_ok|..];
        (cbn [alloc pool]; eapply pool_ok_leases; [|exact Hp]; eauto).
    + cbn [snd]. split; [done|]. cbn [alloc pool]. eapply pool_ok_leases; [|exact Hp]. eauto.
Qed.
End net_proofs.

(** ** Guests do not share addresses *)

Section exclusive.
Context (tap_name : list Z -> list Z).

Lemma net_reachable_ok s : net_reachable tap_name s -> net_ok s.
Proof.
  induction 1 as [|s s' _ IH Hs|s j _ _ _ [Hj _]]; [split; [apply empty_ok|apply empty_pool_ok]|by eapply net_step_ok|].
  split; [by apply load_ok|apply empty_pool_ok].
Qed.

(** The lease behind a sandbox: its own, or that of the slot it is bound to. *)
Definition lease_key (s : NetState) (name : list Z) : list Z :=
  match bound (pool s) !! name with Some i => slot_lease_name i | None => name end.

Lemma lease_for_spec s name c :
  net_ok s -> lease_for tap_name s name = Some c ->
  exists base, lease_at (alloc s) (lease_key s name) base /\
    guest_ip c = show_ipv4 (base + 2) /\ network c = show_network base LEASE_PREFIX.
Proof.
  intros [Ha Hp] Hl. unfold lease_for, SlotPool.lookup_name, lease_key in *.
  destruct (bound (pool s) !! name) as [i|] eqn:Hb; cbn [mbind option_bind] in Hl.
  - destruct (proj1 (po_bound _ _ Hp name i) Hb) as (e & He & _).
    destruct (config_for_spec _ _ _ _ Hp He) as (base & c' & Hc & Hat & Hg & Hn).
    rewrite Hc in Hl. injection Hl as <-. eauto.
  - unfold LeaseAllocator.lease_for in Hl. destruct (leases (alloc s) !! name) as [e|] eqn:He; [|done].
    destruct (ao_block _ Ha name e He) as (base & Hblk & Hn). exists base.
    destruct e as [n t]. cbn [entry_network] in Hn. subst n. cbn [mbind option_bind] in Hl.
    rewrite config_from_block in Hl by done. injection Hl as <-. split; [|done].
    split; [done|]. by eexists.
Qed.

Lemma lease_key_inj s n n' :
  net_ok s -> is_slot_name n = false -> is_slot_name n' = false ->
  lease_key s n = lease_key s n' -> n = n'.
Proof.
  intros [_ Hp] Hn Hn' Heq. unfold lease_key in Heq.
  destruct (bound (pool s) !! n) as [i|] eqn:Hi, (bound (pool s) !! n') as [j|] eqn:Hj.
  - apply (po_bound _ _ Hp) in Hi as (e & He & Hs), Hj as (e' & He' & Hs').
    pose proof (lookup_lt_Some _ _ _ He). pose proof (lookup_lt_Some _ _ _ He'). pose proof (po_count _ _ Hp).
    apply slot_lease_name_inj in Heq; [|lia|lia]. congruence.
  - by rewrite <- Heq, slot_lease_name_slot in Hn'.
  - by rewrite Heq, slot_lease_name_slot in Hn.
  - done.
Qed.

(** C14: Of the sandboxes that a node has leases or slots for, no two have the same guest address or
    network, however allocations, claims of prepared slots, releases, recycled devices, failing brokers and
    stores, and restarts follow each other, also when a restart finds a journal that is behind.  A
    sandbox whose lease the journal lost is not one of them; whether it still runs the daemon does not know. *)
Theorem guests_never_share s n n' c c' :
  net_reachable tap_name s -> is_slot_name n = false -> is_slot_name n' = false -> n <> n' ->
  lease_for tap_name s n = Some c -> lease_for tap_name s n' = Some c' ->
  guest_ip c <> guest_ip c' /\ network c <> network c'.
Proof.
  intros Hok%net_reachable_ok Hn Hn' Hne Hc Hc'.
  destruct (lease_for_spec s n c Hok Hc) as (b & Hat & Hg & Hw).
  destruct (lease_for_spec s n' c' Hok Hc') as (b' & Hat' & Hg' & Hw').
  assert (Hb : b <> b').
  { intros ->. apply Hne. eapply lease_key_inj; [done..|]. by eapply ao_distinct; [apply Hok| |]. }
  destruct (block_host b (proj1 Hat)) as (_ & H2 & _). destruct (block_host b' (proj1 Hat')) as (_ & H2' & _).
  rewrite Hg, Hg', Hw, Hw'. split.
  - intros Heq. pose proof (parse_show_ipv4 _ H2) as Hp. rewrite Heq, parse_show_ipv4 in Hp by done.
    apply Hb. injection Hp. lia.
  - intros Heq. apply Hb. by apply show_network_inj; [apply Hat|apply Hat'|].
Qed.

(** C38: An allocation is answered: it never indexes outside the pool of slots.  It fails only when no slot
    is free and either every block of the address pool is leased or carried by an interface of the
    host, or the store of the leases cannot be opened, or the snapshot of the leases cannot be encoded; in
    the last case the lease was made all the same. *)
Theorem allocate_complete s io name ds claimed :
  net_reachable tap_name s -> is_slot_name name = false ->
  exists r s', allocate_guest_config_with_dns tap_name io name ds claimed s = Some (r, s') /\
    match r with
    | Ok c => lease_for tap_name s' name <> None
    | Err e => free_slots (pool s) = [] /\
        (e = StoreUnavailable /\ opens io = false \/
         e = SnapshotFailed /\ encodes io = false /\ lease_for tap_name s' name <> None \/
         e = PoolExhausted /\ forall base, is_block base -> (exists n, lease_at (alloc s) n base) \/ base ∈ claimed)
    end.
Proof.
  intros [Ha Hp]%net_reachable_ok Hname. unfold allocate_guest_config_with_dns, lease_for.
  destruct (SlotPool.lookup_name name (pool s)) as [c|] eqn:Hlk.
  { eexists _, s. split; [done|]. by rewrite Hlk. }
  destruct (store_lease_for tap_name io name (alloc s)) as [c|] eqn:Hle.
  { eexists _, s. split; [done|]. unfold store_lease_for in Hle. destruct (opens io); [|done]. by rewrite Hlk, Hle. }
  destruct (claim_ok _ _ name ds Hp Hname) as (c & p' & Hc & Hp' & _). rewrite Hc.
  destruct (claim_result _ _ _ _ _ _ Hp' Hc) as [(-> & -> & Hfree)|(c' & -> & Hlk')].
  2: { eexists _, _. split; [done|]. cbn [pool]. by rewrite Hlk'. }
  pose proof (allocate_spec tap_name name ds None claimed (alloc s) Ha) as Hs.
  pose proof (store_allocate_cases tap_name io name ds None claimed (alloc s)) as Hcase.
  assert (Hleased : forall c d a', LeaseAllocator.allocate tap_name name ds None claimed (alloc s) = (Ok (c, d), a') ->
    LeaseAllocator.lease_for tap_name name a' <> None).
  { intros c d a' Hal. rewrite Hal in Hs. destruct Hs as [Hok' (base & Hb & (_ & e & He & Hn) & _)].
    unfold LeaseAllocator.lease_for. rewrite He. cbn [mbind option_bind]. destruct e as [n t].
    cbn [entry_network] in Hn. subst n. by rewrite config_from_block. }
  destruct (store_allocate _ _ _ _ _ _ _) as [[c|e] a']; eexists _, _; (split; [done|]); cbn [pool alloc]; rewrite Hlk.
  - destruct Hcase as [d Hal]. by eapply Hleased.
  - split; [done|]. destruct Hcase as [(-> & Ho & _)|[(-> & Hen & c & Hal)|Hal]]; [by left|right; left|right; right].
    + split_and!; [done..|]. by eapply Hleased.
    + rewrite Hal in Hs. by destruct Hs as [_ (-> & _ & _ & Hall)].
Qed.
End exclusive.

(** ** Examples *)

Module SlotExamples.
Definition own_name (name : list Z) : list Z := name.

(** A pool of one slot, and two sandboxes: the blocks are leased in order, so the free ones need
    not be listed. *)
Definition filled : NetState := snd (fill_slot_pool own_name (fun _ => store_fine) 1 (fun _ => ∅) true true net_start).
Definition after (name : list Z) (s : NetState) : NetState :=
  default s (snd <$> allocate_guest_config_with_dns own_name store_fine name [] ∅ s).
Definition two : NetState := after (bs "b") (after (bs "a") filled).

Definition spec0 : SlotSpec := mkSlotSpec 0 (slot_tap_name 0) (bs "172.20.0.2") (bs "172.20.0.1") 30.
Definition leases1 : gmap (list Z) LeaseEntry :=
  {[slot_lease_name 0 := mkLeaseEntry (bs "172.20.0.0/30") (Some (slot_tap_name 0))]}.
Definition bound_pool : SlotPool :=
  mkSlotPool [mkSlotEntry spec0 (Some (bs "a")) false []] [] {[bs "a" := 0%nat]} (by_tap (SlotPool.install [spec0])).

Lemma fill_ok : fill_slot_pool own_name (fun _ => store_fine) 1 (fun _ => ∅) true true net_start =
  (Ok tt, mkNetState (mkLeaseAllocator leases1 (blocks_from 1)) (SlotPool.install [spec0])).
Proof.
  unfold fill_slot_pool, net_start. rewrite load_empty. cbn [seq reserve_slots alloc]. unfold reserve_slot, store_allocate. cbn [opens store_fine negb].
  rewrite allocate_next by done. reflexivity.
Qed.

Lemma allocated_a : allocate_guest_config_with_dns own_name store_fine (bs "a") [] ∅ filled =
  Some (Ok (mkGuestConfig (slot_tap_name 0) (bs "172.20.0.1") (bs "172.20.0.2") 30 (bs "172.20.0.0/30") DEFAULT_DNS),
        mkNetState (mkLeaseAllocator leases1 (blocks_from 1)) bound_pool).
Proof. unfold filled. rewrite fill_ok. generalize (blocks_from 1). intros rest. vm_compute. reflexivity. Qed.

Definition leases2 : gmap (list Z) LeaseEntry :=
  <[bs "b" := mkLeaseEntry (bs "172.20.0.4/30") (Some (bs "b"))]> leases1.

Lemma allocated_b : allocate_guest_config_with_dns own_name store_fine (bs "b") [] ∅ (after (bs "a") filled) =
  Some (Ok (mkGuestConfig (bs "b") (bs "172.20.0.5") (bs "172.20.0.6") 30 (bs "172.20.0.4/30") []),
        mkNetState (mkLeaseAllocator leases2 (blocks_from 2)) bound_pool).
Proof.
  unfold after. rewrite allocated_a. unfold allocate_guest_config_with_dns.
  cbn [fmap option_fmap option_map default snd alloc pool id].
  assert (SlotPool.lookup_name (bs "b") bound_pool = None) as -> by reflexivity.
  assert (forall f, store_lease_for own_name store_fine (bs "b") (mkLeaseAllocator leases1 f) = None) as -> by reflexivity.
  assert (SlotPool.claim (bs "b") [] bound_pool = Ok (None, bound_pool)) as -> by reflexivity.
  unfold store_allocate. cbn [opens store_fine negb]. rewrite (allocate_next own_name (bs "b") [] None leases1 1) by done. reflexivity.
Qed.

Lemma after_step name s r s' :
  is_slot_name name = false -> allocate_guest_config_with_dns own_name store_fine name [] ∅ s = Some (r, s') ->
  net_step own_name s (after name s).
Proof. intros Hn E. eapply net_allocate; [exact Hn|]. unfold after. rewrite E. exact eq_refl. Qed.

Lemma filled_reachable : net_reachable own_name filled.
Proof. eapply net_next; [apply net_first|]. apply net_fill; reflexivity. Qed.

Lemma two_reachable : net_reachable own_name two.
Proof.
  apply (net_next _ (after (bs "a") filled)); [apply (net_next _ filled); [exact filled_reachable|]|].
  - exact (after_step (bs "a") filled _ _ eq_refl allocated_a).
  - exact (after_step (bs "b") (after (bs "a") filled) _ _ eq_refl allocated_b).
Qed.

Lemma two_eq : two = mkNetState (mkLeaseAllocator leases2 (blocks_from 2)) bound_pool.
Proof. unfold two. unfold after at 1. by rewrite allocated_b. Qed.

Lemma config_a : lease_for own_name two (bs "a") =
  Some (mkGuestConfig (slot_tap_name 0) (bs "172.20.0.1") (bs "172.20.0.2") 30 (bs "172.20.0.0/30") DEFAULT_DNS).
Proof. rewrite two_eq. reflexivity. Qed.

Lemma config_b : lease_for own_name two (bs "b") =
  Some (mkGuestConfig (bs "b") (bs "172.20.0.5") (bs "172.20.0.6") 30 (bs "172.20.0.4/30") DEFAULT_DNS).
Proof. rewrite two_eq. generalize (blocks_from 2). intros rest. vm_compute. reflexivity. Qed.

Lemma guests_never_share_witness :
  bs "172.20.0.2" <> bs "172.20.0.6" /\ bs "172.20.0.0/30" <> bs "172.20.0.4/30".
Proof.
  exact (guests_never_share own_name two (bs "a") (bs "b") _ _ two_reachable eq_refl eq_refl
           ltac:(discriminate) config_a config_b).
Defined.

Lemma allocate_complete_witness : exists r s',
  allocate_guest_config_with_dns own_name store_fine (bs "a") [] ∅ filled = Some (r, s') /\
  match r with
  | Ok c => lease_for own_name s' (bs "a") <> None
  | Err e => free_slots (pool filled) = [] /\
      (e = StoreUnavailable /\ opens store_fine = false \/
       e = SnapshotFailed /\ encodes store_fine = false /\ lease_for own_name s' (bs "a") <> None \/
       e = PoolExhausted /\ forall base, is_block base -> (exists n, lease_at (alloc filled) n base) \/ base ∈ (∅ : gset Z))
  end.
Proof. apply (allocate_complete own_name filled store_fine (bs "a") [] ∅); [apply filled_reachable|reflexivity]. Defined.
End SlotExamples.
