(* ===== verification/SlotFirewall.v ===== *)
(** The egress policies of prepared slots: the nftables programs of [vmond/src/net/slots.rs] and
    the calls of [vmond/src/net.rs] that run them ([setup_tap], [teardown_tap] and
    [release_guest_config] on a slot).  [nft] is an interface: it runs a program as a whole or
    not at all, and its set commands do what its manual says. *)

From S2P Require Import Prelude Decimal Json IpAddr NetLease NetSlots.

(** ** Programs *)

Inductive nft_cmd : Type :=
  | AddTable | DeleteTable | AddRestricted | AddForward
  | AddSet (set : list Z)
  | AcceptRule (tap set : list Z)
  | DropRule (tap : list Z)
  | FlushSet (set : list Z)
  | AddElements (set : list Z) (elements : list (list Z))
  | DeleteElements (set : list Z) (elements : list (list Z)).

(** [join(", ")]. *)
Fixpoint join (l : list (list Z)) : list Z :=
  match l with
  | [] => []
  | [x] => x
  | x :: l => x ++ bs ", " ++ join l
  end.

Definition quoted (s : list Z) : list Z := 34 :: s ++ [34].

(** One line of a program. *)
Definition render_cmd (c : nft_cmd) : list Z :=
  match c with
  | AddTable => bs "add table ip vmon_slots"
  | DeleteTable => bs "delete table ip vmon_slots"
  | AddRestricted => bs "add set ip vmon_slots restricted { type ipv4_addr; }"
  | AddForward =>
      bs "add chain ip vmon_slots forward { type filter hook forward priority -5; policy accept; }"
  | AddSet set => bs "add set ip vmon_slots " ++ set ++ bs " { type ipv4_addr; flags interval; }"
  | AcceptRule tap set =>
      bs "add rule ip vmon_slots forward iifname " ++ quoted tap ++ bs " ip saddr @restricted ip daddr @"
      ++ set ++ bs " accept"
  | DropRule tap =>
      bs "add rule ip vmon_slots forward iifname " ++ quoted tap ++ bs " ip saddr @restricted drop"
  | FlushSet set => bs "flush set ip vmon_slots " ++ set
  | AddElements set es => bs "add element ip vmon_slots " ++ set ++ bs " { " ++ join es ++ bs " }"
  | DeleteElements set es => bs "delete element ip vmon_slots " ++ set ++ bs " { " ++ join es ++ bs " }"
  end ++ [10].

Definition render (p : list nft_cmd) : list Z := concat (map render_cmd p).

Definition RESTRICTED_SET : list Z := bs "restricted".

Definition egress_set (s : SlotSpec) : list Z := bs "egress_s" ++ decimal (Z.of_nat (index s)).


Definition claim_payload (s : SlotSpec) (elements : list (list Z)) (already_custom : bool) : list nft_cmd :=
  (if already_custom then [FlushSet (egress_set s)] else [])
  ++ (if (length elements =? 0)%nat then [] else [AddElements (egress_set s) elements])
  ++ (if already_custom then [] else [AddElements RESTRICTED_SET [spec_guest_ip s]]).

Definition recycle_payload (s : SlotSpec) : list nft_cmd :=
  [FlushSet (egress_set s); DeleteElements RESTRICTED_SET [spec_guest_ip s]].

Definition update_set_payload (set : list Z) (add remove : list (list Z)) : list nft_cmd :=
  (if (length add =? 0)%nat then [] else [AddElements set add])
  ++ (if (length remove =? 0)%nat then [] else [DeleteElements set remove]).

Example recycle_text : render (recycle_payload (mkSlotSpec 3 (bs "tv0000000003") (bs "172.20.0.14") (bs "172.20.0.13") 30)) =
  bs "flush set ip vmon_slots egress_s3" ++ [10] ++ bs "delete element ip vmon_slots restricted { 172.20.0.14 }" ++ [10].
Proof. reflexivity. Qed.

(** ** The firewall *)

(** The members of the sets. *)
Abbreviation members := (list Z -> list Z -> bool).

Definition effect (m : members) (c : nft_cmd) : members :=
  match c with
  | DeleteTable => fun _ _ => false
  | FlushSet set => fun s x => negb (bool_decide (s = set)) && m s x
  | AddElements set es => fun s x => (bool_decide (s = set) && bool_decide (x ∈ es)) || m s x
  | DeleteElements set es => fun s x => negb (bool_decide (s = set) && bool_decide (x ∈ es)) && m s x
  | _ => m
  end.

(** A rule of the chain: it matches packets that come in from [tap] with a source that is restricted
    and, for [Allow], a destination in the set. *)
Inductive rule : Type := Allow (tap set : list Z) | Deny (tap : list Z).

Definition rule_effect (l : list rule) (c : nft_cmd) : list rule :=
  match c with
  | DeleteTable => []
  | AcceptRule tap set => l ++ [Allow tap set]
  | DropRule tap => l ++ [Deny tap]
  | _ => l
  end.

(** [nft_covers]: whether an element of an interval set, an address or a network, covers an address. *)
Class Nft (F : Type) : Type := {
  nft_members : F -> members;
  nft_rules : F -> list rule;
  nft_covers : list Z -> list Z -> bool;
  nft_run : list nft_cmd -> F -> option F;
  nft_run_members cmds f f' : nft_run cmds f = Some f' ->
    forall s x, nft_members f' s x = fold_left effect cmds (nft_members f) s x;
  nft_run_rules cmds f f' : nft_run cmds f = Some f' -> nft_rules f' = fold_left rule_effect cmds (nft_rules f) }.

Section calls.
Context {F : Type} `{Nft F}.

Record Node : Type := mkNode { node_pool : SlotPool; firewall : F }.

(** A request to the broker that runs a program.  It fails when [nft] refuses the program, or
    after the program ran ([late]): the refresher of the domains does not start, or the answer
    is lost. *)
Definition broker (late : bool) (cmds : list nft_cmd) (f : F) : bool * F :=
  match nft_run cmds f with
  | Some f => (negb late, f)
  | None => (false, f)
  end.

(** [setup_tap] of a slot; [policy] is [None] for the default policy, or the addresses of a
    policy of its own.  [false]: an error is returned.  A TAP that is not a claimed slot is set
    up without the pool. *)
Definition setup_slot (t guest host : list Z) (pre : Z) (policy : option (list (list Z))) (late : bool)
    (n : Node) : bool * Node :=
  match SlotPool.slot_for_tap t (node_pool n) with
  | None => (true, n)
  | Some (s, already_custom) =>
      if negb (bool_decide (spec_guest_ip s = guest) && bool_decide (spec_host_ip s = host)
               && (spec_prefix s =? pre)) then (false, n)
      else
        match policy with
        | Some elements =>
            match broker late (claim_payload s elements already_custom) (firewall n) with
            | (true, f) => (true, mkNode (SlotPool.set_custom t true (node_pool n)) f)
            | (false, f) => (false, mkNode (node_pool n) f)
            end
        | None =>
            if already_custom then
              match broker late (recycle_payload s) (firewall n) with
              | (true, f) => (true, mkNode (SlotPool.set_custom t false (node_pool n)) f)
              | (false, f) => (false, mkNode (node_pool n) f)
              end
            else (true, n)
        end
  end.

(** The slot was given back; a policy of its own is reset. *)
Definition reset_slot (r : option (SlotSpec * bool) * SlotPool) (late : bool) (f : F) : bool * Node :=
  match r with
  | (Some (s, true), p) => let '(ok, f) := broker late (recycle_payload s) f in (ok, mkNode p f)
  | (_, p) => (true, mkNode p f)
  end.

Definition teardown_slot (t : list Z) (late : bool) (n : Node) : bool * Node :=
  reset_slot (SlotPool.recycle_tap t (node_pool n)) late (firewall n).


Definition claim_slot (name : list Z) (ds : list (list Z)) (n : Node) : Node :=
  match SlotPool.claim name ds (node_pool n) with
  | Ok (_, p) => mkNode p (firewall n)
  | Err _ => n
  end.



(** ** Packets *)





End calls.
Arguments Node : clear implicits.

(** ** What the programs do *)

Lemma egress_set_restricted s : egress_set s <> RESTRICTED_SET.
Proof. unfold egress_set, RESTRICTED_SET. intros H. discriminate H. Qed.


Lemma claim_effect s es ac m set x :
  fold_left effect (claim_payload s es ac) m set x =
  if bool_decide (set = egress_set s) then bool_decide (x ∈ es) || negb ac && m set x
  else (bool_decide (set = RESTRICTED_SET) && negb ac && bool_decide (x = spec_guest_ip s)) || m set x.
Proof.
  pose proof (egress_set_restricted s) as Hne. unfold claim_payload.
  assert (Hnil : (length es =? 0)%nat = true -> bool_decide (x ∈ es) = false).
  { intros ->%Nat.eqb_eq%nil_length_inv. apply bool_decide_eq_false. apply not_elem_of_nil. }
  destruct ac, (length es =? 0)%nat; cbn [app fold_left effect negb andb];
    rewrite ?Hnil by done; destruct (decide (set = egress_set s)) as [->|Hs].
  all: rewrite ?(bool_decide_eq_true_2 (egress_set s = egress_set s)) by done.
  all: rewrite ?(bool_decide_eq_false_2 (egress_set s = RESTRICTED_SET)) by done.
  all: rewrite ?(bool_decide_eq_false_2 (set = egress_set s)) by done.
  all: cbn [negb andb orb]; rewrite ?orb_false_r, ?andb_false_r; try done.
  all: rewrite ?andb_true_r; f_equal; f_equal; apply bool_decide_ext; by rewrite list_elem_of_singleton.
Qed.


Lemma update_effect s add remove m set x :
  fold_left effect (update_set_payload (egress_set s) add remove) m set x =
  if bool_decide (set = egress_set s)
  then (bool_decide (x ∈ add) || m set x) && negb (bool_decide (x ∈ remove)) else m set x.
Proof.
  unfold update_set_payload.
  assert (Hnil : forall l, (length l =? 0)%nat = true -> bool_decide (x ∈ l) = false).
  { intros l ->%Nat.eqb_eq%nil_length_inv. apply bool_decide_eq_false. apply not_elem_of_nil. }
  destruct (length add =? 0)%nat eqn:Ha, (length remove =? 0)%nat eqn:Hr; cbn [app fold_left effect];
    rewrite ?(Hnil _ Ha), ?(Hnil _ Hr); destruct (bool_decide (set = egress_set s)); cbn [andb orb negb];
    rewrite ?andb_true_r; try done; by rewrite andb_comm.
Qed.

(** ** Policies belong to tenants *)

(** What the slots promise: a map from sandboxes to the policies of their own. *)
Abbreviation policies := (gmap (list Z) (list (list Z))).

Section run.
Context {F : Type} `{Nft F} (a : LeaseAllocator) (Ha : alloc_ok a).









(** ** Operations *)







Lemma broker_done late cmds f f' :
  broker late cmds f = (true, f') ->
  forall s x, nft_members f' s x = fold_left effect cmds (nft_members f) s x.
Proof.
  unfold broker. destruct (nft_run cmds f) as [f1|] eqn:Hr; [|done].
  destruct late; [done|]. intros [= <-]. by apply nft_run_members.
Qed.


(** ** Each operation keeps the promise *)





End run.

Section exact.
Context {F : Type} `{Nft F} (tap_name : list Z -> list Z).






(** ** Rules *)




















(** ** What a packet meets *)





End exact.

(** ** A reset that fails *)

Section leak.
Context {F : Type} `{Nft F}.

(** [teardown_tap] gives the slot back before its policy is reset.  When the reset is refused,
    the slot is free all the same and no longer marked: the next sandbox with a policy gets that
    slot, and reaches the addresses of the old policy besides its own. *)
Lemma failed_reset_leaks n t i e name name' ds es late n' :
  by_tap (node_pool n) !! t = Some i -> slots (node_pool n) !! i = Some e ->
  sandbox e = Some name -> custom e = true -> bound (node_pool n) !! name' = None ->
  nft_run (recycle_payload (spec e)) (firewall n) = None ->
  setup_slot t (spec_guest_ip (spec e)) (spec_host_ip (spec e)) (spec_prefix (spec e)) (Some es) false
    (claim_slot name' ds (snd (teardown_slot t late n))) = (true, n') ->
  fst (teardown_slot t late n) = false /\
  forall x, nft_members (firewall n') (egress_set (spec e)) x =
            bool_decide (x ∈ es) || nft_members (firewall n) (egress_set (spec e)) x.
Proof.
  intros Ht He Hsb Hcu Hname Hreset Hsetup.
  assert (Htd : teardown_slot t late n = (false, mkNode (snd (SlotPool.unbind i (node_pool n))) (firewall n))).
  { unfold teardown_slot, SlotPool.recycle_tap. rewrite Ht, He, Hsb. unfold SlotPool.unbind.
    rewrite He, Hsb. unfold reset_slot. rewrite Hcu. unfold broker. by rewrite Hreset. }
  rewrite Htd in *. split; [done|]. intros x. cbn [snd] in Hsetup.
  pose proof (lookup_lt_Some _ _ _ He) as Hlt. unfold SlotPool.unbind in Hsetup. rewrite He, Hsb in Hsetup.
  unfold claim_slot, SlotPool.claim in Hsetup. cbn [node_pool snd bound free_slots slots by_tap firewall] in Hsetup.
  assert (Hdel : delete name (bound (node_pool n)) !! name' = None) by (by apply lookup_delete_None; right).
  rewrite Hdel, last_snoc, list_lookup_insert_eq in Hsetup by done.
  cbn [node_pool bound free_slots slots by_tap firewall spec] in Hsetup.
  unfold setup_slot, SlotPool.slot_for_tap in Hsetup. cbn [node_pool by_tap slots firewall] in Hsetup.
  rewrite Ht in Hsetup. cbn [mbind option_bind] in Hsetup. rewrite list_lookup_insert_eq in Hsetup by (by rewrite length_insert).
  cbn [mbind option_bind sandbox spec custom] in Hsetup.
  rewrite !bool_decide_eq_true_2, Z.eqb_refl in Hsetup by done. cbn [andb negb] in Hsetup.
  destruct (broker false _ _) as [[] f'] eqn:Hbr; [|done]. injection Hsetup as <-. cbn [firewall].
  rewrite (broker_done _ _ _ _ Hbr), claim_effect, bool_decide_eq_true_2 by done. done.
Qed.
End leak.

(** ** Examples *)

Module NetExamples.

Definition table : Type := members * list rule.
Definition plain_nft : Nft table.
Proof.
  refine {| nft_members := fst; nft_rules := snd; nft_covers := fun x y => bool_decide (x = y);
            nft_run := fun cmds m => Some (fold_left effect cmds (fst m), fold_left rule_effect cmds (snd m)) |}.
  - intros cmds f f' Hr s x. by injection Hr as <-.
  - intros cmds f f' Hr. by injection Hr as <-.
Defined.
#[local] Existing Instance plain_nft.





End NetExamples.
