(* ===== verification/StoreTables.v ===== *)
(** The tables of [vmond/src/function/store.rs] and the statements that its operations share.
    A call and the rows that refer to it (inputs, events, results, attempt statistics) are one
    value, [CallState], since the foreign keys of the schema tie them to the call.  A
    transaction is a state-and-error computation: an error leaves the database as it was.
    Messages are kept decoded; only the bytes of an input are kept as they were encoded, because
    the code compares them. *)

From S2P Require Import Prelude Decimal.

(** ** Transactions *)

Inductive store_error : Type := Invalid | NotFound | Busy | NotRunning | Engine | Sql.

Definition tx (S A : Type) : Type := S -> result store_error (A * S).

#[global] Instance tx_ret S : MRet (tx S) := fun A x s => Ok (x, s).
#[global] Instance tx_bind S : MBind (tx S) := fun A B k m s =>
  match m s with Ok (x, s') => k x s' | Err e => Err e end.

Definition fail {S A} (e : store_error) : tx S A := fun _ => Err e.
Definition lift {S A} (r : result store_error A) : tx S A := fun s => match r with Ok x => Ok (x, s) | Err e => Err e end.
Definition read {S A} (f : S -> A) : tx S A := fun s => Ok (f s, s).
Definition modify {S} (f : S -> S) : tx S () := fun s => Ok (tt, f s).
Definition require {S} (b : bool) (e : store_error) : tx S () := if b then mret tt else fail e.

Fixpoint for_each {S A} (f : A -> tx S ()) (l : list A) : tx S () :=
  match l with
  | [] => mret tt
  | x :: l => f x ;; for_each f l
  end.

Definition u64_i64 (v : Z) : result store_error Z := if v <? 2 ^ 63 then Ok v else Err Invalid.
Definition check_i64 {S} (v : Z) : tx S () := lift (u64_i64 v) ;; mret tt.
Definition check_opt_i64 {S} (v : option Z) : tx S () := match v with Some v => check_i64 v | None => mret tt end.

(** ** Messages *)

(** Strings and identifiers are their bytes; [BINARY] collation compares them. *)
Abbreviation bytes := (list Z).

Fixpoint bytes_leb (a b : bytes) : bool :=
  match a, b with
  | [], _ => true
  | _ :: _, [] => false
  | x :: a, y :: b => (x <? y) || ((x =? y) && bytes_leb a b)
  end.

(** [ORDER BY] a number. *)
Definition by_key {A} (f : A -> Z) (a b : A) : Prop := f a <= f b.
#[global] Instance by_key_dec {A} (f : A -> Z) a b : Decision (by_key f a b).
Proof. unfold by_key. apply _. Defined.

Inductive CallStatus : Type :=
  | CallUnspecified | CallPending | CallQueued | CallRunning | CallSucceeded | CallFailed | CallCancelling | CallCancelled.
#[global] Instance call_status_eq_dec : EqDecision CallStatus.
Proof. solve_decision. Defined.

Inductive CallType : Type := Unary | Generator | Batch | Actor.
#[global] Instance call_type_eq_dec : EqDecision CallType.
Proof. solve_decision. Defined.

(** The [INPUT_*] constants. *)
Inductive InputStatus : Type := InputQueued | InputLeased | InputRunning | InputSucceeded | InputFailed | InputCancelled.
#[global] Instance input_status_eq_dec : EqDecision InputStatus.
Proof. solve_decision. Defined.

Inductive AttemptStatus : Type := AttemptStarted | AttemptSucceeded | AttemptFailed | AttemptCancelled.
Inductive AttemptFailureKind : Type := FailUnspecified | FailUser | FailInfrastructure | FailCancelled.
Inductive StartupKind : Type := StartupUnspecified | StartupCold | StartupWarm | StartupSnapshot.

Inductive CallError : Type :=
  mkCallError (code message etype : bytes) (retryable : bool) (frames : list (bytes * bytes))
    (cause : option CallError) (details : list (bytes * bytes)).

Inductive Storage : Type := InlineData (data : bytes) | ArtifactData (digest : option (Z * bytes)).

Record ValueEnvelope : Type := mkValueEnvelope {
  schema_version : Z; serializer : Z; checksum : option (Z * bytes); storage : option Storage;
  compression : Z; uncompressed_size_bytes : Z }.

Inductive InputPayload : Type :=
  | PValue (v : ValueEnvelope)
  | PArguments (positional : list ValueEnvelope) (named : list (bytes * ValueEnvelope)).

Record CallInput : Type := mkCallInput { in_index : Z; input_id : bytes; in_payload : option InputPayload }.

Inductive Outcome : Type := OutValue (v : ValueEnvelope) | OutError (e : CallError).

Record CallResult : Type := mkCallResult {
  res_index : Z; res_sequence : Z; res_created : Z; res_input_id : bytes; res_input_index : Z;
  res_outcome : option Outcome; res_yield : option Z }.

Record AttemptStats : Type := mkAttemptStats {
  st_attempt_id : bytes; queued_millis : Z; startup_millis : Z; execution_millis : Z; cpu_millis : Z;
  peak_memory_bytes : Z }.

Inductive EventPayload : Type :=
  | EvStatus (s : CallStatus)
  | EvAttempt (attempt : bytes) (user infra : Z) (s : AttemptStatus) (startup : StartupKind) (worker : bytes)
      (failure : AttemptFailureKind) (error : option CallError)
  | EvResult (r : CallResult)
  | EvYield (r : CallResult)
  | EvLog (stream : Z) (data : bytes)
  | EvError (e : CallError)
  | EvInputClosed (committed : Z)
  | EvCancelRequested (reason request : bytes).

Record CallEvent : Type := mkCallEvent {
  ev_created : Z; ev_payload : EventPayload; ev_input_id : option bytes; ev_input_index : option Z;
  ev_attempt_id : option bytes }.

(** ** Rows *)

Record Input : Type := mkInput {
  payload : bytes; status : InputStatus; user_attempts : Z; infra_attempts : Z; available_ms : Z;
  lease_owner : option bytes; lease_expiry_ms : option Z; lease_generation : Z; attempt_id : option bytes;
  started_ms : option Z; finished_ms : option Z; result_blob : option CallResult; error_blob : option CallError;
  stats_blob : option AttemptStats }.

Record Call : Type := mkCall {
  revision_id : bytes; actor_id : option bytes; kind : CallType; call_st : CallStatus; input_closed : bool;
  created_ms : Z; updated_ms : Z; queued_ms : option Z; call_started_ms : option Z; call_finished_ms : option Z;
  queue_deadline_ms : option Z; execution_timeout_ms : Z; result_ttl_ms : Z; result_expiry_ms : option Z;
  cancel_reason : option bytes; call_error : option CallError; event_seq : Z; result_seq : Z }.

(** The rows of one call.  [attempt_stats] is in the order of insertion. *)
Record CallState : Type := mkCallState {
  call : Call; inputs : gmap Z Input; events : gmap Z CallEvent; results : gmap Z CallResult;
  attempt_stats : list (Z * bytes * AttemptStats) }.

Record LeaseToken : Type := mkLeaseToken {
  tk_call : bytes; tk_index : Z; tk_worker : bytes; tk_generation : Z }.

(** prost and sha2. *)
Class Prost : Type := { decode_input : bytes -> option CallInput; sha256 : bytes -> bytes }.

(** ** Statements on the rows of a call *)

Definition set_call (f : Call -> Call) : tx CallState () :=
  modify (fun c => mkCallState (f (call c)) (inputs c) (events c) (results c) (attempt_stats c)).
Definition set_inputs (f : gmap Z Input -> gmap Z Input) : tx CallState () :=
  modify (fun c => mkCallState (call c) (f (inputs c)) (events c) (results c) (attempt_stats c)).
(** [UPDATE inputs ... WHERE call_id=? AND input_index=?]. *)
Definition set_input (i : Z) (f : Input -> Input) : tx CallState () := set_inputs (alter f i).

(** [query_row] on an input that must be there. *)
Definition input_row (i : Z) : tx CallState Input :=
  c ← read (fun c => inputs c !! i); lift (ok_or c Sql).

Definition set_status (s : CallStatus) (now : Z) (c : Call) : Call :=
  mkCall (revision_id c) (actor_id c) (kind c) s (input_closed c) (created_ms c) now (queued_ms c) (call_started_ms c)
    (call_finished_ms c) (queue_deadline_ms c) (execution_timeout_ms c) (result_ttl_ms c) (result_expiry_ms c)
    (cancel_reason c) (call_error c) (event_seq c) (result_seq c).

Definition set_seqs (ev res : Z) (c : Call) : Call :=
  mkCall (revision_id c) (actor_id c) (kind c) (call_st c) (input_closed c) (created_ms c) (updated_ms c) (queued_ms c)
    (call_started_ms c) (call_finished_ms c) (queue_deadline_ms c) (execution_timeout_ms c) (result_ttl_ms c)
    (result_expiry_ms c) (cancel_reason c) (call_error c) ev res.

(** [finished_ms=?,updated_ms=?,result_expiry_ms=CASE WHEN result_ttl_ms=0 ...]. *)
Definition set_finished (s : CallStatus) (now : Z) (c : Call) : Call :=
  mkCall (revision_id c) (actor_id c) (kind c) s (input_closed c) (created_ms c) now (queued_ms c) (call_started_ms c)
    (Some now) (queue_deadline_ms c) (execution_timeout_ms c) (result_ttl_ms c)
    (if result_ttl_ms c =? 0 then None else Some (now + result_ttl_ms c))
    (cancel_reason c) (call_error c) (event_seq c) (result_seq c).

Definition set_error (e : CallError) (c : Call) : Call :=
  mkCall (revision_id c) (actor_id c) (kind c) (call_st c) (input_closed c) (created_ms c) (updated_ms c) (queued_ms c)
    (call_started_ms c) (call_finished_ms c) (queue_deadline_ms c) (execution_timeout_ms c) (result_ttl_ms c)
    (result_expiry_ms c) (cancel_reason c) (Some e) (event_seq c) (result_seq c).

Definition next_event_sequence : tx CallState Z :=
  set_call (fun c => set_seqs (event_seq c + 1) (result_seq c) c) ;; read (fun c => event_seq (call c)).
Definition next_result_sequence : tx CallState Z :=
  set_call (fun c => set_seqs (event_seq c) (result_seq c + 1) c) ;; read (fun c => result_seq (call c)).

Definition append_event_with_metadata (p : EventPayload) (inp : option bytes) (idx : option Z) (att : option bytes)
    (now : Z) : tx CallState Z :=
  seq ← next_event_sequence;
  check_i64 seq ;; check_i64 now ;;
  taken ← read (fun c => bool_decide (is_Some (events c !! seq)));
  require (negb taken) Sql ;;
  modify (fun c => mkCallState (call c) (inputs c) (<[seq := mkCallEvent now p inp idx att]> (events c)) (results c)
                     (attempt_stats c)) ;;
  mret seq.

Definition append_event (p : EventPayload) (now : Z) : tx CallState Z :=
  let '(inp, idx, att) :=
    match p with
    | EvResult r | EvYield r => (Some (res_input_id r), Some (res_input_index r), None)
    | EvAttempt a _ _ _ _ _ _ _ => (None, None, Some a)
    | _ => (None, None, None)
    end in
  append_event_with_metadata p inp idx att now.

Definition append_status_event (s : CallStatus) (now : Z) : tx CallState Z := append_event (EvStatus s) now.

Definition call_status : tx CallState CallStatus := read (fun c => call_st (call c)).
Definition call_kind : tx CallState CallType := read (fun c => kind (call c)).

Definition terminal_call (s : CallStatus) : bool :=
  match s with CallSucceeded | CallFailed | CallCancelled => true | _ => false end.

(** [INSERT INTO results]: both keys are unique. *)
Definition insert_result (i seq : Z) (r : CallResult) (now : Z) : tx CallState () :=
  check_i64 i ;; check_i64 seq ;; check_i64 now ;;
  c ← read (fun c => results c);
  require (negb (bool_decide (is_Some (c !! i)))
           && negb (existsb (fun kv => res_sequence (snd kv) =? seq) (map_to_list c))) Sql ;;
  modify (fun c => mkCallState (call c) (inputs c) (events c) (<[i := r]> (results c)) (attempt_stats c)).

Definition is_active (s : InputStatus) : bool := match s with InputLeased | InputRunning => true | _ => false end.
Definition is_open (s : InputStatus) : bool := match s with InputQueued | InputLeased | InputRunning => true | _ => false end.

Definition count_inputs (p : Input -> bool) (m : gmap Z Input) : nat := length (List.filter (fun kv => p (snd kv)) (map_to_list m)).

(** [SELECT COUNT( * ) ... status IN (?,?)]. *)
Definition active_count : tx CallState nat := read (fun c => count_inputs (fun r => is_active (status r)) (inputs c)).

Section prost.
Context `{Prost}.

Definition stored_input (i : Z) : tx CallState CallInput :=
  r ← input_row i; lift (ok_or (decode_input (payload r)) Engine).

Definition append_attempt_transition (l : LeaseToken) (s : AttemptStatus) (f : AttemptFailureKind)
    (e : option CallError) (startup : StartupKind) (now : Z) : tx CallState Z :=
  check_i64 (tk_index l) ;;
  r ← input_row (tk_index l);
  let a := default [] (attempt_id r) in
  require (negb (bool_decide (a = []))) Engine ;;
  inp ← stored_input (tk_index l);
  append_event_with_metadata (EvAttempt a (user_attempts r) (infra_attempts r) s startup (tk_worker l) f e)
    (Some (input_id inp)) (Some (tk_index l)) (Some a) now.
End prost.

Definition require_lease (l : LeaseToken) (statuses : list InputStatus) (now : Z) : tx CallState () :=
  check_i64 (tk_index l) ;;
  row ← read (fun c => inputs c !! tk_index l);
  match row with
  | Some r =>
      require (bool_decide (status r ∈ statuses) && bool_decide (default [] (lease_owner r) = tk_worker l)
               && (lease_generation r =? tk_generation l) && (now <? default 0 (lease_expiry_ms r))) Busy
  | None => fail Busy
  end.

Definition require_executable_call : tx CallState () :=
  s ← call_status;
  match s with
  | CallQueued | CallRunning => mret tt
  | CallCancelling | CallCancelled => fail Busy
  | _ => fail Invalid
  end.

Definition persist_attempt_stats (l : LeaseToken) (stats : option AttemptStats) : tx CallState () :=
  match stats with
  | None => mret tt
  | Some st =>
      check_i64 (tk_index l) ;;
      r ← input_row (tk_index l);
      let a := default [] (attempt_id r) in
      require (negb (bool_decide (a = [])) && bool_decide (st_attempt_id st = a)) Invalid ;;
      rows ← read (fun c => attempt_stats c);
      require (negb (existsb (fun '(i, a', _) => (i =? tk_index l) && bool_decide (a' = a)) rows)) Sql ;;
      modify (fun c => mkCallState (call c) (inputs c) (events c) (results c)
                         (attempt_stats c ++ [(tk_index l, a, st)])) ;;
      set_input (tk_index l) (fun r =>
        mkInput (payload r) (status r) (user_attempts r) (infra_attempts r) (available_ms r) (lease_owner r)
          (lease_expiry_ms r) (lease_generation r) (attempt_id r) (started_ms r) (finished_ms r) (result_blob r)
          (error_blob r) (Some st))
  end.

(** ** Ends of calls *)

Definition finalize_cancelled_tx (now : Z) : tx CallState () :=
  s ← call_status;
  if bool_decide (s = CallCancelled) then mret tt
  else
    check_i64 now ;; set_call (set_finished CallCancelled now) ;;
    append_status_event CallCancelled now ;; mret tt.

Definition complete_call_tx (now : Z) : tx CallState bool :=
  s ← call_status;
  if terminal_call s || bool_decide (s = CallCancelling) then mret false
  else
    c ← read id;
    let pending := count_inputs (fun r => is_open (status r)) (inputs c) in
    let failed := count_inputs (fun r => bool_decide (status r = InputFailed)) (inputs c) in
    if negb (input_closed (call c)) || (0 <? pending)%nat then mret false
    else
      let target := if bool_decide (kind (call c) = Batch) then CallSucceeded
                    else if (0 <? failed)%nat then CallFailed else CallSucceeded in
      check_i64 now ;; set_call (set_finished target now) ;;
      append_status_event target now ;; mret true.

(** The end of an input; [lease_owner] and [lease_expiry_ms] become [NULL]. *)
Definition finish_input (s : InputStatus) (now : Z) (res : option CallResult) (err : option CallError) (att : option bytes)
    (r : Input) : Input :=
  mkInput (payload r) s (user_attempts r) (infra_attempts r) (available_ms r) None None (lease_generation r)
    att (started_ms r) (Some now) res err (stats_blob r).

(** Back to the queue. *)
Definition requeue_input (at_ms : Z) (infra user : Z) (err : option CallError) (r : Input) : Input :=
  mkInput (payload r) InputQueued (user_attempts r + user) (infra_attempts r + infra) at_ms None None
    (lease_generation r) None (started_ms r) (finished_ms r) (result_blob r) err (stats_blob r).

Definition finish_error_tx (l : LeaseToken) (e : CallError) (now : Z) : tx CallState () :=
  check_i64 now ;; check_i64 (tk_index l) ;;
  set_input (tk_index l) (fun r => finish_input InputFailed now (result_blob r) (Some e) (attempt_id r) r) ;;
  set_call (fun c => if terminal_call (call_st c) then c else set_error e (set_finished CallFailed now c)) ;;
  append_event (EvError e) now ;; append_status_event CallFailed now ;; mret tt.
