(* ===== verification/StoreSpecs.v ===== *)
(** The function messages of [proto/vmon/v1/api.proto] that [vmond/src/function/store.rs] looks into: specifications and
    revisions of functions.  The fields of a specification that the store only stores are one field of
    bytes, [sp_rest]. *)

From S2P Require Import Prelude F64 StoreTables.

Abbreviation FunctionRef := (bytes * bytes)%type.
Record RevisionRef : Type := mkRevisionRef { rf_function : option FunctionRef; rf_id : bytes }.

#[global] Instance revision_ref_eq_dec : EqDecision RevisionRef.
Proof. solve_decision. Defined.

(** An artifact is looked at for its digest, an algorithm with a value. *)
Abbreviation ArtifactRef := (option (Z * bytes)).

(** A map of strings, in the order it is iterated in. *)
Abbreviation string_map := (list (bytes * bytes)).

(** [PMUnspecified] is also a number that is not a mode. *)
Inductive PackageMode : Type := PMUnspecified | PMModule | PMPackage | PMTrustedSerialized.

Record PackageSpec : Type := mkPackageSpec {
  pk_source : option ArtifactRef; pk_module : bytes; pk_lockfile : option ArtifactRef; pk_mode : PackageMode;
  pk_qualname : bytes; pk_abi_tag : option bytes }.

Inductive ImageSource : Type :=
  | PythonImage (version variant : bytes)
  | RegistryImage (reference : bytes)
  | DockerfileImage (context : option ArtifactRef) (path : bytes)
  | TemplateImage (name revision : bytes).

Record ImageSpec : Type := mkImageSpec { im_source : option ImageSource; im_environment : string_map; im_mounts : list (option ArtifactRef) }.

Inductive HighAvailabilityPolicy : Type := HaUnspecified | HaNone | HaHost | HaZone.

Record RetryPolicy : Type := mkRetryPolicy {
  max_attempts : Z; initial_backoff_millis : Z; max_backoff_millis : Z; backoff_multiplier : f64; retryable_codes : list bytes }.

Record TimeoutSpec : Type := mkTimeoutSpec { execution_timeout : Z; queue_timeout : Z; result_ttl : Z }.

Record WorkerSpec : Type := mkWorkerSpec {
  min_workers : Z; max_workers : Z; idle_timeout_millis : Z; max_calls_per_worker : Z; buffer_workers : Z; max_outstanding_inputs : Z }.

Record ConcurrencySpec : Type := mkConcurrencySpec { max_concurrent_calls : Z; serialize_actor_calls : bool }.

Record BatchingSpec : Type := mkBatchingSpec { batching_enabled : bool; max_batch_size : Z; max_wait_millis : Z }.

Record SerializerSpec : Type := mkSerializerSpec { ser_input : Z; ser_result : Z; ser_compression : Z; allow_trusted_python : bool }.

Inductive FunctionLifecycle : Type := LifeUnspecified | Stateless | Instance_ | LifeActor.
#[global] Instance lifecycle_eq_dec : EqDecision FunctionLifecycle.
Proof. solve_decision. Defined.

Record SecretRef : Type := mkSecretRef { secret_name : bytes; secret_version : option bytes }.
#[global] Instance secret_ref_eq_dec : EqDecision SecretRef.
Proof. solve_decision. Defined.

(** [sp_resources] holds the policy of the resources, [None] when it is not a known one. *)
Record FunctionSpec : Type := mkFunctionSpec {
  sp_function : option FunctionRef; sp_package : option PackageSpec; sp_image : option ImageSpec;
  sp_resources : option (option HighAvailabilityPolicy); sp_retry : option RetryPolicy; timeouts : option TimeoutSpec;
  sp_workers : option WorkerSpec; sp_concurrency : option ConcurrencySpec; sp_batching : option BatchingSpec;
  sp_serializer : option SerializerSpec; lifecycle : option FunctionLifecycle; sp_reproducibility : option string_map;
  sp_labels : string_map; sp_secrets : list SecretRef; sp_rest : bytes }.

Definition high_availability (s : FunctionSpec) : option HighAvailabilityPolicy := p ← sp_resources s; p.
Definition input_serializer (s : FunctionSpec) : option Z := ser_input <$> sp_serializer s.

Record FunctionSnapshotRecord : Type := mkFunctionSnapshotRecord {
  sn_id : option bytes; sn_revision : option RevisionRef; sn_artifact : option ArtifactRef; sn_protocol : Z; sn_created : Z;
  sn_rest : bytes }.

Inductive FunctionRevisionStatus : Type := RevisionReady | RevisionUnavailable.

(** [rv_digest] is the digest of the specification, in the record and as a column. *)
Record FunctionRevision : Type := mkFunctionRevision {
  rv_ref : option RevisionRef; rv_spec : option FunctionSpec; rv_created : Z; rv_digest : bytes; rv_status : FunctionRevisionStatus;
  rv_unavailable : list SecretRef; rv_snapshot : option FunctionSnapshotRecord }.
