(* ===== verification/StoreCalls.v ===== *)
(** The operations of [vmond/src/function/store.rs] on calls: creation and appended inputs,
    leases of single inputs and of batches, heartbeats, outcomes, retries, cancellation, expiry
    and recovery.  Fresh UUIDs, the clock, the fingerprints of requests and what prost encodes an
    input to are arguments.  A statement that visits the rows of several calls visits the calls
    one after the other, in an order the database does not promise; the calls do not
    depend on each other. *)

From S2P Require Import Prelude Decimal StoreTables StoreSpecs.

(** ** The database *)

Inductive ActorStatus : Type :=
  | ActorUnspecified | ActorCreating | ActorReady | ActorBusy | ActorStopped | ActorFailed | ActorDeleted.
#[global] Instance actor_status_eq_dec : EqDecision ActorStatus.
Proof. solve_decision. Defined.

Record ActorRecord : Type := mkActorRecord {
  ar_function : option RevisionRef; ar_status : ActorStatus; ar_created : Z; ar_updated : Z; ar_checkpoint : option bytes;
  ar_labels : list (bytes * bytes) }.
Record ActorRow : Type := mkActorRow {
  a_status : ActorStatus; a_record : ActorRecord; a_worker : option bytes; a_checkpoint : option bytes;
  operation_sequence : Z }.
Record Checkpoint : Type := mkCheckpoint {
  ck_actor : option bytes; ck_function : option RevisionRef; ck_sequence : Z; ck_state : option ValueEnvelope; ck_created : Z }.

(** [idempotency] maps a scope and a request to its fingerprint and resource. *)
Record Db : Type := mkDb {
  calls : gmap bytes CallState; revisions : gmap bytes FunctionRevision; actors : gmap bytes ActorRow;
  checkpoints : gmap bytes Checkpoint; idempotency : gmap (bytes * bytes) (bytes * bytes);
  artifacts : gset bytes; artifact_refs : gset (bytes * bytes * bytes) }.

Definition set_calls (f : gmap bytes CallState -> gmap bytes CallState) : tx Db () :=
  modify (fun d => mkDb (f (calls d)) (revisions d) (actors d) (checkpoints d) (idempotency d) (artifacts d) (artifact_refs d)).
Definition set_revisions (f : gmap bytes FunctionRevision -> gmap bytes FunctionRevision) : tx Db () :=
  modify (fun d => mkDb (calls d) (f (revisions d)) (actors d) (checkpoints d) (idempotency d) (artifacts d) (artifact_refs d)).
Definition set_actors (f : gmap bytes ActorRow -> gmap bytes ActorRow) : tx Db () :=
  modify (fun d => mkDb (calls d) (revisions d) (f (actors d)) (checkpoints d) (idempotency d) (artifacts d) (artifact_refs d)).
Definition set_checkpoints (f : gmap bytes Checkpoint -> gmap bytes Checkpoint) : tx Db () :=
  modify (fun d => mkDb (calls d) (revisions d) (actors d) (f (checkpoints d)) (idempotency d) (artifacts d) (artifact_refs d)).
Definition set_idempotency (f : gmap (bytes * bytes) (bytes * bytes) -> gmap (bytes * bytes) (bytes * bytes)) : tx Db () :=
  modify (fun d => mkDb (calls d) (revisions d) (actors d) (checkpoints d) (f (idempotency d)) (artifacts d) (artifact_refs d)).
Definition set_refs (f : gset (bytes * bytes * bytes) -> gset (bytes * bytes * bytes)) : tx Db () :=
  modify (fun d => mkDb (calls d) (revisions d) (actors d) (checkpoints d) (idempotency d) (artifacts d) (f (artifact_refs d))).

(** Statements on the rows of one call; [e] is the error when there is no such call. *)
Definition on_call {A} (e : store_error) (id : bytes) (m : tx CallState A) : tx Db A := fun d =>
  match calls d !! id with
  | None => Err e
  | Some c =>
      match m c with
      | Ok (x, c') =>
          Ok (x, mkDb (<[id := c']> (calls d)) (revisions d) (actors d) (checkpoints d) (idempotency d) (artifacts d) (artifact_refs d))
      | Err e => Err e
      end
  end.

Fixpoint map_tx {S A B} (f : A -> tx S B) (l : list A) : tx S (list B) :=
  match l with
  | [] => mret []
  | x :: l => y ← f x; ys ← map_tx f l; mret (y :: ys)
  end.

(** One visit of every call. *)
Definition for_calls {A} (m : bytes -> tx CallState A) : tx Db (list (bytes * A)) :=
  ids ← read (fun d => map fst (map_to_list (calls d)));
  map_tx (fun id => x ← on_call Sql id (m id); mret (id, x)) ids.

(** ** Idempotency and artifacts *)

Definition idempotent_resource (scope request fingerprint : bytes) : tx Db (option bytes) :=
  if bool_decide (request = []) then mret None
  else
    row ← read (fun d => idempotency d !! (scope, request));
    match row with
    | Some (existing, id) => if bool_decide (existing = fingerprint) then mret (Some id) else fail Invalid
    | None => mret None
    end.

Definition put_idempotency (scope request fingerprint resource : bytes) (now : Z) : tx Db () :=
  if bool_decide (request = []) then mret tt
  else
    check_i64 now ;;
    row ← read (fun d => idempotency d !! (scope, request));
    require (negb (bool_decide (is_Some row))) Sql ;;
    set_idempotency (insert (scope, request) (fingerprint, resource)).

Definition DIGEST_SHA256 : Z := 1.

Definition digest_hex (d : option (Z * bytes)) : option bytes :=
  '(alg, v) ← d; if (alg =? DIGEST_SHA256) && (length v =? 32)%nat then Some (hex_encode v) else None.

Definition validate_digest_hex (d : bytes) : bool :=
  (length d =? 64)%nat && forallb (fun b => is_ascii_digit b || ((97 <=? b) && (b <=? 102))) d.

Definition add_artifact_ref (digest owner_kind owner : bytes) : tx Db () :=
  require (validate_digest_hex digest) Invalid ;;
  known ← read (fun d => bool_decide (digest ∈ artifacts d));
  require known Invalid ;;
  set_refs (fun r => {[(digest, owner_kind, owner)]} ∪ r).

Definition envelope_artifacts (e : ValueEnvelope) : list bytes :=
  match storage e with
  | Some (ArtifactData d) => match digest_hex d with Some h => [h] | None => [] end
  | _ => []
  end.

Definition call_input_artifacts (i : CallInput) : list bytes :=
  match in_payload i with
  | Some (PValue v) => envelope_artifacts v
  | Some (PArguments pos named) => concat (map envelope_artifacts pos) ++ concat (map (fun kv => envelope_artifacts (snd kv)) named)
  | None => []
  end.

Definition result_artifacts (r : CallResult) : list bytes :=
  match res_outcome r with Some (OutValue v) => envelope_artifacts v | _ => [] end.

(** [format!("{id}:{index}")]. *)
Definition owner_key (id : bytes) (i : Z) : bytes := id ++ 58 :: decimal i.

(** ** Validation *)

Definition valid_serializer (s : Z) : bool := (1 <=? s) && (s <=? 3).

(** A candidate: when it became available, when its call was created, the call and the index. *)
Abbreviation candidate := (Z * Z * bytes * Z)%type.

Section calls.
Context `{Prost}.

Definition validate_envelope (v : ValueEnvelope) : result store_error () :=
  if schema_version v =? 0 then Err Invalid
  else if negb (valid_serializer (serializer v)) then Err Invalid
  else
    '(alg, sum) <-? ok_or (checksum v) Invalid ;
    if negb (alg =? DIGEST_SHA256) || negb (length sum =? 32)%nat then Err Invalid
    else
      st <-? ok_or (storage v) Invalid ;
      match st with
      | InlineData data =>
          if compression v =? 0 then
            if negb (Z.of_nat (length data) =? uncompressed_size_bytes v) || negb (bool_decide (sha256 data = sum))
            then Err Invalid else Ok ()
          else Ok ()
      | ArtifactData d => match digest_hex d with Some _ => Ok () | None => Err Invalid end
      end.

Fixpoint all_ok {A} (f : A -> result store_error ()) (l : list A) : result store_error () :=
  match l with [] => Ok () | x :: l => _ <-? f x ; all_ok f l end.

Definition validate_call_input (i : CallInput) : result store_error () :=
  p <-? ok_or (in_payload i) Invalid ;
  match p with
  | PValue v => validate_envelope v
  | PArguments pos named => _ <-? all_ok validate_envelope pos ; all_ok (fun kv => validate_envelope (snd kv)) named
  end.

Definition validate_input_serializer (i : CallInput) (expected : Z) : result store_error () :=
  let fits v := serializer v =? expected in
  let valid := match in_payload i with
               | Some (PValue v) => fits v
               | Some (PArguments pos named) => forallb fits pos && forallb (fun kv => fits (snd kv)) named
               | None => false
               end in
  if valid then Ok () else Err Invalid.

Inductive Receiver : Type := RActor (actor : option bytes) (method : bytes) | RService (key method : bytes).
Record CallTarget : Type := mkCallTarget { tg_function : option RevisionRef; tg_receiver : option Receiver }.

(** [cr_type] is [None] for an unknown or unspecified type. *)
Record CreateCallRequest : Type := mkCreateCallRequest {
  cr_type : option CallType; cr_target : option CallTarget; cr_inputs : list CallInput; cr_closed : bool;
  cr_result_ttl : option Z; cr_request_id : bytes }.

(** The loop over the initial inputs. *)
Fixpoint validate_inputs (expected : Z) (ids : list bytes) (l : list CallInput) : result store_error () :=
  match l with
  | [] => Ok ()
  | i :: l =>
      if negb (in_index i =? expected) then Err Invalid
      else if bool_decide (input_id i = []) || bool_decide (input_id i ∈ ids) then Err Invalid
      else _ <-? validate_call_input i ; validate_inputs (expected + 1) (input_id i :: ids) l
  end.

Definition validate_call_request (r : CreateCallRequest) : result store_error () :=
  k <-? ok_or (cr_type r) Invalid ;
  t <-? ok_or (cr_target r) Invalid ;
  if match tg_function t with
     | Some f => bool_decide (rf_id f = []) || bool_decide (rf_function f = None)
     | None => true
     end then Err Invalid
  else
    _ <-? match k, tg_receiver t with
          | Actor, Some (RActor (Some _) m) => if bool_decide (m = []) then Err Invalid else Ok ()
          | Actor, _ => Err Invalid
          | _, Some (RActor _ _) => Err Invalid
          | _, Some (RService key m) => if bool_decide (key = []) || bool_decide (m = []) then Err Invalid else Ok ()
          | _, None => Ok ()
          end ;
    if negb (bool_decide (k = Batch))
       && (negb (length (cr_inputs r) =? 1)%nat || negb (default (-1) (in_index <$> head (cr_inputs r)) =? 0) || negb (cr_closed r))
    then Err Invalid
    else validate_inputs 0 [] (cr_inputs r).

Definition reject_unroutable_function_ha (s : FunctionSpec) : result store_error () :=
  match high_availability s with Some HaHost | Some HaZone => Err NotRunning | _ => Ok () end.

Definition revision_by_id (id : bytes) : tx Db FunctionRevision :=
  r ← read (fun d => revisions d !! id); lift (ok_or r NotFound).
Definition actor_by_id (id : bytes) : tx Db ActorRow :=
  r ← read (fun d => actors d !! id); lift (ok_or r NotFound).

(** ** Calls and inputs *)

Record CallRecord : Type := mkCallRecord {
  rec_status : CallStatus; rec_closed : bool; rec_input_count : Z; rec_result_count : Z; rec_created : Z;
  rec_updated : Z; rec_error : option CallError }.

Definition record_of (c : CallState) : CallRecord :=
  mkCallRecord (call_st (call c)) (input_closed (call c)) (Z.of_nat (size (inputs c))) (result_seq (call c))
    (created_ms (call c)) (updated_ms (call c)) (call_error (call c)).

Definition call_record (id : bytes) : tx Db CallRecord := on_call NotFound id (read record_of).

Definition get_call (id : bytes) : tx Db CallRecord := call_record id.

(** [INSERT INTO inputs]; [enc] is the encoded message. *)
Definition new_input (enc : bytes) (now : Z) : Input :=
  mkInput enc InputQueued 0 0 now None None 0 None None None None None None.

Definition insert_input (i : CallInput) (enc : bytes) (now : Z) : tx CallState () :=
  check_i64 (in_index i) ;; check_i64 now ;;
  taken ← read (fun c => bool_decide (is_Some (inputs c !! in_index i)));
  require (negb taken) Sql ;;
  set_inputs (insert (in_index i) (new_input enc now)).

Definition expected_lifecycle (r : option Receiver) : FunctionLifecycle :=
  match r with Some (RActor _ _) => LifeActor | Some (RService _ _) => Instance_ | None => Stateless end.

Definition target_actor (r : option Receiver) : option bytes :=
  match r with Some (RActor a _) => a | _ => None end.

(** The row of a new call. *)
Definition new_call (r : CreateCallRequest) (k : CallType) (actor : option bytes) (rev : bytes) (spec : FunctionSpec) (now : Z) : Call :=
  let queue_deadline := t ← timeouts spec; if 0 <? queue_timeout t then Some (saturating_add 64 now (queue_timeout t)) else None in
  let ttl := match cr_result_ttl r with Some v => v | None => default 0 (result_ttl <$> timeouts spec) end in
  let st := if (length (cr_inputs r) =? 0)%nat && negb (cr_closed r) then CallPending else CallQueued in
  mkCall rev actor k st (cr_closed r) now now (Some now) None None queue_deadline
    (default 0 (execution_timeout <$> timeouts spec)) ttl None None None 0 0.

(** The checks of the target, and the spec of its revision. *)
Definition target_spec (rev : RevisionRef) (receiver : option Receiver) (ins : list CallInput) : tx Db FunctionSpec :=
  revision ← revision_by_id (rf_id rev);
  require (bool_decide ((rf ← rv_ref revision; rf_function rf) = rf_function rev)) Invalid ;;
  match receiver with
  | Some (RActor a _) =>
      a ← lift (ok_or a Invalid);
      row ← actor_by_id a;
      require (bool_decide (ar_function (a_record row) = Some rev)) Invalid
  | _ => mret tt
  end ;;
  spec ← lift (ok_or (rv_spec revision) Engine);
  lift (reject_unroutable_function_ha spec) ;;
  require (bool_decide (default Stateless (lifecycle spec) = expected_lifecycle receiver)) Invalid ;;
  ser ← lift (ok_or (input_serializer spec) Engine);
  lift (all_ok (fun i => validate_input_serializer i ser) ins) ;;
  mret spec.

(** The [INSERT] of a call. *)
Definition insert_call (id : bytes) (row : Call) : tx Db () :=
  check_i64 (created_ms row) ;; check_opt_i64 (queue_deadline_ms row) ;;
  check_i64 (execution_timeout_ms row) ;; check_i64 (result_ttl_ms row) ;;
  taken ← read (fun d => bool_decide (is_Some (calls d !! id)));
  require (negb taken) Sql ;;
  set_calls (insert id (mkCallState row ∅ ∅ ∅ [])).

(** The initial inputs with their artifacts. *)
Definition insert_call_inputs (enc : CallInput -> bytes) (id : bytes) (ins : list CallInput) (now : Z) : tx Db () :=
  for_each (fun i =>
    on_call Sql id (insert_input i (enc i) now) ;;
    for_each (fun digest => add_artifact_ref digest (bs "input") (owner_key id (in_index i))) (call_input_artifacts i)) ins.

Definition create_call (enc : CallInput -> bytes) (fingerprint id : bytes) (r : CreateCallRequest) (now : Z) : tx Db CallRecord :=
  lift (validate_call_request r) ;;
  match cr_type r, cr_target r with
  | Some k, Some (mkCallTarget (Some rev) receiver) =>
      found ← idempotent_resource (bs "create_call") (cr_request_id r) fingerprint;
      match found with
      | Some resource => call_record resource
      | None =>
          spec ← target_spec rev receiver (cr_inputs r);
          require (bool_decide (NoDup (map input_id (cr_inputs r)))) Invalid ;;
          let row := new_call r k (target_actor receiver) (rf_id rev) spec now in
          insert_call id row ;;
          insert_call_inputs enc id (cr_inputs r) now ;;
          on_call Sql id (append_status_event (call_st row) now) ;;
          put_idempotency (bs "create_call") (cr_request_id r) fingerprint id now ;;
          call_record id
      end
  | _, _ => fail Invalid
  end.

Definition set_queued (now : Z) (c : Call) : Call :=
  mkCall (revision_id c) (actor_id c) (kind c) CallQueued (input_closed c) (created_ms c) now (Some now) (call_started_ms c)
    (call_finished_ms c) (queue_deadline_ms c) (execution_timeout_ms c) (result_ttl_ms c) (result_expiry_ms c)
    (cancel_reason c) (call_error c) (event_seq c) (result_seq c).

(** The part of [append_input] on the rows of the call; the result is the count, and whether
    the input is new. *)
Definition append_input_rows (i : CallInput) (enc : bytes) (now : Z) : tx CallState (Z * bool) :=
  c ← read id;
  let count := Z.of_nat (size (inputs c)) in
  require (negb (input_closed (call c))) Invalid ;;
  if in_index i <? count then
    row ← input_row (in_index i);
    require (bool_decide (payload row = enc)) Invalid ;;
    mret (count, false)
  else
    require (in_index i =? count) Invalid ;;
    for_each (fun kv => existing ← lift (ok_or (decode_input (payload (snd kv))) Engine);
                        require (negb (bool_decide (input_id existing = input_id i))) Invalid) (map_to_list (inputs c)) ;;
    insert_input i enc now ;;
    (if bool_decide (call_st (call c) = CallPending)
     then set_call (set_queued now) ;; append_status_event CallQueued now ;; mret tt else mret tt) ;;
    mret (count + 1, true).

Definition append_input (call_id : bytes) (i : CallInput) (enc : bytes) (now : Z) : tx Db Z :=
  require (negb (bool_decide (input_id i = []))) Invalid ;;
  lift (validate_call_input i) ;;
  row ← on_call NotFound call_id (read (fun c => call c));
  require (bool_decide (call_st row ∈ [CallPending; CallQueued; CallRunning])) Invalid ;;
  revision ← revision_by_id (revision_id row);
  ser ← lift (ok_or (spec ← rv_spec revision; input_serializer spec) Engine);
  lift (validate_input_serializer i ser) ;;
  added ← on_call NotFound call_id (append_input_rows i enc now);
  (if snd added : bool then for_each (fun digest => add_artifact_ref digest (bs "input") (owner_key call_id (in_index i))) (call_input_artifacts i)
   else mret tt) ;;
  mret (fst added).

Definition set_closed (now : Z) (c : Call) : Call :=
  mkCall (revision_id c) (actor_id c) (kind c) (call_st c) true (created_ms c) now (queued_ms c) (call_started_ms c)
    (call_finished_ms c) (queue_deadline_ms c) (execution_timeout_ms c) (result_ttl_ms c) (result_expiry_ms c)
    (cancel_reason c) (call_error c) (event_seq c) (result_seq c).

Definition close_inputs_rows (expected_count now : Z) : tx CallState CallRecord :=
  c ← read id;
  require (Z.of_nat (size (inputs c)) =? expected_count) Invalid ;;
  (if input_closed (call c) then mret tt
   else check_i64 now ;; set_call (set_closed now) ;; append_event (EvInputClosed (Z.of_nat (size (inputs c)))) now ;; mret tt) ;;
  complete_call_tx now ;; read record_of.

Definition close_inputs (call_id : bytes) (expected_count now : Z) : tx Db CallRecord :=
  on_call NotFound call_id (close_inputs_rows expected_count now).

(** ** Queue deadlines *)

Definition deadline_error : CallError :=
  mkCallError (bs "queue_deadline_exceeded") (bs "call exceeded its queue deadline") (bs "QueueDeadlineExceeded") false [] None [].

Definition set_deadline_failed (now : Z) (c : Call) : Call :=
  mkCall (revision_id c) (actor_id c) (kind c) CallFailed (input_closed c) (created_ms c) now (queued_ms c) (call_started_ms c)
    (Some now) (queue_deadline_ms c) (execution_timeout_ms c) (result_ttl_ms c) (result_expiry_ms c)
    (cancel_reason c) (Some deadline_error) (event_seq c) (result_seq c).

(** The token of the lease that a row carries. *)
Definition row_token (call_id : bytes) (kv : Z * Input) : LeaseToken :=
  mkLeaseToken call_id (fst kv) (default [] (lease_owner (snd kv))) (lease_generation (snd kv)).

Definition expire_deadline (call_id : bytes) (now : Z) : tx CallState () :=
  c ← read id;
  if bool_decide (call_st (call c) ∈ [CallQueued; CallPending; CallRunning])
     && match queue_deadline_ms (call c) with Some d => d <=? now | None => false end
  then
    for_each (fun kv =>
        if is_active (status (snd kv)) && bool_decide (is_Some (attempt_id (snd kv)))
        then append_attempt_transition (row_token call_id kv) AttemptFailed FailInfrastructure (Some deadline_error) StartupUnspecified now ;; mret tt
        else mret tt) (map_to_list (inputs c)) ;;
    set_call (set_deadline_failed now) ;;
    set_inputs (fmap (fun r => if is_open (status r)
                               then finish_input InputFailed now (result_blob r) (error_blob r) None r else r)) ;;
    append_event (EvError deadline_error) now ;; append_status_event CallFailed now ;; mret tt
  else mret tt.

Definition expire_deadlines_tx (now : Z) : tx Db () :=
  check_i64 now ;; for_calls (fun id => expire_deadline id now) ;; mret tt.

(** ** Leases *)

(** [c.status IN (?,?) AND (c.queue_deadline_ms IS NULL OR c.queue_deadline_ms>?)]. *)
Definition call_leasable (now : Z) (c : Call) : bool :=
  bool_decide (call_st c ∈ [CallQueued; CallRunning])
  && match queue_deadline_ms c with Some d => now <? d | None => true end.
Definition input_leasable (now : Z) (r : Input) : bool :=
  bool_decide (status r = InputQueued) && (available_ms r <=? now).

Definition candidate_leb (a b : candidate) : bool :=
  let '(a1, a2, a3, a4) := a in let '(b1, b2, b3, b4) := b in
  (a1 <? b1) || ((a1 =? b1) && ((a2 <? b2) || ((a2 =? b2) &&
    ((bytes_leb a3 b3 && negb (bool_decide (a3 = b3))) || (bool_decide (a3 = b3) && (a4 <=? b4)))))).

(** [ORDER BY ... LIMIT 1]. *)
Fixpoint first_by {A} (le : A -> A -> bool) (l : list A) : option A :=
  match l with
  | [] => None
  | x :: l => match first_by le l with Some y => Some (if le x y then x else y) | None => Some x end
  end.

Definition call_candidates (revision : option bytes) (exclude_batch : bool) (now : Z) (id : bytes) (c : CallState) : list candidate :=
  if call_leasable now (call c)
     && match revision with Some r => bool_decide (revision_id (call c) = r) | None => true end
     && (negb exclude_batch || negb (bool_decide (kind (call c) = Batch)))
  then omap (fun kv => if input_leasable now (snd kv)
                       then Some (available_ms (snd kv), created_ms (call c), id, fst kv) else None) (map_to_list (inputs c))
  else [].

Definition candidates (revision : option bytes) (exclude_batch : bool) (now : Z) (d : Db) : list candidate :=
  concat (map (fun kv => call_candidates revision exclude_batch now (fst kv) (snd kv)) (map_to_list (calls d))).

(** Eligible inputs by revision. *)
Record QueuedRevision : Type := mkQueuedRevision { qr_revision : bytes; oldest_available_ms : Z; queued_inputs : nat }.

Definition queued_leb (a b : QueuedRevision) : bool :=
  (oldest_available_ms a <? oldest_available_ms b)
  || ((oldest_available_ms a =? oldest_available_ms b) && bytes_leb (qr_revision a) (qr_revision b)).

Definition queued_le (a b : QueuedRevision) : Prop := queued_leb a b = true.
#[global] Instance queued_le_dec a b : Decision (queued_le a b).
Proof. unfold queued_le. apply _. Defined.

Definition queued_rows (now : Z) (d : Db) : list (bytes * Z) :=
  concat (map (fun kv => map (fun x : candidate => (revision_id (call (snd kv)), fst (fst (fst x))))
                           (call_candidates None false now (fst kv) (snd kv))) (map_to_list (calls d))).

(** [GROUP BY c.revision_id ORDER BY MIN(i.available_ms),c.revision_id]. *)
Definition queued_groups (rows : list (bytes * Z)) : list QueuedRevision :=
  merge_sort queued_le
    (omap (fun rev => let avail := map snd (List.filter (fun x => bool_decide (fst x = rev)) rows) in
                      m ← first_by Z.leb avail; Some (mkQueuedRevision rev m (length avail)))
          (remove_dups (map fst rows))).

Definition queued_revisions (now : Z) : tx Db (list QueuedRevision) :=
  expire_deadlines_tx now ;; check_i64 now ;; read (fun d => queued_groups (queued_rows now d)).

Record LeasedInput : Type := mkLeasedInput {
  l_token : LeaseToken; l_revision : FunctionRevision; l_input : CallInput; l_call : CallRecord;
  l_user_attempts : Z; l_infra_attempts : Z; l_deadline : option Z; l_attempt_id : bytes; l_available : Z }.

Definition lease_row (worker attempt : bytes) (expiry : Z) (r : Input) : Input :=
  mkInput (payload r) InputLeased (user_attempts r) (infra_attempts r) (available_ms r) (Some worker) (Some expiry)
    (lease_generation r + 1) (Some attempt) (started_ms r) (finished_ms r) (result_blob r) (error_blob r) (stats_blob r).

(** The [UPDATE] of a lease and the rows read after it; [None] when no row was changed. *)
Definition lease_input (call_id worker attempt : bytes) (now lease_ms : Z) (rev : FunctionRevision) (ok : CallState -> Input -> bool)
    (i : Z) : tx CallState (option LeasedInput) :=
  row ← input_row i;
  let expiry := saturating_add 64 now lease_ms in
  check_i64 expiry ;; check_i64 now ;;
  c ← read id;
  if negb (ok c row) then mret None
  else
    set_input i (lease_row worker attempt expiry) ;;
    inp ← stored_input i;
    c ← read id;
    let t := execution_timeout_ms (call c) in
    mret (Some (mkLeasedInput (mkLeaseToken call_id i worker (lease_generation row + 1)) rev inp (record_of c)
                  (user_attempts row) (infra_attempts row) (if 0 <? t then Some (saturating_add 64 now t) else None)
                  attempt (available_ms row))).

Definition lease_next_matching (revision : option bytes) (worker attempt : bytes) (now lease_ms : Z) (exclude_batch : bool)
  : tx Db (option LeasedInput) :=
  require (negb (bool_decide (worker = [])) && negb (lease_ms =? 0)) Invalid ;;
  expire_deadlines_tx now ;;
  cands ← read (candidates revision exclude_batch now);
  match first_by candidate_leb cands with
  | None => mret None
  | Some (_, _, call_id, i) =>
      c ← on_call Sql call_id (read (fun c => call c));
      rev ← revision_by_id (revision_id c);
      leased ← on_call Sql call_id
        (lease_input call_id worker attempt now lease_ms rev (fun _ r => bool_decide (status r = InputQueued)) i);
      match leased with Some item => mret (Some item) | None => fail Busy end
  end.

Definition lease_next (worker attempt : bytes) (now lease_ms : Z) : tx Db (option LeasedInput) :=
  lease_next_matching None worker attempt now lease_ms false.
Definition lease_next_for_revision (revision worker attempt : bytes) (now lease_ms : Z) : tx Db (option LeasedInput) :=
  lease_next_matching (Some revision) worker attempt now lease_ms false.
Definition lease_next_non_batch_for_revision (revision worker attempt : bytes) (now lease_ms : Z) : tx Db (option LeasedInput) :=
  lease_next_matching (Some revision) worker attempt now lease_ms true.

(** Calls with an eligible input: the earliest of its inputs, when it was created, its id and
    the number of such inputs. *)
Definition batch_candidate (revision : bytes) (now : Z) (kv : bytes * CallState) : option (Z * Z * bytes * nat) :=
  let '(id, c) := kv in
  if bool_decide (revision_id (call c) = revision) && bool_decide (kind (call c) = Batch) && call_leasable now (call c) then
    let avail := omap (fun kv => if input_leasable now (snd kv) then Some (available_ms (snd kv)) else None) (map_to_list (inputs c)) in
    m ← first_by Z.leb avail; Some (m, created_ms (call c), id, length avail)
  else None.

Definition batch_leb (a b : Z * Z * bytes * nat) : bool :=
  let '(a1, a2, a3, _) := a in let '(b1, b2, b3, _) := b in
  (a1 <? b1) || ((a1 =? b1) && ((a2 <? b2) || ((a2 =? b2) && bytes_leb a3 b3))).

Definition queued_batch_for_revision (revision : bytes) (now : Z) : tx Db (option (bytes * Z * nat)) :=
  require (negb (bool_decide (revision = []))) Invalid ;;
  check_i64 now ;;
  b ← read (fun d => first_by batch_leb (omap (batch_candidate revision now) (map_to_list (calls d))));
  mret ('(m, _, id, n) ← b; Some (id, m, n)).

(** The batch: one lease per candidate, each with an attempt of its own. *)
Fixpoint lease_all (call_id worker : bytes) (attempts : Z -> bytes) (now lease_ms : Z) (rev : FunctionRevision) (revision : bytes)
    (idxs : list Z) : tx CallState (list LeasedInput) :=
  match idxs with
  | [] => mret []
  | i :: idxs =>
      item ← lease_input call_id worker (attempts i) now lease_ms rev
        (fun c r => input_leasable now r && bool_decide (revision_id (call c) = revision) && bool_decide (kind (call c) = Batch)
                    && call_leasable now (call c)) i;
      rest ← lease_all call_id worker attempts now lease_ms rev revision idxs;
      mret (match item with Some x => x :: rest | None => rest end)
  end.

Definition lease_batch_for_revision (revision worker : bytes) (attempts : Z -> bytes) (now lease_ms : Z) (max_size : nat)
  : tx Db (list LeasedInput) :=
  require (negb (bool_decide (revision = [])) && negb (bool_decide (worker = [])) && negb (lease_ms =? 0) && negb (max_size =? 0)%nat) Invalid ;;
  expire_deadlines_tx now ;;
  b ← read (fun d => first_by batch_leb (omap (batch_candidate revision now) (map_to_list (calls d))));
  match b with
  | None => mret []
  | Some (_, _, call_id, _) =>
      c ← on_call Sql call_id (read id);
      let idxs := merge_sort Z.le (map fst (List.filter (fun kv => input_leasable now (snd kv)) (map_to_list (inputs c)))) in
      rev ← revision_by_id revision;
      on_call Sql call_id (lease_all call_id worker attempts now lease_ms rev revision (take max_size idxs))
  end.

Definition set_expiry (expiry : Z) (r : Input) : Input :=
  mkInput (payload r) (status r) (user_attempts r) (infra_attempts r) (available_ms r) (lease_owner r) (Some expiry)
    (lease_generation r) (attempt_id r) (started_ms r) (finished_ms r) (result_blob r) (error_blob r) (stats_blob r).

(** One [UPDATE] whose condition is the lease. *)
Definition heartbeat_rows (l : LeaseToken) (now lease_ms : Z) : tx CallState () :=
  let expiry := saturating_add 64 now lease_ms in
  check_i64 expiry ;; check_i64 (tk_index l) ;; check_i64 (tk_generation l) ;; check_i64 now ;;
  row ← read (fun c => inputs c !! tk_index l);
  require (match row with
           | Some r => bool_decide (lease_owner r = Some (tk_worker l)) && (lease_generation r =? tk_generation l)
                       && is_active (status r) && match lease_expiry_ms r with Some e => now <? e | None => false end
           | None => false
           end) Busy ;;
  set_input (tk_index l) (set_expiry expiry).

Definition heartbeat (l : LeaseToken) (now lease_ms : Z) : tx Db () := on_call Busy (tk_call l) (heartbeat_rows l now lease_ms).
End calls.
