(* ===== verification/StoreOutcomes.v ===== *)
(** The rest of the call operations of [vmond/src/function/store.rs]: what the holder of a lease
    reports, cancellation, and the passes that expire leases and results and recover after a
    restart. *)

From S2P Require Import Prelude Decimal StoreTables StoreSpecs StoreCalls.

Section outcomes.
Context `{Prost}.

(** ** Reports of the holder of a lease *)

Definition start_input (now : Z) (r : Input) : Input :=
  mkInput (payload r) InputRunning (if user_attempts r =? 0 then 1 else user_attempts r) (infra_attempts r) (available_ms r)
    (lease_owner r) (lease_expiry_ms r) (lease_generation r) (attempt_id r)
    (Some (default now (started_ms r))) (finished_ms r) (result_blob r) (error_blob r) (stats_blob r).

Definition set_started (now : Z) (c : Call) : Call :=
  mkCall (revision_id c) (actor_id c) (kind c) CallRunning (input_closed c) (created_ms c) now (queued_ms c)
    (Some (default now (call_started_ms c))) (call_finished_ms c) (queue_deadline_ms c) (execution_timeout_ms c)
    (result_ttl_ms c) (result_expiry_ms c) (cancel_reason c) (call_error c) (event_seq c) (result_seq c).

Definition mark_running_rows (l : LeaseToken) (now : Z) (startup : StartupKind) : tx CallState () :=
  require_lease l [InputLeased] now ;;
  require_executable_call ;;
  check_i64 now ;;
  set_input (tk_index l) (start_input now) ;;
  s ← call_status;
  (if bool_decide (s = CallQueued) then set_call (set_started now) ;; append_status_event CallRunning now ;; mret tt
   else mret tt) ;;
  append_attempt_transition l AttemptStarted FailUnspecified None startup now ;; mret tt.

Definition mark_running (l : LeaseToken) (now : Z) (startup : StartupKind) : tx Db () :=
  on_call Busy (tk_call l) (mark_running_rows l now startup).

(** [succeed] on a generator: the results are its yields. *)
Definition succeed_generator (l : LeaseToken) (stats : option AttemptStats) (now : Z) : tx CallState () :=
  check_i64 now ;;
  set_input (tk_index l) (fun r => finish_input InputSucceeded now None (error_blob r) (attempt_id r) r) ;;
  persist_attempt_stats l stats ;;
  append_attempt_transition l AttemptSucceeded FailUnspecified None StartupUnspecified now ;;
  complete_call_tx now ;; mret tt.

(** The result as it is stored. *)
Definition stored_result (l : LeaseToken) (res : CallResult) (seq : Z) (now : Z) : tx CallState CallResult :=
  inp ← (if bool_decide (res_input_id res = []) then i ← stored_input (tk_index l); mret (input_id i)
         else mret (res_input_id res));
  mret (mkCallResult (res_index res) seq now inp (tk_index l) (res_outcome res) None).

Definition succeed_rows (l : LeaseToken) (res : CallResult) (stats : option AttemptStats) (now : Z) : tx CallState CallResult :=
  require (res_index res =? tk_index l) Invalid ;;
  seq ← next_result_sequence;
  stored ← stored_result l res seq now;
  insert_result (res_index stored) seq stored now ;;
  set_input (tk_index l) (fun r => finish_input InputSucceeded now (Some stored) (error_blob r) (attempt_id r) r) ;;
  persist_attempt_stats l stats ;;
  mret stored.

Definition succeed_end (l : LeaseToken) (stored : CallResult) (now : Z) : tx CallState () :=
  append_event (EvResult stored) now ;;
  append_attempt_transition l AttemptSucceeded FailUnspecified None StartupUnspecified now ;;
  complete_call_tx now ;; mret tt.

Definition succeed (l : LeaseToken) (res : CallResult) (stats : option AttemptStats) (now : Z) : tx Db () :=
  k ← on_call Busy (tk_call l)
        (require_lease l [InputRunning; InputLeased] now ;; require_executable_call ;; call_kind);
  if bool_decide (k = Generator) then on_call Busy (tk_call l) (succeed_generator l stats now)
  else
    stored ← on_call Busy (tk_call l) (succeed_rows l res stats now);
    for_each (fun digest => add_artifact_ref digest (bs "result") (owner_key (tk_call l) (res_index stored))) (result_artifacts stored) ;;
    on_call Busy (tk_call l) (succeed_end l stored now).

Definition commit_yield_rows (l : LeaseToken) (i : Z) (v : ValueEnvelope) (now : Z) : tx CallState CallResult :=
  require_lease l [InputRunning] now ;;
  require_executable_call ;;
  k ← call_kind;
  require (bool_decide (k = Generator)) Invalid ;;
  seq ← next_result_sequence;
  inp ← stored_input (tk_index l);
  let res := mkCallResult i seq now (input_id inp) (tk_index l) (Some (OutValue v)) (Some i) in
  insert_result i seq res now ;;
  mret res.

(** The event that was appended. *)
Definition event_by_sequence (seq : Z) : tx CallState CallEvent :=
  e ← read (fun c => events c !! seq); lift (ok_or e NotFound).

Definition commit_yield (l : LeaseToken) (i : Z) (v : ValueEnvelope) (now : Z) : tx Db CallEvent :=
  lift (validate_envelope v) ;;
  res ← on_call Busy (tk_call l) (commit_yield_rows l i v now);
  for_each (fun digest => add_artifact_ref digest (bs "result") (owner_key (tk_call l) i)) (result_artifacts res) ;;
  on_call Busy (tk_call l) (seq ← append_event (EvYield res) now; event_by_sequence seq).

Definition MAX_LOG : nat := 1024 * 1024.

Definition append_log (l : LeaseToken) (stream : Z) (data : bytes) (now : Z) : tx Db CallEvent :=
  require (length data <=? MAX_LOG)%nat Invalid ;;
  on_call Busy (tk_call l)
    (require_lease l [InputRunning] now ;;
     inp ← stored_input (tk_index l);
     seq ← append_event_with_metadata (EvLog stream data) (Some (input_id inp)) (Some (tk_index l)) None now;
     event_by_sequence seq).

Definition append_call_log (call_id : bytes) (stream : Z) (data : bytes) (now : Z) : tx Db CallEvent :=
  require (length data <=? MAX_LOG)%nat Invalid ;;
  on_call NotFound call_id
    (s ← call_status;
     require (bool_decide (s = CallRunning)) Invalid ;;
     seq ← append_event (EvLog stream data) now;
     event_by_sequence seq).

Fixpoint validate_call_error (e : CallError) (depth : nat) : result store_error () :=
  match e with
  | mkCallError code message etype _ frames cause details =>
      if (8 <? depth)%nat then Err Invalid
      else if (256 <? length code)%nat || (16 * 1024 <? length message)%nat || (1024 <? length etype)%nat
              || (128 <? length frames)%nat || (128 <? length details)%nat then Err Invalid
      else if existsb (fun f => (4096 <? length (fst f))%nat || (1024 <? length (snd f))%nat) frames then Err Invalid
      else match cause with Some c => validate_call_error c (S depth) | None => Ok () end
  end.

(** The failed input of a batch has a result, with the error. *)
Definition fail_batch_input (l : LeaseToken) (e : CallError) (now : Z) : tx CallState () :=
  seq ← next_result_sequence;
  inp ← stored_input (tk_index l);
  let res := mkCallResult (tk_index l) seq now (input_id inp) (tk_index l) (Some (OutError e)) None in
  insert_result (tk_index l) seq res now ;;
  set_input (tk_index l) (fun r => finish_input InputFailed now (Some res) (Some e) (attempt_id r) r) ;;
  append_event (EvResult res) now ;;
  complete_call_tx now ;; mret tt.

Definition fail_user_rows (l : LeaseToken) (e : CallError) (stats : option AttemptStats) (now : Z) : tx CallState () :=
  require_lease l [InputRunning; InputLeased] now ;;
  require_executable_call ;;
  persist_attempt_stats l stats ;;
  append_attempt_transition l AttemptFailed FailUser (Some e) StartupUnspecified now ;;
  k ← call_kind;
  if bool_decide (k = Batch) then fail_batch_input l e now else finish_error_tx l e now.

Definition fail_user (l : LeaseToken) (e : CallError) (stats : option AttemptStats) (now : Z) : tx Db () :=
  lift (validate_call_error e 0) ;; on_call Busy (tk_call l) (fail_user_rows l e stats now).

Definition retry_rows (l : LeaseToken) (e : CallError) (stats : option AttemptStats) (retry_at : Z) (infra : bool) (now : Z)
  : tx CallState () :=
  require_lease l [InputRunning; InputLeased] now ;;
  require_executable_call ;;
  persist_attempt_stats l stats ;;
  append_attempt_transition l AttemptFailed (if infra then FailInfrastructure else FailUser) (Some e) StartupUnspecified now ;;
  k ← call_kind;
  committed ← read (fun c => negb (bool_decide (results c = ∅)));
  if bool_decide (k = Generator) && committed then finish_error_tx l e now
  else
    check_i64 retry_at ;;
    set_input (tk_index l) (requeue_input retry_at (if infra then 1 else 0) (if infra then 0 else 1) (Some e)) ;;
    active ← active_count;
    s ← call_status;
    (if (active =? 0)%nat && bool_decide (s = CallRunning)
     then check_i64 now ;; set_call (set_status CallQueued now) ;; append_status_event CallQueued now ;; mret tt
     else mret tt).

Definition fail_infra (l : LeaseToken) (e : CallError) (retry_at : Z) (stats : option AttemptStats) (now : Z) : tx Db () :=
  lift (validate_call_error e 0) ;; on_call Busy (tk_call l) (retry_rows l e stats retry_at true now).
Definition retry_user (l : LeaseToken) (e : CallError) (retry_at : Z) (stats : option AttemptStats) (now : Z) : tx Db () :=
  lift (validate_call_error e 0) ;; on_call Busy (tk_call l) (retry_rows l e stats retry_at false now).

(** ** Cancellation *)

Definition set_cancelling (reason : bytes) (now : Z) (c : Call) : Call :=
  mkCall (revision_id c) (actor_id c) (kind c) CallCancelling (input_closed c) (created_ms c) now (queued_ms c) (call_started_ms c)
    (call_finished_ms c) (queue_deadline_ms c) (execution_timeout_ms c) (result_ttl_ms c) (result_expiry_ms c)
    (Some reason) (call_error c) (event_seq c) (result_seq c).
Definition set_reason (reason : bytes) (c : Call) : Call :=
  mkCall (revision_id c) (actor_id c) (kind c) (call_st c) (input_closed c) (created_ms c) (updated_ms c) (queued_ms c)
    (call_started_ms c) (call_finished_ms c) (queue_deadline_ms c) (execution_timeout_ms c) (result_ttl_ms c)
    (result_expiry_ms c) (Some reason) (call_error c) (event_seq c) (result_seq c).

(** [UPDATE inputs SET status=?,finished_ms=? WHERE call_id=? AND status=?]. *)
Definition cancel_queued (now : Z) (r : Input) : Input :=
  if bool_decide (status r = InputQueued)
  then mkInput (payload r) InputCancelled (user_attempts r) (infra_attempts r) (available_ms r) (lease_owner r)
         (lease_expiry_ms r) (lease_generation r) (attempt_id r) (started_ms r) (Some now) (result_blob r)
         (error_blob r) (stats_blob r)
  else r.

Definition finalize_if_idle (now : Z) : tx CallState () :=
  active ← active_count;
  if (active =? 0)%nat then finalize_cancelled_tx now else mret tt.

Definition cancel_rows (reason request : bytes) (now : Z) : tx CallState () :=
  s ← call_status;
  if terminal_call s then mret tt
  else
    (if bool_decide (s = CallCancelling) then mret tt
     else
       check_i64 now ;;
       set_call (set_cancelling reason now) ;;
       append_event (EvCancelRequested reason request) now ;;
       append_status_event CallCancelling now ;;
       set_inputs (fmap (cancel_queued now))) ;;
    finalize_if_idle now.

Definition cancel_call (fingerprint call_id reason request : bytes) (now : Z) : tx Db CallRecord :=
  found ← idempotent_resource (bs "cancel_call") request fingerprint;
  match found with
  | Some resource => call_record resource
  | None =>
      on_call NotFound call_id (cancel_rows reason request now) ;;
      put_idempotency (bs "cancel_call") request fingerprint call_id now ;;
      call_record call_id
  end.

Definition finish_cancelled_rows (l : LeaseToken) (reason : bytes) (now : Z) : tx CallState CallRecord :=
  require_lease l [InputLeased; InputRunning] now ;;
  s ← call_status;
  require (bool_decide (s = CallCancelling)) Invalid ;;
  append_attempt_transition l AttemptCancelled FailCancelled None StartupUnspecified now ;;
  check_i64 now ;;
  set_input (tk_index l) (fun r => finish_input InputCancelled now (result_blob r) None (attempt_id r) r) ;;
  (if bool_decide (reason = []) then mret tt else set_call (set_reason reason)) ;;
  finalize_if_idle now ;;
  read record_of.

Definition finish_cancelled (l : LeaseToken) (reason : bytes) (now : Z) : tx Db CallRecord :=
  on_call Busy (tk_call l) (finish_cancelled_rows l reason now).

Definition active_leases_for_call (call_id : bytes) : tx Db (list LeaseToken) :=
  read (fun d =>
    match calls d !! call_id with
    | Some c =>
        map (fun kv => row_token call_id kv)
          (merge_sort (by_key fst)
             (List.filter (fun kv => is_active (status (snd kv)) && bool_decide (is_Some (lease_owner (snd kv)))) (map_to_list (inputs c))))
    | None => []
    end).

(** ** Expiry and recovery *)

Definition lost_error (code message : bytes) : CallError :=
  mkCallError code message (bs "InfrastructureError") true [] None [].

(** A lost attempt of a call that is being cancelled. *)
Definition drop_cancelled (call_id : bytes) (kv : Z * Input) (now : Z) : tx CallState () :=
  (if bool_decide (is_Some (attempt_id (snd kv)))
   then append_attempt_transition (row_token call_id kv) AttemptCancelled FailCancelled None StartupUnspecified now ;; mret tt
   else mret tt) ;;
  check_i64 now ;;
  set_input (fst kv) (fun r => finish_input InputCancelled now (result_blob r) (error_blob r) None r).

(** A lost attempt of any other call. *)
Definition requeue_lost (error : CallError) (call_id : bytes) (kv : Z * Input) (now : Z) : tx CallState () :=
  (if bool_decide (is_Some (attempt_id (snd kv)))
   then append_attempt_transition (row_token call_id kv) AttemptFailed FailInfrastructure (Some error) StartupUnspecified now ;; mret tt
   else mret tt) ;;
  check_i64 now ;;
  set_input (fst kv) (fun r => requeue_input now 1 0 (error_blob r) r).

Definition expire_lease (call_id : bytes) (now : Z) (kv : Z * Input) : tx CallState () :=
  s ← call_status;
  if bool_decide (s = CallCancelling) then drop_cancelled call_id kv now
  else
    requeue_lost (lost_error (bs "lease_expired") (bs "worker lease expired")) call_id kv now ;;
    s ← call_status;
    if bool_decide (s = CallRunning) then set_call (set_status CallQueued now) ;; append_status_event CallQueued now ;; mret tt
    else mret tt.

Definition lease_expired (now : Z) (r : Input) : bool :=
  is_active (status r) && match lease_expiry_ms r with Some e => e <=? now | None => false end.

Definition expire_call_leases (call_id : bytes) (now : Z) : tx CallState nat :=
  c ← read id;
  let rows := List.filter (fun kv => lease_expired now (snd kv)) (map_to_list (inputs c)) in
  for_each (expire_lease call_id now) rows ;;
  (if negb (length rows =? 0)%nat && bool_decide (call_st (call c) = CallCancelling) then finalize_if_idle now else mret tt) ;;
  mret (length rows).

Definition expire_leases (now : Z) : tx Db nat :=
  check_i64 now ;;
  counts ← for_calls (fun id => expire_call_leases id now);
  mret (list_sum (map snd counts)).

Definition complete_ready (now : Z) : tx CallState bool :=
  c ← read (fun c => call c);
  if input_closed c && bool_decide (call_st c ∈ [CallQueued; CallRunning]) then complete_call_tx now else mret false.

Definition complete_ready_calls (now : Z) : tx Db (list bytes) :=
  l ← for_calls (fun _ => complete_ready now);
  mret (map fst (List.filter (fun kv => snd kv : bool) l)).

Definition clear_expiry (c : Call) : Call :=
  mkCall (revision_id c) (actor_id c) (kind c) (call_st c) (input_closed c) (created_ms c) (updated_ms c) (queued_ms c)
    (call_started_ms c) (call_finished_ms c) (queue_deadline_ms c) (execution_timeout_ms c) (result_ttl_ms c)
    None (cancel_reason c) (call_error c) (event_seq c) (result_seq c).

Definition is_output (p : EventPayload) : bool := match p with EvYield _ | EvResult _ => true | _ => false end.

Definition clear_result (r : Input) : Input :=
  mkInput (payload r) (status r) (user_attempts r) (infra_attempts r) (available_ms r) (lease_owner r)
    (lease_expiry_ms r) (lease_generation r) (attempt_id r) (started_ms r) (finished_ms r) None
    (error_blob r) (stats_blob r).

Definition results_expired (now : Z) (c : Call) : bool := match result_expiry_ms c with Some e => e <=? now | None => false end.

Definition expire_call_results (now : Z) : tx CallState bool :=
  c ← read id;
  if results_expired now (call c) then
    modify (fun c => mkCallState (clear_expiry (call c)) (clear_result <$> inputs c)
                       (filter (fun kv => is_output (ev_payload (snd kv)) = false) (events c)) ∅ (attempt_stats c)) ;;
    mret true
  else mret false.

(** [owner_id=? OR owner_id LIKE 'id:%']; identifiers are UUIDs and hold no wildcard. *)
Definition owned_by (id owner : bytes) : bool := bool_decide (owner = id) || bool_decide (take (length id + 1) owner = id ++ [58]).

Definition expire_results (now : Z) : tx Db nat :=
  check_i64 now ;;
  l ← for_calls (fun _ => expire_call_results now);
  let gone := map fst (List.filter (fun kv => snd kv : bool) l) in
  set_refs (filter (fun '(_, k, o) => negb (bool_decide (k = bs "result") && existsb (fun id => owned_by id o) gone) = true)) ;;
  mret (length gone).

Definition recover_call (call_id : bytes) (now : Z) : tx CallState nat :=
  c ← read id;
  let rows := List.filter (fun kv => is_active (status (snd kv))) (map_to_list (inputs c)) in
  if bool_decide (call_st (call c) = CallCancelling) then
    for_each (fun kv => drop_cancelled call_id kv now) rows ;;
    (if (length rows =? 0)%nat then mret tt else finalize_cancelled_tx now) ;;
    mret 0%nat
  else
    for_each (fun kv => requeue_lost (lost_error (bs "startup_recovery") (bs "execution interrupted by control-plane restart"))
                          call_id kv now) rows ;;
    (if negb (length rows =? 0)%nat && bool_decide (call_st (call c) = CallRunning)
     then check_i64 now ;; set_call (set_status CallQueued now) ;; append_status_event CallQueued now ;; mret tt else mret tt) ;;
    mret (length rows).

(** The record of an actor with another status. *)
Definition with_status (s : ActorStatus) (now : Z) (a : ActorRecord) : ActorRecord :=
  mkActorRecord (ar_function a) s (ar_created a) now (ar_checkpoint a) (ar_labels a).

(** A worker of an actor that is gone: the actor stops, or fails without a checkpoint. *)
Definition recover_actor (now : Z) (a : ActorRow) : ActorRow :=
  if bool_decide (is_Some (a_worker a)) && bool_decide (a_status a ∈ [ActorReady; ActorBusy]) then
    let s := if bool_decide (is_Some (a_checkpoint a)) then ActorStopped else ActorFailed in
    mkActorRow s (with_status s now (a_record a)) None (a_checkpoint a) (operation_sequence a)
  else a.

Definition actor_lost (a : ActorRow) : bool :=
  bool_decide (is_Some (a_worker a)) && bool_decide (a_status a ∈ [ActorReady; ActorBusy]) && negb (bool_decide (is_Some (a_checkpoint a))).

Definition recover_startup (now : Z) : tx Db (nat * nat) :=
  counts ← for_calls (fun id => recover_call id now);
  lost ← read (fun d => length (List.filter (fun kv => actor_lost (snd kv)) (map_to_list (actors d))));
  set_actors (fmap (recover_actor now)) ;;
  mret (list_sum (map snd counts), lost).

(** ** Cursors *)

Definition normalized_page_size (v : Z) : Z := if v =? 0 then 100 else Z.min v 10000.

Definition rows_after {A} (seq : Z * A -> Z) (after limit : Z) (m : list (Z * A)) : list A :=
  map snd (take (Z.to_nat (normalized_page_size limit))
    (merge_sort (by_key seq) (List.filter (fun kv => after <? seq kv) m))).

Definition events_after (call_id : bytes) (after limit : Z) : tx Db (list CallEvent) :=
  check_i64 after ;;
  read (fun d => match calls d !! call_id with
                 | Some c => rows_after fst after limit (map_to_list (events c))
                 | None => []
                 end).

Definition results_after (call_id : bytes) (after limit : Z) : tx Db (list CallResult) :=
  check_i64 after ;;
  read (fun d => match calls d !! call_id with
                 | Some c => rows_after (fun kv => res_sequence (snd kv)) after limit (map_to_list (results c))
                 | None => []
                 end).

Definition list_events (call_id : bytes) (after limit : Z) : tx Db (list CallEvent) := events_after call_id after limit.
Definition list_results (call_id : bytes) (after limit : Z) : tx Db (list CallResult) := results_after call_id after limit.
Definition get_event (call_id : bytes) (seq : Z) : tx Db CallEvent :=
  check_i64 seq ;; on_call NotFound call_id (event_by_sequence seq).

Definition get_input (call_id : bytes) (i : Z) : tx Db CallInput :=
  check_i64 i ;; on_call NotFound call_id
    (r ← read (fun c => inputs c !! i); r ← lift (ok_or r NotFound); lift (ok_or (decode_input (payload r)) Engine)).

Definition get_result (call_id : bytes) (i : Z) : tx Db CallResult :=
  check_i64 i ;; on_call NotFound call_id (r ← read (fun c => results c !! i); lift (ok_or r NotFound)).

Definition event_frontier (call_id : bytes) : tx Db Z := on_call NotFound call_id (read (fun c => event_seq (call c))).
End outcomes.
