(* ===== verification/StoreInvariant.v ===== *)
(** What the function store keeps true of the rows of a call: the lease columns of an input agree
    with its status, the status of a call agrees with its inputs, the indexes are contiguous,
    and the sequence numbers of events and results are taken once.  A specification of a
    transaction is a post-condition on its success. *)

From S2P Require Import Prelude Decimal StoreTables StoreSpecs StoreCalls StoreOutcomes.

(** ** Post-conditions *)

Definition post {S A} (m : tx S A) (s : S) (Q : A -> S -> Prop) : Prop :=
  match m s with Ok (x, s') => Q x s' | Err _ => True end.

Lemma post_mono {S A} (m : tx S A) s (Q Q' : A -> S -> Prop) :
  post m s Q -> (forall x s', Q x s' -> Q' x s') -> post m s Q'.
Proof. unfold post. destruct (m s) as [[x s']|e]; auto. Qed.

Lemma post_bind {S A B} (m : tx S A) (k : A -> tx S B) s (Q : B -> S -> Prop) :
  post m s (fun x s' => post (k x) s' Q) -> post (m ≫= k) s Q.
Proof. unfold post, mbind, tx_bind. by destruct (m s) as [[x s']|e]. Qed.

Lemma post_use {S A} (m : tx S A) s (Q : A -> S -> Prop) x s' : post m s Q -> m s = Ok (x, s') -> Q x s'.
Proof. unfold post. intros HQ Hm. by rewrite Hm in HQ. Qed.

Lemma post_intro {S A} (m : tx S A) s (Q : A -> S -> Prop) : (forall x s', m s = Ok (x, s') -> Q x s') -> post m s Q.
Proof. unfold post. destruct (m s) as [[x s']|e]; auto. Qed.

Lemma post_ret {S A} (x : A) (s : S) (Q : A -> S -> Prop) : Q x s -> post (mret x) s Q.
Proof. done. Qed.
Lemma post_fail {S A} e (s : S) (Q : A -> S -> Prop) : post (fail e) s Q.
Proof. done. Qed.
Lemma post_read {S A} (f : S -> A) s (Q : A -> S -> Prop) : Q (f s) s -> post (read f) s Q.
Proof. done. Qed.
Lemma post_modify {S} (f : S -> S) s (Q : () -> S -> Prop) : Q tt (f s) -> post (modify f) s Q.
Proof. done. Qed.
Lemma post_require {S} b e (s : S) (Q : () -> S -> Prop) : (b = true -> Q tt s) -> post (require b e) s Q.
Proof. destruct b; [intros HQ; by apply HQ|done]. Qed.
Lemma post_lift {S A} (r : result store_error A) (s : S) (Q : A -> S -> Prop) :
  (forall x, r = Ok x -> Q x s) -> post (lift r) s Q.
Proof. destruct r; [intros HQ; by apply HQ|done]. Qed.
Lemma post_check {S} v (s : S) (Q : () -> S -> Prop) : Q tt s -> post (check_i64 v) s Q.
Proof. unfold check_i64, u64_i64, post, mbind, tx_bind, lift. by destruct (v <? 2 ^ 63). Qed.
Lemma post_check_opt {S} v (s : S) (Q : () -> S -> Prop) : Q tt s -> post (check_opt_i64 v) s Q.
Proof. destruct v; [apply post_check|done]. Qed.

Lemma post_for_each {S A} (f : A -> tx S ()) (P : list A -> S -> Prop) l s :
  P [] s -> (forall before x after s, l = before ++ x :: after -> P before s -> post (f x) s (fun _ s' => P (before ++ [x]) s')) ->
  post (for_each f l) s (fun _ s' => P l s').
Proof.
  intros H0 Hstep. enough (forall after before s, l = before ++ after -> P before s -> post (for_each f after) s (fun _ s' => P l s')) as H.
  { by apply (H l [] s). }
  induction after as [|x after IH]; intros before s1 Hl HP; cbn [for_each].
  { apply post_ret. by rewrite Hl, app_nil_r. }
  apply post_bind. eapply post_mono; [exact (Hstep before x after s1 Hl HP)|]. intros [] s2 HP2.
  apply (IH (before ++ [x])); [by rewrite <- app_assoc|done].
Qed.

(** The statements of a call. *)
Definition with_call (f : Call -> Call) (c : CallState) : CallState :=
  mkCallState (f (call c)) (inputs c) (events c) (results c) (attempt_stats c).
Definition with_inputs (f : gmap Z Input -> gmap Z Input) (c : CallState) : CallState :=
  mkCallState (call c) (f (inputs c)) (events c) (results c) (attempt_stats c).

Lemma post_set_call f c (Q : () -> CallState -> Prop) : Q tt (with_call f c) -> post (set_call f) c Q.
Proof. done. Qed.
Lemma post_set_inputs f c (Q : () -> CallState -> Prop) : Q tt (with_inputs f c) -> post (set_inputs f) c Q.
Proof. done. Qed.
Lemma post_set_input i f c (Q : () -> CallState -> Prop) : Q tt (with_inputs (alter f i) c) -> post (set_input i f) c Q.
Proof. done. Qed.
Lemma post_input_row i c (Q : Input -> CallState -> Prop) : (forall r, inputs c !! i = Some r -> Q r c) -> post (input_row i) c Q.
Proof.
  intros HQ. unfold input_row. apply post_bind, post_read, post_lift. intros r Hr. apply HQ.
  by destruct (inputs c !! i); simplify_eq/=.
Qed.
Lemma post_event_sequence c (Q : Z -> CallState -> Prop) :
  Q (event_seq (call c) + 1) (with_call (fun c => set_seqs (event_seq c + 1) (result_seq c) c) c) -> post next_event_sequence c Q.
Proof. done. Qed.
Lemma post_result_sequence c (Q : Z -> CallState -> Prop) :
  Q (result_seq (call c) + 1) (with_call (fun c => set_seqs (event_seq c) (result_seq c + 1) c) c) -> post next_result_sequence c Q.
Proof. done. Qed.

(** Steps through a transaction. *)
Ltac tx_step :=
  lazymatch goal with
  | |- post (_ ≫= _) _ _ => apply post_bind
  | |- post (mret _) _ _ => apply post_ret
  | |- post (fail _) _ _ => apply post_fail
  | |- post (read _) _ _ => apply post_read
  | |- post call_status _ _ => apply post_read
  | |- post call_kind _ _ => apply post_read
  | |- post active_count _ _ => apply post_read
  | |- post (set_call _) _ _ => apply post_set_call
  | |- post (set_inputs _) _ _ => apply post_set_inputs
  | |- post (set_input _ _) _ _ => apply post_set_input
  | |- post (input_row _) _ _ => let r := fresh "r" in let Hr := fresh "Hrow" in apply post_input_row; intros r Hr
  | |- post next_event_sequence _ _ => apply post_event_sequence
  | |- post next_result_sequence _ _ => apply post_result_sequence
  | |- post (modify _) _ _ => apply post_modify
  | |- post (require _ _) _ _ => let Hr := fresh "Hr" in apply post_require; intros Hr
  | |- post (lift _) _ _ => let Hl := fresh "Hl" in apply post_lift; intros ? Hl
  | |- post (check_i64 _) _ _ => apply post_check
  | |- post (check_opt_i64 _) _ _ => apply post_check_opt
  end.
Ltac tx_steps := repeat (tx_step; cbv beta).

(** ** The invariant *)

Record input_ok (r : Input) : Prop := mkInputOk {
  active_lease : is_active (status r) = true ->
    is_Some (lease_owner r) /\ is_Some (lease_expiry_ms r) /\ exists a, attempt_id r = Some a /\ a <> [];
  idle_lease : is_active (status r) = false -> lease_owner r = None /\ lease_expiry_ms r = None }.

(** What every statement keeps. *)
Record core_ok (c : CallState) : Prop := mkCoreOk {
  co_input i r : inputs c !! i = Some r -> input_ok r;
  co_index i : is_Some (inputs c !! i) <-> 0 <= i < Z.of_nat (size (inputs c));
  co_single : kind (call c) <> Batch -> size (inputs c) = 1%nat /\ input_closed (call c) = true;
  co_events s : is_Some (events c !! s) -> 1 <= s <= event_seq (call c);
  co_event_seq : 0 <= event_seq (call c);
  co_result_seq : 0 <= result_seq (call c);
  co_results i r : results c !! i = Some r -> 1 <= res_sequence r <= result_seq (call c);
  co_results_inj i j r r' : results c !! i = Some r -> results c !! j = Some r' -> res_sequence r = res_sequence r' -> i = j;
  co_expiry : is_Some (result_expiry_ms (call c)) -> terminal_call (call_st (call c)) = true }.

(** The result of an input is there when the input is over; a generator yields before that. *)
Definition recorded (c : CallState) : Prop := forall i r, kind (call c) <> Generator -> results c !! i = Some r ->
  exists row, inputs c !! i = Some row /\ is_open (status row) = false.

Definition some_open (m : gmap Z Input) : Prop := exists i r, m !! i = Some r /\ is_open (status r) = true.
Definition no_open (m : gmap Z Input) : Prop := forall i r, m !! i = Some r -> is_open (status r) = false.

(** The status of a call against its inputs, within a transaction... *)
Record settled (s : CallStatus) (m : gmap Z Input) : Prop := mkSettled {
  se_terminal : terminal_call s = true -> no_open m;
  se_cancelling : s = CallCancelling ->
    (forall i r, m !! i = Some r -> status r <> InputQueued) /\ exists i r, m !! i = Some r /\ is_active (status r) = true;
  se_pending : s = CallPending -> m = ∅;
  se_specified : s <> CallUnspecified }.

(** ... and after it: a call that is closed and not over has work left. *)
Definition live (s : CallStatus) (closed : bool) (m : gmap Z Input) : Prop :=
  (s = CallPending -> closed = false) /\
  (s = CallQueued \/ s = CallRunning -> closed = true -> m <> ∅ -> some_open m).

Record call_ok (c : CallState) : Prop := mkCallOk {
  ok_core : core_ok c;
  ok_recorded : recorded c;
  ok_settled : settled (call_st (call c)) (inputs c);
  ok_live : live (call_st (call c)) (input_closed (call c)) (inputs c) }.

(** ** Progress of a call *)

(** How the generation of the leases of an input moves: an operation that leases counts it up,
    the others keep it. *)
Class Mode (R : relation Z) : Prop := { mode_order :: PreOrder R; mode_le x y : R x y -> x <= y }.
#[global] Instance quiet_mode : Mode (=).
Proof. split; [apply _|]. lia. Qed.
#[global] Instance leasing_mode : Mode Z.le.
Proof. split; [apply _|done]. Qed.

(** An input that is over stays as it is; an active input of the same generation is held by the same
    worker for the same attempt. *)
Record row_le {R : relation Z} (r r' : Input) : Prop := mkRowLe {
  rl_payload : payload r' = payload r;
  rl_generation : R (lease_generation r) (lease_generation r');
  rl_done : is_open (status r) = false ->
    status r' = status r /\ finished_ms r' = finished_ms r /\ lease_generation r' = lease_generation r /\
    error_blob r' = error_blob r /\ (result_blob r' = result_blob r \/ result_blob r' = None);
  rl_lease : lease_generation r' = lease_generation r -> is_active (status r') = true ->
    is_active (status r) = true /\ lease_owner r' = lease_owner r /\ attempt_id r' = attempt_id r }.
Arguments row_le : clear implicits.

Record steps {R : relation Z} (c c' : CallState) : Prop := mkSteps {
  sp_inputs i r : inputs c !! i = Some r -> exists r', inputs c' !! i = Some r' /\ row_le R r r';
  sp_new i r' : inputs c' !! i = Some r' -> inputs c !! i = None ->
    R 0 (lease_generation r') /\ (lease_generation r' = 0 -> is_active (status r') = false);
  sp_kind : kind (call c') = kind (call c);
  sp_revision : revision_id (call c') = revision_id (call c);
  sp_created : created_ms (call c') = created_ms (call c);
  sp_closed : input_closed (call c) = true -> input_closed (call c') = true /\ dom (inputs c') = dom (inputs c);
  sp_terminal : terminal_call (call_st (call c)) = true -> call_st (call c') = call_st (call c) /\ results c' ⊆ results c;
  sp_results i r : results c !! i = Some r ->
    results c' !! i = Some r \/ (terminal_call (call_st (call c')) = true /\ results c' = ∅) }.
Arguments steps : clear implicits.

Section modes.
Context {R : relation Z} `{!Mode R}.

#[global] Instance row_le_refl : Reflexive (row_le R).
Proof. intros r. split; auto 10. reflexivity. Qed.

#[global] Instance row_le_trans : Transitive (row_le R).
Proof.
  intros r1 r2 r3 [Hp Hg Hd Hl] [Hp' Hg' Hd' Hl']. split; [congruence|by etrans| |].
  - intros Ho. destruct (Hd Ho) as (Hs & Hf & Hgen & He & Hr). rewrite <- Hs in Ho. destruct (Hd' Ho) as (? & ? & ? & ? & Hr').
    split_and!; [congruence..|]. destruct Hr', Hr; [left|right..]; congruence.
  - intros Hgen Ha. apply mode_le in Hg, Hg'. assert (lease_generation r2 = lease_generation r1) by lia.
    assert (lease_generation r3 = lease_generation r2) by lia.
    destruct Hl' as (Ha2 & Ho2 & Hat2); [done..|]. destruct Hl as (Ha1 & Ho1 & Hat1); [done..|]. split_and!; congruence.
Qed.

(** One statement that keeps the set of inputs. *)
Lemma steps_same_dom c c' :
  (forall i r, inputs c !! i = Some r -> exists r', inputs c' !! i = Some r' /\ row_le R r r') -> dom (inputs c') = dom (inputs c) ->
  kind (call c') = kind (call c) -> revision_id (call c') = revision_id (call c) -> created_ms (call c') = created_ms (call c) ->
  (input_closed (call c) = true -> input_closed (call c') = true) ->
  (terminal_call (call_st (call c)) = true -> call_st (call c') = call_st (call c) /\ results c' ⊆ results c) ->
  (forall i r, results c !! i = Some r -> results c' !! i = Some r \/ (terminal_call (call_st (call c')) = true /\ results c' = ∅)) ->
  steps R c c'.
Proof.
  intros Hi Hd Hk Hr Hc Hcl Ht Hres. split; try done; [|auto].
  intros i r' Hr' Hn. apply not_elem_of_dom in Hn. destruct Hn. rewrite <- Hd. by apply elem_of_dom.
Qed.

#[global] Instance steps_refl : Reflexive (steps R).
Proof.
  intros c. apply steps_same_dom; try done; [|by left]. intros i r Hi. exists r. split; [done|reflexivity].
Qed.

#[global] Instance steps_trans : Transitive (steps R).
Proof.
  intros c1 c2 c3 H12 H23. split.
  - intros i r Hi. destruct (sp_inputs _ _ H12 i r Hi) as (r2 & Hr2 & Hle).
    destruct (sp_inputs _ _ H23 i r2 Hr2) as (r3 & Hr3 & Hle'). exists r3. split; [done|]. by etrans.
  - intros i r3 Hr3 Hn. destruct (inputs c2 !! i) as [r2|] eqn:Hr2; [|by eapply sp_new].
    destruct (sp_new _ _ H12 i r2 Hr2 Hn) as [Hg0 Hna]. destruct (sp_inputs _ _ H23 i r2 Hr2) as (r3' & Hr3' & [_ Hg _ Hl]).
    simplify_eq. split; [by etrans|]. intros Hz. apply mode_le in Hg0, Hg. apply not_true_iff_false. intros Ha.
    destruct Hl as (Ha2 & _); [lia|done|]. rewrite Hna in Ha2 by lia. done.
  - rewrite (sp_kind _ _ H23). apply H12.
  - rewrite (sp_revision _ _ H23). apply H12.
  - rewrite (sp_created _ _ H23). apply H12.
  - intros Hc. destruct (sp_closed _ _ H12 Hc) as [Hc2 Hd]. destruct (sp_closed _ _ H23 Hc2) as [? Hd'].
    split; [done|]. by rewrite Hd'.
  - intros Ht. destruct (sp_terminal _ _ H12 Ht) as [H2 Hs]. rewrite <- H2 in Ht.
    destruct (sp_terminal _ _ H23 Ht) as [-> Hs']. split; [done|]. by etrans.
  - intros i r Hr. destruct (sp_results _ _ H12 i r Hr) as [Hr2|[Ht He]]; [apply (sp_results _ _ H23 i r Hr2)|].
    right. destruct (sp_terminal _ _ H23 Ht) as [-> Hs']. split; [done|]. rewrite He in Hs'. apply (anti_symm (⊆)); [done|apply map_empty_subseteq].
Qed.
End modes.

Lemma row_le_weaken r r' : row_le (=) r r' -> row_le Z.le r r'.
Proof. intros [Hp Hg Hd Hl]. split; try done. lia. Qed.

(** ** Statements *)

(** [c'] is [c] after events were appended. *)
Record logged (c c' : CallState) : Prop := mkLogged {
  lg_call : exists n, 0 <= n /\ call c' = set_seqs (event_seq (call c) + n) (result_seq (call c)) (call c);
  lg_inputs : inputs c' = inputs c;
  lg_results : results c' = results c;
  lg_stats : attempt_stats c' = attempt_stats c;
  lg_events : (forall s, is_Some (events c !! s) -> 1 <= s <= event_seq (call c)) -> 0 <= event_seq (call c) ->
    forall s, is_Some (events c' !! s) -> 1 <= s <= event_seq (call c') }.

#[global] Instance logged_refl : Reflexive logged.
Proof. intros c. split; try done. exists 0. split; [done|]. rewrite Z.add_0_r. by destruct c as [[] ]. Qed.

#[global] Instance logged_trans : Transitive logged.
Proof.
  intros c1 c2 c3 [(n & Hn & H1) Hi1 Hr1 Hs1 He1] [(m & Hm & H2) Hi2 Hr2 Hs2 He2]. split; [|congruence..|].
  - exists (n + m). split; [lia|]. rewrite H2, H1. cbn. by rewrite Z.add_assoc.
  - intros He H0. apply He2; [auto|]. rewrite H1. cbn. lia.
Qed.

Lemma logged_call c c' : logged c c' ->
  call_st (call c') = call_st (call c) /\ kind (call c') = kind (call c) /\ input_closed (call c') = input_closed (call c) /\
  result_seq (call c') = result_seq (call c) /\ revision_id (call c') = revision_id (call c) /\
  created_ms (call c') = created_ms (call c) /\ event_seq (call c) <= event_seq (call c') /\
  result_expiry_ms (call c') = result_expiry_ms (call c) /\ queue_deadline_ms (call c') = queue_deadline_ms (call c).
Proof. intros [(n & Hn & H1) _ _ _ _]. rewrite H1. cbn. split_and!; try done. lia. Qed.

Lemma logged_core c c' : logged c c' -> core_ok c -> core_ok c'.
Proof.
  intros Hl [Hi Hx Hs He Hes Hrs Hr Hinj Hex]. destruct (logged_call _ _ Hl) as (H1 & H2 & H3 & H4 & _ & _ & H5 & H6 & _).
  destruct Hl as [_ Hin Hre _ Hev]. split; rewrite ?Hin, ?Hre, ?H1, ?H2, ?H3, ?H4, ?H6; try done; [auto|lia].
Qed.

Lemma logged_steps `{Mode R} c c' : logged c c' -> steps R c c'.
Proof.
  intros Hl. destruct (logged_call _ _ Hl) as (H1 & H2 & H3 & H4 & H6 & H7 & _). destruct Hl as [_ Hin Hre _ _].
  apply steps_same_dom; rewrite ?Hin, ?Hre, ?H1, ?H3; try done; [|by left]. intros i r Hi. exists r. split; [done|reflexivity].
Qed.

Lemma append_event_logged p inp idx att now c :
  post (append_event_with_metadata p inp idx att now) c (fun _ c' => logged c c').
Proof.
  unfold append_event_with_metadata. tx_steps. cbn. split; cbn; try done.
  - exists 1. split; [done|]. by destruct (call c).
  - intros He H0 s. rewrite lookup_insert_is_Some. intros [<-|[_ Hs]]; [lia|]. specialize (He s Hs). lia.
Qed.

Lemma append_logged p now c : post (append_event p now) c (fun _ c' => logged c c').
Proof. unfold append_event. destruct p; apply append_event_logged. Qed.

Lemma append_status_logged s now c : post (append_status_event s now) c (fun _ c' => logged c c').
Proof. apply append_logged. Qed.

Lemma append_attempt_logged `{Prost} l s f e st now c :
  post (append_attempt_transition l s f e st now) c (fun _ c' => logged c c').
Proof.
  unfold append_attempt_transition, stored_input. tx_steps. apply append_event_logged.
Qed.

(** ** Within a transaction *)

(** The transaction that began at [c0] has reached [c], where the call has status [st], its inputs are [m]
    and its results [res]. *)
Record sees {R : relation Z} (c0 : CallState) (st : CallStatus) (closed : bool) (m : gmap Z Input) (res : gmap Z CallResult) (c : CallState) : Prop :=
  mkSees {
    at_core : core_ok c;
    at_steps : steps R c0 c;
    at_st : call_st (call c) = st;
    at_closed : input_closed (call c) = closed;
    at_inputs : inputs c = m;
    at_results : results c = res }.

(** The operation keeps the invariant, and moves the call by [R]. *)
Definition keeps_by (R : relation Z) {A} (m : tx CallState A) : Prop :=
  forall c, call_ok c -> post m c (fun _ c' => call_ok c' /\ steps R c c').
Abbreviation keeps := (keeps_by (=)).

Section sees.
Context {R : relation Z} `{!Mode R}.
Abbreviation sees := (sees (R := R)).
Abbreviation steps := (steps R).
Abbreviation row_le := (row_le R).

Lemma sees_start c : call_ok c -> sees c (call_st (call c)) (input_closed (call c)) (inputs c) (results c) c.
Proof. intros Hc. split; try done; apply Hc. Qed.

Lemma sees_logged c0 st cl m res c c' : sees c0 st cl m res c -> logged c c' -> sees c0 st cl m res c'.
Proof.
  intros [Hc Hs H1 H2 H3 H4] Hl. destruct (logged_call _ _ Hl) as (? & ? & ? & _).
  split; [by eapply logged_core| |by etrans|by etrans| |].
  - etrans; [exact Hs|by apply logged_steps].
  - rewrite (lg_inputs _ _ Hl). done.
  - rewrite (lg_results _ _ Hl). done.
Qed.

(** The columns that the status updates keep. *)
Definition keeps_columns (f : Call -> Call) : Prop := forall c,
  kind (f c) = kind c /\ revision_id (f c) = revision_id c /\ created_ms (f c) = created_ms c /\
  event_seq (f c) = event_seq c /\ result_seq (f c) = result_seq c /\
  (result_expiry_ms (f c) = result_expiry_ms c \/ terminal_call (call_st (f c)) = true).

Lemma sees_call f c0 st cl m res c st' cl' :
  sees c0 st cl m res c -> keeps_columns f -> call_st (f (call c)) = st' -> input_closed (f (call c)) = cl' ->
  (cl = true -> cl' = true) -> (terminal_call st = true -> st' = st) -> sees c0 st' cl' m res (with_call f c).
Proof.
  intros [Hc Hs H1 H2 H3 H4] Hf Hst Hcl Hmono Hterm. destruct (Hf (call c)) as (Hk & Hrv & Hcr & He & Hr & Hx).
  split; try done.
  - destruct Hc as [K1 K2 K3 K4 K5 K6 K7 K8 K9]. split; cbn; rewrite ?Hk, ?He, ?Hr; try done.
    + intros HB. destruct (K3 HB) as [? Hcl2]. split; [done|]. rewrite Hcl. apply Hmono. by rewrite <- H2.
    + destruct Hx as [-> | ->]; [|done]. intros Ht. specialize (K9 Ht). rewrite H1 in K9. rewrite Hst, Hterm; done.
  - etrans; [exact Hs|]. apply steps_same_dom; cbn; rewrite ?Hk, ?Hrv, ?Hcr; try done; [|..|by left].
    + intros i r Hi. exists r. split; [done|reflexivity].
    + intros Hcl2. rewrite Hcl. apply Hmono. congruence.
    + intros Ht. rewrite H1 in *. split; [|done]. rewrite Hst. auto.
Qed.

Lemma sees_status f c0 st cl m res c st' :
  sees c0 st cl m res c -> keeps_columns f -> (forall c, call_st (f c) = st') -> (forall c, input_closed (f c) = input_closed c) ->
  terminal_call st = false -> sees c0 st' cl m res (with_call f c).
Proof.
  intros Hs Hf Hst Hcl Ht. eapply sees_call; [exact Hs|done|apply Hst|rewrite Hcl; apply Hs|done|]. by rewrite Ht.
Qed.

Lemma sees_inputs f c0 st cl m res c :
  sees c0 st cl m res c ->
  (forall i r, m !! i = Some r -> exists r', f m !! i = Some r' /\ row_le r r' /\ input_ok r') ->
  dom (f m) = dom m -> sees c0 st cl (f m) res (with_inputs f c).
Proof.
  intros [Hc Hs H1 H2 H3 H4] Hf Hd. assert (size (f m) = size m) as Hsz by (by rewrite <- !size_dom, Hd).
  assert (forall i, is_Some (f m !! i) <-> is_Some (m !! i)) as Hdi by (intros i; rewrite <- !elem_of_dom; by rewrite Hd).
  subst m. split; cbn; try done.
  - destruct Hc as [K1 K2 K3 K4 K5 K6 K7 K8 K9]. split; cbn; rewrite ?Hsz; try done.
    + intros i r' Hi. destruct (proj1 (Hdi i)) as [r Hr]; [by eexists|]. destruct (Hf i r Hr) as (r2 & Hr2 & _ & Hok).
      by simplify_eq.
    + intros i. rewrite Hdi. apply K2.
  - etrans; [exact Hs|]. apply steps_same_dom; cbn; try done; [|by left].
    intros i r Hi. destruct (Hf i r Hi) as (r' & ? & ? & _). by exists r'.
Qed.

Lemma sees_input f i c0 st cl m res c :
  sees c0 st cl m res c -> (forall r, m !! i = Some r -> row_le r (f r) /\ input_ok (f r)) ->
  sees c0 st cl (alter f i m) res (with_inputs (alter f i) c).
Proof.
  intros Hs Hf. apply (sees_inputs (alter f i)); [done| |apply dom_alter_L].
  intros j r Hj. destruct (decide (i = j)) as [<-|Hne].
  - exists (f r). by rewrite lookup_alter, Hj, decide_True by done; split; [|apply Hf].
  - exists r. rewrite lookup_alter_ne by done. split_and!; [done|reflexivity|].
    destruct Hs as [Hc _ _ _ <- _]. by apply (co_input _ Hc j).
Qed.

Lemma sees_map f c0 st cl m res c :
  sees c0 st cl m res c -> (forall i r, m !! i = Some r -> row_le r (f r) /\ input_ok (f r)) ->
  sees c0 st cl (f <$> m) res (with_inputs (fmap f) c).
Proof.
  intros Hs Hf. apply (sees_inputs (fmap f)); [done| |apply dom_fmap_L].
  intros j r Hj. exists (f r). rewrite lookup_fmap, Hj. split; [done|by apply Hf with j].
Qed.

Lemma sees_recorded c0 st cl m c : recorded c0 -> sees c0 st cl m (results c0) c -> recorded c.
Proof.
  intros Hr [_ Hs _ _ _ Hres] i r Hk Hi. rewrite (sp_kind _ _ Hs) in Hk. rewrite Hres in Hi.
  destruct (Hr i r Hk Hi) as (row & Hrow & Ho). destruct (sp_inputs _ _ Hs i row Hrow) as (row' & ? & Hle).
  exists row'. split; [done|]. destruct (rl_done _ _ Hle Ho) as (-> & _). done.
Qed.

Lemma logged_recorded c c' : logged c c' -> recorded c -> recorded c'.
Proof.
  intros Hl Hr i r. rewrite (lg_results _ _ Hl), (lg_inputs _ _ Hl). destruct (logged_call _ _ Hl) as (_ & -> & _). apply Hr.
Qed.

Lemma with_call_recorded f c : keeps_columns f -> recorded c -> recorded (with_call f c).
Proof. intros Hf Hr i r. cbn. destruct (Hf (call c)) as (-> & _). apply Hr. Qed.

Lemma sees_end c0 st cl m res c :
  sees c0 st cl m res c -> recorded c -> settled st m -> live st cl m -> call_ok c /\ steps c0 c.
Proof. intros [Hc Hs <- <- <- <-] Hr Hst Hl. split; [by split|done]. Qed.

Lemma sees_same c0 st cl m c : call_ok c0 -> sees c0 st cl m (results c0) c -> settled st m -> live st cl m -> call_ok c /\ steps c0 c.
Proof. intros Hok Hs. eapply sees_end; [exact Hs|]. eapply sees_recorded; [apply Hok|exact Hs]. Qed.

(** *** Results *)

Lemma sees_bump c0 st cl m res c :
  sees c0 st cl m res c -> sees c0 st cl m res (with_call (fun c => set_seqs (event_seq c) (result_seq c + 1) c) c).
Proof.
  intros [Hc Hs H1 H2 H3 H4]. split; cbn; try done.
  - destruct Hc as [K1 K2 K3 K4 K5 K6 K7 K8 K9]. split; cbn; try done; [lia|]. intros i r Hi. specialize (K7 i r Hi). lia.
  - etrans; [exact Hs|]. apply steps_same_dom; cbn; try done; [|by left]. intros i r Hi. exists r. split; [done|reflexivity].
Qed.

Lemma post_insert_result c0 st cl m res c i seq r now (Q : () -> CallState -> Prop) :
  sees c0 st cl m res c -> terminal_call st = false -> res_sequence r = seq -> 1 <= seq <= result_seq (call c) ->
  (forall c', sees c0 st cl m (<[i := r]> res) c' -> call c' = call c -> Q tt c') -> post (insert_result i seq r now) c Q.
Proof.
  intros [Hc Hs H1 H2 H3 H4] Ht Hseq Hb HQ. unfold insert_result. tx_steps.
  apply andb_true_iff in Hr as [Hn Hu]. apply negb_true_iff in Hn, Hu. rewrite bool_decide_eq_false, <- eq_None_not_Some in Hn.
  assert (forall j r', results c !! j = Some r' -> res_sequence r' <> seq) as Hfresh.
  { intros j r' Hj He. apply not_true_iff_false in Hu. apply Hu, existsb_exists. exists (j, r').
    split; [by apply list_elem_of_In, elem_of_map_to_list|by apply Z.eqb_eq]. }
  apply HQ; [|done]. split; cbn; [| |done..|by rewrite H4].
  - destruct Hc as [K1 K2 K3 K4 K5 K6 K7 K8 K9]. split; cbn; try done.
    + intros j r'. rewrite lookup_insert_Some. intros [[<- <-]|[_ Hj]]; [lia|eauto].
    + intros j j' r1 r2. rewrite !lookup_insert_Some. intros [[<- <-]|[Hne Hj]] [[<- <-]|[Hne' Hj']] He; try done.
      * by destruct (Hfresh j' r2 Hj'); congruence.
      * by destruct (Hfresh j r1 Hj); congruence.
      * by eapply K8.
  - etrans; [exact Hs|]. apply steps_same_dom; cbn; try done.
    + intros j row Hj. exists row. split; [done|reflexivity].
    + rewrite H1, Ht. done.
    + intros j r' Hj. left. rewrite lookup_insert_ne; [done|]. intros <-. congruence.
Qed.

End sees.

(** *** Counting *)

Lemma count_inputs_pos p m : (0 <? count_inputs p m)%nat = true <-> exists i r, m !! i = Some r /\ p r = true.
Proof.
  unfold count_inputs. rewrite Nat.ltb_lt. split.
  - destruct (List.filter _ _) as [|[i r] l] eqn:E; cbn; [lia|]. intros _.
    assert (In (i, r) (List.filter (fun kv => p (snd kv)) (map_to_list m))) as Hin by (rewrite E; by left).
    apply filter_In in Hin as [Hin Hp]. exists i, r. split; [|done]. by apply elem_of_map_to_list, list_elem_of_In.
  - intros (i & r & Hi & Hp).
    assert (In (i, r) (List.filter (fun kv => p (snd kv)) (map_to_list m))) as Hin
      by (apply filter_In; split; [by apply list_elem_of_In, elem_of_map_to_list|done]).
    destruct (List.filter _ _); [done|cbn; lia].
Qed.

Lemma count_inputs_zero p m : (0 <? count_inputs p m)%nat = false -> forall i r, m !! i = Some r -> p r = false.
Proof.
  intros Hc i r Hi. destruct (p r) eqn:E; [|done]. assert ((0 <? count_inputs p m)%nat = true) as H by (apply count_inputs_pos; eauto).
  congruence.
Qed.

Lemma count_is_zero p m : (count_inputs p m =? 0)%nat = negb (0 <? count_inputs p m)%nat.
Proof. by destruct (count_inputs p m). Qed.

Lemma some_open_nonempty m : some_open m -> m <> ∅.
Proof. intros (i & r & Hi & _) ->. by rewrite lookup_empty in Hi. Qed.

(** *** Ends *)

Lemma keeps_set_finished s now : terminal_call s = true -> keeps_columns (set_finished s now).
Proof. intros Hs c. split_and!; try done. by right. Qed.

Lemma keeps_plain f : (forall c, kind (f c) = kind c /\ revision_id (f c) = revision_id c /\ created_ms (f c) = created_ms c /\
  event_seq (f c) = event_seq c /\ result_seq (f c) = result_seq c /\ result_expiry_ms (f c) = result_expiry_ms c) -> keeps_columns f.
Proof. intros Hf c. destruct (Hf c) as (? & ? & ? & ? & ? & ?). by split_and!; [..|left]. Qed.

Lemma post_complete `{Mode R} c0 st cl m res c now :
  sees (R := R) c0 st cl m res c -> recorded c -> settled st m -> post (complete_call_tx now) c (fun _ c' => call_ok c' /\ steps R c0 c').
Proof.
  intros Hs Hr Hset. unfold complete_call_tx. tx_steps. rewrite (at_st _ _ _ _ _ _ Hs).
  destruct (terminal_call st || bool_decide (st = CallCancelling)) eqn:Ht.
  { tx_steps. eapply sees_end; [done..|]. split; [intros ->|intros [-> | ->]]; done. }
  apply orb_false_iff in Ht as [Ht Hnc]. rewrite bool_decide_eq_false in Hnc. tx_steps. unfold id at 1 2.
  rewrite (at_closed _ _ _ _ _ _ Hs), (at_inputs _ _ _ _ _ _ Hs).
  destruct (negb cl || (0 <? count_inputs (fun r => is_open (status r)) m)%nat) eqn:Hp; tx_steps.
  - eapply sees_end; [done..|]. apply orb_true_iff in Hp as [Hcl|Hp].
    + apply negb_true_iff in Hcl as ->. by split.
    + apply count_inputs_pos in Hp. split; [|done]. intros ->. by rewrite (se_pending _ _ Hset) in Hp by done; destruct Hp as (i & r & Hi & _).
  - apply orb_false_iff in Hp as [Hcl Hp]. pose proof (count_inputs_zero _ _ Hp) as Hno.
    match goal with |- post (append_status_event ?s _) _ _ => set (target := s) end.
    assert (terminal_call target = true) as Htt by (unfold target; repeat case_match; done).
    pose proof (keeps_set_finished target now Htt) as Hk.
    eapply post_mono; [apply append_status_logged|]. intros seq c' Hl. tx_steps.
    assert (sees (R := R) c0 target cl m res c') as Hs' by (eapply sees_logged; [|exact Hl]; by eapply sees_status).
    eapply sees_end; [exact Hs'| | |].
    + eapply logged_recorded; [exact Hl|by apply with_call_recorded].
    + by split; [|intros Hc; rewrite Hc in Htt..|intros Hc; rewrite Hc in Htt].
    + split; [intros Hc|intros [Hc|Hc]]; by rewrite Hc in Htt.
Qed.

(** Past an appended event. *)
Ltac tx_log :=
  lazymatch goal with
  | |- post (append_event_with_metadata _ _ _ _ _) _ _ => eapply post_mono; [apply append_event_logged|cbv beta]
  | |- post (append_event _ _) _ _ => eapply post_mono; [apply append_logged|cbv beta]
  | |- post (append_status_event _ _) _ _ => eapply post_mono; [apply append_status_logged|cbv beta]
  | |- post (append_attempt_transition _ _ _ _ _ _) _ _ => eapply post_mono; [apply append_attempt_logged|cbv beta]
  end;
  let s := fresh "seq" in let c := fresh "c" in let Hl := fresh "Hlog" in intros s c Hl.
Ltac tx_run := repeat (first [tx_step|tx_log]; cbv beta).

Lemma post_finalize `{Mode R} c0 cl m res c now :
  sees (R := R) c0 CallCancelling cl m res c -> recorded c -> no_open m ->
  post (finalize_cancelled_tx now) c (fun _ c' => call_ok c' /\ steps R c0 c').
Proof.
  intros Hs Hr Hno. unfold finalize_cancelled_tx. tx_steps. rewrite (at_st _ _ _ _ _ _ Hs), bool_decide_eq_false_2 by done.
  tx_run. assert (sees (R := R) c0 CallCancelled cl m res c1) as Hs' by (eapply sees_logged; [|exact Hlog]; eapply sees_status; [done|by apply keeps_set_finished|done..]).
  eapply sees_end; [exact Hs'| |by split|].
  - eapply logged_recorded; [exact Hlog|]. apply with_call_recorded; [by apply keeps_set_finished|done].
  - split; [done|]. by intros [?|?].
Qed.

Lemma post_finalize_if_idle `{Mode R} c0 cl m res c now :
  sees (R := R) c0 CallCancelling cl m res c -> recorded c -> (forall i r, m !! i = Some r -> status r <> InputQueued) ->
  post (finalize_if_idle now) c (fun _ c' => call_ok c' /\ steps R c0 c').
Proof.
  intros Hs Hr Hq. unfold finalize_if_idle. tx_steps. rewrite (at_inputs _ _ _ _ _ _ Hs), count_is_zero.
  destruct (0 <? count_inputs _ m)%nat eqn:Ha; cbn [negb].
  - tx_steps. eapply sees_end; [done..| |]; [|split; [done|by intros [?|?]]].
    split; try done. intros _. split; [done|]. by apply count_inputs_pos in Ha.
  - eapply post_finalize; [done..|]. intros i r Hi. pose proof (count_inputs_zero _ _ Ha i r Hi) as Hact. specialize (Hq i r Hi).
    cbn in Hact. by destruct (status r).
Qed.

(** *** The lease of an input *)

Record holds (l : LeaseToken) (statuses : list InputStatus) (now : Z) (c : CallState) (r : Input) : Prop := mkHolds {
  ho_row : inputs c !! tk_index l = Some r;
  ho_status : status r ∈ statuses;
  ho_owner : default [] (lease_owner r) = tk_worker l;
  ho_generation : lease_generation r = tk_generation l;
  ho_expiry : now < default 0 (lease_expiry_ms r) }.

Lemma post_require_lease l sts now c (Q : () -> CallState -> Prop) :
  (forall r, holds l sts now c r -> Q tt c) -> post (require_lease l sts now) c Q.
Proof.
  intros HQ. unfold require_lease. tx_steps. destruct (inputs c !! tk_index l) as [r|] eqn:Hi; tx_steps.
  repeat (apply andb_true_iff in Hr as [Hr ?]). apply (HQ r).
  split; [done|by eapply bool_decide_eq_true|by eapply bool_decide_eq_true|by apply Z.eqb_eq|by apply Z.ltb_lt].
Qed.

Lemma post_executable c (Q : () -> CallState -> Prop) :
  (call_st (call c) = CallQueued \/ call_st (call c) = CallRunning -> Q tt c) -> post require_executable_call c Q.
Proof. intros HQ. unfold require_executable_call. tx_steps. destruct (call_st (call c)); tx_steps; auto. Qed.
