(* ===== verification/StoreKeeps.v ===== *)
(** Every operation of the function store keeps the invariant of the rows of a call
    ([StoreInvariant.call_ok]) and only moves the call forward ([StoreInvariant.steps]). *)

From S2P Require Import Prelude Decimal StoreTables StoreSpecs StoreCalls StoreOutcomes StoreInvariant.

#[local] Abbreviation sees := (StoreInvariant.sees (R := (=))).
#[local] Abbreviation steps := (StoreInvariant.steps (=)).
#[local] Abbreviation row_le := (StoreInvariant.row_le (=)).
#[local] Abbreviation post_insert_result := (StoreInvariant.post_insert_result (R := (=))).
#[local] Abbreviation post_complete := (StoreInvariant.post_complete (R := (=))).
#[local] Abbreviation post_finalize := (StoreInvariant.post_finalize (R := (=))).
#[local] Abbreviation post_finalize_if_idle := (StoreInvariant.post_finalize_if_idle (R := (=))).

(** ** Rows *)

Lemma finish_row s now res err att r :
  is_open (status r) = true -> is_open s = false ->
  row_le r (finish_input s now res err att r) /\ input_ok (finish_input s now res err att r).
Proof.
  intros Ho Hs. assert (is_active s = false) as Ha by (by destruct s). split; split; cbn; try done; try lia; congruence.
Qed.

Lemma requeue_row t i u e r :
  is_open (status r) = true -> row_le r (requeue_input t i u e r) /\ input_ok (requeue_input t i u e r).
Proof. intros Ho. split; split; cbn; try done; try lia; congruence. Qed.

Lemma lease_row_ok w a x r :
  status r = InputQueued -> a <> [] -> StoreInvariant.row_le Z.le r (lease_row w a x r) /\ input_ok (lease_row w a x r).
Proof.
  intros Hq Ha. split; split; cbn; try done; try lia; [by rewrite Hq|]. intros _. split_and!; [by eexists..|by exists a].
Qed.

Lemma start_row now r : status r = InputLeased -> input_ok r -> row_le r (start_input now r) /\ input_ok (start_input now r).
Proof.
  intros Hl [Ha _]. rewrite Hl in Ha. split; split; cbn; try done; rewrite ?Hl; try done; lia.
Qed.

Lemma expiry_row x r : is_active (status r) = true -> input_ok r -> row_le r (set_expiry x r) /\ input_ok (set_expiry x r).
Proof.
  intros Hact [Ha _]. destruct (Ha Hact) as (? & ? & ?). split; split; cbn; try done; rewrite ?Hact; try done; try lia; auto 10.
Qed.

Lemma cancel_row now r : input_ok r -> row_le r (cancel_queued now r) /\ input_ok (cancel_queued now r).
Proof.
  intros Hok. unfold cancel_queued. case_bool_decide as Hq; [|split; [reflexivity|done]].
  destruct Hok as [_ Hi]. rewrite Hq in Hi. destruct Hi as [? ?]; [done|]. split; split; cbn; try done; rewrite ?Hq; try done; lia.
Qed.

(** What [persist_attempt_stats] does to a row. *)
Definition put_stats (stats : option AttemptStats) (r : Input) : Input :=
  mkInput (payload r) (status r) (user_attempts r) (infra_attempts r) (available_ms r) (lease_owner r) (lease_expiry_ms r)
    (lease_generation r) (attempt_id r) (started_ms r) (finished_ms r) (result_blob r) (error_blob r)
    (match stats with Some st => Some st | None => stats_blob r end).

Lemma stats_row x r : input_ok r -> row_le r (put_stats x r) /\ input_ok (put_stats x r).
Proof. intros [Ha Hi]. split; [split; cbn; auto 10; lia|by split]. Qed.

Lemma alter_put_none i (m : gmap Z Input) : alter (put_stats None) i m = m.
Proof.
  apply map_eq. intros j. destruct (decide (i = j)) as [<-|]; [|by rewrite lookup_alter_ne].
  rewrite lookup_alter, decide_True by done. destruct (m !! i) as [[]|]; done.
Qed.

Lemma post_stats c0 st cl m res c l stats (Q : () -> CallState -> Prop) :
  sees c0 st cl m res c -> (forall c', sees c0 st cl (alter (put_stats stats) (tk_index l) m) res c' -> Q tt c') ->
  post (persist_attempt_stats l stats) c Q.
Proof.
  intros Hs HQ. unfold persist_attempt_stats. destruct stats as [x|].
  - tx_steps. apply HQ.
    apply (sees_input (put_stats (Some x)) (tk_index l) c0 st cl m res
             (mkCallState (call c) (inputs c) (events c) (results c) (attempt_stats c ++ [(tk_index l, default [] (attempt_id r), x)]))).
    + destruct Hs as [Hc Hst ? ? ? ?]. split; try done; [by destruct Hc|]. etrans; [exact Hst|].
      apply steps_same_dom; try done; [|by left]. intros i row Hi. exists row. split; [done|reflexivity].
    + intros row Hi. apply stats_row. destruct Hs as [Hc _ _ _ <- _]. by apply (co_input _ Hc (tk_index l)).
  - tx_steps. apply HQ. by rewrite alter_put_none.
Qed.

(** ** Phases *)

(** [Leased] and [Running] are one phase: what the status of a call depends on. *)
Definition same_phase (m m' : gmap Z Input) : Prop := forall i,
  (fun r => (is_open (status r), is_active (status r))) <$> m !! i = (fun r => (is_open (status r), is_active (status r))) <$> m' !! i.

#[global] Instance same_phase_equiv : Equivalence same_phase.
Proof. split; [by intros m i|by intros m m' H i|by intros m1 m2 m3 H1 H2 i; rewrite H1, H2]. Qed.

Lemma same_phase_row m m' i r' : same_phase m m' -> m' !! i = Some r' ->
  exists r, m !! i = Some r /\ is_open (status r) = is_open (status r') /\ is_active (status r) = is_active (status r').
Proof.
  intros H Hi. specialize (H i). rewrite Hi in H. destruct (m !! i) as [r|]; [|done]. exists r. by simplify_eq/=.
Qed.

Lemma queued_phase s : s = InputQueued <-> is_open s = true /\ is_active s = false.
Proof. destruct s; cbn; naive_solver. Qed.

#[global] Instance settled_proper : Proper ((=) ==> same_phase ==> iff) settled.
Proof.
  intros s ? <-. enough (forall m m', same_phase m m' -> settled s m -> settled s m') as H.
  { intros m m' Hm. split; apply H; [done|by symmetry]. }
  intros m m' Hm [Ht Hc Hp Hu]. split; [| | |done].
  - intros Hs i r' Hi. destruct (same_phase_row _ _ _ _ Hm Hi) as (r & Hr & <- & _). by eapply Ht.
  - intros Hs. destruct (Hc Hs) as [Hq (i & r & Hi & Ha)]. split.
    + intros j r' Hj. destruct (same_phase_row _ _ _ _ Hm Hj) as (r0 & Hr & Ho & Ha'). rewrite queued_phase, <- Ho, <- Ha', <- queued_phase.
      by eapply Hq.
    + symmetry in Hm. destruct (same_phase_row _ _ _ _ Hm Hi) as (r' & Hr & _ & Ha'). exists i, r'. by rewrite Ha'.
  - intros Hs. specialize (Hp Hs). subst m. apply map_empty. intros i. destruct (m' !! i) eqn:E; [|done].
    destruct (same_phase_row _ _ _ _ Hm E) as (? & ? & _). by rewrite lookup_empty in *.
Qed.

#[global] Instance some_open_proper : Proper (same_phase ==> iff) some_open.
Proof.
  enough (forall m m', same_phase m m' -> some_open m -> some_open m') as H.
  { intros m m' Hm. split; apply H; [done|by symmetry]. }
  intros m m' Hm (i & r & Hi & Ho). symmetry in Hm. destruct (same_phase_row _ _ _ _ Hm Hi) as (r' & Hr & Ho' & _).
  exists i, r'. by rewrite Ho'.
Qed.

Lemma same_phase_empty m m' : same_phase m m' -> m' <> ∅ -> m <> ∅.
Proof.
  intros Hm Hne ->. apply Hne, map_empty. intros i. destruct (m' !! i) eqn:E; [|done].
  by destruct (same_phase_row _ _ _ _ Hm E) as (? & ? & _).
Qed.

#[global] Instance live_proper : Proper ((=) ==> (=) ==> same_phase ==> iff) live.
Proof.
  intros s ? <- cl ? <-. enough (forall m m', same_phase m m' -> live s cl m -> live s cl m') as H.
  { intros m m' Hm. split; apply H; [done|by symmetry]. }
  intros m m' Hm [Hp Hl]. split; [done|]. intros Hs Hcl Hne. rewrite <- Hm. apply Hl; [done..|]. by eapply same_phase_empty.
Qed.

Lemma alter_phase f i m :
  (forall r, m !! i = Some r -> is_open (status (f r)) = is_open (status r) /\ is_active (status (f r)) = is_active (status r)) ->
  same_phase m (alter f i m).
Proof.
  intros Hf j. destruct (decide (i = j)) as [<-|]; [|by rewrite lookup_alter_ne].
  rewrite lookup_alter, decide_True by done. destruct (m !! i) as [r|]; [|done]. destruct (Hf r) as [Ho Ha]; [done|]. cbn. by rewrite Ho, Ha.
Qed.

Lemma settled_executable st m : st = CallQueued \/ st = CallRunning -> settled st m.
Proof. intros [-> | ->]; by split. Qed.

Lemma executable_not_terminal st : st = CallQueued \/ st = CallRunning -> terminal_call st = false.
Proof. by intros [-> | ->]. Qed.

Lemma live_open st cl m : some_open m -> st <> CallPending -> live st cl m.
Proof. intros Ho Hp. by split. Qed.

Lemma alter_open f i m r : m !! i = Some r -> is_open (status (f r)) = true -> some_open (alter f i m).
Proof. intros Hi Ho. exists i, (f r). by rewrite lookup_alter, decide_True, Hi by done. Qed.

Lemma holds_open l sts now c r : holds l sts now c r -> (forall s, s ∈ sts -> is_open s = true) -> is_open (status r) = true.
Proof. intros Hh Hs. apply Hs, Hh. Qed.

(** Follow the statements of a transaction with [sees]. *)
Ltac see H Hl := let H' := fresh H in pose proof (sees_logged _ _ _ _ _ _ _ H Hl) as H'; clear H Hl; rename H' into H.

Section keeps.
Context `{Prost}.

(** ** Reports of the holder of a lease *)

Lemma heartbeat_keeps l now lease_ms : keeps (heartbeat_rows l now lease_ms).
Proof.
  intros c Hok. unfold heartbeat_rows. tx_steps. destruct (inputs c !! tk_index l) as [r|] eqn:Hi; [|done].
  repeat (apply andb_true_iff in Hr as [Hr ?]). pose proof (co_input _ (ok_core _ Hok) _ _ Hi) as Hin.
  pose proof (sees_start (R := (=)) c Hok) as Hs.
  assert (forall r', inputs c !! tk_index l = Some r' -> r' = r) as Hu by (intros; congruence).
  apply (sees_input (set_expiry (saturating_add 64 now lease_ms)) (tk_index l)) in Hs;
    [|intros r' Hr'; rewrite (Hu r' Hr'); by apply expiry_row].
  assert (same_phase (inputs c) (alter (set_expiry (saturating_add 64 now lease_ms)) (tk_index l) (inputs c))) as Hp by (by apply alter_phase).
  eapply sees_same; [done|exact Hs|rewrite <- Hp; apply Hok|rewrite <- Hp; apply Hok].
Qed.

Lemma mark_running_keeps l now startup : keeps (mark_running_rows l now startup).
Proof.
  intros c Hok. unfold mark_running_rows. tx_steps. apply post_require_lease. intros r Hh.
  destruct Hh as [Hi Hst _ _ _]. apply list_elem_of_singleton in Hst. tx_steps. apply post_executable. intros Hex. tx_steps.
  pose proof (co_input _ (ok_core _ Hok) _ _ Hi) as Hin. pose proof (sees_start (R := (=)) c Hok) as Hs.
  apply (sees_input (start_input now) (tk_index l)) in Hs; [|intros r' Hr'; simplify_eq; by apply start_row].
  set (m' := alter (start_input now) (tk_index l) (inputs c)) in *.
  assert (some_open m') as Ho by (by eapply alter_open).
  match goal with |- context[bool_decide (?s = CallQueued)] => change s with (call_st (call c)) end.
  case_bool_decide as Hq; tx_run.
  - eapply (sees_status (set_started now) _ _ _ _ _ _ CallRunning) in Hs; [|by apply keeps_plain|done|done|by rewrite Hq].
    see Hs Hlog. see Hs Hlog0. eapply sees_same; [done|exact Hs|apply settled_executable; by right|by apply live_open].
  - see Hs Hlog. eapply sees_same; [done|exact Hs|by apply settled_executable|apply live_open; [done|]]. by destruct Hex as [-> | ->].
Qed.

(** A row that is finished by the holder of its lease. *)
Lemma sees_finish c0 st cl m res c i s now rb err att :
  sees c0 st cl m res c -> (exists r, m !! i = Some r /\ is_open (status r) = true) -> is_open s = false ->
  sees c0 st cl (alter (fun r => finish_input s now (rb r) (err r) (att r) r) i m) res
    (with_inputs (alter (fun r => finish_input s now (rb r) (err r) (att r) r) i) c).
Proof.
  intros Hs (r & Hi & Ho) Hd. apply (sees_input (fun r => finish_input s now (rb r) (err r) (att r) r)); [done|].
  intros r' Hr'. simplify_eq. by apply finish_row.
Qed.

Lemma stats_open stats i (m : gmap Z Input) j r : m !! j = Some r -> is_open (status r) = true ->
  exists r', alter (put_stats stats) i m !! j = Some r' /\ is_open (status r') = true.
Proof.
  intros Hj Ho. destruct (decide (i = j)) as [<-|]; [exists (put_stats stats r); by rewrite lookup_alter, decide_True, Hj by done|].
  exists r. by rewrite lookup_alter_ne.
Qed.

(** The only input of a call that is not a batch. *)
Lemma single_input c i r j r' : core_ok c -> kind (call c) <> Batch -> inputs c !! i = Some r -> inputs c !! j = Some r' -> j = i.
Proof.
  intros Hc Hk Hi Hj. destruct (co_single _ Hc Hk) as [Hsz _].
  assert (0 <= i < 1) by (change 1 with (Z.of_nat 1); rewrite <- Hsz; apply (co_index _ Hc); eauto).
  assert (0 <= j < 1) by (change 1 with (Z.of_nat 1); rewrite <- Hsz; apply (co_index _ Hc); eauto). lia.
Qed.

Lemma finish_error_keeps c0 st cl m c l e now :
  call_ok c0 -> sees c0 st cl m (results c0) c -> st = CallQueued \/ st = CallRunning -> kind (call c0) <> Batch ->
  (exists r, m !! tk_index l = Some r /\ is_open (status r) = true) ->
  post (finish_error_tx l e now) c (fun _ c' => call_ok c' /\ steps c0 c').
Proof.
  intros Hok Hs Hex Hk Hrow. unfold finish_error_tx. tx_run.
  assert (no_open (alter (fun r => finish_input InputFailed now (result_blob r) (Some e) (attempt_id r) r) (tk_index l) m)) as Hno.
  { intros j r' Hj. destruct Hrow as (r & Hr & _). destruct (decide (tk_index l = j)) as [<-|Hne].
    - rewrite lookup_alter, decide_True, Hr in Hj by done. by simplify_eq/=.
    - rewrite lookup_alter_ne in Hj by done. destruct Hne. symmetry. destruct Hs as [Hc Hst _ _ <- _].
      rewrite <- (sp_kind _ _ Hst) in Hk. by eapply (single_input c). }
  apply (sees_finish _ _ _ _ _ _ (tk_index l) InputFailed now (fun r => result_blob r) (fun _ => Some e) (fun r => attempt_id r)) in Hs; [|done..].
  apply (sees_call (fun c => if terminal_call (call_st c) then c else set_error e (set_finished CallFailed now c)) _ _ _ _ _ _ CallFailed cl) in Hs.
  2:{ intros k. destruct (terminal_call (call_st k)) eqn:E; split_and!; try done; [by left|by right]. }
  2:{ destruct Hs as [_ _ Hst _ _ _]. cbn in Hst |- *. rewrite Hst. by destruct Hex as [-> | ->]. }
  2:{ destruct Hs as [_ _ Hst Hcl _ _]. cbn in Hst, Hcl |- *. rewrite Hst. by destruct Hex as [-> | ->]. }
  2:done. 2:{ by destruct Hex as [-> | ->]. }
  see Hs Hlog. see Hs Hlog0. eapply sees_same; [done|exact Hs|by split|split; [done|by intros [?|?]]].
Qed.

(** A result of an input that is not a generator's, and the input it ends. *)
Lemma finished_recorded c0 st cl m res c i r f :
  recorded c0 -> sees c0 st cl (alter f i m) (<[i := r]> (results c0)) c -> res = results c0 ->
  (exists row, m !! i = Some row) -> (forall row, is_open (status (f row)) = false) -> recorded c.
Proof.
  intros Hr [_ Hs _ _ Hm Hres] _ (row & Hrow) Hf j r' Hk. rewrite Hres, lookup_insert_Some. intros [[<- <-]|[Hne Hj]].
  - exists (f row). rewrite Hm, lookup_alter, decide_True, Hrow by done. done.
  - rewrite (sp_kind _ _ Hs) in Hk. destruct (Hr j r' Hk Hj) as (row0 & Hrow0 & Ho).
    destruct (sp_inputs _ _ Hs j row0 Hrow0) as (row' & ? & Hle). exists row'. split; [done|].
    by destruct (rl_done _ _ Hle Ho) as (-> & _).
Qed.

Lemma result_sequence_next c0 st cl m res c : sees c0 st cl m res c -> 1 <= result_seq (call c) + 1.
Proof. intros [Hc _ _ _ _ _]. pose proof (co_result_seq _ Hc). lia. Qed.

Lemma fail_batch_keeps c0 st cl m c l e now :
  call_ok c0 -> sees c0 st cl m (results c0) c -> st = CallQueued \/ st = CallRunning ->
  (exists r, m !! tk_index l = Some r /\ is_open (status r) = true) ->
  post (fail_batch_input l e now) c (fun _ c' => call_ok c' /\ steps c0 c').
Proof.
  intros Hok Hs Hex Hrow. unfold fail_batch_input, stored_input. tx_steps. pose proof (result_sequence_next _ _ _ _ _ _ Hs) as Hseq.
  apply sees_bump in Hs. eapply post_insert_result; [exact Hs|by apply executable_not_terminal|done|cbn; lia|]. clear Hs. intros c1 Hs _. tx_run.
  match type of Hlog with logged (with_inputs (alter (fun r => finish_input _ _ (Some ?res) _ _ r) _) _) _ =>
    apply (sees_finish _ _ _ _ _ _ (tk_index l) InputFailed now (fun _ => Some res) (fun _ => Some e) (fun r => attempt_id r)) in Hs; [|done..]
  end.
  see Hs Hlog. eapply post_mono; [eapply post_complete; [exact Hs| |by apply settled_executable]|by intros; cbv beta; tx_steps].
  eapply finished_recorded; [apply Hok|exact Hs|done| |done]. destruct Hrow as (row & ? & _). by eexists.
Qed.

Lemma held_row l sts now c r : holds l sts now c r -> sts = [InputRunning; InputLeased] \/ sts = [InputLeased; InputRunning] \/ sts = [InputRunning] ->
  inputs c !! tk_index l = Some r /\ is_open (status r) = true.
Proof.
  intros [Hi Hst _ _ _] Hs. split; [done|]. destruct Hs as [-> | [-> | ->]]; repeat (apply elem_of_cons in Hst as [Hst|Hst]; [by rewrite Hst|]); by apply elem_of_nil in Hst.
Qed.

Lemma fail_user_keeps l e stats now : keeps (fail_user_rows l e stats now).
Proof.
  intros c Hok. unfold fail_user_rows. tx_steps. apply post_require_lease. intros r Hh.
  apply held_row in Hh as [Hi Ho]; [|auto]. tx_steps. apply post_executable. intros Hex. tx_steps.
  eapply post_stats; [by apply sees_start|]. intros c1 Hs. tx_run. see Hs Hlog.
  pose proof (stats_open stats (tk_index l) _ _ _ Hi Ho) as Hrow.
  case_bool_decide as Hk; [by eapply fail_batch_keeps|]. eapply finish_error_keeps; [done..| |done].
  by rewrite <- (sp_kind _ _ (at_steps _ _ _ _ _ _ Hs)).
Qed.

Lemma retry_keeps l e stats retry_at infra now : keeps (retry_rows l e stats retry_at infra now).
Proof.
  intros c Hok. unfold retry_rows. tx_steps. apply post_require_lease. intros r Hh.
  apply held_row in Hh as [Hi Ho]; [|auto]. tx_steps. apply post_executable. intros Hex. tx_steps.
  eapply post_stats; [by apply sees_start|]. intros c1 Hs. tx_run. see Hs Hlog.
  pose proof (stats_open stats (tk_index l) _ _ _ Hi Ho) as Hrow.
  destruct (bool_decide (kind (call c0) = Generator) && _) eqn:Hg; tx_steps.
  - apply andb_true_iff in Hg as [Hg _]. rewrite bool_decide_eq_true in Hg. eapply finish_error_keeps; [done..| |done].
    rewrite <- (sp_kind _ _ (at_steps _ _ _ _ _ _ Hs)). by rewrite Hg.
  - destruct Hrow as (r1 & Hr1 & Ho1). set (f := requeue_input _ _ _ _) in *.
    apply (sees_input f (tk_index l)) in Hs; [|intros r' Hr'; simplify_eq; by apply requeue_row].
    assert (some_open (alter f (tk_index l) (alter (put_stats stats) (tk_index l) (inputs c)))) as Hop by (by eapply alter_open).
    match goal with |- context[if ?b then _ else _] => destruct b eqn:Hb end; tx_run.
    + apply andb_true_iff in Hb as [_ Hb]. rewrite bool_decide_eq_true in Hb.
      eapply (sees_status (set_status CallQueued now) _ _ _ _ _ _ CallQueued) in Hs; [|by apply keeps_plain|done|done|by apply executable_not_terminal].
      see Hs Hlog. eapply sees_same; [done|exact Hs|apply settled_executable; by left|by apply live_open].
    + eapply sees_same; [done|exact Hs|by apply settled_executable|apply live_open; [done|]]. by destruct Hex as [-> | ->].
Qed.

(** [succeed], in the three parts between which artifacts are referenced. *)
Lemma succeed_guard l now c :
  post (require_lease l [InputRunning; InputLeased] now ;; require_executable_call ;; call_kind) c (fun k c' =>
    c' = c /\ k = kind (call c) /\ (call_st (call c) = CallQueued \/ call_st (call c) = CallRunning) /\
    exists r, inputs c !! tk_index l = Some r /\ is_open (status r) = true).
Proof.
  tx_steps. apply post_require_lease. intros r Hh. tx_steps. apply post_executable. intros Hex. tx_steps.
  apply held_row in Hh as [Hi Ho]; [|auto]. split_and!; [done..|]. by exists r.
Qed.

Lemma succeed_generator_keeps l stats now c :
  call_ok c -> (call_st (call c) = CallQueued \/ call_st (call c) = CallRunning) ->
  (exists r, inputs c !! tk_index l = Some r /\ is_open (status r) = true) ->
  post (succeed_generator l stats now) c (fun _ c' => call_ok c' /\ steps c c').
Proof.
  intros Hok Hex Hrow. unfold succeed_generator. tx_steps. pose proof (sees_start (R := (=)) c Hok) as Hs.
  apply (sees_finish _ _ _ _ _ _ (tk_index l) InputSucceeded now (fun _ => None) (fun r => error_blob r) (fun r => attempt_id r)) in Hs; [|done..].
  eapply post_stats; [exact Hs|]. clear Hs. intros c1 Hs. tx_run. see Hs Hlog.
  eapply post_mono; [eapply post_complete; [exact Hs| |by apply settled_executable]|by intros; cbv beta; tx_steps].
  eapply sees_recorded; [apply Hok|exact Hs].
Qed.

(** Between the second and the third. *)
Definition succeeded (c0 : CallState) (i : Z) (c : CallState) : Prop :=
  exists st m res, sees c0 st (input_closed (call c0)) m res c /\ (st = CallQueued \/ st = CallRunning) /\ recorded c /\
    exists r r', m !! i = Some r /\ status r = InputSucceeded /\ res !! i = Some r' /\ result_blob r = Some r'.

Lemma alter_stats_finish x i f (m : gmap Z Input) : alter (put_stats x) i (alter f i m) = alter (fun r => put_stats x (f r)) i m.
Proof. apply alter_alter_eq. Qed.

Lemma succeed_rows_keeps l res stats now c :
  call_ok c -> (call_st (call c) = CallQueued \/ call_st (call c) = CallRunning) ->
  (exists r, inputs c !! tk_index l = Some r /\ is_open (status r) = true) ->
  post (succeed_rows l res stats now) c (fun stored c' => succeeded c (tk_index l) c' /\ results c' !! tk_index l = Some stored /\
    res_index stored = tk_index l).
Proof.
  intros Hok Hex Hrow. unfold succeed_rows, stored_result, stored_input. tx_steps. apply Z.eqb_eq in Hr.
  pose proof (sees_start (R := (=)) c Hok) as Hs. pose proof (result_sequence_next _ _ _ _ _ _ Hs) as Hseq. apply sees_bump in Hs.
  match goal with |- post (if ?b then _ else _) _ _ => destruct b end; tx_steps; rewrite Hr;
    (eapply post_insert_result; [exact Hs|by apply executable_not_terminal|done|cbn; lia|]; clear Hs; intros c1 Hs _; tx_steps;
     match goal with |- context[finish_input _ _ (Some ?res) _ _ _] => set (stored := res) in * end;
     apply (sees_finish _ _ _ _ _ _ (tk_index l) InputSucceeded now (fun _ => Some stored) (fun r => error_blob r) (fun r => attempt_id r)) in Hs; [|done..];
     eapply post_stats; [exact Hs|]; clear Hs; intros c2 Hs; rewrite alter_stats_finish in Hs; tx_steps;
     destruct Hrow as (row & Hrow & Ho);
     split; [|split; [rewrite (at_results _ _ _ _ _ _ Hs), lookup_insert_eq; done|done]];
     eexists _, _, _; split_and!; [exact Hs|done| |];
     [eapply finished_recorded; [apply Hok|exact Hs|done|by eexists|done]
     |eexists _, stored; rewrite lookup_alter, decide_True, Hrow by done; split_and!; [done..|by rewrite lookup_insert_eq|done]]).
Qed.

Lemma succeed_end_keeps l stored now c0 c :
  succeeded c0 (tk_index l) c -> post (succeed_end l stored now) c (fun _ c' => call_ok c' /\ steps c0 c').
Proof.
  intros (st & m & res & Hs & Hex & Hr & _). unfold succeed_end. tx_run.
  pose proof (logged_recorded _ _ Hlog Hr) as Hr1. pose proof (logged_recorded _ _ Hlog0 Hr1) as Hr2. see Hs Hlog. see Hs Hlog0.
  eapply post_mono; [eapply post_complete; [exact Hs|done|by apply settled_executable]|by intros; cbv beta; tx_steps].
Qed.

Lemma commit_yield_keeps l i v now : keeps (commit_yield_rows l i v now).
Proof.
  intros c Hok. unfold commit_yield_rows, stored_input. tx_steps. apply post_require_lease. intros r Hh. tx_steps.
  apply post_executable. intros Hex. tx_steps. rewrite bool_decide_eq_true in Hr.
  pose proof (sees_start (R := (=)) c Hok) as Hs. pose proof (result_sequence_next _ _ _ _ _ _ Hs) as Hseq. apply sees_bump in Hs.
  eapply post_insert_result; [exact Hs|by apply executable_not_terminal|done|cbn; lia|]. clear Hs. intros c1 Hs Hc1. tx_steps.
  eapply sees_end; [exact Hs| |apply Hok|apply Hok]. intros j r' Hk. destruct Hk. by rewrite Hc1.
Qed.

(** Operations that only append events. *)
Lemma logged_keeps {A} (m : tx CallState A) : (forall c, post m c (fun _ c' => logged c c')) -> keeps m.
Proof.
  intros Hm c Hok. eapply post_mono; [apply Hm|]. cbv beta. intros _ c' Hl. pose proof (sees_start (R := (=)) c Hok) as Hs. see Hs Hl.
  eapply sees_same; [done|exact Hs|apply Hok|apply Hok].
Qed.

Lemma post_event_by_sequence s c (Q : CallEvent -> CallState -> Prop) : (forall e, Q e c) -> post (event_by_sequence s) c Q.
Proof. intros HQ. unfold event_by_sequence. tx_steps. apply HQ. Qed.

(** ** Cancellation *)

Lemma cancelled_not_queued now (m : gmap Z Input) i r : cancel_queued now <$> m !! i = Some r -> status r <> InputQueued.
Proof.
  destruct (m !! i) as [r'|]; [|done]. cbn. intros [= <-]. unfold cancel_queued. by case_bool_decide.
Qed.

Lemma cancel_keeps reason request now : keeps (cancel_rows reason request now).
Proof.
  intros c Hok. unfold cancel_rows. tx_steps. pose proof (sees_start (R := (=)) c Hok) as Hs.
  destruct (terminal_call (call_st (call c))) eqn:Ht; [by tx_steps|]. tx_steps. case_bool_decide as Hc; tx_run.
  - rewrite Hc in Hs. eapply post_finalize_if_idle; [exact Hs|apply Hok|]. intros i r Hi.
    destruct (se_cancelling _ _ (ok_settled _ Hok) Hc) as [Hq _]. by eapply Hq.
  - eapply (sees_status (set_cancelling reason now) _ _ _ _ _ _ CallCancelling) in Hs; [|by apply keeps_plain|done|done|done].
    see Hs Hlog. see Hs Hlog0. apply (sees_map (cancel_queued now)) in Hs.
    2:{ intros i r Hi. apply cancel_row. by apply (co_input _ (ok_core _ Hok) i). }
    eapply post_finalize_if_idle; [exact Hs|eapply sees_recorded; [apply Hok|exact Hs]|].
    intros i r. rewrite lookup_fmap. apply cancelled_not_queued.
Qed.

Lemma finish_cancelled_keeps l reason now : keeps (finish_cancelled_rows l reason now).
Proof.
  intros c Hok. unfold finish_cancelled_rows. tx_steps. apply post_require_lease. intros r Hh. apply held_row in Hh as [Hi Ho]; [|auto].
  tx_steps. rewrite bool_decide_eq_true in Hr. tx_run. pose proof (sees_start (R := (=)) c Hok) as Hs. see Hs Hlog. rewrite Hr in Hs.
  apply (sees_finish _ _ _ _ _ _ (tk_index l) InputCancelled now (fun r => result_blob r) (fun _ => None) (fun r => attempt_id r)) in Hs; [|by exists r|done].
  match goal with |- post (if ?b then _ else _) _ ?Q => assert (forall c', sees c CallCancelling (input_closed (call c))
    (alter (fun r => finish_input InputCancelled now (result_blob r) None (attempt_id r) r) (tk_index l) (inputs c)) (results c) c' -> Q tt c') as Hend;
    [|destruct b; tx_step; apply Hend; [done|]] end.
  - intros c' Hs'. tx_steps. eapply post_mono; [eapply post_finalize_if_idle; [exact Hs'|eapply sees_recorded; [apply Hok|exact Hs']|]|by intros; cbv beta; tx_steps].
    intros j r' Hj. destruct (decide (tk_index l = j)) as [<-|].
    + rewrite lookup_alter, decide_True, Hi in Hj by done. by simplify_eq/=.
    + rewrite lookup_alter_ne in Hj by done. destruct (se_cancelling _ _ (ok_settled _ Hok) Hr) as [Hq _]. by eapply Hq.
  - eapply (sees_call (set_reason reason)); [exact Hs|by apply keeps_plain|apply Hs|apply Hs|done|done].
Qed.

(** ** Inputs *)

Lemma size_insert_new (m : gmap Z Input) i x : m !! i = None -> Z.of_nat (size (<[i := x]> m)) = Z.of_nat (size m) + 1.
Proof. intros Hi. rewrite map_size_insert_None by done. lia. Qed.

Lemma input_new_ok enc now : input_ok (new_input enc now).
Proof. by split. Qed.

Lemma sees_append c0 st m res c enc now i :
  sees c0 st false m res c -> i = Z.of_nat (size m) -> m !! i = None ->
  sees c0 st false (<[i := new_input enc now]> m) res (with_inputs (insert i (new_input enc now)) c).
Proof.
  intros [Hc Hs H1 H2 H3 H4] Hi Hn. subst m. split; cbn; try done.
  - destruct Hc as [K1 K2 K3 K4 K5 K6 K7 K8 K9]. split; cbn; try done.
    + intros j r. rewrite lookup_insert_Some. intros [[<- <-]|[_ Hj]]; [apply input_new_ok|eauto].
    + intros j. rewrite lookup_insert_is_Some, size_insert_new, K2 by done. destruct (decide (i = j)); lia.
    + intros Hk. destruct (K3 Hk) as [_ ?]. congruence.
  - etrans; [exact Hs|]. split; cbn; try done; [| | |by left].
    + intros j r Hj. exists r. split; [|reflexivity]. rewrite lookup_insert_ne; [done|]. congruence.
    + intros j r'. rewrite lookup_insert_Some. intros [[<- <-]|[_ Hj]] Hn'; [done|congruence].
    + congruence.
Qed.

Lemma for_each_checks {S A} (f : A -> tx S ()) l s (Q : () -> S -> Prop) :
  (forall x s, post (f x) s (fun _ s' => s' = s)) -> Q tt s -> post (for_each f l) s Q.
Proof.
  intros Hf HQ. eapply post_mono; [apply (post_for_each f (fun _ s' => s' = s)); [done|]|].
  - intros _ x _ ? _ ->. apply Hf.
  - by intros [] s' ->.
Qed.

Lemma append_input_keeps i enc now c :
  call_ok c -> (call_st (call c) ∈ [CallPending; CallQueued; CallRunning]) ->
  post (append_input_rows i enc now) c (fun _ c' => call_ok c' /\ steps c c').
Proof.
  intros Hok Hst. unfold append_input_rows. tx_steps. apply negb_true_iff in Hr. unfold id in *.
  destruct (in_index i <? Z.of_nat (size (inputs c))) eqn:Hlt; tx_steps; [done|]. apply Z.eqb_eq in Hr0.
  apply for_each_checks; [intros x s; by tx_steps|]. tx_steps. unfold insert_input. tx_steps.
  apply negb_true_iff in Hr1. rewrite bool_decide_eq_false, <- eq_None_not_Some in Hr1.
  pose proof (sees_start (R := (=)) c Hok) as Hs. rewrite Hr in Hs. apply (sees_append _ _ _ _ _ enc now (in_index i)) in Hs; [|done..].
  assert (some_open (<[in_index i := new_input enc now]> (inputs c))) as Ho by (exists (in_index i), (new_input enc now); by rewrite lookup_insert_eq).
  case_bool_decide as Hp; tx_run.
  - eapply (sees_status (set_queued now) _ _ _ _ _ _ CallQueued) in Hs; [|by apply keeps_plain|done|done|by rewrite Hp].
    see Hs Hlog. eapply sees_same; [done|exact Hs|apply settled_executable; by left|by apply live_open].
  - assert (call_st (call c) = CallQueued \/ call_st (call c) = CallRunning) as Hex by (set_unfold in Hst; naive_solver).
    eapply sees_same; [done|exact Hs|by apply settled_executable|by apply live_open].
Qed.

Lemma close_inputs_keeps n now : keeps (close_inputs_rows n now).
Proof.
  intros c Hok. unfold close_inputs_rows. tx_steps. unfold id. pose proof (sees_start (R := (=)) c Hok) as Hs.
  assert (forall c', sees c (call_st (call c)) true (inputs c) (results c) c' ->
    post (complete_call_tx now) c' (fun _ c' => call_ok c' /\ steps c c')) as Hend.
  { intros c' Hs'. eapply post_complete; [exact Hs'|eapply sees_recorded; [apply Hok|exact Hs']|apply Hok]. }
  destruct (input_closed (call c)) eqn:Hc; tx_run; (eapply post_mono; [apply Hend|by intros; cbv beta; tx_steps]); [done|].
  apply (sees_call (set_closed now) _ _ _ _ _ _ (call_st (call c)) true) in Hs; [|by apply keeps_plain|done..]. by see Hs Hlog.
Qed.

Lemma complete_ready_keeps now : keeps (complete_ready now).
Proof.
  intros c Hok. unfold complete_ready. tx_steps. destruct (_ && _); [|by tx_steps].
  eapply post_complete; [by apply sees_start|apply Hok|apply Hok].
Qed.

(** ** Deadlines and leases *)

Lemma log_each (f : Z * Input -> tx CallState ()) l c (Q : () -> CallState -> Prop) :
  (forall kv c, post (f kv) c (fun _ c' => logged c c')) -> (forall c', logged c c' -> Q tt c') -> post (for_each f l) c Q.
Proof.
  intros Hf HQ. eapply post_mono; [apply (post_for_each f (fun _ c' => logged c c')); [reflexivity|]|by intros [] c' Hl; apply HQ].
  intros _ kv _ c1 _ Hl. eapply post_mono; [apply Hf|]. cbv beta. intros _ c2 Hl2. by etrans.
Qed.

Lemma expire_deadline_keeps call_id now : keeps (expire_deadline call_id now).
Proof.
  intros c Hok. unfold expire_deadline. tx_steps. unfold id. destruct (_ && _) eqn:Hd; [|by tx_steps].
  apply andb_true_iff in Hd as [Hst _]. rewrite bool_decide_eq_true in Hst.
  tx_steps. apply log_each; [intros [i r] c1; destruct (_ && _); tx_run; [done|reflexivity]|]. intros c1 Hl.
  pose proof (sees_start (R := (=)) c Hok) as Hs. see Hs Hl. tx_run.
  eapply (sees_status (set_deadline_failed now) _ _ _ _ _ _ CallFailed) in Hs; [|by apply keeps_plain|done|done|].
  2:{ set_unfold in Hst. by destruct Hst as [-> | [-> | [-> | []]]]. }
  set (f := fun r => if is_open (status r) then finish_input InputFailed now (result_blob r) (error_blob r) None r else r) in *.
  apply (sees_map f) in Hs.
  2:{ intros i r Hi. unfold f. destruct (is_open (status r)) eqn:Ho; [by apply finish_row|].
      split; [reflexivity|]. by apply (co_input _ (ok_core _ Hok) i). }
  see Hs Hlog. see Hs Hlog0. eapply sees_same; [done|exact Hs| |split; [done|by intros [?|?]]].
  split; try done. intros _ i r. rewrite lookup_fmap. destruct (inputs c !! i) as [r'|]; cbn; [|done]. intros [= <-].
  unfold f. by destruct (is_open (status r')) eqn:?.
Qed.

(** An input in the queue is an input of a call that runs. *)
Lemma queued_executable c i r : call_ok c -> inputs c !! i = Some r -> status r = InputQueued ->
  call_st (call c) = CallQueued \/ call_st (call c) = CallRunning.
Proof.
  intros Hok Hi Hq. destruct (ok_settled _ Hok) as [Ht Hc Hp Hu]. destruct (call_st (call c)) eqn:E; try done; auto.
  - rewrite Hp in Hi by done. done.
  - specialize (Ht eq_refl i r Hi). by rewrite Hq in Ht.
  - specialize (Ht eq_refl i r Hi). by rewrite Hq in Ht.
  - destruct (Hc eq_refl) as [Hn _]. by destruct (Hn i r Hi).
  - specialize (Ht eq_refl i r Hi). by rewrite Hq in Ht.
Qed.

(** What a lease changes, and the token it returns. *)
Definition leased (call_id worker attempt : bytes) (expiry : Z) (i : Z) (c : CallState) (item : LeasedInput) (c' : CallState) : Prop :=
  exists r, inputs c !! i = Some r /\ status r = InputQueued /\
    l_token item = mkLeaseToken call_id i worker (lease_generation r + 1) /\ l_attempt_id item = attempt /\
    c' = with_inputs (alter (lease_row worker attempt expiry) i) c.

Lemma lease_input_spec call_id worker attempt now lease_ms rev ok i c :
  (forall c r, ok c r = true -> status r = InputQueued) ->
  post (lease_input call_id worker attempt now lease_ms rev ok i) c (fun x c' =>
    match x with None => c' = c | Some item => leased call_id worker attempt (saturating_add 64 now lease_ms) i c item c' end).
Proof.
  intros Hq. unfold lease_input, stored_input. tx_steps. destruct (negb (ok (id c) r)) eqn:Hok; tx_steps; [done|].
  apply negb_false_iff, Hq in Hok. exists r. done.
Qed.

Lemma leased_keeps call_id worker attempt expiry i c item c' :
  leased call_id worker attempt expiry i c item c' -> attempt <> [] -> call_ok c -> call_ok c' /\ StoreInvariant.steps Z.le c c'.
Proof.
  intros (r & Hi & Hq & _ & _ & ->) Ha Hok. pose proof (queued_executable _ _ _ Hok Hi Hq) as Hex.
  pose proof (sees_start (R := Z.le) c Hok) as Hs. apply (sees_input (lease_row worker attempt expiry) i) in Hs.
  2:{ intros r' Hr'. simplify_eq. by apply lease_row_ok. }
  eapply sees_same; [done|exact Hs|by apply settled_executable|].
  apply live_open; [by eapply alter_open|]. by destruct Hex as [-> | ->].
Qed.

Lemma lease_input_keeps call_id worker attempt now lease_ms rev ok i :
  attempt <> [] -> (forall c r, ok c r = true -> status r = InputQueued) ->
  keeps_by Z.le (lease_input call_id worker attempt now lease_ms rev ok i).
Proof.
  intros Ha Hq c Hok. eapply post_mono; [by apply lease_input_spec|]. cbv beta. intros [item|] c' Hc'.
  - by eapply leased_keeps.
  - by subst c'.
Qed.

Lemma lease_all_keeps call_id worker attempts now lease_ms rev revision idxs :
  (forall i, attempts i <> []) -> keeps_by Z.le (lease_all call_id worker attempts now lease_ms rev revision idxs).
Proof.
  intros Ha. induction idxs as [|i idxs IH]; intros c Hok; cbn [lease_all]; [by tx_steps|]. tx_steps.
  eapply post_mono; [apply lease_input_keeps; [done| |done]|]; cbv beta.
  { intros k r. unfold input_leasable. rewrite !andb_true_iff, bool_decide_eq_true. naive_solver. }
  intros item c1 [Hok1 Hs1]. tx_steps. eapply post_mono; [by apply IH|]. cbv beta. intros rest c2 [Hok2 Hs2]. tx_steps.
  split; [done|by etrans].
Qed.

(** ** Expiry and recovery *)

(** A row update of some inputs. *)
Definition touched (g : Input -> Input) (ks : list Z) (m : gmap Z Input) : gmap Z Input :=
  map_imap (fun i r => Some (if bool_decide (i ∈ ks) then g r else r)) m.

Lemma touched_lookup g ks m i : touched g ks m !! i = (fun r => if bool_decide (i ∈ ks) then g r else r) <$> m !! i.
Proof. unfold touched. rewrite map_lookup_imap. by destruct (m !! i). Qed.

Lemma touched_nil g m : touched g [] m = m.
Proof. apply map_eq. intros i. rewrite touched_lookup. by destruct (m !! i). Qed.

Lemma touched_snoc g ks i m : i ∉ ks -> touched g (ks ++ [i]) m = alter g i (touched g ks m).
Proof.
  intros Hi. apply map_eq. intros j. rewrite touched_lookup. destruct (decide (i = j)) as [<-|Hne].
  - rewrite lookup_alter, decide_True, touched_lookup by done. destruct (m !! i); [|done]. cbn.
    rewrite bool_decide_eq_true_2, bool_decide_eq_false_2; [done|done|]. set_solver.
  - rewrite lookup_alter_ne, touched_lookup by done. destruct (m !! j); [|done]. cbn.
    rewrite (bool_decide_ext (j ∈ ks ++ [i]) (j ∈ ks)); [done|]. set_solver.
Qed.

(** One row update for each of [rows], each row of its own. *)
Lemma visit_rows (S : CallStatus -> Prop) g (f : Z * Input -> tx CallState ()) rows c0 st cl m res c :
  (forall kv st m c, sees c0 st cl m res c -> S st -> (exists r, m !! fst kv = Some r /\ is_active (status r) = true) ->
     post (f kv) c (fun _ c' => exists st', sees c0 st' cl (alter g (fst kv) m) res c' /\ S st')) ->
  sees c0 st cl m res c -> S st -> NoDup (map fst rows) ->
  (forall kv, kv ∈ rows -> exists r, m !! fst kv = Some r /\ is_active (status r) = true) ->
  post (for_each f rows) c (fun _ c' => exists st', sees c0 st' cl (touched g (map fst rows) m) res c' /\ S st').
Proof.
  intros Hf Hs HS Hnd Hrows.
  apply (post_for_each f (fun before c' => exists st', sees c0 st' cl (touched g (map fst before) m) res c' /\ S st')).
  { exists st. cbn. by rewrite touched_nil. }
  intros before kv after c1 Hl (st1 & Hs1 & HS1). subst rows. rewrite map_app in Hnd. apply NoDup_app in Hnd as (_ & Hdis & Hnd).
  assert (fst kv ∉ map fst before) as Hk by (intros Hin; apply (Hdis _ Hin); cbn; left).
  rewrite map_app. cbn [map]. rewrite touched_snoc by done. apply (Hf kv st1); [done..|].
  destruct (Hrows kv) as (r & Hr & Ha); [set_solver|]. exists r. rewrite touched_lookup, Hr. cbn. by rewrite bool_decide_eq_false_2.
Qed.

Lemma active_rows (p : Input -> bool) (m : gmap Z Input) :
  (forall r, p r = true -> is_active (status r) = true) ->
  NoDup (map fst (List.filter (fun kv => p (snd kv)) (map_to_list m))) /\
  forall kv, kv ∈ List.filter (fun kv => p (snd kv)) (map_to_list m) -> exists r, m !! fst kv = Some r /\ is_active (status r) = true.
Proof.
  intros Hp. split.
  - pose proof (NoDup_fst_map_to_list m) as Hnd. induction (map_to_list m) as [|[i r] l IH]; cbn; [constructor|].
    cbn in Hnd. apply NoDup_cons in Hnd as [Hn Hnd]. destruct (p r); cbn; [|auto]. constructor; [|auto].
    intros Hin. apply Hn. apply list_elem_of_In, in_map_iff in Hin as ((j & r') & <- & Hin). apply filter_In in Hin as [Hin _].
    apply list_elem_of_In, in_map_iff. by exists (j, r').
  - intros [i r] Hin. apply list_elem_of_In, filter_In in Hin as [Hin Hr]. exists r. split; [|by apply Hp].
    by apply elem_of_map_to_list, list_elem_of_In.
Qed.

Lemma sees_drop c0 st cl m res c g i :
  (exists now rb err att, g = fun r => finish_input InputCancelled now (rb r) (err r) (att r) r) ->
  sees c0 st cl m res c -> (exists r, m !! i = Some r /\ is_active (status r) = true) -> sees c0 st cl (alter g i m) res (with_inputs (alter g i) c).
Proof.
  intros (now & rb & err & att & ->) Hs (r & Hr & Ha). apply sees_finish; [done| |done]. exists r. split; [done|]. by destruct (status r).
Qed.

Lemma drop_visit call_id now c0 cl res kv st m c :
  sees c0 st cl m res c -> st = CallCancelling -> (exists r, m !! fst kv = Some r /\ is_active (status r) = true) ->
  post (drop_cancelled call_id kv now) c (fun _ c' => exists st',
    sees c0 st' cl (alter (fun r => finish_input InputCancelled now (result_blob r) (error_blob r) None r) (fst kv) m) res c' /\ st' = CallCancelling).
Proof.
  intros Hs -> Hr. unfold drop_cancelled. tx_steps. case_bool_decide; tx_run; exists CallCancelling; (split; [|done]).
  - see Hs Hlog. apply sees_drop; [|done..]. by eexists now, _, _, (fun _ => None).
  - apply sees_drop; [|done..]. by eexists now, _, _, (fun _ => None).
Qed.

Lemma requeue_visit e call_id now c0 cl res kv st m c (Q : () -> CallState -> Prop) :
  sees c0 st cl m res c -> (exists r, m !! fst kv = Some r /\ is_active (status r) = true) ->
  (forall c', sees c0 st cl (alter (fun r => requeue_input now 1 0 (error_blob r) r) (fst kv) m) res c' -> Q tt c') ->
  post (requeue_lost e call_id kv now) c Q.
Proof.
  intros Hs (r & Hr & Ha) HQ. unfold requeue_lost. tx_steps.
  assert (forall c', sees c0 st cl m res c' ->
    sees c0 st cl (alter (fun r => requeue_input now 1 0 (error_blob r) r) (fst kv) m) res (with_inputs (alter (fun r => requeue_input now 1 0 (error_blob r) r) (fst kv)) c')) as Hq.
  { intros c' Hs'. apply (sees_input (fun r => requeue_input now 1 0 (error_blob r) r)); [done|]. intros r' Hr'. simplify_eq. apply requeue_row.
    by destruct (status r). }
  case_bool_decide; tx_run; apply HQ, Hq; [by see Hs Hlog|done].
Qed.

Lemma active_call c i r : call_ok c -> inputs c !! i = Some r -> is_active (status r) = true ->
  call_st (call c) <> CallCancelling -> call_st (call c) = CallQueued \/ call_st (call c) = CallRunning.
Proof.
  intros Hok Hi Ha Hne. destruct (ok_settled _ Hok) as [Ht _ Hp Hu].
  assert (is_open (status r) = true) as Ho by (by destruct (status r)).
  destruct (terminal_call (call_st (call c))) eqn:E; [specialize (Ht eq_refl i r Hi); congruence|].
  destruct (call_st (call c)) eqn:E2; try done; auto. by rewrite Hp in Hi.
Qed.

Lemma touched_open g ks (m : gmap Z Input) i r :
  m !! i = Some r -> i ∈ ks -> (forall r, is_open (status (g r)) = true) -> some_open (touched g ks m).
Proof. intros Hi Hk Hg. exists i, (g r). rewrite touched_lookup, Hi. cbn. by rewrite bool_decide_eq_true_2. Qed.

Lemma touched_status (P : InputStatus -> Prop) g ks (m : gmap Z Input) i r :
  touched g ks m !! i = Some r -> (forall r, P (status (g r))) -> (forall r, i ∉ ks -> m !! i = Some r -> P (status r)) -> P (status r).
Proof.
  rewrite touched_lookup. intros Hr Hg Hm. destruct (m !! i) as [r'|]; [|done]. cbn in Hr. simplify_eq.
  case_bool_decide; [apply Hg|by apply Hm].
Qed.

Lemma drop_rows call_id now rows c :
  call_ok c -> call_st (call c) = CallCancelling -> NoDup (map fst rows) ->
  (forall kv, kv ∈ rows -> exists r, inputs c !! fst kv = Some r /\ is_active (status r) = true) ->
  post (for_each (fun kv => drop_cancelled call_id kv now) rows) c (fun _ c' =>
    sees c CallCancelling (input_closed (call c))
      (touched (fun r => finish_input InputCancelled now (result_blob r) (error_blob r) None r) (map fst rows) (inputs c)) (results c) c').
Proof.
  intros Hok Hc Hnd Hrows. pose proof (sees_start (R := (=)) c Hok) as Hs. rewrite Hc in Hs.
  eapply post_mono; [eapply (visit_rows (fun s => s = CallCancelling)); [|exact Hs|done..]|].
  - intros kv st m c1 Hs1 Hst Hr. by apply drop_visit with st.
  - cbv beta. by intros _ c' (st' & ? & ->).
Qed.

Lemma drop_not_queued c now ks i r :
  call_ok c -> call_st (call c) = CallCancelling ->
  touched (fun r => finish_input InputCancelled now (result_blob r) (error_blob r) None r) ks (inputs c) !! i = Some r ->
  status r <> InputQueued.
Proof.
  intros Hok Hc Hr. eapply (touched_status (fun s => s <> InputQueued)); [exact Hr|done|]. intros r' _ Hr'.
  destruct (se_cancelling _ _ (ok_settled _ Hok) Hc) as [Hq _]. by eapply Hq.
Qed.

Lemma expire_call_leases_keeps call_id now : keeps (expire_call_leases call_id now).
Proof.
  intros c Hok. unfold expire_call_leases. tx_steps. unfold id.
  destruct (active_rows (lease_expired now) (inputs c)) as [Hnd Hrows]; [intros r; unfold lease_expired; rewrite andb_true_iff; tauto|].
  set (rows := List.filter _ _) in *. destruct (decide (call_st (call c) = CallCancelling)) as [Hc|Hc].
  - pose proof (sees_start (R := (=)) c Hok) as Hs. rewrite Hc in Hs.
    eapply post_mono; [eapply (visit_rows (fun s => s = CallCancelling)); [|exact Hs|done..]|].
    { intros kv st m c1 Hs1 Hst Hr. unfold expire_lease. tx_steps. rewrite (at_st _ _ _ _ _ _ Hs1), bool_decide_eq_true_2 by done.
      by apply drop_visit with st. }
    cbv beta. intros _ c1 (st & Hs1 & ->). tx_steps. rewrite (bool_decide_eq_true_2 (_ = CallCancelling)) by done.
    destruct rows as [|kv rows]; cbn [length Nat.eqb negb andb].
    + tx_steps. cbn [map] in Hs1. rewrite touched_nil in Hs1. rewrite <- Hc in Hs1. eapply sees_same; [done|exact Hs1|apply Hok|apply Hok].
    + eapply post_mono; [eapply post_finalize_if_idle; [exact Hs1|eapply sees_recorded; [apply Hok|exact Hs1]|]|by intros; cbv beta; tx_steps].
      intros i r Hr. by eapply drop_not_queued.
  - destruct rows as [|[i r] rows'] eqn:Er; [cbn [for_each length Nat.eqb negb andb]; by tx_steps|].
    destruct (Hrows (i, r)) as (r0 & Hr0 & Ha); [left|]. cbn in Hr0. pose proof (active_call c i r0 Hok Hr0 Ha Hc) as Hex.
    eapply post_mono; [eapply (visit_rows (fun s => s = CallQueued \/ s = CallRunning)); [|by apply sees_start|done..]|].
    { intros kv st m c1 Hs1 Hst Hr. unfold expire_lease. tx_steps. rewrite (at_st _ _ _ _ _ _ Hs1), bool_decide_eq_false_2 by (by destruct Hst as [-> | ->]).
      tx_steps. eapply requeue_visit; [done..|]. intros c2 Hs2. tx_steps. case_bool_decide as Hrun; tx_run.
      - eapply (sees_status (set_status CallQueued now) _ _ _ _ _ _ CallQueued) in Hs2; [|by apply keeps_plain|done|done|by apply executable_not_terminal].
        see Hs2 Hlog. eauto.
      - eauto. }
    cbv beta. intros _ c1 (st & Hs1 & Hst). tx_steps. rewrite (bool_decide_eq_false_2 (call_st (call c) = CallCancelling)), andb_false_r by done. tx_steps.
    eapply sees_same; [done|exact Hs1|by apply settled_executable|]. apply live_open; [|by destruct Hst as [-> | ->]].
    eapply touched_open; [exact Hr0|cbn; left|done].
Qed.

Lemma recover_call_keeps call_id now : keeps (recover_call call_id now).
Proof.
  intros c Hok. unfold recover_call. tx_steps. unfold id.
  destruct (active_rows (fun r => is_active (status r)) (inputs c)) as [Hnd Hrows]; [done|].
  set (rows := List.filter _ _) in *. case_bool_decide as Hc.
  - tx_steps. eapply post_mono; [by apply drop_rows|]. cbv beta. intros _ c1 Hs1. tx_steps.
    destruct (length rows =? 0)%nat eqn:Hlen.
    + tx_steps. apply Nat.eqb_eq, nil_length_inv in Hlen. rewrite Hlen in Hs1. cbn [map] in Hs1. rewrite touched_nil, <- Hc in Hs1.
      eapply sees_same; [done|exact Hs1|apply Hok|apply Hok].
    + eapply post_mono; [eapply post_finalize; [exact Hs1|eapply sees_recorded; [apply Hok|exact Hs1]|]|by intros; cbv beta; tx_steps].
      intros i r Hr. pose proof (drop_not_queued _ _ _ _ _ Hok Hc Hr) as Hq. eapply (touched_status (fun s => is_open s = false)); [exact Hr|done|].
      intros r' Hn Hr'. destruct (se_cancelling _ _ (ok_settled _ Hok) Hc) as [Hq' _]. specialize (Hq' i r' Hr').
      assert (is_active (status r') = false); [|by destruct (status r')].
      apply not_true_iff_false. intros Ha. apply Hn. apply list_elem_of_In, in_map_iff. exists (i, r'). split; [done|].
      apply filter_In. split; [|done]. by apply list_elem_of_In, elem_of_map_to_list.
  - tx_steps. destruct rows as [|[i r] rows'] eqn:Er; [cbn [for_each length Nat.eqb negb andb]; by tx_steps|].
    destruct (Hrows (i, r)) as (r0 & Hr0 & Ha); [left|]. cbn in Hr0. pose proof (active_call c i r0 Hok Hr0 Ha Hc) as Hex.
    eapply post_mono; [eapply (visit_rows (fun s => s = call_st (call c))); [|by apply sees_start|done..]|].
    { intros kv st m c1 Hs1 Hst Hr. eapply requeue_visit; [done..|]. eauto. }
    cbv beta. intros _ c1 (st & Hs1 & ->). tx_steps. cbn [length Nat.eqb negb andb].
    assert (some_open (touched (fun r => requeue_input now 1 0 (error_blob r) r) (map fst ((i, r) :: rows')) (inputs c))) as Ho
      by (eapply touched_open; [exact Hr0|cbn; left|done]).
    case_bool_decide; tx_run.
    + eapply (sees_status (set_status CallQueued now) _ _ _ _ _ _ CallQueued) in Hs1; [|by apply keeps_plain|done|done|by apply executable_not_terminal].
      see Hs1 Hlog. eapply sees_same; [done|exact Hs1|apply settled_executable; by left|by apply live_open].
    + eapply sees_same; [done|exact Hs1|by apply settled_executable|]. apply live_open; [done|by destruct Hex as [-> | ->]].
Qed.

Lemma clear_row r : input_ok r -> row_le r (clear_result r) /\ input_ok (clear_result r).
Proof. intros [Ha Hi]. split; [split; cbn; auto 10; lia|by split]. Qed.

Lemma clear_phase (m : gmap Z Input) : same_phase m (clear_result <$> m).
Proof. intros i. rewrite lookup_fmap. by destruct (m !! i). Qed.

Lemma expire_call_results_keeps now : keeps (expire_call_results now).
Proof.
  intros c Hok. unfold expire_call_results. tx_steps. unfold id. destruct (results_expired now (call c)) eqn:Hx; [|by tx_steps].
  tx_steps. assert (terminal_call (call_st (call c)) = true) as Ht.
  { apply (co_expiry _ (ok_core _ Hok)). unfold results_expired in Hx. by destruct (result_expiry_ms (call c)). }
  pose proof (sees_start (R := (=)) c Hok) as Hs. apply (sees_map clear_result) in Hs;
    [|intros i r Hi; apply clear_row; by apply (co_input _ (ok_core _ Hok) i)].
  destruct Hs as [[K1 K2 K3 K4 K5 K6 K7 K8 K9] Hst _ _ _ _]. split; [split|].
  - split; cbn in *; try done. intros s [e He]. apply map_lookup_filter_Some in He as [He _]. by apply K4; eexists.
  - intros i r _. cbn. by rewrite lookup_empty.
  - cbn. rewrite <- clear_phase. apply Hok.
  - cbn. rewrite <- clear_phase. apply Hok.
  - destruct Hst as [S1 S2 S3 S4 S5 S6 S7 S8]. split; cbn in *; try done.
    + intros _. split; [done|]. apply map_empty_subseteq.
    + intros i r _. by right.
Qed.

(** ** Creation *)

(** The rows of a call while its inputs are inserted. *)
Record creating (row : Call) (enc : CallInput -> bytes) (now : Z) (before : list CallInput) (c : CallState) : Prop := mkCreating {
  cg_call : call c = row;
  cg_events : events c = ∅;
  cg_results : results c = ∅;
  cg_inputs i : inputs c !! i = (fun x => new_input (enc x) now) <$> (if (i <? 0) then None else before !! Z.to_nat i) }.

Lemma creating_size row enc now before c : creating row enc now before c ->
  size (inputs c) = length before /\ forall i, is_Some (inputs c !! i) <-> 0 <= i < Z.of_nat (length before).
Proof.
  intros [_ _ _ Hi].
  assert (forall i, is_Some (inputs c !! i) <-> 0 <= i < Z.of_nat (length before)) as Hd.
  { intros i. rewrite Hi, fmap_is_Some. destruct (Z.ltb_spec i 0); [split; [by intros [? ?]|lia]|]. rewrite lookup_lt_is_Some. lia. }
  split; [|done]. rewrite <- size_dom.
  replace (dom (inputs c)) with (list_to_set (C := gset Z) (map Z.of_nat (seq 0 (length before)))).
  - rewrite size_list_to_set; [by rewrite length_map, length_seq|]. apply NoDup_ListNoDup, Finite.Injective_map_NoDup; [intros ? ?; lia|].
    apply NoDup_ListNoDup, NoDup_seq.
  - apply set_eq. intros i. rewrite elem_of_list_to_set, elem_of_dom, Hd, list_elem_of_In, in_map_iff. split.
    + intros (n & <- & Hn). apply in_seq in Hn. lia.
    + intros Hb. exists (Z.to_nat i). rewrite in_seq. lia.
Qed.

Lemma insert_input_creating row enc now before x c :
  creating row enc now before c -> in_index x = Z.of_nat (length before) ->
  post (insert_input x (enc x) now) c (fun _ c' => creating row enc now (before ++ [x]) c').
Proof.
  intros [H1 H2 H3 Hi] Hx. unfold insert_input. tx_steps. split; cbn; try done. intros i. rewrite Hx.
  destruct (decide (Z.of_nat (length before) = i)) as [<-|Hne].
  - rewrite lookup_insert_eq. destruct (Z.ltb_spec (Z.of_nat (length before)) 0); [lia|]. rewrite Nat2Z.id, lookup_app_r, Nat.sub_diag by done. done.
  - rewrite lookup_insert_ne, Hi by done. f_equal. destruct (Z.ltb_spec i 0); [done|].
    destruct (decide (Z.to_nat i < length before)%nat); [by rewrite lookup_app_l|].
    rewrite !lookup_ge_None_2; [done|rewrite length_app; cbn; lia|lia].
Qed.

(** What the request validation establishes of a new call. *)
Definition creatable (r : CreateCallRequest) (k : CallType) : Prop :=
  (forall i x, cr_inputs r !! i = Some x -> in_index x = Z.of_nat i) /\
  (k <> Batch -> length (cr_inputs r) = 1%nat /\ cr_closed r = true).

Lemma created_ok r k actor rev spec enc now c :
  creatable r k -> creating (new_call r k actor rev spec now) enc now (cr_inputs r) c -> call_ok c.
Proof.
  intros [_ Hb] Hc. destruct (creating_size _ _ _ _ _ Hc) as [Hsz Hd]. destruct Hc as [Hcall Hev Hres Hi].
  assert (forall i row, inputs c !! i = Some row -> exists x, row = new_input (enc x) now) as Hrow.
  { intros i row. rewrite Hi. destruct (if i <? 0 then None else cr_inputs r !! Z.to_nat i) as [x|]; [|done]. cbn. intros [= <-]. by exists x. }
  assert (inputs c <> ∅ -> some_open (inputs c)) as Hopen.
  { intros (i & row & Hr)%map_choose. destruct (Hrow i row Hr) as [x ->]. by exists i, (new_input (enc x) now). }
  split.
  - split; rewrite ?Hcall, ?Hev, ?Hres, ?Hsz; cbn; try done.
    + intros i row Hr. destruct (Hrow i row Hr) as [x ->]. apply input_new_ok.
    + intros s [? Hs]. by rewrite lookup_empty in Hs.
  - intros i x _. rewrite Hres. by rewrite lookup_empty.
  - rewrite Hcall. unfold new_call. cbn. destruct ((length (cr_inputs r) =? 0)%nat && negb (cr_closed r)) eqn:E; split; try done.
    intros _. apply andb_true_iff in E as [E%Nat.eqb_eq _]. rewrite <- Hsz in E. by apply map_size_empty_inv.
  - rewrite Hcall. unfold new_call. cbn. destruct ((length (cr_inputs r) =? 0)%nat && negb (cr_closed r)) eqn:E; split; try done.
    intros _. apply andb_true_iff in E as [_ E]. by apply negb_true_iff in E.
Qed.

Lemma validate_inputs_indexes l ids n : validate_inputs n ids l = Ok () -> forall i x, l !! i = Some x -> in_index x = n + Z.of_nat i.
Proof.
  revert ids n. induction l as [|y l IH]; intros ids n Hv i x Hx; [done|]. cbn in Hv.
  destruct (in_index y =? n) eqn:Hy; [|done]. cbn in Hv. destruct (_ || _); [done|].
  destruct (validate_call_input y) as [[]|]; [|done]. cbn in Hv. apply Z.eqb_eq in Hy.
  destruct i as [|i]; cbn in Hx; [simplify_eq; lia|]. rewrite (IH _ _ Hv i x Hx). lia.
Qed.

Lemma validated_creatable r k : validate_call_request r = Ok () -> cr_type r = Some k -> creatable r k.
Proof.
  unfold validate_call_request. intros Hv Hk. rewrite Hk in Hv. cbn in Hv. destruct (cr_target r) as [t|]; [|done]. cbn in Hv.
  destruct (match tg_function t with Some _ => _ | None => _ end); [done|].
  destruct (match k with Actor => _ | _ => _ end) as [[]|]; [|done]. cbn in Hv.
  destruct (negb (bool_decide (k = Batch)) && _) eqn:Hb; [done|]. split.
  - intros i x Hx. by rewrite (validate_inputs_indexes _ _ _ Hv i x Hx).
  - intros Hnb. rewrite bool_decide_eq_false_2 in Hb by done. cbn in Hb. apply orb_false_iff in Hb as [Hb Hcl].
    apply orb_false_iff in Hb as [Hb _]. apply negb_false_iff in Hb, Hcl. by apply Nat.eqb_eq in Hb.
Qed.
End keeps.
