(* ===== verification/StoreSafety.v ===== *)
(** The function store as a whole: the database after any sequence of operations.  Every operation
    keeps the rows of every call consistent; the tokens of the leases are recorded as they are issued,
    and only the last one issued for an input lets its holder act. *)

From S2P Require Import Prelude Decimal StoreTables StoreSpecs StoreCalls StoreOutcomes StoreInvariant StoreKeeps.

(** ** The database *)

Definition db_ok (d : Db) : Prop := forall id c, calls d !! id = Some c -> call_ok c.

(** A row that was not there before. *)
Definition new_row (R : relation Z) (r : Input) : Prop :=
  R 0 (lease_generation r) /\ (lease_generation r = 0 -> is_active (status r) = false).

Record db_steps (R : relation Z) (d d' : Db) : Prop := mkDbSteps {
  ds_calls id c : calls d !! id = Some c -> exists c', calls d' !! id = Some c' /\ steps R c c';
  ds_new id c' : calls d' !! id = Some c' -> calls d !! id = None -> forall i r, inputs c' !! i = Some r -> new_row R r }.
Arguments ds_calls {_ _ _}.
Arguments ds_new {_ _ _}.

Definition keeps_db (R : relation Z) {A} (m : tx Db A) : Prop :=
  forall d, db_ok d -> post m d (fun _ d' => db_ok d' /\ db_steps R d d').

Section modes.
Context {R : relation Z} `{!Mode R}.

Lemma new_row_step r r' : row_le R r r' -> new_row R r -> new_row R r'.
Proof.
  intros [_ Hg _ Hl] [Hg0 Hna]. split; [by etrans|]. intros Hz. apply mode_le in Hg0, Hg. apply not_true_iff_false. intros Ha.
  destruct Hl as (Ha2 & _); [lia|done|]. rewrite Hna in Ha2 by lia. done.
Qed.

#[global] Instance db_steps_refl : Reflexive (db_steps R).
Proof. intros d. split; [|congruence]. intros id c Hc. exists c. split; [done|reflexivity]. Qed.

#[global] Instance db_steps_trans : Transitive (db_steps R).
Proof.
  intros d1 d2 d3 H12 H23. split.
  - intros id c Hc. destruct (ds_calls H12 id c Hc) as (c2 & Hc2 & Hs). destruct (ds_calls H23 id c2 Hc2) as (c3 & Hc3 & Hs').
    exists c3. split; [done|by etrans].
  - intros id c3 Hc3 Hn i r3 Hr3. destruct (calls d2 !! id) as [c2|] eqn:Hc2; [|by eapply (ds_new H23)].
    destruct (ds_calls H23 id c2 Hc2) as (c3' & Hc3' & Hs). simplify_eq.
    destruct (inputs c2 !! i) as [r2|] eqn:Hr2; [|by eapply (sp_new _ _ Hs)].
    destruct (sp_inputs _ _ Hs i r2 Hr2) as (r3' & Hr3' & Hle). simplify_eq. eapply new_row_step; [done|]. by eapply (ds_new H12).
Qed.

Lemma db_ok_calls d d' : calls d' = calls d -> db_ok d -> db_ok d' /\ db_steps R d d'.
Proof.
  intros Hc Hok. split; [intros id c; rewrite Hc; apply Hok|]. split; rewrite Hc; [|congruence].
  intros id c Hid. exists c. split; [done|reflexivity].
Qed.

Lemma keeps_bind {A B} (m : tx Db A) (k : A -> tx Db B) : keeps_db R m -> (forall x, keeps_db R (k x)) -> keeps_db R (m ≫= k).
Proof.
  intros Hm Hk d Hok. apply post_bind. eapply post_mono; [by apply Hm|]. cbv beta. intros x d1 [Hok1 Hs1].
  eapply post_mono; [by apply Hk|]. cbv beta. intros y d2 [Hok2 Hs2]. split; [done|by etrans].
Qed.

Lemma keeps_same {A} (m : tx Db A) : (forall d, post m d (fun _ d' => calls d' = calls d)) -> keeps_db R m.
Proof. intros Hm d Hok. eapply post_mono; [apply Hm|]. cbv beta. intros _ d' Hd. by apply db_ok_calls. Qed.

Lemma put_call_keeps d id c c' x :
  db_ok d -> calls d !! id = Some c -> call_ok c' -> steps R c c' -> calls x = <[id := c']> (calls d) -> db_ok x /\ db_steps R d x.
Proof.
  intros Hok Hc Hok' Hs Hx. split; [|split].
  - intros id2 c2. rewrite Hx, lookup_insert_Some. intros [[<- <-]|[_ Hc2]]; [done|by eapply Hok].
  - intros id2 c2 Hc2. rewrite Hx. destruct (decide (id = id2)) as [<-|Hne].
    + exists c'. rewrite lookup_insert_eq. by simplify_eq.
    + exists c2. rewrite lookup_insert_ne by done. split; [done|reflexivity].
  - intros id2 c2. rewrite Hx, lookup_insert_Some. intros [[<- <-]|[_ Hc2]] Hn; congruence.
Qed.

Lemma post_on_call {A} e id (m : tx CallState A) d (Q : A -> Db -> Prop) :
  (forall c, calls d !! id = Some c -> post m c (fun x c' => Q x (mkDb (<[id := c']> (calls d)) (revisions d) (actors d) (checkpoints d) (idempotency d) (artifacts d) (artifact_refs d)))) ->
  post (on_call e id m) d Q.
Proof.
  intros HQ. unfold on_call, post. destruct (calls d !! id) as [c|]; [|done]. specialize (HQ c eq_refl). unfold post in HQ.
  by destruct (m c) as [[x c']|].
Qed.

Lemma on_call_keeps {A} e id (m : tx CallState A) : keeps_by R m -> keeps_db R (on_call e id m).
Proof.
  intros Hm d Hok. apply post_on_call. intros c Hc. eapply post_mono; [apply Hm; by eapply Hok|]. cbv beta. intros x c' [Hok' Hs].
  by eapply put_call_keeps.
Qed.

Lemma map_tx_keeps {A B} (f : A -> tx Db B) l : (forall x, keeps_db R (f x)) -> keeps_db R (map_tx f l).
Proof.
  intros Hf. induction l as [|x l IH]; cbn [map_tx]; [by apply keeps_same|].
  apply keeps_bind; [done|]. intros y. apply keeps_bind; [done|]. intros ys. by apply keeps_same.
Qed.

Lemma for_each_keeps {A} (f : A -> tx Db ()) l : (forall x, keeps_db R (f x)) -> keeps_db R (for_each f l).
Proof. intros Hf. induction l as [|x l IH]; cbn [for_each]; [by apply keeps_same|]. apply keeps_bind; auto. Qed.

Lemma for_calls_keeps {A} (m : bytes -> tx CallState A) : (forall id, keeps_by R (m id)) -> keeps_db R (for_calls m).
Proof.
  intros Hm. unfold for_calls. apply keeps_bind; [by apply keeps_same|]. intros ids. apply map_tx_keeps. intros id.
  apply keeps_bind; [by apply on_call_keeps|]. intros x. by apply keeps_same.
Qed.
End modes.

(** Reading rows of a call does not change them. *)
Lemma post_on_call_read {A} e id (f : CallState -> A) d (Q : A -> Db -> Prop) :
  (forall c, calls d !! id = Some c -> Q (f c) d) -> post (on_call e id (read f)) d Q.
Proof.
  intros HQ. apply post_on_call. intros c Hc. apply post_read. rewrite insert_id by done. destruct d. by apply HQ.
Qed.

(** Statements on the other tables. *)
Lemma post_refs {A} (f : A -> tx Db ()) l d (Q : () -> Db -> Prop) :
  (forall x d, post (f x) d (fun _ d' => calls d' = calls d)) -> (forall d', calls d' = calls d -> Q tt d') -> post (for_each f l) d Q.
Proof.
  intros Hf HQ. eapply post_mono; [apply (post_for_each f (fun _ d' => calls d' = calls d)); [done|]|by intros [] d' Hd; apply HQ].
  intros _ x _ d1 _ Hd. eapply post_mono; [apply Hf|]. cbv beta. intros _ d2 Hd2. congruence.
Qed.

Lemma add_ref_calls digest k o d : post (add_artifact_ref digest k o) d (fun _ d' => calls d' = calls d).
Proof. unfold add_artifact_ref, set_refs. tx_steps. done. Qed.

Lemma idempotent_calls s r f d (Q : option bytes -> Db -> Prop) : (forall x, Q x d) -> post (idempotent_resource s r f) d Q.
Proof.
  intros HQ. unfold idempotent_resource. case_bool_decide; tx_steps; [apply HQ|]. destruct (idempotency d !! (s, r)) as [[e i]|]; [|tx_steps; apply HQ].
  case_bool_decide; tx_steps. apply HQ.
Qed.

Lemma put_idempotency_calls s r f x now d : post (put_idempotency s r f x now) d (fun _ d' => calls d' = calls d).
Proof. unfold put_idempotency, set_idempotency. case_bool_decide; tx_steps; done. Qed.

Lemma fresh_call_keeps d id c x :
  db_ok d -> calls d !! id = None -> call_ok c -> (forall i r, inputs c !! i = Some r -> new_row (=) r) ->
  calls x = <[id := c]> (calls d) -> db_ok x /\ db_steps (=) d x.
Proof.
  intros Hok Hn Hc Hr Hx. split; [|split].
  - intros id2 c2. rewrite Hx, lookup_insert_Some. intros [[<- <-]|[_ Hc2]]; [done|by eapply Hok].
  - intros id2 c2 Hc2. exists c2. rewrite Hx, lookup_insert_ne by congruence. split; [done|reflexivity].
  - intros id2 c2. rewrite Hx, lookup_insert_Some. intros [[<- <-]|[_ Hc2]] Hn2; [done|congruence].
Qed.

Section store.
Context `{Prost}.

(** *** Creation and inputs *)

Lemma target_spec_calls rev receiver ins d (Q : FunctionSpec -> Db -> Prop) : (forall x, Q x d) -> post (target_spec rev receiver ins) d Q.
Proof.
  intros HQ. unfold target_spec, revision_by_id, actor_by_id. tx_steps.
  destruct receiver as [[a m|k m]|]; tx_steps; apply HQ.
Qed.

Lemma insert_inputs_creating enc id row ins now d c :
  calls d !! id = Some c -> creating row enc now [] c -> (forall i x, ins !! i = Some x -> in_index x = Z.of_nat i) ->
  post (insert_call_inputs enc id ins now) d (fun _ d' => exists c', calls d' = <[id := c']> (calls d) /\ creating row enc now ins c').
Proof.
  intros Hc Hcr Hidx. unfold insert_call_inputs.
  apply (post_for_each _ (fun before d' => exists c', calls d' = <[id := c']> (calls d) /\ creating row enc now before c')).
  { exists c. by rewrite insert_id. }
  intros before x after d1 Hl (c1 & Hd1 & Hcr1). tx_steps. apply post_on_call. intros c2 Hc2.
  rewrite Hd1, lookup_insert_eq in Hc2. simplify_eq. eapply post_mono; [apply insert_input_creating; [exact Hcr1|]|].
  { apply Hidx. by rewrite lookup_app_r, Nat.sub_diag. }
  cbv beta. intros _ c3 Hcr3. apply post_refs; [intros; apply add_ref_calls|]. intros d3 Hd3. exists c3. split; [|done].
  rewrite Hd3. cbn. by rewrite Hd1, insert_insert_eq.
Qed.

Lemma creating_new_row row enc now ins c i r : creating row enc now ins c -> inputs c !! i = Some r -> new_row (=) r.
Proof.
  intros [_ _ _ Hi] Hr. rewrite Hi in Hr. destruct (if i <? 0 then None else ins !! Z.to_nat i) as [x|]; [|done]. cbn in Hr.
  by simplify_eq.
Qed.

Lemma creating_nil row enc now : creating row enc now [] (mkCallState row ∅ ∅ ∅ []).
Proof. split; try done. intros i. cbn [inputs]. rewrite lookup_empty. by destruct (i <? 0). Qed.

Lemma create_call_keeps enc fp id r now : keeps_db (=) (create_call enc fp id r now).
Proof.
  intros d Hok. unfold create_call. tx_steps. destruct x. destruct (cr_type r) as [k|] eqn:Hk; [|tx_steps].
  destruct (cr_target r) as [[[rev|] receiver]|]; try tx_steps. apply idempotent_calls. intros [x|].
  { apply post_on_call_read. intros c Hc. split; [done|reflexivity]. }
  tx_steps. apply target_spec_calls. intros spec. tx_steps. unfold insert_call. tx_steps. unfold set_calls. tx_steps.
  pose proof (validated_creatable _ _ Hl Hk) as Hcr. apply negb_true_iff in Hr0. rewrite bool_decide_eq_false, <- eq_None_not_Some in Hr0.
  set (row := new_call _ _ _ _ _ _) in *.
  eapply post_mono; [eapply (insert_inputs_creating enc id row _ now _ (mkCallState row ∅ ∅ ∅ [])); [cbn; by rewrite lookup_insert_eq|apply creating_nil|apply Hcr]|].
  cbv beta. intros _ d1 (c1 & Hd1 & Hc1). cbn in Hd1. rewrite insert_insert_eq in Hd1. tx_steps.
  pose proof (created_ok _ _ _ _ _ _ _ _ Hcr Hc1) as Hok1.
  assert (db_ok d1 /\ db_steps (=) d d1) as [Hdok1 Hds1] by (eapply fresh_call_keeps; [done..| |exact Hd1]; intros i x; by eapply creating_new_row).
  eapply post_mono; [apply (on_call_keeps (R := (=)) Sql id (append_status_event (call_st row) now)); [apply logged_keeps; intros; apply append_status_logged|done]|].
  cbv beta. intros _ d2 [Hok2 Hs2]. tx_steps. eapply post_mono; [apply put_idempotency_calls|]. cbv beta. intros _ d3 Hd3.
  apply post_on_call_read. intros c3 Hc3. destruct (db_ok_calls (R := (=)) d2 d3 Hd3 Hok2) as [Hok3 Hs3].
  split; [done|]. etrans; [exact Hds1|]. by etrans.
Qed.

Lemma append_input_keeps_db id i enc now : keeps_db (=) (append_input id i enc now).
Proof.
  intros d Hok. unfold append_input, revision_by_id. tx_steps. apply post_on_call_read. intros c Hc. tx_steps.
  rewrite bool_decide_eq_true in Hr0. apply post_on_call. intros c0 Hc0. simplify_eq.
  eapply post_mono; [apply append_input_keeps; [by eapply Hok|done]|]. cbv beta. intros [n new] c' [Hok' Hs']. tx_steps.
  match goal with |- post _ ?d1 _ => assert (db_ok d1 /\ db_steps (=) d d1) as [Hok1 Hs1] by (by eapply put_call_keeps) end.
  destruct (snd (n, new)); tx_steps; [|done]. apply post_refs; [intros; apply add_ref_calls|]. intros d2 Hd2. tx_steps.
  destruct (db_ok_calls (R := (=)) _ d2 Hd2 Hok1) as [Hok2 Hs2]. split; [done|by etrans].
Qed.

(** *** Reports *)

Lemma put_twice d id c c' c'' x :
  calls x = <[id := c'']> (<[id := c']> (calls d)) -> db_ok d -> calls d !! id = Some c -> call_ok c'' -> steps (=) c c'' ->
  db_ok x /\ db_steps (=) d x.
Proof. intros Hx Hok Hc Hok2 Hs. eapply put_call_keeps; [done..|]. by rewrite Hx, insert_insert_eq. Qed.

Lemma succeed_keeps l res stats now : keeps_db (=) (succeed l res stats now).
Proof.
  intros d Hok. unfold succeed. tx_step. apply post_on_call. intros c Hc. eapply post_mono; [apply succeed_guard|]. cbv beta.
  intros k c0 (-> & -> & Hex & Hrow). rewrite insert_id by done.
  replace (mkDb (calls d) _ _ _ _ _ _) with d by (by destruct d). case_bool_decide as Hk.
  { apply post_on_call. intros c0 Hc0. simplify_eq.
    eapply post_mono; [apply succeed_generator_keeps; [by eapply Hok|done..]|]. cbv beta. intros _ c' [Hok' Hs']. by eapply put_call_keeps. }
  tx_step. apply post_on_call. intros c0 Hc0. simplify_eq. eapply post_mono; [apply succeed_rows_keeps; [by eapply Hok|done..]|]. cbv beta.
  intros stored c1 (Hsuc & _ & _). tx_step. apply post_refs; [intros; apply add_ref_calls|]. intros d2 Hd2. cbn in Hd2.
  apply post_on_call. intros c2 Hc2. rewrite Hd2, lookup_insert_eq in Hc2. simplify_eq.
  eapply post_mono; [by apply succeed_end_keeps|]. cbv beta. intros _ c' [Hok' Hs']. eapply put_twice; [|done..]. cbn. by rewrite Hd2.
Qed.

Lemma commit_yield_keeps_db l i v now : keeps_db (=) (commit_yield l i v now).
Proof.
  unfold commit_yield. apply keeps_bind; [apply keeps_same; intros; by tx_steps|]. intros _.
  apply keeps_bind; [apply on_call_keeps, commit_yield_keeps|]. intros res.
  apply keeps_bind; [apply for_each_keeps; intros x; apply keeps_same; intros; apply add_ref_calls|]. intros _.
  apply on_call_keeps, logged_keeps. intros c. tx_run. by apply post_event_by_sequence.
Qed.

Lemma append_log_keeps l stream data now : keeps_db (=) (append_log l stream data now).
Proof.
  unfold append_log. apply keeps_bind; [apply keeps_same; intros; by tx_steps|]. intros _.
  apply on_call_keeps, logged_keeps. intros c. tx_steps. apply post_require_lease. intros r _. unfold stored_input. tx_run. by apply post_event_by_sequence.
Qed.

Lemma append_call_log_keeps id stream data now : keeps_db (=) (append_call_log id stream data now).
Proof.
  unfold append_call_log. apply keeps_bind; [apply keeps_same; intros; by tx_steps|]. intros _.
  apply on_call_keeps, logged_keeps. intros c. tx_run. by apply post_event_by_sequence.
Qed.

Lemma checked_keeps {A B} (x : result store_error A) (m : tx Db B) : keeps_db (=) m -> keeps_db (=) (lift x ;; m).
Proof. intros Hm. apply keeps_bind; [apply keeps_same; intros; by tx_steps|done]. Qed.

Lemma cancel_call_keeps fp id reason request now : keeps_db (=) (cancel_call fp id reason request now).
Proof.
  unfold cancel_call. apply keeps_bind; [apply keeps_same; intros; by apply idempotent_calls|]. intros [x|].
  { apply keeps_same. intros d. by apply post_on_call_read. }
  apply keeps_bind; [apply on_call_keeps, cancel_keeps|]. intros _.
  apply keeps_bind; [apply keeps_same; intros; apply put_idempotency_calls|]. intros _. apply keeps_same. intros d. by apply post_on_call_read.
Qed.

(** *** Passes *)

Lemma expire_deadlines_keeps now : keeps_db (=) (expire_deadlines_tx now).
Proof.
  unfold expire_deadlines_tx. apply keeps_bind; [apply keeps_same; intros; by tx_steps|]. intros _.
  apply keeps_bind; [|intros; by apply keeps_same]. apply for_calls_keeps. intros id. apply expire_deadline_keeps.
Qed.

Lemma queued_revisions_keeps now : keeps_db (=) (queued_revisions now).
Proof.
  unfold queued_revisions. apply keeps_bind; [apply expire_deadlines_keeps|]. intros _. apply keeps_same. intros d. by tx_steps.
Qed.

Lemma expire_leases_keeps now : keeps_db (=) (expire_leases now).
Proof.
  unfold expire_leases. apply keeps_bind; [apply keeps_same; intros; by tx_steps|]. intros _.
  apply keeps_bind; [|intros; by apply keeps_same]. apply for_calls_keeps. intros id. apply expire_call_leases_keeps.
Qed.

Lemma complete_ready_calls_keeps now : keeps_db (=) (complete_ready_calls now).
Proof.
  unfold complete_ready_calls. apply keeps_bind; [|intros; by apply keeps_same]. apply for_calls_keeps. intros id. apply complete_ready_keeps.
Qed.

Lemma expire_results_keeps now : keeps_db (=) (expire_results now).
Proof.
  unfold expire_results. apply keeps_bind; [apply keeps_same; intros; by tx_steps|]. intros _.
  apply keeps_bind; [apply for_calls_keeps; intros id; apply expire_call_results_keeps|]. intros l.
  apply keeps_bind; [|intros; by apply keeps_same]. apply keeps_same. intros d. unfold set_refs. by tx_steps.
Qed.

Lemma recover_startup_keeps now : keeps_db (=) (recover_startup now).
Proof.
  unfold recover_startup. apply keeps_bind; [apply for_calls_keeps; intros id; apply recover_call_keeps|]. intros l.
  apply keeps_same. intros d. unfold set_actors. by tx_steps.
Qed.
End store.
