(* ===== verification/StoreRuns.v ===== *)
(** Runs of the function store: every operation as a step, the tokens it issues, and what is true after
    any sequence of steps. *)

From S2P Require Import Prelude Decimal StoreTables StoreSpecs StoreCalls StoreOutcomes StoreInvariant StoreKeeps StoreSafety.

(** ** Operations *)

Inductive store_op : Type :=
  | OpCreate (enc : CallInput -> bytes) (fingerprint id : bytes) (r : CreateCallRequest)
  | OpAppend (id : bytes) (i : CallInput) (enc : bytes)
  | OpClose (id : bytes) (count : Z)
  | OpLease (revision : option bytes) (worker attempt : bytes) (lease_ms : Z) (exclude_batch : bool)
  | OpLeaseBatch (revision worker : bytes) (attempts : Z -> bytes) (lease_ms : Z) (max_size : nat)
  | OpHeartbeat (l : LeaseToken) (lease_ms : Z)
  | OpMarkRunning (l : LeaseToken) (startup : StartupKind)
  | OpSucceed (l : LeaseToken) (res : CallResult) (stats : option AttemptStats)
  | OpYield (l : LeaseToken) (i : Z) (v : ValueEnvelope)
  | OpLog (l : LeaseToken) (stream : Z) (data : bytes)
  | OpCallLog (id : bytes) (stream : Z) (data : bytes)
  | OpFail (l : LeaseToken) (e : CallError) (stats : option AttemptStats)
  | OpRetry (infra : bool) (l : LeaseToken) (e : CallError) (retry_at : Z) (stats : option AttemptStats)
  | OpCancel (fingerprint id reason request : bytes)
  | OpFinishCancelled (l : LeaseToken) (reason : bytes)
  | OpQueuedRevisions | OpExpireLeases | OpComplete | OpExpireResults | OpRecover.

(** The lease that an operation acts under. *)
Definition op_token (op : store_op) : option LeaseToken :=
  match op with
  | OpHeartbeat l _ | OpMarkRunning l _ | OpSucceed l _ _ | OpYield l _ _ | OpLog l _ _ | OpFail l _ _
  | OpRetry _ l _ _ _ | OpFinishCancelled l _ => Some l
  | _ => None
  end.

(** The attempts of a lease are fresh UUIDs. *)
Definition op_fresh (op : store_op) : Prop :=
  match op with
  | OpLease _ _ attempt _ _ => attempt <> []
  | OpLeaseBatch _ _ attempts _ _ => forall i, attempts i <> []
  | _ => True
  end.

Section runs.
Context `{Prost}.

Definition quiet {A} (m : tx Db A) : tx Db (list LeaseToken) := m ;; mret [].

(** An operation at [now]; the result is the tokens it issues. *)
Definition run (op : store_op) (now : Z) : tx Db (list LeaseToken) :=
  match op with
  | OpCreate enc fp id r => quiet (create_call enc fp id r now)
  | OpAppend id i enc => quiet (append_input id i enc now)
  | OpClose id n => quiet (close_inputs id n now)
  | OpLease rev w a ms ex => x ← lease_next_matching rev w a now ms ex; mret (match x with Some item => [l_token item] | None => [] end)
  | OpLeaseBatch rev w a ms n => xs ← lease_batch_for_revision rev w a now ms n; mret (map l_token xs)
  | OpHeartbeat l ms => quiet (heartbeat l now ms)
  | OpMarkRunning l s => quiet (mark_running l now s)
  | OpSucceed l res stats => quiet (succeed l res stats now)
  | OpYield l i v => quiet (commit_yield l i v now)
  | OpLog l s data => quiet (append_log l s data now)
  | OpCallLog id s data => quiet (append_call_log id s data now)
  | OpFail l e stats => quiet (fail_user l e stats now)
  | OpRetry infra l e at_ms stats => quiet (if infra then fail_infra l e at_ms stats now else retry_user l e at_ms stats now)
  | OpCancel fp id reason request => quiet (cancel_call fp id reason request now)
  | OpFinishCancelled l reason => quiet (finish_cancelled l reason now)
  | OpQueuedRevisions => quiet (queued_revisions now)
  | OpExpireLeases => quiet (expire_leases now)
  | OpComplete => quiet (complete_ready_calls now)
  | OpExpireResults => quiet (expire_results now)
  | OpRecover => quiet (recover_startup now)
  end.

(** [t] is issued between [d] and [d']. *)
Definition issue (t : LeaseToken) (d d' : Db) : Prop :=
  exists c r attempt expiry, calls d !! tk_call t = Some c /\ inputs c !! tk_index t = Some r /\ status r = InputQueued /\
    tk_generation t = lease_generation r + 1 /\ attempt <> [] /\
    calls d' = <[tk_call t := with_inputs (alter (lease_row (tk_worker t) attempt expiry) (tk_index t)) c]> (calls d).

(** The tokens of an operation are issued one after the other; the rest of the operation keeps the
    generations. *)
Fixpoint issues (ts : list LeaseToken) (d d' : Db) : Prop :=
  match ts with
  | [] => db_steps (=) d d'
  | t :: ts => exists d1 d2, db_steps (=) d d1 /\ db_ok d1 /\ issue t d1 d2 /\ issues ts d2 d'
  end.

Lemma issue_keeps t d d' : issue t d d' -> db_ok d -> db_ok d' /\ db_steps Z.le d d'.
Proof.
  intros (c & r & a & x & Hc & Hi & Hq & Hg & Ha & Hd) Hok.
  set (item := mkLeasedInput (mkLeaseToken (tk_call t) (tk_index t) (tk_worker t) (lease_generation r + 1)) (mkFunctionRevision None None 0 [] RevisionReady [] None)
                 (mkCallInput 0 [] None) (record_of c) 0 0 None a 0).
  destruct (leased_keeps (tk_call t) (tk_worker t) a x (tk_index t) c item
    (with_inputs (alter (lease_row (tk_worker t) a x) (tk_index t)) c)) as [Hok' Hs]; [by exists r|done|by eapply Hok|].
  by eapply put_call_keeps.
Qed.

Lemma issue_leased call_id worker attempt expiry i c item c' d d' :
  leased call_id worker attempt expiry i c item c' -> attempt <> [] -> calls d !! call_id = Some c -> calls d' = <[call_id := c']> (calls d) ->
  issue (l_token item) d d'.
Proof.
  intros (r & Hi & Hq & Ht & Ha & ->) Hne Hc Hd. rewrite Ht. exists c, r, attempt, expiry. by rewrite Hd.
Qed.

Definition op_ok (m : tx Db (list LeaseToken)) : Prop :=
  forall d, db_ok d -> post m d (fun ts d' => db_ok d' /\ issues ts d d').

Lemma quiet_ok {A} (m : tx Db A) : keeps_db (=) m -> op_ok (quiet m).
Proof.
  intros Hm d Hok. unfold quiet. apply post_bind. eapply post_mono; [by apply Hm|]. cbv beta. intros x d' Hd. by tx_steps.
Qed.

Lemma lease_next_ok rev w a now ms ex : a <> [] -> op_ok (run (OpLease rev w a ms ex) now).
Proof.
  intros Ha d Hok. cbn [run]. unfold lease_next_matching, revision_by_id. tx_steps. eapply post_mono; [by apply expire_deadlines_keeps|].
  cbv beta. intros _ d1 [Hok1 Hs1]. tx_steps. destruct (first_by candidate_leb _) as [[[[av cr] id] i]|]; [|by tx_steps].
  tx_steps. apply post_on_call_read. intros c Hc. tx_steps. apply post_on_call. intros c0 Hc0. simplify_eq.
  eapply post_mono; [apply lease_input_spec; intros ? ?; apply bool_decide_eq_true|]. cbv beta. intros [item|] c' Hx; [|by tx_steps].
  tx_steps. match goal with |- db_ok ?d2 /\ _ => assert (issue (l_token item) d1 d2) as Hiss by (by eapply issue_leased) end.
  split; [by eapply issue_keeps|]. do 2 eexists. split_and!; [exact Hs1|done|exact Hiss|]. cbn [issues]. reflexivity.
Qed.

(** A batch within one call. *)
Lemma lease_all_issues call_id worker attempts now ms rev revision idxs d c :
  (forall i, attempts i <> []) -> calls d !! call_id = Some c -> db_ok d ->
  post (lease_all call_id worker attempts now ms rev revision idxs) c (fun xs c' =>
    forall d', calls d' = <[call_id := c']> (calls d) -> db_ok d' /\ issues (map l_token xs) d d').
Proof.
  intros Ha. revert d c. induction idxs as [|i idxs IH]; intros d c Hc Hok; cbn [lease_all]; tx_steps.
  { intros d' Hd. rewrite insert_id in Hd by done. by apply db_ok_calls. }
  eapply post_mono; [apply lease_input_spec; intros k r; unfold input_leasable; rewrite !andb_true_iff, bool_decide_eq_true; naive_solver|].
  cbv beta. intros [item|] c1 Hc1; tx_steps.
  - set (d1 := mkDb (<[call_id := c1]> (calls d)) (revisions d) (actors d) (checkpoints d) (idempotency d) (artifacts d) (artifact_refs d)).
    assert (issue (l_token item) d d1) as Hiss by (by eapply issue_leased). pose proof (proj1 (issue_keeps _ _ _ Hiss Hok)) as Hok1.
    eapply post_mono; [apply (IH d1 c1); [apply lookup_insert_eq|done]|]. cbv beta. intros xs c' Hxs. tx_steps. intros d' Hd.
    destruct (Hxs d') as [Hok' Hi]; [cbn; by rewrite insert_insert_eq|]. split; [done|]. exists d, d1. split_and!; [reflexivity|done..].
  - subst c1. eapply post_mono; [by apply (IH d)|]. cbv beta. intros xs c' Hxs. by tx_steps.
Qed.

Lemma issues_after d d1 ts d' : db_steps (=) d d1 -> issues ts d1 d' -> issues ts d d'.
Proof.
  intros Hs. destruct ts as [|t ts]; cbn; [by etrans|]. intros (d2 & d3 & H2 & H3 & H4 & H5). exists d2, d3. split_and!; [by etrans|done..].
Qed.

Lemma lease_batch_ok rev w a now ms n : (forall i, a i <> []) -> op_ok (run (OpLeaseBatch rev w a ms n) now).
Proof.
  intros Ha d Hok. cbn [run]. unfold lease_batch_for_revision, revision_by_id. tx_steps. eapply post_mono; [by apply expire_deadlines_keeps|].
  cbv beta. intros _ d1 [Hok1 Hs1]. tx_steps. destruct (first_by batch_leb _) as [[[[av cr] id] k]|]; [|by tx_steps].
  tx_steps. apply post_on_call_read. intros c Hc. tx_steps. apply post_on_call. intros c0 Hc0. simplify_eq.
  eapply post_mono; [by apply (lease_all_issues _ _ _ _ _ _ _ _ d1)|]. cbv beta. intros xs c' Hxs. tx_steps.
  match goal with |- db_ok ?d2 /\ _ => destruct (Hxs d2) as [Hok2 Hi]; [done|] end. split; [done|]. by eapply issues_after.
Qed.

Lemma run_ok op now : op_fresh op -> op_ok (run op now).
Proof.
  destruct op; intros Hf; try (by apply lease_next_ok); try (by apply lease_batch_ok); apply quiet_ok.
  - apply create_call_keeps.
  - apply append_input_keeps_db.
  - apply on_call_keeps, close_inputs_keeps.
  - apply on_call_keeps, heartbeat_keeps.
  - apply on_call_keeps, mark_running_keeps.
  - apply succeed_keeps.
  - apply commit_yield_keeps_db.
  - apply append_log_keeps.
  - apply append_call_log_keeps.
  - apply checked_keeps, on_call_keeps, fail_user_keeps.
  - destruct infra; apply checked_keeps, on_call_keeps, retry_keeps.
  - apply cancel_call_keeps.
  - apply on_call_keeps, finish_cancelled_keeps.
  - apply queued_revisions_keeps.
  - apply expire_leases_keeps.
  - apply complete_ready_calls_keeps.
  - apply expire_results_keeps.
  - apply recover_startup_keeps.
Qed.

(** ** Reachable databases *)

(** [h]: the tokens issued so far.  The other tables change between operations. *)
Inductive reach : list LeaseToken -> Db -> Prop :=
  | reach_start d : calls d = ∅ -> reach [] d
  | reach_tables h d d' : reach h d -> calls d' = calls d -> reach h d'
  | reach_run h d op now ts d' : reach h d -> op_fresh op -> run op now d = Ok (ts, d') -> reach (h ++ ts) d'.

(** Databases that follow [d]. *)
Inductive follows (d : Db) : Db -> Prop :=
  | follows_refl : follows d d
  | follows_tables d1 d2 : follows d d1 -> calls d2 = calls d1 -> follows d d2
  | follows_run d1 op now ts d2 : follows d d1 -> op_fresh op -> run op now d1 = Ok (ts, d2) -> follows d d2.

Lemma reach_ok h d : reach h d -> db_ok d.
Proof.
  induction 1 as [d Hd|h d d' _ IH Hd|h d op now ts d' _ IH Hf Hr].
  - intros id c. by rewrite Hd, lookup_empty.
  - intros id c. rewrite Hd. apply IH.
  - by apply (post_use _ _ _ _ _ (run_ok op now Hf d IH) Hr).
Qed.

Lemma row_weaken c c' : steps (=) c c' -> steps Z.le c c'.
Proof.
  intros [S1 S2 S3 S4 S5 S6 S7 S8]. split; try done.
  - intros i r Hi. destruct (S1 i r Hi) as (r' & ? & ?). exists r'. split; [done|by apply row_le_weaken].
  - intros i r' Hr' Hn. destruct (S2 i r' Hr' Hn) as [? ?]. split; [lia|done].
Qed.

Lemma db_weaken d d' : db_steps (=) d d' -> db_steps Z.le d d'.
Proof.
  intros [S1 S2]. split.
  - intros id c Hc. destruct (S1 id c Hc) as (c' & ? & ?). exists c'. split; [done|by apply row_weaken].
  - intros id c' Hc' Hn i r Hr. destruct (S2 id c' Hc' Hn i r Hr) as [? ?]. split; [lia|done].
Qed.

Lemma issues_steps ts d d' : issues ts d d' -> db_steps Z.le d d'.
Proof.
  revert d. induction ts as [|t ts IH]; cbn [issues]; intros d; [by intros ?%db_weaken|].
  intros (d1 & d2 & H1 & Hok & H2 & H3). etrans; [by apply db_weaken|]. etrans; [by apply (issue_keeps _ _ _ H2)|]. by apply IH.
Qed.

Lemma follows_steps d d' : follows d d' -> db_ok d -> db_ok d' /\ db_steps Z.le d d'.
Proof.
  intros Hf Hok. induction Hf as [|d1 d2 _ [Hok1 Hs1] Hd|d1 op now ts d2 _ [Hok1 Hs1] Hfr Hr].
  - split; [done|reflexivity].
  - destruct (db_ok_calls (R := Z.le) d1 d2 Hd Hok1) as [? ?]. split; [done|by etrans].
  - destruct (post_use _ _ _ _ _ (run_ok op now Hfr d1 Hok1) Hr) as [Hok2 Hi]. split; [done|]. etrans; [exact Hs1|]. by apply issues_steps in Hi.
Qed.

(** ** Tokens *)

Definition for_input (id : bytes) (i : Z) (t : LeaseToken) : bool := bool_decide (tk_call t = id) && (tk_index t =? i).
(** The tokens issued for an input, in order. *)
Definition tokens (h : list LeaseToken) (id : bytes) (i : Z) : list LeaseToken := List.filter (for_input id i) h.

Definition row_at (d : Db) (id : bytes) (i : Z) : option Input := c ← calls d !! id; inputs c !! i.

Lemma row_at_some d id i r : row_at d id i = Some r <-> exists c, calls d !! id = Some c /\ inputs c !! i = Some r.
Proof. unfold row_at. destruct (calls d !! id) as [c|]; cbn; naive_solver. Qed.

(** The tokens of an input have the generations 1, 2, ...; the row has the last of them. *)
Definition counted (ts : list LeaseToken) (r : Input) : Prop :=
  (forall k t, ts !! k = Some t -> tk_generation t = Z.of_nat k + 1) /\ lease_generation r = Z.of_nat (length ts) /\
  (is_active (status r) = true -> exists t, last ts = Some t /\ lease_owner r = Some (tk_worker t)).

Record tokens_ok (h : list LeaseToken) (d : Db) : Prop := mkTokensOk {
  to_rows t : t ∈ h -> is_Some (row_at d (tk_call t) (tk_index t));
  to_counted id i r : row_at d id i = Some r -> counted (tokens h id i) r }.

Lemma counted_step ts r r' : row_le (=) r r' -> counted ts r -> counted ts r'.
Proof.
  intros [_ Hg _ Hl] (H1 & H2 & H3). split_and!; [done|congruence|]. intros Ha. destruct Hl as (Ha' & -> & _); [done..|]. by apply H3.
Qed.

Lemma for_input_spec id i t : for_input id i t = true <-> tk_call t = id /\ tk_index t = i.
Proof. unfold for_input. rewrite andb_true_iff, bool_decide_eq_true, Z.eqb_eq. done. Qed.

Lemma tokens_none h id i : (forall t, t ∈ h -> ~ (tk_call t = id /\ tk_index t = i)) -> tokens h id i = [].
Proof.
  intros Hn. unfold tokens. destruct (List.filter (for_input id i) h) as [|t l] eqn:E; [done|].
  assert (In t (List.filter (for_input id i) h)) as Hin by (rewrite E; by left). apply filter_In in Hin as [Hin Hf].
  apply for_input_spec in Hf. by destruct (Hn t); [apply list_elem_of_In|].
Qed.

Lemma tokens_ok_steps h d d' : tokens_ok h d -> db_steps (=) d d' -> tokens_ok h d'.
Proof.
  intros [Hr Hc] Hs. split.
  - intros t Ht. destruct (Hr t Ht) as [r (c & Hcc & Hi)%row_at_some]. destruct (ds_calls Hs _ _ Hcc) as (c' & Hc' & Hst).
    destruct (sp_inputs _ _ Hst _ _ Hi) as (r' & Hr' & _). exists r'. apply row_at_some. eauto.
  - intros id i r' (c' & Hc' & Hi')%row_at_some. destruct (row_at d id i) as [r|] eqn:Hrow.
    + apply row_at_some in Hrow as Hrow2. destruct Hrow2 as (c & Hcc & Hi). destruct (ds_calls Hs _ _ Hcc) as (c2 & Hc2 & Hst). simplify_eq.
      destruct (sp_inputs _ _ Hst _ _ Hi) as (r2 & Hr2 & Hle). simplify_eq. by eapply counted_step; [|apply Hc].
    + assert (new_row (=) r') as [Hg Hna].
      { destruct (calls d !! id) as [c|] eqn:Hcc; [|by eapply (ds_new Hs)]. destruct (ds_calls Hs _ _ Hcc) as (c2 & Hc2 & Hst). simplify_eq.
        eapply (sp_new _ _ Hst); [done|]. unfold row_at in Hrow. by rewrite Hcc in Hrow. }
      rewrite tokens_none. { split_and!; [done|by rewrite <- Hg|]. rewrite Hna by done. done. }
      intros t Ht [<- <-]. destruct (Hr t Ht) as [r Hx]. congruence.
Qed.

Lemma tokens_app h t id i : tokens (h ++ [t]) id i = tokens h id i ++ (if for_input id i t then [t] else []).
Proof. unfold tokens. rewrite List.filter_app. cbn. by destruct (for_input id i t). Qed.

Lemma tokens_ok_issue h t d d' : tokens_ok h d -> issue t d d' -> tokens_ok (h ++ [t]) d'.
Proof.
  intros [Hr Hc] (c & r & a & x & Hcc & Hi & Hq & Hg & Ha & Hd).
  assert (forall id i, row_at d' id i = if for_input id i t then Some (lease_row (tk_worker t) a x r) else row_at d id i) as Hrow.
  { intros id i. unfold row_at. rewrite Hd. destruct (for_input id i t) eqn:E.
    - apply for_input_spec in E as [<- <-]. rewrite lookup_insert_eq. cbn. by rewrite lookup_alter, decide_True, Hi by done.
    - destruct (decide (tk_call t = id)) as [<-|]; [|by rewrite lookup_insert_ne]. rewrite lookup_insert_eq, Hcc. cbn.
      rewrite lookup_alter_ne; [done|]. intros <-. by rewrite (proj2 (for_input_spec _ _ _)) in E. }
  split.
  - intros t' Ht'. rewrite Hrow. destruct (for_input _ _ t) eqn:E; [by eexists|]. apply elem_of_app in Ht' as [Ht'|Ht']; [by apply Hr|].
    apply list_elem_of_singleton in Ht'. subst t'.
    by rewrite (proj2 (for_input_spec _ _ _)) in E.
  - intros id i r'. rewrite Hrow, tokens_app. destruct (for_input id i t) eqn:E; [|rewrite app_nil_r; apply Hc].
    intros [= <-]. apply for_input_spec in E as [<- <-].
    destruct (Hc (tk_call t) (tk_index t) r) as (H1 & H2 & _); [apply row_at_some; eauto|]. split_and!.
    + intros k t'. rewrite lookup_app. destruct (tokens h _ _ !! k) as [t0|] eqn:Ek; [intros [= <-]; by apply H1|].
      apply lookup_ge_None in Ek. intros Hs. apply list_lookup_singleton_Some in Hs as [Hk <-]. rewrite Hg, H2. lia.
    + cbn. rewrite length_app. cbn. lia.
    + intros _. exists t. by rewrite last_snoc.
Qed.

Lemma tokens_ok_issues h ts d d' : tokens_ok h d -> issues ts d d' -> tokens_ok (h ++ ts) d'.
Proof.
  revert h d. induction ts as [|t ts IH]; cbn [issues]; intros h d Ht; [rewrite app_nil_r; by apply tokens_ok_steps|].
  intros (d1 & d2 & H1 & _ & H2 & H3). replace (h ++ t :: ts) with ((h ++ [t]) ++ ts) by (by rewrite <- app_assoc).
  eapply IH; [|exact H3]. eapply tokens_ok_issue; [|exact H2]. by eapply tokens_ok_steps.
Qed.

Lemma reach_tokens h d : reach h d -> tokens_ok h d.
Proof.
  induction 1 as [d Hd|h d d' _ IH Hd|h d op now ts d' Hreach IH Hf Hr].
  - split; [by intros t ?%elem_of_nil|]. intros id i r. unfold row_at. by rewrite Hd, lookup_empty.
  - destruct IH as [H1 H2]. split; unfold row_at; rewrite Hd; done.
  - eapply tokens_ok_issues; [done|]. by apply (post_use _ _ _ _ _ (run_ok op now Hf d (reach_ok _ _ Hreach)) Hr).
Qed.

(** ** Acting under a lease *)

(** [l] is the lease that the row of its input carries. *)
Definition carries (l : LeaseToken) (now : Z) (d : Db) : Prop :=
  exists r, row_at d (tk_call l) (tk_index l) = Some r /\ is_active (status r) = true /\
    default [] (lease_owner r) = tk_worker l /\ lease_generation r = tk_generation l /\ now < default 0 (lease_expiry_ms r).

Lemma post_first {S A B} (m : tx S A) (k : A -> tx S B) s (P : Prop) :
  post m s (fun _ _ => P) -> post (m ≫= k) s (fun _ _ => P).
Proof. unfold post, mbind, tx_bind. destruct (m s) as [[x s']|]; [|done]. by destruct (k x s') as [[]|]. Qed.

Lemma post_lift_then {S A B} (x : result store_error A) (k : tx S B) s (P : Prop) :
  post k s (fun _ _ => P) -> post (lift x ;; k) s (fun _ _ => P).
Proof. intros Hk. tx_steps. done. Qed.

Lemma lease_carries {A} l sts now (k : tx CallState A) d :
  (forall s, s ∈ sts -> is_active s = true) ->
  post (on_call Busy (tk_call l) (require_lease l sts now ;; k)) d (fun _ _ => carries l now d).
Proof.
  intros Hs. apply post_on_call. intros c Hc. apply post_first, post_require_lease. intros r [Hi Hst Ho Hg Hx].
  exists r. split; [apply row_at_some; eauto|]. split_and!; auto.
Qed.

Lemma heartbeat_carries l now ms d : post (heartbeat l now ms) d (fun _ _ => carries l now d).
Proof.
  apply post_on_call. intros c Hc. unfold heartbeat_rows. tx_steps. destruct (inputs c !! tk_index l) as [r|] eqn:Hi; [|done].
  repeat (apply andb_true_iff in Hr as [Hr ?]). apply bool_decide_eq_true in Hr. exists r. split; [apply row_at_some; eauto|].
  rewrite Hr. split_and!; [done|done|by apply Z.eqb_eq|]. destruct (lease_expiry_ms r); [|done]. by apply Z.ltb_lt.
Qed.

Lemma active_statuses s sts :
  sts = [InputLeased] \/ sts = [InputRunning] \/ sts = [InputRunning; InputLeased] \/ sts = [InputLeased; InputRunning] -> s ∈ sts -> is_active s = true.
Proof. intros [-> | [-> | [-> | ->]]] Hs; set_unfold in Hs; by destruct s; naive_solver. Qed.

Lemma run_carries op now l d ts d' : op_token op = Some l -> run op now d = Ok (ts, d') -> carries l now d.
Proof.
  intros Ht Hr. refine (post_use _ _ (fun _ _ => carries l now d) _ _ _ Hr). clear Hr.
  destruct op; cbn in Ht; simplify_eq; apply post_first.
  - apply heartbeat_carries.
  - apply lease_carries. intros s. apply active_statuses. auto.
  - apply post_first, lease_carries. intros s. apply active_statuses. auto.
  - apply post_lift_then, post_first, lease_carries. intros s. apply active_statuses. auto.
  - apply post_bind, post_require. intros _. apply lease_carries. intros s. apply active_statuses. auto.
  - apply post_lift_then, lease_carries. intros s. apply active_statuses. auto.
  - destruct infra; apply post_lift_then, lease_carries; intros s; apply active_statuses; auto.
  - apply lease_carries. intros s. apply active_statuses. auto.
Qed.

Lemma carried_last h d l now : reach h d -> carries l now d -> last (tokens h (tk_call l) (tk_index l)) = Some l.
Proof.
  intros Hreach (r & Hr & Ha & Ho & Hg & _). destruct (to_counted _ _ (reach_tokens _ _ Hreach) _ _ _ Hr) as (H1 & H2 & H3).
  destruct (H3 Ha) as (t & Hlast & Hw). rewrite Hlast. f_equal. rewrite Hw in Ho. cbn in Ho.
  set (ts := tokens h (tk_call l) (tk_index l)) in *.
  assert (t ∈ ts) as Hin by (by apply last_Some_elem_of). apply list_elem_of_In, filter_In in Hin as [_ Hf]. apply for_input_spec in Hf as [Hc Hi].
  assert (tk_generation t = tk_generation l) as Hgt.
  { rewrite last_lookup in Hlast. pose proof (H1 _ _ Hlast) as Hk. apply lookup_lt_Some in Hlast. lia. }
  destruct t, l; cbn in *. congruence.
Qed.

(** C2: Only the lease issued last for an input lets its holder act.  Whatever operations ran before, a
    heartbeat, start, success, yield, log, failure, retry or end of a cancellation that commits was made
    with the token that the store issued last for that input: a worker whose lease was expired, requeued
    and given to another one can never commit anything again. *)
Theorem only_latest_lease_acts h d op now l ts d' :
  reach h d -> op_token op = Some l -> run op now d = Ok (ts, d') -> last (tokens h (tk_call l) (tk_index l)) = Some l.
Proof. intros Hh Ht Hr. eapply carried_last; [done|]. by eapply run_carries. Qed.

(** C3: What is over stays over.  An input that succeeded, failed or was cancelled keeps its status, its end, its
    generation and its error in every later state, and no operation under any lease of that input commits
    again.  A result that is stored for it stays as it is, until all results of the call, which is over
    then, are deleted because they expired; the copy of the result in its row stays or is cleared. *)
Theorem finished_input_is_final h d d' id i c r :
  reach h d -> follows d d' -> calls d !! id = Some c -> inputs c !! i = Some r -> is_open (status r) = false ->
  exists c' r', calls d' !! id = Some c' /\ inputs c' !! i = Some r' /\ status r' = status r /\ finished_ms r' = finished_ms r /\
    lease_generation r' = lease_generation r /\ error_blob r' = error_blob r /\
    (result_blob r' = result_blob r \/ result_blob r' = None) /\
    (forall res, results c !! i = Some res ->
       results c' !! i = Some res \/ (terminal_call (call_st (call c')) = true /\ results c' = ∅)) /\
    (forall op l now, op_token op = Some l -> tk_call l = id -> tk_index l = i -> exists e, run op now d' = Err e).
Proof.
  intros Hh Hf Hc Hi Ho. destruct (follows_steps d d' Hf (reach_ok _ _ Hh)) as [_ Hs]. destruct (ds_calls Hs _ _ Hc) as (c' & Hc' & Hst).
  destruct (sp_inputs _ _ Hst _ _ Hi) as (r' & Hr' & Hle). destruct (rl_done _ _ Hle Ho) as (Hs1 & Hf1 & Hg1 & He1 & Hb1).
  exists c', r'. split_and!; [done..|apply (sp_results _ _ Hst)|]. intros op l now Ht <- <-.
  destruct (run op now d') as [[ts d2]|e] eqn:Er; [|by exists e]. destruct (run_carries _ _ _ _ _ _ Ht Er) as (r2 & Hr2 & Ha & _).
  apply row_at_some in Hr2 as (c2 & Hc2 & Hr2). simplify_eq. rewrite Hs1 in Ha. by destruct (status r).
Qed.

(** C6: The status of every call says where its inputs are.  A call that is over has no open input; one that
    is being cancelled has nothing in the queue and a worker that still holds a lease; a pending one is
    open and empty; a queued or running one that is closed and has inputs still has one that is queued or leased
    to a worker until some time.  So no call waits for an event that cannot come. *)
Theorem call_status_consistent h d id c :
  reach h d -> calls d !! id = Some c ->
  match call_st (call c) with
  | CallSucceeded | CallFailed | CallCancelled => forall i r, inputs c !! i = Some r -> is_open (status r) = false
  | CallCancelling =>
      (forall i r, inputs c !! i = Some r -> status r <> InputQueued) /\
      exists i r w t, inputs c !! i = Some r /\ is_active (status r) = true /\ lease_owner r = Some w /\ lease_expiry_ms r = Some t
  | CallPending => inputs c = ∅ /\ input_closed (call c) = false
  | CallQueued | CallRunning => input_closed (call c) = true -> inputs c <> ∅ ->
      exists i r, inputs c !! i = Some r /\
        (status r = InputQueued \/ is_active (status r) = true /\ exists w t, lease_owner r = Some w /\ lease_expiry_ms r = Some t)
  | CallUnspecified => False
  end.
Proof.
  intros Hh Hc. destruct (reach_ok _ _ Hh id c Hc) as [Hcore _ [Ht Hcan Hp Hu] [Hlp Hl]].
  assert (forall i r, inputs c !! i = Some r -> is_active (status r) = true -> exists w t, lease_owner r = Some w /\ lease_expiry_ms r = Some t) as Hlease.
  { intros i r Hi Ha. destruct (active_lease _ (co_input _ Hcore _ _ Hi) Ha) as ([w Hw] & [t Hx] & _). eauto. }
  assert (forall i r, inputs c !! i = Some r -> is_open (status r) = true -> status r = InputQueued \/ is_active (status r) = true) as Hopen.
  { intros i r _ Ho. destruct (status r); try done; auto. }
  destruct (call_st (call c)) eqn:E; try done; try (by apply Ht).
  - split; [by apply Hp|by apply Hlp].
  - intros Hcl Hne. destruct Hl as (i & r & Hi & Ho); [by left|done..|]. exists i, r. split; [done|].
    destruct (Hopen i r Hi Ho); [by left|right]. eauto.
  - intros Hcl Hne. destruct Hl as (i & r & Hi & Ho); [by right|done..|]. exists i, r. split; [done|].
    destruct (Hopen i r Hi Ho); [by left|right]. eauto.
  - destruct (Hcan eq_refl) as [Hq (i & r & Hi & Ha)]. split; [done|]. destruct (Hlease i r Hi Ha) as (w & t & ? & ?). by exists i, r, w, t.
Qed.
End runs.
