(* ===== verification/StoreService.v ===== *)
(** What the callers of the function store get: the oldest eligible input is leased, the current holder of a
    lease can commit its result, and a restart gives back everything that was running. *)

From S2P Require Import Prelude Decimal StoreTables StoreSpecs StoreCalls StoreOutcomes StoreInvariant StoreKeeps StoreSafety StoreRuns.

(** ** Orders *)

Lemma bytes_leb_refl a : bytes_leb a a = true.
Proof. induction a as [|x a IH]; [done|]. cbn. rewrite Z.eqb_refl, IH. apply orb_true_r. Qed.

Lemma bytes_leb_total a b : bytes_leb a b = true \/ bytes_leb b a = true.
Proof.
  revert b. induction a as [|x a IH]; intros [|y b]; cbn; [by left..|by right|].
  destruct (Z.lt_trichotomy x y) as [Hlt|[->|Hgt]].
  - left. by rewrite (proj2 (Z.ltb_lt _ _) Hlt).
  - rewrite Z.eqb_refl. destruct (IH b) as [-> | ->]; [left|right]; apply orb_true_r.
  - right. by rewrite (proj2 (Z.ltb_lt _ _) Hgt).
Qed.

Lemma bytes_leb_cons x a y b : bytes_leb (x :: a) (y :: b) = true <-> x < y \/ (x = y /\ bytes_leb a b = true).
Proof. cbn. rewrite orb_true_iff, andb_true_iff, Z.ltb_lt, Z.eqb_eq. done. Qed.

Lemma bytes_leb_trans a b c : bytes_leb a b = true -> bytes_leb b c = true -> bytes_leb a c = true.
Proof.
  revert b c. induction a as [|x a IH]; intros [|y b] [|z c]; try done. rewrite !bytes_leb_cons.
  intros [H1|[-> H1]] [H2|[-> H2]]; [left; lia|left; lia|left; lia|right]. split; [done|by eapply IH].
Qed.

Lemma bytes_leb_antisym a b : bytes_leb a b = true -> bytes_leb b a = true -> a = b.
Proof.
  revert b. induction a as [|x a IH]; intros [|y b]; try done. rewrite !bytes_leb_cons.
  intros [H1|[-> H1]] [H2|[H2' H2]]; [lia|lia|lia|]. f_equal. by apply IH.
Qed.

(** [ORDER BY available_ms, created_ms, call_id, input_index], as an order. *)
Definition candidate_le (a b : candidate) : Prop :=
  let '(a1, a2, a3, a4) := a in let '(b1, b2, b3, b4) := b in
  a1 < b1 \/ (a1 = b1 /\ (a2 < b2 \/ (a2 = b2 /\ ((bytes_leb a3 b3 = true /\ a3 <> b3) \/ (a3 = b3 /\ a4 <= b4))))).

Lemma candidate_leb_spec a b : candidate_leb a b = true <-> candidate_le a b.
Proof.
  destruct a as [[[a1 a2] a3] a4], b as [[[b1 b2] b3] b4]. unfold candidate_leb, candidate_le.
  rewrite !orb_true_iff, !andb_true_iff, !orb_true_iff, !andb_true_iff, !orb_true_iff, !andb_true_iff, !Z.ltb_lt, !Z.eqb_eq, Z.leb_le,
    negb_true_iff, bool_decide_eq_false, bool_decide_eq_true. done.
Qed.

Lemma candidate_total a b : candidate_le a b \/ candidate_le b a.
Proof.
  destruct a as [[[a1 a2] a3] a4], b as [[[b1 b2] b3] b4]. unfold candidate_le.
  destruct (Z.lt_trichotomy a1 b1) as [?|[->|?]]; [tauto| |tauto]. destruct (Z.lt_trichotomy a2 b2) as [?|[->|?]]; [tauto| |tauto].
  destruct (decide (a3 = b3)) as [->|Hne].
  - destruct (Z.le_ge_cases a4 b4); tauto.
  - assert (b3 <> a3) by congruence. destruct (bytes_leb_total a3 b3); tauto.
Qed.

Lemma candidate_trans a b c : candidate_le a b -> candidate_le b c -> candidate_le a c.
Proof.
  destruct a as [[[a1 a2] a3] a4], b as [[[b1 b2] b3] b4], c as [[[c1 c2] c3] c4]. unfold candidate_le.
  intros [H1|[-> H1]] [H2|[-> H2]]; [left; lia|left; lia|left; lia|right; split; [done|]].
  destruct H1 as [H1|[-> H1]], H2 as [H2|[-> H2]]; [left; lia|left; lia|left; lia|right; split; [done|]].
  destruct H1 as [[H1 Hn1]|[-> H1]], H2 as [[H2 Hn2]|[-> H2]]; [|tauto|tauto|right; split; [done|lia]].
  left. split; [by eapply bytes_leb_trans|]. intros ->. by apply Hn1, bytes_leb_antisym.
Qed.

Lemma first_by_spec {A} (le : A -> A -> bool) l :
  (forall a b, le a b = true \/ le b a = true) -> (forall a b c, le a b = true -> le b c = true -> le a c = true) ->
  match first_by le l with None => l = [] | Some x => x ∈ l /\ forall y, y ∈ l -> le x y = true end.
Proof.
  intros Htot Htr. induction l as [|x l IH]; [done|]. cbn. destruct (first_by le l) as [y|].
  - destruct IH as [Hin Hmin]. destruct (le x y) eqn:E.
    + split; [left|]. intros z [->|Hz]%elem_of_cons; [by destruct (Htot x x)|]. eapply Htr; [exact E|auto].
    + split; [by right|]. intros z [->|Hz]%elem_of_cons; [|auto]. destruct (Htot x y); congruence.
  - subst l. split; [left|]. intros z Hz. apply list_elem_of_singleton in Hz as ->. by destruct (Htot x x).
Qed.

(** ** Leases *)

(** Input [i] of call [id] may be leased. *)
Definition eligible (revision : option bytes) (exclude_batch : bool) (now : Z) (d : Db) (x : candidate) : Prop :=
  let '(available, created, id, i) := x in
  exists c r, calls d !! id = Some c /\ inputs c !! i = Some r /\
    (call_st (call c) = CallQueued \/ call_st (call c) = CallRunning) /\
    (forall t, queue_deadline_ms (call c) = Some t -> now < t) /\ (forall rev, revision = Some rev -> revision_id (call c) = rev) /\
    (exclude_batch = true -> kind (call c) <> Batch) /\ status r = InputQueued /\ available_ms r <= now /\
    available = available_ms r /\ created = created_ms (call c).

Lemma call_leasable_spec now c : call_leasable now c = true <->
  (call_st c = CallQueued \/ call_st c = CallRunning) /\ (forall t, queue_deadline_ms c = Some t -> now < t).
Proof.
  unfold call_leasable. rewrite andb_true_iff, bool_decide_eq_true. set_unfold. split.
  - intros [Hs Hd]. split; [tauto|]. intros t Ht. rewrite Ht in Hd. by apply Z.ltb_lt.
  - intros [Hs Hd]. split; [tauto|]. destruct (queue_deadline_ms c) as [t|]; [|done]. apply Z.ltb_lt. by apply Hd.
Qed.

Lemma candidates_spec revision ex now d x : x ∈ candidates revision ex now d <-> eligible revision ex now d x.
Proof.
  destruct x as [[[av cr] id] i]. unfold candidates, eligible, call_candidates. rewrite list_elem_of_In, in_concat. split.
  - intros (l & Hl & Hx). apply in_map_iff in Hl as ((id2 & c) & <- & Hc). cbn [fst snd] in Hx.
    apply list_elem_of_In, elem_of_map_to_list in Hc. destruct (_ && _) eqn:E in Hx; [|done].
    apply andb_true_iff in E as [E Hb]. apply andb_true_iff in E as [E Hrev]. apply call_leasable_spec in E as [Hst Hd].
    apply list_elem_of_In, list_elem_of_omap in Hx as ((i2 & r) & Hr & Hx). cbn [fst snd] in Hx. unfold input_leasable in Hx.
    apply elem_of_map_to_list in Hr. case_bool_decide as Hq; [|done]. cbn in Hx. destruct (available_ms r <=? now) eqn:Ha; [|done].
    simplify_eq. exists c, r. split_and!; try done; [| |by apply Z.leb_le].
    + intros rev ->. by apply bool_decide_eq_true in Hrev.
    + intros ->. cbn in Hb. by apply negb_true_iff, bool_decide_eq_false in Hb.
  - intros (c & r & Hc & Hi & Hst & Hd & Hrev & Hex & Hq & Ha & -> & ->).
    exists (call_candidates revision ex now id c). split.
    { apply in_map_iff. exists (id, c). split; [done|]. by apply list_elem_of_In, elem_of_map_to_list. }
    unfold call_candidates. rewrite (proj2 (call_leasable_spec now (call c))) by done.
    assert ((match revision with Some r0 => bool_decide (revision_id (call c) = r0) | None => true end) = true) as ->
      by (destruct revision; [apply bool_decide_eq_true; auto|done]).
    assert (negb ex || negb (bool_decide (kind (call c) = Batch)) = true) as ->
      by (destruct ex; [cbn; apply negb_true_iff, bool_decide_eq_false; auto|done]).
    cbn [andb].
    apply list_elem_of_In, list_elem_of_omap. exists (i, r). split; [by apply elem_of_map_to_list|]. cbn [fst snd]. unfold input_leasable.
    by rewrite bool_decide_eq_true_2, (proj2 (Z.leb_le _ _) Ha).
Qed.

Section service.
Context `{Prost}.

(** C18: [lease_next] and its variants take the oldest eligible input.  The queue deadlines are applied first; after
    them, nothing is leased exactly when no input is eligible, and the input that is leased is eligible and first in
    the order of availability, creation, call and index.  The row then carries the token that is returned, one
    generation up, for the worker and until the end of the lease; everything else is left as it was. *)
Theorem lease_takes_the_oldest revision worker attempt now lease_ms ex d x d' :
  lease_next_matching revision worker attempt now lease_ms ex d = Ok (x, d') ->
  exists d1, expire_deadlines_tx now d = Ok (tt, d1) /\
  match x with
  | None => d' = d1 /\ forall y, ~ eligible revision ex now d1 y
  | Some item => exists c r, let id := tk_call (l_token item) in let i := tk_index (l_token item) in
      calls d1 !! id = Some c /\ inputs c !! i = Some r /\
      eligible revision ex now d1 (available_ms r, created_ms (call c), id, i) /\
      (forall y, eligible revision ex now d1 y -> candidate_le (available_ms r, created_ms (call c), id, i) y) /\
      l_token item = mkLeaseToken id i worker (lease_generation r + 1) /\
      calls d' = <[id := with_inputs (alter (lease_row worker attempt (saturating_add 64 now lease_ms)) i) c]> (calls d1)
  end.
Proof.
  intros Hl. refine (post_use (lease_next_matching revision worker attempt now lease_ms ex) d (fun x d' => exists d1, _) x d' _ Hl). clear Hl.
  unfold lease_next_matching, revision_by_id. tx_steps. apply post_intro. intros [] d1 Hd1. tx_steps.
  pose proof (first_by_spec candidate_leb (candidates revision ex now d1)) as Hf.
  destruct (first_by candidate_leb _) as [[[[av cr] id] i]|].
  - destruct Hf as [Hin Hmin]; [intros a b; rewrite !candidate_leb_spec; apply candidate_total|intros a b c; rewrite !candidate_leb_spec; apply candidate_trans|].
    tx_steps. apply post_on_call_read. intros c Hc. tx_steps. apply post_on_call. intros c0 Hc0. simplify_eq.
    eapply post_mono; [apply lease_input_spec; intros ? ?; apply bool_decide_eq_true|]. cbv beta. intros [item|] c' Hx; tx_steps.
    exists d1. split; [done|]. destruct Hx as (r & Hrow & Hq & Ht & _ & ->). exists c, r. rewrite Ht. cbn [tk_call tk_index].
    apply candidates_spec in Hin as Hel. destruct Hel as (c2 & r2 & Hc2 & Hr2 & _ & _ & _ & _ & _ & _ & -> & ->). simplify_eq.
    split_and!; [done|done|by apply candidates_spec| |done|done]. intros y Hy. apply candidate_leb_spec, Hmin. by apply candidates_spec.
  - tx_steps. exists d1. split_and!; [done|done|]. intros y Hy%candidates_spec. rewrite Hf in Hy; [by apply elem_of_nil in Hy|..].
    + intros a b; rewrite !candidate_leb_spec; apply candidate_total.
    + intros a b c; rewrite !candidate_leb_spec; apply candidate_trans.
Qed.

(** The queue deadline ends a call that is running, together with the attempts that are being executed. *)
Lemma queue_deadline_ends_call call_id now c t :
  call_st (call c) ∈ [CallQueued; CallPending; CallRunning] -> queue_deadline_ms (call c) = Some t -> t <= now ->
  post (expire_deadline call_id now) c (fun _ c' => call_st (call c') = CallFailed /\
    result_expiry_ms (call c') = result_expiry_ms (call c) /\ results c' = results c /\
    forall i r, inputs c !! i = Some r -> is_active (status r) = true -> exists r', inputs c' !! i = Some r' /\ status r' = InputFailed).
Proof.
  intros Hs Hd Ht. unfold expire_deadline. tx_steps. unfold id. rewrite Hd, bool_decide_eq_true_2, (proj2 (Z.leb_le _ _) Ht) by done. cbn [andb].
  tx_steps. apply log_each; [intros [i r] c1; destruct (_ && _); tx_run; [done|reflexivity]|]. intros c1 Hl. tx_run.
  destruct (logged_call _ _ Hlog0) as (-> & _ & _ & _ & _ & _ & _ & -> & _). destruct (logged_call _ _ Hlog) as (-> & _ & _ & _ & _ & _ & _ & -> & _).
  destruct (logged_call _ _ Hl) as (_ & _ & _ & _ & _ & _ & _ & He & _). split_and!; [done|exact He| |].
  - rewrite (lg_results _ _ Hlog0), (lg_results _ _ Hlog). cbn. apply (lg_results _ _ Hl).
  - intros i r Hi Ha. rewrite (lg_inputs _ _ Hlog0), (lg_inputs _ _ Hlog). cbn. rewrite (lg_inputs _ _ Hl), lookup_fmap, Hi. cbn.
    eexists. split; [done|]. by destruct (status r).
Qed.

(** The results of such a call have no expiry: no later pass removes them. *)
Lemma deadline_results_never_expire call_id now c t later :
  call_ok c -> call_st (call c) ∈ [CallQueued; CallPending; CallRunning] -> queue_deadline_ms (call c) = Some t -> t <= now ->
  post (expire_deadline call_id now) c (fun _ c' => terminal_call (call_st (call c')) = true /\ results c' = results c /\
    expire_call_results later c' = Ok (false, c')).
Proof.
  intros Hok Hs Hd Ht. eapply post_mono; [by eapply queue_deadline_ends_call|]. cbv beta. intros _ c' (Hst & Hx & Hr & _).
  rewrite Hst. split_and!; [done|done|]. unfold expire_call_results, mbind, tx_bind, read, results_expired, id.
  replace (result_expiry_ms (call c')) with (@None Z); [done|]. rewrite Hx. symmetry. apply eq_None_not_Some. intros Hsome.
  pose proof (co_expiry _ (ok_core _ Hok) Hsome) as Hterm. set_unfold in Hs. by destruct Hs as [E|[E|[E|[]]]]; rewrite E in Hterm.
Qed.

(** ** Recovery *)

Lemma map_tx_calls {A} (m : bytes -> tx CallState A) ids d :
  NoDup ids -> post (map_tx (fun id => x ← on_call Sql id (m id); mret (id, x)) ids) d (fun _ d' =>
    (forall id, id ∉ ids -> calls d' !! id = calls d !! id) /\ actors d' = actors d /\
    (forall id c, id ∈ ids -> calls d !! id = Some c -> exists x c', m id c = Ok (x, c') /\ calls d' !! id = Some c')).
Proof.
  revert d. induction ids as [|id ids IH]; intros d Hnd; cbn [map_tx]; tx_steps.
  { split_and!; try done. intros id c Hin. by apply elem_of_nil in Hin. }
  apply NoDup_cons in Hnd as [Hni Hnd]. apply post_on_call. intros c Hc. apply post_intro. intros x c1 Hm. tx_steps.
  eapply post_mono; [by apply IH|]. cbv beta. intros ys d2 (H1 & Ha & H2). cbn in H1, Ha, H2. tx_steps. split_and!; [|done|].
  - intros id2 Hn. apply not_elem_of_cons in Hn as [Hne Hn]. rewrite H1 by done. by rewrite lookup_insert_ne.
  - intros id2 c2 [->|Hin]%elem_of_cons Hc2.
    + simplify_eq. exists x, c1. split; [done|]. rewrite H1 by done. apply lookup_insert_eq.
    + apply H2; [done|]. rewrite lookup_insert_ne; [done|]. by intros ->.
Qed.

(** A pass visits every call once. *)
Lemma for_calls_spec {A} (m : bytes -> tx CallState A) d :
  post (for_calls m) d (fun _ d' => actors d' = actors d /\
    forall id c, calls d !! id = Some c -> exists x c', m id c = Ok (x, c') /\ calls d' !! id = Some c').
Proof.
  unfold for_calls. tx_steps. eapply post_mono; [apply map_tx_calls, NoDup_fst_map_to_list|]. cbv beta. intros l d' (_ & Ha & Hc).
  split; [done|]. intros id c Hid. apply Hc; [|done]. apply list_elem_of_In, in_map_iff. exists (id, c). split; [done|].
  by apply list_elem_of_In, elem_of_map_to_list.
Qed.

(** What a restart does to an input. *)
Definition recovered (now : Z) (cancelling : bool) (r r' : Input) : Prop :=
  if is_active (status r) then
    if cancelling then status r' = InputCancelled /\ finished_ms r' = Some now
    else status r' = InputQueued /\ available_ms r' = now /\ infra_attempts r' = infra_attempts r + 1 /\ user_attempts r' = user_attempts r
  else r' = r.

Lemma touched_recovered now b g m i r :
  (forall r, recovered now b r (if is_active (status r) then g r else r)) -> m !! i = Some r ->
  exists r', touched g (map fst (List.filter (fun kv => is_active (status (snd kv))) (map_to_list m))) m !! i = Some r' /\ recovered now b r r'.
Proof.
  intros Hg Hi. eexists. rewrite touched_lookup, Hi. split; [done|]. specialize (Hg r).
  assert (bool_decide (i ∈ map fst (List.filter (fun kv => is_active (status (snd kv))) (map_to_list m))) = is_active (status r)) as ->; [|done].
  destruct (is_active (status r)) eqn:Ha.
  - apply bool_decide_eq_true. apply list_elem_of_In, in_map_iff. exists (i, r). split; [done|]. apply filter_In. split; [|done].
    by apply list_elem_of_In, elem_of_map_to_list.
  - apply bool_decide_eq_false. intros Hin. apply list_elem_of_In, in_map_iff in Hin as ((j & r2) & Hj & Hin). cbn in Hj. subst j.
    apply filter_In in Hin as [Hin Ha2]. apply list_elem_of_In, elem_of_map_to_list in Hin. cbn in Ha2. congruence.
Qed.

Lemma finalize_inputs now c : post (finalize_cancelled_tx now) c (fun _ c' => inputs c' = inputs c /\ call_st (call c') = CallCancelled).
Proof.
  unfold finalize_cancelled_tx. tx_steps. case_bool_decide; tx_run; [done|]. destruct (logged_call _ _ Hlog) as (-> & _).
  by rewrite (lg_inputs _ _ Hlog).
Qed.

Lemma recover_call_spec call_id now c :
  call_ok c -> post (recover_call call_id now) c (fun _ c' =>
    (forall i r, inputs c !! i = Some r -> exists r', inputs c' !! i = Some r' /\ recovered now (bool_decide (call_st (call c) = CallCancelling)) r r') /\
    (call_st (call c) = CallCancelling -> call_st (call c') = CallCancelled)).
Proof.
  intros Hok. unfold recover_call. tx_steps. unfold id.
  destruct (active_rows (fun r => is_active (status r)) (inputs c)) as [Hnd Hrows]; [done|].
  case_bool_decide as Hc; tx_steps.
  - destruct (se_cancelling _ _ (ok_settled _ Hok) Hc) as [_ (i & r & Hi & Ha)].
    eapply post_mono; [by apply drop_rows|]. cbv beta. intros _ c1 Hs. tx_steps.
    destruct (length _ =? 0)%nat eqn:Hlen.
    { apply Nat.eqb_eq, nil_length_inv in Hlen. assert (In (i, r) []) as []. rewrite <- Hlen. apply filter_In.
      split; [by apply list_elem_of_In, elem_of_map_to_list|done]. }
    eapply post_mono; [apply finalize_inputs|]. cbv beta. intros _ c2 [Hin Hst]. tx_steps. split; [|done]. intros j rj Hj.
    rewrite Hin, (at_inputs _ _ _ _ _ _ Hs). apply touched_recovered; [|done]. intros r'. unfold recovered. by destruct (is_active (status r')).
  - eapply post_mono; [eapply (visit_rows (fun s => s = call_st (call c))); [|by apply sees_start|done..]|].
    { intros kv st m c1 Hs1 Hst Hr. eapply requeue_visit; [done..|]. eauto. }
    cbv beta. intros _ c1 (st & Hs & ->). tx_steps.
    assert (forall c', inputs c' = inputs c1 -> forall i r, inputs c !! i = Some r -> exists r', inputs c' !! i = Some r' /\ recovered now false r r') as Hend.
    { intros c' -> i r Hi. rewrite (at_inputs _ _ _ _ _ _ Hs). apply touched_recovered; [|done]. intros r'. unfold recovered. destruct (is_active (status r')); [|done]. cbn. split_and!; [done..|lia]. }
    destruct (_ && _); tx_run; (split; [|done]); apply Hend; [|done]. by rewrite (lg_inputs _ _ Hlog).
Qed.

(** A restart of the control plane gives back everything that was running.  After [recover_startup] no input is
    leased or running: each attempt that the restart interrupted is back in the queue, available at once, with one more
    infrastructure attempt and no more user attempt, or, when its call was being cancelled, is cancelled with the call;
    the inputs that were not active are as they were; and no actor is left with a worker that is gone. *)
Lemma restart_gives_back_work h now d n d' :
  reach h d -> recover_startup now d = Ok (n, d') ->
  (forall id c, calls d !! id = Some c -> exists c', calls d' !! id = Some c' /\
     (forall i r, inputs c !! i = Some r -> exists r', inputs c' !! i = Some r' /\ is_active (status r') = false /\
        recovered now (bool_decide (call_st (call c) = CallCancelling)) r r') /\
     (call_st (call c) = CallCancelling -> call_st (call c') = CallCancelled)) /\
  (forall a row, actors d' !! a = Some row -> a_status row = ActorReady \/ a_status row = ActorBusy -> a_worker row = None).
Proof.
  intros Hh Hr. refine (post_use (recover_startup now) d (fun _ d' => _ /\ _) n d' _ Hr). clear Hr.
  unfold recover_startup, set_actors. tx_steps. eapply post_mono; [apply for_calls_spec|]. cbv beta. intros l d1 (Ha & Hc). tx_steps. cbn. split.
  - intros id c Hid. destruct (Hc id c Hid) as (x & c' & Hm & Hc'). exists c'. split; [done|].
    destruct (post_use _ _ _ _ _ (recover_call_spec id now c (reach_ok _ _ Hh id c Hid)) Hm) as [Hi Hst]. split; [|done].
    intros i r Hir. destruct (Hi i r Hir) as (r' & Hr' & Hrec). exists r'. split_and!; [done| |done]. unfold recovered in Hrec.
    destruct (is_active (status r)) eqn:Eact; [|by subst r']. case_bool_decide; destruct Hrec as [-> _]; done.
  - intros a row. rewrite lookup_fmap. destruct (actors d1 !! a) as [row0|]; [|done]. cbn. intros [= <-]. unfold recover_actor.
    destruct (_ && _) eqn:E; [done|]. intros Hst. apply andb_false_iff in E as [E|E].
    + apply bool_decide_eq_false in E. by apply eq_None_not_Some.
    + apply bool_decide_eq_false in E. set_solver.
Qed.
End service.
