(* ===== verification/StoreCommit.v ===== *)
(** The holder of a lease can commit: under the lease that the row carries, [succeed] returns, and the result is
    recorded.  Here a specification says that a transaction commits. *)

From S2P Require Import Prelude Decimal StoreTables StoreSpecs StoreCalls StoreOutcomes StoreInvariant StoreKeeps StoreSafety StoreRuns.

(** ** Transactions that commit *)

Definition commits {S A} (m : tx S A) (s : S) (Q : A -> S -> Prop) : Prop := exists x s', m s = Ok (x, s') /\ Q x s'.

Lemma commits_mono {S A} (m : tx S A) s (Q Q' : A -> S -> Prop) :
  commits m s Q -> (forall x s', Q x s' -> Q' x s') -> commits m s Q'.
Proof. intros (x & s' & Hm & HQ) H. exists x, s'. auto. Qed.

(** The post-condition of a transaction holds when it commits. *)
Lemma commits_post {S A} (m : tx S A) s (Q P : A -> S -> Prop) :
  commits m s Q -> post m s P -> commits m s (fun x s' => Q x s' /\ P x s').
Proof. intros (x & s' & Hm & HQ) HP. exists x, s'. split_and!; [done|done|by eapply post_use]. Qed.

Lemma commits_bind {S A B} (m : tx S A) (k : A -> tx S B) s (Q : B -> S -> Prop) :
  commits m s (fun x s' => commits (k x) s' Q) -> commits (m ≫= k) s Q.
Proof.
  intros (x & s' & Hm & y & s2 & Hk & HQ). exists y, s2. split; [|done]. unfold mbind, tx_bind. by rewrite Hm.
Qed.
Lemma commits_ret {S A} (x : A) (s : S) (Q : A -> S -> Prop) : Q x s -> commits (mret x) s Q.
Proof. by exists x, s. Qed.
Lemma commits_read {S A} (f : S -> A) s (Q : A -> S -> Prop) : Q (f s) s -> commits (read f) s Q.
Proof. by exists (f s), s. Qed.
Lemma commits_modify {S} (f : S -> S) s (Q : () -> S -> Prop) : Q tt (f s) -> commits (modify f) s Q.
Proof. by exists tt, (f s). Qed.
Lemma commits_require {S} b e (s : S) (Q : () -> S -> Prop) : b = true -> Q tt s -> commits (require b e) s Q.
Proof. intros -> HQ. by exists tt, s. Qed.
Lemma commits_lift {S A} (r : result store_error A) x (s : S) (Q : A -> S -> Prop) : r = Ok x -> Q x s -> commits (lift r) s Q.
Proof. intros -> HQ. by exists x, s. Qed.
Lemma commits_check {S} v (s : S) (Q : () -> S -> Prop) : v < 2 ^ 63 -> Q tt s -> commits (check_i64 v) s Q.
Proof.
  intros Hv HQ. exists tt, s. split; [|done]. unfold check_i64, u64_i64, mbind, tx_bind, lift.
  by rewrite (proj2 (Z.ltb_lt v (2 ^ 63)) Hv).
Qed.
Lemma commits_set_call f c (Q : () -> CallState -> Prop) : Q tt (with_call f c) -> commits (set_call f) c Q.
Proof. by exists tt, (with_call f c). Qed.
Lemma commits_set_input i f c (Q : () -> CallState -> Prop) : Q tt (with_inputs (alter f i) c) -> commits (set_input i f) c Q.
Proof. by exists tt, (with_inputs (alter f i) c). Qed.
Lemma commits_input_row i r c (Q : Input -> CallState -> Prop) : inputs c !! i = Some r -> Q r c -> commits (input_row i) c Q.
Proof. intros Hi HQ. exists r, c. split; [|done]. unfold input_row, mbind, tx_bind, read, lift. by rewrite Hi. Qed.

Ltac commit_step :=
  lazymatch goal with
  | |- commits (_ ≫= _) _ _ => apply commits_bind
  | |- commits (mret _) _ _ => apply commits_ret
  | |- commits (read _) _ _ => apply commits_read
  | |- commits call_status _ _ => apply commits_read
  | |- commits call_kind _ _ => apply commits_read
  | |- commits (modify _) _ _ => apply commits_modify
  | |- commits (set_call _) _ _ => apply commits_set_call
  | |- commits (set_input _ _) _ _ => apply commits_set_input
  | |- commits (require _ _) _ _ => apply commits_require
  | |- commits (check_i64 _) _ _ => apply commits_check
  end.
Ltac commit_steps := repeat (commit_step; cbv beta); try assumption; try (cbn; lia).

Lemma commits_append p inp idx att now c :
  core_ok c -> event_seq (call c) + 1 < 2 ^ 63 -> now < 2 ^ 63 ->
  commits (append_event_with_metadata p inp idx att now) c (fun _ c' => logged c c' /\ event_seq (call c') = event_seq (call c) + 1).
Proof.
  intros Hc Hs Hn. pose proof (append_event_logged p inp idx att now c) as Hl.
  assert (commits (append_event_with_metadata p inp idx att now) c (fun _ c' => event_seq (call c') = event_seq (call c) + 1)) as Hcm.
  { unfold append_event_with_metadata, next_event_sequence. commit_steps.
    apply negb_true_iff, bool_decide_eq_false. cbn. intros Hx. pose proof (co_events _ Hc _ Hx). lia. }
  eapply commits_mono; [exact (commits_post _ _ _ _ Hcm Hl)|]. cbv beta. tauto.
Qed.

Lemma commits_event p now c : core_ok c -> event_seq (call c) + 1 < 2 ^ 63 -> now < 2 ^ 63 ->
  commits (append_event p now) c (fun _ c' => logged c c' /\ event_seq (call c') = event_seq (call c) + 1).
Proof. intros. unfold append_event. destruct p; by apply commits_append. Qed.

Lemma seen_core c0 st cl m res c : sees (R := (=)) c0 st cl m res c -> core_ok c.
Proof. apply at_core. Qed.

Section commit.
Context `{Prost}.

Lemma commits_attempt l s f e st now c r x :
  core_ok c -> inputs c !! tk_index l = Some r -> default [] (attempt_id r) <> [] -> decode_input (payload r) = Some x ->
  event_seq (call c) + 1 < 2 ^ 63 -> now < 2 ^ 63 -> tk_index l < 2 ^ 63 ->
  commits (append_attempt_transition l s f e st now) c (fun _ c' => logged c c' /\ event_seq (call c') = event_seq (call c) + 1).
Proof.
  intros Hc Hi Ha Hd Hs Hn Hx. unfold append_attempt_transition, stored_input. apply commits_bind, commits_check; [done|].
  apply commits_bind. eapply commits_input_row; [done|]. cbv zeta. apply commits_bind, commits_require; [by apply negb_true_iff, bool_decide_eq_false|].
  apply commits_bind, commits_bind. eapply commits_input_row; [done|]. eapply commits_lift; [by rewrite Hd|]. by apply commits_append.
Qed.

Lemma commits_complete now c : core_ok c -> event_seq (call c) + 1 < 2 ^ 63 -> now < 2 ^ 63 ->
  commits (complete_call_tx now) c (fun _ c' => inputs c' = inputs c /\ results c' = results c).
Proof.
  intros Hc Hs Hn. unfold complete_call_tx. commit_steps. destruct (_ || _) eqn:Ht; [by commit_steps|]. apply orb_false_iff in Ht as [Ht _].
  commit_steps. unfold id in *. match goal with |- commits (if ?b then _ else _) _ _ => destruct b end; [by commit_steps|]. commit_steps.
  match goal with |- commits (append_status_event ?s _) (with_call (set_finished ?s _) _) _ => set (target := s) end.
  assert (terminal_call target = true) as Htt by (unfold target; repeat case_match; done).
  eapply commits_mono; [apply commits_event; [|done|done]|].
  - destruct Hc as [K1 K2 K3 K4 K5 K6 K7 K8 K9]. split; cbn; try done.
  - cbv beta. intros _ c' [Hl _]. commit_steps. by rewrite (lg_inputs _ _ Hl), (lg_results _ _ Hl).
Qed.

Lemma commits_ref x k o d : validate_digest_hex x = true -> x ∈ artifacts d ->
  commits (add_artifact_ref x k o) d (fun _ d' => calls d' = calls d /\ artifacts d' = artifacts d).
Proof. intros Hv Hk. unfold add_artifact_ref, set_refs. commit_steps; [by apply bool_decide_eq_true|done]. Qed.

Lemma commits_refs k o l d :
  (forall x, x ∈ l -> validate_digest_hex x = true /\ x ∈ artifacts d) ->
  commits (for_each (fun digest => add_artifact_ref digest k o) l) d (fun _ d' => calls d' = calls d).
Proof.
  revert d. induction l as [|x l IH]; intros d Hl; cbn [for_each]; [by commit_steps|].
  destruct (Hl x) as [Hv Hk]; [left|]. apply commits_bind. eapply commits_mono; [by apply commits_ref|]. cbv beta.
  intros _ d1 [Hd1 Ha1]. eapply commits_mono; [apply IH|cbv beta; congruence]. intros y Hy. rewrite Ha1. apply Hl. by right.
Qed.

Lemma commits_on_call {A} e id (m : tx CallState A) d c (Q : A -> Db -> Prop) :
  calls d !! id = Some c ->
  commits m c (fun x c' => forall d', calls d' = <[id := c']> (calls d) -> artifacts d' = artifacts d -> Q x d') -> commits (on_call e id m) d Q.
Proof.
  intros Hc (x & c' & Hm & HQ). unfold commits, on_call. rewrite Hc, Hm. do 2 eexists. split; [done|]. by apply HQ.
Qed.

Lemma commits_guard l now c r :
  inputs c !! tk_index l = Some r -> is_active (status r) = true -> default [] (lease_owner r) = tk_worker l ->
  lease_generation r = tk_generation l -> now < default 0 (lease_expiry_ms r) -> tk_index l < 2 ^ 63 ->
  call_st (call c) = CallQueued \/ call_st (call c) = CallRunning ->
  commits (require_lease l [InputRunning; InputLeased] now ;; require_executable_call ;; call_kind) c (fun k c' => c' = c /\ k = kind (call c)).
Proof.
  intros Hi Ha Ho Hg Hx Hb Hex. unfold require_lease, require_executable_call. commit_steps. rewrite Hi. commit_steps.
  { rewrite !andb_true_iff, !bool_decide_eq_true, Z.eqb_eq, Z.ltb_lt. split_and!; try done. set_unfold. destruct (status r); naive_solver. }
  commit_steps. destruct Hex as [-> | ->]; by commit_steps.
Qed.

Lemma commits_insert i seq r now c :
  core_ok c -> results c !! i = None -> result_seq (call c) = seq -> (forall j r', results c !! j = Some r' -> res_sequence r' < seq) ->
  i < 2 ^ 63 -> seq < 2 ^ 63 -> now < 2 ^ 63 ->
  commits (insert_result i seq r now) c (fun _ c' =>
    c' = mkCallState (call c) (inputs c) (events c) (<[i := r]> (results c)) (attempt_stats c)).
Proof.
  intros Hc Hn Hs Hlt Hi Hsb Hnow. unfold insert_result. commit_steps; [|done].
  apply andb_true_iff. rewrite !negb_true_iff. split.
  - apply bool_decide_eq_false. rewrite Hn. by intros [? ?].
  - apply not_true_iff_false. intros ((j & r') & Hin & He)%existsb_exists. apply list_elem_of_In, elem_of_map_to_list in Hin.
    cbn in He. apply Z.eqb_eq in He. specialize (Hlt j r' Hin). lia.
Qed.

Lemma commits_stored l res seq now c r x :
  inputs c !! tk_index l = Some r -> decode_input (payload r) = Some x ->
  commits (stored_result l res seq now) c (fun st c' => c' = c /\ res_index st = res_index res /\ res_sequence st = seq /\ res_outcome st = res_outcome res).
Proof.
  intros Hi Hd. unfold stored_result, stored_input. apply commits_bind. case_bool_decide.
  - apply commits_bind, commits_bind. eapply commits_input_row; [done|]. eapply commits_lift; [by rewrite Hd|]. by commit_steps.
  - by commit_steps.
Qed.

(** Statistics that can be stored: they name the attempt of the row, and none are stored for it. *)
Definition stats_fit (stats : option AttemptStats) (i : Z) (r : Input) (c : CallState) : Prop :=
  match stats with
  | None => True
  | Some st => attempt_id r = Some (st_attempt_id st) /\ forall st', (i, st_attempt_id st, st') ∉ attempt_stats c
  end.

Lemma commits_stats l stats c r :
  inputs c !! tk_index l = Some r -> default [] (attempt_id r) <> [] -> tk_index l < 2 ^ 63 -> stats_fit stats (tk_index l) r c ->
  commits (persist_attempt_stats l stats) c (fun _ c' =>
    call c' = call c /\ inputs c' = alter (put_stats stats) (tk_index l) (inputs c) /\ results c' = results c).
Proof.
  intros Hi Ha Hb Hf. unfold persist_attempt_stats. destruct stats as [st|]; [|commit_steps; by rewrite alter_put_none].
  destruct Hf as [Hat Hnew]. rewrite Hat in Ha. cbn in Ha. commit_steps. eapply commits_input_row; [done|]. cbv zeta. rewrite Hat. cbn [default].
  commit_steps; [|apply negb_true_iff, not_true_iff_false; intros ([[i a] st'] & Hin & [He Hs]%andb_true_iff)%existsb_exists|done].
  - rewrite andb_true_iff, negb_true_iff, bool_decide_eq_false, bool_decide_eq_true. done.
  - apply Z.eqb_eq in He as ->. apply bool_decide_eq_true in Hs as ->. apply (Hnew st'). by apply list_elem_of_In.
Qed.

(** What the rows are after a success: the row that ended keeps its payload and attempt. *)
Definition succeeded (l : LeaseToken) (r : Input) (c' : CallState) : Prop :=
  exists r', inputs c' !! tk_index l = Some r' /\ payload r' = payload r /\ attempt_id r' = attempt_id r /\ status r' = InputSucceeded.

(** What [succeed_rows] leaves for the last part. *)
Record reported (l : LeaseToken) (res : CallResult) (c : CallState) (r : Input) (stored : CallResult) (c' : CallState) : Prop := mkReported {
  rp_events : event_seq (call c') = event_seq (call c);
  rp_row : succeeded l r c';
  rp_result : results c' !! tk_index l = Some stored;
  rp_outcome : res_outcome stored = res_outcome res;
  rp_index : res_index stored = tk_index l;
  rp_sequence : res_sequence stored = result_seq (call c) + 1 }.

Lemma commits_rows l res stats now c r x :
  call_ok c -> inputs c !! tk_index l = Some r -> is_open (status r) = true -> default [] (attempt_id r) <> [] ->
  stats_fit stats (tk_index l) r c -> kind (call c) <> Generator -> decode_input (payload r) = Some x ->
  res_index res = tk_index l -> tk_index l < 2 ^ 63 -> result_seq (call c) + 1 < 2 ^ 63 -> now < 2 ^ 63 ->
  commits (succeed_rows l res stats now) c (reported l res c r).
Proof.
  intros Hok Hi Ho Ha Hf Hk Hd Hx Hb Hs Hn. unfold succeed_rows, next_result_sequence. apply commits_bind, commits_require; [by apply Z.eqb_eq|]. commit_steps.
  eapply commits_mono; [eapply commits_stored; [exact Hi|exact Hd]|]. cbv beta. intros stored c1 (-> & H1 & H2 & H3). cbn in H2. apply commits_bind.
  assert (results c !! tk_index l = None) as Hnone.
  { destruct (results c !! tk_index l) as [old|] eqn:E; [|done]. destruct (ok_recorded _ Hok _ _ Hk E) as (row & Hrow & Hno). congruence. }
  eapply commits_mono; [apply commits_insert; [| |done| | | |done]|].
  - apply (at_core _ _ _ _ _ _ (sees_bump _ _ _ _ _ _ (sees_start (R := (=)) c Hok))).
  - by rewrite H1, Hx.
  - cbn. intros j r' Hj. pose proof (co_results _ (ok_core _ Hok) _ _ Hj). lia.
  - by rewrite H1, Hx.
  - cbn. lia.
  - cbv beta. intros _ c2 ->. commit_steps. eapply commits_mono; [eapply commits_stats; [cbn; by rewrite lookup_alter, decide_True, Hi by done|done|done|done]|].
    cbv beta. intros _ c3 (Hc3 & Hi3 & Hr3). commit_steps. rewrite H1, Hx in Hr3. cbn in Hc3, Hi3, Hr3. split; rewrite ?Hc3, ?Hr3; try done.
    + eexists. rewrite Hi3, !lookup_alter, !decide_True, Hi by done. by split_and!.
    + apply lookup_insert_eq.
    + congruence.
Qed.

Lemma commits_end l stored now c r x :
  core_ok c -> inputs c !! tk_index l = Some r -> default [] (attempt_id r) <> [] -> decode_input (payload r) = Some x ->
  tk_index l < 2 ^ 63 -> event_seq (call c) + 3 < 2 ^ 63 -> now < 2 ^ 63 ->
  commits (succeed_end l stored now) c (fun _ c' => inputs c' = inputs c /\ results c' = results c).
Proof.
  intros Hc Hi Ha Hd Hb Hs Hn. unfold succeed_end. apply commits_bind. eapply commits_mono; [apply commits_event; [done|lia|done]|]. cbv beta.
  intros _ c1 [Hl1 He1]. apply commits_bind. pose proof (logged_core _ _ Hl1 Hc) as Hc1.
  eapply commits_mono; [eapply (commits_attempt _ _ _ _ _ _ c1 r x); try done; [by rewrite (lg_inputs _ _ Hl1)|lia]|]. cbv beta.
  intros _ c2 [Hl2 He2]. apply commits_bind. pose proof (logged_core _ _ Hl2 Hc1) as Hc2.
  eapply commits_mono; [apply commits_complete; [done|lia|done]|]. cbv beta. intros _ c3 [Hi3 Hr3]. commit_steps. rewrite Hi3, Hr3.
  by rewrite (lg_inputs _ _ Hl2), (lg_inputs _ _ Hl1), (lg_results _ _ Hl2), (lg_results _ _ Hl1).
Qed.

(** A generator's success: its row ends, its results are its yields. *)
Lemma commits_generator l stats now c r x :
  call_ok c -> inputs c !! tk_index l = Some r -> is_open (status r) = true -> default [] (attempt_id r) <> [] ->
  stats_fit stats (tk_index l) r c -> decode_input (payload r) = Some x ->
  tk_index l < 2 ^ 63 -> event_seq (call c) + 3 < 2 ^ 63 -> now < 2 ^ 63 ->
  commits (succeed_generator l stats now) c (fun _ c' => succeeded l r c').
Proof.
  intros Hok Hi Ho Ha Hf Hd Hb Hs Hn. unfold succeed_generator. apply commits_bind, commits_check; [done|]. apply commits_bind, commits_set_input, commits_bind.
  set (fin := fun r => finish_input _ _ _ _ _ r).
  assert (Hrow : inputs (with_inputs (alter fin (tk_index l)) c) !! tk_index l = Some (fin r)) by (cbn; by rewrite lookup_alter, decide_True, Hi by done).
  assert (Hsees : sees (R := (=)) c (call_st (call c)) (input_closed (call c)) (alter fin (tk_index l) (inputs c)) (results c) (with_inputs (alter fin (tk_index l)) c)).
  { apply sees_input; [by apply sees_start|]. intros r0 Hr0. rewrite Hi in Hr0. injection Hr0 as <-. by apply finish_row. }
  eapply commits_mono; [eapply commits_post; [by eapply commits_stats|apply (post_stats _ _ _ _ _ _ l stats (fun _ c' => core_ok c') Hsees); intros c' Hc'; exact (at_core _ _ _ _ _ _ Hc')]|].
  cbv beta. intros _ c2 [(Hc2 & Hi2 & Hr2) Hcore]. apply commits_bind.
  assert (Hrow2 : inputs c2 !! tk_index l = Some (put_stats stats (fin r))) by (rewrite Hi2, lookup_alter, decide_True, Hrow by done; done).
  eapply commits_mono; [eapply (commits_attempt _ _ _ _ _ _ c2 _ x); try done; rewrite Hc2; cbn; lia|]. cbv beta. intros _ c3 [Hl3 He3].
  apply commits_bind. eapply commits_mono; [apply commits_complete; [by eapply logged_core|rewrite He3, Hc2; cbn; lia|done]|].
  cbv beta. intros _ c4 [Hi4 _]. commit_steps. exists (put_stats stats (fin r)). by rewrite Hi4, (lg_inputs _ _ Hl3).
Qed.

(** The columns hold 63 bits. *)
Definition in_bounds (l : LeaseToken) (now : Z) (c : CallState) : Prop :=
  tk_index l < 2 ^ 63 /\ result_seq (call c) + 1 < 2 ^ 63 /\ event_seq (call c) + 3 < 2 ^ 63 /\ now < 2 ^ 63.

(** A result that may be reported under a lease. *)
Definition reportable (l : LeaseToken) (res : CallResult) (d : Db) : Prop :=
  res_index res = tk_index l /\ forall digest, digest ∈ result_artifacts res -> validate_digest_hex digest = true /\ digest ∈ artifacts d.

(** What is recorded of a success that is not a generator's. *)
Definition result_stored (l : LeaseToken) (res : CallResult) (c c' : CallState) : Prop :=
  exists stored, results c' !! tk_index l = Some stored /\ res_outcome stored = res_outcome res /\ res_sequence stored = result_seq (call c) + 1.

Lemma commits_succeed l res stats now d c r x :
  call_ok c -> calls d !! tk_call l = Some c -> inputs c !! tk_index l = Some r -> carries l now d ->
  call_st (call c) = CallQueued \/ call_st (call c) = CallRunning -> decode_input (payload r) = Some x ->
  stats_fit stats (tk_index l) r c -> (kind (call c) <> Generator -> reportable l res d) -> in_bounds l now c ->
  commits (succeed l res stats now) d (fun _ d' => exists c', calls d' !! tk_call l = Some c' /\ succeeded l r c' /\
    (kind (call c) <> Generator -> result_stored l res c c')).
Proof.
  intros Hok Hc Hi (r0 & Hr0 & Hact & Hown & Hgen & Hexp) Hex Hd Hf Hrep (Hb & Hrs & Hes & Hn).
  apply row_at_some in Hr0 as (c0 & Hc0 & Hi0). rewrite Hc in Hc0. injection Hc0 as <-. rewrite Hi in Hi0. injection Hi0 as <-.
  assert (is_open (status r) = true) as Ho by (by destruct (status r)).
  assert (default [] (attempt_id r) <> []) as Hat by (destruct (active_lease _ (co_input _ (ok_core _ Hok) _ _ Hi) Hact) as (_ & _ & a & -> & Ha); done).
  unfold succeed. apply commits_bind. eapply commits_on_call; [done|]. eapply commits_mono; [by eapply commits_guard|]. cbv beta.
  intros k c0 [-> ->] d1 Hd1 Ha1. rewrite insert_id in Hd1 by done. case_bool_decide as Hk.
  { eapply commits_on_call; [by rewrite Hd1|]. eapply commits_mono; [by eapply commits_generator|]. cbv beta.
    intros _ c' Hs d' -> _. exists c'. split; [apply lookup_insert_eq|done]. }
  destruct (Hrep Hk) as [Hidx Hart]. apply commits_bind. eapply commits_on_call; [by rewrite Hd1|].
  eapply commits_mono; [eapply commits_post; [by eapply (commits_rows l res stats now c r x)|apply (succeed_rows_keeps l res stats now c Hok Hex); eauto]|].
  cbv beta. intros stored c2 [[He (r2 & Hr2 & Hp2 & Hat2 & Hst2) Hres Hout Hix Hseq] [(st & m & rs & Hsees & _) _]] d2 Hd2 Ha2.
  rewrite Hd1 in Hd2. apply commits_bind. eapply commits_mono; [apply commits_refs|].
  { unfold result_artifacts in *. rewrite Hout, Ha2, Ha1. done. }
  cbv beta. intros _ d3 Hd3. eapply commits_on_call; [rewrite Hd3, Hd2; apply lookup_insert_eq|].
  eapply commits_mono; [eapply (commits_end l stored now c2 r2 x); try done; [by eapply at_core|by rewrite Hat2|by rewrite Hp2|lia]|].
  cbv beta. intros _ c3 [Hin3 Hres3] d4 Hd4 _. exists c3. rewrite Hd4, lookup_insert_eq. split; [done|].
  split; [by exists r2; rewrite Hin3|]. intros _. exists stored. by rewrite Hres3.
Qed.

(** C10: The holder of the current lease can commit.  While the row of an input carries the lease, its call is queued
    or running (a call that is being cancelled answers Busy), the payload of the input decodes, statistics, if
    there are any, name the attempt of the row and are the first for it, and the 63-bit columns are not
    exhausted, [succeed] returns: the input has succeeded.  On a call that is not a generator's the result must name the
    input and artifacts that the store knows; then it is stored under the next result sequence, and no earlier
    result can be in the way. *)
Theorem holder_can_commit h d l now res stats c r x :
  reach h d -> carries l now d -> calls d !! tk_call l = Some c -> inputs c !! tk_index l = Some r -> decode_input (payload r) = Some x ->
  call_st (call c) = CallQueued \/ call_st (call c) = CallRunning ->
  stats_fit stats (tk_index l) r c -> (kind (call c) <> Generator -> reportable l res d) -> in_bounds l now c ->
  exists d' c' r', succeed l res stats now d = Ok (tt, d') /\ calls d' !! tk_call l = Some c' /\
    inputs c' !! tk_index l = Some r' /\ status r' = InputSucceeded /\ (kind (call c) <> Generator -> result_stored l res c c').
Proof.
  intros Hh Hl Hc Hi Hd Hex Hf Hrep Hb.
  destruct (commits_succeed l res stats now d c r x (reach_ok _ _ Hh _ _ Hc) Hc Hi Hl Hex Hd Hf Hrep Hb)
    as ([] & d' & Hrun & c' & Hc' & (r' & Hr' & _ & _ & Hs) & Hres).
  by exists d', c', r'.
Qed.
End commit.
