(* ===== verification/StoreExamples.v ===== *)
(** A call through the function store: it is created, leased to a worker that disappears, leased to a second one, and
    finished.  The theorems of the store at these states. *)

From S2P Require Import Prelude Decimal StoreTables StoreSpecs StoreCalls StoreOutcomes StoreInvariant StoreKeeps StoreSafety StoreRuns StoreService StoreCommit.

Module StoreExamples.

(** An encoding with the index first. *)
#[local] Instance plain : Prost := {|
  decode_input b := match b with [] => None | i :: id => Some (mkCallInput i id None) end;
  sha256 _ := [] |}.

Definition fn : RevisionRef := mkRevisionRef (Some ([2], [3])) [1].
Definition envelope : ValueEnvelope := mkValueEnvelope 1 1 (Some (1, repeat 0 32)) (Some (InlineData [])) 1 0.
Definition request : CreateCallRequest :=
  mkCreateCallRequest (Some Unary) (Some (mkCallTarget (Some fn) None)) [mkCallInput 0 [7] (Some (PValue envelope))] true None [].
Definition enc (x : CallInput) : bytes := in_index x :: input_id x.
Definition spec (t : option TimeoutSpec) : FunctionSpec :=
  mkFunctionSpec None None None None None t None None None (Some (mkSerializerSpec 1 1 0 false)) (Some Stateless) None [] [] [].
Definition revision (t : option TimeoutSpec) : FunctionRevision := mkFunctionRevision (Some fn) (Some (spec t)) 0 [] RevisionReady [] None.
Definition empty : Db :=
  mkDb ∅ {[ [1] := revision None ]} ∅ ∅ ∅ ∅ ∅.

Definition after (op : store_op) (now : Z) (d : Db) : Db := match run op now d with Ok (_, d') => d' | Err _ => d end.

Lemma reach_after h d op now ts :
  reach h d -> op_fresh op -> match run op now d with Ok (x, _) => x = ts | Err _ => False end -> reach (h ++ ts) (after op now d).
Proof.
  intros Hh Hf Hr. unfold after. destruct (run op now d) as [[x d']|e] eqn:E; [|done]. subst x. by eapply reach_run.
Qed.

Lemma run_after d op now ts : match run op now d with Ok (x, _) => x = ts | Err _ => False end -> run op now d = Ok (ts, after op now d).
Proof. unfold after. destruct (run op now d) as [[x d']|e]; [|done]. by intros ->. Qed.

Definition d1 : Db := Eval vm_compute in after (OpCreate enc [] [9] request) 10 empty.
Definition d2 : Db := Eval vm_compute in after (OpLease None [21] [31] 100 false) 20 d1.
Definition d3 : Db := Eval vm_compute in after OpExpireLeases 200 d2.
Definition d4 : Db := Eval vm_compute in after (OpLease None [22] [32] 100 false) 210 d3.

Definition t1 : LeaseToken := mkLeaseToken [9] 0 [21] 1.
Definition t2 : LeaseToken := mkLeaseToken [9] 0 [22] 2.
Definition result1 : CallResult := mkCallResult 0 0 0 [] 0 (Some (OutValue envelope)) None.
Definition stats2 : AttemptStats := mkAttemptStats [32] 1 2 3 4 5.
Definition d5 : Db := Eval vm_compute in after (OpSucceed t2 result1 None) 220 d4.

Lemma reach1 : reach [] d1.
Proof.
  apply (reach_after [] empty (OpCreate enc [] [9] request) 10 []); [by apply reach_start|done|]. vm_compute. reflexivity.
Qed.
Lemma reach2 : reach [t1] d2.
Proof. apply (reach_after [] d1 (OpLease None [21] [31] 100 false) 20 [t1]); [exact reach1|done|]. vm_compute. reflexivity. Qed.
Lemma reach3 : reach [t1] d3.
Proof. apply (reach_after [t1] d2 OpExpireLeases 200 []); [exact reach2|done|]. vm_compute. reflexivity. Qed.
Lemma reach4 : reach [t1; t2] d4.
Proof. apply (reach_after [t1] d3 (OpLease None [22] [32] 100 false) 210 [t2]); [exact reach3|done|]. vm_compute. reflexivity. Qed.
Lemma reach5 : reach [t1; t2] d5.
Proof. apply (reach_after [t1; t2] d4 (OpSucceed t2 result1 None) 220 []); [exact reach4|done|]. vm_compute. reflexivity. Qed.

(** The second worker may report; the first may not. *)
Lemma only_latest_lease_acts_witness : last (tokens [t1; t2] [9] 0) = Some t2 /\ run (OpHeartbeat t1 100) 215 d4 = Err Busy.
Proof.
  split; [|by vm_compute].
  apply (only_latest_lease_acts [t1; t2] d4 (OpHeartbeat t2 100) 215 t2 [] (after (OpHeartbeat t2 100) 215 d4)).
  - exact reach4.
  - reflexivity.
  - apply run_after. vm_compute. reflexivity.
Defined.

Lemma follows5 : follows d4 d5.
Proof.
  apply (follows_run d4 d4 (OpSucceed t2 result1 None) 220 [] d5); [constructor|done|].
  apply (run_after d4 (OpSucceed t2 result1 None) 220 []). vm_compute. reflexivity.
Qed.

Definition call_at (d : Db) : CallState := default (mkCallState (new_call request Unary None [] (spec None) 0) ∅ ∅ ∅ []) (calls d !! [9]).
Definition input_at (d : Db) : Input := default (new_input [] 0) (inputs (call_at d) !! 0).

(** After a restart the result is still there, and nobody can replace it. *)
Lemma finished_input_is_final_witness : exists c' r', calls (after OpRecover 300 d5) !! [9] = Some c' /\ inputs c' !! 0 = Some r' /\
  status r' = InputSucceeded /\ exists e, run (OpSucceed t2 result1 None) 310 (after OpRecover 300 d5) = Err e.
Proof.
  destruct (finished_input_is_final [t1; t2] d5 (after OpRecover 300 d5) [9] 0 (call_at d5) (input_at d5)) as (c' & r' & Hc & Hr & Hs & _ & _ & _ & _ & _ & Hno).
  - exact reach5.
  - apply (follows_run d5 d5 OpRecover 300 [] _); [constructor|exact I|]. apply run_after. vm_compute. reflexivity.
  - vm_compute. reflexivity.
  - vm_compute. reflexivity.
  - vm_compute. reflexivity.
  - exists c', r'. split; [exact Hc|]. split; [exact Hr|]. split; [rewrite Hs; vm_compute; reflexivity|].
    apply (Hno (OpSucceed t2 result1 None) t2 310); reflexivity.
Defined.

Lemma call_status_consistent_witness : exists i r, inputs (call_at d4) !! i = Some r /\ (status r = InputQueued \/
  is_active (status r) = true /\ exists w t, lease_owner r = Some w /\ lease_expiry_ms r = Some t).
Proof.
  assert (calls d4 !! [9] = Some (call_at d4)) as Hc by (vm_compute; reflexivity).
  pose proof (call_status_consistent [t1; t2] d4 [9] (call_at d4) reach4 Hc) as H.
  assert (call_st (call (call_at d4)) = CallQueued) as E by (vm_compute; reflexivity). rewrite E in H.
  apply H; [vm_compute; reflexivity|]. intros He. assert (inputs (call_at d4) !! 0 = None) as Hn by (rewrite He; reflexivity).
  vm_compute in Hn. discriminate Hn.
Defined.

Lemma lease_takes_the_oldest_witness : exists x,
  lease_next_matching None [21] [31] 20 100 false d1 = Ok (x, d2) /\ exists d, expire_deadlines_tx 20 d1 = Ok (tt, d) /\
  match x with None => False | Some item => eligible None false 20 d (10, 10, [9], 0) /\ l_token item = t1 end.
Proof.
  destruct (lease_next_matching None [21] [31] 20 100 false d1) as [[x d']|e] eqn:E.
  - destruct (lease_takes_the_oldest None [21] [31] 20 100 false d1 x d' E) as (d & Hd & Hx).
    assert (d' = d2) as -> by (vm_compute in E; injection E as <- <-; reflexivity).
    exists x. split; [reflexivity|]. exists d. split; [exact Hd|]. assert (d = d1) as -> by (vm_compute in Hd; injection Hd as <-; reflexivity).
    destruct x as [item|].
    + assert (l_token item = t1) as Ht by (vm_compute in E; injection E as <-; reflexivity). rewrite Ht in Hx. cbn in Hx.
      destruct Hx as (c & r & Hc & Hr & Hel & _). split; [|exact Ht]. vm_compute in Hc. injection Hc as <-. vm_compute in Hr. injection Hr as <-. exact Hel.
    + vm_compute in E. discriminate E.
  - vm_compute in E. discriminate E.
Defined.

Lemma restart_gives_back_work_witness : exists c' r', calls (after OpRecover 215 d4) !! [9] = Some c' /\ inputs c' !! 0 = Some r' /\
  is_active (status (input_at d4)) = true /\ recovered 215 false (input_at d4) r'.
Proof.
  destruct (recover_startup 215 d4) as [[n d']|e] eqn:E; [|vm_compute in E; discriminate E].
  assert (d' = after OpRecover 215 d4) as Hd by (unfold after; cbn [run]; unfold quiet, mbind, tx_bind; rewrite E; reflexivity).
  destruct (restart_gives_back_work [t1; t2] 215 d4 n d' reach4 E) as [Hc _].
  destruct (Hc [9] (call_at d4)) as (c' & Hc' & Hrow & _); [vm_compute; reflexivity|]. subst d'.
  destruct (Hrow 0 (input_at d4)) as (r2 & Hr2 & _ & Hrec); [vm_compute; reflexivity|].
  exists c', r2. split; [exact Hc'|]. split; [exact Hr2|]. split; [vm_compute; reflexivity|]. exact Hrec.
Defined.

Lemma holder_can_commit_witness : exists d' c' r', succeed t2 result1 (Some stats2) 220 d4 = Ok (tt, d') /\ calls d' !! [9] = Some c' /\
  inputs c' !! 0 = Some r' /\ status r' = InputSucceeded /\ (kind (call (call_at d4)) <> Generator -> result_stored t2 result1 (call_at d4) c').
Proof.
  apply (holder_can_commit [t1; t2] d4 t2 220 result1 (Some stats2) (call_at d4) (input_at d4) (mkCallInput 0 [7] None)).
  - exact reach4.
  - exists (input_at d4). vm_compute. auto.
  - vm_compute. reflexivity.
  - vm_compute. reflexivity.
  - vm_compute. reflexivity.
  - left. vm_compute. reflexivity.
  - split; [vm_compute; reflexivity|]. intros st'. vm_compute. intros Hd. inversion Hd.
  - intros _. split; [reflexivity|]. intros digest Hd. vm_compute in Hd. inversion Hd.
  - vm_compute. split_and!; reflexivity.
Defined.

(** A call with a queue deadline of 100, leased and running at 50: at 100 it fails. *)
Definition timed : Db :=
  mkDb ∅ {[ [1] := revision (Some (mkTimeoutSpec 1000 90 0)) ]} ∅ ∅ ∅ ∅ ∅.
Definition running : Db :=
  after (OpMarkRunning t1 StartupCold) 50 (after (OpLease None [21] [31] 100 false) 20 (after (OpCreate enc [] [9] request) 10 timed)).

Lemma running_call_fails_at_queue_deadline :
  call_st (call (call_at running)) = CallRunning /\
  match expire_deadlines_tx 100 running with Ok (_, d) => call_st (call (call_at d)) = CallFailed | Err _ => False end.
Proof. split; vm_compute; reflexivity. Qed.

End StoreExamples.
