(* ===== verification/StoreActors.v ===== *)
(** The actors of [vmond/src/function/store.rs]: identities with a status, an operation sequence and a
    recovery point, and the immutable checkpoints they are restored from.  A row keeps its status and checkpoint
    twice, as columns and in its record; the operations are shown to keep the two in step, every recovery point
    resolvable, and what is deleted deleted. *)

From S2P Require Import Prelude Decimal StoreTables StoreSpecs StoreCalls StoreOutcomes StoreInvariant StoreKeeps StoreSafety.

(** ** Operations *)

Record CreateActorRequest : Type := mkCreateActorRequest {
  ca_function : option RevisionRef; ca_payload : option InputPayload; ca_labels : list (bytes * bytes); ca_request_id : bytes }.

Record ForkActorRequest : Type := mkForkActorRequest {
  fk_checkpoint : option bytes; fk_labels : list (bytes * bytes); fk_request_id : bytes }.

(** [UPDATE actors SET ... WHERE id=?]. *)
Definition set_actor (id : bytes) (f : ActorRow -> ActorRow) : tx Db () := set_actors (alter f id).

(** [INSERT INTO actors]. *)
Definition insert_actor (id : bytes) (row : ActorRow) : tx Db () :=
  taken ← read (fun d => bool_decide (is_Some (actors d !! id)));
  require (negb taken) Sql ;;
  set_actors (insert id row).

Definition actor_initial_artifacts (r : CreateActorRequest) : list bytes :=
  call_input_artifacts (mkCallInput 0 [] (ca_payload r)).

Definition create_actor (fingerprint id : bytes) (r : CreateActorRequest) (now : Z) : tx Db ActorRecord :=
  f ← lift (ok_or (ca_function r) Invalid);
  found ← idempotent_resource (bs "actor") (ca_request_id r) fingerprint;
  match found with
  | Some resource => row ← actor_by_id resource; mret (a_record row)
  | None =>
      revision_by_id (rf_id f) ;;
      let value := mkActorRecord (Some f) ActorCreating now now None (ca_labels r) in
      check_i64 now ;;
      insert_actor id (mkActorRow ActorCreating value None None 0) ;;
      for_each (fun digest => add_artifact_ref digest (bs "actor") id) (actor_initial_artifacts r) ;;
      put_idempotency (bs "actor") (ca_request_id r) fingerprint id now ;;
      mret value
  end.

Definition get_actor (id : bytes) : tx Db ActorRecord := row ← actor_by_id id; mret (a_record row).

Definition checkpoint_by_id (id : bytes) : tx Db Checkpoint :=
  k ← read (fun d => checkpoints d !! id); lift (ok_or k NotFound).
Definition get_checkpoint (id : bytes) : tx Db Checkpoint := checkpoint_by_id id.

Definition idempotent_resource_unchecked (scope request : bytes) : tx Db (option bytes) :=
  if bool_decide (request = []) then mret None
  else row ← read (fun d => idempotency d !! (scope, request)); mret (snd <$> row).

Definition checkpoint_for_request (request : bytes) : tx Db (option Checkpoint) :=
  found ← idempotent_resource_unchecked (bs "checkpoint") request;
  match found with
  | None => mret None
  | Some id => k ← checkpoint_by_id id; mret (Some k)
  end.

Definition valid_transition (current status : ActorStatus) : bool :=
  bool_decide (current = status)
  || match current, status with
     | ActorCreating, (ActorReady | ActorFailed | ActorDeleted) => true
     | ActorReady, (ActorBusy | ActorStopped | ActorFailed | ActorDeleted) => true
     | ActorBusy, (ActorReady | ActorStopped | ActorFailed | ActorDeleted) => true
     | ActorStopped, (ActorCreating | ActorReady | ActorFailed | ActorDeleted) => true
     | ActorFailed, (ActorStopped | ActorDeleted) => true
     | _, _ => false
     end.

Definition set_actor_status_tx (id : bytes) (expected : option ActorStatus) (status : ActorStatus) (worker : option bytes) (now : Z)
  : tx Db ActorRecord :=
  require (negb (bool_decide (status = ActorUnspecified))) Invalid ;;
  row ← actor_by_id id;
  let current := ar_status (a_record row) in
  require (match expected with Some e => bool_decide (e = current) | None => true end) Busy ;;
  require (valid_transition current status) Invalid ;;
  let value := with_status status now (a_record row) in
  check_i64 now ;;
  set_actor id (fun a => mkActorRow status value worker (a_checkpoint a) (operation_sequence a)) ;;
  mret value.

Definition set_actor_status (id : bytes) (status : ActorStatus) (worker : option bytes) (now : Z) : tx Db ActorRecord :=
  set_actor_status_tx id None status worker now.
Definition set_actor_status_if (id : bytes) (expected status : ActorStatus) (worker : option bytes) (now : Z) : tx Db ActorRecord :=
  set_actor_status_tx id (Some expected) status worker now.
Definition delete_actor (id : bytes) (now : Z) : tx Db ActorRecord := set_actor_status id ActorDeleted None now.

(** The record of an actor with another recovery point. *)
Definition with_checkpoint (ck : bytes) (now : Z) (a : ActorRecord) : ActorRecord :=
  mkActorRecord (ar_function a) (ar_status a) (ar_created a) now (Some ck) (ar_labels a).

Definition put_checkpoint (fingerprint id : bytes) (ck : Checkpoint) (request : bytes) (now : Z) : tx Db Checkpoint :=
  actor ← lift (ok_or (ck_actor ck) Invalid);
  state ← lift (ok_or (ck_state ck) Invalid);
  found ← idempotent_resource (bs "checkpoint") request fingerprint;
  match found with
  | Some resource => checkpoint_by_id resource
  | None =>
      row ← actor_by_id actor;
      f ← lift (ok_or (ck_function ck) Invalid);
      require (bool_decide (ar_function (a_record row) = Some f)) Invalid ;;
      require (operation_sequence row <=? ck_sequence ck) Invalid ;;
      match ar_checkpoint (a_record row) with
      | Some previous => k ← checkpoint_by_id previous; require (ck_sequence k <? ck_sequence ck) Invalid
      | None => mret tt
      end ;;
      let value := mkCheckpoint (ck_actor ck) (ck_function ck) (ck_sequence ck) (ck_state ck) now in
      check_i64 (ck_sequence ck) ;; check_i64 now ;;
      taken ← read (fun d => bool_decide (is_Some (checkpoints d !! id)));
      require (negb taken) Sql ;;
      set_checkpoints (insert id value) ;;
      set_actor actor (fun a => mkActorRow (a_status a) (with_checkpoint id now (a_record row)) (a_worker a) (Some id) (operation_sequence a)) ;;
      for_each (fun digest => add_artifact_ref digest (bs "checkpoint") id) (envelope_artifacts state) ;;
      put_idempotency (bs "checkpoint") request fingerprint id now ;;
      mret value
  end.

Definition restore_actor (fingerprint actor ck request : bytes) (now : Z) : tx Db ActorRecord :=
  found ← idempotent_resource (bs "restore_actor") request fingerprint;
  match found with
  | Some _ => get_actor actor
  | None =>
      k ← checkpoint_by_id ck;
      row ← actor_by_id actor;
      require (negb (bool_decide (ar_status (a_record row) = ActorDeleted))) Invalid ;;
      require (bool_decide (ar_function (a_record row) = ck_function k)) Invalid ;;
      let value := with_status ActorStopped now (with_checkpoint ck now (a_record row)) in
      check_i64 (ck_sequence k) ;; check_i64 now ;;
      set_actor actor (fun _ => mkActorRow ActorStopped value None (Some ck) (ck_sequence k)) ;;
      put_idempotency (bs "restore_actor") request fingerprint actor now ;;
      mret value
  end.

(** Past the largest 64-bit integer SQLite makes the sequence a float, which is not read as an integer. *)
Definition allocate_actor_operation (actor : bytes) (now : Z) : tx Db Z :=
  row ← actor_by_id actor;
  require (bool_decide (ar_status (a_record row) = ActorReady)) Busy ;;
  require (bool_decide (a_status row = ActorReady)) Sql ;;
  let seq := operation_sequence row + 1 in
  require (seq <? 2 ^ 63) Sql ;; check_i64 now ;;
  set_actor actor (fun a => mkActorRow ActorBusy (with_status ActorBusy now (a_record row)) (a_worker a) (a_checkpoint a) seq) ;;
  mret seq.

Definition complete_actor_operation (actor : bytes) (seq now : Z) : tx Db ActorRecord :=
  current ← read (fun d => actors d !! actor);
  match current with
  | Some row =>
      require (bool_decide (a_status row = ActorBusy)) Busy ;;
      require (operation_sequence row =? seq) Busy ;;
      let value := with_status ActorReady now (a_record row) in
      check_i64 now ;; check_i64 seq ;;
      set_actor actor (fun a => mkActorRow ActorReady value (a_worker a) (a_checkpoint a) (operation_sequence a)) ;;
      mret value
  | None => fail Busy
  end.

Definition mark_actor_worker_lost (actor : bytes) (now : Z) : tx Db ActorRecord :=
  row ← actor_by_id actor;
  require (negb (bool_decide (ar_status (a_record row) = ActorDeleted))) Invalid ;;
  let s := if bool_decide (is_Some (ar_checkpoint (a_record row))) then ActorStopped else ActorFailed in
  let value := with_status s now (a_record row) in
  check_i64 now ;;
  set_actor actor (fun a => mkActorRow s value None (a_checkpoint a) (operation_sequence a)) ;;
  mret value.

Definition fork_actor_from_checkpoint (fingerprint id : bytes) (r : ForkActorRequest) (now : Z) : tx Db ActorRecord :=
  ck ← lift (ok_or (fk_checkpoint r) Invalid);
  found ← idempotent_resource (bs "fork_actor") (fk_request_id r) fingerprint;
  match found with
  | Some resource => get_actor resource
  | None =>
      k ← checkpoint_by_id ck;
      f ← lift (ok_or (ck_function k) Engine);
      let value := mkActorRecord (Some f) ActorStopped now now (Some ck) (fk_labels r) in
      check_i64 (ck_sequence k) ;; check_i64 now ;;
      insert_actor id (mkActorRow ActorStopped value None (Some ck) (ck_sequence k)) ;;
      put_idempotency (bs "fork_actor") (fk_request_id r) fingerprint id now ;;
      mret value
  end.

(** ** The invariant *)

(** The columns of a row are those of its record, and its recovery point is a checkpoint of the same
    function revision. *)
Record actor_ok (cks : gmap bytes Checkpoint) (row : ActorRow) : Prop := mkActorOk {
  ao_status : a_status row = ar_status (a_record row);
  ao_checkpoint : a_checkpoint row = ar_checkpoint (a_record row);
  ao_function : is_Some (ar_function (a_record row));
  ao_point ck : a_checkpoint row = Some ck -> exists k, cks !! ck = Some k /\ ck_function k = ar_function (a_record row) }.

Definition actors_ok (d : Db) : Prop := forall id row, actors d !! id = Some row -> actor_ok (checkpoints d) row.

(** What an operation may change of an actor. *)
Record row_moves (row row' : ActorRow) : Prop := mkRowMoves {
  rm_function : ar_function (a_record row') = ar_function (a_record row);
  rm_created : ar_created (a_record row') = ar_created (a_record row);
  rm_labels : ar_labels (a_record row') = ar_labels (a_record row);
  rm_deleted : a_status row = ActorDeleted -> a_status row' = ActorDeleted }.

Record moves (d d' : Db) : Prop := mkMoves {
  mv_checkpoints : checkpoints d ⊆ checkpoints d';
  mv_actors id row : actors d !! id = Some row -> exists row', actors d' !! id = Some row' /\ row_moves row row' }.

#[global] Instance moves_refl : Reflexive moves.
Proof. intros d. split; [done|]. intros id row Hr. exists row. by split. Qed.

#[global] Instance moves_trans : Transitive moves.
Proof.
  intros d1 d2 d3 [C1 A1] [C2 A2]. split; [by etrans|]. intros id row Hr. destruct (A1 id row Hr) as (r2 & Hr2 & [F1 K1 L1 D1]).
  destruct (A2 id r2 Hr2) as (r3 & Hr3 & [F2 K2 L2 D2]). exists r3. split; [done|]. split; [congruence..|auto].
Qed.

Definition keeps_actors {A} (m : tx Db A) : Prop := forall d, actors_ok d -> post m d (fun _ d' => actors_ok d' /\ moves d d').

Lemma actor_ok_mono cks cks' row : cks ⊆ cks' -> actor_ok cks row -> actor_ok cks' row.
Proof.
  intros Hs [H1 H2 H3 H4]. split; try done. intros ck Hck. destruct (H4 ck Hck) as (k & Hk & Hf). exists k.
  split; [by eapply lookup_weaken|done].
Qed.

Lemma same_actors d d' : actors d' = actors d -> checkpoints d' = checkpoints d -> actors_ok d -> actors_ok d' /\ moves d d'.
Proof.
  intros Ha Hc Hok. split; [intros id row; rewrite Ha, Hc; apply Hok|]. split; [by rewrite Hc|]. intros id row Hr. exists row. rewrite Ha. by split.
Qed.

(** One row changes; checkpoints may be added. *)
Lemma put_actor d d' id row row' :
  actors_ok d -> actors d !! id = Some row -> actors d' = <[id := row']> (actors d) -> checkpoints d ⊆ checkpoints d' ->
  actor_ok (checkpoints d') row' -> row_moves row row' -> actors_ok d' /\ moves d d'.
Proof.
  intros Hok Hr Hd Hc Hok' Hm. split.
  - intros id2 row2. rewrite Hd, lookup_insert_Some. intros [[<- <-]|[_ H2]]; [done|]. eapply actor_ok_mono; [done|]. by eapply Hok.
  - split; [done|]. intros id2 row2 H2. rewrite Hd. destruct (decide (id = id2)) as [<-|Hne].
    + exists row'. rewrite lookup_insert_eq. by simplify_eq.
    + exists row2. by rewrite lookup_insert_ne by done; split; [|split].
Qed.

Lemma new_actor d d' id row : actors_ok d -> actors d !! id = None -> actors d' = <[id := row]> (actors d) -> checkpoints d' = checkpoints d ->
  actor_ok (checkpoints d) row -> actors_ok d' /\ moves d d'.
Proof.
  intros Hok Hn Hd Hc Hrow. split.
  - intros id2 row2. rewrite Hd, Hc, lookup_insert_Some. intros [[<- <-]|[_ H2]]; [done|by eapply Hok].
  - split; [by rewrite Hc|]. intros id2 row2 H2. exists row2. rewrite Hd, lookup_insert_ne by congruence. by split.
Qed.

(** Statements on the tables that actors do not use. *)
Definition tables (d d' : Db) : Prop := actors d' = actors d /\ checkpoints d' = checkpoints d.

Lemma post_refs_tables k o l d (Q : () -> Db -> Prop) : (forall d', tables d d' -> Q tt d') ->
  post (for_each (fun digest => add_artifact_ref digest k o) l) d Q.
Proof.
  intros HQ. eapply post_mono; [apply (post_for_each _ (fun _ d' => tables d d')); [done|]|by intros [] d' Hd; apply HQ].
  intros _ x _ d1 _ [Ha Hc]. unfold add_artifact_ref, set_refs. tx_steps. done.
Qed.

Lemma post_put_idempotency s r f x now d (Q : () -> Db -> Prop) : (forall d', tables d d' -> Q tt d') -> post (put_idempotency s r f x now) d Q.
Proof. intros HQ. unfold put_idempotency, set_idempotency. case_bool_decide; tx_steps; by apply HQ. Qed.

Lemma post_actor id d (Q : ActorRow -> Db -> Prop) : (forall row, actors d !! id = Some row -> Q row d) -> post (actor_by_id id) d Q.
Proof.
  intros HQ. unfold actor_by_id. tx_steps. apply HQ. by destruct (actors d !! id); simplify_eq/=.
Qed.

Lemma post_checkpoint id d (Q : Checkpoint -> Db -> Prop) : (forall k, checkpoints d !! id = Some k -> Q k d) -> post (checkpoint_by_id id) d Q.
Proof.
  intros HQ. unfold checkpoint_by_id. tx_steps. apply HQ. by destruct (checkpoints d !! id); simplify_eq/=.
Qed.

Lemma post_revision id d (Q : FunctionRevision -> Db -> Prop) : (forall k, revisions d !! id = Some k -> Q k d) -> post (revision_by_id id) d Q.
Proof.
  intros HQ. unfold revision_by_id. tx_steps. apply HQ. by destruct (revisions d !! id); simplify_eq/=.
Qed.

Lemma post_get_actor id d (Q : ActorRecord -> Db -> Prop) : (forall row, actors d !! id = Some row -> Q (a_record row) d) -> post (get_actor id) d Q.
Proof. intros HQ. unfold get_actor. tx_steps. apply post_actor. intros row Hr. tx_steps. by apply HQ. Qed.

Lemma alter_some {A} (f : A -> A) (m : gmap bytes A) id x : m !! id = Some x -> alter f id m = <[id := f x]> m.
Proof.
  intros Hx. apply map_eq. intros j. destruct (decide (id = j)) as [<-|]; [by rewrite lookup_alter, decide_True, lookup_insert_eq, Hx|].
  by rewrite lookup_alter_ne, lookup_insert_ne.
Qed.

Lemma after_tables d d1 d2 : actors_ok d1 /\ moves d d1 -> tables d1 d2 -> actors_ok d2 /\ moves d d2.
Proof.
  intros [Hok Hm] [Ha Hc]. destruct (same_actors d1 d2 Ha Hc Hok) as [? ?]. split; [done|by etrans].
Qed.

Ltac actor_steps := repeat (first [tx_step|apply post_actor; intros ? ?|apply post_checkpoint; intros ? ?|apply post_revision; intros ? ?]; cbv beta).

Lemma create_actor_keeps fp id r now : keeps_actors (create_actor fp id r now).
Proof.
  intros d Hok. unfold create_actor. actor_steps. apply idempotent_calls. intros [res|]; [actor_steps; by apply same_actors|].
  unfold insert_actor, set_actors. actor_steps. apply negb_true_iff in Hr. rewrite bool_decide_eq_false, <- eq_None_not_Some in Hr.
  apply post_refs_tables. intros d1 Ht1. actor_steps. apply post_put_idempotency. intros d2 Ht2. actor_steps.
  eapply after_tables; [|exact Ht2]. eapply after_tables; [|exact Ht1]. eapply new_actor; [done..|]. by split; [| |eexists|].
Qed.

Lemma set_status_keeps id expected status worker now : keeps_actors (set_actor_status_tx id expected status worker now).
Proof.
  intros d Hok. unfold set_actor_status_tx, set_actor, set_actors. actor_steps. pose proof (Hok _ _ H) as [O1 O2 O3 O4].
  eapply put_actor; [done|exact H|cbn; by rewrite (alter_some _ _ _ _ H)|done|by split|]. split; try done. cbn. intros Hdel.
  rewrite O1 in Hdel. rewrite Hdel in Hr1. by destruct status.
Qed.

Lemma allocate_keeps_actors actor now : keeps_actors (allocate_actor_operation actor now).
Proof.
  intros d Hok. unfold allocate_actor_operation, set_actor, set_actors. actor_steps. pose proof (Hok _ _ H) as [O1 O2 O3 O4].
  apply bool_decide_eq_true in Hr0. eapply put_actor; [done|exact H|cbn; by rewrite (alter_some _ _ _ _ H)|done|by split|].
  split; try done. cbn. congruence.
Qed.

Lemma complete_keeps_actors actor seq now : keeps_actors (complete_actor_operation actor seq now).
Proof.
  intros d Hok. unfold complete_actor_operation, set_actor, set_actors. actor_steps. destruct (actors d !! actor) as [row|] eqn:H; actor_steps.
  pose proof (Hok _ _ H) as [O1 O2 O3 O4]. apply bool_decide_eq_true in Hr.
  eapply put_actor; [done|exact H|cbn; by rewrite (alter_some _ _ _ _ H)|done|by split|]. split; try done. cbn. congruence.
Qed.

Lemma lost_keeps_actors actor now : keeps_actors (mark_actor_worker_lost actor now).
Proof.
  intros d Hok. unfold mark_actor_worker_lost, set_actor, set_actors. actor_steps. pose proof (Hok _ _ H) as [O1 O2 O3 O4].
  apply negb_true_iff, bool_decide_eq_false in Hr.
  eapply put_actor; [done|exact H|cbn; by rewrite (alter_some _ _ _ _ H)|done|by split|]. split; try done. cbn. congruence.
Qed.

Lemma restore_keeps_actors fp actor ck request now : keeps_actors (restore_actor fp actor ck request now).
Proof.
  intros d Hok. unfold restore_actor, set_actor, set_actors. actor_steps. apply idempotent_calls. intros [res|].
  { apply post_get_actor. intros row Hrow. by apply same_actors. }
  actor_steps. rename H into Hk. rename H0 into H. pose proof (Hok _ _ H) as [O1 O2 O3 O4].
  apply negb_true_iff, bool_decide_eq_false in Hr. apply bool_decide_eq_true in Hr0. apply post_put_idempotency. intros d1 Ht1. actor_steps.
  eapply after_tables; [|exact Ht1]. eapply put_actor; [done|exact H|cbn; by rewrite (alter_some _ _ _ _ H)|done| |].
  - split; try done. cbn. intros ck' [= <-]. eauto.
  - split; try done. cbn. congruence.
Qed.

Lemma fork_keeps_actors fp id r now : keeps_actors (fork_actor_from_checkpoint fp id r now).
Proof.
  intros d Hok. unfold fork_actor_from_checkpoint, insert_actor, set_actors. actor_steps. apply idempotent_calls. intros [res|].
  { apply post_get_actor. intros row Hrow. by apply same_actors. }
  actor_steps. apply negb_true_iff in Hr. rewrite bool_decide_eq_false, <- eq_None_not_Some in Hr.
  apply post_put_idempotency. intros d1 Ht1. actor_steps. eapply after_tables; [|exact Ht1].
  eapply new_actor; [done..|]. split; try done. cbn. intros ck' [= <-]. eexists. split; [done|].
  by destruct (ck_function _); simplify_eq/=.
Qed.

Lemma put_checkpoint_keeps fp id ck request now : keeps_actors (put_checkpoint fp id ck request now).
Proof.
  intros d Hok. unfold put_checkpoint, set_actor, set_actors, set_checkpoints. actor_steps. apply idempotent_calls. intros [res|].
  { apply post_checkpoint. intros k Hk. by apply same_actors. }
  actor_steps. pose proof (Hok _ _ H) as [O1 O2 O3 O4]. apply bool_decide_eq_true in Hr.
  match goal with |- post (match ?o with _ => _ end) _ ?Q => assert (Q tt d) as HQ; [|destruct o; [apply post_bind, post_checkpoint; intros ? ?; apply post_require; intros _; exact HQ|exact HQ]] end.
  actor_steps. apply negb_true_iff in Hr1. rewrite bool_decide_eq_false, <- eq_None_not_Some in Hr1.
  apply post_refs_tables. intros d1 Ht1. actor_steps. apply post_put_idempotency. intros d2 Ht2. actor_steps.
  eapply after_tables; [|exact Ht2]. eapply after_tables; [|exact Ht1].
  eapply put_actor; [done|exact H|cbn; by rewrite (alter_some _ _ _ _ H)|cbn; by apply insert_subseteq| |].
  - split; try done. cbn. intros ck' [= <-]. eexists. rewrite lookup_insert_eq. split; [done|]. cbn. by destruct (ck_function ck); simplify_eq/=.
  - by split.
Qed.

(** ** Runs *)

Inductive actor_op : Type :=
  | ActCreate (fingerprint id : bytes) (r : CreateActorRequest)
  | ActStatus (id : bytes) (expected : option ActorStatus) (status : ActorStatus) (worker : option bytes)
  | ActCheckpoint (fingerprint id : bytes) (ck : Checkpoint) (request : bytes)
  | ActRestore (fingerprint actor ck request : bytes)
  | ActAllocate (actor : bytes)
  | ActComplete (actor : bytes) (seq : Z)
  | ActLost (actor : bytes)
  | ActFork (fingerprint id : bytes) (r : ForkActorRequest).

(** An operation; the result is the actor operation that it allocates. *)
Definition run_actor (op : actor_op) (now : Z) : tx Db (option (bytes * Z)) :=
  match op with
  | ActCreate fp id r => create_actor fp id r now ;; mret None
  | ActStatus id e s w => set_actor_status_tx id e s w now ;; mret None
  | ActCheckpoint fp id ck q => put_checkpoint fp id ck q now ;; mret None
  | ActRestore fp a ck q => restore_actor fp a ck q now ;; mret None
  | ActAllocate a => seq ← allocate_actor_operation a now; mret (Some (a, seq))
  | ActComplete a seq => complete_actor_operation a seq now ;; mret None
  | ActLost a => mark_actor_worker_lost a now ;; mret None
  | ActFork fp id r => fork_actor_from_checkpoint fp id r now ;; mret None
  end.

Lemma then_keeps {A B} (m : tx Db A) (k : A -> B) : keeps_actors m -> keeps_actors (x ← m; mret (k x)).
Proof. intros Hm d Hok. apply post_bind. eapply post_mono; [by apply Hm|]. cbv beta. intros x d' Hd. by apply post_ret. Qed.

Lemma run_actor_keeps op now : keeps_actors (run_actor op now).
Proof.
  destruct op; cbn [run_actor].
  - apply (then_keeps _ (fun _ => None)), create_actor_keeps.
  - apply (then_keeps _ (fun _ => None)), set_status_keeps.
  - apply (then_keeps _ (fun _ => None)), put_checkpoint_keeps.
  - apply (then_keeps _ (fun _ => None)), restore_keeps_actors.
  - apply (then_keeps _ (fun seq => Some (actor, seq))), allocate_keeps_actors.
  - apply (then_keeps _ (fun _ => None)), complete_keeps_actors.
  - apply (then_keeps _ (fun _ => None)), lost_keeps_actors.
  - apply (then_keeps _ (fun _ => None)), fork_keeps_actors.
Qed.

(** ** Busy actors *)

(** Where the operation of a busy actor comes from. *)
Definition busy_from (x : option (bytes * Z)) (d d' : Db) : Prop := forall id row', actors d' !! id = Some row' -> a_status row' = ActorBusy ->
  x = Some (id, operation_sequence row') \/
  ((forall s, x <> Some (id, s)) /\ exists row, actors d !! id = Some row /\ a_status row = ActorBusy /\ operation_sequence row = operation_sequence row').

Lemma busy_tables x d d1 d2 : busy_from x d d1 -> tables d1 d2 -> busy_from x d d2.
Proof. intros Hb [Ha _] id row'. rewrite Ha. apply Hb. Qed.

Lemma busy_same d d' : tables d d' -> busy_from None d d'.
Proof. intros [Ha _] id row' Hr Hs. rewrite Ha in Hr. right. split; [done|]. eauto. Qed.

Lemma busy_put d d' id row' :
  actors d' = <[id := row']> (actors d) ->
  (a_status row' = ActorBusy -> exists row, actors d !! id = Some row /\ a_status row = ActorBusy /\ operation_sequence row = operation_sequence row') ->
  busy_from None d d'.
Proof.
  intros Hd Hrow id2 row2. rewrite Hd, lookup_insert_Some. intros [[<- <-]|[Hne H2]] Hs; right; (split; [done|]); eauto.
Qed.

(** No caller makes an actor busy other than by allocating an operation. *)
Definition not_made_busy (op : actor_op) : bool := match op with ActStatus _ _ ActorBusy _ => false | _ => true end.

Lemma busy_then {A} (m : tx Db A) d : post m d (fun _ d' => busy_from None d d') ->
  post (m ;; mret None) d (fun x d' => busy_from x d d').
Proof. intros Hm. apply post_bind. eapply post_mono; [exact Hm|]. cbv beta. intros x d' Hd. by apply post_ret. Qed.

Lemma run_actor_busy op now d : not_made_busy op = true -> post (run_actor op now) d (fun x d' => busy_from x d d').
Proof.
  intros Hb. destruct op; cbn [run_actor]; try apply busy_then.
  - unfold create_actor, insert_actor, set_actors. actor_steps. apply idempotent_calls. intros [res|]; [actor_steps; by apply busy_same|].
    actor_steps. apply post_refs_tables. intros d1 Ht1. actor_steps. apply post_put_idempotency. intros d2 Ht2. actor_steps.
    eapply busy_tables; [|exact Ht2]. eapply busy_tables; [|exact Ht1]. by eapply busy_put.
  - unfold set_actor_status_tx, set_actor, set_actors. actor_steps. eapply busy_put; [cbn; by rewrite (alter_some _ _ _ _ H)|]. cbn.
    intros ->. done.
  - unfold put_checkpoint, set_actor, set_actors, set_checkpoints. actor_steps. apply idempotent_calls. intros [res|].
    { apply post_checkpoint. intros k Hk. by apply busy_same. }
    actor_steps.
    match goal with |- post (match ?o with _ => _ end) _ ?Q => assert (Q tt d) as HQ; [|destruct o; [apply post_bind, post_checkpoint; intros ? ?; apply post_require; intros _; exact HQ|exact HQ]] end.
    actor_steps. apply post_refs_tables. intros d1 Ht1. actor_steps. apply post_put_idempotency. intros d2 Ht2. actor_steps.
    eapply busy_tables; [|exact Ht2]. eapply busy_tables; [|exact Ht1]. eapply busy_put; [cbn; by rewrite (alter_some _ _ _ _ H)|]. cbn. eauto.
  - unfold restore_actor, set_actor, set_actors. actor_steps. apply idempotent_calls. intros [res|].
    { apply post_get_actor. intros row Hrow. by apply busy_same. }
    actor_steps. apply post_put_idempotency. intros d1 Ht1. actor_steps. eapply busy_tables; [|exact Ht1].
    eapply busy_put; [cbn; by rewrite (alter_some _ _ _ _ H0)|done].
  - unfold allocate_actor_operation, set_actor, set_actors. actor_steps. intros id row'. cbn. rewrite (alter_some _ _ _ _ H), lookup_insert_Some.
    intros [[<- <-]|[Hne H2]] Hs; [by left|right]. split; [congruence|]. eauto.
  - unfold complete_actor_operation, set_actor, set_actors. actor_steps. destruct (actors d !! actor) as [row|] eqn:H; actor_steps.
    eapply busy_put; [cbn; by rewrite (alter_some _ _ _ _ H)|done].
  - unfold mark_actor_worker_lost, set_actor, set_actors. actor_steps. eapply busy_put; [cbn; by rewrite (alter_some _ _ _ _ H)|]. cbn.
    destruct (bool_decide (is_Some (ar_checkpoint (a_record row)))); intros Hs; discriminate Hs.
  - unfold fork_actor_from_checkpoint, insert_actor, set_actors. actor_steps. apply idempotent_calls. intros [res|].
    { apply post_get_actor. intros row Hrow. by apply busy_same. }
    actor_steps. apply post_put_idempotency. intros d1 Ht1. actor_steps. eapply busy_tables; [|exact Ht1]. by eapply busy_put.
Qed.

Section restart.
Context `{Prost}.

Lemma map_tx_tables {A} (m : bytes -> tx CallState A) ids d :
  post (map_tx (fun id => x ← on_call Sql id (m id); mret (id, x)) ids) d (fun _ d' => tables d d').
Proof.
  revert d. induction ids as [|id ids IH]; intros d; cbn [map_tx]; tx_steps; [done|]. apply post_on_call. intros c Hc.
  apply post_intro. intros x c1 _. tx_steps. eapply post_mono; [apply IH|]. cbv beta. intros ys d2 Ht. by tx_steps.
Qed.

Lemma restart_actors now d : post (recover_startup now) d (fun _ d' => actors d' = recover_actor now <$> actors d /\ checkpoints d' = checkpoints d).
Proof.
  unfold recover_startup, for_calls, set_actors. tx_steps. eapply post_mono; [apply map_tx_tables|]. cbv beta. intros l d1 [Ha Hc]. tx_steps.
  cbn. by rewrite Ha, Hc.
Qed.

Lemma recover_actor_ok cks now row : actor_ok cks row -> actor_ok cks (recover_actor now row) /\ row_moves row (recover_actor now row).
Proof.
  intros Hok. unfold recover_actor. destruct (_ && _) eqn:E; [|by split]. destruct Hok as [O1 O2 O3 O4].
  apply andb_true_iff in E as [_ E]. apply bool_decide_eq_true in E. split; [by split|]. split; try done. cbn. set_unfold. intros Hd.
  rewrite Hd in E. naive_solver.
Qed.

Lemma restart_keeps now : keeps_actors (recover_startup now).
Proof.
  intros d Hok. eapply post_mono; [apply restart_actors|]. cbv beta. intros _ d' [Ha Hc]. split.
  - intros id row. rewrite Ha, Hc, lookup_fmap. destruct (actors d !! id) as [row0|] eqn:E; [|done]. cbn. intros [= <-]. by apply recover_actor_ok, Hok with id.
  - split; [by rewrite Hc|]. intros id row Hr. exists (recover_actor now row). rewrite Ha, lookup_fmap, Hr. split; [done|].
    apply (recover_actor_ok (checkpoints d)). by eapply Hok.
Qed.

(** [h]: the actor operations allocated so far. *)
Inductive actor_reach : list (bytes * Z) -> Db -> Prop :=
  | ar_start d : actors d = ∅ -> checkpoints d = ∅ -> actor_reach [] d
  | ar_tables h d d' : actor_reach h d -> tables d d' -> actor_reach h d'
  | ar_run h d op now x d' : actor_reach h d -> not_made_busy op = true ->
      run_actor op now d = Ok (x, d') -> actor_reach (h ++ option_list x) d'
  | ar_restart h d now n d' : actor_reach h d -> recover_startup now d = Ok (n, d') -> actor_reach h d'.

Inductive actor_follows (d : Db) : Db -> Prop :=
  | af_refl : actor_follows d d
  | af_tables d1 d2 : actor_follows d d1 -> tables d1 d2 -> actor_follows d d2
  | af_run d1 op now x d2 : actor_follows d d1 -> run_actor op now d1 = Ok (x, d2) -> actor_follows d d2
  | af_restart d1 now n d2 : actor_follows d d1 -> recover_startup now d1 = Ok (n, d2) -> actor_follows d d2.

Lemma actor_reach_ok h d : actor_reach h d -> actors_ok d.
Proof.
  induction 1 as [d Ha Hc|h d d' _ IH [Ha Hc]|h d op now x d' _ IH _ Hr|h d now n d' _ IH Hr].
  - intros id row. by rewrite Ha, lookup_empty.
  - by apply (same_actors d d').
  - by apply (post_use _ _ _ _ _ (run_actor_keeps op now d IH) Hr).
  - by apply (post_use _ _ _ _ _ (restart_keeps now d IH) Hr).
Qed.

Lemma actor_follows_moves d d' : actor_follows d d' -> actors_ok d -> actors_ok d' /\ moves d d'.
Proof.
  intros Hf Hok. induction Hf as [|d1 d2 _ IH Ht|d1 op now x d2 _ [Hok1 Hm] Hr|d1 now n d2 _ [Hok1 Hm] Hr].
  - split; [done|reflexivity].
  - by eapply after_tables.
  - destruct (post_use _ _ _ _ _ (run_actor_keeps op now d1 Hok1) Hr) as [? ?]. split; [done|by etrans].
  - destruct (post_use _ _ _ _ _ (restart_keeps now d1 Hok1) Hr) as [? ?]. split; [done|by etrans].
Qed.

(** The operations allocated to an actor, in order. *)
Definition allocated (h : list (bytes * Z)) (id : bytes) : list (bytes * Z) := List.filter (fun x => bool_decide (fst x = id)) h.

Definition busy_ok (h : list (bytes * Z)) (d : Db) : Prop := forall id row,
  actors d !! id = Some row -> a_status row = ActorBusy -> last (allocated h id) = Some (id, operation_sequence row).

Lemma busy_ok_step h x d d' : busy_ok h d -> busy_from x d d' -> busy_ok (h ++ option_list x) d'.
Proof.
  intros Hok Hb id row' Hr Hs. unfold allocated. rewrite List.filter_app. destruct (Hb id row' Hr Hs) as [->|(Hn & row & Hrow & Hbusy & Hseq)].
  - cbn. rewrite bool_decide_eq_true_2 by done. by rewrite last_snoc.
  - replace (List.filter _ (option_list x)) with (@nil (bytes * Z)).
    + rewrite app_nil_r, <- Hseq. by apply Hok.
    + destruct x as [[a s]|]; [|done]. cbn. rewrite bool_decide_eq_false_2; [done|]. intros ->. by apply (Hn s).
Qed.

Lemma actor_reach_busy h d : actor_reach h d -> busy_ok h d.
Proof.
  induction 1 as [d Ha Hc|h d d' _ IH Ht|h d op now x d' _ IH Hn Hr|h d now n d' _ IH Hr].
  - intros id row. by rewrite Ha, lookup_empty.
  - rewrite <- (app_nil_r h). apply (busy_ok_step h None d d'); [done|by apply busy_same].
  - apply (busy_ok_step h x d d'); [done|]. by apply (post_use _ _ _ _ _ (run_actor_busy op now d Hn) Hr).
  - destruct (post_use _ _ _ _ _ (restart_actors now d) Hr) as [Ha _]. intros id row. rewrite Ha, lookup_fmap.
    destruct (actors d !! id) as [row0|] eqn:E; [|done]. cbn. intros [= <-]. unfold recover_actor. destruct (_ && _); [by case_bool_decide|].
    intros Hb. by apply IH.
Qed.

(** The operation that completes is the one allocated last.  Whatever creations, status changes, checkpoints, restores,
    losses of workers, forks and restarts happened before, [complete_actor_operation] commits only for the operation
    that was allocated to the actor last, while the actor is busy with it; before it, no further operation is allocated. *)
Lemma actor_completes_last_operation h d actor seq now x d' :
  actor_reach h d -> complete_actor_operation actor seq now d = Ok (x, d') ->
  last (allocated h actor) = Some (actor, seq) /\ (forall later, allocate_actor_operation actor later d = Err Busy).
Proof.
  intros Hh Hr. pose proof (actor_reach_busy _ _ Hh) as Hb. pose proof (actor_reach_ok _ _ Hh) as Hok.
  refine (post_use (complete_actor_operation actor seq now) d (fun _ _ => _ /\ _) x d' _ Hr). clear Hr.
  unfold complete_actor_operation, set_actor, set_actors. tx_steps. destruct (actors d !! actor) as [row|] eqn:E; tx_steps.
  apply bool_decide_eq_true in Hr. apply Z.eqb_eq in Hr0. subst seq. split; [by apply Hb|]. intros later.
  unfold allocate_actor_operation, actor_by_id, mbind, tx_bind, read, lift. rewrite E. cbn.
  rewrite bool_decide_eq_false_2; [done|]. rewrite <- (ao_status _ _ (Hok _ _ E)), Hr. done.
Qed.

(** Actors can be recovered.  In every reachable database, the columns of an actor agree with its record and its recovery
    point is a stored checkpoint of the actor's own function revision; in every later one the checkpoints are
    still there unchanged, the actor has the same function, creation time and labels, and a deleted actor is deleted. *)
Lemma actor_recovery_points h d d' id row :
  actor_reach h d -> actor_follows d d' -> actors d !! id = Some row ->
  a_status row = ar_status (a_record row) /\ a_checkpoint row = ar_checkpoint (a_record row) /\
  (forall ck, ar_checkpoint (a_record row) = Some ck -> exists k, checkpoints d !! ck = Some k /\
     ck_function k = ar_function (a_record row) /\ checkpoints d' !! ck = Some k) /\
  exists row', actors d' !! id = Some row' /\ ar_function (a_record row') = ar_function (a_record row) /\
    ar_created (a_record row') = ar_created (a_record row) /\ ar_labels (a_record row') = ar_labels (a_record row) /\
    (a_status row = ActorDeleted -> a_status row' = ActorDeleted).
Proof.
  intros Hh Hf Hr. pose proof (actor_reach_ok _ _ Hh) as Hok. destruct (Hok id row Hr) as [O1 O2 O3 O4].
  destruct (actor_follows_moves d d' Hf Hok) as [_ [Hc Ha]]. split_and!; [done|done| |].
  - intros ck Hck. rewrite <- O2 in Hck. destruct (O4 ck Hck) as (k & Hk & Hfn). exists k. split_and!; [done|done|]. by eapply lookup_weaken.
  - destruct (Ha id row Hr) as (row' & Hr' & [F K L D]). by exists row'.
Qed.
End restart.

Module ActorExamples.
#[local] Instance plain : Prost := {| decode_input _ := None; sha256 _ := [] |}.

Definition fn : RevisionRef := mkRevisionRef (Some ([2], [3])) [1].
Definition empty : Db := mkDb ∅ {[ [1] := mkFunctionRevision (Some fn) None 0 [] RevisionReady [] None ]} ∅ ∅ ∅ ∅ ∅.
Definition after (op : actor_op) (now : Z) (d : Db) : Db := match run_actor op now d with Ok (_, d') => d' | Err _ => d end.

Definition d1 : Db := Eval vm_compute in after (ActCreate [] [5] (mkCreateActorRequest (Some fn) None [] [])) 10 empty.
Definition d2 : Db := Eval vm_compute in after (ActStatus [5] None ActorReady (Some [21])) 11 d1.
Definition d3 : Db := Eval vm_compute in after (ActAllocate [5]) 12 d2.
Definition point : Checkpoint :=
  mkCheckpoint (Some [5]) (Some fn) 1 (Some (mkValueEnvelope 1 1 None (Some (InlineData [])) 0 0)) 0.
Definition d4 : Db := Eval vm_compute in after (ActCheckpoint [] [6] point []) 13 d3.

Lemma actor_reach_after h d op now x :
  actor_reach h d -> not_made_busy op = true -> match run_actor op now d with Ok (y, _) => y = x | Err _ => False end ->
  actor_reach (h ++ option_list x) (after op now d).
Proof.
  intros Hh Hn Hr. unfold after. destruct (run_actor op now d) as [[y d']|e] eqn:E; [|done]. subst y. by eapply ar_run.
Qed.

Lemma actor_reach4 : actor_reach [([5], 1)] d4.
Proof.
  apply (actor_reach_after [([5], 1)] d3 (ActCheckpoint [] [6] point []) 13 None); [|reflexivity|vm_compute; reflexivity].
  apply (actor_reach_after [] d2 (ActAllocate [5]) 12 (Some ([5], 1))); [|reflexivity|vm_compute; reflexivity].
  apply (actor_reach_after [] d1 (ActStatus [5] None ActorReady (Some [21])) 11 None); [|reflexivity|vm_compute; reflexivity].
  apply (actor_reach_after [] empty (ActCreate [] [5] (mkCreateActorRequest (Some fn) None [] [])) 10 None); [|reflexivity|vm_compute; reflexivity].
  by apply ar_start.
Qed.
End ActorExamples.
