(* ===== verification/StorePages.v ===== *)
(** The listings of [vmond/src/function/store.rs]: pages of rows in the order of creation, with a token that names the
    last row.  A client that follows the tokens sees every matching row once, in order. *)

From S2P Require Import Prelude Decimal StoreTables StoreSpecs StoreCalls StoreOutcomes StoreInvariant StoreKeeps StoreSafety StoreRuns StoreService StoreExamples.

(** ** Pages *)

Record Page (A : Type) : Type := mkPage { items : list A; next_page_token : bytes }.
Arguments mkPage {A}.
Arguments items {A}.
Arguments next_page_token {A}.

(** A row of a listing: when it was created, its id and its record. *)
Abbreviation keyed A := (Z * bytes * A)%type.

Definition decode_page_token (t : bytes) : result store_error (Z * bytes) :=
  match t with
  | [] => Ok (0, [])
  | _ =>
      '(a, b) <-? ok_or (split_once 58 t) Invalid ;
      ms <-? ok_or (parse_unsigned 64 a) Invalid ;
      Ok (ms, b)
  end.

(** [format!("{ms}:{id}")]. *)
Definition page_token (ms : Z) (id : bytes) : bytes := decimal ms ++ 58 :: id.

(** [ORDER BY created_ms,id]. *)
Definition row_leb {A} (a b : keyed A) : bool :=
  let '(a1, a2, _) := a in let '(b1, b2, _) := b in (a1 <? b1) || ((a1 =? b1) && bytes_leb a2 b2).
Definition row_leq {A} (a b : keyed A) : Prop := row_leb a b = true.
#[global] Instance row_leq_dec {A} (a b : keyed A) : Decision (row_leq a b).
Proof. unfold row_leq. apply _. Defined.

(** [created_ms>? OR (created_ms=? AND id>?)]. *)
Definition after_token {A} (ms : Z) (id : bytes) (x : keyed A) : bool :=
  let '(x1, x2, _) := x in (ms <? x1) || ((x1 =? ms) && negb (bytes_leb x2 id)).

(** [WHERE ... ORDER BY ... LIMIT ?]. *)
Definition query_after {A} (ms : Z) (id : bytes) (limit : nat) (rows : list (keyed A)) : list (keyed A) :=
  take limit (merge_sort row_leq (List.filter (after_token ms id) rows)).

Definition last_token {A} (l : list (keyed A)) : bytes := match last l with Some (ms, id, _) => page_token ms id | None => [] end.

(** One row more than the limit tells that there is a next page. *)
Definition page_from_rows {A} (values : list (keyed A)) (limit : nat) : Page A :=
  if (limit <? length values)%nat then let l := removelast values in mkPage (map snd l) (last_token l) else mkPage (map snd values) [].

(** The same, as [list_calls] writes it. *)
Definition page_of {A} (rows : list (keyed A)) (limit : nat) : Page A :=
  if (limit <? length rows)%nat then let l := take limit rows in mkPage (map snd l) (last_token l) else mkPage (map snd rows) [].

(** ** Listings *)

Record ListCallsRequest : Type := mkListCallsRequest {
  lc_function : option FunctionRef; lc_status : option CallStatus; lc_actor : option bytes; lc_created_after : option Z;
  lc_page_size : Z; lc_page_token : bytes }.

(** The function columns of a revision. *)
Definition revision_function (d : Db) (id : bytes) : option FunctionRef := r ← revisions d !! id; rf ← rv_ref r; rf_function rf.

Definition call_listed (d : Db) (r : ListCallsRequest) (c : Call) : bool :=
  match revision_function d (revision_id c) with
  | Some f =>
      match lc_function r with Some g => bool_decide (f = g) | None => true end
      && match lc_status r with Some s => bool_decide (call_st c = s) | None => true end
      && match lc_actor r with Some a => bool_decide (actor_id c = Some a) | None => true end
      && (default 0 (lc_created_after r) <=? created_ms c)
  | None => false
  end.

(** The record of each listed call, with the id of its reference. *)
Definition call_rows (d : Db) (r : ListCallsRequest) : list (keyed (bytes * CallRecord)) :=
  omap (fun kv => if call_listed d r (call (snd kv)) then Some (created_ms (call (snd kv)), fst kv, (fst kv, record_of (snd kv))) else None)
    (map_to_list (calls d)).

Definition list_calls (r : ListCallsRequest) : tx Db (Page (bytes * CallRecord)) :=
  token ← lift (decode_page_token (lc_page_token r));
  let limit := Z.to_nat (normalized_page_size (lc_page_size r)) in
  check_i64 (default 0 (lc_created_after r)) ;; check_i64 (fst token) ;;
  read (fun d => page_of (query_after (fst token) (snd token) (limit + 1) (call_rows d r)) limit).

(** The same request for another page. *)
Definition at_page (r : ListCallsRequest) (t : bytes) : ListCallsRequest :=
  mkListCallsRequest (lc_function r) (lc_status r) (lc_actor r) (lc_created_after r) (lc_page_size r) t.

Definition revision_rows (d : Db) (namespace : option bytes) : list (keyed FunctionRevision) :=
  omap (fun kv => if match namespace with
                     | Some n => bool_decide (fst <$> revision_function d (fst kv) = Some n)
                     | None => true
                     end then Some (rv_created (snd kv), fst kv, snd kv) else None) (map_to_list (revisions d)).

Definition list_revisions (namespace : option bytes) (page_size : Z) (token : bytes) : tx Db (Page FunctionRevision) :=
  t ← lift (decode_page_token token);
  let limit := Z.to_nat (normalized_page_size page_size) in
  check_i64 (fst t) ;;
  read (fun d => page_from_rows (query_after (fst t) (snd t) (limit + 1) (revision_rows d namespace)) limit).

(** ** The order *)

Section order.
Context {A : Type}.
Implicit Types a b x : keyed A.

Lemma row_leb_spec a b : row_leq a b <-> fst (fst a) < fst (fst b) \/ (fst (fst a) = fst (fst b) /\ bytes_leb (snd (fst a)) (snd (fst b)) = true).
Proof.
  destruct a as [[a1 a2] ra], b as [[b1 b2] rb]. unfold row_leq, row_leb. cbn. by rewrite orb_true_iff, andb_true_iff, Z.ltb_lt, Z.eqb_eq.
Qed.

#[global] Instance row_leq_total : Total (@row_leq A).
Proof.
  intros a b. rewrite !row_leb_spec. destruct (Z.lt_trichotomy (fst (fst a)) (fst (fst b))) as [?|[?|?]]; [tauto| |tauto].
  destruct (bytes_leb_total (snd (fst a)) (snd (fst b))); [left|right]; right; auto.
Qed.

#[global] Instance row_leq_trans : Transitive (@row_leq A).
Proof.
  intros a b c. rewrite !row_leb_spec. intros [H1|[H1 H1']] [H2|[H2 H2']]; [left; lia..|right]. split; [congruence|by eapply bytes_leb_trans].
Qed.

Lemma row_leq_antisym a b : row_leq a b -> row_leq b a -> fst a = fst b.
Proof.
  rewrite !row_leb_spec. destruct a as [[a1 a2] ra], b as [[b1 b2] rb]. cbn. intros [H1|[H1 H1']] [H2|[H2 H2']]; [lia..|].
  f_equal; [done|]. by apply bytes_leb_antisym.
Qed.

Lemma after_token_spec x y : after_token (fst (fst x)) (snd (fst x)) y = true <-> ~ row_leq y x.
Proof.
  rewrite row_leb_spec. destruct x as [[x1 x2] rx], y as [[y1 y2] ry]. unfold after_token. cbn.
  rewrite orb_true_iff, andb_true_iff, Z.ltb_lt, Z.eqb_eq, negb_true_iff, <- not_true_iff_false.
  destruct (bytes_leb y2 x2); split; try lia; intros H; destruct (Z.lt_trichotomy x1 y1) as [?|[?|?]]; try tauto; try lia; exfalso; apply H; auto.
Qed.

Lemma filter_perm {B} (p : B -> bool) l l' : l ≡ₚ l' -> List.filter p l ≡ₚ List.filter p l'.
Proof.
  induction 1 as [|x l l' _ IH|x y l|l1 l2 l3 _ IH1 _ IH2]; cbn; [done| | |by etrans].
  - destruct (p x); [by rewrite IH|done].
  - destruct (p x), (p y); try done. constructor.
Qed.

(** Sorting commutes with the condition, when the keys are distinct. *)
Lemma sort_filter (p : keyed A -> bool) l : NoDup (map fst l) -> merge_sort row_leq (List.filter p l) = List.filter p (merge_sort row_leq l).
Proof.
  intros Hnd. assert (forall x y, x ∈ l -> y ∈ l -> fst x = fst y -> x = y) as Hinj.
  { intros x y Hx Hy He. apply list_elem_of_lookup in Hx as [i Hi], Hy as [j Hj].
    assert (i = j) as ->; [|congruence].
    by eapply (NoDup_lookup (fst <$> l) i j (fst x)); [exact Hnd|rewrite list_lookup_fmap, Hi|rewrite list_lookup_fmap, Hj, He]. }
  assert (forall l', (forall x, x ∈ List.filter p l' <-> x ∈ l' /\ p x = true)) as Hin.
  { intros l' x. rewrite !list_elem_of_In, filter_In. done. }
  apply (Sorted_unique_strong row_leq).
  - intros x y Hx Hy H1 H2. apply Hinj; [|..|by apply row_leq_antisym].
    + rewrite merge_sort_Permutation in Hx. by apply Hin in Hx as [? _].
    + apply Hin in Hy as [Hy _]. by rewrite merge_sort_Permutation in Hy.
  - apply Sorted_merge_sort. apply _.
  - pose proof (StronglySorted_merge_sort row_leq l) as Hs. clear Hinj Hin. apply StronglySorted_Sorted.
    induction Hs as [|x l' Hs IH Hall]; cbn; [constructor|]. destruct (p x); [|done]. constructor; [done|].
    rewrite Forall_forall in Hall |- *. intros y Hy. apply Hall. apply list_elem_of_In, filter_In in Hy as [Hy _]. by apply list_elem_of_In.
  - rewrite merge_sort_Permutation. apply filter_perm. by rewrite merge_sort_Permutation.
Qed.
End order.

(** ** Following the tokens *)

Section follow.
Context {A : Type}.
Implicit Types (L l : list (keyed A)).

Lemma kept_all {B} (p : B -> bool) (l : list B) : (forall x, x ∈ l -> p x = true) -> List.filter p l = l.
Proof.
  induction l as [|x l IH]; intros Hp; [done|]. cbn. rewrite Hp by left. f_equal. apply IH. intros y Hy. apply Hp. by right.
Qed.
Lemma kept_none {B} (p : B -> bool) (l : list B) : (forall x, x ∈ l -> p x = false) -> List.filter p l = [].
Proof. induction l as [|x l IH]; intros Hp; [done|]. cbn. rewrite Hp by left. apply IH. intros y Hy. apply Hp. by right. Qed.

(** What comes after a row of a sorted table. *)
Lemma filter_after_row L l1 x l2 :
  StronglySorted row_leq L -> NoDup (map fst L) -> L = l1 ++ x :: l2 -> List.filter (after_token (fst (fst x)) (snd (fst x))) L = l2.
Proof.
  intros Hs Hnd ->. assert (row_leq x x) as Hrefl by (by destruct (total row_leq x x)). rewrite List.filter_app, kept_none.
  - cbn [List.filter app]. destruct (after_token _ _ x) eqn:E; [by apply after_token_spec in E|]. apply kept_all. intros y Hy.
    apply after_token_spec. intros Hyx. assert (fst x = fst y) as He.
    { apply row_leq_antisym; [|done]. apply StronglySorted_app_1_r in Hs. inversion Hs as [|? ? _ Hall]; subst. rewrite Forall_forall in Hall. by apply Hall. }
    rewrite map_app in Hnd. cbn in Hnd. apply NoDup_app in Hnd as (_ & _ & Hnd). apply NoDup_cons in Hnd as [Hn _]. apply Hn. rewrite He.
    apply list_elem_of_In, in_map, list_elem_of_In, Hy.
  - intros y Hy. apply not_true_iff_false. rewrite after_token_spec. intros Hn. apply Hn.
    eapply StronglySorted_app_1_elem_of; [exact Hs|done|left].
Qed.

(** A page of the rows that are left: all of them, or a full page with the token of its last row. *)
Lemma page_split (R : list (keyed A)) (limit : nat) : (0 < limit)%nat ->
  (length R <= limit)%nat /\ page_of (take (limit + 1) R) limit = mkPage (map snd R) [] \/
  exists l x R', R = l ++ x :: R' /\ length (l ++ [x]) = limit /\
    page_of (take (limit + 1) R) limit = mkPage (map snd (l ++ [x])) (page_token (fst (fst x)) (snd (fst x))).
Proof.
  intros Hl. destruct (le_lt_dec (length R) limit) as [Hle|Hgt]; [left|right].
  - split; [done|]. unfold page_of. rewrite take_ge by lia. by rewrite (proj2 (Nat.ltb_ge _ _)) by lia.
  - destruct (last (take limit R)) as [x|] eqn:Ex.
    2:{ apply last_None in Ex. assert (length (take limit R) = limit) as Hx by (rewrite length_take; lia). rewrite Ex in Hx. cbn in Hx. lia. }
    apply last_Some in Ex as [l Hl']. exists l, x, (drop limit R).
    assert (length (l ++ [x]) = limit) as Hlen by (rewrite <- Hl', length_take; lia).
    split_and!; [|done|].
    + rewrite <- (take_drop limit R) at 1. rewrite Hl'. by rewrite <- app_assoc.
    + unfold page_of. rewrite (proj2 (Nat.ltb_lt _ _)) by (rewrite length_take; lia).
      rewrite take_take, Nat.min_l, Hl' by lia. unfold last_token. rewrite last_snoc. by destruct x as [[ms id] r].
Qed.

(** [pop] and the slice make the same page. *)
Lemma page_from_rows_of (rows : list (keyed A)) limit : (length rows <= limit + 1)%nat -> page_from_rows rows limit = page_of rows limit.
Proof.
  intros Hl. unfold page_from_rows, page_of. destruct (Nat.ltb_spec limit (length rows)); [|done].
  assert (removelast rows = take limit rows) as ->; [|done]. rewrite removelast_firstn_len. f_equal. lia.
Qed.
End follow.

Lemma decode_page_token_token ms id : 0 <= ms < 2 ^ 64 -> decode_page_token (page_token ms id) = Ok (ms, id).
Proof.
  intros Hms. unfold decode_page_token, page_token. destruct (decimal_cons ms) as (b & s & Hd & _); [lia|].
  assert (exists b' s', decimal ms ++ 58 :: id = b' :: s') as (b' & s' & He) by (rewrite Hd; cbn; eauto). rewrite He, <- He.
  rewrite split_once_app by (apply decimal_no_char; [lia|done]). cbn [ok_or result_bind]. rewrite parse_unsigned_decimal by lia. done.
Qed.

Lemma page_token_cons ms id : exists b s, page_token ms id = b :: s.
Proof. unfold page_token. destruct (decimal ms); cbn; eauto. Qed.

(** A client that follows the tokens. *)
Fixpoint follow_pages (fuel : nat) (r : ListCallsRequest) (t : bytes) (d : Db) : result store_error (list (bytes * CallRecord)) :=
  match fuel with
  | O => Err Engine
  | S fuel =>
      '(p, _) <-? list_calls (at_page r t) d ;
      match next_page_token p with
      | [] => Ok (items p)
      | _ :: _ => rest <-? follow_pages fuel r (next_page_token p) d ; Ok (items p ++ rest)
      end
  end.

Section listing.
Variables (d : Db) (r : ListCallsRequest).
Hypothesis Hrows : forall id c, calls d !! id = Some c -> id <> [] /\ 0 <= created_ms (call c) < 2 ^ 63.
Hypothesis Hafter : default 0 (lc_created_after r) < 2 ^ 63.
Hypothesis Hsize : 0 <= lc_page_size r.

Local Abbreviation L := (merge_sort row_leq (call_rows d r)).

Lemma call_rows_spec ms id x : (ms, id, x) ∈ call_rows d r <->
  exists c, calls d !! id = Some c /\ call_listed d r (call c) = true /\ ms = created_ms (call c) /\ x = (id, record_of c).
Proof.
  unfold call_rows. rewrite list_elem_of_omap. split.
  - intros ((id2 & c) & Hc & Hx). cbn in Hx. apply elem_of_map_to_list in Hc. destruct (call_listed d r (call c)) eqn:E; [|done]. simplify_eq. by exists c.
  - intros (c & Hc & Hl & -> & ->). exists (id, c). split; [by apply elem_of_map_to_list|]. cbn. by rewrite Hl.
Qed.

Lemma call_rows_nodup : NoDup (map fst (call_rows d r)).
Proof.
  unfold call_rows. pose proof (NoDup_fst_map_to_list (calls d)) as Hnd. induction (map_to_list (calls d)) as [|[id c] l IH]; [constructor|].
  cbn in Hnd |- *. apply NoDup_cons in Hnd as [Hn Hnd]. destruct (call_listed d r (call c)); cbn; [|by apply IH]. constructor; [|by apply IH].
  intros Hin. apply Hn. apply list_elem_of_In, in_map_iff in Hin as (y & Hy & Hin). apply list_elem_of_In, list_elem_of_omap in Hin as ((id2 & c2) & Hin & Hx).
  cbn in Hx. destruct (call_listed d r (call c2)); [|done]. simplify_eq/=. apply list_elem_of_In, in_map_iff. exists (id, c2). split; [done|].
  by apply list_elem_of_In.
Qed.

Lemma sorted_nodup : NoDup (map fst L).
Proof. rewrite merge_sort_Permutation. apply call_rows_nodup. Qed.

Lemma follow_from fuel t ms id l R :
  decode_page_token t = Ok (ms, id) -> ms < 2 ^ 63 -> L = l ++ R -> List.filter (after_token ms id) L = R -> (length R < fuel)%nat ->
  follow_pages fuel r t d = Ok (map snd R).
Proof.
  revert t ms id l R. induction fuel as [|fuel IH]; intros t ms id l R Ht Hms HL HR Hf; [lia|]. cbn [follow_pages].
  set (limit := Z.to_nat (normalized_page_size (lc_page_size r))).
  assert (0 < limit)%nat as Hlim by (unfold limit, normalized_page_size; destruct (Z.eqb_spec (lc_page_size r) 0); lia).
  assert (list_calls (at_page r t) d = Ok (page_of (take (limit + 1) R) limit, d)) as ->.
  { assert (query_after ms id (limit + 1) (call_rows d r) = take (limit + 1) R) as <-.
    { unfold query_after. by rewrite sort_filter, HR by apply call_rows_nodup. }
    unfold list_calls, mbind, tx_bind, lift, check_i64, read, u64_i64. cbn [at_page lc_page_token lc_created_after lc_page_size].
    rewrite Ht. cbn [fst snd]. by rewrite (proj2 (Z.ltb_lt _ _) Hafter), (proj2 (Z.ltb_lt _ _) Hms). }
  cbn. destruct (page_split R limit Hlim) as [[_ ->]|(l' & x & R' & -> & Hlen & ->)]; [done|]. cbn [items next_page_token].
  assert (x ∈ L) as Hx by (rewrite HL; set_solver). rewrite merge_sort_Permutation in Hx. destruct x as [[xms xid] rec].
  apply call_rows_spec in Hx as (c & Hc & _ & -> & _). destruct (Hrows _ _ Hc) as [_ Hb]. cbn [fst snd].
  destruct (page_token_cons (created_ms (call c)) xid) as (b & s & Hcons). rewrite Hcons at 1. cbv iota.
  rewrite (IH (page_token (created_ms (call c)) xid) (created_ms (call c)) xid (l ++ l' ++ [(created_ms (call c), xid, rec)]) R').
  - cbn. by rewrite !map_app, <- app_assoc.
  - apply decode_page_token_token. lia.
  - lia.
  - rewrite HL. by rewrite <- !app_assoc.
  - eapply (filter_after_row L (l ++ l') (created_ms (call c), xid, rec)); [apply StronglySorted_merge_sort; apply _|apply sorted_nodup|].
    rewrite HL. by rewrite <- app_assoc.
  - rewrite length_app in Hf. cbn in Hf. lia.
Qed.

Lemma first_page : List.filter (after_token 0 []) L = L.
Proof.
  apply kept_all. intros [[ms id] x] Hx. rewrite merge_sort_Permutation in Hx. apply call_rows_spec in Hx as (c & Hc & _ & -> & _).
  destruct (Hrows _ _ Hc) as [Hid Hb]. unfold after_token. destruct id as [|b id]; [done|]. cbn [bytes_leb negb].
  rewrite andb_true_r, orb_true_iff, Z.ltb_lt, Z.eqb_eq. lia.
Qed.

(** C35: The pages of [list_calls] are the listing.  On a database that does not change, a client that starts without a token
    and follows the tokens gets every call that matches the request, once, in the order of creation and id, in
    at most one page more than there are calls; no page is longer than the page size. *)
Theorem pages_are_the_listing fuel :
  (length (call_rows d r) < fuel)%nat ->
  follow_pages fuel r [] d = Ok (map snd (merge_sort row_leq (call_rows d r))) /\
  (forall t p d', list_calls (at_page r t) d = Ok (p, d') -> Z.of_nat (length (items p)) <= normalized_page_size (lc_page_size r)).
Proof.
  intros Hf. split.
  - apply (follow_from fuel [] 0 [] [] L); [done|lia|done|apply first_page|]. by rewrite merge_sort_Permutation.
  - intros t p d' Hp. unfold list_calls, mbind, tx_bind, lift in Hp. destruct (decode_page_token _) as [[ms id]|]; [|done]. unfold check_i64, mbind, tx_bind, lift, read in Hp.
    destruct (u64_i64 _); [|done]. destruct (u64_i64 _); [|done]. cbn in Hp. injection Hp as <- <-.
    assert (0 <= normalized_page_size (lc_page_size r)) by (unfold normalized_page_size; destruct (_ =? 0); lia).
    set (q := query_after _ _ _ _). unfold page_of. destruct (Nat.ltb_spec (Z.to_nat (normalized_page_size (lc_page_size r))) (length q)); cbn; rewrite length_map, ?length_take; lia.
Qed.
End listing.

Module PageExamples.
Import StoreExamples.

(** Three calls, two of them in the same millisecond, in pages of two. *)
Definition p2 : Db := Eval vm_compute in after (OpCreate enc [] [12] request) 11 d1.
Definition p3 : Db := Eval vm_compute in after (OpCreate enc [] [11] request) 11 p2.
Definition all_calls : ListCallsRequest := mkListCallsRequest (Some ([2], [3])) (Some CallQueued) None None 2 [].

Definition ids (l : list (bytes * CallRecord)) : list bytes := map fst l.

Lemma pages_are_the_listing_witness : exists l p,
  follow_pages 4 all_calls [] p3 = Ok l /\ ids l = [[9]; [11]; [12]] /\
  list_calls all_calls p3 = Ok (p, p3) /\ ids (items p) = [[9]; [11]] /\ next_page_token p = [49; 49; 58; 11].
Proof.
  do 2 eexists. split.
  - apply (pages_are_the_listing p3 all_calls); [|done|done|by apply Nat.ltb_lt; vm_compute].
    change (map_Forall (fun id c => id <> [] /\ 0 <= created_ms (call c) < 2 ^ 63) (calls p3)).
    refine (bool_decide_unpack _ _). by vm_compute.
  - split; [by vm_compute|]. split; [by vm_compute|]. by vm_compute.
Defined.
End PageExamples.
