(* ===== verification/StoreRefs.v ===== *)
(** References from the calls, actors and checkpoints of the function store to the revisions: no operation on
    calls or actors changes the revisions, and each row refers to one that is stored.  The proofs follow the
    shape of the transactions. *)

From S2P Require Import Prelude Decimal StoreTables StoreSpecs StoreCalls StoreOutcomes StoreInvariant StoreSafety StoreRuns StoreActors.

Create HintDb store_refs.

(** The head of an application. *)
Ltac head_of t := lazymatch t with ?f _ => head_of f | _ => t end.

(** ** The rows of one call *)

(** The call keeps its revision. *)
Definition same_revision {A} (m : tx CallState A) : Prop := forall c, post m c (fun _ c' => revision_id (call c') = revision_id (call c)).

Lemma same_bind {A B} (m : tx CallState A) (k : A -> tx CallState B) :
  same_revision m -> (forall x, same_revision (k x)) -> same_revision (m ≫= k).
Proof.
  intros Hm Hk c. apply post_bind. eapply post_mono; [apply Hm|]. cbv beta. intros x c' Hc. eapply post_mono; [apply Hk|]. cbv beta. congruence.
Qed.
Lemma same_pure {A} (m : tx CallState A) : (forall c (Q : A -> CallState -> Prop), (forall x, Q x c) -> post m c Q) -> same_revision m.
Proof. intros Hm c. by apply Hm. Qed.
Lemma same_for_each {A} (f : A -> tx CallState ()) l : (forall x, same_revision (f x)) -> same_revision (for_each f l).
Proof. intros Hf. induction l as [|x l IH]; cbn [for_each]; [done|]. apply same_bind; auto. Qed.

Ltac same_revision :=
  cbv zeta;
  lazymatch goal with
  | |- same_revision (_ ≫= _) => apply same_bind; [|intros ?]; same_revision
  | |- same_revision (for_each _ _) => apply same_for_each; intros ?; same_revision
  | |- same_revision (mret _) => intros ?; tx_steps; reflexivity
  | |- same_revision (read _) => intros ?; tx_steps; reflexivity
  | |- same_revision (fail _) => intros ?; tx_steps
  | |- same_revision (require _ _) => intros ?; tx_steps; reflexivity
  | |- same_revision (lift _) => intros ?; tx_steps; reflexivity
  | |- same_revision (modify _) => intros ?; tx_steps; cbn; repeat case_match; reflexivity
  | |- same_revision (match ?x with _ => _ end) => destruct x; same_revision
  | |- same_revision ?m => first [solve [auto with store_refs nocore] | let h := head_of m in unfold h; same_revision]
  end.

(** ** The database *)

Record refs_ok (d : Db) : Prop := mkRefsOk {
  ro_call id c : calls d !! id = Some c -> is_Some (revisions d !! revision_id (call c));
  ro_actor id a : actors d !! id = Some a -> exists f, ar_function (a_record a) = Some f /\ is_Some (revisions d !! rf_id f);
  ro_checkpoint id k : checkpoints d !! id = Some k -> exists f, ck_function k = Some f /\ is_Some (revisions d !! rf_id f) }.

Definition keeps_refs {A} (m : tx Db A) : Prop := forall d, refs_ok d -> post m d (fun _ d' => refs_ok d' /\ revisions d' = revisions d).

Lemma refs_bind {A B} (m : tx Db A) (k : A -> tx Db B) : keeps_refs m -> (forall x, keeps_refs (k x)) -> keeps_refs (m ≫= k).
Proof.
  intros Hm Hk d Hok. apply post_bind. eapply post_mono; [by apply Hm|]. cbv beta. intros x d1 [Hok1 H1].
  eapply post_mono; [by apply Hk|]. cbv beta. intros y d2 [Hok2 H2]. split; [done|congruence].
Qed.
Lemma refs_for_each {A} (f : A -> tx Db ()) l : (forall x, keeps_refs (f x)) -> keeps_refs (for_each f l).
Proof. intros Hf. induction l as [|x l IH]; cbn [for_each]; [done|]. apply refs_bind; auto. Qed.
Lemma refs_map_tx {A B} (f : A -> tx Db B) l : (forall x, keeps_refs (f x)) -> keeps_refs (map_tx f l).
Proof.
  intros Hf. induction l as [|x l IH]; cbn [map_tx]; [done|]. apply refs_bind; [done|]. intros y. apply refs_bind; [done|]. by intros ys.
Qed.

(** Statements that leave the three tables alone. *)
Lemma refs_same d d' :
  calls d' = calls d -> actors d' = actors d -> checkpoints d' = checkpoints d -> revisions d' = revisions d ->
  refs_ok d -> refs_ok d' /\ revisions d' = revisions d.
Proof. intros Hc Ha Hk Hr [C A K]. split; [|done]. split; rewrite Hr, ?Hc, ?Ha, ?Hk; [exact C|exact A|exact K]. Qed.

Lemma refs_on_call {A} e id (m : tx CallState A) : same_revision m -> keeps_refs (on_call e id m).
Proof.
  intros Hm d [C Ha K]. apply post_on_call. intros c Hc. eapply post_mono; [apply Hm|]. cbv beta. intros x c' Hr.
  split; [|done]. split; cbn; [|exact Ha|exact K]. intros id2 c2. rewrite lookup_insert_Some. intros [[<- <-]|[_ Hc2]]; [|by eapply C].
  rewrite Hr. by eapply C.
Qed.

(** The actors change, each keeps its function. *)
Lemma refs_fmap_actors (g : ActorRow -> ActorRow) :
  (forall a, ar_function (a_record (g a)) = ar_function (a_record a)) -> keeps_refs (set_actors (fmap g)).
Proof.
  intros Hg d [C Ha K]. unfold set_actors. tx_steps. split; [|done]. split; cbn; [exact C| |exact K].
  intros id a'. rewrite lookup_fmap. destruct (actors d !! id) as [a|] eqn:E; [|done]. cbn. intros [= <-]. rewrite Hg. by eapply Ha.
Qed.

Ltac keeps_refs :=
  cbv zeta;
  lazymatch goal with
  | |- keeps_refs (_ ≫= _) => apply refs_bind; [|intros ?]; keeps_refs
  | |- keeps_refs (for_each _ _) => apply refs_for_each; intros ?; keeps_refs
  | |- keeps_refs (map_tx _ _) => apply refs_map_tx; intros ?; keeps_refs
  | |- keeps_refs (on_call _ _ _) => apply refs_on_call; same_revision
  | |- keeps_refs (set_actors (fmap _)) => apply refs_fmap_actors
  | |- keeps_refs (mret _) => intros ? ?; tx_steps; by split
  | |- keeps_refs (read _) => intros ? ?; tx_steps; by split
  | |- keeps_refs (fail _) => intros ? ?; tx_steps
  | |- keeps_refs (require _ _) => intros ? ?; tx_steps; by split
  | |- keeps_refs (lift _) => intros ? ?; tx_steps; by split
  | |- keeps_refs (modify _) => intros ? ?; tx_steps; by apply refs_same
  | |- keeps_refs (match ?x with _ => _ end) => destruct x; keeps_refs
  | |- keeps_refs ?m => first [solve [auto with store_refs nocore] | let h := head_of m in unfold h; keeps_refs]
  end.

Section refs.
Context `{Prost}.

Lemma lease_all_same call_id worker attempts now ms rev revision idxs :
  same_revision (lease_all call_id worker attempts now ms rev revision idxs).
Proof. induction idxs as [|i idxs IH]; cbn [lease_all]; same_revision. Qed.
#[local] Hint Resolve lease_all_same : store_refs.

(** *** Calls *)

Lemma lease_batch_refs rev w a now ms n : keeps_refs (lease_batch_for_revision rev w a now ms n).
Proof. keeps_refs. Qed.

Lemma revision_by_id_stored id d (Q : FunctionRevision -> Db -> Prop) :
  (forall v, revisions d !! id = Some v -> Q v d) -> post (revision_by_id id) d Q.
Proof. intros HQ. unfold revision_by_id. tx_steps. apply HQ. by destruct (revisions d !! id); simplify_eq/=. Qed.

Lemma target_spec_stored rev receiver ins d (Q : FunctionSpec -> Db -> Prop) :
  (forall x, is_Some (revisions d !! rf_id rev) -> Q x d) -> post (target_spec rev receiver ins) d Q.
Proof.
  intros HQ. unfold target_spec, actor_by_id. apply post_bind, revision_by_id_stored. intros v Hv.
  tx_steps. destruct receiver as [[a m|k m]|]; tx_steps; apply HQ; by eexists.
Qed.

Lemma insert_call_refs id row d :
  refs_ok d -> is_Some (revisions d !! revision_id row) -> post (insert_call id row) d (fun _ d' => refs_ok d' /\ revisions d' = revisions d).
Proof.
  intros [C A K] Hrev. unfold insert_call, set_calls. tx_steps. split; [|done]. split; cbn; [|exact A|exact K].
  intros id2 c2. rewrite lookup_insert_Some. intros [[_ <-]|[_ Hc2]]; [done|by eapply C].
Qed.

Lemma create_call_refs enc fp id r now : keeps_refs (create_call enc fp id r now).
Proof.
  unfold create_call. apply refs_bind; [keeps_refs|]. intros []. destruct (cr_type r) as [k|]; [|done].
  destruct (cr_target r) as [[[rev|] receiver]|]; [|done..]. apply refs_bind; [keeps_refs|]. intros [x|]; [keeps_refs|].
  intros d Hok. apply post_bind, target_spec_stored. intros spec Hrev.
  assert (keeps_refs (insert_call_inputs enc id (cr_inputs r) now ;;
    on_call Sql id (append_status_event (call_st (new_call r k (target_actor receiver) (rf_id rev) spec now)) now) ;;
    put_idempotency (bs "create_call") (cr_request_id r) fp id now ;; call_record id)) as Hrest by keeps_refs.
  apply post_bind, post_require. intros _. apply post_bind. eapply post_mono; [by apply insert_call_refs|]. cbv beta. intros [] d1 [Hok1 H1].
  eapply post_mono; [by apply Hrest|]. cbv beta. intros x d2 [Hok2 H2]. split; [done|congruence].
Qed.

#[local] Hint Resolve create_call_refs lease_batch_refs : store_refs.

Lemma recover_actor_function now a : ar_function (a_record (recover_actor now a)) = ar_function (a_record a).
Proof. unfold recover_actor. by destruct (_ && _). Qed.

Lemma run_refs op now : keeps_refs (run op now).
Proof. destruct op; cbn [run]; unfold quiet; keeps_refs. apply recover_actor_function. Qed.

(** *** Actors *)

Lemma actor_by_id_row id d (Q : ActorRow -> Db -> Prop) : (forall a, actors d !! id = Some a -> Q a d) -> post (actor_by_id id) d Q.
Proof. intros HQ. unfold actor_by_id. tx_steps. apply HQ. by destruct (actors d !! id); simplify_eq/=. Qed.
Lemma checkpoint_by_id_row id d (Q : Checkpoint -> Db -> Prop) :
  (forall k, checkpoints d !! id = Some k -> Q k d) -> post (checkpoint_by_id id) d Q.
Proof. intros HQ. unfold checkpoint_by_id. tx_steps. apply HQ. by destruct (checkpoints d !! id); simplify_eq/=. Qed.

(** A row of an actor whose function is stored. *)
Definition function_stored (d : Db) (a : ActorRecord) : Prop := exists f, ar_function a = Some f /\ is_Some (revisions d !! rf_id f).

Lemma set_actor_refs id g d :
  refs_ok d -> (forall a, actors d !! id = Some a -> function_stored d (a_record (g a))) ->
  post (set_actor id g) d (fun _ d' => refs_ok d' /\ revisions d' = revisions d).
Proof.
  intros [C A K] Hg. unfold set_actor, set_actors. tx_steps. split; [|done]. split; cbn; [exact C| |exact K].
  intros id2 a'. rewrite lookup_alter_Some. intros [(<- & a & Ha & ->)|[_ Ha]]; [by apply Hg|by eapply A].
Qed.

Lemma insert_actor_refs id row d :
  refs_ok d -> function_stored d (a_record row) -> post (insert_actor id row) d (fun _ d' => refs_ok d' /\ revisions d' = revisions d).
Proof.
  intros [C A K] Hrow. unfold insert_actor, set_actors. tx_steps. split; [|done]. split; cbn; [exact C| |exact K].
  intros id2 a'. rewrite lookup_insert_Some. intros [[_ <-]|[_ Ha]]; [done|by eapply A].
Qed.

(** A transaction goes on after a statement that keeps the references. *)
Lemma refs_then {A B} (m : tx Db A) (k : A -> tx Db B) d :
  post m d (fun _ d' => refs_ok d' /\ revisions d' = revisions d) -> (forall x, keeps_refs (k x)) ->
  post (m ≫= k) d (fun _ d' => refs_ok d' /\ revisions d' = revisions d).
Proof.
  intros Hm Hk. apply post_bind. eapply post_mono; [exact Hm|]. cbv beta. intros x d1 [Hok1 H1].
  eapply post_mono; [by apply Hk|]. cbv beta. intros y d2 [Hok2 H2]. split; [done|congruence].
Qed.

(** Statements that only read, then a row. *)
Ltac refs_step :=
  lazymatch goal with
  | |- post (actor_by_id _ ≫= _) _ _ => let a := fresh "a" in let Ha := fresh "Ha" in apply post_bind, actor_by_id_row; intros a Ha
  | |- post (checkpoint_by_id _ ≫= _) _ _ => let k := fresh "k" in let Hk := fresh "Hk" in apply post_bind, checkpoint_by_id_row; intros k Hk
  | |- post (revision_by_id _ ≫= _) _ _ => let v := fresh "v" in let Hv := fresh "Hv" in apply post_bind, revision_by_id_stored; intros v Hv
  | |- post (set_actor _ _ ≫= _) _ _ => apply refs_then; [apply set_actor_refs; [assumption|]|intros ?; keeps_refs]
  | |- post (insert_actor _ _ ≫= _) _ _ => apply refs_then; [apply insert_actor_refs; [assumption|]|intros ?; keeps_refs]
  | |- post (require _ _ ≫= _) _ _ => let H := fresh "Hreq" in apply post_bind, post_require; intros H
  | |- post (lift _ ≫= _) _ _ => let x := fresh "x" in let H := fresh "Hlift" in apply post_bind, post_lift; intros x H
  | |- post (check_i64 _ ≫= _) _ _ => apply post_bind, post_check
  | |- post (read _ ≫= _) _ _ => apply post_bind, post_read
  | |- post (fail _) _ _ => apply post_fail
  end.
Ltac refs_steps := repeat (cbv zeta beta; refs_step).

Lemma create_actor_refs fp id r now : keeps_refs (create_actor fp id r now).
Proof.
  unfold create_actor. apply refs_bind; [keeps_refs|]. intros f. apply refs_bind; [keeps_refs|]. intros [x|]; [keeps_refs|].
  intros d Hok. refs_steps. exists f. by rewrite Hv.
Qed.

Lemma set_status_refs id e s w now : keeps_refs (set_actor_status_tx id e s w now).
Proof. intros d Hok. unfold set_actor_status_tx. refs_steps. intros a0 _. cbn. by eapply (ro_actor _ Hok). Qed.

Lemma allocate_refs a now : keeps_refs (allocate_actor_operation a now).
Proof. intros d Hok. unfold allocate_actor_operation. refs_steps. intros a1 _. cbn. by eapply (ro_actor _ Hok). Qed.

Lemma complete_refs a seq now : keeps_refs (complete_actor_operation a seq now).
Proof.
  intros d Hok. unfold complete_actor_operation. refs_steps. destruct (actors d !! a) as [row|] eqn:E; refs_steps.
  intros a1 _. cbn. by eapply (ro_actor _ Hok).
Qed.

Lemma lost_refs a now : keeps_refs (mark_actor_worker_lost a now).
Proof. intros d Hok. unfold mark_actor_worker_lost. refs_steps. intros a1 _. cbn. by eapply (ro_actor _ Hok). Qed.

Lemma restore_refs fp a ck q now : keeps_refs (restore_actor fp a ck q now).
Proof.
  unfold restore_actor. apply refs_bind; [keeps_refs|]. intros [x|]; [keeps_refs|]. intros d Hok. refs_steps.
  intros a1 _. cbn. by eapply (ro_actor _ Hok).
Qed.

Lemma fork_refs fp id r now : keeps_refs (fork_actor_from_checkpoint fp id r now).
Proof.
  unfold fork_actor_from_checkpoint. apply refs_bind; [keeps_refs|]. intros ck. apply refs_bind; [keeps_refs|]. intros [x|]; [keeps_refs|].
  intros d Hok. refs_steps. destruct (ro_checkpoint _ Hok _ _ Hk) as (f & Hf & Hs). rewrite Hf in Hlift. injection Hlift as <-. by exists f.
Qed.

Lemma put_checkpoint_refs fp id ck q now : keeps_refs (put_checkpoint fp id ck q now).
Proof.
  unfold put_checkpoint. apply refs_bind; [keeps_refs|]. intros actor. apply refs_bind; [keeps_refs|]. intros state.
  apply refs_bind; [keeps_refs|]. intros [x|]; [keeps_refs|]. intros d Hok. refs_steps. apply bool_decide_eq_true in Hreq.
  destruct (ro_actor _ Hok _ _ Ha) as (f & Hf & Hs). rewrite Hf in Hreq. injection Hreq as <-.
  apply post_bind. eapply (post_mono _ _ (fun _ d' => d' = d)).
  { destruct (ar_checkpoint (a_record a)); [|done]. refs_steps. by apply post_require. }
  cbv beta. intros [] _ ->. refs_steps. apply post_bind, post_modify.
  match goal with |- post _ ?d1 _ => assert (refs_ok d1) as Hok1 end.
  { destruct Hok as [C A K]. split; cbn; [exact C|exact A|]. intros id2 k. rewrite lookup_insert_Some.
    intros [[_ <-]|[_ Hk]]; [|by eapply K]. exists f. split; [|done]. cbn. by destruct (ck_function ck); simplify_eq/=. }
  match goal with |- post _ ?d1 _ => change (revisions d) with (revisions d1) end. refs_steps. intros a1 _. by exists f.
Qed.

Lemma run_actor_refs op now : keeps_refs (run_actor op now).
Proof.
  pose proof create_actor_refs. pose proof set_status_refs. pose proof put_checkpoint_refs. pose proof restore_refs.
  pose proof allocate_refs. pose proof complete_refs. pose proof lost_refs. pose proof fork_refs.
  destruct op; cbn [run_actor]; (apply refs_bind; [auto|intros ?; keeps_refs]).
Qed.
End refs.
