(* ===== verification/StoreReplay.v ===== *)
(** Requests to the function store that are sent again: the idempotency table only grows, calls are never removed, and so a repeated
    [create_call] finds the call it made. *)

From S2P Require Import Prelude Decimal StoreTables StoreSpecs StoreCalls StoreOutcomes StoreInvariant StoreSafety StoreRuns StoreActors StoreRefs StoreExamples.

(** ** What is kept *)

Record lasts (d d' : Db) : Prop := mkLasts {
  ls_keys : idempotency d ⊆ idempotency d';
  ls_calls id : is_Some (calls d !! id) -> is_Some (calls d' !! id) }.

#[global] Instance lasts_preorder : PreOrder lasts.
Proof.
  split; [intros d; by split|]. intros d1 d2 d3 [K1 C1] [K2 C2]. split; [by etrans|auto].
Qed.

Definition keeps_keys {A} (m : tx Db A) : Prop := forall d, post m d (fun _ d' => lasts d d').

Lemma keys_bind {A B} (m : tx Db A) (k : A -> tx Db B) : keeps_keys m -> (forall x, keeps_keys (k x)) -> keeps_keys (m ≫= k).
Proof.
  intros Hm Hk d. apply post_bind. eapply post_mono; [apply Hm|]. cbv beta. intros x d1 H1. eapply post_mono; [apply Hk|]. cbv beta. intros y d2 H2. by etrans.
Qed.
Lemma keys_for_each {A} (f : A -> tx Db ()) l : (forall x, keeps_keys (f x)) -> keeps_keys (for_each f l).
Proof. intros Hf. induction l as [|x l IH]; cbn [for_each]; [intros d; tx_steps; reflexivity|]. apply keys_bind; auto. Qed.
Lemma keys_map_tx {A B} (f : A -> tx Db B) l : (forall x, keeps_keys (f x)) -> keeps_keys (map_tx f l).
Proof.
  intros Hf. induction l as [|x l IH]; cbn [map_tx]; [intros d; tx_steps; reflexivity|].
  apply keys_bind; [done|]. intros y. apply keys_bind; [done|]. intros ys d. tx_steps. reflexivity.
Qed.
Lemma keys_on_call {A} e id (m : tx CallState A) : keeps_keys (on_call e id m).
Proof.
  intros d. apply post_on_call. intros c Hc. apply post_intro. intros x c' _. split; cbn; [done|]. intros i Hi. rewrite lookup_insert_is_Some'. auto.
Qed.
Lemma keys_insert_call id row : keeps_keys (set_calls (insert id row)).
Proof. intros d. unfold set_calls. tx_steps. split; cbn; [done|]. intros i Hi. rewrite lookup_insert_is_Some'. auto. Qed.
Lemma keys_put s r f x now : keeps_keys (put_idempotency s r f x now).
Proof.
  intros d. unfold put_idempotency, set_idempotency. case_bool_decide; tx_steps; [reflexivity|]. split; cbn; [|done].
  apply negb_true_iff, bool_decide_eq_false, eq_None_not_Some in Hr. by apply insert_subseteq.
Qed.

Ltac keeps_keys :=
  cbv zeta;
  lazymatch goal with
  | |- keeps_keys (_ ≫= _) => apply keys_bind; [|intros ?]; keeps_keys
  | |- keeps_keys (for_each _ _) => apply keys_for_each; intros ?; keeps_keys
  | |- keeps_keys (map_tx _ _) => apply keys_map_tx; intros ?; keeps_keys
  | |- keeps_keys (on_call _ _ _) => apply keys_on_call
  | |- keeps_keys (set_calls (insert _ _)) => apply keys_insert_call
  | |- keeps_keys (put_idempotency _ _ _ _ _) => apply keys_put
  | |- keeps_keys (match ?x with _ => _ end) => destruct x; keeps_keys
  | |- keeps_keys (mret _) => intros ?; tx_steps; reflexivity
  | |- keeps_keys (read _) => intros ?; tx_steps; reflexivity
  | |- keeps_keys (fail _) => intros ?; tx_steps
  | |- keeps_keys (require _ _) => intros ?; tx_steps; reflexivity
  | |- keeps_keys (lift _) => intros ?; tx_steps; reflexivity
  | |- keeps_keys (modify _) => intros ?; tx_steps; by split
  | |- keeps_keys ?m => let h := head_of m in unfold h; keeps_keys
  end.

Section replay.
Context `{Prost}.

Lemma run_keys op now : keeps_keys (run op now).
Proof. destruct op; cbn [run]; unfold quiet; keeps_keys. Qed.

Lemma run_actor_keys op now : keeps_keys (run_actor op now).
Proof. destruct op; cbn [run_actor]; keeps_keys. Qed.

(** Any operation on calls or actors. *)
Inductive store_step (d d' : Db) : Prop :=
  | step_call op now ts : run op now d = Ok (ts, d') -> store_step d d'
  | step_actor op now x : run_actor op now d = Ok (x, d') -> store_step d d'.

Lemma steps_last d d' : rtc store_step d d' -> lasts d d'.
Proof.
  induction 1 as [d|d d1 d2 [op now ts Hr|op now x Hr] _ IH]; [reflexivity|..]; (etrans; [|exact IH]).
  - exact (post_use _ _ _ _ _ (run_keys op now d) Hr).
  - exact (post_use _ _ _ _ _ (run_actor_keys op now d) Hr).
Qed.

Lemma post_skip {A B} (m : tx Db A) (k : A -> tx Db B) d Q : (forall x d', post (k x) d' Q) -> post (m ≫= k) d Q.
Proof. intros Hk. apply post_bind, post_intro. auto. Qed.

Lemma post_call_record id d (Q : CallRecord -> Db -> Prop) : (forall c, calls d !! id = Some c -> Q (record_of c) d) -> post (call_record id) d Q.
Proof. intros HQ. by apply post_on_call_read. Qed.

(** The row that a request leaves. *)
Lemma create_call_key enc fp id q now d :
  cr_request_id q <> [] ->
  post (create_call enc fp id q now) d (fun x d' => exists call_id c,
    idempotency d' !! (bs "create_call", cr_request_id q) = Some (fp, call_id) /\ calls d' !! call_id = Some c /\ x = record_of c).
Proof.
  intros Hq. unfold create_call. apply post_bind, post_lift. intros [] _. destruct (cr_type q) as [k|]; [|done].
  destruct (cr_target q) as [[[rev|] receiver]|]; [|done..]. apply post_bind. unfold idempotent_resource. rewrite bool_decide_eq_false_2 by done.
  apply post_bind, post_read. destruct (idempotency d !! (bs "create_call", cr_request_id q)) as [[old rid]|] eqn:E.
  - case_bool_decide; [|done]. apply post_ret, post_call_record. subst old. eauto.
  - apply post_ret. apply post_skip. intros spec d1. apply post_skip. intros _ d2. apply post_skip. intros _ d3. apply post_skip. intros _ d4.
    apply post_skip. intros _ d5. apply post_bind. unfold put_idempotency, set_idempotency. rewrite bool_decide_eq_false_2 by done. tx_steps.
    apply post_call_record. cbn. intros c Hc. exists id, c. by rewrite lookup_insert_eq.
Qed.

(** The call that a request is checked to have made. *)
Lemma create_call_again enc fp fp' id q now d call_id :
  validate_call_request q = Ok () -> cr_request_id q <> [] -> idempotency d !! (bs "create_call", cr_request_id q) = Some (fp, call_id) ->
  create_call enc fp' id q now d = if bool_decide (fp = fp') then call_record call_id d else Err Invalid.
Proof.
  intros Hv Hq Hk. unfold create_call, mbind, tx_bind, lift. rewrite Hv. unfold validate_call_request in Hv.
  destruct (cr_type q) as [k|]; [|done]. cbn in Hv. destruct (cr_target q) as [[[rev|] receiver]|]; [|done..].
  unfold idempotent_resource, read, mbind, tx_bind. rewrite bool_decide_eq_false_2 by done. rewrite Hk. repeat case_bool_decide; try congruence; reflexivity.
Qed.

Lemma create_call_valid enc fp id q now d x d' : create_call enc fp id q now d = Ok (x, d') -> validate_call_request q = Ok ().
Proof. unfold create_call, mbind, tx_bind, lift. by destruct (validate_call_request q) as [[]|]. Qed.

(** C11: A call is created once.  After a [create_call] with a request id has committed, in every later database the same request, whatever
    its fresh id, returns the record of that call as it is then and changes nothing; under the same request id, any
    request with another fingerprint is refused.  The fingerprint that the code takes of a request is an argument; later steps are
    operations on calls and actors. *)
Theorem create_call_once enc fp id q now d x d' d'' :
  create_call enc fp id q now d = Ok (x, d') -> cr_request_id q <> [] -> rtc store_step d' d'' ->
  exists call_id c c'', calls d' !! call_id = Some c /\ x = record_of c /\ calls d'' !! call_id = Some c'' /\
    (forall enc' id' now', create_call enc' fp id' q now' d'' = Ok (record_of c'', d'')) /\
    (forall enc' fp' id' q' now', fp' <> fp -> cr_request_id q' = cr_request_id q -> exists e, create_call enc' fp' id' q' now' d'' = Err e).
Proof.
  intros Hc Hq Hs. destruct (post_use _ _ _ _ _ (create_call_key enc fp id q now d Hq) Hc) as (call_id & c & Hk & Hcall & Hx).
  destruct (steps_last _ _ Hs) as [Hkeys Hcalls]. apply (lookup_weaken _ _ _ _ Hk) in Hkeys as Hk2. destruct (Hcalls call_id) as [c'' Hc'']; [by eexists|].
  exists call_id, c, c''. split_and!; [done..| |].
  - intros enc' id' now'. rewrite (create_call_again _ fp _ _ _ _ _ call_id) by (done || by eapply create_call_valid).
    rewrite bool_decide_eq_true_2 by done. unfold call_record, on_call, read. rewrite Hc'', insert_id by done. by destruct d''.
  - intros enc' fp' id' q' now' Hne He. destruct (create_call enc' fp' id' q' now' d'') as [[y d3]|e] eqn:E; [|by exists e].
    rewrite <- He in Hk2, Hq. rewrite (create_call_again _ fp _ _ _ _ _ call_id) in E by (done || by eapply create_call_valid).
    rewrite bool_decide_eq_false_2 in E by congruence. done.
Qed.
End replay.

Module ReplayExamples.
Import StoreExamples.
#[local] Existing Instance plain.

(** The call of the examples, created under a request id, leased, and asked for again. *)
Definition named_request : CreateCallRequest :=
  mkCreateCallRequest (cr_type request) (cr_target request) (cr_inputs request) true None [5].
Definition m1 : Db := Eval vm_compute in after (OpCreate enc [77] [9] named_request) 10 empty.
Definition m2 : Db := Eval vm_compute in after (OpLease None [21] [31] 100 false) 20 m1.

Lemma create_call_once_witness : exists call_id c, calls m2 !! call_id = Some c /\ create_call enc [77] [10] named_request 50 m2 = Ok (record_of c, m2) /\
  exists e, create_call enc [78] [10] named_request 50 m2 = Err e.
Proof.
  destruct (create_call enc [77] [9] named_request 10 empty) as [[x d]|e] eqn:E; [|vm_compute in E; discriminate E].
  assert (d = m1) as Hd by (vm_compute in E; injection E as _ <-; vm_compute; reflexivity). subst d.
  destruct (create_call_once enc [77] [9] named_request 10 empty x m1 m2 E) as (call_id & c & c2 & _ & _ & Hc2 & Hsame & Hother).
  - discriminate.
  - apply rtc_once. apply (step_call m1 m2 (OpLease None [21] [31] 100 false) 20 [t1]). vm_compute. reflexivity.
  - exists call_id, c2. split; [exact Hc2|]. split; [apply Hsame|]. apply Hother; [discriminate|reflexivity].
Defined.
End ReplayExamples.
