(* ===== verification/StoreRegistry.v ===== *)
(** The registry of [vmond/src/function/store.rs]: immutable function revisions, found again by the digest of their
    specification, the aliases of functions, and the published revisions of apps.  The prost encodings of
    specifications and references are parameters; so are fresh identifiers and the clock. *)

From S2P Require Import Prelude Decimal F64 StoreTables StoreSpecs StoreCalls StoreOutcomes StoreInvariant.

(** ** Messages *)

Abbreviation AppRef := (bytes * bytes)%type.
Record AppRevisionRef : Type := mkAppRevisionRef { af_app : option AppRef; af_id : bytes }.
#[global] Instance app_revision_ref_eq_dec : EqDecision AppRevisionRef.
Proof. solve_decision. Defined.

Record AppFunctionBinding : Type := mkAppFunctionBinding { bd_name : bytes; bd_revision : option RevisionRef }.

Record AppRevision : Type := mkAppRevision {
  ap_ref : option AppRevisionRef; ap_functions : list AppFunctionBinding; ap_digest : bytes; ap_created : Z;
  ap_previous : option AppRevisionRef }.

Record ActivateAppRequest : Type := mkActivateAppRequest {
  aa_app : option AppRef; aa_functions : list AppFunctionBinding; aa_expected : option AppRevisionRef; aa_request_id : bytes }.

Record RollbackAppRequest : Type := mkRollbackAppRequest {
  rb_target : option AppRevisionRef; rb_expected : option AppRevisionRef; rb_request_id : bytes }.

Record FunctionRecord : Type := mkFunctionRecord { fr_function : option FunctionRef; fr_current : option RevisionRef; fr_updated : Z }.

(** The tables next to those of the calls.  A snapshot row has its revision, a member of an app revision its function
    revision, an alias its target and when it was set. *)
Record Reg : Type := mkReg {
  db : Db; aliases : gmap FunctionRef (bytes * Z); function_snapshots : gmap bytes (bytes * FunctionSnapshotRecord);
  app_revisions : gmap bytes AppRevision; app_members : gmap (bytes * bytes) bytes; app_aliases : gmap AppRef (bytes * Z) }.

(** Statements on the other tables. *)
Definition on_db {A} (m : tx Db A) : tx Reg A := fun r =>
  match m (db r) with
  | Ok (x, d) => Ok (x, mkReg d (aliases r) (function_snapshots r) (app_revisions r) (app_members r) (app_aliases r))
  | Err e => Err e
  end.

Definition set_aliases (f : gmap FunctionRef (bytes * Z) -> gmap FunctionRef (bytes * Z)) : tx Reg () :=
  modify (fun r => mkReg (db r) (f (aliases r)) (function_snapshots r) (app_revisions r) (app_members r) (app_aliases r)).
Definition set_snapshots (f : gmap bytes (bytes * FunctionSnapshotRecord) -> gmap bytes (bytes * FunctionSnapshotRecord)) : tx Reg () :=
  modify (fun r => mkReg (db r) (aliases r) (f (function_snapshots r)) (app_revisions r) (app_members r) (app_aliases r)).
Definition set_app_revisions (f : gmap bytes AppRevision -> gmap bytes AppRevision) : tx Reg () :=
  modify (fun r => mkReg (db r) (aliases r) (function_snapshots r) (f (app_revisions r)) (app_members r) (app_aliases r)).
Definition set_app_members (f : gmap (bytes * bytes) bytes -> gmap (bytes * bytes) bytes) : tx Reg () :=
  modify (fun r => mkReg (db r) (aliases r) (function_snapshots r) (app_revisions r) (f (app_members r)) (app_aliases r)).
Definition set_app_aliases (f : gmap AppRef (bytes * Z) -> gmap AppRef (bytes * Z)) : tx Reg () :=
  modify (fun r => mkReg (db r) (aliases r) (function_snapshots r) (app_revisions r) (app_members r) (f (app_aliases r))).

(** [INSERT] of a row whose key is taken fails. *)
Definition free {K A} `{Countable K} (table : Reg -> gmap K A) (k : K) : tx Reg () :=
  taken ← read (fun r => bool_decide (is_Some (table r !! k))); require (negb taken) Sql.

(** [DELETE FROM artifact_refs WHERE owner_kind=? AND owner_id=?]. *)
Definition drop_refs (owner_kind owner : bytes) : tx Db () :=
  set_refs (filter (fun '(_, k, o) => negb (bool_decide (k = owner_kind) && bool_decide (o = owner)) = true)).

(** ** Names and defaults *)

Definition validate_name (v : bytes) : result store_error () :=
  if bool_decide (v = []) || (255 <? length v)%nat || bool_decide (0 ∈ v) then Err Invalid else Ok ().

Definition default_retry (r : RetryPolicy) : RetryPolicy :=
  mkRetryPolicy (if max_attempts r =? 0 then 1 else max_attempts r) (initial_backoff_millis r)
    (if max_backoff_millis r =? 0 then initial_backoff_millis r else max_backoff_millis r)
    (if SFeqb (backoff_multiplier r) f64_zero then f64_of_Z 2 else backoff_multiplier r) (retryable_codes r).

Definition default_workers (w : WorkerSpec) : WorkerSpec :=
  mkWorkerSpec (min_workers w) (if max_workers w =? 0 then 1 else max_workers w) (idle_timeout_millis w) (max_calls_per_worker w)
    (buffer_workers w) (if max_outstanding_inputs w =? 0 then 1 else max_outstanding_inputs w).

Definition default_concurrency (c : ConcurrencySpec) : ConcurrencySpec :=
  mkConcurrencySpec (if max_concurrent_calls c =? 0 then 1 else max_concurrent_calls c) (serialize_actor_calls c).

Definition default_batching (b : BatchingSpec) : BatchingSpec :=
  mkBatchingSpec (batching_enabled b) (if batching_enabled b && (max_batch_size b =? 0) then 1 else max_batch_size b) (max_wait_millis b).

Definition resolve_function_defaults (s : FunctionSpec) : FunctionSpec :=
  mkFunctionSpec (sp_function s) (sp_package s) (sp_image s) (sp_resources s) (default_retry <$> sp_retry s) (timeouts s)
    (default_workers <$> sp_workers s) (default_concurrency <$> sp_concurrency s) (default_batching <$> sp_batching s)
    (sp_serializer s) (lifecycle s) (sp_reproducibility s) (sp_labels s) (sp_secrets s) (sp_rest s).

Definition artifact_ref_digest (a : option ArtifactRef) : option bytes := digest_hex (d ← a; d).

Definition validate_function_spec (s : FunctionSpec) : result store_error () :=
  '(namespace, name) <-? ok_or (sp_function s) Invalid ;
  _ <-? validate_name namespace ;
  _ <-? validate_name name ;
  package <-? ok_or (sp_package s) Invalid ;
  image <-? ok_or (sp_image s) Invalid ;
  ser <-? ok_or (sp_serializer s) Invalid ;
  if negb (bool_decide (is_Some (sp_resources s)) && bool_decide (is_Some (sp_retry s)) && bool_decide (is_Some (timeouts s))
           && bool_decide (is_Some (sp_workers s)) && bool_decide (is_Some (sp_concurrency s)) && bool_decide (is_Some (sp_batching s)))
  then Err Invalid
  else if negb (bool_decide (is_Some (artifact_ref_digest (pk_source package)))) then Err Invalid
  else
    _ <-? match pk_mode package with
          | PMModule | PMPackage => _ <-? validate_name (pk_module package) ; validate_name (pk_qualname package)
          | PMTrustedSerialized =>
              if match pk_abi_tag package with Some t => bool_decide (t = []) | None => true end || negb (allow_trusted_python ser)
              then Err Invalid else Ok ()
          | PMUnspecified => Err Invalid
          end ;
    if negb (bool_decide (is_Some (im_source image))) then Err Invalid
    else if negb (valid_serializer (ser_input ser)) || negb (valid_serializer (ser_result ser)) then Err Invalid
    else if existsb (fun r => bool_decide (secret_name r = [])) (sp_secrets s) then Err Invalid
    else Ok ().

(** A set; the references are inserted in any order. *)
Definition function_spec_artifacts (s : FunctionSpec) : list bytes :=
  match sp_package s with
  | Some p => option_list (artifact_ref_digest (pk_source p)) ++ option_list (artifact_ref_digest (pk_lockfile p))
  | None => []
  end ++
  match sp_image s with
  | Some i =>
      match im_source i with Some (DockerfileImage context _) => option_list (artifact_ref_digest context) | _ => [] end
      ++ omap artifact_ref_digest (im_mounts i)
  | None => []
  end.

(** ** Digests *)

Definition be64 (x : Z) : bytes := rev (le_bytes 8 x).

(** The order of pairs of strings. *)
Definition pair_leb (a b : bytes * bytes) : bool := bytes_leb (fst a) (fst b) && (negb (bool_decide (fst a = fst b)) || bytes_leb (snd a) (snd b)).
Definition pair_leq (a b : bytes * bytes) : Prop := pair_leb a b = true.
#[global] Instance pair_leq_dec a b : Decision (pair_leq a b).
Proof. unfold pair_leq. apply _. Defined.

Definition sorted_map (m : string_map) : list (bytes * bytes) := merge_sort pair_leq m.

Definition framed (s : bytes) : bytes := be64 (Z.of_nat (length s)) ++ s.

(** What [hash_domain_maps] feeds to the hash. *)
Definition domain_bytes (base : bytes) (maps : list (bytes * list (bytes * bytes))) : bytes :=
  framed base ++ concat (map (fun '(domain, entries) =>
    framed domain ++ be64 (Z.of_nat (length entries)) ++ concat (map (fun '(k, v) => framed k ++ framed v) entries)) maps).

(** The specification without its maps, and the maps. *)
Definition base_spec (s : FunctionSpec) : FunctionSpec :=
  mkFunctionSpec (sp_function s) (sp_package s) ((fun i => mkImageSpec (im_source i) [] (im_mounts i)) <$> sp_image s) (sp_resources s)
    (sp_retry s) (timeouts s) (sp_workers s) (sp_concurrency s) (sp_batching s) (sp_serializer s) (lifecycle s)
    ((fun _ => []) <$> sp_reproducibility s) [] (sp_secrets s) (sp_rest s).

Definition spec_maps (s : FunctionSpec) : list (bytes * list (bytes * bytes)) :=
  (bs "function.labels", sorted_map (sp_labels s)) ::
  match sp_image s with Some i => [(bs "image.environment", sorted_map (im_environment i))] | None => [] end ++
  match sp_reproducibility s with Some e => [(bs "reproducibility.environment", sorted_map e)] | None => [] end.

(** [encode_to_vec]. *)
Class Encoder : Type := { encode_spec : FunctionSpec -> bytes; encode_revision_ref : RevisionRef -> bytes }.

Section registry.
Context `{Prost} `{Encoder}.

Definition hash_domain_maps (base : bytes) (maps : list (bytes * list (bytes * bytes))) : bytes := sha256 (domain_bytes base maps).

Definition canonical_spec_digest (s : FunctionSpec) : bytes := hash_domain_maps (encode_spec (base_spec s)) (spec_maps s).

Definition digest_bindings (l : list AppFunctionBinding) : bytes :=
  sha256 (concat (map (fun b => framed (bd_name b) ++ match bd_revision b with Some r => encode_revision_ref r | None => [] end) l)).

(** ** Functions *)

Definition revision_id_of (r : FunctionRevision) : result store_error bytes := ok_or (rf_id <$> rv_ref r) Engine.

Definition revision_by_digest (digest : bytes) : tx Db (option FunctionRevision) :=
  read (fun d => snd <$> head (List.filter (fun kv => bool_decide (rv_digest (snd kv) = digest)) (map_to_list (revisions d)))).

(** [INSERT INTO revisions]: the id and the digest are unique. *)
Definition insert_revision (id : bytes) (r : FunctionRevision) : tx Db () :=
  same ← revision_by_digest (rv_digest r);
  taken ← read (fun d => bool_decide (is_Some (revisions d !! id)));
  require (negb taken && negb (bool_decide (is_Some same))) Sql ;;
  set_revisions (insert id r).

Definition register_function (id : bytes) (s : FunctionSpec) (request : bytes) (now : Z) : tx Db FunctionRevision :=
  let spec := resolve_function_defaults s in
  lift (validate_function_spec spec) ;;
  lift (reject_unroutable_function_ha spec) ;;
  let digest := canonical_spec_digest spec in
  f ← lift (ok_or (sp_function spec) Invalid);
  let fingerprint := hex_encode digest in
  found ← idempotent_resource (bs "register") request fingerprint;
  match found with
  | Some resource => revision_by_id resource
  | None =>
      old ← revision_by_digest digest;
      match old with
      | Some revision =>
          rid ← lift (revision_id_of revision);
          put_idempotency (bs "register") request fingerprint rid now ;; mret revision
      | None =>
          let revision := mkFunctionRevision (Some (mkRevisionRef (Some f) id)) (Some spec) now digest RevisionReady [] None in
          check_i64 now ;;
          insert_revision id revision ;;
          put_idempotency (bs "register") request fingerprint id now ;;
          for_each (fun digest => add_artifact_ref digest (bs "revision") id) (function_spec_artifacts spec) ;;
          mret revision
      end
  end.

Definition get_revision (id : bytes) : tx Db FunctionRevision := revision_by_id id.

(** The record with another availability, and with another snapshot. *)
Definition with_unavailable (l : list SecretRef) (r : FunctionRevision) : FunctionRevision :=
  mkFunctionRevision (rv_ref r) (rv_spec r) (rv_created r) (rv_digest r)
    (match l with [] => RevisionReady | _ => RevisionUnavailable end) l (rv_snapshot r).
Definition with_snapshot (s : option FunctionSnapshotRecord) (r : FunctionRevision) : FunctionRevision :=
  mkFunctionRevision (rv_ref r) (rv_spec r) (rv_created r) (rv_digest r) (rv_status r) (rv_unavailable r) s.

Definition set_revision_availability (id : bytes) (unavailable : list SecretRef) : tx Db FunctionRevision :=
  revision ← revision_by_id id;
  declared ← lift (ok_or (sp_secrets <$> rv_spec revision) Engine);
  require (forallb (fun s => bool_decide (s ∈ declared)) unavailable) Invalid ;;
  let value := with_unavailable unavailable revision in
  set_revisions (alter (fun _ => value) id) ;;
  mret value.

Definition put_function_snapshot (fresh : bytes) (s : FunctionSnapshotRecord) : tx Reg FunctionSnapshotRecord :=
  ref ← lift (ok_or (sn_revision s) Invalid);
  digest ← lift (ok_or (artifact_ref_digest (sn_artifact s)) Invalid);
  require (negb (sn_protocol s =? 0)) Invalid ;;
  revision ← on_db (revision_by_id (rf_id ref));
  require (bool_decide (rv_ref revision = Some ref)) Invalid ;;
  let id := match sn_id s with Some [] | None => fresh | Some id => id end in
  let value := mkFunctionSnapshotRecord (Some id) (sn_revision s) (sn_artifact s) (sn_protocol s) (sn_created s) (sn_rest s) in
  check_i64 (sn_created s) ;;
  free function_snapshots id ;;
  set_snapshots (insert id (rf_id ref, value)) ;;
  on_db (add_artifact_ref digest (bs "function_snapshot") id) ;;
  on_db (set_revisions (alter (fun _ => with_snapshot (Some value) revision) (rf_id ref))) ;;
  mret value.

Definition detach_function_snapshot (id : bytes) : tx Reg () :=
  revision ← on_db (revision_by_id id);
  let snapshot_id := s ← rv_snapshot revision; sn_id s in
  on_db (set_revisions (alter (fun _ => with_snapshot None revision) id)) ;;
  match snapshot_id with
  | Some s => on_db (drop_refs (bs "function_snapshot") s) ;; set_snapshots (delete s)
  | None => mret tt
  end.

Definition get_function_snapshot (id : bytes) : tx Reg FunctionSnapshotRecord :=
  row ← read (fun r => function_snapshots r !! id); lift (ok_or (snd <$> row) NotFound).

Definition get_active_revision (f : FunctionRef) : tx Reg FunctionRevision :=
  current ← read (fun r => aliases r !! f);
  id ← lift (ok_or (fst <$> current) NotFound);
  on_db (revision_by_id id).

Definition check_expected_revision (current : option bytes) (expected : option RevisionRef) : result store_error () :=
  match expected with Some e => if bool_decide (current = Some (rf_id e)) then Ok () else Err Busy | None => Ok () end.

Definition activate_function (rev : RevisionRef) (expected : option RevisionRef) (now : Z) : tx Reg FunctionRecord :=
  f ← lift (ok_or (rf_function rev) Invalid);
  stored ← on_db (revision_by_id (rf_id rev));
  require (bool_decide ((rf ← rv_ref stored; rf_function rf) = Some f)) Invalid ;;
  current ← read (fun r => fst <$> aliases r !! f);
  lift (check_expected_revision current expected) ;;
  check_i64 now ;;
  set_aliases (insert f (rf_id rev, now)) ;;
  mret (mkFunctionRecord (Some f) (Some rev) now).

(** Whether an alias, a member of an app, a call or an actor refers to the revision. *)
Definition revision_referenced (id : bytes) (r : Reg) : bool :=
  existsb (fun kv => bool_decide (fst (snd kv) = id)) (map_to_list (aliases r))
  || existsb (fun kv => bool_decide (snd kv = id)) (map_to_list (app_members r))
  || existsb (fun kv => bool_decide (revision_id (call (snd kv)) = id)) (map_to_list (calls (db r)))
  || existsb (fun kv => bool_decide (rf_id <$> ar_function (a_record (snd kv)) = Some id)) (map_to_list (actors (db r))).

(** The foreign key of the checkpoints. *)
Definition checkpoint_refers (id : bytes) (d : Db) : bool :=
  existsb (fun kv => bool_decide (rf_id <$> ck_function (snd kv) = Some id)) (map_to_list (checkpoints d)).

Definition delete_revision (rev : RevisionRef) : tx Reg () :=
  let id := rf_id rev in
  stored ← on_db (revision_by_id id);
  require (bool_decide ((rf ← rv_ref stored; rf_function rf) = rf_function rev)) Invalid ;;
  referenced ← read (revision_referenced id);
  require (negb referenced) Busy ;;
  ids ← read (fun r => map fst (List.filter (fun kv => bool_decide (fst (snd kv) = id)) (map_to_list (function_snapshots r))));
  for_each (fun s => on_db (drop_refs (bs "function_snapshot") s)) ids ;;
  set_snapshots (filter (fun kv => fst (snd kv) <> id)) ;;
  on_db (drop_refs (bs "revision") id) ;;
  held ← read (fun r => checkpoint_refers id (db r));
  require (negb held) Sql ;;
  on_db (set_revisions (delete id)).

(** ** Apps *)

Definition app_revision_by_id (id : bytes) : tx Reg AppRevision :=
  a ← read (fun r => app_revisions r !! id); lift (ok_or a NotFound).

Definition check_expected_app (current : option bytes) (expected : option AppRevisionRef) : result store_error () :=
  match expected with Some e => if bool_decide (current = Some (af_id e)) then Ok () else Err Busy | None => Ok () end.

(** [sort_by] the names. *)
Definition name_leq (a b : AppFunctionBinding) : Prop := bytes_leb (bd_name a) (bd_name b) = true.
#[global] Instance name_leq_dec a b : Decision (name_leq a b).
Proof. unfold name_leq. apply _. Defined.

Fixpoint repeated_name (l : list AppFunctionBinding) : bool :=
  match l with
  | a :: (b :: _) as l' => bool_decide (bd_name a = bd_name b) || repeated_name l'
  | _ => false
  end.

(** [INSERT INTO app_members]. *)
Definition insert_member (id : bytes) (b : AppFunctionBinding) : tx Reg () :=
  r ← lift (ok_or (bd_revision b) Engine);
  free app_members (id, bd_name b) ;;
  set_app_members (insert (id, bd_name b) (rf_id r)).

Definition activate_app (fingerprint id : bytes) (r : ActivateAppRequest) (now : Z) : tx Reg AppRevision :=
  app ← lift (ok_or (aa_app r) Invalid);
  lift (validate_name (fst app)) ;;
  lift (validate_name (snd app)) ;;
  let bindings := merge_sort name_leq (aa_functions r) in
  require (negb (repeated_name bindings)) Invalid ;;
  found ← on_db (idempotent_resource (bs "activate_app") (aa_request_id r) fingerprint);
  match found with
  | Some resource => app_revision_by_id resource
  | None =>
      for_each (fun b => rev ← lift (ok_or (bd_revision b) Invalid); on_db (revision_by_id (rf_id rev)) ;; mret tt) bindings ;;
      current ← read (fun r => fst <$> app_aliases r !! app);
      lift (check_expected_app current (aa_expected r)) ;;
      let value := mkAppRevision (Some (mkAppRevisionRef (Some app) id)) bindings (digest_bindings bindings) now
                     (mkAppRevisionRef (Some app) <$> current) in
      check_i64 now ;;
      free app_revisions id ;;
      set_app_revisions (insert id value) ;;
      for_each (insert_member id) bindings ;;
      set_app_aliases (insert app (id, now)) ;;
      on_db (put_idempotency (bs "activate_app") (aa_request_id r) fingerprint id now) ;;
      mret value
  end.

Definition rollback_app (fingerprint : bytes) (r : RollbackAppRequest) (now : Z) : tx Reg AppRevision :=
  target ← lift (ok_or (rb_target r) Invalid);
  app ← lift (ok_or (af_app target) Invalid);
  found ← on_db (idempotent_resource (bs "rollback_app") (rb_request_id r) fingerprint);
  match found with
  | Some resource => app_revision_by_id resource
  | None =>
      value ← app_revision_by_id (af_id target);
      require (bool_decide ((rf ← ap_ref value; af_app rf) = Some app)) Invalid ;;
      current ← read (fun r => fst <$> app_aliases r !! app);
      lift (check_expected_app current (rb_expected r)) ;;
      check_i64 now ;;
      set_app_aliases (alter (fun _ => (af_id target, now)) app) ;;
      on_db (put_idempotency (bs "rollback_app") (rb_request_id r) fingerprint (af_id target) now) ;;
      mret value
  end.

Definition get_app_revision (id : bytes) : tx Reg AppRevision := app_revision_by_id id.

Definition get_active_app (app : AppRef) : tx Reg AppRevision :=
  current ← read (fun r => app_aliases r !! app);
  id ← lift (ok_or (fst <$> current) NotFound);
  app_revision_by_id id.

End registry.
