(* ===== verification/RegistryRuns.v ===== *)
(** The registry of the function store after any sequence of operations: every reference resolves, published revisions are
    immutable, and an app changes its current revision by compare-and-swap only. *)

From S2P Require Import Prelude Decimal F64 StoreTables StoreSpecs StoreCalls StoreOutcomes StoreInvariant StoreRuns StoreActors StoreRefs StoreRegistry.

Section runs.
Context `{Prost} `{Encoder}.

(** ** Operations *)

Inductive reg_op : Type :=
  | RgRegister (id : bytes) (s : FunctionSpec) (request : bytes)
  | RgAvailability (id : bytes) (unavailable : list SecretRef)
  | RgSnapshot (fresh : bytes) (s : FunctionSnapshotRecord)
  | RgDetach (id : bytes)
  | RgActivate (rev : RevisionRef) (expected : option RevisionRef)
  | RgDelete (rev : RevisionRef)
  | RgActivateApp (fingerprint id : bytes) (r : ActivateAppRequest)
  | RgRollback (fingerprint : bytes) (r : RollbackAppRequest)
  | RgCall (op : store_op)
  | RgActor (op : actor_op).

Definition run_reg (op : reg_op) (now : Z) : tx Reg () :=
  match op with
  | RgRegister id s q => on_db (register_function id s q now) ;; mret tt
  | RgAvailability id l => on_db (set_revision_availability id l) ;; mret tt
  | RgSnapshot fresh s => put_function_snapshot fresh s ;; mret tt
  | RgDetach id => detach_function_snapshot id
  | RgActivate rev e => activate_function rev e now ;; mret tt
  | RgDelete rev => delete_revision rev
  | RgActivateApp fp id q => activate_app fp id q now ;; mret tt
  | RgRollback fp q => rollback_app fp q now ;; mret tt
  | RgCall op => on_db (run op now) ;; mret tt
  | RgActor op => on_db (run_actor op now) ;; mret tt
  end.

(** ** The invariant *)

(** A revision that was registered under [id]. *)
Definition revision_ok (id : bytes) (v : FunctionRevision) : Prop := exists f spec,
  rv_ref v = Some (mkRevisionRef (Some f) id) /\ rv_spec v = Some spec /\ sp_function spec = Some f /\ rv_digest v = canonical_spec_digest spec.

Definition alias_ok (r : Reg) (f : FunctionRef) (id : bytes) : Prop :=
  exists v, revisions (db r) !! id = Some v /\ rv_ref v = Some (mkRevisionRef (Some f) id).

(** A published app revision: its bindings are its members, and the one before it is of the same app. *)
Definition app_ok (r : Reg) (id : bytes) (a : AppRevision) : Prop := exists app,
  ap_ref a = Some (mkAppRevisionRef (Some app) id) /\
  (forall b, b ∈ ap_functions a -> exists rv, bd_revision b = Some rv /\ app_members r !! (id, bd_name b) = Some (rf_id rv)) /\
  (forall p, ap_previous a = Some p -> af_app p = Some app /\ exists q, app_revisions r !! af_id p = Some q /\ ap_ref q = Some p).

Record reg_ok (r : Reg) : Prop := mkRegOk {
  go_refs : refs_ok (db r);
  go_revision id v : revisions (db r) !! id = Some v -> revision_ok id v;
  go_digest id id' v v' : revisions (db r) !! id = Some v -> revisions (db r) !! id' = Some v' -> rv_digest v = rv_digest v' -> id = id';
  go_alias f id t : aliases r !! f = Some (id, t) -> alias_ok r f id;
  go_row s id x : function_snapshots r !! s = Some (id, x) -> is_Some (revisions (db r) !! id) /\ sn_id x = Some s /\ rf_id <$> sn_revision x = Some id;
  go_snapshot id v x : revisions (db r) !! id = Some v -> rv_snapshot v = Some x ->
    exists s, sn_id x = Some s /\ function_snapshots r !! s = Some (id, x);
  go_app id a : app_revisions r !! id = Some a -> app_ok r id a;
  go_member k id : app_members r !! k = Some id -> is_Some (revisions (db r) !! id) /\ is_Some (app_revisions r !! fst k);
  go_app_alias app id t : app_aliases r !! app = Some (id, t) -> exists a, app_revisions r !! id = Some a /\ ap_ref a = Some (mkAppRevisionRef (Some app) id) }.

(** What lasts: app revisions for ever, and the identity of a revision as long as it is stored. *)
Record reg_le (r r' : Reg) : Prop := mkRegLe {
  rg_apps : app_revisions r ⊆ app_revisions r';
  rg_revisions id v v' : revisions (db r) !! id = Some v -> revisions (db r') !! id = Some v' ->
    rv_ref v' = rv_ref v /\ rv_spec v' = rv_spec v /\ rv_created v' = rv_created v /\ rv_digest v' = rv_digest v;
  rg_kept id v : revisions (db r) !! id = Some v -> revisions (db r') !! id = None -> revision_referenced id r = false }.

Definition keeps_reg {A} (m : tx Reg A) : Prop := forall r, reg_ok r -> post m r (fun _ r' => reg_ok r' /\ reg_le r r').

Lemma reg_le_refl r : reg_le r r.
Proof. split; [done|naive_solver|congruence]. Qed.

Lemma post_on_db {A} (m : tx Db A) r (Q : A -> Reg -> Prop) :
  post m (db r) (fun x d => Q x (mkReg d (aliases r) (function_snapshots r) (app_revisions r) (app_members r) (app_aliases r))) -> post (on_db m) r Q.
Proof. unfold post, on_db. by destruct (m (db r)) as [[x d]|e]. Qed.

Lemma keeps_reg_then {A B} (m : tx Reg A) (k : A -> B) : keeps_reg m -> keeps_reg (x ← m; mret (k x)).
Proof. intros Hm r Hok. apply post_bind. eapply post_mono; [by apply Hm|]. cbv beta. intros x r' Hr. by apply post_ret. Qed.

(** The same revisions, and tables that keep their references. *)
Lemma same_revisions_ok r d : reg_ok r -> refs_ok d -> revisions d = revisions (db r) ->
  let r' := mkReg d (aliases r) (function_snapshots r) (app_revisions r) (app_members r) (app_aliases r) in reg_ok r' /\ reg_le r r'.
Proof.
  intros [G1 G2 G3 G4 G5 G6 G7 G8 G9] Hd Hr r'. split.
  - split; unfold alias_ok, app_ok in *; cbn; rewrite ?Hr; assumption.
  - split; cbn; rewrite ?Hr; [done|naive_solver|congruence].
Qed.

Lemma on_db_refs {A} (m : tx Db A) : keeps_refs m -> keeps_reg (on_db m).
Proof.
  intros Hm r Hok. apply post_on_db. eapply post_mono; [apply Hm, (go_refs _ Hok)|]. cbv beta. intros x d [Hd Hr]. by apply same_revisions_ok.
Qed.

(** ** Functions *)

(** The identity of a revision. *)
Definition same_identity (v v' : FunctionRevision) : Prop :=
  rv_ref v' = rv_ref v /\ rv_spec v' = rv_spec v /\ rv_created v' = rv_created v /\ rv_digest v' = rv_digest v.

Definition rows_ok (m : gmap bytes FunctionRevision) (ss : gmap bytes (bytes * FunctionSnapshotRecord)) : Prop :=
  (forall s id x, ss !! s = Some (id, x) -> is_Some (m !! id) /\ sn_id x = Some s /\ rf_id <$> sn_revision x = Some id) /\
  (forall id v x, m !! id = Some v -> rv_snapshot v = Some x -> exists s, sn_id x = Some s /\ ss !! s = Some (id, x)).

Definition digests_apart (m : gmap bytes FunctionRevision) : Prop :=
  forall id id' v v', m !! id = Some v -> m !! id' = Some v' -> rv_digest v = rv_digest v' -> id = id'.

Lemma grow_revisions r d ss :
  reg_ok r -> calls d = calls (db r) -> actors d = actors (db r) -> checkpoints d = checkpoints (db r) ->
  (forall id v, revisions (db r) !! id = Some v -> exists v', revisions d !! id = Some v' /\ same_identity v v') ->
  (forall id v, revisions d !! id = Some v -> revision_ok id v) -> digests_apart (revisions d) -> rows_ok (revisions d) ss ->
  let r' := mkReg d (aliases r) ss (app_revisions r) (app_members r) (app_aliases r) in reg_ok r' /\ reg_le r r'.
Proof.
  intros [[C A K] G2 G3 G4 G5 G6 G7 G8 G9] Hc Ha Hk Hold Hrev Hdig [Hrow Hsnap] r'.
  assert (forall id, is_Some (revisions (db r) !! id) -> is_Some (revisions d !! id)) as Hs.
  { intros id [v Hv]. destruct (Hold id v Hv) as (v' & Hv' & _). by exists v'. }
  split.
  - split; unfold alias_ok, app_ok in *; cbn; try assumption.
    + split; rewrite ?Hc, ?Ha, ?Hk; [eauto|intros id a Hid; destruct (A id a Hid) as (f & Hf & Hr); eauto|].
      intros id k Hid. destruct (K id k Hid) as (f & Hf & Hr). eauto.
    + intros f id t Hf. destruct (G4 f id t Hf) as (v & Hv & Hr). destruct (Hold id v Hv) as (v' & Hv' & Hi & _). exists v'. split; [done|congruence].
    + intros k id Hid. destruct (G8 k id Hid) as [Hr Hp]. auto.
  - split; cbn; [done| |].
    + intros id v v' Hv Hv'. destruct (Hold id v Hv) as (v2 & Hv2 & Hi). by simplify_eq.
    + intros id v Hv Hn. destruct (Hold id v Hv) as (v2 & Hv2 & _). congruence.
Qed.

(** The record of one revision changes, but not its identity. *)
Lemma update_revision r d ss id v v' :
  reg_ok r -> calls d = calls (db r) -> actors d = actors (db r) -> checkpoints d = checkpoints (db r) ->
  revisions (db r) !! id = Some v -> revisions d = <[id := v']> (revisions (db r)) -> same_identity v v' ->
  rows_ok (revisions d) ss ->
  let r' := mkReg d (aliases r) ss (app_revisions r) (app_members r) (app_aliases r) in reg_ok r' /\ reg_le r r'.
Proof.
  intros Hok Hc Ha Hk Hv Hd Hi Hrows. apply grow_revisions; try assumption; rewrite ?Hd.
  - intros id2 v2 Hv2. destruct (decide (id = id2)) as [<-|Hne].
    + exists v'. rewrite lookup_insert_eq. by simplify_eq.
    + exists v2. by rewrite lookup_insert_ne.
  - intros id2 v2. rewrite lookup_insert_Some. intros [[<- <-]|[_ Hv2]]; [|by apply (go_revision _ Hok)].
    destruct (go_revision _ Hok _ _ Hv) as (f & spec & Hx). destruct Hi as (H1 & H2 & H3 & H4). exists f, spec. by rewrite H1, H2, H4.
  - intros i j vi vj. rewrite !lookup_insert_Some. destruct Hi as (_ & _ & _ & H4). intros [[<- <-]|[Hni Hvi]] [[<- <-]|[Hnj Hvj]] He;
      [done|..]; eapply (go_digest _ Hok); [exact Hv|exact Hvj|congruence|exact Hvi|exact Hv|congruence|exact Hvi|exact Hvj|done].
Qed.

Lemma alter_known {A} (f : A -> A) (m : gmap bytes A) id v : m !! id = Some v -> alter f id m = <[id := f v]> m.
Proof.
  intros Hv. apply map_eq. intros j. destruct (decide (id = j)) as [<-|Hne].
  - by rewrite lookup_alter_eq, Hv, lookup_insert_eq.
  - by rewrite lookup_alter_ne, lookup_insert_ne.
Qed.

Lemma reg_rows r : reg_ok r -> rows_ok (revisions (db r)) (function_snapshots r).
Proof. intros Hok. split; [apply (go_row _ Hok)|apply (go_snapshot _ Hok)]. Qed.

(** The record of a revision changes, with a table of snapshots that has those of the others. *)
Lemma rows_update m ss ss' id v' :
  is_Some (m !! id) -> rows_ok m ss ->
  (forall s i x, ss' !! s = Some (i, x) -> ss !! s = Some (i, x) \/ (i = id /\ sn_id x = Some s /\ rf_id <$> sn_revision x = Some i)) ->
  (forall s i x, i <> id -> ss !! s = Some (i, x) -> ss' !! s = Some (i, x)) ->
  (forall x, rv_snapshot v' = Some x -> exists s, sn_id x = Some s /\ ss' !! s = Some (id, x)) ->
  rows_ok (<[id := v']> m) ss'.
Proof.
  intros Hid [Hrow Hsnap] Hnew Hold Hv. split.
  - intros s i x Hx. destruct (Hnew s i x Hx) as [Ho|(-> & Hs & Hr)].
    + destruct (Hrow _ _ _ Ho) as (Hi & Hs & Hr). split_and!; [|done..]. rewrite lookup_insert_is_Some'. auto.
    + split_and!; [|done..]. rewrite lookup_insert_eq. by eexists.
  - intros i w x. rewrite lookup_insert_Some. intros [[<- <-]|[Hne Hw]] Hx; [by apply Hv|].
    destruct (Hsnap i w x Hw Hx) as (s & Hs & Hi). exists s. split; [done|]. by apply Hold.
Qed.

Lemma availability_keeps id l : keeps_reg (on_db (set_revision_availability id l)).
Proof.
  intros r Hok. apply post_on_db. unfold set_revision_availability, set_revisions. apply post_bind, revision_by_id_stored. intros v Hv. tx_steps.
  eapply (update_revision r _ _ id v (with_unavailable l v)); try done; cbn.
  - by rewrite (alter_known _ _ _ _ Hv).
  - rewrite (alter_known _ _ _ _ Hv). eapply rows_update; [by eexists|by apply reg_rows|auto..]. intros y Hy. by eapply (go_snapshot _ Hok).
Qed.

Lemma free_spec {K A} `{Countable K} (table : Reg -> gmap K A) k r (Q : () -> Reg -> Prop) :
  (table r !! k = None -> Q tt r) -> post (free table k) r Q.
Proof.
  intros HQ. unfold free. tx_steps. apply HQ. apply negb_true_iff, bool_decide_eq_false in Hr. by apply eq_None_not_Some.
Qed.

Lemma snapshot_keeps fresh x : keeps_reg (put_function_snapshot fresh x).
Proof.
  intros r Hok. unfold put_function_snapshot, set_snapshots, set_revisions, add_artifact_ref, set_refs.
  apply post_bind, post_lift. intros ref Href. apply post_bind, post_lift. intros digest _. apply post_bind, post_require. intros _.
  apply post_bind, post_on_db, revision_by_id_stored. intros v Hv. tx_steps. apply free_spec. intros Hfree. tx_steps.
  repeat (apply post_on_db; tx_steps). cbn in *.
  set (sid := match sn_id x with Some [] | None => fresh | Some id => id end) in *.
  set (value := mkFunctionSnapshotRecord (Some sid) _ _ _ _ _).
  eapply (update_revision r _ _ (rf_id ref) v (with_snapshot (Some value) v)); try done; cbn.
  - by rewrite (alter_known _ _ _ _ Hv).
  - rewrite (alter_known _ _ _ _ Hv). eapply rows_update; [by eexists|by apply reg_rows|..].
    + intros s i y. rewrite lookup_insert_Some. intros [[<- [= <- <-]]|[_ Hy]]; [right|by left]. split_and!; [done..|].
      cbn. by destruct (sn_revision x); simplify_eq/=.
    + intros s i y _ Hy. rewrite lookup_insert_ne by congruence. done.
    + intros y [= <-]. exists sid. by rewrite lookup_insert_eq.
Qed.

Lemma detach_keeps id : keeps_reg (detach_function_snapshot id).
Proof.
  intros r Hok. unfold detach_function_snapshot, set_snapshots, set_revisions, drop_refs, set_refs.
  apply post_bind, post_on_db, revision_by_id_stored. intros v Hv. tx_steps. apply post_on_db. tx_steps.
  destruct (rv_snapshot v) as [x|] eqn:Ex.
  - destruct (go_snapshot _ Hok _ _ _ Hv Ex) as (s & Hs & Hrow). cbn. rewrite Hs. cbn. tx_steps. apply post_on_db. tx_steps. cbn.
    eapply (update_revision r _ _ id v (with_snapshot None v)); try done; cbn; rewrite (alter_known _ _ _ _ Hv); [done|].
    eapply rows_update; [by eexists|by apply reg_rows|..]; [|..|done].
    + intros s2 i y. rewrite lookup_delete_Some. intros [_ Hy]. by left.
    + intros s2 i y Hne Hy. rewrite lookup_delete_ne by congruence. done.
  - cbn. tx_steps. eapply (update_revision r _ _ id v (with_snapshot None v)); try done; cbn; rewrite (alter_known _ _ _ _ Hv); [done|].
    eapply rows_update; [by eexists|by apply reg_rows|auto..|done].
Qed.

(** Statements on idempotency and artifacts. *)
Definition same_tables (d d' : Db) : Prop :=
  calls d' = calls d /\ actors d' = actors d /\ checkpoints d' = checkpoints d /\ revisions d' = revisions d.

Lemma same_tables_trans d1 d2 d3 : same_tables d1 d2 -> same_tables d2 d3 -> same_tables d1 d3.
Proof. unfold same_tables. intuition congruence. Qed.

Lemma put_idempotency_tables s r f x now d (Q : () -> Db -> Prop) :
  (forall d', same_tables d d' -> Q tt d') -> post (put_idempotency s r f x now) d Q.
Proof. intros HQ. unfold put_idempotency, set_idempotency. case_bool_decide; tx_steps; apply HQ; repeat split. Qed.

Lemma idempotent_reads s r f d (Q : option bytes -> Db -> Prop) : (forall x, Q x d) -> post (idempotent_resource s r f) d Q.
Proof.
  intros HQ. unfold idempotent_resource. case_bool_decide; tx_steps; [apply HQ|].
  destruct (idempotency d !! (s, r)) as [[e i]|]; [|tx_steps; apply HQ]. case_bool_decide; tx_steps. apply HQ.
Qed.

Lemma refs_tables k o l d (Q : () -> Db -> Prop) :
  (forall d', same_tables d d' -> Q tt d') -> post (for_each (fun digest => add_artifact_ref digest k o) l) d Q.
Proof.
  revert d. induction l as [|x l IH]; intros d HQ; cbn [for_each]; tx_steps; [apply HQ; repeat split|]. unfold add_artifact_ref, set_refs. tx_steps.
  apply IH. intros d' Hd. apply HQ. eapply same_tables_trans; [|exact Hd]. repeat split.
Qed.

Lemma same_tables_ok r d : reg_ok r -> same_tables (db r) d ->
  let r' := mkReg d (aliases r) (function_snapshots r) (app_revisions r) (app_members r) (app_aliases r) in reg_ok r' /\ reg_le r r'.
Proof.
  intros Hok (Hc & Ha & Hk & Hr). apply same_revisions_ok; [done| |done].
  destruct (refs_same (db r) d) as [Hd _]; [done..|by apply go_refs|done].
Qed.

(** No revision has the digest. *)
Lemma no_digest digest d :
  snd <$> head (List.filter (fun kv : bytes * FunctionRevision => bool_decide (rv_digest (snd kv) = digest)) (map_to_list (revisions d))) = None ->
  forall id v, revisions d !! id = Some v -> rv_digest v <> digest.
Proof.
  intros Hn id v Hv Hd. assert (In (id, v) (List.filter (fun kv => bool_decide (rv_digest (snd kv) = digest)) (map_to_list (revisions d)))) as Hin.
  { apply filter_In. split; [by apply list_elem_of_In, elem_of_map_to_list|]. by apply bool_decide_eq_true. }
  by destruct (List.filter _ _).
Qed.

Lemma register_keeps id s q now : keeps_reg (on_db (register_function id s q now)).
Proof.
  intros r Hok. apply post_on_db. unfold register_function. tx_steps. apply idempotent_reads. intros [known|]; tx_steps.
  { apply revision_by_id_stored. intros v _. apply same_tables_ok; [done|repeat split]. }
  unfold revision_by_digest at 1. tx_steps. destruct (snd <$> _) as [old|] eqn:Eold; tx_steps.
  { apply put_idempotency_tables. intros d Hd. tx_steps. by apply same_tables_ok. }
  unfold insert_revision, set_revisions, revision_by_digest. tx_steps. apply put_idempotency_tables. intros d1 Hd1. tx_steps.
  apply refs_tables. intros d2 Hd2. tx_steps. apply andb_true_iff in Hr as [Hfree _]. apply negb_true_iff, bool_decide_eq_false, eq_None_not_Some in Hfree.
  pose proof (same_tables_trans _ _ _ Hd1 Hd2) as (Hc & Ha & Hk & Hr). cbn in Hc, Ha, Hk, Hr. clear Hd1 Hd2.
  match type of Hr with revisions d2 = <[_ := ?v]> _ => set (value := v) in * end.
  assert (forall i v, i <> id -> revisions (db r) !! i = Some v -> rv_digest v <> rv_digest value) as Hdig.
  { intros i v _ Hv. by apply (no_digest _ _ Eold i). }
  apply grow_revisions; try done; rewrite ?Hr.
  - intros i v Hv. exists v. rewrite lookup_insert_ne by congruence. split; [done|by split_and!].
  - intros i v. rewrite lookup_insert_Some. intros [[<- <-]|[_ Hv]]; [|by apply (go_revision _ Hok)].
    eexists _, _. split_and!; [reflexivity|reflexivity| |reflexivity].
    match goal with Hf : ok_or (sp_function _) _ = Ok _ |- _ => by destruct (sp_function (resolve_function_defaults s)); simplify_eq/= end.
  - intros i j vi vj. rewrite !lookup_insert_Some. intros [[<- <-]|[Hni Hvi]] [[<- <-]|[Hnj Hvj]] He; [done| | |by eapply (go_digest _ Hok)].
    + by destruct (Hdig j vj).
    + by destruct (Hdig i vi).
  - split.
    + intros t i y Hy. destruct (go_row _ Hok _ _ _ Hy) as (Hi & Hn & Hv). split_and!; [|done..]. rewrite lookup_insert_is_Some'. auto.
    + intros i v y. rewrite lookup_insert_Some. intros [[<- <-]|[_ Hv]] Hy; [done|by eapply (go_snapshot _ Hok)].
Qed.

Lemma activate_keeps rev e now : keeps_reg (activate_function rev e now).
Proof.
  intros r Hok. unfold activate_function, set_aliases. apply post_bind, post_lift. intros f Hf. apply post_bind, post_on_db, revision_by_id_stored.
  intros v Hv. tx_steps. destruct (go_revision _ Hok _ _ Hv) as (g & spec & Href & _). apply bool_decide_eq_true in Hr. rewrite Href in Hr. cbn in Hr.
  injection Hr as ->. split; [|split; [done|naive_solver|cbn; congruence]].
  destruct r as [d al ss ar am aa]. destruct Hok as [G1 G2 G3 G4 G5 G6 G7 G8 G9]. split; unfold alias_ok, app_ok in *; cbn in *; try assumption.
  intros f2 id t. rewrite lookup_insert_Some. intros [[<- [= <- <-]]|[_ Hf2]]; [|by eapply G4]. by exists v.
Qed.

Lemma unreferenced id r : revision_referenced id r = false ->
  (forall f t, aliases r !! f <> Some (id, t)) /\ (forall k, app_members r !! k <> Some id) /\
  (forall i c, calls (db r) !! i = Some c -> revision_id (call c) <> id) /\
  (forall i a, actors (db r) !! i = Some a -> rf_id <$> ar_function (a_record a) <> Some id).
Proof.
  unfold revision_referenced. rewrite !orb_false_iff. intros [[[H1 H2] H3] H4].
  assert (forall K A `{Countable K} (m : gmap K A) (p : K * A -> bool) k x,
            existsb p (map_to_list m) = false -> m !! k = Some x -> p (k, x) = false) as Hno.
  { intros K A ? ? m p k x He Hx. apply not_true_iff_false. intros Hp. apply not_true_iff_false in He. apply He, existsb_exists. exists (k, x).
    split; [by apply list_elem_of_In, elem_of_map_to_list|done]. }
  split_and!.
  - intros f t Hf. apply (Hno _ _ _ _ _ _ _ _ H1) in Hf. by apply bool_decide_eq_false in Hf.
  - intros k Hk. apply (Hno _ _ _ _ _ _ _ _ H2) in Hk. by apply bool_decide_eq_false in Hk.
  - intros i c Hc. apply (Hno _ _ _ _ _ _ _ _ H3) in Hc. by apply bool_decide_eq_false in Hc.
  - intros i a Ha. apply (Hno _ _ _ _ _ _ _ _ H4) in Ha. by apply bool_decide_eq_false in Ha.
Qed.

Lemma no_checkpoint id d : checkpoint_refers id d = false -> forall i k, checkpoints d !! i = Some k -> rf_id <$> ck_function k <> Some id.
Proof.
  unfold checkpoint_refers. intros He i k Hk Hf. apply not_true_iff_false in He. apply He, existsb_exists. exists (i, k).
  split; [by apply list_elem_of_In, elem_of_map_to_list|]. by apply bool_decide_eq_true.
Qed.

(** The tables after a deletion. *)
Lemma delete_ok r d id :
  reg_ok r -> calls d = calls (db r) -> actors d = actors (db r) -> checkpoints d = checkpoints (db r) -> revisions d = delete id (revisions (db r)) ->
  revision_referenced id r = false -> checkpoint_refers id (db r) = false ->
  let r' := mkReg d (aliases r) (filter (fun kv => fst (snd kv) <> id) (function_snapshots r)) (app_revisions r) (app_members r) (app_aliases r) in
  reg_ok r' /\ reg_le r r'.
Proof.
  intros [[C A K] G2 G3 G4 G5 G6 G7 G8 G9] Hc Ha Hk Hr Hun Hck r'. destruct (unreferenced _ _ Hun) as (U1 & U2 & U3 & U4).
  pose proof (no_checkpoint _ _ Hck) as U5.
  assert (forall i, i <> id -> revisions d !! i = revisions (db r) !! i) as Hne by (intros i Hi; rewrite Hr; by apply lookup_delete_ne).
  split.
  - split; unfold alias_ok, app_ok in *; cbn; try assumption.
    + split; rewrite ?Hc, ?Ha, ?Hk.
      * intros i c Hi. rewrite Hne by (by eapply U3). by eapply C.
      * intros i a Hi. destruct (A i a Hi) as (f & Hf & Hs). exists f. split; [done|]. rewrite Hne; [done|]. intros He. apply (U4 i a Hi). rewrite Hf. cbn. by rewrite He.
      * intros i k Hi. destruct (K i k Hi) as (f & Hf & Hs). exists f. split; [done|]. rewrite Hne; [done|]. intros He. apply (U5 i k Hi). rewrite Hf. cbn. by rewrite He.
    + intros i v. rewrite Hr, lookup_delete_Some. intros [_ Hv]. by apply G2.
    + intros i j vi vj. rewrite Hr, !lookup_delete_Some. intros [_ Hi] [_ Hj]. by eapply G3.
    + intros f i t Hf. destruct (G4 f i t Hf) as (v & Hv & Hx). exists v. rewrite Hne; [done|]. intros ->. by eapply U1.
    + intros s i x. rewrite map_lookup_filter_Some. cbn. intros [Hx Hi]. rewrite Hne by done. by apply G5.
    + intros i v x. rewrite Hr, lookup_delete_Some. intros [Hi Hv] Hx. destruct (G6 i v x Hv Hx) as (s & Hs & Hrow). exists s.
      split; [done|]. by rewrite map_lookup_filter_Some.
    + intros k i Hi. destruct (G8 k i Hi) as [Hs Hp]. split; [|done]. rewrite Hne; [done|]. intros ->. by eapply U2.
  - split; cbn; [done| |].
    + intros i v v'. rewrite Hr, lookup_delete_Some. intros Hv [_ Hv']. naive_solver.
    + intros i v Hv. rewrite Hr. intros Hn. destruct (decide (id = i)) as [<-|Hd]; [done|]. rewrite lookup_delete_ne in Hn by done. congruence.
Qed.

Lemma drop_all_refs k ids r (Q : () -> Reg -> Prop) :
  (forall d, same_tables (db r) d -> Q tt (mkReg d (aliases r) (function_snapshots r) (app_revisions r) (app_members r) (app_aliases r))) ->
  post (for_each (fun s => on_db (drop_refs k s)) ids) r Q.
Proof.
  revert r. induction ids as [|s ids IH]; intros r HQ; cbn [for_each]; tx_steps.
  { destruct r. apply HQ. repeat split. }
  apply post_on_db. unfold drop_refs, set_refs. tx_steps. apply IH. intros d Hd. cbn. apply HQ. eapply same_tables_trans; [|exact Hd]. repeat split.
Qed.

Lemma delete_keeps rev : keeps_reg (delete_revision rev).
Proof.
  intros r Hok. unfold delete_revision. apply post_bind, post_on_db, revision_by_id_stored. intros v Hv. tx_steps.
  apply drop_all_refs. intros d1 (Hc & Ha & Hk & Hr1). unfold set_snapshots, drop_refs, set_refs, set_revisions. tx_steps. apply post_on_db. tx_steps.
  apply post_on_db. tx_steps. cbn in *. apply negb_true_iff in Hr0, Hr2.
  apply delete_ok; cbn; try done; [by rewrite Hr1|]. unfold checkpoint_refers in *. cbn in Hr2. by rewrite Hk in Hr2.
Qed.

(** ** Apps *)

(** The bindings that were checked. *)
Definition bindings_stored (d : Db) (l : list AppFunctionBinding) : Prop :=
  forall b, b ∈ l -> exists rv, bd_revision b = Some rv /\ is_Some (revisions d !! rf_id rv).

Lemma check_bindings l r (Q : () -> Reg -> Prop) :
  (bindings_stored (db r) l -> Q tt r) ->
  post (for_each (fun b => rev ← lift (ok_or (bd_revision b) Invalid); on_db (revision_by_id (rf_id rev)) ;; mret tt) l) r Q.
Proof.
  intros HQ. eapply post_mono; [apply (post_for_each _ (fun l' r' => r' = r /\ bindings_stored (db r) l'))|].
  - split; [done|]. intros b Hb. by apply elem_of_nil in Hb.
  - intros l' b after r0 _ [-> Hl]. tx_steps. apply post_on_db, revision_by_id_stored. intros v Hv. tx_steps. split; [by destruct r|].
    intros b' [Hb'|Hb']%elem_of_app; [by apply Hl|]. apply list_elem_of_singleton in Hb' as ->. exists x.
    split; [by destruct (bd_revision b); simplify_eq/=|by eexists].
  - cbv beta. intros [] r' [-> Hl]. by apply HQ.
Qed.

Definition with_members (m : gmap (bytes * bytes) bytes) (r : Reg) : Reg :=
  mkReg (db r) (aliases r) (function_snapshots r) (app_revisions r) m (app_aliases r).

(** The members that an app revision adds. *)
Definition adds_members (id : bytes) (l : list AppFunctionBinding) (m m' : gmap (bytes * bytes) bytes) : Prop :=
  forall k x, m' !! k = Some x <-> m !! k = Some x \/ exists b rv, b ∈ l /\ bd_revision b = Some rv /\ k = (id, bd_name b) /\ x = rf_id rv.

Lemma insert_members id l r (Q : () -> Reg -> Prop) :
  (forall m, adds_members id l (app_members r) m -> Q tt (with_members m r)) -> post (for_each (insert_member id) l) r Q.
Proof.
  intros HQ. eapply post_mono; [apply (post_for_each _ (fun l' r' => exists m, r' = with_members m r /\ adds_members id l' (app_members r) m))|].
  - exists (app_members r). split; [by destruct r|]. intros k x. split; [by left|]. intros [Hk|(b & rv & Hb & _)]; [done|]. by apply elem_of_nil in Hb.
  - intros l' b after r0 _ (m & -> & Hm). unfold insert_member, set_app_members. tx_steps. apply free_spec. cbn. intros Hfree. tx_steps.
    eexists. split; [reflexivity|]. intros k y. rewrite lookup_insert_Some, (Hm k y).
    assert (bd_revision b = Some x) as Hb by (by destruct (bd_revision b); simplify_eq/=). split.
    + intros [[<- <-]|[_ [Hk|(b2 & rv & Hb2 & Hr)]]]; [right; exists b, x; set_solver|by left|]. right. exists b2, rv. set_solver.
    + intros [Hk|(b2 & rv & Hb2 & Hr & -> & ->)].
      * right. split; [|by left]. intros <-. rewrite (proj2 (Hm _ _) (or_introl Hk)) in Hfree. done.
      * apply elem_of_app in Hb2 as [Hb2|Hb2%list_elem_of_singleton]; [|subst b2; left; simplify_eq; done].
        right. split; [|right; eauto 10]. intros He. rewrite He in Hfree. pose proof (proj2 (Hm (id, bd_name b2) (rf_id rv))) as Hx.
        rewrite Hfree in Hx. discriminate Hx. right. eauto 10.
  - cbv beta. intros [] r' (m & -> & Hm). by apply HQ.
Qed.

Definition app_current (r : Reg) (app : AppRef) : option bytes := fst <$> app_aliases r !! app.

(** What publishing a revision does. *)
Record published (id : bytes) (q : ActivateAppRequest) (now : Z) (r : Reg) (app : AppRef) (r' : Reg) : Prop := mkPublished {
  pb_app : aa_app q = Some app;
  pb_expected e : aa_expected q = Some e -> app_current r app = Some (af_id e);
  pb_fresh : app_revisions r !! id = None;
  pb_stored : bindings_stored (db r) (merge_sort name_leq (aa_functions q));
  pb_revision : app_revisions r' = <[id := mkAppRevision (Some (mkAppRevisionRef (Some app) id)) (merge_sort name_leq (aa_functions q))
      (digest_bindings (merge_sort name_leq (aa_functions q))) now (mkAppRevisionRef (Some app) <$> app_current r app)]> (app_revisions r);
  pb_members : adds_members id (merge_sort name_leq (aa_functions q)) (app_members r) (app_members r');
  pb_alias : app_aliases r' = <[app := (id, now)]> (app_aliases r);
  pb_db : same_tables (db r) (db r');
  pb_aliases : aliases r' = aliases r;
  pb_snapshots : function_snapshots r' = function_snapshots r }.

Lemma check_expected_app_ok current expected u : check_expected_app current expected = Ok u -> forall e, expected = Some e -> current = Some (af_id e).
Proof. intros Hc e ->. cbn in Hc. by case_bool_decide. Qed.

Lemma app_revision_read id r (Q : AppRevision -> Reg -> Prop) : (forall a, app_revisions r !! id = Some a -> Q a r) -> post (app_revision_by_id id) r Q.
Proof. intros HQ. unfold app_revision_by_id. tx_steps. apply HQ. by destruct (app_revisions r !! id); simplify_eq/=. Qed.

Lemma activate_app_spec fp id q now r : post (activate_app fp id q now) r (fun _ r' => r' = r \/ exists app, published id q now r app r').
Proof.
  unfold activate_app. tx_steps. apply post_on_db, idempotent_reads. intros [known|]; tx_steps.
  { apply app_revision_read. intros a _. left. by destruct r. }
  apply check_bindings. cbn. intros Hb. tx_steps. apply free_spec. cbn. intros Hfree. unfold set_app_revisions. tx_steps.
  apply insert_members. cbn. intros m Hm. unfold set_app_aliases. tx_steps. apply post_on_db, put_idempotency_tables. cbn. intros d Hd. tx_steps. right.
  assert (aa_app q = Some x) as Happ by (by destruct (aa_app q); simplify_eq/=). exists x. split; cbn; try done.
  match goal with Hc : check_expected_app _ _ = _ |- _ => exact (check_expected_app_ok _ _ _ Hc) end.
Qed.

Lemma published_ok id q now r app r' : reg_ok r -> published id q now r app r' -> reg_ok r' /\ reg_le r r'.
Proof.
  intros Hok [P1 P2 P3 P4 P5 P6 P7 P8 P9 P10]. destruct (same_tables_ok r (db r') Hok P8) as [Hok2 [_ L2 L3]]. cbn in L2, L3.
  destruct Hok2 as [G1 G2 G3 G4 G5 G6 _ _ _]. cbn in *. pose proof (go_app _ Hok) as G7. pose proof (go_member _ Hok) as G8. pose proof (go_app_alias _ Hok) as G9.
  destruct P8 as (_ & _ & _ & Hr). assert (app_revisions r ⊆ app_revisions r') as Hsub by (rewrite P5; by apply insert_subseteq).
  split; [|split; [done|done|done]]. split; try assumption.
  - intros f i t. rewrite P9. apply G4.
  - rewrite P10. exact G5.
  - intros i v x. rewrite P10. apply G6.
  - intros i a. rewrite P5, lookup_insert_Some. intros [[<- <-]|[Hne Ha]].
    + exists app. cbn. split_and!; [done| |].
      * intros b Hb. destruct (P4 b Hb) as (rv & Hrv & _). exists rv. split; [done|]. apply P6. right. eauto 10.
      * unfold app_current. intros p. destruct (app_aliases r !! app) as [[c t]|] eqn:Ec; [|done]. cbn. intros [= <-]. cbn. split; [done|].
        destruct (G9 _ _ _ Ec) as (a & Ha & Hx). exists a. split; [by apply (lookup_weaken _ _ _ _ Ha)|done].
    + destruct (G7 i a Ha) as (app2 & Hx & Hb & Hp). exists app2. split_and!; [done| |].
      * intros b Hbb. destruct (Hb b Hbb) as (rv & Hrv & Hm). exists rv. split; [done|]. apply P6. by left.
      * intros p Hpp. destruct (Hp p Hpp) as (Hpa & a2 & Ha2 & Hx2). split; [done|]. exists a2. split; [by apply (lookup_weaken _ _ _ _ Ha2)|done].
  - intros k i Hk. apply P6 in Hk as [Hk|(b & rv & Hb & Hrv & -> & ->)].
    + destruct (G8 k i Hk) as [Hs [a Ha]]. rewrite Hr. split; [done|]. exists a. by apply (lookup_weaken _ _ _ _ Ha).
    + destruct (P4 b Hb) as (rv2 & Hrv2 & Hs). simplify_eq. rewrite Hr. split; [done|]. cbn. rewrite P5, lookup_insert_eq. by eexists.
  - intros app2 i t. rewrite P7, lookup_insert_Some. intros [[<- [= <- <-]]|[_ Ha]].
    + eexists. rewrite P5, lookup_insert_eq. done.
    + destruct (G9 _ _ _ Ha) as (a & Ha2 & Hx). exists a. split; [by apply (lookup_weaken _ _ _ _ Ha2)|done].
Qed.

(** What a rollback does. *)
Record rolled_back (q : RollbackAppRequest) (now : Z) (r : Reg) (app : AppRef) (t : AppRevisionRef) (r' : Reg) : Prop := mkRolledBack {
  rk_target : rb_target q = Some t;
  rk_app : af_app t = Some app;
  rk_expected e : rb_expected q = Some e -> app_current r app = Some (af_id e);
  rk_revision : exists a rf, app_revisions r !! af_id t = Some a /\ ap_ref a = Some rf /\ af_app rf = Some app;
  rk_alias : app_aliases r' = alter (fun _ => (af_id t, now)) app (app_aliases r);
  rk_db : same_tables (db r) (db r');
  rk_rest : aliases r' = aliases r /\ function_snapshots r' = function_snapshots r /\ app_revisions r' = app_revisions r /\ app_members r' = app_members r }.

Lemma rollback_app_spec fp q now r : post (rollback_app fp q now) r (fun _ r' => r' = r \/ exists app t, rolled_back q now r app t r').
Proof.
  unfold rollback_app. tx_steps. apply post_on_db, idempotent_reads. intros [known|]; tx_steps.
  { apply app_revision_read. intros a _. left. by destruct r. }
  apply app_revision_read. cbn. intros a Ha. unfold set_app_aliases. tx_steps. apply post_on_db, put_idempotency_tables. cbn. intros d Hd. tx_steps. right.
  apply bool_decide_eq_true in Hr. destruct (ap_ref a) as [rf|] eqn:Erf; [|done]. cbn in Hr.
  exists x0, x. split; cbn; try done; [by destruct (rb_target q); simplify_eq/=|by destruct (af_app x); simplify_eq/=| |eauto 10].
  match goal with Hc : check_expected_app _ _ = _ |- _ => exact (check_expected_app_ok _ _ _ Hc) end.
Qed.

Lemma rolled_back_ok q now r app t r' : reg_ok r -> rolled_back q now r app t r' -> reg_ok r' /\ reg_le r r'.
Proof.
  intros Hok [P1 P2 P3 (a & rf & Ha & Hrf & Happ) P5 P6 (E1 & E2 & E3 & E4)]. destruct (same_tables_ok r (db r') Hok P6) as [Hok2 L2].
  destruct r' as [d al ss ar am aa]. cbn in *. subst al ss ar am. split; [|by destruct L2].
  destruct Hok2 as [G1 G2 G3 G4 G5 G6 G7 G8 G9]. cbn in *. split; try assumption. cbn.
  intros app2 i s. rewrite P5, lookup_alter_Some. intros [(<- & y & Hy & [= -> ->])|[_ Hs]]; [|by eapply G9].
  exists a. split; [done|]. destruct (go_app _ Hok _ _ Ha) as (app3 & Hx & _). rewrite Hx in Hrf |- *. injection Hrf as <-. cbn in Happ. by injection Happ as ->.
Qed.

(** ** Runs *)

Lemma run_reg_keeps op now : keeps_reg (run_reg op now).
Proof.
  destruct op; cbn [run_reg].
  - apply (keeps_reg_then _ (fun _ => tt)), register_keeps.
  - apply (keeps_reg_then _ (fun _ => tt)), availability_keeps.
  - apply (keeps_reg_then _ (fun _ => tt)), snapshot_keeps.
  - apply detach_keeps.
  - apply (keeps_reg_then _ (fun _ => tt)), activate_keeps.
  - apply delete_keeps.
  - apply (keeps_reg_then _ (fun _ => tt)). intros g Hok. eapply post_mono; [apply activate_app_spec|]. cbv beta.
    intros _ g' [->|(app & Hp)]; [split; [done|apply reg_le_refl]|by eapply published_ok].
  - apply (keeps_reg_then _ (fun _ => tt)). intros g Hok. eapply post_mono; [apply rollback_app_spec|]. cbv beta.
    intros _ g' [->|(app & t & Hp)]; [split; [done|apply reg_le_refl]|by eapply rolled_back_ok].
  - apply (keeps_reg_then _ (fun _ => tt)), on_db_refs, run_refs.
  - apply (keeps_reg_then _ (fun _ => tt)), on_db_refs, run_actor_refs.
Qed.

Definition empty_reg : Reg := mkReg (mkDb ∅ ∅ ∅ ∅ ∅ ∅ ∅) ∅ ∅ ∅ ∅ ∅.

(** Databases that operations reach from the empty one; artifacts come and go on their own. *)
Inductive reg_reach : Reg -> Prop :=
  | reg_start : reg_reach empty_reg
  | reg_run r op now x r' : reg_reach r -> run_reg op now r = Ok (x, r') -> reg_reach r'
  | reg_artifacts r d : reg_reach r -> same_tables (db r) d -> idempotency d = idempotency (db r) ->
      reg_reach (mkReg d (aliases r) (function_snapshots r) (app_revisions r) (app_members r) (app_aliases r)).

Lemma empty_reg_ok : reg_ok empty_reg.
Proof. split; cbn; try (intros *; rewrite lookup_empty; done). split; cbn; intros *; rewrite lookup_empty; done. Qed.

Lemma reg_reach_ok r : reg_reach r -> reg_ok r.
Proof.
  induction 1 as [|r op now x r' _ IH Hr|r d _ IH Hd _]; [apply empty_reg_ok| |by apply same_tables_ok].
  by eapply (post_use _ _ _ _ _ (run_reg_keeps op now r IH)) in Hr as [? _].
Qed.

(** C13: Every reference of the registry resolves.  In every reachable database, with calls and actors: an alias points to a
    stored revision of its own function; every app revision is stored under its own id, its bindings are its members,
    a member is a stored function revision, and the app revision before it is a stored one of the same app; the alias of an
    app points to a stored revision of that app; the revision that a call, an actor or a checkpoint names is stored (of
    whichever function); a row of a snapshot belongs to a stored revision, and the snapshot that a revision names has its row;
    a revision names its own id, and no two have the same digest, which is that of the specification. *)
Theorem registry_references_resolve r :
  reg_reach r ->
  (forall f id t, aliases r !! f = Some (id, t) -> exists v, revisions (db r) !! id = Some v /\ rv_ref v = Some (mkRevisionRef (Some f) id)) /\
  (forall id a, app_revisions r !! id = Some a -> exists app, ap_ref a = Some (mkAppRevisionRef (Some app) id) /\
     (forall p, ap_previous a = Some p -> af_app p = Some app /\ exists q, app_revisions r !! af_id p = Some q /\ ap_ref q = Some p) /\
     forall b, b ∈ ap_functions a -> exists rv v, bd_revision b = Some rv /\ app_members r !! (id, bd_name b) = Some (rf_id rv) /\
       revisions (db r) !! rf_id rv = Some v) /\
  (forall id name rev, app_members r !! (id, name) = Some rev -> is_Some (revisions (db r) !! rev) /\ is_Some (app_revisions r !! id)) /\
  (forall app id t, app_aliases r !! app = Some (id, t) -> exists a, app_revisions r !! id = Some a /\ ap_ref a = Some (mkAppRevisionRef (Some app) id)) /\
  (forall id c, calls (db r) !! id = Some c -> is_Some (revisions (db r) !! revision_id (call c))) /\
  (forall id a, actors (db r) !! id = Some a -> exists f, ar_function (a_record a) = Some f /\ is_Some (revisions (db r) !! rf_id f)) /\
  (forall id k, checkpoints (db r) !! id = Some k -> exists f, ck_function k = Some f /\ is_Some (revisions (db r) !! rf_id f)) /\
  (forall s id x, function_snapshots r !! s = Some (id, x) -> is_Some (revisions (db r) !! id) /\ sn_id x = Some s /\ rf_id <$> sn_revision x = Some id) /\
  (forall id v x, revisions (db r) !! id = Some v -> rv_snapshot v = Some x -> exists s, sn_id x = Some s /\ function_snapshots r !! s = Some (id, x)) /\
  (forall id id' v v', revisions (db r) !! id = Some v -> revisions (db r) !! id' = Some v' -> rv_digest v = rv_digest v' -> id = id') /\
  (forall id v, revisions (db r) !! id = Some v -> exists f spec, rv_ref v = Some (mkRevisionRef (Some f) id) /\ rv_spec v = Some spec /\
     sp_function spec = Some f /\ rv_digest v = canonical_spec_digest spec).
Proof.
  intros Hr. pose proof (reg_reach_ok _ Hr) as Hok. split_and!.
  - apply (go_alias _ Hok).
  - intros id a Hid. destruct (go_app _ Hok _ _ Hid) as (app & Href & Hb & Hp). exists app. split_and!; [done..|].
    intros b Hbb. destruct (Hb b Hbb) as (rv & Hrv & Hm). destruct (go_member _ Hok _ _ Hm) as [[v Hv] _]. eauto 10.
  - intros id name rev Hm. apply (go_member _ Hok _ _ Hm).
  - apply (go_app_alias _ Hok).
  - apply (ro_call _ (go_refs _ Hok)).
  - apply (ro_actor _ (go_refs _ Hok)).
  - apply (ro_checkpoint _ (go_refs _ Hok)).
  - apply (go_row _ Hok).
  - apply (go_snapshot _ Hok).
  - apply (go_digest _ Hok).
  - apply (go_revision _ Hok).
Qed.

(** Transactions that leave the aliases of apps alone. *)
Definition keeps_current {A} (m : tx Reg A) : Prop := forall r, post m r (fun _ r' => app_aliases r' = app_aliases r).

Lemma current_bind {A B} (m : tx Reg A) (k : A -> tx Reg B) : keeps_current m -> (forall x, keeps_current (k x)) -> keeps_current (m ≫= k).
Proof.
  intros Hm Hk r. apply post_bind. eapply post_mono; [apply Hm|]. cbv beta. intros x r1 H1. eapply post_mono; [apply Hk|]. cbv beta. congruence.
Qed.
Lemma current_for_each {A} (f : A -> tx Reg ()) l : (forall x, keeps_current (f x)) -> keeps_current (for_each f l).
Proof. intros Hf. induction l as [|x l IH]; cbn [for_each]; [done|]. apply current_bind; auto. Qed.
Lemma current_on_db {A} (m : tx Db A) : keeps_current (on_db m).
Proof. intros r. apply post_on_db, post_intro. done. Qed.

Ltac keeps_current :=
  cbv zeta;
  lazymatch goal with
  | |- keeps_current (_ ≫= _) => apply current_bind; [|intros ?]; keeps_current
  | |- keeps_current (for_each _ _) => apply current_for_each; intros ?; keeps_current
  | |- keeps_current (on_db _) => apply current_on_db
  | |- keeps_current (match ?x with _ => _ end) => destruct x; keeps_current
  | |- keeps_current (mret _) => intros ?; tx_steps; reflexivity
  | |- keeps_current (read _) => intros ?; tx_steps; reflexivity
  | |- keeps_current (require _ _) => intros ?; tx_steps; reflexivity
  | |- keeps_current (lift _) => intros ?; tx_steps; reflexivity
  | |- keeps_current (modify _) => intros ?; tx_steps; reflexivity
  | |- keeps_current ?m => let h := head_of m in unfold h; keeps_current
  end.

Lemma other_ops_current op now :
  match op with RgActivateApp _ _ _ | RgRollback _ _ => False | _ => True end -> keeps_current (run_reg op now).
Proof. intros Hop. destruct op; try done; cbn [run_reg]; keeps_current. Qed.

(** C25: How the current revision of an app changes.  Only a publication or a rollback changes it: to a new revision
    of that app, or back to a stored revision of that app.  A request may name the revision that it expects, and
    if it does, then that was the current one (a compare-and-swap); a request that names none replaces
    whatever was current.  A published revision has the bindings of the request, sorted by name, and records as its
    predecessor the revision that was current.  App revisions are never changed or removed. *)
Theorem app_current_compare_and_swap r op now x r' app :
  reg_reach r -> run_reg op now r = Ok (x, r') ->
  app_revisions r ⊆ app_revisions r' /\
  (app_current r' app <> app_current r app ->
   (exists fp id q a, op = RgActivateApp fp id q /\ aa_app q = Some app /\ app_current r' app = Some id /\
      (forall e, aa_expected q = Some e -> app_current r app = Some (af_id e)) /\
      app_revisions r !! id = None /\ app_revisions r' !! id = Some a /\ ap_functions a = merge_sort name_leq (aa_functions q) /\
      ap_previous a = mkAppRevisionRef (Some app) <$> app_current r app) \/
   (exists fp q t a, op = RgRollback fp q /\ rb_target q = Some t /\ af_app t = Some app /\ app_current r' app = Some (af_id t) /\
      (forall e, rb_expected q = Some e -> app_current r app = Some (af_id e)) /\ app_revisions r !! af_id t = Some a /\
      ap_ref a = Some t)).
Proof.
  intros Hr Hrun. pose proof (reg_reach_ok _ Hr) as Hok. split.
  { eapply (post_use _ _ _ _ _ (run_reg_keeps op now r Hok)) in Hrun as [_ Hle]. apply Hle. }
  intros Hne. destruct op as [| | | | | |fp id q|fp q| |].
  7:{ left. refine (post_use _ _ (fun _ r' => _ -> _) _ _ _ Hrun Hne). cbn [run_reg]. apply post_bind. eapply post_mono; [apply activate_app_spec|].
      cbv beta. intros _ r1 [->|(app2 & [P1 P2 P3 P4 P5 P6 P7 P8 P9 P10])] ; tx_steps; [done|]. intros Hch. unfold app_current in Hch. rewrite P7 in Hch.
      destruct (decide (app2 = app)) as [->|Hd]; [|by rewrite lookup_insert_ne in Hch]. eexists fp, id, q, _. unfold app_current at 1. rewrite P7, P5, !lookup_insert_eq.
      split_and!; try done. }
  7:{ right. refine (post_use _ _ (fun _ r' => _ -> _) _ _ _ Hrun Hne). cbn [run_reg]. apply post_bind. eapply post_mono; [apply rollback_app_spec|].
      cbv beta. intros _ r1 [->|(app2 & t & [P1 P2 P3 (a & rf & Ha & Hrf & Happ) P5 P6 P7])] ; tx_steps; [done|]. intros Hch. unfold app_current in Hch. rewrite P5 in Hch.
      destruct (decide (app2 = app)) as [->|Hd]; [|by rewrite lookup_alter_ne in Hch]. exists fp, q, t, a. unfold app_current at 1. rewrite P5, lookup_alter_eq.
      rewrite lookup_alter_eq in Hch. destruct (app_aliases r !! app) as [[c s]|] eqn:Ec; [|done]. split_and!; try done.
      destruct (go_app _ Hok _ _ Ha) as (app3 & Hx & _). rewrite Hx in Hrf |- *. injection Hrf as <-. cbn in Happ. injection Happ as ->.
      destruct t as [ta ti]. cbn in *. by rewrite P2. }
  all: exfalso; apply Hne; unfold app_current; f_equal; f_equal;
    refine (post_use _ _ (fun _ r' => app_aliases r' = app_aliases r) _ _ _ Hrun); by apply other_ops_current.
Qed.

End runs.

Module RegistryExamples.
#[local] Instance plain : Prost := {| decode_input _ := None; sha256 b := b |}.
#[local] Instance flat : Encoder := {| encode_spec s := sp_rest s; encode_revision_ref r := rf_id r |}.

(** A function whose package is the artifact of thirty-two zeros, and an app with it. *)
Definition digest0 : bytes := repeat 0 32.
Definition spec : FunctionSpec :=
  mkFunctionSpec (Some ([110], [102])) (Some (mkPackageSpec (Some (Some (1, digest0))) [109] None PMModule [113] None))
    (Some (mkImageSpec (Some (RegistryImage [111])) [] [])) (Some None) (Some (mkRetryPolicy 0 10 0 f64_zero [])) (Some (mkTimeoutSpec 0 0 0))
    (Some (mkWorkerSpec 0 0 0 0 0 0)) (Some (mkConcurrencySpec 0 false)) (Some (mkBatchingSpec true 0 0)) (Some (mkSerializerSpec 1 1 0 false))
    (Some Stateless) None [] [] [7].
Definition rev1 : RevisionRef := mkRevisionRef (Some ([110], [102])) [1].
Definition the_app : AppRef := ([110], [97]).
Definition publish (id : bytes) (expected : option AppRevisionRef) : reg_op :=
  RgActivateApp [] id (mkActivateAppRequest (Some the_app) [mkAppFunctionBinding [98] (Some rev1)] expected []).

Definition step (op : reg_op) (now : Z) (r : Reg) : Reg := match run_reg op now r with Ok (_, r') => r' | Err _ => r end.

Definition g0 : Reg := mkReg (mkDb ∅ ∅ ∅ ∅ ∅ {[ hex_encode digest0 ]} ∅) ∅ ∅ ∅ ∅ ∅.
Definition g1 : Reg := step (RgRegister [1] spec []) 10 g0.
Definition g2 : Reg := step (RgActivate rev1 None) 11 g1.
Definition g3 : Reg := step (publish [50] None) 12 g2.
Definition g4 : Reg := step (publish [51] (Some (mkAppRevisionRef (Some the_app) [50]))) 13 g3.

Lemma reach_step r op now : reg_reach r -> match run_reg op now r with Ok _ => True | Err _ => False end -> reg_reach (step op now r).
Proof. intros Hr Hok. unfold step. destruct (run_reg op now r) as [[x r']|e] eqn:E; [|done]. by eapply reg_run. Qed.

Lemma run_step r op now : match run_reg op now r with Ok _ => True | Err _ => False end -> run_reg op now r = Ok (tt, step op now r).
Proof. unfold step. by destruct (run_reg op now r) as [[[] r']|e]. Qed.

Lemma reg_reach3 : reg_reach g3.
Proof.
  apply (reach_step g2 (publish [50] None) 12); [|by vm_compute]. apply (reach_step g1 (RgActivate rev1 None) 11); [|by vm_compute].
  apply (reach_step g0 (RgRegister [1] spec []) 10); [|by vm_compute]. apply (reg_artifacts empty_reg (db g0)); [apply reg_start|repeat split|done].
Qed.

Lemma registry_references_resolve_witness : exists v a, revisions (db g3) !! [1] = Some v /\ rv_ref v = Some rev1 /\ app_revisions g3 !! [50] = Some a /\
  ap_ref a = Some (mkAppRevisionRef (Some the_app) [50]).
Proof.
  destruct (registry_references_resolve g3 reg_reach3) as (Hal & _ & _ & Happ & _).
  destruct (Hal ([110], [102]) [1] 11) as (v & Hv & Hr); [by vm_compute|]. destruct (Happ the_app [50] 12) as (a & Ha & Hra); [by vm_compute|].
  exists v, a. split_and!; [exact Hv|exact Hr|exact Ha|exact Hra].
Defined.

(** The second publication names the first; a third that expects the first is refused. *)
Lemma app_current_compare_and_swap_witness :
  app_current g4 the_app = Some [51] /\ app_revisions g3 ⊆ app_revisions g4 /\
  run_reg (publish [52] (Some (mkAppRevisionRef (Some the_app) [50]))) 14 g4 = Err Busy.
Proof.
  destruct (app_current_compare_and_swap g3 (publish [51] (Some (mkAppRevisionRef (Some the_app) [50]))) 13 tt g4 the_app reg_reach3) as [Hsub Hch].
  { apply run_step. vm_compute. exact I. }
  destruct Hch as [(fp & id & q & a & Hop & _ & Hcur & _)|(fp & q & t & a & Hop & _)].
  - vm_compute. discriminate.
  - injection Hop as <- <- <-. split; [exact Hcur|]. split; [exact Hsub|]. vm_compute. reflexivity.
  - discriminate Hop.
Defined.

(** A request that registered a revision, sent again after the revision was deleted, does not register it again. *)
Definition e1 : Reg := step (RgRegister [1] spec [33]) 10 g0.
Definition e2 : Reg := step (RgDelete rev1) 11 e1.
Lemma register_after_delete_refused : revisions (db e2) = ∅ /\ run_reg (RgRegister [2] spec [33]) 12 e2 = Err NotFound.
Proof. split; by vm_compute. Qed.
End RegistryExamples.
