(* ===== verification/StoreDigest.v ===== *)
(** The digests of function specifications: what is hashed determines the specification up to the order of its maps, so two
    registrations are the same revision exactly when they are the same specification. *)

From S2P Require Import Prelude Decimal F64 StoreTables StoreSpecs StoreCalls StoreOutcomes StoreInvariant StoreService StoreRegistry.

(** ** Frames *)

#[local] Arguments be64 : simpl never.
#[local] Arguments framed : simpl never.

Definition fits (n : nat) : Prop := Z.of_nat n < 2 ^ 64.

Lemma length_be64 x : length (be64 x) = 8%nat.
Proof. unfold be64. by rewrite length_rev, length_le_bytes. Qed.

Lemma be64_inj n n' : fits n -> fits n' -> be64 (Z.of_nat n) = be64 (Z.of_nat n') -> n = n'.
Proof.
  unfold fits, be64. intros Hn Hn' He. apply (f_equal (@rev Z)) in He. rewrite !rev_involutive in He.
  apply (f_equal of_le_bytes) in He. rewrite !of_le_bytes_le_bytes in He by (unfold in_width; lia). lia.
Qed.

Lemma framed_ne s x y : (framed s ++ x) ++ y <> [].
Proof. intros He. apply (f_equal length) in He. unfold framed in He. rewrite !length_app, length_be64 in He. cbn in He. lia. Qed.

Lemma framed_app s s' x x' : fits (length s) -> fits (length s') -> framed s ++ x = framed s' ++ x' -> s = s' /\ x = x'.
Proof.
  intros Hs Hs' He. unfold framed in He. rewrite <- !app_assoc in He. apply app_inj_1 in He as [Hl He]; [|by rewrite !length_be64].
  apply be64_inj in Hl; [|done..]. by apply app_inj_1.
Qed.

Definition entries_fit (l : list (bytes * bytes)) : Prop := fits (length l) /\ Forall (fun kv => fits (length (fst kv)) /\ fits (length (snd kv))) l.

Lemma entries_app l l' x x' : length l = length l' -> entries_fit l -> entries_fit l' ->
  concat (map (fun '(k, v) => framed k ++ framed v) l) ++ x = concat (map (fun '(k, v) => framed k ++ framed v) l') ++ x' -> l = l' /\ x = x'.
Proof.
  intros Hlen [_ Hl] [_ Hl']. revert l' Hlen Hl'. induction l as [|[k v] l IH]; intros [|[k' v'] l'] Hlen Hl' He; try done.
  cbn in He. rewrite <- !app_assoc in He. inversion Hl as [|? ? [F1 F2] Hl0]; subst. inversion Hl' as [|? ? [F1' F2'] Hl0']; subst. cbn in *.
  apply framed_app in He as [-> He]; [|done..]. apply framed_app in He as [-> He]; [|done..].
  destruct (IH Hl0 l') as [-> ->]; [lia|done..].
Qed.

Definition maps_fit (m : list (bytes * list (bytes * bytes))) : Prop := Forall (fun d => fits (length (fst d)) /\ entries_fit (snd d)) m.

Lemma maps_inj m m' : maps_fit m -> maps_fit m' ->
  concat (map (fun '(domain, entries) => framed domain ++ be64 (Z.of_nat (length entries)) ++ concat (map (fun '(k, v) => framed k ++ framed v) entries)) m)
  = concat (map (fun '(domain, entries) => framed domain ++ be64 (Z.of_nat (length entries)) ++ concat (map (fun '(k, v) => framed k ++ framed v) entries)) m')
  -> m = m'.
Proof.
  intros Hm. revert m'. induction m as [|[d e] m IH]; intros [|[d' e'] m'] Hm' He; cbn in He; [done|by destruct (framed_ne _ _ _ (eq_sym He))|by destruct (framed_ne _ _ _ He)|].
  rewrite <- !app_assoc in He. inversion Hm as [|? ? [F1 F2] Hm0]; subst. inversion Hm' as [|? ? [F1' F2'] Hm0']; subst. cbn in *.
  apply framed_app in He as [-> He]; [|done..]. apply app_inj_1 in He as [Hl He]; [|by rewrite !length_be64].
  apply be64_inj in Hl; [|apply F2|apply F2']. apply entries_app in He as [-> He]; [|done..]. f_equal. by apply IH.
Qed.

(** ** The order of entries *)

Lemma pair_leq_spec a b : pair_leq a b <-> bytes_leb (fst a) (fst b) = true /\ (fst a = fst b -> bytes_leb (snd a) (snd b) = true).
Proof.
  unfold pair_leq, pair_leb. rewrite andb_true_iff, orb_true_iff, negb_true_iff, bool_decide_eq_false. split; intros [H1 H2]; (split; [done|]).
  - intros He. by destruct H2.
  - destruct (decide (fst a = fst b)); auto.
Qed.

#[global] Instance pair_leq_total : Total pair_leq.
Proof.
  intros [a1 a2] [b1 b2]. rewrite !pair_leq_spec. cbn. destruct (decide (a1 = b1)) as [->|Hne].
  - pose proof (bytes_leb_refl b1). destruct (bytes_leb_total a2 b2); [left|right]; auto.
  - destruct (bytes_leb_total a1 b1); [left|right]; split; try done; congruence.
Qed.

#[global] Instance pair_leq_trans : Transitive pair_leq.
Proof.
  intros [a1 a2] [b1 b2] [c1 c2]. rewrite !pair_leq_spec. cbn. intros [H1 H1'] [H2 H2']. split; [by eapply bytes_leb_trans|].
  intros ->. pose proof (bytes_leb_antisym _ _ H1 H2) as ->. eapply bytes_leb_trans; auto.
Qed.

#[global] Instance pair_leq_antisym : AntiSymm (=) pair_leq.
Proof.
  intros [a1 a2] [b1 b2]. rewrite !pair_leq_spec. cbn. intros [H1 H1'] [H2 H2']. pose proof (bytes_leb_antisym _ _ H1 H2) as ->.
  f_equal. apply bytes_leb_antisym; auto.
Qed.

Lemma sorted_map_eq m m' : sorted_map m = sorted_map m' <-> m ≡ₚ m'.
Proof.
  unfold sorted_map. split; intros He.
  - rewrite <- (merge_sort_Permutation pair_leq m), He. apply merge_sort_Permutation.
  - apply (Sorted_unique pair_leq); [apply Sorted_merge_sort; apply _..|]. by rewrite !merge_sort_Permutation.
Qed.

(** ** Specifications *)

Section digest.
Context `{Prost} `{Encoder}.

(** Lengths are 64-bit integers. *)
Definition spec_fits (s : FunctionSpec) : Prop := fits (length (encode_spec (base_spec s))) /\ maps_fit (spec_maps s).

Lemma domain_bytes_inj b b' m m' : fits (length b) -> fits (length b') -> maps_fit m -> maps_fit m' ->
  domain_bytes b m = domain_bytes b' m' -> b = b' /\ m = m'.
Proof.
  intros Hb Hb' Hm Hm' He. unfold domain_bytes in He. apply framed_app in He as [-> He]; [|done..]. split; [done|]. by apply maps_inj.
Qed.

Lemma spec_maps_eq s s' : spec_maps s = spec_maps s' <->
  sp_labels s ≡ₚ sp_labels s' /\ option_Forall2 Permutation (im_environment <$> sp_image s) (im_environment <$> sp_image s') /\
  option_Forall2 Permutation (sp_reproducibility s) (sp_reproducibility s').
Proof.
  unfold spec_maps. rewrite <- sorted_map_eq. split.
  - intros He. injection He as Hl He. split; [done|].
    destruct (sp_image s) as [i|], (sp_image s') as [i'|], (sp_reproducibility s) as [e|], (sp_reproducibility s') as [e'|]; cbn in *; try discriminate He;
      try (injection He; clear He; intros); (split; constructor); apply sorted_map_eq; congruence.
  - intros (-> & Hi & He). f_equal. f_equal.
    + destruct (sp_image s), (sp_image s'); inversion Hi; subst; [|done]. cbn. do 2 f_equal. by apply sorted_map_eq.
    + destruct (sp_reproducibility s), (sp_reproducibility s'); inversion He; subst; [|done]. do 2 f_equal. by apply sorted_map_eq.
Qed.

(** The digest of a specification is canonical.  Unless SHA-256 collides on the two, two specifications have the same digest
    exactly when they encode to the same message without their maps and their maps hold the same entries, in whatever order the
    maps are iterated: the length prefixes leave no way to move bytes from one field to another. *)
Lemma spec_digest_canonical s s' :
  spec_fits s -> spec_fits s' ->
  (sha256 (domain_bytes (encode_spec (base_spec s)) (spec_maps s)) = sha256 (domain_bytes (encode_spec (base_spec s')) (spec_maps s')) ->
   domain_bytes (encode_spec (base_spec s)) (spec_maps s) = domain_bytes (encode_spec (base_spec s')) (spec_maps s')) ->
  canonical_spec_digest s = canonical_spec_digest s' <->
  encode_spec (base_spec s) = encode_spec (base_spec s') /\ sp_labels s ≡ₚ sp_labels s' /\
  option_Forall2 Permutation (im_environment <$> sp_image s) (im_environment <$> sp_image s') /\
  option_Forall2 Permutation (sp_reproducibility s) (sp_reproducibility s').
Proof.
  intros [Fb Fm] [Fb' Fm'] Hsha. rewrite <- spec_maps_eq. unfold canonical_spec_digest, hash_domain_maps. split.
  - intros Hd. by apply domain_bytes_inj, Hsha.
  - intros [-> ->]. done.
Qed.
End digest.

Module DigestExamples.
#[local] Instance plain : Prost := {| decode_input _ := None; sha256 b := b |}.
#[local] Instance flat : Encoder := {| encode_spec s := sp_rest s; encode_revision_ref r := rf_id r |}.

(** A specification with two labels, in either order. *)
Definition labelled (labels : string_map) : FunctionSpec :=
  mkFunctionSpec None None (Some (mkImageSpec None [([101], [1])] [])) None None None None None None None None None labels [] [7].

#[local] Instance spec_fits_dec s : Decision (spec_fits s).
Proof. unfold spec_fits, maps_fit, entries_fit, fits. apply _. Defined.
End DigestExamples.
