(* ===== verification/StoreSchedules.v ===== *)
(** The schedules of [vmond/src/function/store.rs]: when a schedule runs next, and the pass that creates the calls of the schedules
    that are due.  Cron expressions, time zones and the calendar are parameters; so are the fingerprints and encodings of the calls. *)

From S2P Require Import Prelude Decimal StoreTables StoreSpecs StoreCalls StoreOutcomes StoreInvariant StoreSafety StorePages StoreRegistry.

(** ** Messages and tables *)

Record ScheduleTarget : Type := mkScheduleTarget { t_function : option RevisionRef; t_input : option ValueEnvelope }.
Inductive Timing : Type := CronTiming (expression time_zone : bytes) | PeriodTiming (period_millis anchor_unix_millis : Z).
Inductive ScheduleStatus : Type := SchedUnspecified | SchedActive | SchedPaused.
#[global] Instance schedule_status_eq_dec : EqDecision ScheduleStatus.
Proof. solve_decision. Defined.

Record ScheduleSpec : Type := mkScheduleSpec {
  sc_name : bytes; sc_app : option AppRevisionRef; sc_target : option ScheduleTarget; sc_timing : option Timing;
  sc_status : ScheduleStatus; sc_labels : string_map }.

Record ScheduleRecord : Type := mkScheduleRecord {
  sr_id : option bytes; sr_spec : option ScheduleSpec; sr_created : Z; sr_updated : Z; sr_next : option Z }.

Record CreateScheduleRequest : Type := mkCreateScheduleRequest { cs_id : option bytes; cs_spec : option ScheduleSpec; cs_request_id : bytes }.

Record ListSchedulesRequest : Type := mkListSchedulesRequest {
  ls_app : option AppRef; ls_function : option FunctionRef; ls_page_size : Z; ls_page_token : bytes }.

(** [sw_next] is the column [next_run_ms]; the record has one, too. *)
Record ScheduleRow : Type := mkScheduleRow {
  sw_app : AppRef; sw_function : FunctionRef; sw_status : ScheduleStatus; sw_record : ScheduleRecord; sw_created : Z; sw_updated : Z;
  sw_next : option Z }.

Record Sched : Type := mkSched { reg : Reg; schedules : gmap bytes ScheduleRow }.

Definition on_reg {A} (m : tx Reg A) : tx Sched A := fun s =>
  match m (reg s) with Ok (x, r) => Ok (x, mkSched r (schedules s)) | Err e => Err e end.
Definition set_schedules (f : gmap bytes ScheduleRow -> gmap bytes ScheduleRow) : tx Sched () :=
  modify (fun s => mkSched (reg s) (f (schedules s))).

(** ** Validation *)

Definition validate_id (v : bytes) : result store_error () :=
  _ <-? validate_name v ;
  if bool_decide (47 ∈ v) || bool_decide (92 ∈ v) || bool_decide (v = bs "..") then Err Invalid else Ok ().

Definition validate_schedule (s : ScheduleSpec) : result store_error () :=
  _ <-? validate_name (sc_name s) ;
  if negb (bool_decide (is_Some (sc_app s)))
     || match sc_target s with
        | Some t => negb (bool_decide (is_Some (t_function t))) || negb (bool_decide (is_Some (t_input t)))
        | None => true
        end
     || negb (bool_decide (is_Some (sc_timing s)))
  then Err Invalid
  else if match sc_timing s with Some (PeriodTiming p _) => p =? 0 | _ => false end then Err Invalid
  else if bool_decide (sc_status s = SchedUnspecified) then Err Invalid
  else Ok ().

(** ** The next run *)

(** [chrono], [chrono_tz] and [cron]: the known time zones, the times of the calendar, the expressions that parse, and the first
    occurrence after a time. *)
Class Calendar : Type := {
  zone_known : bytes -> bool; time_known : Z -> bool; cron_parses : bytes -> bool; cron_after : bytes -> bytes -> Z -> option Z }.

(** [split_whitespace().count()], on ASCII text. *)
Fixpoint count_words (inside : bool) (s : bytes) : nat :=
  match s with
  | [] => 0
  | b :: s => if is_space b then count_words false s else (if inside then 0 else 1) + count_words true s
  end.

(** Five fields are those of cron without seconds. *)
Definition cron_expression (e : bytes) : result store_error bytes :=
  match count_words false e with
  | 5%nat => Ok (bs "0 " ++ e)
  | 6%nat | 7%nat => Ok e
  | _ => Err Invalid
  end.

Section schedules.
Context `{Prost} `{Calendar}.

Definition next_schedule_run (record : ScheduleRecord) (after : Z) : result store_error (option Z) :=
  spec <-? ok_or (sr_spec record) Invalid ;
  if negb (bool_decide (sc_status spec = SchedActive)) then Ok None
  else
    timing <-? ok_or (sc_timing spec) Invalid ;
    match timing with
    | PeriodTiming period anchor =>
        if period =? 0 then Err Invalid
        else if after <? anchor then Ok (Some anchor)
        else
          let steps := wrap 64 (saturating_sub after anchor / period + 1) in
          offset <-? ok_or (checked_mul 64 steps period) Invalid ;
          Ok (checked_add 64 anchor offset)
    | CronTiming e zone =>
        if negb (zone_known zone) then Err Invalid
        else
          expression <-? cron_expression e ;
          if negb (cron_parses expression) then Err Invalid
          else
            millis <-? u64_i64 after ;
            if negb (time_known millis) then Err Invalid else Ok (cron_after expression zone millis)
    end.

(** ** Operations *)

Definition schedule_by_id (id : bytes) : tx Sched ScheduleRecord :=
  r ← read (fun s => schedules s !! id); lift (ok_or (sw_record <$> r) NotFound).

(** The columns that name the app and the function. *)
Definition schedule_app (spec : ScheduleSpec) : option AppRef := r ← sc_app spec; af_app r.
Definition schedule_function (spec : ScheduleSpec) : option FunctionRef := t ← sc_target spec; r ← t_function t; rf_function r.

Definition put_schedule (fingerprint fresh : bytes) (q : CreateScheduleRequest) (next : option Z) (now : Z) : tx Sched ScheduleRecord :=
  spec ← lift (ok_or (cs_spec q) Invalid);
  lift (validate_schedule spec) ;;
  let id := default fresh (cs_id q) in
  lift (validate_id id) ;;
  found ← on_reg (on_db (idempotent_resource (bs "schedule") (cs_request_id q) fingerprint));
  match found with
  | Some resource => schedule_by_id resource
  | None =>
      app_ref ← lift (ok_or (sc_app spec) Invalid);
      app_revision ← on_reg (app_revision_by_id (af_id app_ref));
      require (bool_decide (ap_ref app_revision = Some app_ref)) Invalid ;;
      target ← lift (ok_or (t ← sc_target spec; t_function t) Invalid);
      stored ← on_reg (on_db (revision_by_id (rf_id target)));
      require (bool_decide (rv_ref stored = Some target)) Invalid ;;
      require (existsb (fun b => bool_decide (bd_revision b = Some target)) (ap_functions app_revision)) Invalid ;;
      created ← read (fun s => default now (sw_created <$> schedules s !! id));
      let value := mkScheduleRecord (Some id) (Some spec) created now next in
      app ← lift (ok_or (schedule_app spec) Invalid);
      function ← lift (ok_or (schedule_function spec) Invalid);
      on_reg (on_db (drop_refs (bs "schedule") id)) ;;
      check_i64 created ;; check_i64 now ;; check_opt_i64 next ;;
      set_schedules (insert id (mkScheduleRow app function (sc_status spec) value created now next)) ;;
      on_reg (on_db (for_each (fun digest => add_artifact_ref digest (bs "schedule") id)
        (match t ← sc_target spec; t_input t with Some v => envelope_artifacts v | None => [] end))) ;;
      on_reg (on_db (put_idempotency (bs "schedule") (cs_request_id q) fingerprint id now)) ;;
      mret value
  end.

Definition due_rows (now : Z) (s : Sched) : list (Z * bytes * ScheduleRecord) :=
  omap (fun kv => if bool_decide (sw_status (snd kv) = SchedActive) then
                    next ← sw_next (snd kv); if next <=? now then Some (next, fst kv, sw_record (snd kv)) else None
                  else None) (map_to_list (schedules s)).

(** [ORDER BY next_run_ms,id LIMIT ?]. *)
Definition due_schedules (now limit : Z) : tx Sched (list ScheduleRecord) :=
  check_i64 now ;;
  read (fun s => map snd (take (Z.to_nat (normalized_page_size limit)) (merge_sort row_leq (due_rows now s)))).

(** [UPDATE schedules SET next_run_ms=?,updated_ms=? WHERE id=? AND next_run_ms=?]: the columns, not the record. *)
Definition advance_schedule (id : bytes) (expected : Z) (next : option Z) (now : Z) : tx Sched bool :=
  check_opt_i64 next ;; check_i64 now ;; check_i64 expected ;;
  row ← read (fun s => schedules s !! id);
  match row with
  | Some r =>
      if bool_decide (sw_next r = Some expected) then
        set_schedules (insert id (mkScheduleRow (sw_app r) (sw_function r) (sw_status r) (sw_record r) (sw_created r) now next)) ;;
        mret true
      else mret false
  | None => mret false
  end.

Definition get_schedule (id : bytes) : tx Sched ScheduleRecord := schedule_by_id id.

Definition schedule_rows (q : ListSchedulesRequest) (s : Sched) : list (keyed ScheduleRecord) :=
  omap (fun kv => if match ls_app q with Some a => bool_decide (sw_app (snd kv) = a) | None => true end
                     && match ls_function q with Some f => bool_decide (sw_function (snd kv) = f) | None => true end
                  then Some (sw_created (snd kv), fst kv, sw_record (snd kv)) else None) (map_to_list (schedules s)).

Definition list_schedules (q : ListSchedulesRequest) : tx Sched (Page ScheduleRecord) :=
  t ← lift (decode_page_token (ls_page_token q));
  let limit := Z.to_nat (normalized_page_size (ls_page_size q)) in
  check_i64 (fst t) ;;
  read (fun s => page_from_rows (query_after (fst t) (snd t) (limit + 1) (schedule_rows q s)) limit).

Definition delete_schedule (id : bytes) : tx Sched () :=
  schedule_by_id id ;;
  on_reg (on_db (drop_refs (bs "schedule") id)) ;;
  set_schedules (delete id).

(** ** Firing *)

Variables (encode : CallInput -> bytes) (call_fingerprint : CreateCallRequest -> bytes).

(** The call of an occurrence; its request id names the schedule and the time. *)
Definition schedule_request (id : bytes) (expected : Z) (target : ScheduleTarget) : CreateCallRequest :=
  let key := id ++ 58 :: decimal expected in
  mkCreateCallRequest (Some Unary) (Some (mkCallTarget (t_function target) None))
    [mkCallInput 0 key (PValue <$> t_input target)] true None (bs "schedule:" ++ key).

(** A transaction of its own; an error leaves the tables as they were. *)
Definition commit {A} (m : tx Sched A) (s : Sched) : Sched * result store_error A :=
  match m s with Ok (x, s') => (s', Ok x) | Err e => (s, Err e) end.

(** The call that [create_call] made or found under the request id. *)
Definition created_call (request : bytes) : tx Sched (option bytes) :=
  read (fun s => snd <$> idempotency (db (reg s)) !! (bs "create_call", request)).

(** One schedule that is due: its call, then its column; [fresh] is the UUID of the call. *)
Definition fire_schedule (fresh : bytes) (now : Z) (record : ScheduleRecord) (s : Sched) : Sched * result store_error (option bytes) :=
  match sr_id record, sr_next record, sr_spec record with
  | None, _, _ => (s, Err Engine)
  | Some _, None, _ => (s, Ok None)
  | Some _, Some _, None => (s, Err Engine)
  | Some id, Some expected, Some spec =>
      match sc_target spec with
      | None => (s, Err Engine)
      | Some target =>
          let request := schedule_request id expected target in
          match commit (on_reg (on_db (create_call encode (call_fingerprint request) fresh request now)) ;; created_call (cr_request_id request)) s with
          | (s1, Err e) => (s1, Err e)
          | (s1, Ok call_id) =>
              match next_schedule_run record expected with
              | Err e => (s1, Err e)
              | Ok next =>
                  match commit (advance_schedule id expected next now) s1 with
                  | (s2, Ok true) => (s2, match call_id with Some c => Ok (Some c) | None => Err Engine end)
                  | (s2, Ok false) => (s2, Ok None)
                  | (s2, Err e) => (s2, Err e)
                  end
              end
          end
      end
  end.

Fixpoint fire_all (fresh : bytes -> bytes) (now : Z) (l : list ScheduleRecord) (s : Sched) : Sched * result store_error (list bytes) :=
  match l with
  | [] => (s, Ok [])
  | record :: l =>
      match fire_schedule (fresh (default [] (sr_id record))) now record s with
      | (s1, Err e) => (s1, Err e)
      | (s1, Ok made) =>
          match fire_all fresh now l s1 with
          | (s2, Ok rest) => (s2, Ok (option_list made ++ rest))
          | (s2, Err e) => (s2, Err e)
          end
      end
  end.

Definition fire_due_schedules (fresh : bytes -> bytes) (now limit : Z) (s : Sched) : Sched * result store_error (list bytes) :=
  match due_schedules now limit s with
  | Ok (l, _) => fire_all fresh now l s
  | Err e => (s, Err e)
  end.

(** ** Periods *)

(** The times of a period. *)
Definition occurs (period anchor t : Z) : Prop := anchor <= t /\ (period | t - anchor).

(** A period runs at its next time.  For an active schedule with a period, the next run after a time is the first time of the
    period after it; there is none, or an error, only when that time is past the 64-bit integers. *)
Lemma period_next_run record spec period anchor after :
  sr_spec record = Some spec -> sc_status spec = SchedActive -> sc_timing spec = Some (PeriodTiming period anchor) ->
  0 < period -> 0 <= anchor < 2 ^ 64 -> 0 <= after < 2 ^ 64 - 1 ->
  match next_schedule_run record after with
  | Ok (Some t) => occurs period anchor t /\ after < t < 2 ^ 64 /\ (forall t', occurs period anchor t' -> after < t' -> t <= t')
  | _ => forall t', occurs period anchor t' -> after < t' -> 2 ^ 64 <= t'
  end.
Proof.
  intros Hs Ha Ht Hp Han Haf. unfold next_schedule_run. rewrite Hs. cbn. rewrite bool_decide_eq_true_2 by done. rewrite Ht. cbn.
  destruct (Z.eqb_spec period 0); [lia|]. destruct (Z.ltb_spec after anchor) as [Hlt|Hge].
  { split_and!; [split; [lia|]|lia|lia|by intros t' [H1 _] _]. rewrite Z.sub_diag. apply Z.divide_0_r. }
  unfold saturating_sub. rewrite Z.max_r by lia. pose proof (Z.div_mod (after - anchor) period ltac:(lia)) as Hdm.
  pose proof (Z.mod_pos_bound (after - anchor) period Hp) as Hm. set (q := (after - anchor) / period) in *.
  assert (0 <= q <= after - anchor) as Hq by (split; [apply Z.div_pos; lia|apply Z.div_le_upper_bound; nia]).
  rewrite wrap_small by (unfold in_width; lia). assert (forall t', occurs period anchor t' -> after < t' -> anchor + (q + 1) * period <= t') as Hmin.
  { intros t' [Hge' [k Hk]] Haft. assert (q < k) by nia. nia. }
  unfold checked_mul, checked_add. destruct (Z.ltb_spec ((q + 1) * period) (2 ^ 64)) as [Hf|Hf]; cbn.
  2:{ intros t' Ho Haft. specialize (Hmin t' Ho Haft). lia. }
  destruct (Z.ltb_spec (anchor + (q + 1) * period) (2 ^ 64)) as [Hf2|Hf2].
  - split_and!; [split; [nia|]|nia|lia|done]. exists (q + 1). lia.
  - intros t' Ho Haft. specialize (Hmin t' Ho Haft). lia.
Qed.

(** ** Runs of a schedule *)

Definition named (s : Sched) : Prop := forall id row, schedules s !! id = Some row -> sr_id (sw_record row) = Some id.

(** The schedules after a call was created. *)
Lemma created_schedules fresh now request s s1 x :
  commit (on_reg (on_db (create_call encode (call_fingerprint request) fresh request now)) ;; created_call (cr_request_id request)) s = (s1, x) ->
  schedules s1 = schedules s.
Proof.
  unfold commit, mbind, tx_bind, created_call, read, on_reg. destruct (on_db _ (reg s)) as [[y r]|e]; intros [= <- _]; done.
Qed.

(** What advancing a schedule does to the table. *)
Lemma advance_spec id expected next now s s' x :
  commit (advance_schedule id expected next now) s = (s', x) ->
  (x = Ok true /\ exists row, schedules s !! id = Some row /\ sw_next row = Some expected /\
     schedules s' = <[id := mkScheduleRow (sw_app row) (sw_function row) (sw_status row) (sw_record row) (sw_created row) now next]> (schedules s)) \/
  (x <> Ok true /\ schedules s' = schedules s).
Proof.
  assert (post (advance_schedule id expected next now) s (fun b s' =>
    (b = true /\ exists row, schedules s !! id = Some row /\ sw_next row = Some expected /\
     schedules s' = <[id := mkScheduleRow (sw_app row) (sw_function row) (sw_status row) (sw_record row) (sw_created row) now next]> (schedules s)) \/
    (b = false /\ schedules s' = schedules s))) as Hp.
  { unfold advance_schedule, set_schedules. tx_steps. destruct (schedules s !! id) as [row|]; [|tx_steps; by right].
    case_bool_decide; tx_steps; [left; split; [done|]; by exists row|by right]. }
  unfold commit. destruct (advance_schedule id expected next now s) as [[b s2]|e] eqn:E; intros [= <- <-]; [|by right].
  apply (post_use _ _ _ _ _ Hp) in E as [[-> Hr]|[-> Hs]]; [by left|by right].
Qed.

(** The occurrence that a record stands for fires when the column still has it; then the column moves and the record stays. *)
Lemma fire_schedule_spec fresh now record s s' x :
  fire_schedule fresh now record s = (s', x) ->
  schedules s' = schedules s /\ (forall c, x <> Ok (Some c)) \/
  exists id t next row, sr_id record = Some id /\ sr_next record = Some t /\ next_schedule_run record t = Ok next /\
    schedules s !! id = Some row /\ sw_next row = Some t /\
    schedules s' = <[id := mkScheduleRow (sw_app row) (sw_function row) (sw_status row) (sw_record row) (sw_created row) now next]> (schedules s).
Proof.
  unfold fire_schedule. destruct (sr_id record) as [id|]; [|intros [= <- <-]; by left].
  destruct (sr_next record) as [t|]; [|intros [= <- <-]; by left]. destruct (sr_spec record) as [spec|]; [|intros [= <- <-]; by left].
  destruct (sc_target spec) as [target|]; [|intros [= <- <-]; by left].
  destruct (commit _ s) as [s1 y] eqn:Ec. apply created_schedules in Ec. destruct y as [call_id|e]; [|intros [= <- <-]; by left].
  destruct (next_schedule_run record t) as [next|e] eqn:En; [|intros [= <- <-]; by left].
  destruct (commit (advance_schedule _ _ _ _) s1) as [s2 z] eqn:Ea. apply advance_spec in Ea as [(-> & row & Hr & Hn & Hs)|[Hz Hs]].
  - intros [= <- <-]. right. rewrite Ec in Hr, Hs. eauto 12.
  - intros Hx. left. rewrite Ec in Hs. destruct z as [[]|]; [done|..]; injection Hx as <- <-; done.
Qed.

(** A pass of the scheduler, at any time. *)
Definition pass (s s' : Sched) : Prop := exists fresh now limit, s' = fst (fire_due_schedules fresh now limit s).

(** The record of the schedule stands for another time than its column. *)
Definition moved_on (id : bytes) (row : ScheduleRow) : Prop :=
  sr_id (sw_record row) = Some id /\ exists t, sr_next (sw_record row) = Some t /\ sw_next row <> Some t.

Definition holds_records (s : Sched) (l : list ScheduleRecord) : Prop :=
  forall record, record ∈ l -> exists id row, sr_id record = Some id /\ schedules s !! id = Some row /\ sw_record row = record.

Lemma fire_keeps_named fresh now record s s' x :
  fire_schedule fresh now record s = (s', x) -> named s ->
  named s' /\ (forall id row, schedules s !! id = Some row -> exists row', schedules s' !! id = Some row' /\ sw_record row' = sw_record row).
Proof.
  intros Hf Hn. apply fire_schedule_spec in Hf as [[Hs _]|(id & t & next & row & H1 & H2 & H3 & Hr & H4 & Hs)].
  - split; [intros i r; rewrite Hs; apply Hn|]. intros i r Hi. exists r. by rewrite Hs.
  - split; intros i r.
    + rewrite Hs, lookup_insert_Some. intros [[<- <-]|[_ Hi]]; [exact (Hn id row Hr)|by apply Hn].
    + intros Hi. rewrite Hs. destruct (decide (id = i)) as [<-|Hne]; [|by exists r; rewrite lookup_insert_ne].
      rewrite lookup_insert_eq. eexists. split; [done|]. by simplify_eq.
Qed.

(** A record of another schedule, or one that has moved on, leaves the row alone. *)
Lemma fire_moved_on fresh now record s s' x id row :
  fire_schedule fresh now record s = (s', x) -> holds_records s [record] -> schedules s !! id = Some row -> moved_on id row ->
  schedules s' !! id = Some row /\ (sr_id record = Some id -> forall c, x <> Ok (Some c)).
Proof.
  intros Hf Hh Hrow [Hid (t & Ht & Hne)]. destruct (Hh record) as (i & r & Hi & Hr & Hrec); [by apply list_elem_of_singleton|].
  apply fire_schedule_spec in Hf as [[Hs Hx]|(i2 & t2 & next & r2 & H1 & H2 & H3 & Hr2 & H4 & Hs)].
  { by rewrite Hs. }
  assert (i2 <> id) as Hd by (intros ->; simplify_eq/=; congruence). rewrite Hs, lookup_insert_ne by done. split; [done|congruence].
Qed.

Lemma fire_all_moved_on fresh now l s id row :
  named s -> holds_records s l -> schedules s !! id = Some row -> moved_on id row ->
  named (fst (fire_all fresh now l s)) /\ schedules (fst (fire_all fresh now l s)) !! id = Some row.
Proof.
  revert s. induction l as [|record l IH]; intros s Hn Hh Hrow Hm; [done|]. cbn [fire_all].
  destruct (fire_schedule _ now record s) as [s1 x] eqn:Ef. destruct (fire_keeps_named _ _ _ _ _ _ Ef Hn) as [Hn1 Hk].
  destruct (fire_moved_on _ _ _ _ _ _ id row Ef) as [Hrow1 _]; [|done..|].
  { intros r Hr. apply list_elem_of_singleton in Hr as ->. apply Hh. left. }
  destruct x as [made|e]; [|done]. destruct (IH s1) as [IH1 IH2]; [done| |done..|].
  { intros r Hr. destruct (Hh r) as (i & w & Hi & Hw & <-); [by right|]. destruct (Hk i w Hw) as (w' & Hw' & Hrec). eauto. }
  by destruct (fire_all fresh now l s1) as [s2 []].
Qed.

Lemma due_records now limit s l s' : named s -> due_schedules now limit s = Ok (l, s') -> holds_records s l.
Proof.
  intros Hn Hd. refine (post_use _ _ (fun l _ => holds_records s l) _ _ _ Hd). unfold due_schedules. tx_steps. intros record Hr.
  apply list_elem_of_In, in_map_iff in Hr as ([[t i] r] & Hr & Hin). cbn in Hr. subst r. apply list_elem_of_In, subseteq_take in Hin.
  rewrite merge_sort_Permutation in Hin. unfold due_rows in Hin. apply list_elem_of_omap in Hin as ((i2 & row) & Hin & Hrow).
  apply elem_of_map_to_list in Hin. cbn in Hrow. case_bool_decide; [|done]. destruct (sw_next row) as [n|]; [|done]. cbn in Hrow.
  destruct (n <=? now); [|done]. simplify_eq. exists i, row. split_and!; [by apply Hn|done|done].
Qed.

Lemma pass_moved_on s s' id row :
  rtc pass s s' -> named s -> schedules s !! id = Some row -> moved_on id row -> named s' /\ schedules s' !! id = Some row.
Proof.
  induction 1 as [|s s1 s' (fresh & now & limit & ->) _ IH]; intros Hn Hrow Hm; [done|].
  enough (named (fst (fire_due_schedules fresh now limit s)) /\ schedules (fst (fire_due_schedules fresh now limit s)) !! id = Some row) as [H1 H2]
    by (by apply IH).
  unfold fire_due_schedules. destruct (due_schedules now limit s) as [[l s2]|e] eqn:E; [|done]. apply fire_all_moved_on; try done. by eapply due_records.
Qed.

(** A schedule that fired does not fire again.  [advance_schedule] moves the column and not the record, which is what the next pass reads: after a
    period fired at [t], no sequence of passes makes another call for it, although it becomes due again at its next time. *)
Lemma schedule_fires_once fresh now s s' c id row spec period anchor t :
  named s -> schedules s !! id = Some row -> sr_spec (sw_record row) = Some spec -> sc_status spec = SchedActive ->
  sc_timing spec = Some (PeriodTiming period anchor) -> 0 < period -> 0 <= anchor < 2 ^ 64 -> sr_next (sw_record row) = Some t -> 0 <= t < 2 ^ 64 - 1 ->
  fire_schedule fresh now (sw_record row) s = (s', Ok (Some c)) ->
  exists row', schedules s' !! id = Some row' /\ sw_record row' = sw_record row /\
    forall s'', rtc pass s' s'' -> schedules s'' !! id = Some row' /\
      forall fresh' now' c', snd (fire_schedule fresh' now' (sw_record row') s'') <> Ok (Some c').
Proof.
  intros Hn Hrow Hspec Hact Htim Hp Hanc Hnext Ht Hf. pose proof (fire_keeps_named _ _ _ _ _ _ Hf Hn) as [Hn' _].
  apply fire_schedule_spec in Hf as [[_ Hx]|(i & t2 & next & r & Hi & Ht2 & Hrun & Hr & Hcol & Hs)]; [by destruct (Hx c)|].
  rewrite (Hn _ _ Hrow) in Hi. simplify_eq. pose proof (period_next_run _ _ _ _ t Hspec Hact Htim Hp Hanc Ht) as Hlater. rewrite Hrun in Hlater.
  set (row' := mkScheduleRow _ _ _ _ _ _ _) in Hs. exists row'. rewrite Hs, lookup_insert_eq. split_and!; [done|done|]. intros s'' Hpass.
  assert (moved_on i row') as Hm.
  { split; [exact (Hn _ _ Hrow)|]. exists t. split; [done|]. cbn. destruct next as [n|]; [|done]. intros [= ->]. lia. }
  destruct (pass_moved_on _ _ i row' Hpass Hn') as [Hn'' Hrow'']; [rewrite Hs; apply lookup_insert_eq|exact Hm|]. split; [exact Hrow''|].
  intros fresh' now' c' Hc. destruct (fire_schedule fresh' now' _ s'') as [s3 x] eqn:Ef. cbn in Hc. subst x.
  destruct (fire_moved_on _ _ _ _ _ _ i row' Ef) as [_ Hno]; [|exact Hrow''|exact Hm|by apply (Hno (Hn _ _ Hrow) c')].
  intros r0 Hr0. apply list_elem_of_singleton in Hr0 as ->. exists i, row'. split_and!; [exact (Hn _ _ Hrow)|exact Hrow''|done].
Qed.
End schedules.

Module ScheduleExamples.
#[local] Instance plain : Prost := {| decode_input _ := None; sha256 _ := [] |}.
#[local] Instance no_cron : Calendar := {| zone_known _ := false; time_known _ := false; cron_parses _ := false; cron_after _ _ _ := None |}.

Definition fn : RevisionRef := mkRevisionRef (Some ([2], [3])) [1].
Definition app0 : AppRevisionRef := mkAppRevisionRef (Some ([2], [4])) [50].
Definition value : ValueEnvelope := mkValueEnvelope 1 1 (Some (1, repeat 0 32)) (Some (InlineData [])) 1 0.
Definition every_minute : ScheduleSpec :=
  mkScheduleSpec [109] (Some app0) (Some (mkScheduleTarget (Some fn) (Some value))) (Some (PeriodTiming 60000 1000)) SchedActive [].

(** A function that may be called, in a published app. *)
Definition revision0 : FunctionRevision :=
  mkFunctionRevision (Some fn) (Some (mkFunctionSpec (Some ([2], [3])) None None None None None None None None (Some (mkSerializerSpec 1 1 0 false))
    (Some Stateless) None [] [] [])) 0 [] RevisionReady [] None.
Definition reg0 : Reg :=
  mkReg (mkDb ∅ {[ [1] := revision0 ]} ∅ ∅ ∅ ∅ ∅) ∅ ∅ {[ [50] := mkAppRevision (Some app0) [mkAppFunctionBinding [98] (Some fn)] [] 0 None ]} ∅ ∅.

Definition enc (i : CallInput) : bytes := in_index i :: input_id i.
Definition fp (q : CreateCallRequest) : bytes := cr_request_id q.
Definition fire (call : bytes) (now : Z) (s : Sched) : Sched * result store_error (list bytes) :=
  fire_due_schedules enc fp (fun _ => call) now 128 s.

(** Created at 61000 for 121000; then passes after each of the first three times of the period. *)
Definition s0 : Sched :=
  match put_schedule [] [9] (mkCreateScheduleRequest None (Some every_minute) []) (Some 121000) 61000 (mkSched reg0 ∅) with Ok (_, s) => s | Err _ => mkSched reg0 ∅ end.
Definition s1 : Sched := fst (fire [71] 121001 s0).
Definition s2 : Sched := fst (fire [72] 181001 s1).

Lemma one_call_in_three_periods :
  snd (fire [71] 121001 s0) = Ok [[71]] /\ snd (fire [72] 181001 s1) = Ok [] /\ snd (fire [73] 241001 s2) = Ok [] /\
  (sw_next <$> schedules s2 !! [9]) = Some (Some 181000).
Proof. split_and!; by vm_compute. Qed.
End ScheduleExamples.
