(* ===== verification/VmRegistry.v ===== *)
(** The registry of sandboxes of a node: [vmond/src/registry.rs], with the writers of
    [meta.json] in [vmond/src/engine/spawn.rs].  Records are kept in memory under one lock and
    in one [meta.json] per sandbox; each lifecycle transition has a generation.

    The directory [vms/] is a map from the names of its sub-directories to the text of their
    [meta.json], if they have one.  What the file system does to an operation is an argument of
    it ([Io]).  The derived codecs of [SafeRuntimeIdentity] and [PersistencePolicy] are
    parameters; the one of [LifecycleState] is written out, in the representation serde gives
    to structs, options and enums. *)

From S2P Require Import Prelude F64 Json.

(** ** Lifecycle states *)

Inductive LifecyclePhase : Type :=
  | Running | Stopped | Suspended | Paused | Terminated
  | Unknown (value : string).

#[global] Instance LifecyclePhase_eq_dec : EqDecision LifecyclePhase.
Proof. solve_decision. Defined.

Definition phase_as_str (p : LifecyclePhase) : string :=
  match p with
  | Running => "running"
  | Stopped => "stopped"
  | Suspended => "suspended"
  | Paused => "paused"
  | Terminated => "terminated"
  | Unknown value => value
  end.

Definition phase_from_str (value : string) : LifecyclePhase :=
  if bool_decide (value = "running"%string) then Running
  else if bool_decide (value = "stopped"%string) then Stopped
  else if bool_decide (value = "suspended"%string) then Suspended
  else if bool_decide (value = "paused"%string) then Paused
  else if bool_decide (value = "terminated"%string) then Terminated
  else Unknown value.

Inductive LifecycleOperation : Type :=
  | Rollback (recovery_point : string)
  | Other (kind : string).

#[global] Instance LifecycleOperation_eq_dec : EqDecision LifecycleOperation.
Proof. solve_decision. Defined.

Definition operation_kind (o : LifecycleOperation) : string :=
  match o with Rollback _ => "rollback" | Other kind => kind end.

Record LifecycleState : Type := mkLifecycle {
  desired : LifecyclePhase; observed : LifecyclePhase; generation : Z;
  operation : option LifecycleOperation; failure : option string }.

#[global] Instance LifecycleState_eq_dec : EqDecision LifecycleState.
Proof. solve_decision. Defined.

Definition default_lifecycle : LifecycleState := mkLifecycle Stopped Stopped 0 None None.

Definition is_converged (l : LifecycleState) : bool :=
  bool_decide (operation l = None) && bool_decide (failure l = None) &&
  bool_decide (desired l = observed l).

Record LifecycleTransition : Type := mkTransition {
  tr_generation : Z; tr_desired : LifecyclePhase; tr_observed : LifecyclePhase }.

Inductive TransitionDisposition : Type := Acquired | Joined | AlreadyObserved.

Record TransitionBegin : Type := mkBegin {
  bg_disposition : TransitionDisposition; bg_generation : Z; bg_desired : LifecyclePhase;
  bg_observed : LifecyclePhase; bg_operation : option LifecycleOperation }.

Definition transition_of (l : LifecycleState) : LifecycleTransition :=
  mkTransition (generation l) (desired l) (observed l).
Definition begin_of (l : LifecycleState) (d : TransitionDisposition) : TransitionBegin :=
  mkBegin d (generation l) (desired l) (observed l) (operation l).

(** With the answer of the function: whether the state changed. *)
Definition normalize_observed_for_pid (l : LifecycleState) (pid_alive : bool) : LifecycleState * bool :=
  let set p := (mkLifecycle (desired l) p (generation l) (operation l) (failure l), true) in
  if pid_alive then
    match observed l with Stopped | Suspended | Terminated => set Running | _ => (l, false) end
  else
    match observed l with Running | Paused => set Stopped | _ => (l, false) end.

Definition status_for_observed (p : LifecyclePhase) : string :=
  match p with Paused => phase_as_str Running | p => phase_as_str p end.

(** ** The JSON of a lifecycle *)

Definition json_opt {A} (f : A -> json) (o : option A) : json :=
  match o with Some x => f x | None => JNull end.
Definition json_of_f64 (x : f64) : json :=
  if f64_is_finite x then JNumber (NFloat x) else JNull.
Definition json_phase (p : LifecyclePhase) : json := JString (phase_as_str p).
Definition json_generation (g : Z) : json := JNumber (NInt g).
Definition json_operation (o : LifecycleOperation) : json :=
  match o with
  | Rollback rp => JObject {[ "Rollback"%string := JObject {[ "recovery_point"%string := JString rp ]} ]}
  | Other kind => JObject {[ "Other"%string := JObject {[ "kind"%string := JString kind ]} ]}
  end.

Definition lifecycle_to_value (l : LifecycleState) : json :=
  JObject (<["desired"%string := json_phase (desired l)]>
          (<["observed"%string := json_phase (observed l)]>
          (<["generation"%string := json_generation (generation l)]>
          (<["operation"%string := json_opt json_operation (operation l)]>
          (<["failure"%string := json_opt JString (failure l)]> ∅))))).

Definition value_phase (v : json) : option LifecyclePhase := phase_from_str <$> as_str v.
Definition value_u64 (v : json) : option Z := as_u64 v.
(** [Option<T>]: [null] is [None]. *)
Definition value_opt {A} (f : json -> option A) (v : json) : option (option A) :=
  match v with JNull => Some None | _ => Some <$> f v end.
(** A struct variant: an object with the name of the variant as its only key, and an object. *)
Definition value_operation (v : json) : option LifecycleOperation :=
  match v with
  | JObject m =>
      match map_to_list m with
      | [(variant, JObject fields)] =>
          if bool_decide (variant = "Rollback"%string) then
            Rollback <$> field fields "recovery_point" as_str
          else if bool_decide (variant = "Other"%string) then
            Other <$> field fields "kind" as_str
          else None
      | _ => None
      end
  | _ => None
  end.

(** A field of a struct with [#[serde(default)]]. *)
Definition or_default {A} (o : option json) (f : json -> option A) (d : A) : option A :=
  match o with Some v => f v | None => Some d end.

(** From an object by name, from an array by position; unknown keys are ignored, further
    elements are an error. *)
Definition lifecycle_from_fields (get : string -> nat -> option json) : option LifecycleState :=
  d ← or_default (get "desired"%string 0%nat) value_phase (desired default_lifecycle);
  o ← or_default (get "observed"%string 1%nat) value_phase (observed default_lifecycle);
  g ← or_default (get "generation"%string 2%nat) value_u64 (generation default_lifecycle);
  op ← or_default (get "operation"%string 3%nat) (value_opt value_operation) None;
  f ← or_default (get "failure"%string 4%nat) (value_opt as_str) None;
  Some (mkLifecycle d o g op f).

Definition lifecycle_from_value (v : json) : option LifecycleState :=
  match v with
  | JObject m => lifecycle_from_fields (fun key _ => m !! key)
  | JArray l => if (length l <=? 5)%nat then lifecycle_from_fields (fun _ i => l !! i) else None
  | _ => None
  end.

(** ** Fields of [meta.json] *)

Definition as_array (v : json) : option (list json) :=
  match v with JArray l => Some l | _ => None end.
Definition nonempty (s : string) : option string :=
  if bool_decide (s = ""%string) then None else Some s.

Definition string_field (meta : Params) (key : string) : option string :=
  s ← field meta key as_str; nonempty s.

Definition number_field (meta : Params) (key : string) : option f64 :=
  x ← field meta key as_f64; if f64_is_finite x then Some x else None.

Definition pid_of (meta : Params) : option Z :=
  p ← field meta "pid" as_i64; if (- 2 ^ 31 <=? p) && (p <? 2 ^ 31) then Some p else None.

Definition timeout_of (meta : Params) : option f64 := field meta "timeout_secs" as_f64.

Definition tags_of (meta : Params) : gmap string string :=
  match field meta "tags" as_object with
  | None => ∅
  | Some tags => omap as_str tags
  end.

Fixpoint first_string (keys : list string) (meta : Params) : option string :=
  match keys with
  | [] => None
  | key :: keys => match string_field meta key with Some s => Some s | None => first_string keys meta end
  end.

Definition source_of (meta : Params) : option string :=
  first_string ["image"; "restored_from"; "forked_from"; "restored_snapshot"]%string meta.

Definition json_truthy (v : json) : bool :=
  match v with
  | JNull => false
  | JBool b => b
  | JNumber n => match as_f64 (JNumber n) with Some x => negb (SFeqb x f64_zero) | None => false end
  | JString s => negb (bool_decide (s = ""%string))
  | JArray l => negb (bool_decide (l = []))
  | JObject m => negb (bool_decide (m = ∅))
  end.

Definition string_set (v : option json) : gset string :=
  match v ≫= as_array with
  | None => ∅
  | Some values => list_to_set (omap (fun v => s ← as_str v; nonempty s) values)
  end.

Definition available_secret_names_of (names availability : option json) : gset string :=
  string_set names ∪
  match availability ≫= as_object with
  | None => ∅
  | Some m => dom (filter (fun kv => json_truthy (snd kv) = true) m)
  end.

(** A volume entry that is an object with a name. *)
Definition volume_entry (info : json) : option (string * bool) :=
  info ← as_object info;
  name ← string_field info "name";
  Some (name, negb (default false (field info "read_only" as_bool))).

Definition add_volume (writable : gmap string bool) (e : string * bool) : gmap string bool :=
  <[fst e := default false (writable !! fst e) || snd e]> writable.

Definition volume_names (meta : Params) : list string :=
  match field meta "volumes" as_object with
  | None => []
  | Some volumes =>
      let writable := foldl add_volume ∅ (omap volume_entry (snd <$> map_to_list volumes)) in
      sort_by String.leb (omap (fun '(name, w) => if w : bool then Some name else None) (map_to_list writable))
  end.

Definition lifecycle_of (meta : Params) (legacy_status : string) : LifecycleState :=
  match meta !! "lifecycle"%string ≫= lifecycle_from_value with
  | Some lifecycle => lifecycle
  | None =>
      let desired := default legacy_status (string_field meta "desired_state") in
      let observed := default legacy_status (string_field meta "observed_state") in
      mkLifecycle (phase_from_str desired) (phase_from_str observed)
        (default 0 (field meta "state_generation" as_u64)) None (string_field meta "lifecycle_failure")
  end.

Definition set_lifecycle_detail (l : LifecycleState) (detail : Params) : Params :=
  <["lifecycle_failure"%string := json_opt JString (failure l)]>
  (<["state_generation"%string := json_generation (generation l)]>
  (<["observed_state"%string := json_phase (observed l)]>
  (<["desired_state"%string := json_phase (desired l)]> detail))).

Definition set_lifecycle_meta (l : LifecycleState) (meta : Params) : Params :=
  set_lifecycle_detail l (<["lifecycle"%string := lifecycle_to_value l]> meta).

Definition detail_object (detail : json) : Params := default ∅ (as_object detail).

(** ** Records *)

Inductive PersistencePolicy : Type := Persistent | Sticky (priority : Z) | Ephemeral.

Definition sticky_priority (p : PersistencePolicy) : option Z :=
  match p with Sticky priority => Some priority | _ => None end.

Record SafeRuntimeIdentity : Type := mkIdentity {
  environment : gmap string string; workdir : option string; network_policy : option json;
  network : json; tunnels : json; mounts : list json; timeout_secs : option f64;
  id_source : option string; template : option string; pool : option string;
  secret_names : gset string; available_secret_names : gset string;
  version : Z; identity_complete : bool }.

Definition default_identity : SafeRuntimeIdentity :=
  mkIdentity ∅ None None JNull JNull [] None None None None ∅ ∅ 0 false.

Definition without_secret_values (i : SafeRuntimeIdentity) : SafeRuntimeIdentity :=
  mkIdentity (filter (fun kv => fst kv ∉ secret_names i) (environment i)) (workdir i) (network_policy i)
    (network i) (tunnels i) (mounts i) (timeout_secs i) (id_source i) (template i) (pool i)
    (secret_names i) (available_secret_names i) (version i) (identity_complete i).

Record VmRecord : Type := mkVmRecord {
  vm_id : string; vm_name : string; vm_status : string; vm_pid : option Z; vm_source : option string;
  vm_created_at : f64; vm_timeout : option f64; vm_detail : json; vm_tags : gmap string string;
  vm_last_active : f64; vm_last_network_active : f64; vm_persistence : PersistencePolicy;
  vm_terminated_at : option f64; vm_error : option string; vm_lifecycle : LifecycleState;
  vm_incarnation_epoch : Z; vm_runtime_identity : SafeRuntimeIdentity }.

Definition new_record (id name status : string) (now : f64) : VmRecord :=
  let phase := phase_from_str status in
  mkVmRecord id name status None None now None (JObject ∅) ∅ now now Persistent None None
    (mkLifecycle phase phase 0 None None) 0 default_identity.

Definition expires_at (r : VmRecord) : option f64 :=
  timeout ← vm_timeout r;
  if f64_ltb f64_zero timeout then Some (f64_add (vm_last_active r) timeout) else None.

(** Field updates. *)
Definition set_lifecycle (l : LifecycleState) (r : VmRecord) : VmRecord :=
  mkVmRecord (vm_id r) (vm_name r) (vm_status r) (vm_pid r) (vm_source r) (vm_created_at r) (vm_timeout r)
    (vm_detail r) (vm_tags r) (vm_last_active r) (vm_last_network_active r) (vm_persistence r)
    (vm_terminated_at r) (vm_error r) l (vm_incarnation_epoch r) (vm_runtime_identity r).
Definition set_status (s : string) (r : VmRecord) : VmRecord :=
  mkVmRecord (vm_id r) (vm_name r) s (vm_pid r) (vm_source r) (vm_created_at r) (vm_timeout r)
    (vm_detail r) (vm_tags r) (vm_last_active r) (vm_last_network_active r) (vm_persistence r)
    (vm_terminated_at r) (vm_error r) (vm_lifecycle r) (vm_incarnation_epoch r) (vm_runtime_identity r).
Definition set_detail (d : json) (r : VmRecord) : VmRecord :=
  mkVmRecord (vm_id r) (vm_name r) (vm_status r) (vm_pid r) (vm_source r) (vm_created_at r) (vm_timeout r)
    d (vm_tags r) (vm_last_active r) (vm_last_network_active r) (vm_persistence r)
    (vm_terminated_at r) (vm_error r) (vm_lifecycle r) (vm_incarnation_epoch r) (vm_runtime_identity r).
Definition set_record_error (e : option string) (r : VmRecord) : VmRecord :=
  mkVmRecord (vm_id r) (vm_name r) (vm_status r) (vm_pid r) (vm_source r) (vm_created_at r) (vm_timeout r)
    (vm_detail r) (vm_tags r) (vm_last_active r) (vm_last_network_active r) (vm_persistence r)
    (vm_terminated_at r) e (vm_lifecycle r) (vm_incarnation_epoch r) (vm_runtime_identity r).
Definition set_identity (i : SafeRuntimeIdentity) (r : VmRecord) : VmRecord :=
  mkVmRecord (vm_id r) (vm_name r) (vm_status r) (vm_pid r) (vm_source r) (vm_created_at r) (vm_timeout r)
    (vm_detail r) (vm_tags r) (vm_last_active r) (vm_last_network_active r) (vm_persistence r)
    (vm_terminated_at r) (vm_error r) (vm_lifecycle r) (vm_incarnation_epoch r) i.
Definition set_network_active (t : f64) (r : VmRecord) : VmRecord :=
  mkVmRecord (vm_id r) (vm_name r) (vm_status r) (vm_pid r) (vm_source r) (vm_created_at r) (vm_timeout r)
    (vm_detail r) (vm_tags r) (vm_last_active r) t (vm_persistence r)
    (vm_terminated_at r) (vm_error r) (vm_lifecycle r) (vm_incarnation_epoch r) (vm_runtime_identity r).
Definition set_terminated_at (t : option f64) (r : VmRecord) : VmRecord :=
  mkVmRecord (vm_id r) (vm_name r) (vm_status r) (vm_pid r) (vm_source r) (vm_created_at r) (vm_timeout r)
    (vm_detail r) (vm_tags r) (vm_last_active r) (vm_last_network_active r) (vm_persistence r)
    t (vm_error r) (vm_lifecycle r) (vm_incarnation_epoch r) (vm_runtime_identity r).

(** [set_lifecycle_detail] and the status in the detail of a record. *)
Definition detail_lifecycle (r : VmRecord) : VmRecord :=
  set_detail (JObject (<["status"%string := JString (vm_status r)]>
    (set_lifecycle_detail (vm_lifecycle r) (detail_object (vm_detail r))))) r.

(** [pid_lives], with the answer of [kill(pid, 0)]. *)
Definition pid_lives (alive : Z -> bool) (pid : Z) : bool := if pid <=? 0 then false else alive pid.

Definition runtime_identity_of_meta (meta : Params) (source : option string) (timeout : option f64)
  : SafeRuntimeIdentity :=
  let secrets := string_set (meta !! "secret_names"%string) in
  let net := field meta "network" as_object in
  mkIdentity
    (match field meta "env" as_object with
     | Some env => omap as_str (filter (fun kv => fst kv ∉ secrets) env)
     | None => ∅
     end)
    (string_field meta "workdir")
    (net ≫= (fun n => n !! "policy"%string))
    (match net with Some n => JObject n | None => JNull end)
    (default JNull (net ≫= (fun n => n !! "tunnels"%string)))
    (omap (fun key => meta !! key) ["volumes"; "s3_mounts"]%string)
    timeout source (string_field meta "template")
    (first_string ["pool"; "pool_id"; "warm_pool"]%string meta)
    secrets
    (available_secret_names_of (meta !! "available_secret_names"%string) (meta !! "secret_availability"%string))
    1 false.

(** A recorded identity with the fields an older daemon did not write. *)
Definition complete_identity (meta : Params) (source : option string) (timeout : option f64)
    (i : SafeRuntimeIdentity) : SafeRuntimeIdentity :=
  mkIdentity (environment i)
    (match workdir i with Some w => Some w | None => string_field meta "workdir" end)
    (network_policy i) (network i) (tunnels i)
    (match mounts i with [] => omap (fun key => meta !! key) ["volumes"; "s3_mounts"]%string | ms => ms end)
    (match timeout_secs i with Some t => Some t | None => timeout end)
    (match id_source i with Some s => Some s | None => source end)
    (template i) (pool i) (secret_names i) (available_secret_names i) (version i) (identity_complete i).

(** The derived codecs of two types. *)
Class RecordCodecs : Type := {
  identity_to_value : SafeRuntimeIdentity -> json;
  identity_from_value : json -> option SafeRuntimeIdentity;
  persistence_to_value : PersistencePolicy -> json;
  persistence_from_value : json -> option PersistencePolicy;
}.

(** [to_vec_pretty]: reading its text gives the value back, as [from_str_to_vec] says of
    [to_vec]. *)
Class Pretty `{Serde} : Type := {
  to_vec_pretty : json -> list Z;
  from_str_pretty v : exists w, from_str (to_vec_pretty v) = Some w /\ reparsed v w;
}.

(** [$VMON_HOME/vms]. *)
Abbreviation Home := (gmap string (option (list Z))).

Section registry.
Context `{Serde} `{!Pretty} `{RecordCodecs}.

Definition runtime_identity_of (meta : Params) (source : option string) (timeout : option f64)
  : SafeRuntimeIdentity :=
  match meta !! "runtime_identity"%string ≫= identity_from_value with
  | Some identity => without_secret_values (complete_identity meta source timeout identity)
  | None => runtime_identity_of_meta meta source timeout
  end.

Definition opt_eqb {A} (f : A -> A -> bool) (a b : option A) : bool :=
  match a, b with Some x, Some y => f x y | None, None => true | _, _ => false end.
Fixpoint list_eqb (l k : list json) : bool :=
  match l, k with
  | [], [] => true
  | x :: l, y :: k => value_eqb x y && list_eqb l k
  | _, _ => false
  end.

(** [PartialEq for SafeRuntimeIdentity]. *)
Definition identity_eqb (a b : SafeRuntimeIdentity) : bool :=
  bool_decide (environment a = environment b) && bool_decide (workdir a = workdir b) &&
  opt_eqb value_eqb (network_policy a) (network_policy b) && value_eqb (network a) (network b) &&
  value_eqb (tunnels a) (tunnels b) && list_eqb (mounts a) (mounts b) &&
  opt_eqb SFeqb (timeout_secs a) (timeout_secs b) && bool_decide (id_source a = id_source b) &&
  bool_decide (template a = template b) && bool_decide (pool a = pool b) &&
  bool_decide (secret_names a = secret_names b) &&
  bool_decide (available_secret_names a = available_secret_names b) &&
  (version a =? version b) && Bool.eqb (identity_complete a) (identity_complete b).

(** [VmRecord::view]. *)
Definition view (r : VmRecord) : Params :=
  let out := detail_object (vm_detail r) in
  let returncode := default JNull (out !! "returncode"%string) in
  <["returncode"%string := returncode]>
  (<["tags"%string := JObject (JString <$> vm_tags r)]>
  (<["error"%string := json_opt JString (vm_error r)]>
  (<["terminated_at"%string := json_opt json_of_f64 (vm_terminated_at r)]>
  (<["expires_at"%string := json_opt json_of_f64 (expires_at r)]>
  (<["persistence"%string := persistence_to_value (vm_persistence r)]>
  (<["last_network_active"%string := json_of_f64 (vm_last_network_active r)]>
  (<["last_active"%string := json_of_f64 (vm_last_active r)]>
  (<["created_at"%string := json_of_f64 (vm_created_at r)]>
  (<["source"%string := json_opt JString (vm_source r)]>
  (<["pid"%string := json_opt json_generation (vm_pid r)]>
  (<["lifecycle_failure"%string := json_opt JString (failure (vm_lifecycle r))]>
  (<["state_generation"%string := json_generation (generation (vm_lifecycle r))]>
  (<["observed_state"%string := json_phase (observed (vm_lifecycle r))]>
  (<["desired_state"%string := json_phase (desired (vm_lifecycle r))]>
  (<["status"%string := JString (vm_status r)]>
  (<["name"%string := JString (vm_name r)]>
  (<["id"%string := JString (vm_id r)]>
  (delete "idempotency_key"%string out)))))))))))))))))).

(** ** [meta.json] *)

Inductive RegError : Type :=
  | UnknownSandbox (id : string)
  | StaleGeneration (id : string) (expected actual : Z)
  | GenerationExhausted (id : string)
  | StillPending (id : string)
  | MetaIo | MetaParse | MetaNotObject.

(** How far [write_meta_map_atomically] gets: all the way, not even to the directory, not to
    the rename, or to the rename but not through the sync of the directory. *)
Inductive WriteOutcome : Type := Written | NoDirectory | NotReplaced | NotSynced.

(** [io_between]: what other writers merge into the same file between the read of an operation
    and its write; the lock of the path is taken for the write only. *)
Record Io : Type := mkIo { io_read : bool; io_between : list Params; io_write : WriteOutcome }.

Definition read_meta_map (readable : bool) (d : Home) (name : string) : result RegError Params :=
  if readable then
    match d !! name with
    | Some (Some text) =>
        match from_str text with
        | None => Err MetaParse
        | Some v => match as_object v with Some m => Ok m | None => Err MetaNotObject end
        end
    | _ => Ok ∅
    end
  else Err MetaIo.

Definition write_meta_map_atomically (w : WriteOutcome) (d : Home) (name : string) (meta : Params)
  : result RegError unit * Home :=
  let replaced := <[name := Some (to_vec_pretty (JObject meta))]> d in
  match w with
  | Written => (Ok tt, replaced)
  | NoDirectory => (Err MetaIo, d)
  | NotReplaced => (Err MetaIo, <[name := default None (d !! name)]> d)
  | NotSynced => (Err MetaIo, replaced)
  end.

Definition lifecycle_keys : list string :=
  ["lifecycle"; "desired_state"; "observed_state"; "state_generation"; "lifecycle_failure"; "status"]%string.

Definition has_key (meta : Params) (key : string) : bool := bool_decide (is_Some (meta !! key)).

Definition lifecycle_managed (meta : Params) : bool :=
  has_key meta "lifecycle" || has_key meta "desired_state" || has_key meta "observed_state" ||
  has_key meta "state_generation".

(** The loop of [merge_meta_map]. *)
Definition merge_updates (updates meta : Params) : Params :=
  filter (fun kv => lifecycle_managed meta = false \/ fst kv ∉ lifecycle_keys) updates ∪ meta.

Definition merge_meta_map (readable : bool) (w : WriteOutcome) (d : Home) (name : string) (updates : Params)
  : result RegError unit * Home :=
  match read_meta_map readable d name with
  | Err e => (Err e, d)
  | Ok meta => write_meta_map_atomically w d name (merge_updates updates meta)
  end.

Definition merge_between (us : list Params) (name : string) (d : Home) : Home :=
  foldl (fun d u => snd (merge_meta_map true Written d name u)) d us.

(** Read, change, write back: [f] gives the new contents and what the caller keeps. *)
Definition update_meta {A} (io : Io) (d : Home) (name : string) (f : Params -> Params * A)
  : result RegError A * Home :=
  match read_meta_map (io_read io) d name with
  | Err e => (Err e, d)
  | Ok meta =>
      let '(meta', a) := f meta in
      match write_meta_map_atomically (io_write io) (merge_between (io_between io) name d) name meta' with
      | (Ok _, d') => (Ok a, d')
      | (Err e, d') => (Err e, d')
      end
  end.

(** ** The registry *)

Record RegState : Type := mkReg {
  records : gmap string VmRecord; idempotency : gmap string string; home : Home }.

Definition get (id : string) (s : RegState) : option VmRecord := records s !! id.

Definition find_by_idempotency_key (key : string) (s : RegState) : option string := idempotency s !! key.

Definition record_idempotency (id key : string) (s : RegState) : RegState :=
  if bool_decide (key = ""%string) then s
  else mkReg (records s) (<[key := id]> (idempotency s)) (home s).

Definition insert_record (record : VmRecord) (s : RegState) : RegState :=
  mkReg (<[vm_id record := record]> (records s)) (idempotency s) (home s).

(** The identity that [insert_persisted] keeps, and the one it writes if any. *)
Definition inserted_identity (meta : Params) (record : VmRecord) : SafeRuntimeIdentity :=
  if identity_eqb (vm_runtime_identity record) default_identity then
    without_secret_values (runtime_identity_of meta (vm_source record) (vm_timeout record))
  else without_secret_values (vm_runtime_identity record).
Definition write_identity (record : VmRecord) (i : SafeRuntimeIdentity) (meta : Params) : Params :=
  if identity_eqb (vm_runtime_identity record) default_identity && has_key meta "runtime_identity" then meta
  else <["runtime_identity"%string := identity_to_value i]> meta.

Definition insert_meta (record : VmRecord) (meta : Params) : Params * VmRecord :=
  let i := inserted_identity meta record in
  (set_lifecycle_meta (vm_lifecycle record)
    (<["error"%string := json_opt JString (vm_error record)]>
    (<["terminated_at"%string := json_opt json_of_f64 (vm_terminated_at record)]>
    (<["status"%string := JString (vm_status record)]>
    (<["persistence"%string := persistence_to_value (vm_persistence record)]>
    (<["last_network_active"%string := json_of_f64 (vm_last_network_active record)]>
    (<["last_active"%string := json_of_f64 (vm_last_active record)]>
    (<["created_at"%string := json_of_f64 (vm_created_at record)]>
    (<["sandbox_id"%string := JString (vm_id record)]>
    (write_identity record i meta))))))))),
   set_identity i record).

Definition insert_persisted (io : Io) (record : VmRecord) (s : RegState) : result RegError unit * RegState :=
  match update_meta io (home s) (vm_name record) (insert_meta record) with
  | (Ok record', h) => (Ok tt, insert_record record' (mkReg (records s) (idempotency s) h))
  | (Err e, h) => (Err e, mkReg (records s) (idempotency s) h)
  end.

Definition persist_lifecycle_record (io : Io) (h : Home) (record : VmRecord) : result RegError VmRecord * Home :=
  update_meta io h (vm_name record) (fun meta =>
    (<["status"%string := JString (vm_status record)]> (set_lifecycle_meta (vm_lifecycle record) meta),
     detail_lifecycle record)).

Definition persist_cancelled_record (io : Io) (h : Home) (record : VmRecord) : result RegError VmRecord * Home :=
  update_meta io h (vm_name record) (fun meta =>
    let err := json_opt JString (vm_error record) in
    (<["error"%string := err]> (<["status"%string := JString (vm_status record)]>
      (set_lifecycle_meta (vm_lifecycle record) meta)),
     let r := detail_lifecycle record in
     set_detail (JObject (<["error"%string := err]> (detail_object (vm_detail r)))) r)).

(** [persist(home, &mut updated)?; ...; *record = updated]. *)
Definition install {A} (p : result RegError VmRecord * Home) (id : string) (out : VmRecord -> A) (s : RegState)
  : result RegError A * RegState :=
  match p with
  | (Ok updated, h) => (Ok (out updated), mkReg (<[id := updated]> (records s)) (idempotency s) h)
  | (Err e, h) => (Err e, mkReg (records s) (idempotency s) h)
  end.

Definition with_record {A} (id : string) (s : RegState) (k : VmRecord -> result RegError A * RegState)
  : result RegError A * RegState :=
  match records s !! id with
  | None => (Err (UnknownSandbox id), s)
  | Some record => k record
  end.

(** The next generation of a state, with its failure cleared. *)
Definition next_lifecycle (l : LifecycleState) (next : Z) : LifecycleState :=
  mkLifecycle (desired l) (observed l) next (operation l) None.

Definition begin_operation (io : Io) (id : string) (expected : Z) (want : LifecyclePhase)
    (op : option LifecycleOperation) (s : RegState) : result RegError TransitionBegin * RegState :=
  with_record id s (fun record =>
    let l := vm_lifecycle record in
    let same := bool_decide (desired l = want) && bool_decide (operation l = op) in
    if (generation l =? expected) && same && bool_decide (failure l = None) then
      (Ok (begin_of l (if is_converged l then AlreadyObserved else Joined)), s)
    else if (generation l =? saturating_add 64 expected 1) && same && bool_decide (failure l = None) &&
        negb (is_converged l) then
      (Ok (begin_of l Joined), s)
    else if negb (generation l =? expected) then
      (Err (StaleGeneration id expected (generation l)), s)
    else if same && bool_decide (is_Some (failure l)) then
      match checked_add 64 expected 1 with
      | None => (Err (GenerationExhausted id), s)
      | Some next =>
          let l' := next_lifecycle l next in
          install (persist_lifecycle_record io (home s) (set_lifecycle l' record)) id (fun r => begin_of (vm_lifecycle r) Acquired) s
      end
    else if negb (is_converged l) then (Err (StillPending id), s)
    else
      match checked_add 64 expected 1 with
      | None => (Err (GenerationExhausted id), s)
      | Some next =>
          let l' := mkLifecycle want (observed l) next op None in
          install (persist_lifecycle_record io (home s) (set_lifecycle l' record)) id (fun r => begin_of (vm_lifecycle r) Acquired) s
      end).

Definition begin_transition (io : Io) (id : string) (expected : Z) (want : LifecyclePhase) (s : RegState)
  : result RegError TransitionBegin * RegState :=
  begin_operation io id expected want None s.

Definition observe_transition (io : Io) (id : string) (gen : Z) (seen : LifecyclePhase) (s : RegState)
  : result RegError LifecycleTransition * RegState :=
  with_record id s (fun record =>
    let l := vm_lifecycle record in
    if negb (generation l =? gen) then (Err (StaleGeneration id gen (generation l)), s)
    else if bool_decide (observed l = seen) && bool_decide (failure l = None) && bool_decide (operation l = None) then
      (Ok (transition_of l), s)
    else
      let l' := mkLifecycle (desired l) seen (generation l) None None in
      install (persist_lifecycle_record io (home s) (set_status (status_for_observed seen) (set_lifecycle l' record)))
        id (fun r => transition_of (vm_lifecycle r)) s).

Definition fail_transition (io : Io) (id : string) (gen : Z) (error : string) (s : RegState)
  : result RegError LifecycleTransition * RegState :=
  with_record id s (fun record =>
    let l := vm_lifecycle record in
    if negb (generation l =? gen) then (Err (StaleGeneration id gen (generation l)), s)
    else if bool_decide (failure l = Some error) then (Ok (transition_of l), s)
    else
      let l' := mkLifecycle (desired l) (observed l) (generation l) (operation l) (Some error) in
      install (persist_lifecycle_record io (home s) (set_lifecycle l' record)) id (fun r => transition_of (vm_lifecycle r)) s).

Definition cancel_transition (io : Io) (id : string) (gen : Z) (seen : LifecyclePhase) (reason : string)
    (s : RegState) : result RegError LifecycleTransition * RegState :=
  with_record id s (fun record =>
    let l := vm_lifecycle record in
    if negb (generation l =? gen) then (Err (StaleGeneration id gen (generation l)), s)
    else if is_converged l && bool_decide (observed l = seen) && bool_decide (vm_error record = Some reason) then
      (Ok (transition_of l), s)
    else
      let l' := mkLifecycle seen seen (generation l) None None in
      install (persist_cancelled_record io (home s)
        (set_record_error (Some reason) (set_status (status_for_observed seen) (set_lifecycle l' record))))
        id (fun r => transition_of (vm_lifecycle r)) s).

Definition resume_transition (io : Io) (id : string) (gen : Z) (s : RegState)
  : result RegError TransitionBegin * RegState :=
  with_record id s (fun record =>
    let l := vm_lifecycle record in
    if negb (generation l =? gen) then (Err (StaleGeneration id gen (generation l)), s)
    else if is_converged l then (Ok (begin_of l AlreadyObserved), s)
    else
      match checked_add 64 gen 1 with
      | None => (Err (GenerationExhausted id), s)
      | Some next =>
          let l' := next_lifecycle l next in
          install (persist_lifecycle_record io (home s) (set_lifecycle l' record)) id (fun r => begin_of (vm_lifecycle r) Acquired) s
      end).

Definition retry_transition (io : Io) (id : string) (gen : Z) (s : RegState)
  : result RegError LifecycleTransition * RegState :=
  with_record id s (fun record =>
    let l := vm_lifecycle record in
    if negb (generation l =? gen) then (Err (StaleGeneration id gen (generation l)), s)
    else if bool_decide (failure l = None) then (Ok (transition_of l), s)
    else
      match checked_add 64 gen 1 with
      | None => (Err (GenerationExhausted id), s)
      | Some next =>
          let l' := next_lifecycle l next in
          install (persist_lifecycle_record io (home s) (set_lifecycle l' record)) id (fun r => transition_of (vm_lifecycle r)) s
      end).

Definition persist_runtime_identity (io : Io) (id : string) (identity : SafeRuntimeIdentity) (s : RegState)
  : result RegError unit * RegState :=
  with_record id s (fun record =>
    let identity := without_secret_values identity in
    if identity_eqb (vm_runtime_identity record) identity then (Ok tt, s)
    else install (update_meta io (home s) (vm_name record) (fun meta =>
      (<["runtime_identity"%string := identity_to_value identity]> meta, set_identity identity record))) id (fun _ => tt) s).

(** The [params] of the relaunch recipe, changed in place if they are there. *)
Definition set_recipe_param (key : string) (v : json) (meta : Params) : Params :=
  match field meta "relaunch_recipe" as_object with
  | Some recipe =>
      match field recipe "params" as_object with
      | Some params =>
          <["relaunch_recipe"%string := JObject (<["params"%string := JObject (<[key := v]> params)]> recipe)]> meta
      | None => meta
      end
  | None => meta
  end.

(** What every writer of other fields adds. *)
Definition stamp_meta (record : VmRecord) (meta : Params) : Params :=
  <["status"%string := JString (vm_status record)]> (set_lifecycle_meta (vm_lifecycle record) meta).

Definition set_idle_timeout_persisted (io : Io) (id : string) (timeout rearmed_at : f64) (s : RegState)
  : result RegError VmRecord * RegState :=
  with_record id s (fun record =>
    install (update_meta io (home s) (vm_name record) (fun meta =>
      let meta := <["last_network_active"%string := json_of_f64 rearmed_at]>
                  (<["idle_timeout_secs"%string := json_of_f64 timeout]> meta) in
      let meta := stamp_meta record (set_recipe_param "idle_timeout_secs" (json_of_f64 timeout) meta) in
      (meta, set_detail (JObject meta) (set_network_active rearmed_at record)))) id (fun r => r) s).

Definition update_detail_persisted (io : Io) (id : string) (update : Params -> Params) (s : RegState)
  : result RegError VmRecord * RegState :=
  with_record id s (fun record =>
    install (update_meta io (home s) (vm_name record) (fun meta =>
      let meta := stamp_meta record (update meta) in (meta, set_detail (JObject meta) record))) id (fun r => r) s).

Definition remove (id : string) (s : RegState) : option VmRecord * RegState :=
  match records s !! id with
  | Some r =>
      (Some r, mkReg (delete id (records s)) (filter (fun kv => snd kv <> id) (idempotency s)) (home s))
  | None => (None, s)
  end.

Definition update (id : string) (f : VmRecord -> VmRecord) (s : RegState) : option VmRecord * RegState :=
  match records s !! id with
  | Some r => (Some (f r), mkReg (<[id := f r]> (records s)) (idempotency s) (home s))
  | None => (None, s)
  end.

Definition touch (now : f64) (r : VmRecord) : VmRecord :=
  mkVmRecord (vm_id r) (vm_name r) (vm_status r) (vm_pid r) (vm_source r) (vm_created_at r) (vm_timeout r)
    (vm_detail r) (vm_tags r) now (vm_last_network_active r) (vm_persistence r)
    (vm_terminated_at r) (vm_error r) (vm_lifecycle r) (vm_incarnation_epoch r) (vm_runtime_identity r).

Definition set_detail_field (id key : string) (value : json) (s : RegState) : option VmRecord * RegState :=
  update id (fun r => set_detail (JObject (<[key := value]> (detail_object (vm_detail r)))) r) s.

Definition remove_idempotency_for (key id : string) (s : RegState) : RegState :=
  if bool_decide (idempotency s !! key = Some id) then
    mkReg (records s) (delete key (idempotency s)) (home s)
  else s.

(** The fields a terminal status is recorded in. *)
Definition status_meta (status : string) (returncode : option Z) (terminated_at : option f64) (meta : Params) : Params :=
  let meta := <["status"%string := JString status]> meta in
  let meta := match returncode with
              | Some code => <["returncode"%string := json_generation code]> meta | None => meta end in
  match terminated_at with
  | Some ts => <["terminated_at"%string := json_of_f64 ts]> meta | None => meta end.

Definition persist_record_status (io : Io) (id status : string) (returncode : option Z)
    (terminated_at : option f64) (s : RegState) : result RegError unit * RegState :=
  match records s !! id with
  | None =>
      match update_meta io (home s) id (fun meta => (status_meta status returncode terminated_at meta, tt)) with
      | (r, h) => (r, mkReg (records s) (idempotency s) h)
      end
  | Some record =>
      let updated := set_terminated_at (match terminated_at with Some ts => Some ts | None => vm_terminated_at record end)
                       (set_status status record) in
      install (update_meta io (home s) (vm_name record) (fun meta =>
        let meta := set_lifecycle_meta (vm_lifecycle updated) (status_meta status returncode terminated_at meta) in
        (meta, set_detail (JObject meta) updated))) id (fun _ => tt) s
  end.

(** ** Listings

    A [HashMap] lists its entries in an order of its own. *)
Context (order : gmap string VmRecord -> list (string * VmRecord)).

Definition list_records (s : RegState) : list VmRecord :=
  sort_by (fun a b => String.leb (vm_name a) (vm_name b)) (snd <$> order (records s)).

Record ReconciliationInput : Type := mkReconciliation {
  ri_record : VmRecord; ri_lifecycle : LifecycleState; ri_pid_alive : bool }.

Definition non_converged_transitions (alive : Z -> bool) (s : RegState) : list ReconciliationInput :=
  omap (fun r =>
    let pid_alive := match vm_pid r with Some pid => pid_lives alive pid | None => false end in
    if is_converged (vm_lifecycle r) then None else Some (mkReconciliation r (vm_lifecycle r) pid_alive))
    (list_records s).

Definition index_key (r : VmRecord) : option string :=
  if bool_decide (vm_status r = "terminated"%string) then None
  else m ← as_object (vm_detail r); string_field m "idempotency_key".

Definition build_index (l : list (string * VmRecord)) : gmap string string :=
  foldl (fun m e => match index_key (snd e) with Some key => <[key := fst e]> m | None => m end) ∅ l.

Definition rebuild_idempotency_index (s : RegState) : RegState :=
  mkReg (records s) (build_index (order (records s))) (home s).

(** ** Start-up *)

Section rehydrate.
Context (alive : Z -> bool) (now : f64) (ios : string -> Io).

Definition saved_status (meta : Params) : string := default "stopped"%string (field meta "status" as_str).

(** The lifecycle a record starts with, before and after the probe of its process. *)
Definition saved_lifecycle (meta : Params) (running : bool) : LifecycleState :=
  let l := lifecycle_of meta (saved_status meta) in
  if has_key meta "lifecycle" || has_key meta "desired_state" || has_key meta "observed_state" then l
  else
    let actual := if running then Running
                  else match observed l with Suspended => Suspended | Terminated => Terminated | _ => Stopped end in
    mkLifecycle actual actual (generation l) (operation l) (failure l).

Definition is_running (meta : Params) : bool :=
  match pid_of meta with Some pid => pid_lives alive pid | None => false end.

Definition dir_id (name : string) (meta : Params) : string := default name (string_field meta "sandbox_id").

Definition opt_else {A} (a b : option A) : option A := match a with Some x => Some x | None => b end.

(** The record of a directory, and whether its file needs to be brought up to date. *)
Definition rehydrated (name : string) (meta : Params) : VmRecord * bool :=
  let running := is_running meta in
  let '(lifecycle, lifecycle_changed) := normalize_observed_for_pid (saved_lifecycle meta running) running in
  let status := status_for_observed (observed lifecycle) in
  let created_at := default now (number_field meta "created_at") in
  let record :=
    mkVmRecord (dir_id name meta) name status (pid_of meta) (source_of meta) created_at (timeout_of meta)
      (JObject (if running && match meta !! "tap"%string with Some v => json_truthy v | None => false end
                then <["tunnels_lost"%string := JBool true]> meta else meta))
      (tags_of meta) (default created_at (number_field meta "last_active"))
      (default created_at (opt_else (number_field meta "last_network_active") (number_field meta "last_active")))
      (default Persistent (meta !! "persistence"%string ≫= persistence_from_value))
      (number_field meta "terminated_at") (string_field meta "error") lifecycle
      (default 0 (field meta "incarnation_epoch" as_i64))
      (runtime_identity_of meta (source_of meta) (timeout_of meta)) in
  if lifecycle_changed || negb (bool_decide (saved_status meta = status)) then (detail_lifecycle record, true)
  else (record, false).

(** One directory; the result of the write is dropped. *)
Definition rehydrate_dir (name : string) (h : Home)
  : result RegError (VmRecord * option (string * list string)) * Home :=
  match read_meta_map (io_read (ios name)) h name with
  | Err e => (Err e, h)
  | Ok meta =>
      let '(record, changed) := rehydrated name meta in
      let locks := if is_running meta
                   then match volume_names meta with [] => None | vs => Some (name, vs) end else None in
      (Ok (record, locks),
       if changed then snd (write_meta_map_atomically (io_write (ios name))
                              (merge_between (io_between (ios name)) name h) name (stamp_meta record meta))
       else h)
  end.

Fixpoint rehydrate_dirs (names : list string) (acc : gmap string VmRecord) (h : Home)
  : result RegError (gmap string VmRecord * list (string * list string)) * Home :=
  match names with
  | [] => (Ok (acc, []), h)
  | name :: names =>
      match rehydrate_dir name h with
      | (Err e, h) => (Err e, h)
      | (Ok (record, lock), h) =>
          match rehydrate_dirs names (<[vm_id record := record]> acc) h with
          | (Ok (recs, locks), h) => (Ok (recs, option_list lock ++ locks), h)
          | (Err e, h) => (Err e, h)
          end
      end
  end.

(** [listed]: the directory could be read. *)
Definition rehydrate (listed : bool) (s : RegState)
  : result RegError (list (string * list string)) * RegState :=
  if listed then
    match rehydrate_dirs (sort_by String.leb (elements (dom (home s)))) ∅ (home s) with
    | (Ok (recs, locks), h) => (Ok locks, mkReg recs (build_index (order recs)) h)
    | (Err e, h) => (Err e, mkReg (records s) (idempotency s) h)
    end
  else (Err MetaIo, s).
End rehydrate.
End registry.
