(* ===== verification/VmRegistryHome.v ===== *)
(** What a restart reads: the lifecycle codec against its reader, [meta.json] as it comes back
    from the disk, and what the writers of the registry leave in a directory.  A directory is
    seen as an [DirEntry]: the sandbox it belongs to, its generation and the recorded intent. *)

From S2P Require Import Prelude F64 Json VmRegistry.

(** ** The codec *)

Lemma phase_spelling s : phase_as_str (phase_from_str s) = s.
Proof. unfold phase_from_str. by repeat (case_bool_decide; [by subst|]). Qed.

(** The phase a spelling is read as. *)
Definition canonical (l : LifecycleState) : LifecycleState :=
  mkLifecycle (phase_from_str (phase_as_str (desired l))) (phase_from_str (phase_as_str (observed l)))
    (generation l) (operation l) (failure l).

Lemma value_operation_json o : value_operation (json_operation o) = Some o.
Proof. by destruct o. Qed.

Lemma value_opt_operation o : value_opt value_operation (json_opt json_operation o) = Some o.
Proof. by destruct o as [[]|]. Qed.

Lemma value_opt_str o : value_opt as_str (json_opt JString o) = Some o.
Proof. by destruct o. Qed.

Lemma lifecycle_from_to l :
  0 <= generation l -> lifecycle_from_value (lifecycle_to_value l) = Some (canonical l).
Proof.
  intros Hg. unfold lifecycle_from_value, lifecycle_to_value, lifecycle_from_fields.
  simplify_map_eq. cbn [or_default value_phase json_phase as_str fmap option_fmap option_map mbind option_bind].
  unfold value_u64, json_generation, as_u64. rewrite (proj2 (Z.leb_le _ _) Hg).
  cbn [mbind option_bind]. rewrite value_opt_operation. cbn [mbind option_bind].
  rewrite value_opt_str. done.
Qed.

(** ** Values that were written and read back *)

Definition same_meta (m n : Params) : Prop := forall key, option_Forall2 reparsed (m !! key) (n !! key).

Lemma same_meta_refl m : same_meta m m.
Proof. intros key. destruct (m !! key); repeat constructor. Qed.

Lemma reparsed_as_u64 v w : reparsed v w -> as_u64 w = as_u64 v.
Proof. by destruct 1. Qed.

Lemma reparsed_value_phase v w : reparsed v w -> value_phase w = value_phase v.
Proof. intros Hr. unfold value_phase. by rewrite (reparsed_as_str _ _ Hr). Qed.

Lemma singleton_list (m : Params) k v : map_to_list m = [(k, v)] <-> m = {[k := v]}.
Proof.
  split; [|intros ->; apply map_to_list_singleton].
  intros Hm. rewrite <- (list_to_map_to_list m), Hm. done.
Qed.

Lemma pointwise_singleton (R : json -> json -> Prop) (m n : Params) k v :
  (forall key, option_Forall2 R (m !! key) (n !! key)) -> map_to_list m = [(k, v)] ->
  exists w, map_to_list n = [(k, w)] /\ R v w.
Proof.
  intros Hs ->%singleton_list. pose proof (Hs k) as Hk. rewrite lookup_singleton_eq in Hk.
  inversion Hk as [? w Hr Heq Hw|]; subst. exists w. split; [|done]. apply singleton_list, map_eq. intros j.
  destruct (decide (j = k)) as [->|Hj]; [by rewrite lookup_singleton_eq|].
  specialize (Hs j). rewrite lookup_singleton_ne in Hs |- * by congruence. by inversion Hs.
Qed.

(** What an enum is read from, if it is an object of one member. *)
Definition variant_of (v : json) : option (string * json) :=
  match v with JObject m => match map_to_list m with [e] => Some e | _ => None end | _ => None end.

Lemma reparsed_variant v w :
  reparsed v w -> option_Forall2 (fun a b => fst a = fst b /\ reparsed (snd a) (snd b)) (variant_of v) (variant_of w).
Proof.
  destruct 1 as [v|x y Hf|l k Hl|m n Hmn]; try (by constructor).
  - destruct (variant_of v); repeat constructor.
  - cbn [variant_of]. destruct (map_to_list m) as [|[k v] [|e l]] eqn:Hm.
    2: { destruct (pointwise_singleton _ _ _ _ _ Hmn Hm) as (w & -> & Hr). by repeat constructor. }
    all: destruct (map_to_list n) as [|[k' v'] [|e' l']] eqn:Hn; try constructor;
      destruct (pointwise_singleton (flip reparsed) n m k' v') as (w & Hw & _); [|done|congruence];
      intros key; by destruct (Hmn key); constructor.
Qed.

Lemma reparsed_operation v w : reparsed v w -> value_operation w = value_operation v.
Proof.
  assert (Heq : forall v, value_operation v =
    '(variant, x) ← variant_of v; fields ← as_object x;
    if bool_decide (variant = "Rollback"%string) then Rollback <$> field fields "recovery_point" as_str
    else if bool_decide (variant = "Other"%string) then Other <$> field fields "kind" as_str else None).
  { intros u. destruct u as [| | | | |m]; try done. cbn [value_operation variant_of].
    destruct (map_to_list m) as [|[k x] [|e l]]; try done; by destruct x. }
  intros Hr%reparsed_variant. rewrite !Heq. destruct Hr as [[k x] [j y] [Hk Hx]|]; [|done]. cbn in Hk, Hx |- *. subst j.
  destruct x as [| | | | |m]; try by inversion Hx.
  apply reparsed_object_inv in Hx as (n & -> & Hmn). cbn [as_object mbind option_bind].
  by rewrite !(reparsed_field as_str m n) by eauto using reparsed_as_str.
Qed.

Lemma reparsed_opt {A} (f : json -> option A) v w :
  (forall v w, reparsed v w -> f w = f v) -> reparsed v w -> value_opt f w = value_opt f v.
Proof.
  intros Hf Hr. pose proof (Hf v w Hr) as He. unfold value_opt. by destruct Hr; try done; rewrite He.
Qed.

Lemma reparsed_or_default {A} (f : json -> option A) o o' d :
  (forall v w, reparsed v w -> f w = f v) -> option_Forall2 reparsed o o' -> or_default o' f d = or_default o f d.
Proof. intros Hf [v w Hr|]; [by apply Hf|done]. Qed.

Lemma reparsed_lookup l k i : Forall2 reparsed l k -> option_Forall2 reparsed (l !! i) (k !! i).
Proof. intros Hl. by apply Forall2_lookup. Qed.

Lemma reparsed_from_fields (g h : string -> nat -> option json) :
  (forall key i, option_Forall2 reparsed (g key i) (h key i)) -> lifecycle_from_fields h = lifecycle_from_fields g.
Proof.
  intros Hg. unfold lifecycle_from_fields.
  rewrite !(fun f d key i Hf => reparsed_or_default f _ _ d Hf (Hg key i))
    by eauto using reparsed_value_phase, reparsed_as_u64, reparsed_opt, reparsed_operation, reparsed_as_str.
  done.
Qed.

Lemma reparsed_lifecycle v w : reparsed v w -> lifecycle_from_value w = lifecycle_from_value v.
Proof.
  destruct 1 as [v|x y Hf|l k Hl|m n Hmn]; try done; cbn [lifecycle_from_value].
  - rewrite <- (Forall2_length _ _ _ Hl). case_match; [|done].
    apply reparsed_from_fields. intros _ i. by apply reparsed_lookup.
  - apply reparsed_from_fields. intros key _. apply Hmn.
Qed.

(** ** Directories *)

(** What a sandbox is meant to become, which must survive; what is observed is probed anew. *)
Definition intent (l : LifecycleState) : string * Z * option LifecycleOperation * option string :=
  (phase_as_str (desired l), generation l, operation l, failure l).

Lemma intent_canonical l : intent (canonical l) = intent l.
Proof. unfold intent, canonical. cbn. by rewrite phase_spelling. Qed.

Record DirEntry : Type := mkDirEntry {
  e_id : string; e_gen : Z; e_intent : option (string * Z * option LifecycleOperation * option string) }.

Definition recorded (m : Params) : option LifecycleState := m !! "lifecycle"%string ≫= lifecycle_from_value.

Definition meta_entry (name : string) (m : Params) : DirEntry :=
  mkDirEntry (dir_id name m) (generation (lifecycle_of m ""%string)) (intent <$> recorded m).

Lemma lifecycle_of_generation m s : generation (lifecycle_of m s) = e_gen (meta_entry ""%string m).
Proof. cbn. unfold lifecycle_of. by case_match. Qed.

Lemma meta_entry_ext name m n :
  m !! "lifecycle"%string = n !! "lifecycle"%string ->
  m !! "state_generation"%string = n !! "state_generation"%string ->
  m !! "sandbox_id"%string = n !! "sandbox_id"%string -> meta_entry name m = meta_entry name n.
Proof.
  intros Hl Hg Hi. unfold meta_entry, dir_id, recorded, lifecycle_of, string_field, field. rewrite Hl, Hg, Hi.
  by destruct (n !! "lifecycle"%string ≫= lifecycle_from_value).
Qed.

Lemma same_meta_entry name m n : same_meta m n -> meta_entry name n = meta_entry name m.
Proof.
  intros Hs. unfold meta_entry, dir_id, recorded, lifecycle_of, string_field.
  rewrite !(reparsed_field as_str m n), (reparsed_field as_u64 m n) by eauto using reparsed_as_str, reparsed_as_u64.
  assert (n !! "lifecycle"%string ≫= lifecycle_from_value = m !! "lifecycle"%string ≫= lifecycle_from_value) as ->
    by (destruct (Hs "lifecycle"%string); [by apply reparsed_lifecycle|done]).
  by destruct (m !! "lifecycle"%string ≫= lifecycle_from_value).
Qed.

Lemma as_u64_nonneg v z : as_u64 v = Some z -> 0 <= z.
Proof. unfold as_u64. intros. repeat case_match; simplify_eq. by apply Z.leb_le. Qed.

Lemma from_fields_nonneg get l : lifecycle_from_fields get = Some l -> 0 <= generation l.
Proof.
  unfold lifecycle_from_fields. intros Hl.
  apply bind_Some in Hl as (d & _ & Hl). apply bind_Some in Hl as (o & _ & Hl).
  apply bind_Some in Hl as (g & Hg & Hl). apply bind_Some in Hl as (op & _ & Hl).
  apply bind_Some in Hl as (f & _ & Hl). injection Hl as <-. cbn. unfold or_default in Hg.
  case_match; [by eapply as_u64_nonneg|by injection Hg as <-].
Qed.

Lemma recorded_nonneg m l : recorded m = Some l -> 0 <= generation l.
Proof.
  unfold recorded. intros (v & _ & Hv)%bind_Some. unfold lifecycle_from_value in Hv.
  repeat case_match; simplify_eq; eauto using from_fields_nonneg.
Qed.

Lemma meta_entry_nonneg name m : 0 <= e_gen (meta_entry name m).
Proof.
  cbn. unfold lifecycle_of. destruct (m !! "lifecycle"%string ≫= lifecycle_from_value) as [l|] eqn:E.
  - by eapply (recorded_nonneg m).
  - cbn. unfold field. destruct (m !! "state_generation"%string) as [v|]; cbn; [|done].
    destruct (as_u64 v) eqn:Ev; cbn; [by eapply as_u64_nonneg|done].
Qed.

Lemma set_lifecycle_meta_entry name l m :
  0 <= generation l ->
  meta_entry name (set_lifecycle_meta l m) = mkDirEntry (dir_id name m) (generation l) (Some (intent l)).
Proof.
  intros Hg.
  assert (Hl : set_lifecycle_meta l m !! "lifecycle"%string = Some (lifecycle_to_value l)).
  { unfold set_lifecycle_meta, set_lifecycle_detail. by rewrite !lookup_insert_ne, lookup_insert_eq by done. }
  assert (Hi : set_lifecycle_meta l m !! "sandbox_id"%string = m !! "sandbox_id"%string).
  { unfold set_lifecycle_meta, set_lifecycle_detail. by rewrite !lookup_insert_ne by done. }
  unfold meta_entry, recorded, lifecycle_of, dir_id, string_field, field. rewrite Hl, Hi.
  cbn [mbind option_bind]. rewrite lifecycle_from_to by done. cbn. by rewrite intent_canonical.
Qed.

Lemma stamp_meta_entry name r m :
  0 <= generation (vm_lifecycle r) ->
  meta_entry name (stamp_meta r m) =
  mkDirEntry (dir_id name m) (generation (vm_lifecycle r)) (Some (intent (vm_lifecycle r))).
Proof.
  intros Hg. unfold stamp_meta. rewrite <- set_lifecycle_meta_entry by done.
  apply meta_entry_ext; by rewrite lookup_insert_ne.
Qed.

(** Writers that go through [merge_meta_map] leave the identity and the intent alone. *)
Definition vmm_update (u : Params) : Prop :=
  u !! "sandbox_id"%string = None /\ u !! "lifecycle"%string = None.

Lemma merge_updates_other u m key : u !! key = None -> merge_updates u m !! key = m !! key.
Proof.
  intros Hu. unfold merge_updates. rewrite lookup_union_r; [done|]. apply map_lookup_filter_None. by left.
Qed.

Lemma merge_updates_entry name u m :
  vmm_update u ->
  e_id (meta_entry name (merge_updates u m)) = e_id (meta_entry name m) /\
  e_intent (meta_entry name (merge_updates u m)) = e_intent (meta_entry name m) /\
  e_gen (meta_entry name m) <= e_gen (meta_entry name (merge_updates u m)).
Proof.
  intros [Hi Hl]. split_and!.
  - cbn. unfold dir_id, string_field, field. by rewrite merge_updates_other.
  - cbn. unfold recorded. by rewrite merge_updates_other.
  - destruct (lifecycle_managed m) eqn:Hm.
    + apply Z.eq_le_incl. f_equal. apply meta_entry_ext; rewrite ?merge_updates_other by done; try done.
      unfold merge_updates. rewrite lookup_union_r; [done|]. apply map_lookup_filter_None. right.
      intros x _ [|Hk]; [congruence|]. apply Hk. cbn. set_solver.
    + trans 0; [|apply meta_entry_nonneg]. unfold lifecycle_managed, has_key in Hm. bool_to_prop.
      cbn. unfold lifecycle_of, field.
      repeat match goal with Hx : ~ is_Some (m !! ?k) |- _ => apply eq_None_not_Some in Hx; rewrite Hx; clear Hx end.
      done.
Qed.

(** Of the same sandbox with the same intent, and a generation that is no smaller. *)
Definition entry_le (a b : DirEntry) : Prop :=
  e_id b = e_id a /\ e_intent b = e_intent a /\ e_gen a <= e_gen b.

#[global] Instance entry_le_preorder : PreOrder entry_le.
Proof. split; [by intros ?|intros ??? (?&?&?) (?&?&?); split_and!; (congruence || lia)]. Qed.

Section home.
Context `{Serde} `{!Pretty} `{RecordCodecs}.

(** Every [meta.json] holds an object. *)
Definition home_ok (h : Home) : Prop :=
  forall name text, h !! name = Some (Some text) -> exists m, from_str text = Some (JObject m).

Definition entry (h : Home) (name : string) : DirEntry :=
  match read_meta_map true h name with Ok m => meta_entry name m | Err _ => mkDirEntry name 0 None end.

Lemma home_ok_read h name : home_ok h -> exists m, read_meta_map true h name = Ok m.
Proof.
  intros Hh. unfold read_meta_map. destruct (h !! name) as [[text|]|] eqn:E; [|by eexists..].
  destruct (Hh _ _ E) as (m & ->). by eexists.
Qed.

Lemma read_ext h h' name : h !! name = h' !! name -> read_meta_map true h name = read_meta_map true h' name.
Proof. intros He. unfold read_meta_map. by rewrite He. Qed.

Lemma entry_ext h h' name : h !! name = h' !! name -> entry h name = entry h' name.
Proof. intros He. unfold entry. by rewrite (read_ext h h'). Qed.

Lemma read_entry h name m : read_meta_map true h name = Ok m -> entry h name = meta_entry name m.
Proof. unfold entry. by intros ->. Qed.

Lemma read_flag b h name m : read_meta_map b h name = Ok m -> read_meta_map true h name = Ok m.
Proof. by destruct b. Qed.

Lemma entry_nonneg h name : 0 <= e_gen (entry h name).
Proof. unfold entry. case_match; [apply meta_entry_nonneg|done]. Qed.

Definition written (h : Home) (name : string) (m : Params) : Home :=
  <[name := Some (to_vec_pretty (JObject m))]> h.

Lemma written_ok h name m :
  home_ok h -> home_ok (written h name m) /\ entry (written h name m) name = meta_entry name m.
Proof.
  intros Hh. destruct (from_str_pretty (JObject m)) as (w & Hw & Hr).
  apply reparsed_object_inv in Hr as (n & -> & Hmn). split.
  - unfold written. intros name' text [[<- [= <-]]|[_ Hl]]%lookup_insert_Some; [by eexists|by eapply Hh].
  - unfold entry, read_meta_map, written. rewrite lookup_insert_eq, Hw. cbn. by apply same_meta_entry.
Qed.

Lemma made_dir h name :
  home_ok h -> home_ok (<[name := default None (h !! name)]> h) /\
  forall n, entry (<[name := default None (h !! name)]> h) n = entry h n.
Proof.
  intros Hh. split.
  - intros name' text [[<- Hd]|[_ Hl]]%lookup_insert_Some; [|by eapply Hh].
    destruct (h !! name) as [o|] eqn:E; cbn in Hd; [subst o; by eapply Hh|done].
  - intros n. destruct (decide (n = name)) as [->|Hn]; [|apply entry_ext; by rewrite lookup_insert_ne].
    unfold entry, read_meta_map. rewrite lookup_insert_eq. by destruct (h !! name) as [[]|].
Qed.

(** What a change of one directory leaves of the others. *)
Definition only_changes (name : string) (h h' : Home) : Prop :=
  home_ok h' /\ (forall n, n <> name -> h' !! n = h !! n) /\ (is_Some (h !! name) -> is_Some (h' !! name)).

Lemma only_changes_refl name h : home_ok h -> only_changes name h h.
Proof. intros Hh. split_and!; [done|by intros ??|done]. Qed.

Lemma only_changes_trans name h1 h2 h3 : only_changes name h1 h2 -> only_changes name h2 h3 -> only_changes name h1 h3.
Proof.
  intros (_ & Ho & Hd) (Hk & Ho' & Hd'). split_and!; [done| |auto]. intros n Hn. by rewrite Ho', Ho.
Qed.

Lemma only_changes_entry name h h' n : only_changes name h h' -> n <> name -> entry h' n = entry h n.
Proof. intros (_ & Ho & _) Hn. by apply entry_ext, Ho. Qed.

Lemma meta_write_spec w h name m :
  home_ok h ->
  let '(r, h') := write_meta_map_atomically w h name m in
  only_changes name h h' /\
  match r with
  | Ok _ => w = Written /\ h' = written h name m
  | Err _ => w <> Written /\ (w = NotSynced /\ h' = written h name m \/ entry h' name = entry h name)
  end.
Proof.
  intros Hh. destruct (written_ok h name m Hh) as [Hw _]. destruct (made_dir h name Hh) as [Hd He].
  assert (Ht : forall o, home_ok (<[name := o]> h) -> only_changes name h (<[name := o]> h)).
  { intros o Ho. split_and!; [done|intros n Hn; by rewrite lookup_insert_ne|by rewrite lookup_insert_eq]. }
  destruct w; cbn.
  - split; [by apply Ht|done].
  - split; [by apply only_changes_refl|auto].
  - split; [by apply Ht|auto].
  - split; [by apply Ht|auto].
Qed.

Lemma merge_spec readable w h name u :
  home_ok h -> vmm_update u ->
  only_changes name h (snd (merge_meta_map readable w h name u)) /\
  entry_le (entry h name) (entry (snd (merge_meta_map readable w h name u)) name).
Proof.
  intros Hh Hu. unfold merge_meta_map. destruct (read_meta_map readable h name) as [m|e] eqn:Hr;
    [|split; [by apply only_changes_refl|done]].
  apply read_flag, read_entry in Hr. pose proof (merge_updates_entry name u m Hu) as Hm.
  pose proof (meta_write_spec w h name (merge_updates u m) Hh) as Hs.
  destruct (written_ok h name (merge_updates u m) Hh) as [_ Hw].
  destruct (write_meta_map_atomically w h name _) as [[] h']; cbn; destruct Hs as [Ht Hc]; (split; [done|]).
  - destruct Hc as [_ ->]. by rewrite Hw, Hr.
  - destruct Hc as [_ [[_ ->]| ->]]; [by rewrite Hw, Hr|done].
Qed.

Lemma merge_between_spec us h name :
  home_ok h -> Forall vmm_update us ->
  only_changes name h (merge_between us name h) /\ entry_le (entry h name) (entry (merge_between us name h) name).
Proof.
  intros Hh Hus. revert h Hh. induction Hus as [|u us Hu Hus IH]; intros h Hh;
    [split; [by apply only_changes_refl|done]|].
  cbn. destruct (merge_spec true Written h name u Hh Hu) as [Ht He].
  destruct (IH _ (proj1 Ht)) as [Ht' He']. split; [by eapply only_changes_trans|by etrans].
Qed.

(** The file after a read-modify-write that was not refused by the file system, and after one
    that was. *)
Lemma update_meta_spec {A} io h name (f : Params -> Params * A) :
  home_ok h -> Forall vmm_update (io_between io) ->
  let '(r, h') := update_meta io h name f in
  only_changes name h h' /\
  match r with
  | Ok a => exists m, read_meta_map true h name = Ok m /\ a = snd (f m) /\ is_Some (h' !! name) /\
      entry h' name = meta_entry name (fst (f m))
  | Err _ => entry_le (entry h name) (entry h' name) \/
      io_write io = NotSynced /\ exists m, read_meta_map true h name = Ok m /\ is_Some (h' !! name) /\
      entry h' name = meta_entry name (fst (f m))
  end.
Proof.
  intros Hh Hb. unfold update_meta. destruct (read_meta_map (io_read io) h name) as [m|e] eqn:Hr;
    [|split; [by apply only_changes_refl|by left]].
  apply read_flag in Hr. destruct (f m) as [m' a] eqn:Hf.
  destruct (merge_between_spec (io_between io) h name Hh Hb) as [Ht He].
  set (h1 := merge_between _ _ _) in *. destruct (written_ok h1 name m' (proj1 Ht)) as [_ Hw].
  assert (Hd : is_Some (written h1 name m' !! name)) by (unfold written; by rewrite lookup_insert_eq).
  pose proof (meta_write_spec (io_write io) h1 name m' (proj1 Ht)) as Hs.
  destruct (write_meta_map_atomically _ h1 name m') as [[u|e] h']; destruct Hs as [Ht' Hc];
    (split; [by eapply only_changes_trans|]).
  - destruct Hc as [_ ->]. exists m. rewrite Hf. by split_and!.
  - destruct Hc as [_ [[Hn ->]|Heq]]; [|left; by rewrite Heq].
    right. split; [done|]. exists m. rewrite Hf. by split_and!.
Qed.
End home.
