(* ===== verification/VmRegistryInvariant.v ===== *)
(** The invariant of the registry of [VmRegistry] and of its directories, relative to the list of
    the generations that were handed out as [Acquired], and that every operation keeps it. *)

From S2P Require Import Prelude F64 Json VmRegistry VmRegistryHome.

Section invariant.
Context `{Serde} `{!Pretty} `{RecordCodecs}.

(** ** The invariant *)

(** [synced]: no write is reported as failed after it replaced the file. *)
Record record_ok (synced : bool) (hist : list (string * Z)) (h : Home) (id : string) (r : VmRecord) : Prop := {
  rk_id : vm_id r = id;
  rk_gen : 0 <= generation (vm_lifecycle r);
  rk_dir : is_Some (h !! vm_name r);
  rk_entry : e_id (entry h (vm_name r)) = id;
  rk_hist : forall g, (id, g) ∈ hist -> g <= generation (vm_lifecycle r);
  rk_intent : synced = true ->
    e_intent (entry h (vm_name r)) = None \/ e_intent (entry h (vm_name r)) = Some (intent (vm_lifecycle r)) }.

Record reg_ok (synced : bool) (hist : list (string * Z)) (s : RegState) : Prop := {
  ro_home : home_ok (home s);
  ro_ids : forall n n', is_Some (home s !! n) -> is_Some (home s !! n') ->
    e_id (entry (home s) n) = e_id (entry (home s) n') -> n = n';
  ro_records : forall id r, records s !! id = Some r -> record_ok synced hist (home s) id r;
  ro_disk : forall n g, is_Some (home s !! n) -> (e_id (entry (home s) n), g) ∈ hist -> g <= e_gen (entry (home s) n);
  ro_owned : forall id g, (id, g) ∈ hist -> exists n, is_Some (home s !! n) /\ e_id (entry (home s) n) = id;
  ro_hist : NoDup hist }.

(** A change of one directory and of the records. *)
Lemma reg_touch synced hist s name h' recs idem :
  reg_ok synced hist s -> only_changes name (home s) h' ->
  (is_Some (h' !! name) ->
    (forall n, n <> name -> is_Some (home s !! n) -> e_id (entry (home s) n) <> e_id (entry h' name)) /\
    (forall g, (e_id (entry h' name), g) ∈ hist -> g <= e_gen (entry h' name))) ->
  (forall g, is_Some (home s !! name) -> (e_id (entry (home s) name), g) ∈ hist -> e_id (entry h' name) = e_id (entry (home s) name)) ->
  (forall id r, recs !! id = Some r ->
    vm_name r <> name /\ records s !! id = Some r \/ record_ok synced hist h' id r) ->
  reg_ok synced hist (mkReg recs idem h').
Proof.
  intros [Hh Hids Hrec Hdisk Hown Hnd] Ht Hname Hkept Hrecs. pose proof Ht as (Hh' & Ho & Hst).
  split; cbn [records home]; [done| | | | |done].
  - intros n n' Hn Hn'. destruct (decide (n = name)) as [->|Hne], (decide (n' = name)) as [->|Hne']; [done|..].
    + rewrite (only_changes_entry _ _ _ n' Ht Hne'). rewrite Ho in Hn' by done.
      intros He. by destruct (proj1 (Hname Hn) n' Hne' Hn').
    + rewrite (only_changes_entry _ _ _ n Ht Hne). rewrite Ho in Hn by done.
      intros He. by destruct (proj1 (Hname Hn') n Hne Hn).
    + rewrite !(only_changes_entry _ _ _ _ Ht) by done. rewrite Ho in Hn, Hn' by done. by apply Hids.
  - intros id r Hr. destruct (Hrecs id r Hr) as [[Hne Hr0]|]; [|done].
    destruct (Hrec _ _ Hr0). split; rewrite ?(only_changes_entry _ _ _ _ Ht Hne), ?Ho by done; done.
  - intros n g Hn. destruct (decide (n = name)) as [->|Hne]; [by apply Hname|].
    rewrite (only_changes_entry _ _ _ _ Ht Hne). rewrite Ho in Hn by done. by apply Hdisk.
  - intros id g Hin. destruct (Hown id g Hin) as (n & Hn & <-). exists n. destruct (decide (n = name)) as [->|Hne].
    + split; [by apply Hst|by eapply Hkept].
    + by rewrite (only_changes_entry _ _ _ _ Ht Hne), Ho.
Qed.

(** A change of a directory that is there and keeps its sandbox. *)
Lemma reg_touch_same synced hist s name h' recs idem :
  reg_ok synced hist s -> only_changes name (home s) h' -> is_Some (home s !! name) ->
  e_id (entry h' name) = e_id (entry (home s) name) ->
  (forall g, (e_id (entry h' name), g) ∈ hist -> g <= e_gen (entry h' name)) ->
  (forall id r, recs !! id = Some r ->
    vm_name r <> name /\ records s !! id = Some r \/ record_ok synced hist h' id r) ->
  reg_ok synced hist (mkReg recs idem h').
Proof.
  intros Hok Ht Hn He Hg Hr. eapply reg_touch; [done..| |done|done]. intros _. split; [|done].
  intros n Hne Hsome Heq. apply Hne. eapply ro_ids; [done..|congruence].
Qed.

Lemma record_ok_le synced hist h h' id r :
  record_ok synced hist h id r -> is_Some (h' !! vm_name r) -> entry_le (entry h (vm_name r)) (entry h' (vm_name r)) ->
  record_ok synced hist h' id r.
Proof. intros [] Hd (Hi & Hin & Hg). by split; rewrite ?Hi, ?Hin. Qed.

Lemma record_names synced hist s id r id' r' :
  reg_ok synced hist s -> records s !! id = Some r -> records s !! id' = Some r' -> vm_name r = vm_name r' -> id = id'.
Proof.
  intros Hok Hr Hr' Hn. apply (ro_records _ _ _ Hok) in Hr, Hr'.
  rewrite <- (rk_entry _ _ _ _ _ Hr), <- (rk_entry _ _ _ _ _ Hr'). by rewrite Hn.
Qed.

(** Memory and other directories alone; one directory at most later. *)
Lemma reg_later synced hist s name h' :
  reg_ok synced hist s -> only_changes name (home s) h' -> is_Some (home s !! name) ->
  entry_le (entry (home s) name) (entry h' name) ->
  reg_ok synced hist (mkReg (records s) (idempotency s) h').
Proof.
  intros Hok Ht Hn He. pose proof He as (Hi & _ & Hg). eapply reg_touch_same; [done..| |].
  - intros g Hin. rewrite Hi in Hin. trans (e_gen (entry (home s) name)); [by eapply ro_disk|done].
  - intros id r Hr. destruct (decide (vm_name r = name)) as [<-|]; [right|by left].
    eapply record_ok_le; [by apply (ro_records _ _ _ Hok)|by apply Ht|done].
Qed.

(** ** Operations on a record *)

Definition io_ok (synced : bool) (io : Io) : Prop :=
  Forall vmm_update (io_between io) /\ (synced = true -> io_write io <> NotSynced).

(** What the operations on one record do to its file and to the record. *)
Definition stamps (r : VmRecord) (f : Params -> Params * VmRecord) : Prop :=
  forall m, let '(m', r') := f m in
  vm_id r' = vm_id r /\ vm_name r' = vm_name r /\ generation (vm_lifecycle r) <= generation (vm_lifecycle r') /\
  (meta_entry (vm_name r) m' =
     mkDirEntry (dir_id (vm_name r) m) (generation (vm_lifecycle r')) (Some (intent (vm_lifecycle r'))) \/
   meta_entry (vm_name r) m' = meta_entry (vm_name r) m /\ vm_lifecycle r' = vm_lifecycle r).

Lemma record_install_ok {A} synced hist s id r io f (out : VmRecord -> A) :
  reg_ok synced hist s -> records s !! id = Some r -> io_ok synced io -> stamps r f ->
  let '(res, s') := install (update_meta io (home s) (vm_name r) f) id out s in
  reg_ok synced hist s' /\
  match res with
  | Ok a => exists m, records s' = <[id := snd (f m)]> (records s) /\ a = out (snd (f m)) /\
      entry (home s') (vm_name r) = meta_entry (vm_name r) (fst (f m))
  | Err _ => records s' = records s
  end.
Proof.
  intros Hok Hr [Hb Hsync] Hf. pose proof (ro_records _ _ _ Hok _ _ Hr) as [Hid Hg Hd He Hh Hin].
  assert (Hdisk : forall g, (id, g) ∈ hist -> g <= e_gen (entry (home s) (vm_name r))).
  { intros g Hgin. apply (ro_disk _ _ _ Hok); [done|by rewrite He]. }
  pose proof (update_meta_spec io (home s) (vm_name r) f (ro_home _ _ _ Hok) Hb) as Hu. unfold install.
  destruct (update_meta io (home s) (vm_name r) f) as [[r'|e] h']; destruct Hu as [Ht Hc].
  - destruct Hc as (m & Hm & -> & Hd' & He'). pose proof (Hf m) as Hs. destruct (f m) as [m' r'] eqn:Hfm.
    destruct Hs as (Hid' & Hn' & Hg' & Hs). cbn [snd fst] in *. split; [|by exists m; rewrite Hfm].
    apply read_entry in Hm. rewrite Hm in *.
    assert (Hent : e_id (entry h' (vm_name r)) = id /\
      (forall g, (id, g) ∈ hist -> g <= e_gen (entry h' (vm_name r))) /\
      (synced = true -> e_intent (entry h' (vm_name r)) = None \/
        e_intent (entry h' (vm_name r)) = Some (intent (vm_lifecycle r')))).
    { rewrite He'. destruct Hs as [-> |[-> Hl]]; cbn [e_id e_gen e_intent]; [|by rewrite Hl].
      split_and!; [done| |by right]. intros g Hgin. specialize (Hh _ Hgin). lia. }
    destruct Hent as (Hi & Hle' & Hin').
    eapply reg_touch_same; [done..|by rewrite Hi, Hm, He| |].
    + intros g Hgin. rewrite Hi in Hgin. by apply Hle'.
    + intros id' r'' [[<- <-]|[Hne Hr'']]%lookup_insert_Some.
      * right. split; rewrite ?Hn'; try done; [congruence|lia|]. intros g Hgin. specialize (Hh _ Hgin). lia.
      * left. split; [|done]. intros Hname. apply Hne. by eapply record_names.
  - split; [|done]. destruct Hc as [Hl|(Hns & m & Hm & Hd' & He')]; [by eapply reg_later|].
    pose proof (Hf m) as Hs. destruct (f m) as [m' r'] eqn:Hfm. destruct Hs as (Hid' & Hn' & Hg' & Hs).
    cbn [fst] in He'. apply read_entry in Hm. rewrite Hm in *.
    destruct synced; [by destruct Hsync|].
    assert (Hent : e_id (entry h' (vm_name r)) = id /\
      (forall g, (id, g) ∈ hist -> g <= e_gen (entry h' (vm_name r)))).
    { rewrite He'. destruct Hs as [-> |[-> Hl]]; cbn [e_id e_gen]; (split; [done|]); [|done].
      intros g Hgin. specialize (Hh _ Hgin). lia. }
    destruct Hent as (Hi & Hle'). eapply reg_touch_same; [done..|by rewrite Hi, Hm, He| |].
    + intros g Hgin. rewrite Hi in Hgin. by apply Hle'.
    + intros id' r'' Hr''. destruct (decide (vm_name r'' = vm_name r)) as [Hn''|]; [|by left].
      right. assert (id' = id) as -> by (by eapply record_names).
      rewrite Hr in Hr''. injection Hr'' as <-. by split.
Qed.

Lemma stamps_ext r u (g : Params -> Params) (k : Params -> VmRecord) :
  vm_id u = vm_id r -> vm_name u = vm_name r ->
  0 <= generation (vm_lifecycle r) <= generation (vm_lifecycle u) ->
  (forall m, vm_id (k m) = vm_id u /\ vm_name (k m) = vm_name u /\ vm_lifecycle (k m) = vm_lifecycle u) ->
  (forall m, exists m0, m0 !! "sandbox_id"%string = m !! "sandbox_id"%string /\
    meta_entry (vm_name r) (g m) = meta_entry (vm_name r) (set_lifecycle_meta (vm_lifecycle u) m0)) ->
  stamps r (fun m => (g m, k m)).
Proof.
  intros Hid Hn Hg Hk Hm m. destruct (Hk m) as (-> & -> & ->). destruct (Hm m) as (m0 & Hi & ->).
  split_and!; [done..|lia|left]. rewrite set_lifecycle_meta_entry by lia. f_equal.
  unfold dir_id, string_field, field. by rewrite Hi.
Qed.

(** [status], [error] and the like do not matter to an entry. *)
Lemma other_key name key v m :
  key ∉ ["lifecycle"; "state_generation"; "sandbox_id"]%string ->
  meta_entry name (<[key := v]> m) = meta_entry name m.
Proof. intros Hk. apply meta_entry_ext; rewrite lookup_insert_ne; (done || set_solver). Qed.

Lemma stamps_lifecycle r u :
  vm_id u = vm_id r -> vm_name u = vm_name r ->
  0 <= generation (vm_lifecycle r) <= generation (vm_lifecycle u) ->
  stamps r (fun meta => (<["status"%string := JString (vm_status u)]> (set_lifecycle_meta (vm_lifecycle u) meta),
    detail_lifecycle u)).
Proof.
  intros Hid Hn Hg. apply (stamps_ext r u); [done..|]. intros m. exists m. split; [done|].
  apply other_key. set_solver.
Qed.

Lemma lifecycle_install {A} synced hist s id r u io (out : VmRecord -> A) :
  reg_ok synced hist s -> records s !! id = Some r -> io_ok synced io ->
  vm_id u = vm_id r -> vm_name u = vm_name r -> generation (vm_lifecycle r) <= generation (vm_lifecycle u) ->
  let '(res, s') := install (persist_lifecycle_record io (home s) u) id out s in
  reg_ok synced hist s' /\
  match res with
  | Ok a => records s' = <[id := detail_lifecycle u]> (records s) /\ a = out (detail_lifecycle u) /\
      e_gen (entry (home s') (vm_name u)) = generation (vm_lifecycle u)
  | Err _ => records s' = records s
  end.
Proof.
  intros Hok Hr Hio Hid Hn Hg. unfold persist_lifecycle_record. rewrite Hn.
  pose proof (ro_records _ _ _ Hok _ _ Hr) as Hrk.
  pose proof (record_install_ok synced hist s id r io _ out Hok Hr Hio
    (stamps_lifecycle r u Hid Hn (conj (rk_gen _ _ _ _ _ Hrk) Hg))) as Hi.
  destruct (install _ _ _ _) as [[a|e] s']; destruct Hi as [Hs' Hi]; (split; [done|]); [|done].
  destruct Hi as (m & Hrec & -> & He). do 2 (split; [done|]). rewrite He. cbn [fst].
  rewrite other_key, set_lifecycle_meta_entry; [done|pose proof (rk_gen _ _ _ _ _ Hrk); lia|set_solver].
Qed.

(** ** Generations that are handed out *)

Definition acquired (id : string) (res : result RegError TransitionBegin) : list (string * Z) :=
  match res with
  | Ok b => match bg_disposition b with Acquired => [(id, bg_generation b)] | _ => [] end
  | Err _ => []
  end.

Lemma reg_acquire synced hist s id r :
  reg_ok synced hist s -> records s !! id = Some r -> (id, generation (vm_lifecycle r)) ∉ hist ->
  generation (vm_lifecycle r) <= e_gen (entry (home s) (vm_name r)) ->
  reg_ok synced ((id, generation (vm_lifecycle r)) :: hist) s.
Proof.
  intros [Hh Hids Hrec Hdisk Hown Hnd] Hr Hnew Hle. pose proof (Hrec _ _ Hr) as Hrk. split; [done..| | | |by constructor].
  - intros id' r' Hr'. destruct (Hrec _ _ Hr') as [? ? ? ? Hhist ?]. split; try done.
    intros g [[= -> ->]|Hin]%elem_of_cons; [|by apply Hhist]. rewrite Hr in Hr'. by injection Hr' as <-.
  - intros n g Hn [[= Hid ->]|Hin]%elem_of_cons; [|by apply Hdisk].
    assert (n = vm_name r) as -> by
      (apply Hids; [done|apply Hrk|by rewrite (rk_entry _ _ _ _ _ Hrk)]).
    done.
  - intros id' g [[= -> ->]|Hin]%elem_of_cons; [|by eapply Hown]. exists (vm_name r). split; apply Hrk.
Qed.

(** A transition that installs the next generation of a record. *)
Lemma acquire_install synced hist s id r u io next :
  reg_ok synced hist s -> records s !! id = Some r -> io_ok synced io ->
  vm_id u = vm_id r -> vm_name u = vm_name r ->
  checked_add 64 (generation (vm_lifecycle r)) 1 = Some next -> generation (vm_lifecycle u) = next ->
  let p := install (persist_lifecycle_record io (home s) u) id (fun r => begin_of (vm_lifecycle r) Acquired) s in
  reg_ok synced (acquired id (fst p) ++ hist) (snd p).
Proof.
  intros Hok Hr Hio Hid Hn Hnext Hu. apply checked_add_Some in Hnext as [Hnext _].
  pose proof (lifecycle_install synced hist s id r u io (fun r => begin_of (vm_lifecycle r) Acquired) Hok Hr Hio Hid Hn
    ltac:(lia)) as Hi. cbn zeta. destruct (install _ _ _ _) as [[b|e] s']; destruct Hi as [Hs' Hi]; [|done].
  destruct Hi as (Hrec & -> & Hgen). cbn [fst snd acquired begin_of bg_disposition bg_generation app].
  apply (reg_acquire _ _ _ id (detail_lifecycle u)); [done|by rewrite Hrec, lookup_insert_eq| |cbn in *; lia].
  intros Hin. apply (rk_hist _ _ _ _ _ (ro_records _ _ _ Hok _ _ Hr)) in Hin. cbn in Hin. lia.
Qed.

Lemma begin_operation_ok synced hist s io id expected want op :
  reg_ok synced hist s -> io_ok synced io ->
  let p := begin_operation io id expected want op s in reg_ok synced (acquired id (fst p) ++ hist) (snd p).
Proof.
  intros Hok Hio. cbn zeta. unfold begin_operation, with_record. destruct (records s !! id) as [r|] eqn:Hr; [|done].
  cbn zeta. case_match; [by destruct (is_converged _)|]. case_match; [done|].
  destruct (generation (vm_lifecycle r) =? expected) eqn:Hexp; cbn [negb]; [|done]. apply Z.eqb_eq in Hexp as <-.
  case_match; [destruct (checked_add _ _ _) eqn:Hadd; [|done]; by eapply acquire_install|].
  case_match; [done|]. destruct (checked_add _ _ _) eqn:Hadd; [|done]. by eapply acquire_install.
Qed.

Lemma resume_transition_ok synced hist s io id gen :
  reg_ok synced hist s -> io_ok synced io ->
  let p := resume_transition io id gen s in reg_ok synced (acquired id (fst p) ++ hist) (snd p).
Proof.
  intros Hok Hio. cbn zeta. unfold resume_transition, with_record. destruct (records s !! id) as [r|] eqn:Hr; [|done].
  cbn zeta. destruct (generation (vm_lifecycle r) =? gen) eqn:Hexp; cbn [negb]; [|done]. apply Z.eqb_eq in Hexp as <-.
  case_match; [done|]. destruct (checked_add _ _ _) eqn:Hadd; [|done]. by eapply acquire_install.
Qed.

Lemma keep_install {A} synced hist s id r u io (out : VmRecord -> A) :
  reg_ok synced hist s -> records s !! id = Some r -> io_ok synced io ->
  vm_id u = vm_id r -> vm_name u = vm_name r -> generation (vm_lifecycle r) <= generation (vm_lifecycle u) ->
  reg_ok synced hist (snd (install (persist_lifecycle_record io (home s) u) id out s)).
Proof.
  intros. pose proof (lifecycle_install synced hist s id r u io out) as Hi.
  destruct (install _ _ _ _) as [res s']. cbn. by apply Hi.
Qed.

(** The head of every guarded operation. *)
Ltac open_guarded r Hr :=
  unfold with_record; destruct (records _ !! _) as [r|] eqn:Hr; [|done]; cbn zeta;
  case_match; [done|]; case_match; [done|].

Lemma observe_transition_ok synced hist s io id gen seen :
  reg_ok synced hist s -> io_ok synced io -> reg_ok synced hist (snd (observe_transition io id gen seen s)).
Proof. intros Hok Hio. unfold observe_transition. open_guarded r Hr. by eapply keep_install. Qed.

Lemma fail_transition_ok synced hist s io id gen error :
  reg_ok synced hist s -> io_ok synced io -> reg_ok synced hist (snd (fail_transition io id gen error s)).
Proof. intros Hok Hio. unfold fail_transition. open_guarded r Hr. by eapply keep_install. Qed.

Lemma retry_transition_ok synced hist s io id gen :
  reg_ok synced hist s -> io_ok synced io -> reg_ok synced hist (snd (retry_transition io id gen s)).
Proof.
  intros Hok Hio. unfold retry_transition. unfold with_record. destruct (records _ !! _) as [r|] eqn:Hr; [|done]. cbn zeta.
  destruct (generation (vm_lifecycle r) =? gen) eqn:Hexp; cbn [negb]; [|done]. apply Z.eqb_eq in Hexp as <-.
  case_match; [done|]. destruct (checked_add _ _ _) as [next|] eqn:Hadd; [|done]. apply checked_add_Some in Hadd as [-> _].
  eapply keep_install; [done..|]. cbn. lia.
Qed.

Lemma record_op_ok {A} synced hist s id r io f (out : VmRecord -> A) :
  reg_ok synced hist s -> records s !! id = Some r -> io_ok synced io -> stamps r f ->
  reg_ok synced hist (snd (install (update_meta io (home s) (vm_name r) f) id out s)).
Proof.
  intros Hok Hr Hio Hf. pose proof (record_install_ok synced hist s id r io f out Hok Hr Hio Hf) as Hi.
  destruct (install _ _ _ _) as [res s']. apply Hi.
Qed.

Lemma cancel_transition_ok synced hist s io id gen seen reason :
  reg_ok synced hist s -> io_ok synced io -> reg_ok synced hist (snd (cancel_transition io id gen seen reason s)).
Proof.
  intros Hok Hio. unfold cancel_transition. open_guarded r Hr. unfold persist_cancelled_record.
  cbn [vm_name set_record_error set_status set_lifecycle]. eapply record_op_ok; [done..|].
  set (u := set_record_error _ _). apply (stamps_ext r u); [done..| | |].
  - pose proof (rk_gen _ _ _ _ _ (ro_records _ _ _ Hok _ _ Hr)). cbn. lia.
  - done.
  - intros m. exists m. split; [done|]. rewrite !other_key by set_solver. done.
Qed.

Lemma persist_runtime_identity_ok synced hist s io id identity :
  reg_ok synced hist s -> io_ok synced io -> reg_ok synced hist (snd (persist_runtime_identity io id identity s)).
Proof.
  intros Hok Hio. unfold persist_runtime_identity, with_record. destruct (records _ !! _) as [r|] eqn:Hr; [|done].
  cbn zeta. case_match; [done|]. eapply record_op_ok; [done..|].
  intros m. split_and!; [done..|right]. split; [|done]. apply other_key. set_solver.
Qed.

(** Writers of other fields stamp what they write. *)
Lemma stamps_other r u g k :
  vm_id u = vm_id r -> vm_name u = vm_name r -> vm_lifecycle u = vm_lifecycle r -> 0 <= generation (vm_lifecycle r) ->
  (forall m, g m !! "sandbox_id"%string = m !! "sandbox_id"%string) ->
  (forall m, vm_id (k m) = vm_id u /\ vm_name (k m) = vm_name u /\ vm_lifecycle (k m) = vm_lifecycle u) ->
  stamps r (fun m => (stamp_meta u (g m), k m)).
Proof.
  intros Hid Hn Hl Hg Hi Hk. apply (stamps_ext r u); [done..|rewrite Hl; lia|done|].
  intros m. exists (g m). split; [done|]. unfold stamp_meta. rewrite other_key by set_solver. done.
Qed.

Lemma recipe_sandbox_id key v m :
  set_recipe_param key v m !! "sandbox_id"%string = m !! "sandbox_id"%string.
Proof. unfold set_recipe_param. repeat case_match; try done. by rewrite lookup_insert_ne. Qed.

Lemma set_idle_timeout_ok synced hist s io id timeout rearmed :
  reg_ok synced hist s -> io_ok synced io ->
  reg_ok synced hist (snd (set_idle_timeout_persisted io id timeout rearmed s)).
Proof.
  intros Hok Hio. unfold set_idle_timeout_persisted, with_record. destruct (records _ !! _) as [r|] eqn:Hr; [|done].
  eapply record_op_ok; [done..|].
  apply (stamps_other r r (fun m => set_recipe_param "idle_timeout_secs" (json_of_f64 timeout)
    (<["last_network_active"%string := json_of_f64 rearmed]> (<["idle_timeout_secs"%string := json_of_f64 timeout]> m))));
    try done; [by apply (rk_gen _ _ _ _ _ (ro_records _ _ _ Hok _ _ Hr))|].
  intros m. by rewrite recipe_sandbox_id, !lookup_insert_ne by done.
Qed.

Lemma update_detail_ok synced hist s io id f :
  reg_ok synced hist s -> io_ok synced io ->
  (forall m, f m !! "sandbox_id"%string = m !! "sandbox_id"%string) ->
  reg_ok synced hist (snd (update_detail_persisted io id f s)).
Proof.
  intros Hok Hio Hf. unfold update_detail_persisted, with_record. destruct (records _ !! _) as [r|] eqn:Hr; [|done].
  eapply record_op_ok; [done..|]. apply (stamps_other r r f); try done.
  by apply (rk_gen _ _ _ _ _ (ro_records _ _ _ Hok _ _ Hr)).
Qed.

Lemma status_meta_keys status code ts m key :
  key ∉ ["status"; "returncode"; "terminated_at"]%string -> status_meta status code ts m !! key = m !! key.
Proof. intros Hk. unfold status_meta. destruct code, ts; rewrite ?lookup_insert_ne by set_solver; done. Qed.

Lemma status_meta_entry name status code ts m :
  meta_entry name (status_meta status code ts m) = meta_entry name m.
Proof. apply meta_entry_ext; apply status_meta_keys; set_solver. Qed.

(** A directory that is made belongs to the sandbox of its name: that must be free. *)
Definition free_name (s : RegState) (name : string) : Prop :=
  is_Some (home s !! name) \/ forall n, is_Some (home s !! n) -> e_id (entry (home s) n) <> name.

Lemma missing_entry h name : h !! name = None -> entry h name = meta_entry name ∅.
Proof. intros Hn. unfold entry, read_meta_map. by rewrite Hn. Qed.

Lemma free_record synced hist s name id r :
  reg_ok synced hist s -> home s !! name = None -> records s !! id = Some r -> vm_name r <> name.
Proof. intros Hok Hn Hr <-. pose proof (rk_dir _ _ _ _ _ (ro_records _ _ _ Hok _ _ Hr)) as [? ?]. congruence. Qed.

(** A change of a directory whose sandbox stays the same, by a writer that has no record. *)
Lemma reg_other_writer synced hist s name h' :
  reg_ok synced hist s -> free_name s name ->
  only_changes name (home s) h' -> entry_le (entry (home s) name) (entry h' name) ->
  reg_ok synced hist (mkReg (records s) (idempotency s) h').
Proof.
  intros Hok Hfree Ht He. destruct (home s !! name) as [o|] eqn:Hn; [by eapply reg_later|].
  destruct Hfree as [[? ?]|Hfree]; [congruence|].
  assert (Hi : e_id (entry h' name) = name) by (destruct He as [-> _]; by rewrite missing_entry).
  eapply reg_touch; [done..| | |].
  - intros _. rewrite Hi. split; [auto|]. intros g Hg. destruct (ro_owned _ _ _ Hok _ _ Hg) as (n & Hs & Hin).
    by destruct (Hfree n Hs).
  - rewrite Hn. by intros g [? ?].
  - intros id r Hr. left. split; [|done]. by eapply free_record.
Qed.

Lemma merge_step_ok synced hist s name readable w u :
  reg_ok synced hist s -> vmm_update u -> free_name s name ->
  reg_ok synced hist (mkReg (records s) (idempotency s) (snd (merge_meta_map readable w (home s) name u))).
Proof.
  intros Hok Hu Hfree.
  destruct (merge_spec readable w (home s) name u (ro_home _ _ _ Hok) Hu). by eapply reg_other_writer.
Qed.

Lemma persist_record_status_ok synced hist s io id status code ts :
  reg_ok synced hist s -> io_ok synced io ->
  (records s !! id = None -> free_name s id) ->
  reg_ok synced hist (snd (persist_record_status io id status code ts s)).
Proof.
  intros Hok Hio Hnone. unfold persist_record_status. destruct (records s !! id) as [r|] eqn:Hr.
  - eapply record_op_ok; [done..|].
    set (u := set_terminated_at _ _). apply (stamps_ext r u); [done..| |done|].
    + pose proof (rk_gen _ _ _ _ _ (ro_records _ _ _ Hok _ _ Hr)). cbn. lia.
    + intros m. eexists. split; [|done]. apply status_meta_keys. set_solver.
  - specialize (Hnone eq_refl).
    pose proof (update_meta_spec io (home s) id (fun meta => (status_meta status code ts meta, tt))
      (ro_home _ _ _ Hok) (proj1 Hio)) as Hu.
    destruct (update_meta _ _ _ _) as [res h']; destruct Hu as [Ht Hc]. cbn [snd].
    eapply reg_other_writer; [done..|].
    assert (Hm : forall m, read_meta_map true (home s) id = Ok m -> entry h' id = meta_entry id (status_meta status code ts m) ->
      entry_le (entry (home s) id) (entry h' id)).
    { intros m Hm ->. by rewrite status_meta_entry, (read_entry _ _ _ Hm). }
    destruct res; [destruct Hc as (m & Hm' & _ & _ & He)|destruct Hc as [|(_ & m & Hm' & _ & He)]; [done|]]; eauto.
Qed.

(** A record may be inserted, at whatever generation, when its id is that of no other directory and its
    name that of no other record. *)
Record insertable (s : RegState) (r : VmRecord) : Prop := {
  in_id : vm_id r <> ""%string;
  in_gen : 0 <= generation (vm_lifecycle r);
  in_dirs : forall n, n <> vm_name r -> is_Some (home s !! n) -> e_id (entry (home s) n) <> vm_id r;
  in_free : free_name s (vm_name r);
  in_records : forall id' r', records s !! id' = Some r' -> vm_name r' = vm_name r -> id' = vm_id r }.

(** A record that is inserted starts a new life of its sandbox, and so does a directory that is deleted: what
    was handed out before does not count. *)
Definition forget (ids : list string) (hist : list (string * Z)) : list (string * Z) := filter (fun p => fst p ∉ ids) hist.

Lemma forget_ok synced ids hist s : reg_ok synced hist s -> reg_ok synced (forget ids hist) s.
Proof.
  assert (Hin : forall p, p ∈ forget ids hist -> p ∈ hist) by (intros p Hp; apply list_elem_of_filter in Hp; apply Hp).
  intros [Hh Hids Hrec Hdisk Hown Hnd]. split; [done|done| |eauto|eauto|by apply NoDup_filter].
  intros id r Hr. destruct (Hrec _ _ Hr). split; eauto.
Qed.

Lemma forgotten id g ids hist : id ∈ ids -> (id, g) ∉ forget ids hist.
Proof. intros Hid Hin. apply list_elem_of_filter in Hin as [Hn _]. done. Qed.

Lemma insert_meta_entry r m :
  vm_id r <> ""%string -> 0 <= generation (vm_lifecycle r) ->
  meta_entry (vm_name r) (fst (insert_meta r m)) =
  mkDirEntry (vm_id r) (generation (vm_lifecycle r)) (Some (intent (vm_lifecycle r))).
Proof.
  intros Hid Hg. unfold insert_meta. cbn [fst]. rewrite set_lifecycle_meta_entry by done. f_equal.
  unfold dir_id, string_field, field. rewrite !lookup_insert_ne, lookup_insert_eq by done. cbn.
  unfold nonempty. by rewrite bool_decide_eq_false_2.
Qed.

Lemma insert_persisted_ok synced hist s io r :
  reg_ok synced hist s -> io_ok synced io -> insertable s r ->
  reg_ok synced (forget [vm_id r; e_id (entry (home s) (vm_name r))] hist) (snd (insert_persisted io r s)).
Proof.
  set (ids := [vm_id r; _]). intros Hok%(forget_ok _ ids) [Hb Hsync] [Hid Hg Hdirs Hfree Hrecs]. unfold insert_persisted.
  assert (Hh : forall g, (vm_id r, g) ∉ forget ids hist) by (intros g; apply forgotten; set_solver).
  assert (Hn : forall g, (e_id (entry (home s) (vm_name r)), g) ∉ forget ids hist) by (intros g; apply forgotten; set_solver).
  pose proof (update_meta_spec io (home s) (vm_name r) (insert_meta r) (ro_home _ _ _ Hok) Hb) as Hu.
  assert (Hnew : forall h' recs, only_changes (vm_name r) (home s) h' ->
    entry h' (vm_name r) = mkDirEntry (vm_id r) (generation (vm_lifecycle r)) (Some (intent (vm_lifecycle r))) ->
    (forall id x, recs !! id = Some x ->
      vm_name x <> vm_name r /\ records s !! id = Some x \/ record_ok synced (forget ids hist) h' id x) ->
    reg_ok synced (forget ids hist) (mkReg recs (idempotency s) h')).
  { intros h' recs Ht He Hx. eapply reg_touch; [done..| | |done]; [|intros g _ Hin; by apply Hn in Hin].
    rewrite He. intros _. split; [by apply Hdirs|]. intros g Hin. by apply Hh in Hin. }
  destruct (update_meta _ _ _ _) as [[r'|e] h']; destruct Hu as [Ht Hc].
  - destruct Hc as (m & _ & -> & Hd & He). rewrite insert_meta_entry in He by done.
    assert (Hu : vm_id (snd (insert_meta r m)) = vm_id r /\ vm_name (snd (insert_meta r m)) = vm_name r /\
      vm_lifecycle (snd (insert_meta r m)) = vm_lifecycle r) by done.
    destruct Hu as (Hui & Hun & Hul). apply Hnew; [done..|]. rewrite Hui.
    intros id x [[<- <-]|[Hne Hx]]%lookup_insert_Some.
    + right. cbn [home]. split; rewrite ?Hun, ?Hul, ?He; try done; [|by right]. intros g Hin. by apply Hh in Hin.
    + left. split; [|done]. intros Hnm. by apply Hne; symmetry; apply (Hrecs id x).
  - destruct Hc as [Hle|(Hns & m & _ & Hd & He)]; [by eapply reg_other_writer|].
    destruct synced; [by destruct Hsync|]. rewrite insert_meta_entry in He by done.
    apply Hnew; [done..|]. intros id x Hx. destruct (decide (vm_name x = vm_name r)) as [Hnm|]; [|by left].
    right. pose proof (Hrecs id x Hx Hnm) as ->. destruct (ro_records _ _ _ Hok _ _ Hx).
    by split; rewrite ?Hnm, ?He.
Qed.

Lemma update_ok synced hist s id f :
  reg_ok synced hist s ->
  (forall r, vm_id (f r) = vm_id r /\ vm_name (f r) = vm_name r /\ vm_lifecycle (f r) = vm_lifecycle r) ->
  reg_ok synced hist (snd (update id f s)).
Proof.
  intros Hok Hf. unfold update. destruct (records s !! id) as [r|] eqn:Hr; [|done].
  destruct Hok as [Hh Hids Hrec Hdisk Hown Hnd]. split; [done|done| |done|done|done]. cbn [snd records home].
  intros id' x [[<- <-]|[_ Hx]]%lookup_insert_Some; [|by apply Hrec].
  destruct (Hrec _ _ Hr), (Hf r) as (Hi & Hn & Hl). split; rewrite ?Hi, ?Hn, ?Hl; done.
Qed.

Lemma remove_ok synced hist s id : reg_ok synced hist s -> reg_ok synced hist (snd (remove id s)).
Proof.
  intros Hok. unfold remove. destruct (records s !! id) as [r|] eqn:Hr; [|done].
  destruct Hok as [Hh Hids Hrec Hdisk Hown Hnd]. split; [done|done| |done|done|done]. cbn [snd records home].
  intros id' x [_ Hx]%lookup_delete_Some. by apply Hrec.
Qed.

(** The directory of a sandbox without a record is deleted. *)
Definition remove_dir (name : string) (s : RegState) : RegState :=
  mkReg (records s) (idempotency s) (delete name (home s)).

Lemma remove_dir_ok synced hist s name :
  reg_ok synced hist s -> (forall id r, records s !! id = Some r -> vm_name r <> name) ->
  reg_ok synced (forget [e_id (entry (home s) name)] hist) (remove_dir name s).
Proof.
  set (ids := [_]). intros Hok Hn. destruct (forget_ok _ ids _ _ Hok) as [Hh Hids Hrec Hdisk Hown Hnd].
  assert (He : forall n, n <> name -> entry (delete name (home s)) n = entry (home s) n)
    by (intros n Hne; apply entry_ext; by rewrite lookup_delete_ne).
  assert (Hne : forall n, is_Some (delete name (home s) !! n) -> n <> name /\ is_Some (home s !! n)).
  { intros n [x Hx]. apply lookup_delete_Some in Hx as [? ?]. split; [done|by eexists]. }
  split; cbn [remove_dir records home]; [| | | | |done].
  - intros n text [_ Ht]%lookup_delete_Some. by eapply Hh.
  - intros n n' [Hx Hs]%Hne [Hx' Hs']%Hne. rewrite !He by done. by apply Hids.
  - intros id r Hr. specialize (Hn _ _ Hr). destruct (Hrec _ _ Hr). split; rewrite ?He, ?lookup_delete_ne by done; done.
  - intros n g [Hx Hs]%Hne. rewrite He by done. by apply Hdisk.
  - intros id g Hin. destruct (Hown id g Hin) as (n & Hs & <-).
    assert (n <> name) by (intros ->; by apply (forgotten _ _ ids) in Hin; [|set_solver]).
    exists n. by rewrite He, lookup_delete_ne.
Qed.

Lemma index_ok synced hist s idem : reg_ok synced hist s -> reg_ok synced hist (mkReg (records s) idem (home s)).
Proof. by intros []. Qed.
End invariant.
