(* ===== verification/VmRegistryRuns.v ===== *)
(** Runs of the registry of [VmRegistry]: requests, completions, other writers, failing files
    and restarts in any order, with the generations that are handed out. *)

From S2P Require Import Prelude F64 Json VmRegistry VmRegistryHome VmRegistryInvariant.

Section runs.
Context `{Serde} `{!Pretty} `{RecordCodecs}.
Context (order : gmap string VmRecord -> list (string * VmRecord)).

(** ** Restarts *)

Section boot.
Context (alive : Z -> bool) (now : f64) (ios : string -> Io).
Context (ios_ok : forall name, Forall vmm_update (io_between (ios name))).

(** What a phase may be when the process is known to be alive or not. *)
Definition phase_fits (running : bool) (p : LifecyclePhase) : Prop :=
  if running then p <> Stopped /\ p <> Suspended /\ p <> Terminated else p <> Running /\ p <> Paused.

Lemma normalize_fits l running : phase_fits running (observed (fst (normalize_observed_for_pid l running))).
Proof. unfold normalize_observed_for_pid. destruct l as [d [] g op f], running; by repeat split. Qed.

Lemma normalize_intent l running : intent (fst (normalize_observed_for_pid l running)) = intent l.
Proof. unfold normalize_observed_for_pid. destruct l as [d [] g op f], running; done. Qed.

Lemma normalize_generation l running :
  generation (fst (normalize_observed_for_pid l running)) = generation l.
Proof. unfold normalize_observed_for_pid. destruct l as [d [] g op f], running; done. Qed.

Lemma saved_generation m running : generation (saved_lifecycle m running) = e_gen (meta_entry ""%string m).
Proof. unfold saved_lifecycle. case_match; cbn [generation]; apply lifecycle_of_generation. Qed.

Lemma saved_recorded m running l : recorded m = Some l -> saved_lifecycle m running = l.
Proof.
  unfold recorded, saved_lifecycle, lifecycle_of. intros Hl. rewrite Hl.
  assert (has_key m "lifecycle" = true) as ->; [|done].
  apply bind_Some in Hl as (v & Hv & _). unfold has_key. rewrite Hv. by apply bool_decide_eq_true.
Qed.

(** The record of a directory. *)
Record booted (h : Home) (name : string) (r : VmRecord) : Prop := {
  bo_name : vm_name r = name;
  bo_id : vm_id r = e_id (entry h name);
  bo_gen : generation (vm_lifecycle r) = e_gen (entry h name);
  bo_intent : e_intent (entry h name) = None \/ e_intent (entry h name) = Some (intent (vm_lifecycle r));
  bo_fits : exists m, read_meta_map true h name = Ok m /\
    phase_fits (is_running alive m) (observed (vm_lifecycle r)) }.

Lemma rehydrated_booted h name m :
  read_meta_map true h name = Ok m -> booted h name (fst (rehydrated alive now name m)).
Proof.
  intros Hm. unfold rehydrated.
  set (l := saved_lifecycle m (is_running alive m)). set (n := normalize_observed_for_pid l (is_running alive m)).
  assert (Hl : forall r, vm_name r = name -> vm_id r = dir_id name m -> vm_lifecycle r = fst n -> booted h name r).
  { intros r Hn Hid Hlc. rewrite <- Hn in Hid, Hm. subst name. pose proof (read_entry _ _ _ Hm) as He.
    split; [done|by rewrite He| | |].
    - rewrite He, Hlc. unfold n. rewrite normalize_generation. apply saved_generation.
    - rewrite He, Hlc. unfold n. rewrite normalize_intent. cbn. destruct (recorded m) as [l'|] eqn:Hr; [right|by left].
      unfold l. by rewrite (saved_recorded _ _ _ Hr).
    - exists m. split; [done|]. rewrite Hlc. apply normalize_fits. }
  destruct n as [lc ch]. cbn [fst] in *. case_match; by apply Hl.
Qed.

Lemma rehydrate_dir_spec name h :
  home_ok h ->
  let '(res, h') := rehydrate_dir alive now ios name h in
  only_changes name h h' /\ e_id (entry h' name) = e_id (entry h name) /\ e_gen (entry h name) <= e_gen (entry h' name) /\
  match res with
  | Ok (r, _) => booted h name r /\
      (e_intent (entry h' name) = None \/ e_intent (entry h' name) = Some (intent (vm_lifecycle r)))
  | Err _ => io_read (ios name) = false
  end.
Proof.
  intros Hh. unfold rehydrate_dir. destruct (read_meta_map (io_read (ios name)) h name) as [m|e] eqn:Hm.
  2: { split_and!; [by apply only_changes_refl|done..|]. destruct (io_read (ios name)); [|done].
       destruct (home_ok_read h name Hh). congruence. }
  apply read_flag in Hm. pose proof (rehydrated_booted h name m Hm) as Hb.
  destruct (rehydrated alive now name m) as [r changed]. cbn [fst] in Hb.
  destruct changed; [|split_and!; [by apply only_changes_refl|done..|apply Hb]].
  destruct (merge_between_spec (io_between (ios name)) h name Hh (ios_ok name)) as [Ht He].
  set (h1 := merge_between _ _ _) in *. pose proof (meta_write_spec (io_write (ios name)) h1 name (stamp_meta r m) (proj1 Ht)) as Hw.
  assert (Hst : entry (written h1 name (stamp_meta r m)) name =
    mkDirEntry (e_id (entry h name)) (e_gen (entry h name)) (Some (intent (vm_lifecycle r)))).
  { rewrite (proj2 (written_ok h1 name (stamp_meta r m) (proj1 Ht))), stamp_meta_entry, (bo_gen _ _ _ Hb), (read_entry _ _ _ Hm);
      [done|]. rewrite (bo_gen _ _ _ Hb). apply entry_nonneg. }
  assert (Hc : forall h', h' = written h1 name (stamp_meta r m) \/ entry h' name = entry h1 name ->
    e_id (entry h' name) = e_id (entry h name) /\ e_gen (entry h name) <= e_gen (entry h' name) /\ booted h name r /\
    (e_intent (entry h' name) = None \/ e_intent (entry h' name) = Some (intent (vm_lifecycle r)))).
  { intros h' [->| ->]; [rewrite Hst; cbn; split_and!; auto with lia|].
    destruct He as (-> & -> & Hg). split_and!; [done..|apply Hb]. }
  destruct (write_meta_map_atomically _ h1 name _) as [[u|e] h']; destruct Hw as [Ht' Hw]; cbn [snd];
    (split; [by eapply only_changes_trans|apply Hc]); [left; apply Hw|destruct Hw as [_ [[_ ->]|Hw]]; auto].
Qed.

(** What a pass over the directories leaves of them. *)
Definition boot_keeps (h h' : Home) : Prop :=
  home_ok h' /\ (forall n, is_Some (h' !! n) <-> is_Some (h !! n)) /\
  forall n, e_id (entry h' n) = e_id (entry h n) /\ e_gen (entry h n) <= e_gen (entry h' n).

(** A record that comes from a directory, and what its file holds afterwards. *)
Definition boots (h h' : Home) (name : string) (r : VmRecord) : Prop :=
  booted h name r /\
  (e_intent (entry h' name) = None \/ e_intent (entry h' name) = Some (intent (vm_lifecycle r))).

Lemma booted_ext h1 h2 name r : h1 !! name = h2 !! name -> booted h1 name r -> booted h2 name r.
Proof.
  intros Hl [? ? ? ? Hf]. split; rewrite <- ?(entry_ext h1 h2 name Hl); [done..|].
  rewrite <- (read_ext h1 h2 name Hl). done.
Qed.

Lemma boot_keeps_refl h : home_ok h -> boot_keeps h h.
Proof. intros Hh. split; [done|]. by split. Qed.

Lemma boot_keeps_trans h1 h2 h3 : boot_keeps h1 h2 -> boot_keeps h2 h3 -> boot_keeps h1 h3.
Proof.
  intros (_ & Hd & He) (Hh & Hd' & He'). split; [done|]. split; [intros n; by rewrite Hd', Hd|].
  intros n. destruct (He' n) as [-> ?], (He n) as [-> ?]. split; [done|lia].
Qed.

Lemma boot_keeps_dir name h h' :
  only_changes name h h' -> is_Some (h !! name) -> e_id (entry h' name) = e_id (entry h name) ->
  e_gen (entry h name) <= e_gen (entry h' name) -> boot_keeps h h'.
Proof.
  intros Ht Hn Hi Hg. pose proof Ht as (Hh & Ho & Hs). split; [done|]. split; intros n;
    destruct (decide (n = name)) as [->|Hne]; [by split; auto|by rewrite Ho|done|].
  by rewrite (only_changes_entry _ _ _ _ Ht Hne).
Qed.

Lemma rehydrate_dirs_spec names acc h :
  home_ok h -> NoDup names -> (forall n, n ∈ names -> is_Some (h !! n)) ->
  let '(res, h') := rehydrate_dirs alive now ios names acc h in
  boot_keeps h h' /\ (forall n, n ∉ names -> h' !! n = h !! n) /\
  match res with
  | Ok (recs, _) =>
      (forall id r, recs !! id = Some r ->
        acc !! id = Some r \/ exists n, n ∈ names /\ boots h h' n r /\ vm_id r = id) /\
      (forall id, is_Some (acc !! id) -> is_Some (recs !! id)) /\
      (forall n, n ∈ names -> is_Some (recs !! e_id (entry h n)))
  | Err _ => exists n, n ∈ names /\ io_read (ios n) = false
  end.
Proof.
  revert acc h. induction names as [|name names IH]; intros acc h Hh Hnd Hdir.
  { split; [by apply boot_keeps_refl|]. split; [done|]. split; [by left|]. split; [done|set_solver]. }
  apply NoDup_cons in Hnd as [Hnin Hnd]. cbn [rehydrate_dirs].
  pose proof (rehydrate_dir_spec name h Hh) as Hd.
  destruct (rehydrate_dir alive now ios name h) as [[[r lock]|e] h1]; destruct Hd as (Ht & Hid & Hg & Hr);
    pose proof Ht as (Hh1 & Ho & Hsome);
    (assert (Hk1 : boot_keeps h h1) by (eapply boot_keeps_dir; [done|apply Hdir; set_solver|done..])).
  2: { split; [done|]. split; [intros n Hn; apply Ho; set_solver|]. exists name. set_solver. }
  specialize (IH (<[vm_id r := r]> acc) h1 Hh1 Hnd).
  destruct (rehydrate_dirs _ _ _ _ _ _) as [[[recs locks]|e] h'];
    (destruct IH as (Hk & Hout & Hc); [intros n Hn; apply Hk1, Hdir; set_solver|]);
    (split; [by eapply boot_keeps_trans|]); (split; [intros n Hn; rewrite Hout, Ho by set_solver; done|]).
  2: { destruct Hc as (n & Hn & Hio). exists n. set_solver. }
  destruct Hc as (Hs & Hmono & Hall), Hr as [Hb Hint]. split; [|split].
  - intros id x Hx. destruct (Hs id x Hx) as [[[Hi ->]|[_ Ha]]%lookup_insert_Some|(n & Hn & [Hbo Hint'] & Hi)]; [|by left|].
    + right. exists name. split; [set_solver|]. split; [split; [done|]|done].
      by rewrite (entry_ext h' h1 name) by (by apply Hout).
    + right. exists n. split; [set_solver|]. split; [split; [|done]|done].
      eapply booted_ext; [|done]. apply Ho. set_solver.
  - intros id Ha. apply Hmono.
    destruct (decide (vm_id r = id)) as [->|]; [by rewrite lookup_insert_eq|by rewrite lookup_insert_ne].
  - intros n [->|Hn]%elem_of_cons.
    + apply Hmono. rewrite <- (bo_id _ _ _ Hb). by rewrite lookup_insert_eq.
    + rewrite <- (proj1 (proj2 (proj2 Hk1) n)). by apply Hall.
Qed.

Definition boot (listed : bool) (h : Home) : result RegError (list (string * list string)) * RegState :=
  rehydrate order alive now ios listed (mkReg ∅ ∅ h).

Lemma dirs_spec (h : Home) :
  NoDup (sort_by String.leb (elements (dom h))) /\
  forall n, n ∈ sort_by String.leb (elements (dom h)) <-> is_Some (h !! n).
Proof.
  pose proof (sort_by_perm String.leb (elements (dom h))) as Hp. split; [rewrite Hp; apply NoDup_elements|].
  intros n. rewrite Hp, elem_of_elements. apply elem_of_dom.
Qed.

Lemma boot_spec listed h :
  home_ok h ->
  let '(res, s) := boot listed h in
  boot_keeps h (home s) /\
  (forall id r, records s !! id = Some r ->
    exists n, is_Some (h !! n) /\ boots h (home s) n r /\ vm_id r = id) /\
  match res with
  | Ok _ => forall n, is_Some (h !! n) -> is_Some (records s !! e_id (entry h n))
  | Err _ => listed = false \/ exists n, is_Some (h !! n) /\ io_read (ios n) = false
  end.
Proof.
  intros Hh. unfold boot, rehydrate. cbn [home records idempotency].
  destruct listed; [|split; [by apply boot_keeps_refl|split; [done|by left]]].
  destruct (dirs_spec h) as [Hnd Hin].
  pose proof (rehydrate_dirs_spec _ ∅ h Hh Hnd (fun n Hn => proj1 (Hin n) Hn)) as Hs.
  destruct (rehydrate_dirs _ _ _ _ _ _) as [[[recs locks]|e] h']; destruct Hs as (Hk & _ & Hc); (split; [done|]).
  - destruct Hc as (Hrec & _ & Hall). cbn [records home]. split.
    + intros id r Hr. destruct (Hrec id r Hr) as [|(n & Hn & Hb)]; [done|]. exists n. by rewrite <- Hin.
    + intros n Hn. apply Hall. by apply Hin.
  - destruct Hc as (n & Hn & Hio). split; [done|]. right. exists n. by rewrite <- Hin.
Qed.

Lemma boot_ok synced hist s listed : reg_ok synced hist s -> reg_ok synced hist (snd (boot listed (home s))).
Proof.
  intros [Hh Hids Hrec Hdisk Hown Hnd]. pose proof (boot_spec listed (home s) Hh) as Hb.
  destruct (boot listed (home s)) as [res s']; destruct Hb as ((Hh' & Hdom & He) & Hr & _). cbn [snd].
  split; [done| | | | |done].
  - intros n n' Hn%Hdom Hn'%Hdom. rewrite (proj1 (He n)), (proj1 (He n')). by apply Hids.
  - intros id r (n & Hn & [[Hname Hid Hgen _ _] Hi] & <-)%Hr. split; rewrite ?Hname; try done.
    + rewrite Hgen. apply entry_nonneg.
    + by apply Hdom.
    + by rewrite (proj1 (He n)).
    + intros g Hg. rewrite Hgen. apply Hdisk; [done|]. by rewrite <- Hid.
  - intros n g Hn%Hdom. destruct (He n) as [-> Hle]. intros Hg%Hdisk; [lia|done].
  - intros id g Hin. destruct (Hown id g Hin) as (n & Hn & <-). exists n. split; [by apply Hdom|apply He].
Qed.

End boot.

(** ** Steps

    A configuration is the list of what was acquired, the latest first, and the state.  The list counts
    from the insertion of a record: the engine inserts a record of the same sandbox again, at generation one,
    when it replaces its machine. *)
Inductive reg_step (synced : bool) : list (string * Z) * RegState -> list (string * Z) * RegState -> Prop :=
  | step_begin io id expected want op hist s : io_ok synced io ->
      reg_step synced (hist, s)
        (acquired id (fst (begin_operation io id expected want op s)) ++ hist, snd (begin_operation io id expected want op s))
  | step_resume io id gen hist s : io_ok synced io ->
      reg_step synced (hist, s)
        (acquired id (fst (resume_transition io id gen s)) ++ hist, snd (resume_transition io id gen s))
  | step_retry io id gen hist s : io_ok synced io ->
      reg_step synced (hist, s) (hist, snd (retry_transition io id gen s))
  | step_observe io id gen seen hist s : io_ok synced io ->
      reg_step synced (hist, s) (hist, snd (observe_transition io id gen seen s))
  | step_fail io id gen error hist s : io_ok synced io ->
      reg_step synced (hist, s) (hist, snd (fail_transition io id gen error s))
  | step_cancel io id gen seen reason hist s : io_ok synced io ->
      reg_step synced (hist, s) (hist, snd (cancel_transition io id gen seen reason s))
  | step_insert io r hist s : io_ok synced io -> insertable s r ->
      reg_step synced (hist, s) (forget [vm_id r; e_id (entry (home s) (vm_name r))] hist, snd (insert_persisted io r s))
  | step_identity io id identity hist s : io_ok synced io ->
      reg_step synced (hist, s) (hist, snd (persist_runtime_identity io id identity s))
  | step_idle io id timeout rearmed hist s : io_ok synced io ->
      reg_step synced (hist, s) (hist, snd (set_idle_timeout_persisted io id timeout rearmed s))
  | step_detail io id f hist s : io_ok synced io ->
      (forall m, f m !! "sandbox_id"%string = m !! "sandbox_id"%string) ->
      reg_step synced (hist, s) (hist, snd (update_detail_persisted io id f s))
  | step_status io id status code ts hist s : io_ok synced io ->
      (records s !! id = None -> free_name s id) ->
      reg_step synced (hist, s) (hist, snd (persist_record_status io id status code ts s))
  | step_update id f hist s :
      (forall r, vm_id (f r) = vm_id r /\ vm_name (f r) = vm_name r /\ vm_lifecycle (f r) = vm_lifecycle r) ->
      reg_step synced (hist, s) (hist, snd (update id f s))
  | step_remove id hist s : reg_step synced (hist, s) (hist, snd (remove id s))
  | step_remove_dir name hist s : (forall id r, records s !! id = Some r -> vm_name r <> name) ->
      reg_step synced (hist, s) (forget [e_id (entry (home s) name)] hist, remove_dir name s)
  | step_record_key id key hist s : reg_step synced (hist, s) (hist, record_idempotency id key s)
  | step_remove_key id key hist s : reg_step synced (hist, s) (hist, remove_idempotency_for key id s)
  | step_rebuild hist s : reg_step synced (hist, s) (hist, rebuild_idempotency_index order s)
  | step_vmm readable w name u hist s : vmm_update u -> free_name s name ->
      reg_step synced (hist, s)
        (hist, mkReg (records s) (idempotency s) (snd (merge_meta_map readable w (home s) name u)))
  | step_restart alive now ios listed hist s : (forall name, Forall vmm_update (io_between (ios name))) ->
      reg_step synced (hist, s) (hist, snd (boot alive now ios listed (home s))).

Lemma reg_step_ok synced c c' :
  reg_step synced c c' -> reg_ok synced (fst c) (snd c) -> reg_ok synced (fst c') (snd c').
Proof.
  destruct 1; cbn [fst snd]; intros Hok;
    eauto using begin_operation_ok, resume_transition_ok, retry_transition_ok, observe_transition_ok,
      fail_transition_ok, cancel_transition_ok, insert_persisted_ok, persist_runtime_identity_ok,
      set_idle_timeout_ok, update_detail_ok, persist_record_status_ok, update_ok, remove_ok, remove_dir_ok,
      merge_step_ok, boot_ok, index_ok.
  - unfold record_idempotency. case_match; [done|by apply index_ok].
  - unfold remove_idempotency_for. case_match; [by apply index_ok|done].
Qed.

(** The directories a daemon finds: files that parse, of different sandboxes. *)
Definition home_start (h : Home) : Prop :=
  home_ok h /\
  forall n n', is_Some (h !! n) -> is_Some (h !! n') -> e_id (entry h n) = e_id (entry h n') -> n = n'.

Lemma runs_ok synced h c :
  home_start h -> rtc (reg_step synced) ([], mkReg ∅ ∅ h) c -> reg_ok synced (fst c) (snd c).
Proof.
  intros [Hh Hids] Hrun. remember ([], mkReg ∅ ∅ h) as c0 eqn:Hc0.
  assert (Hstart : reg_ok synced (fst c0) (snd c0)).
  { subst c0. split; cbn; [done|done|intros ?? Hx|intros ??? Hx|intros ?? Hx|constructor]; [by apply lookup_empty_Some in Hx|set_solver..]. }
  clear Hc0. induction Hrun; eauto using reg_step_ok.
Qed.

(** C4: A generation is handed out once in a life of a sandbox, which begins whenever a record of it is inserted,
    at any generation, or its directory was deleted.  The ids and names of sandboxes are unique.  However requests, completions, failing writes, other
    writers of the files and restarts are interleaved, no two callers are told that they acquired the same generation
    of the same sandbox in the same life, and the current generation is never behind one that was
    handed out in it, so what an earlier owner of this life reports is recognised.  Restarts do not begin a life; a
    replacement of the machine does, and its generations repeat ([generation_repeats]). *)
Theorem transition_owned_once synced h hist s :
  home_start h -> rtc (reg_step synced) ([], mkReg ∅ ∅ h) (hist, s) ->
  NoDup hist /\
  forall id r g, records s !! id = Some r -> (id, g) ∈ hist -> g <= generation (vm_lifecycle r).
Proof.
  intros Hh Hrun. pose proof (runs_ok synced h _ Hh Hrun) as Hok. cbn in Hok. split; [apply Hok|].
  intros id r g Hr. by apply (rk_hist _ _ _ _ _ (ro_records _ _ _ Hok _ _ Hr)).
Qed.


(** ** Finishing what a crashed owner left *)

Definition io_fine : Io := mkIo true [] Written.

Lemma install_fine {A} s id u (out : VmRecord -> A) :
  home_ok (home s) ->
  exists h', install (persist_lifecycle_record io_fine (home s) u) id out s =
    (Ok (out (detail_lifecycle u)), mkReg (<[id := detail_lifecycle u]> (records s)) (idempotency s) h') /\
    home_ok h' /\ (0 <= generation (vm_lifecycle u) ->
      e_intent (entry h' (vm_name u)) = Some (intent (vm_lifecycle u))).
Proof.
  intros Hh. destruct (home_ok_read (home s) (vm_name u) Hh) as (m & Hm).
  unfold install, persist_lifecycle_record, update_meta. cbn [io_fine io_read io_between io_write].
  rewrite Hm. cbn [write_meta_map_atomically merge_between foldl].
  eexists. split; [done|]. fold (stamp_meta u m). fold (written (home s) (vm_name u) (stamp_meta u m)).
  destruct (written_ok (home s) (vm_name u) (stamp_meta u m) Hh) as [Hw ->]. split; [done|].
  intros Hg. by rewrite stamp_meta_entry.
Qed.

(** The target, observed by the owner of an attempt that did not fail. *)
Lemma observe_converges s id r :
  let l := vm_lifecycle r in
  home_ok (home s) -> records s !! id = Some r -> 0 <= generation l -> failure l = None ->
  e_intent (entry (home s) (vm_name r)) = Some (intent l) ->
  exists tr s2 r2, observe_transition io_fine id (generation l) (desired l) s = (Ok tr, s2) /\
    records s2 !! id = Some r2 /\ is_converged (vm_lifecycle r2) = true /\
    desired (vm_lifecycle r2) = desired l /\ generation (vm_lifecycle r2) = generation l /\
    e_intent (entry (home s2) (vm_name r)) = Some (intent (vm_lifecycle r2)).
Proof.
  intros l Hh Hr Hg Hf He. unfold observe_transition, with_record. rewrite Hr. cbn zeta. fold l.
  rewrite Z.eqb_refl. cbn [negb]. case_match.
  - bool_to_prop. exists (transition_of l), s, r. split_and!; try done. unfold is_converged. fold l.
    by rewrite !bool_decide_eq_true_2.
  - set (l' := mkLifecycle _ _ _ _ _).
    destruct (install_fine s id (set_status (status_for_observed (desired l)) (set_lifecycle l' r))
      (fun r => transition_of (vm_lifecycle r)) Hh) as (h' & Hi & Hh' & He').
    eexists _, _, _. split; [exact Hi|]. split; [cbn; by rewrite lookup_insert_eq|].
    split; [cbn; unfold is_converged; cbn; by rewrite !bool_decide_eq_true_2|]. split_and!; [done..|].
    by apply He'.
Qed.

(** Refused, with nothing changed. *)
Definition refused {A} (id : string) (gen actual : Z) (s : RegState) (p : result RegError A * RegState) : Prop :=
  p = (Err (StaleGeneration id gen actual), s).

Lemma stale_refused s id r gen :
  records s !! id = Some r -> generation (vm_lifecycle r) <> gen ->
  forall io seen error reason,
  refused id gen (generation (vm_lifecycle r)) s (observe_transition io id gen seen s) /\
  refused id gen (generation (vm_lifecycle r)) s (fail_transition io id gen error s) /\
  refused id gen (generation (vm_lifecycle r)) s (cancel_transition io id gen seen reason s) /\
  refused id gen (generation (vm_lifecycle r)) s (resume_transition io id gen s) /\
  refused id gen (generation (vm_lifecycle r)) s (retry_transition io id gen s).
Proof.
  intros Hr Hne io seen error reason. apply Z.eqb_neq in Hne.
  unfold refused, observe_transition, fail_transition, cancel_transition, resume_transition, retry_transition, with_record.
  rewrite Hr, Hne. done.
Qed.

(** C15: An interrupted transition can be finished.  Whatever a crashed owner left (a pending
    target, a pending operation, a recorded failure), the reconciler that resumes it acquires
    the next generation with the same target and operation; from then on every report of
    the old owner is refused without effect; and observing the target makes the record converge,
    in memory and in the file. *)
Theorem interrupted_transition_finishes s id r :
  home_ok (home s) -> records s !! id = Some r -> is_converged (vm_lifecycle r) = false ->
  0 <= generation (vm_lifecycle r) < 2 ^ 64 - 1 ->
  let g := generation (vm_lifecycle r) in
  let l := vm_lifecycle r in
  exists s1 s2 tr r2,
  resume_transition io_fine id g s = (Ok (mkBegin Acquired (g + 1) (desired l) (observed l) (operation l)), s1) /\
  (forall io seen error reason,
    refused id g (g + 1) s1 (observe_transition io id g seen s1) /\
    refused id g (g + 1) s1 (fail_transition io id g error s1) /\
    refused id g (g + 1) s1 (cancel_transition io id g seen reason s1) /\
    refused id g (g + 1) s1 (resume_transition io id g s1) /\
    refused id g (g + 1) s1 (retry_transition io id g s1)) /\
  observe_transition io_fine id (g + 1) (desired l) s1 = (Ok tr, s2) /\
  records s2 !! id = Some r2 /\ is_converged (vm_lifecycle r2) = true /\
  desired (vm_lifecycle r2) = desired l /\ generation (vm_lifecycle r2) = g + 1 /\
  e_intent (entry (home s2) (vm_name r)) = Some (intent (vm_lifecycle r2)).
Proof.
  intros Hh Hr Hc Hg. cbn zeta. set (l := vm_lifecycle r) in *.
  destruct (install_fine s id (set_lifecycle (next_lifecycle l (generation l + 1)) r)
    (fun r => begin_of (vm_lifecycle r) Acquired) Hh) as (h1 & Hi1 & Hh1 & He1).
  set (s1 := mkReg _ _ h1) in Hi1. set (r1 := detail_lifecycle _) in *.
  assert (Hr1 : records s1 !! id = Some r1) by (unfold s1; cbn; by rewrite lookup_insert_eq).
  destruct (observe_converges s1 id r1) as (tr & s2 & r2 & Hobs); [done..|cbn; lia|done|apply He1; cbn; lia|].
  exists s1, s2, tr, r2. split; [|split; [|done]].
  - unfold resume_transition, with_record. rewrite Hr. cbn zeta. fold l. rewrite Z.eqb_refl, Hc. cbn [negb].
    rewrite checked_add_fits by lia. apply Hi1.
  - apply (stale_refused s1 id r1 (generation l)); [done|]. cbn. lia.
Qed.

(** ** The idempotency index *)

Lemma build_index_spec l key :
  (forall id, build_index l !! key = Some id -> exists r, (id, r) ∈ l /\ index_key r = Some key) /\
  (forall id r, (id, r) ∈ l -> index_key r = Some key -> is_Some (build_index l !! key)).
Proof.
  unfold build_index. induction l as [|[id0 r0] l IH] using rev_ind; [split; [done|set_solver]|].
  rewrite foldl_snoc. cbn [fst snd]. destruct IH as [IH1 IH2]. split.
  - intros id Hid. destruct (index_key r0) as [k0|] eqn:Hk; [|destruct (IH1 id Hid) as (r & ? & ?); exists r; set_solver].
    apply lookup_insert_Some in Hid as [[-> ->]|[_ Hid]]; [exists r0; set_solver|].
    destruct (IH1 id Hid) as (r & ? & ?). exists r. set_solver.
  - intros id r [Hin|[= -> ->]%list_elem_of_singleton]%elem_of_app Hk.
    + destruct (index_key r0) as [k0|]; [|by eapply IH2].
      destruct (decide (k0 = key)) as [->|]; [by rewrite lookup_insert_eq|]. rewrite lookup_insert_ne by done. by eapply IH2.
    + by rewrite Hk, lookup_insert_eq.
Qed.

(** After the index is rebuilt a key finds a record that is not terminated and was created with
    it, and every such record can be found through its key. *)
Lemma rebuilt_index s key :
  (forall m, order m ≡ₚ map_to_list m) ->
  let s' := rebuild_idempotency_index order s in
  (forall id, find_by_idempotency_key key s' = Some id ->
    exists r, records s' !! id = Some r /\ vm_status r <> "terminated"%string /\ index_key r = Some key) /\
  (forall id r, records s' !! id = Some r -> index_key r = Some key -> is_Some (find_by_idempotency_key key s')).
Proof.
  intros Horder s'. unfold find_by_idempotency_key, s'. cbn.
  destruct (build_index_spec (order (records s)) key) as [Hs Hc]. split.
  - intros id (r & Hr & Hk)%Hs. exists r. rewrite Horder in Hr. apply elem_of_map_to_list in Hr. split; [done|].
    split; [|done]. unfold index_key in Hk. by case_bool_decide.
  - intros id r Hr Hk. apply (Hc id r); [|done]. rewrite Horder. by apply elem_of_map_to_list.
Qed.
End runs.

(** ** Examples *)

Module VmExamples.
#[local] Existing Instance number_serde.
#[local] Instance same_text : Pretty.
Proof.
  refine {| to_vec_pretty v := to_vec v |}. intros v. exists v. split; [|constructor]. cbn. rewrite decode_encode. apply tree_json_tree.
Defined.
#[local] Instance no_identities : RecordCodecs := {|
  identity_to_value _ := JNull; identity_from_value _ := None;
  persistence_to_value _ := JNull; persistence_from_value _ := None |}.

Definition entries (m : gmap string VmRecord) : list (string * VmRecord) := map_to_list m.
Definition io_full : Io := mkIo true [] Written.
Definition nothing : RegState := mkReg ∅ ∅ ∅.
Definition sandbox : VmRecord := new_record "sb" "vm" "stopped" f64_zero.

(** A sandbox is registered, and a start of it begins. *)
Definition registered : RegState := snd (insert_persisted io_full sandbox nothing).
Definition starting : RegState := snd (begin_transition io_full "sb" 0 Running registered).

Lemma first_acquired :
  acquired "sb" (fst (begin_transition io_full "sb" 0 Running registered)) = [("sb"%string, 1)].
Proof. vm_compute. reflexivity. Qed.

Lemma starting_run synced : rtc (reg_step entries synced) ([], nothing) ([("sb"%string, 1)], starting).
Proof.
  assert (Hio : io_ok synced io_full) by (split; [constructor|done]).
  eapply rtc_l; [apply (step_insert _ _ io_full sandbox); [done|]|].
  - split; try done.
    + intros n _ [x Hn]. by apply (lookup_empty_Some n x) in Hn.
    + right. intros n [x Hn]. by apply (lookup_empty_Some n x) in Hn.
  - apply rtc_once. rewrite <- first_acquired, <- (app_nil_r (acquired _ _)). by apply (step_begin _ _ io_full "sb" 0 Running None [] registered).
Qed.

(** The sandbox is removed with its directory and inserted again: its generations repeat. *)
Definition replaced : RegState := snd (insert_persisted io_full sandbox (remove_dir "vm" (snd (remove "sb" starting)))).

Lemma generation_repeats :
  acquired "sb" (fst (begin_transition io_full "sb" 0 Running replaced)) =
  acquired "sb" (fst (begin_transition io_full "sb" 0 Running registered)).
Proof. vm_compute. reflexivity. Qed.

Lemma empty_start : home_start ∅.
Proof. split; [intros ?? Hl; by apply lookup_empty_Some in Hl|set_solver]. Qed.

Lemma transition_owned_once_witness :
  NoDup [("sb"%string, 1)] /\
  forall id r g, records starting !! id = Some r -> (id, g) ∈ [("sb"%string, 1)] -> g <= generation (vm_lifecycle r).
Proof. apply (transition_owned_once entries false ∅); [apply empty_start|apply starting_run]. Defined.

(** The record of the start that is under way. *)
Definition started : VmRecord :=
  detail_lifecycle (set_lifecycle (mkLifecycle Running Stopped 1 None None) (snd (insert_meta sandbox ∅))).

Lemma started_record : records starting !! "sb"%string = Some started.
Proof. vm_compute. reflexivity. Qed.


(** The file of that sandbox does hold a lifecycle. *)
Lemma starting_recorded :
  match read_meta_map true (home starting) "vm" with
  | Ok m => (intent <$> recorded m) = Some ("running"%string, 1, None, None)
  | Err _ => False
  end.
Proof. vm_compute. reflexivity. Qed.

Lemma starting_home : home_ok (home starting).
Proof. apply (ro_home false [("sb"%string, 1)]), (runs_ok entries false ∅ (_, starting)); [apply empty_start|apply starting_run]. Qed.

Lemma interrupted_transition_finishes_witness :
  exists s1 s2 tr r2,
  resume_transition io_fine "sb" 1 starting = (Ok (mkBegin Acquired 2 Running Stopped None), s1) /\
  (forall io seen error reason,
    refused "sb" 1 2 s1 (observe_transition io "sb" 1 seen s1) /\
    refused "sb" 1 2 s1 (fail_transition io "sb" 1 error s1) /\
    refused "sb" 1 2 s1 (cancel_transition io "sb" 1 seen reason s1) /\
    refused "sb" 1 2 s1 (resume_transition io "sb" 1 s1) /\
    refused "sb" 1 2 s1 (retry_transition io "sb" 1 s1)) /\
  observe_transition io_fine "sb" 2 Running s1 = (Ok tr, s2) /\
  records s2 !! "sb"%string = Some r2 /\ is_converged (vm_lifecycle r2) = true /\
  desired (vm_lifecycle r2) = Running /\ generation (vm_lifecycle r2) = 2 /\
  e_intent (entry (home s2) (vm_name started)) = Some (intent (vm_lifecycle r2)).
Proof.
  apply (interrupted_transition_finishes starting "sb" started).
  - apply starting_home.
  - apply started_record.
  - reflexivity.
  - cbn. lia.
Defined.

(** The lock of a file is held for a write, not from the read to the write.  What a launch
    merges into the file in between is lost: here the pid of the process it started. *)
Definition pid_update : Params := {[ "pid"%string := JNumber (NInt 7) ]}.
Definition io_raced : Io := mkIo true [pid_update] Written.
Definition raced : RegState := snd (begin_transition io_raced "sb" 0 Running registered).

Lemma vmm_update_lost :
  is_ok (fst (begin_transition io_raced "sb" 0 Running registered)) = true /\
  match read_meta_map true (snd (merge_meta_map true Written (home registered) "vm" pid_update)) "vm" with
  | Ok m => pid_of m = Some 7 | Err _ => False end /\
  match read_meta_map true (home raced) "vm" with
  | Ok m => pid_of m = None | Err _ => False end.
Proof. vm_compute. done. Qed.
End VmExamples.
