(* ===== verification/DiskDelta.v ===== *)
(** Disk deltas of live migration: [vmond/src/engine/diskdelta.rs].  An image is the list of its
    bytes.  Reads of files that are long enough and writes succeed; a read past the end of a
    file is an error. *)

From S2P Require Import Prelude.

Definition MAGIC : list Z := [86; 77; 79; 78; 68; 83; 75; 49].
Definition BLOCK_LEN : Z := 64 * 1024.
Definition MAX_RECORD_LEN : Z := 4 * 1024 * 1024.
Definition MAX_COMPARE_WORKERS : Z := 8.
Definition MIN_COMPARE_CHUNK_LEN : Z := 64 * 1024 * 1024.
Definition COMPARE_BUF_LEN : Z := 16 * BLOCK_LEN.

Inductive DeltaError : Type :=
  | UnexpectedEof | TruncatedHeader | BadMagic | TruncatedData
  | WrongBase | ZeroLength | OverCap | Overlap | PastEnd | OutOfFuel.

Definition file_len (img : list Z) : Z := Z.of_nat (length img).
Definition slice (img : list Z) (offset len : Z) : list Z :=
  take (Z.to_nat len) (drop (Z.to_nat offset) img).

(** [seek] and [read_exact]. *)
Definition read_block (img : list Z) (offset len : Z) : result DeltaError (list Z) :=
  if offset + len <=? file_len img then Ok (slice img offset len) else Err UnexpectedEof.

(** ** The producer *)

Definition push_run (runs : list (Z * Z)) (run : Z * Z) : list (Z * Z) :=
  let '(offset, len) := run in
  if len =? 0 then runs
  else
    match last runs with
    | Some (last_offset, last_len) =>
        if last_offset + last_len =? offset then take (length runs - 1) runs ++ [(last_offset, last_len + len)]
        else runs ++ [(offset, len)]
    | None => runs ++ [(offset, len)]
    end.

(** [(0..want).step_by(BLOCK_LEN)]. *)
Definition steps (want : Z) : list Z :=
  (fun k => Z.of_nat k * BLOCK_LEN) <$> seq 0 (Z.to_nat (div_ceil want BLOCK_LEN)).

(** The inner loop of [diff_chunk] on one slab of both images. *)
Definition diff_slab (base_buf current_buf : list Z) (offset want : Z) (runs : list (Z * Z)) : list (Z * Z) :=
  foldl (fun runs at_ =>
    let len := Z.min want (at_ + BLOCK_LEN) - at_ in
    if bool_decide (slice current_buf at_ len = slice base_buf at_ len) then runs
    else push_run runs (offset + at_, len)) runs (steps want).

Fixpoint diff_loop (fuel : nat) (base current : list Z) (offset end_ : Z) (runs : list (Z * Z))
  : result DeltaError (list (Z * Z)) :=
  if offset <? end_ then
    match fuel with
    | O => Err OutOfFuel
    | S fuel =>
        let want := Z.min (end_ - offset) COMPARE_BUF_LEN in
        current_buf <-? read_block current offset want;
        base_buf <-? read_block base offset want;
        diff_loop fuel base current (offset + want) end_ (diff_slab base_buf current_buf offset want runs)
    end
  else Ok runs.

Definition diff_chunk (base current : list Z) (start end_ : Z) : result DeltaError (list (Z * Z)) :=
  if end_ <=? start then Ok []
  else diff_loop (Z.to_nat (div_ceil (end_ - start) COMPARE_BUF_LEN)) base current start end_ [].

Definition compare_chunk_len (cpus compare_end : Z) : Z :=
  let workers := Z.min cpus MAX_COMPARE_WORKERS in
  Z.max (div_ceil (div_ceil compare_end workers) BLOCK_LEN * BLOCK_LEN) MIN_COMPARE_CHUNK_LEN.

(** [collect::<Result<_>>]: the first error, or all results in order. *)
Fixpoint collect {A} (rs : list (result DeltaError A)) : result DeltaError (list A) :=
  match rs with
  | [] => Ok []
  | r :: rs => x <-? r; xs <-? collect rs; Ok (x :: xs)
  end.

Definition compare_chunks (base current : list Z) (compare_end chunk_len : Z) : result DeltaError (list (Z * Z)) :=
  let chunk_count := div_ceil compare_end chunk_len in
  if chunk_count <=? 1 then diff_chunk base current 0 compare_end
  else
    chunks <-? collect ((fun index =>
      let start := Z.of_nat index * chunk_len in
      diff_chunk base current start (Z.min compare_end (start + chunk_len))) <$> seq 0 (Z.to_nat chunk_count));
    Ok (foldl (foldl push_run) [] chunks).

Definition flush_record (out : list Z) (offset : Z) (data : list Z) : list Z * Z :=
  match data with
  | [] => (out, 0)
  | _ => (out ++ le_bytes 8 offset ++ le_bytes 4 (file_len data) ++ data, file_len data)
  end.

(** The records of one run. *)
Fixpoint emit_run (fuel : nat) (current : list Z) (offset remaining : Z) (out : list Z) (total : Z)
  : result DeltaError (list Z * Z) :=
  if 0 <? remaining then
    match fuel with
    | O => Err OutOfFuel
    | S fuel =>
        let len := Z.min remaining MAX_RECORD_LEN in
        data <-? read_block current offset len;
        let '(out, written) := flush_record out offset data in
        emit_run fuel current (offset + len) (remaining - len) out (total + written)
    end
  else Ok (out, total).

Fixpoint emit_runs (current : list Z) (runs : list (Z * Z)) (out : list Z) (total : Z)
  : result DeltaError (list Z * Z) :=
  match runs with
  | [] => Ok (out, total)
  | (offset, len) :: runs =>
      '(out, total) <-? emit_run (Z.to_nat (div_ceil len MAX_RECORD_LEN)) current offset len out total;
      emit_runs current runs out total
  end.

Definition compare_end (base_len current_len : Z) : Z :=
  if current_len <=? base_len then current_len else base_len - base_len mod BLOCK_LEN.

(** The contents of the delta and the number of data bytes. *)
Definition write_disk_delta_chunked (cpus : Z) (base current : list Z) (chunk_len : option Z)
  : result DeltaError (list Z * Z) :=
  let base_len := file_len base in
  let current_len := file_len current in
  let out := MAGIC ++ le_bytes 8 base_len ++ le_bytes 8 current_len in
  let end_ := compare_end base_len current_len in
  let chunk_len := default (compare_chunk_len cpus end_) chunk_len in
  runs <-? compare_chunks base current end_ chunk_len;
  let runs := if end_ <? current_len then push_run runs (end_, current_len - end_) else runs in
  emit_runs current runs out 0.

Definition write_disk_delta (cpus : Z) (base current : list Z) : result DeltaError (list Z * Z) :=
  write_disk_delta_chunked cpus base current None.

(** ** The consumer *)

(** [read_exact] of [n] bytes, with the rest of the stream. *)
Definition read_exact (n : nat) (e : DeltaError) (rest : list Z) : result DeltaError (list Z * list Z) :=
  if (n <=? length rest)%nat then Ok (take n rest, drop n rest) else Err e.

Definition set_len (n : Z) (img : list Z) : list Z :=
  take (Z.to_nat n) img ++ replicate (Z.to_nat n - length img) 0.

(** [seek] and [write_all]. *)
Definition write_at (offset : Z) (data img : list Z) : list Z :=
  take (Z.to_nat offset) (set_len (Z.max offset (file_len img)) img) ++ data ++
  drop (Z.to_nat offset + length data) img.

(** The loop over the records, with the target as far as it was patched. *)
Fixpoint apply_records (fuel : nat) (rest : list Z) (current_len next_offset : Z) (target : list Z)
  : result DeltaError unit * list Z :=
  match fuel with
  | O => (Err OutOfFuel, target)
  | S fuel =>
      let got := Nat.min 8 (length rest) in
      if (got =? 0)%nat then (Ok tt, target)
      else if (got <? 8)%nat then (Err TruncatedHeader, target)
      else
        let offset := of_le_bytes (take 8 rest) in
        match read_exact 4 TruncatedHeader (drop 8 rest) with
        | Err e => (Err e, target)
        | Ok (len_bytes, rest) =>
            let len := of_le_bytes len_bytes in
            if len =? 0 then (Err ZeroLength, target)
            else if MAX_RECORD_LEN <? len then (Err OverCap, target)
            else if offset <? next_offset then (Err Overlap, target)
            else
              match checked_add 64 offset len with
              | None => (Err PastEnd, target)
              | Some end_ =>
                  if end_ <=? current_len then
                    match read_exact (Z.to_nat len) TruncatedData rest with
                    | Err e => (Err e, target)
                    | Ok (data, rest) => apply_records fuel rest current_len end_ (write_at offset data target)
                    end
                  else (Err PastEnd, target)
              end
        end
  end.

(** The magic and the two lengths, with the rest of the stream. *)
Definition read_header (delta : list Z) : result DeltaError (Z * Z * list Z) :=
  '(magic, rest) <-? read_exact 8 UnexpectedEof delta;
  if bool_decide (magic = MAGIC) then
    '(base_len, rest) <-? read_exact 8 UnexpectedEof rest;
    '(current_len, rest) <-? read_exact 8 UnexpectedEof rest;
    Ok (of_le_bytes base_len, of_le_bytes current_len, rest)
  else Err BadMagic.

(** The target file afterwards, also when an error is returned. *)
Definition apply_disk_delta (delta target : list Z) : result DeltaError unit * list Z :=
  match read_header delta with
  | Err e => (Err e, target)
  | Ok (base_len, current_len, rest) =>
      if negb (file_len target =? base_len) then (Err WrongBase, target)
      else apply_records (S (length rest)) rest current_len 0 (set_len current_len target)
  end.

(** The stream of a small change, and what it makes of a copy of the base. *)
Example delta_small :
  write_disk_delta 4 [1; 2; 3] [1; 2; 9; 4] =
    Ok (MAGIC ++ le_bytes 8 3 ++ le_bytes 8 4 ++ le_bytes 8 0 ++ le_bytes 4 4 ++ [1; 2; 9; 4], 4) /\
  apply_disk_delta (MAGIC ++ le_bytes 8 3 ++ le_bytes 8 4 ++ le_bytes 8 0 ++ le_bytes 4 4 ++ [1; 2; 9; 4]) [1; 2; 3] =
    (Ok tt, [1; 2; 9; 4]).
Proof. vm_compute. done. Qed.
