(* ===== verification/DiskDeltaCorrect.v ===== *)
(** Correctness of the disk deltas of [DiskDelta]: the scan in chunks finds the runs of one
    sequential scan, the delta rebuilds the image, and the consumer accepts exactly the streams
    of well-formed records. *)

From S2P Require Import Prelude DiskDelta.

#[local] Opaque BLOCK_LEN MAX_RECORD_LEN COMPARE_BUF_LEN.

Lemma block_pos : 0 < BLOCK_LEN. Proof. done. Qed.
Lemma buf_blocks : COMPARE_BUF_LEN = 16 * BLOCK_LEN. Proof. done. Qed.
Lemma cap_pos : 0 < MAX_RECORD_LEN < 2 ^ 32. Proof. done. Qed.

Ltac constants := pose proof block_pos; pose proof buf_blocks; pose proof cap_pos.

(** ** Runs *)

Definition run_pos (r : Z * Z) : Prop := 0 < snd r.

Lemma push_run_nil o l : 0 < l -> push_run [] (o, l) = [(o, l)].
Proof. intros Hl. unfold push_run. rewrite (proj2 (Z.eqb_neq _ _)) by lia. done. Qed.

Lemma push_run_snoc rs o l o' l' :
  0 < l' -> push_run (rs ++ [(o, l)]) (o', l') =
    if o + l =? o' then rs ++ [(o, l + l')] else rs ++ [(o, l)] ++ [(o', l')].
Proof.
  intros Hl. unfold push_run. rewrite (proj2 (Z.eqb_neq _ _)) by lia. rewrite last_snoc.
  case_match; [|by rewrite <- app_assoc]. f_equal. rewrite length_app. cbn.
  replace (length rs + 1 - 1)%nat with (length rs) by lia. by rewrite take_app_length.
Qed.

Lemma push_run_last rs o l : 0 < l -> exists rs' o', push_run rs (o, l) = rs' ++ [(o', o + l - o')].
Proof.
  intros Hl. destruct rs as [|[a b] rs _] using rev_ind.
  - rewrite push_run_nil by done. exists [], o. cbn. by replace (o + l - o) with l by lia.
  - rewrite push_run_snoc by done. destruct (a + b =? o) eqn:E; [apply Z.eqb_eq in E|].
    + exists rs, a. do 3 f_equal. lia.
    + exists (rs ++ [(a, b)]), o. rewrite <- app_assoc. cbn. by replace (o + l - o) with l by lia.
Qed.

(** Two adjacent runs are pushed as one. *)
Lemma push_run_join rs o l l' :
  0 < l -> 0 < l' -> push_run (push_run rs (o, l)) (o + l, l') = push_run rs (o, l + l').
Proof.
  intros Hl Hl'. destruct rs as [|[a b] rs _] using rev_ind.
  - rewrite !push_run_nil by lia. pose proof (push_run_snoc [] o l (o + l) l' Hl') as Hp. cbn [app] in Hp. by rewrite Hp, Z.eqb_refl.
  - rewrite !(push_run_snoc rs a b) by lia. destruct (a + b =? o) eqn:E.
    + apply Z.eqb_eq in E. rewrite push_run_snoc by done. rewrite (proj2 (Z.eqb_eq _ _)) by lia. do 3 f_equal. lia.
    + rewrite app_assoc, push_run_snoc by done. rewrite Z.eqb_refl. by rewrite <- app_assoc.
Qed.

Lemma foldl_push_one acc rs r :
  Forall run_pos rs -> run_pos r -> foldl push_run acc (push_run rs r) = push_run (foldl push_run acc rs) r.
Proof.
  destruct r as [o l]. intros Hrs Hl. unfold run_pos in Hl. cbn in Hl.
  destruct rs as [|[a b] rs _] using rev_ind; [by rewrite push_run_nil|].
  apply Forall_app in Hrs as [_ Hb]. rewrite Forall_singleton in Hb. unfold run_pos in Hb. cbn in Hb.
  rewrite push_run_snoc by done. destruct (a + b =? o) eqn:E.
  - apply Z.eqb_eq in E as <-. rewrite !foldl_snoc. rewrite push_run_join by lia. done.
  - by rewrite app_assoc, foldl_snoc.
Qed.

Lemma push_run_pos rs r : Forall run_pos rs -> run_pos r -> Forall run_pos (push_run rs r).
Proof.
  destruct r as [o l]. intros Hrs Hl. unfold run_pos in Hl. cbn in Hl.
  destruct rs as [|[a b] rs _] using rev_ind; [rewrite push_run_nil by done; by repeat constructor|].
  apply Forall_app in Hrs as [Hrs Hb]. rewrite Forall_singleton in Hb. unfold run_pos in Hb. cbn in Hb.
  rewrite push_run_snoc by done. case_match; apply Forall_app; (split; [done|]); repeat constructor; unfold run_pos; cbn; lia.
Qed.

Lemma coalesced_pos acc bs : Forall run_pos acc -> Forall run_pos bs -> Forall run_pos (foldl push_run acc bs).
Proof. intros Ha Hb. revert acc Ha. induction Hb; intros acc Ha; [done|]. cbn. eauto using push_run_pos. Qed.

(** Coalescing first changes nothing. *)
Lemma foldl_coalesced acc bs :
  Forall run_pos bs -> foldl push_run acc (foldl push_run [] bs) = foldl push_run acc bs.
Proof.
  induction bs as [|b bs IH] using rev_ind; [done|]. intros [Hbs Hb]%Forall_app. rewrite Forall_singleton in Hb.
  rewrite !foldl_snoc, foldl_push_one by (done || by apply coalesced_pos). by rewrite IH.
Qed.

(** ** Blocks *)

Definition blocks (start end_ : Z) : list (Z * Z) :=
  (fun k => let o := start + Z.of_nat k * BLOCK_LEN in (o, Z.min end_ (o + BLOCK_LEN) - o)) <$>
  seq 0 (Z.to_nat (div_ceil (end_ - start) BLOCK_LEN)).

Lemma div_ceil_bounds a b : 0 <= a -> 0 < b -> 0 <= div_ceil a b /\ (div_ceil a b - 1) * b < a <= div_ceil a b * b \/ a = 0.
Proof. intros Ha Hb. unfold div_ceil. destruct (decide (a = 0)); [by right|left]. divlia. Qed.

Lemma div_ceil_mult k b : 0 < b -> div_ceil (k * b) b = k.
Proof. intros Hb. unfold div_ceil. replace (k * b + b - 1) with (b - 1 + k * b) by lia.
  rewrite Z.div_add by lia. rewrite Z.div_small; lia. Qed.

Lemma div_ceil_add k a b : 0 < b -> div_ceil (k * b + a) b = k + div_ceil a b.
Proof. intros Hb. unfold div_ceil. replace (k * b + a + b - 1) with (a + b - 1 + k * b) by lia.
  rewrite Z.div_add by lia. lia. Qed.

Lemma div_ceil_nonneg a b : 0 <= a -> 0 < b -> 0 <= div_ceil a b.
Proof. intros. unfold div_ceil. apply Z.div_pos; lia. Qed.

Lemma blocks_app s k e :
  0 <= k -> s + k * BLOCK_LEN <= e ->
  blocks s e = blocks s (s + k * BLOCK_LEN) ++ blocks (s + k * BLOCK_LEN) e.
Proof.
  intros Hk He. constants. unfold blocks. set (m := s + k * BLOCK_LEN) in *.
  replace (m - s) with (k * BLOCK_LEN) by lia. rewrite div_ceil_mult by done.
  replace (e - s) with (k * BLOCK_LEN + (e - m)) by lia. rewrite div_ceil_add by done.
  rewrite Z2Nat.inj_add by (lia || apply div_ceil_nonneg; lia). rewrite seq_app, fmap_app. f_equal.
  - apply list_fmap_ext. intros i x Hx. apply lookup_seq in Hx as [-> Hi]. cbn zeta. f_equal.
    assert (s + Z.of_nat i * BLOCK_LEN + BLOCK_LEN <= m) by (unfold m; nia). lia.
  - rewrite Nat.add_0_l. rewrite <- (Nat.add_0_r (Z.to_nat k)), <- fmap_add_seq, <- list_fmap_compose.
    apply list_fmap_ext. intros i x Hx. cbn. assert (s + Z.of_nat (Z.to_nat k + x) * BLOCK_LEN = m + Z.of_nat x * BLOCK_LEN) as ->
      by (unfold m; nia). done.
Qed.

Lemma blocks_empty s e : e <= s -> blocks s e = [].
Proof.
  intros He. constants. unfold blocks. replace (Z.to_nat _) with 0%nat; [done|].
  unfold div_ceil. assert ((e - s + BLOCK_LEN - 1) / BLOCK_LEN < 1) by (apply Z.div_lt_upper_bound; lia). lia.
Qed.

(** A block of the grid. *)
Lemma elem_of_blocks s e o l :
  (o, l) ∈ blocks s e -> s <= o /\ 0 < l <= BLOCK_LEN /\ o + l <= e /\ (l = BLOCK_LEN \/ o + l = e).
Proof.
  constants. unfold blocks. intros (k & [= -> ->] & Hk)%list_elem_of_fmap. apply elem_of_seq in Hk.
  destruct (div_ceil_bounds (e - s) BLOCK_LEN) as [[Hn Hb]|He]; [| |nia|].
  - destruct (decide (s <= e)); [lia|]. exfalso.
    assert (div_ceil (e - s) BLOCK_LEN < 1) by (unfold div_ceil; apply Z.div_lt_upper_bound; lia). lia.
  - done.
  - exfalso. rewrite He in Hk. unfold div_ceil in Hk. rewrite Z.div_small in Hk by lia. lia.
Qed.

(** ** The scan *)

Section scan.
Context (base current : list Z).

Definition differs (b : Z * Z) : Prop := slice current (fst b) (snd b) <> slice base (fst b) (snd b).
#[local] Instance differs_dec b : Decision (differs b).
Proof. unfold differs. apply _. Defined.

Definition changed_blocks (start end_ : Z) : list (Z * Z) := filter differs (blocks start end_).

Lemma changed_pos s e : Forall run_pos (changed_blocks s e).
Proof.
  apply Forall_forall. intros [o l] [_ Hb]%list_elem_of_filter. apply elem_of_blocks in Hb. unfold run_pos. cbn. lia.
Qed.

Lemma slice_slice img o n a l :
  0 <= o -> 0 <= a -> 0 <= l -> a + l <= n -> slice (slice img o n) a l = slice img (o + a) l.
Proof.
  intros Ho Ha Hl Hn. unfold slice. rewrite skipn_firstn_comm, firstn_firstn, drop_drop. f_equal; [lia|]. f_equal. lia.
Qed.

Lemma foldl_filter (f : list (Z * Z) -> Z -> list (Z * Z)) (g : Z -> Z * Z) l acc :
  (forall acc x, x ∈ l -> f acc x = if decide (differs (g x)) then push_run acc (g x) else acc) ->
  foldl f acc l = foldl push_run acc (filter differs (g <$> l)).
Proof.
  revert acc. induction l as [|x l IH]; intros acc Hf; [done|]. cbn [foldl]. rewrite fmap_cons, filter_cons.
  rewrite Hf by set_solver. rewrite IH by (intros; apply Hf; set_solver). by case_decide.
Qed.

Lemma diff_slab_spec o want runs :
  0 <= o -> 0 <= want ->
  diff_slab (slice base o want) (slice current o want) o want runs =
  foldl push_run runs (changed_blocks o (o + want)).
Proof.
  intros Ho Hw. constants. unfold diff_slab, changed_blocks.
  rewrite (foldl_filter _ (fun x => (o + x, Z.min want (x + BLOCK_LEN) - x))).
  - f_equal. f_equal. unfold steps, blocks. rewrite <- list_fmap_compose.
    replace (o + want - o) with want by lia. apply list_fmap_ext. intros i x _. cbn. f_equal. lia.
  - intros acc x Hx. unfold steps in Hx. apply list_elem_of_fmap in Hx as (k & -> & Hk). apply elem_of_seq in Hk.
    assert (Hlt : Z.of_nat k * BLOCK_LEN < want)
      by (destruct (div_ceil_bounds want BLOCK_LEN) as [[? ?]|He]; [lia|done|nia|];
          exfalso; subst want; unfold div_ceil in Hk; rewrite Z.div_small in Hk by lia; lia).
    rewrite !slice_slice by nia. unfold differs. cbn [fst snd]. case_bool_decide; case_decide; (done || congruence).
Qed.

Lemma read_block_fits img o n : o + n <= file_len img -> read_block img o n = Ok (slice img o n).
Proof. intros Hn. unfold read_block. by rewrite (proj2 (Z.leb_le _ _)). Qed.

Lemma changed_blocks_app s k e :
  0 <= k -> s + k * BLOCK_LEN <= e ->
  changed_blocks s e = changed_blocks s (s + k * BLOCK_LEN) ++ changed_blocks (s + k * BLOCK_LEN) e.
Proof. intros. unfold changed_blocks. by rewrite <- filter_app, <- blocks_app. Qed.

Lemma changed_blocks_empty s e : e <= s -> changed_blocks s e = [].
Proof. intros. unfold changed_blocks. by rewrite blocks_empty. Qed.

Lemma diff_loop_spec fuel o e runs :
  0 <= o -> e <= file_len base -> e <= file_len current -> div_ceil (e - o) COMPARE_BUF_LEN <= Z.of_nat fuel ->
  diff_loop fuel base current o e runs = Ok (foldl push_run runs (changed_blocks o e)).
Proof.
  revert o runs. induction fuel as [|fuel IH]; intros o runs Ho Hb Hc Hf; constants; cbn [diff_loop];
    (destruct (o <? e) eqn:Hlt; [apply Z.ltb_lt in Hlt|apply Z.ltb_ge in Hlt; by rewrite changed_blocks_empty]).
  - exfalso. unfold div_ceil in Hf. assert (1 <= (e - o + COMPARE_BUF_LEN - 1) / COMPARE_BUF_LEN); [|lia].
    apply Z.div_le_lower_bound; lia.
  - cbn zeta. set (want := Z.min (e - o) COMPARE_BUF_LEN). rewrite !read_block_fits by lia. cbn [result_bind].
    rewrite diff_slab_spec by lia. destruct (decide (e - o <= COMPARE_BUF_LEN)) as [Hle|Hgt].
    + replace (o + want) with e by lia. rewrite IH; [by rewrite (changed_blocks_empty e e)|lia..|].
      rewrite Z.sub_diag. unfold div_ceil. rewrite Z.div_small by lia. lia.
    + replace want with (16 * BLOCK_LEN) by lia. rewrite IH; [|lia..|].
      * rewrite (changed_blocks_app o 16 e) by lia. by rewrite foldl_app.
      * replace (e - o) with (1 * COMPARE_BUF_LEN + (e - (o + 16 * BLOCK_LEN))) in Hf by lia.
        rewrite div_ceil_add in Hf by lia. lia.
Qed.

Lemma diff_chunk_spec s e :
  0 <= s -> e <= file_len base -> e <= file_len current ->
  diff_chunk base current s e = Ok (foldl push_run [] (changed_blocks s e)).
Proof.
  intros Hs Hb Hc. constants. unfold diff_chunk. destruct (e <=? s) eqn:He.
  - apply Z.leb_le in He. by rewrite changed_blocks_empty.
  - apply Z.leb_gt in He. apply diff_loop_spec; [lia..|]. rewrite Z2Nat.id; [done|apply div_ceil_nonneg; lia].
Qed.

Lemma collect_ok {A B} (f : A -> result DeltaError B) g (l : list A) :
  (forall x, x ∈ l -> f x = Ok (g x)) -> collect (f <$> l) = Ok (g <$> l).
Proof.
  induction l as [|x l IH]; intros Hf; [done|]. rewrite !fmap_cons. cbn [collect].
  rewrite Hf by set_solver. cbn [result_bind]. rewrite IH by (intros; apply Hf; set_solver). done.
Qed.

(** The chunks, each coalesced, merged in order. *)
Lemma merge_chunks c n e :
  0 <= c -> 0 <= e ->
  foldl (foldl push_run) []
    ((fun i => foldl push_run [] (changed_blocks (Z.of_nat i * (c * BLOCK_LEN))
       (Z.min e (Z.of_nat i * (c * BLOCK_LEN) + c * BLOCK_LEN)))) <$> seq 0 n) =
  foldl push_run [] (changed_blocks 0 (Z.min e (Z.of_nat n * (c * BLOCK_LEN)))).
Proof.
  intros Hc He. constants. induction n as [|n IH].
  - by rewrite (changed_blocks_empty 0) by lia.
  - rewrite seq_S, fmap_app, foldl_app, IH. cbn [fmap list_fmap foldl]. rewrite Nat.add_0_l.
    rewrite foldl_coalesced by apply changed_pos. set (m := Z.of_nat n * (c * BLOCK_LEN)).
    replace (Z.of_nat (S n) * (c * BLOCK_LEN)) with (m + c * BLOCK_LEN) by lia.
    destruct (decide (e <= m)) as [Hle|Hgt].
    + rewrite (changed_blocks_empty m) by lia. cbn [foldl]. do 2 f_equal. nia.
    + rewrite (Z.min_r e m) by lia. set (e' := Z.min e (m + c * BLOCK_LEN)).
      pose proof (changed_blocks_app 0 (Z.of_nat n * c) e') as Ha.
      replace (0 + Z.of_nat n * c * BLOCK_LEN) with m in Ha by lia.
      rewrite Ha, foldl_app by (unfold e'; nia). done.
Qed.

Lemma compare_chunks_spec e c :
  0 < c -> 0 <= e -> e <= file_len base -> e <= file_len current ->
  compare_chunks base current e (c * BLOCK_LEN) = Ok (foldl push_run [] (changed_blocks 0 e)).
Proof.
  intros Hc He Hb Hcu. constants. unfold compare_chunks. cbn zeta. destruct (_ <=? 1); [by apply diff_chunk_spec|].
  rewrite (collect_ok _ (fun i => foldl push_run [] (changed_blocks (Z.of_nat i * (c * BLOCK_LEN))
    (Z.min e (Z.of_nat i * (c * BLOCK_LEN) + c * BLOCK_LEN))))).
  - cbn [result_bind]. rewrite merge_chunks by lia. do 3 f_equal. apply Z.min_l.
    rewrite Z2Nat.id by (apply div_ceil_nonneg; nia).
    destruct (div_ceil_bounds e (c * BLOCK_LEN)) as [[? ?]| ->]; [lia|nia|nia|].
    unfold div_ceil. rewrite Z.div_small by nia. lia.
  - intros i _. apply diff_chunk_spec; nia.
Qed.
End scan.

(** ** Runs in order *)

Fixpoint ascending (next lim : Z) (runs : list (Z * Z)) : Prop :=
  match runs with
  | [] => next <= lim
  | (o, l) :: runs => next <= o /\ 0 < l /\ ascending (o + l) lim runs
  end.

Lemma ascending_snoc next lim rs o l :
  ascending next lim (rs ++ [(o, l)]) <-> ascending next o rs /\ 0 < l /\ o + l <= lim.
Proof.
  revert next. induction rs as [|[a b] rs IH]; intros next; cbn; [lia|]. rewrite IH. tauto.
Qed.

Lemma ascending_mono next lim lim' rs : ascending next lim rs -> lim <= lim' -> ascending next lim' rs.
Proof. revert next. induction rs as [|[a b] rs IH]; intros next; cbn; [lia|]. intros (? & ? & ?) ?. eauto. Qed.

Lemma push_run_ascending next m lim rs o l :
  ascending next m rs -> m <= o -> 0 < l -> o + l <= lim -> ascending next lim (push_run rs (o, l)).
Proof.
  intros Hrs Hm Hl Hlim. destruct rs as [|[a b] rs _] using rev_ind; [rewrite push_run_nil by done; cbn in *; lia|].
  rewrite push_run_snoc by done. pose proof Hrs as (Ha & Hb & Hab)%ascending_snoc. case_match.
  - bool_to_prop. apply ascending_snoc. split; [done|lia].
  - rewrite app_assoc. apply ascending_snoc. split; [|done]. by eapply ascending_mono.
Qed.

Lemma coalesced_ascending next lim bs : ascending next lim bs -> ascending next lim (foldl push_run [] bs).
Proof.
  revert lim. induction bs as [|[o l] bs IH] using rev_ind; intros lim; [done|].
  rewrite foldl_snoc. intros (Ha & Hl & Ho)%ascending_snoc. by eapply push_run_ascending; [apply IH|..].
Qed.

Lemma changed_ascending base current s e : s <= e -> ascending s e (changed_blocks base current s e).
Proof.
  intros Hse. constants. unfold changed_blocks, blocks.
  assert (Hn : forall n, (n <= Z.to_nat (div_ceil (e - s) BLOCK_LEN))%nat ->
    ascending s (Z.min e (s + Z.of_nat n * BLOCK_LEN))
      (filter (differs base current) ((fun k => let o := s + Z.of_nat k * BLOCK_LEN in
        (o, Z.min e (o + BLOCK_LEN) - o)) <$> seq 0 n))).
  { induction n as [|n IH]; intros Hn; [cbn; lia|]. specialize (IH ltac:(lia)).
    assert (Hlt : s + Z.of_nat n * BLOCK_LEN < e).
    { destruct (div_ceil_bounds (e - s) BLOCK_LEN) as [[? ?]|He]; [lia|done|nia|].
      rewrite He in Hn. unfold div_ceil in Hn. rewrite Z.div_small in Hn by lia. lia. }
    rewrite seq_S, fmap_app, filter_app, Nat.add_0_l. cbn [fmap list_fmap]. rewrite filter_cons, filter_nil.
    replace (Z.min e (s + Z.of_nat n * BLOCK_LEN)) with (s + Z.of_nat n * BLOCK_LEN) in IH by lia.
    case_decide; [|rewrite app_nil_r; eapply ascending_mono; [done|lia]].
    apply ascending_snoc. split; [done|]. lia. }
  eapply ascending_mono; [by apply Hn|]. lia.
Qed.

Definition in_run (p : Z) (r : Z * Z) : Prop := fst r <= p < fst r + snd r.

Lemma push_run_covers p rs r :
  Forall run_pos rs -> run_pos r -> Exists (in_run p) rs \/ in_run p r -> Exists (in_run p) (push_run rs r).
Proof.
  destruct r as [o l]. unfold run_pos. cbn [snd]. intros Hrs Hl Hp.
  destruct rs as [|[a b] rs _] using rev_ind.
  - rewrite push_run_nil by done. destruct Hp as [Hp|Hp]; [by apply Exists_nil in Hp|by constructor].
  - apply Forall_app in Hrs as [_ Hb]. rewrite Forall_singleton in Hb. cbn in Hb.
    rewrite push_run_snoc by done. rewrite Exists_app, Exists_cons, Exists_nil in Hp. unfold in_run in Hp. cbn in Hp.
    assert (Hcase : Exists (in_run p) rs \/ a <= p < a + b \/ o <= p < o + l) by tauto.
    case_match; bool_to_prop; rewrite Exists_app; (destruct Hcase as [?|Hcase]; [by left|right]).
    + apply Exists_cons_hd. unfold in_run. cbn. lia.
    + destruct Hcase; [by apply Exists_cons_hd|by apply Exists_cons_tl, Exists_cons_hd].
Qed.

Lemma coalesced_covers p bs :
  Forall run_pos bs -> Exists (in_run p) bs -> Exists (in_run p) (foldl push_run [] bs).
Proof.
  induction bs as [|b bs IH] using rev_ind; [done|]. intros [Hbs Hb]%Forall_app Hp. rewrite Forall_singleton in Hb.
  rewrite foldl_snoc. apply push_run_covers; [by apply coalesced_pos|done|].
  apply Exists_app in Hp as [Hp|[Hp|Hp%Exists_nil]%Exists_cons]; [left; by apply IH|by right|done].
Qed.

(** ** Records *)

Fixpoint valid_records (next lim : Z) (recs : list (Z * list Z)) : Prop :=
  match recs with
  | [] => next <= lim
  | (o, d) :: recs => next <= o /\ 0 < file_len d <= MAX_RECORD_LEN /\ valid_records (o + file_len d) lim recs
  end.

Definition encode_record (r : Z * list Z) : list Z :=
  le_bytes 8 (fst r) ++ le_bytes 4 (file_len (snd r)) ++ snd r.
Definition encode_records (recs : list (Z * list Z)) : list Z := concat (encode_record <$> recs).
Definition patch (recs : list (Z * list Z)) (img : list Z) : list Z :=
  foldl (fun img r => write_at (fst r) (snd r) img) img recs.

Lemma valid_le next lim recs : valid_records next lim recs -> next <= lim.
Proof. revert next. induction recs as [|[o d] recs IH]; intros next; cbn; [done|]. intros (? & ? & Hv%IH). lia. Qed.

Lemma valid_app next m m' lim r1 r2 :
  valid_records next m r1 -> m <= m' -> valid_records m' lim r2 -> valid_records next lim (r1 ++ r2).
Proof.
  revert next. induction r1 as [|[o d] r1 IH]; intros next; cbn.
  - intros Hn Hm. destruct r2 as [|[o d] r2]; cbn; [lia|]. intros (? & ? & ?). split_and!; (done || lia).
  - intros (? & ? & ?) ? ?. split_and!; eauto; lia.
Qed.

Lemma encode_records_app r1 r2 : encode_records (r1 ++ r2) = encode_records r1 ++ encode_records r2.
Proof. unfold encode_records. by rewrite fmap_app, concat_app. Qed.

Lemma length_slice img o l : 0 <= o -> 0 <= l -> o + l <= file_len img -> file_len (slice img o l) = l.
Proof. unfold file_len, slice. intros. rewrite length_take, length_drop. lia. Qed.

(** Records that hold the contents of an image over a range. *)
Definition from_image (current : list Z) (recs : list (Z * list Z)) : Prop :=
  Forall (fun r => snd r = slice current (fst r) (file_len (snd r))) recs.
Definition recorded (p : Z) (recs : list (Z * list Z)) : Prop :=
  Exists (fun r => in_run p (fst r, file_len (snd r))) recs.

Lemma emit_run_spec fuel current o rem out total :
  0 <= o -> 0 <= rem -> o + rem <= file_len current -> div_ceil rem MAX_RECORD_LEN <= Z.of_nat fuel ->
  exists recs n, emit_run fuel current o rem out total = Ok (out ++ encode_records recs, total + n) /\
    valid_records o (o + rem) recs /\ from_image current recs /\ forall p, in_run p (o, rem) -> recorded p recs.
Proof.
  revert o rem out total. induction fuel as [|fuel IH]; intros o rem out total Ho Hr Hc Hf; constants; cbn [emit_run];
    (destruct (0 <? rem) eqn:Hrem;
      [apply Z.ltb_lt in Hrem|apply Z.ltb_ge in Hrem; exists [], 0; split_and!;
        [by rewrite app_nil_r, Z.add_0_r|cbn; lia|constructor|unfold in_run; cbn; lia]]).
  - exfalso. unfold div_ceil in Hf. assert (1 <= (rem + MAX_RECORD_LEN - 1) / MAX_RECORD_LEN); [|lia].
    apply Z.div_le_lower_bound; lia.
  - cbn zeta. set (len := Z.min rem MAX_RECORD_LEN). rewrite read_block_fits by lia. cbn [result_bind].
    pose proof (length_slice current o len Ho ltac:(lia) ltac:(lia)) as Hlen. set (data := slice current o len) in *.
    assert (flush_record out o data = (out ++ encode_record (o, data), len)) as ->.
    { unfold flush_record. destruct data; [unfold file_len in Hlen; cbn in Hlen; lia|]. unfold encode_record; cbn [fst snd]; by rewrite Hlen. }
    destruct (IH (o + len) (rem - len) (out ++ encode_record (o, data)) (total + len)) as (recs & n & -> & Hv & Hd & Hp).
    { lia. } { lia. } { lia. }
    { destruct (decide (rem <= MAX_RECORD_LEN)); [replace (rem - len) with 0 by lia; unfold div_ceil; rewrite Z.div_small; lia|].
      replace rem with (1 * MAX_RECORD_LEN + (rem - len)) in Hf at 1 by lia. rewrite div_ceil_add in Hf by lia. lia. }
    exists ((o, data) :: recs), (len + n). split_and!.
    + do 2 f_equal; [by rewrite <- app_assoc|lia].
    + cbn. rewrite Hlen. split_and!; [lia..|]. by replace (o + rem) with (o + len + (rem - len)) by lia.
    + constructor; [cbn; by rewrite Hlen|done].
    + intros p Hin. unfold recorded, in_run in *. cbn [fst snd] in Hin. destruct (decide (p < o + len)).
      * constructor. cbn. lia.
      * apply Exists_cons_tl. apply Hp. cbn. lia.
Qed.

Lemma emit_runs_spec current runs next lim out total :
  0 <= next -> ascending next lim runs -> lim <= file_len current ->
  exists recs n, emit_runs current runs out total = Ok (out ++ encode_records recs, total + n) /\
    valid_records next lim recs /\ from_image current recs /\ forall p, Exists (in_run p) runs -> recorded p recs.
Proof.
  revert next out total. induction runs as [|[o l] runs IH]; intros next out total Hn Ha Hl; cbn [emit_runs].
  - exists [], 0. split_and!; [by rewrite app_nil_r, Z.add_0_r|done|constructor|by intros p Hp%Exists_nil].
  - destruct Ha as (Ho & Hpos & Ha). constants.
    assert (Hol : o + l <= lim) by (clear -Ha; revert Ha; generalize (o + l); induction runs as [|[? ?] ? IH]; cbn; [lia|];
      intros ? (? & ? & Hx%IH); lia).
    destruct (emit_run_spec (Z.to_nat (div_ceil l MAX_RECORD_LEN)) current o l out total) as (r1 & n1 & -> & Hv1 & Hd1 & Hp1);
      [lia..|rewrite Z2Nat.id; [done|apply div_ceil_nonneg; lia]|].
    cbn [result_bind]. destruct (IH (o + l) (out ++ encode_records r1) (total + n1)) as (r2 & n2 & -> & Hv2 & Hd2 & Hp2); [lia|done..|].
    exists (r1 ++ r2), (n1 + n2). split_and!.
    + rewrite encode_records_app. do 2 f_equal; [by rewrite <- app_assoc|lia].
    + eapply (valid_app next (o + l) (o + l)); [|lia|done]. destruct r1 as [|[a d] r1]; cbn in *; [lia|]. intuition lia.
    + by apply Forall_app.
    + intros p [Hp|Hp]%Exists_cons; apply Exists_app; [left; by apply Hp1|right; by apply Hp2].
Qed.

(** ** The consumer *)

Lemma read_exact_prefix n e a rest : length a = n -> read_exact n e (a ++ rest) = Ok (a, rest).
Proof.
  intros <-. unfold read_exact. rewrite length_app.
  rewrite (proj2 (Nat.leb_le _ _)) by lia. by rewrite take_app_length, drop_app_length.
Qed.

Lemma write_at_fits o d img :
  0 <= o -> o + file_len d <= file_len img ->
  write_at o d img = take (Z.to_nat o) img ++ d ++ drop (Z.to_nat o + length d) img.
Proof.
  unfold write_at, set_len, file_len. intros Ho Hd. rewrite Z.max_r by lia. rewrite Nat2Z.id, firstn_all, Nat.sub_diag.
  cbn [replicate]. by rewrite app_nil_r.
Qed.

Lemma length_write_at o d img :
  0 <= o -> o + file_len d <= file_len img -> length (write_at o d img) = length img.
Proof.
  intros Ho Hd. rewrite write_at_fits by done. unfold file_len in *.
  rewrite !length_app, length_take, length_drop. lia.
Qed.

(** A stream that begins with a record. *)
Lemma apply_one fuel o d rest lim next img :
  0 <= next <= o -> 0 < file_len d <= MAX_RECORD_LEN -> o + file_len d <= lim -> lim < 2 ^ 64 ->
  apply_records (S fuel) (encode_record (o, d) ++ rest) lim next img =
  apply_records fuel rest lim (o + file_len d) (write_at o d img).
Proof.
  intros Hn Hd Hlim H64. constants. unfold encode_record. cbn [fst snd]. rewrite <- !app_assoc.
  assert (Hl8 : length (le_bytes 8 o) = 8%nat) by apply length_le_bytes.
  cbn [apply_records]. rewrite length_app, Hl8, Nat.min_l by lia. cbn [Nat.eqb Nat.ltb Nat.leb].
  rewrite take_app_length', drop_app_length', of_le_bytes_le_bytes by (done || cbn; lia).
  rewrite read_exact_prefix by apply length_le_bytes. rewrite of_le_bytes_le_bytes by (cbn; lia).
  rewrite (proj2 (Z.eqb_neq _ _)), (proj2 (Z.ltb_ge _ _)), (proj2 (Z.ltb_ge _ _)) by lia.
  rewrite checked_add_fits by lia. rewrite (proj2 (Z.leb_le _ _)) by lia.
  rewrite read_exact_prefix by (unfold file_len; lia). done.
Qed.

Lemma apply_encoded recs fuel lim next img :
  0 <= next -> valid_records next lim recs -> lim < 2 ^ 64 -> (length recs < fuel)%nat ->
  apply_records fuel (encode_records recs) lim next img = (Ok tt, patch recs img).
Proof.
  revert fuel next img. induction recs as [|[o d] recs IH]; intros [|fuel] next img Hn Hv Hlim Hf; try (cbn in Hf; lia); [done|].
  destruct Hv as (Ho & Hd & Hv). pose proof (valid_le _ _ _ Hv).
  change (encode_records ((o, d) :: recs)) with (encode_record (o, d) ++ encode_records recs).
  rewrite apply_one by lia. cbn in Hf. rewrite IH; [done|lia|done..|lia].
Qed.

Lemma length_encode recs : (length recs <= length (encode_records recs))%nat.
Proof.
  induction recs as [|[o d] recs IH]; [done|].
  change (encode_records ((o, d) :: recs)) with (encode_record (o, d) ++ encode_records recs).
  rewrite length_app. unfold encode_record. cbn [fst snd]. rewrite length_app, length_le_bytes. cbn. lia.
Qed.

(** The stream of a delta. *)
Definition delta_of (base_len current_len : Z) (recs : list (Z * list Z)) : list Z :=
  MAGIC ++ le_bytes 8 base_len ++ le_bytes 8 current_len ++ encode_records recs.

Lemma apply_delta_of recs current_len target :
  0 <= current_len < 2 ^ 64 -> file_len target < 2 ^ 64 -> valid_records 0 current_len recs ->
  apply_disk_delta (delta_of (file_len target) current_len recs) target = (Ok tt, patch recs (set_len current_len target)).
Proof.
  intros Hc Ht Hv. assert (0 <= file_len target) by (unfold file_len; lia). unfold apply_disk_delta, read_header, delta_of.
  rewrite read_exact_prefix by done. cbn [result_bind]. rewrite bool_decide_eq_true_2 by done.
  rewrite !read_exact_prefix by apply length_le_bytes. cbn [result_bind]. rewrite read_exact_prefix by apply length_le_bytes.
  cbn [result_bind]. rewrite !of_le_bytes_le_bytes by (cbn; lia). rewrite Z.eqb_refl. cbn [negb].
  apply apply_encoded; [lia|done|lia|]. pose proof (length_encode recs). lia.
Qed.

Lemma length_resized n img : 0 <= n -> file_len (set_len n img) = n.
Proof. intros Hn. unfold file_len, set_len. rewrite length_app, length_take, length_replicate. lia. Qed.

(** A position of a patched image: from the records where they cover it. *)
Lemma patch_lookup current recs next img i :
  0 <= next -> valid_records next (file_len current) recs -> length img = length current -> from_image current recs ->
  (recorded (Z.of_nat i) recs -> patch recs img !! i = current !! i) /\
  (img !! i = current !! i -> patch recs img !! i = current !! i).
Proof.
  revert next img. induction recs as [|[o d] recs IH]; intros next img Hn Hv Hlen Hd.
  - split; [by intros Hx%Exists_nil|done].
  - destruct Hv as (Ho & Hl & Hv). apply Forall_cons in Hd as [Hd Hds]. cbn [fst snd] in Hd.
    pose proof (valid_le _ _ _ Hv) as Hle.
    assert (Hfit : o + file_len d <= file_len img) by (unfold file_len in *; lia).
    assert (Hw : forall i, write_at o d img !! i = if decide (in_run (Z.of_nat i) (o, file_len d)) then current !! i else img !! i).
    { intros j. rewrite write_at_fits by (done || lia). unfold in_run. cbn [fst snd].
      assert (Hlt : length (take (Z.to_nat o) img) = Z.to_nat o) by (rewrite length_take; unfold file_len in *; lia).
      case_decide as Hin.
      - rewrite lookup_app_r, lookup_app_l by (unfold file_len in *; lia). rewrite Hlt, Hd. unfold slice.
        rewrite lookup_take_lt, lookup_drop by (unfold file_len in *; lia). f_equal. lia.
      - destruct (decide (Z.of_nat j < o)).
        + by rewrite lookup_app_l, lookup_take_lt by lia.
        + rewrite !lookup_app_r by (unfold file_len in *; lia). rewrite lookup_drop. f_equal. unfold file_len in *. lia. }
    destruct (IH (o + file_len d) (write_at o d img)) as [IH1 IH2]; [lia|done|by rewrite length_write_at by lia|done|].
    split; cbn [patch foldl fst snd].
    + intros [Hin|Hin]%Exists_cons; [|by apply IH1]. apply IH2. rewrite Hw. by rewrite decide_True.
    + intros Hi. apply IH2. rewrite Hw. by case_decide.
Qed.

Lemma length_patch recs next lim img :
  0 <= next -> valid_records next lim recs -> file_len img = lim -> length (patch recs img) = length img.
Proof.
  revert next img. induction recs as [|[o d] recs IH]; intros next img Hn Hv Hl; [done|].
  destruct Hv as (Ho & Hd & Hv). pose proof (valid_le _ _ _ Hv). cbn [patch foldl fst snd].
  assert (Hw : length (write_at o d img) = length img) by (apply length_write_at; lia).
  unfold patch in IH. rewrite (IH (o + file_len d)); [done|lia|done|]. unfold file_len in *. by rewrite Hw.
Qed.

(** ** The producer against the consumer *)

Lemma block_at s e p : s <= p < e -> exists b, b ∈ blocks s e /\ in_run p b.
Proof.
  intros Hp. constants. set (k := (p - s) / BLOCK_LEN).
  assert (Hk : 0 <= k /\ k * BLOCK_LEN <= p - s < (k + 1) * BLOCK_LEN)
    by (pose proof (Z.div_mod (p - s) BLOCK_LEN); pose proof (Z.mod_pos_bound (p - s) BLOCK_LEN);
        pose proof (Z.div_pos (p - s) BLOCK_LEN); unfold k; nia).
  exists (s + k * BLOCK_LEN, Z.min e (s + k * BLOCK_LEN + BLOCK_LEN) - (s + k * BLOCK_LEN)). split.
  - unfold blocks. apply list_elem_of_fmap. exists (Z.to_nat k). rewrite Z2Nat.id by lia. split; [done|].
    apply elem_of_seq. destruct (div_ceil_bounds (e - s) BLOCK_LEN) as [[Hn Hd]|]; [lia|done| |lia].
    assert (k < div_ceil (e - s) BLOCK_LEN) by nia. lia.
  - unfold in_run. cbn. lia.
Qed.

Lemma same_slice base current o l i :
  slice current o l = slice base o l -> in_run (Z.of_nat i) (o, l) -> 0 <= o -> current !! i = base !! i.
Proof.
  unfold slice, in_run. cbn. intros Hs Hi Ho.
  assert (Hl : take (Z.to_nat l) (drop (Z.to_nat o) current) !! (i - Z.to_nat o)%nat =
    take (Z.to_nat l) (drop (Z.to_nat o) base) !! (i - Z.to_nat o)%nat) by (by rewrite Hs).
  rewrite !lookup_take_lt, !lookup_drop in Hl by lia. by replace (Z.to_nat o + (i - Z.to_nat o))%nat with i in Hl by lia.
Qed.

Lemma compare_end_bounds bl cl : 0 <= bl -> 0 <= cl -> 0 <= compare_end bl cl <= Z.min bl cl.
Proof.
  intros Hb Hc. constants. unfold compare_end. case_match; bool_to_prop; [lia|].
  pose proof (Z.mod_pos_bound bl BLOCK_LEN). pose proof (Z.mod_le bl BLOCK_LEN). lia.
Qed.

(** The chunks a caller or [compare_chunk_len] chooses: whole blocks. *)
Definition whole_chunks (cpus : Z) (chunk : option Z) : Prop :=
  match chunk with Some c => exists k, 0 < k /\ c = k * BLOCK_LEN | None => 1 <= cpus end.

Lemma chosen_chunk cpus chunk e :
  0 <= e -> whole_chunks cpus chunk -> exists k, 0 < k /\ default (compare_chunk_len cpus e) chunk = k * BLOCK_LEN.
Proof.
  intros He. destruct chunk as [c|]; [done|]. cbn. intros Hc. constants. unfold compare_chunk_len.
  set (w := Z.min cpus MAX_COMPARE_WORKERS). set (n := div_ceil (div_ceil e w) BLOCK_LEN).
  assert (Hmin : MIN_COMPARE_CHUNK_LEN = 1024 * BLOCK_LEN) by done.
  exists (Z.max n 1024). split; [lia|]. rewrite Hmin. nia.
Qed.

Definition sequential_runs (base current : list Z) : list (Z * Z) :=
  let end_ := compare_end (file_len base) (file_len current) in
  let runs := foldl push_run [] (changed_blocks base current 0 end_) in
  if end_ <? file_len current then push_run runs (end_, file_len current - end_) else runs.

(** The delta is the one of a single pass over the blocks. *)
Lemma write_sequential cpus base current chunk :
  whole_chunks cpus chunk ->
  write_disk_delta_chunked cpus base current chunk =
  emit_runs current (sequential_runs base current)
    (MAGIC ++ le_bytes 8 (file_len base) ++ le_bytes 8 (file_len current)) 0.
Proof.
  intros Hw. unfold write_disk_delta_chunked, sequential_runs. cbn zeta.
  pose proof (compare_end_bounds (file_len base) (file_len current) ltac:(unfold file_len; lia) ltac:(unfold file_len; lia)) as He.
  destruct (chosen_chunk cpus chunk (compare_end (file_len base) (file_len current)) (proj1 He) Hw) as (k & Hk & ->).
  rewrite compare_chunks_spec by lia. done.
Qed.

Lemma sequential_runs_spec base current :
  let end_ := compare_end (file_len base) (file_len current) in
  ascending 0 (file_len current) (sequential_runs base current) /\
  forall i, (i < length current)%nat ->
    Exists (in_run (Z.of_nat i)) (sequential_runs base current) \/ Z.of_nat i < end_ /\ base !! i = current !! i.
Proof.
  intros end_. unfold sequential_runs. cbn zeta. fold end_.
  pose proof (compare_end_bounds (file_len base) (file_len current) ltac:(unfold file_len; lia) ltac:(unfold file_len; lia)) as He.
  fold end_ in He. set (runs := foldl push_run [] _).
  assert (Ha : ascending 0 end_ runs) by (apply coalesced_ascending, changed_ascending; lia).
  assert (Hpos : Forall run_pos runs) by (apply coalesced_pos; [constructor|apply changed_pos]).
  assert (Hcov : forall i, Z.of_nat i < end_ -> Exists (in_run (Z.of_nat i)) runs \/ base !! i = current !! i).
  { intros i Hi. destruct (block_at 0 end_ (Z.of_nat i)) as ([o l] & Hb & Hin); [lia|].
    destruct (decide (slice current o l = slice base o l)) as [Heq|Hne].
    - right. symmetry. eapply same_slice; [done..|]. apply elem_of_blocks in Hb. lia.
    - left. apply coalesced_covers; [apply changed_pos|]. apply Exists_exists. exists (o, l). split; [|done].
      by apply list_elem_of_filter. }
  destruct (end_ <? file_len current) eqn:Htail; bool_to_prop.
  - split; [eapply push_run_ascending; [done|lia..]|]. intros i Hi.
    assert (Hr : run_pos (end_, file_len current - end_)) by (unfold run_pos; cbn; lia).
    destruct (decide (Z.of_nat i < end_)) as [Hlt|Hge].
    + destruct (Hcov i Hlt); [left|by right]. apply push_run_covers; auto.
    + left. apply push_run_covers; [done..|right]. unfold in_run, file_len in *. cbn. lia.
  - split; [eapply ascending_mono; [done|lia]|]. intros i Hi. unfold file_len in *.
    destruct (Hcov i) as [|]; [lia|by left|right; split; [lia|done]].
Qed.

Lemma set_len_lookup n img i : (i < length img)%nat -> Z.of_nat i < n -> set_len n img !! i = img !! i.
Proof. intros Hi Hn. unfold set_len. rewrite lookup_app_l by (rewrite length_take; lia). apply lookup_take_lt. lia. Qed.

(** C26: A disk delta rebuilds the image.  For any two images, grown, shrunk or equal in size,
    and however the comparison is divided into chunks, writing the delta succeeds and applying
    it to a copy of the base gives exactly the current image. *)
Theorem disk_delta_round_trip cpus base current chunk :
  file_len base < 2 ^ 64 -> file_len current < 2 ^ 64 -> whole_chunks cpus chunk ->
  exists delta total, write_disk_delta_chunked cpus base current chunk = Ok (delta, total) /\
    apply_disk_delta delta base = (Ok tt, current).
Proof.
  intros Hb Hc Hw. rewrite write_sequential by done.
  destruct (sequential_runs_spec base current) as [Ha Hcov].
  pose proof (compare_end_bounds (file_len base) (file_len current) ltac:(unfold file_len; lia) ltac:(unfold file_len; lia)) as He.
  destruct (emit_runs_spec current (sequential_runs base current) 0 (file_len current)
    (MAGIC ++ le_bytes 8 (file_len base) ++ le_bytes 8 (file_len current)) 0) as (recs & n & -> & Hv & Hd & Hr); [lia|done|lia|].
  eexists _, _. split; [done|]. rewrite <- !app_assoc. fold (delta_of (file_len base) (file_len current) recs).
  assert (Hc0 : 0 <= file_len current) by (unfold file_len; lia).
  rewrite apply_delta_of by (done || lia). f_equal.
  pose proof (length_resized (file_len current) base Hc0) as Hl.
  assert (Hlen : length (set_len (file_len current) base) = length current) by (unfold file_len in *; lia).
  assert (Hpl : length (patch recs (set_len (file_len current) base)) = length current)
    by (erewrite length_patch; [done|..]; [|done|done]; lia).
  apply list_eq_same_length with (n := length current); [done..|]. intros i x y Hi Hx Hy.
  destruct (patch_lookup current recs 0 (set_len (file_len current) base) i) as [Hp1 Hp2]; [lia|done..|].
  enough (patch recs (set_len (file_len current) base) !! i = current !! i) by congruence.
  destruct (Hcov i Hi) as [Hx'|[Hlt Heq]]; [by apply Hp1, Hr|]. apply Hp2. rewrite set_len_lookup; [done|unfold file_len in *; lia..].
Qed.

(** Dividing the work does not change the result.  For every number of processors and every
    chunk length of whole blocks, the delta is byte for byte the one of a single sequential
    pass. *)
Theorem delta_chunks_invisible cpus cpus' base current chunk chunk' :
  whole_chunks cpus chunk -> whole_chunks cpus' chunk' ->
  write_disk_delta_chunked cpus base current chunk = write_disk_delta_chunked cpus' base current chunk'.
Proof. intros. by rewrite !write_sequential. Qed.

(** ** What the consumer accepts *)

Lemma read_exact_Ok n e rest a rest' : read_exact n e rest = Ok (a, rest') -> length a = n /\ rest = a ++ rest'.
Proof.
  unfold read_exact. case_match eqn:Hn; [|done]. apply Nat.leb_le in Hn. intros [= <- <-].
  split; [rewrite length_take; lia|by rewrite take_drop].
Qed.

Lemma decoded a n : length a = n -> bytes_ok a -> le_bytes n (of_le_bytes a) = a.
Proof. intros <-. apply le_bytes_of_le_bytes. Qed.

Lemma apply_records_Ok fuel rest lim next img img' :
  bytes_ok rest -> 0 <= next <= lim -> apply_records fuel rest lim next img = (Ok tt, img') ->
  exists recs, rest = encode_records recs /\ valid_records next lim recs /\ img' = patch recs img.
Proof.
  revert rest next img. induction fuel as [|fuel IH]; intros rest next img Hby Hn; cbn [apply_records]; [done|].
  destruct (decide (length rest = 0%nat)) as [Hz|Hnz].
  - apply nil_length_inv in Hz as ->. intros [= <-]. exists []. split_and!; [done|cbn; lia|done].
  - rewrite (proj2 (Nat.eqb_neq _ _)) by lia. case_match eqn:H8; [done|]. apply Nat.ltb_ge in H8.
    destruct (read_exact 4 _ _) as [[lb rest1]|] eqn:Hlb; [|done]. apply read_exact_Ok in Hlb as [Hl4 Hd8].
    set (o := of_le_bytes (take 8 rest)). set (len := of_le_bytes lb).
    destruct (len =? 0) eqn:Hl0; [done|]. destruct (MAX_RECORD_LEN <? len) eqn:Hcap; [done|].
    destruct (o <? next) eqn:Hov; [done|]. destruct (checked_add 64 o len) as [end_|] eqn:Hadd; [|done].
    destruct (end_ <=? lim) eqn:Hend; [|done]. apply checked_add_Some in Hadd as [-> _]. bool_to_prop.
    destruct (read_exact (Z.to_nat len) _ rest1) as [[d rest2]|] eqn:Hdata; [|done].
    apply read_exact_Ok in Hdata as [Hld ->]. intros Hap.
    rewrite <- (take_drop 8 rest), Hd8 in Hby. apply Forall_app in Hby as [Hb8 Hby]. apply Forall_app in Hby as [Hb4 Hby].
    apply Forall_app in Hby as [_ Hb2].
    assert (Hlen : file_len d = len) by (pose proof (of_le_bytes_bound lb Hb4); unfold file_len, len in *; lia).
    assert (Ho : 0 <= o) by (apply of_le_bytes_bound; done).
    assert (Hl : 0 <= len) by (apply of_le_bytes_bound; done).
    destruct (IH rest2 (o + len) _ Hb2 ltac:(lia) Hap) as (recs & -> & Hv & ->).
    exists ((o, d) :: recs). split_and!; [|cbn; rewrite Hlen; split_and!; (done || lia)|done].
    change (encode_records ((o, d) :: recs)) with (encode_record (o, d) ++ encode_records recs).
    unfold encode_record. cbn [fst snd]. rewrite Hlen. unfold o, len.
    rewrite !decoded by (done || rewrite length_take; lia). rewrite <- !app_assoc. rewrite <- Hd8. by rewrite take_drop.
Qed.

Lemma apply_records_fuel fuel rest lim next img :
  (length rest < fuel)%nat -> fst (apply_records fuel rest lim next img) <> Err OutOfFuel.
Proof.
  revert rest next img. induction fuel as [|fuel IH]; intros rest next img Hf; [lia|]. cbn [apply_records].
  repeat (case_match; try done). all: repeat match goal with Hx : read_exact _ _ _ = Ok _ |- _ => apply read_exact_Ok in Hx as [? ?] end.
  all: try (match goal with Hx : read_exact _ _ _ = Err _ |- _ => unfold read_exact in Hx; case_match; simplify_eq; done end).
  apply IH. subst. match goal with Hx : drop 8 rest = _ |- _ => apply (f_equal length) in Hx end.
  rewrite length_drop, !length_app in *. lia.
Qed.

(** C36: The consumer accepts exactly the well-formed deltas of its target.  It always returns,
    and returns success precisely when the file is the magic, the length of the target, a new
    length and records in ascending order that do not overlap, are not empty, not over the cap
    and within the new length; then the target is resized and patched with exactly these
    records. *)
Theorem apply_accepts_exactly delta target target' :
  bytes_ok delta -> file_len target < 2 ^ 64 ->
  fst (apply_disk_delta delta target) <> Err OutOfFuel /\
  (apply_disk_delta delta target = (Ok tt, target') <->
   exists current_len recs, 0 <= current_len < 2 ^ 64 /\ delta = delta_of (file_len target) current_len recs /\
     valid_records 0 current_len recs /\ target' = patch recs (set_len current_len target)).
Proof.
  intros Hby Ht. split.
  - unfold apply_disk_delta. destruct (read_header delta) as [[[bl cl] rest]|e] eqn:Hh.
    + case_match; [done|]. apply apply_records_fuel. lia.
    + unfold read_header, read_exact in Hh. repeat (case_match; simplify_eq/=; try done).
  - split; [|intros (cl & recs & Hcl & -> & Hv & ->); by apply apply_delta_of].
    unfold apply_disk_delta. destruct (read_header delta) as [[[bl cl] rest]|e] eqn:Hh; [|done]. intros Hap.
    unfold read_header in Hh.
    apply result_bind_Ok in Hh as ([magic r0] & [Hm ->]%read_exact_Ok & Hh). case_bool_decide as Hmagic; [|done].
    apply result_bind_Ok in Hh as ([b8 r1] & [Hb8 ->]%read_exact_Ok & Hh).
    apply result_bind_Ok in Hh as ([c8 r2] & [Hc8 ->]%read_exact_Ok & Hh). injection Hh as <- <- <-. subst magic.
    apply Forall_app in Hby as [_ Hby]. apply Forall_app in Hby as [Hbb Hby]. apply Forall_app in Hby as [Hbc Hbr].
    destruct (file_len target =? of_le_bytes b8) eqn:Hlen; cbn [negb] in Hap; [|done]. apply Z.eqb_eq in Hlen.
    pose proof (of_le_bytes_bound c8 Hbc) as Hcb. rewrite Hc8 in Hcb.
    apply apply_records_Ok in Hap as (recs & -> & Hv & ->); [|done|lia].
    exists (of_le_bytes c8), recs. split_and!; [lia|cbn in Hcb; lia| |done..].
    unfold delta_of. by rewrite Hlen, !decoded.
Qed.

(** ** Witnesses *)

Module DiskDeltaExamples.
Lemma disk_delta_round_trip_witness :
  exists delta total, write_disk_delta_chunked 4 [1; 2; 3] [1; 2; 9; 4] None = Ok (delta, total) /\
    apply_disk_delta delta [1; 2; 3] = (Ok tt, [1; 2; 9; 4]).
Proof. apply disk_delta_round_trip; [reflexivity|reflexivity|cbn; lia]. Defined.

Definition small_delta : list Z := delta_of 3 4 [(2, [9; 4])].

Lemma apply_accepts_exactly_witness :
  fst (apply_disk_delta small_delta [1; 2; 3]) <> Err OutOfFuel /\
  (apply_disk_delta small_delta [1; 2; 3] = (Ok tt, [1; 2; 9; 4]) <->
   exists current_len recs, 0 <= current_len < 2 ^ 64 /\ small_delta = delta_of 3 current_len recs /\
     valid_records 0 current_len recs /\ [1; 2; 9; 4] = patch recs (set_len current_len [1; 2; 3])).
Proof.
  apply (apply_accepts_exactly small_delta [1; 2; 3]); [|reflexivity].
  apply (bool_decide_unpack _). vm_compute. exact I.
Defined.
End DiskDeltaExamples.
