(* ===== verification/WarmPool.v ===== *)
(** Warm pools: [vmond/src/pools.rs].  A pool parks restored clones for later claims; a refiller
    thread launches them.  Claims, resizes, the refiller and shutdowns run in parallel, so each
    is a sequence of atomic steps between which the others may act: what is done under the lock
    of [ready], by one access to an atomic or by one call of the runtime.  How the calls of the
    runtime end is an argument of the step.  The lists [launched], [claimed], [torn] and
    [leaked] record what became of the clones. *)

From S2P Require Import Prelude Decimal.
From stdpp Require Import gmultiset.

#[local] Open Scope Z_scope.

Definition MAX_REFILL_BATCH : nat := 32.

(** ** Names and keys *)

Definition flag_digit (b : bool) : list Z := if b then [49] else [48].

Definition template_key (reference : list Z) (disk_mb memory cpus fs_slots : Z)
    (host_slot nic_slot tap_slot : bool) : list Z :=
  reference ++ bs "|d" ++ decimal disk_mb ++ bs "|m" ++ decimal memory ++ bs "|c" ++ decimal cpus ++
  bs "|s" ++ decimal fs_slots ++ bs "|h" ++ flag_digit host_slot ++ bs "|n" ++ flag_digit nic_slot ++
  bs "|t" ++ flag_digit tap_slot.

(** [{n:08x}]. *)
Fixpoint hex_digits (fuel : nat) (n : Z) (rest : list Z) : list Z :=
  match fuel with
  | O => rest
  | S fuel => if n <? 16 then hex_digit n :: rest else hex_digits fuel (n / 16) (hex_digit (n mod 16) :: rest)
  end.
Definition hex08 (n : Z) : list Z :=
  let s := hex_digits 16 n [] in replicate (8 - length s) 48 ++ s.

Definition is_ascii_alphanumeric (c : Z) : bool :=
  ((48 <=? c) && (c <=? 57)) || ((65 <=? c) && (c <=? 90)) || ((97 <=? c) && (c <=? 122)).

(** [file_name]: the last component of the template's path, if it is UTF-8. *)
Definition pooled_name (file_name : option (list Z)) (seq nanos : Z) : list Z :=
  let stem := take 32 ((fun c => if is_ascii_alphanumeric c then c else 45) <$> default (bs "template") file_name) in
  bs "_pool-" ++ stem ++ bs "-" ++ hex08 seq ++ hex08 (Z.land nanos (2 ^ 32 - 1)).

(** ** The pool *)

Record PooledVm : Type := mkPooled { vm : nat; paused : bool }.

(** [Counted n]: the refiller has read the number of ready clones.  [Spawning todo spawned]: a
    batch is being launched.  [Discarding]: what did not fit is torn down. *)
Inductive Refiller : Type :=
  | Polling | Counted (n : nat) | Spawning (todo : nat) (spawned : list PooledVm)
  | Discarding (overflow : list PooledVm) | Exited.

(** [claiming]: clones that callers have popped, with the state they want.  [trims]: resizes
    that have stored their size and not yet trimmed.  [closing]: clones a shutdown has drained.
    [closed]: the shutdown that joined the refiller has drained. *)
Record Pool : Type := mkPool {
  pauses : bool; size : nat; ready : list PooledVm; stop : bool; hits : nat; misses : nat;
  refiller : Refiller; claiming : list (PooledVm * bool); trims : list nat; closing : list PooledVm;
  closed : bool; next_id : nat;
  launched : list nat; claimed : list nat; torn : list nat; leaked : list nat }.

Definition new_pool (pauses : bool) (size : nat) : Pool :=
  mkPool pauses size [] false 0 0 Polling [] [] [] false 0 [] [] [] [].

Record PoolStats : Type := mkPoolStats { ps_ready : nat; ps_hits : nat; ps_misses : nat; ps_size : nat }.
Definition stats (p : Pool) : PoolStats := mkPoolStats (length (ready p)) (hits p) (misses p) (size p).

(** [pop_front] of a claim. *)
Definition claim_pop (want_paused : bool) (p : Pool) : Pool :=
  match ready p with
  | [] => mkPool (pauses p) (size p) [] (stop p) (hits p) (S (misses p)) (refiller p) (claiming p) (trims p)
            (closing p) (closed p) (next_id p) (launched p) (claimed p) (torn p) (leaked p)
  | m :: rest => mkPool (pauses p) (size p) rest (stop p) (hits p) (misses p) (refiller p) (claiming p ++ [(m, want_paused)])
            (trims p) (closing p) (closed p) (next_id p) (launched p) (claimed p) (torn p) (leaked p)
  end.

(** The rest of the body of the loop for the [i]-th popped clone: it is handed out, or torn down
    and the caller gets an error or tries again. *)
Definition claim_end (i : nat) (rename_ok transition_ok : bool) (p : Pool) : Pool :=
  match claiming p !! i with
  | None => p
  | Some (m, want_paused) =>
      let transition := if Bool.eqb (paused m) want_paused then true else transition_ok in
      let rest := delete i (claiming p) in
      if rename_ok && transition then
        mkPool (pauses p) (size p) (ready p) (stop p) (S (hits p)) (misses p) (refiller p) rest (trims p) (closing p)
          (closed p) (next_id p) (launched p) (vm m :: claimed p) (torn p) (leaked p)
      else
        mkPool (pauses p) (size p) (ready p) (stop p) (hits p) (misses p) (refiller p) rest (trims p) (closing p)
          (closed p) (next_id p) (launched p) (claimed p) (vm m :: torn p) (leaked p)
  end.

Definition resize_store (n : nat) (p : Pool) : Pool :=
  mkPool (pauses p) n (ready p) (stop p) (hits p) (misses p) (refiller p) (claiming p) (trims p ++ [n]) (closing p)
    (closed p) (next_id p) (launched p) (claimed p) (torn p) (leaked p).

(** The loop that pops from the back, under the lock. *)
Definition resize_trim (i : nat) (p : Pool) : Pool :=
  match trims p !! i with
  | None => p
  | Some n =>
      mkPool (pauses p) (size p) (take n (ready p)) (stop p) (hits p) (misses p) (refiller p) (claiming p)
        (delete i (trims p)) (closing p) (closed p) (next_id p) (launched p) (claimed p)
        ((vm <$> rev (drop n (ready p))) ++ torn p) (leaked p)
  end.

Definition set_refiller (r : Refiller) (p : Pool) : Pool :=
  mkPool (pauses p) (size p) (ready p) (stop p) (hits p) (misses p) r (claiming p) (trims p) (closing p)
    (closed p) (next_id p) (launched p) (claimed p) (torn p) (leaked p).

(** [while !stop { let ready = ...; let target = ...; if ready < target { refill_batch } }]. *)
Definition refill_poll (p : Pool) : Pool :=
  match refiller p with
  | Polling => set_refiller (if stop p then Exited else Counted (length (ready p))) p
  | Counted n =>
      set_refiller (if (n <? size p)%nat then Spawning (Nat.min (size p - n) MAX_REFILL_BATCH) [] else Polling) p
  | _ => p
  end.

(** How the launch of a clone ends: the process does not start, the agent's socket is not known,
    the agent does not answer, the thread panics, or the clone runs and can be paused or not. *)
Inductive SpawnOutcome : Type :=
  LaunchFailed | NoAgentSock | NotReady | Panicked | Spawned (pause_ok : bool).

(** [spawn_one] by the next thread of a batch. *)
Definition spawn_one (o : SpawnOutcome) (p : Pool) : Pool :=
  match refiller p with
  | Spawning (S todo) spawned =>
      let id := next_id p in
      let go r launched torn leaked :=
        mkPool (pauses p) (size p) (ready p) (stop p) (hits p) (misses p) r (claiming p) (trims p) (closing p)
          (closed p) (S id) launched (claimed p) torn leaked in
      match o with
      | LaunchFailed => go (Spawning todo spawned) (launched p) (torn p) (leaked p)
      | NoAgentSock | Panicked => go (Spawning todo spawned) (id :: launched p) (torn p) (id :: leaked p)
      | NotReady => go (Spawning todo spawned) (id :: launched p) (id :: torn p) (leaked p)
      | Spawned pause_ok =>
          go (Spawning todo (spawned ++ [mkPooled id (pauses p && pause_ok)])) (id :: launched p) (torn p) (leaked p)
      end
  | _ => p
  end.

(** [stop] is read for each clone: [signal] is the number of clones after which a shutdown sets
    it, if one does so meanwhile. *)
Fixpoint publish (stop : bool) (signal : option nat) (target : nat) (spawned ready overflow : list PooledVm)
  : list PooledVm * list PooledVm :=
  match spawned with
  | [] => (ready, overflow)
  | m :: spawned =>
      let stop := stop || bool_decide (signal = Some 0%nat) in
      if stop || (target <=? length ready)%nat
      then publish stop (pred <$> signal) target spawned ready (overflow ++ [m])
      else publish stop (pred <$> signal) target spawned (ready ++ [m]) overflow
  end.

(** The end of [refill_batch]: publish under the lock, then tear down the overflow. *)
Definition refill_publish (signal : option nat) (p : Pool) : Pool :=
  match refiller p with
  | Spawning O spawned =>
      let '(ready', overflow) := publish (stop p) signal (size p) spawned (ready p) [] in
      mkPool (pauses p) (size p) ready' (stop p || bool_decide (is_Some signal)) (hits p) (misses p) (Discarding overflow) (claiming p) (trims p)
        (closing p) (closed p) (next_id p) (launched p) (claimed p) (torn p) (leaked p)
  | Discarding [] => set_refiller Polling p
  | Discarding (m :: overflow) =>
      mkPool (pauses p) (size p) (ready p) (stop p) (hits p) (misses p) (Discarding overflow) (claiming p) (trims p)
        (closing p) (closed p) (next_id p) (launched p) (claimed p) (vm m :: torn p) (leaked p)
  | _ => p
  end.

(** [shutdown], and [drop]: the flag is set first. *)
Definition shutdown_signal (p : Pool) : Pool :=
  mkPool (pauses p) (size p) (ready p) true (hits p) (misses p) (refiller p) (claiming p) (trims p) (closing p)
    (closed p) (next_id p) (launched p) (claimed p) (torn p) (leaked p).

(** The caller that took the handle waits for the thread; any other drains at once. *)
Definition shutdown_drain (joins : bool) (p : Pool) : Pool :=
  let waiting := match refiller p with Exited => false | _ => true end in
  if negb (stop p) || (joins && waiting) then p
  else
    mkPool (pauses p) (size p) [] (stop p) (hits p) (misses p) (refiller p) (claiming p) (trims p)
      (closing p ++ ready p) (closed p || joins) (next_id p) (launched p) (claimed p) (torn p) (leaked p).

Definition shutdown_teardown (p : Pool) : Pool :=
  match closing p with
  | [] => p
  | m :: rest =>
      mkPool (pauses p) (size p) (ready p) (stop p) (hits p) (misses p) (refiller p) (claiming p) (trims p) rest
        (closed p) (next_id p) (launched p) (claimed p) (vm m :: torn p) (leaked p)
  end.

(** ** The registry of pools *)

Abbreviation PoolRegistry := (gmap string Pool).
Definition get_pool (reference : string) (r : PoolRegistry) : option Pool := r !! reference.
Definition set_pool (reference : string) (p : Pool) (r : PoolRegistry) : option Pool * PoolRegistry :=
  (r !! reference, <[reference := p]> r).
Definition delete_pool (reference : string) (r : PoolRegistry) : option Pool * PoolRegistry :=
  (r !! reference, delete reference r).
Definition list_pools (r : PoolRegistry) : gmap string PoolStats := stats <$> r.
Definition total_hits_misses (r : PoolRegistry) : nat * nat :=
  map_fold (fun _ p acc => (fst acc + hits p, snd acc + misses p)%nat) (0%nat, 0%nat) r.

(** ** Runs *)

Inductive pool_step : Pool -> Pool -> Prop :=
  | step_claim want p : pool_step p (claim_pop want p)
  | step_claim_end i rename_ok transition_ok p : pool_step p (claim_end i rename_ok transition_ok p)
  | step_resize n p : pool_step p (resize_store n p)
  | step_trim i p : pool_step p (resize_trim i p)
  | step_poll p : pool_step p (refill_poll p)
  | step_spawn o p : pool_step p (spawn_one o p)
  | step_publish signal p : pool_step p (refill_publish signal p)
  | step_signal p : pool_step p (shutdown_signal p)
  | step_drain joins p : pool_step p (shutdown_drain joins p)
  | step_teardown p : pool_step p (shutdown_teardown p).

(** ** Where the clones are *)

Definition inflight (r : Refiller) : list PooledVm :=
  match r with Spawning _ l => l | Discarding l => l | _ => [] end.

(** Clones that are neither handed out nor gone. *)
Definition held (p : Pool) : list nat :=
  vm <$> ready p ++ (fst <$> claiming p) ++ inflight (refiller p) ++ closing p.
Definition whereabouts (p : Pool) : list nat := held p ++ claimed p ++ torn p ++ leaked p.

Abbreviation mset l := (list_to_set_disj l : gmultiset nat).

Ltac msolve :=
  rewrite ?fmap_app, ?fmap_cons, ?fmap_nil, ?list_to_set_disj_app, ?list_to_set_disj_cons, ?list_to_set_disj_nil;
  cbn [fst snd vm]; multiset_solver.

Record pool_ok (p : Pool) : Prop := {
  po_where : mset (launched p) = mset (whereabouts p);
  po_new : forall v, v ∈ launched p -> (v < next_id p)%nat;
  po_once : NoDup (launched p);
  po_hits : hits p = length (claimed p);
  po_capacity : (length (ready p) <= size p)%nat \/ size p ∈ trims p;
  po_closed : closed p = true -> ready p = [] /\ refiller p = Exited /\ stop p = true }.

Lemma whereabouts_parts p :
  mset (whereabouts p) =
  mset (vm <$> ready p) ⊎ mset (vm <$> (fst <$> claiming p)) ⊎ mset (vm <$> inflight (refiller p)) ⊎
  mset (vm <$> closing p) ⊎ mset (claimed p) ⊎ mset (torn p) ⊎ mset (leaked p).
Proof. unfold whereabouts, held. rewrite !fmap_app, !list_to_set_disj_app. multiset_solver. Qed.

(** A step that moves clones about without a launch. *)
Lemma pool_ok_move p p' :
  pool_ok p -> launched p' = launched p -> (next_id p <= next_id p')%nat -> mset (whereabouts p') = mset (whereabouts p) ->
  hits p' = length (claimed p') -> ((length (ready p') <= size p')%nat \/ size p' ∈ trims p') ->
  (closed p' = true -> ready p' = [] /\ refiller p' = Exited /\ stop p' = true) -> pool_ok p'.
Proof.
  intros [Hw Hn Ho _ _ _] Hl Hid Hm Hh Hc Hcl. split; rewrite ?Hl; try done; [by rewrite Hm|].
  intros v Hv. specialize (Hn v Hv). lia.
Qed.

Lemma mset_delete_at (l : list (PooledVm * bool)) i m w :
  l !! i = Some (m, w) -> mset (vm <$> (fst <$> l)) = {[+ vm m +]} ⊎ mset (vm <$> (fst <$> delete i l)).
Proof.
  intros Hi. apply delete_Permutation in Hi.
  apply (fmap_Permutation fst), (fmap_Permutation vm), list_to_set_disj_perm in Hi. rewrite Hi. done.
Qed.

Lemma publish_mset stop signal target spawned rd ov :
  mset (vm <$> fst (publish stop signal target spawned rd ov)) ⊎ mset (vm <$> snd (publish stop signal target spawned rd ov)) =
  mset (vm <$> spawned) ⊎ mset (vm <$> rd) ⊎ mset (vm <$> ov).
Proof.
  revert stop signal rd ov. induction spawned as [|m l IH]; intros stop signal rd ov; cbn [publish]; [cbn [fst snd]; msolve|].
  case_match; rewrite IH; msolve.
Qed.

Lemma publish_room stop signal target spawned rd ov :
  (length rd <= target)%nat -> (length (fst (publish stop signal target spawned rd ov)) <= target)%nat.
Proof.
  revert stop signal rd ov. induction spawned as [|m l IH]; intros stop signal rd ov Hr; cbn [publish]; [done|]. case_match eqn:Hc; [by apply IH|].
  apply IH. apply orb_false_iff in Hc as [_ Hc]. apply Nat.leb_gt in Hc. rewrite length_app. cbn. lia.
Qed.

Lemma publish_full stop signal target spawned rd ov :
  (target <= length rd)%nat -> fst (publish stop signal target spawned rd ov) = rd.
Proof.
  revert stop signal ov. induction spawned as [|m l IH]; intros stop signal ov Hr; cbn [publish]; [done|].
  rewrite (proj2 (Nat.leb_le _ _)) by done. rewrite orb_true_r. by apply IH.
Qed.

(** Opens a step: the parts of the whereabouts before and after. *)
Ltac by_parts := rewrite !whereabouts_parts; cbn [ready claiming refiller closing claimed torn leaked inflight].

Lemma claim_pop_ok want p : pool_ok p -> pool_ok (claim_pop want p).
Proof.
  intros Hp. unfold claim_pop. destruct (ready p) as [|m rest] eqn:Hr; eapply pool_ok_move; try exact Hp;
    cbn [launched next_id hits claimed ready size trims closed refiller stop]; try done; try apply Hp.
  - by_parts. by rewrite Hr.
  - left. cbn. lia.
  - intros Hc. destruct (po_closed _ Hp Hc) as (_ & ? & ?). done.
  - by_parts. rewrite Hr. msolve.
  - destruct (po_capacity _ Hp) as [Hc|Hc]; [left; rewrite Hr in Hc; cbn in Hc; lia|by right].
  - intros Hc. destruct (po_closed _ Hp Hc) as (Hx & ? & ?). congruence.
Qed.

Lemma claim_end_ok i a b p : pool_ok p -> pool_ok (claim_end i a b p).
Proof.
  intros Hp. unfold claim_end. destruct (claiming p !! i) as [[m w]|] eqn:Hi; [|done].
  pose proof (mset_delete_at _ _ _ _ Hi) as Hm.
  destruct (a && _); eapply pool_ok_move; try exact Hp;
    cbn [launched next_id hits claimed ready size trims closed refiller stop]; try done; try apply Hp.
  - by_parts. rewrite Hm. msolve.
  - cbn. by rewrite (po_hits _ Hp).
  - by_parts. rewrite Hm. msolve.
Qed.

Lemma resize_store_ok n p : pool_ok p -> pool_ok (resize_store n p).
Proof.
  intros Hp. eapply pool_ok_move; try exact Hp; try done; try apply Hp. right. cbn. set_solver.
Qed.

Lemma resize_trim_ok i p : pool_ok p -> pool_ok (resize_trim i p).
Proof.
  intros Hp. unfold resize_trim. destruct (trims p !! i) as [n|] eqn:Hi; [|done].
  eapply pool_ok_move; try exact Hp; cbn [launched next_id hits claimed ready size trims closed refiller stop]; try done; try apply Hp.
  - by_parts. rewrite list_to_set_disj_app.
    rewrite (list_to_set_disj_perm (vm <$> rev (drop n (ready p))) (vm <$> drop n (ready p)))
      by (apply fmap_Permutation; symmetry; apply Permutation_rev).
    assert (Hs : mset (vm <$> ready p) = mset (vm <$> take n (ready p)) ⊎ mset (vm <$> drop n (ready p)))
      by (rewrite <- list_to_set_disj_app, <- fmap_app, take_drop; done).
    rewrite Hs. multiset_solver.
  - rewrite length_take. destruct (decide (size p = n)) as [->|Hne]; [left; lia|].
    destruct (po_capacity _ Hp) as [Hc|Hc]; [left; lia|right].
    apply delete_Permutation in Hi. rewrite Hi in Hc. set_solver.
  - intros Hc. destruct (po_closed _ Hp Hc) as (-> & ? & ?). by rewrite take_nil.
Qed.

Lemma set_refiller_ok r p :
  pool_ok p -> mset (vm <$> inflight r) = mset (vm <$> inflight (refiller p)) -> (closed p = true -> r = Exited) ->
  pool_ok (set_refiller r p).
Proof.
  intros Hp Hr Hc. unfold set_refiller. eapply pool_ok_move; try exact Hp; try done; try apply Hp.
  - by_parts. by rewrite Hr.
  - intros Hcl. destruct (po_closed _ Hp Hcl) as (? & _ & ?). cbn. auto.
Qed.

Lemma refill_poll_ok p : pool_ok p -> pool_ok (refill_poll p).
Proof.
  intros Hp. unfold refill_poll. destruct (refiller p) eqn:Hr; try done; apply set_refiller_ok; rewrite ?Hr; try done.
  - by destruct (stop p).
  - intros Hc. destruct (po_closed _ Hp Hc) as (_ & ? & _). congruence.
  - by case_match.
  - intros Hc. destruct (po_closed _ Hp Hc) as (_ & ? & _). congruence.
Qed.

Lemma spawn_one_ok o p : pool_ok p -> pool_ok (spawn_one o p).
Proof.
  intros Hp. unfold spawn_one. destruct (refiller p) as [| |[|todo] spawned| |] eqn:Hr; try done.
  assert (Hnc : closed p = false).
  { destruct (closed p) eqn:Hc; [|done]. destruct (po_closed _ Hp Hc) as (_ & ? & _). congruence. }
  pose proof (po_where _ Hp) as Hw. rewrite whereabouts_parts, Hr in Hw. cbn [inflight] in Hw.
  assert (Hfresh : next_id p ∉ launched p) by (intros Hin%(po_new _ Hp); lia).
  assert (Hnew : forall v, v ∈ launched p -> (v < S (next_id p))%nat) by (intros v Hv%(po_new _ Hp); lia).
  assert (Hnew' : forall v, v ∈ next_id p :: launched p -> (v < S (next_id p))%nat)
    by (intros v [->|Hv]%elem_of_cons; [lia|auto]).
  destruct o; split; cbn [launched next_id hits claimed ready size trims closed refiller stop]; try apply Hp; try done;
    try (by rewrite Hnc); try (constructor; [done|apply Hp]); by_parts;
    rewrite ?list_to_set_disj_cons, Hw; msolve.
Qed.

Lemma refill_publish_ok signal p : pool_ok p -> pool_ok (refill_publish signal p).
Proof.
  intros Hp. unfold refill_publish. destruct (refiller p) as [| |[|todo] spawned|[|m ov]|] eqn:Hr; try done.
  - pose proof (publish_mset (stop p) signal (size p) spawned (ready p) []) as Hm.
    pose proof (publish_room (stop p) signal (size p) spawned (ready p) []) as Hroom.
    pose proof (publish_full (stop p) signal (size p) spawned (ready p) []) as Hfull.
    destruct (publish _ _ _ _ _ _) as [rd ov]. cbn [fst snd] in *.
    eapply pool_ok_move; try exact Hp; cbn [launched next_id hits claimed ready size trims closed refiller stop]; try done; try apply Hp.
    + by_parts. rewrite Hr. cbn [inflight]. rewrite fmap_nil, list_to_set_disj_nil in Hm. multiset_solver.
    + destruct (po_capacity _ Hp) as [Hc|Hc]; [left; auto|]. by right.
    + intros Hc. destruct (po_closed _ Hp Hc) as (_ & ? & _). congruence.
  - apply set_refiller_ok; [done|by rewrite Hr|]. intros Hc. destruct (po_closed _ Hp Hc) as (_ & ? & _). congruence.
  - eapply pool_ok_move; try exact Hp; cbn [launched next_id hits claimed ready size trims closed refiller stop]; try done; try apply Hp.
    + by_parts. rewrite Hr. cbn [inflight]. msolve.
    + intros Hc. destruct (po_closed _ Hp Hc) as (_ & ? & _). congruence.
Qed.

Lemma shutdown_ok p : pool_ok p ->
  pool_ok (shutdown_signal p) /\ (forall joins, pool_ok (shutdown_drain joins p)) /\ pool_ok (shutdown_teardown p).
Proof.
  intros Hp. split; [|split].
  - eapply pool_ok_move; try exact Hp; try done; try apply Hp.
    intros Hc. by destruct (po_closed _ Hp Hc) as (? & ? & ?).
  - intros joins. unfold shutdown_drain. case_match eqn:Hg; [done|].
    apply orb_false_iff in Hg as [Hs Hj]. apply negb_false_iff in Hs.
    eapply pool_ok_move; try exact Hp; cbn [launched next_id hits claimed ready size trims closed refiller stop]; try done; try apply Hp.
    + by_parts. msolve.
    + left. cbn. lia.
    + intros [Hc|Hc]%orb_true_iff; [by destruct (po_closed _ Hp Hc) as (_ & ? & ?)|]. subst joins.
      cbn in Hj. by destruct (refiller p).
  - unfold shutdown_teardown. destruct (closing p) as [|m rest] eqn:Hc; [done|].
    eapply pool_ok_move; try exact Hp; cbn [launched next_id hits claimed ready size trims closed refiller stop]; try done; try apply Hp.
    by_parts. rewrite Hc. msolve.
Qed.

Lemma pool_step_ok p p' : pool_step p p' -> pool_ok p -> pool_ok p'.
Proof.
  destruct 1; intros Hp; try by apply (shutdown_ok p Hp).
  all: eauto using claim_pop_ok, claim_end_ok, resize_store_ok, resize_trim_ok, refill_poll_ok, spawn_one_ok, refill_publish_ok.
Qed.

Lemma new_pool_ok pauses n : pool_ok (new_pool pauses n).
Proof. split; cbn; try done; [set_solver|constructor|left; lia]. Qed.

Lemma pool_run_ok pauses n p : rtc pool_step (new_pool pauses n) p -> pool_ok p.
Proof.
  intros Hrun. remember (new_pool pauses n) as p0 eqn:E. assert (pool_ok p0) by (subst; apply new_pool_ok).
  clear E. induction Hrun; eauto using pool_step_ok.
Qed.

Lemma elements_mset (l : list nat) : elements (mset l) ≡ₚ l.
Proof.
  induction l as [|x l IH]; [done|].
  rewrite list_to_set_disj_cons, gmultiset_elements_disj_union, gmultiset_elements_singleton, IH. done.
Qed.

Lemma mset_perm (l k : list nat) : mset l = mset k -> l ≡ₚ k.
Proof. intros Hl. by rewrite <- (elements_mset l), Hl, elements_mset. Qed.

(** C27: A clone is handed out once.  However claims, resizes, the refiller and shutdowns
    interleave and whatever calls of the runtime fail, every clone that was launched is in exactly
    one place: held by the pool, handed to one caller, torn down, or lost by a launch that gave
    up on it.  Hits count the clones handed out, and no more clones are parked than the target
    size unless the resize that set it has still to trim. *)
Theorem pool_clone_owned_once pauses n p :
  rtc pool_step (new_pool pauses n) p ->
  launched p ≡ₚ held p ++ claimed p ++ torn p ++ leaked p /\
  NoDup (held p ++ claimed p ++ torn p ++ leaked p) /\
  ps_hits (stats p) = length (claimed p) /\
  ((ps_ready (stats p) <= ps_size (stats p))%nat \/ size p ∈ trims p).
Proof.
  intros Hrun. pose proof (pool_run_ok _ _ _ Hrun) as Hp.
  assert (Hperm : launched p ≡ₚ whereabouts p) by apply mset_perm, Hp.
  split; [done|]. split; [|split; apply Hp]. fold (whereabouts p). rewrite <- Hperm. apply Hp.
Qed.

(** A shutdown leaves no clone behind.  Once the shutdown that joined the refiller has
    drained the pool, nothing is parked or being launched, in this and in every later state; when
    the clones it drained are torn down and the claims under way have ended, every clone
    that was ever launched was handed to a caller, torn down or lost by its launch. *)
Lemma pool_shutdown_complete pauses n p p' :
  rtc pool_step (new_pool pauses n) p -> closed p = true -> rtc pool_step p p' ->
  ready p' = [] /\ refiller p' = Exited /\ launched p' = launched p /\
  (closing p' = [] -> claiming p' = [] -> launched p' ≡ₚ claimed p' ++ torn p' ++ leaked p').
Proof.
  intros Hrun Hc Hrun'. pose proof (pool_run_ok _ _ _ Hrun) as Hp. clear Hrun.
  assert (Hstay : closed p' = true /\ pool_ok p' /\ launched p' = launched p).
  { induction Hrun' as [p|p q p' Hs Hr IH]; [done|].
    assert (closed q = true /\ launched q = launched p) as [Hcq Hl].
    { destruct (po_closed _ Hp Hc) as (Hrd & Hrf & Hst). destruct Hs; try done.
      - unfold claim_pop. by case_match.
      - unfold claim_end. by repeat case_match.
      - unfold resize_trim. by case_match.
      - unfold refill_poll. by rewrite Hrf.
      - unfold spawn_one. by rewrite Hrf.
      - unfold refill_publish. by rewrite Hrf.
      - unfold shutdown_drain. case_match; [done|]. cbn. by rewrite Hc.
      - unfold shutdown_teardown. by case_match. }
    rewrite <- Hl. apply IH; [done|by eapply pool_step_ok]. }
  destruct Hstay as (Hc' & Hp' & Hl). destruct (po_closed _ Hp' Hc') as (Hrd & Hrf & _).
  do 3 (split; [done|]). intros Hcl Hcg.
  assert (Hperm : launched p' ≡ₚ whereabouts p') by apply mset_perm, Hp'.
  rewrite Hperm. unfold whereabouts, held. by rewrite Hrd, Hcg, Hcl, Hrf.
Qed.

(** ** Keys and names *)

(** Two texts with the same last separator have the same parts. *)
Lemma last_bar a b l k :
  124 ∉ l -> 124 ∉ k -> a ++ 124 :: l = b ++ 124 :: k -> a = b /\ l = k.
Proof.
  intros Hl Hk He. assert (Hr : rev l ++ 124 :: rev a = rev k ++ 124 :: rev b)
    by (apply (f_equal (@rev Z)) in He; rewrite !rev_app_distr in He; cbn in He; by rewrite <- !app_assoc in He).
  assert (Hs : split_once 124 (rev l ++ 124 :: rev a) = split_once 124 (rev k ++ 124 :: rev b)) by (by rewrite Hr).
  rewrite !split_once_app in Hs by (by rewrite <- Permutation_rev).
  injection Hs as Hs1 Hs2. apply (f_equal (@rev Z)) in Hs1, Hs2. by rewrite !rev_involutive in Hs1, Hs2.
Qed.

Lemma template_key_eq r d m c s h n t :
  template_key r d m c s h n t =
  ((((((r ++ 124 :: 100 :: decimal d) ++ 124 :: 109 :: decimal m) ++ 124 :: 99 :: decimal c) ++
    124 :: 115 :: decimal s) ++ 124 :: 104 :: flag_digit h) ++ 124 :: 110 :: flag_digit n) ++ 124 :: 116 :: flag_digit t.
Proof. unfold template_key. rewrite <- !app_assoc. done. Qed.

Lemma decimal_inj n k : 0 <= n < 2 ^ 64 -> 0 <= k < 2 ^ 64 -> decimal n = decimal k -> n = k.
Proof.
  intros Hn Hk He. pose proof (parse_digits_decimal n) as Pn. pose proof (parse_digits_decimal k) as Pk.
  rewrite He in Pn. rewrite Pk in Pn by lia. injection Pn; [done|lia].
Qed.

(** Different templates have different keys, whatever the reference contains. *)
Lemma template_key_inj r d m c s h n t r' d' m' c' s' h' n' t' :
  Forall (fun x => 0 <= x < 2 ^ 64) [d; m; c; s; d'; m'; c'; s'] ->
  template_key r d m c s h n t = template_key r' d' m' c' s' h' n' t' ->
  r = r' /\ d = d' /\ m = m' /\ c = c' /\ s = s' /\ h = h' /\ n = n' /\ t = t'.
Proof.
  intros Hall. repeat (apply Forall_cons_1 in Hall as [? Hall]). rewrite !template_key_eq.
  assert (Hd : forall b x, b <> 124 -> 0 <= x < 2 ^ 64 -> 124 ∉ b :: decimal x).
  { intros b x Hb Hx [Heq|Hin]%elem_of_cons; [congruence|]. revert Hin. by apply decimal_no_char; [lia|]. }
  assert (Hf : forall b x, b <> 124 -> 124 ∉ b :: flag_digit x) by (intros b [] Hb; cbn; set_solver).
  assert (Hflag : forall x y, flag_digit x = flag_digit y -> x = y) by (by intros [] []).
  intros He. repeat (apply last_bar in He as [He ?]; [|by auto..]). simplify_eq.
  split_and!; [done|..]; eauto using decimal_inj.
Qed.

(** ** Examples *)

Module WarmPoolExamples.
(** Two clones are launched; one is claimed, the pool is shut down. *)
Definition filled : Pool :=
  refill_publish None (spawn_one (Spawned true) (spawn_one (Spawned false) (refill_poll (refill_poll (new_pool true 2))))).
Definition one_claimed : Pool := claim_end 0 true true (claim_pop false filled).
Definition stopped : Pool :=
  shutdown_drain true (refill_poll (refill_publish None (shutdown_signal one_claimed))).
Definition emptied : Pool := shutdown_teardown stopped.

Lemma claimed_run : rtc pool_step (new_pool true 2) one_claimed.
Proof.
  unfold one_claimed, filled.
  eapply rtc_r; [|apply step_claim_end]. eapply rtc_r; [|apply step_claim].
  eapply rtc_r; [|apply step_publish]. eapply rtc_r; [|apply step_spawn]. eapply rtc_r; [|apply step_spawn].
  eapply rtc_r; [|apply step_poll]. apply rtc_once, step_poll.
Qed.

Lemma stopped_run : rtc pool_step (new_pool true 2) stopped.
Proof.
  unfold stopped. eapply rtc_r; [|apply step_drain]. eapply rtc_r; [|apply step_poll].
  eapply rtc_r; [|apply step_publish]. eapply rtc_r; [apply claimed_run|apply step_signal].
Qed.

Lemma pool_clone_owned_once_witness :
  launched one_claimed ≡ₚ [1%nat] ++ [0%nat] ++ [] ++ [] /\ NoDup ([1%nat] ++ [0%nat] ++ [] ++ []) /\
  ps_hits (stats one_claimed) = 1%nat /\ ((1 <= 2)%nat \/ 2%nat ∈ []).
Proof. apply (pool_clone_owned_once true 2 one_claimed claimed_run). Defined.

(** A clone whose agent socket cannot be determined after the launch is forgotten: it runs on
    after the pool is shut down, and nobody has it. *)
Definition forgotten : Pool :=
  shutdown_drain true (refill_poll (refill_publish None (refill_publish None (shutdown_signal
    (spawn_one NoAgentSock (refill_poll (refill_poll (new_pool true 1)))))))).

Lemma launched_clone_leaks :
  closed forgotten = true /\ launched forgotten = [0%nat] /\ held forgotten = [] /\ claimed forgotten = [] /\
  torn forgotten = [].
Proof. done. Qed.
End WarmPoolExamples.
