(* ===== verification/ActorPins.v ===== *)
(** The live side of actors: [vmond/src/function/actor.rs].  A slot pins a worker to an actor and
    owns a gate, a semaphore of one permit.  Gates are shared: a caller clones the pointer to the
    gate under the lock and waits for the permit outside of it, so a gate can outlive its
    slot.  Gates are therefore names ([nat]) in a store, and a permit is a gate that is held. *)

From S2P Require Import Prelude.

Inductive ActorRecovery : Type := Restore (checkpoint_id : string) | Lost.

Inductive ActorError : Type := ActorNotFound | ActorNotRunning | ActorInvalid | ActorBusy.

Record ActorSlot : Type := mkSlot {
  sl_worker : option nat; sl_checkpoint : option string; sl_gate : nat; sl_lost : bool }.

(** [waiting] and [holding]: callers in front of a gate and behind it, oldest first, with the
    actor they asked for. *)
Record ActorManager : Type := mkActors {
  slots : gmap string ActorSlot; next_gate : nat;
  waiting : list (nat * string); holding : list (nat * string) }.

Definition new_actors : ActorManager := mkActors ∅ 0 [] [].

(** [ActorSlot::new] with a fresh semaphore. *)
Definition new_slot (checkpoint_id : option string) (s : ActorManager) : ActorSlot :=
  mkSlot None checkpoint_id (next_gate s) false.

Definition add_slot (actor_id : string) (sl : ActorSlot) (s : ActorManager) : ActorManager :=
  mkActors (<[actor_id := sl]> (slots s)) (S (next_gate s)) (waiting s) (holding s).
Definition set_slot (actor_id : string) (sl : ActorSlot) (s : ActorManager) : ActorManager :=
  mkActors (<[actor_id := sl]> (slots s)) (next_gate s) (waiting s) (holding s).

Definition register (actor_id : string) (checkpoint_id : option string) (s : ActorManager) : ActorManager :=
  match slots s !! actor_id with
  | Some _ => s
  | None => add_slot actor_id (new_slot checkpoint_id s) s
  end.

Definition pin (actor_id : string) (worker : nat) (checkpoint_id : option string) (s : ActorManager)
  : result ActorError unit * ActorManager :=
  let s := register actor_id None s in
  let slot := default (new_slot None s) (slots s !! actor_id) in
  if sl_lost slot && negb (bool_decide (checkpoint_id = sl_checkpoint slot)) then (Err ActorNotRunning, s)
  else
    (Ok tt, set_slot actor_id (mkSlot (Some worker)
      (match checkpoint_id with Some c => Some c | None => sl_checkpoint slot end) (sl_gate slot) false) s).

(** [acquire_gate] up to the wait: the pointer to the gate is cloned. *)
Definition request_gate (actor_id : string) (s : ActorManager) : result ActorError unit * ActorManager :=
  match slots s !! actor_id with
  | None => (Err ActorNotFound, s)
  | Some slot => (Ok tt, mkActors (slots s) (next_gate s) (waiting s ++ [(sl_gate slot, actor_id)]) (holding s))
  end.

(** The permit goes to the first caller in front of a gate nobody is behind. *)
Definition first_waiting (g : nat) (i : nat) (s : ActorManager) : bool :=
  forallb (fun w => negb (fst w =? g)%nat) (take i (waiting s)).
Definition gate_free (g : nat) (s : ActorManager) : bool :=
  forallb (fun w => negb (fst w =? g)%nat) (holding s).

Definition grant_gate (i : nat) (s : ActorManager) : ActorManager :=
  match waiting s !! i with
  | Some (g, a) =>
      if gate_free g s && first_waiting g i s
      then mkActors (slots s) (next_gate s) (delete i (waiting s)) (holding s ++ [(g, a)])
      else s
  | None => s
  end.

(** A caller gives up waiting, or drops its permit. *)
Definition cancel_request (i : nat) (s : ActorManager) : ActorManager :=
  mkActors (slots s) (next_gate s) (delete i (waiting s)) (holding s).
Definition drop_gate (i : nat) (s : ActorManager) : ActorManager :=
  mkActors (slots s) (next_gate s) (waiting s) (delete i (holding s)).

Definition gated_worker (actor_id : string) (s : ActorManager) : option nat :=
  slots s !! actor_id ≫= sl_worker.

(** The rest of [acquire], for a caller that has the gate. *)
Definition admit_caller (actor_id : string) (s : ActorManager) : result ActorError nat :=
  match slots s !! actor_id with
  | None => Err ActorNotFound
  | Some slot => if sl_lost slot then Err ActorNotRunning else ok_or (sl_worker slot) ActorNotRunning
  end.

Definition update_slot {A} (actor_id : string) (f : ActorSlot -> A * ActorSlot) (s : ActorManager)
  : result ActorError A * ActorManager :=
  match slots s !! actor_id with
  | None => (Err ActorNotFound, s)
  | Some slot => let '(a, slot') := f slot in (Ok a, set_slot actor_id slot' s)
  end.

Definition checkpoint_committed (actor_id checkpoint_id : string) : ActorManager -> result ActorError unit * ActorManager :=
  update_slot actor_id (fun sl => (tt, mkSlot (sl_worker sl) (Some checkpoint_id) (sl_gate sl) (sl_lost sl))).

Definition install_checkpoint_frontier (actor_id checkpoint_id : string)
  : ActorManager -> result ActorError unit * ActorManager :=
  update_slot actor_id (fun sl => (tt, mkSlot (sl_worker sl) (Some checkpoint_id) (sl_gate sl) false)).

Definition worker_lost (actor_id : string) : ActorManager -> result ActorError ActorRecovery * ActorManager :=
  update_slot actor_id (fun sl =>
    (match sl_checkpoint sl with Some c => Restore c | None => Lost end, mkSlot None (sl_checkpoint sl) (sl_gate sl) true)).

(** [fork] reads the checkpoint under the read lock and inserts under the write lock. *)
Definition fork_checkpoint (source_actor_id : string) (s : ActorManager) : result ActorError string :=
  source <-? ok_or (slots s !! source_actor_id) ActorNotFound ;
  ok_or (sl_checkpoint source) ActorInvalid.

Definition fork_insert (target_actor_id checkpoint_id : string) (s : ActorManager)
  : result ActorError unit * ActorManager :=
  match slots s !! target_actor_id with
  | Some _ => (Err ActorBusy, s)
  | None => (Ok tt, add_slot target_actor_id (new_slot (Some checkpoint_id) s) s)
  end.

(** [fork] when nothing happens between its two locks. *)
Definition fork (source_actor_id target_actor_id : string) (s : ActorManager) : result ActorError unit * ActorManager :=
  match fork_checkpoint source_actor_id s with
  | Err e => (Err e, s)
  | Ok c => fork_insert target_actor_id c s
  end.

Definition remove_actor (actor_id : string) (s : ActorManager) : ActorManager :=
  mkActors (delete actor_id (slots s)) (next_gate s) (waiting s) (holding s).

Definition drain_workers (s : ActorManager) : list nat * ActorManager :=
  (omap (fun kv => sl_worker (snd kv)) (map_to_list (slots s)),
   mkActors ((fun sl => mkSlot None (sl_checkpoint sl) (sl_gate sl) (sl_lost sl)) <$> slots s)
     (next_gate s) (waiting s) (holding s)).

(** ** Runs *)

(** [removals]: whether slots are removed.  A fork inserts a checkpoint it read earlier. *)
Inductive actor_step (removals : bool) : ActorManager -> ActorManager -> Prop :=
  | as_register a c s : actor_step removals s (register a c s)
  | as_pin a w c s : actor_step removals s (snd (pin a w c s))
  | as_request a s : actor_step removals s (snd (request_gate a s))
  | as_grant i s : actor_step removals s (grant_gate i s)
  | as_cancel i s : actor_step removals s (cancel_request i s)
  | as_drop i s : actor_step removals s (drop_gate i s)
  | as_committed a c s : actor_step removals s (snd (checkpoint_committed a c s))
  | as_install a c s : actor_step removals s (snd (install_checkpoint_frontier a c s))
  | as_lost a s : actor_step removals s (snd (worker_lost a s))
  | as_fork b c s : actor_step removals s (snd (fork_insert b c s))
  | as_remove a s : removals = true -> actor_step removals s (remove_actor a s)
  | as_drain s : actor_step removals s (snd (drain_workers s)).

(** A gate is held once, belongs to one slot, and callers stand at the gate of their actor. *)
Record actors_ok (removals : bool) (s : ActorManager) : Prop := {
  ao_held : NoDup (fst <$> holding s);
  ao_new : forall a sl, slots s !! a = Some sl -> (sl_gate sl < next_gate s)%nat;
  ao_gates : forall a b sl sl', slots s !! a = Some sl -> slots s !! b = Some sl' -> sl_gate sl = sl_gate sl' -> a = b;
  ao_lost : forall a sl, slots s !! a = Some sl -> sl_lost sl = true -> sl_worker sl = None;
  ao_at : removals = false -> forall g a, (g, a) ∈ waiting s ++ holding s -> exists sl, slots s !! a = Some sl /\ sl_gate sl = g }.

(** A change of one slot that keeps its gate, or adds one with a new gate. *)
Lemma actors_ok_slot removals s a sl n :
  actors_ok removals s ->
  (slots s !! a = None /\ sl_gate sl = next_gate s /\ n = S (next_gate s) \/
   exists sl0, slots s !! a = Some sl0 /\ sl_gate sl = sl_gate sl0 /\ n = next_gate s) ->
  (sl_lost sl = true -> sl_worker sl = None) ->
  actors_ok removals (mkActors (<[a := sl]> (slots s)) n (waiting s) (holding s)).
Proof.
  intros [Hh Hn Hg Hl Ha] Hcase Hlost. split; cbn [slots next_gate waiting holding]; [done|..].
  - intros b x [[<- <-]|[_ Hx]]%lookup_insert_Some; [|specialize (Hn _ _ Hx)]; destruct Hcase as [(_ & ? & ?)|(sl0 & H0 & ? & ?)];
      try specialize (Hn _ _ H0); lia.
  - intros b c x y [[<- <-]|[Hb Hx]]%lookup_insert_Some [[<- <-]|[Hc Hy]]%lookup_insert_Some He; try done; try by eapply Hg.
    + destruct Hcase as [(_ & He' & _)|(sl0 & H0 & He' & _)]; [specialize (Hn _ _ Hy); lia|]. eapply Hg; [done..|congruence].
    + destruct Hcase as [(_ & He' & _)|(sl0 & H0 & He' & _)]; [specialize (Hn _ _ Hx); lia|]. eapply Hg; [done..|congruence].
  - intros b x [[<- <-]|[_ Hx]]%lookup_insert_Some; [done|by eapply Hl].
  - intros Hr g b Hin. destruct (Ha Hr g b Hin) as (x & Hx & Hxg). destruct (decide (a = b)) as [->|Hne].
    + exists sl. rewrite lookup_insert_eq. split; [done|]. destruct Hcase as [(? & _)|(sl0 & H0 & ? & _)]; congruence.
    + exists x. by rewrite lookup_insert_ne.
Qed.

Lemma register_ok removals a c s : actors_ok removals s -> actors_ok removals (register a c s).
Proof.
  intros Hs. unfold register, add_slot. destruct (slots s !! a) eqn:E; [done|]. apply actors_ok_slot; [done|by left|done].
Qed.

Lemma registered a c s : exists sl, slots (register a c s) !! a = Some sl.
Proof. unfold register. destruct (slots s !! a) eqn:E; [by eexists|]. cbn. rewrite lookup_insert_eq. by eexists. Qed.

Lemma pin_ok removals a w c s : actors_ok removals s -> actors_ok removals (snd (pin a w c s)).
Proof.
  intros Hs. apply (register_ok _ a None) in Hs. destruct (registered a None s) as [sl Hsl]. unfold pin. cbn zeta.
  set (s0 := register a None s) in *. rewrite Hsl. cbn [default]. case_match; [done|]. cbn [snd].
  apply actors_ok_slot; [done|right; by exists sl|done].
Qed.

Lemma update_slot_ok {A} removals a (f : ActorSlot -> A * ActorSlot) s :
  (forall sl, sl_gate (snd (f sl)) = sl_gate sl /\ (sl_lost (snd (f sl)) = true -> (sl_lost sl = true -> sl_worker sl = None) -> sl_worker (snd (f sl)) = None)) ->
  actors_ok removals s -> actors_ok removals (snd (update_slot a f s)).
Proof.
  intros Hf Hs. unfold update_slot. destruct (slots s !! a) as [sl|] eqn:E; [|done]. destruct (Hf sl) as [Hg Hl].
  destruct (f sl) as [x sl']. cbn [snd] in *. apply actors_ok_slot; [done|right; by exists sl|].
  intros Hx. apply Hl; [done|]. by apply (ao_lost _ _ Hs a sl).
Qed.

Lemma gate_free_spec g s : gate_free g s = true -> g ∉ (fst <$> holding s).
Proof.
  unfold gate_free. rewrite forallb_forall. intros Hf ([g' a] & -> & Hin)%list_elem_of_fmap.
  apply list_elem_of_In in Hin. specialize (Hf _ Hin). cbn in Hf. by rewrite Nat.eqb_refl in Hf.
Qed.

Lemma elem_of_delete {A} (l : list A) i x : x ∈ delete i l -> x ∈ l.
Proof. intros Hx. eapply elem_of_sublist; [exact Hx|apply sublist_delete]. Qed.

Lemma actor_step_ok removals s s' : actor_step removals s s' -> actors_ok removals s -> actors_ok removals s'.
Proof.
  destruct 1; intros Hs; eauto using register_ok, pin_ok; try (apply update_slot_ok; [cbn; naive_solver|done]);
    pose proof Hs as [Hh Hn Hg Hl Ha].
  - unfold request_gate. destruct (slots s !! a) as [sl|] eqn:E; [|done]. split; try done. cbn [snd slots waiting holding].
    intros Hr g b. rewrite <- app_assoc, (Permutation_app_comm [_] (holding s)), app_assoc. intros [Hin|[= -> ->]%list_elem_of_singleton]%elem_of_app; [by apply Ha|].
    by exists sl.
  - unfold grant_gate. destruct (waiting s !! i) as [[g a]|] eqn:E; [|done]. case_match eqn:Hc; [|done].
    apply andb_true_iff in Hc as [Hf _]. split; try done; cbn [slots waiting holding].
    + rewrite fmap_app. apply NoDup_app. split; [done|]. split; [|apply NoDup_singleton].
      intros x Hx ->%list_elem_of_singleton. by apply (gate_free_spec g s).
    + intros Hr g' b [Hin|[Hin|[= -> ->]%list_elem_of_singleton]%elem_of_app]%elem_of_app;
        apply Ha; try done; apply elem_of_app; [left; by eapply elem_of_delete|by right|left; by eapply list_elem_of_lookup_2].
  - split; try done. cbn [slots waiting holding cancel_request].
    intros Hr g b [Hin%elem_of_delete|Hin]%elem_of_app; apply Ha; try done; apply elem_of_app; auto.
  - split; try done; cbn [slots waiting holding drop_gate].
    + eapply sublist_NoDup; [exact Hh|]. apply fmap_sublist, sublist_delete.
    + intros Hr g b [Hin|Hin%elem_of_delete]%elem_of_app; apply Ha; try done; apply elem_of_app; auto.
  - unfold fork_insert. destruct (slots s !! b) eqn:E; [done|]. apply actors_ok_slot; [done|by left|done].
  - subst removals. split; cbn [slots waiting holding next_gate remove_actor]; try done.
    + intros b x [_ Hx]%lookup_delete_Some. by eapply Hn.
    + intros b c x y [_ Hx]%lookup_delete_Some [_ Hy]%lookup_delete_Some. by eapply Hg.
    + intros b x [_ Hx]%lookup_delete_Some. by eapply Hl.
  - split; cbn [snd drain_workers slots waiting holding next_gate]; try done.
    + intros b x (y & <- & Hy)%lookup_fmap_Some. by eapply (Hn b y).
    + intros b c x y (x' & <- & Hx)%lookup_fmap_Some (y' & <- & Hy)%lookup_fmap_Some. by eapply (Hg b c x' y').
    + by intros b x (y & <- & Hy)%lookup_fmap_Some.
    + intros Hr g b Hin. destruct (Ha Hr g b Hin) as (x & Hx & Hxg).
      eexists. rewrite lookup_fmap, Hx. split; [done|]. done.
Qed.

Definition actor_run (removals : bool) : ActorManager -> ActorManager -> Prop := rtc (actor_step removals).

Lemma actor_run_ok removals s s' : actor_run removals s s' -> actors_ok removals s -> actors_ok removals s'.
Proof. induction 1; eauto using actor_step_ok. Qed.

Lemma new_actors_ok removals : actors_ok removals new_actors.
Proof. split; cbn; [apply NoDup_nil_2| | | |]; try (intros *; rewrite lookup_empty; done). intros _ g a Hin. by apply not_elem_of_nil in Hin. Qed.

(** ** What holds *)

(** Two callers are never behind one gate. *)
Lemma gate_held_once removals s i j g a b :
  actor_run removals new_actors s -> holding s !! i = Some (g, a) -> holding s !! j = Some (g, b) -> i = j.
Proof.
  intros Hr Hi Hj. pose proof (actor_run_ok _ _ _ Hr (new_actors_ok _)) as [Hh _ _ _ _].
  eapply (proj1 (NoDup_alt _) Hh i j g); by rewrite list_lookup_fmap, ?Hi, ?Hj.
Qed.

(** As long as no slot is removed, an actor admits one caller at a time. *)
Theorem actor_admits_one s i j g g' a :
  actor_run false new_actors s -> holding s !! i = Some (g, a) -> holding s !! j = Some (g', a) -> i = j.
Proof.
  intros Hr Hi Hj. pose proof (actor_run_ok _ _ _ Hr (new_actors_ok _)) as [_ _ _ _ Ha].
  destruct (Ha eq_refl g a) as (sl & Hsl & Hg); [apply elem_of_app; right; by eapply list_elem_of_lookup_2|].
  destruct (Ha eq_refl g' a) as (sl' & Hsl' & Hg'); [apply elem_of_app; right; by eapply list_elem_of_lookup_2|].
  assert (g' = g) as -> by congruence. by eapply gate_held_once.
Qed.

(** A change of another slot, or of none, does not admit_caller anybody. *)
Lemma admit_same a s s' : slots s' !! a = slots s !! a -> admit_caller a s' = admit_caller a s.
Proof. unfold admit_caller. by intros ->. Qed.

Lemma admit_lost a s sl : slots s !! a = Some sl -> sl_lost sl = true -> admit_caller a s = Err ActorNotRunning.
Proof. unfold admit_caller. by intros -> ->. Qed.

Lemma update_slot_admit {A} a b (f : ActorSlot -> A * ActorSlot) s sl w :
  slots s !! a = Some sl -> sl_lost sl = true -> sl_worker (snd (f sl)) = None \/ sl_lost (snd (f sl)) = true ->
  admit_caller a (snd (update_slot b f s)) <> Ok w.
Proof.
  intros Hsl Hl Hf. unfold update_slot. destruct (slots s !! b) as [x|] eqn:E; [|by rewrite (admit_lost _ _ sl)].
  destruct (f x) as [y x'] eqn:Ef. cbn [snd]. destruct (decide (a = b)) as [->|Hne].
  - assert (x = sl) as -> by congruence. rewrite Ef in Hf. cbn [snd] in Hf. unfold admit_caller. cbn. rewrite lookup_insert_eq.
    destruct Hf as [-> | ->]; [by destruct (sl_lost x')|done].
  - rewrite (admit_same a s) by (cbn; by rewrite lookup_insert_ne). by rewrite (admit_lost _ _ sl).
Qed.

Lemma pin_lost a w c s sl :
  slots s !! a = Some sl -> sl_lost sl = true -> c <> sl_checkpoint sl -> pin a w c s = (Err ActorNotRunning, s).
Proof.
  intros Hsl Hl Hc. unfold pin, register. rewrite Hsl. cbn zeta. rewrite Hsl. cbn [default option_map from_option]. unfold default, id. by rewrite Hl, bool_decide_false.
Qed.

Lemma pin_other a b w c s : a <> b -> slots (snd (pin b w c s)) !! a = slots s !! a.
Proof.
  intros Hne. unfold pin. cbn zeta. set (s0 := register b None s).
  assert (slots s0 !! a = slots s !! a) as H0.
  { unfold s0, register. case_match; [done|]. cbn. by rewrite lookup_insert_ne. }
  case_match; cbn; [done|]. by rewrite lookup_insert_ne.
Qed.

(** A lost actor takes calls again only through a pin of a worker with the checkpoint it had last. *)
Theorem lost_until_pinned removals s0 s a sl w :
  actor_run removals new_actors s0 -> slots s0 !! a = Some sl -> sl_lost sl = true ->
  actor_step removals s0 s -> admit_caller a s = Ok w -> s = snd (pin a w (sl_checkpoint sl) s0).
Proof.
  intros Hr Hsl Hl Hstep Had. pose proof (ao_lost _ _ (actor_run_ok _ _ _ Hr (new_actors_ok _)) a sl Hsl Hl) as Hw.
  pose proof (admit_lost _ _ _ Hsl Hl) as He.
  destruct Hstep as [b c s|b w' c s|b s|i s|i s|i s|b c s|b c s|b s|b c s|b s _|s];
    try (exfalso; by eapply update_slot_admit; [exact Hsl|done| |exact Had]; cbn; auto).
  - rewrite (admit_same a s) in Had; [congruence|]. unfold register. case_match; [done|]. cbn.
    rewrite lookup_insert_ne; [done|congruence].
  - destruct (decide (a = b)) as [->|Hne]; [|rewrite (admit_same a s) in Had by (by apply pin_other); congruence].
    destruct (decide (c = sl_checkpoint sl)) as [->|Hc]; [|rewrite (pin_lost _ _ _ _ _ Hsl Hl Hc) in Had; cbn in Had; congruence].
    replace w' with w; [done|]. revert Had. unfold pin, register. rewrite Hsl. cbn zeta. rewrite Hsl. cbn [default].
    rewrite (bool_decide_true _ eq_refl), andb_false_r. unfold admit_caller. cbn. rewrite lookup_insert_eq. cbn. by intros [=].
  - rewrite (admit_same a s) in Had; [congruence|]. unfold request_gate. by case_match.
  - rewrite (admit_same a s) in Had; [congruence|]. unfold grant_gate. by repeat case_match.
  - by rewrite (admit_same a s) in Had; [congruence|].
  - by rewrite (admit_same a s) in Had; [congruence|].
  - rewrite (admit_same a s) in Had; [congruence|]. unfold fork_insert. case_match; [done|]. cbn.
    rewrite lookup_insert_ne; [done|congruence].
  - unfold admit_caller, remove_actor in Had. cbn in Had. destruct (decide (a = b)) as [->|Hne]; [by rewrite lookup_delete_eq in Had|].
    rewrite lookup_delete_ne, Hsl, Hl in Had by done. done.
  - unfold admit_caller, drain_workers in Had. cbn in Had. rewrite lookup_fmap, Hsl in Had. cbn in Had. by rewrite Hl in Had.
Qed.

(** ** Examples *)

Section examples.
Local Open Scope string_scope.

Definition run_pins (fs : list (ActorManager -> ActorManager)) : ActorManager := foldl (fun s f => f s) new_actors fs.

(** A lost actor with a checkpoint takes the restored worker and no other one. *)
Example restore_from_checkpoint :
  let s := run_pins [register "a" (Some "cp-1"); fun s => snd (worker_lost "a" s)] in
  fst (pin "a" 7 None s) = Err ActorNotRunning /\ fst (pin "a" 7 (Some "cp-0") s) = Err ActorNotRunning /\
  admit_caller "a" (snd (pin "a" 7 (Some "cp-1") s)) = Ok 7%nat.
Proof. by vm_compute. Qed.

(** The loss of an actor without a checkpoint is reported as final, but a fresh worker can be
    pinned to it: the missing checkpoint of the request equals the missing one of the slot. *)
Example lost_actor_pinned_fresh :
  let s := run_pins [register "a" None; fun s => snd (pin "a" 3 None s)] in
  fst (worker_lost "a" s) = Ok Lost /\
  admit_caller "a" (snd (pin "a" 4 None (snd (worker_lost "a" s)))) = Ok 4%nat.
Proof. by vm_compute. Qed.

(** An actor that is removed and registered again while a caller is behind its old gate admits a
    second one. *)
Example removed_actor_admits_two :
  holding (run_pins [register "a" None; fun s => snd (request_gate "a" s); grant_gate 0; remove_actor "a";
    register "a" None; fun s => snd (request_gate "a" s); grant_gate 0]) = [(0%nat, "a"); (1%nat, "a")].
Proof. by vm_compute. Qed.

(** Without the removal the second caller waits for the first one's permit. *)
Example second_caller_waits :
  let s := run_pins [register "a" None; fun s => snd (request_gate "a" s); fun s => snd (request_gate "a" s);
    grant_gate 1; grant_gate 0; grant_gate 0] in
  holding s = [(0%nat, "a")] /\ waiting s = [(0%nat, "a")] /\ waiting (grant_gate 0 (drop_gate 0 s)) = [].
Proof. by vm_compute. Qed.

End examples.
