(* ===== verification/Pager.v ===== *)
(** The pager of guest memory: [vmm/src/pager.rs] and [sweep_pager_if_needed] of [vmm/src/vmm.rs].
    Pages that are evicted are kept compressed in memory or in a swap file, or still lie on a
    remote node; a fault brings them back.  Two threads work on one pager: the handler serves
    faults, one at a time, and the sweeper evicts pages while the guest and its devices are
    paused.  Each thread is a state of its own, and a step of it is what it does under one lock
    or between two calls of the kernel.  How calls of the kernel end is an argument of the
    steps. *)

From S2P Require Import Prelude Decimal RedisWire RedisClient.

Definition PAGE_SIZE : nat := Z.to_nat 4096.
Definition SWAP_SLOT_SIZE : nat := PAGE_SIZE + 1.
Definition MAX_EVICT_PER_SWEEP : nat := Z.to_nat 8192.
Definition SHARDS : nat := Z.to_nat 256.
Definition ZERO_PAGE : list Z := replicate PAGE_SIZE 0.

Inductive PagerError : Type :=
  | EmptyBlob | RawLength | Inflate | InflatedLength | BadTag
  | NotHttp | NoHost | UnterminatedV6 | BadV6Authority | BadPort
  | Transport | NoHeaderEnd | HeaderNotUtf8 | BadStatus | BodyLength
  | EmptyRegion | UnalignedRegion | NotFileBacked | CloneFailed | PageCountOverflow | NoPages | TooManyPages | EventFd
  | RegisterFailed.

(** ** The codec of pages *)

(** [miniz_oxide]: what was deflated inflates to itself, when the limit allows. *)
Class Deflate : Type := {
  compress_to_vec : list Z -> list Z;
  decompress_to_vec_with_limit : list Z -> nat -> option (list Z);
  inflate_deflate : forall data limit,
    (length data <= limit)%nat -> decompress_to_vec_with_limit (compress_to_vec data) limit = Some data }.

Section codec.
Context `{Deflate}.

Definition encode (page : list Z) : option (list Z) :=
  if forallb (fun b => b =? 0) page then None
  else
    let compressed := compress_to_vec page in
    if (length compressed <? PAGE_SIZE)%nat then Some (2 :: compressed) else Some (1 :: page).

Definition decode (buf : list Z) : result PagerError (list Z) :=
  match buf with
  | [] => Err EmptyBlob
  | tag :: payload =>
      if tag =? 1 then
        if negb (length payload =? PAGE_SIZE)%nat then Err RawLength else Ok payload
      else if tag =? 2 then
        decoded <-? ok_or (decompress_to_vec_with_limit payload PAGE_SIZE) Inflate ;
        if negb (length decoded =? PAGE_SIZE)%nat then Err InflatedLength else Ok decoded
      else Err BadTag
  end.
End codec.

(** ** The swap file *)

Inductive Loc : Type :=
  | Zero
  | Ram (buf : list Z)
  | Swap (slot len : nat)
  | Remote (page : nat).

(** [sw_free]: the slot pushed last comes first.  [sw_file]: the bytes behind the descriptor. *)
Record SwapAlloc : Type := mkSwap { sw_next : nat; sw_free : list nat; sw_cap : nat; sw_file : list Z }.

Module SwapAlloc.
Definition alloc (s : SwapAlloc) : option nat * SwapAlloc :=
  match sw_free s with
  | slot :: rest => (Some slot, mkSwap (sw_next s) rest (sw_cap s) (sw_file s))
  | [] =>
      if (sw_next s <? sw_cap s)%nat
      then (Some (sw_next s), mkSwap (S (sw_next s)) [] (sw_cap s) (sw_file s))
      else (None, s)
  end.

Definition free (slot : nat) (s : SwapAlloc) : SwapAlloc :=
  mkSwap (sw_next s) (slot :: sw_free s) (sw_cap s) (sw_file s).

Definition used_pages (s : SwapAlloc) : nat := sw_next s - length (sw_free s).
End SwapAlloc.

Definition swap_offset (slot : nat) : nat := slot * SWAP_SLOT_SIZE.

(** How one [pread] or [pwrite] ends.  When the list of outcomes is used up, a call transfers
    all that is left. *)
Inductive io_out : Type := Transferred (n : nat) | Interrupted | Failed.

(** [pwrite]: a gap before the offset is filled with zeros. *)
Definition pwrite (offset : nat) (data file : list Z) : list Z :=
  take offset file ++ replicate (offset - length file) 0 ++ data ++ drop (offset + length data) file.

Fixpoint pwrite_all (outs : list io_out) (buf : list Z) (offset : nat) (file : list Z) : bool * list Z :=
  if (length buf =? 0)%nat then (true, file)
  else
    match outs with
    | [] => (true, pwrite offset buf file)
    | Interrupted :: outs => pwrite_all outs buf offset file
    | Failed :: _ => (false, file)
    | Transferred n :: outs =>
        if (n =? 0)%nat then (false, file)
        else pwrite_all outs (drop n buf) (offset + n) (pwrite offset (take n buf) file)
    end.

Fixpoint pread_exact (outs : list io_out) (len offset : nat) (file : list Z) : option (list Z) :=
  if (len =? 0)%nat then Some []
  else
    match outs with
    | [] => let got := take len (drop offset file) in if (length got <? len)%nat then None else Some got
    | Interrupted :: outs => pread_exact outs len offset file
    | Failed :: _ => None
    | Transferred n :: outs =>
        let got := take (Nat.min n len) (drop offset file) in
        if (length got =? 0)%nat then None
        else rest ← pread_exact outs (len - length got) (offset + length got) file; Some (got ++ rest)
    end.

(** ** The remote source of pages *)

Record HttpEndpoint : Type := mkEndpoint { host : list Z; host_header : list Z; port : Z; ep_path : list Z }.

Fixpoint strip_slashes (s : list Z) : list Z :=
  match s with
  | b :: s' => if b =? 47 then strip_slashes s' else s
  | [] => []
  end.
(** [trim_matches('/')]. *)
Definition trim_slashes (s : list Z) : list Z := rev (strip_slashes (rev (strip_slashes s))).

(** [str::parse::<u16>]: digits, with an optional plus sign. *)
Definition parse_port (s : list Z) : result PagerError Z :=
  let s := default s (strip_prefix [43] s) in
  if (length s =? 0)%nat || negb (forallb is_ascii_digit s) then Err BadPort
  else
    n <-? map_err (fun _ => BadPort) (parse_u64 s 0) ;
    if n <=? 65535 then Ok n else Err BadPort.

Definition parse_authority (authority : list Z) : result PagerError (list Z * Z * list Z) :=
  match strip_prefix [91] authority with
  | Some rest =>
      '(host, tail) <-? ok_or (split_once 93 rest) UnterminatedV6 ;
      port <-? match strip_prefix [58] tail with
               | Some port => parse_port port
               | None => if (length tail =? 0)%nat then Ok 80 else Err BadV6Authority
               end ;
      Ok (host, port, authority)
  | None =>
      match split_last 58 authority with
      | Some (host, port) =>
          if negb (length host =? 0)%nat && forallb is_ascii_digit port
          then p <-? parse_port port ; Ok (host, p, authority)
          else Ok (authority, 80, authority)
      | None => Ok (authority, 80, authority)
      end
  end.

Definition parse_http_endpoint (url : list Z) : result PagerError HttpEndpoint :=
  rest <-? ok_or (strip_prefix (bs "http://") url) NotHttp ;
  let '(authority, raw_path) := default (rest, []) (split_once 47 rest) in
  if (length authority =? 0)%nat then Err NoHost
  else
    '(host, port, host_header) <-? parse_authority authority ;
    let trimmed_path := trim_slashes raw_path in
    let path := if (length trimmed_path =? 0)%nat then [] else 47 :: trimmed_path in
    Ok (mkEndpoint host host_header port path).

Definition page_request (e : HttpEndpoint) (token : list Z) (page : nat) : list Z :=
  bs "GET " ++ (ep_path e ++ 47 :: decimal (Z.of_nat page)) ++ bs " HTTP/1.1" ++ CRLF ++
  bs "Host: " ++ host_header e ++ CRLF ++ bs "Authorization: Bearer " ++ token ++ CRLF ++
  bs "X-Vmon-Mesh-Hop: 1" ++ CRLF ++ bs "Connection: close" ++ CRLF ++ CRLF.

(** The first [\r\n\r\n]: what is before and what is after it. *)
Fixpoint split_header (s : list Z) : option (list Z * list Z) :=
  if bool_decide (take 4 s = CRLF ++ CRLF) then Some ([], drop 4 s)
  else match s with
       | [] => None
       | b :: s' => '(l, r) ← split_header s'; Some (b :: l, r)
       end.

Fixpoint contains_text (t s : list Z) : bool :=
  bool_decide (take (length t) s = t) || match s with [] => false | _ :: s' => contains_text t s' end.

(** The first of [str::lines]. *)
Definition first_line (s : list Z) : list Z :=
  match split_line s with Some (l, _) => strip_cr l | None => s end.

(** [exchange]: what the peer sends until it closes the connection, if nothing fails. *)
Definition fetch_page (exchange : option (list Z)) : result PagerError (list Z) :=
  response <-? ok_or exchange Transport ;
  '(head, body) <-? ok_or (split_header response) NoHeaderEnd ;
  if negb (utf8_valid head) then Err HeaderNotUtf8
  else if negb (contains_text (bs " 200 ") (first_line head)) then Err BadStatus
  else if negb (length body =? PAGE_SIZE)%nat then Err BodyLength
  else Ok body.

(** ** Bit sets *)

Definition bit_of (idx : nat) : Z := Z.shiftl 1 (Z.of_nat (idx mod 64)).
Definition bit_is_set (bits : list Z) (idx : nat) : bool :=
  negb (Z.land (default 0 (bits !! (idx / 64)%nat)) (bit_of idx) =? 0).
Definition set_bit (idx : nat) (bits : list Z) : list Z :=
  alter (fun w => Z.lor w (bit_of idx)) (idx / 64)%nat bits.
Definition clear_bit (idx : nat) (bits : list Z) : list Z :=
  alter (fun w => Z.land w (Z.lxor (Z.ones 64) (bit_of idx))) (idx / 64)%nat bits.

(** ** Regions *)

Record PagerRegion : Type := mkRegion { base : Z; gpa : Z; len : nat; foff : Z; page_start : nat }.

(** A region of guest memory: [gr_file] is the offset in its file, and whether the descriptor
    can be cloned. *)
Record GuestRegion : Type := mkGuest { gr_ptr : Z; gr_gpa : Z; gr_len : nat; gr_file : option (Z * bool) }.

Fixpoint collect_regions (mem : list GuestRegion) (total_pages : nat) : result PagerError (list PagerRegion * nat) :=
  match mem with
  | [] => if (total_pages =? 0)%nat then Err NoPages else Ok ([], total_pages)
  | r :: mem =>
      if (gr_len r =? 0)%nat then Err EmptyRegion
      else if negb (gr_len r mod PAGE_SIZE =? 0)%nat then Err UnalignedRegion
      else
        '(foff, cloned) <-? ok_or (gr_file r) NotFileBacked ;
        if negb cloned then Err CloneFailed
        else if 2 ^ 64 <=? Z.of_nat (total_pages + gr_len r / PAGE_SIZE) then Err PageCountOverflow
        else
          '(rest, total) <-? collect_regions mem (total_pages + gr_len r / PAGE_SIZE)%nat ;
          Ok (mkRegion (gr_ptr r) (gr_gpa r) (gr_len r) foff total_pages :: rest, total)
  end.

Fixpoint page_index_for_va (regions : list PagerRegion) (page_va : Z) : option nat :=
  match regions with
  | [] => None
  | r :: regions =>
      end_ ← checked_add 64 (base r) (Z.of_nat (len r));
      if (base r <=? page_va) && (page_va <? end_)
      then Some (page_start r + Z.to_nat (page_va - base r) / PAGE_SIZE)%nat
      else page_index_for_va regions page_va
  end.

Fixpoint region_for_page (regions : list PagerRegion) (idx : nat) : option (PagerRegion * nat) :=
  match regions with
  | [] => None
  | r :: regions =>
      let pages := (len r / PAGE_SIZE)%nat in
      if (page_start r <=? idx)%nat && (idx <? page_start r + pages)%nat
      then Some (r, idx - page_start r)%nat
      else region_for_page regions idx
  end.

(** [region.base.add(page_in_region * PAGE_SIZE)]. *)
Definition page_addr (r : PagerRegion) (page_in_region : nat) : Z := base r + Z.of_nat (page_in_region * PAGE_SIZE).

(** ** The pager *)

Record PagerConfig : Type := mkConfig {
  regions : list PagerRegion; total_pages : nat; target_pages : nat; store_max_bytes : Z;
  remote_source : bool; fatal : bool }.

(** [mapped]: the pages of guest memory that are there, by their address; an access to another
    one is a fault.  [stopping]: the state of the gate that [PagerFatal] sets. *)
Record Pager : Type := mkPager {
  swap : SwapAlloc; shards : list (gmap nat Loc); evicted : list Z; referenced : list Z;
  resident_pages : Z; store_bytes : Z; clock_hand : nat; registered : bool; disabled : bool;
  stopping : bool; mapped : gmap Z (list Z) }.

Definition set_swap (x : SwapAlloc) (p : Pager) : Pager :=
  mkPager x (shards p) (evicted p) (referenced p) (resident_pages p) (store_bytes p) (clock_hand p) (registered p) (disabled p) (stopping p) (mapped p).
Definition set_shards (x : list (gmap nat Loc)) (p : Pager) : Pager :=
  mkPager (swap p) x (evicted p) (referenced p) (resident_pages p) (store_bytes p) (clock_hand p) (registered p) (disabled p) (stopping p) (mapped p).
Definition set_evicted (x : list Z) (p : Pager) : Pager :=
  mkPager (swap p) (shards p) x (referenced p) (resident_pages p) (store_bytes p) (clock_hand p) (registered p) (disabled p) (stopping p) (mapped p).
Definition set_referenced (x : list Z) (p : Pager) : Pager :=
  mkPager (swap p) (shards p) (evicted p) x (resident_pages p) (store_bytes p) (clock_hand p) (registered p) (disabled p) (stopping p) (mapped p).
Definition set_resident (x : Z) (p : Pager) : Pager :=
  mkPager (swap p) (shards p) (evicted p) (referenced p) x (store_bytes p) (clock_hand p) (registered p) (disabled p) (stopping p) (mapped p).
Definition set_store_bytes (x : Z) (p : Pager) : Pager :=
  mkPager (swap p) (shards p) (evicted p) (referenced p) (resident_pages p) x (clock_hand p) (registered p) (disabled p) (stopping p) (mapped p).
Definition set_clock_hand (x : nat) (p : Pager) : Pager :=
  mkPager (swap p) (shards p) (evicted p) (referenced p) (resident_pages p) (store_bytes p) x (registered p) (disabled p) (stopping p) (mapped p).
Definition set_registered (p : Pager) : Pager :=
  mkPager (swap p) (shards p) (evicted p) (referenced p) (resident_pages p) (store_bytes p) (clock_hand p) true (disabled p) (stopping p) (mapped p).
Definition disable_once (p : Pager) : Pager :=
  mkPager (swap p) (shards p) (evicted p) (referenced p) (resident_pages p) (store_bytes p) (clock_hand p) (registered p) true (stopping p) (mapped p).
Definition set_stopping (p : Pager) : Pager :=
  mkPager (swap p) (shards p) (evicted p) (referenced p) (resident_pages p) (store_bytes p) (clock_hand p) (registered p) (disabled p) true (mapped p).
Definition set_mapped (x : gmap Z (list Z)) (p : Pager) : Pager :=
  mkPager (swap p) (shards p) (evicted p) (referenced p) (resident_pages p) (store_bytes p) (clock_hand p) (registered p) (disabled p) (stopping p) x.

(** [fetch_add], [fetch_sub] on a [usize]. *)
Definition add_resident (p : Pager) : Pager := set_resident (wrap 64 (resident_pages p + 1)) p.
Definition sub_resident (p : Pager) : Pager := set_resident (wrap 64 (resident_pages p - 1)) p.
Definition add_store (n : nat) (p : Pager) : Pager := set_store_bytes (wrap 64 (store_bytes p + Z.of_nat n)) p.
Definition sub_store (n : nat) (p : Pager) : Pager := set_store_bytes (wrap 64 (store_bytes p - Z.of_nat n)) p.

Definition shard_get (idx : nat) (p : Pager) : option Loc := shards p !! (idx mod SHARDS)%nat ≫= lookup idx.
Definition shard_insert (idx : nat) (l : Loc) (p : Pager) : Pager :=
  set_shards (alter (insert idx l) (idx mod SHARDS)%nat (shards p)) p.
Definition shard_remove (idx : nat) (p : Pager) : Pager :=
  set_shards (alter (delete idx) (idx mod SHARDS)%nat (shards p)) p.

(** [UFFDIO_COPY] does not replace a page that is there. *)
Definition uffd_copy (ok : bool) (va : Z) (page : list Z) (p : Pager) : bool * Pager :=
  match mapped p !! va with
  | Some _ => (false, p)
  | None => if ok then (true, set_mapped (<[va := page]> (mapped p)) p) else (false, p)
  end.

(** ** Creation *)

Definition new_pager (cfg : PagerConfig) (resident : nat) (eventfd : bool) (mem : gmap Z (list Z))
  : result PagerError Pager :=
  if 2 ^ 32 <=? Z.of_nat (total_pages cfg) then Err TooManyPages
  else if negb eventfd then Err EventFd
  else
    let words := Z.to_nat (div_ceil (Z.of_nat (total_pages cfg)) 64) in
    Ok (mkPager (mkSwap 0 [] (total_pages cfg) []) (replicate SHARDS ∅) (replicate words 0) (replicate words 0)
         (Z.of_nat resident) 0 0 false false false mem).

Definition register_all_missing (ok : bool) (p : Pager) : result PagerError unit * Pager :=
  if registered p then (Ok tt, p) else if ok then (Ok tt, set_registered p) else (Err RegisterFailed, p).

Definition seed_remote_pages (cfg : PagerConfig) (p : Pager) : Pager :=
  foldl (fun p idx => set_evicted (set_bit idx (evicted p)) (shard_insert idx (Remote idx) p)) p (seq 0 (total_pages cfg)).

(** [Pager::new]. *)
Definition new_zram (mem : list GuestRegion) (target store_max : nat) (eventfd : bool) (content : gmap Z (list Z))
  : result PagerError (PagerConfig * Pager) :=
  '(regions, total) <-? collect_regions mem 0 ;
  let cfg := mkConfig regions total target (Z.of_nat store_max) false false in
  p <-? new_pager cfg total eventfd content ;
  Ok (cfg, p).

(** [Pager::new_remote]. *)
Definition new_remote (mem : list GuestRegion) (eventfd reg_ok : bool) (content : gmap Z (list Z))
  : result PagerError (PagerConfig * Pager) :=
  '(regions, total) <-? collect_regions mem 0 ;
  let cfg := mkConfig regions total total 0 true true in
  p <-? new_pager cfg 0 eventfd content ;
  let '(r, p) := register_all_missing reg_ok (seed_remote_pages cfg p) in
  _ <-? r ;
  Ok (cfg, p).

(** ** Where a page is kept *)

Definition try_reserve_store (cfg : PagerConfig) (n : nat) (p : Pager) : option Pager :=
  next ← checked_add 64 (store_bytes p) (Z.of_nat n);
  if next <=? store_max_bytes cfg then Some (set_store_bytes next p) else None.

Definition place_encoded (cfg : PagerConfig) (outs : list io_out) (buf : list Z) (p : Pager) : Loc * Pager :=
  match try_reserve_store cfg (length buf) p with
  | Some p => (Ram buf, p)
  | None =>
      match SwapAlloc.alloc (swap p) with
      | (Some slot, sw) =>
          let '(ok, file) := pwrite_all outs buf (swap_offset slot) (sw_file sw) in
          let sw := mkSwap (sw_next sw) (sw_free sw) (sw_cap sw) file in
          if ok then (Swap slot (length buf), set_swap sw p)
          else (Ram buf, add_store (length buf) (set_swap (SwapAlloc.free slot sw) p))
      | (None, sw) => (Ram buf, add_store (length buf) (set_swap sw p))
      end
  end.

Definition release_loc (l : Loc) (p : Pager) : Pager :=
  match l with
  | Zero | Remote _ => p
  | Ram buf => sub_store (length buf) p
  | Swap slot _ => set_swap (SwapAlloc.free slot (swap p)) p
  end.

(** ** The handler of faults *)

(** Where [serve] is: before the copy of a zero page ([counted]: the page was marked as evicted), before the
    copy of a page that was taken out of its shard, after a fatal error, and after a copy. *)
Inductive Handler : Type :=
  | HIdle
  | HZeroFill (va : Z) (idx : nat) (counted : bool)
  | HCopy (va : Z) (idx : nat) (l : Loc)
  | HFatal (va : Z)
  | HRelease (idx : nat) (l : Loc)
  | HClear (idx : nat)
  | HReference (idx : nat) (counted : bool)
  | HCount.

(** [serve] up to the end of its lock. *)
Definition serve_begin (cfg : PagerConfig) (addr : Z) (p : Pager) : Handler * Pager :=
  let page_va := Z.land addr (Z.lnot 4095) in
  match page_index_for_va (regions cfg) page_va with
  | None => (HIdle, disable_once p)
  | Some idx =>
      if negb (bit_is_set (evicted p) idx) then (HZeroFill page_va idx false, p)
      else
        match shard_get idx p with
        | None => (HZeroFill page_va idx true, disable_once p)
        | Some l => (HCopy page_va idx l, shard_remove idx p)
        end
  end.

Section serve.
Context `{Deflate}.

(** What the handler copies, if not a zero page: the outcomes of the reads of the swap file and of
    the exchange with the remote source are given. *)
Definition load_loc (cfg : PagerConfig) (reads : list io_out) (exchange : option (list Z)) (l : Loc) (p : Pager)
  : result PagerError (list Z) * Pager :=
  match l with
  | Zero => (Ok ZERO_PAGE, p)
  | Ram buf =>
      match decode buf with
      | Ok page => (Ok page, p)
      | Err _ => (Ok ZERO_PAGE, disable_once p)
      end
  | Swap slot n =>
      match pread_exact reads n (swap_offset slot) (sw_file (swap p)) with
      | None => (Ok ZERO_PAGE, disable_once p)
      | Some sbuf =>
          match decode sbuf with
          | Ok page => (Ok page, p)
          | Err _ => (Ok ZERO_PAGE, disable_once p)
          end
      end
  | Remote _ => if remote_source cfg then (fetch_page exchange, p) else (Err Transport, p)
  end.

(** One further step of [serve]. *)
Definition serve_next (cfg : PagerConfig) (copied : bool) (reads : list io_out) (exchange : option (list Z))
    (h : Handler) (p : Pager) : Handler * Pager :=
  match h with
  | HIdle => (HIdle, p)
  | HZeroFill va idx counted =>
      match uffd_copy copied va ZERO_PAGE p with
      | (false, p) => (HIdle, disable_once p)
      | (true, p) => (if counted then HClear idx else HReference idx false, p)
      end
  | HCopy va idx l =>
      match load_loc cfg reads exchange l p with
      | (Err _, p) => (HFatal va, (if fatal cfg then set_stopping else id) (disable_once p))
      | (Ok page, p) =>
          match uffd_copy copied va page p with
          | (false, p) => (HIdle, disable_once (shard_insert idx l p))
          | (true, p) => (HRelease idx l, p)
          end
      end
  | HFatal va =>
      match uffd_copy copied va ZERO_PAGE p with
      | (false, p) => (HIdle, disable_once p)
      | (true, p) => (HIdle, p)
      end
  | HRelease idx l => (HClear idx, release_loc l p)
  | HClear idx => (HReference idx true, set_evicted (clear_bit idx (evicted p)) p)
  | HReference idx counted =>
      (if counted then HCount else HIdle, set_referenced (set_bit idx (referenced p)) p)
  | HCount => (HIdle, add_resident p)
  end.
End serve.

(** ** The sweeper *)

Definition over_target (cfg : PagerConfig) (p : Pager) : bool :=
  negb (disabled p) && (Z.of_nat (target_pages cfg) <? resident_pages p).

(** The loop of [next_victim] over the steps [k] that are left. *)
Fixpoint victim_loop (total start : nat) (k : nat) (first_resident : option nat) (p : Pager) : option nat * Pager :=
  match k with
  | O =>
      match first_resident with
      | Some idx => (Some idx, set_clock_hand ((idx + 1) mod total)%nat p)
      | None => (None, p)
      end
  | S k =>
      let idx := ((start + (total - S k)) mod total)%nat in
      if bit_is_set (evicted p) idx then victim_loop total start k first_resident p
      else
        let first_resident := match first_resident with None => Some idx | Some _ => first_resident end in
        if bit_is_set (referenced p) idx
        then victim_loop total start k first_resident (set_referenced (clear_bit idx (referenced p)) p)
        else (Some idx, set_clock_hand ((idx + 1) mod total)%nat p)
  end.

Definition next_victim (cfg : PagerConfig) (p : Pager) : option nat * Pager :=
  if (total_pages cfg =? 0)%nat then (None, p)
  else victim_loop (total_pages cfg) (clock_hand p mod total_pages cfg)%nat (total_pages cfg) None p.

(** Where [evict_to_target] is: at the head of its loop, before it reads a page, and with the
    encoded page in front of the lock. *)
Inductive Sweeper : Type :=
  | SIdle
  | SLoop (budget : nat)
  | SRead (budget idx : nat)
  | SPlace (budget idx : nat) (encoded : option (list Z)).

Definition sweep_begin (reg_ok : bool) (p : Pager) : Sweeper * Pager :=
  if disabled p then (SIdle, p)
  else
    match register_all_missing reg_ok p with
    | (Err _, p) => (SIdle, disable_once p)
    | (Ok _, p) => (SLoop MAX_EVICT_PER_SWEEP, p)
    end.

(** [evict_page] returned. *)
Definition evict_returned (budget : nat) (p : Pager) : Sweeper * Pager :=
  (if disabled p then SIdle else SLoop (budget - 1), p).

(** [evict_page] under its lock.  [punched], [dropped]: whether [fallocate] and [madvise] work. *)
Definition evict_locked (cfg : PagerConfig) (outs : list io_out) (punched dropped : bool) (idx : nat)
    (r : PagerRegion) (page_in_region : nat) (encoded : option (list Z)) (p : Pager) : Pager :=
  if bit_is_set (evicted p) idx then p
  else
    let '(l, p) := match encoded with None => (Zero, p) | Some buf => place_encoded cfg outs buf p end in
    let p := shard_insert idx l p in
    let p := set_evicted (set_bit idx (evicted p)) p in
    let p := set_referenced (clear_bit idx (referenced p)) p in
    if negb punched then
      let p := set_evicted (clear_bit idx (evicted p)) (shard_remove idx p) in
      disable_once (release_loc l p)
    else
      let p := set_mapped (delete (page_addr r page_in_region) (mapped p)) p in
      sub_resident (if dropped then p else disable_once p).

Section sweep.
Context `{Deflate}.

(** One further step of [evict_to_target]; a read of a page that is not there waits. *)
Definition sweep_next (cfg : PagerConfig) (outs : list io_out) (punched dropped : bool) (w : Sweeper) (p : Pager)
  : Sweeper * Pager :=
  match w with
  | SIdle => (SIdle, p)
  | SLoop budget =>
      if (Z.of_nat (target_pages cfg) <? resident_pages p) && (0 <? budget)%nat then
        match next_victim cfg p with
        | (None, p) => (SIdle, p)
        | (Some idx, p) => (SRead budget idx, p)
        end
      else (SIdle, p)
  | SRead budget idx =>
      if bit_is_set (evicted p) idx then evict_returned budget p
      else
        match region_for_page (regions cfg) idx with
        | None => evict_returned budget (disable_once p)
        | Some (r, page_in_region) =>
            match mapped p !! page_addr r page_in_region with
            | None => (w, p)
            | Some page => (SPlace budget idx (encode page), p)
            end
        end
  | SPlace budget idx encoded =>
      match region_for_page (regions cfg) idx with
      | None => (SIdle, p)
      | Some (r, page_in_region) =>
          evict_returned budget (evict_locked cfg outs punched dropped idx r page_in_region encoded p)
      end
  end.
End sweep.
