(* ===== verification/PagerInvariant.v ===== *)
(** Helper facts about the pager, and the invariant of its two threads. *)

From S2P Require Import Prelude Decimal RedisWire RedisClient Pager.

#[local] Arguments Nat.ltb : simpl never.
#[local] Arguments Nat.leb : simpl never.
#[local] Arguments Nat.div : simpl never.
#[local] Arguments Nat.modulo : simpl never.
#[local] Arguments Nat.add : simpl never.
#[local] Arguments Nat.sub : simpl never.

(** ** Pages and blobs *)

Section codec.
Context `{Deflate}.

Lemma forallb_zero p : forallb (fun b => b =? 0) p = true -> p = replicate (length p) 0.
Proof.
  induction p as [|b p IH]; [done|]. cbn. intros [->%Z.eqb_eq Hp]%andb_true_iff. by rewrite <- IH.
Qed.

Lemma encode_none page : length page = PAGE_SIZE -> encode page = None -> page = ZERO_PAGE.
Proof.
  unfold encode, ZERO_PAGE. intros <-. case_match eqn:Hz; [by intros _; apply forallb_zero|]. by case_match.
Qed.

(** What [encode] writes, [decode] reads, and it fits a slot of the swap file. *)
Lemma decode_encode page buf :
  length page = PAGE_SIZE -> encode page = Some buf -> decode buf = Ok page /\ (length buf <= SWAP_SLOT_SIZE)%nat.
Proof.
  unfold encode, SWAP_SLOT_SIZE. intros Hl. destruct (forallb _ page); [done|]. cbn zeta.
  case_match eqn:Hc; intros [= <-]; cbn [decode].
  - apply Nat.ltb_lt in Hc. cbn [Z.eqb Pos.eqb]. rewrite inflate_deflate by lia. cbn [ok_or result_bind].
    rewrite Hl, Nat.eqb_refl. cbn [negb length]. split; [done|lia].
  - cbn [Z.eqb Pos.eqb]. rewrite Hl, Nat.eqb_refl. cbn [negb length]. split; [done|lia].
Qed.

Lemma decode_length buf page : decode buf = Ok page -> length page = PAGE_SIZE.
Proof.
  destruct buf as [|tag payload]; [done|]. cbn [decode]. case_match; [|case_match; [|done]].
  - destruct (length payload =? PAGE_SIZE)%nat eqn:E; [|done]. intros [= <-]. by apply Nat.eqb_eq.
  - destruct (decompress_to_vec_with_limit _ _) as [d|]; [|done]. cbn [ok_or result_bind].
    destruct (length d =? PAGE_SIZE)%nat eqn:E; [|done]. intros [= <-]. by apply Nat.eqb_eq.
Qed.
End codec.

(** ** The swap file *)

Lemma pwrite_lookup_in o d f i :
  (o <= i < o + length d)%nat -> pwrite o d f !! i = d !! (i - o)%nat.
Proof.
  intros Hi. unfold pwrite. rewrite app_assoc, lookup_app_r by (rewrite length_app, length_take, length_replicate; lia).
  rewrite length_app, length_take, length_replicate, lookup_app_l by lia. f_equal. lia.
Qed.

Lemma pwrite_lookup_out o d f i x :
  (i < o \/ o + length d <= i)%nat -> f !! i = Some x -> pwrite o d f !! i = Some x.
Proof.
  intros Hi Hx. pose proof (lookup_lt_Some _ _ _ Hx). unfold pwrite. destruct Hi as [Hi|Hi].
  - rewrite lookup_app_l by (rewrite length_take; lia). by rewrite lookup_take_lt.
  - rewrite app_assoc, lookup_app_r by (rewrite length_app, length_take, length_replicate; lia).
    rewrite length_app, length_take, length_replicate, lookup_app_r by lia.
    rewrite lookup_drop. rewrite <- Hx. f_equal. lia.
Qed.

(** A range of a file that is there. *)
Definition has_range (o : nat) (d f : list Z) : Prop := forall i x, d !! i = Some x -> f !! (o + i)%nat = Some x.

Lemma has_range_take o d f : has_range o d f -> take (length d) (drop o f) = d.
Proof.
  intros Hd. apply list_eq. intros i. destruct (decide (i < length d)%nat) as [Hi|Hi].
  - rewrite lookup_take_lt, lookup_drop by done. destruct (lookup_lt_is_Some_2 d i Hi) as [x Hx]. by rewrite Hx, (Hd i x Hx).
  - rewrite lookup_take_ge by lia. symmetry. apply lookup_ge_None. lia.
Qed.

Lemma take_has_range o n f : (length (take n (drop o f)) = n)%nat -> has_range o (take n (drop o f)) f.
Proof.
  intros _ i x [Hx Hi]%lookup_take_Some. by rewrite lookup_drop in Hx.
Qed.

Lemma pwrite_all_outside outs buf o f i x :
  (i < o \/ o + length buf <= i)%nat -> f !! i = Some x -> snd (pwrite_all outs buf o f) !! i = Some x.
Proof.
  revert buf o f. induction outs as [|[n| |] outs IH]; intros buf o f Hi Hx; cbn [pwrite_all];
    destruct (length buf =? 0)%nat; cbn [snd]; try done.
  - by apply pwrite_lookup_out.
  - destruct (n =? 0)%nat; [done|]. apply IH; [rewrite length_drop; lia|]. apply pwrite_lookup_out; [rewrite length_take; lia|done].
  - by apply IH.
Qed.

Lemma pwrite_all_written outs buf o f : fst (pwrite_all outs buf o f) = true -> has_range o buf (snd (pwrite_all outs buf o f)).
Proof.
  revert buf o f. induction outs as [|[n| |] outs IH]; intros buf o f; cbn [pwrite_all];
    destruct (length buf =? 0)%nat eqn:E; cbn [fst snd]; try done;
    try (apply Nat.eqb_eq in E; destruct buf; [|done]; by intros _ i x Hx).
  - intros _ i x Hx. pose proof (lookup_lt_Some _ _ _ Hx). rewrite pwrite_lookup_in by lia. rewrite <- Hx. f_equal. lia.
  - destruct (n =? 0)%nat; [done|]. intros Hok i x Hx. pose proof (lookup_lt_Some _ _ _ Hx). destruct (decide (i < n)%nat) as [Hi|Hi].
    + apply pwrite_all_outside; [left; lia|]. rewrite pwrite_lookup_in by (rewrite length_take; lia).
      rewrite lookup_take_lt by lia. rewrite <- Hx. f_equal. lia.
    + specialize (IH _ _ _ Hok (i - n)%nat x). rewrite lookup_drop in IH.
      replace (o + n + (i - n))%nat with (o + i)%nat in IH by lia. apply IH. rewrite <- Hx. f_equal. lia.
  - by apply IH.
Qed.

Lemma take_own_length {A} n (l : list A) : take n l = take (length (take n l)) l.
Proof. revert n. induction l as [|x l IH]; intros [|n]; cbn; [done..|]. by rewrite <- IH. Qed.

(** Whatever the kernel hands out per call, a read that ends well is the range asked for. *)
Lemma pread_exact_range outs n o f b : pread_exact outs n o f = Some b -> b = take n (drop o f) /\ length b = n.
Proof.
  revert n o b. induction outs as [|[k| |] outs IH]; intros n o b; cbn [pread_exact];
    destruct (Nat.eqb_spec n 0) as [->|Hn]; cbn zeta; try (by intros [= <-]).
  - case_match eqn:E; [done|]. intros [= <-]. apply Nat.ltb_ge in E. split; [done|]. rewrite length_take in *. lia.
  - destruct (Nat.eqb_spec (length (take (Nat.min k n) (drop o f))) 0) as [|Hg]; [done|].
    destruct (pread_exact _ _ _ _) as [rest|] eqn:Hr; [|done]. cbn. intros [= <-]. apply IH in Hr as [Hr Hl].
    set (got := take (Nat.min k n) (drop o f)) in *.
    assert (Hle : (length got <= n)%nat) by (unfold got; rewrite length_take; lia).
    split; [|rewrite length_app; lia]. rewrite Hr, <- drop_drop.
    assert (Hg' : got = take (length got) (drop o f)) by apply take_own_length.
    rewrite Hg' at 1. rewrite take_take_drop. f_equal. lia.
  - by apply IH.
Qed.

(** Slots do not overlap. *)
Lemma pager_slots_apart a b n m :
  a <> b -> (n <= SWAP_SLOT_SIZE)%nat -> (m <= SWAP_SLOT_SIZE)%nat ->
  (swap_offset a + n <= swap_offset b \/ swap_offset b + m <= swap_offset a)%nat.
Proof. unfold swap_offset. nia. Qed.

(** ** Bit sets *)

Lemma pager_land_bit w n : 0 <= n -> (Z.land w (Z.shiftl 1 n) =? 0) = negb (Z.testbit w n).
Proof.
  intros Hn. apply eq_true_iff_eq. rewrite Z.eqb_eq, negb_true_iff. rewrite Z.shiftl_1_l. split.
  - intros He. assert (Z.testbit (Z.land w (2 ^ n)) n = false) as Ht by (by rewrite He, Z.bits_0).
    by rewrite Z.land_spec, Z.pow2_bits_true, andb_true_r in Ht.
  - intros Ht. apply Z.bits_inj'. intros m Hm. rewrite Z.land_spec, Z.bits_0, Z.pow2_bits_eqb by done.
    destruct (Z.eqb_spec n m) as [->|]; [by rewrite Ht|by rewrite andb_false_r].
Qed.

Lemma bit_is_set_testbit bits i :
  bit_is_set bits i = Z.testbit (default 0 (bits !! (i / 64)%nat)) (Z.of_nat (i mod 64)).
Proof. unfold bit_is_set, bit_of. rewrite pager_land_bit by lia. by rewrite negb_involutive. Qed.

Lemma same_word i j : (i / 64 = j / 64)%nat -> Z.of_nat (i mod 64) = Z.of_nat (j mod 64) -> i = j.
Proof. intros Hd Hm. rewrite (Nat.div_mod_eq i 64), (Nat.div_mod_eq j 64). lia. Qed.

Lemma set_bit_spec bits i j :
  (i / 64 < length bits)%nat -> bit_is_set (set_bit i bits) j = bool_decide (i = j) || bit_is_set bits j.
Proof.
  intros Hi. rewrite !bit_is_set_testbit. unfold set_bit. destruct (decide (i / 64 = j / 64)%nat) as [He|Hne].
  - rewrite <- He, list_lookup_alter_eq. destruct (lookup_lt_is_Some_2 _ _ Hi) as [w ->]. cbn [fmap option_fmap option_map from_option]. unfold id.
    unfold bit_of. rewrite Z.lor_spec, orb_comm, Z.shiftl_1_l, Z.pow2_bits_eqb by lia. f_equal.
    destruct (Z.eqb_spec (Z.of_nat (i mod 64)) (Z.of_nat (j mod 64))) as [Hm|Hm].
    + symmetry. apply bool_decide_eq_true. by apply same_word.
    + symmetry. apply bool_decide_eq_false. congruence.
  - rewrite list_lookup_alter_ne by done. by rewrite bool_decide_eq_false_2 by congruence.
Qed.

Lemma clear_bit_spec bits i j :
  bit_is_set (clear_bit i bits) j = negb (bool_decide (i = j)) && bit_is_set bits j.
Proof.
  rewrite !bit_is_set_testbit. unfold clear_bit. destruct (decide (i / 64 = j / 64)%nat) as [He|Hne].
  - rewrite <- He, list_lookup_alter_eq. destruct (bits !! (i / 64)%nat) as [w|]; cbn [fmap option_fmap option_map from_option]; unfold id; [|by rewrite Z.bits_0, andb_false_r].
    assert (Hj : 0 <= Z.of_nat (j mod 64) < 64) by (pose proof (Nat.mod_upper_bound j 64); lia).
    unfold bit_of. rewrite Z.land_spec, Z.lxor_spec, Z.ones_spec_low, Z.shiftl_1_l, Z.pow2_bits_eqb by lia.
    rewrite andb_comm. f_equal. rewrite xorb_true_l. f_equal.
    destruct (Z.eqb_spec (Z.of_nat (i mod 64)) (Z.of_nat (j mod 64))) as [Hm|Hm].
    + symmetry. apply bool_decide_eq_true. by apply same_word.
    + symmetry. apply bool_decide_eq_false. congruence.
  - rewrite list_lookup_alter_ne by done. by rewrite bool_decide_eq_false_2 by congruence.
Qed.

Lemma pager_length_set_bit i bits : length (set_bit i bits) = length bits.
Proof. apply length_alter. Qed.
Lemma length_clear_bit i bits : length (clear_bit i bits) = length bits.
Proof. apply length_alter. Qed.

(** ** Sums over the pages *)

Fixpoint nsum (f : nat -> nat) (n : nat) : nat :=
  match n with O => O | S n => nsum f n + f n end.

Lemma nsum_ext f g n : (forall i, (i < n)%nat -> f i = g i) -> nsum f n = nsum g n.
Proof. induction n as [|n IH]; intros Hfg; cbn; [done|]. rewrite IH by (intros; apply Hfg; lia). by rewrite (Hfg n) by lia. Qed.

Lemma nsum_update f g n i :
  (i < n)%nat -> (forall j, (j < n)%nat -> j <> i -> f j = g j) -> (nsum f n + g i = nsum g n + f i)%nat.
Proof.
  induction n as [|n IH]; intros Hi Hfg; [lia|]. cbn. destruct (decide (i = n)) as [->|Hne].
  - rewrite (nsum_ext f g n) by (intros j Hj; apply Hfg; lia). lia.
  - pose proof (Hfg n). rewrite (Hfg n) by lia. assert (nsum f n + g i = nsum g n + f i)%nat by (apply IH; [lia|intros; apply Hfg; lia]). lia.
Qed.

(** ** Regions *)

(** Regions follow each other in the numbering of pages, start at a page and lie apart in the
    address space. *)
Fixpoint regions_ok (start : nat) (rs : list PagerRegion) (total : nat) : Prop :=
  match rs with
  | [] => start = total
  | r :: rs =>
      page_start r = start /\ (len r mod PAGE_SIZE = 0)%nat /\ 0 <= base r /\ base r + Z.of_nat (len r) < 2 ^ 64 /\
      base r mod 4096 = 0 /\
      Forall (fun r' => base r + Z.of_nat (len r) <= base r' \/ base r' + Z.of_nat (len r') <= base r) rs /\
      regions_ok (start + len r / PAGE_SIZE) rs total
  end.

Definition page_va (rs : list PagerRegion) (idx : nat) : Z :=
  match region_for_page rs idx with Some (r, k) => page_addr r k | None => 0 end.

Lemma page_size_pos : (0 < PAGE_SIZE)%nat.
Proof. unfold PAGE_SIZE. lia. Qed.

(** The page of an index lies in a region of the list. *)
Lemma region_for_page_spec start rs total idx :
  regions_ok start rs total -> (start <= idx < total)%nat ->
  exists r k, region_for_page rs idx = Some (r, k) /\ r ∈ rs /\ (k < len r / PAGE_SIZE)%nat /\ idx = (page_start r + k)%nat.
Proof.
  revert start. induction rs as [|r rs IH]; cbn; intros start Hok Hi; [lia|].
  destruct Hok as (<- & Hlen & Hb & Hb' & Ha & Hf & Hok). destruct (Nat.leb_spec (page_start r) idx); [|lia].
  destruct (Nat.ltb_spec idx (page_start r + len r / PAGE_SIZE)); cbn.
  - exists r, (idx - page_start r)%nat. split; [done|]. split; [apply list_elem_of_here|]. lia.
  - destruct (IH _ Hok) as (r' & k & Hr & Hin & ?); [lia|]. exists r', k. split; [done|]. split; [by apply list_elem_of_further|done].
Qed.

Lemma page_addr_in r k : (k < len r / PAGE_SIZE)%nat -> base r <= page_addr r k < base r + Z.of_nat (len r).
Proof.
  intros Hk. unfold page_addr. pose proof page_size_pos.
  assert (k * PAGE_SIZE < len r)%nat by (pose proof (Nat.Div0.mul_div_le (len r) PAGE_SIZE); nia). lia.
Qed.

(** Indices and addresses of pages are inverse to each other. *)
Lemma page_index_page_va start rs total idx :
  regions_ok start rs total -> (start <= idx < total)%nat -> page_index_for_va rs (page_va rs idx) = Some idx.
Proof.
  intros Hok Hi. destruct (region_for_page_spec _ _ _ _ Hok Hi) as (r & k & Hr & Hin & Hk & He).
  unfold page_va. rewrite Hr. pose proof (page_addr_in r k Hk) as Hpa. clear Hr. revert start Hok Hi.
  induction rs as [|r0 rs IH]; intros start Hok Hi; [by apply not_elem_of_nil in Hin|].
  cbn in Hok |- *. destruct Hok as (Hs & Hlen & Hb & Hb' & Ha & Hf & Hok).
  rewrite (checked_add_fits 64) by done. cbn. apply elem_of_cons in Hin as [->|Hin].
  - rewrite (proj2 (Z.leb_le _ _)), (proj2 (Z.ltb_lt _ _)) by lia. cbn. f_equal. unfold page_addr.
    replace (Z.to_nat (base r0 + Z.of_nat (k * PAGE_SIZE) - base r0)) with (k * PAGE_SIZE)%nat by lia.
    rewrite Nat.div_mul by (pose proof page_size_pos; lia). done.
  - rewrite Forall_forall in Hf. specialize (Hf _ Hin).
    assert ((base r0 <=? page_addr r k) && (page_addr r k <? base r0 + Z.of_nat (len r0)) = false) as ->.
    { apply andb_false_iff. rewrite Z.leb_gt, Z.ltb_ge. lia. }
    destruct (decide (start + len r0 / PAGE_SIZE <= idx)%nat); [apply (IH Hin _ Hok); lia|]. exfalso.
    assert (forall s l t, regions_ok s l t -> r ∈ l -> (s <= page_start r)%nat) as Hmono.
    { clear. intros s l. revert s. induction l as [|x l IH]; intros s t; cbn; [by intros _ ?%not_elem_of_nil|].
      intros (<- & _ & _ & _ & _ & _ & Hok) [->|Hin]%elem_of_cons; [done|]. specialize (IH _ _ Hok Hin). lia. }
    specialize (Hmono _ _ _ Hok Hin). lia.
Qed.

Lemma page_va_inj rs total i j :
  regions_ok 0 rs total -> (i < total)%nat -> (j < total)%nat -> page_va rs i = page_va rs j -> i = j.
Proof.
  intros Hok Hi Hj He. apply (f_equal (page_index_for_va rs)) in He.
  rewrite !(page_index_page_va 0 rs total) in He by (done || lia). congruence.
Qed.

Lemma region_for_page_va rs total idx :
  regions_ok 0 rs total -> (idx < total)%nat ->
  exists r k, region_for_page rs idx = Some (r, k) /\ page_addr r k = page_va rs idx.
Proof.
  intros Hok Hi. destruct (region_for_page_spec 0 rs total idx) as (r & k & Hr & _); [done|lia|].
  exists r, k. unfold page_va. by rewrite Hr.
Qed.

(** The index found for the start of a page is the one whose page starts there. *)
Lemma page_va_page_index start rs total va idx :
  regions_ok start rs total -> va mod 4096 = 0 -> page_index_for_va rs va = Some idx ->
  (start <= idx < total)%nat /\ page_va rs idx = va.
Proof.
  revert start. induction rs as [|r rs IH]; intros start Hok Hva; cbn; [done|]. cbn in Hok.
  pose proof Hok as (<- & Hlen & Hb & Hb' & Ha & Hf & Hok').
  assert (Ht : (page_start r + len r / PAGE_SIZE <= total)%nat).
  { clear -Hok'. revert Hok'. generalize (page_start r + len r / PAGE_SIZE)%nat. induction rs as [|x rs IH]; cbn; [lia|].
    intros n (<- & _ & _ & _ & _ & _ & Hok). specialize (IH _ Hok). lia. }
  rewrite (checked_add_fits 64) by done. cbn. destruct (_ && _) eqn:E.
  - apply andb_true_iff in E as [Hlo%Z.leb_le Hhi%Z.ltb_lt]. intros [= <-].
    set (k := (Z.to_nat (va - base r) / PAGE_SIZE)%nat).
    assert (Hp : PAGE_SIZE = Z.to_nat 4096) by done.
    assert (Hk : Z.of_nat (k * PAGE_SIZE) = va - base r).
    { unfold k. rewrite Hp. rewrite Nat2Z.inj_mul, Nat2Z.inj_div, !Z2Nat.id by lia.
      assert ((va - base r) mod 4096 = 0) by (rewrite Zminus_mod, Hva, Ha; done). divlia. }
    assert (Hlt : (k < len r / PAGE_SIZE)%nat).
    { pose proof page_size_pos. apply Nat.Div0.div_lt_upper_bound. pose proof (Nat.div_mod_eq (len r) PAGE_SIZE). lia. }
    split; [lia|]. unfold page_va. cbn. rewrite (proj2 (Nat.leb_le _ _)), (proj2 (Nat.ltb_lt _ _)) by lia. cbn.
    unfold page_addr. replace (page_start r + k - page_start r)%nat with k by lia. lia.
  - intros Hx. destruct (IH _ Hok' Hva Hx) as [Hi Hv]. split; [lia|]. unfold page_va in *. cbn.
    destruct (Nat.ltb_spec idx (page_start r + len r / PAGE_SIZE)); [lia|]. by rewrite andb_false_r.
Qed.

(** ** Shards *)

Lemma length_shard_insert idx l p : length (shards (shard_insert idx l p)) = length (shards p).
Proof. apply length_alter. Qed.
Lemma length_shard_remove idx p : length (shards (shard_remove idx p)) = length (shards p).
Proof. apply length_alter. Qed.

Lemma shard_lt idx : (idx mod SHARDS < SHARDS)%nat.
Proof. apply Nat.mod_upper_bound. unfold SHARDS. lia. Qed.

Lemma shard_get_insert idx l p j :
  length (shards p) = SHARDS -> shard_get j (shard_insert idx l p) = if decide (idx = j) then Some l else shard_get j p.
Proof.
  intros Hl. unfold shard_get, shard_insert. cbn [shards set_shards]. destruct (decide (idx mod SHARDS = j mod SHARDS)%nat) as [He|Hne].
  - rewrite <- He, list_lookup_alter_eq. pose proof (shard_lt idx). destruct (lookup_lt_is_Some_2 (shards p) (idx mod SHARDS)%nat) as [m ->]; [lia|].
    cbn. destruct (decide (idx = j)) as [->|]; [by rewrite lookup_insert_eq|by rewrite lookup_insert_ne].
  - rewrite list_lookup_alter_ne by done. by rewrite decide_False by congruence.
Qed.

Lemma shard_get_remove idx p j :
  length (shards p) = SHARDS -> shard_get j (shard_remove idx p) = if decide (idx = j) then None else shard_get j p.
Proof.
  intros Hl. unfold shard_get, shard_remove. cbn [shards set_shards]. destruct (decide (idx mod SHARDS = j mod SHARDS)%nat) as [He|Hne].
  - rewrite <- He, list_lookup_alter_eq. pose proof (shard_lt idx). destruct (lookup_lt_is_Some_2 (shards p) (idx mod SHARDS)%nat) as [m ->]; [lia|].
    cbn. destruct (decide (idx = j)) as [->|]; [by rewrite lookup_delete_eq|by rewrite lookup_delete_ne].
  - rewrite list_lookup_alter_ne by done. by rewrite decide_False by congruence.
Qed.

(** ** The two threads *)

Record Sys : Type := mkSys { sy_pager : Pager; sy_handler : Handler; sy_sweeper : Sweeper }.

(** The place of a page, also while the handler has it. *)
Definition own (h : Handler) (p : Pager) (idx : nat) : option Loc :=
  match h with
  | HCopy _ i l | HRelease i l => if decide (i = idx) then Some l else shard_get idx p
  | _ => shard_get idx p
  end.

Definition inflight (h : Handler) (idx : nat) : option Loc :=
  match h with HCopy _ i l | HRelease i l => if decide (i = idx) then Some l else None | _ => None end.

Lemma own_inflight h p idx :
  own h p idx = match inflight h idx with Some l => Some l | None => shard_get idx p end.
Proof. destruct h; cbn; try done; by case_decide. Qed.

Definition ram_len (l : option Loc) : nat := match l with Some (Ram buf) => length buf | _ => 0%nat end.

(** Whether the page was already marked as there, but not counted yet. *)
Definition uncounted (h : Handler) : Z := match h with HReference _ true | HCount => 1 | _ => 0 end.

Definition residents (total : nat) (p : Pager) : nat :=
  nsum (fun i => (if bit_is_set (evicted p) i then 0 else 1)%nat) total.

Definition swap_room (sw : SwapAlloc) : Prop :=
  NoDup (sw_free sw) /\ Forall (fun s => s < sw_next sw)%nat (sw_free sw).

Section invariant.
Context `{Deflate}.
Context (cfg : PagerConfig) (source : nat -> list Z).
Hypothesis regions_fit : regions_ok 0 (regions cfg) (total_pages cfg).
Hypothesis fatal_remote : remote_source cfg = true -> fatal cfg = true.
Hypothesis small : Z.of_nat (total_pages cfg) < 2 ^ 32.

Abbreviation va := (page_va (regions cfg)).
Abbreviation ev p := (bit_is_set (evicted p)).

Definition loc_content (p : Pager) (l : Loc) : option (list Z) :=
  match l with
  | Zero => Some ZERO_PAGE
  | Ram buf => match decode buf with Ok page => Some page | Err _ => None end
  | Swap slot n =>
      buf ← pread_exact [] n (swap_offset slot) (sw_file (swap p));
      match decode buf with Ok page => Some page | Err _ => None end
  | Remote k => if remote_source cfg then Some (source k) else None
  end.

Definition page_ok (h : Handler) (p : Pager) (idx : nat) (content : list Z) : Prop :=
  match mapped p !! va idx with
  | Some page =>
      page = content /\ shard_get idx p = None /\ (ev p idx = true -> h = HClear idx \/ exists l, h = HRelease idx l)
  | None =>
      if ev p idx then exists l, own h p idx = Some l /\ loc_content p l = Some content
      else content = ZERO_PAGE /\ shard_get idx p = None
  end.

Definition handler_ok (h : Handler) (p : Pager) : Prop :=
  match h with
  | HIdle | HReference _ _ | HCount => True
  | HZeroFill v idx counted => counted = false /\ (idx < total_pages cfg)%nat /\ v = va idx /\ mapped p !! v = None /\ ev p idx = false
  | HCopy v idx _ => (idx < total_pages cfg)%nat /\ v = va idx /\ mapped p !! v = None /\ ev p idx = true /\ shard_get idx p = None
  | HFatal _ => False
  | HRelease idx _ | HClear idx =>
      (idx < total_pages cfg)%nat /\ is_Some (mapped p !! va idx) /\ ev p idx = true /\ shard_get idx p = None
  end.

Definition sweeper_ok (w : Sweeper) (p : Pager) : Prop :=
  match w with
  | SIdle => True
  | SLoop _ => registered p = true
  | SRead _ idx => registered p = true /\ (idx < total_pages cfg)%nat
  | SPlace _ idx encoded =>
      registered p = true /\ (idx < total_pages cfg)%nat /\ ev p idx = false /\
      exists page, mapped p !! va idx = Some page /\ encoded = encode page
  end.

Definition slots_ok (h : Handler) (p : Pager) : Prop :=
  swap_room (swap p) /\
  (forall i slot n, own h p i = Some (Swap slot n) -> (slot < sw_next (swap p))%nat /\ slot ∉ sw_free (swap p) /\ (n <= SWAP_SLOT_SIZE)%nat) /\
  (forall i j slot n m, own h p i = Some (Swap slot n) -> own h p j = Some (Swap slot m) -> i = j).

Record inv (m : list (list Z)) (s : Sys) : Prop := {
  i_shards : length (shards (sy_pager s)) = SHARDS;
  i_bits : (total_pages cfg <= 64 * length (evicted (sy_pager s)))%nat;
  i_mem : length m = total_pages cfg;
  i_size : Forall (fun page => length page = PAGE_SIZE) m;
  i_only : forall idx, (total_pages cfg <= idx)%nat -> shard_get idx (sy_pager s) = None;
  i_pages : forall idx page, m !! idx = Some page -> page_ok (sy_handler s) (sy_pager s) idx page;
  i_handler : handler_ok (sy_handler s) (sy_pager s);
  i_sweeper : sweeper_ok (sy_sweeper s) (sy_pager s);
  i_slots : slots_ok (sy_handler s) (sy_pager s);
  i_fresh : registered (sy_pager s) = false -> forall idx, (idx < total_pages cfg)%nat -> ev (sy_pager s) idx = false;
  i_store : store_bytes (sy_pager s) = wrap 64 (Z.of_nat (nsum (fun i => ram_len (own (sy_handler s) (sy_pager s) i)) (total_pages cfg)));
  i_resident : resident_pages (sy_pager s) = wrap 64 (Z.of_nat (residents (total_pages cfg) (sy_pager s)) - uncounted (sy_handler s)) }.

(** ** Steps *)

(** What a guest sees of its memory. *)
Inductive access : Type := Load (idx : nat) (page : list Z) | Store (idx : nat) (page : list Z) | Internal.

(** A thread of the guest is stopped as long as the sweeper is at work and once the VM is
    stopping.  A fault is reported for a page that is not there, or else, in memory that is not
    registered yet, the kernel fills the page.  Reads of the swap file end
    well, and what the remote source returns is the page asked for. *)
Inductive sys_step : access -> Sys -> Sys -> Prop :=
  | ss_load idx page p h :
      (idx < total_pages cfg)%nat -> stopping p = false -> mapped p !! va idx = Some page ->
      sys_step (Load idx page) (mkSys p h SIdle) (mkSys p h SIdle)
  | ss_store idx old page p h :
      (idx < total_pages cfg)%nat -> stopping p = false -> mapped p !! va idx = Some old -> length page = PAGE_SIZE ->
      sys_step (Store idx page) (mkSys p h SIdle) (mkSys (set_mapped (<[va idx := page]> (mapped p)) p) h SIdle)
  | ss_kernel_zero idx p h w :
      (idx < total_pages cfg)%nat -> registered p = false -> mapped p !! va idx = None ->
      (forall counted, h <> HZeroFill (va idx) idx counted) ->
      sys_step Internal (mkSys p h w) (mkSys (set_mapped (<[va idx := ZERO_PAGE]> (mapped p)) p) h w)
  | ss_fault addr p h p' w :
      mapped p !! Z.land addr (Z.lnot 4095) = None -> serve_begin cfg addr p = (h, p') ->
      sys_step Internal (mkSys p HIdle w) (mkSys p' h w)
  | ss_serve copied reads exchange h p h' p' w :
      (forall v idx slot n, h = HCopy v idx (Swap slot n) -> pread_exact reads n (swap_offset slot) (sw_file (swap p)) <> None) ->
      (forall v idx k page, h = HCopy v idx (Remote k) -> fetch_page exchange = Ok page -> page = source k) ->
      serve_next cfg copied reads exchange h p = (h', p') ->
      sys_step Internal (mkSys p h w) (mkSys p' h' w)
  | ss_sweep reg_ok p h w' p' :
      over_target cfg p = true -> sweep_begin reg_ok p = (w', p') ->
      sys_step Internal (mkSys p h SIdle) (mkSys p' h w')
  | ss_sweep_next outs punched dropped p h w w' p' :
      sweep_next cfg outs punched dropped w p = (w', p') ->
      sys_step Internal (mkSys p h w) (mkSys p' h w').

(** ** The parts of a step *)

Lemma pager_wrap_add x y : wrap 64 (wrap 64 x + y) = wrap 64 (x + y).
Proof. unfold wrap. by rewrite Z.add_mod_idemp_l. Qed.
Lemma pager_wrap_sub x y : wrap 64 (wrap 64 x - y) = wrap 64 (x - y).
Proof. unfold wrap. by rewrite Zminus_mod_idemp_l. Qed.

(** The rest of a pager may change. *)
Definition core (p : Pager) := (swap p, shards p, evicted p, (resident_pages p, store_bytes p, registered p, mapped p)).

Lemma inv_core m p p' h w w' : core p' = core p -> sweeper_ok w' p' -> inv m (mkSys p h w) -> inv m (mkSys p' h w').
Proof.
  destruct p, p'. unfold core. cbn. intros [= -> -> -> -> -> -> ->] Hw Hinv. destruct Hinv. by split.
Qed.

Lemma page_there m s idx : inv m s -> (idx < total_pages cfg)%nat -> exists page, m !! idx = Some page /\ length page = PAGE_SIZE.
Proof.
  intros Hinv Hi. destruct (lookup_lt_is_Some_2 m idx) as [page Hp]; [by rewrite (i_mem _ _ Hinv)|].
  exists page. split; [done|]. by apply (proj1 (Forall_lookup _ _) (i_size _ _ Hinv) idx).
Qed.

Lemma mem_bound m s idx page : inv m s -> m !! idx = Some page -> (idx < total_pages cfg)%nat.
Proof. intros Hinv Hp. rewrite <- (i_mem _ _ Hinv). by eapply lookup_lt_Some. Qed.

Lemma va_ne i j : (i < total_pages cfg)%nat -> (j < total_pages cfg)%nat -> i <> j -> va i <> va j.
Proof. intros Hi Hj Hne He. by apply Hne, (page_va_inj (regions cfg) (total_pages cfg)). Qed.

(** *** Slots *)

Lemma alloc_spec sw slot sw' :
  SwapAlloc.alloc sw = (Some slot, sw') -> swap_room sw ->
  sw_file sw' = sw_file sw /\ swap_room sw' /\ (slot < sw_next sw')%nat /\ slot ∉ sw_free sw' /\
  (slot ∈ sw_free sw \/ slot = sw_next sw) /\ (forall x, x ∈ sw_free sw' -> x ∈ sw_free sw) /\ (sw_next sw <= sw_next sw')%nat.
Proof.
  unfold SwapAlloc.alloc, swap_room. intros Ha [Hnd Hlt]. destruct (sw_free sw) as [|x free] eqn:Hf.
  - destruct (sw_next sw <? sw_cap sw)%nat; [|done]. injection Ha as <- <-. cbn.
    split_and!; [done|by apply NoDup_nil_2|by apply Forall_nil_2|lia|apply not_elem_of_nil|by right|done|lia].
  - injection Ha as <- <-. cbn. apply NoDup_cons in Hnd as [Hx Hnd]. apply Forall_cons in Hlt as [Hlt Hlts].
    split_and!; try done; [left; apply list_elem_of_here|intros y Hy; by apply list_elem_of_further].
Qed.

Lemma alloc_none sw sw' : SwapAlloc.alloc sw = (None, sw') -> sw' = sw.
Proof. unfold SwapAlloc.alloc. destruct (sw_free sw); [|done]. destruct (_ <? _)%nat; [done|]. by intros [=]. Qed.

(** A change of the place of one page. *)
Lemma slots_ok_update h p h' p' idx :
  slots_ok h p -> swap_room (swap p') -> (forall j, j <> idx -> own h' p' j = own h p j) ->
  (sw_next (swap p) <= sw_next (swap p'))%nat ->
  (forall x i n, i <> idx -> own h p i = Some (Swap x n) -> x ∉ sw_free (swap p) -> x ∉ sw_free (swap p')) ->
  (forall slot n, own h' p' idx = Some (Swap slot n) ->
     (slot < sw_next (swap p'))%nat /\ slot ∉ sw_free (swap p') /\ (n <= SWAP_SLOT_SIZE)%nat /\
     forall j m, j <> idx -> own h p j <> Some (Swap slot m)) ->
  slots_ok h' p'.
Proof.
  intros (_ & Hs & Hd) Hroom Hown Hnext Hfree Hnew. split; [done|]. split.
  - intros i slot n Hi. destruct (decide (i = idx)) as [->|Hne]; [by destruct (Hnew slot n Hi) as (? & ? & ? & _)|].
    rewrite Hown in Hi by done. destruct (Hs i slot n Hi) as (? & ? & ?). split; [lia|]. split; [by eapply Hfree|done].
  - intros i j slot n m Hi Hj. destruct (decide (i = idx)) as [->|Hni], (decide (j = idx)) as [->|Hnj]; [done|..].
    + rewrite Hown in Hj by done. destruct (Hnew slot n Hi) as (_ & _ & _ & Hno). by destruct (Hno j m).
    + rewrite Hown in Hi by done. destruct (Hnew slot m Hj) as (_ & _ & _ & Hno). by destruct (Hno i n).
    + rewrite Hown in Hi, Hj by done. by eapply Hd.
Qed.

Lemma slots_ok_same h p h' p' : slots_ok h p -> swap p' = swap p -> (forall j, own h' p' j = own h p j) -> slots_ok h' p'.
Proof. intros (Hr & Hs & Hd) He Hown. unfold slots_ok. rewrite He. split; [done|]. split; intros *; rewrite !Hown; eauto. Qed.

Lemma store_update h p h' p' idx :
  (idx < total_pages cfg)%nat -> (forall j, j <> idx -> own h' p' j = own h p j) ->
  Z.of_nat (nsum (fun i => ram_len (own h' p' i)) (total_pages cfg)) =
  Z.of_nat (nsum (fun i => ram_len (own h p i)) (total_pages cfg)) + Z.of_nat (ram_len (own h' p' idx)) - Z.of_nat (ram_len (own h p idx)).
Proof.
  intros Hi Hown. pose proof (nsum_update (fun i => ram_len (own h' p' i)) (fun i => ram_len (own h p i)) _ idx Hi) as Hs.
  cbn beta in Hs. rewrite <- (Nat2Z.id (nsum _ _)) in Hs. lapply Hs; [lia|]. intros j _ Hj. by rewrite Hown.
Qed.

Lemma store_same h p h' p' : (forall j, own h' p' j = own h p j) ->
  nsum (fun i => ram_len (own h' p' i)) (total_pages cfg) = nsum (fun i => ram_len (own h p i)) (total_pages cfg).
Proof. intros Hown. apply nsum_ext. intros i _. by rewrite Hown. Qed.

(** What a page reads as does not depend on slots that are not its own. *)
Lemma content_kept p p' l content :
  loc_content p l = Some content ->
  (forall slot n, l = Swap slot n -> forall i x, (swap_offset slot <= i < swap_offset slot + n)%nat ->
     sw_file (swap p) !! i = Some x -> sw_file (swap p') !! i = Some x) ->
  loc_content p' l = Some content.
Proof.
  destruct l as [|buf|slot n|k]; cbn [loc_content]; try done. intros Hc Hk.
  destruct (pread_exact [] n (swap_offset slot) (sw_file (swap p))) as [buf|] eqn:Hr; [|done].
  enough (pread_exact [] n (swap_offset slot) (sw_file (swap p')) = Some buf) as -> by done.
  apply pread_exact_range in Hr as [Hb Hl].
  assert (has_range (swap_offset slot) buf (sw_file (swap p'))) as Hrange.
  { intros i x Hx. apply (Hk slot n eq_refl); [pose proof (lookup_lt_Some _ _ _ Hx); lia|].
    rewrite Hb in Hx. apply lookup_take_Some in Hx as [Hx _]. by rewrite lookup_drop in Hx. }
  apply has_range_take in Hrange. rewrite Hl in Hrange. cbn [pread_exact].
  destruct (Nat.eqb_spec n 0) as [->|]; [by destruct buf|]. cbn zeta. rewrite Hrange, Hl, Nat.ltb_irrefl. done.
Qed.

Ltac open_inv Hinv :=
  let Hsh := fresh "Hsh" in let Hbits := fresh "Hbits" in let Hlen := fresh "Hlen" in let Hsz := fresh "Hsz" in
  let Honly := fresh "Honly" in let Hpg := fresh "Hpg" in let Hh := fresh "Hh" in let Hw := fresh "Hw" in
  let Hsl := fresh "Hsl" in let Hfr := fresh "Hfr" in let Hst := fresh "Hst" in let Hre := fresh "Hre" in
  pose proof Hinv as [Hsh Hbits Hlen Hsz Honly Hpg Hh Hw Hsl Hfr Hst Hre]; cbn [sy_pager sy_handler sy_sweeper] in *.

Lemma page_start_aligned addr : Z.land addr (Z.lnot 4095) mod 4096 = 0.
Proof.
  change 4095 with (Z.ones 12). rewrite <- Z.ldiff_land, Z.ldiff_ones_r by lia. rewrite Z.shiftl_mul_pow2 by lia.
  change 4096 with (2 ^ 12). apply Z_mod_mult.
Qed.

Lemma own_idle p j : own HIdle p j = shard_get j p. Proof. done. Qed.

(** Taking a page out of its shard, or putting it back, does not change whose it is. *)
Lemma own_take v idx l p j :
  length (shards p) = SHARDS -> shard_get idx p = Some l -> own (HCopy v idx l) (shard_remove idx p) j = shard_get j p.
Proof. intros Hsh Hl. cbn. rewrite shard_get_remove by done. destruct (decide (idx = j)) as [<-|]; done. Qed.

Lemma own_put v idx l p j :
  length (shards p) = SHARDS -> shard_get j (shard_insert idx l p) = own (HCopy v idx l) p j.
Proof. intros Hsh. cbn. rewrite shard_get_insert by done. done. Qed.

Lemma fault_inv m addr p h p' w :
  mapped p !! Z.land addr (Z.lnot 4095) = None -> serve_begin cfg addr p = (h, p') ->
  inv m (mkSys p HIdle w) -> inv m (mkSys p' h w).
Proof.
  intros Hnone Hb Hinv. open_inv Hinv. unfold serve_begin in Hb. cbn zeta in Hb.
  destruct (page_index_for_va _ _) as [idx|] eqn:Hidx; [|injection Hb as <- <-; by apply (inv_core m p _ _ w)].
  destruct (page_va_page_index 0 _ _ _ _ regions_fit (page_start_aligned addr) Hidx) as [Hi Hva].
  destruct (page_there _ _ idx Hinv) as (page & Hp & _); [lia|]. pose proof (Hpg idx page Hp) as Hok. unfold page_ok in Hok.
  rewrite Hva, Hnone in Hok. destruct (ev p idx) eqn:Hev; cbn [negb] in Hb.
  - destruct Hok as (l & Hown & Hc). rewrite own_idle in Hown. rewrite Hown in Hb. injection Hb as <- <-.
    assert (Hsame : forall j, own (HCopy (Z.land addr (Z.lnot 4095)) idx l) (shard_remove idx p) j = own HIdle p j)
      by (intros j; by apply own_take).
    split; cbn [sy_pager sy_handler sy_sweeper]; try done.
    + by rewrite length_shard_remove.
    + intros j Hj. rewrite shard_get_remove by done. case_decide; [done|]. by apply Honly.
    + intros j q Hq. specialize (Hpg j q Hq). unfold page_ok in Hpg |- *. cbn [mapped shard_remove set_shards evicted] in *.
      destruct (mapped p !! va j).
      * destruct Hpg as (? & Hg & Hc'). split; [done|]. split; [|intros Hx; destruct (Hc' Hx) as [|[? ?]]; done].
        rewrite shard_get_remove by done. by case_decide.
      * destruct (bit_is_set (evicted p) j); [|destruct Hpg as [? Hg]; split; [done|]; rewrite shard_get_remove by done; by case_decide].
        destruct Hpg as (l' & Hl' & Hc'). exists l'. by rewrite Hsame.
    + cbn. rewrite shard_get_remove by done. rewrite decide_True by done. split_and!; [lia|done..].
    + by eapply slots_ok_same.
    + by rewrite (store_same HIdle p).
  - injection Hb as <- <-. split; cbn [sy_pager sy_handler sy_sweeper]; try done.
    + intros j q Hq. specialize (Hpg j q Hq). unfold page_ok in Hpg |- *. cbn [own] in *. destruct (mapped p !! va j); [|done].
      destruct Hpg as (? & ? & Hc'). split_and!; [done..|]. intros Hx. destruct (Hc' Hx) as [|[? ?]]; done.
    + cbn. split_and!; [done|lia|done..].
Qed.

(** The handler loads the content of the page, or the VM stops. *)
Lemma pager_load_ok reads exchange l p content :
  loc_content p l = Some content ->
  (forall slot n, l = Swap slot n -> pread_exact reads n (swap_offset slot) (sw_file (swap p)) <> None) ->
  (forall k page, l = Remote k -> fetch_page exchange = Ok page -> page = source k) ->
  load_loc cfg reads exchange l p = (Ok content, p) \/ (exists e, load_loc cfg reads exchange l p = (Err e, p)) /\ fatal cfg = true.
Proof.
  destruct l as [|buf|slot n|k]; cbn [loc_content load_loc]; intros Hc Hr Hx.
  - left. congruence.
  - left. destruct (decode buf); [|done]. congruence.
  - left. specialize (Hr slot n eq_refl). destruct (pread_exact reads _ _ _) as [b|] eqn:E; [|done].
    destruct (pread_exact [] _ _ _) as [b'|] eqn:E'; [|done]. cbn in Hc. apply pread_exact_range in E as [Hb _], E' as [Hb' _].
    rewrite Hb, <- Hb'. destruct (decode b'); [|done]. congruence.
  - destruct (remote_source cfg) eqn:Hs; [|done]. specialize (Hx k). destruct (fetch_page exchange) as [page|e].
    + left. rewrite (Hx page) by done. congruence.
    + right. split; [by eexists|]. by apply fatal_remote.
Qed.

Lemma is_set_clear_other p i j : i <> j -> bit_is_set (clear_bit i (evicted p)) j = bit_is_set (evicted p) j.
Proof. intros Hne. rewrite clear_bit_spec. by rewrite bool_decide_eq_false_2. Qed.

(** The page of the handler is copied in. *)
Lemma copy_inv m v idx l content p w :
  m !! idx = Some content -> own (HCopy v idx l) p idx = Some l -> inv m (mkSys p (HCopy v idx l) w) ->
  inv m (mkSys (set_mapped (<[v := content]> (mapped p)) p) (HRelease idx l) w).
Proof.
  intros Hm Hown Hinv. open_inv Hinv. destruct Hh as (Hi & -> & Hnone & Hev & Hget).
  split; cbn [sy_pager sy_handler sy_sweeper]; try done.
  - intros j q Hq. pose proof (mem_bound _ _ _ _ Hinv Hq) as Hj. specialize (Hpg j q Hq). unfold page_ok in Hpg |- *.
    cbn [mapped set_mapped evicted] in *. destruct (decide (j = idx)) as [->|Hne].
    + rewrite lookup_insert_eq. split; [congruence|]. split; [done|]. intros _. right. by eexists.
    + rewrite lookup_insert_ne by (apply va_ne; congruence || done). destruct (mapped p !! va j).
      * destruct Hpg as (? & ? & Hc). split_and!; [done..|]. intros Hx. destruct (Hc Hx) as [|[? ?]]; done.
      * done.
  - cbn. rewrite lookup_insert_eq. done.
  - destruct w as [|b|b i|b i enc]; try done. cbn in Hw |- *. destruct Hw as (Hr & Hib & Hei & page & Hpi & He).
    split_and!; try done. exists page. rewrite lookup_insert_ne; [done|]. intros Heq. rewrite <- Heq in Hpi. congruence.
Qed.

Lemma release_content l p l0 : loc_content (release_loc l p) l0 = loc_content p l0.
Proof. by destruct l. Qed.

Lemma release_frame l p :
  shards (release_loc l p) = shards p /\ evicted (release_loc l p) = evicted p /\ mapped (release_loc l p) = mapped p /\
  registered (release_loc l p) = registered p /\ resident_pages (release_loc l p) = resident_pages p /\
  store_bytes (release_loc l p) = (match l with Ram buf => wrap 64 (store_bytes p - Z.of_nat (length buf)) | _ => store_bytes p end).
Proof. by destruct l. Qed.

Lemma shard_get_shards p p' j : shards p' = shards p -> shard_get j p' = shard_get j p.
Proof. unfold shard_get. by intros ->. Qed.

(** A place that nobody has any more is given back. *)
Lemma release_slots h h' p p' l idx :
  slots_ok h p -> own h p idx = Some l -> swap p' = swap (release_loc l p) ->
  own h' p' idx = None -> (forall j, j <> idx -> own h' p' j = own h p j) -> slots_ok h' p'.
Proof.
  intros Hok Hl Hsw Hnone Hown. pose proof Hok as ([Hnd Hlt] & Hs & Hd).
  apply (slots_ok_update h p _ _ idx Hok); rewrite ?Hsw; [|done| | |by rewrite Hnone].
  - destruct l as [|buf|slot n|k]; try done. cbn. destruct (Hs idx slot n Hl) as (? & ? & ?). split; cbn.
    + by apply NoDup_cons.
    + by apply Forall_cons.
  - by destruct l.
  - intros x i n Hne Hi Hx. destruct l as [|buf|slot k|k]; try done. cbn. apply not_elem_of_cons. split; [|done].
    intros ->. by destruct Hne, (Hd i idx slot n k).
Qed.

Lemma release_inv m idx l p w : inv m (mkSys p (HRelease idx l) w) -> inv m (mkSys (release_loc l p) (HClear idx) w).
Proof.
  intros Hinv. open_inv Hinv. destruct Hh as (Hi & Hsome & Hev & Hget).
  pose proof (release_frame l p) as (Hfs & Hfe & Hfm & Hfr' & Hfres & Hfst).
  assert (Hg : forall j, shard_get j (release_loc l p) = shard_get j p) by (intros j; by apply shard_get_shards).
  assert (Hother : forall j, j <> idx -> own (HClear idx) (release_loc l p) j = own (HRelease idx l) p j).
  { intros j Hj. cbn. rewrite Hg. by rewrite decide_False. }
  assert (Hl : own (HRelease idx l) p idx = Some l) by (cbn; by rewrite decide_True).
  assert (Hn : own (HClear idx) (release_loc l p) idx = None) by (cbn; by rewrite Hg).
  split; cbn [sy_pager sy_handler sy_sweeper]; rewrite ?Hfs, ?Hfe, ?Hfr'; try done.
  - intros j Hj. rewrite Hg. by apply Honly.
  - intros j q Hq. specialize (Hpg j q Hq). unfold page_ok in Hpg |- *. rewrite Hfm, Hfe, Hg. destruct (mapped p !! va j) eqn:Hmj.
    + destruct Hpg as (? & ? & Hc). split_and!; [done..|]. intros Hx. destruct (Hc Hx) as [|[? [= <- <-]]]; [done|by left].
    + destruct (bit_is_set (evicted p) j); [|done]. destruct Hpg as (l' & Hl' & Hc). exists l'. rewrite release_content. split; [|done].
      rewrite Hother; [done|]. intros ->. rewrite Hmj in Hsome. by destruct Hsome.
  - cbn. rewrite Hfm, Hfe, Hg. done.
  - destruct w; cbn in Hw |- *; rewrite ?Hfr', ?Hfe, ?Hfm; done.
  - by eapply release_slots.
  - rewrite Hfst, (store_update (HRelease idx l) p _ _ idx) by done. rewrite Hl, Hn. cbn [ram_len].
    destruct l; cbn [ram_len]; rewrite Hst, ?pager_wrap_sub; f_equal; lia.
  - rewrite Hfres, Hre. unfold residents. by rewrite Hfe.
Qed.

Lemma residents_clear p p' idx :
  (idx < total_pages cfg)%nat -> evicted p' = clear_bit idx (evicted p) -> bit_is_set (evicted p) idx = true ->
  residents (total_pages cfg) p' = S (residents (total_pages cfg) p).
Proof.
  intros Hi He Hev. unfold residents. rewrite He.
  pose proof (nsum_update (fun i => (if bit_is_set (clear_bit idx (evicted p)) i then 0 else 1)%nat)
    (fun i => (if bit_is_set (evicted p) i then 0 else 1)%nat) _ idx Hi) as Hs. cbn beta in Hs. rewrite clear_bit_spec, bool_decide_eq_true_2, Hev in Hs by done.
  cbn [negb andb] in Hs. lapply Hs; [lia|]. intros j _ Hj. by rewrite is_set_clear_other by done.
Qed.

Lemma clear_inv m idx p w :
  inv m (mkSys p (HClear idx) w) -> inv m (mkSys (set_evicted (clear_bit idx (evicted p)) p) (HReference idx true) w).
Proof.
  intros Hinv. open_inv Hinv. destruct Hh as (Hi & Hsome & Hev & Hget).
  split; cbn [sy_pager sy_handler sy_sweeper shards evicted registered store_bytes resident_pages set_evicted]; try done.
  - by rewrite length_clear_bit.
  - intros j q Hq. specialize (Hpg j q Hq). unfold page_ok in Hpg |- *. cbn [mapped set_evicted evicted] in *.
    destruct (mapped p !! va j) eqn:Hmj.
    + destruct Hpg as (? & ? & Hc). split_and!; [done..|]. rewrite clear_bit_spec. intros [Hne Hx]%andb_true_iff.
      destruct (Hc Hx) as [[= ->]|[? ?]]; [|done]. by rewrite bool_decide_eq_true_2 in Hne.
    + assert (idx <> j) by (intros ->; rewrite Hmj in Hsome; by destruct Hsome). rewrite is_set_clear_other by done. done.
  - destruct w as [|b|b i|b i enc]; try done. cbn in Hw |- *. destruct Hw as (? & ? & Hei & ?). split_and!; try done.
    rewrite clear_bit_spec, Hei. by rewrite andb_false_r.
  - intros Hr j Hj. rewrite clear_bit_spec, (Hfr Hr j Hj). by rewrite andb_false_r.
  - rewrite (residents_clear p (set_evicted (clear_bit idx (evicted p)) p) idx Hi eq_refl Hev), Hre. cbn [uncounted]. f_equal. lia.
Qed.

Lemma zero_fill_inv m v idx p w :
  inv m (mkSys p (HZeroFill v idx false) w) ->
  inv m (mkSys (set_mapped (<[v := ZERO_PAGE]> (mapped p)) p) (HReference idx false) w).
Proof.
  intros Hinv. open_inv Hinv. destruct Hh as (_ & Hi & -> & Hnone & Hev).
  split; cbn [sy_pager sy_handler sy_sweeper]; try done.
  - intros j q Hq. pose proof (mem_bound _ _ _ _ Hinv Hq) as Hj. specialize (Hpg j q Hq). unfold page_ok in Hpg |- *.
    cbn [mapped set_mapped evicted own] in *. destruct (decide (j = idx)) as [->|Hne].
    + rewrite Hnone, Hev in Hpg. destruct Hpg as [-> Hg]. rewrite lookup_insert_eq. split_and!; [done..|]. by rewrite Hev.
    + rewrite lookup_insert_ne by (apply va_ne; congruence || done). destruct (mapped p !! va j); [|done].
      destruct Hpg as (? & ? & Hc). split_and!; [done..|]. intros Hx. destruct (Hc Hx) as [|[? ?]]; done.
  - destruct w as [|b|b i|b i enc]; try done. cbn in Hw |- *. destruct Hw as (Hr & Hib & Hei & page & Hpi & He).
    split_and!; try done. exists page. rewrite lookup_insert_ne; [done|]. intros Heq. rewrite <- Heq in Hpi. congruence.
Qed.

(** Only what the handler still has to do changes. *)
Lemma handler_inv m p h h' w :
  (forall j, own h p j = shard_get j p) -> (forall j, own h' p j = shard_get j p) ->
  (forall j, h <> HClear j) -> (forall j l, h <> HRelease j l) -> handler_ok h' p -> uncounted h' = uncounted h ->
  inv m (mkSys p h w) -> inv m (mkSys p h' w).
Proof.
  intros Ho Ho' Hnc Hnr Hh' Hu Hinv. open_inv Hinv. split; cbn [sy_pager sy_handler sy_sweeper]; try done.
  - intros j q Hq. specialize (Hpg j q Hq). unfold page_ok in *. rewrite Ho' in *. rewrite Ho in Hpg. destruct (mapped p !! va j); [|done].
    destruct Hpg as (? & ? & Hc). split_and!; [done..|]. intros Hx. destruct (Hc Hx) as [He|[loc He]]; [by destruct (Hnc j)|by destruct (Hnr j loc)].
  - eapply slots_ok_same; [done..|]. intros j. by rewrite Ho, Ho'.
  - rewrite (store_same h p); [done|]. intros j. by rewrite Ho, Ho'.
  - by rewrite Hu.
Qed.

(** The copy failed: the page is put back. *)
Lemma put_back_inv m v idx l p w :
  inv m (mkSys p (HCopy v idx l) w) -> inv m (mkSys (disable_once (shard_insert idx l p)) HIdle w).
Proof.
  intros Hinv. open_inv Hinv. destruct Hh as (Hi & -> & Hnone & Hev & Hget).
  assert (Hsame : forall j, shard_get j (disable_once (shard_insert idx l p)) = own (HCopy (va idx) idx l) p j) by (intros j; by apply own_put).
  split; cbn [sy_pager sy_handler sy_sweeper]; try done.
  - change (length (shards (shard_insert idx l p)) = SHARDS). by rewrite length_shard_insert.
  - intros j Hj. rewrite Hsame. cbn. rewrite decide_False by lia. by apply Honly.
  - intros j q Hq. specialize (Hpg j q Hq). unfold page_ok in *. cbn [mapped disable_once shard_insert set_shards evicted own] in *. rewrite Hsame.
    destruct (mapped p !! va j) eqn:Hmj.
    + destruct Hpg as (? & ? & Hc). assert (idx <> j) by congruence. cbn. rewrite decide_False by done. split_and!; [done..|].
      intros Hx. destruct (Hc Hx) as [|[? ?]]; done.
    + destruct (bit_is_set (evicted p) j) eqn:Hej; [done|]. cbn. rewrite decide_False by congruence. done.
  - by eapply slots_ok_same.
  - by rewrite (store_same (HCopy (va idx) idx l) p).
Qed.

Lemma serve_inv m copied reads exchange h p h' p' w :
  (forall v idx slot n, h = HCopy v idx (Swap slot n) -> pread_exact reads n (swap_offset slot) (sw_file (swap p)) <> None) ->
  (forall v idx k page, h = HCopy v idx (Remote k) -> fetch_page exchange = Ok page -> page = source k) ->
  serve_next cfg copied reads exchange h p = (h', p') -> stopping p' = false ->
  inv m (mkSys p h w) -> inv m (mkSys p' h' w).
Proof.
  intros Hreads Hfetch Hs Hgo Hinv. pose proof (i_handler _ _ Hinv) as Hh. cbn in Hh.
  assert (Hwe : forall q, core q = core p -> sweeper_ok w q).
  { intros q Hq. pose proof (i_sweeper _ _ Hinv) as Hw. destruct p, q. unfold core in Hq. cbn in Hq. by injection Hq as -> -> -> -> -> -> ->. }
  destruct h as [|v idx c|v idx l|v|idx l|idx|idx c|]; cbn [serve_next] in Hs.
  - by injection Hs as <- <-.
  - destruct Hh as (-> & Hi & -> & Hnone & Hev). unfold uffd_copy in Hs. rewrite Hnone in Hs.
    destruct copied; injection Hs as <- <-; [by apply zero_fill_inv|].
    apply (handler_inv _ _ (HZeroFill (va idx) idx false)); try done. apply (inv_core m p _ _ w); [done|by apply Hwe|done].
  - destruct (page_there _ _ idx Hinv) as (content & Hm & _); [by destruct Hh|].
    destruct Hh as (Hi & -> & Hnone & Hev & Hget). pose proof (i_pages _ _ Hinv idx content Hm) as Hok. unfold page_ok in Hok.
    cbn [sy_handler sy_pager] in Hok. rewrite Hnone, Hev in Hok. destruct Hok as (l' & Hown & Hc).
    assert (l' = l) as -> by (cbn in Hown; rewrite decide_True in Hown by done; congruence).
    destruct (pager_load_ok reads exchange l p content Hc) as [He|[[e He] Hf]].
    { intros slot n ->. by eapply Hreads. } { intros k page -> ?. by eapply Hfetch. }
    + rewrite He in Hs. unfold uffd_copy in Hs. rewrite Hnone in Hs. destruct copied; injection Hs as <- <-.
      * by eapply copy_inv.
      * by eapply put_back_inv.
    + rewrite He, Hf in Hs. injection Hs as <- <-. done.
  - done.
  - injection Hs as <- <-. by apply release_inv.
  - injection Hs as <- <-. by apply clear_inv.
  - injection Hs as <- <-. apply (handler_inv _ _ (HReference idx c)); try done; [by destruct c|by destruct c..|].
    apply (inv_core m p _ _ w); [done|by apply Hwe|done].
  - injection Hs as <- <-. open_inv Hinv. split; cbn [sy_pager sy_handler sy_sweeper add_resident set_resident resident_pages]; try done.
    + intros j q Hq. specialize (Hpg j q Hq). unfold page_ok in *. cbn [mapped evicted add_resident set_resident own] in *.
      destruct (mapped p !! va j); [|done]. destruct Hpg as (? & ? & Hc). split_and!; [done..|]. intros Hx. destruct (Hc Hx) as [|[? ?]]; done.
    + rewrite Hre, pager_wrap_add. unfold residents. cbn [uncounted evicted add_resident set_resident]. f_equal. lia.
Qed.

(** *** The sweeper *)

Definition swap_grows (h : Handler) (p p' : Pager) : Prop :=
  swap_room (swap p') /\ (sw_next (swap p) <= sw_next (swap p'))%nat /\
  forall x i n, own h p i = Some (Swap x n) -> (x ∉ sw_free (swap p')).

Definition contents_kept (h : Handler) (p p' : Pager) : Prop :=
  forall i l content, own h p i = Some l -> loc_content p l = Some content -> loc_content p' l = Some content.

Definition slot_fresh (h : Handler) (p p' : Pager) (l : Loc) : Prop :=
  forall slot n, l = Swap slot n ->
    (slot < sw_next (swap p'))%nat /\ (slot ∉ sw_free (swap p')) /\ (n <= SWAP_SLOT_SIZE)%nat /\
    forall j m, own h p j <> Some (Swap slot m).

Lemma place_frame outs buf p l p' :
  place_encoded cfg outs buf p = (l, p') ->
  shards p' = shards p /\ evicted p' = evicted p /\ mapped p' = mapped p /\ registered p' = registered p /\
  resident_pages p' = resident_pages p.
Proof.
  unfold place_encoded, try_reserve_store. destruct (checked_add 64 _ _) as [next|]; cbn.
  1: destruct (next <=? _); [by intros [= <- <-]|].
  all: destruct (SwapAlloc.alloc _) as [[slot|] sw]; [destruct (pwrite_all _ _ _ _) as [[|] file]|]; by intros [= <- <-].
Qed.

Lemma place_store outs buf p l p' :
  in_width 64 (store_bytes p) -> place_encoded cfg outs buf p = (l, p') ->
  store_bytes p' = wrap 64 (store_bytes p + Z.of_nat (ram_len (Some l))).
Proof.
  intros Hw. unfold place_encoded, try_reserve_store.
  assert (store_bytes p = wrap 64 (store_bytes p + Z.of_nat 0)) as Hz by (rewrite Z.add_0_r; by rewrite wrap_small).
  destruct (checked_add 64 _ _) as [next|] eqn:Hc; cbn.
  1: apply checked_add_Some in Hc as [-> Hlt]; destruct (_ <=? _).
  1: intros [= <- <-]; cbn; rewrite wrap_small; [done|unfold in_width in *; lia].
  all: destruct (SwapAlloc.alloc _) as [[slot|] sw]; [destruct (pwrite_all _ _ _ _) as [[|] file]|]; intros [= <- <-]; cbn; auto.
Qed.

Lemma place_swap outs buf p l p' page h :
  decode buf = Ok page -> (length buf <= SWAP_SLOT_SIZE)%nat -> slots_ok h p -> place_encoded cfg outs buf p = (l, p') ->
  swap_grows h p p' /\ slot_fresh h p p' l /\ contents_kept h p p' /\ loc_content p' l = Some page.
Proof.
  intros Hd Hlen (Hroom & Hs & _). unfold place_encoded.
  destruct (try_reserve_store cfg (length buf) p) as [q|] eqn:Hres.
  { intros [= <- <-]. assert (swap q = swap p) as Hq.
    { unfold try_reserve_store in Hres. destruct (checked_add 64 _ _); [|done]. cbn in Hres. case_match; [|done]. by injection Hres as <-. }
    unfold swap_grows, slot_fresh, contents_kept. rewrite Hq. cbn [loc_content]. rewrite Hd. split_and!; try done.
    - intros x i n Hi. by destruct (Hs i x n Hi) as (_ & ? & _).
    - intros i l0 c _ Hc. by destruct l0; cbn [loc_content] in *; rewrite ?Hq. }
  destruct (SwapAlloc.alloc (swap p)) as [[slot|] sw] eqn:Ha.
  2: { intros [= <- <-]. apply alloc_none in Ha as ->. unfold swap_grows, slot_fresh, contents_kept. cbn. rewrite Hd. split_and!; try done.
    intros x i n Hi. by destruct (Hs i x n Hi) as (_ & ? & _). }
  destruct (alloc_spec _ _ _ Ha Hroom) as (Hfile & Hroom' & Hlt & Hni & Horig & Hsub & Hnext).
  assert (Hfresh : forall j m, own h p j <> Some (Swap slot m)).
  { intros j m Hj. destruct (Hs j slot m Hj) as (? & ? & _). destruct Horig; [done|lia]. }
  assert (Hfree : forall x i n, own h p i = Some (Swap x n) -> x ∉ sw_free sw).
  { intros x i n Hi Hx. destruct (Hs i x n Hi) as (_ & Hx' & _). by apply Hx', Hsub. }
  assert (Hkeep : forall i l0 c, own h p i = Some l0 -> loc_content p l0 = Some c ->
            forall q, sw_file (swap q) = snd (pwrite_all outs buf (swap_offset slot) (sw_file sw)) -> loc_content q l0 = Some c).
  { intros i l0 c Hi Hc q Hq. apply (content_kept p); [done|]. intros slot' n' -> k x Hk Hx. rewrite Hq, Hfile.
    apply pwrite_all_outside; [|done]. destruct (Hs i slot' n' Hi) as (_ & _ & Hn).
    destruct (pager_slots_apart slot slot' (length buf) n'); [by intros ->; destruct (Hfresh i n')|done|done|lia|lia]. }
  destruct (pwrite_all _ _ _ _) as [ok file] eqn:Hpw. cbn [snd] in Hkeep. destruct ok; intros [= <- <-].
  - split_and!.
    + split_and!; try done.
    + intros slot' n [= -> <-]. split_and!; try done.
    + intros i l0 c Hi Hc. by eapply Hkeep.
    + cbn [loc_content swap set_swap sw_file]. pose proof (pwrite_all_written outs buf (swap_offset slot) (sw_file sw)) as Hwr.
      rewrite Hpw in Hwr. specialize (Hwr eq_refl). apply has_range_take in Hwr. cbn [snd] in Hwr. cbn [pread_exact].
      destruct (Nat.eqb_spec (length buf) 0) as [He|]; [destruct buf; done|]. cbn zeta. rewrite Hwr, Nat.ltb_irrefl. cbn. by rewrite Hd.
  - unfold swap_grows, slot_fresh. cbn [swap set_swap add_store set_store_bytes SwapAlloc.free sw_next sw_free]. destruct Hroom' as [Hnd Hfa].
    unfold swap_room. cbn [SwapAlloc.free sw_free sw_next]. split_and!; try done.
    + by apply NoDup_cons.
    + by apply Forall_cons.
    + intros x i n Hi. apply not_elem_of_cons. split; [|by eapply Hfree]. intros ->. by destruct (Hfresh i n).
    + intros i l0 c Hi Hc. by eapply Hkeep.
    + cbn. by rewrite Hd.
Qed.

Lemma residents_set p p' idx :
  (idx < total_pages cfg)%nat -> (total_pages cfg <= 64 * length (evicted p))%nat ->
  evicted p' = set_bit idx (evicted p) -> bit_is_set (evicted p) idx = false ->
  S (residents (total_pages cfg) p') = residents (total_pages cfg) p.
Proof.
  intros Hi Hb He Hev. unfold residents. rewrite He. assert (Hw : (idx / 64 < length (evicted p))%nat) by (apply Nat.Div0.div_lt_upper_bound; lia).
  pose proof (nsum_update (fun i => (if bit_is_set (set_bit idx (evicted p)) i then 0 else 1)%nat)
    (fun i => (if bit_is_set (evicted p) i then 0 else 1)%nat) _ idx Hi) as Hs. cbn beta in Hs. rewrite set_bit_spec, bool_decide_eq_true_2, Hev in Hs by done.
  cbn [orb] in Hs. lapply Hs; [lia|]. intros j _ Hj. by rewrite set_bit_spec, bool_decide_eq_false_2 by done.
Qed.

(** A page that is there and not evicted is nobody's but the guest's. *)
Lemma resident_free h p idx :
  handler_ok h p -> shard_get idx p = None -> ev p idx = false -> own h p idx = None.
Proof.
  intros Hh Hg Hev. destruct h as [|v i c|v i l|v|i l|i|i c|]; cbn in *; try done.
  - destruct (decide (i = idx)) as [->|]; [|done]. destruct Hh as (_ & _ & _ & ? & _). congruence.
  - destruct (decide (i = idx)) as [->|]; [|done]. destruct Hh as (_ & _ & ? & _). congruence.
Qed.

(** The state of [evict_page] after its lock, when the hole is punched. *)
Definition evicted_state (idx : nat) (l : Loc) (p : Pager) : Pager :=
  sub_resident (set_mapped (delete (va idx) (mapped p))
    (set_referenced (clear_bit idx (referenced p)) (set_evicted (set_bit idx (evicted p)) (shard_insert idx l p)))).

(** The page is stored: [q] is the pager after [place_encoded]. *)
Lemma evict_inv m h p q w l idx content :
  inv m (mkSys p h w) -> (idx < total_pages cfg)%nat -> ev p idx = false -> registered p = true ->
  m !! idx = Some content -> mapped p !! va idx = Some content -> loc_content q l = Some content ->
  (shards q = shards p /\ evicted q = evicted p /\ mapped q = mapped p /\ registered q = registered p /\ resident_pages q = resident_pages p) ->
  store_bytes q = wrap 64 (store_bytes p + Z.of_nat (ram_len (Some l))) ->
  swap_grows h p q -> slot_fresh h p q l -> contents_kept h p q ->
  inv m (mkSys (evicted_state idx l q) h SIdle).
Proof.
  intros Hinv Hi Hev Hreg Hm Hmap Hlc (Fs & Fe & Fm & Fr & Fres) Hstore (Hroom & Hnext & Hfree) Hfresh Hkept. open_inv Hinv.
  assert (Hw64 : (idx / 64 < length (evicted p))%nat) by (apply Nat.Div0.div_lt_upper_bound; lia).
  assert (Hshq : length (shards q) = SHARDS) by congruence.
  assert (Hgq : forall j, shard_get j q = shard_get j p) by (intros j; by apply shard_get_shards).
  pose proof (Hpg idx content Hm) as Hok. unfold page_ok in Hok. rewrite Hmap in Hok. destruct Hok as (_ & Hget & _).
  pose proof (resident_free h p idx Hh Hget Hev) as Hnone.
  set (p' := evicted_state idx l q).
  assert (Hg' : forall j, shard_get j p' = if decide (idx = j) then Some l else shard_get j p).
  { intros j. change (shard_get j (shard_insert idx l q) = if decide (idx = j) then Some l else shard_get j p).
    rewrite shard_get_insert by done. by rewrite Hgq. }
  assert (Hev' : forall j, bit_is_set (evicted p') j = bool_decide (idx = j) || ev p j).
  { intros j. cbn [p' evicted_state evicted sub_resident set_resident set_mapped set_referenced set_evicted]. rewrite Fe. by rewrite set_bit_spec. }
  assert (Hmap' : mapped p' = delete (va idx) (mapped p)) by (cbn; by rewrite Fm).
  assert (Hsw : swap p' = swap q) by done.
  assert (Hown : forall j, own h p' j = if decide (j = idx) then Some l else own h p j).
  { intros j. rewrite own_inflight in Hnone. rewrite !own_inflight, Hg'. destruct (decide (j = idx)) as [->|Hne].
    - rewrite decide_True by done. destruct (inflight h idx); done.
    - by rewrite decide_False. }
  assert (Hother : forall j, j <> idx -> own h p' j = own h p j) by (intros j Hj; rewrite Hown; by rewrite decide_False).
  assert (Hlc' : forall l0, loc_content p' l0 = loc_content q l0) by (by intros []).
  split; cbn [sy_pager sy_handler sy_sweeper]; try done.
  - change (length (shards (shard_insert idx l q)) = SHARDS). by rewrite length_shard_insert.
  - change (total_pages cfg <= 64 * length (set_bit idx (evicted q)))%nat. by rewrite pager_length_set_bit, Fe.
  - intros j Hj. rewrite Hg'. rewrite decide_False by lia. by apply Honly.
  - intros j c Hc. pose proof (mem_bound _ _ _ _ Hinv Hc) as Hj. specialize (Hpg j c Hc). unfold page_ok in *. rewrite Hev', Hmap'.
    destruct (decide (j = idx)) as [->|Hne].
    + rewrite lookup_delete_eq, bool_decide_eq_true_2 by done. cbn [orb]. exists l. rewrite Hown, decide_True by done.
      split; [done|]. rewrite Hlc'. congruence.
    + rewrite lookup_delete_ne by (apply va_ne; congruence || done). rewrite bool_decide_eq_false_2 by congruence. cbn [orb].
      rewrite Hg', Hother, decide_False by congruence. destruct (mapped p !! va j); [done|]. destruct (ev p j); [|done].
      destruct Hpg as (l0 & Hl0 & Hc0). exists l0. split; [done|]. rewrite Hlc'. by eapply Hkept.
  - assert (Hne : forall i, ev p i = true -> idx <> i) by congruence.
    destruct h as [|v i c|v i x|v|i x|i|i c|]; cbn [handler_ok] in *; try done; rewrite Hmap', Hev'.
    + destruct Hh as (? & ? & -> & Hn & He). assert (idx <> i) by congruence.
      rewrite bool_decide_eq_false_2, lookup_delete_ne by (done || by apply va_ne). done.
    + destruct Hh as (? & -> & Hn & He & Hgi). specialize (Hne i He).
      rewrite Hg', bool_decide_eq_false_2, lookup_delete_ne, decide_False by (done || by apply va_ne). done.
    + destruct Hh as (? & Hn & He & Hgi). specialize (Hne i He).
      rewrite Hg', bool_decide_eq_false_2, lookup_delete_ne, decide_False by (done || by apply va_ne). done.
    + destruct Hh as (? & Hn & He & Hgi). specialize (Hne i He).
      rewrite Hg', bool_decide_eq_false_2, lookup_delete_ne, decide_False by (done || by apply va_ne). done.
  - apply (slots_ok_update h p _ _ idx Hsl); rewrite ?Hsw; try done.
    + intros x i n _ Hx _. by eapply Hfree.
    + intros slot n. rewrite Hown, decide_True by done. intros [= He]. destruct (Hfresh slot n He) as (? & ? & ? & Hno).
      by split_and!.
  - intros Hr. change (registered q = false) in Hr. congruence.
  - change (store_bytes p') with (store_bytes q). rewrite Hstore, Hst, pager_wrap_add. rewrite (store_update h p h p' idx) by done.
    rewrite Hown, decide_True, Hnone by done. cbn [ram_len]. f_equal. lia.
  - change (resident_pages p') with (wrap 64 (resident_pages q - 1)). rewrite Fres, Hre, pager_wrap_sub. f_equal.
    pose proof (residents_set p p' idx Hi Hbits) as Hs. lapply Hs; [|by cbn; rewrite Fe]. intros Hs'. specialize (Hs' Hev). lia.
Qed.

(** The state of [evict_page] when the hole cannot be punched. *)
Definition undone_state (idx : nat) (l : Loc) (p : Pager) : Pager :=
  let p := set_referenced (clear_bit idx (referenced p)) (set_evicted (set_bit idx (evicted p)) (shard_insert idx l p)) in
  disable_once (release_loc l (set_evicted (clear_bit idx (evicted p)) (shard_remove idx p))).

Lemma undo_inv m h p q w l idx :
  inv m (mkSys p h w) -> (idx < total_pages cfg)%nat -> ev p idx = false -> registered p = true -> shard_get idx p = None ->
  (shards q = shards p /\ evicted q = evicted p /\ mapped q = mapped p /\ registered q = registered p /\ resident_pages q = resident_pages p) ->
  store_bytes q = wrap 64 (store_bytes p + Z.of_nat (ram_len (Some l))) ->
  swap_grows h p q -> slot_fresh h p q l -> contents_kept h p q ->
  inv m (mkSys (undone_state idx l q) h SIdle).
Proof.
  intros Hinv Hi Hev Hreg Hget (Fs & Fe & Fm & Fr & Fres) Hstore (Hroom & Hnext & Hfree) Hfresh Hkept. open_inv Hinv.
  assert (Hw64 : (idx / 64 < length (evicted p))%nat) by (apply Nat.Div0.div_lt_upper_bound; lia).
  assert (Hshq : length (shards q) = SHARDS) by congruence.
  pose proof (resident_free h p idx Hh Hget Hev) as Hnone.
  set (p' := undone_state idx l q).
  assert (Hfield : shards p' = shards (shard_remove idx (shard_insert idx l q)) /\ evicted p' = clear_bit idx (set_bit idx (evicted q)) /\
    mapped p' = mapped q /\ registered p' = registered q /\ resident_pages p' = resident_pages q /\
    store_bytes p' = match l with Ram buf => wrap 64 (store_bytes q - Z.of_nat (length buf)) | _ => store_bytes q end /\
    swap p' = match l with Swap slot _ => SwapAlloc.free slot (swap q) | _ => swap q end) by (by destruct l).
  destruct Hfield as (Gs & Ge & Gm & Gr & Gres & Gst & Gsw).
  assert (Hg' : forall j, shard_get j p' = shard_get j p).
  { intros j. rewrite (shard_get_shards (shard_remove idx (shard_insert idx l q)) p' j Gs).
    rewrite shard_get_remove by (by rewrite length_shard_insert). rewrite shard_get_insert by done.
    rewrite (shard_get_shards p q j Fs). by destruct (decide (idx = j)) as [<-|]. }
  assert (Hev' : forall j, bit_is_set (evicted p') j = ev p j).
  { intros j. rewrite Ge, Fe, clear_bit_spec, set_bit_spec by done. by case_bool_decide as Hij; [rewrite <- Hij, Hev|]. }
  assert (Hown : forall j, own h p' j = own h p j) by (intros j; by rewrite !own_inflight, Hg').
  assert (Hlc' : forall l0, loc_content p' l0 = loc_content q l0).
  { intros l0. destruct l0; cbn [loc_content]; try done. rewrite Gsw. by destruct l. }
  split; cbn [sy_pager sy_handler sy_sweeper]; try done.
  - rewrite Gs. by rewrite length_shard_remove, length_shard_insert.
  - rewrite Ge, length_clear_bit, pager_length_set_bit. by rewrite Fe.
  - intros j Hj. rewrite Hg'. by apply Honly.
  - intros j c Hc. specialize (Hpg j c Hc). unfold page_ok in *. rewrite Hev', Gm, Fm, Hg', Hown. destruct (mapped p !! va j); [done|].
    destruct (ev p j); [|done]. destruct Hpg as (l0 & Hl0 & Hc0). exists l0. split; [done|]. rewrite Hlc'. by eapply Hkept.
  - destruct h as [|v i c|v i x|v|i x|i|i c|]; cbn [handler_ok] in *; rewrite ?Gm, ?Fm, ?Hev', ?Hg'; done.
  - apply (slots_ok_update h p _ _ idx Hsl); rewrite ?Gsw; try done.
    + destruct l as [|buf|slot n|k]; try done. destruct (Hfresh slot n eq_refl) as (? & ? & _), Hroom. split; [by apply NoDup_cons|by apply Forall_cons].
    + by destruct l.
    + intros x i n _ Hx _. destruct l as [|buf|slot k|k]; try by eapply Hfree. cbn. apply not_elem_of_cons. split; [|by eapply Hfree].
      intros ->. destruct (Hfresh slot k eq_refl) as (_ & _ & _ & Hno). by destruct (Hno i n).
    + intros slot n. rewrite Hown, Hnone. done.
  - rewrite Gr, Fr. intros Hr. congruence.
  - rewrite Gst, (store_same h p h p') by done. destruct l; cbn [ram_len] in Hstore; rewrite Hstore, Hst, pager_wrap_add, ?pager_wrap_sub; f_equal; lia.
  - rewrite Gres, Fres, Hre. unfold residents. f_equal. f_equal. f_equal. apply nsum_ext. intros j _. by rewrite Hev'.
Qed.

Lemma evict_locked_inv m h p outs punched dropped idx r k encoded b :
  region_for_page (regions cfg) idx = Some (r, k) -> inv m (mkSys p h (SPlace b idx encoded)) ->
  inv m (mkSys (evict_locked cfg outs punched dropped idx r k encoded p) h SIdle).
Proof.
  intros Hr Hinv. destruct (i_sweeper _ _ Hinv) as (Hreg & Hi & Hev & page & Hmap & He). cbn [sy_pager] in *.
  assert (page_addr r k = va idx) as Ha by (unfold page_va; by rewrite Hr).
  destruct (page_there _ _ idx Hinv Hi) as (content & Hm & Hsize). pose proof (i_pages _ _ Hinv idx content Hm) as Hok.
  unfold page_ok in Hok. cbn [sy_pager] in Hok. rewrite Hmap in Hok. destruct Hok as (-> & Hget & _).
  unfold evict_locked. rewrite Hev.
  assert (exists l q, match encoded with None => (Zero, p) | Some buf => place_encoded cfg outs buf p end = (l, q) /\
    (shards q = shards p /\ evicted q = evicted p /\ mapped q = mapped p /\ registered q = registered p /\ resident_pages q = resident_pages p) /\
    store_bytes q = wrap 64 (store_bytes p + Z.of_nat (ram_len (Some l))) /\
    swap_grows h p q /\ slot_fresh h p q l /\ contents_kept h p q /\ loc_content q l = Some content) as (l & q & -> & Hf & Hst & Hg & Hfr & Hk & Hc).
  { pose proof (i_slots _ _ Hinv) as Hsl. pose proof (i_store _ _ Hinv) as Hstore. cbn [sy_pager sy_handler] in *.
    assert (in_width 64 (store_bytes p)) as Hw64 by (rewrite Hstore; by apply wrap_in_width).
    destruct encoded as [buf|].
    - destruct (decode_encode content buf Hsize) as [Hd Hlen]; [done|]. destruct (place_encoded cfg outs buf p) as [l q] eqn:Hp.
      exists l, q. split; [done|]. split; [by eapply place_frame|]. split; [by eapply place_store|].
      by destruct (place_swap outs buf p l q content h Hd Hlen Hsl Hp) as (? & ? & ? & ?).
    - exists Zero, p. destruct Hsl as (Hroom & Hs & _). split_and!; try done.
      + rewrite Z.add_0_r. by rewrite wrap_small.
      + split; [done|]. split; [done|]. intros x i n Hx. by destruct (Hs i x n Hx) as (_ & ? & _).
      + by intros i l c _ Hc.
      + cbn. f_equal. symmetry. by apply encode_none. }
  destruct punched; cbn [negb].
  - rewrite Ha. apply (inv_core m (evicted_state idx l q) _ _ SIdle); [by destruct dropped|done|].
    by eapply (evict_inv m h p q _ l idx content).
  - by eapply (undo_inv m h p q).
Qed.

(** What the sweeper does next does not matter to the rest. *)
Lemma sweeper_inv m p h w w' : sweeper_ok w' p -> inv m (mkSys p h w) -> inv m (mkSys p h w').
Proof. intros Hw. by apply inv_core. Qed.

Lemma victim_loop_spec total start k first p idx p' :
  (0 < total)%nat -> (forall i, first = Some i -> (i < total)%nat) -> victim_loop total start k first p = (idx, p') ->
  core p' = core p /\ forall i, idx = Some i -> (i < total)%nat.
Proof.
  intros Ht. revert first p. induction k as [|k IH]; intros first p Hf; cbn [victim_loop].
  - destruct first as [i|]; intros [= <- <-]; split; try done; intros j [= <-]; by apply Hf.
  - cbn zeta. assert (Hm : ((start + (total - S k)) mod total < total)%nat) by (apply Nat.mod_upper_bound; lia).
    destruct (bit_is_set (evicted p) _); [by apply IH|]. destruct (bit_is_set (referenced p) _).
    + intros Hl. eapply IH in Hl; [exact Hl|]. intros i. destruct first; [apply Hf|]. by intros [= <-].
    + intros [= <- <-]. split; [done|]. by intros i [= <-].
Qed.

Lemma next_victim_spec p idx p' :
  next_victim cfg p = (idx, p') -> core p' = core p /\ forall i, idx = Some i -> (i < total_pages cfg)%nat.
Proof.
  unfold next_victim. destruct (Nat.eqb_spec (total_pages cfg) 0) as [|Hn]; [by intros [= <- <-]|].
  apply victim_loop_spec; [lia|done].
Qed.

Lemma core_registered p p' : core p' = core p -> registered p' = registered p.
Proof. unfold core. congruence. Qed.

Lemma evict_returned_inv m h p budget w p' :
  registered p = true -> evict_returned budget p = (w, p') -> inv m (mkSys p h SIdle) -> inv m (mkSys p' h w).
Proof.
  unfold evict_returned. intros Hr [= <- <-]. apply sweeper_inv. by destruct (disabled p).
Qed.

Lemma evict_locked_registered outs punched dropped idx r k encoded p :
  registered p = true -> registered (evict_locked cfg outs punched dropped idx r k encoded p) = true.
Proof.
  intros Hr. unfold evict_locked. case_match; [done|].
  destruct (match encoded with None => (Zero, p) | Some buf => _ end) as [l q] eqn:Hp.
  assert (registered q = true) as Hq.
  { destruct encoded as [buf|]; [|by injection Hp as <- <-]. apply place_frame in Hp as (_ & _ & _ & -> & _). done. }
  destruct punched; cbn [negb]; [by destruct dropped|by destruct l].
Qed.

Lemma sweep_inv m outs punched dropped p h w w' p' :
  sweep_next cfg outs punched dropped w p = (w', p') -> inv m (mkSys p h w) -> inv m (mkSys p' h w').
Proof.
  intros Hs Hinv. pose proof (i_sweeper _ _ Hinv) as Hw. cbn [sy_sweeper sy_pager] in Hw.
  destruct w as [|b|b idx|b idx encoded]; cbn [sweep_next] in Hs.
  - by injection Hs as <- <-.
  - case_match; [|injection Hs as <- <-; by apply (sweeper_inv _ _ _ (SLoop b))].
    destruct (next_victim cfg p) as [v q] eqn:Hv. apply next_victim_spec in Hv as [Hc Hlt].
    destruct v as [idx|]; injection Hs as <- <-; apply (inv_core m p _ _ (SLoop b)); try done.
    split; [by rewrite (core_registered _ _ Hc)|by apply Hlt].
  - destruct Hw as [Hr Hi]. pose proof (sweeper_inv m p h (SRead b idx) SIdle I Hinv) as Hinv'.
    destruct (ev p idx) eqn:Hev; [by eapply evict_returned_inv|].
    destruct (region_for_page_va (regions cfg) (total_pages cfg) idx regions_fit Hi) as (r & k & Hreg & Ha). rewrite Hreg, Ha in Hs.
    destruct (mapped p !! va idx) as [page|] eqn:Hm; injection Hs as <- <-; [|done].
    apply (sweeper_inv _ _ _ (SRead b idx)); [|done]. split_and!; try done. by exists page.
  - destruct Hw as (Hr & Hi & _). destruct (region_for_page (regions cfg) idx) as [[r k]|] eqn:Hreg.
    + eapply evict_returned_inv; [|exact Hs|by eapply evict_locked_inv]. by apply evict_locked_registered.
    + injection Hs as <- <-. by apply (sweeper_inv _ _ _ (SPlace b idx encoded)).
Qed.

(** ** Every step *)

(** Memory without a pager. *)
Inductive mem_step : access -> list (list Z) -> list (list Z) -> Prop :=
  | ms_load idx page m : m !! idx = Some page -> mem_step (Load idx page) m m
  | ms_store idx page m : (idx < length m)%nat -> mem_step (Store idx page) m (<[idx := page]> m)
  | ms_internal m : mem_step Internal m m.

Lemma store_inv m idx old page p h :
  (idx < total_pages cfg)%nat -> mapped p !! va idx = Some old -> length page = PAGE_SIZE ->
  inv m (mkSys p h SIdle) -> inv (<[idx := page]> m) (mkSys (set_mapped (<[va idx := page]> (mapped p)) p) h SIdle).
Proof.
  intros Hi Hold Hsize Hinv. open_inv Hinv. split; cbn [sy_pager sy_handler sy_sweeper]; try done.
  - by rewrite length_insert.
  - by apply Forall_insert.
  - intros j q Hq. unfold page_ok. cbn [mapped set_mapped evicted].
    destruct (page_there _ _ idx Hinv Hi) as (c0 & Hc0 & _). destruct (decide (j = idx)) as [->|Hne].
    + rewrite list_lookup_insert_eq in Hq by (by rewrite Hlen). injection Hq as <-. rewrite lookup_insert_eq.
      pose proof (Hpg idx c0 Hc0) as Hok. unfold page_ok in Hok. rewrite Hold in Hok. by destruct Hok as (_ & ? & ?).
    + rewrite list_lookup_insert_ne in Hq by done. pose proof (mem_bound _ _ _ _ Hinv Hq).
      rewrite lookup_insert_ne by (by apply va_ne). by apply (Hpg j q).
  - destruct h as [|v i c|v i x|v|i x|i|i c|]; cbn [handler_ok mapped set_mapped evicted] in *; try done.
    + destruct Hh as (? & ? & -> & Hn & He). rewrite lookup_insert_ne by congruence. done.
    + destruct Hh as (? & -> & Hn & He). rewrite lookup_insert_ne by congruence. done.
    + destruct Hh as (? & Hn & He & Hg). split_and!; try done. rewrite lookup_insert. by case_decide.
    + destruct Hh as (? & Hn & He & Hg). split_and!; try done. rewrite lookup_insert. by case_decide.
Qed.

Lemma kernel_zero_inv m idx p h w :
  (idx < total_pages cfg)%nat -> registered p = false -> mapped p !! va idx = None -> (forall c, h <> HZeroFill (va idx) idx c) ->
  inv m (mkSys p h w) -> inv m (mkSys (set_mapped (<[va idx := ZERO_PAGE]> (mapped p)) p) h w).
Proof.
  intros Hi Hreg Hnone Hnz Hinv. open_inv Hinv. specialize (Hfr Hreg). split; cbn [sy_pager sy_handler sy_sweeper]; try done.
  - intros j q Hq. pose proof (mem_bound _ _ _ _ Hinv Hq) as Hj. specialize (Hpg j q Hq). unfold page_ok in *.
    cbn [mapped set_mapped evicted] in *. destruct (decide (j = idx)) as [->|Hne].
    + rewrite Hnone, (Hfr idx Hi) in Hpg. destruct Hpg as [-> ?]. rewrite lookup_insert_eq. split_and!; try done. by rewrite (Hfr idx Hi).
    + rewrite lookup_insert_ne by (by apply va_ne). done.
  - destruct h as [|v i c|v i x|v|i x|i|i c|]; cbn [handler_ok mapped set_mapped evicted] in *; try done.
    + destruct Hh as (? & ? & -> & Hn & He). rewrite lookup_insert_ne; [done|]. intros Heq.
      apply (page_va_inj _ (total_pages cfg)) in Heq as ->; [|done..]. by destruct (Hnz c).
    + destruct Hh as (? & -> & Hn & He & _). by rewrite Hfr in He.
    + destruct Hh as (? & Hn & He & _). by rewrite Hfr in He.
    + destruct Hh as (? & Hn & He & _). by rewrite Hfr in He.
  - destruct w as [|b|b i|b i enc]; try done. cbn in Hw. destruct Hw as [Hr _]. congruence.
Qed.

Lemma sweep_begin_inv m reg_ok p h w p' :
  sweep_begin reg_ok p = (w, p') -> inv m (mkSys p h SIdle) -> inv m (mkSys p' h w).
Proof.
  unfold sweep_begin, register_all_missing. intros Hs Hinv. destruct (disabled p); [by injection Hs as <- <-|].
  destruct (registered p) eqn:Hr; [injection Hs as <- <-; by eapply sweeper_inv|].
  destruct reg_ok; injection Hs as <- <-; [|by apply (inv_core m p _ _ SIdle)]. open_inv Hinv. by split.
Qed.

(** As long as the VM is not stopping, a step is a step of plain memory. *)
Lemma step_inv a s s' m :
  sys_step a s s' -> stopping (sy_pager s') = false -> inv m s -> exists m', mem_step a m m' /\ inv m' s'.
Proof.
  intros Hstep Hgo Hinv. destruct Hstep as [idx page p h Hi Hs Hm|idx old page p h Hi Hs Hm Hsz|idx p h w Hi Hr Hm Hnz|addr p h p' w Hm Hb
    |copied reads exchange h p h' p' w Hrd Hft Hs|reg_ok p h w' p' Ho Hb|outs punched dropped p h w w' p' Hs]; cbn [sy_pager] in Hgo.
  - exists m. split; [|done]. constructor. destruct (page_there _ _ idx Hinv Hi) as (c & Hc & _).
    pose proof (i_pages _ _ Hinv idx c Hc) as Hok. unfold page_ok in Hok. cbn [sy_pager] in Hok. rewrite Hm in Hok. destruct Hok as [-> _]. done.
  - exists (<[idx := page]> m). split; [constructor; by rewrite (i_mem _ _ Hinv)|]. by eapply store_inv.
  - exists m. split; [constructor|]. by apply kernel_zero_inv.
  - exists m. split; [constructor|]. by eapply fault_inv.
  - exists m. split; [constructor|]. by eapply serve_inv.
  - exists m. split; [constructor|]. by eapply sweep_begin_inv.
  - exists m. split; [constructor|]. by eapply sweep_inv.
Qed.

(** A VM that is stopping stays so. *)
Lemma place_stopping outs buf p : stopping (snd (place_encoded cfg outs buf p)) = stopping p.
Proof.
  unfold place_encoded, try_reserve_store. destruct (checked_add 64 _ _) as [next|]; cbn.
  1: destruct (next <=? _); [done|].
  all: destruct (SwapAlloc.alloc _) as [[slot|] sw]; [destruct (pwrite_all _ _ _ _) as [[|] file]|]; done.
Qed.

Lemma victim_loop_stopping total start k first p : stopping (snd (victim_loop total start k first p)) = stopping p.
Proof.
  revert first p. induction k as [|k IH]; intros first p; cbn [victim_loop]; [by destruct first|]. cbn zeta.
  destruct (bit_is_set (evicted p) _); [done|]. destruct (bit_is_set (referenced p) _); [|done]. by rewrite IH.
Qed.

Lemma evict_locked_stopping outs punched dropped idx r k encoded p :
  stopping (evict_locked cfg outs punched dropped idx r k encoded p) = stopping p.
Proof.
  unfold evict_locked. case_match; [done|].
  destruct (match encoded with None => (Zero, p) | Some buf => _ end) as [l q] eqn:Hp.
  assert (stopping q = stopping p) as <-.
  { destruct encoded as [buf|]; [|by injection Hp as <- <-]. by rewrite <- (place_stopping outs buf p), Hp. }
  destruct punched; cbn [negb]; [by destruct dropped|by destruct l].
Qed.

Lemma step_stopping a s s' : sys_step a s s' -> stopping (sy_pager s) = true -> stopping (sy_pager s') = true /\ a = Internal.
Proof.
  intros Hstep Hgo. destruct Hstep as [idx page p h Hi Hs Hm|idx old page p h Hi Hs Hm Hsz|idx p h w Hi Hr Hm Hnz|addr p h p' w Hm Hb
    |copied reads exchange h p h' p' w Hrd Hft Hs|reg_ok p h w' p' Ho Hb|outs punched dropped p h w w' p' Hs]; cbn [sy_pager] in *; try congruence;
    split; try done.
  - unfold serve_begin in Hb. cbn zeta in Hb. repeat case_match; by injection Hb as <- <-.
  - destruct h as [|v i c|v i x|v|i x|i|i c|]; cbn [serve_next uffd_copy] in Hs; unfold uffd_copy in Hs;
      try (repeat case_match; simplify_eq/=; done).
    + assert (Hl : stopping (snd (load_loc cfg reads exchange x p)) = true) by (destruct x; cbn [load_loc]; repeat case_match; done).
      destruct (load_loc cfg reads exchange x p) as [[page|e] q]; cbn [snd] in Hl.
      * repeat case_match; simplify_eq/=; done.
      * injection Hs as <- <-. by destruct (fatal cfg).
    + injection Hs as <- <-. by destruct x.
  - unfold sweep_begin, register_all_missing in Hb. repeat case_match; simplify_eq/=; done.
  - destruct w as [|b|b idx|b idx encoded]; cbn [sweep_next] in Hs; [by injection Hs as <- <-|..].
    + case_match; [|by injection Hs as <- <-]. unfold next_victim in Hs.
      destruct (total_pages cfg =? 0)%nat; [by injection Hs as <- <-|].
      pose proof (victim_loop_stopping (total_pages cfg) (clock_hand p mod total_pages cfg) (total_pages cfg) None p) as Hv.
      destruct (victim_loop _ _ _ _ _) as [[v|] q]; cbn [snd] in Hv; injection Hs as <- <-; congruence.
    + unfold evict_returned in Hs. repeat case_match; simplify_eq/=; done.
    + case_match; [|by injection Hs as <- <-]. case_match. unfold evict_returned in Hs. injection Hs as <- <-. by rewrite evict_locked_stopping.
Qed.
End invariant.
