(* ===== verification/PagerMemory.v ===== *)
(** What the guest of a VM with a pager sees: memory, as if nothing were ever evicted. *)

From S2P Require Import Prelude Decimal RedisWire RedisClient Pager PagerInvariant.

#[local] Arguments Nat.div : simpl never.
#[local] Arguments Nat.modulo : simpl never.
#[local] Arguments Nat.add : simpl never.
#[local] Opaque SHARDS PAGE_SIZE MAX_EVICT_PER_SWEEP.

(** ** Creation *)

(** The mappings of guest memory: whole pages of the address space, apart from each other. *)
Fixpoint mappings_ok (mem : list GuestRegion) : Prop :=
  match mem with
  | [] => True
  | r :: mem =>
      0 <= gr_ptr r /\ gr_ptr r + Z.of_nat (gr_len r) < 2 ^ 64 /\ gr_ptr r mod 4096 = 0 /\
      Forall (fun r' => gr_ptr r + Z.of_nat (gr_len r) <= gr_ptr r' \/ gr_ptr r' + Z.of_nat (gr_len r') <= gr_ptr r) mem /\
      mappings_ok mem
  end.

Lemma collect_regions_shape mem n rs total :
  collect_regions mem n = Ok (rs, total) -> (fun r => (base r, len r)) <$> rs = (fun r => (gr_ptr r, gr_len r)) <$> mem.
Proof.
  revert n rs total. induction mem as [|r mem IH]; intros n rs total; cbn [collect_regions].
  - case_match; [done|]. by intros [= <- <-].
  - repeat (case_match; [done|]). intros ([foff cloned] & _ & Hc)%result_bind_Ok. repeat (case_match; [done|]).
    apply result_bind_Ok in Hc as ([rest t] & Hr & [= <- <-]). cbn. f_equal. by eapply IH.
Qed.

Lemma collect_regions_ok mem n rs total :
  mappings_ok mem -> collect_regions mem n = Ok (rs, total) -> regions_ok n rs total.
Proof.
  revert n rs total. induction mem as [|r mem IH]; intros n rs total; cbn [collect_regions mappings_ok].
  - intros _. case_match; [done|]. by intros [= <- <-].
  - intros (Hb & He & Ha & Hf & Hm). case_match; [done|]. case_match eqn:Hal; [done|].
    intros ([foff cloned] & _ & Hc)%result_bind_Ok. repeat (case_match; [done|]).
    apply result_bind_Ok in Hc as ([rest t] & Hr & [= <- <-]). cbn [regions_ok page_start len base].
    split; [done|]. split; [by apply negb_false_iff, Nat.eqb_eq in Hal|]. split_and!; try done; [|by apply IH].
    apply collect_regions_shape in Hr. rewrite Forall_forall in Hf. apply Forall_forall. intros r' Hin.
    apply (list_elem_of_fmap_2 (fun r => (base r, len r))) in Hin. rewrite Hr in Hin.
    apply list_elem_of_fmap in Hin as (g & Heq & Hg). injection Heq as -> ->. by apply Hf.
Qed.

(** The memory at the start: what is not mapped reads as zeros. *)
Definition starts_with_memory (cfg : PagerConfig) (content : gmap Z (list Z)) (m : list (list Z)) : Prop :=
  length m = total_pages cfg /\ Forall (fun page => length page = PAGE_SIZE) m /\
  forall idx page, m !! idx = Some page ->
    match content !! page_va (regions cfg) idx with Some q => q = page | None => page = ZERO_PAGE end.

(** [Pager::new] on the memory of a VM, or [Pager::new_remote] on memory of which nothing is there
    yet and that the remote source has. *)
Inductive pager_started (source : nat -> list Z) : PagerConfig -> Pager -> list (list Z) -> Prop :=
  | started_zram mem target store_max content cfg p m :
      mappings_ok mem -> new_zram mem target store_max true content = Ok (cfg, p) -> starts_with_memory cfg content m ->
      pager_started source cfg p m
  | started_remote mem content cfg p :
      mappings_ok mem -> new_remote mem true true content = Ok (cfg, p) ->
      (forall idx, (idx < total_pages cfg)%nat -> content !! page_va (regions cfg) idx = None) ->
      (forall idx, length (source idx) = PAGE_SIZE) ->
      pager_started source cfg p (map source (seq 0 (total_pages cfg))).

Lemma new_pager_spec cfg resident content p :
  new_pager cfg resident true content = Ok p ->
  Z.of_nat (total_pages cfg) < 2 ^ 32 /\ swap p = mkSwap 0 [] (total_pages cfg) [] /\ shards p = replicate SHARDS ∅ /\
  resident_pages p = Z.of_nat resident /\ store_bytes p = 0 /\ registered p = false /\ stopping p = false /\ mapped p = content /\
  (total_pages cfg <= 64 * length (evicted p))%nat /\ (forall i, bit_is_set (evicted p) i = false) /\ (forall i, shard_get i p = None).
Proof.
  unfold new_pager. case_match eqn:Hs; [done|]. cbn [negb]. intros [= <-]. apply Z.leb_gt in Hs. cbn [swap shards resident_pages store_bytes registered stopping mapped evicted].
  split_and!; try done.
  - rewrite length_replicate. unfold div_ceil. set (t := Z.of_nat (total_pages cfg)) in *.
    assert (t <= 64 * ((t + 64 - 1) / 64)) by divlia. lia.
  - intros i. rewrite bit_is_set_testbit. destruct (_ !! _) as [w|] eqn:E; [|apply Z.bits_0].
    apply lookup_replicate in E as [-> _]. apply Z.bits_0.
  - intros i. unfold shard_get. cbn [shards]. destruct (_ !! _) as [w|] eqn:E; [|done]. apply lookup_replicate in E as [-> _]. done.
Qed.

Lemma nsum_const c n : nsum (fun _ => c) n = (n * c)%nat.
Proof. induction n as [|n IH]; cbn; [done|]. rewrite IH. unfold Nat.add. fold Nat.add. lia. Qed.

Section seed.
Context (cfg : PagerConfig).

(** After seeding, exactly the pages of the list are evicted, and lie on the source. *)
Lemma seed_spec l p :
  length (shards p) = SHARDS -> (forall i, i ∈ l -> (i / 64 < length (evicted p))%nat) ->
  let q := foldl (fun p idx => set_evicted (set_bit idx (evicted p)) (shard_insert idx (Remote idx) p)) p l in
  length (shards q) = SHARDS /\ length (evicted q) = length (evicted p) /\
  (forall i, bit_is_set (evicted q) i = bool_decide (i ∈ l) || bit_is_set (evicted p) i) /\
  (forall i, shard_get i q = if decide (i ∈ l) then Some (Remote i) else shard_get i p) /\
  (swap q, resident_pages q, store_bytes q, registered q, stopping q, mapped q) =
  (swap p, resident_pages p, store_bytes p, registered p, stopping p, mapped p).
Proof.
  revert p. induction l as [|x l IH]; intros p Hsh Hb; cbn [foldl].
  - by split_and!.
  - cbn zeta in IH. set (p1 := set_evicted (set_bit x (evicted p)) (shard_insert x (Remote x) p)).
    destruct (IH p1) as (H1 & H2 & H3 & H4 & H5).
    { change (length (shards (shard_insert x (Remote x) p)) = SHARDS). by rewrite length_shard_insert. }
    { intros i Hi. change (i / 64 < length (set_bit x (evicted p)))%nat. rewrite pager_length_set_bit. apply Hb. by apply list_elem_of_further. }
    clear IH. split_and!; try done.
    + rewrite H2. apply pager_length_set_bit.
    + intros i. rewrite H3. change (evicted p1) with (set_bit x (evicted p)). rewrite set_bit_spec by (apply Hb, list_elem_of_here).
      rewrite orb_assoc. f_equal. apply eq_true_iff_eq. rewrite orb_true_iff, !bool_decide_eq_true, elem_of_cons. naive_solver.
    + intros i. rewrite H4. change (shard_get i p1) with (shard_get i (shard_insert x (Remote x) p)). rewrite shard_get_insert by done.
      destruct (decide (i ∈ l)), (decide (i ∈ x :: l)) as [Hin|Hin]; rewrite ?elem_of_cons in Hin; try done.
      * destruct Hin; by right.
      * destruct Hin as [->|]; [|done]. by rewrite decide_True.
      * rewrite decide_False; [done|]. intros ->. destruct Hin. by left.
Qed.
End seed.

Section runs.
Context `{Deflate}.
Context (source : nat -> list Z).

Lemma started_facts cfg p m :
  pager_started source cfg p m ->
  regions_ok 0 (regions cfg) (total_pages cfg) /\ (remote_source cfg = true -> fatal cfg = true) /\
  Z.of_nat (total_pages cfg) < 2 ^ 32 /\ stopping p = false /\ inv cfg source m (mkSys p HIdle SIdle).
Proof.
  destruct 1 as [mem target store_max content cfg p m Hmem Hnew Hm|mem content cfg p Hmem Hnew Hc Hsrc].
  - unfold new_zram in Hnew. apply result_bind_Ok in Hnew as ([rs total] & Hrs & Hnew). cbn zeta in Hnew.
    set (cfg0 := mkConfig rs total target (Z.of_nat store_max) false false) in *.
    apply result_bind_Ok in Hnew as (p0 & Hp & [= <- <-]). apply (collect_regions_ok _ _ _ _ Hmem) in Hrs.
    apply new_pager_spec in Hp as (Hsmall & Hsw & Hsh & Hres & Hst & Hreg & Hgo & Hmap & Hbits & Hev & Hget).
    destruct Hm as (Hlen & Hsize & Hcont). split_and!; try done.
    split; cbn [sy_pager sy_handler sy_sweeper]; try done.
    + by rewrite Hsh, length_replicate.
    + intros idx page Hp. unfold page_ok. rewrite Hmap, Hget, Hev. specialize (Hcont idx page Hp). destruct (content !! _); [|done].
      subst. by split_and!.
    + split_and!; [rewrite Hsw; split; [apply NoDup_nil_2|apply Forall_nil_2]|..]; intros *; cbn; by rewrite Hget.
    + rewrite Hst. rewrite (nsum_ext _ (fun _ => 0%nat)) by (intros i _; cbn; by rewrite Hget). rewrite nsum_const. by rewrite Nat.mul_0_r.
    + rewrite Hres. unfold residents. rewrite (nsum_ext _ (fun _ => 1%nat)) by (intros i _; by rewrite Hev). rewrite nsum_const. cbn [uncounted].
      rewrite wrap_small; [cbn; lia|]. unfold in_width. cbn in Hsmall |- *. lia.
  - unfold new_remote in Hnew. apply result_bind_Ok in Hnew as ([rs total] & Hrs & Hnew). cbn zeta in Hnew.
    set (cfg0 := mkConfig rs total total 0 true true) in *.
    apply result_bind_Ok in Hnew as (p0 & Hp & Hnew). apply (collect_regions_ok _ _ _ _ Hmem) in Hrs.
    apply new_pager_spec in Hp as (Hsmall & Hsw & Hsh & Hres & Hst & Hreg & Hgo & Hmap & Hbits & Hev & Hget).
    destruct (seed_spec (seq 0 total) p0) as (S1 & S2 & S3 & S4 & S5).
    { by rewrite Hsh, length_replicate. } { intros i Hi%elem_of_seq. apply Nat.Div0.div_lt_upper_bound. cbn in Hbits. lia. }
    unfold seed_remote_pages in Hnew. change (total_pages cfg0) with total in Hnew.
    set (q := foldl _ p0 (seq 0 total)) in *. injection S5 as Q1 Q2 Q3 Q4 Q5 Q6. unfold register_all_missing in Hnew. rewrite Q4, Hreg in Hnew.
    cbn in Hnew. injection Hnew as <- <-. cbn [total_pages cfg0 regions] in *.
    assert (Hin : forall i, (i < total)%nat -> i ∈ seq 0 total) by (intros i Hi; apply elem_of_seq; lia).
    assert (Hgq : forall i, (i < total)%nat -> shard_get i (set_registered q) = Some (Remote i)).
    { intros i Hi. change (shard_get i q = Some (Remote i)). rewrite S4. by rewrite decide_True by auto. }
    assert (Hown : forall i l, shard_get i (set_registered q) = Some l -> l = Remote i).
    { intros i l Hl. change (shard_get i q = Some l) in Hl. rewrite S4 in Hl. rewrite Hget in Hl. case_decide; [by injection Hl as <-|done]. }
    assert (Heq : forall i, (i < total)%nat -> bit_is_set (evicted (set_registered q)) i = true).
    { intros i Hi. change (bit_is_set (evicted q) i = true). rewrite S3, bool_decide_eq_true_2 by auto. done. }
    split_and!; try done; [by rewrite <- Q5 in Hgo|].
    split; cbn [sy_pager sy_handler sy_sweeper]; try done.
    + change (total <= 64 * length (evicted q))%nat. by rewrite S2.
    + by rewrite length_map, length_seq.
    + apply Forall_forall. intros x (i & -> & _)%list_elem_of_fmap. done.
    + intros i Hi. change (shard_get i q = None). rewrite S4, decide_False, Hget; [done|]. intros ?%elem_of_seq. cbn in Hi. lia.
    + intros i page Hp. apply list_lookup_fmap_Some in Hp as (k & -> & [-> Hk]%lookup_seq). change (0 + i)%nat with i.
      unfold page_ok. change (mapped (set_registered q)) with (mapped q). rewrite Q6, Hmap, Hc by done. rewrite Heq by done.
      exists (Remote i). split; [by apply Hgq|done].
    + split_and!; [change (swap_room (swap q)); rewrite Q1, Hsw; split; [apply NoDup_nil_2|apply Forall_nil_2]|..].
      * intros i slot n Hi. by apply Hown in Hi.
      * intros i j slot n k Hi. by apply Hown in Hi.
    + change (store_bytes (set_registered q)) with (store_bytes q). rewrite Q3, Hst.
      rewrite (nsum_ext _ (fun _ => 0%nat)) by (intros i Hi; cbn in Hi |- *; by rewrite Hgq). rewrite nsum_const. by rewrite Nat.mul_0_r.
    + change (resident_pages (set_registered q)) with (resident_pages q). rewrite Q2, Hres. unfold residents.
      rewrite (nsum_ext _ (fun _ => 0%nat)) by (intros i Hi; by rewrite Heq). rewrite nsum_const. by rewrite Nat.mul_0_r.
Qed.

(** ** Runs *)

Inductive sys_run (cfg : PagerConfig) : list access -> Sys -> Sys -> Prop :=
  | run_nil s : sys_run cfg [] s s
  | run_cons a tr s1 s2 s3 : sys_step cfg source a s1 s2 -> sys_run cfg tr s2 s3 -> sys_run cfg (a :: tr) s1 s3.

Inductive mem_run : list access -> list (list Z) -> list (list Z) -> Prop :=
  | mem_nil m : mem_run [] m m
  | mem_cons a tr m1 m2 m3 : mem_step a m1 m2 -> mem_run tr m2 m3 -> mem_run (a :: tr) m1 m3.

(** A whole run is a run of plain memory, also when it ends with a VM that stops. *)
Lemma run_inv cfg tr s s' m :
  regions_ok 0 (regions cfg) (total_pages cfg) -> (remote_source cfg = true -> fatal cfg = true) ->
  sys_run cfg tr s s' -> inv cfg source m s \/ stopping (sy_pager s) = true ->
  exists m', mem_run tr m m' /\ (inv cfg source m' s' \/ stopping (sy_pager s') = true).
Proof.
  intros Hrs Hf Hrun. revert m. induction Hrun as [s|a tr s1 s2 s3 Hstep _ IH]; intros m Hinv; [exists m; split; [constructor|done]|].
  destruct (stopping (sy_pager s2)) eqn:Hgo.
  - destruct (stopping (sy_pager s1)) eqn:Hgo1.
    + destruct (step_stopping cfg source Hf a s1 s2 Hstep Hgo1) as [_ ->]. destruct (IH m) as (m' & Hm & He); [by right|].
      exists m'. split; [|done]. by eapply mem_cons; [constructor|].
    + destruct Hinv as [Hinv|]; [|done]. assert (exists m1, mem_step a m m1) as [m1 Hm1].
      { destruct Hstep; try (exists m; by constructor); cbn in Hgo, Hgo1; congruence. }
      destruct (IH m1) as (m' & Hm & He); [by right|]. exists m'. split; [by eapply mem_cons|done].
  - destruct Hinv as [Hinv|Hs1]; [|destruct (step_stopping cfg source Hf a s1 s2 Hstep Hs1); congruence].
    destruct (step_inv cfg source Hrs Hf a s1 s2 m Hstep Hgo Hinv) as (m1 & Hm1 & Hinv1).
    destruct (IH m1) as (m' & Hm & He); [by left|]. exists m'. split; [by eapply mem_cons|done].
Qed.

(** The handler alone, when the calls of the kernel and the exchange with the source end well. *)
Fixpoint serve_n (cfg : PagerConfig) (exchange : option (list Z)) (n : nat) (hp : Handler * Pager) : Handler * Pager :=
  match n with
  | O => hp
  | S n => serve_n cfg exchange n (serve_next cfg true [] exchange (fst hp) (snd hp))
  end.

Lemma release_mapped l p : mapped (release_loc l p) = mapped p.
Proof. by destruct l. Qed.

(** Five steps bring the page of a fault back. *)
Lemma fault_served cfg m p w addr idx exchange :
  regions_ok 0 (regions cfg) (total_pages cfg) -> inv cfg source m (mkSys p HIdle w) -> (idx < total_pages cfg)%nat ->
  Z.land addr (Z.lnot 4095) = page_va (regions cfg) idx -> mapped p !! page_va (regions cfg) idx = None ->
  (forall k, shard_get idx p = Some (Remote k) -> fetch_page exchange = Ok (source k)) ->
  let '(h', p') := serve_n cfg exchange 5 (serve_begin cfg addr p) in
  h' = HIdle /\ mapped p' !! page_va (regions cfg) idx = m !! idx.
Proof.
  intros Hrs Hinv Hi Haddr Hnone Hfetch. destruct (page_there cfg source m _ idx Hinv Hi) as (content & Hm & _).
  pose proof (i_pages _ _ _ _ Hinv idx content Hm) as Hok. unfold page_ok in Hok. cbn [sy_pager sy_handler own] in Hok. rewrite Hnone in Hok.
  unfold serve_begin. cbn zeta. rewrite Haddr, (page_index_page_va 0 _ (total_pages cfg)) by (done || lia). rewrite Hm.
  destruct (bit_is_set (evicted p) idx); cbn [negb].
  - destruct Hok as (l & Hl & Hc). rewrite Hl.
    assert (Hload : load_loc cfg [] exchange l (shard_remove idx p) = (Ok content, shard_remove idx p)).
    { destruct l as [|buf|slot n|k]; cbn [loc_content load_loc] in *.
      - congruence.
      - destruct (decode buf); congruence.
      - change (sw_file (swap (shard_remove idx p))) with (sw_file (swap p)). destruct (pread_exact [] _ _ _) as [b|]; [|done]. cbn in Hc.
        destruct (decode b); congruence.
      - destruct (remote_source cfg); [|done]. rewrite (Hfetch k Hl). congruence. }
    cbn [serve_n serve_next fst snd]. rewrite Hload. unfold uffd_copy. change (mapped (shard_remove idx p)) with (mapped p). rewrite Hnone.
    cbn [fst snd serve_next]. split; [done|]. cbn [mapped add_resident set_resident set_referenced set_evicted]. rewrite release_mapped.
    cbn [mapped set_mapped]. by rewrite lookup_insert_eq.
  - destruct Hok as [-> _]. cbn [serve_n serve_next fst snd]. unfold uffd_copy. rewrite Hnone. cbn [fst snd serve_next]. split; [done|].
    cbn [mapped set_referenced set_mapped]. by rewrite lookup_insert_eq.
Qed.

(** C19: Paging is transparent as long as the swap file can be read.  Whatever is evicted to compressed memory or to
    the swap file, or still lies on a remote source, whatever the interleaving of the guest, the handler of faults
    and the sweeper, and whichever evictions, registrations, copies and writes of the swap file fail, the loads
    and stores of the guest are those of plain memory; and a fault at a page of a running VM is
    served by five steps of the handler, with the content of the page.  Every read of the swap file
    succeeds here: one that fails gives the guest a page of zeros ([swap_read_error_zeroes_page]). *)
Theorem paging_transparent cfg p m tr s :
  pager_started source cfg p m -> sys_run cfg tr (mkSys p HIdle SIdle) s ->
  exists m', mem_run tr m m' /\
    forall addr idx exchange,
      stopping (sy_pager s) = false -> sy_handler s = HIdle -> (idx < total_pages cfg)%nat ->
      Z.land addr (Z.lnot 4095) = page_va (regions cfg) idx -> mapped (sy_pager s) !! page_va (regions cfg) idx = None ->
      (forall k, shard_get idx (sy_pager s) = Some (Remote k) -> fetch_page exchange = Ok (source k)) ->
      let '(h', p') := serve_n cfg exchange 5 (serve_begin cfg addr (sy_pager s)) in
      h' = HIdle /\ mapped p' !! page_va (regions cfg) idx = m' !! idx.
Proof.
  intros Hst Hrun. destruct (started_facts cfg p m Hst) as (Hrs & Hf & _ & _ & Hinv).
  destruct (run_inv cfg tr _ s m Hrs Hf Hrun (or_introl Hinv)) as (m' & Hm & He). exists m'. split; [done|].
  intros addr idx exchange Hgo Hidle Hi Haddr Hnone Hfetch. destruct He as [Hinv'|]; [|congruence].
  destruct s as [q h w]. cbn in *. subst h. by eapply fault_served.
Qed.

(** When the handler is idle, the counters are exact. *)
Lemma counters_exact cfg p m tr s :
  pager_started source cfg p m -> sys_run cfg tr (mkSys p HIdle SIdle) s -> stopping (sy_pager s) = false -> sy_handler s = HIdle ->
  resident_pages (sy_pager s) = Z.of_nat (residents (total_pages cfg) (sy_pager s)) /\
  store_bytes (sy_pager s) = wrap 64 (Z.of_nat (nsum (fun i => ram_len (shard_get i (sy_pager s))) (total_pages cfg))).
Proof.
  intros Hst Hrun Hgo Hidle. destruct (started_facts cfg p m Hst) as (Hrs & Hf & Hsmall & _ & Hinv).
  destruct (run_inv cfg tr _ s m Hrs Hf Hrun (or_introl Hinv)) as (m' & Hm & [Hinv'|]); [|congruence].
  destruct s as [q h w]. cbn in *. subst h. split; [|exact (i_store _ _ _ _ Hinv')].
  pose proof (i_resident _ _ _ _ Hinv') as Hre. cbn [sy_pager sy_handler uncounted] in Hre. rewrite Hre, Z.sub_0_r. apply wrap_small. unfold residents.
  assert (forall n, nsum (fun i => (if bit_is_set (evicted q) i then 0 else 1)%nat) n <= n)%nat as Hle.
  { induction n as [|n IH]; cbn [nsum]; [lia|]. destruct (bit_is_set _ n); lia. }
  specialize (Hle (total_pages cfg)). unfold in_width. lia.
Qed.
End runs.

(** ** Victims *)

Lemma victim_loop_finds total start k first p :
  (k <= total)%nat -> (0 < total)%nat ->
  (forall i, first = Some i -> bit_is_set (evicted p) i = false) ->
  (first <> None \/ exists j, (total - k <= j < total)%nat /\ bit_is_set (evicted p) ((start + j) mod total) = false) ->
  exists idx, fst (victim_loop total start k first p) = Some idx /\ bit_is_set (evicted p) idx = false.
Proof.
  intros Hk Ht. revert first p Hk. induction k as [|k IH]; intros first p Hk Hfirst Hex; cbn [victim_loop].
  - destruct first as [i|]; [exists i; split; [done|by apply Hfirst]|]. destruct Hex as [|(j & Hj & _)]; [done|lia].
  - cbn zeta. set (idx := ((start + (total - S k)) mod total)%nat). destruct (bit_is_set (evicted p) idx) eqn:He.
    + apply IH; [lia|done|]. destruct Hex as [|(j & Hj & Hj')]; [by left|right]. exists j. split; [|done].
      enough (j <> total - S k)%nat by lia. intros ->. unfold idx in He. congruence.
    + assert (Hf' : forall i, match first with None => Some idx | Some _ => first end = Some i -> bit_is_set (evicted p) i = false)
        by (intros i; destruct first; [apply Hfirst|by intros [= <-]]).
      destruct (bit_is_set (referenced p) idx); [|by exists idx].
      destruct (IH (match first with None => Some idx | Some _ => first end) (set_referenced (clear_bit idx (referenced p)) p)) as (v & Hv & Hev); [lia|done| |by exists v].
      left. by destruct first.
Qed.

(** The clock finds a page that is not evicted whenever there is one. *)
Theorem next_victim_finds cfg p j :
  (j < total_pages cfg)%nat -> bit_is_set (evicted p) j = false ->
  exists idx, fst (next_victim cfg p) = Some idx /\ bit_is_set (evicted p) idx = false.
Proof.
  intros Hj Hev. unfold next_victim. destruct (Nat.eqb_spec (total_pages cfg) 0); [lia|].
  apply victim_loop_finds; [done|lia|done|]. right. set (t := total_pages cfg) in *. set (c := (clock_hand p mod t)%nat).
  assert (Hc : (c < t)%nat) by (apply Nat.mod_upper_bound; lia).
  exists (if decide (c <= j)%nat then j - c else j + t - c)%nat. case_decide.
  - split; [lia|]. replace (c + (j - c))%nat with j by lia. by rewrite Nat.mod_small.
  - split; [lia|]. replace (c + (j + t - c))%nat with (j + 1 * t)%nat by lia. rewrite Nat.Div0.mod_add. by rewrite Nat.mod_small.
Qed.

(** ** Examples *)

Module PagerExamples.

(** A compressor that knows runs of one byte. *)
Definition rle_compress (data : list Z) : list Z :=
  match data with
  | [] => [1]
  | b :: _ => if forallb (fun x => x =? b) data then [0; b; Z.of_nat (length data)] else 1 :: data
  end.
Definition rle_decompress (buf : list Z) (limit : nat) : option (list Z) :=
  match buf with
  | [0; b; n] => if (Z.to_nat n <=? limit)%nat then Some (replicate (Z.to_nat n) b) else None
  | 1 :: data => if (length data <=? limit)%nat then Some data else None
  | _ => None
  end.

Lemma rle_round_trip data limit : (length data <= limit)%nat -> rle_decompress (rle_compress data) limit = Some data.
Proof.
  intros Hl. assert (Hall : forall b l, forallb (fun x => x =? b) l = true -> l = replicate (length l) b).
  { intros b l. induction l as [|x l IH]; [done|]. cbn. intros [->%Z.eqb_eq Hx]%andb_true_iff. by rewrite <- IH. }
  unfold rle_compress. destruct data as [|b data]; [done|]. case_match eqn:E; cbn [rle_decompress].
  - rewrite Nat2Z.id, (proj2 (Nat.leb_le _ _)) by done. by rewrite <- (Hall b).
  - rewrite (proj2 (Nat.leb_le _ _)) by done. done.
Qed.

#[local] Instance rle : Deflate := {|
  compress_to_vec := rle_compress; decompress_to_vec_with_limit := rle_decompress; inflate_deflate := rle_round_trip |}.

#[local] Transparent SHARDS PAGE_SIZE MAX_EVICT_PER_SWEEP.

(** Two pages at address 8192, the first of them written. *)
Definition page_a : list Z := replicate PAGE_SIZE 171.
Definition ex_mem : list GuestRegion := [mkGuest 8192 0 (2 * PAGE_SIZE) (Some (0, true))].
Definition ex_content : gmap Z (list Z) := {[ 8192 := page_a ]}.
Definition ex_config (store_max : nat) : PagerConfig := mkConfig [mkRegion 8192 0 (2 * PAGE_SIZE) 0 0] 2 1 (Z.of_nat store_max) false false.
Definition ex_pager : Pager :=
  mkPager (mkSwap 0 [] 2 []) (replicate SHARDS ∅) [0] [0] 2 0 0 false false false ex_content.
Definition ex_sweep (cfg : PagerConfig) (outs : list io_out) (s : Sys) : Sys :=
  let '(w, p) := sweep_next cfg outs true true (sy_sweeper s) (sy_pager s) in mkSys p (sy_handler s) w.
Definition ex_begun : Sys := let '(w, p) := sweep_begin true ex_pager in mkSys p HIdle w.
Definition ex_swept (cfg : PagerConfig) : Sys := ex_sweep cfg [] (ex_sweep cfg [] (ex_sweep cfg [] (ex_sweep cfg [] ex_begun))).

Lemma ex_sweep_step cfg source outs s : sys_step cfg source Internal s (ex_sweep cfg outs s).
Proof.
  destruct s as [p h w]. unfold ex_sweep. cbn [sy_pager sy_handler sy_sweeper].
  destruct (sweep_next cfg outs true true w p) as [w' p'] eqn:E. by eapply ss_sweep_next.
Qed.

Lemma ex_begun_step cfg source : over_target cfg ex_pager = true -> sys_step cfg source Internal (mkSys ex_pager HIdle SIdle) ex_begun.
Proof. intros Ho. unfold ex_begun. destruct (sweep_begin true ex_pager) as [w p] eqn:E. by eapply ss_sweep. Qed.

(** One sweep evicts the first page, to compressed memory or to the swap file, and a fault brings
    it back. *)
Example evict_and_fault :
  (shard_get 0 (sy_pager (ex_swept (ex_config 64))), mapped (sy_pager (ex_swept (ex_config 64))), resident_pages (sy_pager (ex_swept (ex_config 64)))) =
    (Some (Ram [2; 0; 171; 4096]), ∅, 1) /\
  shard_get 0 (sy_pager (ex_swept (ex_config 0))) = Some (Swap 0 4) /\
  mapped (snd (serve_n (ex_config 0) None 5 (serve_begin (ex_config 0) 8200 (sy_pager (ex_swept (ex_config 0)))))) = ex_content.
Proof. by vm_compute. Qed.

(** When the swap file cannot be read, the guest gets a page of zeros and runs on; only a page that a
    remote source does not deliver stops the VM. *)
Example swap_read_error_zeroes_page :
  let p := sy_pager (ex_swept (ex_config 0)) in
  let '(h, p) := serve_begin (ex_config 0) 8192 p in
  let '(h, p) := serve_next (ex_config 0) true [Failed] None h p in
  mapped p !! 8192 = Some ZERO_PAGE /\ disabled p = true /\ stopping p = false /\ page_a <> ZERO_PAGE.
Proof. by vm_compute. Qed.

(** A message for a page that is there by now turns the pager off. *)
Example stale_fault_disables :
  let '(h, p) := serve_begin (ex_config 64) 8192 ex_pager in
  let '(h, p) := serve_next (ex_config 64) true [] None h p in
  (h, disabled p, mapped p) = (HIdle, true, ex_content).
Proof. by vm_compute. Qed.

Example remote_page_response :
  fetch_page (Some (bs "HTTP/1.1 200 OK" ++ CRLF ++ bs "Content-Length: 4096" ++ CRLF ++ CRLF ++ page_a)) = Ok page_a /\
  fetch_page (Some (bs "HTTP/1.1 404 Not Found" ++ CRLF ++ CRLF ++ page_a)) = Err BadStatus /\
  fetch_page (Some (bs "HTTP/1.1 200 OK" ++ CRLF ++ CRLF ++ tail page_a)) = Err BodyLength.
Proof. by vm_compute. Qed.

Example endpoints :
  parse_http_endpoint (bs "http://10.0.0.7:8443/v1/pages/") = Ok (mkEndpoint (bs "10.0.0.7") (bs "10.0.0.7:8443") 8443 (bs "/v1/pages")) /\
  parse_http_endpoint (bs "http://[fd00::1]:90") = Ok (mkEndpoint (bs "fd00::1") (bs "[fd00::1]:90") 90 []) /\
  parse_http_endpoint (bs "http://node") = Ok (mkEndpoint (bs "node") (bs "node") 80 []) /\
  parse_http_endpoint (bs "http://node:70000") = Err BadPort /\
  parse_http_endpoint (bs "https://node") = Err NotHttp.
Proof. by vm_compute. Qed.

Lemma paging_transparent_witness :
  pager_started (fun _ => ZERO_PAGE) (ex_config 64) ex_pager [page_a; ZERO_PAGE] /\
  exists m', mem_run [Internal; Internal; Internal; Internal; Internal] [page_a; ZERO_PAGE] m' /\
    mapped (snd (serve_n (ex_config 64) None 5 (serve_begin (ex_config 64) 8200 (sy_pager (ex_swept (ex_config 64)))))) !! 8192 = m' !! 0%nat.
Proof.
  assert (Hst : pager_started (fun _ => ZERO_PAGE) (ex_config 64) ex_pager [page_a; ZERO_PAGE]).
  { apply (started_zram _ ex_mem 1 64 ex_content).
    - repeat constructor; vm_compute; discriminate || done.
    - by vm_compute.
    - split; [done|]. split; [repeat constructor|]. intros [|[|idx]] page; intros [= <-]; by vm_compute. }
  split; [done|].
  destruct (paging_transparent (fun _ => ZERO_PAGE) (ex_config 64) ex_pager [page_a; ZERO_PAGE]
    [Internal; Internal; Internal; Internal; Internal] (ex_swept (ex_config 64)) Hst) as (m' & Hm & Hserve).
  { eapply run_cons; [by apply ex_begun_step; vm_compute|]. unfold ex_swept.
    do 4 (eapply run_cons; [apply (ex_sweep_step _ _ [])|]). apply run_nil. }
  exists m'. split; [done|]. specialize (Hserve 8200 0%nat None eq_refl eq_refl).
  destruct (serve_n _ _ _ _) as [h' p'] eqn:E. apply Hserve; [vm_compute; lia|by vm_compute..|]. intros k Hk. by vm_compute in Hk.
Defined.

End PagerExamples.
