(* ===== verification/ProcLogic.v ===== *)
(** Runs of interaction trees and a logic for them: a monitor reads the events of a run with their
    answers, and [safe] says that it never refuses one and what holds of its state at the end. *)

From S2P Require Import Prelude.
From ITree Require Import ITree Eq.Shallow.

Section logic.
Context {E : Type -> Type}.

Inductive ev : Type := Ev (X : Type) (c : E X) (x : X).
Arguments Ev {X} c x.

(** [n] steps of a tree, with the answers of the environment in the trace. *)
Fixpoint runs {R : Type} (n : nat) (t : itree' E R) (tr : list ev) (o : itree' E R) : Prop :=
  match n with
  | O => tr = [] /\ o = t
  | S n =>
      match t with
      | RetF _ => False
      | TauF t => runs n (observe t) tr o
      | VisF c k => exists x tr', tr = Ev c x :: tr' /\ runs n (observe (k x)) tr' o
      end
  end.

Lemma runs_vis {R X} n (c : E X) (k : X -> itree E R) x tr o :
  runs n (observe (k x)) tr o -> runs (S n) (VisF c k) (Ev c x :: tr) o.
Proof. intros Hr. by exists x, tr. Qed.

Lemma runs_call {R X} n (c : E X) (k : X -> itree E R) x tr o :
  runs n (observe (k x)) tr o -> runs (S n) (observe (ITree.bind (ITree.trigger c) k)) (Ev c x :: tr) o.
Proof. intros Hr. by exists x, tr. Qed.

Lemma runs_done {R} (t : itree' E R) : runs 0 t [] t.
Proof. by split. Qed.

Lemma observe_bind_cases {A B} (t : itree E A) (k : A -> itree E B) :
  observe (ITree.bind t k) =
  match observe t with
  | RetF r => observe (k r)
  | TauF t => TauF (ITree.bind t k)
  | VisF c h => VisF c (fun x => ITree.bind (h x) k)
  end.
Proof. rewrite observe_bind. by destruct (observe t). Qed.

Definition returned {R} (o : itree' E R) : Prop := match o with RetF _ => True | _ => False end.

(** A run of a sequence is a run of its first part, or a whole one of it and a run of the rest. *)
Lemma runs_bind {A B} n (t : itree E A) (k : A -> itree E B) tr o :
  runs n (observe (ITree.bind t k)) tr o ->
  (exists o', runs n (observe t) tr o' /\ ~ returned o' /\ ~ returned o) \/
  (exists n1 n2 tr1 tr2 r, n = (n1 + n2)%nat /\ tr = tr1 ++ tr2 /\ runs n1 (observe t) tr1 (RetF r) /\ runs n2 (observe (k r)) tr2 o).
Proof.
  revert t tr. induction n as [|n IH]; intros t tr; rewrite observe_bind_cases; destruct (observe t) as [r|t'|X c h] eqn:Ht.
  - intros Hr. right. exists 0%nat, 0%nat, [], tr, r. split_and!; done.
  - intros [-> ->]. left. exists (TauF t'). split_and!; cbn; auto.
  - intros [-> ->]. left. exists (VisF c h). split_and!; cbn; auto.
  - intros Hr. right. exists 0%nat, (Datatypes.S n), [], tr, r. split_and!; done.
  - intros Hr. cbn [runs] in Hr. destruct (IH _ _ Hr) as [(o' & H1 & H2)|(n1 & n2 & tr1 & tr2 & r & -> & -> & H1 & H2)].
    + left. by exists o'.
    + right. exists (Datatypes.S n1), n2, tr1, tr2, r. split_and!; done.
  - intros (x & tr' & -> & Hr). destruct (IH _ _ Hr) as [(o' & H1 & H2)|(n1 & n2 & tr1 & tr2 & r & -> & -> & H1 & H2)].
    + left. exists o'. split; [|done]. by exists x, tr'.
    + right. exists (Datatypes.S n1), n2, (Ev c x :: tr1), tr2, r. split_and!; try done. by exists x, tr1.
Qed.

Context {S : Type} (step : forall X, E X -> X -> S -> option S).

Fixpoint accepts (s : S) (tr : list ev) : option S :=
  match tr with
  | [] => Some s
  | Ev c x :: tr => s' ← step _ c x s; accepts s' tr
  end.

Definition safe_for {R} (n : nat) (s : S) (t : itree E R) (Q : R -> S -> Prop) : Prop :=
  forall m tr o, (m <= n)%nat -> runs m (observe t) tr o ->
    exists s', accepts s tr = Some s' /\ forall r, o = RetF r -> Q r s'.

(** The monitor accepts every run, and a run that returns ends in a state of [Q]. *)
Definition safe {R} (s : S) (t : itree E R) (Q : R -> S -> Prop) : Prop := forall n, safe_for n s t Q.

Lemma accepts_app s tr1 tr2 : accepts s (tr1 ++ tr2) = s' ← accepts s tr1; accepts s' tr2.
Proof.
  revert s. induction tr1 as [|[X c x] tr1 IH]; intros s; cbn; [done|]. destruct (step X c x s) as [s'|]; [|done]. apply IH.
Qed.

Lemma safe_for_ret {R} n s (r : R) (Q : R -> S -> Prop) : Q r s -> safe_for n s (Ret r) Q.
Proof. intros Hq [|m] tr o _ Hr; [|done]. destruct Hr as [-> ->]. exists s. split; [done|]. by intros ? [= <-]. Qed.

Lemma safe_for_mono {R} n s (t : itree E R) (P Q : R -> S -> Prop) :
  (forall r s', P r s' -> Q r s') -> safe_for n s t P -> safe_for n s t Q.
Proof. intros Hpq Ht m tr o Hm Hr. destruct (Ht m tr o Hm Hr) as (s' & Ha & Hq). exists s'. split; [done|]. eauto. Qed.

Lemma safe_for_bind {A B} n s (t : itree E A) (k : A -> itree E B) Q :
  safe_for n s t (fun r s' => safe_for n s' (k r) Q) -> safe_for n s (ITree.bind t k) Q.
Proof.
  intros Ht m tr o Hm Hr. destruct (runs_bind _ _ _ _ _ Hr) as [(o' & H1 & H2 & H3)|(n1 & n2 & tr1 & tr2 & r & -> & -> & H1 & H2)].
  - destruct (Ht m tr o' Hm H1) as (s' & Ha & _). exists s'. split; [done|]. intros r ->. by destruct H3.
  - destruct (Ht n1 tr1 _ ltac:(lia) H1) as (s1 & Ha & Hk). specialize (Hk r eq_refl).
    destruct (Hk n2 tr2 o ltac:(lia) H2) as (s2 & Ha2 & Hq). exists s2. split; [|done]. by rewrite accepts_app, Ha.
Qed.

Lemma safe_for_call {X} n s (c : E X) (Q : X -> S -> Prop) :
  (forall x, exists s', step X c x s = Some s' /\ Q x s') -> safe_for n s (ITree.trigger c) Q.
Proof.
  intros Hc [|m] tr o _ Hr; [destruct Hr as [-> ->]; by exists s|].
  cbn [runs] in Hr. cbn in Hr. destruct Hr as (x & tr' & -> & Hr). destruct (Hc x) as (s' & Hs & Hq).
  destruct m as [|m]; [|done]. destruct Hr as [-> ->]. exists s'. cbn. rewrite Hs. split; [done|]. by intros r [= <-].
Qed.

Lemma safe_ret {R} s (r : R) (Q : R -> S -> Prop) : Q r s -> safe s (Ret r) Q.
Proof. intros Hq n. by apply safe_for_ret. Qed.

Lemma safe_mono {R} s (t : itree E R) (P Q : R -> S -> Prop) : (forall r s', P r s' -> Q r s') -> safe s t P -> safe s t Q.
Proof. intros Hpq Ht n. by eapply safe_for_mono. Qed.

Lemma safe_bind {A B} s (t : itree E A) (k : A -> itree E B) Q :
  safe s t (fun r s' => safe s' (k r) Q) -> safe s (ITree.bind t k) Q.
Proof. intros Ht n. apply safe_for_bind. eapply safe_for_mono; [|apply Ht]. intros r s' Hk. apply Hk. Qed.

Lemma safe_call {X} s (c : E X) (Q : X -> S -> Prop) :
  (forall x, exists s', step X c x s = Some s' /\ Q x s') -> safe s (ITree.trigger c) Q.
Proof. intros Hc n. by apply safe_for_call. Qed.

(** A loop keeps an invariant of its index and the state of the monitor. *)
Lemma safe_iter {I R} (body : I -> itree E (I + R)) (inv : I -> S -> Prop) (Q : R -> S -> Prop) i s :
  (forall i s, inv i s -> safe s (body i) (fun r s' => match r with inl i' => inv i' s' | inr r => Q r s' end)) ->
  inv i s -> safe s (ITree.iter body i) Q.
Proof.
  intros Hb Hi n. revert i s Hi. induction n as [n IH] using lt_wf_ind. intros i s Hi m tr o Hm Hr.
  assert (Hu : observe (ITree.iter body i) =
    observe (ITree.bind (body i) (fun lr => match lr with inl l => Tau (ITree.iter body l) | inr r => Ret r end))) by done.
  rewrite Hu in Hr. clear Hu.
  destruct (runs_bind _ _ _ _ _ Hr) as [(o' & H1 & H2 & H3)|(n1 & n2 & tr1 & tr2 & r & -> & -> & H1 & H2)].
  - destruct (Hb i s Hi m m tr o' ltac:(lia) H1) as (s' & Ha & _). exists s'. split; [done|]. intros r ->. by destruct H3.
  - destruct (Hb i s Hi n1 n1 tr1 _ ltac:(lia) H1) as (s1 & Ha & Hk). specialize (Hk r eq_refl). destruct r as [i'|r].
    + destruct n2 as [|n2]; [destruct H2 as [-> ->]; exists s1; rewrite app_nil_r; by split|].
      destruct (IH n2 ltac:(lia) i' s1 Hk n2 tr2 o ltac:(lia) H2) as (s2 & Ha2 & Hq). exists s2. split; [|done]. by rewrite accepts_app, Ha.
    + destruct n2 as [|n2]; [|done]. destruct H2 as [-> ->]. exists s1. rewrite app_nil_r. split; [done|]. by intros r' [= <-].
Qed.

(** States in which the monitor accepts everything. *)
Lemma safe_closed {R} (P : S -> Prop) s (t : itree E R) :
  (forall X c x s, P s -> exists s', step X c x s = Some s' /\ P s') -> P s -> safe s t (fun _ s' => P s').
Proof.
  intros Hstep Hs n m tr o _. generalize (observe t). revert s tr Hs. induction m as [|m IH]; intros s tr Hs u Hr.
  - destruct Hr as [-> ->]. exists s. by split.
  - destruct u as [r|t'|X c k]; cbn [runs] in Hr; [done|by apply (IH s tr Hs _ Hr)|]. destruct Hr as (x & tr' & -> & Hr).
    destruct (Hstep X c x s Hs) as (s1 & Hs1 & Hp). destruct (IH s1 tr' Hp _ Hr) as (s2 & Ha & Hq). exists s2. cbn. by rewrite Hs1.
Qed.
End logic.
Arguments ev : clear implicits.
Arguments Ev {E X} c x.
