(* ===== verification/Reconciler.v ===== *)
(** [vmond/src/mesh/reconciler.rs]: replication of sandboxes to peers, the repair of sandboxes whose
    owner died, and the fencing of local sandboxes that another node owns by now.  The traits the
    loops work against (mesh, engine, records, replicas, leases) and the requests to peers are the
    events of interaction trees: a call of a trait is an event, and what it returns is the answer
    of the environment, which is not constrained here. *)

From S2P Require Import Prelude F64 Json Lease MeshRecord.
From ITree Require Import ITree.

Module Reconcile.

Inductive RErr : Type := NotFound | Busy | Invalid | Failure.
Abbreviation res := (result RErr).

Record ReconcileConfig : Type := mkReconcileConfig {
  replicate_sec : f64; replicas : nat; restore_quorum : option bool; node_id : string }.

Definition restore_quorum_enabled (c : ReconcileConfig) (expected_members : nat) : bool :=
  default (3 <=? expected_members)%nat (restore_quorum c).

Record CreateRecord : Type := mkCreate {
  cr_sid : string; cr_params : json; cr_owner : string; cr_epoch : Z; cr_idempotency_key : string;
  cr_ha : string; cr_restart_policy : string }.

Record ReplicaRecord : Type := mkReplica {
  rp_sid : string; rp_digest : string; rp_object_key : string; rp_source_node : string; rp_source_epoch : Z;
  rp_checkpoint_generation : Z; rp_snapshot_dir : string; rp_params : json; rp_needs_secrets : bool }.

Record ReplicatePreparation : Type := mkPrep {
  pr_digest : string; pr_checkpoint_generation : Z; pr_snapshot_dir : string; pr_params : json }.

Record SandboxRecord : Type := mkSandbox { sb_name : string; sb_detail : Params }.

Record LocalOwnerEpoch : Type := mkLocalOwner { lo_sid : string; lo_owner : string; lo_epoch : Z }.

(** The body of a push to a peer. *)
Record ReplicaPush : Type := mkPush {
  pu_object_key : string; pu_digest : string; pu_source_node : string; pu_source_epoch : Z;
  pu_checkpoint_generation : Z; pu_params : json }.

(** ** Calls of the traits *)
Inductive callE : Type -> Type :=
  (* MeshReconcileState *)
  | Enabled : callE bool
  | ExpectedMembers : callE nat
  | LiveMemberIds : callE (list string)
  | PeerUrl (peer : string) : callE (option string)
  | IsPeerHealthy (peer : string) : callE bool
  | OwnerOf (sid : string) : callE (res (option string))
  | RestoreOwner (sid : string) (exclude : list string) : callE (option string)
  | RestoreQuorumMet (confirmations : nat) : callE bool
  | DrainOrphans : callE (list (string * string))
  | RequeueOrphan (sid dead : string) : callE unit
  | IsNonservingLifecycle (sid : string) : callE (res bool)
  | LocalCandidateMissing (sid : string) : callE (res bool)
  | ClaimRestoreEpoch (sid owner : string) (previous : CreateRecord) (pending : json) : callE (res Z)
  | RenewRestoreEpoch (sid owner : string) (epoch : Z) : callE (res bool)
  | AbortRestoreEpoch (sid owner : string) (epoch : Z) (previous_owner : string) (previous_epoch : Z) : callE (res unit)
  | CommitRestoreEpoch (sid owner : string) (epoch : Z) (params : json) (ha restart_policy : string) : callE (res unit)
  | RestoreCommitApplied (sid owner : string) (epoch : Z) : callE (res bool)
  | WorkerBegin (key : string) : callE bool
  | WorkerEnd (key : string) : callE unit
  | NoteEvent (event : string) : callE unit
  | ReplicaTargets (sid : string) (n : nat) : callE (list string)
  | FencedLocalIds (owned : list string) : callE (res (list string))
  | MigrationTargetInFlight (sid : string) : callE bool
  | LocalOwnerEpochs (owned : list string) : callE (res (list LocalOwnerEpoch))
  | RenewOwnerLeases (locals : list LocalOwnerEpoch) : callE (res (list string))
  | ForgetLocalOwner (sid : string) : callE unit
  (* ReconcileEngine *)
  | OwnedIds : callE (res (list string))
  | EngineGet (sid : string) : callE (res SandboxRecord)
  | EngineRemove (sid : string) : callE (res unit)
  | ReplicatePrepare (sid : string) : callE (res ReplicatePreparation)
  | ReplicateCleanup (digest snapshot_dir : string) : callE (res unit)
  | LaunchTemplate (params : json) (snapshot_dir : string) (quorum_ok : bool) : callE unit
  | LaunchPoll : callE (option (res SandboxRecord))
  | ActivateCandidate (sid : string) : callE (res unit)
  | RecordVolumeLeases (sid : string) (leases : list LeaseRecord) : callE (res unit)
  | RecordIdempotency (sid key : string) : callE (res unit)
  | SetHaMetadata (sid ha restart_policy : string) : callE (res unit)
  | CreateFromRecord (params : json) : callE (res SandboxRecord)
  | RunFromRecord (params : json) : callE (res json)
  | RestoreFromRecord (params : json) : callE (res json)
  | BeginRestoreCancellation (sid : string) : callE unit
  | CancelRestore (sid : string) : callE unit
  | EndRestoreCancellation (sid : string) : callE unit
  | CandidateIsRunning (sid : string) : callE bool
  (* CreateRecordStore, ReplicaStore, LeaseManager *)
  | RecordGet (sid : string) : callE (res (option CreateRecord))
  | ReconcileRecords : callE (res unit)
  | ReplicaGet (sid : string) : callE (res (option ReplicaRecord))
  | SecretsReady (sid : string) : callE (res bool)
  | DropReplica (record : ReplicaRecord) : callE (res unit)
  | PublicationKey (sid : string) (prep : ReplicatePreparation) : callE (res string)
  | AcquireCacheRoot (record : ReplicaRecord) : callE unit
  | DropCacheRoot (record : ReplicaRecord) : callE unit
  | RenewWritableVolumeLeases : callE (res unit)
  | AcquireWritableVolumeLeases (params : json) (epoch : Z) : callE (res (list LeaseRecord))
  | ReleaseLeases (leases : list LeaseRecord) : callE (res unit)
  | ReleaseRecordVolumeLeases (record : SandboxRecord) : callE (res unit)
  (* requests to peers, and the clock *)
  | Reachable (url dead : string) : callE (option json)
  | PushReplica (url : string) (body : ReplicaPush) : callE bool
  | UnixTime : callE f64.

Abbreviation proc := (itree callE).
Abbreviation call := ITree.trigger (only parsing).

Declare Scope proc_scope.
Delimit Scope proc_scope with proc.
Notation "x <<- t ; k" := (ITree.bind t (fun x => k)) (at level 20, t at level 100, k at level 200, right associativity) : proc_scope.
Notation "' pat <<- t ; k" := (ITree.bind t (fun x => match x with pat => k end))
  (at level 20, pat pattern, t at level 100, k at level 200, right associativity) : proc_scope.
(** [?] on the answer of a call. *)
Notation "x <<-? t ; k" :=
  (ITree.bind t (fun r => match r with Ok x => k | Err e => Ret (Err e) end))
  (at level 20, t at level 100, k at level 200, right associativity) : proc_scope.
#[local] Open Scope proc_scope.

(** ** Pure helpers *)

Definition jget (v : json) (key : string) : option json := m ← as_object v; m !! key.

Definition record_restore_pending (r : CreateRecord) : bool :=
  match as_object (cr_params r) with Some m => bool_decide (is_Some (m !! "_mesh_restore_pending"%string)) | None => false end.

Definition record_can_rerun (r : CreateRecord) : bool :=
  String.eqb (cr_restart_policy r) "rerun" || str_contains "rerun" (cr_ha r).

Definition replica_lineage_matches (replica : ReplicaRecord) (owner : CreateRecord) : bool :=
  String.eqb (rp_source_node replica) (cr_owner owner) && (rp_source_epoch replica =? cr_epoch owner).

Definition replica_restore_pending (replica : ReplicaRecord) (owner : CreateRecord) : json :=
  match jget (cr_params owner) "_mesh_restore_pending" with
  | Some pending => pending
  | None =>
      JObject (list_to_map
        [("kind", JString "replica"); ("source_owner", JString (rp_source_node replica));
         ("source_epoch", JNumber (NInt (rp_source_epoch replica))); ("digest", JString (rp_digest replica));
         ("checkpoint_generation", JNumber (NInt (rp_checkpoint_generation replica)))]%string)
  end.

Definition rerun_restore_pending (owner : CreateRecord) : json :=
  match jget (cr_params owner) "_mesh_restore_pending" with
  | Some pending => pending
  | None =>
      JObject (list_to_map
        [("kind", JString "rerun"); ("source_owner", JString (cr_owner owner));
         ("source_epoch", JNumber (NInt (cr_epoch owner)))]%string)
  end.

Definition replica_matches_restore_pending (replica : ReplicaRecord) (pending : json) : bool :=
  bool_decide ((jget pending "kind" ≫= as_str) = Some "replica"%string) &&
  bool_decide ((jget pending "source_owner" ≫= as_str) = Some (rp_source_node replica)) &&
  bool_decide ((jget pending "source_epoch" ≫= as_u64) = Some (rp_source_epoch replica)) &&
  bool_decide ((jget pending "digest" ≫= as_str) = Some (rp_digest replica)) &&
  bool_decide ((jget pending "checkpoint_generation" ≫= as_u64) = Some (rp_checkpoint_generation replica)).

Definition params_object (v : json) : res Params := ok_or (as_object v) Invalid.

Definition created_name_from_value (v : json) (fallback : string) : string :=
  match jget v "name" ≫= as_str with
  | Some name => if String.eqb name "" then fallback else name
  | None => fallback
  end.

(** ** The guard of a claim *)

Record ClaimGuard : Type := mkClaim {
  g_sid : string; g_owner : string; g_epoch : Z; g_previous_owner : string; g_previous_epoch : Z;
  g_lease_records : list LeaseRecord; g_restored : option SandboxRecord; g_committed : bool }.

Definition new_claim (sid owner : string) (epoch : Z) (previous : CreateRecord) : proc ClaimGuard :=
  _ <<- call (BeginRestoreCancellation sid) ;
  Ret (mkClaim sid owner epoch (cr_owner previous) (cr_epoch previous) [] None false).

Definition set_lease_records (l : list LeaseRecord) (g : ClaimGuard) : ClaimGuard :=
  mkClaim (g_sid g) (g_owner g) (g_epoch g) (g_previous_owner g) (g_previous_epoch g) l (g_restored g) (g_committed g).
Definition set_restored (r : option SandboxRecord) (g : ClaimGuard) : ClaimGuard :=
  mkClaim (g_sid g) (g_owner g) (g_epoch g) (g_previous_owner g) (g_previous_epoch g) (g_lease_records g) r (g_committed g).
Definition set_committed (g : ClaimGuard) : ClaimGuard :=
  mkClaim (g_sid g) (g_owner g) (g_epoch g) (g_previous_owner g) (g_previous_epoch g) (g_lease_records g) (g_restored g) true.

Definition abort_claim (g : ClaimGuard) : proc unit :=
  if g_committed g then Ret tt
  else
    _ <<- call (CancelRestore (g_sid g)) ;
    _ <<- call (ForgetLocalOwner (g_sid g)) ;
    record <<- match g_restored g with
               | Some r => Ret (Some r)
               | None => r <<- call (EngineGet (g_sid g)) ; Ret (match r with Ok r => Some r | Err _ => None end)
               end ;
    torn_down <<- match record with
                  | Some record =>
                      r <<- call (EngineRemove (sb_name record)) ;
                      match r with
                      | Err _ => Ret false
                      | Ok _ => _ <<- call (ReleaseRecordVolumeLeases record) ; Ret true
                      end
                  | None => Ret true
                  end ;
    _ <<- call (ReleaseLeases (g_lease_records g)) ;
    _ <<- (if torn_down : bool
           then _ <<- call (AbortRestoreEpoch (g_sid g) (g_owner g) (g_epoch g) (g_previous_owner g) (g_previous_epoch g)) ; Ret tt
           else Ret tt) ;
    call (EndRestoreCancellation (g_sid g)).

(** [if !renew_restore_epoch(...)? { return Err(busy) }]. *)
Definition require_renewal {A} (sid owner : string) (epoch : Z) (k : proc (res A)) : proc (res A) :=
  ok <<-? call (RenewRestoreEpoch sid owner epoch) ;
  if ok : bool then k else Ret (Err Busy).

(** ** Restore from a replica *)

Section restore.
Context (cfg : ReconcileConfig) (sid : string).
Abbreviation owner := (node_id cfg).

(** The answers that decide the commit: applied, not known, or an error of the question itself. *)
Definition commit (epoch : Z) (params : json) (lineage : CreateRecord) : proc (res unit) :=
  call (CommitRestoreEpoch sid owner epoch params (cr_ha lineage) (cr_restart_policy lineage)).

(** A VM that an earlier process launched under this claim: everything up to the commit. *)
Definition retained_steps (rec : ReplicaRecord) (lineage : CreateRecord) (restored : SandboxRecord) (epoch : Z) (g : ClaimGuard)
  : proc (ClaimGuard * res unit) :=
  r <<- call (RenewRestoreEpoch sid owner epoch) ;
  match r with
  | Err e => Ret (g, Err e)
  | Ok false => Ret (g, Err Busy)
  | Ok true =>
      l <<- call (AcquireWritableVolumeLeases (rp_params rec) epoch) ;
      match l with
      | Err e => Ret (g, Err e)
      | Ok leases =>
          let g := set_lease_records leases g in
          r <<- (_ <<-? call (RecordVolumeLeases (sb_name restored) leases) ;
                 require_renewal sid owner epoch (
                 _ <<-? call (SetHaMetadata (sb_name restored) (cr_ha lineage) (cr_restart_policy lineage)) ;
                 _ <<-? call (ActivateCandidate sid) ;
                 require_renewal sid owner epoch (Ret (Ok tt)))) ;
          Ret (g, r)
      end
  end.

Definition restore_retained (rec : ReplicaRecord) (lineage : CreateRecord) (epoch : Z) (g : ClaimGuard) : proc (res bool) :=
  r <<- call (EngineGet sid) ;
  match r with
  | Ok restored =>
      if String.eqb (sb_name restored) sid then
        '(g, r) <<- retained_steps rec lineage restored epoch (set_restored (Some restored) g) ;
        match r with
        | Err e => _ <<- abort_claim g ; Ret (Err e)
        | Ok _ =>
            c <<- commit epoch (rp_params rec) lineage ;
            ambiguous <<-? match c with
                           | Ok _ => Ret (Ok None)
                           | Err e => applied <<-? call (RestoreCommitApplied sid owner epoch) ; Ret (Ok (if applied : bool then None else Some e))
                           end ;
            _ <<- call (EndRestoreCancellation sid) ;
            match ambiguous with
            | Some e => Ret (Err e)
            | None =>
                _ <<- call (DropReplica rec) ;
                _ <<- call (NoteEvent "restore") ;
                Ret (Ok false)
            end
        end
      else _ <<- abort_claim g ; Ret (Err Busy)
  | Err _ => _ <<- abort_claim g ; Ret (Err Busy)
  end.

(** The launch with the ticks of the renewal timer next to it.  The state is whether the lease was lost. *)
Definition launch_loop (epoch : Z) : proc (res (bool * SandboxRecord)) :=
  ITree.iter (fun lease_lost : bool =>
    p <<- call LaunchPoll ;
    match p with
    | Some (Ok restored) => Ret (inr (Ok (lease_lost, restored)))
    | Some (Err e) => Ret (inr (Err e))
    | None =>
        if lease_lost then Ret (inl true)
        else
          r <<- call (RenewRestoreEpoch sid owner epoch) ;
          match r with
          | Err e => Ret (inr (Err e))
          | Ok true => Ret (inl false)
          | Ok false => _ <<- call (CancelRestore sid) ; Ret (inl true)
          end
    end) false.

(** The commit of a fresh candidate, once more after an error, and the question whether it was applied.
    [true]: the guard counts as committed. *)
Definition commit_fresh (epoch : Z) (rec : ReplicaRecord) (lineage : CreateRecord) : proc (bool * res unit) :=
  c <<- commit epoch (rp_params rec) lineage ;
  match c with
  | Ok _ => _ <<- call (EndRestoreCancellation sid) ; Ret (true, Ok tt)
  | Err first_error =>
      c <<- commit epoch (rp_params rec) lineage ;
      match c with
      | Ok _ => _ <<- call (EndRestoreCancellation sid) ; Ret (true, Ok tt)
      | Err _ =>
          applied <<- call (RestoreCommitApplied sid owner epoch) ;
          match applied with
          | Err e => Ret (false, Err e)
          | Ok false => _ <<- call (EndRestoreCancellation sid) ; Ret (true, Err first_error)
          | Ok true => _ <<- call (EndRestoreCancellation sid) ; Ret (true, Ok tt)
          end
      end
  end.

Definition restore_fresh (rec : ReplicaRecord) (lineage : CreateRecord) (quorum : bool) (epoch : Z) (g : ClaimGuard) : proc (res bool) :=
  '(g, r) <<-
    (l <<- call (AcquireWritableVolumeLeases (rp_params rec) epoch) ;
     match l with
     | Err e => Ret (g, Err e)
     | Ok leases =>
         let g := set_lease_records leases g in
         r <<- call (RenewRestoreEpoch sid owner epoch) ;
         match r with
         | Err e => Ret (g, Err e)
         | Ok false => Ret (g, Err Busy)
         | Ok true =>
             _ <<- call (LaunchTemplate (rp_params rec) (rp_snapshot_dir rec) quorum) ;
             launched <<- launch_loop epoch ;
             match launched with
             | Err e => Ret (g, Err e)
             | Ok (true, _) => Ret (g, Err Busy)
             | Ok (false, restored) =>
                 let g := set_restored (Some restored) g in
                 r <<- require_renewal sid owner epoch (
                         _ <<-? call (SetHaMetadata (sb_name restored) (cr_ha lineage) (cr_restart_policy lineage)) ;
                         _ <<-? call (RecordVolumeLeases (sb_name restored) leases) ;
                         _ <<-? call (ActivateCandidate sid) ;
                         require_renewal sid owner epoch (Ret (Ok tt))) ;
                 match r with
                 | Err e => Ret (g, Err e)
                 | Ok _ =>
                     '(committed, r) <<- commit_fresh epoch rec lineage ;
                     Ret ((if committed : bool then set_committed else id) g, r)
                 end
             end
         end
     end) ;
  match r with
  | Err e => _ <<- abort_claim g ; Ret (Err e)
  | Ok _ =>
      _ <<- call (DropReplica rec) ;
      _ <<- call (NoteEvent "restore") ;
      Ret (Ok false)
  end.

(** What is done with the replica while its cache root is pinned. *)
Definition restore_pinned (rec : ReplicaRecord) (create_record : option CreateRecord) (quorum : bool) : proc (res bool) :=
  match create_record with
  | None => _ <<-? call (DropReplica rec) ; Ret (Err Invalid)
  | Some lineage =>
      let pending := replica_restore_pending rec lineage in
      let valid_lineage :=
        if record_restore_pending lineage then replica_matches_restore_pending rec pending
        else replica_lineage_matches rec lineage in
      if negb valid_lineage then _ <<-? call (DropReplica rec) ; Ret (Err Invalid)
      else
        epoch <<-? call (ClaimRestoreEpoch sid owner lineage pending) ;
        g <<- new_claim sid owner epoch lineage ;
        running <<- call (CandidateIsRunning sid) ;
        if running : bool then restore_retained rec lineage epoch g else restore_fresh rec lineage quorum epoch g
  end.

Definition restore_from_replica (create_record : option CreateRecord) (quorum : bool) : proc (res bool) :=
  let key := ("restore:" ++ sid)%string in
  free <<- call (WorkerBegin key) ;
  if negb free then Ret (Ok true)
  else
    result <<-
      (r <<-? call (ReplicaGet sid) ;
       match r with
       | None => Ret (Err NotFound)
       | Some rec =>
           _ <<- call (AcquireCacheRoot rec) ;
           result <<- restore_pinned rec create_record quorum ;
           _ <<- call (DropCacheRoot rec) ;
           Ret result
       end) ;
    _ <<- call (WorkerEnd key) ;
    Ret result.

(** ** Rerun from the create record *)

Definition rerun_params (record : CreateRecord) (params : Params) (kind : string) : json :=
  let params := delete "_kind"%string params in
  let params := <["name"%string := JString sid]> params in
  let params := <["ha"%string := JString (cr_ha record)]> params in
  let params := <["restart_policy"%string := JString (cr_restart_policy record)]> params in
  JObject (if String.eqb kind "run" || String.eqb kind "restore" then <["detach"%string := JBool true]> params else params).

Definition rerun_launch (kind : string) (params : json) : proc (res string) :=
  if String.eqb kind "run" then v <<-? call (RunFromRecord params) ; Ret (Ok (created_name_from_value v sid))
  else if String.eqb kind "restore" then v <<-? call (RestoreFromRecord params) ; Ret (Ok (created_name_from_value v sid))
  else r <<-? call (CreateFromRecord params) ; Ret (Ok (sb_name r)).

(** What follows the launch: the guard, and how it ended. *)
Definition rerun_finish (record : CreateRecord) (epoch : Z) (created_sid : string) : proc (res bool) :=
  require_renewal sid owner epoch (
  _ <<-? call (SetHaMetadata created_sid (cr_ha record) (cr_restart_policy record)) ;
  _ <<-? call (RecordIdempotency created_sid (cr_idempotency_key record)) ;
  _ <<-? commit epoch (cr_params record) record ;
  _ <<- call (EndRestoreCancellation sid) ;
  Ret (Ok true)).

Definition rerun_attempt (record : CreateRecord) (epoch : Z) (g : ClaimGuard) : proc (ClaimGuard * res bool) :=
  r <<- call (RenewRestoreEpoch sid owner epoch) ;
  match r with
  | Err e => Ret (g, Err e)
  | Ok false => Ret (g, Err Busy)
  | Ok true =>
      match params_object (cr_params record) with
      | Err e => Ret (g, Err e)
      | Ok params =>
          let kind := default "sandbox"%string (params !! "_kind"%string ≫= as_str) in
          created <<- rerun_launch kind (rerun_params record params kind) ;
          match created with
          | Err e => Ret (g, Err e)
          | Ok created_sid =>
              got <<- call (EngineGet created_sid) ;
              let g := set_restored (match got with Ok r => Some r | Err _ => None end) g in
              r <<- rerun_finish record epoch created_sid ;
              Ret ((match r with Ok _ => set_committed g | Err _ => g end), r)
          end
      end
  end.

Definition rerun_from_record : proc (res bool) :=
  r <<-? call (RecordGet sid) ;
  match r with
  | None => Ret (Ok false)
  | Some record =>
      if negb (record_can_rerun record) then Ret (Ok false)
      else
        let key := ("rerun:" ++ sid)%string in
        free <<- call (WorkerBegin key) ;
        if negb free then Ret (Ok true)
        else
          result <<-
            (let pending := rerun_restore_pending record in
             if negb (bool_decide ((jget pending "kind" ≫= as_str) = Some "rerun"%string)) then Ret (Err Invalid)
             else
               epoch <<-? call (ClaimRestoreEpoch sid owner record pending) ;
               g <<- new_claim sid owner epoch record ;
               '(g, r) <<- rerun_attempt record epoch g ;
               match r with
               | Err e => _ <<- abort_claim g ; Ret (Err e)
               | Ok _ => _ <<- call (NoteEvent "restore") ; Ret (Ok true)
               end) ;
          _ <<- call (WorkerEnd key) ;
          Ret result
  end.

(** ** Orphans *)

Fixpoint ask_members (dead : string) (members : list string) (confirmations : nat) : proc nat :=
  match members with
  | [] => Ret confirmations
  | member :: members =>
      if String.eqb member owner then ask_members dead members confirmations
      else
        u <<- call (PeerUrl member) ;
        match u with
        | None => ask_members dead members confirmations
        | Some url =>
            payload <<- call (Reachable url dead) ;
            ask_members dead members
              (if bool_decide ((payload ≫= fun v => jget v "reachable" ≫= as_bool) = Some false) then S confirmations else confirmations)
        end
  end.

Definition last_quorum_confirmations (dead : string) : proc nat :=
  members <<- call LiveMemberIds ; ask_members dead members 1.

Definition restore_quorum_confirmed (dead : string) : proc bool :=
  confirmations <<- last_quorum_confirmations dead ; call (RestoreQuorumMet confirmations).

(** Whether the owner that is known is alive and another one than [dead]. *)
Definition owner_alive (dead : string) : proc (res bool) :=
  o <<-? call (OwnerOf sid) ;
  match o with
  | None => Ret (Ok false)
  | Some o =>
      if String.eqb o dead then Ret (Ok false)
      else if String.eqb o owner then Ret (Ok true)
      else h <<- call (IsPeerHealthy o) ; Ret (Ok h)
  end.

(** The part after the choice of the restorer: quorum, then the replica or the record.  The
    questions that are asked again only for the text of a warning are left out. *)
Definition repair (dead : string) (create_record : option CreateRecord) (missing held ready can_rerun : bool) : proc (res bool) :=
  expected <<- call ExpectedMembers ;
  let quorum := restore_quorum_enabled cfg expected in
  confirmed <<- (if quorum && negb missing then restore_quorum_confirmed dead else Ret true) ;
  if negb confirmed then Ret (Ok true)
  else if ready : bool then restore_from_replica create_record quorum
  else
    reran <<-? (if can_rerun : bool then rerun_from_record else Ret (Ok false)) ;
    Ret (Ok (negb reran)).

Definition choose_restorer (dead : string) (create_record : option CreateRecord) (pending missing : bool) : proc bool :=
  let exclude := if missing then [] else [dead] in
  let retrying := pending && match create_record with Some r => String.eqb (cr_owner r) owner | None => false end in
  if retrying then Ret true
  else o <<- call (RestoreOwner sid exclude) ; Ret (bool_decide (o = Some owner)).

Definition orphan_decision (dead : string) : proc (res bool) :=
  create_record <<-? call (RecordGet sid) ;
  let pending := match create_record with Some r => record_restore_pending r | None => false end in
  missing <<-? call (LocalCandidateMissing sid) ;
  alive <<-? (if negb pending && negb missing then owner_alive dead else Ret (Ok false)) ;
  if alive : bool then Ret (Ok false)
  else
    reachable <<- (if negb pending && negb missing then call (IsPeerHealthy dead) else Ret false) ;
    if reachable : bool then Ret (Ok true)
    else
      nonserving <<-? (if negb pending then call (IsNonservingLifecycle sid) else Ret (Ok false)) ;
      if nonserving : bool then Ret (Ok false)
      else
        let ha := match create_record with Some r => cr_ha r | None => "async"%string end in
        let can_rerun := match create_record with Some r => record_can_rerun r | None => false end in
        if String.eqb ha "off" then Ret (Ok false)
        else
          replica <<-? (if String.eqb ha "async" || String.eqb ha "async+rerun" then call (ReplicaGet sid) else Ret (Ok None)) ;
          let held := match replica with Some _ => true | None => false end in
          let needs := match replica with Some r => rp_needs_secrets r | None => false end in
          ready <<-? (if held && needs then call (SecretsReady sid) else Ret (Ok held)) ;
          if needs && negb ready then Ret (Ok true)
          else
            mine <<- (if needs then Ret true else choose_restorer dead create_record pending missing) ;
            if mine : bool then repair dead create_record missing held ready can_rerun else Ret (Ok true).

Definition reconcile_orphan (dead : string) : proc unit :=
  result <<- orphan_decision dead ;
  match result with
  | Ok false => Ret tt
  | _ => call (RequeueOrphan sid dead)
  end.

Definition fence_local : proc (res unit) :=
  record <<-? call (EngineGet sid) ;
  _ <<-? call (EngineRemove sid) ;
  _ <<-? call (ReleaseRecordVolumeLeases record) ;
  _ <<- call (ForgetLocalOwner sid) ;
  _ <<- call (NoteEvent "fence") ;
  Ret (Ok tt).
End restore.

(** ** The loops *)

Fixpoint for_each {A} (f : A -> proc unit) (l : list A) : proc unit :=
  match l with
  | [] => Ret tt
  | x :: l => _ <<- f x ; for_each f l
  end.

(** [fence.sort(); fence.dedup()]. *)
Fixpoint dedup (l : list string) : list string :=
  match l with
  | x :: (y :: _) as l' => if String.eqb x y then dedup l' else x :: dedup l'
  | _ => l
  end.
Definition sort_dedup (l : list string) : list string := dedup (sort_by String.leb l).

Fixpoint retain_idle (l : list string) : proc (list string) :=
  match l with
  | [] => Ret []
  | sid :: l =>
      busy <<- call (MigrationTargetInFlight sid) ;
      rest <<- retain_idle l ;
      Ret (if busy : bool then rest else sid :: rest)
  end.

Definition fence_all (fence : list string) : proc unit :=
  fence <<- retain_idle (sort_dedup fence) ;
  for_each (fun sid => _ <<- fence_local sid ; Ret tt) fence.

Definition renew_owner_leases_once : proc (res unit) :=
  on <<- call Enabled ;
  if negb on then Ret (Ok tt)
  else
    owned <<-? call OwnedIds ;
    locals <<-? call (LocalOwnerEpochs owned) ;
    fence <<-? call (FencedLocalIds owned) ;
    expired <<-? call (RenewOwnerLeases locals) ;
    _ <<- fence_all (fence ++ expired) ;
    Ret (Ok tt).

Definition ha_reconcile_once (cfg : ReconcileConfig) : proc (res unit) :=
  on <<- call Enabled ;
  if negb on then Ret (Ok tt)
  else
    _ <<- call RenewWritableVolumeLeases ;
    _ <<- call ReconcileRecords ;
    orphans <<- call DrainOrphans ;
    _ <<- for_each (fun o => reconcile_orphan cfg (fst o) (snd o)) orphans ;
    owned <<-? call OwnedIds ;
    locals <<-? call (LocalOwnerEpochs owned) ;
    fence <<-? call (FencedLocalIds owned) ;
    expired <<- call (RenewOwnerLeases locals) ;
    _ <<- fence_all (fence ++ match expired with Ok l => l | Err _ => [] end) ;
    Ret (Ok tt).

(** ** Replication *)

(** What the loop remembers: the digest pushed last to every target, and the last attempts. *)
Record Cadence : Type := mkCadence { last : gmap string string; checkpoint_times : gmap string f64 }.

Definition forget (sid : string) (c : Cadence) : Cadence := mkCadence (delete sid (last c)) (delete sid (checkpoint_times c)).

Definition prune_replication_bookkeeping (owned : list string) (c : Cadence) : Cadence :=
  mkCadence (filter (fun kv => fst kv ∈ owned) (last c)) (filter (fun kv => fst kv ∈ owned) (checkpoint_times c)).

Fixpoint push_replica_to_targets (targets : list string) (body : ReplicaPush) (any all : bool) : proc (bool * bool) :=
  match targets with
  | [] => Ret (any, all)
  | peer :: targets =>
      u <<- call (PeerUrl peer) ;
      ok <<- match u with None => Ret false | Some url => call (PushReplica url body) end ;
      push_replica_to_targets targets body (any || ok) (all && ok)
  end.

(** The push, after the checkpoint was prepared. *)
Definition replicate_prepared (cfg : ReconcileConfig) (sid : string) (owner_record : CreateRecord) (prep : ReplicatePreparation)
    (object_key : string) (c : Cadence) : proc Cadence :=
  targets <<- call (ReplicaTargets sid (replicas cfg)) ;
  match targets with
  | [] => Ret c
  | _ =>
      '(any, all) <<- push_replica_to_targets targets
        (mkPush object_key (pr_digest prep) (cr_owner owner_record) (cr_epoch owner_record) (pr_checkpoint_generation prep) (pr_params prep)) false true ;
      c <<- (if any : bool
             then _ <<- call (NoteEvent "replication") ; now <<- call UnixTime ;
                  Ret (mkCadence (last c) (<[sid := now]> (checkpoint_times c)))
             else Ret c) ;
      Ret (if all : bool then mkCadence (<[sid := pr_digest prep]> (last c)) (checkpoint_times c) else c)
  end.

Definition f64_ltb (a b : f64) : bool := match SpecFloat.SFcompare a b with Some Lt => true | _ => false end.

Definition replicate_sid (cfg : ReconcileConfig) (sid : string) (c : Cadence) : proc Cadence :=
  r <<- call (RecordGet sid) ;
  match r with
  | Ok (Some owner_record) =>
      if record_restore_pending owner_record then Ret (forget sid c)
      else if negb (String.eqb (cr_owner owner_record) (node_id cfg)) then Ret c
      else if String.eqb (cr_ha owner_record) "off" then Ret (forget sid c)
      else
        now <<- call UnixTime ;
        if match checkpoint_times c !! sid with
           | Some t => f64_ltb (f64_sub now t) (f64_max (replicate_sec cfg) (f64_of_Z 1))
           | None => false
           end
        then Ret c
        else
          let c := mkCadence (last c) (<[sid := now]> (checkpoint_times c)) in
          p <<- call (ReplicatePrepare sid) ;
          match p with
          | Err _ => Ret c
          | Ok prep =>
              k <<- call (PublicationKey sid prep) ;
              match k with
              | Err _ => Ret c
              | Ok object_key =>
                  c <<- replicate_prepared cfg sid owner_record prep object_key c ;
                  if String.eqb (pr_digest prep) "" || String.eqb (pr_snapshot_dir prep) "" then Ret c
                  else _ <<- call (ReplicateCleanup (pr_digest prep) (pr_snapshot_dir prep)) ; Ret c
              end
          end
  | _ => Ret c
  end.

Fixpoint replicate_all (cfg : ReconcileConfig) (sids : list string) (c : Cadence) : proc Cadence :=
  match sids with
  | [] => Ret c
  | sid :: sids => c <<- replicate_sid cfg sid c ; replicate_all cfg sids c
  end.

Definition replicate_once (cfg : ReconcileConfig) (c : Cadence) : proc (Cadence * res unit) :=
  on <<- call Enabled ;
  if negb on then Ret (c, Ok tt)
  else
    o <<- call OwnedIds ;
    match o with
    | Err e => Ret (c, Err e)
    | Ok owned => c <<- replicate_all cfg owned (prune_replication_bookkeeping owned c) ; Ret (c, Ok tt)
    end.
End Reconcile.
