(* ===== verification/ReconcilerSafety.v ===== *)
(** What the reconciler keeps to when it repairs a sandbox: the protocol between the claim of an
    ownership epoch, the VM that is launched under it, and the commit; and the conditions
    under which it claims an epoch at all. *)

From S2P Require Import Prelude F64 Json Lease MeshRecord ProcLogic Reconciler.
From ITree Require Import ITree.
Import Reconcile.

(** ** The protocol *)

(** The VM of an attempt: none yet, a launch that has not ended well, launched and paused, running,
    removed, and not removable. *)
Inductive Vm : Type := VNone | VLaunching | VCandidate | VActive | VGone | VStuck.

(** The commit: not tried, tried without success, applied, reported as not applied, and not known
    because the question itself failed. *)
Inductive Commit : Type := CNone | CTried | CApplied | CUnconfirmed | CUnknown.

#[global] Instance Vm_eq_dec : EqDecision Vm.
Proof. solve_decision. Defined.
#[global] Instance Commit_eq_dec : EqDecision Commit.
Proof. solve_decision. Defined.

(** [fresh]: the epoch was renewed since the last step that takes time.  [unseen]: the engine
    did not show the VM when it was asked last. *)
Record Prot : Type := mkProt {
  claim : option Z; fresh : bool; vm : Vm; unseen : bool; commit_state : Commit; leases : bool;
  forgotten : bool; released : bool; cancellation : bool; working : bool }.

Definition prot0 : Prot := mkProt None false VNone false CNone false false false false false.

Definition guard (b : bool) (s : Prot) : option Prot := if b then Some s else None.

Definition holds_epoch (e : Z) (s : Prot) : bool := bool_decide (claim s = Some e).

(** A reaction to a call with its answer; [None]: the call was not allowed.  [rerun]: the attempt
    starts the sandbox anew from its record. *)
Definition prot_step (rerun : bool) (X : Type) (c : callE X) : X -> Prot -> option Prot :=
  match c in callE X return X -> Prot -> option Prot with
  | WorkerBegin _ => fun ok s =>
      Some (mkProt (claim s) (fresh s) (vm s) (unseen s) (commit_state s) (leases s) (forgotten s) (released s) (cancellation s) (ok || working s))
  | WorkerEnd _ => fun _ s =>
      Some (mkProt (claim s) (fresh s) (vm s) (unseen s) (commit_state s) (leases s) (forgotten s) (released s) (cancellation s) false)
  | ClaimRestoreEpoch _ _ _ _ => fun r s =>
      match r with
      | Ok e => guard (bool_decide (claim s = None) && working s)
          (mkProt (Some e) false (vm s) (unseen s) (commit_state s) (leases s) (forgotten s) (released s) (cancellation s) (working s))
      | Err _ => Some s
      end
  | RenewRestoreEpoch _ _ e => fun r s =>
      guard (holds_epoch e s && bool_decide (commit_state s = CNone))
        (mkProt (claim s) (match r with Ok b => b | Err _ => false end) (vm s) (unseen s) (commit_state s) (leases s) (forgotten s) (released s) (cancellation s) (working s))
  | BeginRestoreCancellation _ => fun _ s =>
      Some (mkProt (claim s) (fresh s) (vm s) (unseen s) (commit_state s) (leases s) (forgotten s) (released s) true (working s))
  | EndRestoreCancellation _ => fun _ s =>
      Some (mkProt (claim s) (fresh s) (vm s) (unseen s) (commit_state s) (leases s) (forgotten s) (released s) false (working s))
  | CandidateIsRunning _ => fun b s =>
      Some (mkProt (claim s) (fresh s) (if b : bool then VCandidate else vm s) (unseen s) (commit_state s) (leases s) (forgotten s) (released s) (cancellation s) (working s))
  | LaunchTemplate _ _ _ => fun _ s =>
      guard (fresh s && bool_decide (vm s = VNone) && bool_decide (commit_state s = CNone))
        (mkProt (claim s) false VLaunching (unseen s) (commit_state s) (leases s) (forgotten s) (released s) (cancellation s) (working s))
  | LaunchPoll => fun r s =>
      guard (bool_decide (vm s = VLaunching))
        (mkProt (claim s) (fresh s) (match r with Some (Ok _) => VCandidate | _ => VLaunching end) (unseen s) (commit_state s) (leases s) (forgotten s) (released s) (cancellation s) (working s))
  | ActivateCandidate _ => fun r s =>
      guard (fresh s && bool_decide (vm s = VCandidate) && bool_decide (commit_state s = CNone))
        (mkProt (claim s) false (match r with Ok _ => VActive | Err _ => VCandidate end) (unseen s) (commit_state s) (leases s) (forgotten s) (released s) (cancellation s) (working s))
  | CreateFromRecord _ => fun r s =>
      guard (rerun && fresh s && bool_decide (vm s = VNone))
        (mkProt (claim s) false (match r with Ok _ => VActive | Err _ => VLaunching end) (unseen s) (commit_state s) (leases s) (forgotten s) (released s) (cancellation s) (working s))
  | RunFromRecord _ => fun r s =>
      guard (rerun && fresh s && bool_decide (vm s = VNone))
        (mkProt (claim s) false (match r with Ok _ => VActive | Err _ => VLaunching end) (unseen s) (commit_state s) (leases s) (forgotten s) (released s) (cancellation s) (working s))
  | RestoreFromRecord _ => fun r s =>
      guard (rerun && fresh s && bool_decide (vm s = VNone))
        (mkProt (claim s) false (match r with Ok _ => VActive | Err _ => VLaunching end) (unseen s) (commit_state s) (leases s) (forgotten s) (released s) (cancellation s) (working s))
  | AcquireWritableVolumeLeases _ e => fun r s =>
      guard (holds_epoch e s)
        (mkProt (claim s) (fresh s) (vm s) (unseen s) (commit_state s) (match r with Ok _ => true | Err _ => leases s end) (forgotten s) (released s) (cancellation s) (working s))
  | ReleaseLeases _ => fun _ s =>
      guard (negb (bool_decide (vm s = VActive)) || unseen s)
        (mkProt (claim s) (fresh s) (vm s) (unseen s) (commit_state s) false (forgotten s) (released s) (cancellation s) (working s))
  | CommitRestoreEpoch _ _ e _ _ _ => fun r s =>
      guard (holds_epoch e s && bool_decide (vm s = VActive) &&
             (fresh s && bool_decide (commit_state s = CNone) || bool_decide (commit_state s = CTried)))
        (mkProt (claim s) (fresh s) (vm s) (unseen s) (match r with Ok _ => CApplied | Err _ => CTried end) (leases s) (forgotten s) (released s) (cancellation s) (working s))
  | RestoreCommitApplied _ _ e => fun r s =>
      guard (holds_epoch e s && bool_decide (commit_state s = CTried))
        (mkProt (claim s) (fresh s) (vm s) (unseen s) (match r with Ok true => CApplied | Ok false => CUnconfirmed | Err _ => CUnknown end)
           (leases s) (forgotten s) (released s) (cancellation s) (working s))
  | EngineGet _ => fun r s =>
      Some (mkProt (claim s) (fresh s) (vm s) (match r with Ok _ => false | Err _ => true end) (commit_state s) (leases s) (forgotten s) (released s) (cancellation s) (working s))
  | ForgetLocalOwner _ => fun _ s =>
      Some (mkProt (claim s) (fresh s) (vm s) (unseen s) (commit_state s) (leases s) true (released s) (cancellation s) (working s))
  | EngineRemove _ => fun r s =>
      guard (forgotten s && (bool_decide (commit_state s = CNone) || bool_decide (commit_state s = CUnknown) ||
                             (rerun && bool_decide (commit_state s = CTried))))
        (mkProt (claim s) (fresh s) (match r with Ok _ => VGone | Err _ => VStuck end) (unseen s) (commit_state s) (leases s) (forgotten s) (released s) (cancellation s) (working s))
  | AbortRestoreEpoch _ _ e _ _ => fun _ s =>
      guard (holds_epoch e s && negb (released s) && (bool_decide (vm s = VGone) || unseen s) && negb (leases s))
        (mkProt (claim s) (fresh s) (vm s) (unseen s) (commit_state s) (leases s) (forgotten s) true (cancellation s) (working s))
  | _ => fun _ s => Some s
  end.

Abbreviation psafe rerun := (safe (prot_step rerun)).

(** ** How an attempt ends *)

(** The VM was taken down and the claim given back, or it could not be and the claim is kept. *)
Definition aborted (s : Prot) : Prop :=
  forgotten s = true /\ leases s = false /\ cancellation s = false /\
  (released s = true /\ (vm s = VGone \/ unseen s = true) \/ released s = false /\ vm s = VStuck).

(** The VM runs on under its claim, until the outcome of the commit is known. *)
Definition retained (s : Prot) : Prop :=
  vm s = VActive /\ released s = false /\ forgotten s = false /\ (commit_state s = CUnconfirmed \/ commit_state s = CUnknown).

Definition served (s : Prot) : Prop := vm s = VActive /\ commit_state s = CApplied /\ released s = false /\ cancellation s = false.

Definition restore_ends (r : res bool) (s : Prot) : Prop :=
  working s = false /\
  match r with
  | Ok true => claim s = None
  | Ok false => served s
  | Err _ => claim s = None \/ retained s \/ aborted s /\ (commit_state s = CNone \/ commit_state s = CUnknown)
  end.

Definition rerun_ends (r : res bool) (s : Prot) : Prop :=
  working s = false /\
  match r with
  | Ok true => claim s = None \/ served s
  | Ok false => claim s = None
  | Err _ => claim s = None \/ aborted s /\ (commit_state s = CNone \/ commit_state s = CTried)
  end.

(** ** Proofs *)

(** One call: the monitor is run, and the answer is left to the caller. *)
Lemma psafe_call_bind rerun {X A} s (c : callE X) (k : X -> itree callE A) Q :
  (forall x, exists s', prot_step rerun X c x s = Some s' /\ psafe rerun s' (k x) Q) ->
  psafe rerun s (ITree.bind (ITree.trigger c) k) Q.
Proof. intros Hc. apply safe_bind, safe_call. exact Hc. Qed.

Ltac solve_guard :=
  cbn [prot_step guard holds_epoch claim fresh vm unseen commit_state leases forgotten released cancellation working andb orb negb];
  unfold holds_epoch; cbn [claim]; rewrite ?bool_decide_eq_true_2 by done; cbn [guard andb orb negb]; rewrite ?orb_true_r; reflexivity.

Ltac pcall x := apply psafe_call_bind; intros x; eexists; split; [solve_guard|].

(** A claim that is given up: forget the routing, remove the VM, release the leases, then the epoch. *)
Lemma abort_safe rerun g s :
  g_committed g = false -> claim s = Some (g_epoch g) -> released s = false ->
  commit_state s = CNone \/ commit_state s = CUnknown \/ rerun = true /\ commit_state s = CTried ->
  psafe rerun s (abort_claim g) (fun _ s' => aborted s' /\ claim s' = claim s /\ working s' = working s /\ commit_state s' = commit_state s).
Proof.
  intros Hg Hc Hr Hcm. destruct s as [cl fr v un cm le fo re ca wo]. cbn in Hc, Hr, Hcm. subst cl re.
  unfold abort_claim. rewrite Hg. pcall x. pcall x'. apply safe_bind.
  set (s1 := mkProt (Some (g_epoch g)) fr v un cm le true false ca wo).
  assert (Hrm : bool_decide (cm = CNone) || bool_decide (cm = CUnknown) || rerun && bool_decide (cm = CTried) = true).
  { destruct Hcm as [->|[->|[-> ->]]]; [done..|]. by rewrite !orb_true_r. }
  eapply (safe_mono _ _ _ (fun r s2 => (r = None -> unseen s2 = true) /\
    s2 = mkProt (Some (g_epoch g)) fr v (unseen s2) cm le true false ca wo)).
  2: { destruct (g_restored g); [apply safe_ret; split; [done|reflexivity]|]. pcall r. apply safe_ret. by destruct r. }
  intros record s2 [Hun ->]. apply safe_bind.
  eapply (safe_mono _ _ _ (fun (torn : bool) s3 => s3 = mkProt (Some (g_epoch g)) fr (vm s3) (unseen s3) cm le true false ca wo /\
     if torn then vm s3 = VGone \/ unseen s3 = true else vm s3 = VStuck)).
  2: { destruct record as [record|]; [|apply safe_ret; split; [reflexivity|right; by apply Hun]].
    apply psafe_call_bind. intros r. eexists. split.
    { cbn [prot_step guard forgotten commit_state]. rewrite Hrm. reflexivity. }
    destruct r; [|apply safe_ret; done]. pcall y. apply safe_ret. split; [done|by left]. }
  intros torn s3 [-> Ht]. cbn [vm unseen] in Ht. destruct s3 as [cl3 fr3 v3 un3 cm3 le3 fo3 re3 ca3 wo3]. cbn [vm unseen] in *.
  assert (Hrel : negb (bool_decide (v3 = VActive)) || un3 = true).
  { destruct torn; [destruct Ht as [-> | ->]; [done|by rewrite orb_true_r]|by subst v3]. }
  apply psafe_call_bind. intros r. eexists. split. { cbn [prot_step guard vm unseen]. rewrite Hrel. reflexivity. }
  cbn [claim fresh vm unseen commit_state forgotten released cancellation working]. apply safe_bind. destruct torn.
  - assert (Hab : bool_decide (v3 = VGone) || un3 = true) by (destruct Ht as [-> | ->]; [done|by rewrite orb_true_r]).
    apply safe_bind, safe_call. intros r'. eexists. split.
    { cbn [prot_step guard holds_epoch claim released vm unseen leases]. unfold holds_epoch. cbn [claim]. rewrite bool_decide_eq_true_2 by done. rewrite Hab. reflexivity. }
    apply safe_ret, safe_call. intros y. eexists. split; [reflexivity|]. split; [|done]. do 3 (split; [done|]). by left.
  - apply safe_ret, safe_call. intros y. eexists. split; [reflexivity|]. split; [|done]. do 3 (split; [done|]). by right.
Qed.

(** An attempt in state [s] that fails before its commit. *)
Lemma abort_then {A} rerun g s (e : RErr) (Q : res A -> Prot -> Prop) :
  g_committed g = false -> claim s = Some (g_epoch g) -> released s = false ->
  commit_state s = CNone \/ commit_state s = CUnknown \/ rerun = true /\ commit_state s = CTried ->
  (forall s', aborted s' -> claim s' = claim s -> working s' = working s -> commit_state s' = commit_state s -> Q (Err e) s') ->
  psafe rerun s (ITree.bind (abort_claim g) (fun _ => Ret (Err e))) Q.
Proof.
  intros Hg Hc Hr Hcm HQ. apply safe_bind. eapply safe_mono; [|by apply abort_safe]. intros [] s' (Ha & H1 & H2 & H3). apply safe_ret. by apply HQ.
Qed.

Section attempt.
Context (cfg : ReconcileConfig) (sid : string).

(** The state after a claim of epoch [e], with a VM [v]. *)
Definition claimed (e : Z) (f : bool) (v : Vm) (u l : bool) : Prot := mkProt (Some e) f v u CNone l false false true true.

(** The end of an attempt, before the worker key is given back. *)
Definition attempt_ends (e : Z) (r : res bool) (s : Prot) : Prop :=
  working s = true /\ claim s = Some e /\
  match r with
  | Ok true => False
  | Ok false => served s
  | Err _ => retained s \/ aborted s /\ (commit_state s = CNone \/ commit_state s = CUnknown)
  end.

Lemma abort_attempt e g f v u l err :
  g_committed g = false -> g_epoch g = e ->
  psafe false (claimed e f v u l) (ITree.bind (abort_claim g) (fun _ => Ret (Err err))) (attempt_ends e).
Proof.
  intros Hg <-. apply abort_then; try done; [by left|]. intros s' Ha Hc Hw Hcm. split; [done|]. split; [done|]. right. split; [done|by left].
Qed.

(** Renewals: the rest is reached with a fresh claim. *)
Lemma renewal_safe {A} e f v u l (k : proc (res A)) (Q : res A -> Prot -> Prop) :
  (forall err, Q (Err err) (claimed e false v u l)) -> psafe false (claimed e true v u l) k Q ->
  psafe false (claimed e f v u l) (require_renewal sid (node_id cfg) e k) Q.
Proof.
  intros Herr Hk. unfold require_renewal. pcall r. destruct r as [[|]|err]; [exact Hk|apply safe_ret, Herr..].
Qed.

(** The launch ends with a candidate under a claim that was not reported as lost, or without one. *)
Lemma launch_safe e f u l :
  psafe false (claimed e f VLaunching u l) (launch_loop cfg sid e)
    (fun r s => exists f' v, s = claimed e f' v u l /\ match r with Ok (_, _) => v = VCandidate | Err _ => v = VLaunching end).
Proof.
  unfold launch_loop. apply (safe_iter _ _ (fun _ s => exists f', s = claimed e f' VLaunching u l)); [|by exists f].
  intros lost s [f' ->]. pcall r. destruct r as [[restored|err]|].
  - apply safe_ret. by exists f', VCandidate.
  - apply safe_ret. by exists f', VLaunching.
  - destruct lost; [apply safe_ret; by exists f'|]. pcall r. destruct r as [[|]|err].
    + apply safe_ret. by eexists.
    + pcall x. apply safe_ret. by eexists.
    + apply safe_ret. by eexists _, _.
Qed.

Lemma retained_safe rec lineage restored e g u :
  g_committed g = false -> g_epoch g = e ->
  psafe false (claimed e false VCandidate u false) (retained_steps cfg sid rec lineage restored e g)
    (fun gr s => g_committed (fst gr) = false /\ g_epoch (fst gr) = e /\
       match snd gr with
       | Ok _ => s = claimed e true VActive u true
       | Err _ => exists f v l, s = claimed e f v u l
       end).
Proof.
  intros Hg He. unfold retained_steps. pcall r. destruct r as [[|]|err]; [|apply safe_ret; split_and!; try done; by eexists _, _, _..].
  pcall l. destruct l as [leases|err]; [|apply safe_ret; split_and!; try done; by eexists _, _, _].
  apply safe_bind. eapply (safe_mono _ _ _ (fun r s => match r with Ok _ => s = claimed e true VActive u true | Err _ => exists f v l, s = claimed e f v u l end)).
  { intros r s Hs. apply safe_ret. by split_and!. }
  pcall x. destruct x as [[]|err]; [|apply safe_ret; by eexists _, _, _].
  apply renewal_safe; [intros; by eexists _, _, _|]. pcall x. destruct x as [[]|err]; [|apply safe_ret; by eexists _, _, _].
  pcall y. destruct y as [[]|err]; [|apply safe_ret; by eexists _, _, _].
  apply renewal_safe; [intros; by eexists _, _, _|]. by apply safe_ret.
Qed.

Lemma restore_retained_safe rec lineage e g :
  g_committed g = false -> g_epoch g = e ->
  psafe false (claimed e false VCandidate false false) (restore_retained cfg sid rec lineage e g) (attempt_ends e).
Proof.
  intros Hg He. unfold restore_retained. pcall r. destruct r as [restored|err]; [|by apply abort_attempt].
  destruct (String.eqb _ _); [|by apply abort_attempt]. apply safe_bind.
  eapply safe_mono; [|by apply retained_safe]. intros [g' r] s (Hg' & He' & Hs). cbn [fst snd] in *. destruct r as [[]|err].
  - subst s. unfold commit. pcall c. destruct c as [[]|err].
    + apply safe_bind, safe_ret. pcall x. pcall y. pcall z. apply safe_ret. by split_and!.
    + apply safe_bind. pcall a. destruct a as [[|]|e'].
      * apply safe_ret. pcall x. pcall y. pcall z. apply safe_ret. by split_and!.
      * apply safe_ret. pcall x. apply safe_ret. split_and!; try done. left. split_and!; try done. by left.
      * apply safe_ret, safe_ret. split_and!; try done. left. split_and!; try done. by right.
  - destruct Hs as (f & v & l & ->). by apply abort_attempt.
Qed.

(** The commit of a fresh candidate: committed, retained, or not known and to be given up. *)
Lemma commit_fresh_safe rec lineage e u :
  psafe false (claimed e true VActive u true) (commit_fresh cfg sid e rec lineage)
    (fun cr s => working s = true /\ claim s = Some e /\ released s = false /\ vm s = VActive /\ forgotten s = false /\
       match cr with
       | (true, Ok _) => commit_state s = CApplied /\ cancellation s = false
       | (true, Err _) => commit_state s = CUnconfirmed
       | (false, Err _) => commit_state s = CUnknown
       | (false, Ok _) => False
       end).
Proof.
  unfold commit_fresh, commit. pcall c. destruct c as [[]|err].
  - pcall x. apply safe_ret. by split_and!.
  - pcall c. destruct c as [[]|err'].
    + pcall x. apply safe_ret. by split_and!.
    + pcall a. destruct a as [[|]|e'].
      * pcall x. apply safe_ret. by split_and!.
      * pcall x. apply safe_ret. by split_and!.
      * apply safe_ret. by split_and!.
Qed.

(** A fresh attempt up to its commit. *)
Definition fresh_outcome (e : Z) (gr : ClaimGuard * res unit) (s : Prot) : Prop :=
  g_epoch (fst gr) = e /\ working s = true /\ claim s = Some e /\ released s = false /\
  match gr with
  | (_, Ok _) => served s
  | (g, Err _) =>
      if g_committed g then retained s
      else commit_state s = CNone \/ commit_state s = CUnknown
  end.

Lemma fresh_failed e g f v u l err : g_committed g = false -> g_epoch g = e -> fresh_outcome e (g, Err err) (claimed e f v u l).
Proof. intros Hg He. split_and!; try done. rewrite Hg. by left. Qed.

Lemma restore_fresh_safe rec lineage quorum e g :
  g_committed g = false -> g_epoch g = e ->
  psafe false (claimed e false VNone false false) (restore_fresh cfg sid rec lineage quorum e g) (attempt_ends e).
Proof.
  intros Hg He. unfold restore_fresh. apply safe_bind. eapply (safe_mono _ _ _ (fresh_outcome e)).
  { intros [g' r] s (He' & Hw & Hc & Hrel & Hr). cbn [fst] in He'. destruct r as [[]|err].
    - pcall x. destruct s as [cl fr v un cm le fo re ca wo]. pcall y. apply safe_ret. by split_and!.
    - destruct (g_committed g') eqn:Hg'.
      + unfold abort_claim. rewrite Hg'. apply safe_bind, safe_ret, safe_ret. split_and!; try done. by left.
      + apply abort_then; try done; [by rewrite He'|tauto|]. intros s' Ha Hc' Hw' Hcm. unfold attempt_ends. rewrite Hc', Hw', Hcm. split_and!; try done. by right. }
  pcall l. destruct l as [lr|err]; [|apply safe_ret; by apply fresh_failed].
  pcall r. destruct r as [[|]|err]; [|apply safe_ret; by apply fresh_failed..].
  pcall x. apply safe_bind. eapply safe_mono; [|apply launch_safe]. intros launched s (f & v & -> & Hv).
  destruct launched as [[[|] restored]|err]; [apply safe_ret; by apply fresh_failed| |apply safe_ret; by apply fresh_failed].
  subst v. apply safe_bind.
  eapply (safe_mono _ _ _ (fun r s => match r with Ok _ => s = claimed e true VActive false true | Err _ => exists f v l, s = claimed e f v false l end)).
  - intros r s Hs. destruct r as [[]|err]; [subst s|destruct Hs as (? & ? & ? & ->); apply safe_ret; by apply fresh_failed].
    apply safe_bind. eapply safe_mono; [|apply commit_fresh_safe]. intros [committed r] s (Hw & Hc & Hrel & Hvm & Hfo & Hcm). apply safe_ret.
    destruct committed, r as [[]|err]; try done; cbn [fst].
    + split_and!; try done; by destruct Hcm.
    + split_and!; try done. cbn. split_and!; try done. by left.
    + split_and!; try done. cbn. rewrite Hg. by right.
  - apply renewal_safe; [intros; by eexists _, _, _|]. pcall y. destruct y as [[]|err]; [|apply safe_ret; by eexists _, _, _].
    pcall y. destruct y as [[]|err]; [|apply safe_ret; by eexists _, _, _].
    pcall y. destruct y as [[]|err]; [|apply safe_ret; by eexists _, _, _].
    apply renewal_safe; [intros; by eexists _, _, _|]. by apply safe_ret.
Qed.

Definition pinned_ends (r : res bool) (s : Prot) : Prop :=
  working s = true /\
  match r with
  | Ok true => False
  | Ok false => served s
  | Err _ => claim s = None \/ retained s \/ aborted s /\ (commit_state s = CNone \/ commit_state s = CUnknown)
  end.

Lemma restore_pinned_safe rec create_record quorum :
  psafe false (mkProt None false VNone false CNone false false false false true) (restore_pinned cfg sid rec create_record quorum) pinned_ends.
Proof.
  unfold restore_pinned. destruct create_record as [lineage|].
  2: { pcall x. destruct x as [[]|err]; apply safe_ret; (split; [done|by left]). }
  cbn zeta. destruct (negb _).
  { pcall x. destruct x as [[]|err]; apply safe_ret; (split; [done|by left]). }
  apply psafe_call_bind. intros [e|err]; eexists; (split; [solve_guard|]); [|apply safe_ret; split; [done|by left]].
  unfold new_claim. apply safe_bind. pcall x. apply safe_ret. pcall running.
  eapply (safe_mono _ _ _ (attempt_ends e)).
  { intros r s (Hw & Hc & Hr). split; [done|]. destruct r as [[|]|err]; [done..|by right]. }
  destruct running; [by apply restore_retained_safe|by apply restore_fresh_safe].
Qed.
End attempt.

(** C16: A restore from a replica keeps to its protocol, whatever the mesh, the engine, the stores and
    the other nodes answer.  A VM is launched, activated and committed only under the epoch that
    was claimed, and each of these after a renewal that confirmed it; no second VM is launched next to a running candidate; a VM
    is removed only when its commit was not tried or the question for the outcome failed, and after local routing was
    forgotten; the epoch is given back only after the leases were released and after the VM was removed or the engine
    answered the last question for it with an error.  The code takes any such error for the absence
    of the VM, so this does not say that no VM runs.  The restore ends with the worker key given back and
    either nothing claimed, or a running VM with an applied commit, or one whose commit is not
    confirmed, or a claim that was given up in this order, or one that is kept because the VM could not be removed. *)
Theorem restore_keeps_protocol cfg sid create_record quorum :
  psafe false prot0 (restore_from_replica cfg sid create_record quorum) restore_ends.
Proof.
  unfold restore_from_replica. cbn zeta. pcall free. destruct free; cbn [negb orb]; [|by apply safe_ret].
  apply safe_bind. eapply (safe_mono _ _ _ pinned_ends).
  { intros r [cl fr v un cm le fo re ca wo] (Hw & Hr). pcall x. apply safe_ret. split; [done|]. by destruct r as [[|]|err]. }
  pcall r. destruct r as [[rec|]|err]; [|apply safe_ret; split; [done|by left]..].
  pcall x. apply safe_bind. eapply safe_mono; [|apply restore_pinned_safe].
  intros r [cl fr v un cm le fo re ca wo] Hr. pcall y. by apply safe_ret.
Qed.

Section rerun.
Context (cfg : ReconcileConfig) (sid : string).

Definition rerun_outcome (e : Z) (gr : ClaimGuard * res bool) (s : Prot) : Prop :=
  g_epoch (fst gr) = e /\ working s = true /\ claim s = Some e /\ released s = false /\
  match gr with
  | (_, Ok _) => served s
  | (g, Err _) => g_committed g = false /\ (commit_state s = CNone \/ commit_state s = CTried)
  end.

Lemma rerun_failed e g f v u l err : g_committed g = false -> g_epoch g = e -> rerun_outcome e (g, Err err) (claimed e f v u l).
Proof. intros Hg He. split_and!; try done. by left. Qed.

Lemma rerun_launch_safe e kind params :
  psafe true (claimed e true VNone false false) (rerun_launch sid kind params)
    (fun r s => s = claimed e false (match r with Ok _ => VActive | Err _ => VLaunching end) false false).
Proof.
  unfold rerun_launch. destruct (String.eqb kind "run"); [|destruct (String.eqb kind "restore")]; pcall r; destruct r; by apply safe_ret.
Qed.

Lemma rerun_finish_safe e record created u :
  psafe true (claimed e false VActive u false) (rerun_finish cfg sid record e created)
    (fun r s => working s = true /\ claim s = Some e /\ released s = false /\
       match r with Ok _ => served s | Err _ => commit_state s = CNone \/ commit_state s = CTried end).
Proof.
  unfold rerun_finish, require_renewal, commit. pcall r. destruct r as [[|]|err]; [|apply safe_ret; split_and!; try done; by left..].
  pcall x. destruct x as [[]|err]; [|apply safe_ret; split_and!; try done; by left].
  pcall x. destruct x as [[]|err]; [|apply safe_ret; split_and!; try done; by left].
  pcall c. destruct c as [[]|err]; [|apply safe_ret; split_and!; try done; by right].
  pcall y. apply safe_ret. by split_and!.
Qed.

Lemma rerun_attempt_safe record e g :
  g_committed g = false -> g_epoch g = e ->
  psafe true (claimed e false VNone false false) (rerun_attempt cfg sid record e g) (rerun_outcome e).
Proof.
  intros Hg He. unfold rerun_attempt. pcall r. destruct r as [[|]|err]; [|apply safe_ret; by apply rerun_failed..].
  destruct (params_object (cr_params record)) as [params|err]; [|apply safe_ret; by apply rerun_failed]. cbn zeta.
  apply safe_bind. eapply safe_mono; [|apply rerun_launch_safe]. intros created s ->.
  destruct created as [created|err]; [|apply safe_ret; by apply rerun_failed].
  pcall got. apply safe_bind. eapply safe_mono; [|apply (rerun_finish_safe e record created (match got with Ok _ => false | Err _ => true end))].
  intros r s (Hw & Hc & Hrel & Hr). apply safe_ret. destruct r as [b|err]; split_and!; done.
Qed.
End rerun.

(** A rerun from the create record keeps to the protocol too; a commit that was answered with an
    error ends with the VM taken down. *)
Theorem rerun_keeps_protocol cfg sid : psafe true prot0 (rerun_from_record cfg sid) rerun_ends.
Proof.
  unfold rerun_from_record. pcall r. destruct r as [[record|]|err]; [|apply safe_ret; split; [done|by left || done]..].
  destruct (negb _); [by apply safe_ret|]. cbn zeta. pcall free. destruct free; cbn [negb orb]; [|apply safe_ret; split; [done|by left]].
  apply safe_bind.
  eapply (safe_mono _ _ _ (fun r s => working s = true /\
    match r with Ok b => b = true /\ served s | Err _ => claim s = None \/ aborted s /\ (commit_state s = CNone \/ commit_state s = CTried) end)).
  { intros r [cl fr v un cm le fo re ca wo] (Hw & Hr). pcall x. apply safe_ret. split; [done|].
    destruct r as [b|err]; [|done]. destruct Hr as [-> Hs]. by right. }
  destruct (negb _); [apply safe_ret; split; [done|by left]|].
  apply psafe_call_bind. intros [e|err]; eexists; (split; [solve_guard|]); [|apply safe_ret; split; [done|by left]].
  unfold new_claim. apply safe_bind. pcall x. apply safe_ret. apply safe_bind. eapply safe_mono; [|by apply (rerun_attempt_safe cfg sid record e)].
  intros [g r] s (He & Hw & Hc & Hrel & Hr). cbn [fst] in He. destruct r as [b|err].
  - pcall y. apply safe_ret. by split_and!.
  - destruct Hr as [Hg Hcm]. apply abort_then; try done; [by rewrite He|destruct Hcm; [by left|right; right; done]|].
    intros s' Ha Hc' Hw' Hcm'. rewrite Hw'. split; [done|]. right. split; [done|by rewrite Hcm'].
Qed.
