(* ===== verification/ReconcilerOrphans.v ===== *)
(** When the reconciler repairs an orphan, and runs in which it does not do what it is meant to. *)

From S2P Require Import Prelude F64 Json Lease MeshRecord ProcLogic Reconciler ReconcilerSafety.
From ITree Require Import ITree.
Import Reconcile.

(** ** The conditions of a repair *)

(** The poll of the members: who is live, which other live member was looked up last and where
    it is, and which members said that they cannot reach the dead owner. *)
Record Poll : Type := mkPoll { p_live : list string; p_asked : option (string * string); p_votes : list string }.

Definition poll0 : Poll := mkPoll [] None [].

(** What the node was told about an orphan so far; the first answer counts where a question is
    asked again. *)
Record Known : Type := mkKnown {
  k_record : option (option CreateRecord); k_missing : option bool; k_dead_down : bool; k_quorum : option bool; k_confirmed : bool;
  k_mine : bool; k_secrets : bool; k_poll : Poll }.

Definition known0 : Known := mkKnown None None false None false false false poll0.
Definition set_poll (p : Poll) (k : Known) : Known :=
  mkKnown (k_record k) (k_missing k) (k_dead_down k) (k_quorum k) (k_confirmed k) (k_mine k) (k_secrets k) p.

Definition first {A} (o : option A) (a : A) : option A := match o with Some _ => o | None => Some a end.

Section orphans.
Context (cfg : ReconcileConfig) (sid dead : string).

Definition k_pending (k : Known) : bool :=
  match k_record k with Some (Some r) => record_restore_pending r | _ => false end.
Definition k_retrying (k : Known) : bool :=
  k_pending k && match k_record k with Some (Some r) => String.eqb (cr_owner r) (node_id cfg) | _ => false end.
Definition k_off (k : Known) : bool :=
  match k_record k with Some (Some r) => String.eqb (cr_ha r) "off" | Some None => false | None => true end.
Definition k_lost (k : Known) : bool := match k_missing k with Some b => b | None => false end.

(** [payload.get("reachable").and_then(as_bool) == Some(false)]. *)
Definition denies (payload : option json) : bool := bool_decide ((payload ≫= fun v => jget v "reachable" ≫= as_bool) = Some false).

(** A member that is looked up counts if it is live and not this node. *)
Definition look_up (member : string) (u : option string) (p : Poll) : Poll :=
  mkPoll (p_live p) (if bool_decide (member ∈ p_live p) && negb (String.eqb member (node_id cfg)) then pair member <$> u else None) (p_votes p).

(** The answer of a member counts once, if it is about the dead owner and denies that it is reachable. *)
Definition vote (url target : string) (payload : option json) (p : Poll) : Poll :=
  mkPoll (p_live p) None
    (match p_asked p with
     | Some (member, u) => if String.eqb u url && String.eqb target dead && denies payload then member :: p_votes p else p_votes p
     | None => p_votes p
     end).

(** A claim needs: a record that does not say [off]; a repair that was begun already, a local VM that
    is gone, or a dead owner that did not answer; the quorum if one is asked for; and that this node is the chosen
    one, has the secrets of the replica, or repeats its own claim. *)
Definition may_claim (k : Known) : bool :=
  negb (k_off k) && bool_decide (is_Some (k_missing k)) && (k_pending k || k_lost k || k_dead_down k) &&
  match k_quorum k with Some q => negb q || k_lost k || k_confirmed k | None => false end &&
  (k_mine k || k_secrets k || k_retrying k).

Definition known_step (X : Type) (c : callE X) : X -> Known -> option Known :=
  match c in callE X return X -> Known -> option Known with
  | RecordGet _ => fun r k =>
      Some (match r with Ok o => mkKnown (first (k_record k) o) (k_missing k) (k_dead_down k) (k_quorum k) (k_confirmed k) (k_mine k) (k_secrets k) (k_poll k) | Err _ => k end)
  | LocalCandidateMissing _ => fun r k =>
      Some (match r with Ok b => mkKnown (k_record k) (first (k_missing k) b) (k_dead_down k) (k_quorum k) (k_confirmed k) (k_mine k) (k_secrets k) (k_poll k) | Err _ => k end)
  | IsPeerHealthy peer => fun b k =>
      Some (mkKnown (k_record k) (k_missing k) (k_dead_down k || String.eqb peer dead && negb b) (k_quorum k) (k_confirmed k) (k_mine k) (k_secrets k) (k_poll k))
  | ExpectedMembers => fun n k =>
      Some (mkKnown (k_record k) (k_missing k) (k_dead_down k) (first (k_quorum k) (restore_quorum_enabled cfg n)) (k_confirmed k) (k_mine k) (k_secrets k) (k_poll k))
  | LiveMemberIds => fun l k => Some (set_poll (mkPoll l None []) k)
  | PeerUrl member => fun u k => Some (set_poll (look_up member u (k_poll k)) k)
  | Reachable url target => fun payload k => Some (set_poll (vote url target payload (k_poll k)) k)
  | RestoreQuorumMet n => fun b k =>
      Some (mkKnown (k_record k) (k_missing k) (k_dead_down k) (k_quorum k) (k_confirmed k || b && (n =? S (length (p_votes (k_poll k))))%nat)
              (k_mine k) (k_secrets k) (k_poll k))
  | RestoreOwner _ _ => fun o k =>
      Some (mkKnown (k_record k) (k_missing k) (k_dead_down k) (k_quorum k) (k_confirmed k) (k_mine k || bool_decide (o = Some (node_id cfg))) (k_secrets k) (k_poll k))
  | SecretsReady _ => fun r k =>
      Some (mkKnown (k_record k) (k_missing k) (k_dead_down k) (k_quorum k) (k_confirmed k) (k_mine k) (k_secrets k || match r with Ok b => b | Err _ => false end) (k_poll k))
  | ClaimRestoreEpoch _ _ _ _ => fun _ k => if may_claim k then Some k else None
  | _ => fun _ k => Some k
  end.

Abbreviation ksafe := (safe known_step).

(** What is known stays known. *)
Lemma may_claim_kept X (c : callE X) x k : may_claim k = true -> exists k', known_step X c x k = Some k' /\ may_claim k' = true.
Proof.
  assert (Hmono : forall rec mis dn dn' qu co co' mi mi' se se' po po',
    may_claim (mkKnown rec mis dn qu co mi se po) = true -> (dn = true -> dn' = true) -> (co = true -> co' = true) ->
    (mi = true -> mi' = true) -> (se = true -> se' = true) -> may_claim (mkKnown rec mis dn' qu co' mi' se' po') = true).
  { intros *. unfold may_claim, k_off, k_lost, k_retrying, k_pending. cbn [k_record k_missing k_dead_down k_quorum k_confirmed k_mine k_secrets].
    rewrite !andb_true_iff, !orb_true_iff. destruct qu as [q|]; [|naive_solver]. rewrite !orb_true_iff. naive_solver. }
  assert (Hset : may_claim k = true -> is_Some (k_record k) /\ is_Some (k_missing k) /\ is_Some (k_quorum k)).
  { unfold may_claim, k_off. rewrite !andb_true_iff, bool_decide_eq_true. destruct (k_record k), (k_quorum k); naive_solver. }
  intros Hm. destruct (Hset Hm) as ([r Hr] & [m Hmi] & [q Hq]). destruct k as [rec mis dn qu co mi se po]. cbn in Hr, Hmi, Hq. subst rec mis qu.
  destruct c; cbn [known_step k_record k_missing k_dead_down k_quorum k_confirmed k_mine k_secrets first]; try (by eexists); try (rewrite Hm; by eexists);
    try (by destruct x; eexists); (eexists; split; [reflexivity|]); (eapply Hmono; [exact Hm|..]; by intros ->).
Qed.

Lemma claims_allowed {R} k (t : proc R) : may_claim k = true -> ksafe k t (fun _ k' => may_claim k' = true).
Proof. intros Hm. apply (safe_closed _ (fun k => may_claim k = true)); [|done]. intros X c x k'. apply may_claim_kept. Qed.

Ltac kcall x := apply safe_bind, safe_call; intros x; eexists; split; [reflexivity|].

(** The members are polled: the number that comes out is that of the votes, and one for this node. *)
Lemma ask_members_safe members n k :
  (forall m, m ∈ members -> m ∈ p_live (k_poll k)) -> n = S (length (p_votes (k_poll k))) ->
  ksafe k (ask_members cfg dead members n) (fun r k' => exists p, k' = set_poll p k /\ r = S (length (p_votes p))).
Proof.
  revert n k. induction members as [|m members IH]; intros n k Hl Hn; cbn [ask_members].
  { apply safe_ret. exists (k_poll k). split; [by destruct k|done]. }
  assert (Hl' : forall m', m' ∈ members -> m' ∈ p_live (k_poll k)) by (intros; apply Hl; by apply list_elem_of_further).
  destruct (String.eqb m _) eqn:Hm; [by apply IH|]. kcall u.
  assert (Hlk : forall p, look_up m u (k_poll k) = p -> p = mkPoll (p_live (k_poll k)) (pair m <$> u) (p_votes (k_poll k))).
  { intros p <-. unfold look_up. rewrite Hm, bool_decide_eq_true_2 by (apply Hl, list_elem_of_here). done. }
  rewrite (Hlk _ eq_refl). destruct u as [url|]; cbn [fmap option_fmap option_map].
  2: { eapply safe_mono; [|apply IH; done]. intros r k' (p & -> & Hr). by exists p. }
  kcall payload. eapply safe_mono; [|apply IH; [done|]].
  - intros r k' (p & -> & Hr). by exists p.
  - cbn. rewrite !String.eqb_refl. unfold denies. cbn [andb]. by destruct (bool_decide _); rewrite Hn.
Qed.

(** From the choice of the restorer on: all that is left to know is the quorum. *)
Lemma repair_safe create_record missing held ready can_rerun rec dn mi se po :
  let k := mkKnown (Some rec) (Some missing) dn None false mi se po in
  k_off k = false -> k_pending k || missing || dn = true -> mi || se || k_retrying k = true ->
  ksafe k (repair cfg sid dead create_record missing held ready can_rerun) (fun _ _ => True).
Proof.
  intros k Hoff Hdown Hmine. unfold repair. kcall expected. cbn zeta. set (q := restore_quorum_enabled cfg expected).
  assert (Hmay : forall co po', negb q || missing || co = true -> may_claim (mkKnown (Some rec) (Some missing) dn (Some q) co mi se po') = true).
  { intros co po' Hco. unfold may_claim. cbn [k_missing k_quorum k_confirmed k_mine k_secrets k_dead_down].
    change (k_off (mkKnown (Some rec) (Some missing) dn (Some q) co mi se po')) with (k_off k). rewrite Hoff.
    change (k_pending (mkKnown (Some rec) (Some missing) dn (Some q) co mi se po')) with (k_pending k).
    change (k_retrying (mkKnown (Some rec) (Some missing) dn (Some q) co mi se po')) with (k_retrying k).
    change (k_lost (mkKnown (Some rec) (Some missing) dn (Some q) co mi se po')) with missing. rewrite Hdown, Hco, Hmine. by rewrite bool_decide_eq_true_2. }
  apply safe_bind. eapply (safe_mono _ _ _ (fun b k' => b = true -> may_claim k' = true)).
  { intros [|] k' Hk; cbn [negb]; [|by apply safe_ret]. specialize (Hk eq_refl). destruct ready.
    - eapply safe_mono; [|by apply claims_allowed]. done.
    - eapply safe_mono; [|by apply claims_allowed]. done. }
  destruct (q && negb missing) eqn:Hneed.
  - unfold restore_quorum_confirmed, last_quorum_confirmations. apply safe_bind. kcall members. eapply safe_mono; [|by apply ask_members_safe].
    intros n k' (p & -> & ->). apply safe_call. intros b. eexists. split; [reflexivity|]. intros ->. apply Hmay.
    cbn [k_poll set_poll]. by rewrite Nat.eqb_refl, !orb_true_r.
  - apply safe_ret. intros _. apply Hmay. destruct q, missing; done.
Qed.

Lemma choose_restorer_safe rec create_record missing dn se po :
  create_record = rec ->
  let k := mkKnown (Some rec) (Some missing) dn None false false se po in
  ksafe k (choose_restorer cfg sid dead create_record (k_pending k) missing)
    (fun b k' => exists mi, k' = mkKnown (Some rec) (Some missing) dn None false mi se po /\ (b = true -> mi || k_retrying k = true)).
Proof.
  intros -> k. unfold choose_restorer. cbn zeta. destruct (k_pending k && _) eqn:Hr.
  - apply safe_ret. exists false. split; [done|]. intros _. unfold k_retrying. change (k_record k) with (Some rec). by destruct rec.
  - kcall o. apply safe_ret. exists (bool_decide (o = Some (node_id cfg))). split; [done|]. by intros ->.
Qed.

Lemma owner_alive_safe k : ksafe k (owner_alive cfg sid dead) (fun _ k' => k' = k).
Proof.
  unfold owner_alive. kcall o. destruct o as [[o|]|e]; [|by apply safe_ret..]. destruct (String.eqb o dead) eqn:Ho; [by apply safe_ret|].
  destruct (String.eqb o (node_id cfg)); [by apply safe_ret|]. kcall h. apply safe_ret. rewrite Ho. cbn [andb]. rewrite orb_false_r. by destruct k.
Qed.

(** The part of the decision after the checks of the owner. *)
Lemma decision_safe rec missing dn po :
  let k := mkKnown (Some rec) (Some missing) dn None false false false po in
  k_pending k || missing || dn = true ->
  ksafe k
    (let ha := match rec with Some r => cr_ha r | None => "async"%string end in
     let can_rerun := match rec with Some r => record_can_rerun r | None => false end in
     if String.eqb ha "off" then Ret (Ok false)
     else
       ITree.bind (if String.eqb ha "async" || String.eqb ha "async+rerun" then ITree.trigger (ReplicaGet sid) else Ret (Ok None)) (fun r =>
       match r with
       | Err e => Ret (Err e)
       | Ok replica =>
           let held := match replica with Some _ => true | None => false end in
           let needs := match replica with Some r => rp_needs_secrets r | None => false end in
           ITree.bind (if held && needs then ITree.trigger (SecretsReady sid) else Ret (Ok held)) (fun r =>
           match r with
           | Err e => Ret (Err e)
           | Ok ready =>
               if needs && negb ready then Ret (Ok true)
               else
                 ITree.bind (if needs then Ret true else choose_restorer cfg sid dead rec (k_pending k) missing) (fun mine =>
                 if mine : bool then repair cfg sid dead rec missing held ready can_rerun else Ret (Ok true))
           end)
       end)) (fun _ _ => True).
Proof.
  intros k Hdown. cbn zeta. destruct (String.eqb _ "off") eqn:Hoff; [by apply safe_ret|].
  assert (Hoff' : k_off k = false) by (unfold k, k_off; cbn; by destruct rec).
  apply safe_bind. eapply (safe_mono _ _ _ (fun _ k' => k' = k)).
  2: { destruct (String.eqb _ "async" || _); [apply safe_call; intros r; by eexists|by apply safe_ret]. }
  intros [replica|e] k' ->; [|by apply safe_ret].
  set (needs := match replica with Some r => rp_needs_secrets r | None => false end).
  apply safe_bind. eapply (safe_mono _ _ _ (fun r k' => exists se, k' = mkKnown (Some rec) (Some missing) dn None false false se po /\
    (needs = true -> r = Ok true -> se = true))).
  2: { destruct replica as [rp|]; cbn [andb].
    - destruct needs eqn:Hn; [|apply safe_ret; by exists false]. apply safe_call. intros r. eexists. split; [reflexivity|].
      exists (match r with Ok b => b | Err _ => false end). split; [done|]. intros _ ->. done.
    - apply safe_ret. by exists false. }
  intros [ready|e] k' (se & -> & Hse); [|by apply safe_ret]. destruct (needs && negb ready) eqn:Hnr; [by apply safe_ret|].
  apply safe_bind. destruct needs.
  - apply safe_ret. rewrite (Hse eq_refl) by (by destruct ready). by apply repair_safe.
  - eapply safe_mono; [|by apply (choose_restorer_safe rec rec missing dn se po)]. intros [|] k' (mi & -> & Hmi); [|by apply safe_ret].
    specialize (Hmi eq_refl). apply repair_safe; [done..|]. apply orb_true_iff in Hmi as [-> | Hmi]; [done|].
    change (k_retrying (mkKnown (Some rec) (Some missing) dn None false mi se po)) with (k_retrying (mkKnown (Some rec) (Some missing) dn None false false se po)).
    rewrite Hmi. by rewrite orb_true_r.
Qed.

(** C24: A node claims the epoch of an orphan only when the record does not say that it is not to
    be repaired; when the record says that a repair was begun before, or the local VM is reported as gone, or the
    previous owner did not answer a health check; when a quorum was confirmed, if one is asked for and the VM was not
    reported as gone locally; and when the node is the one chosen for the repair, has the secrets of the replica, or
    repeats its own claim.  A quorum is confirmed by the answer of the mesh to one question, whose number is one more than
    the number of other live members that, looked up and asked for this owner, said that they cannot reach it. *)
Theorem orphan_claims_guarded : ksafe known0 (reconcile_orphan cfg sid dead) (fun _ _ => True).
Proof.
  unfold reconcile_orphan. apply safe_bind. eapply (safe_mono _ _ _ (fun _ _ => True)).
  { intros r k _. destruct r as [[|]|e]; [apply safe_call; intros []; by eexists|by apply safe_ret|apply safe_call; intros []; by eexists]. }
  unfold orphan_decision. kcall r. destruct r as [rec|e]; [|by apply safe_ret]. cbn zeta.
  kcall m. destruct m as [missing|e]; [|by apply safe_ret].
  set (k := mkKnown (Some rec) (Some missing) false None false false false poll0).
  change (match rec with Some r => record_restore_pending r | None => false end) with (k_pending k).
  apply safe_bind. eapply (safe_mono _ _ _ (fun _ k' => k' = k)).
  2: { destruct (_ && _); [apply owner_alive_safe|by apply safe_ret]. }
  intros [[|]|e] k' ->; [by apply safe_ret| |by apply safe_ret].
  apply safe_bind. eapply (safe_mono _ _ _ (fun b k' => exists dn, k' = mkKnown (Some rec) (Some missing) dn None false false false poll0 /\
    (b = false -> k_pending k || missing || dn = true))).
  2: { destruct (negb (k_pending k) && negb missing) eqn:Hn.
    - apply safe_call. intros b. eexists. split; [reflexivity|]. exists (String.eqb dead dead && negb b). split; [done|]. intros ->.
      rewrite String.eqb_refl. by rewrite orb_true_r.
    - apply safe_ret. exists false. split; [done|]. intros _. rewrite orb_false_r. destruct (k_pending k), missing; done. }
  intros [|] k' (dn & -> & Hdn); [by apply safe_ret|]. specialize (Hdn eq_refl).
  apply safe_bind. eapply (safe_mono _ _ _ (fun _ k' => k' = mkKnown (Some rec) (Some missing) dn None false false false poll0)).
  2: { destruct (negb _); [apply safe_call; intros b; by eexists|by apply safe_ret]. }
  intros [[|]|e] k' ->; [by apply safe_ret| |by apply safe_ret]. by apply (decision_safe rec missing dn poll0).
Qed.
End orphans.

(** ** Runs *)

Module ReconcilerExamples.
#[local] Open Scope string_scope.

Definition cfg : ReconcileConfig := mkReconcileConfig (f64_of_Z 30) 2 None "n1".
Definition vm1 : SandboxRecord := mkSandbox "vm1" ∅.
Definition lineage : CreateRecord := mkCreate "vm1" (JObject ∅) "n0" 3 "" "async" "none".
Definition replica1 : ReplicaRecord := mkReplica "vm1" "d1" "" "n0" 3 5 "/cache/d1" (JObject ∅) false.
Definition lease1 : LeaseRecord := mkLeaseRecord "vol" "n1" 4 f64_zero (f64_of_Z 30).
Definition pending1 : json := replica_restore_pending replica1 lineage.

(** The events of a run that was claimed. *)
Definition begun : list (ev callE) :=
  [Ev (WorkerBegin "restore:vm1") true; Ev (ReplicaGet "vm1") (Ok (Some replica1)); Ev (AcquireCacheRoot replica1) tt;
   Ev (ClaimRestoreEpoch "vm1" "n1" lineage pending1) (Ok 4); Ev (BeginRestoreCancellation "vm1") tt].
Definition ended : list (ev callE) := [Ev (EndRestoreCancellation "vm1") tt; Ev (DropCacheRoot replica1) tt; Ev (WorkerEnd "restore:vm1") tt].
Definition renewed : ev callE := Ev (RenewRestoreEpoch "vm1" "n1" 4) (Ok true).
Definition launched : list (ev callE) :=
  [Ev (CandidateIsRunning "vm1") false; Ev (AcquireWritableVolumeLeases (JObject ∅) 4) (Ok [lease1]); renewed;
   Ev (LaunchTemplate (JObject ∅) "/cache/d1" false) tt; Ev LaunchPoll (Some (Ok vm1)); renewed;
   Ev (SetHaMetadata "vm1" "async" "none") (Ok tt); Ev (RecordVolumeLeases "vm1" [lease1]) (Ok tt)].
Definition committing (answer : res unit) : ev callE := Ev (CommitRestoreEpoch "vm1" "n1" 4 (JObject ∅) "async" "none") answer.

(** The head of the tree is evaluated, and the next event of the trace is taken. *)
Ltac run_head := lazymatch goal with |- runs ?n ?t ?tr ?o => let t' := eval hnf in t in change (runs n t' tr o) end.
Ltac run_on := repeat (run_head; apply runs_vis); run_head; apply runs_done.

(** One call, and the conditions after it. *)
Ltac run_call :=
  apply runs_call; cbv beta iota;
  repeat match goal with |- context [if ?b then _ else _] =>
    let v := eval vm_compute in b in replace b with v by (vm_compute; reflexivity); cbv iota zeta end.

(** A restore that succeeds. *)
Example restore_serves :
  exists n, runs n (observe (restore_from_replica cfg "vm1" (Some lineage) false))
    (begun ++ launched ++
     [Ev (ActivateCandidate "vm1") (Ok tt); renewed; committing (Ok tt); Ev (EndRestoreCancellation "vm1") tt; Ev (DropReplica replica1) (Ok tt);
      Ev (NoteEvent "restore") tt; Ev (DropCacheRoot replica1) tt; Ev (WorkerEnd "restore:vm1") tt])
    (RetF (Ok false)).
Proof. exists 21%nat. cbn [app begun launched ended]. run_on. Qed.

(** The monitor of the protocol follows the restore above, and refuses one that commits before the VM is
    activated, and one that gives the epoch back before it released the leases. *)
Lemma restore_keeps_protocol_witness :
  (exists s', accepts (prot_step false) prot0
    (begun ++ launched ++
     [Ev (ActivateCandidate "vm1") (Ok tt); renewed; committing (Ok tt); Ev (EndRestoreCancellation "vm1") tt; Ev (DropReplica replica1) (Ok tt);
      Ev (NoteEvent "restore") tt; Ev (DropCacheRoot replica1) tt; Ev (WorkerEnd "restore:vm1") tt]) = Some s' /\ restore_ends (Ok false) s') /\
  accepts (prot_step false) prot0 (begun ++ launched ++ [committing (Ok tt)]) = None /\
  accepts (prot_step false) prot0 (begun ++ launched ++
    [Ev (ForgetLocalOwner "vm1") tt; Ev (EngineRemove "vm1") (Ok tt); Ev (AbortRestoreEpoch "vm1" "n1" 4 "n0" 3) (Ok tt)]) = None.
Proof.
  split; [|split; reflexivity]. destruct restore_serves as [n Hr].
  destruct (restore_keeps_protocol cfg "vm1" (Some lineage) false n n _ _ (Nat.le_refl n) Hr) as (s' & Ha & Hq).
  exists s'. split; [exact Ha|]. by apply Hq.
Defined.

(** An orphan is claimed after a poll: of the live members, one is this node and the other cannot
    reach the dead owner. *)
Definition quorum_cfg : ReconcileConfig := mkReconcileConfig (f64_of_Z 30) 2 (Some true) "n1".
Definition polled (answer : json) (n : nat) : list (ev callE) :=
  [Ev (RecordGet "vm1") (Ok (Some lineage)); Ev (LocalCandidateMissing "vm1") (Ok false); Ev (OwnerOf "vm1") (Ok (Some "n0"));
   Ev (IsPeerHealthy "n0") false; Ev (IsNonservingLifecycle "vm1") (Ok false); Ev (ReplicaGet "vm1") (Ok (Some replica1));
   Ev (RestoreOwner "vm1" ["n0"]) (Some "n1"); Ev ExpectedMembers 3%nat; Ev LiveMemberIds ["n1"; "n2"];
   Ev (PeerUrl "n2") (Some "http://n2"); Ev (Reachable "http://n2" "n0") (Some answer); Ev (RestoreQuorumMet n) true;
   Ev (WorkerBegin "restore:vm1") true; Ev (ReplicaGet "vm1") (Ok (Some replica1)); Ev (AcquireCacheRoot replica1) tt;
   Ev (ClaimRestoreEpoch "vm1" "n1" lineage pending1) (Ok 4)].
Definition unreachable : json := JObject {["reachable" := JBool false]}.
Definition reachable : json := JObject {["reachable" := JBool true]}.

Example orphan_is_claimed : exists n o, runs n (observe (reconcile_orphan quorum_cfg "vm1" "n0")) (polled unreachable 2) o.
Proof. exists 16%nat. eexists. run_on. Qed.

(** A poll whose number counts a member that reaches the owner is no confirmation. *)
Lemma orphan_claims_guarded_witness :
  (exists k, accepts (known_step quorum_cfg "n0") known0 (polled unreachable 2) = Some k /\ p_votes (k_poll k) = ["n2"]) /\
  accepts (known_step quorum_cfg "n0") known0 (polled reachable 2) = None.
Proof.
  split; [|vm_compute; reflexivity]. destruct orphan_is_claimed as (n & o & Hr).
  destruct (orphan_claims_guarded quorum_cfg "vm1" "n0" n n _ _ (Nat.le_refl n) Hr) as (k & Ha & _).
  exists k. split; [exact Ha|]. vm_compute in Ha. by injection Ha as <-.
Defined.

(** The outcome of the commit is not known: both attempts and the question whether it was applied end with
    errors.  The comment says that the candidate is kept then, but the VM, which may be serving, is
    removed. *)
Example unknown_commit_removes_vm :
  exists n, runs n (observe (restore_from_replica cfg "vm1" (Some lineage) false))
    (begun ++ launched ++
     [Ev (ActivateCandidate "vm1") (Ok tt); renewed; committing (Err Failure); committing (Err Failure);
      Ev (RestoreCommitApplied "vm1" "n1" 4) (Err Failure);
      Ev (CancelRestore "vm1") tt; Ev (ForgetLocalOwner "vm1") tt; Ev (EngineRemove "vm1") (Ok tt); Ev (ReleaseRecordVolumeLeases vm1) (Ok tt);
      Ev (ReleaseLeases [lease1]) (Ok tt); Ev (AbortRestoreEpoch "vm1" "n1" 4 "n0" 3) (Ok tt)] ++ ended)
    (RetF (Err Failure)).
Proof. exists 27%nat. run_on. Qed.

(** The VM cannot be removed: the claim is kept, but the leases of its writable volumes are released
    while it may be running. *)
Example stuck_vm_leases_released :
  exists n, runs n (observe (restore_from_replica cfg "vm1" (Some lineage) false))
    (begun ++ launched ++
     [Ev (ActivateCandidate "vm1") (Err Failure); Ev (CancelRestore "vm1") tt; Ev (ForgetLocalOwner "vm1") tt;
      Ev (EngineRemove "vm1") (Err Failure); Ev (ReleaseLeases [lease1]) (Ok tt)] ++ ended)
    (RetF (Err Failure)).
Proof. exists 21%nat. cbn [app begun launched ended]. run_on. Qed.

(** The engine reports a running candidate but fails to show it: an error counts as absence, and the
    claim is given back next to a VM that runs. *)
Example unreadable_candidate_released :
  exists n, runs n (observe (restore_from_replica cfg "vm1" (Some lineage) false))
    (begun ++
     [Ev (CandidateIsRunning "vm1") true; Ev (EngineGet "vm1") (Err Failure); Ev (CancelRestore "vm1") tt; Ev (ForgetLocalOwner "vm1") tt;
      Ev (EngineGet "vm1") (Err Failure); Ev (ReleaseLeases []) (Ok tt); Ev (AbortRestoreEpoch "vm1" "n1" 4 "n0" 3) (Ok tt)] ++ ended)
    (RetF (Err Busy)).
Proof. exists 15%nat. run_on. Qed.

(** A checkpoint was prepared, but its publication key fails: the export is never cleaned up. *)
Example prepared_export_leaks :
  exists n c, runs n (observe (replicate_sid cfg "vm1" (mkCadence ∅ ∅)))
    [Ev (RecordGet "vm1") (Ok (Some (mkCreate "vm1" (JObject ∅) "n1" 4 "" "async" "none"))); Ev UnixTime (f64_of_Z 100);
     Ev (ReplicatePrepare "vm1") (Ok (mkPrep "d2" 6 "/exports/d2" (JObject ∅)));
     Ev (PublicationKey "vm1" (mkPrep "d2" 6 "/exports/d2" (JObject ∅))) (Err Failure)]
    (RetF c).
Proof. eexists 4%nat, _. unfold replicate_sid. run_call. run_call. apply runs_call. apply runs_call. apply runs_done. Qed.

(** A sandbox that another node owns by now is not fenced by a pass whose renewal fails. *)
Example fence_skipped_after_error :
  exists n, runs n (observe renew_owner_leases_once)
    [Ev Enabled true; Ev OwnedIds (Ok ["vm1"]); Ev (LocalOwnerEpochs ["vm1"]) (Ok []); Ev (FencedLocalIds ["vm1"]) (Ok ["vm1"]);
     Ev (RenewOwnerLeases []) (Err Failure)]
    (RetF (Err Failure)).
Proof. exists 5%nat. run_on. Qed.

End ReconcilerExamples.
